(* ===== verification/_CoqProject ===== *)
-Q . S2P
Prelude.v
NamePath.v
FetchWindow.v
FieldPaths.v
StreamBudget.v
FunctionCategories.v
SessionCodec.v
Placement.v
Notifier.v
PolicyTypes.v
AdminRights.v
AuditTrail.v
AuditPipeline.v
SessionData.v
Sessions.v
SessionLaws.v
Prefix.v
Statements.v
Platform.v
PlatformLaws.v
Token.v
Identity.v
IdentityLaws.v
IdentityStore.v
IdentityStoreLaws.v
Tree.v
RewriteData.v
RewriteDml.v
RewriteRefs.v
Rewriter.v
RewriteDdl.v
RewriterRuns.v
RewriterSpec.v
RewriterLaws.v
BatchSpec.v
BatchLaws.v
RewriterSample.v
TemplateLaws.v
RewriteDmlLaws.v
RewriteRefsLaws.v
RewriterClaims.v
Grants.v
PolicyLookup.v
GrantLaws.v
GrantColumns.v
UnionWidens.v
LookupLaws.v
PolicyCache.v
PolicyCacheLaws.v
GrantSample.v
Heads.v
HeadsLaws.v
MgmtBatch.v
MgmtLists.v
MgmtLaws.v
Override.v
OverrideSpec.v
OverrideLaws.v
OverrideSample.v
