(* ===== verification/Prelude.v ===== *)
(** * duckdb-acl: access control inside DuckDB

    The program is a DuckDB extension.  A door (Flight, Quack) or a gateway opens a session for a verified principal and
    puts [ACL SESSION '...'] or [ACL ROLE '...'] in front of each statement; the parser override reads that head, and the
    rewriter turns the client's statements into ones that can only reach what the principal's grants give.  Around that
    stand the policy store, the administration catalog [platform], the identity model, the audit, and the flow control of
    the streams the doors serve.

    ** The files, in the order they build on each other

    What everything shares:
    - [Prelude]: automation and lemmas on lists, options, texts and machine words;
    - [NamePath] ([acl_name_path.hpp]): names as lists of parts and the keys they are stored under;
    - [PolicyTypes] ([acl_policy.hpp]): principals, limits of resource groups, bounded texts.

    Streams:
    - [FetchWindow] ([acl_quack_fetch_window.hpp]): the plan that hands out a result's batches to concurrent fetches;
    - [StreamBudget] ([acl_stream_budget.hpp]): the memory a node's streams reserve, and the line they wait in;
    - [Placement] ([acl_placement.hpp]): which sessions a node of a resource group serves.

    Policies:
    - [FieldPaths] ([acl_field_paths.hpp]): a grant's columns as trees of fields, their intersection along a grant chain,
      their union over roles, what they compile to;
    - [FunctionCategories] ([acl_function_categories.cpp]): which function a principal may call;
    - [AdminRights] ([acl_policy.cpp], [acl_platform.cpp]): the administration bundles and the point grants;
    - [Grants] ([acl_policy_catalog.hpp], [acl_policy_catalog.cpp]): what a grant chain says of an object, the union over
      roles, the policy an object is read and written under, the pairs of roles whose union shows what neither shows;
    - [PolicyLookup] ([acl_policy_catalog.cpp], [acl_catalog_validation.cpp], [acl_policy.cpp]): what the catalog's rows make
      of a name - a relation, a schema alias, a function, a DDL target, a held schema - and stored expressions;
    - [GrantLaws], [GrantColumns], [UnionWidens], [LookupLaws]: the rows and the columns those let through;
    - [PolicyCache], [PolicyCacheLaws] ([acl_policy_catalog.cpp], [acl_policy.hpp]): the policy version a node adopts and
      checks, and the caches kept under it; [GrantSample]: concrete catalogs their witnesses run in;
    - [Statements], [Platform], [PlatformLaws] ([acl_platform.cpp]): the [platform] catalog's registry, what a direct call
      compiles to, and the authorizer every management call passes.

    Sessions:
    - [SessionCodec] ([acl_session_state.cpp]): the session's state in a cookie;
    - [Notifier] ([acl_session_hooks.cpp]): the observers of opens and closes;
    - [AuditTrail], [AuditPipeline] ([acl_audit.cpp]): audit events, and the queue and worker behind them;
    - [SessionData], [Sessions], [SessionLaws] ([acl_policy.cpp]): the sessions a node serves and every operation on them;
    - [Prefix] ([acl_grammar.cpp], [acl_parser_override.cpp]): the head in front of a statement, composed and read.

    Identity:
    - [Token] ([acl_token.cpp]): a JWT's verification;
    - [Identity], [IdentityLaws] ([acl_identity.cpp]): clients, routing, the roles a token yields, the checks of a write;
    - [IdentityStore], [IdentityStoreLaws] ([acl_identity_store.cpp]): the model as it is kept, connections and secrets,
      the cache of key documents, a token down to its principal.

    The rewriter ([acl_rewriter.cpp], all of it):
    - [Tree]: the parts of DuckDB's syntax tree the rewriter reads or writes;
    - [RewriteData]: reasons, policies, the rewriter's state, its monad and the interfaces it asks;
    - [RewriteDml]: templates and their markers, a write's columns, values and predicate;
    - [RewriteRefs]: names under a USE, the function and type gates, what a relation, a call or a listing becomes;
    - [Rewriter]: the walk over expressions, relations and queries; [RewriteDdl]: statements and batches;
    - [RewriterRuns]: a program logic for runs of the monad; [RewriterSpec], [BatchSpec]: the grammar of what may be sent;
    - [RewriterLaws], [BatchLaws], [TemplateLaws], [RewriteDmlLaws], [RewriteRefsLaws], [RewriterClaims]: that the
      rewriter keeps to it; [RewriterSample]: a small catalog its witnesses run in.

    The override, which puts the parts together:
    - [Heads], [HeadsLaws] ([acl_mgmt_grammar.cpp], [acl_admin_sql.cpp], [acl_attach_lineage.hpp]): a text's statements by
      their first tokens, and what is decided by them;
    - [MgmtBatch] ([acl_admin_sql.cpp], [acl_admin_scanner.hpp]): what a management batch compiles to, and a secrets
      service's; [MgmtLists]: the lists of its statements read back as written; [MgmtLaws]: it runs whole or not at all;
    - [Override] ([acl_parser_override.cpp]): one batch from the text duckdb hands over to the statements it gets back, and
      what the audit is told of it; [OverrideSpec]: who may send what; [OverrideLaws]: that the override keeps to it;
      [OverrideSample]: a gateway its witnesses run in.

    ** How the code is read

    An operation is a function with its source's name.  A fallible one answers an outcome; the store's operations pass the
    store; the rewriter is a monad over its members ([RewriteData.State]), whose failures are the exceptions with what the
    thread noted of them; the override is a monad over its thread's state ([Override.gate]), the sessions included.  A
  component under a lock is a state and one function per critical section, and the interleaving
    of any threads is a relation over those ([FetchWindow], [StreamBudget], [Notifier], [AuditPipeline],
    [IdentityStore], [PolicyCacheLaws]).  Clocks and random bytes are arguments.  Machine integers are numbers with their wrap-around written
    out.  Maps are [gmap]s, or association lists where their order or their folding of case matters.

    A recursion that is not structural runs on fuel, and a theorem says the fuel is enough: [IdentityLaws.wildcard_match_is_like]
    for the wildcard match, [RewriterClaims.rewrites_end] for the rewriter, whose fuel is the depth of the tree it walks -
    the rewriter never walks what it put in a tree itself, but for the source it makes a DESCRIBE of a name over.

    What is not the repository's is a parameter: DuckDB's tokenizer and base rules ([Prefix.Tokenizer]), what it makes of a
    value's text ([Statements.Engine]), its parser and printer and the visit of a node's parts ([RewriteData.Parsing], with
    the laws [ParsingLaws]: the parts lie inside the node, are put back where they were taken, and a rebuilt node holds no
    others), its string helpers ([StringUtil]), yyjson ([Token.JsonReader]), mbedtls and p256-m
    ([Token.Crypto]).  The policy store's answers to the rewriter are an interface ([RewriteData.PolicySource]), fixed
    within a batch; so is the world around a batch ([RewriteData.Batch]).  duckdb's tokenizer as the heads read it
    is [Heads.Splitter]; the management statements as the grammar's rules read them are [MgmtBatch.MgmtGrammar]; duckdb's
    parser and the rest of the node around a batch are [Override.Gateway], a batch decided at one reading of the clock.  The rows a lookup's query selects are an
    interface too ([PolicyLookup.PolicyRows]), as is what a filter's text admits of a row ([GrantLaws.Filters], with the
    laws [FiltersLaws]: AND and OR of texts that are one expression, each in its parentheses, mean what they say).

    ** What the theorems show

    The override: whatever it makes of a prefixed text is inside what its principal may send ([prefixed_batches_are_mediated],
    which rests on the rewriter's and the authorizer's own), a streamed insert goes under its session or not at all, each
    decision is told to the audit once.  A management batch: the calls are its statements' and no others
    ([management_batch_runs_whole]), its claim maps and column lists mean what was written ([claim_map_reads_back],
    [column_names_are_kept], and where a column's name is not kept [quoted_name_swallows_the_next]).  The rewriter: what it sends on is inside the principal's grants ([batch_stays_within_grants]), it ends, its templates
    hold no marker, a write leaves only rows its predicate admits and takes the values the grant assigns, RETURNING reads
    only what is stored, a listing loses no row to its narrowing, a created table is recorded.  Grants: the rows a table is
    read through are those one of the principal's roles may read ([relation_rows_are_some_roles]), its columns those the
    grants list and the object declares ([granted_columns]) and one role shows ([some_role_shows]), the report of cells no
    role reads is exact ([report_is_exact]), an object is created where a role that may create has its home.  Caches: a
    key is its question, an answer is of the version the node runs under and held within the check interval; two theorems
    state where the code falls short ([nothing_listed_is_no_policy], [failed_check_serves_the_cache]).  Identity: a principal is
    earned by a signed token of the issuer it names, and its roles are the client's rules.  Sessions: every session is
    accounted for in the audit once, observers hear what happened, seats stay within the caps, the judges agree.
    Administration: rights are the rows they come from, denies bind, the authorizer judges by them, an administrator of a
    catalog stays within it, and no client text reaches the head of a statement.  Streams: batches go out in order, the
    budget holds, waits age.  Codecs: the prefix, the cookie and the keys read back.

    ** Not modelled

    The queries of the policy catalog, its writes, migrations and checks ([acl_policy_catalog.cpp], [acl_catalog_*.cpp])
    and the listings ([acl_metadata_listing.cpp], the views of [acl_platform.cpp]) are SQL texts over the catalog's
    tables: their meaning is the engine's.  The management
    grammar's rules are transforms over DuckDB's matcher.  Lineage and profiles walk DuckDB's plans.  The doors, the OIDC client
    and the embedded server are protocol handlers around the modelled operations.  Of the rewriter, the cost of a rewrite,
    the hash's function and a statement's lineage job are left out; of the override, an error's position in the text. *)
From Stdlib Require Export ssreflect.
From stdpp Require Export prelude gmap strings.
From Stdlib Require Export Ascii.

(** ** Characters and strings *)

Declare Scope acl_scope.
Delimit Scope acl_scope with acl.
#[global] Open Scope general_if_scope.
#[global] Open Scope acl_scope.

#[global] Arguments Ascii.eqb : simpl never.

(** The two characters every key is delimited by. *)
Definition dquote : ascii := "034"%char.
Definition squote : ascii := "039"%char.
Definition dot : ascii := "."%char.

(** A one-character string. *)
Definition str1 (c : ascii) : string := String c EmptyString.

Notation "'dq'" := (str1 dquote) : acl_scope.
Notation "'sq'" := (str1 squote) : acl_scope.

(** A name as a message quotes it. *)
Definition quoted (s : string) : string := dq +:+ s +:+ dq.

(** ASCII upper-case letters folded to lower case, every other byte itself. *)
Definition lower_char (c : ascii) : ascii :=
  let n := nat_of_ascii c in
  if (65 <=? n) && (n <=? 90) then ascii_of_nat (n + 32) else c.

Fixpoint string_map (f : ascii → ascii) (s : string) : string :=
  match s with
  | EmptyString => EmptyString
  | String c s' => String (f c) (string_map f s')
  end.

(** [std::string::find(c) != npos] for one character. *)
Fixpoint contains_char (c : ascii) (s : string) : bool :=
  match s with
  | EmptyString => false
  | String d s' => Ascii.eqb c d || contains_char c s'
  end.

(** Every occurrence of the character [c] replaced by the text [t]. *)
Fixpoint replace_char (c : ascii) (t : string) (s : string) : string :=
  match s with
  | EmptyString => EmptyString
  | String d s' =>
      if Ascii.eqb c d then t +:+ replace_char c t s' else String d (replace_char c t s')
  end.

(** Every occurrence of the characters [c d] replaced by the text [t], from the left. *)
Fixpoint replace_pair (c d : ascii) (t : string) (s : string) : string :=
  match s with
  | String a (String b s' as rest) =>
      if Ascii.eqb c a && Ascii.eqb d b then t +:+ replace_pair c d t s' else String a (replace_pair c d t rest)
  | _ => s
  end.

Definition is_empty (s : string) : bool :=
  match s with EmptyString => true | _ => false end.

Fixpoint string_forallb (p : ascii → bool) (s : string) : bool :=
  match s with
  | EmptyString => true
  | String c s' => p c && string_forallb p s'
  end.

(** The characters [StringUtil::Trim] removes at both ends (C's [isspace]). *)
Definition space_char (c : ascii) : bool :=
  let n := nat_of_ascii c in (n =? 32) || ((9 <=? n) && (n <=? 13)).

Fixpoint trim_left (s : string) : string :=
  match s with
  | EmptyString => EmptyString
  | String c s' => if space_char c then trim_left s' else s
  end.

Fixpoint trim_right (s : string) : string :=
  match s with
  | EmptyString => EmptyString
  | String c s' =>
      let r := trim_right s' in
      if space_char c && is_empty r then EmptyString else String c r
  end.

(** The parts of a list joined by a separator. *)
Fixpoint join (sep : string) (parts : list string) : string :=
  match parts with
  | [] => EmptyString
  | [p] => p
  | p :: rest => p +:+ sep +:+ join sep rest
  end.

Lemma string_app_nil_r s : s +:+ EmptyString = s.
Proof. induction s as [|c s IH]; [done|]. rw /String.app /= in IH |- *. by rw IH. Qed.

Lemma string_app_assoc a b c : a +:+ (b +:+ c) = (a +:+ b) +:+ c.
Proof. induction a as [|x a IH]; [done|]. rw /String.app /= in IH |- *. by rw IH. Qed.

Lemma string_app_cons c a b : String c a +:+ b = String c (a +:+ b).
Proof. done. Qed.

Lemma string_app_nil_l a : EmptyString +:+ a = a.
Proof. done. Qed.

Lemma str1_app c s : str1 c +:+ s = String c s.
Proof. done. Qed.

Lemma string_length_app a b : String.length (a +:+ b) = String.length a + String.length b.
Proof. induction a as [|x a IH]; [done|]. rw string_app_cons /=. lia. Qed.

Lemma contains_char_app c a b :
  contains_char c (a +:+ b) = contains_char c a || contains_char c b.
Proof. induction a as [|x a IH]; [done|]. rw string_app_cons /= IH. by rw orb_assoc. Qed.

Lemma string_map_app f a b : string_map f (a +:+ b) = string_map f a +:+ string_map f b.
Proof. induction a as [|x a IH]; [done|]. by rw !string_app_cons /= IH. Qed.

Lemma string_map_length f s : String.length (string_map f s) = String.length s.
Proof. induction s; simpl; auto. Qed.

Lemma string_forallb_app p a b :
  string_forallb p (a +:+ b) = string_forallb p a && string_forallb p b.
Proof. induction a as [|x a IH]; [done|]. by rw string_app_cons /= IH andb_assoc. Qed.

Lemma string_app_inv_head a b c : a +:+ b = a +:+ c → b = c.
Proof. apply (inj (String.app a)). Qed.

Lemma is_empty_spec s : is_empty s = true ↔ s = EmptyString.
Proof. by destruct s. Qed.

Lemma replace_char_app c t a b :
  replace_char c t (a +:+ b) = replace_char c t a +:+ replace_char c t b.
Proof.
  induction a as [|x a IH]; [done|]. rw string_app_cons /= IH.
  destruct (Ascii.eqb c x); [by rw string_app_assoc|done].
Qed.

Lemma replace_char_id c t s : contains_char c s = false → replace_char c t s = s.
Proof.
  induction s as [|x s IH]; [done|]. simpl. intros [-> Hs]%orb_false_elim. by rw IH.
Qed.

(** Folding a character twice changes nothing more; the delimiters are fixed by the fold and
    are the fold of nothing else. *)
Lemma lower_char_idemp c : lower_char (lower_char c) = lower_char c.
Proof. by destruct c as [[] [] [] [] [] [] [] []]. Qed.

Lemma lower_char_dot c : Ascii.eqb dot (lower_char c) = Ascii.eqb dot c.
Proof. by destruct c as [[] [] [] [] [] [] [] []]. Qed.

Lemma lower_char_dquote c : Ascii.eqb dquote (lower_char c) = Ascii.eqb dquote c.
Proof. by destruct c as [[] [] [] [] [] [] [] []]. Qed.

Lemma string_map_lower_idemp s :
  string_map lower_char (string_map lower_char s) = string_map lower_char s.
Proof. induction s as [|c s IH]; [done|]. by rw /= lower_char_idemp IH. Qed.

Lemma string_map_lower_contains d s :
  (∀ c, Ascii.eqb d (lower_char c) = Ascii.eqb d c) →
  contains_char d (string_map lower_char s) = contains_char d s.
Proof. intros Hd. induction s as [|c s IH]; [done|]. by rw /= Hd IH. Qed.

(** ** What the code relies on of duckdb's [StringUtil]

    duckdb is a submodule; its string helpers are the operations of this class and their
    documented behaviour the laws of [StringUtilLaws].  Every definition that calls one takes
    the class; every theorem that needs what it does takes the laws. *)

Class StringUtil := {
  Lower : string → string;
  CIEquals : string → string → bool;
  (** [Replace source from to] *)
  Replace : string → string → string → string;
  Trim : string → string;
  (** [StartsWith text prefix] *)
  StartsWith : string → string → bool;
}.

Class StringUtilLaws `{StringUtil} : Prop := {
  (** ASCII letters only, byte for byte *)
  Lower_law : ∀ s, Lower s = string_map lower_char s;
  (** equal after that fold *)
  CIEquals_law : ∀ a b,
    CIEquals a b = bool_decide (string_map lower_char a = string_map lower_char b);
  (** a one-character pattern: every occurrence, none of the replacements looked at again *)
  Replace_law : ∀ s c t, Replace s (str1 c) t = replace_char c t s;
  (** a two-character pattern, from the left *)
  Replace_pair_law : ∀ s c d t, Replace s (str1 c +:+ str1 d) t = replace_pair c d t s;
  (** both ends *)
  Trim_law : ∀ s, Trim s = trim_right (trim_left s);
  StartsWith_law : ∀ s p, StartsWith s p = String.prefix p s;
}.

(** A reference implementation, which the witnesses evaluate. *)
Definition reference_string_util : StringUtil := {|
  Lower := string_map lower_char;
  CIEquals a b := bool_decide (string_map lower_char a = string_map lower_char b);
  Replace s from to :=
    match from with
    | String c EmptyString => replace_char c to s
    | String c (String d EmptyString) => replace_pair c d to s
    | _ => s
    end;
  Trim s := trim_right (trim_left s);
  StartsWith s p := String.prefix p s;
|}.

Lemma reference_string_util_laws : @StringUtilLaws reference_string_util.
Proof. by split. Qed.

Section string_util.
Context `{SUL : StringUtilLaws}.

Lemma CIEquals_true a b : CIEquals a b = true ↔ Lower a = Lower b.
Proof. rw CIEquals_law !Lower_law. by rw bool_decide_eq_true. Qed.

Lemma CIEquals_refl a : CIEquals a a = true.
Proof. by apply CIEquals_true. Qed.

Lemma CIEquals_sym a b : CIEquals a b = CIEquals b a.
Proof. apply eq_true_iff_eq. rw !CIEquals_true. done. Qed.

Lemma CIEquals_trans a b c : CIEquals a b = true → CIEquals a c = CIEquals b c.
Proof. intros Hab%CIEquals_true. apply eq_true_iff_eq. rw !CIEquals_true Hab. done. Qed.

Lemma Lower_idemp s : Lower (Lower s) = Lower s.
Proof. rw !Lower_law. apply string_map_lower_idemp. Qed.

Lemma CIEquals_Lower_l a b : CIEquals (Lower a) b = CIEquals a b.
Proof. apply eq_true_iff_eq. rw !CIEquals_true Lower_idemp. done. Qed.
End string_util.

(** ** Calls that may throw

    A [BinderException] (or any other) is a value: [Throw] with its message. *)

Inductive outcome (A : Type) :=
  | Ok (a : A)
  | Throw (message : string).
Arguments Ok {A} _.
Arguments Throw {A} _.

#[export] Instance outcome_ret : MRet outcome := λ A a, Ok a.
#[export] Instance outcome_bind : MBind outcome := λ A B f m,
  match m with Ok a => f a | Throw e => Throw e end.

#[export] Instance outcome_eq_dec `{EqDecision A} : EqDecision (outcome A).
Proof. solve_decision. Defined.

(** A list of fallible calls, in order, the first failure the answer. *)
Fixpoint omapM {A B} (f : A → outcome B) (l : list A) : outcome (list B) :=
  match l with
  | [] => Ok []
  | x :: l' => y ← f x; ys ← omapM f l'; Ok (y :: ys)
  end.

Lemma filter_all {A} (f : A → bool) (l : list A) : Forall (λ x, f x = true) l → List.filter f l = l.
Proof. induction 1 as [|x l Hx _ IH]; [done|]. by rewrite /= Hx IH. Qed.

Lemma outcome_bind_ok {A B} (m : outcome A) (f : A → outcome B) b :
  m ≫= f = Ok b → ∃ a, m = Ok a ∧ f a = Ok b.
Proof. destruct m; [eauto|done]. Qed.

Lemma omapM_ok {A B} (f : A → outcome B) l r :
  omapM f l = Ok r → Forall2 (λ x y, f x = Ok y) l r.
Proof.
  revert r. induction l as [|x l IH]; intros r; simpl; [by intros [= <-]|].
  intros (y & Hy & Hr)%outcome_bind_ok. apply outcome_bind_ok in Hr as (ys & Hys & [= <-]).
  constructor; auto.
Qed.

Lemma omapM_throw {A B} (f : A → outcome B) l e :
  omapM f l = Throw e → ∃ x, x ∈ l ∧ f x = Throw e.
Proof.
  induction l as [|x l IH]; simpl; [done|].
  destruct (f x) as [y|e'] eqn:Hx; simpl.
  - destruct (omapM f l) as [ys|e'']; [done|]. intros [= ->].
    destruct IH as (z & Hz & Hfz); [done|]. exists z. split; [by right|done].
  - intros [= <-]. exists x. split; [left|done].
Qed.
Lemma omapM_all {A B} (f : A → outcome B) g l : (∀ x, x ∈ l → f x = Ok (g x)) → omapM f l = Ok (map g l).
Proof.
  induction l as [|x l IH]; intros Hl; [done|]. simpl. rw Hl; [set_solver|]. simpl. rw IH; [set_solver|]. done.
Qed.

Lemma omapM_unit {A} (f : A → outcome unit) l :
  (_ ← omapM f l; Ok ()) = Ok () ↔ Forall (λ x, f x = Ok ()) l.
Proof.
  split.
  - intros (us & Hus & _)%outcome_bind_ok. apply omapM_ok in Hus. induction Hus as [|x [] l us Hx _ IH]; by constructor.
  - intros Hall. erewrite omapM_all; [done|]. intros x Hx. rewrite Forall_forall in Hall. by apply Hall.
Qed.
Lemma omapM_of {A B} (f : A → outcome B) l r : Forall2 (λ x y, f x = Ok y) l r → omapM f l = Ok r.
Proof. induction 1 as [|x y l r Hx _ IH]; [done|]. by rw /= Hx /= IH. Qed.
Lemma omapM_each {A B} (f : A → outcome B) l r x : omapM f l = Ok r → x ∈ l → ∃ y, f x = Ok y.
Proof.
  intros Hall%omapM_ok [i Hi]%list_elem_of_lookup. destruct (Forall2_lookup_l _ _ _ _ _ Hall Hi) as (y & _ & ?).
  by exists y.
Qed.

(** Folds and filters of lists *)
Lemma elem_of_filter_true {A} (p : A → bool) x l : x ∈ List.filter p l ↔ x ∈ l ∧ p x = true.
Proof. by rw !list_elem_of_In filter_In. Qed.
Lemma fold_left_map {A B C} (f : C → B → C) (g : A → B) l x : fold_left f (map g l) x = fold_left (λ x a, f x (g a)) l x.
Proof. revert x. induction l as [|a l IH]; intros x; [done|]. apply IH. Qed.

(** ** duckdb's case-insensitive maps and sets

    [case_insensitive_map_t] keys compare with [CIEquals] and keep the spelling they were first
    written in.  Its iteration order is unspecified: this is the order of first insertion. *)

Section ci_map.
Context `{SU : StringUtil} {V : Type}.

(** [map.find(k)] *)
Fixpoint ci_find (k : string) (m : list (string * V)) : option V :=
  match m with
  | [] => None
  | (k', v) :: m' => if CIEquals k' k then Some v else ci_find k m'
  end.

(** [map[k] = v] *)
Fixpoint ci_set (k : string) (v : V) (m : list (string * V)) : list (string * V) :=
  match m with
  | [] => [(k, v)]
  | (k', v') :: m' => if CIEquals k' k then (k', v) :: m' else (k', v') :: ci_set k v m'
  end.

(** [map.erase(k)]; the keys are distinct, so at most one entry goes *)
Definition ci_erase (k : string) (m : list (string * V)) : list (string * V) :=
  List.filter (λ e, negb (CIEquals e.1 k)) m.
End ci_map.

(** [set.count(k)], [set.insert(k)], [set.erase(k)] *)
Definition ci_mem `{StringUtil} (k : string) (s : list string) : bool :=
  existsb (λ k', CIEquals k' k) s.
Definition ci_add `{StringUtil} (k : string) (s : list string) : list string :=
  if ci_mem k s then s else s ++ [k].
Definition ci_remove `{StringUtil} (k : string) (s : list string) : list string :=
  List.filter (λ k', negb (CIEquals k' k)) s.

Section ci_laws.
Context `{SUL : StringUtilLaws} {V : Type}.
Implicit Types m : list (string * V).

Lemma ci_find_ci k k' m : CIEquals k k' = true → ci_find k m = ci_find k' m.
Proof.
  intros Hk. induction m as [|[k0 v0] m IH]; [done|]. simpl.
  by rw IH (CIEquals_sym k0 k) (CIEquals_sym k0 k') (CIEquals_trans _ _ _ Hk).
Qed.

Lemma ci_find_set k k' v m :
  ci_find k' (ci_set k v m) = if CIEquals k k' then Some v else ci_find k' m.
Proof.
  induction m as [|[k0 v0] m IH]; simpl; [done|].
  destruct (CIEquals k0 k) eqn:Hk; simpl.
  - rw (CIEquals_trans _ _ k' Hk). by destruct (CIEquals k k').
  - destruct (CIEquals k0 k') eqn:Hk'; [|done].
    destruct (CIEquals k k') eqn:Hkk'; [|done].
    rw CIEquals_sym in Hkk'. rw (CIEquals_sym k0) (CIEquals_trans _ _ k0 Hkk') in Hk'.
    rw CIEquals_sym in Hk'. by rw Hk' in Hk.
Qed.

Lemma ci_find_erase k k' m :
  ci_find k' (ci_erase k m) = if CIEquals k k' then None else ci_find k' m.
Proof.
  induction m as [|[k0 v0] m IH]; simpl; [by destruct (CIEquals k k')|].
  destruct (CIEquals k0 k) eqn:Hk; simpl.
  - rw IH (CIEquals_trans _ _ k' Hk). by destruct (CIEquals k k').
  - rw IH. destruct (CIEquals k0 k') eqn:Hk'; [|done].
    destruct (CIEquals k k') eqn:Hkk'; [|done].
    rw CIEquals_sym in Hkk'. rw (CIEquals_sym k0) (CIEquals_trans _ _ k0 Hkk') in Hk'.
    rw CIEquals_sym in Hk'. by rw Hk' in Hk.
Qed.

Lemma ci_mem_add k k' s : ci_mem k' (ci_add k s) = CIEquals k k' || ci_mem k' s.
Proof.
  rw /ci_add. destruct (ci_mem k s) eqn:Hm.
  - destruct (CIEquals k k') eqn:Hk; [|done]. simpl. move: Hm.
    rw /ci_mem !existsb_exists. intros [x [Hx Hxk]]. exists x. split; [done|].
    by rw (CIEquals_trans _ _ k' Hxk).
  - rw /ci_mem existsb_app /= orb_false_r orb_comm. done.
Qed.

Lemma ci_mem_remove k k' s :
  ci_mem k' (ci_remove k s) = negb (CIEquals k k') && ci_mem k' s.
Proof.
  induction s as [|x s IH]; simpl; [by rw andb_false_r|].
  destruct (CIEquals x k) eqn:Hx; simpl.
  - rw -/(ci_mem _ _) -/(ci_remove _ _) IH (CIEquals_trans _ _ k' Hx). by destruct (CIEquals k k').
  - rw -/(ci_mem _ _) -/(ci_remove _ _) IH. destruct (CIEquals x k') eqn:Hx'; [|done]. simpl.
    destruct (CIEquals k k') eqn:Hk; [|done].
    rw CIEquals_sym in Hk. rw (CIEquals_sym x) (CIEquals_trans _ _ x Hk) in Hx'.
    rw CIEquals_sym in Hx'. by rw Hx' in Hx.
Qed.

Lemma ci_mem_ci k k' s : CIEquals k k' = true → ci_mem k s = ci_mem k' s.
Proof.
  intros Hk. induction s as [|x s IH]; [done|]. simpl. rw -!/(ci_mem _ _) IH.
  by rw (CIEquals_sym x k) (CIEquals_sym x k') (CIEquals_trans _ _ _ Hk).
Qed.
End ci_laws.

(** ** Machine integers

    [idx_t] is an unsigned 64-bit integer: additions, multiplications and subtractions wrap. *)

Abbreviation two64 := 18446744073709551616%N (only parsing).
Definition u64 (n : N) : N := (n mod two64)%N.
Definition uadd (a b : N) : N := u64 (a + b).
Definition umul (a b : N) : N := u64 (a * b).
Definition usub (a b : N) : N := u64 (a + two64 - b).
(** [DConstants::INVALID_INDEX], the largest [idx_t] *)
Definition invalid_index : N := 18446744073709551615%N.

(** [int64_t] sums and products; the wrap-around is the hardware's (the standard leaves it undefined) *)
Definition i64 (z : Z) : Z := ((z + 9223372036854775808) mod 18446744073709551616 - 9223372036854775808)%Z.
Definition iadd (a b : Z) : Z := i64 (a + b).
Definition isub (a b : Z) : Z := i64 (a - b).
Definition imul (a b : Z) : Z := i64 (a * b).

Lemma i64_small z : (-9223372036854775808 ≤ z < 9223372036854775808)%Z → i64 z = z.
Proof. intros Hz. rw /i64 Z.mod_small; lia. Qed.

(** A sum that wraps around upwards is only ever less, a difference that wraps downwards only ever more *)
Lemma i64_range z : (-9223372036854775808 ≤ i64 z < 9223372036854775808)%Z.
Proof. rw /i64. pose proof (Z.mod_pos_bound (z + 9223372036854775808) 18446744073709551616 ltac:(lia)). lia. Qed.
Lemma i64_le z : (-9223372036854775808 ≤ z)%Z → (i64 z ≤ z)%Z.
Proof. rw /i64. intros. pose proof (Z.mod_le (z + 9223372036854775808) 18446744073709551616). lia. Qed.
Lemma i64_ge z : (z < 9223372036854775808)%Z → (z ≤ i64 z)%Z.
Proof.
  rw /i64. intros. destruct (decide (0 ≤ z + 9223372036854775808)%Z); [rw Z.mod_small; lia|].
  pose proof (Z.mod_pos_bound (z + 9223372036854775808) 18446744073709551616 ltac:(lia)). lia.
Qed.

Lemma u64_small n : (n < two64)%N → u64 n = n.
Proof. apply N.mod_small. Qed.

Lemma uadd_small a b : (a + b < two64)%N → uadd a b = (a + b)%N.
Proof. apply u64_small. Qed.

Lemma umul_small a b : (a * b < two64)%N → umul a b = (a * b)%N.
Proof. apply u64_small. Qed.

Lemma usub_small a b : (b ≤ a)%N → (a < two64)%N → usub a b = (a - b)%N.
Proof.
  intros Hab Ha. rw /usub /u64. replace (a + two64 - b)%N with (a - b + 1 * two64)%N by lia.
  rw N.Div0.mod_add. apply N.mod_small. lia.
Qed.

Lemma u64_lt n : (u64 n < two64)%N.
Proof. by apply N.mod_lt. Qed.

Lemma iter_S {A} n (f : A → A) x : Nat.iter (S n) f x = f (Nat.iter n f x).
Proof. done. Qed.

(** ** Automation *)

Create HintDb acl.
Create Rewrite HintDb acl_simpl.
#[export] Hint Rewrite @ci_find_set @ci_find_erase @ci_mem_add @ci_mem_remove using (typeclasses eauto) : acl_simpl.
#[export] Hint Resolve CIEquals_refl u64_lt : acl.

(** Case analysis on every boolean test and option match the goal is stuck on. *)
Ltac split_tests :=
  repeat (case_match; simplify_eq/=; try done).

(** Turn the boolean tests of the hypotheses and the goal into propositions. *)
Ltac reflect_bools :=
  repeat match goal with
  | H : _ && _ = true |- _ => apply andb_prop in H as [? ?]
  | H : _ || _ = false |- _ => apply orb_false_elim in H as [? ?]
  | H : _ || _ = true |- _ => apply orb_prop in H as [?|?]
  | H : negb _ = true |- _ => apply negb_true_iff in H
  | H : negb _ = false |- _ => apply negb_false_iff in H
  | H : (_ =? _)%N = true |- _ => apply N.eqb_eq in H
  | H : (_ =? _)%N = false |- _ => apply N.eqb_neq in H
  | H : (_ <? _)%N = true |- _ => apply N.ltb_lt in H
  | H : (_ <? _)%N = false |- _ => apply N.ltb_ge in H
  | H : (_ <=? _)%N = true |- _ => apply N.leb_le in H
  | H : (_ <=? _)%N = false |- _ => apply N.leb_gt in H
  | H : (_ =? _)%Z = true |- _ => apply Z.eqb_eq in H
  | H : (_ =? _)%Z = false |- _ => apply Z.eqb_neq in H
  | H : (_ <? _)%Z = true |- _ => apply Z.ltb_lt in H
  | H : (_ <? _)%Z = false |- _ => apply Z.ltb_ge in H
  | H : (_ <=? _)%Z = true |- _ => apply Z.leb_le in H
  | H : (_ <=? _)%Z = false |- _ => apply Z.leb_gt in H
  end.
