(* ===== verification/NamePath.v ===== *)
(** * Names as lists of identifier parts ([src/src/include/acl_name_path.hpp])

    A stored name is the canonical key of its parts: joined by a dot, a part quoted only when it
    holds a dot or a quote.  This file models the reader and the writer of keys and the textual
    operations the resolver performs on keys, and proves that reading is the inverse of writing
    and that every textual operation is the operation on parts it stands for. *)
From S2P Require Import Prelude.

Section name_path.
Context `{SU : StringUtil}.

(** ** Writing *)

(** [QuotePart]: one part as it is written in a key *)
Definition QuotePart (part : string) : string :=
  if negb (contains_char dot part) && negb (contains_char dquote part) then part
  else dq +:+ Replace part dq (dq +:+ dq) +:+ dq.

(** [ToKey] *)
Definition ToKey (parts : list string) : string := join "." (map QuotePart parts).

(** [Fold] *)
Definition Fold (parts : list string) : string := Lower (ToKey parts).

(** ** Reading *)

Definition in_key (what key : string) : string := what +:+ dq +:+ key +:+ dq.

(** The quoted branch of [TryFromKey]'s loop, after the opening quote: the part read and what
    follows the closing quote; [None] when there is no closing quote. *)
Fixpoint read_quoted (s : string) : option (string * string) :=
  match s with
  | EmptyString => None
  | String c s' =>
      if negb (Ascii.eqb c dquote) then
        r ← read_quoted s'; Some (String c r.1, r.2)
      else
        match s' with
        | String d s'' =>
            if Ascii.eqb d dquote then r ← read_quoted s''; Some (String dquote r.1, r.2)
            else Some (EmptyString, s')
        | EmptyString => Some (EmptyString, s')
        end
  end.

(** The unquoted branch: up to the next dot; [None] on a quote inside the part. *)
Fixpoint read_bare (s : string) : option (string * string) :=
  match s with
  | EmptyString => Some (EmptyString, EmptyString)
  | String c s' =>
      if Ascii.eqb c dot then Some (EmptyString, s)
      else if Ascii.eqb c dquote then None
      else r ← read_bare s'; Some (String c r.1, r.2)
  end.

(** One part, quoted or not, with the checks the loop makes right after it *)
Definition read_part (key rest : string) : string + (string * string) :=
  match rest with
  | String c s' =>
      if Ascii.eqb c dquote then
        match read_quoted s' with
        | None => inl (in_key "an unterminated quote in " key)
        | Some (part, after) =>
            match after with
            | String d _ =>
                if Ascii.eqb d dot then inr (part, after)
                else inl (in_key "a character after a quoted part in " key)
            | EmptyString => inr (part, after)
            end
        end
      else
        match read_bare rest with
        | None => inl (in_key "a quote inside an unquoted part of " key)
        | Some r => inr r
        end
  | EmptyString => inr (EmptyString, EmptyString)
  end.

(** The loop of [TryFromKey].  Every iteration but the last consumes a dot, so the length of
    the key bounds them. *)
Fixpoint read_parts (fuel : nat) (key rest : string) : string + list string :=
  match fuel with
  | O => inl EmptyString
  | S fuel =>
      match read_part key rest with
      | inl error => inl error
      | inr (part, after) =>
          if is_empty part then inl (in_key "an empty part in " key)
          else
            match after with
            | EmptyString => inr [part]
            | String _ next =>
                if is_empty next then inl (in_key "an empty part in " key)
                else
                  match read_parts fuel key next with
                  | inl error => inl error
                  | inr parts => inr (part :: parts)
                  end
            end
      end
  end.

(** [TryFromKey]: the parts, or the error of a key that is refused.  (The code also leaves the
    parts read so far in its output argument when it refuses; no caller reads them.) *)
Definition TryFromKey (key : string) : string + list string :=
  if is_empty key then inl "an empty name"
  else read_parts (S (String.length key)) key key.

(** [FromKey]: the same, a refusal thrown *)
Definition FromKey (key what : string) : outcome (list string) :=
  match TryFromKey key with
  | inr parts => Ok parts
  | inl error => Throw ("acl: " +:+ what +:+ " is not a valid name: " +:+ error)
  end.

(** [FromQualified]: the parts of a parsed name, an empty placeholder skipped *)
Definition FromQualified (path : list string) : list string :=
  List.filter (λ p, negb (is_empty p)) path.

(** ** The list of parts *)

Definition Rest (parts : list string) : list string := tail parts.
Definition Parent (parts : list string) : list string := removelast parts.
Definition Child (parts : list string) (part : string) : list string := parts ++ [part].
Definition Join (parts tail : list string) : list string := parts ++ tail.
Definition Head (parts : list string) : string := hd EmptyString parts.
Definition Leaf (parts : list string) : string := List.last parts EmptyString.

(** ** Keys as text *)

Definition JoinKeys (prefix tail : string) : string :=
  if is_empty prefix then tail
  else if is_empty tail then prefix else prefix +:+ "." +:+ tail.

Definition ChildKey (prefix part : string) : string := JoinKeys prefix (QuotePart part).

(** [SplitHeadKey]: the first part and the rest, both as keys *)
Definition SplitHeadKey (key : string) : bool * (string * string) :=
  match TryFromKey key with
  | inl _ => (false, (EmptyString, EmptyString))
  | inr path =>
      if (length path <? 2)%nat then (false, (EmptyString, EmptyString))
      else (true, (QuotePart (Head path), ToKey (Rest path)))
  end.

(** [SplitLeaf]: the key of everything before the last part, and the raw last part *)
Definition SplitLeaf (key : string) : bool * (string * string) :=
  match TryFromKey key with
  | inl _ => (false, (EmptyString, key))
  | inr path => (true, (ToKey (Parent path), Leaf path))
  end.

Definition KeySize (key : string) : nat :=
  match TryFromKey key with inr path => length path | inl _ => 0 end.

Definition KeyEquals (a b : string) : bool := CIEquals a b.

(** [KeyUnder]: [key] lies strictly under [path] *)
Definition KeyUnder (key path : string) : bool :=
  (String.length path + 1 <? String.length key)%nat
  && match String.get (String.length path) key with
     | Some c => Ascii.eqb c dot
     | None => false
     end
  && CIEquals (String.substring 0 (String.length path) key) path.

(** [Display]: a schema key as a listing shows it *)
Definition Display (key : string) : string :=
  match TryFromKey key with
  | inl _ => key
  | inr path =>
      if (length path =? 1)%nat && negb (contains_char dot (Head path)) then Head path else key
  end.

(** [Unquote]: a one-part key as its raw name *)
Definition Unquote (key : string) : string :=
  match TryFromKey key with
  | inr path => if (length path =? 1)%nat then Head path else key
  | inl _ => key
  end.

(** [FromDisplay] *)
Definition FromDisplay (shown : string) : string :=
  if contains_char dquote shown && negb (contains_char dot shown) then QuotePart shown
  else shown.

(** [MainFallback] of [acl_policy.cpp]: [<vcat>.main.<x>] names the object at the catalog's
    root, [<vcat>.<x>] *)
Definition MainFallback (vname : string) : option string :=
  match TryFromKey vname with
  | inr [c; m; x] => if CIEquals m "main" then Some (ToKey [c; x]) else None
  | _ => None
  end.

(** ** Text for other readers

    What duckdb decides (which identifiers must be quoted, how a qualified name is written) is
    a parameter. *)
Section to_grammar.
(** [KeywordHelper::RequiresQuotes(part, true)] *)
Variable RequiresQuotes : string → bool.

Definition grammar_part (part : string) : string :=
  if negb (is_empty part) && negb (RequiresQuotes part) then part
  else dq +:+ Replace part dq (dq +:+ dq) +:+ dq.

Definition ToGrammar (parts : list string) : string := join "." (map grammar_part parts).

Definition KeyToGrammar (key : string) : string :=
  match TryFromKey key with inr path => ToGrammar path | inl _ => key end.
End to_grammar.

Section to_sql.
Context {QualifiedName : Type}.
(** [QualifiedName::FromPath] and [ToString] *)
Variable FromPath : list string → QualifiedName.
Variable QualifiedToString : QualifiedName → string.

Definition ToQualified (parts : list string) : QualifiedName := FromPath parts.
Definition ToSql (parts : list string) : string := QualifiedToString (ToQualified parts).
Definition KeyToSql (key : string) : outcome string :=
  path ← FromKey key "a stored physical name"; Ok (ToSql path).
Definition KeyToQualified (key : string) : outcome QualifiedName :=
  path ← FromKey key "a stored physical name"; Ok (ToQualified path).
End to_sql.
End name_path.

(** A name that can be stored: at least one part, none empty *)
Definition wf_parts (parts : list string) : Prop :=
  parts ≠ [] ∧ Forall (λ p, is_empty p = false) parts.

(** What may follow a part: the end of the key, or a dot *)
Definition boundary (rest : string) : Prop :=
  match rest with EmptyString => True | String c _ => c = dot end.

Section laws.
Context `{SUL : StringUtilLaws}.

(** ** Reading back what was written *)

Lemma read_quoted_escaped p rest :
  match rest with String c _ => Ascii.eqb c dquote = false | EmptyString => True end →
  read_quoted (replace_char dquote (dq +:+ dq) p +:+ dq +:+ rest) = Some (p, rest).
Proof.
  intros Hrest. induction p as [|c p IH].
  - destruct rest as [|d rest]; [done|]. simpl. by rw Hrest.
  - simpl. destruct (Ascii.eqb dquote c) eqn:Hc.
    + apply Ascii.eqb_eq in Hc as <-.
      rw -!string_app_assoc !str1_app /=. by rw IH.
    + rw string_app_cons /=. rw Ascii.eqb_sym in Hc. by rw Hc /= IH.
Qed.

Lemma read_bare_plain p rest :
  contains_char dot p = false → contains_char dquote p = false → boundary rest →
  read_bare (p +:+ rest) = Some (p, rest).
Proof.
  intros Hd Hq Hrest. induction p as [|c p IH].
  - destruct rest as [|d rest]; [done|]. simpl in Hrest. by subst d.
  - move: Hd Hq. rw string_app_cons. cbn [contains_char read_bare].
    intros [Hd Hd']%orb_false_elim [Hq Hq']%orb_false_elim.
    rw (Ascii.eqb_sym c dot) Hd (Ascii.eqb_sym c dquote) Hq. by rw IH.
Qed.

Lemma QuotePart_cases p :
  (contains_char dot p = false ∧ contains_char dquote p = false ∧ QuotePart p = p) ∨
  ((contains_char dot p = true ∨ contains_char dquote p = true) ∧
   QuotePart p = dq +:+ replace_char dquote (dq +:+ dq) p +:+ dq).
Proof.
  rw /QuotePart Replace_law.
  destruct (contains_char dot p), (contains_char dquote p); simpl; auto.
Qed.

Lemma read_part_written key p rest :
  is_empty p = false → boundary rest →
  read_part key (QuotePart p +:+ rest) = inr (p, rest).
Proof.
  intros Hp Hrest. destruct (QuotePart_cases p) as [(Hd & Hq & ->)|(_ & ->)].
  - destruct p as [|c p]; [done|].
    pose proof (read_bare_plain (String c p) rest Hd Hq Hrest) as Hb.
    rw string_app_cons in Hb |- *. cbn [read_part].
    move: Hq. cbn [contains_char]. rw Ascii.eqb_sym. intros [-> _]%orb_false_elim. by rw Hb.
  - rw -!string_app_assoc str1_app. cbn [read_part].
    change (Ascii.eqb dquote dquote) with true. cbv iota.
    destruct rest as [|d rest]; simpl in Hrest; [|subst d]; by rw read_quoted_escaped.
Qed.

Lemma read_quoted_shorter s r :
  read_quoted s = Some r → String.length r.2 ≤ String.length s.
Proof.
  revert r. induction s as [s IH] using (induction_ltof1 _ String.length).
  rw /ltof in IH. destruct s as [|c s]; [done|]. intros r. cbn [read_quoted].
  destruct (negb (Ascii.eqb c dquote)).
  - destruct (read_quoted s) as [r'|] eqn:Hr; [|done]. intros [= <-].
    apply IH in Hr; simpl in *; lia.
  - destruct s as [|d s]; [by intros [= <-]; simpl; lia|].
    destruct (Ascii.eqb d dquote); [|intros [= <-]; simpl; lia].
    destruct (read_quoted s) as [r'|] eqn:Hr; [|done]. intros [= <-].
    apply IH in Hr; simpl in *; lia.
Qed.

Lemma read_bare_shorter s r : read_bare s = Some r → String.length r.2 ≤ String.length s.
Proof.
  revert r. induction s as [|c s IH]; intros r; cbn [read_bare]; [by intros [= <-]|].
  destruct (Ascii.eqb c dot); [by intros [= <-]|].
  destruct (Ascii.eqb c dquote); [done|].
  destruct (read_bare s) as [r'|]; [|done]. intros [= <-]. specialize (IH _ eq_refl).
  simpl in *; lia.
Qed.

Lemma read_part_shorter key s p after :
  read_part key s = inr (p, after) → String.length after ≤ String.length s.
Proof.
  destruct s as [|c s]; cbn [read_part]; [by intros [= <- <-]|].
  destruct (Ascii.eqb c dquote).
  - destruct (read_quoted s) as [[q a]|] eqn:Hr; [|done].
    apply read_quoted_shorter in Hr. intros Heq; simpl in *; split_tests; lia.
  - destruct (read_bare (String c s)) as [r|] eqn:Hr; [|done]. intros [= ->].
    by apply read_bare_shorter in Hr.
Qed.

Lemma dot_app s : "." +:+ s = String dot s.
Proof. done. Qed.

Lemma read_parts_S f key s :
  read_parts (S f) key s =
    match read_part key s with
    | inl error => inl error
    | inr (part, after) =>
        if is_empty part then inl (in_key "an empty part in " key)
        else
          match after with
          | EmptyString => inr [part]
          | String _ next =>
              if is_empty next then inl (in_key "an empty part in " key)
              else
                match read_parts f key next with
                | inl error => inl error
                | inr parts => inr (part :: parts)
                end
          end
    end.
Proof. done. Qed.

(** More fuel than the text is long changes nothing. *)
Lemma read_parts_fuel key s f1 f2 :
  String.length s < f1 → String.length s < f2 → read_parts f1 key s = read_parts f2 key s.
Proof.
  revert s f2. induction f1 as [|f1 IH]; intros s [|f2] H1 H2; try lia.
  cbn [read_parts]. destruct (read_part key s) as [e|[p after]] eqn:Hp; [done|].
  apply read_part_shorter in Hp. destruct (is_empty p); [done|].
  destruct after as [|d next]; [done|]. simpl in Hp.
  destruct (is_empty next); [done|]. rw (IH next f2) //; lia.
Qed.

Lemma ToKey_cons p ps : ps ≠ [] → ToKey (p :: ps) = QuotePart p +:+ "." +:+ ToKey ps.
Proof. by destruct ps. Qed.

Lemma is_empty_QuotePart p : is_empty p = false → is_empty (QuotePart p) = false.
Proof. intros Hp. by destruct (QuotePart_cases p) as [(_ & _ & ->)|(_ & ->)]. Qed.

Lemma is_empty_app a b : is_empty (a +:+ b) = is_empty a && is_empty b.
Proof. by destruct a. Qed.

Lemma ToKey_nonempty ps : wf_parts ps → is_empty (ToKey ps) = false.
Proof.
  intros [Hne Hall]. destruct ps as [|p [|q ps]]; [done| |];
    inversion_clear Hall; rw /ToKey /= ?is_empty_app is_empty_QuotePart //.
Qed.

Lemma wf_parts_cons p ps : wf_parts (p :: ps) ↔ is_empty p = false ∧ (ps = [] ∨ wf_parts ps).
Proof.
  rw /wf_parts Forall_cons. split.
  - intros (_ & ? & ?). split; [done|]. destruct ps; [by left|right; done].
  - intros (? & [->|[? ?]]); auto.
Qed.

(** The reader run on a written key followed by more text: the parts written, then whatever
    the rest reads as. *)
Lemma read_parts_written key ps next f :
  wf_parts ps → is_empty next = false →
  String.length (ToKey ps +:+ "." +:+ next) < f →
  read_parts f key (ToKey ps +:+ "." +:+ next) =
    match read_parts (S (String.length next)) key next with
    | inl e => inl e
    | inr qs => inr (ps ++ qs)
    end.
Proof.
  revert f. induction ps as [|p ps IH]; intros f Hwf Hnext Hf; [by destruct Hwf|].
  destruct f as [|f]; [lia|]. apply wf_parts_cons in Hwf as [Hp Hps].
  destruct (decide (ps = [])) as [->|Hne].
  - move: Hf. rw /ToKey read_parts_S /= read_part_written // Hp /= !string_app_nil_l Hnext.
    rw !string_length_app /= => Hf.
    rw (read_parts_fuel _ _ f (S (String.length next))) //; lia.
  - destruct Hps as [->|Hps]; [done|]. move: Hf.
    rw ToKey_cons // -!string_app_assoc. intros Hf.
    rw read_parts_S read_part_written // Hp.
    rw dot_app is_empty_app ToKey_nonempty // IH //.
    + move: Hf. rw !string_length_app /=. lia.
    + by destruct (read_parts _ key next).
Qed.

Lemma read_parts_ToKey key ps f :
  wf_parts ps → String.length (ToKey ps) < f → read_parts f key (ToKey ps) = inr ps.
Proof.
  revert f. induction ps as [|p ps IH]; intros f Hwf Hf; [by destruct Hwf|].
  destruct f as [|f]; [lia|]. apply wf_parts_cons in Hwf as [Hp Hps].
  destruct (decide (ps = [])) as [->|Hne].
  - rw read_parts_S /ToKey /= -(string_app_nil_r (QuotePart p)).
    by rw read_part_written // Hp.
  - destruct Hps as [->|Hps]; [done|]. move: Hf. rw ToKey_cons // => Hf.
    rw read_parts_S read_part_written // Hp dot_app ToKey_nonempty // IH //.
    move: Hf. rw !string_length_app /=. lia.
Qed.

(** ** What a key may be: reading accepts only lists of non-empty parts *)
Lemma read_parts_wf f key s ps : read_parts f key s = inr ps → wf_parts ps.
Proof.
  revert s ps. induction f as [|f IH]; intros s ps; [done|]. rw read_parts_S.
  destruct (read_part key s) as [e|[p after]]; [done|].
  destruct (is_empty p) eqn:Hp; [done|]. destruct after as [|d next].
  - intros [= <-]. apply wf_parts_cons. auto.
  - destruct (is_empty next); [done|].
    destruct (read_parts f key next) as [e|qs] eqn:Hq; [done|]. intros [= <-].
    apply wf_parts_cons. eauto.
Qed.

Lemma TryFromKey_wf key ps : TryFromKey key = inr ps → wf_parts ps.
Proof. rw /TryFromKey. destruct (is_empty key); [done|]. apply read_parts_wf. Qed.

Lemma TryFromKey_written ps : wf_parts ps → TryFromKey (ToKey ps) = inr ps.
Proof.
  intros Hwf. rw /TryFromKey ToKey_nonempty // read_parts_ToKey //. lia.
Qed.

(** ** Folding a key folds its parts *)
Definition fold_parts (ps : list string) : list string := map (string_map lower_char) ps.

Lemma string_map_replace_dquote s :
  string_map lower_char (replace_char dquote (dq +:+ dq) s) =
  replace_char dquote (dq +:+ dq) (string_map lower_char s).
Proof.
  induction s as [|c s IH]; [done|]. rw /= lower_char_dquote.
  destruct (Ascii.eqb dquote c); [|by rw /= IH].
  by rw string_map_app IH.
Qed.

Lemma lower_QuotePart p :
  string_map lower_char (QuotePart p) = QuotePart (string_map lower_char p).
Proof.
  rw /QuotePart !Replace_law.
  rw (string_map_lower_contains dot _ lower_char_dot).
  rw (string_map_lower_contains dquote _ lower_char_dquote).
  destruct (negb _ && negb _); [done|].
  by rw !string_map_app string_map_replace_dquote.
Qed.

Lemma lower_ToKey ps : string_map lower_char (ToKey ps) = ToKey (fold_parts ps).
Proof.
  induction ps as [|p [|q ps] IH]; [done| |].
  - by rw /ToKey /= lower_QuotePart.
  - change (fold_parts (p :: q :: ps))
      with (string_map lower_char p :: fold_parts (q :: ps)).
    rw (ToKey_cons p) // (ToKey_cons (string_map _ p)) //.
    by rw !string_map_app lower_QuotePart IH.
Qed.

Lemma wf_fold_parts ps : wf_parts ps → wf_parts (fold_parts ps).
Proof.
  intros [Hne Hall]. split; [by destruct ps|].
  apply Forall_map. eapply Forall_impl; [exact Hall|]. intros p. by destruct p.
Qed.

Lemma ToKey_app ps qs :
  ps ≠ [] → qs ≠ [] → ToKey (ps ++ qs) = ToKey ps +:+ "." +:+ ToKey qs.
Proof.
  intros Hps Hqs. induction ps as [|p ps IH]; [done|].
  destruct (decide (ps = [])) as [->|Hne].
  - simpl. by rw ToKey_cons.
  - change ((p :: ps) ++ qs) with (p :: (ps ++ qs)).
    rw (ToKey_cons p (ps ++ qs)); [by intros [-> _]%app_eq_nil|].
    by rw (ToKey_cons p ps) // IH // !string_app_assoc.
Qed.

(** ** A prefix of a key, cut at a dot, is a key cut at a part *)
Lemma written_prefix ps qs next :
  wf_parts ps → wf_parts qs → is_empty next = false →
  ToKey ps = ToKey qs +:+ "." +:+ next →
  ∃ rs, wf_parts rs ∧ ps = qs ++ rs ∧ next = ToKey rs.
Proof.
  intros Hps Hqs Hnext Heq.
  pose proof (read_parts_ToKey EmptyString ps _ Hps (Nat.lt_succ_diag_r _)) as Hr.
  rw Heq in Hr. rw read_parts_written in Hr; [..|lia|]; [done..|].
  destruct (read_parts _ _ next) as [e|rs] eqn:Hn; [done|]. simplify_eq.
  pose proof (read_parts_wf _ _ _ _ Hn) as Hrs. exists rs. split; [done|]. split; [done|].
  rw ToKey_app in Heq; [apply Hqs|apply Hrs|].
  by apply string_app_inv_head, string_app_inv_head in Heq.
Qed.

Lemma substring_prefix a b : String.substring 0 (String.length a) (a +:+ b) = a.
Proof. induction a as [|c a IH]; [by destruct b|]. by rw string_app_cons /= IH. Qed.

Lemma get_prefix a c b : String.get (String.length a) (a +:+ String c b) = Some c.
Proof. induction a as [|d a IH]; [done|]. by rw string_app_cons. Qed.

(** What the textual test of [KeyUnder] says of any two texts *)
Lemma KeyUnder_spec key path :
  KeyUnder key path = true ↔
  ∃ pre next, key = pre +:+ "." +:+ next ∧ is_empty next = false ∧
    string_map lower_char pre = string_map lower_char path.
Proof.
  rw /KeyUnder CIEquals_law. split.
  - intros [[Hlen Hget]%andb_prop Hpre%bool_decide_eq_true]%andb_prop.
    apply Nat.ltb_lt in Hlen.
    revert key Hlen Hget Hpre. generalize (String.length path) as n. intros n key.
    generalize (string_map lower_char path). intros low. revert n low.
    induction key as [|c key IH]; intros n low Hlen Hget Hpre; [simpl in Hlen; lia|].
    destruct n as [|n].
    + simpl in Hget. apply Ascii.eqb_eq in Hget as ->. exists EmptyString, key.
      split; [done|]. split; [|by destruct key].
      destruct key; [simpl in Hlen; lia|done].
    + destruct low as [|l low]; [done|]. simpl in Hpre. injection Hpre as Hc Hpre.
      destruct (IH n low) as (pre & next & -> & Hnext & Hl); [simpl in Hlen; lia|done..|].
      exists (String c pre), next. split; [done|]. split; [done|]. by rw /= Hc Hl.
  - intros (pre & next & -> & Hnext & Hl).
    assert (Hlen : String.length path = String.length pre).
    { by rw -(string_map_length lower_char) -Hl string_map_length. }
    rw Hlen substring_prefix dot_app get_prefix string_length_app /=. 
    rw bool_decide_eq_true_2 // andb_true_r. apply andb_true_intro. split; [|done].
    apply Nat.ltb_lt. destruct next; [done|]. simpl. lia.
Qed.
End laws.

(** ** Properties *)

Section properties.
Context `{SUL : StringUtilLaws}.

(** a stored key reads back as exactly the parts it was built from, whatever characters
    they hold: [TryFromKey] after [ToKey] is the identity on lists of non-empty parts. *)
Theorem key_roundtrip (parts : list string) :
  wf_parts parts → TryFromKey (ToKey parts) = inr parts.
Proof. apply TryFromKey_written. Qed.

(** [KeyUnder], a comparison of text, decides exactly "strictly under" on parts: the path's
    parts are, up to case, the first parts of the key, and the key has more. *)
Theorem key_under_parts (key path : list string) :
  wf_parts key → wf_parts path →
  KeyUnder (ToKey key) (ToKey path) = true ↔
  ∃ pre rest, key = pre ++ rest ∧ rest ≠ [] ∧ map Lower pre = map Lower path.
Proof.
  intros Hk Hp. rw KeyUnder_spec. split.
  - intros (pre & next & Heq & Hnext & Hl). rw lower_ToKey in Hl.
    assert (Hfold : ToKey (fold_parts key) =
              ToKey (fold_parts path) +:+ "." +:+ string_map lower_char next).
    { by rw -lower_ToKey Heq !string_map_app Hl. }
    apply written_prefix in Hfold as (rs & Hrs & Happ & _);
      [|by apply wf_fold_parts|by apply wf_fold_parts|by destruct next].
    exists (take (length path) key), (drop (length path) key).
    assert (Hlen : length key = length path + length rs).
    { by rw -(length_map (string_map lower_char) key) -/(fold_parts key) Happ length_app length_map. }
    rw take_drop. split; [done|]. split.
    + intros Hd%(f_equal length). rw length_drop /= in Hd.
      destruct rs; [by destruct Hrs|simpl in *; lia].
    + rw !(map_ext Lower (string_map lower_char) Lower_law).
      apply (f_equal (take (length path))) in Happ.
      rw /fold_parts -firstn_map Happ take_app_length' // length_map //.
  - intros (pre & rest & -> & Hrest & Hl).
    rw !(map_ext Lower (string_map lower_char) Lower_law) in Hl.
    assert (Hpre : pre ≠ []). { intros ->. destruct path; [by destruct Hp|done]. }
    exists (ToKey pre), (ToKey rest). rw ToKey_app //. split; [done|]. split.
    + apply ToKey_nonempty. split; [done|]. by destruct Hk as [_ [_ ?]%Forall_app].
    + by rw !lower_ToKey /fold_parts Hl.
Qed.

(** [FromDisplay] is the inverse of [Display] on every stored schema key: what a listing
    shows of a key names that key again. *)
Theorem display_roundtrip (parts : list string) :
  wf_parts parts → FromDisplay (Display (ToKey parts)) = ToKey parts.
Proof.
  intros Hwf. rw /Display TryFromKey_written //.
  destruct parts as [|p [|q parts]]; [by destruct Hwf| |].
  - simpl. destruct (contains_char dot p) eqn:Hd; simpl.
    + rw /FromDisplay /ToKey /=. destruct (QuotePart_cases p) as [(Hd' & _ & _)|(_ & ->)].
      { by rw Hd in Hd'. }
      rw !contains_char_app /=.
      assert (contains_char dot (replace_char dquote (dq +:+ dq) p) = true) as ->.
      { clear Hwf. induction p as [|c p IH]; [done|]. simpl in Hd |- *.
        destruct (Ascii.eqb dot c) eqn:Hc; [apply Ascii.eqb_eq in Hc as <-; done|].
        simpl in Hd. destruct (Ascii.eqb dquote c); [rw contains_char_app IH //|].
        rw /= IH // orb_true_r //. }
      done.
    + rw /FromDisplay /ToKey /= Hd /= andb_true_r.
      destruct (contains_char dquote p) eqn:Hq; [done|]. by rw /QuotePart Hd Hq.
  - assert (contains_char dot (ToKey (p :: q :: parts)) = true) as Hd.
    { rw ToKey_cons // contains_char_app dot_app /=. apply orb_true_r. }
    by rw /= /FromDisplay Hd andb_false_r.
Qed.

(** the key operations the resolver uses are the operations on parts: joining keys joins the
    lists, the head split and the leaf split cut at the first and the last part. *)
Theorem key_operations_on_parts (ps qs : list string) (p : string) :
  wf_parts ps → wf_parts qs → is_empty p = false →
  JoinKeys (ToKey ps) (ToKey qs) = ToKey (ps ++ qs) ∧
  ChildKey (ToKey ps) p = ToKey (ps ++ [p]) ∧
  SplitHeadKey (ToKey (p :: ps)) = (true, (QuotePart p, ToKey ps)) ∧
  SplitLeaf (ToKey (ps ++ [p])) = (true, (ToKey ps, p)) ∧
  KeySize (ToKey ps) = length ps.
Proof.
  intros Hps Hqs Hp.
  assert (Hjoin : ∀ l, wf_parts l → JoinKeys (ToKey ps) (ToKey l) = ToKey (ps ++ l)).
  { intros l Hl. rw /JoinKeys !ToKey_nonempty // ToKey_app //; [apply Hps|apply Hl]. }
  assert (Hone : wf_parts [p]). { split; [done|]. by constructor. }
  assert (Hps1 : wf_parts (p :: ps)). { apply wf_parts_cons. auto. }
  assert (Hps2 : wf_parts (ps ++ [p])).
  { split; [by destruct ps|]. apply Forall_app. split; [apply Hps|apply Hone]. }
  split; [by apply Hjoin|]. split; [by apply (Hjoin [p])|].
  rw /SplitHeadKey /SplitLeaf /KeySize !TryFromKey_written //. split.
  - destruct ps; [by destruct Hps|done].
  - by rw /Parent /Leaf removelast_last last_last.
Qed.
End properties.

(** The witnesses: names with a dot, a quote and capitals in their parts. *)
Section witnesses.
#[local] Existing Instance reference_string_util.
#[local] Existing Instance reference_string_util_laws.

Definition sample_catalog : list string := ["Raw Data"; "a.b"].
Definition sample_table : list string := ["raw data"; "A.B"; "q" +:+ dq +:+ "uote"].

Lemma sample_catalog_wf : wf_parts sample_catalog.
Proof. split; [done|repeat constructor]. Defined.
Lemma sample_table_wf : wf_parts sample_table.
Proof. split; [done|repeat constructor]. Defined.

Lemma key_roundtrip_witness : TryFromKey (ToKey sample_table) = inr sample_table.
Proof. exact (key_roundtrip sample_table sample_table_wf). Defined.

Lemma key_under_parts_witness :
  KeyUnder (ToKey sample_table) (ToKey sample_catalog) = true.
Proof.
  apply (key_under_parts sample_table sample_catalog sample_table_wf sample_catalog_wf).
  exists ["raw data"; "A.B"], ["q" +:+ dq +:+ "uote"]. split; [done|]. split; [done|].
  vm_compute. reflexivity.
Defined.

Lemma display_roundtrip_witness :
  FromDisplay (Display (ToKey sample_table)) = ToKey sample_table.
Proof. exact (display_roundtrip sample_table sample_table_wf). Defined.

Lemma key_operations_on_parts_witness :
  JoinKeys (ToKey sample_catalog) (ToKey sample_table) = ToKey (sample_catalog ++ sample_table).
Proof.
  exact (proj1 (key_operations_on_parts sample_catalog sample_table "x"
           sample_catalog_wf sample_table_wf eq_refl)).
Defined.
End witnesses.
