(* ===== verification/FetchWindow.v ===== *)
(** * The embedded door's fetch window
      ([src/src/quack_embed/include/acl_quack_fetch_window.hpp])

    [plan] is [AclFetchWindowPlan]: which answer each FETCH index of a result stream gets.  The
    caller holds the stream's [serve_lock], so every method is one atomic step; the step relation
    below interleaves them in any order a client and a server can. *)
From S2P Require Import Prelude.
Open Scope N_scope.

(** ** State *)

Inductive Kind := BATCH | EMPTY | GONE | TOO_FAR.
Inductive Hold := NONE | PRODUCTION | ACKNOWLEDGEMENT.
Record Answer := { kind : Kind; source : N }.

#[export] Instance Kind_eq_dec : EqDecision Kind.
Proof. solve_decision. Defined.
#[export] Instance Hold_eq_dec : EqDecision Hold.
Proof. solve_decision. Defined.
#[export] Instance Answer_eq_dec : EqDecision Answer.
Proof. solve_decision. Defined.

Definition MAX_AHEAD : N := 65536.
Definition ACK_HOLD_MS : N := 20.
Definition ACK_HOLD_MAX_MS : N := 500.
Definition EMPTY_MARK : N := invalid_index.

Record plan := Plan {
  width : N;
  max : N;
  (** the acknowledged batches with rows at which the window doubles next *)
  next_growth : N;
  acked_batches : N;
  (** 1..decided have their answer *)
  decided : N;
  (** the highest ack seen *)
  acked : N;
  empties : N;
  closed : bool;
  (** indices above the ack that carry rows *)
  open_real : gset N;
  (** the answers above the ack: the produced batch, or [EMPTY_MARK] *)
  answers : gmap N N;
  (** indices carrying rows that are decided and not yet answered *)
  unanswered : gset N;
  (** indices carrying rows whose own FETCH has arrived *)
  arrived : gset N;
  (** when an EMPTY index was first held on a timer, and for how long *)
  held_since : gmap N (N * N);
  ack_hold_ms : N;
}.

(** The constructor: [start] 0 = no window, [max] 0 = no cap *)
Definition new_plan (start max_p : N) : plan :=
  let width := if max_p =? 0 then start else N.min start max_p in
  Plan width max_p width 0 0 0 0 false ∅ ∅ ∅ ∅ ∅ ACK_HOLD_MS.

(** [std::map::emplace]: a key already there keeps its value *)
Definition emplace {V} (k : N) (v : V) (m : gmap N V) : gmap N V :=
  match m !! k with Some _ => m | None => <[k := v]> m end.

(** ** Decide *)

(** [if (decided < first) decided = first;] *)
Definition skip_inline (first : N) (p : plan) : plan :=
  if decided p <? first then
    Plan (width p) (max p) (next_growth p) (acked_batches p) first (acked p) (empties p)
      (closed p) (open_real p) (answers p) (unanswered p) (arrived p) (held_since p) (ack_hold_ms p)
  else p.

(** One entry of the loop over the answers the ack passed *)
Definition ack_entry (entry : N * N) (p : plan) : plan :=
  let '(k, answer) := entry in
  let real := negb (answer =? EMPTY_MARK) in
  Plan (width p) (max p) (next_growth p)
    (if real then uadd (acked_batches p) 1 else acked_batches p)
    (decided p) (acked p) (empties p) (closed p)
    (if real then open_real p ∖ {[k]} else open_real p)
    (delete k (answers p))
    (if real then unanswered p ∖ {[k]} else unanswered p)
    (if real then arrived p ∖ {[k]} else arrived p)
    (delete k (held_since p)) (ack_hold_ms p).

(** The doubling loop.  The window is below [MAX_AHEAD] each time it doubles, so 17 rounds are
    more than it can take ([grow_stops]). *)
Fixpoint grow (fuel : nat) (p : plan) : plan :=
  match fuel with
  | O => p
  | S fuel =>
      if (next_growth p <=? acked_batches p) && (width p <? MAX_AHEAD)
         && ((max p =? 0) || (width p <? max p))
      then
        let w := if max p =? 0 then umul (width p) 2 else N.min (umul (width p) 2) (max p) in
        grow fuel
          (Plan w (max p) (uadd (next_growth p) w) (acked_batches p) (decided p) (acked p)
             (empties p) (closed p) (open_real p) (answers p) (unanswered p) (arrived p)
             (held_since p) (ack_hold_ms p))
      else p
  end.

Definition grow_fuel : nat := 17.

(** [if (ack > acked) { ... }] *)
Definition set_acked (ack : N) (p : plan) : plan :=
  Plan (width p) (max p) (next_growth p) (acked_batches p) (decided p) ack (empties p)
    (closed p) (open_real p) (answers p) (unanswered p) (arrived p) (held_since p) ACK_HOLD_MS.

Definition passed (ack : N) (p : plan) : list (N * N) :=
  map_to_list (filter (λ e : N * N, e.1 <= ack) (answers p)).

Definition take_ack (ack : N) (p : plan) : plan :=
  if acked p <? ack then
    grow grow_fuel (foldr ack_entry (set_acked ack p) (passed ack p))
  else p.

(** One iteration of [while (decided < index)] *)
Definition decide_next (p : plan) : plan :=
  let next := uadd (decided p) 1 in
  if negb (closed p) && (width p <=? N.of_nat (size (open_real p))) then
    Plan (width p) (max p) (next_growth p) (acked_batches p) next (acked p)
      (uadd (empties p) 1) (closed p) (open_real p) (emplace next EMPTY_MARK (answers p))
      (unanswered p) (arrived p) (held_since p) (ack_hold_ms p)
  else
    Plan (width p) (max p) (next_growth p) (acked_batches p) next (acked p)
      (empties p) (closed p) ({[next]} ∪ open_real p)
      (emplace next (usub next (empties p)) (answers p))
      ({[next]} ∪ unanswered p) (arrived p) (held_since p) (ack_hold_ms p).

(** The loop: [decided] grows by one per round, so [index - decided] rounds *)
Definition decide_up_to (index : N) (p : plan) : plan :=
  Nat.iter (N.to_nat (index - decided p)) decide_next p.

(** The answer an index already decided has, its FETCH noted when the producer owes its batch *)
Definition read_answer (index : N) (p : plan) : plan * Answer :=
  match answers p !! index with
  | None => (p, Build_Answer GONE 0)
  | Some src =>
      if src =? EMPTY_MARK then (p, Build_Answer EMPTY 0)
      else
        (if bool_decide (index ∈ unanswered p) then
           Plan (width p) (max p) (next_growth p) (acked_batches p) (decided p) (acked p)
             (empties p) (closed p) (open_real p) (answers p) (unanswered p)
             ({[index]} ∪ arrived p) (held_since p) (ack_hold_ms p)
         else p, Build_Answer BATCH src)
  end.

Definition Decide (index ack first : N) (p : plan) : plan * Answer :=
  if width p =? 0 then (p, Build_Answer BATCH index)
  else
    let p := take_ack ack (skip_inline first p) in
    if uadd (N.max (acked p) first) MAX_AHEAD <? index then (p, Build_Answer TOO_FAR 0)
    else read_answer index (decide_up_to index p).

(** ** The other methods *)

(** [Answered]: the index's batch served, or the terminal sent *)
Definition Answered (index : N) (p : plan) : plan :=
  Plan (width p) (max p) (next_growth p) (acked_batches p) (decided p) (acked p) (empties p)
    (closed p) (open_real p) (answers p) (unanswered p ∖ {[index]}) (arrived p ∖ {[index]})
    (held_since p) (ack_hold_ms p).

Definition set_held (held : gmap N (N * N)) (hold_ms : N) (p : plan) : plan :=
  Plan (width p) (max p) (next_growth p) (acked_batches p) (decided p) (acked p) (empties p)
    (closed p) (open_real p) (answers p) (unanswered p) (arrived p) held hold_ms.

(** [open_real.empty() || *open_real.begin() > index] *)
Definition nothing_open_below (index : N) (p : plan) : bool :=
  bool_decide (set_Forall (λ r, index < r) (open_real p)).

(** The unanswered indices below [index], which the loop runs over in order *)
Definition unanswered_below (index : N) (p : plan) : gset N :=
  filter (λ r, r < index) (unanswered p).

Definition EmptyHold (index now_ms : N) (p : plan) : plan * Hold :=
  if nothing_open_below index p then
    (set_held (delete index (held_since p)) (ack_hold_ms p) p, NONE)
  else
    let below := bool_decide (unanswered_below index p ≠ ∅) in
    let all_here := bool_decide (set_Forall (λ r, r ∈ arrived p) (unanswered_below index p)) in
    if below && all_here then (p, PRODUCTION)
    else
      let held_since' := emplace index (now_ms, ack_hold_ms p) (held_since p) in
      let held := default (now_ms, ack_hold_ms p) (held_since' !! index) in
      if uadd held.1 held.2 <=? now_ms then
        (set_held (delete index held_since') (N.min (umul held.2 2) ACK_HOLD_MAX_MS) p, NONE)
      else (set_held held_since' (ack_hold_ms p) p, ACKNOWLEDGEMENT).

Definition Close (p : plan) : plan :=
  Plan (width p) (max p) (next_growth p) (acked_batches p) (decided p) (acked p) (empties p)
    true (open_real p) (answers p) (unanswered p) (arrived p) (held_since p) (ack_hold_ms p).

Definition EmptyBatches (p : plan) : N := empties p.
Definition Width (p : plan) : N := width p.

(** [AclQuackEmptyHold] of [acl_quack_fetch_window.cpp]: the plan's hold on the steady clock,
    where a finished producer turns a PRODUCTION hold into a poll *)
Definition AclQuackEmptyHold (index now_ms : N) (buffer_finished : bool) (p : plan)
    : plan * Hold :=
  let '(p', hold) := EmptyHold index now_ms p in
  (p', if bool_decide (hold = PRODUCTION) && buffer_finished then ACKNOWLEDGEMENT else hold).

(** ** Requests in any order *)

Inductive request :=
  | RDecide (index ack : N)
  | RAnswered (index : N)
  | REmptyHold (index now_ms : N)
  | RClose.

Definition run_request (first : N) (r : request) (p : plan) : plan :=
  match r with
  | RDecide index ack => (Decide index ack first p).1
  | RAnswered index => Answered index p
  | REmptyHold index now_ms => (EmptyHold index now_ms p).1
  | RClose => Close p
  end.

(** The plans of a stream: what its construction and any sequence of requests make.  Indices and
    acks stay far enough from the end of [idx_t] for [ack + MAX_AHEAD] not to wrap; a request
    past that is out of the model of a client (see [forged_ack_decides_past_the_bound]). *)
Definition sane (n : N) : Prop := n + MAX_AHEAD < 9223372036854775808.

Definition request_ok (r : request) : Prop :=
  match r with RDecide index ack => sane index ∧ sane ack | _ => True end.

Inductive reachable (start max_p first : N) : plan → Prop :=
  | reach_new : reachable start max_p first (new_plan start max_p)
  | reach_step p r :
      reachable start max_p first p → request_ok r →
      reachable start max_p first (run_request first r p).

(** ** The growth loop *)

Lemma grow_fields f p :
  let q := grow f p in
  max q = max p ∧ acked_batches q = acked_batches p ∧ decided q = decided p ∧
  acked q = acked p ∧ empties q = empties p ∧ closed q = closed p ∧
  open_real q = open_real p ∧ answers q = answers p ∧ unanswered q = unanswered p ∧
  arrived q = arrived p ∧ held_since q = held_since p ∧ ack_hold_ms q = ack_hold_ms p.
Proof.
  revert p. induction f as [|f IH]; intros p; simpl; [done|].
  destruct (_ && _); [|done]. apply (IH (Plan _ _ _ _ _ _ _ _ _ _ _ _ _ _)).
Qed.

(** Whether the loop would run once more *)
Definition grows (p : plan) : bool :=
  (next_growth p <=? acked_batches p) && (width p <? MAX_AHEAD)
  && ((max p =? 0) || (width p <? max p)).

(** A round doubles the window or brings it to the cap. *)
Lemma grow_round_width p :
  grows p = true →
  let w := if max p =? 0 then umul (width p) 2 else N.min (umul (width p) 2) (max p) in
  (max p = 0 ∧ w = 2 * width p) ∨ (max p ≠ 0 ∧ w = N.min (2 * width p) (max p)).
Proof.
  rw /grows /MAX_AHEAD. intros Hg. assert (Hw : width p < 65536) by (reflect_bools; lia).
  rw (umul_small (width p) 2); [lia|]. destruct (N.eqb_spec (max p) 0); [left|right]; lia.
Qed.

Lemma grow_width_le f p : width p ≤ width (grow f p).
Proof.
  revert p. induction f as [|f IH]; intros p; simpl; [lia|].
  destruct (_ && _) eqn:Hg; [|lia]. etrans; [|apply IH]. simpl.
  destruct (grow_round_width p Hg) as [[_ ->]|[Hm ->]]; [lia|].
  rw /grows in Hg. reflect_bools; lia.
Qed.

Lemma grow_width_bound f p :
  (max p ≠ 0 → width p ≤ max p) →
  (max p ≠ 0 → width (grow f p) ≤ max p) ∧
  (width (grow f p) ≤ N.max (width p) (2 * MAX_AHEAD)).
Proof.
  revert p. induction f as [|f IH]; intros p Hp; simpl; [lia|].
  destruct (_ && _) eqn:Hg; [|lia].
  destruct (grow_round_width p Hg) as [[Hm Hw]|[Hm Hw]].
  - match goal with |- context [grow f ?q] => destruct (IH q) as [_ IH2] end; simpl in *; [lia|].
    rw Hw in IH2 |- *. rw /grows in Hg. reflect_bools; lia.
  - match goal with |- context [grow f ?q] => destruct (IH q) as [IH1 IH2] end; simpl in *; [lia|].
    rw Hw in IH1 IH2 |- *. rw /grows in Hg. reflect_bools; lia.
Qed.

Lemma grow_fixed f p : grows p = false → grow f p = p.
Proof. destruct f as [|f]; [done|]. cbn [grow]. fold (grows p). by intros ->. Qed.

(** The fuel is enough: started with a window, the loop's guard is false when it ends. *)
Lemma grow_stops_at f p : MAX_AHEAD ≤ width p * 2 ^ N.of_nat f → grows (grow f p) = false.
Proof.
  revert p. induction f as [|f IH]; intros p Hf.
  - simpl in *. rw /grows. replace (width p <? MAX_AHEAD) with false; [by rw andb_false_r|].
    symmetry. apply N.ltb_ge. lia.
  - cbn [grow]. fold (grows p). destruct (grows p) eqn:Hg; [|done].
    destruct (grow_round_width p Hg) as [[Hm Hw]|[Hm Hw]].
    + apply IH. simpl. rw Hw. rw Nat2N.inj_succ N.pow_succ_r' in Hf. lia.
    + rw /= Hw. destruct (N.le_gt_cases (2 * width p) (max p)) as [Hc|Hc].
      * apply IH. simpl. rw N.min_l //. rw Nat2N.inj_succ N.pow_succ_r' in Hf. lia.
      * rw N.min_r; [lia|]. match goal with |- grows (grow f ?q) = false =>
          assert (Hq : grows q = false) end.
        { rw /grows /=. apply N.eqb_neq in Hm. by rw Hm N.ltb_irrefl andb_false_r. }
        by rw grow_fixed.
Qed.

Lemma grow_stops p : width p ≠ 0 → grows (grow grow_fuel p) = false.
Proof. intros Hw. apply grow_stops_at. rw /grow_fuel /MAX_AHEAD. simpl. lia. Qed.

(** ** The invariant of a plan *)

(** The index [k] carries rows: the produced batch [s]. *)
Definition real_at (p : plan) (k s : N) : Prop := answers p !! k = Some s ∧ s ≠ EMPTY_MARK.

Definition hold_in_range (ms : N) : Prop := ACK_HOLD_MS ≤ ms ∧ ms ≤ ACK_HOLD_MAX_MS.

Record plan_inv (p : plan) : Prop := {
  inv_answers : ∀ k s, answers p !! k = Some s → k ≤ decided p;
  inv_open : ∀ k, k ∈ open_real p ↔ ∃ s, real_at p k s;
  inv_unanswered : unanswered p ⊆ open_real p;
  inv_arrived : arrived p ⊆ unanswered p;
  inv_window : closed p = false → N.of_nat (size (open_real p)) ≤ width p;
  inv_cap : max p ≠ 0 → width p ≤ max p;
  inv_empties : empties p ≤ decided p;
  inv_decided : sane (decided p);
  inv_acked : sane (acked p);
  inv_source : ∀ k s, real_at p k s → s ≤ k ∧ s + empties p ≤ decided p;
  inv_order : ∀ k1 k2 s1 s2, real_at p k1 s1 → real_at p k2 s2 → k1 < k2 → s1 < s2;
  inv_hold : hold_in_range (ack_hold_ms p);
  inv_held : ∀ k e, held_since p !! k = Some e → hold_in_range e.2;
}.

Lemma new_plan_inv start max_p : plan_inv (new_plan start max_p).
Proof.
  split; rw /new_plan /=; try done.
  - intros k. rw elem_of_empty /real_at /=. split; [done|]. intros [s [? _]]. simplify_map_eq.
  - intros _. change (N.of_nat (size (∅ : gset N)) <= width (new_plan start max_p)).
    rw size_empty. lia.
  - destruct (N.eqb_spec max_p 0); [done|]. lia.
  - intros k s [? _]. simplify_map_eq.
  - intros k1 k2 s1 s2 [? _]. simplify_map_eq.
Qed.

Lemma skip_inline_inv first p : sane first → plan_inv p → plan_inv (skip_inline first p).
Proof.
  intros Hf Hp. rw /skip_inline. destruct (N.ltb_spec (decided p) first); [|done].
  destruct Hp. split; simpl; try done; try lia.
  - intros k s Hk. apply inv_answers0 in Hk. lia.
  - intros k s Hk. specialize (inv_source0 k s Hk). lia.
Qed.

Lemma grow_inv f p : plan_inv p → plan_inv (grow f p).
Proof.
  intros Hp. pose proof (grow_width_le f p) as Hw.
  destruct (grow_width_bound f p (inv_cap p Hp)) as [Hcap _].
  destruct (grow_fields f p) as (Em & _ & Ed & Ea & Ee & Ec & Eo & Eans & Eu & Earr & Eh & Eha).
  destruct Hp. split; rw /real_at ?Em ?Ed ?Ea ?Ee ?Ec ?Eo ?Eans ?Eu ?Earr ?Eh ?Eha; try done.
  intros Hc. specialize (inv_window0 Hc). lia.
Qed.

Lemma ack_entry_lookup k s p k' :
  answers (ack_entry (k, s) p) !! k' = if decide (k = k') then None else answers p !! k'.
Proof. rw /ack_entry /=. apply lookup_delete. Qed.

Lemma ack_entry_real_at k s p k' s' :
  real_at (ack_entry (k, s) p) k' s' ↔ real_at p k' s' ∧ k' ≠ k.
Proof.
  rw /real_at ack_entry_lookup. case_decide; split.
  - by intros [? _].
  - by intros [_ ?].
  - by intros [? ?].
  - by intros [? _].
Qed.

Lemma ack_entry_open k s p k' :
  answers p !! k = Some s → (∀ k, k ∈ open_real p ↔ ∃ s, real_at p k s) →
  k' ∈ open_real (ack_entry (k, s) p) ↔ k' ∈ open_real p ∧ k' ≠ k.
Proof.
  intros Hk Hopen. rw /ack_entry /=. destruct (N.eqb_spec s EMPTY_MARK) as [->|Hs]; simpl.
  - split; [|by intros []]. intros Hin. split; [done|]. intros ->.
    apply Hopen in Hin as (s & Hs & Hne). by simplify_eq.
  - rw elem_of_difference elem_of_singleton. done.
Qed.

Lemma ack_entry_inv k s p :
  answers p !! k = Some s → plan_inv p → plan_inv (ack_entry (k, s) p).
Proof.
  intros Hk Hp.
  assert (Hopen := λ k', ack_entry_open k s p k' Hk (inv_open p Hp)).
  assert (Hsub : open_real (ack_entry (k, s) p) ⊆ open_real p) by set_solver.
  destruct Hp. split; try done.
  - intros k' s'. rw ack_entry_lookup. case_decide; [done|]. apply inv_answers0.
  - intros k'. rw Hopen inv_open0. setoid_rewrite ack_entry_real_at. naive_solver.
  - intros k' Hk'. apply Hopen. move: Hk'. rw /ack_entry /=.
    destruct (N.eqb_spec s EMPTY_MARK) as [->|Hs]; simpl; [|set_solver].
    intros Hin. split; [set_solver|]. intros ->.
    apply inv_unanswered0, inv_open0 in Hin as (s & Hs & Hne). by simplify_eq.
  - rw /ack_entry /=. destruct (negb _); set_solver.
  - intros Hc. specialize (inv_window0 Hc). apply subseteq_size in Hsub.
    change (width (ack_entry (k, s) p)) with (width p). lia.
  - intros k' s' [Hr _]%ack_entry_real_at. by apply inv_source0.
  - intros k1 k2 s1 s2 [H1 _]%ack_entry_real_at [H2 _]%ack_entry_real_at. by eapply inv_order0.
  - intros k' e. rw /ack_entry /=. intros [_ He]%lookup_delete_Some. by eapply inv_held0.
Qed.

Lemma ack_entry_answers l p k :
  k ∉ l.*1 → answers (foldr ack_entry p l) !! k = answers p !! k.
Proof.
  induction l as [|[k' s'] l IH]; [done|]. simpl. intros [Hk Hl]%not_elem_of_cons.
  rw lookup_delete_ne //. by apply IH.
Qed.

Lemma ack_fold_inv l p :
  NoDup l.*1 → (∀ k s, (k, s) ∈ l → answers p !! k = Some s) → plan_inv p →
  plan_inv (foldr ack_entry p l).
Proof.
  induction l as [|[k s] l IH]; [done|]. simpl. intros [Hk Hnd]%NoDup_cons Hl Hp.
  apply ack_entry_inv.
  - rw ack_entry_answers //. apply Hl. set_solver.
  - apply IH; [done| |done]. intros k' s' Hin. apply Hl. set_solver.
Qed.

Lemma set_acked_inv ack p : sane ack → plan_inv p → plan_inv (set_acked ack p).
Proof. intros Ha []. by split. Qed.

Lemma passed_spec ack p k s : (k, s) ∈ passed ack p ↔ answers p !! k = Some s ∧ k ≤ ack.
Proof. rw /passed elem_of_map_to_list map_lookup_filter_Some. done. Qed.

Lemma take_ack_inv ack p : sane ack → plan_inv p → plan_inv (take_ack ack p).
Proof.
  intros Ha Hp. rw /take_ack. destruct (acked p <? ack); [|done].
  apply grow_inv, ack_fold_inv; [apply NoDup_fst_map_to_list| |by apply set_acked_inv].
  intros k s. by rw passed_spec => -[].
Qed.

(** ** The decision loop *)

Lemma sane_lt n : sane n → n + 1 < two64 ∧ n ≠ EMPTY_MARK.
Proof. rw /sane /MAX_AHEAD /EMPTY_MARK /invalid_index. lia. Qed.

Lemma emplace_fresh {V} k (v : V) (m : gmap N V) : m !! k = None → emplace k v m = <[k := v]> m.
Proof. rw /emplace. by intros ->. Qed.

Lemma next_undecided p : plan_inv p → answers p !! (decided p + 1) = None.
Proof.
  intros Hp. destruct (answers p !! _) as [s|] eqn:Hs; [|done].
  apply (inv_answers p Hp) in Hs. lia.
Qed.

(** Whether the next index is made empty, and what it is answered with *)
Definition next_empty (p : plan) : bool :=
  negb (closed p) && (width p <=? N.of_nat (size (open_real p))).
Definition next_mark (p : plan) : N :=
  if next_empty p then EMPTY_MARK else decided p + 1 - empties p.

(** One round, without the machine arithmetic *)
Lemma decide_next_eq p :
  plan_inv p →
  let q := decide_next p in
  decided q = decided p + 1 ∧
  empties q = (if next_empty p then empties p + 1 else empties p) ∧
  answers q = <[decided p + 1 := next_mark p]> (answers p) ∧
  open_real q = (if next_empty p then open_real p else {[decided p + 1]} ∪ open_real p) ∧
  unanswered q = (if next_empty p then unanswered p else {[decided p + 1]} ∪ unanswered p) ∧
  width q = width p ∧ max q = max p ∧ next_growth q = next_growth p ∧
  acked_batches q = acked_batches p ∧ acked q = acked p ∧ closed q = closed p ∧
  arrived q = arrived p ∧ held_since q = held_since p ∧ ack_hold_ms q = ack_hold_ms p.
Proof.
  intros Hp. destruct (sane_lt _ (inv_decided p Hp)) as [Hd _].
  pose proof (inv_empties p Hp) as He. pose proof (next_undecided p Hp) as Hn.
  rw /decide_next /next_mark -/(next_empty p) !(uadd_small (decided p)) //.
  destruct (next_empty p); simpl; rw emplace_fresh //.
  - rw uadd_small; [lia|done].
  - rw usub_small; [lia|lia|done].
Qed.

Lemma next_mark_real p :
  plan_inv p → next_mark p ≠ EMPTY_MARK ↔ next_empty p = false.
Proof.
  intros Hp. rw /next_mark. destruct (next_empty p); [done|].
  pose proof (inv_decided p Hp) as Hd. rw /sane /MAX_AHEAD in Hd.
  rw /EMPTY_MARK /invalid_index. split; [done|lia].
Qed.

Lemma decide_next_real_at p k s :
  plan_inv p →
  real_at (decide_next p) k s ↔
    (k = decided p + 1 ∧ next_empty p = false ∧ s = decided p + 1 - empties p) ∨ real_at p k s.
Proof.
  intros Hp. destruct (decide_next_eq p Hp) as (_ & _ & Ha & _).
  rw /real_at Ha lookup_insert. case_decide as Hk.
  - subst k. rw (next_undecided p Hp). pose proof (next_mark_real p Hp) as Hm.
    rw /next_mark in Hm |- *. destruct (next_empty p); naive_solver.
  - naive_solver.
Qed.

Lemma decide_next_inv p : plan_inv p → sane (decided p + 1) → plan_inv (decide_next p).
Proof.
  intros Hp Hsane.
  destruct (decide_next_eq p Hp) as
    (Ed & Ee & Ea & Eo & Eu & Ew & Em & _ & _ & Eack & Ec & Earr & Eh & Eha).
  assert (Hreal := λ k s, decide_next_real_at p k s Hp).
  destruct Hp. split; rw ?Ed ?Ee ?Em ?Ew ?Eack ?Ec ?Eh ?Eha ?Earr; try done.
  - intros k s. rw Ea. intros [[-> _]|[_ Hk%inv_answers0]]%lookup_insert_Some; lia.
  - intros k. rw Eo. setoid_rewrite Hreal. destruct (next_empty p) eqn:Hn.
    + rw inv_open0. naive_solver.
    + rw elem_of_union elem_of_singleton inv_open0. naive_solver.
  - rw Eo Eu. destruct (next_empty p); set_solver.
  - rw Eu. destruct (next_empty p); set_solver.
  - intros Hc. rw Eo. destruct (next_empty p) eqn:Hn; [by apply inv_window0|].
    rw /next_empty Hc /= in Hn. apply N.leb_gt in Hn.
    assert (size ({[(decided p + 1)%N]} ∪ open_real p) ≤ S (size (open_real p)))%nat.
    { rw size_union_alt size_singleton. apply le_n_S, subseteq_size. set_solver. }
    lia.
  - destruct (next_empty p); lia.
  - intros k s [(-> & Hn & ->)|Hr]%Hreal; [rw Hn; lia|].
    apply inv_source0 in Hr. destruct (next_empty p); lia.
  - intros k1 k2 s1 s2 [(-> & Hn & ->)|Hr1]%Hreal [(-> & Hn2 & ->)|Hr2]%Hreal Hlt.
    + lia.
    + destruct Hr2 as [Hr2%inv_answers0 _]. lia.
    + apply inv_source0 in Hr1. lia.
    + by eapply inv_order0.
Qed.

Lemma decide_iter_inv n p :
  plan_inv p → sane (decided p + N.of_nat n) →
  plan_inv (Nat.iter n decide_next p) ∧ decided (Nat.iter n decide_next p) = decided p + N.of_nat n.
Proof.
  intros Hp. induction n as [|n IH]; intros Hs; [simpl; split; [done|lia]|].
  destruct IH as [Hi Hd]; [rw /sane in Hs |- *; lia|]. rw !iter_S.
  split.
  - apply decide_next_inv; [done|]. rw Hd /sane in Hs |- *. lia.
  - destruct (decide_next_eq _ Hi) as [-> _]. lia.
Qed.

Lemma decide_up_to_inv index p : sane index → plan_inv p → plan_inv (decide_up_to index p).
Proof.
  intros Hi Hp. apply decide_iter_inv; [done|]. pose proof (inv_decided p Hp).
  rw /sane in H Hi |- *. lia.
Qed.

Lemma decide_up_to_decided index p :
  sane index → plan_inv p → decided (decide_up_to index p) = N.max (decided p) index.
Proof.
  intros Hi Hp. rw /decide_up_to. pose proof (inv_decided p Hp).
  destruct (decide_iter_inv (N.to_nat (index - decided p)) p Hp) as [_ ->]; [rw /sane in H Hi |- *; lia|].
  lia.
Qed.

Lemma read_answer_inv index p : plan_inv p → plan_inv (read_answer index p).1.
Proof.
  intros Hp. rw /read_answer. destruct (answers p !! index) as [s|] eqn:Hs; [|done].
  destruct (s =? EMPTY_MARK); [done|]. case_bool_decide; [|done].
  destruct Hp. split; try done. simpl. set_solver.
Qed.

Lemma Decide_inv index ack first p :
  sane index → sane ack → sane first → plan_inv p → plan_inv (Decide index ack first p).1.
Proof.
  intros Hi Ha Hf Hp. rw /Decide. destruct (width p =? 0); [done|].
  assert (plan_inv (take_ack ack (skip_inline first p))) by (by apply take_ack_inv, skip_inline_inv).
  destruct (_ <? index); [done|]. by apply read_answer_inv, decide_up_to_inv.
Qed.

Lemma Answered_inv index p : plan_inv p → plan_inv (Answered index p).
Proof. intros []. split; try done; simpl; set_solver. Qed.

Lemma hold_doubles e : hold_in_range e → hold_in_range (N.min (umul e 2) ACK_HOLD_MAX_MS).
Proof.
  rw /hold_in_range /ACK_HOLD_MS /ACK_HOLD_MAX_MS. intros [? ?]. rw umul_small; lia.
Qed.

Lemma EmptyHold_inv index now p : plan_inv p → plan_inv (EmptyHold index now p).1.
Proof.
  intros Hp. rw /EmptyHold. pose proof (inv_hold p Hp) as Hms. pose proof (inv_held p Hp) as Hheld.
  assert (Hemp : ∀ k e, emplace index (now, ack_hold_ms p) (held_since p) !! k = Some e →
            hold_in_range e.2).
  { intros k e. rw /emplace. destruct (held_since p !! index); [by apply Hheld|].
    intros [[_ <-]|[_ ?]]%lookup_insert_Some; [done|by eapply Hheld]. }
  assert (Hdef : hold_in_range (default (now, ack_hold_ms p)
            (emplace index (now, ack_hold_ms p) (held_since p) !! index)).2).
  { destruct (emplace _ _ _ !! index) eqn:He; [by eapply Hemp|done]. }
  split_tests.
  - destruct Hp. split; try done. simpl. intros k e [_ ?]%lookup_delete_Some. by eapply Hheld.
  - destruct Hp. split; try done; simpl; [by apply hold_doubles|].
    intros k e [_ ?]%lookup_delete_Some. by eapply Hemp.
  - destruct Hp. by split.
Qed.

Lemma run_request_inv first r p :
  sane first → request_ok r → plan_inv p → plan_inv (run_request first r p).
Proof.
  intros Hf Hr Hp. destruct r; simpl in *.
  - destruct Hr. by apply Decide_inv.
  - by apply Answered_inv.
  - by apply EmptyHold_inv.
  - destruct Hp. by split.
Qed.

Lemma reachable_inv start max_p first p :
  sane first → reachable start max_p first p → plan_inv p.
Proof.
  intros Hf. induction 1; [apply new_plan_inv|by apply run_request_inv].
Qed.

(** ** What an ack leaves alone *)

Lemma ack_fold_fields l p :
  let q := foldr ack_entry p l in
  width q = width p ∧ max q = max p ∧ decided q = decided p ∧ empties q = empties p ∧
  acked q = acked p ∧ closed q = closed p.
Proof. induction l as [|[k s] l IH]; [done|]. simpl. done. Qed.

Lemma take_ack_fields ack p :
  let q := take_ack ack p in
  decided q = decided p ∧ empties q = empties p ∧ acked q = N.max (acked p) ack ∧
  closed q = closed p ∧ max q = max p.
Proof.
  rw /take_ack. destruct (N.ltb_spec (acked p) ack); [|simpl; repeat split; lia].
  set (q := foldr _ _ _). destruct (ack_fold_fields (passed ack p) (set_acked ack p))
    as (_ & Em & Ed & Ee & Ea & Ec).
  destruct (grow_fields grow_fuel q) as (Gm & _ & Gd & Ga & Ge & Gc & _).
  rw Gd Ge Ga Gc Gm /q Ed Ee Ea Ec Em /=. repeat split; lia.
Qed.

Lemma skip_inline_fields first p :
  let q := skip_inline first p in
  decided q = N.max (decided p) first ∧ empties q = empties p ∧ acked q = acked p ∧
  width q = width p ∧ max q = max p ∧ closed q = closed p.
Proof. rw /skip_inline. destruct (N.ltb_spec (decided p) first); simpl; repeat split; lia. Qed.

Lemma take_ack_width ack p :
  (max p ≠ 0 → width p ≤ max p) →
  width p ≤ width (take_ack ack p) ∧ width (take_ack ack p) ≤ N.max (width p) (2 * MAX_AHEAD).
Proof.
  intros Hc. rw /take_ack. destruct (acked p <? ack); [|lia].
  destruct (ack_fold_fields (passed ack p) (set_acked ack p)) as (Ew & Em & _).
  set (q := foldr _ _ _) in *. change (width p) with (width (set_acked ack p)).
  rw -Ew. split; [apply grow_width_le|]. apply grow_width_bound. by rw Em Ew.
Qed.

Lemma decide_iter_width n p : width (Nat.iter n decide_next p) = width p.
Proof.
  induction n as [|n IH]; [done|]. rw iter_S -IH /decide_next. by destruct (_ && _).
Qed.

Lemma read_answer_fields index p :
  let q := (read_answer index p).1 in
  decided q = decided p ∧ empties q = empties p ∧ width q = width p ∧ acked q = acked p.
Proof. rw /read_answer. split_tests. Qed.

Lemma run_request_width first r p :
  plan_inv p →
  width p ≤ width (run_request first r p) ∧
  width (run_request first r p) ≤ N.max (width p) (2 * MAX_AHEAD).
Proof.
  intros Hp. destruct r as [index ack| | |]; simpl; [|lia|rw /EmptyHold; split_tests; lia|lia].
  rw /Decide. destruct (width p =? 0); [simpl; lia|].
  destruct (skip_inline_fields first p) as (_ & _ & _ & Ew & Em & _).
  destruct (take_ack_width ack (skip_inline first p)) as [H1 H2].
  { rw Ew Em. apply (inv_cap p Hp). }
  rw Ew in H1 H2. destruct (_ <? index); [done|].
  destruct (read_answer_fields index (decide_up_to index (take_ack ack (skip_inline first p))))
    as (_ & _ & -> & _).
  by rw /decide_up_to decide_iter_width.
Qed.

(** ** The sequence of decisions *)

(** The decisions of [n] rounds, in the order they are made: the index, and what it is answered
    with *)
Fixpoint loop_log (n : nat) (p : plan) : list (N * N) :=
  match n with
  | O => []
  | S n =>
      let q := decide_next p in
      (decided q, default EMPTY_MARK (answers q !! decided q)) :: loop_log n q
  end.

Definition request_log (first : N) (r : request) (p : plan) : list (N * N) :=
  match r with
  | RDecide index ack =>
      if width p =? 0 then []
      else
        let p := take_ack ack (skip_inline first p) in
        if uadd (N.max (acked p) first) MAX_AHEAD <? index then []
        else loop_log (N.to_nat (index - decided p)) p
  | _ => []
  end.

Fixpoint run_requests (first : N) (rs : list request) (p : plan) : plan :=
  match rs with
  | [] => p
  | r :: rs => run_requests first rs (run_request first r p)
  end.

Fixpoint run_log (first : N) (rs : list request) (p : plan) : list (N * N) :=
  match rs with
  | [] => []
  | r :: rs => request_log first r p ++ run_log first rs (run_request first r p)
  end.

(** The produced batches of a log, in order *)
Definition batches (log : list (N * N)) : list N :=
  (List.filter (λ e, negb (e.2 =? EMPTY_MARK)) log).*2.

(** [from], [from + 1], ... [n] of them *)
Fixpoint count_up (n : nat) (from : N) : list N :=
  match n with O => [] | S n => from :: count_up n (from + 1) end.

Lemma count_up_app n m from : count_up (n + m) from = count_up n from ++ count_up m (from + N.of_nat n).
Proof.
  revert from. induction n as [|n IH]; intros from; simpl; [by rw N.add_0_r|].
  rw IH. do 2 f_equal. f_equal. lia.
Qed.

Lemma length_count_up n from : length (count_up n from) = n.
Proof. revert from. induction n; intros; simpl; auto. Qed.

Lemma batches_cons k s log :
  batches ((k, s) :: log) = if s =? EMPTY_MARK then batches log else s :: batches log.
Proof. rw /batches /=. by destruct (s =? EMPTY_MARK). Qed.

Lemma batches_app l1 l2 : batches (l1 ++ l2) = batches l1 ++ batches l2.
Proof. by rw /batches List.filter_app fmap_app. Qed.

Lemma loop_log_spec n p :
  plan_inv p → sane (decided p + N.of_nat n) →
  let log := loop_log n p in let q := Nat.iter n decide_next p in
  log.*1 = count_up n (decided p + 1) ∧
  batches log = count_up (length (batches log)) (decided p - empties p + 1) ∧
  decided q - empties q = decided p - empties p + N.of_nat (length (batches log)).
Proof.
  revert p. induction n as [|n IH]; intros p Hp Hs; [simpl; repeat split; lia|].
  assert (Hs1 : sane (decided p + 1)) by (rw /sane in Hs |- *; lia).
  pose proof (decide_next_inv p Hp Hs1) as Hq.
  destruct (decide_next_eq p Hp) as (Ed & Ee & Ea & _).
  destruct (IH _ Hq) as (I1 & I2 & I3); [rw Ed /sane in Hs |- *; lia|].
  rw Nat.iter_succ_r. cbn [loop_log]. rw Ed Ea lookup_insert_eq /=.
  pose proof (next_mark_real p Hp) as Hm. pose proof (inv_empties p Hp) as He.
  rw Ed in I1. split; [by rw -I1|].
  rw batches_cons. destruct (next_empty p) eqn:Hn.
  - rw /next_mark Hn N.eqb_refl I3 Ed Ee. split; [|lia].
    rw I2 Ed Ee. rw length_count_up.
    by replace (decided p + 1 - (empties p + 1)) with (decided p - empties p) by lia.
  - destruct (N.eqb_spec (next_mark p) EMPTY_MARK) as [E|_]; [by apply Hm in E|]. simpl.
    rw I3 Ed Ee. split; [|lia]. rw {1}/next_mark Hn.
    replace (decided p + 1 - empties p) with (decided p - empties p + 1) by lia.
    f_equal. rw {1}I2 Ed Ee. f_equal. lia.
Qed.

(** The index and the batch number the next decision starts from *)
Definition next_base (first : N) (p : plan) : N := N.max (decided p) first.

Lemma request_log_spec first r p :
  sane first → request_ok r → plan_inv p →
  let log := request_log first r p in let q := run_request first r p in
  log.*1 = count_up (length log) (next_base first p + 1) ∧
  batches log = count_up (length (batches log)) (next_base first p - empties p + 1) ∧
  next_base first q = next_base first p + N.of_nat (length log) ∧
  next_base first q - empties q = next_base first p - empties p + N.of_nat (length (batches log)).
Proof.
  intros Hf Hr Hp. rw /next_base. destruct r as [index ack|index|index now|]; simpl.
  2-4: rw /EmptyHold; split_tests; repeat split; lia.
  destruct Hr as [Hi Ha]. rw /Decide. destruct (width p =? 0); [simpl; repeat split; lia|].
  set (p1 := take_ack ack (skip_inline first p)).
  assert (Hp1 : plan_inv p1) by (by apply take_ack_inv, skip_inline_inv).
  destruct (take_ack_fields ack (skip_inline first p)) as (Td & Te & _).
  destruct (skip_inline_fields first p) as (Sd & Se & _). rw -/p1 Sd Se in Td Te.
  destruct (_ <? index); [simpl; repeat split; lia|].
  destruct (read_answer_fields index (decide_up_to index p1)) as (Rd & Re & _).
  pose proof (inv_decided p1 Hp1) as Hd1.
  destruct (loop_log_spec (N.to_nat (index - decided p1)) p1 Hp1) as (L1 & L2 & L3).
  { rw /sane in Hi Hd1 |- *. lia. }
  set (log := loop_log _ p1) in *.
  assert (Hlen : length log = N.to_nat (index - decided p1)).
  { by rw -(length_fmap fst log) L1 length_count_up. }
  rw Rd Re decide_up_to_decided //. rw {1}Hlen L1 L2 length_count_up Td Te.
  split; [done|]. split; [done|]. split; [lia|].
  change (Nat.iter _ _ p1) with (decide_up_to index p1) in L3.
  rw decide_up_to_decided // in L3. lia.
Qed.

Lemma run_log_spec first rs p :
  sane first → Forall request_ok rs → plan_inv p →
  let log := run_log first rs p in
  log.*1 = count_up (length log) (next_base first p + 1) ∧
  batches log = count_up (length (batches log)) (next_base first p - empties p + 1).
Proof.
  intros Hf. revert p. induction rs as [|r rs IH]; intros p Hrs Hp; [done|].
  apply Forall_cons in Hrs as [Hr Hrs].
  destruct (request_log_spec first r p Hf Hr Hp) as (R1 & R2 & R3 & R4).
  destruct (IH _ Hrs (run_request_inv first r p Hf Hr Hp)) as (I1 & I2).
  cbn [run_log]. rw fmap_app batches_app !length_app !count_up_app.
  rw {1}R1 {1}R2 {1}I1 {1}I2 R4 R3. split; do 2 f_equal; lia.
Qed.

(** ** A burst of requests with one ack *)

(** Adding to [arrived], the only thing a request for a decided index does *)
Definition add_arrived (X : gset N) (p : plan) : plan :=
  Plan (width p) (max p) (next_growth p) (acked_batches p) (decided p) (acked p) (empties p)
    (closed p) (open_real p) (answers p) (unanswered p) (X ∪ arrived p) (held_since p)
    (ack_hold_ms p).

(** What [read_answer] adds *)
Definition fetch_here (index : N) (p : plan) : gset N :=
  match answers p !! index with
  | Some s => if (s =? EMPTY_MARK) || negb (bool_decide (index ∈ unanswered p)) then ∅ else {[index]}
  | None => ∅
  end.

Lemma add_arrived_empty p : add_arrived ∅ p = p.
Proof. destruct p. rw /add_arrived /=. by rw union_empty_l_L. Qed.

Lemma add_arrived_union X Y p : add_arrived X (add_arrived Y p) = add_arrived (X ∪ Y) p.
Proof. by rw /add_arrived /= union_assoc_L. Qed.

Lemma read_answer_arrived index p :
  (read_answer index p).1 = add_arrived (fetch_here index p) p.
Proof.
  rw /read_answer /fetch_here. destruct (answers p !! index) as [s|]; [|by rw add_arrived_empty].
  destruct (s =? EMPTY_MARK); [by rw add_arrived_empty|]. simpl.
  case_bool_decide; [done|]. by rw add_arrived_empty.
Qed.

Lemma decide_next_add X p : decide_next (add_arrived X p) = add_arrived X (decide_next p).
Proof. rw /decide_next /=. by destruct (_ && _). Qed.

Lemma decide_up_to_add index X p :
  decide_up_to index (add_arrived X p) = add_arrived X (decide_up_to index p).
Proof.
  rw /decide_up_to. change (decided (add_arrived X p)) with (decided p).
  generalize (N.to_nat (index - decided p)) as n. induction n as [|n IH]; [done|].
  rw !iter_S.
  rw IH decide_next_add. done.
Qed.

Lemma read_answer_add index X p :
  (read_answer index (add_arrived X p)).2 = (read_answer index p).2.
Proof. rw /read_answer /=. destruct (answers p !! index); [|done]. by destruct (_ =? _). Qed.

(** Deciding on never changes what is decided. *)
Lemma decide_iter_keeps n p k :
  plan_inv p → sane (decided p + N.of_nat n) → k ≤ decided p →
  answers (Nat.iter n decide_next p) !! k = answers p !! k ∧
  (k ∈ unanswered (Nat.iter n decide_next p) ↔ k ∈ unanswered p).
Proof.
  intros Hp Hs Hk. induction n as [|n IH]; [done|].
  assert (Hs' : sane (decided p + N.of_nat n)) by (rw /sane in Hs |- *; lia).
  destruct (decide_iter_inv n p Hp Hs') as [Hi Hd]. destruct (IH Hs') as [IHa IHu].
  rw !iter_S.
  destruct (decide_next_eq _ Hi) as (_ & _ & Ea & _ & Eu & _).
  rw Ea Eu Hd lookup_insert_ne; [lia|]. split; [done|].
  destruct (next_empty _); [done|]. rw elem_of_union elem_of_singleton IHu. split; [|tauto].
  intros [->|?]; [lia|done].
Qed.

Lemma decide_up_to_keeps j p k :
  plan_inv p → sane j → k ≤ decided p →
  fetch_here k (decide_up_to j p) = fetch_here k p ∧
  (read_answer k (decide_up_to j p)).2 = (read_answer k p).2.
Proof.
  intros Hp Hj Hk. pose proof (inv_decided p Hp) as Hd.
  destruct (decide_iter_keeps (N.to_nat (j - decided p)) p k Hp) as [Ha Hu];
    [rw /sane in Hj Hd |- *; lia|done|].
  change (Nat.iter _ _ p) with (decide_up_to j p) in Ha, Hu.
  rw /fetch_here /read_answer Ha. rw (bool_decide_ext _ _ Hu).
  split; [done|]. destruct (answers p !! k); [|done]. by destruct (_ =? _).
Qed.

Lemma decide_up_to_twice i j p :
  plan_inv p → sane i → sane j →
  decide_up_to j (decide_up_to i p) = decide_up_to (N.max i j) p.
Proof.
  intros Hp Hi Hj. rw {1}/decide_up_to decide_up_to_decided // /decide_up_to -Nat.iter_add.
  f_equal. lia.
Qed.

(** A request of the burst: not refused, its ack already taken *)
Definition settled (index ack first : N) (p : plan) : Prop :=
  width p ≠ 0 ∧ ack ≤ acked p ∧ first ≤ decided p ∧ sane index ∧
  index ≤ N.max (acked p) first + MAX_AHEAD.

Lemma Decide_settled index ack first p :
  plan_inv p → sane first → settled index ack first p →
  Decide index ack first p = read_answer index (decide_up_to index p).
Proof.
  intros Hp Hf (Hw & Ha & Hd & _ & Hi). pose proof (inv_acked p Hp) as Hak.
  rw /Decide /skip_inline /take_ack. destruct (N.eqb_spec (width p) 0); [done|].
  destruct (N.ltb_spec (decided p) first); [lia|]. destruct (N.ltb_spec (acked p) ack); [lia|].
  rw uadd_small; [rw /sane in Hf Hak; lia|]. destruct (N.ltb_spec (N.max (acked p) first + MAX_AHEAD) index); [lia|done].
Qed.

Lemma decide_up_to_keeps_settled i j ack first p :
  plan_inv p → settled i ack first p → sane j →
  settled i ack first (read_answer j (decide_up_to j p)).1.
Proof.
  intros Hp (Hw & Ha & Hd & Hs & Hi) Hj.
  destruct (read_answer_fields j (decide_up_to j p)) as (Ed & _ & Ew & Eak).
  assert (Hak : acked (decide_up_to j p) = acked p).
  { rw /decide_up_to. generalize (N.to_nat (j - decided p)) as n.
    induction n as [|n IH]; [done|]. rw iter_S -IH /decide_next. by destruct (_ && _). }
  rw /settled Ed Ew Eak Hak decide_up_to_decided // /decide_up_to decide_iter_width.
  repeat split; try done. lia.
Qed.

(** Two requests of a burst, in either order: the same plan, and each the same answer *)
Lemma Decide_commute i j ack first p :
  plan_inv p → sane first → settled i ack first p → settled j ack first p →
  let pi := (Decide i ack first p).1 in let pj := (Decide j ack first p).1 in
  (Decide j ack first pi).1 = (Decide i ack first pj).1 ∧
  (Decide i ack first pj).2 = (Decide i ack first p).2.
Proof.
  intros Hp Hf Hi Hj. assert (Si : sane i) by apply Hi. assert (Sj : sane j) by apply Hj.
  assert (Hpi := decide_up_to_inv i p Si Hp). assert (Hpj := decide_up_to_inv j p Sj Hp).
  rw /= (Decide_settled i) // (Decide_settled j _ _ p) //.
  rw (Decide_settled j) //; [by apply read_answer_inv|by apply decide_up_to_keeps_settled|].
  rw (Decide_settled i) //; [by apply read_answer_inv|by apply decide_up_to_keeps_settled|].
  rw !read_answer_arrived !decide_up_to_add !decide_up_to_twice //.
  rw (N.max_comm j i). set (q := decide_up_to (N.max i j) p).
  assert (Hq : plan_inv q).
  { apply decide_up_to_inv; [|done]. rw /sane in Si Sj |- *. lia. }
  assert (Hfh : ∀ k X, fetch_here k (add_arrived X q) = fetch_here k q) by done.
  rw !Hfh !add_arrived_union read_answer_add.
  assert (Hki : fetch_here i (decide_up_to i p) = fetch_here i q ∧
                (read_answer i q).2 = (read_answer i (decide_up_to i p)).2).
  { destruct (decide_up_to_keeps (N.max i j) (decide_up_to i p) i) as [H1 H2]; [done| | |].
    - rw /sane in Si Sj |- *. lia.
    - rw decide_up_to_decided //. lia.
    - rw decide_up_to_twice // in H1 H2; [rw /sane in Si Sj |- *; lia|].
      replace (N.max i (N.max i j)) with (N.max i j) in H1, H2 by lia. by rw -H1 -H2. }
  assert (Hkj : fetch_here j (decide_up_to j p) = fetch_here j q).
  { destruct (decide_up_to_keeps (N.max i j) (decide_up_to j p) j) as [H1 _]; [done| | |].
    - rw /sane in Si Sj |- *. lia.
    - rw decide_up_to_decided //. lia.
    - rw decide_up_to_twice // in H1; [rw /sane in Si Sj |- *; lia|].
      replace (N.max j (N.max i j)) with (N.max i j) in H1 by lia. by rw -H1. }
  destruct Hki as [-> ->]. rw Hkj (union_comm_L (fetch_here i q)). done.
Qed.

(** The burst: every request's ack the same, each index named once or more *)
Definition burst (ack first : N) (indices : list N) (p : plan) : plan :=
  foldl (λ p index, (Decide index ack first p).1) p indices.

Lemma burst_keeps indices ack first p :
  plan_inv p → sane first → Forall (λ i, settled i ack first p) indices →
  plan_inv (burst ack first indices p) ∧
  ∀ i, settled i ack first p → settled i ack first (burst ack first indices p).
Proof.
  revert p. induction indices as [|j indices IH]; intros p Hp Hf Hall; [done|].
  apply Forall_cons in Hall as [Hj Hall]. assert (Sj : sane j) by apply Hj. simpl.
  rw Decide_settled //. destruct (IH (read_answer j (decide_up_to j p)).1) as [H1 H2].
  - by apply read_answer_inv, decide_up_to_inv.
  - done.
  - eapply Forall_impl; [exact Hall|]. intros i Hi. by apply decide_up_to_keeps_settled.
  - split; [done|]. intros i Hi. apply H2. by apply decide_up_to_keeps_settled.
Qed.

(** The answer to one request does not depend on the requests of the burst before it. *)
Lemma burst_answer indices i ack first p :
  plan_inv p → sane first → Forall (λ i, settled i ack first p) indices →
  settled i ack first p →
  (Decide i ack first (burst ack first indices p)).2 = (Decide i ack first p).2.
Proof.
  revert p. induction indices as [|j indices IH]; intros p Hp Hf Hall Hi; [done|].
  apply Forall_cons in Hall as [Hj Hall]. simpl.
  rw IH //.
  - apply Decide_inv; try done; [apply Hj|]. destruct Hj as (_ & ? & _).
    pose proof (inv_acked p Hp). rw /sane in H0 |- *. lia.
  - rw Decide_settled //. eapply Forall_impl; [exact Hall|].
    intros k Hk. apply decide_up_to_keeps_settled; [done..|apply Hj].
  - rw Decide_settled //. apply decide_up_to_keeps_settled; [done..|apply Hj].
  - by destruct (Decide_commute i j ack first p Hp Hf Hi Hj).
Qed.

Lemma burst_permutation l1 l2 ack first p :
  Permutation l1 l2 → plan_inv p → sane first → Forall (λ i, settled i ack first p) l1 →
  burst ack first l1 p = burst ack first l2 p.
Proof.
  intros Hperm. revert p. induction Hperm as [|x l1 l2 Hl IH|x y l|l1 l2 l3 H1 IH1 H2 IH2];
    intros p Hp Hf Hall; [done| | |].
  - apply Forall_cons in Hall as [Hx Hall]. simpl. rw Decide_settled //. apply IH; [|done|].
    + apply read_answer_inv, decide_up_to_inv; [apply Hx|done].
    + eapply Forall_impl; [exact Hall|]. intros k Hk.
      apply decide_up_to_keeps_settled; [done..|apply Hx].
  - apply Forall_cons in Hall as [Hy [Hx Hall]%Forall_cons]. simpl.
    by destruct (Decide_commute x y ack first p Hp Hf Hx Hy) as [-> _].
  - rw IH1 //. apply IH2; [done..|]. by rw -H1.
Qed.

(** ** Holds *)

Lemma emplace_keeps {V} k (v : V) (m : gmap N V) k' e :
  m !! k' = Some e → emplace k v m !! k' = Some e.
Proof.
  intros He. rw /emplace. destruct (m !! k) eqn:Hk; [done|].
  rw lookup_insert_ne //. by intros ->; simplify_eq.
Qed.

(** A hold on a timer, once started, keeps its start and its length. *)
Lemma held_keeps first r p index e :
  held_since p !! index = Some e →
  held_since (run_request first r p) !! index = Some e ∨
  held_since (run_request first r p) !! index = None.
Proof.
  intros He. destruct r as [i ack|i|i now|]; simpl; auto.
  - rw /Decide. destruct (width p =? 0); [by left|].
    assert (Hsk : held_since (skip_inline first p) !! index = Some e).
    { rw /skip_inline. by destruct (decided p <? first). }
    assert (Htk : held_since (take_ack ack (skip_inline first p)) !! index = Some e ∨
                  held_since (take_ack ack (skip_inline first p)) !! index = None).
    { rw /take_ack. destruct (_ <? ack); [|by left].
      destruct (grow_fields grow_fuel (foldr ack_entry (set_acked ack (skip_inline first p))
        (passed ack (skip_inline first p)))) as (_&_&_&_&_&_&_&_&_&_& -> &_).
      induction (passed ack (skip_inline first p)) as [|[k s] l IH]; [by left|].
      cbn [foldr ack_entry held_since]. rw lookup_delete. case_decide; [by right|done]. }
    destruct (_ <? i); [done|]. rw read_answer_arrived /=.
    set (q := take_ack ack (skip_inline first p)) in *.
    assert (held_since (decide_up_to i q) = held_since q) as ->; [|done].
    rw /decide_up_to. generalize (N.to_nat (i - decided q)) as n.
    induction n as [|n IH]; [done|]. rw iter_S -IH /decide_next. by destruct (_ && _).
  - pose proof (emplace_keeps i (now, ack_hold_ms p) (held_since p) index e He) as Hem.
    rw /EmptyHold. destruct (nothing_open_below i p); simpl.
    + rw lookup_delete. case_decide; auto.
    + destruct (_ && _); [by left|]. destruct (_ <=? now); simpl; [|by left].
      rw lookup_delete. case_decide; auto.
Qed.

(** Past the end of a timed hold the answer goes out. *)
Lemma EmptyHold_timeout p index t ms now :
  held_since p !! index = Some (t, ms) → t + ms < two64 → t + ms ≤ now →
  (EmptyHold index now p).2 ≠ ACKNOWLEDGEMENT.
Proof.
  intros He Hlt Hnow. rw /EmptyHold /emplace He. cbv iota. rw He. cbn [default from_option id fst snd]. rw uadd_small //.
  destruct (nothing_open_below index p); [done|]. destruct (_ && _); [done|].
  cbn [id fst snd]. destruct (N.leb_spec (t + ms) now); [done|lia].
Qed.

(** ** Properties *)

(** C37: whatever order the FETCHes of a stream arrive in, whatever they acknowledge and whenever
    the stream is closed, the decisions it makes are for consecutive indices after the batches
    PREPARE answered, and the produced batches they hand out are consecutive too: every produced
    batch goes to exactly one index, in order, the empties only moving it to a later one. *)
Theorem batches_handed_out_in_order (start max_p first : N) (rs : list request) :
  sane first → Forall request_ok rs →
  let log := run_log first rs (new_plan start max_p) in
  log.*1 = count_up (length log) (first + 1) ∧
  batches log = count_up (length (batches log)) (first + 1).
Proof.
  intros Hf Hrs. destruct (run_log_spec first rs _ Hf Hrs (new_plan_inv start max_p)) as [H1 H2].
  change (next_base first (new_plan start max_p)) with (N.max 0 first) in H1, H2.
  change (empties (new_plan start max_p)) with 0 in H2.
  rw N.max_0_l in H1. rw N.max_0_l N.sub_0_r in H2. by split.
Qed.

(** in every reachable plan that has not announced its end, at most [width] indices carry
    rows above the ack; the window never shrinks, never passes its cap, and without one never
    grows past twice [MAX_AHEAD] unless it started there. *)
Theorem window_bounds_rows_in_flight (start max_p first : N) (p : plan) (r : request) :
  sane first → reachable start max_p first p →
  (closed p = false → N.of_nat (size (open_real p)) ≤ Width p) ∧
  (max p ≠ 0 → Width p ≤ max p) ∧
  Width p ≤ Width (run_request first r p) ∧
  Width p ≤ N.max start (2 * MAX_AHEAD).
Proof.
  intros Hf Hr. pose proof (reachable_inv _ _ _ _ Hf Hr) as Hp. rw /Width.
  split; [apply (inv_window p Hp)|]. split; [apply (inv_cap p Hp)|].
  split; [by apply run_request_width|]. clear r.
  induction Hr as [|q r Hq IH Hok].
  - rw /new_plan /=. destruct (max_p =? 0); lia.
  - pose proof (reachable_inv _ _ _ _ Hf Hq) as Hqi.
    destruct (run_request_width first r q Hqi) as [_ Hb]. specialize (IH Hqi). lia.
Qed.

(** the plan of a burst of FETCHes that carry the same ack does not depend on the order they
    arrive in: any permutation leaves the same plan, and a request of the burst gets the answer
    it would get alone. *)
Theorem burst_order_irrelevant (start max_p first ack : N) (p : plan) (l1 l2 : list N) (i : N) :
  sane first → reachable start max_p first p → Permutation l1 l2 →
  Forall (λ i, settled i ack first p) l1 → settled i ack first p →
  burst ack first l1 p = burst ack first l2 p ∧
  (Decide i ack first (burst ack first l1 p)).2 = (Decide i ack first p).2.
Proof.
  intros Hf Hr Hperm Hall Hi. pose proof (reachable_inv _ _ _ _ Hf Hr) as Hp.
  split; [by apply burst_permutation|by apply burst_answer].
Qed.

(** a timed hold ends by itself.  In every reachable plan an empty index held since [t] is
    held for at most [ACK_HOLD_MAX_MS], no request moves its start or its length (it can only end
    it), and asked after that time the plan no longer holds it for an acknowledgement. *)
Theorem timed_hold_ends (start max_p first : N) (p : plan) (r : request) (index t ms now : N) :
  sane first → reachable start max_p first p → held_since p !! index = Some (t, ms) →
  t + ACK_HOLD_MAX_MS < two64 → t + ms ≤ now →
  ms ≤ ACK_HOLD_MAX_MS ∧
  (held_since (run_request first r p) !! index = Some (t, ms) ∨
   held_since (run_request first r p) !! index = None) ∧
  (EmptyHold index now p).2 ≠ ACKNOWLEDGEMENT.
Proof.
  intros Hf Hr He Ht Hnow. pose proof (reachable_inv _ _ _ _ Hf Hr) as Hp.
  pose proof (inv_held p Hp index _ He) as [_ Hms]. simpl in Hms.
  split; [done|]. split; [by apply held_keeps|].
  eapply EmptyHold_timeout; [done| |done]. lia.
Qed.

(** what bounds the work of one request.  A client that acknowledges only what was decided
    makes one request decide at most [MAX_AHEAD] indices and stays such a client; the bound is
    the client's honesty and not the plan's: acknowledging an index nobody decided lets one
    request decide every index up to it. *)
Theorem decisions_per_request (start max_p first index ack : N) (p : plan) :
  sane first → sane index → sane ack → reachable start max_p first p → width p ≠ 0 →
  (acked p ≤ next_base first p → ack ≤ next_base first p →
   let q := (Decide index ack first p).1 in
   decided q ≤ next_base first p + MAX_AHEAD ∧ acked q ≤ next_base first q) ∧
  (acked p ≤ ack → first ≤ ack → index = ack + 1 →
   next_base first p < index → decided (Decide index ack first p).1 = index).
Proof.
  intros Hf Hi Ha Hr Hw. pose proof (reachable_inv _ _ _ _ Hf Hr) as Hp.
  set (p1 := take_ack ack (skip_inline first p)).
  assert (Hp1 : plan_inv p1) by (by apply take_ack_inv, skip_inline_inv).
  destruct (take_ack_fields ack (skip_inline first p)) as (Td & _ & Tk & _).
  destruct (skip_inline_fields first p) as (Sd & _ & Sk & _).
  rw -/p1 Sd Sk -/(next_base first p) in Td Tk. pose proof (inv_acked p1 Hp1) as Hk1.
  destruct (read_answer_fields index (decide_up_to index p1)) as (Rd & _ & _ & Rk).
  assert (Hak : acked (decide_up_to index p1) = acked p1).
  { rw /decide_up_to. generalize (N.to_nat (index - decided p1)) as n.
    induction n as [|n IH]; [done|]. rw iter_S -IH /decide_next. by destruct (_ && _). }
  rw /Decide -/p1. destruct (N.eqb_spec (width p) 0) as [|_]; [done|].
  rw uadd_small; [rw /sane in Hf Hk1; lia|].
  destruct (N.ltb_spec (N.max (acked p1) first + MAX_AHEAD) index) as [Hfar|Hnear]; simpl;
    rw /next_base ?Rd ?Rk ?Hak ?decide_up_to_decided // ?Td ?Tk.
  - split; [rw /next_base; lia|]. intros; rw Tk /MAX_AHEAD in Hfar. lia.
  - rw Tk in Hnear. rw /next_base in Hnear |- *. split; [|intros; lia].
    intros Hhon Hack. lia.
Qed.

(** ** Witnesses *)

(** A stream with a window of 2 and one inline batch, after the first burst of four FETCHes *)
Definition sample_requests : list request :=
  [RDecide 3 1; RDecide 5 1; REmptyHold 5 100; RAnswered 2; RDecide 4 2].
Definition sample_plan : plan := run_requests 1 sample_requests (new_plan 2 0).

Lemma reachable_run start max_p first p rs :
  reachable start max_p first p → Forall request_ok rs →
  reachable start max_p first (run_requests first rs p).
Proof.
  revert p. induction rs as [|r rs IH]; intros p Hp Hrs; [done|].
  apply Forall_cons in Hrs as [Hr Hrs]. apply IH; [by apply reach_step|done].
Qed.

Lemma sample_requests_ok : Forall request_ok sample_requests.
Proof. repeat constructor. Qed.

Lemma sample_reachable : reachable 2 0 1 sample_plan.
Proof. apply reachable_run; [constructor|apply sample_requests_ok]. Qed.

Lemma batches_handed_out_in_order_witness :
  run_log 1 sample_requests (new_plan 2 0) =
    [(2, 2); (3, 3); (4, EMPTY_MARK); (5, EMPTY_MARK)] ∧
  batches (run_log 1 sample_requests (new_plan 2 0)) = count_up 2 2.
Proof.
  split; [vm_compute; reflexivity|].
  exact (proj2 (batches_handed_out_in_order 2 0 1 sample_requests eq_refl sample_requests_ok)).
Defined.

Lemma window_bounds_rows_in_flight_witness :
  closed sample_plan = false ∧ N.of_nat (size (open_real sample_plan)) ≤ Width sample_plan.
Proof.
  split; [vm_compute; reflexivity|].
  refine (proj1 (window_bounds_rows_in_flight 2 0 1 sample_plan RClose eq_refl sample_reachable) _).
  vm_compute. reflexivity.
Defined.

Lemma burst_order_irrelevant_witness :
  burst 2 1 [6; 8; 7] sample_plan = burst 2 1 [8; 7; 6] sample_plan.
Proof.
  refine (proj1 (burst_order_irrelevant 2 0 1 2 sample_plan [6; 8; 7] [8; 7; 6] 6 eq_refl
    sample_reachable _ _ _)).
  - apply (Permutation_cons_append [8; 7] 6).
  - repeat constructor; vm_compute; done.
  - repeat split; vm_compute; done.
Defined.

Lemma timed_hold_ends_witness :
  (EmptyHold 5 120 (run_requests 1 (take 3 sample_requests) (new_plan 2 0))).2 ≠ ACKNOWLEDGEMENT.
Proof.
  refine (proj2 (proj2 (timed_hold_ends 2 0 1
    (run_requests 1 (take 3 sample_requests) (new_plan 2 0)) RClose 5 100 20 120 eq_refl _ _ _ _))).
  - apply reachable_run; [constructor|repeat constructor].
  - vm_compute. reflexivity.
  - done.
  - done.
Defined.

(** One request, forging an ack of 131072, decides 131073 indices: twice the bound. *)
Lemma decisions_per_request_witness :
  decided (Decide 131073 131072 0 (new_plan 8 0)).1 = 131073 ∧ 0 + MAX_AHEAD < 131073.
Proof.
  split; [|done].
  refine (proj2 (decisions_per_request 8 0 0 131073 131072 (new_plan 8 0) _ _ _ _ _) _ _ _ _);
    try done. constructor.
Defined.
