(* ===== verification/FieldPaths.v ===== *)
(** * Fields of structured types in a column list ([src/src/include/acl_field_paths.hpp])

    A COLUMNS item may be a path into a struct column or through a list of structs.  The items of
    one column form a tree; the levels of a grant chain intersect trees, a principal's roles unite
    them, and a tree compiles to the projection the role reads.  [shows] says which leaves a tree
    lets through unmasked; the theorems state what each operation does to it. *)
From stdpp Require Import pretty.
From S2P Require Import Prelude NamePath.

(** ** Paths *)

(** [FieldPath]: the column, then the steps into it, a field name or the empty string for an
    element *)
Record FieldPath := { head : string; steps : list string }.
Definition IsColumn (p : FieldPath) : bool := match steps p with [] => true | _ => false end.

Definition in_range (lo hi : nat) (c : ascii) : bool :=
  (lo <=? nat_of_ascii c)%nat && (nat_of_ascii c <=? hi)%nat.
(** C's [isdigit] and [isalnum] in the default locale *)
Definition isdigit (c : ascii) : bool := in_range 48 57 c.
Definition isalnum (c : ascii) : bool := isdigit c || in_range 65 90 c || in_range 97 122 c.

(** The characters of a bare name *)
Definition bare_char (c : ascii) : bool :=
  isalnum c || Ascii.eqb c "_" || Ascii.eqb c "$" || (128 <=? nat_of_ascii c)%nat.

Fixpoint read_bare_name (s : string) : string * string :=
  match s with
  | EmptyString => (EmptyString, EmptyString)
  | String c s' =>
      if bare_char c then let r := read_bare_name s' in (String c r.1, r.2)
      else (EmptyString, s)
  end.

Definition separator_error : string :=
  "a path is names separated by '.', each optionally followed by []".

(** One name of the path, quoted or bare *)
Definition read_path_name (s : string) : string + (string * string) :=
  match s with
  | String c s' =>
      if Ascii.eqb c dquote then
        match read_quoted s' with
        | Some (name, after) =>
            if is_empty name then inl "an unterminated or empty quoted name" else inr (name, after)
        | None => inl "an unterminated or empty quoted name"
        end
      else
        let r := read_bare_name s in
        if is_empty r.1 then inl separator_error else inr r
  | EmptyString => inl separator_error
  end.

(** The loop of [ParseFieldPath].  Every round consumes a character, so the length of the text
    bounds them. *)
Fixpoint path_loop (fuel : nat) (expect_name : bool) (s : string) (parts : list string)
    : string + list string :=
  match fuel with
  | O => inl EmptyString
  | S fuel =>
      match s with
      | EmptyString =>
          if expect_name || match parts with [] => true | _ => false end
          then inl "a path cannot end with '.'" else inr parts
      | String ch s' =>
          if expect_name then
            match read_path_name s with
            | inl error => inl error
            | inr (name, after) => path_loop fuel false after (parts ++ [name])
            end
          else if Ascii.eqb ch "[" then
            match s' with
            | String d s'' =>
                if Ascii.eqb d "]" then path_loop fuel false s'' (parts ++ [EmptyString])
                else inl "'[' must be '[]' (every element of a list)"
            | EmptyString => inl "'[' must be '[]' (every element of a list)"
            end
          else if Ascii.eqb ch dot then path_loop fuel true s' parts
          else inl separator_error
      end
  end.

Definition ParseFieldPath `{StringUtil} (text_p : string) : string + FieldPath :=
  let text := Trim text_p in
  match path_loop (S (String.length text)) true text [] with
  | inl error => inl error
  | inr [] => inl "a path cannot end with '.'"
  | inr (head :: steps) => inr {| head := head; steps := steps |}
  end.

Definition is_bare_name (name : string) : bool :=
  match name with
  | EmptyString => false
  | String c _ => negb (isdigit c) && string_forallb bare_char name
  end.

Section text.
Context `{SU : StringUtil}.

(** [QuotedName] *)
Definition QuotedName (name : string) : string := dq +:+ Replace name dq (dq +:+ dq) +:+ dq.

(** [FieldName]: a name as it is written back *)
Definition FieldName (name : string) : string :=
  if is_bare_name name then name else dq +:+ Replace name dq (dq +:+ dq) +:+ dq.

(** [FieldOf]: a field of a struct value, by name *)
Definition FieldOf (value name : string) : string :=
  "struct_extract(" +:+ value +:+ ", '" +:+ Replace name sq (sq +:+ sq) +:+ "')".
End text.

(** ** Trees *)

(** [FieldNode]: [whole], everything from here down is visible except the masked descendants
    listed; [masked], the value here is [mask]; otherwise only [fields] and [element] are *)
Inductive FieldNode :=
  Node (name : string) (whole masked : bool) (mask : string)
       (fields : list FieldNode) (element : option FieldNode).

Definition name (n : FieldNode) : string := let '(Node x _ _ _ _ _) := n in x.
Definition whole (n : FieldNode) : bool := let '(Node _ x _ _ _ _) := n in x.
Definition masked (n : FieldNode) : bool := let '(Node _ _ x _ _ _) := n in x.
Definition mask (n : FieldNode) : string := let '(Node _ _ _ x _ _) := n in x.
Definition fields (n : FieldNode) : list FieldNode := let '(Node _ _ _ _ x _) := n in x.
Definition element (n : FieldNode) : option FieldNode := let '(Node _ _ _ _ _ x) := n in x.

(** [make_uniq<FieldNode>()], named *)
Definition new_node (name : string) : FieldNode := Node name false false EmptyString [] None.

(** [WholeNode] *)
Definition WholeNode (name : string) : FieldNode := Node name true false EmptyString [] None.

Definition Empty (n : FieldNode) : bool :=
  negb (whole n) && negb (masked n)
  && match fields n with [] => true | _ => false end
  && match element n with None => true | _ => false end.

Definition Plain (n : FieldNode) : bool :=
  whole n && negb (masked n)
  && match fields n with [] => true | _ => false end
  && match element n with None => true | _ => false end.

(** The number of nodes: what the recursions of two trees descend on *)
Fixpoint node_size (n : FieldNode) : nat :=
  let '(Node _ _ _ _ fields element) := n in
  S (list_sum (map node_size fields) + match element with Some e => node_size e | None => 0 end).

Section trees.
Context `{SU : StringUtil}.

(** [Find]: the first child of that name *)
Fixpoint find_field (name_p : string) (l : list FieldNode) : option FieldNode :=
  match l with
  | [] => None
  | c :: l => if CIEquals (name c) name_p then Some c else find_field name_p l
  end.
Definition Find (n : FieldNode) (field : string) : option FieldNode := find_field field (fields n).

(** [ChildOrWhole] *)
Definition ChildOrWhole (n : FieldNode) (name_p : string) : option FieldNode :=
  match Find n name_p with
  | Some found => Some found
  | None => if whole n then Some (WholeNode name_p) else None
  end.

(** A side's element, or the whole element a whole node implies *)
Definition element_or_whole (n : FieldNode) : option FieldNode :=
  match element n with
  | Some e => Some e
  | None => if whole n then Some (WholeNode EmptyString) else None
  end.

(** The child of that name replaced by what [f] makes of it; of a new node, appended, when there
    is none *)
Fixpoint update_field (name_p : string) (f : FieldNode → outcome FieldNode) (l : list FieldNode)
    : outcome (list FieldNode) :=
  match l with
  | [] => c ← f (new_node name_p); Ok [c]
  | c :: l =>
      if CIEquals (name c) name_p then c' ← f c; Ok (c' :: l)
      else l' ← update_field name_p f l; Ok (c :: l')
  end.

(** What [InsertPath] does at the position the path names *)
Definition insert_target (mask_p display : string) (n : FieldNode) : outcome FieldNode :=
  let '(Node name whole masked mask fields element) := n in
  if negb (is_empty mask_p) then
    if masked && negb (String.eqb mask mask_p) then
      Throw ("acl: " +:+ dq +:+ display +:+ dq +:+ " is masked twice in one grant (" +:+ dq +:+ mask
             +:+ dq +:+ " and " +:+ dq +:+ mask_p +:+ dq +:+ ")")
    else Ok (Node name whole true mask_p [] None)
  else if masked then Ok n else Ok (Node name true masked mask fields element).

(** The walk of [InsertPath] *)
Fixpoint insert_steps (steps : list string) (mask_p display : string) (n : FieldNode)
    : outcome FieldNode :=
  match steps with
  | [] => insert_target mask_p display n
  | step :: steps =>
      let '(Node name whole masked mask fields element) := n in
      if masked then Ok n
      else if is_empty step then
        e ← insert_steps steps mask_p display (default (new_node EmptyString) element);
        Ok (Node name whole masked mask fields (Some e))
      else
        fields ← update_field step (insert_steps steps mask_p display) fields;
        Ok (Node name whole masked mask fields element)
  end.

Definition InsertPath (root : FieldNode) (path : FieldPath) (mask_p display : string)
    : outcome FieldNode :=
  insert_steps (steps path) mask_p display root.

(** Whether a simplified child says something its node does not *)
Definition keeps (whole : bool) (c : FieldNode) : bool :=
  negb (whole && Plain c) && negb (Empty c).

(** [Simplify], told whether the node above is whole: a child of a whole node that is not masked
    is made whole before it is simplified itself *)
Fixpoint simplify_under (whole_above : bool) (n : FieldNode) : FieldNode :=
  let '(Node name whole0 masked mask fields element) := n in
  let whole := whole0 || (whole_above && negb masked) in
  if masked then Node name whole masked mask [] None
  else
    let kept := List.filter (keeps whole) (map (simplify_under whole) fields) in
    let element' :=
      match element with
      | None => None
      | Some e =>
          let e' := simplify_under whole e in
          if (whole && Plain e') || Empty e' then None else Some e'
      end in
    Node name whole masked mask kept element'.

Definition Simplify (n : FieldNode) : FieldNode := simplify_under false n.

(** The names of both sides, each once: [a]'s, then the ones only [b] has *)
Definition both_names (a b : FieldNode) : list string :=
  map name (fields a)
  ++ map name (List.filter (λ c, match Find a (name c) with Some _ => false | None => true end)
                 (fields b)).

(** A merged child is stored unless the node says the same *)
Definition kept_merge (w : bool) (merged : option FieldNode) : option FieldNode :=
  match merged with
  | Some m => if w && Plain m then None else Some m
  | None => None
  end.

(** [IntersectNodes]; the two trees' sizes are enough fuel ([intersect_enough]) *)
Fixpoint intersect_fuel (fuel : nat) (a b : FieldNode) : option FieldNode :=
  match fuel with
  | O => None
  | S fuel =>
      if masked b || masked a then
        Some (Node (name a) false true (if masked b then mask b else mask a) [] None)
      else
        let w := whole a && whole b in
        let child nm :=
          match ChildOrWhole a nm, ChildOrWhole b nm with
          | Some ac, Some bc => kept_merge w (intersect_fuel fuel ac bc)
          | _, _ => None
          end in
        let e :=
          match element a, element b with
          | None, None => None
          | _, _ =>
              match element_or_whole a, element_or_whole b with
              | Some ae, Some be => kept_merge w (intersect_fuel fuel ae be)
              | _, _ => None
              end
          end in
        let result := Node (name a) w false EmptyString (omap child (both_names a b)) e in
        if Empty result then None else Some result
  end.

Definition IntersectNodes (a b : FieldNode) : option FieldNode :=
  intersect_fuel (node_size a + node_size b) a b.

(** [UniteNodes] on two present sides *)
Definition conflict (display mask_a mask_b : string) : string :=
  "acl: the principal's roles mask column " +:+ dq +:+ display +:+ dq +:+ " differently (" +:+ dq
  +:+ mask_a +:+ dq +:+ " vs " +:+ dq +:+ mask_b +:+ dq
  +:+ ") - grant the same expression, or drop one of the grants".

(** [UniteNodes]; an absent side is [None] *)
Fixpoint unite_fuel (fuel : nat) (a b : option FieldNode) (display : string)
    : outcome (option FieldNode) :=
  match fuel, a, b with
  | _, None, _ => Ok b
  | _, _, None => Ok a
  | O, _, _ => Throw EmptyString
  | S fuel, Some a, Some b =>
      if masked a && masked b then
        if negb (String.eqb (mask a) (mask b)) then Throw (conflict display (mask a) (mask b))
        else Ok (Some a)
      else if masked a then Ok (Some b)
      else if masked b then Ok (Some a)
      else
        let w := whole a || whole b in
        kept ← omapM (λ nm,
                 merged ← unite_fuel fuel (ChildOrWhole a nm) (ChildOrWhole b nm)
                            (display +:+ "." +:+ FieldName nm);
                 Ok (option_list (kept_merge w merged))) (both_names a b);
        e ← match element a, element b with
            | None, None => Ok None
            | _, _ =>
                merged ← unite_fuel fuel (element_or_whole a) (element_or_whole b)
                           (display +:+ "[]");
                Ok (kept_merge w merged)
            end;
        Ok (Some (Node (name a) w false EmptyString (concat kept) e))
  end.

Definition opt_size (n : option FieldNode) : nat :=
  match n with Some n => node_size n | None => 0 end.

Definition UniteNodes (a b : option FieldNode) (display : string) : outcome (option FieldNode) :=
  unite_fuel (opt_size a + opt_size b) a b display.

(** [SerializeNode]: a tree back to COLUMNS items *)
Fixpoint SerializeNode (n : FieldNode) (prefix : string) : list (string * string) :=
  let '(Node _ whole masked mask fields element) := n in
  if masked then [(prefix, mask)]
  else
    (if whole then [(prefix, EmptyString)] else [])
    ++ concat (map (λ c, SerializeNode c (prefix +:+ "." +:+ FieldName (name c))) fields)
    ++ match element with Some e => SerializeNode e (prefix +:+ "[]") | None => [] end.

(** [HasElementStep] *)
Fixpoint HasElementStep (n : FieldNode) : bool :=
  let '(Node _ _ _ _ fields element) := n in
  match element with
  | Some _ => true
  | None => existsb HasElementStep fields
  end.
End trees.

(** ** What a tree compiles to *)

(** [std::to_string] of an unsigned number *)
Definition to_string (n : N) : string := pretty n.

Section compile.
Context `{SU : StringUtil}.

(** [CompileNode] *)
Fixpoint CompileNode (n : FieldNode) (value : string) (depth : N) : string :=
  let '(Node _ whole masked mask fields element) := n in
  if masked then mask
  else
    let lambda := "__acl_e" +:+ to_string depth in
    let assigned :=
      map (λ child, QuotedName (name child) +:+ " := "
                    +:+ CompileNode child (FieldOf value (name child)) depth) fields in
    match element with
    | Some e =>
        "list_transform(" +:+ value +:+ ", lambda " +:+ lambda +:+ ": "
        +:+ CompileNode e lambda (depth + 1)%N +:+ ")"
    | None =>
        if whole then
          match fields with
          | [] => value
          | _ =>
              "CASE WHEN " +:+ value +:+ " IS NULL THEN NULL ELSE struct_update(" +:+ value
              +:+ ", " +:+ join ", " assigned +:+ ") END"
          end
        else
          "CASE WHEN " +:+ value +:+ " IS NULL THEN NULL ELSE struct_pack(" +:+ join ", " assigned
          +:+ ") END"
    end.

(** [CompileWrite]; [stored] is empty for an INSERT *)
Fixpoint CompileWrite (n : FieldNode) (written stored refusal : string) (depth : N) : string :=
  let '(Node _ whole masked mask fields _) := n in
  if masked then mask
  else
    let assigned (stored : string) :=
      map (λ child, QuotedName (name child) +:+ " := "
                    +:+ CompileWrite child (FieldOf written (name child))
                          (if is_empty stored then EmptyString else FieldOf stored (name child))
                          refusal (depth + 1)%N) fields in
    if whole then
      match fields with
      | [] => written
      | _ =>
          "CASE WHEN " +:+ written +:+ " IS NULL THEN NULL ELSE struct_update(" +:+ written
          +:+ ", " +:+ join ", " (assigned stored) +:+ ") END"
      end
    else
      let visible := map (λ c, sq +:+ Replace (Lower (name c)) sq (sq +:+ sq) +:+ sq) fields in
      let key := "__acl_k" +:+ to_string depth in
      let foreign :=
        "len(list_filter(struct_keys(" +:+ written +:+ "), lambda " +:+ key +:+ ": translate("
        +:+ key +:+ ", 'ABCDEFGHIJKLMNOPQRSTUVWXYZ', 'abcdefghijklmnopqrstuvwxyz') NOT IN ("
        +:+ join ", " visible +:+ "))) > 0" in
      let refuse := "error('" +:+ Replace refusal sq (sq +:+ sq) +:+ "')" in
      let checked value :=
        "CASE WHEN " +:+ foreign +:+ " THEN " +:+ refuse +:+ " ELSE " +:+ value +:+ " END" in
      let fresh :=
        checked ("CASE WHEN " +:+ written +:+ " IS NULL THEN NULL ELSE struct_pack("
                 +:+ join ", " (assigned EmptyString) +:+ ") END") in
      if is_empty stored then fresh
      else checked ("CASE WHEN " +:+ stored +:+ " IS NULL THEN " +:+ fresh
                    +:+ " ELSE struct_update(" +:+ stored +:+ ", " +:+ join ", " (assigned stored)
                    +:+ ") END").
End compile.

(** ** Types

    duckdb's [LogicalType] is a parameter: what the code asks of one and the two it builds.  An
    [Identifier] compares like its name. *)

Inductive type_view (T : Type) :=
  | is_struct (children : list (string * T))
  | is_list (child : T)
  | is_array (child : T)
  | is_other.
Arguments is_struct {T} _. Arguments is_list {T} _. Arguments is_array {T} _.
Arguments is_other {T}.

Class LogicalTypes (T : Type) := {
  type_of_value : T → type_view T;
  LIST : T → T;
  STRUCT : list (string * T) → T;
}.
Class LogicalTypeLaws (T : Type) `{LogicalTypes T} : Prop := {
  LIST_law : ∀ t, type_of_value (LIST t) = is_list t;
  STRUCT_law : ∀ l, type_of_value (STRUCT l) = is_struct l;
}.

Section types.
Context `{SU : StringUtil} {T : Type} `{LT : LogicalTypes T}.

(** The first child of that name *)
Fixpoint child_type (nm : string) (children : list (string * T)) : option T :=
  match children with
  | [] => None
  | (k, t) :: children => if CIEquals k nm then Some t else child_type nm children
  end.

(** [ProjectedType] *)
Fixpoint ProjectedType (n : FieldNode) (source : T) (path : string) (mask_type : string → T) : T :=
  let '(Node _ whole is_masked mask fields element) := n in
  if is_masked then mask_type path
  else
    match element with
    | Some e =>
        match type_of_value source with
        | is_list child | is_array child =>
            LIST (ProjectedType e child (path +:+ "[]") mask_type)
        | _ => source
        end
    | None =>
        match type_of_value source, fields with
        | is_struct children, _ :: _ =>
            let below nm := path +:+ "." +:+ FieldName nm in
            if whole then
              let replaced '(nm, t) :=
                (nm, (fix find (l : list FieldNode) : T :=
                        match l with
                        | [] => t
                        | c :: l =>
                            if CIEquals (name c) nm then ProjectedType c t (below nm) mask_type
                            else find l
                        end) fields) in
              let absent c :=
                match child_type (name c) children with Some _ => false | None => masked c end in
              STRUCT (map replaced children
                      ++ map (λ c, (name c, mask_type (below (name c)))) (List.filter absent fields))
            else
              STRUCT ((fix packed (l : list FieldNode) : list (string * T) :=
                         match l with
                         | [] => []
                         | c :: l =>
                             match child_type (name c) children with
                             | Some t =>
                                 (name c, ProjectedType c t (below (name c)) mask_type) :: packed l
                             | None =>
                                 if masked c
                                 then (name c, mask_type (below (name c))) :: packed l
                                 else packed l
                             end
                         end) fields)
        | _, _ => source
        end
    end.

(** The steps of [TypeAtPath] *)
Fixpoint type_steps (current : T) (steps : list string) : option T :=
  match steps with
  | [] => Some current
  | step :: steps =>
      if is_empty step then
        match type_of_value current with
        | is_list child | is_array child => type_steps child steps
        | _ => None
        end
      else
        match type_of_value current with
        | is_struct children =>
            match child_type step children with
            | Some child => type_steps child steps
            | None => None
            end
        | _ => None
        end
  end.

(** [TypeAtPath] *)
Definition TypeAtPath (type : T) (path : string) : option T :=
  match ParseFieldPath ("x" +:+ path) with
  | inl _ => None
  | inr parsed => type_steps type (steps parsed)
  end.
End types.

(** ** The items of a grant *)

(** A COLUMNS item: the name or path, and its mask, empty for none *)
Abbreviation item := (string * string)%type (only parsing).

Section items.
Context `{SU : StringUtil}.

(** [ColumnTrees::From] on one item: the column and the steps it names *)
Definition first_is_quote (s : string) : bool :=
  match s with String c _ => Ascii.eqb c dquote | EmptyString => false end.

Definition item_path (first : string) : FieldPath :=
  let trimmed := Trim first in
  let column := {| head := trimmed; steps := [] |} in
  if contains_char dot trimmed || contains_char "[" trimmed || first_is_quote trimmed
  then match ParseFieldPath trimmed with inr path => path | inl _ => column end
  else column.

Definition insert_item (it : item) (columns : list FieldNode) : outcome (list FieldNode) :=
  let path := item_path it.1 in
  update_field (head path) (λ root, InsertPath root path it.2 it.1) columns.

Fixpoint insert_items (items : list item) (columns : list FieldNode)
    : outcome (list FieldNode) :=
  match items with
  | [] => Ok columns
  | it :: items => columns ← insert_item it columns; insert_items items columns
  end.

(** [ColumnTrees::From] *)
Definition From (items : list item) : outcome (list FieldNode) :=
  columns ← insert_items items []; Ok (map Simplify columns).

(** [ColumnTrees::RootName] *)
Definition RootName (column : FieldNode) : string :=
  let plain_ok := negb (contains_char dot (name column)) && negb (contains_char "[" (name column))
                  && negb (first_is_quote (name column)) in
  if match fields column with [] => true | _ => false end
     && match element column with None => true | _ => false end && plain_ok
  then name column else FieldName (name column).

(** [ColumnTrees::Items] *)
Definition Items (columns : list FieldNode) : list item :=
  concat (map (λ column, SerializeNode column (RootName column)) columns).

(** [ItemsCsv] *)
Definition ItemsCsv (items : list item) : string :=
  join ", " (map (λ it, if is_empty it.2 then it.1 else it.1 +:+ " = " +:+ it.2) items).

(** [HasFieldPaths] *)
Definition HasFieldPaths (items : list item) : bool :=
  existsb (λ it, let name := Trim it.1 in
                 contains_char dot name || contains_char "[" name || first_is_quote name) items.

(** The loop of [IntersectColumnItems] over the trees *)
Definition intersect_columns (ta tb : list FieldNode) : list FieldNode :=
  omap (λ column, match find_field (name column) tb with
                  | Some other => IntersectNodes column other
                  | None => None
                  end) ta.

(** [IntersectColumnItems] *)
Definition IntersectColumnItems (a b : list item) : outcome (list item) :=
  ta ← From a; tb ← From b; Ok (Items (intersect_columns ta tb)).

(** The loops of [UniteColumnItems] over the trees *)
Definition unite_columns (ta tb : list FieldNode) : outcome (list FieldNode) :=
  united ← omapM (λ column, UniteNodes (Some column) (find_field (name column) tb) (name column))
             ta;
  Ok (omap id united
      ++ List.filter (λ column, match find_field (name column) ta with
                                | Some _ => false | None => true end) tb).

(** [UniteColumnItems] *)
Definition UniteColumnItems (a b : list item) : outcome (list item) :=
  ta ← From a; tb ← From b; columns ← unite_columns ta tb; Ok (Items columns).
End items.

(** ** Paths written and read back *)

(** A path as it is written: the head, then each step, [[]] for an element *)
Definition step_text `{StringUtil} (step : string) : string :=
  if is_empty step then "[]" else "." +:+ FieldName step.
Fixpoint steps_text `{StringUtil} (steps : list string) : string :=
  match steps with
  | [] => EmptyString
  | step :: steps => step_text step +:+ steps_text steps
  end.
Definition path_text `{StringUtil} (p : FieldPath) : string :=
  FieldName (head p) +:+ steps_text (steps p).

(** What may follow a name: the end, a dot, or a bracket *)
Definition path_boundary (rest : string) : Prop :=
  match rest with
  | EmptyString => True
  | String c _ => bare_char c = false ∧ Ascii.eqb c dquote = false
  end.

Section path_laws.
Context `{SUL : StringUtilLaws}.

Lemma steps_text_boundary l : path_boundary (steps_text l).
Proof. destruct l as [|x l]; [done|]. simpl. rw /step_text. by destruct (is_empty x). Qed.

Lemma read_bare_name_app nm rest :
  string_forallb bare_char nm = true → path_boundary rest →
  read_bare_name (nm +:+ rest) = (nm, rest).
Proof.
  intros Hnm Hrest. induction nm as [|c nm IH].
  - destruct rest as [|d rest]; [done|]. destruct Hrest as [Hd _].
    rw string_app_nil_l. simpl. by rw Hd.
  - simpl in Hnm. apply andb_prop in Hnm as [Hc Hnm].
    rw string_app_cons /= Hc IH //.
Qed.

(** What [FieldName] writes: the name itself, or the name quoted *)
Lemma FieldName_cases nm :
  (nm ≠ EmptyString ∧ string_forallb bare_char nm = true ∧ FieldName nm = nm) ∨
  FieldName nm = String dquote (replace_char dquote (dq +:+ dq) nm +:+ dq).
Proof.
  rw /FieldName /is_bare_name Replace_law.
  destruct nm as [|c nm]; [by right|].
  destruct (negb (isdigit c) && string_forallb bare_char (String c nm)) eqn:Hb; [|by right].
  apply andb_prop in Hb as [_ Hb]. by left.
Qed.

Lemma read_path_name_written nm rest :
  is_empty nm = false → path_boundary rest →
  read_path_name (FieldName nm +:+ rest) = inr (nm, rest).
Proof.
  intros Hnm Hrest. destruct (FieldName_cases nm) as [(_ & Hb & ->)| ->].
  - pose proof (read_bare_name_app nm rest Hb Hrest) as Hr.
    destruct nm as [|c nm]; [done|]. simpl in Hb. apply andb_prop in Hb as [Hc _].
    rw string_app_cons in Hr |- *. cbn [read_path_name].
    replace (Ascii.eqb c dquote) with false; [by rw Hr|].
    symmetry. apply Ascii.eqb_neq. by intros ->.
  - rw string_app_cons -string_app_assoc. simpl.
    change (Ascii.eqb dquote dquote) with true. cbv iota.
    rw read_quoted_escaped; [|by rw Hnm]. destruct rest as [|d rest]; [done|]. by destruct Hrest.
Qed.

Lemma FieldName_nonempty nm rest : ∃ c s, FieldName nm +:+ rest = String c s ∧ space_char c = false.
Proof.
  destruct (FieldName_cases nm) as [(Hne & Hb & ->)| ->]; [|by eexists _, _].
  destruct nm as [|c nm]; [done|]. simpl in Hb. apply andb_prop in Hb as [Hc _].
  eexists _, _. split; [done|]. by destruct c as [[] [] [] [] [] [] [] []].
Qed.

(** The loop on what was written: one round for each name and dot, one for a bracket pair *)
Lemma path_loop_steps l parts fuel :
  parts ≠ [] → String.length (steps_text l) < fuel →
  path_loop fuel false (steps_text l) parts = inr (parts ++ l).
Proof.
  revert parts fuel. induction l as [|x l IH]; intros parts fuel Hparts Hfuel.
  { destruct fuel; [simpl in Hfuel; lia|]. destruct parts; [done|]. by rw app_nil_r. }
  cbn [steps_text] in Hfuel |- *. rw /step_text in Hfuel |- *. destruct (is_empty x) eqn:Hx.
  - destruct x; [|done]. destruct fuel as [|fuel]; [lia|].
    rw !string_app_cons string_app_nil_l in Hfuel |- *. simpl in Hfuel. simpl.
    rw IH; [by destruct parts|lia|]. by rw -app_assoc.
  - rw !string_app_cons string_app_nil_l in Hfuel |- *. simpl in Hfuel.
    rw string_length_app in Hfuel.
    destruct fuel as [|fuel]; [lia|].
    assert (1 ≤ String.length (FieldName x)).
    { destruct (FieldName_nonempty x EmptyString) as (c & s & He & _).
      rw string_app_nil_r in He. rw He /=. lia. }
    destruct (FieldName_nonempty x (steps_text l)) as (c & s & He & _).
    pose proof (read_path_name_written x (steps_text l) Hx (steps_text_boundary l)) as Hr.
    destruct fuel as [|fuel]; [lia|].
    transitivity (path_loop (S fuel) true (FieldName x +:+ steps_text l) parts); [done|].
    rw He in Hr |- *. cbn [path_loop]. rw Hr.
    rw IH; [by destruct parts|lia|]. by rw -app_assoc.
Qed.

Lemma trim_right_last a b : b ≠ EmptyString → trim_right b = b → trim_right (a +:+ b) = a +:+ b.
Proof.
  intros Hne Hb. induction a as [|c a IH]; [done|]. rw string_app_cons /= IH.
  replace (is_empty (a +:+ b)) with false; [by rw andb_false_r|].
  by destruct a; [destruct b|].
Qed.

Lemma trim_right_bare nm : string_forallb bare_char nm = true → trim_right nm = nm.
Proof.
  induction nm as [|c nm IH]; [done|]. simpl. intros [Hc ->%IH]%andb_prop.
  by destruct c as [[] [] [] [] [] [] [] []].
Qed.

Lemma FieldName_trimmed nm : trim_right (FieldName nm) = FieldName nm.
Proof.
  destruct (FieldName_cases nm) as [(_ & Hb & ->)| ->]; [by apply trim_right_bare|].
  rw -str1_app string_app_assoc. by apply trim_right_last.
Qed.

Lemma steps_text_trimmed l : trim_right (steps_text l) = steps_text l.
Proof.
  induction l as [|x l IH]; [done|]. cbn [steps_text].
  destruct (decide (l = [])) as [->|Hl].
  - rw /= string_app_nil_r /step_text. destruct (is_empty x); [done|].
    apply trim_right_last, FieldName_trimmed.
    destruct (FieldName_nonempty x EmptyString) as (c & s & He & _).
    rw string_app_nil_r in He. by rw He.
  - apply trim_right_last; [|done]. destruct l as [|y l]; [done|]. cbn [steps_text].
    rw /step_text. by destruct (is_empty y).
Qed.

Lemma path_text_trimmed p : Trim (path_text p) = path_text p.
Proof.
  rw Trim_law /path_text.
  destruct (FieldName_nonempty (head p) (steps_text (steps p))) as (c & s & He & Hc).
  replace (trim_left (FieldName (head p) +:+ steps_text (steps p)))
    with (FieldName (head p) +:+ steps_text (steps p)) by (rw He /=; by rw Hc).
  destruct (decide (steps p = [])) as [->|Hl].
  - rw /= string_app_nil_r. apply FieldName_trimmed.
  - apply trim_right_last; [|apply steps_text_trimmed].
    destruct (steps p) as [|y l]; [done|]. cbn [steps_text]. rw /step_text. by destruct (is_empty y).
Qed.

Lemma ParseFieldPath_written p :
  is_empty (head p) = false → ParseFieldPath (path_text p) = inr p.
Proof.
  intros Hp. rw /ParseFieldPath path_text_trimmed. cbv zeta.
  pose proof (read_path_name_written _ _ Hp (steps_text_boundary (steps p))) as Hr.
  destruct (FieldName_nonempty (head p) (steps_text (steps p))) as (c & s & He & _).
  rw /path_text He in Hr |- *. cbn [path_loop]. rw Hr.
  rw path_loop_steps; [done| |by destruct p].
  assert (Hlen : String.length (String c s) = String.length (FieldName (head p) +:+ steps_text (steps p)))
    by by rw He.
  rw string_length_app in Hlen.
  destruct (FieldName_nonempty (head p) EmptyString) as (c' & s' & He' & _).
  rw string_app_nil_r in He'. rw He' in Hlen. simpl in Hlen |- *. lia.
Qed.
End path_laws.

(** ** What a tree lets through *)

Fixpoint node_ind' (P : FieldNode → Prop)
    (step : ∀ nm w m k fs e, Forall P fs → (∀ x, e = Some x → P x) → P (Node nm w m k fs e))
    (n : FieldNode) {struct n} : P n.
Proof.
  destruct n as [nm w m k fs e]. apply step.
  - induction fs as [|f fs IH]; constructor; [apply (node_ind' P step)|exact IH].
  - intros x. destruct e as [e|]; [|discriminate]. intros [= <-]. apply (node_ind' P step).
Defined.

Section meaning.
Context `{SU : StringUtil}.

(** Whether the value at a path below the node is let through unmasked.  The path is field names
    and elements (the empty string). *)
Fixpoint shows (n : FieldNode) (path : list string) : bool :=
  if masked n then false
  else
    match path with
    | [] => whole n
    | step :: path =>
        if is_empty step then
          match element n with Some e => shows e path | None => whole n end
        else
          match Find n step with Some c => shows c path | None => whole n end
    end.

Definition covers (n : FieldNode) : bool := masked n || whole n.

Definition distinct (l : list FieldNode) : Prop := NoDup (map (λ c, Lower (name c)) l).

(** Children of distinct names *)
Fixpoint named (n : FieldNode) : Prop :=
  distinct (fields n) ∧ foldr (λ c P, named c ∧ P) True (fields n)
  ∧ match element n with Some e => named e | None => True end.

(** Under a whole node every child is whole or masked *)
Fixpoint honest (n : FieldNode) : Prop :=
  (whole n = true → Forall (λ c, covers c = true) (fields n)
                    ∧ ∀ e, element n = Some e → covers e = true)
  ∧ foldr (λ c P, honest c ∧ P) True (fields n)
  ∧ match element n with Some e => honest e | None => True end.

Definition shows_opt (n : option FieldNode) (path : list string) : bool :=
  match n with Some n => shows n path | None => false end.
End meaning.

Section tree_laws.
Context `{SUL : StringUtilLaws}.

Lemma node_size_pos n : 0 < node_size n.
Proof. destruct n. simpl. lia. Qed.

Lemma named_node nm w m k fs e :
  named (Node nm w m k fs e) ↔
  distinct fs ∧ Forall named fs ∧ ∀ x, e = Some x → named x.
Proof.
  simpl. split.
  - intros (Hd & Hf & He). split; [done|]. split.
    + clear Hd. induction fs as [|f fs IH]; constructor; [apply Hf|apply IH, Hf].
    + intros x ->. done.
  - intros (Hd & Hf & He). split; [done|]. split.
    + clear Hd. induction Hf; simpl; auto.
    + destruct e; auto.
Qed.

Lemma honest_node nm w m k fs e :
  honest (Node nm w m k fs e) ↔
  (w = true → Forall (λ c, covers c = true) fs ∧ ∀ x, e = Some x → covers x = true)
  ∧ Forall honest fs ∧ ∀ x, e = Some x → honest x.
Proof.
  simpl. split.
  - intros (Hd & Hf & He). split; [done|]. split.
    + clear Hd. induction fs as [|f fs IH]; constructor; [apply Hf|apply IH, Hf].
    + intros x ->. done.
  - intros (Hd & Hf & He). split; [done|]. split.
    + clear Hd. induction Hf; simpl; auto.
    + destruct e; auto.
Qed.

Lemma find_field_in nm l c :
  find_field nm l = Some c → c ∈ l ∧ CIEquals (name c) nm = true.
Proof.
  induction l as [|x l IH]; [done|]. simpl. destruct (CIEquals (name x) nm) eqn:Hx.
  - intros [= <-]. split; [left|done].
  - intros [Hin Hc]%IH. split; [by right|done].
Qed.

Lemma find_field_none nm l c :
  find_field nm l = None → c ∈ l → CIEquals (name c) nm = false.
Proof.
  induction l as [|x l IH]; [by intros _ ?%elem_of_nil|]. simpl.
  destruct (CIEquals (name x) nm) eqn:Hx; [done|].
  intros Hn [->|Hin]%elem_of_cons; [done|auto].
Qed.

Lemma find_field_ci a b l : CIEquals a b = true → find_field a l = find_field b l.
Proof.
  intros Hab. induction l as [|x l IH]; [done|]. simpl.
  by rw IH (CIEquals_sym _ a) (CIEquals_sym _ b) (CIEquals_trans _ _ _ Hab).
Qed.

Lemma find_field_app nm l k :
  find_field nm (l ++ k) = match find_field nm l with Some c => Some c | None => find_field nm k end.
Proof. induction l as [|x l IH]; [done|]. simpl. by destruct (CIEquals (name x) nm). Qed.

(** A node's child (or element) stands for it: what the node shows below is what the child shows *)
Lemma shows_field n step p :
  masked n = false → is_empty step = false →
  shows n (step :: p) = shows_opt (ChildOrWhole n step) p.
Proof.
  intros Hm Hs. destruct n as [nm w m k fs e]. simpl in Hm. subst m. simpl. rw Hs /ChildOrWhole.
  destruct (Find _ step); [done|]. destruct w; simpl; [|done].
  destruct p as [|s p]; [done|]. simpl. by destruct (is_empty s).
Qed.

Lemma shows_element n p :
  masked n = false → shows n (EmptyString :: p) = shows_opt (element_or_whole n) p.
Proof.
  intros Hm. destruct n as [nm w m k fs e]. simpl in Hm. subst m. simpl.
  rw /element_or_whole /=. destruct e; [done|]. destruct w; simpl; [|done].
  destruct p as [|s p]; [done|]. simpl. by destruct (is_empty s).
Qed.

Lemma shows_masked n p : masked n = true → shows n p = false.
Proof. destruct n, p; simpl; by intros ->. Qed.

Lemma shows_Empty n p : Empty n = true → shows n p = false.
Proof.
  destruct n as [nm w m k fs e]. rw /Empty /=.
  destruct w, m, fs, e; try done. intros _. destruct p as [|s p]; [done|]. simpl.
  by destruct (is_empty s).
Qed.

Lemma shows_Plain n p : Plain n = true → shows n p = true.
Proof.
  destruct n as [nm w m k fs e]. rw /Plain /=.
  destruct w, m, fs, e; try done. intros _. destruct p as [|s p]; [done|]. simpl.
  by destruct (is_empty s).
Qed.

Lemma shows_named_ci n a b p :
  CIEquals a b = true →
  shows_opt (ChildOrWhole n a) p = shows_opt (ChildOrWhole n b) p.
Proof.
  intros Hab. rw /ChildOrWhole /Find (find_field_ci a b) //. destruct (find_field b _); [done|].
  destruct (whole n); [|done]. simpl. destruct p as [|s p]; [done|]. simpl. by destruct (is_empty s).
Qed.
End tree_laws.

(** ** Merging two nodes' children

    Both merges walk the names of both sides and keep at most one child for each. *)
Section rows.
Context `{SUL : StringUtilLaws}.

(** [rows] are what the walk of [names] kept, each row of children of that name *)
Definition rows_of (names : list string) (rows : list (list FieldNode)) : Prop :=
  Forall2 (λ nm row, Forall (λ c, CIEquals (name c) nm = true) row) names rows.

Lemma find_field_row nm step row :
  Forall (λ c, CIEquals (name c) nm = true) row →
  find_field step row = if CIEquals nm step then hd_error row else None.
Proof.
  induction 1 as [|c row Hc Hrow IH]; [by destruct (CIEquals nm step)|]. simpl.
  rw (CIEquals_trans _ _ step Hc) IH. by destruct (CIEquals nm step).
Qed.

Lemma find_rows_none names rows step :
  rows_of names rows → (∀ nm, nm ∈ names → CIEquals nm step = false) →
  find_field step (concat rows) = None.
Proof.
  induction 1 as [|nm row names rows Hrow Hrows IH]; intros Hn; [done|]. simpl.
  rw find_field_app (find_field_row nm) // Hn; [left|]. apply IH. intros x Hx. apply Hn. by right.
Qed.

Lemma find_rows names rows step nm i row :
  rows_of names rows → NoDup (map Lower names) →
  names !! i = Some nm → rows !! i = Some row → CIEquals nm step = true →
  find_field step (concat rows) = hd_error row.
Proof.
  intros Hrows. revert i. induction Hrows as [|nm' row' names rows Hrow Hrows IH]; [done|].
  intros i Hnd%NoDup_cons Hi Hr Hnm. destruct Hnd as [Hnin Hnd]. simpl. rw find_field_app.
  destruct i as [|i]; simplify_eq/=.
  - rw (find_field_row nm) // Hnm. destruct row; [|done]. simpl.
    eapply find_rows_none; [done|]. intros x Hx.
    destruct (CIEquals x step) eqn:Hxs; [|done]. exfalso. apply Hnin.
    apply CIEquals_true in Hnm, Hxs. rw Hnm -Hxs. by apply list_elem_of_fmap_2.
  - rw (find_field_row nm') //.
    replace (CIEquals nm' step) with false; [by eapply IH|].
    symmetry. apply not_true_is_false. intros Hxs. apply Hnin.
    apply CIEquals_true in Hnm, Hxs. rw Hxs -Hnm. apply list_elem_of_fmap_2.
    by eapply list_elem_of_lookup_2.
Qed.

Lemma rows_distinct names rows :
  rows_of names rows → NoDup (map Lower names) → Forall (λ row, length row ≤ 1) rows →
  distinct (concat rows).
Proof.
  intros Hrows. induction Hrows as [|nm row names rows Hrow Hrows IH]; [intros; apply NoDup_nil_2|].
  intros [Hnin Hnd]%NoDup_cons [Hlen Hlens]%Forall_cons. simpl. rw /distinct map_app.
  apply NoDup_app. split; [|split].
  - destruct row as [|c [|]]; simpl in *; [apply NoDup_nil_2|apply NoDup_singleton|lia].
  - intros x Hx Hx2. apply Hnin.
    apply list_elem_of_fmap in Hx as (c & -> & Hc). apply list_elem_of_fmap in Hx2 as (d & Hcd & Hd).
    rw Forall_forall in Hrow. apply Hrow, CIEquals_true in Hc. rw -Hc Hcd.
    clear -SUL Hrows Hd. induction Hrows as [|nm' row' names rows Hr Hrows IH]; simpl in *.
    + by apply elem_of_nil in Hd.
    + rw Forall_forall in Hr. apply elem_of_app in Hd as [Hd|Hd]; [|right; auto].
      apply Hr, CIEquals_true in Hd. rw Hd. left.
  - by apply IH.
Qed.

Lemma omap_concat {A B} (f : A → option B) l : omap f l = concat (map (λ x, option_list (f x)) l).
Proof. induction l as [|x l IH]; [done|]. csimpl. rw IH. by destruct (f x). Qed.

(** The names walked *)
Lemma both_names_lookup a b step c :
  Find a step = Some c ∨ Find b step = Some c →
  ∃ i nm, both_names a b !! i = Some nm ∧ CIEquals nm step = true.
Proof.
  intros Hc.
  assert (∃ nm, nm ∈ both_names a b ∧ CIEquals nm step = true) as (nm & Hin & Hnm).
  { destruct (Find a step) as [d|] eqn:Ha.
    - apply find_field_in in Ha as [Hin Hd]. exists (name d). split; [|done].
      apply elem_of_app. left. by apply list_elem_of_fmap_2.
    - destruct Hc as [Hc|Hc]; [done|]. apply find_field_in in Hc as [Hin Hd].
      exists (name c). split; [|done]. apply elem_of_app. right. apply list_elem_of_fmap_2.
      apply list_elem_of_In, filter_In. rw -list_elem_of_In. split; [done|].
      rw /Find (find_field_ci _ step) //. rw /Find in Ha. by rw Ha. }
  apply list_elem_of_lookup_1 in Hin as [i Hi]. eauto.
Qed.

Lemma both_names_elem a b nm :
  nm ∈ both_names a b → (∃ c, Find a nm = Some c) ∨ (∃ c, Find b nm = Some c).
Proof.
  intros [Hin|Hin]%elem_of_app; apply list_elem_of_fmap in Hin as (c & -> & Hc).
  - left. destruct (Find a (name c)) eqn:Hf; [eauto|].
    apply (find_field_none _ _ c) in Hf; [|done]. by rw CIEquals_refl in Hf.
  - right. apply list_elem_of_In, filter_In in Hc as [Hc _]. rw -list_elem_of_In in Hc.
    destruct (Find b (name c)) eqn:Hf; [eauto|].
    apply (find_field_none _ _ c) in Hf; [|done]. by rw CIEquals_refl in Hf.
Qed.

Lemma both_names_NoDup a b :
  distinct (fields a) → distinct (fields b) → NoDup (map Lower (both_names a b)).
Proof.
  intros Ha Hb. rw /both_names map_app !map_map. apply NoDup_app. split; [done|]. split.
  - intros x Hx Hx2. apply list_elem_of_fmap in Hx as (c & -> & Hc).
    apply list_elem_of_fmap in Hx2 as (d & Hcd & Hd).
    apply list_elem_of_In, filter_In in Hd as [_ Hd].
    destruct (Find a (name d)) eqn:Hf; [done|].
    apply (find_field_none _ _ c) in Hf; [|done].
    apply CIEquals_true in Hcd. by rw Hf in Hcd.
  - clear -Hb. rw /distinct in Hb. induction (fields b) as [|c l IH]; [apply NoDup_nil_2|].
    simpl in *. apply NoDup_cons in Hb as [Hnin Hnd].
    destruct (Find a (name c)); [by apply IH|]. simpl. apply NoDup_cons. split; [|by apply IH].
    intros Hin. apply Hnin. apply list_elem_of_fmap in Hin as (d & -> & Hd).
    apply list_elem_of_In, filter_In in Hd as [Hd _]. rw -list_elem_of_In in Hd.
    by apply (list_elem_of_fmap_2 (λ c, Lower (name c))).
Qed.
End rows.

Section merges.
Context `{SUL : StringUtilLaws}.

(** What a merged child lets through survives being left unsaid under a whole node *)
Lemma shows_kept w merged p :
  (w = true → merged ≠ None) →
  match kept_merge w merged with Some c => shows c p | None => w end = shows_opt merged p.
Proof.
  intros Hw. destruct merged as [m|]; simpl.
  - destruct w; simpl; [|done]. destruct (Plain m) eqn:Hp; [|done]. by rw shows_Plain.
  - destruct w; [by destruct Hw|done].
Qed.

Definition merges_to (f : bool → bool → bool) (w : bool) (x y merged : option FieldNode) : Prop :=
  (w = true → merged ≠ None) ∧ ∀ p, shows_opt merged p = f (shows_opt x p) (shows_opt y p).

(** Two nodes merged child by child: enough that every child is *)
Lemma merged_shows f a b nm rows e :
  let w := f (whole a) (whole b) in
  masked a = false → masked b = false →
  distinct (fields a) → distinct (fields b) →
  rows_of (both_names a b) rows →
  (∀ i x, both_names a b !! i = Some x → ∃ merged,
     rows !! i = Some (option_list (kept_merge w merged))
     ∧ merges_to f w (ChildOrWhole a x) (ChildOrWhole b x) merged) →
  (element a = None ∧ element b = None ∧ e = None
   ∨ ∃ merged, e = kept_merge w merged
               ∧ merges_to f w (element_or_whole a) (element_or_whole b) merged) →
  ∀ p, shows (Node nm w false EmptyString (concat rows) e) p = f (shows a p) (shows b p).
Proof.
  intros w Ha Hb Hda Hdb Hrows Hchild Helem p.
  destruct p as [|step p].
  { destruct a, b; simpl in *. by subst. }
  destruct (is_empty step) eqn:Hs.
  - destruct step; [|done]. rw (shows_element a) // (shows_element b) //. simpl.
    destruct Helem as [(Hea & Heb & ->)|(merged & -> & Hw & Hp)].
    + rw /element_or_whole Hea Heb. rw /w.
      destruct (whole a), (whole b), p as [|s p]; simpl; by try destruct (is_empty s).
    + rw -Hp. by apply shows_kept.
  - rw (shows_field a) // (shows_field b) //. simpl. rw Hs.
    change (Find _ step) with (find_field step (concat rows)).
    destruct (decide (Find a step = None ∧ Find b step = None)) as [[Hfa Hfb]|Hf].
    + rw (find_rows_none (both_names a b)) //; last first.
      { rw /ChildOrWhole Hfa Hfb /w.
        destruct (whole a), (whole b), p as [|s p]; simpl; by try destruct (is_empty s). }
      intros x Hx. destruct (CIEquals x step) eqn:Hxs; [|done].
      apply both_names_elem in Hx. rw /Find !(find_field_ci x step) // in Hx.
      rw /Find in Hfa, Hfb. rw Hfa Hfb in Hx. destruct Hx as [[? ?]|[? ?]]; done.
    + destruct (both_names_lookup a b step (default a (from_option Some (Find b step) (Find a step))))
        as (i & x & Hi & Hx).
      { destruct (Find a step), (Find b step); simpl; auto. naive_solver. }
      destruct (Hchild _ _ Hi) as (merged & Hr & Hw & Hp).
      rw (find_rows (both_names a b) rows step x i
            (option_list (kept_merge w merged)) Hrows) //; [by apply both_names_NoDup|].
      rw -(shows_named_ci a x) // -(shows_named_ci b x) // -Hp -(shows_kept w merged p Hw).
      by destruct (kept_merge w merged).
Qed.

Lemma ChildOrWhole_name n x c : ChildOrWhole n x = Some c → CIEquals (name c) x = true.
Proof.
  rw /ChildOrWhole. destruct (Find n x) eqn:Hf.
  - intros [= <-]. by apply find_field_in in Hf as [_ ?].
  - destruct (whole n); [|done]. intros [= <-]. apply CIEquals_refl.
Qed.

(** A node's child: named and honest as the node is, and smaller; a whole child it implies is the
    smallest tree there is *)
Lemma ChildOrWhole_inv n x c :
  ChildOrWhole n x = Some c →
  (Find n x = Some c ∧ c ∈ fields n) ∨ (Find n x = None ∧ c = WholeNode x ∧ whole n = true).
Proof.
  rw /ChildOrWhole. destruct (Find n x) eqn:Hf.
  - intros [= <-]. left. split; [done|]. by apply find_field_in in Hf as [? _].
  - destruct (whole n); [|done]. intros [= <-]. by right.
Qed.

Lemma element_or_whole_inv n c :
  element_or_whole n = Some c →
  element n = Some c ∨ (element n = None ∧ c = WholeNode EmptyString ∧ whole n = true).
Proof.
  rw /element_or_whole. destruct (element n); [intros [= <-]; by left|].
  destruct (whole n); [|done]. intros [= <-]. by right.
Qed.

Lemma field_size n c : c ∈ fields n → node_size c < node_size n.
Proof.
  destruct n as [nm w m k fs e]. simpl. induction fs as [|f fs IH]; [by intros ?%elem_of_nil|].
  intros [->|Hin]%elem_of_cons; simpl; [lia|]. specialize (IH Hin). lia.
Qed.

Lemma element_size n c : element n = Some c → node_size c < node_size n.
Proof. destruct n as [nm w m k fs e]. simpl. intros ->. lia. Qed.
End merges.

Section intersect.
Context `{SUL : StringUtilLaws}.

(** A child, an element, or the whole one a whole node implies *)
Definition below (n c : FieldNode) : Prop :=
  c ∈ fields n ∨ element n = Some c ∨ (whole n = true ∧ ∃ x, c = WholeNode x).

Lemma ChildOrWhole_below n x c : ChildOrWhole n x = Some c → below n c.
Proof. intros [[_ ?]|(_ & -> & ?)]%ChildOrWhole_inv; rw /below; naive_solver. Qed.

Lemma element_or_whole_below n c : element_or_whole n = Some c → below n c.
Proof. intros [?|(_ & -> & ?)]%element_or_whole_inv; rw /below; naive_solver. Qed.

Definition real (n c : FieldNode) : Prop := c ∈ fields n ∨ element n = Some c.

Lemma below_sizes a b c d :
  below a c → below b d → real a c ∨ real b d →
  node_size c + node_size d < node_size a + node_size b.
Proof.
  assert (Hreal : ∀ n m, real n m → node_size m < node_size n).
  { intros n m [?%field_size|?%element_size]; done. }
  assert (Hbelow : ∀ n m, below n m → node_size m ≤ node_size n).
  { intros n m [?%field_size|[?%element_size|(_ & x & ->)]]; try lia.
    pose proof (node_size_pos n). simpl. lia. }
  intros Hc%Hbelow Hd%Hbelow [Hr%Hreal|Hr%Hreal]; lia.
Qed.

Lemma named_below n c : named n → below n c → named c.
Proof.
  destruct n as [nm w m k fs e]. rw named_node. intros (_ & Hf & He).
  intros [Hin|[Hin|(_ & x & ->)]]; simpl in *; [by eapply Forall_forall|auto|].
  split; [apply NoDup_nil_2|done].
Qed.

Lemma honest_below n c :
  honest n → below n c → honest c ∧ (whole n = true → covers c = true).
Proof.
  destruct n as [nm w m k fs e]. rw honest_node. intros (Hw & Hf & He).
  intros [Hin|[Hin|(_ & x & ->)]]; simpl in *.
  - split; [by eapply Forall_forall|]. intros Hwt. destruct (Hw Hwt) as [Hc _].
    rw Forall_forall in Hc. auto.
  - split; [auto|]. intros Hwt. destruct (Hw Hwt) as [_ Hc]. auto.
  - split; [|done]. split; [|done]. split; [constructor|done].
Qed.

Lemma named_distinct n : named n → distinct (fields n).
Proof. destruct n. by rw named_node; intros [? _]. Qed.

Definition meet (fuel : nat) (x y : option FieldNode) : option FieldNode :=
  match x, y with Some x, Some y => intersect_fuel fuel x y | _, _ => None end.

Definition meet_node (fuel : nat) (a b : FieldNode) : FieldNode :=
  let w := whole a && whole b in
  Node (name a) w false EmptyString
    (concat (map (λ x, option_list (kept_merge w (meet fuel (ChildOrWhole a x) (ChildOrWhole b x))))
               (both_names a b)))
    (match element a, element b with
     | None, None => None
     | _, _ => kept_merge w (meet fuel (element_or_whole a) (element_or_whole b))
     end).

Lemma intersect_unfold fuel a b :
  masked a = false → masked b = false →
  intersect_fuel (S fuel) a b =
  (if Empty (meet_node fuel a b) then None else Some (meet_node fuel a b)).
Proof.
  intros Ha Hb. cbn [intersect_fuel]. rw Ha Hb /=.
  rw omap_concat.
  replace (meet_node fuel a b) with
    (Node (name a) (whole a && whole b) false EmptyString
       (concat (map (λ x, option_list
          match ChildOrWhole a x, ChildOrWhole b x with
          | Some ac, Some bc => kept_merge (whole a && whole b) (intersect_fuel fuel ac bc)
          | _, _ => None
          end) (both_names a b)))
       match element a, element b with
       | None, None => None
       | _, _ =>
           match element_or_whole a, element_or_whole b with
           | Some ae, Some be => kept_merge (whole a && whole b) (intersect_fuel fuel ae be)
           | _, _ => None
           end
       end); [done|].
  rw /meet_node. f_equal.
  - f_equal. apply map_ext. intros x. by destruct (ChildOrWhole a x), (ChildOrWhole b x).
  - by destruct (element a), (element b), (element_or_whole a), (element_or_whole b).
Qed.

(** What the intersection of two trees is, one level of the recursion at a time *)
Definition meets (a b : FieldNode) (r : option FieldNode) : Prop :=
  (∀ p, shows_opt r p = shows a p && shows b p)
  ∧ (∀ m, r = Some m → name m = name a ∧ named m ∧ honest m)
  ∧ (covers a = true → covers b = true → ∃ m, r = Some m ∧ covers m = true).

Section step.
Context (fuel : nat) (a b : FieldNode).
Hypothesis Hfuel : node_size a + node_size b ≤ S fuel.
Hypothesis Hna : named a.
Hypothesis Hnb : named b.
Hypothesis Hha : honest a.
Hypothesis Hhb : honest b.
Hypothesis IH : ∀ c d, node_size c + node_size d ≤ fuel → named c → named d → honest c → honest d →
  meets c d (intersect_fuel fuel c d).

Lemma meet_below c d :
  below a c → below b d → real a c ∨ real b d →
  meets c d (intersect_fuel fuel c d) ∧
  (whole a && whole b = true → covers c = true ∧ covers d = true).
Proof.
  intros Hc Hd Hr. pose proof (below_sizes a b c d Hc Hd Hr).
  destruct (honest_below a c Hha Hc) as [? Hwa]. destruct (honest_below b d Hhb Hd) as [? Hwb].
  split; [|intros [? ?]%andb_prop; auto].
  apply IH; [lia|by apply (named_below a)|by apply (named_below b)|done|done].
Qed.

(** A child of the merge, whichever walk gives it *)
Lemma meet_merges x y :
  (∀ c, x = Some c → below a c) → (∀ d, y = Some d → below b d) →
  (whole a && whole b = true → x ≠ None ∧ y ≠ None) →
  (∀ c d, x = Some c → y = Some d → real a c ∨ real b d) →
  merges_to andb (whole a && whole b) x y (meet fuel x y) ∧
  ∀ m, meet fuel x y = Some m →
    named m ∧ honest m ∧ (whole a && whole b = true → covers m = true)
    ∧ ∃ c, x = Some c ∧ name m = name c.
Proof.
  intros Hx Hy Hw Hr. destruct x as [c|], y as [d|]; simpl.
  - destruct (meet_below c d) as [(Hp & Hm & Hc) Hcov]; auto.
    split; [split; [|done]|].
    + intros [? ?]%Hcov. destruct Hc as (m & -> & _); done.
    + intros m Hm'. destruct (Hm m Hm') as (? & ? & ?). split; [done|]. split; [done|].
      split; [|by exists c].
      intros [? ?]%Hcov. destruct Hc as (m' & Hm'' & ?); [done..|]. by simplify_eq.
  - split; [split|done]; [intros []%Hw; done|]. intros p. by rw andb_false_r.
  - split; [split|done]; [intros []%Hw; done|]. done.
  - split; [split|done]; [intros []%Hw; done|]. done.
Qed.

Lemma meet_child x :
  x ∈ both_names a b →
  merges_to andb (whole a && whole b) (ChildOrWhole a x) (ChildOrWhole b x)
    (meet fuel (ChildOrWhole a x) (ChildOrWhole b x)) ∧
  ∀ m, meet fuel (ChildOrWhole a x) (ChildOrWhole b x) = Some m →
    named m ∧ honest m ∧ (whole a && whole b = true → covers m = true)
    ∧ CIEquals (name m) x = true.
Proof.
  intros Hx. destruct (meet_merges (ChildOrWhole a x) (ChildOrWhole b x)) as [Hm Hn].
  - intros c. apply ChildOrWhole_below.
  - intros c. apply ChildOrWhole_below.
  - intros [Ha Hb]%andb_prop. rw /ChildOrWhole Ha Hb. by destruct (Find a x), (Find b x).
  - intros c d Hc Hd. apply both_names_elem in Hx as [[c' Hx]|[d' Hx]].
    + left. rw /ChildOrWhole Hx in Hc. left. simplify_eq. by apply find_field_in in Hx as [? _].
    + right. rw /ChildOrWhole Hx in Hd. left. simplify_eq. by apply find_field_in in Hx as [? _].
  - split; [done|]. intros m Hm'. destruct (Hn m Hm') as (? & ? & ? & c & Hc & Hnm).
    split; [done|]. split; [done|]. split; [done|]. rw Hnm. by eapply ChildOrWhole_name.
Qed.

Lemma meet_element :
  (element a ≠ None ∨ element b ≠ None) →
  merges_to andb (whole a && whole b) (element_or_whole a) (element_or_whole b)
    (meet fuel (element_or_whole a) (element_or_whole b)) ∧
  ∀ m, meet fuel (element_or_whole a) (element_or_whole b) = Some m →
    named m ∧ honest m ∧ (whole a && whole b = true → covers m = true).
Proof.
  intros He. destruct (meet_merges (element_or_whole a) (element_or_whole b)) as [Hm Hn].
  - intros c. apply element_or_whole_below.
  - intros c. apply element_or_whole_below.
  - intros [Ha Hb]%andb_prop. rw /element_or_whole Ha Hb. by destruct (element a), (element b).
  - intros c d Hc Hd. rw /element_or_whole in Hc Hd.
    destruct He as [He|He].
    + left. right. by destruct (element a); simplify_eq.
    + right. right. by destruct (element b); simplify_eq.
  - split; [done|]. intros m Hm'. destruct (Hn m Hm') as (? & ? & ? & _). done.
Qed.
End step.
End intersect.

Section intersect_laws.
Context `{SUL : StringUtilLaws}.

Lemma map_rows_of {A} (names : list string) (f : string → A) (g : A → list FieldNode) :
  (∀ x, x ∈ names → Forall (λ c, CIEquals (name c) x = true) (g (f x))) →
  rows_of names (map (λ x, g (f x)) names).
Proof.
  induction names as [|x names IH]; intros Hf; constructor.
  - apply Hf. left.
  - apply IH. intros y Hy. apply Hf. by right.
Qed.

Lemma kept_merge_some w x c : kept_merge w x = Some c → x = Some c.
Proof. destruct x as [m|]; [|done]. simpl. by destruct (w && Plain m). Qed.

Lemma kept_row w x P : (∀ m, x = Some m → P m) → Forall P (option_list (kept_merge w x)).
Proof.
  intros Hx. destruct (kept_merge w x) as [c|] eqn:Hc; [|constructor].
  apply kept_merge_some in Hc. constructor; [auto|constructor].
Qed.

Lemma Forall_concat_map {A B} (P : B → Prop) (f : A → list B) l :
  (∀ x, x ∈ l → Forall P (f x)) → Forall P (concat (map f l)).
Proof.
  induction l as [|x l IH]; intros Hf; [constructor|]. simpl. apply Forall_app. split.
  - apply Hf. left.
  - apply IH. intros y Hy. apply Hf. by right.
Qed.

Lemma Forall_short_rows {A} (f : A → option FieldNode) l :
  Forall (λ row : list FieldNode, length row ≤ 1) (map (λ x, option_list (f x)) l).
Proof. induction l as [|x l IH]; simpl; constructor; [destruct (f x); simpl; lia|done]. Qed.

Lemma Empty_covers n : covers n = true → Empty n = false.
Proof. destruct n as [nm [] [] k fs e]; done. Qed.

Lemma meets_masked a b fuel :
  masked b || masked a = true → meets a b (intersect_fuel (S fuel) a b).
Proof.
  intros Hm. cbn [intersect_fuel]. rw Hm. split; [|split].
  - intros p. rw /= shows_masked //. symmetry. apply orb_prop in Hm as [Hm|Hm].
    + by rw (shows_masked b) // andb_false_r.
    + by rw (shows_masked a).
  - intros m [= <-]. simpl. repeat split; try done; apply NoDup_nil_2.
  - intros _ _. eexists. split; [done|]. done.
Qed.

Lemma intersect_fuel_meets fuel a b :
  node_size a + node_size b ≤ fuel → named a → named b → honest a → honest b →
  meets a b (intersect_fuel fuel a b).
Proof.
  revert a b. induction fuel as [|fuel IH]; intros a b Hfuel Hna Hnb Hha Hhb.
  { pose proof (node_size_pos a). lia. }
  destruct (masked b || masked a) eqn:Hm; [by apply meets_masked|].
  apply orb_false_elim in Hm as [Hb Ha]. rw intersect_unfold //.
  pose proof (meet_child fuel a b Hfuel Hna Hnb Hha Hhb IH) as Hchild.
  pose proof (meet_element fuel a b Hfuel Hna Hnb Hha Hhb IH) as Helem.
  pose proof (both_names_NoDup a b (named_distinct a Hna) (named_distinct b Hnb)) as Hnames.
  assert (Hrows : rows_of (both_names a b)
    (map (λ x, option_list (kept_merge (whole a && whole b)
                 (meet fuel (ChildOrWhole a x) (ChildOrWhole b x)))) (both_names a b))).
  { apply (map_rows_of _ (λ x, meet fuel (ChildOrWhole a x) (ChildOrWhole b x))
             (λ m, option_list (kept_merge (whole a && whole b) m))).
    intros x Hx. apply kept_row. intros m Hmeet. by apply (Hchild x Hx). }
  assert (Hshows : ∀ p, shows (meet_node fuel a b) p = shows a p && shows b p).
  { apply (merged_shows andb); [done|done|by apply named_distinct..|done| |].
    - intros i x Hi. exists (meet fuel (ChildOrWhole a x) (ChildOrWhole b x)).
      split; [by rw list_lookup_fmap Hi|]. apply Hchild. by eapply list_elem_of_lookup_2.
    - destruct (element a) eqn:Hea, (element b) eqn:Heb; [right..|by left];
        eexists; split; try done; apply Helem; rw ?Hea ?Heb; auto. }
  assert (Hgood : named (meet_node fuel a b) ∧ honest (meet_node fuel a b)).
  { rw /meet_node named_node honest_node. split; (split; [|split]).
    - eapply rows_distinct; [exact Hrows|done|]. apply Forall_short_rows.
    - apply Forall_concat_map. intros x Hx. apply kept_row. intros m Hmm. by apply (Hchild x Hx).
    - intros x. destruct (element a) eqn:Hea, (element b) eqn:Heb; try done;
        intros Hx%kept_merge_some; apply Helem in Hx; rw ?Hea ?Heb; intuition congruence.
    - intros Hw. split.
      + apply Forall_concat_map. intros x Hx. apply kept_row. intros m Hmm.
        by apply (Hchild x Hx).
      + intros x. destruct (element a) eqn:Hea, (element b) eqn:Heb; try done;
          intros Hx%kept_merge_some; apply Helem in Hx; rw ?Hea ?Heb; intuition congruence.
    - apply Forall_concat_map. intros x Hx. apply kept_row. intros m Hmm. by apply (Hchild x Hx).
    - intros x. destruct (element a) eqn:Hea, (element b) eqn:Heb; try done;
        intros Hx%kept_merge_some; apply Helem in Hx; rw ?Hea ?Heb; intuition congruence. }
  split; [|split].
  - intros p. rw -Hshows. destruct (Empty (meet_node fuel a b)) eqn:He; [|done].
    by rw shows_Empty.
  - intros m. destruct (Empty (meet_node fuel a b)); [done|]. by intros [= <-].
  - rw /covers Ha Hb /=. intros Hwa Hwb.
    assert (Hc : covers (meet_node fuel a b) = true) by by rw /covers /= Hwa Hwb.
    rw Empty_covers //. eauto.
Qed.
End intersect_laws.

Section unite.
Context `{SUL : StringUtilLaws}.

Definition conflicting (message : string) : Prop :=
  ∃ display x y, x ≠ y ∧ message = conflict display x y.

(** What the union of two sides is: their shown values together, or a refusal of two masks *)
Definition joins (x y : option FieldNode) (r : outcome (option FieldNode)) : Prop :=
  match r with
  | Ok merged =>
      (x ≠ None ∨ y ≠ None → merged ≠ None)
      ∧ (∀ p, shows_opt merged p = shows_opt x p || shows_opt y p)
      ∧ (∀ m, merged = Some m →
           (∃ c, x = Some c ∧ name m = name c) ∨ (∃ d, y = Some d ∧ name m = name d))
  | Throw message => conflicting message
  end.

Lemma joins_none x y r : x = None ∨ y = None → r = Ok (match x with Some _ => x | None => y end) →
  joins x y r.
Proof.
  intros Hn ->. destruct x as [c|], y as [d|]; simpl; (split; [|split]);
    intros; simplify_eq; rw ?orb_false_r; try done; try (by destruct Hn); naive_solver.
Qed.

Lemma unite_none_l fuel y display : unite_fuel fuel None y display = Ok y.
Proof. by destruct fuel. Qed.
Lemma unite_none_r fuel x display : unite_fuel fuel x None display = Ok x.
Proof. by destruct fuel, x. Qed.

Definition unite_child (fuel : nat) (a b : FieldNode) (display nm : string) :=
  unite_fuel fuel (ChildOrWhole a nm) (ChildOrWhole b nm) (display +:+ "." +:+ FieldName nm).
Definition unite_element (fuel : nat) (a b : FieldNode) (display : string) :=
  unite_fuel fuel (element_or_whole a) (element_or_whole b) (display +:+ "[]").

Lemma unite_unfold fuel a b display :
  masked a = false → masked b = false →
  unite_fuel (S fuel) (Some a) (Some b) display =
  (let w := whole a || whole b in
   kept ← omapM (λ nm, merged ← unite_child fuel a b display nm;
                       Ok (option_list (kept_merge w merged))) (both_names a b);
   e ← match element a, element b with
       | None, None => Ok None
       | _, _ => merged ← unite_element fuel a b display; Ok (kept_merge w merged)
       end;
   Ok (Some (Node (name a) w false EmptyString (concat kept) e))).
Proof. intros Ha Hb. cbn [unite_fuel]. by rw Ha Hb. Qed.

Lemma unite_masked fuel a b display :
  masked a || masked b = true → joins (Some a) (Some b) (unite_fuel (S fuel) (Some a) (Some b) display).
Proof.
  intros Hm. cbn [unite_fuel].
  destruct (masked a) eqn:Ha, (masked b) eqn:Hb; simplify_eq/=.
  - destruct (String.eqb (mask a) (mask b)) eqn:He; simpl.
    + split; [done|]. split; [|naive_solver]. intros p. by rw !shows_masked.
    + exists display, (mask a), (mask b). split; [|done]. by apply String.eqb_neq.
  - split; [done|]. split; [|naive_solver]. intros p. by rw (shows_masked a).
  - split; [done|]. split; [|naive_solver]. intros p. by rw (shows_masked b) // orb_false_r.
Qed.

Lemma joins_merges w x y merged :
  (w = true → x ≠ None ∨ y ≠ None) → joins x y (Ok merged) → merges_to orb w x y merged.
Proof. intros Hw (Hn & Hp & _). split; auto. Qed.
End unite.

Section unite_laws.
Context `{SUL : StringUtilLaws}.

Section step.
Context (fuel : nat) (a b : FieldNode).
Hypothesis Hfuel : node_size a + node_size b ≤ S fuel.
Hypothesis Hna : named a.
Hypothesis Hnb : named b.
Hypothesis IH : ∀ c d display, node_size c + node_size d ≤ fuel → named c → named d →
  joins (Some c) (Some d) (unite_fuel fuel (Some c) (Some d) display).

Lemma unite_below x y display :
  (∀ c, x = Some c → below a c) → (∀ d, y = Some d → below b d) →
  (∀ c d, x = Some c → y = Some d → real a c ∨ real b d) →
  joins x y (unite_fuel fuel x y display).
Proof.
  intros Hx Hy Hr. destruct x as [c|]; [destruct y as [d|]|].
  - apply IH; [|apply (named_below a); auto|apply (named_below b); auto].
    pose proof (below_sizes a b c d (Hx c eq_refl) (Hy d eq_refl) (Hr c d eq_refl eq_refl)). lia.
  - apply joins_none; [auto|]. apply unite_none_r.
  - apply joins_none; [auto|]. by rw unite_none_l.
Qed.

Lemma unite_child_joins x display :
  x ∈ both_names a b →
  joins (ChildOrWhole a x) (ChildOrWhole b x) (unite_child fuel a b display x).
Proof.
  intros Hx. apply unite_below.
  - intros c. apply ChildOrWhole_below.
  - intros c. apply ChildOrWhole_below.
  - intros c d Hc Hd. apply both_names_elem in Hx as [[c' Hx]|[d' Hx]].
    + left. rw /ChildOrWhole Hx in Hc. left. simplify_eq. by apply find_field_in in Hx as [? _].
    + right. rw /ChildOrWhole Hx in Hd. left. simplify_eq. by apply find_field_in in Hx as [? _].
Qed.

Lemma unite_element_joins display :
  element a ≠ None ∨ element b ≠ None →
  joins (element_or_whole a) (element_or_whole b) (unite_element fuel a b display).
Proof.
  intros He. apply unite_below.
  - intros c. apply element_or_whole_below.
  - intros c. apply element_or_whole_below.
  - intros c d Hc Hd. rw /element_or_whole in Hc Hd. destruct He as [He|He].
    + left. right. by destruct (element a); simplify_eq.
    + right. right. by destruct (element b); simplify_eq.
Qed.

(** The children the loop keeps, row by row *)
Lemma unite_rows display kept :
  let w := whole a || whole b in
  omapM (λ nm, merged ← unite_child fuel a b display nm;
               Ok (option_list (kept_merge w merged))) (both_names a b) = Ok kept →
  rows_of (both_names a b) kept ∧
  ∀ i x, both_names a b !! i = Some x → ∃ merged,
    kept !! i = Some (option_list (kept_merge w merged))
    ∧ merges_to orb w (ChildOrWhole a x) (ChildOrWhole b x) merged.
Proof.
  intros w Hk%omapM_ok. split.
  - apply Forall2_same_length_lookup_2; [by eapply Forall2_length|].
    intros i x row Hi Hr. pose proof (Forall2_lookup_lr _ _ _ _ _ _ Hk Hi Hr) as Hrow.
    assert (Hx : x ∈ both_names a b) by by eapply list_elem_of_lookup_2.
    apply outcome_bind_ok in Hrow as (merged & Hm & [= <-]).
    pose proof (unite_child_joins x display Hx) as Hj. rw Hm in Hj.
    apply kept_row. intros m ->. destruct Hj as (_ & _ & Hn).
    destruct (Hn m eq_refl) as [(c & Hc & ->)|(d & Hd & ->)]; by eapply ChildOrWhole_name.
  - intros i x Hi. destruct (Forall2_lookup_l _ _ _ _ _ Hk Hi) as (row & Hrow & Hx).
    apply outcome_bind_ok in Hx as (merged & Hm & [= <-]). exists merged. split; [done|].
    assert (Hin : x ∈ both_names a b) by by eapply list_elem_of_lookup_2.
    pose proof (unite_child_joins x display Hin) as Hj. rw Hm in Hj.
    apply joins_merges; [|done]. rw /w. intros Hw. rw /ChildOrWhole.
    destruct (whole a), (whole b), (Find a x), (Find b x); try done; auto.
Qed.
End step.

Lemma unite_fuel_joins fuel a b display :
  node_size a + node_size b ≤ fuel → named a → named b →
  joins (Some a) (Some b) (unite_fuel fuel (Some a) (Some b) display).
Proof.
  revert a b display. induction fuel as [|fuel IH]; intros a b display Hfuel Hna Hnb.
  { pose proof (node_size_pos a). lia. }
  destruct (masked a || masked b) eqn:Hm; [by apply unite_masked|].
  apply orb_false_elim in Hm as [Ha Hb]. rw unite_unfold //. cbv zeta.
  destruct (omapM _ (both_names a b)) as [kept|e] eqn:Hk; last first.
  { apply omapM_throw in Hk as (x & Hx & Hthrow).
    pose proof (unite_child_joins fuel a b Hfuel Hna Hnb IH x display Hx) as Hj.
    destruct (unite_child fuel a b display x); [done|]. by simplify_eq/=. }
  apply (unite_rows fuel a b Hfuel Hna Hnb IH) in Hk as [Hrows Hchild].
  pose proof (unite_element_joins fuel a b Hfuel Hna Hnb IH display) as Helem.
  pose proof (merged_shows orb a b (name a) kept) as Hshows.
  change (Ok kept ≫= ?f) with (f kept). cbn beta.
  assert (Hew : whole a || whole b = true → element_or_whole a ≠ None ∨ element_or_whole b ≠ None).
  { rw /element_or_whole. destruct (whole a), (whole b), (element a), (element b); auto. }
  destruct (decide (element a = None ∧ element b = None)) as [[Hea Heb]|He].
  - rw Hea Heb. simpl. split; [done|]. split; [|naive_solver].
    apply Hshows; auto using named_distinct.
  - assert (He' : element a ≠ None ∨ element b ≠ None) by (destruct (element a), (element b); naive_solver).
    apply Helem in He'. clear Helem.
    replace (match element a, element b with None, None => Ok None | _, _ => _ end)
      with (merged ← unite_element fuel a b display; Ok (kept_merge (whole a || whole b) merged))
      by (destruct (element a), (element b); naive_solver).
    destruct (unite_element fuel a b display) as [merged|e]; [|done]. simpl.
    split; [done|]. split; [|naive_solver]. apply Hshows; auto using named_distinct.
    right. exists merged. split; [done|]. by apply joins_merges.
Qed.
End unite_laws.

(** ** What a grant's items say *)

Section grant_spec.
Context `{SU : StringUtil}.

(** The position [item] names is [path] or above it *)
Fixpoint at_or_above (item path : list string) : bool :=
  match item, path with
  | [], _ => true
  | step :: item, s :: path => CIEquals step s && at_or_above item path
  | _ :: _, [] => false
  end.

Definition item_covers (col : string) (path : list string) (it : string * string) : bool :=
  CIEquals (head (item_path it.1)) col && at_or_above (steps (item_path it.1)) path.

(** A position is granted when an item without a mask names it or one above it, and no masked item
    does *)
Definition granted (items : list (string * string)) (col : string) (path : list string) : bool :=
  existsb (λ it, is_empty it.2 && item_covers col path it) items
  && negb (existsb (λ it, negb (is_empty it.2) && item_covers col path it) items).

(** What a list of column trees lets through *)
Definition columns_show (columns : list FieldNode) (col : string) (path : list string) : bool :=
  shows_opt (find_field col columns) path.

(** The child a step goes to *)
Definition step_to (n : FieldNode) (step : string) : option FieldNode :=
  if is_empty step then element n else Find n step.

(** What a tree not yet simplified lets through, below a whole node or not *)
Fixpoint grants (whole_above : bool) (n : FieldNode) (path : list string) : bool :=
  if masked n then false
  else
    let w := whole n || whole_above in
    match path with
    | [] => w
    | step :: path =>
        match step_to n step with Some c => grants w c path | None => w end
    end.

Fixpoint masked_along (n : FieldNode) (path : list string) : bool :=
  masked n || match path with
              | [] => false
              | step :: path =>
                  match step_to n step with Some c => masked_along c path | None => false end
              end.
End grant_spec.

Section grant_laws.
Context `{SUL : StringUtilLaws}.

Lemma CIEquals_empty a b : CIEquals a b = true → is_empty a = is_empty b.
Proof. rw CIEquals_law bool_decide_eq_true. by destruct a, b. Qed.

Lemma shows_step n step p :
  shows n (step :: p) =
  (if masked n then false
   else match step_to n step with Some c => shows c p | None => whole n end).
Proof. rw /step_to /=. by destruct (is_empty step). Qed.

Lemma update_field_find step f l l' :
  (∀ c c', f c = Ok c' → name c' = name c) → update_field step f l = Ok l' →
  ∃ c, f (default (new_node step) (find_field step l)) = Ok c ∧
       ∀ s, find_field s l' = if CIEquals step s then Some c else find_field s l.
Proof.
  intros Hf. revert l'. induction l as [|x l IH]; intros l'; simpl.
  - intros (c & Hc & [= <-])%outcome_bind_ok. exists c. split; [done|]. intros s. simpl.
    apply Hf in Hc. by rw Hc /=.
  - destruct (CIEquals (name x) step) eqn:Hx; simpl.
    + intros (c & Hc & [= <-])%outcome_bind_ok. exists c. split; [done|]. intros s. simpl.
      rw (Hf _ _ Hc) (CIEquals_trans _ _ s Hx). by destruct (CIEquals step s).
    + intros (l2 & Hl & [= <-])%outcome_bind_ok. destruct (IH _ Hl) as (c & Hc & Hs).
      exists c. split; [done|]. intros s. simpl. rw Hs.
      destruct (CIEquals (name x) s) eqn:Hxs; [|done].
      destruct (CIEquals step s) eqn:Hss; [|done].
      rw CIEquals_sym in Hss. by rw (CIEquals_sym (name x)) (CIEquals_trans _ _ _ Hss) CIEquals_sym Hx in Hxs.
Qed.

Lemma insert_steps_name l mask_p display n n' :
  insert_steps l mask_p display n = Ok n' → name n' = name n.
Proof.
  destruct n as [nm w m k fs e], l as [|step l]; simpl.
  - destruct (is_empty mask_p), m; simpl; try (by intros [= <-]).
    destruct (String.eqb k mask_p); [|done]. by intros [= <-].
  - destruct m; [by intros [= <-]|]. destruct (is_empty step).
    + by intros (c & _ & [= <-])%outcome_bind_ok.
    + by intros (c & _ & [= <-])%outcome_bind_ok.
Qed.

(** One round of the walk: what the steps lead to afterwards *)
Lemma insert_steps_step step l mask_p display n n' :
  masked n = false → insert_steps (step :: l) mask_p display n = Ok n' →
  whole n' = whole n ∧ masked n' = false ∧
  ∃ c c', insert_steps l mask_p display c = Ok c'
    ∧ (step_to n step = Some c ∨ step_to n step = None ∧ ∃ nm, c = new_node nm)
    ∧ ∀ s, step_to n' s = if CIEquals step s then Some c' else step_to n s.
Proof.
  destruct n as [nm w m k fs e]. simpl. intros ->. destruct (is_empty step) eqn:Hs.
  - destruct step; [|done]. intros (c' & Hc & [= <-])%outcome_bind_ok.
    split; [done|]. split; [done|]. exists (default (new_node EmptyString) e), c'.
    split; [done|]. split; [destruct e; simpl; [by left|right; eauto]|].
    intros s. rw /step_to /Find /=. destruct s as [|x s]; [by rw CIEquals_refl|].
    simpl. destruct (CIEquals EmptyString _) eqn:Hx; [|done]. by apply CIEquals_empty in Hx.
  - intros (fs' & Hfs & [= <-])%outcome_bind_ok. split; [done|]. split; [done|].
    apply update_field_find in Hfs as (c' & Hc & Hfind);
      [|intros c c' Hcc; by eapply insert_steps_name].
    exists (default (new_node step) (find_field step fs)), c'. split; [done|].
    rw /step_to /Find /= Hs. split.
    + destruct (find_field step fs); simpl; [by left|right; eauto].
    + intros s. destruct (is_empty s) eqn:Hse; [|done].
      destruct (CIEquals step s) eqn:Hx; [|done]. apply CIEquals_empty in Hx. by rw Hs Hse in Hx.
Qed.

Lemma step_to_ci n a b : CIEquals a b = true → step_to n a = step_to n b.
Proof. intros Hab. rw /step_to (CIEquals_empty _ _ Hab) /Find (find_field_ci a b) //. Qed.

Lemma grants_step acc n step p :
  grants acc n (step :: p) =
  (if masked n then false
   else match step_to n step with
        | Some c => grants (whole n || acc) c p
        | None => whole n || acc
        end).
Proof. done. Qed.

Lemma masked_along_step n step p :
  masked_along n (step :: p) =
  masked n || match step_to n step with Some c => masked_along c p | None => false end.
Proof. done. Qed.

Lemma grants_masked acc n p : masked_along n p = true → grants acc n p = false.
Proof.
  revert acc n. induction p as [|s p IH]; intros acc n.
  - simpl. rw orb_false_r. by intros ->.
  - rw masked_along_step grants_step. destruct (masked n); [done|]. simpl.
    destruct (step_to n s); [apply IH|done].
Qed.

Lemma grants_whole_above n p : grants true n p = negb (masked_along n p).
Proof.
  revert n. induction p as [|s p IH]; intros n.
  - simpl. rw orb_true_r orb_false_r. by destruct (masked n).
  - rw masked_along_step grants_step orb_true_r. destruct (masked n); [done|]. simpl.
    by destruct (step_to n s).
Qed.

Lemma new_node_says acc nm p : masked_along (new_node nm) p = false ∧ grants acc (new_node nm) p = acc.
Proof. destruct p as [|s p]; [done|]. rw masked_along_step grants_step /step_to. by destruct (is_empty s). Qed.

Lemma grants_target acc nm w k fs e p :
  grants acc (Node nm true false k fs e) p = negb (masked_along (Node nm w false k fs e) p).
Proof. rw -grants_whole_above. destruct p as [|s p]; simpl; by rw orb_true_r. Qed.

(** What inserting one item adds: what it covers, unless a mask covers that already; a masked item
    takes away what it covers *)
Lemma insert_steps_effect l mask_p display n n' acc p :
  insert_steps l mask_p display n = Ok n' →
  masked_along n' p = masked_along n p || (negb (is_empty mask_p) && at_or_above l p) ∧
  grants acc n' p =
    (if is_empty mask_p then grants acc n p || (at_or_above l p && negb (masked_along n p))
     else grants acc n p && negb (at_or_above l p)).
Proof.
  revert n n' acc p. induction l as [|step l IH]; intros n n' acc p Hi.
  { destruct n as [nm w m k fs e]. simpl in Hi. destruct (is_empty mask_p) eqn:Hk; simpl in *.
    - rw orb_false_r. destruct m; injection Hi as <-.
      + split; [done|]. by destruct p.
      + split; [by destruct p|]. rw (grants_target _ _ w).
        destruct (masked_along (Node nm w false k fs e) p) eqn:Hm; simpl.
        * by rw grants_masked.
        * by rw orb_true_r.
    - rw orb_true_r andb_false_r.
      destruct (m && negb (String.eqb k mask_p)); [done|]. injection Hi as <-. by destruct p. }
  destruct (masked n) eqn:Hm.
  { assert (n' = n) as ->.
    { destruct n as [nm w m k fs e]. simpl in *. subst m. by injection Hi. }
    assert (Hal : masked_along n p = true) by (destruct p; rw /= Hm //).
    rw Hal !(grants_masked _ n) // andb_false_r. by destruct (is_empty mask_p). }
  destruct (insert_steps_step _ _ _ _ _ _ Hm Hi) as (Hw & Hm' & c & c' & Hc & Hold & Hnew).
  destruct p as [|s p].
  { simpl. rw Hm Hm' Hw. by destruct (is_empty mask_p), (whole n), acc. }
  rw !masked_along_step !grants_step Hm Hm' Hw Hnew. cbn [at_or_above].
  destruct (CIEquals step s) eqn:Hs; simpl.
  - rw -(step_to_ci n step s) //. destruct (IH _ _ (whole n || acc) p Hc) as [-> ->].
    destruct Hold as [->|[-> [nm ->]]]; [done|].
    by destruct (new_node_says (whole n || acc) nm p) as [-> ->].
  - destruct (step_to n s); [|by destruct (is_empty mask_p), (whole n), acc].
    destruct (is_empty mask_p); simpl; by rw ?andb_false_r ?orb_false_r ?andb_true_r.
Qed.
End grant_laws.

Section simplify_laws.
Context `{SUL : StringUtilLaws}.

Lemma simplify_name w n : name (simplify_under w n) = name n.
Proof. destruct n as [nm w0 m k fs e]. by destruct m. Qed.

Lemma simplify_covers n : covers (simplify_under true n) = true.
Proof. destruct n as [nm w0 m k fs e]. destruct m; [done|]. rw /covers /=. by rw orb_true_r. Qed.

Lemma simplify_node w nm w0 m k fs e :
  simplify_under w (Node nm w0 m k fs e) =
  (let w' := w0 || (w && negb m) in
   if m then Node nm w' m k [] None
   else Node nm w' m k (List.filter (keeps w') (map (simplify_under w') fs))
          (match e with
           | None => None
           | Some e => if keeps w' (simplify_under w' e) then Some (simplify_under w' e) else None
           end)).
Proof.
  simpl. destruct m; [done|]. f_equal. destruct e as [e|]; [|done].
  rw /keeps. destruct (_ && Plain _), (Empty _); done.
Qed.

Lemma find_field_kept w s fs :
  distinct fs →
  find_field s (List.filter (keeps w) (map (simplify_under w) fs)) =
  match find_field s fs with
  | Some c => if keeps w (simplify_under w c) then Some (simplify_under w c) else None
  | None => None
  end.
Proof.
  induction fs as [|c fs IH]; [done|]. simpl. rw /distinct. cbn [map]. intros [Hnin Hnd]%NoDup_cons.
  specialize (IH Hnd).
  destruct (CIEquals (name c) s) eqn:Hc; destruct (keeps w (simplify_under w c)) eqn:Hk; simpl;
    rw ?simplify_name ?Hc //.
  rw IH. destruct (find_field s fs) as [d|] eqn:Hd; [|done]. exfalso. apply Hnin.
  apply find_field_in in Hd as [Hin Hd]. apply CIEquals_true in Hc, Hd. rw Hc -Hd.
  by apply (list_elem_of_fmap_2 (λ c, Lower (name c))).
Qed.

Lemma filter_distinct f fs : distinct fs → distinct (List.filter f fs).
Proof.
  induction fs as [|c fs IH]; [done|]. rw /distinct. cbn [map]. intros [Hnin Hnd]%NoDup_cons.
  simpl. destruct (f c); [|by apply IH]. cbn [map]. apply NoDup_cons. split; [|by apply IH].
  intros Hin. apply Hnin. apply list_elem_of_fmap in Hin as (d & -> & Hd).
  apply list_elem_of_In, filter_In in Hd as [Hd _]. rw -list_elem_of_In in Hd.
  by apply (list_elem_of_fmap_2 (λ c, Lower (name c))).
Qed.

Lemma simplify_distinct w fs : distinct fs → distinct (map (simplify_under w) fs).
Proof. rw /distinct map_map. intros Hd. erewrite map_ext; [done|]. intros c. by rw /= simplify_name. Qed.

Lemma kept_says w c p :
  (if keeps w (simplify_under w c) then shows (simplify_under w c) p else w) =
  shows (simplify_under w c) p.
Proof.
  rw /keeps. destruct w; simpl.
  - rw Empty_covers ?simplify_covers // andb_true_r.
    destruct (Plain (simplify_under true c)) eqn:Hp; [|done]. by rw shows_Plain.
  - destruct (Empty (simplify_under false c)) eqn:He; [|done]. by rw shows_Empty.
Qed.

(** A simplified tree shows what the tree grants *)
Lemma shows_simplify w n p : named n → shows (simplify_under w n) p = grants w n p.
Proof.
  revert w p. induction n as [nm w0 m k fs e IHf IHe] using node_ind'. intros w p.
  rw named_node. intros (Hd & Hf & He). rw simplify_node. cbv zeta. destruct m.
  { by destruct p. }
  rw andb_true_r. destruct p as [|s p]; [done|]. rw grants_step shows_step /step_to.
  cbn [masked whole element fields Find].
  destruct (is_empty s).
  - destruct e as [e|]; [|done]. rw -(IHe e) //; [by apply He|]. rw -kept_says.
    by destruct (keeps _ _).
  - rw /Find. cbn [fields]. rw find_field_kept //. destruct (find_field s fs) as [c|] eqn:Hc; [|done].
    apply find_field_in in Hc as [Hin _]. rw Forall_forall in IHf. rw Forall_forall in Hf.
    rw -IHf //; [by apply Hf|]. rw -kept_says. by destruct (keeps _ _).
Qed.

Lemma simplify_good w n : named n → named (simplify_under w n) ∧ honest (simplify_under w n).
Proof.
  revert w. induction n as [nm w0 m k fs e IHf IHe] using node_ind'. intros w.
  rw named_node. intros (Hd & Hf & He). rw simplify_node. cbv zeta. destruct m.
  { rw named_node honest_node. repeat split; try done; try constructor. }
  set w' := w0 || _. rw Forall_forall in IHf. rw Forall_forall in Hf.
  assert (Hkept : ∀ c', c' ∈ List.filter (keeps w') (map (simplify_under w') fs) →
            ∃ c, c ∈ fs ∧ c' = simplify_under w' c).
  { intros c' Hin. apply list_elem_of_In, filter_In in Hin as [Hin _].
    rw -list_elem_of_In in Hin. apply list_elem_of_fmap in Hin as (c & -> & Hc). eauto. }
  assert (Helem : ∀ x, match e with None => None | Some e =>
              if keeps w' (simplify_under w' e) then Some (simplify_under w' e) else None end = Some x →
            ∃ c, e = Some c ∧ x = simplify_under w' c).
  { intros x. destruct e as [e|]; [|done]. destruct (keeps _ _); [|done]. intros [= <-]. eauto. }
  rw named_node honest_node. split; (split; [|split]).
  - by apply filter_distinct, simplify_distinct.
  - apply Forall_forall. intros c' (c & Hc & ->)%Hkept. apply IHf; auto.
  - intros x (c & Hc & ->)%Helem. apply IHe; auto.
  - intros Hw. rw Hw in Hkept, Helem. split.
    + apply Forall_forall. rw Hw. intros c' (c & Hc & ->)%Hkept. apply simplify_covers.
    + rw Hw. intros x (c & Hc & ->)%Helem. apply simplify_covers.
  - apply Forall_forall. intros c' (c & Hc & ->)%Hkept. apply IHf; auto.
  - intros x (c & Hc & ->)%Helem. apply IHe; auto.
Qed.

Lemma update_field_distinct step f l l' :
  (∀ c c', f c = Ok c' → name c' = name c) →
  distinct l → update_field step f l = Ok l' → distinct l'.
Proof.
  intros Hf. assert (Hnames : ∀ l l', update_field step f l = Ok l' →
    map name l' = map name l ∨ (find_field step l = None ∧ map name l' = map name l ++ [step])).
  { clear l l'. intros l. induction l as [|c l IH]; intros l'; simpl.
    - intros (c & Hc & [= <-])%outcome_bind_ok. right. by rw /= (Hf _ _ Hc).
    - destruct (CIEquals (name c) step).
      + intros (c' & Hc & [= <-])%outcome_bind_ok. left. by rw /= (Hf _ _ Hc).
      + intros (l2 & Hl & [= <-])%outcome_bind_ok. simpl.
        destruct (IH _ Hl) as [->|[-> ->]]; auto. }
  intros Hd Hl%Hnames. rw /distinct -(map_map name Lower).
  destruct Hl as [->|[Hnone ->]]; [by rw map_map|]. rw map_app map_map.
  apply NoDup_app. split; [done|]. split; [|apply NoDup_singleton].
  intros x Hx Hx2%list_elem_of_singleton. subst x.
  apply list_elem_of_fmap in Hx as (c & Hc & Hin).
  apply (find_field_none _ _ c) in Hnone; [|done]. apply not_true_iff_false in Hnone. apply Hnone.
  by apply CIEquals_true.
Qed.
End simplify_laws.

Section from_laws.
Context `{SUL : StringUtilLaws}.

Lemma update_field_Forall (P : FieldNode → Prop) step f l l' :
  (∀ c c', P c → f c = Ok c' → P c') → (∀ nm, P (new_node nm)) →
  Forall P l → update_field step f l = Ok l' → Forall P l'.
Proof.
  intros Hf Hnew. revert l'. induction l as [|c l IH]; intros l' Hl; simpl.
  - intros (c & Hc & [= <-])%outcome_bind_ok. constructor; [by eapply Hf|done].
  - apply Forall_cons in Hl as [Hc Hl]. destruct (CIEquals (name c) step).
    + intros (c' & Hc' & [= <-])%outcome_bind_ok. constructor; [by eapply Hf|done].
    + intros (l2 & Hl2 & [= <-])%outcome_bind_ok. constructor; auto.
Qed.

Lemma named_new nm : named (new_node nm).
Proof. repeat split. apply NoDup_nil_2. Qed.

Lemma insert_steps_named l mask_p display n n' :
  named n → insert_steps l mask_p display n = Ok n' → named n'.
Proof.
  revert n n'. induction l as [|step l IH]; intros [nm w m k fs e] n' Hn Hi; simpl in Hi.
  - rw named_node in Hn. destruct Hn as (Hd & Hf & He). destruct (is_empty mask_p); simpl in Hi.
    + destruct m; injection Hi as <-; by rw named_node.
    + destruct (m && negb (String.eqb k mask_p)); [done|]. injection Hi as <-.
      rw named_node. repeat split; try done; constructor.
  - destruct m; [by injection Hi as <-|]. rw named_node in Hn. destruct Hn as (Hd & Hf & He).
    destruct (is_empty step).
    + apply outcome_bind_ok in Hi as (c & Hc & [= <-]). rw named_node. split; [done|]. split; [done|].
      intros x [= <-]. eapply IH; [|exact Hc]. destruct e as [e|]; [by apply He|apply named_new].
    + apply outcome_bind_ok in Hi as (fs' & Hfs & [= <-]). rw named_node. split; [|split; [|done]].
      * eapply update_field_distinct; [|exact Hd|exact Hfs]. intros c c' Hc. by eapply insert_steps_name.
      * eapply update_field_Forall; [|apply named_new|exact Hf|exact Hfs]. simpl. eauto.
Qed.

(** The trees before they are simplified *)
Definition grown (items : list (string * string)) (columns : list FieldNode) : Prop :=
  distinct columns ∧ Forall named columns ∧
  ∀ col p,
    match find_field col columns with Some n => masked_along n p | None => false end
      = existsb (λ it, negb (is_empty it.2) && item_covers col p it) items ∧
    match find_field col columns with Some n => grants false n p | None => false end
      = granted items col p.

Lemma insert_item_grown items it columns columns' :
  grown items columns → insert_item it columns = Ok columns' → grown (items ++ [it]) columns'.
Proof.
  intros (Hd & Hn & Hg) Hi. rw /insert_item /InsertPath in Hi.
  assert (Hname : ∀ c c', insert_steps (steps (item_path it.1)) it.2 it.1 c = Ok c' → name c' = name c).
  { intros c c'. apply insert_steps_name. }
  split; [|split].
  - by eapply update_field_distinct.
  - eapply update_field_Forall; [|apply named_new|exact Hn|exact Hi]. simpl. intros c c'.
    apply insert_steps_named.
  - intros col p. apply update_field_find in Hi as (c' & Hc & Hfind); [|done].
    apply (insert_steps_effect _ _ _ _ _ false p) in Hc as [Hm Hs].
    rw Hfind /granted !existsb_app /= !orb_false_r.
    destruct (Hg col p) as [Hgm Hgs]. rw /granted in Hgs.
    rw /item_covers. destruct (CIEquals (head (item_path it.1)) col) eqn:Hcol; last first.
    { simpl. rw !andb_false_r !orb_false_r. by rw /item_covers in Hgm, Hgs. }
    simpl. rw Hm Hs. rw (find_field_ci _ col) //.
    set U := existsb _ items in Hgs |- *. set M := existsb _ items in Hgm, Hgs |- *.
    assert (Hold : masked_along (default (new_node (head (item_path it.1))) (find_field col columns)) p = M
             ∧ grants false (default (new_node (head (item_path it.1))) (find_field col columns)) p
               = U && negb M).
    { destruct (find_field col columns); [by split|]. simpl.
      destruct (new_node_says false (head (item_path it.1)) p) as [-> ->]. split; congruence. }
    destruct Hold as [-> ->]. split; [done|].
    destruct (is_empty it.2), (at_or_above _ p), U, M; done.
Qed.

Lemma insert_items_grown items more columns columns' :
  grown items columns → insert_items more columns = Ok columns' → grown (items ++ more) columns'.
Proof.
  revert items columns. induction more as [|it more IH]; intros items columns Hg; simpl.
  - intros [= <-]. by rw app_nil_r.
  - intros (c & Hc & Hi)%outcome_bind_ok.
    replace (items ++ it :: more) with ((items ++ [it]) ++ more) by by rw -app_assoc.
    eapply IH; [|exact Hi]. by eapply insert_item_grown.
Qed.

Lemma find_field_simplify col l : find_field col (map Simplify l) = Simplify <$> find_field col l.
Proof.
  induction l as [|c l IH]; [done|]. simpl. rw {1}/Simplify simplify_name.
  destruct (CIEquals (name c) col); [done|apply IH].
Qed.

Definition good_columns (columns : list FieldNode) : Prop :=
  distinct columns ∧ Forall named columns ∧ Forall honest columns.

Lemma From_laws items columns :
  From items = Ok columns →
  good_columns columns ∧ ∀ col p, columns_show columns col p = granted items col p.
Proof.
  rw /From. intros (grownc & Hi & [= <-])%outcome_bind_ok.
  assert (grown items grownc) as (Hd & Hn & Hg).
  { apply (insert_items_grown [] items [] grownc); [|done]. split; [apply NoDup_nil_2|].
    split; [done|]. done. }
  split.
  - split; [by apply simplify_distinct|]. split; apply Forall_map; eapply Forall_impl; try exact Hn;
      intros c Hc; by apply simplify_good.
  - intros col p. destruct (Hg col p) as [_ Hs]. rw /columns_show find_field_simplify -Hs.
    destruct (find_field col grownc) as [n|] eqn:Hf; [|done]. simpl.
    apply shows_simplify. apply find_field_in in Hf as [Hf _]. by eapply Forall_forall.
Qed.
End from_laws.

Section column_laws.
Context `{SUL : StringUtilLaws}.

Lemma find_columns ta rows col :
  distinct ta → rows_of (map name ta) rows →
  find_field col (concat rows) =
  match find_field col ta with
  | Some _ => find_field col (concat rows)
  | None => None
  end.
Proof.
  intros Hd Hrows. destruct (find_field col ta) eqn:Hf; [done|].
  apply (find_rows_none (map name ta)); [done|]. intros nm Hnm.
  apply list_elem_of_fmap in Hnm as (c & -> & Hc). by eapply find_field_none.
Qed.

Lemma find_column ta rows col c i row :
  distinct ta → rows_of (map name ta) rows →
  ta !! i = Some c → rows !! i = Some row → CIEquals (name c) col = true →
  find_field col (concat rows) = hd_error row.
Proof.
  intros Hd Hrows Hi Hr Hc. apply (find_rows (map name ta) rows col (name c) i row); try done.
  - by rw map_map.
  - by rw list_lookup_fmap Hi.
Qed.

Lemma good_column ta col c :
  good_columns ta → find_field col ta = Some c →
  named c ∧ honest c ∧ CIEquals (name c) col = true ∧ ∃ i, ta !! i = Some c.
Proof.
  intros (_ & Hn & Hh) [Hin Hc]%find_field_in. rw Forall_forall in Hn. rw Forall_forall in Hh.
  apply list_elem_of_lookup_1 in Hin as Hi. auto.
Qed.

Lemma intersect_columns_show ta tb col p :
  good_columns ta → good_columns tb →
  columns_show (intersect_columns ta tb) col p = columns_show ta col p && columns_show tb col p.
Proof.
  intros Ha Hb. rw /columns_show /intersect_columns omap_concat.
  set f := λ c, match find_field (name c) tb with Some o => IntersectNodes c o | None => None end.
  assert (Hf : ∀ c, c ∈ ta → ∀ m, f c = Some m → name m = name c).
  { intros c Hc m. rw /f. destruct (find_field (name c) tb) as [o|] eqn:Ho; [|done].
    destruct (good_column _ _ _ Hb Ho) as (? & ? & _). destruct Ha as (_ & Hn & Hh).
    rw Forall_forall in Hn. rw Forall_forall in Hh. intros Hm.
    destruct (intersect_fuel_meets (node_size c + node_size o) c o) as (_ & Hn' & _); auto.
    by destruct (Hn' m Hm). }
  assert (Hrows : rows_of (map name ta) (map (λ c, option_list (f c)) ta)).
  { clear -Hf SUL. induction ta as [|c ta IH]; constructor.
    - destruct (f c) as [m|] eqn:Hm; [|constructor]. simpl. constructor; [|constructor].
      rw (Hf c) //; [left|]. apply CIEquals_refl.
    - apply IH. intros d Hd. apply Hf. by right. }
  rw (find_columns ta) //; [by destruct Ha|].
  destruct (find_field col ta) as [c|] eqn:Hc; [|done].
  destruct (good_column _ _ _ Ha Hc) as (Hnc & Hhc & Hcc & i & Hi).
  rw (find_column ta _ col c i (option_list (f c))) //; [by destruct Ha|by rw list_lookup_fmap Hi|].
  rw /f (find_field_ci _ col) //. destruct (find_field col tb) as [o|] eqn:Ho; [|by rw andb_false_r].
  destruct (good_column _ _ _ Hb Ho) as (Hno & Hho & _).
  destruct (intersect_fuel_meets (node_size c + node_size o) c o) as [Hp _]; [done..|].
  simpl. rw -Hp /IntersectNodes. by destruct (intersect_fuel _ _ _).
Qed.

Lemma unite_opt_joins a b display :
  named a → (∀ c, b = Some c → named c) → joins (Some a) b (UniteNodes (Some a) b display).
Proof.
  intros Ha Hb. rw /UniteNodes. destruct b as [b|].
  - apply unite_fuel_joins; [simpl; lia|done|by apply Hb].
  - apply joins_none; [by right|]. apply unite_none_r.
Qed.

Lemma unite_columns_show ta tb columns col p :
  good_columns ta → good_columns tb → unite_columns ta tb = Ok columns →
  columns_show columns col p = columns_show ta col p || columns_show tb col p.
Proof.
  intros Ha Hb. rw /unite_columns. intros (united & Hu & [= <-])%outcome_bind_ok.
  apply omapM_ok in Hu.
  assert (Hj : ∀ i c r, ta !! i = Some c → united !! i = Some r →
            joins (Some c) (find_field (name c) tb) (Ok r)).
  { intros i c r Hi Hr. rw -(Forall2_lookup_lr _ _ _ _ _ _ Hu Hi Hr). apply unite_opt_joins.
    - destruct Ha as (_ & Hn & _). by eapply Forall_lookup_1.
    - intros o Ho. by eapply good_column. }
  rw /columns_show find_field_app omap_concat.
  assert (Hrows : rows_of (map name ta) (map (λ c, option_list (id c)) united)).
  { apply Forall2_same_length_lookup_2.
    { rw !length_map. by eapply Forall2_length. }
    intros i x row Hx Hr. rw list_lookup_fmap in Hx. rw list_lookup_fmap in Hr.
    apply fmap_Some in Hx as (c & Hi & ->). apply fmap_Some in Hr as (r & Hr & ->).
    destruct (Hj i c r Hi Hr) as (_ & _ & Hn).
    destruct r as [m|]; [|constructor]. simpl. constructor; [|constructor].
    destruct (Hn m eq_refl) as [(? & [= <-] & ->)|(o & Ho & ->)]; [apply CIEquals_refl|].
    by apply find_field_in in Ho as [_ ?]. }
  rw (find_columns ta) //; [by destruct Ha|].
  destruct (find_field col ta) as [c|] eqn:Hc.
  - destruct (good_column _ _ _ Ha Hc) as (Hnc & Hhc & Hcc & i & Hi).
    destruct (Forall2_lookup_l _ _ _ _ _ Hu Hi) as (r & Hr & _).
    rw (find_column ta _ col c i (option_list r)) //; [by destruct Ha|by rw list_lookup_fmap Hr|].
    destruct (Hj i c r Hi Hr) as (Hne & Hp & _). rw (find_field_ci _ col) // in Hp.
    destruct r as [m|]; [by rw /= -Hp|]. by destruct Hne; [left|].
  - assert (Hfilter : ∀ l, find_field col (List.filter (λ column, match find_field (name column) ta with
                                | Some _ => false | None => true end) l) = find_field col l).
    { intros l. induction l as [|x l IH]; [done|]. simpl.
      destruct (CIEquals (name x) col) eqn:Hx.
      - rw (find_field_ci _ col) // Hc /=. by rw Hx.
      - destruct (find_field (name x) ta); simpl; rw ?Hx; apply IH. }
    by rw Hfilter.
Qed.
End column_laws.

(** ** Items written and read back *)

Section clean_laws.
Context `{SUL : StringUtilLaws}.

(** What reading items always gives: masks and field names that are not empty *)
Fixpoint clean (n : FieldNode) : Prop :=
  (masked n = true → is_empty (mask n) = false)
  ∧ foldr (λ c P, (is_empty (name c) = false ∧ clean c) ∧ P) True (fields n)
  ∧ match element n with Some e => clean e | None => True end.

Definition clean_field (c : FieldNode) : Prop := is_empty (name c) = false ∧ clean c.

Lemma clean_node nm w m k fs e :
  clean (Node nm w m k fs e) ↔
  (m = true → is_empty k = false) ∧ Forall clean_field fs ∧ ∀ x, e = Some x → clean x.
Proof.
  simpl. split.
  - intros (Hd & Hf & He). split; [done|]. split.
    + clear Hd. induction fs as [|f fs IH]; constructor; [apply Hf|apply IH, Hf].
    + intros x ->. done.
  - intros (Hd & Hf & He). split; [done|]. split.
    + clear Hd. induction Hf; simpl; auto.
    + destruct e; auto.
Qed.

Lemma clean_new nm : clean (new_node nm).
Proof. done. Qed.

Lemma insert_steps_clean l mask_p display n n' :
  clean n → insert_steps l mask_p display n = Ok n' → clean n'.
Proof.
  revert n n'. induction l as [|step l IH]; intros [nm w m k fs e] n' Hn Hi; simpl in Hi.
  - rw clean_node in Hn. destruct Hn as (Hd & Hf & He). destruct (is_empty mask_p) eqn:Hk; simpl in Hi.
    + destruct m; injection Hi as <-; by rw clean_node.
    + destruct (m && negb (String.eqb k mask_p)); [done|]. injection Hi as <-.
      rw clean_node. repeat split; try done; constructor.
  - destruct m; [by injection Hi as <-|]. rw clean_node in Hn. destruct Hn as (Hd & Hf & He).
    destruct (is_empty step) eqn:Hs.
    + apply outcome_bind_ok in Hi as (c & Hc & [= <-]). rw clean_node. split; [done|]. split; [done|].
      intros x [= <-]. eapply IH; [|exact Hc]. destruct e as [e|]; [by apply He|done].
    + apply outcome_bind_ok in Hi as (fs' & Hfs & [= <-]). rw clean_node. split; [done|]. split; [|done].
      clear -IH Hf Hfs Hs. revert fs' Hf Hfs.
      induction fs as [|c fs IHf]; intros fs' Hf; simpl.
      * intros (c' & Hc & [= <-])%outcome_bind_ok. constructor; [|done].
        split; [|by eapply IH, Hc].
        by rw (insert_steps_name _ _ _ _ _ Hc).
      * apply Forall_cons in Hf as [[Hcn Hc] Hf]. destruct (CIEquals (name c) step).
        -- intros (c' & Hc' & [= <-])%outcome_bind_ok. constructor; [|done].
           split; [|by eapply IH, Hc'].
           by rw (insert_steps_name _ _ _ _ _ Hc').
        -- intros (l2 & Hl2 & [= <-])%outcome_bind_ok. constructor; [done|]. by apply IHf.
Qed.

Lemma simplify_clean w n : clean n → clean (simplify_under w n).
Proof.
  revert w. induction n as [nm w0 m k fs e IHf IHe] using node_ind'. intros w.
  rw clean_node. intros (Hd & Hf & He). rw simplify_node. cbv zeta. destruct m.
  { rw clean_node. repeat split; try done; constructor. }
  rw clean_node. split; [done|]. rw Forall_forall in IHf. rw Forall_forall in Hf. split.
  - apply Forall_forall. intros c' Hin. apply list_elem_of_In, filter_In in Hin as [Hin _].
    rw -list_elem_of_In in Hin. apply list_elem_of_fmap in Hin as (c & -> & Hc).
    destruct (Hf c Hc). split; [by rw simplify_name|]. by apply IHf.
  - intros x. destruct e as [e|]; [|done]. destruct (keeps _ _); [|done]. intros [= <-].
    apply IHe; auto.
Qed.

Lemma clean_below n c : clean n → below n c → clean c.
Proof.
  destruct n as [nm w m k fs e]. rw clean_node. intros (_ & Hf & He).
  intros [Hin|[Hin|(_ & x & ->)]]; simpl in *; [|auto|done].
  rw Forall_forall in Hf. by apply Hf.
Qed.

Lemma both_names_clean a b x : clean a → clean b → x ∈ both_names a b → is_empty x = false.
Proof.
  assert (Hf : ∀ n x c, clean n → Find n x = Some c → is_empty x = false).
  { intros n y c Hn [Hin Hc]%find_field_in. destruct n as [nm w m k fs e].
    rw clean_node in Hn. destruct Hn as (_ & Hf & _). rw Forall_forall in Hf.
    destruct (Hf c Hin) as [Hne _]. by rw -(CIEquals_empty _ _ Hc). }
  intros Ha Hb [[c Hc]|[c Hc]]%both_names_elem; eauto.
Qed.

Lemma intersect_clean fuel a b m :
  clean a → clean b → intersect_fuel fuel a b = Some m → clean m ∧ name m = name a.
Proof.
  revert a b m. induction fuel as [|fuel IH]; intros a b m Ha Hb; [done|].
  destruct (masked b || masked a) eqn:Hm.
  { cbn [intersect_fuel]. rw Hm. intros [= <-]. split; [|done]. rw clean_node. split; [|by split].
    intros _. destruct a, b. simpl in *.
    apply orb_prop in Hm. destruct Ha as [Ha _], Hb as [Hb _], masked1; [by apply Hb|].
    destruct Hm as [|Hm]; [done|by apply Ha]. }
  apply orb_false_elim in Hm as [Hmb Hma]. rw intersect_unfold //.
  destruct (Empty _); [done|]. intros [= <-]. split; [|done]. rw /meet_node clean_node. split; [done|].
  assert (Hmeet : ∀ x y m, meet fuel x y = Some m → (∀ c, x = Some c → below a c) →
            (∀ c, y = Some c → below b c) → clean m ∧ ∃ c, x = Some c ∧ name m = name c).
  { intros [c|] [d|] m0; simpl; try done. intros Hmm Hx Hy.
    destruct (IH c d m0) as [? ?]; [apply (clean_below a); auto|apply (clean_below b); auto|done|].
    eauto. }
  split.
  - apply Forall_concat_map. intros x Hx. apply kept_row. intros m Hmm.
    destruct (Hmeet _ _ _ Hmm) as (Hcm & c & Hc & Hn);
      [intros c; apply ChildOrWhole_below..|]. split; [|done].
    rw Hn. apply ChildOrWhole_name in Hc. rw (CIEquals_empty _ _ Hc). by apply (both_names_clean a b).
  - intros x. destruct (element a), (element b); try done; intros Hx%kept_merge_some;
      apply Hmeet in Hx as [? _]; try done; intros c; apply element_or_whole_below.
Qed.
End clean_laws.

Section serialize_laws.
Context `{SUL : StringUtilLaws}.

(** The items of a tree, as paths below it *)
Fixpoint rel_items (n : FieldNode) : list (list string * string) :=
  let '(Node _ whole masked mask fields element) := n in
  if masked then [([], mask)]
  else
    (if whole then [([], EmptyString)] else [])
    ++ concat (map (λ c, map (λ it, (name c :: it.1, it.2)) (rel_items c)) fields)
    ++ match element with
       | Some e => map (λ it, (EmptyString :: it.1, it.2)) (rel_items e)
       | None => []
       end.

Definition rel_text (prefix : string) (it : list string * string) : string * string :=
  (prefix +:+ steps_text it.1, it.2).

Lemma SerializeNode_rel n prefix :
  clean n → SerializeNode n prefix = map (rel_text prefix) (rel_items n).
Proof.
  revert prefix. induction n as [nm w m k fs e IHf IHe] using node_ind'. intros prefix.
  rw clean_node. intros (_ & Hf & He). simpl. destruct m.
  { simpl. by rw /rel_text /= string_app_nil_r. }
  rw !map_app. f_equal; [destruct w; [|done]; by rw /rel_text /= string_app_nil_r|]. f_equal.
  - rw concat_map map_map. f_equal. apply map_ext_in. intros c Hc. rw -list_elem_of_In in Hc.
    rw Forall_forall in IHf. rw Forall_forall in Hf. destruct (Hf c Hc) as [Hcn Hcc].
    rw IHf // map_map. apply map_ext. intros [l mk]. rw /rel_text /= /step_text Hcn.
    by rw -!string_app_assoc.
  - destruct e as [e|]; [|done]. rw (IHe e) //; [by apply He|]. rw map_map. apply map_ext.
    intros [l mk]. by rw /rel_text /= /step_text /= -!string_app_assoc.
Qed.

Definition rel_covers (p : list string) (it : list string * string) : bool := at_or_above it.1 p.
Definition rel_granted (its : list (list string * string)) (p : list string) : bool :=
  existsb (λ it, is_empty it.2 && rel_covers p it) its
  && negb (existsb (λ it, negb (is_empty it.2) && rel_covers p it) its).

Lemma existsb_concat {A} (f : A → bool) l : existsb f (concat l) = existsb (existsb f) l.
Proof. induction l as [|x l IH]; [done|]. by rw /= existsb_app IH. Qed.

Lemma existsb_map {A B} (f : B → bool) (g : A → B) l : existsb f (map g l) = existsb (λ x, f (g x)) l.
Proof. induction l as [|x l IH]; [done|]. by rw /= IH. Qed.

Lemma existsb_false {A} (f : A → bool) l : (∀ x, x ∈ l → f x = false) → existsb f l = false.
Proof.
  induction l as [|x l IH]; intros Hf; [done|]. simpl. rw Hf; [left|].
  apply IH. intros y Hy. apply Hf. by right.
Qed.

Lemma existsb_eq {A} (f g : A → bool) l : (∀ x, f x = g x) → existsb f l = existsb g l.
Proof. intros Hf. induction l as [|x l IH]; [done|]. by rw /= Hf IH. Qed.

(** Of the children's items only those of the child the step goes to cover a path *)
Lemma existsb_children (u : string → bool) fs s p :
  distinct fs →
  existsb (λ it, u it.2 && rel_covers (s :: p) it)
    (concat (map (λ c, map (λ it, (name c :: it.1, it.2)) (rel_items c)) fs)) =
  match find_field s fs with
  | Some c => existsb (λ it, u it.2 && rel_covers p it) (rel_items c)
  | None => false
  end.
Proof.
  rw existsb_concat existsb_map. induction fs as [|c fs IH]; [done|].
  rw /distinct. cbn [map]. intros [Hnin Hnd]%NoDup_cons. cbn [existsb find_field].
  rw existsb_map IH //. rw /rel_covers. cbn [at_or_above fst snd].
  destruct (CIEquals (name c) s) eqn:Hc.
  - replace (match find_field s fs with Some _ => _ | None => false end) with false; [by rw orb_false_r|].
    destruct (find_field s fs) as [d|] eqn:Hd; [|done]. exfalso. apply Hnin.
    apply find_field_in in Hd as [Hin Hd]. apply CIEquals_true in Hc, Hd. rw Hc -Hd.
    by apply (list_elem_of_fmap_2 (λ c, Lower (name c))).
  - rw existsb_false; [|done]. intros it _. by rw /= andb_false_r.
Qed.

Lemma clean_find_empty n : clean n → find_field EmptyString (fields n) = None.
Proof.
  destruct n as [nm w m k fs e]. rw clean_node. intros (_ & Hf & _). simpl.
  destruct (find_field _ fs) as [c|] eqn:Hc; [|done]. apply find_field_in in Hc as [Hin Hc].
  rw Forall_forall in Hf. destruct (Hf c Hin) as [Hne _]. apply CIEquals_empty in Hc.
  by rw Hc in Hne.
Qed.

Lemma rel_items_step (u : string → bool) nm w k fs e s p :
  distinct fs → clean (Node nm w false k fs e) →
  existsb (λ it, u it.2 && rel_covers (s :: p) it) (rel_items (Node nm w false k fs e)) =
  (w && u EmptyString)
  || match step_to (Node nm w false k fs e) s with
     | Some c => existsb (λ it, u it.2 && rel_covers p it) (rel_items c)
     | None => false
     end.
Proof.
  intros Hd Hc. cbn [rel_items]. rw !existsb_app existsb_children //.
  f_equal; [destruct w; [|done]; simpl; by rw andb_true_r orb_false_r|].
  rw /step_to /Find. cbn [element fields]. destruct (is_empty s) eqn:Hs.
  - destruct s; [|done]. pose proof (clean_find_empty _ Hc) as Hf. cbn [fields] in Hf. rw Hf.
    destruct e as [e|]; [|done]. rw existsb_map. simpl. apply existsb_eq. intros it.
    by rw /rel_covers /= CIEquals_refl.
  - rw orb_comm. destruct e as [e|]; [|done]. rw existsb_map existsb_false; [|done]. intros it _.
    rw /rel_covers /=. destruct (CIEquals EmptyString s) eqn:Hes; [|by rw andb_false_r].
    apply CIEquals_empty in Hes. by rw Hs in Hes.
Qed.

Lemma rel_items_covers (n : FieldNode) :
  covers n = true → masked n = false → ∀ p, existsb (λ it, is_empty it.2 && rel_covers p it) (rel_items n) = true.
Proof. destruct n as [nm [] [] k fs e]; done. Qed.

Lemma rel_items_masked (n : FieldNode) :
  clean n → masked n = true →
  ∀ p, existsb (λ it, negb (is_empty it.2) && rel_covers p it) (rel_items n) = true.
Proof. destruct n as [nm w m k fs e]. rw clean_node. simpl. intros (Hk & _) -> p. by rw /= Hk. Qed.

(** A tree's items say what it shows *)
Lemma rel_items_granted n p :
  named n → honest n → clean n → rel_granted (rel_items n) p = shows n p.
Proof.
  revert n. induction p as [|s p IH]; intros n Hn Hh Hc.
  - destruct n as [nm w m k fs e]. destruct m.
    { rw /rel_granted rel_items_masked //. by rw andb_false_r. }
    rw /rel_granted. cbn [rel_items]. rw !existsb_app.
    assert (Hz : ∀ u : string → bool,
      existsb (λ it, u it.2 && rel_covers [] it)
        (concat (map (λ c, map (λ it, (name c :: it.1, it.2)) (rel_items c)) fs)) = false ∧
      existsb (λ it, u it.2 && rel_covers [] it)
        match e with Some e => map (λ it, (EmptyString :: it.1, it.2)) (rel_items e) | None => [] end = false).
    { intros u. split.
      - rw existsb_concat existsb_map. apply existsb_false. intros c _. rw existsb_map.
        apply existsb_false. intros it _. by rw /= andb_false_r.
      - destruct e; [|done]. rw existsb_map. apply existsb_false. intros it _. by rw /= andb_false_r. }
    destruct (Hz is_empty) as [-> ->]. destruct (Hz (λ m, negb (is_empty m))) as [-> ->].
    by destruct w.
  - destruct (masked n) eqn:Hm.
    { rw /rel_granted rel_items_masked // shows_masked //. by rw andb_false_r. }
    rw shows_step Hm. destruct n as [nm w m k fs e]. simpl in Hm. subst m.
    rw /rel_granted (rel_items_step is_empty) //; [by apply (named_distinct _ Hn)|].
    rw (rel_items_step (λ m, negb (is_empty m))) //; [by apply (named_distinct _ Hn)|].
    cbn [negb is_empty whole]. rw andb_true_r andb_false_r orb_false_l.
    destruct (step_to _ s) as [c|] eqn:Hs; [|by rw orb_false_r andb_true_r].
    assert (Hb : below (Node nm w false k fs e) c).
    { rw /step_to /Find in Hs. destruct (is_empty s); [right; by left|left].
      by apply find_field_in in Hs as [? _]. }
    rw -(IH c); [by eapply named_below, Hb|by eapply honest_below, Hb|by eapply clean_below, Hb|].
    rw /rel_granted. destruct w; [|done]. simpl.
    destruct (honest_below _ _ Hh Hb) as [_ Hcov]. specialize (Hcov eq_refl).
    destruct (masked c) eqn:Hmc.
    + rw rel_items_masked //; [by eapply clean_below, Hb|]. by rw andb_false_r.
    + by rw rel_items_covers.
Qed.
End serialize_laws.

Section items_laws.
Context `{SUL : StringUtilLaws}.

(** A column name that survives being written without quotes: not empty, no spaces around it *)
Definition plain_head (nm : string) : Prop := is_empty nm = false ∧ Trim nm = nm.
Definition plain_heads (items : list (string * string)) : Prop :=
  Forall (λ it, plain_head (head (item_path it.1))) items.

Lemma steps_text_marked l : l ≠ [] →
  contains_char dot (steps_text l) || contains_char "[" (steps_text l) = true.
Proof.
  destruct l as [|x l]; [done|]. intros _. cbn [steps_text]. rw /step_text.
  destruct (is_empty x); [|done]. by rw !contains_char_app orb_true_r.
Qed.

Lemma item_path_FieldName nm l :
  plain_head nm → item_path (FieldName nm +:+ steps_text l) = {| head := nm; steps := l |}.
Proof.
  intros [Hne Ht]. rw /item_path.
  pose proof (path_text_trimmed {| head := nm; steps := l |}) as Hp. rw /path_text /= in Hp. rw Hp.
  pose proof (ParseFieldPath_written {| head := nm; steps := l |} Hne) as Hr.
  rw /path_text /= in Hr. rw Hr. destruct (_ || _ || _) eqn:Hc; [done|].
  apply orb_false_elim in Hc as [Hc Hq]. rw !contains_char_app in Hc.
  destruct (decide (l = [])) as [->|Hl].
  - destruct (FieldName_cases nm) as [(_ & _ & He)|He]; rw He in Hq |- *; [|done].
    by rw /= string_app_nil_r.
  - apply steps_text_marked in Hl. apply orb_false_elim in Hc as [[_ Hd]%orb_false_elim [_ Hb]%orb_false_elim].
    by rw Hd Hb in Hl.
Qed.

Lemma item_path_RootName c it :
  plain_head (name c) → it ∈ rel_items c →
  item_path (rel_text (RootName c) it).1 = {| head := name c; steps := it.1 |}.
Proof.
  intros Hn Hin. rw /rel_text /RootName. cbn [fst].
  destruct (match fields c with [] => true | _ => false end && _ && _) eqn:Hplain; last first.
  { by apply item_path_FieldName. }
  apply andb_prop in Hplain as [[Hf He]%andb_prop Hplain].
  destruct c as [nm w m k fs e]. simpl in *. destruct fs, e; try done. simpl in Hin.
  assert (it.1 = []) as ->.
  { destruct m, w; simpl in Hin; (apply elem_of_nil in Hin || apply list_elem_of_singleton in Hin);
      try done; by subst it. }
  apply andb_prop in Hplain as [[Hd Hb]%andb_prop Hq]. destruct Hn as [_ Ht].
  rw /= string_app_nil_r /item_path Ht.
  apply negb_true_iff in Hd, Hb, Hq. by rw Hd Hb Hq.
Qed.

Definition column_good (c : FieldNode) : Prop :=
  plain_head (name c) ∧ named c ∧ honest c ∧ clean c.

Lemma existsb_items (u : string → bool) columns col p :
  distinct columns → Forall column_good columns →
  existsb (λ it, u it.2 && item_covers col p it) (Items columns) =
  match find_field col columns with
  | Some c => existsb (λ it, u it.2 && rel_covers p it) (rel_items c)
  | None => false
  end.
Proof.
  intros Hd Hg. rw /Items existsb_concat existsb_map. induction columns as [|c cs IH]; [done|].
  rw /distinct in Hd. cbn [map] in Hd. apply NoDup_cons in Hd as [Hnin Hnd].
  apply Forall_cons in Hg as [(Hh & Hn & Hho & Hc) Hg]. cbn [existsb find_field]. rw IH //.
  rw SerializeNode_rel // existsb_map.
  assert (Hcol : existsb (λ it, u (rel_text (RootName c) it).2 && item_covers col p (rel_text (RootName c) it))
            (rel_items c) = CIEquals (name c) col && existsb (λ it, u it.2 && rel_covers p it) (rel_items c)).
  { assert (Hin : ∀ it, it ∈ rel_items c → it ∈ rel_items c) by done. revert Hin.
    generalize (rel_items c) at 1 3 4 as its. induction its as [|it its IHi]; intros Hin.
    - by rw andb_false_r.
    - cbn [existsb]. rw IHi; [intros x Hx; apply Hin; by right|].
      rw /item_covers (item_path_RootName c it) //; [apply Hin; left|]. rw /rel_covers /=.
      destruct (CIEquals (name c) col), (u it.2), (at_or_above it.1 p); done. }
  rw Hcol. destruct (CIEquals (name c) col) eqn:Hcc; [|done].
  replace (match find_field col cs with Some _ => _ | None => false end) with false; [by rw orb_false_r|].
  destruct (find_field col cs) as [d|] eqn:Hdd; [|done]. exfalso. apply Hnin.
  apply find_field_in in Hdd as [Hin Hdc]. apply CIEquals_true in Hcc, Hdc. rw Hcc -Hdc.
  by apply (list_elem_of_fmap_2 (λ c, Lower (name c))).
Qed.

Lemma Items_granted columns col p :
  distinct columns → Forall column_good columns →
  granted (Items columns) col p = columns_show columns col p.
Proof.
  intros Hd Hg. rw /granted (existsb_items is_empty) // (existsb_items (λ m, negb (is_empty m))) //.
  rw /columns_show. destruct (find_field col columns) as [c|] eqn:Hc; [|done]. simpl.
  apply find_field_in in Hc as [Hin _]. rw Forall_forall in Hg.
  destruct (Hg c Hin) as (_ & Hn & Hh & Hcl). by rw -rel_items_granted.
Qed.

Lemma From_good items columns :
  plain_heads items → From items = Ok columns → Forall column_good columns.
Proof.
  intros Hp HF. destruct (From_laws _ _ HF) as [(_ & Hn & Hh) _]. rw /From in HF.
  apply outcome_bind_ok in HF as (grownc & Hi & [= <-]).
  assert (Hins : ∀ cs, Forall (λ c, plain_head (name c) ∧ clean c) cs → insert_items items cs = Ok grownc →
            Forall (λ c, plain_head (name c) ∧ clean c) grownc).
  { clear -Hp SUL. induction Hp as [|it items Hit Hp IH]; intros cs Hcs; simpl; [by intros [= <-]|].
    intros (c & Hc & Hi)%outcome_bind_ok. eapply IH; [|exact Hi]. clear -Hc Hcs Hit SUL.
    revert c Hc. rw /insert_item. induction Hcs as [|x cs [Hx Hxc] Hcs IH]; intros c; simpl.
    - intros (y & Hy & [= <-])%outcome_bind_ok. constructor; [|done].
      rw /InsertPath in Hy. rw (insert_steps_name _ _ _ _ _ Hy). split; [done|].
      by eapply insert_steps_clean, Hy.
    - destruct (CIEquals _ _).
      + intros (y & Hy & [= <-])%outcome_bind_ok. constructor; [|done].
        rw /InsertPath in Hy. rw (insert_steps_name _ _ _ _ _ Hy). split; [done|].
        by eapply insert_steps_clean, Hy.
      + intros (l & Hl & [= <-])%outcome_bind_ok. constructor; [done|]. by apply IH. }
  specialize (Hins [] (Forall_nil_2 _) Hi).
  apply Forall_map. rw Forall_forall in Hn. rw Forall_forall in Hh.
  rw Forall_forall in Hins. apply Forall_forall. intros c Hc. destruct (Hins c Hc) as [? ?].
  assert (Simplify c ∈ map Simplify grownc) by by apply list_elem_of_fmap_2.
  rw /column_good {1}/Simplify simplify_name. split; [done|]. split; [auto|].
  split; [auto|]. by apply simplify_clean.
Qed.

Lemma intersect_columns_good ta tb :
  distinct ta → Forall column_good ta → Forall column_good tb →
  distinct (intersect_columns ta tb) ∧ Forall column_good (intersect_columns ta tb).
Proof.
  intros Hd Ha Hb. rw /intersect_columns omap_concat.
  assert (Hm : ∀ c m, c ∈ ta →
            match find_field (name c) tb with Some o => IntersectNodes c o | None => None end = Some m →
            column_good m ∧ name m = name c).
  { intros c m Hc. destruct (find_field (name c) tb) as [o|] eqn:Ho; [|done]. intros Hm.
    apply find_field_in in Ho as [Ho _]. rw Forall_forall in Ha. rw Forall_forall in Hb.
    destruct (Ha c Hc) as (Hpc & Hnc & Hhc & Hcc). destruct (Hb o Ho) as (_ & Hno & Hho & Hco).
    destruct (intersect_fuel_meets (node_size c + node_size o) c o) as (_ & Hmm & _); [done..|].
    destruct (Hmm m Hm) as (Hname & Hnm & Hhm).
    destruct (intersect_clean _ _ _ _ Hcc Hco Hm) as [Hcm _].
    split; [|done]. by rw /column_good Hname. }
  split.
  - apply (rows_distinct (map name ta)); [|by rw map_map|apply Forall_short_rows].
    clear -Hm SUL. induction ta as [|c ta IH]; constructor.
    + destruct (match find_field _ _ with Some _ => _ | None => _ end) as [m|] eqn:Hmm; [|constructor].
      simpl. constructor; [|constructor]. destruct (Hm c m) as [_ ->]; [left|done|].
      apply CIEquals_refl.
    + apply IH. intros d m Hd. apply Hm. by right.
  - apply Forall_concat_map. intros c Hc.
    destruct (match find_field _ _ with Some _ => _ | None => _ end) as [m|] eqn:Hmm; [|constructor].
    simpl. constructor; [|constructor]. by apply (Hm c m).
Qed.
End items_laws.

(** ** The type a listing says *)

Section type_laws.
Context `{SUL : StringUtilLaws} {T : Type} `{LTL : LogicalTypeLaws T}.

(** Nothing is hidden or masked from that position down *)
Fixpoint untouched (n : FieldNode) (path : list string) : bool :=
  Plain n
  || negb (masked n)
     && match path with
        | [] => false
        | step :: path =>
            match step_to n step with Some c => untouched c path | None => whole n end
        end.

Lemma child_type_ci a b (l : list (string * T)) : CIEquals a b = true → child_type a l = child_type b l.
Proof.
  intros Hab. induction l as [|[k t] l IH]; [done|]. simpl.
  by rw IH (CIEquals_sym _ a) (CIEquals_sym _ b) (CIEquals_trans _ _ _ Hab).
Qed.

Lemma child_type_app s (l1 l2 : list (string * T)) :
  child_type s (l1 ++ l2) = match child_type s l1 with Some t => Some t | None => child_type s l2 end.
Proof. induction l1 as [|[k t] l1 IH]; [done|]. simpl. by destruct (CIEquals k s). Qed.

Lemma child_type_replaced s (f : string → T → T) (l : list (string * T)) t :
  child_type s l = Some t →
  ∃ nm, CIEquals nm s = true ∧ child_type s (map (λ c, (c.1, f c.1 c.2)) l) = Some (f nm t).
Proof.
  induction l as [|[k u] l IH]; [done|]. simpl. destruct (CIEquals k s) eqn:Hk; [|done].
  intros [= <-]. by exists k.
Qed.

Lemma projected_plain n t path mt : Plain n = true → ProjectedType n t path mt = t.
Proof.
  destruct n as [nm [] [] k [|f fs] [e|]]; try done. intros _. simpl. by destruct (type_of_value t).
Qed.

(** A whole struct: its own fields, each through the child of that name, then what only masks add *)
Lemma projected_whole nm k f fs t path mt children :
  type_of_value t = is_struct children →
  ∃ added,
  ProjectedType (Node nm true false k (f :: fs) None) t path mt =
  STRUCT (map (λ c, (c.1, match find_field c.1 (f :: fs) with
                          | Some x => ProjectedType x c.2 (path +:+ "." +:+ FieldName c.1) mt
                          | None => c.2
                          end)) children ++ added).
Proof.
  intros Ht. eexists. cbn [ProjectedType]. rw Ht. do 2 f_equal. apply map_ext. intros [x u].
  cbn [fst snd find_field]. f_equal. destruct (CIEquals (name f) x); [done|].
  induction fs as [|c l IH]; [done|]. cbn [find_field]. by destruct (CIEquals (name c) x).
Qed.

Fixpoint packed_fields (children : list (string * T)) (path : string) (mt : string → T)
    (l : list FieldNode) : list (string * T) :=
  match l with
  | [] => []
  | c :: l =>
      let below := path +:+ "." +:+ FieldName (name c) in
      match child_type (name c) children with
      | Some t => (name c, ProjectedType c t below mt) :: packed_fields children path mt l
      | None =>
          if masked c then (name c, mt below) :: packed_fields children path mt l
          else packed_fields children path mt l
      end
  end.

(** Only listed fields: each in the listed order, where the source still has it *)
Lemma projected_packed nm k f fs t path mt children :
  type_of_value t = is_struct children →
  ∃ packed,
  ProjectedType (Node nm false false k (f :: fs) None) t path mt = STRUCT packed ∧
  ∀ s c u, find_field s (f :: fs) = Some c → child_type s children = Some u →
    child_type s packed = Some (ProjectedType c u (path +:+ "." +:+ FieldName (name c)) mt).
Proof.
  intros Ht. exists (packed_fields children path mt (f :: fs)).
  split.
  { cbn [ProjectedType packed_fields]. rw Ht. f_equal.
    assert (Hl : ∀ l, (fix packed (l : list FieldNode) : list (string * T) :=
                         match l with
                         | [] => []
                         | c :: l =>
                             match child_type (name c) children with
                             | Some t =>
                                 (name c, ProjectedType c t (path +:+ "." +:+ FieldName (name c)) mt)
                                   :: packed l
                             | None =>
                                 if masked c
                                 then (name c, mt (path +:+ "." +:+ FieldName (name c))) :: packed l
                                 else packed l
                             end
                         end) l = packed_fields children path mt l).
    { induction l as [|c l IH]; [done|]. cbn [packed_fields]. by rw -IH. }
    by rw Hl. }
  generalize (f :: fs) as l. induction l as [|c l IH]; [done|]. intros s d u. cbn [find_field packed_fields].
  destruct (CIEquals (name c) s) eqn:Hc.
  - intros [= <-] Hu. rw (child_type_ci (name c) s) // Hu. cbn [child_type]. by rw Hc.
  - intros Hd Hu. destruct (child_type (name c) children); [cbn [child_type]; rw Hc; eauto|].
    destruct (masked c); [cbn [child_type]; rw Hc|]; eauto.
Qed.

(** One step into a projected type *)
Lemma projected_step n t path mt s p sub τ :
  masked n = false → untouched n (s :: p) = true → type_steps t (s :: p) = Some τ →
  (∀ c u path', step_to n s = Some c → type_steps u p = Some τ →
     type_steps (ProjectedType c u path' mt) p = Some τ) →
  sub = ProjectedType n t path mt → type_steps sub (s :: p) = Some τ.
Proof.
  intros Hm Hv Ht Hsub ->.
  destruct (Plain n) eqn:Hp; [by rw projected_plain|].
  destruct n as [nm w m k fs e]. simpl in Hm. subst m.
  rw /= Hp orb_false_l in Hv. cbn [type_steps] in Ht |- *. rw /step_to /Find in Hv, Hsub.
  cbn [element fields whole] in Hv, Hsub. destruct (is_empty s) eqn:Hs.
  - destruct e as [e|].
    + cbn [ProjectedType]. destruct (type_of_value t); try done; rw LIST_law; by apply Hsub.
    + simpl. by destruct (type_of_value t) eqn:Hty; try done; rw Hty.
  - destruct (type_of_value t) as [children| | |] eqn:Hty; try done.
    destruct (child_type s children) as [u|] eqn:Hu; [|done].
    destruct e as [e|]; [by rw /= Hty Hty Hu|].
    destruct fs as [|f fs]; [by rw /= Hty Hty Hu|]. destruct w.
    + destruct (projected_whole nm k f fs t path mt children Hty) as [added ->].
      rw STRUCT_law child_type_app.
      destruct (child_type_replaced s (λ x u, match find_field x (f :: fs) with
                          | Some y => ProjectedType y u (path +:+ "." +:+ FieldName x) mt
                          | None => u
                          end) children u Hu) as (x & Hx & ->).
      rw (find_field_ci x s) //. destruct (find_field s (f :: fs)); [by apply Hsub|done].
    + destruct (projected_packed nm k f fs t path mt children Hty) as (packed & -> & Hpk).
      rw STRUCT_law. destruct (find_field s (f :: fs)) as [c|] eqn:Hc; [|done].
      rw (Hpk s c u) //. by apply Hsub.
Qed.

Lemma projected_untouched n t path mt p τ :
  untouched n p = true → type_steps t p = Some τ →
  type_steps (ProjectedType n t path mt) p = Some τ.
Proof.
  revert n t path. induction p as [|s p IH]; intros n t path Hv Ht.
  - destruct (Plain n) eqn:Hp; [by rw projected_plain|]. simpl in Hv. rw Hp andb_false_r in Hv. done.
  - destruct (masked n) eqn:Hm.
    { simpl in Hv. rw Hm /= orb_false_r in Hv. by rw projected_plain. }
    eapply projected_step; try done. intros c u path' Hc Hu. apply IH; [|done].
    simpl in Hv. rw Hm Hc in Hv. apply orb_prop in Hv as [Hp|Hv]; [|done].
    exfalso. destruct n as [nm [] [] k [|f fs] [e|]]; try done. rw /step_to /Find /= in Hc.
    by destruct (is_empty s).
Qed.
End type_laws.

(** ** The properties *)

Section properties.
Context `{SUL : StringUtilLaws}.

(** a grant's COLUMNS items mean what they say, in whatever order they are listed: when
    [ColumnTrees::From] accepts them, a position of a column is let through exactly when some item
    without a mask names it or a position above it and no masked item does (names compared without
    case).  The trees, their insertion order and [Simplify] add nothing to that and take nothing
    from it. *)
Theorem grant_items_meaning (items : list (string * string)) (columns : list FieldNode)
    (col : string) (path : list string) :
  From items = Ok columns → columns_show columns col path = granted items col path.
Proof. intros HF. by apply From_laws. Qed.

(** C36: the levels of a grant chain intersect.  What [IntersectColumnItems] stores, read back as
    a grant, lets through exactly what both lists let through: writing the merged tree as items and
    parsing those items again neither widens nor narrows it.  Column names that are empty or have
    spaces at their ends are left out. *)
Theorem levels_intersect (a b items : list (string * string)) (col : string) (path : list string) :
  plain_heads a → plain_heads b → IntersectColumnItems a b = Ok items →
  granted items col path = granted a col path && granted b col path.
Proof.
  intros Ha Hb. rw /IntersectColumnItems.
  intros (ta & HFa & (tb & HFb & [= <-])%outcome_bind_ok)%outcome_bind_ok.
  destruct (From_laws _ _ HFa) as [Hga Hsa]. destruct (From_laws _ _ HFb) as [Hgb Hsb].
  destruct (intersect_columns_good ta tb) as [Hd Hg]; [by destruct Hga|by apply (From_good a)|by apply (From_good b)|].
  rw Items_granted // intersect_columns_show //. by rw Hsa Hsb.
Qed.

(** a principal's roles unite.  The united trees let through exactly what either role's list
    lets through, a visible position beating a masked one; when two roles mask one position
    differently the call is refused with the conflict, and that is the only refusal once both lists
    are read. *)
Theorem roles_unite (a b : list (string * string)) (ta tb : list FieldNode) :
  From a = Ok ta → From b = Ok tb →
  match unite_columns ta tb with
  | Ok columns => ∀ col path, columns_show columns col path = granted a col path || granted b col path
  | Throw message => conflicting message
  end.
Proof.
  intros HFa HFb. destruct (From_laws _ _ HFa) as [Hga Hsa]. destruct (From_laws _ _ HFb) as [Hgb Hsb].
  destruct (unite_columns ta tb) as [columns|message] eqn:Hu.
  - intros col path. by rw (unite_columns_show ta tb) // Hsa Hsb.
  - rw /unite_columns in Hu. destruct (omapM _ ta) as [united|e] eqn:Ho; [done|].
    simpl in Hu. injection Hu as ->. apply omapM_throw in Ho as (c & Hc & Hthrow).
    assert (Hj : joins (Some c) (find_field (name c) tb) (Throw message)); [|done].
    rw -Hthrow. apply unite_opt_joins.
    + destruct Hga as (_ & Hn & _). rw Forall_forall in Hn. auto.
    + intros o Ho. by destruct (good_column _ _ _ Hgb Ho).
Qed.

(** a path written with [FieldName], a dot before each field and [[]] for each element reads
    back as the same path, whatever characters its names hold: quotes, dots, brackets, spaces, a
    leading digit. *)
Theorem field_path_roundtrip (p : FieldPath) :
  is_empty (head p) = false → ParseFieldPath (path_text p) = inr p.
Proof. apply ParseFieldPath_written. Qed.

(** the type a listing shows for a narrowed column is right wherever the role reads the value
    itself: at a path the tree leaves untouched, stepping into [ProjectedType] finds the source's
    own type, through structs rebuilt or updated, lists and arrays. *)
Theorem listing_type_of_untouched {T : Type} `{LTL : LogicalTypeLaws T}
    (n : FieldNode) (source τ : T) (prefix : string) (mask_type : string → T) (path : list string) :
  untouched n path = true → type_steps source path = Some τ →
  type_steps (ProjectedType n source prefix mask_type) path = Some τ.
Proof. apply projected_untouched. Qed.
End properties.

(** the union of two roles' items does not survive being stored.  Role [a] reads the column
    [address] with the field [x] masked; role [b] reads only [address.x.p].  Neither lets [address.x.q]
    through, and neither do the united trees; but [UniteColumnItems] writes them as the items
    [address] and [address.x.p], and a grant of those two items lets all of [address.x] through. *)
Theorem united_items_widen :
  let SU := reference_string_util in
  let a := [("address", EmptyString); ("address.x", "'***'")] in
  let b := [("address.x.p", EmptyString)] in
  ∃ united, UniteColumnItems a b = Ok united
    ∧ granted a "address" ["x"; "q"] = false ∧ granted b "address" ["x"; "q"] = false
    ∧ granted united "address" ["x"; "q"] = true.
Proof.
  eexists. split; [vm_compute; reflexivity|]. repeat split; vm_compute; reflexivity.
Qed.

(** ** The properties on concrete grants *)

#[local] Existing Instance reference_string_util.
#[local] Existing Instance reference_string_util_laws.

Definition sample_wide : list (string * string) :=
  [("address", EmptyString); ("address.geo.lat", "0.0"); ("items[].price", EmptyString);
   ("id", EmptyString)].
Definition sample_narrow : list (string * string) :=
  [("Address.city", EmptyString); ("address.geo", EmptyString); ("items", EmptyString)].

Lemma grant_items_meaning_witness :
  ∃ columns, From sample_wide = Ok columns
    ∧ columns_show columns "ADDRESS" ["geo"; "lat"] = false
    ∧ columns_show columns "address" ["geo"; "lon"] = granted sample_wide "address" ["geo"; "lon"].
Proof.
  eexists. split; [vm_compute; reflexivity|]. split; [vm_compute; reflexivity|].
  refine (grant_items_meaning sample_wide _ "address" ["geo"; "lon"] _). vm_compute. reflexivity.
Defined.

Lemma levels_intersect_witness :
  ∃ items, IntersectColumnItems sample_wide sample_narrow = Ok items
    ∧ granted items "address" ["geo"; "lon"]
      = granted sample_wide "address" ["geo"; "lon"] && granted sample_narrow "address" ["geo"; "lon"]
    ∧ granted items "address" ["geo"; "lon"] = true ∧ granted items "address" ["geo"; "lat"] = false.
Proof.
  eexists. split; [vm_compute; reflexivity|]. split; [|split; vm_compute; reflexivity].
  refine (levels_intersect sample_wide sample_narrow _ "address" ["geo"; "lon"] _ _ _).
  - repeat constructor.
  - repeat constructor.
  - vm_compute. reflexivity.
Defined.

Definition sample_wide_trees : list FieldNode :=
  Eval vm_compute in match From sample_wide with Ok trees => trees | Throw _ => [] end.
Definition sample_narrow_trees : list FieldNode :=
  Eval vm_compute in match From sample_narrow with Ok trees => trees | Throw _ => [] end.

Lemma roles_unite_witness :
  (∃ columns, unite_columns sample_wide_trees sample_narrow_trees = Ok columns
              ∧ columns_show columns "address" ["geo"; "lat"] = true)
  ∧ match unite_columns sample_wide_trees sample_narrow_trees with
    | Ok columns => ∀ col path,
        columns_show columns col path = granted sample_wide col path || granted sample_narrow col path
    | Throw message => conflicting message
    end.
Proof.
  split; [eexists; split; vm_compute; reflexivity|].
  refine (roles_unite sample_wide sample_narrow sample_wide_trees sample_narrow_trees _ _);
    vm_compute; reflexivity.
Defined.

Definition sample_path : FieldPath :=
  {| head := "order lines"; steps := [EmptyString; "Zip Code"; "a.b[" +:+ dq; "2nd"] |}.
Lemma field_path_roundtrip_witness :
  is_empty (head sample_path) = false ∧ ParseFieldPath (path_text sample_path) = inr sample_path.
Proof. split; [reflexivity|]. apply (field_path_roundtrip sample_path). reflexivity. Defined.

(** Types of a concrete universe *)
Inductive sample_type :=
  | scalar (id : string)
  | struct_of (children : list (string * sample_type))
  | list_of (child : sample_type)
  | array_of (child : sample_type).
#[local] Instance sample_types : LogicalTypes sample_type := {|
  type_of_value t := match t with
                     | scalar _ => is_other | struct_of l => is_struct l
                     | list_of t => is_list t | array_of t => is_array t end;
  LIST := list_of; STRUCT := struct_of;
|}.
#[local] Instance sample_type_laws : LogicalTypeLaws sample_type.
Proof. by split. Qed.

Definition sample_source : sample_type :=
  array_of (struct_of [("id", scalar "INT"); ("geo", struct_of [("lat", scalar "DOUBLE")])]).
Definition sample_tree : FieldNode :=
  Node "items" false false EmptyString []
    (Some (Node EmptyString true false EmptyString [Node "id" false true "'*'" [] None] None)).

Lemma listing_type_of_untouched_witness :
  type_steps (ProjectedType sample_tree sample_source "items" (λ _, scalar "VARCHAR"))
    [EmptyString; "GEO"; "lat"] = Some (scalar "DOUBLE")
  ∧ type_steps (ProjectedType sample_tree sample_source "items" (λ _, scalar "VARCHAR"))
    [EmptyString; "id"] = Some (scalar "VARCHAR").
Proof.
  split; [|vm_compute; reflexivity].
  refine (listing_type_of_untouched sample_tree sample_source _ "items" _ [EmptyString; "GEO"; "lat"] _ _);
    vm_compute; reflexivity.
Defined.
