(* ===== verification/StreamBudget.v ===== *)
(** * The node's stream budget ([src/src/include/acl_stream_budget.hpp])

    A statement reserves the memory its stream may hold, waits in a line ordered by priority, aging
    and arrival, and is refused when its wait runs out.  Every access to the budget happens under its
    lock, so the budget is a state and a call of [Acquire] is one arrival and then rounds: each round
    is what runs between two waits.  The clock readings of a round, and what [interrupted] answers,
    are the environment's.  [stepped] interleaves any number of calls and releases. *)
From Stdlib Require Import ZifyBool ZifyN Sorting.Sorted.
From stdpp Require Import sorting.
From S2P Require Import Prelude.
Open Scope Z_scope.

(** A time point of the steady clock, and durations, in nanoseconds; [duration_cast] to
    milliseconds truncates *)
Definition to_ms (duration : Z) : Z := Z.quot duration 1000000.

(** [Waiter] *)
Record Waiter := { ticket : N; priority : Z; arrived : Z }.

(** The budget's fields; [age_step] in milliseconds *)
Record budget_state := {
  age_step : Z;
  reserved : N;
  producing : N;
  refused : Z;
  next_ticket : N;
  waiting : list Waiter;
}.

Definition new_budget (age_step : Z) : budget_state :=
  {| age_step := age_step; reserved := 0; producing := 0; refused := 0; next_ticket := 0;
     waiting := [] |}.

(** The priority a waiter has reached at [now] *)
Definition effective (step now : Z) (w : Waiter) : Z :=
  priority w + Z.quot (to_ms (now - arrived w)) (if 0 <? step then step else 1).

(** One round of the loop of [HeadLocked]; [None] is [any == false] *)
Definition head_step (step now : Z) (best : option (N * Z)) (w : Waiter) : option (N * Z) :=
  let e := effective step now w in
  match best with
  | None => Some (ticket w, e)
  | Some (t, b) =>
      if (b <? e) || ((e =? b) && (ticket w <? t)%N) then Some (ticket w, e) else best
  end.

(** [HeadLocked] *)
Definition HeadLocked (s : budget_state) (now : Z) : N :=
  match fold_left (head_step (age_step s) now) (waiting s) None with
  | Some (head, _) => head
  | None => 0%N
  end.

(** [LeaveLocked] *)
Fixpoint leave (t : N) (l : list Waiter) : list Waiter :=
  match l with
  | [] => []
  | w :: l => if (ticket w =? t)%N then l else w :: leave t l
  end.
Definition LeaveLocked (t : N) (s : budget_state) : budget_state :=
  {| age_step := age_step s; reserved := reserved s; producing := producing s;
     refused := refused s; next_ticket := next_ticket s; waiting := leave t (waiting s) |}.

(** A call of [Acquire] that waits: what its frame holds *)
Record call := { my_ticket : N; bytes : N; budget : N; deadline : Z }.

(** [Acquire] up to its loop *)
Definition arrive (bytes budget : N) (timeout now priority : Z) (s : budget_state)
    : budget_state * call :=
  ({| age_step := age_step s; reserved := reserved s; producing := producing s;
      refused := refused s; next_ticket := uadd (next_ticket s) 1;
      waiting := waiting s ++ [{| ticket := next_ticket s; priority := priority; arrived := now |}] |},
   {| my_ticket := next_ticket s; bytes := bytes; budget := budget; deadline := now + timeout |}).

(** The lambda [fits] *)
Definition fits (c : call) (now : Z) (s : budget_state) : bool :=
  (HeadLocked s now =? my_ticket c)%N
  && ((budget c =? 0)%N || (reserved s =? 0)%N || (uadd (reserved s) (bytes c) <=? budget c)%N).

Inductive answer :=
  | Reserved (was_interrupted : bool)
  | Refused (was_interrupted : bool).

(** [Acquire] after its loop; [fits] reads the clock again *)
Definition finish (c : call) (was_interrupted : bool) (now : Z) (s : budget_state)
    : budget_state * answer :=
  let s' := LeaveLocked (my_ticket c) s in
  if negb (fits c now s) then
    ({| age_step := age_step s'; reserved := reserved s'; producing := producing s';
        refused := if was_interrupted then refused s' else refused s' + 1;
        next_ticket := next_ticket s'; waiting := waiting s' |}, Refused was_interrupted)
  else
    ({| age_step := age_step s'; reserved := uadd (reserved s') (bytes c);
        producing := uadd (producing s') 1; refused := refused s';
        next_ticket := next_ticket s'; waiting := waiting s' |}, Reserved was_interrupted).

(** The clock readings of one round: the loop's [fits], the deadline test, the [fits] after the
    loop; and what [interrupted] answers *)
Record round := { t_fits : Z; client_gone : bool; t_deadline : Z; t_last : Z }.

(** One round of the loop of [Acquire], from taking the lock to waiting or returning; [None] is
    the wait *)
Definition poll (c : call) (r : round) (s : budget_state) : budget_state * option answer :=
  if fits c (t_fits r) s then
    let '(s, a) := finish c false (t_last r) s in (s, Some a)
  else if client_gone r then
    let '(s, a) := finish c true (t_last r) s in (s, Some a)
  else if deadline c <=? t_deadline r then
    let '(s, a) := finish c false (t_last r) s in (s, Some a)
  else (s, None).

(** [Release] *)
Definition Release (bytes : N) (s : budget_state) : budget_state :=
  {| age_step := age_step s;
     reserved := if (bytes <=? reserved s)%N then (reserved s - bytes)%N else 0%N;
     producing := if (0 <? producing s)%N then (producing s - 1)%N else producing s;
     refused := refused s; next_ticket := next_ticket s; waiting := waiting s |}.

(** [Now] *)
Record Snapshot := { now_reserved : N; now_producing : N; now_queued : N; now_refused : Z }.
Definition Now (s : budget_state) : Snapshot :=
  {| now_reserved := reserved s; now_producing := producing s;
     now_queued := N.of_nat (length (waiting s)); now_refused := refused s |}.

(** ** The node: every call waiting, every stream holding its reservation *)

Record node := { state : budget_state; calls : gmap N call; held : list N }.

Definition idle (age_step : Z) : node := {| state := new_budget age_step; calls := ∅; held := [] |}.

Inductive event :=
  | Arrives (bytes budget : N) (timeout now priority : Z)
  | Polls (t : N) (r : round)
  | Releases (i : nat).

(** One event; [None] when no such call waits or no such stream holds a reservation *)
Definition step (ev : event) (n : node) : option node :=
  match ev with
  | Arrives bytes budget timeout now priority =>
      let '(s, c) := arrive bytes budget timeout now priority (state n) in
      Some {| state := s; calls := <[my_ticket c := c]> (calls n); held := held n |}
  | Polls t r =>
      c ← calls n !! t;
      let '(s, a) := poll c r (state n) in
      Some {| state := s;
              calls := match a with Some _ => delete t (calls n) | None => calls n end;
              held := match a with Some (Reserved _) => bytes c :: held n | _ => held n end |}
  | Releases i =>
      b ← held n !! i;
      Some {| state := Release b (state n); calls := calls n;
              held := take i (held n) ++ drop (S i) (held n) |}
  end.

(** A trace of events *)
Fixpoint run (evs : list event) (n : node) : option node :=
  match evs with
  | [] => Some n
  | ev :: evs => n' ← step ev n; run evs n'
  end.

(** ** The line *)

(** What [HeadLocked] compares: effective priority, then arrival *)
Definition before (step now : Z) (w w' : Waiter) : Prop :=
  effective step now w' < effective step now w
  ∨ (effective step now w' = effective step now w ∧ (ticket w ≤ ticket w')%N).

Lemma head_fold step now l best :
  (match best with
   | None => l ≠ []
   | Some _ => True
   end) →
  ∃ h e, fold_left (head_step step now) l best = Some (h, e) ∧
    ((best = Some (h, e) ∨ ∃ w, w ∈ l ∧ ticket w = h ∧ effective step now w = e) ∧
     (∀ b, best = Some b → b.2 < e ∨ (b.2 = e ∧ (h ≤ b.1)%N)) ∧
     ∀ w, w ∈ l → effective step now w < e ∨ (effective step now w = e ∧ (h ≤ ticket w)%N)).
Proof.
  revert best. induction l as [|w l IH]; intros best Hb.
  - destruct best as [[t b]|]; [|done]. exists t, b. split; [done|]. split; [by left|]. split.
    + intros b' [= <-]. right. simpl. lia.
    + by intros w ?%elem_of_nil.
  - cbn [fold_left].
    destruct (IH (head_step step now best w)) as (h & e & Hf & Hin & Hbest & Hall).
    { rw /head_step. destruct best as [[t b]|]; [|done]. by destruct (_ || _). }
    exists h, e. split; [done|].
    assert (Hw : ∃ b, head_step step now best w = Some b ∧
              (effective step now w < b.2 ∨ (effective step now w = b.2 ∧ (b.1 ≤ ticket w)%N)) ∧
              (∀ o, best = Some o → o.2 < b.2 ∨ (o.2 = b.2 ∧ (b.1 ≤ o.1)%N)) ∧
              (best = Some b ∨ b = (ticket w, effective step now w))).
    { rw /head_step. destruct best as [[t b]|].
      - destruct ((b <? effective step now w) || _) eqn:Hc; eexists; split; try done; simpl.
        + split; [right; lia|]. split; [|by right]. intros o [= <-]. simpl. lia.
        + split; [lia|]. split; [|by left]. intros o [= <-]. simpl. lia.
      - eexists. split; [done|]. simpl. split; [right; lia|]. split; [done|by right]. }
    destruct Hw as (b & Hb' & Hwb & Hob & Horig). specialize (Hbest b Hb').
    split; [|split].
    + destruct Hin as [Hin|(x & Hx & Hxh & Hxe)].
      * rw Hb' in Hin. injection Hin as ->. destruct Horig as [->|Heq]; [by left|].
        right. exists w. injection Heq as -> ->. split; [left|done].
      * right. exists x. split; [by right|done].
    + intros o Ho. destruct (Hob o Ho); lia.
    + intros x [->|Hx]%elem_of_cons; [lia|auto].
Qed.

Lemma HeadLocked_spec s now :
  waiting s ≠ [] →
  ∃ w, w ∈ waiting s ∧ ticket w = HeadLocked s now ∧
       ∀ w', w' ∈ waiting s → before (age_step s) now w w'.
Proof.
  intros Hne. destruct (head_fold (age_step s) now (waiting s) None Hne) as (h & e & Hf & Hin & _ & Hall).
  destruct Hin as [Hin|(w & Hw & Hh & He)]; [done|]. exists w. split; [done|].
  split; [by rw /HeadLocked Hf|]. intros w' Hw'. rw /before He Hh. by apply Hall.
Qed.

(** ** Invariants *)

(** The line is exactly the calls in progress, each ticket once, in order of arrival *)
Record line_ok (n : node) : Prop := {
  line_sorted : StronglySorted N.lt (map ticket (waiting (state n)));
  line_fresh : Forall (λ t, (t < next_ticket (state n))%N) (map ticket (waiting (state n)));
  line_calls : ∀ t, is_Some (calls n !! t) ↔ t ∈ map ticket (waiting (state n));
  line_own : ∀ t c, calls n !! t = Some c → my_ticket c = t;
}.

Lemma leave_tickets t l :
  StronglySorted N.lt (map ticket l) →
  map ticket (leave t l) = List.filter (λ x, negb (x =? t)%N) (map ticket l).
Proof.
  induction l as [|w l IH]; [done|]. cbn [map]. intros [Hs Hlt]%StronglySorted_inv.
  simpl. destruct (N.eqb_spec (ticket w) t) as [<-|Hne]; simpl.
  - clear -Hlt. induction Hlt as [|x k Hx Hlt IH]; [done|]. simpl.
    destruct (N.eqb_spec x (ticket w)); [lia|]. simpl. by f_equal.
  - by rw IH.
Qed.

Lemma filter_sorted f (l : list N) : StronglySorted N.lt l → StronglySorted N.lt (List.filter f l).
Proof.
  induction 1 as [|x l Hs IH Hx]; simpl; [constructor|]. destruct (f x); [|done].
  constructor; [done|]. apply Forall_forall. intros y Hy. apply list_elem_of_In, filter_In in Hy as [Hy _].
  rw -list_elem_of_In in Hy. by eapply Forall_forall.
Qed.

Lemma elem_of_leave t x l :
  StronglySorted N.lt (map ticket l) →
  x ∈ map ticket (leave t l) ↔ x ∈ map ticket l ∧ x ≠ t.
Proof.
  intros Hs. rw leave_tickets // list_elem_of_In filter_In -list_elem_of_In.
  destruct (N.eqb_spec x t); simpl; naive_solver.
Qed.

(** However a round ends, it ends with the line as it was or without the call *)
Lemma poll_line c r s :
  let '(s', a) := poll c r s in
  age_step s' = age_step s ∧ next_ticket s' = next_ticket s ∧
  waiting s' = match a with Some _ => leave (my_ticket c) (waiting s) | None => waiting s end.
Proof.
  rw /poll /finish. destruct (fits c (t_fits r) s); [by destruct (fits c (t_last r) s)|].
  destruct (client_gone r); [by destruct (fits c (t_last r) s)|].
  destruct (deadline c <=? t_deadline r); [by destruct (fits c (t_last r) s)|done].
Qed.

Lemma line_step ev n n' :
  (next_ticket (state n) + 1 < two64)%N → line_ok n → step ev n = Some n' → line_ok n'.
Proof.
  intros Hsmall [Hs Hf Hc Ho]. destruct ev as [b bd timeout now p|t r|i]; cbn [step].
  - intros [= <-]. split; cbn [state calls waiting next_ticket].
    + rw map_app. apply StronglySorted_app_2; [|done|repeat constructor].
      intros x y Hx ->%list_elem_of_singleton. rw Forall_forall in Hf. by apply Hf.
    + rw map_app uadd_small //. apply Forall_app. split; [|repeat constructor; simpl; lia].
      eapply Forall_impl; [exact Hf|]. simpl. lia.
    + intros t. rw map_app elem_of_app list_elem_of_singleton /= -Hc lookup_insert_is_Some'. naive_solver.
    + intros t c. rw lookup_insert_Some. intros [[<- <-]|[_ ?]]; [done|auto].
  - destruct (calls n !! t) as [c|] eqn:Ht; [|done]. simpl. pose proof (Ho t c Ht) as Hct.
    pose proof (poll_line c r (state n)) as Hp. destruct (poll c r (state n)) as [s' a].
    destruct Hp as (_ & Hnext & Hw). intros [= <-]. rw Hct in Hw.
    destruct a as [a|]; split; cbn [state calls]; rw ?Hw ?Hnext //.
    + rw leave_tickets //. by apply filter_sorted.
    + apply Forall_forall. intros x Hx. apply elem_of_leave in Hx as [Hx _]; [|done].
      rw Forall_forall in Hf. by apply Hf.
    + intros x. rw elem_of_leave // -Hc lookup_delete_is_Some. naive_solver.
    + intros x d. rw lookup_delete_Some. intros [_ ?]. auto.
  - destruct (held n !! i); [|done]. intros [= <-]. by split.
Qed.

Lemma next_ticket_step ev n n' :
  (next_ticket (state n) + 1 < two64)%N → step ev n = Some n' →
  (next_ticket (state n') ≤ next_ticket (state n) + 1)%N.
Proof.
  intros Hsmall. destruct ev as [b bd timeout now p|t r|i]; cbn [step].
  - intros [= <-]. simpl. rw uadd_small //.
  - destruct (calls n !! t) as [c|]; [|done]. simpl. pose proof (poll_line c r (state n)) as Hp.
    destruct (poll c r (state n)) as [s' a]. destruct Hp as (_ & Hnext & _). intros [= <-].
    simpl. lia.
  - destruct (held n !! i); [|done]. intros [= <-]. simpl. lia.
Qed.

(** What every reservation held adds up to *)
Definition total (l : list N) : N := foldr N.add 0%N l.

(** Every call names the node's one budget [B], and no stream's worst case is near the width *)
Definition sized (B b : N) : Prop := (b < 2 ^ 63)%N.
Definition one_budget (B : N) (ev : event) : Prop :=
  match ev with Arrives bytes budget _ _ _ => budget = B ∧ sized B bytes | _ => True end.

Record account_ok (B : N) (n : node) : Prop := {
  account_calls : ∀ t c, calls n !! t = Some c → budget c = B ∧ sized B (bytes c);
  account_held : Forall (sized B) (held n);
  account_reserved : reserved (state n) = total (held n);
  account_producing : producing (state n) = N.of_nat (length (held n));
  account_room : (reserved (state n) ≤ B)%N ∨ ∃ b, b ∈ held n ∧ total (held n) = b;
}.

Lemma total_app l k : total (l ++ k) = (total l + total k)%N.
Proof. induction l as [|x l IH]; simpl; lia. Qed.

Lemma total_remove l i b :
  l !! i = Some b → total l = (b + total (take i l ++ drop (S i) l))%N.
Proof.
  intros Hi. rw -{1}(take_drop_middle l i b Hi) !total_app /=. lia.
Qed.

Lemma total_elem l x : x ∈ l → (x ≤ total l)%N.
Proof. induction 1; simpl; lia. Qed.

(** What a round does to the account *)
Lemma poll_account c r s :
  let '(s', a) := poll c r s in
  match a with
  | Some (Reserved _) => reserved s' = uadd (reserved s) (bytes c)
      ∧ producing s' = uadd (producing s) 1 ∧ refused s' = refused s ∧ fits c (t_last r) s = true
  | Some (Refused i) => reserved s' = reserved s ∧ producing s' = producing s
      ∧ refused s' = (if i then refused s else refused s + 1) ∧ fits c (t_last r) s = false
  | None => s' = s
  end.
Proof.
  rw /poll /finish. destruct (fits c (t_fits r) s), (client_gone r), (deadline c <=? t_deadline r),
    (fits c (t_last r) s) eqn:Hf; try done; by rw Hf.
Qed.

Lemma account_step B ev n n' :
  (0 < B < 2 ^ 63)%N → one_budget B ev → (N.of_nat (length (held n)) + 1 < two64)%N →
  account_ok B n → step ev n = Some n' → account_ok B n'.
Proof.
  intros HB Hev Hlen [Hc Hh Hr Hp Hroom]. rw /sized in Hh.
  assert (Hsmall : (total (held n) < 2 ^ 63)%N).
  { destruct Hroom as [?|(b & Hb & ->)]; [lia|]. rw Forall_forall in Hh. by apply Hh. }
  destruct ev as [b bd timeout now p|t r|i]; cbn [step].
  - destruct Hev as [-> Hb]. intros [= <-]. split; cbn [state calls held reserved producing]; try done.
    intros t c. rw lookup_insert_Some. intros [[_ <-]|[_ ?]]; [done|eauto].
  - destruct (calls n !! t) as [c|] eqn:Ht; [|done]. simpl. destruct (Hc t c Ht) as [HcB Hcb].
    rw /sized in Hcb.
    pose proof (poll_account c r (state n)) as Ha. destruct (poll c r (state n)) as [s' a].
    intros [= <-]. destruct a as [[i|i]|].
    + destruct Ha as (Hr' & Hp' & _ & Hfits). rw uadd_small in Hr'; [lia|].
      rw uadd_small in Hp'; [lia|].
      split; cbn [state calls held length]; try lia.
      * intros x d. rw lookup_delete_Some. intros [_ ?]. eauto.
      * by constructor.
      * simpl. lia.
      * rw /fits HcB in Hfits. rw uadd_small in Hfits; [lia|].
        destruct (decide (reserved (state n) = 0%N)) as [Hz|Hz]; [|left; lia].
        right. exists (bytes c). split; [left|]. simpl. lia.
    + destruct Ha as (Hr' & Hp' & _ & _). split; cbn [state calls held]; rw ?Hr' ?Hp' //.
      intros x d. rw lookup_delete_Some. intros [_ ?]. eauto.
    + subst s'. by split.
  - destruct (held n !! i) as [b|] eqn:Hi; [|done]. intros [= <-].
    pose proof (total_remove _ _ _ Hi) as Htot.
    assert (Hhb : (length (held n) = S (length (take i (held n) ++ drop (S i) (held n))))%nat).
    { rw -{1}(take_drop_middle _ _ _ Hi) !length_app /=. lia. }
    split; cbn [state calls held Release reserved producing].
    + done.
    + rw -(take_drop_middle _ _ _ Hi) in Hh. apply Forall_app in Hh as [? [_ ?]%Forall_cons].
      by apply Forall_app.
    + case_match; lia.
    + case_match; lia.
    + assert (Hle : ((if (b <=? reserved (state n))%N then reserved (state n) - b else 0) = total (take i (held n) ++ drop (S i) (held n)))%N)
        by (case_match; lia).
      rw Hle. destruct Hroom as [?|(x & Hx & Hxt)]; [left; lia|].
      rw -(take_drop_middle _ _ _ Hi) in Hx.
      assert (x = b ∨ x ∈ take i (held n) ++ drop (S i) (held n)) as [->|Hin].
      { move: Hx. rw !elem_of_app elem_of_cons. naive_solver. }
      * left. lia.
      * right. exists x. split; [done|]. pose proof (total_elem _ _ Hin). lia.
Qed.

Lemma held_step ev n n' : step ev n = Some n' → (length (held n') ≤ S (length (held n)))%nat.
Proof.
  destruct ev as [b bd timeout now p|t r|i]; cbn [step].
  - intros [= <-]. simpl. lia.
  - destruct (calls n !! t) as [c|]; [|done]. simpl. destruct (poll c r (state n)) as [s' a].
    intros [= <-]. destruct a as [[]|]; simpl; lia.
  - destruct (held n !! i) eqn:Hi; [|done]. intros [= <-]. simpl.
    rw length_app length_take length_drop. lia.
Qed.

Lemma line_run evs n n' :
  (next_ticket (state n) + N.of_nat (length evs) < two64)%N → line_ok n → run evs n = Some n' →
  line_ok n'.
Proof.
  revert n. induction evs as [|ev evs IH]; intros n Hlen Hok; simpl; [by intros [= <-]|].
  destruct (step ev n) as [n1|] eqn:Hs; [|done]. simpl in Hlen |- *. apply IH.
  - apply next_ticket_step in Hs; lia.
  - eapply line_step; [|done..]. lia.
Qed.

Lemma account_run B evs n n' :
  (0 < B < 2 ^ 63)%N → Forall (one_budget B) evs →
  (N.of_nat (length (held n)) + N.of_nat (length evs) < two64)%N → account_ok B n →
  run evs n = Some n' → account_ok B n'.
Proof.
  intros HB Hevs. revert n. induction Hevs as [|ev evs Hev Hevs IH]; intros n Hlen Hok; simpl;
    [by intros [= <-]|].
  destruct (step ev n) as [n1|] eqn:Hs; [|done]. simpl in Hlen |- *. apply IH.
  - apply held_step in Hs. lia.
  - eapply account_step; [..|done]; [done|done|lia|done].
Qed.

Lemma line_idle a : line_ok (idle a).
Proof.
  split; simpl; [constructor|constructor| |done]. intros t. rw lookup_empty elem_of_nil.
  split; [by intros [? ?]|done].
Qed.

Lemma account_idle B a : account_ok B (idle a).
Proof. split; simpl; try done. left. lia. Qed.


(** ** The properties *)

(** C38: the account is exact and the budget holds.  However calls, polls and releases interleave,
    with one node budget [B] the budget's [reserved] is the sum of what the running streams hold and
    [producing] their number, and [reserved] never exceeds [B] except for a single stream that alone
    is bigger, admitted when nothing else was reserved. *)
Theorem budget_holds (B : N) (age : Z) (evs : list event) (n : node) :
  (0 < B < 2 ^ 63)%N → Forall (one_budget B) evs → (N.of_nat (length evs) < two64)%N →
  run evs (idle age) = Some n →
  reserved (state n) = total (held n) ∧ producing (state n) = N.of_nat (length (held n)) ∧
  ((reserved (state n) ≤ B)%N ∨ ∃ b, b ∈ held n ∧ total (held n) = b).
Proof.
  intros HB Hevs Hlen Hrun. eapply account_run in Hrun; [by destruct Hrun|done..|].
  apply account_idle.
Qed.

(** the line never strands anyone.  In every reachable state the waiters are exactly the calls
    in progress, each once and in order of arrival, so a call that returned left the line; the head
    is the waiter of the highest priority after aging, the earliest among equals; and a call is given
    its reservation only as that head, with room. *)
Theorem line_is_served_in_order (age : Z) (evs : list event) (n : node) :
  (N.of_nat (length evs) < two64)%N → run evs (idle age) = Some n →
  (∀ t, is_Some (calls n !! t) ↔ t ∈ map ticket (waiting (state n))) ∧
  StronglySorted N.lt (map ticket (waiting (state n))) ∧
  (∀ now, waiting (state n) ≠ [] →
     ∃ w, w ∈ waiting (state n) ∧ ticket w = HeadLocked (state n) now ∧
          ∀ w', w' ∈ waiting (state n) → before (age_step (state n)) now w w') ∧
  ∀ t c r i s', calls n !! t = Some c → poll c r (state n) = (s', Some (Reserved i)) →
    HeadLocked (state n) (t_last r) = t ∧
    (budget c = 0%N ∨ reserved (state n) = 0%N ∨ (uadd (reserved (state n)) (bytes c) ≤ budget c)%N).
Proof.
  intros Hlen Hrun. eapply line_run in Hrun; [|simpl; lia|apply line_idle].
  destruct Hrun as [Hs Hf Hc Ho]. split; [done|]. split; [done|].
  split; [intros now; apply HeadLocked_spec|]. intros t c r i s' Ht Hp.
  pose proof (poll_account c r (state n)) as Ha. rw Hp in Ha. destruct Ha as (_ & _ & _ & Hfits).
  rw /fits (Ho t c Ht) in Hfits. lia.
Qed.


(** every wait ends, with the answer it should have.  A round that reaches the deadline, or
    finds the client gone, returns and leaves the line; a round of the head returns with its
    reservation when there is room, the budget is 0 or nothing is reserved, whatever its own size;
    and a refusal is counted exactly when the client was still there. *)
Theorem waits_end (c : call) (r : round) (s : budget_state) :
  (deadline c ≤ t_deadline r ∨ client_gone r = true →
     (poll c r s).2 ≠ None ∧ waiting (poll c r s).1 = leave (my_ticket c) (waiting s)) ∧
  (HeadLocked s (t_fits r) = my_ticket c → HeadLocked s (t_last r) = my_ticket c →
   budget c = 0%N ∨ reserved s = 0%N ∨ (uadd (reserved s) (bytes c) ≤ budget c)%N →
     (poll c r s).2 = Some (Reserved false) ∧
     reserved (poll c r s).1 = uadd (reserved s) (bytes c)) ∧
  (∀ i, (poll c r s).2 = Some (Refused i) →
     refused (poll c r s).1 = if i then refused s else refused s + 1).
Proof.
  pose proof (poll_line c r s) as Hl. pose proof (poll_account c r s) as Ha.
  destruct (poll c r s) as [s' a] eqn:Hp. simpl. destruct Hl as (_ & _ & Hw). split; [|split].
  - intros Hend. assert (a ≠ None) as Hne.
    { rw /poll in Hp. destruct (finish c false (t_last r) s), (finish c true (t_last r) s).
      destruct Hend as [Hend|Hend]; rw ?Hend in Hp.
      - replace (deadline c <=? t_deadline r) with true in Hp by lia.
        by destruct (fits c (t_fits r) s), (client_gone r); injection Hp as <- <-.
      - by destruct (fits c (t_fits r) s); injection Hp as <- <-. }
    split; [done|]. by destruct a.
  - intros H1 H2 Hroom.
    assert (Hf : ∀ t, HeadLocked s t = my_ticket c → fits c t s = true) by (intros t Ht; rw /fits Ht; lia).
    rw /poll /finish (Hf _ H1) (Hf _ H2) /= in Hp. by injection Hp as <- <-.
  - intros i ->. by destruct Ha as (_ & _ & -> & _).
Qed.

(** The node of [refused_before_deadline]: one stream holds the room, two statements wait, the
    stream ends *)
Definition second : Z := 1000000000.
Definition sample_events : list event :=
  [Arrives 8 10 (25 * second) 0 0;
   Polls 0 {| t_fits := 0; client_gone := false; t_deadline := 0; t_last := 0 |};
   Arrives 5 10 (25 * second) 0 0; Arrives 5 10 (25 * second) second 1;
   Polls 1 {| t_fits := 2 * second; client_gone := false; t_deadline := 2 * second; t_last := 2 * second |};
   Releases 0].
Definition sample_node : node :=
  Eval vm_compute in match run sample_events (idle 5000) with Some n => n | None => idle 5000 end.

(** a statement can be refused for capacity with the room free and its wait not over.  The
    loop and the test after it read the clock separately; when aging moves the head to another waiter
    between the two readings, the statement that was the head leaves refused, and counted, at once.
    Here the node is empty, the deadline 19 seconds away and the readings one nanosecond apart. *)
Theorem refused_before_deadline :
  run sample_events (idle 5000) = Some sample_node ∧
  reserved (state sample_node) = 0%N ∧
  ∃ c r s, calls sample_node !! 1%N = Some c
    ∧ fits c (t_fits r) (state sample_node) = true
    ∧ t_last r = t_fits r + 1 ∧ t_last r + 19 * second ≤ deadline c ∧ client_gone r = false
    ∧ poll c r (state sample_node) = (s, Some (Refused false)).
Proof.
  split; [vm_compute; reflexivity|]. split; [reflexivity|].
  exists {| my_ticket := 1; bytes := 5; budget := 10; deadline := 25 * second |}.
  exists {| t_fits := 6 * second - 1; client_gone := false; t_deadline := 6 * second; t_last := 6 * second |}.
  eexists. repeat split; vm_compute; try reflexivity. discriminate.
Qed.

(** ** The properties on concrete traces *)

Lemma budget_holds_witness :
  let evs := take 5 sample_events in
  ∃ n, run evs (idle 5000) = Some n ∧ length (waiting (state n)) = 2%nat ∧
    reserved (state n) = total (held n) ∧ producing (state n) = N.of_nat (length (held n)) ∧
    ((reserved (state n) ≤ 10)%N ∨ ∃ b, b ∈ held n ∧ total (held n) = b).
Proof.
  eexists. split; [vm_compute; reflexivity|]. split; [reflexivity|].
  refine (budget_holds 10 5000 (take 5 sample_events) _ _ _ _ _).
  - split; reflexivity.
  - repeat constructor.
  - reflexivity.
  - vm_compute. reflexivity.
Defined.

Lemma line_is_served_in_order_witness :
  run sample_events (idle 5000) = Some sample_node ∧
  length (waiting (state sample_node)) = 2%nat ∧
  StronglySorted N.lt (map ticket (waiting (state sample_node))).
Proof.
  split; [vm_compute; reflexivity|]. split; [reflexivity|].
  refine (proj1 (proj2 (line_is_served_in_order 5000 sample_events sample_node _ _)));
    vm_compute; reflexivity.
Defined.


Lemma waits_end_witness :
  let c := {| my_ticket := 1; bytes := 90; budget := 10; deadline := 25 * second |} in
  let r := {| t_fits := 3 * second; client_gone := false; t_deadline := 3 * second; t_last := 3 * second |} in
  (poll c r (state sample_node)).2 = None ∧
  (let r := {| t_fits := 5 * second; client_gone := false; t_deadline := 5 * second; t_last := 5 * second |} in
   (poll c r (state sample_node)).2 = Some (Reserved false) ∧
   reserved (poll c r (state sample_node)).1 = uadd (reserved (state sample_node)) (bytes c)).
Proof.
  split; [vm_compute; reflexivity|].
  refine (proj1 (proj2 (waits_end _ _ _)) _ _ _); [vm_compute; reflexivity..|]. right. left. reflexivity.
Defined.
