(* ===== verification/FunctionCategories.v ===== *)
(** * Function categories ([src/src/acl_function_categories.cpp])

    What a principal may call.  A function is a candidate under its lowered name, with the categories
    it sits in; roles hold grants and denies of categories and of keys; [Resolve] judges one call and
    [AdmittedKeys] lists what it would admit.  The three tables are the model's rows, the maps'
    iteration order is the order of first insertion. *)
From Stdlib Require Import ZifyBool.
From S2P Require Import Prelude.

(** ** Keys *)

Inductive FunctionKind := SCALAR | TABLE.
#[export] Instance FunctionKind_eq_dec : EqDecision FunctionKind.
Proof. solve_decision. Defined.

Definition FunctionKindName (kind : FunctionKind) : string :=
  match kind with TABLE => "table" | SCALAR => "scalar" end.

Definition ParseFunctionKind `{StringUtil} (text : string) : option FunctionKind :=
  if CIEquals text "scalar" then Some SCALAR
  else if CIEquals text "table" then Some TABLE
  else None.

Record FunctionKey := { database : string; schema : string; fname : string; kind : FunctionKind }.

(** [FunctionKey::operator==]: exact *)
#[export] Instance FunctionKey_eq_dec : EqDecision FunctionKey.
Proof. solve_decision. Defined.

Definition ToString (k : FunctionKey) : string :=
  database k +:+ "." +:+ schema k +:+ "." +:+ fname k.

(** The byte [\x1f] *)
Definition unit_sep : ascii := "031"%char.

Definition Serialize `{StringUtil} (k : FunctionKey) : string :=
  Lower (database k) +:+ str1 unit_sep +:+ Lower (schema k) +:+ str1 unit_sep +:+ Lower (fname k)
  +:+ str1 unit_sep +:+ FunctionKindName (kind k).

(** ** The never set *)

Definition never_prefixes : list string := ["acl_"; "ducklake_"; "quack_"; "uc_"; "__internal_"].
Definition never_names : list string :=
  ["arrow_scan"; "arrow_scan_dumb"; "seq_scan"; "query"; "query_table"; "json_execute_serialized_sql";
   "tpch"; "tpcds"; "sqlsmith"; "fuzzyduck"; "reduce_sql_statement"; "fuzz_all_functions";
   "scan_data_from_quack_client"; "act_for_sessions"; "error"; "constant_or_null"; "create_sort_key";
   "invoke"; "combine"; "finalize"; "to_aggregate_state"].
Definition scanners : list string := ["postgres_"; "pg_"; "mysql_"; "mssql_"; "sqlite_"; "odbc_"].
Definition verbs : list string :=
  ["query"; "execute"; "attach"; "clear_cache"; "configure_pool"; "pin_connection";
   "close_pinned_connection"; "bind_params"; "create_params"].

Definition FunctionNeverOnlyInSystem (name : string) : bool := String.eqb name "whoami".

Section never.
Context `{SU : StringUtil}.

(** A scanner's verbs *)
Definition scanner_verb (name : string) : bool :=
  existsb (λ scanner,
    StartsWith name scanner
    && existsb (String.eqb (String.substring (String.length scanner)
                              (String.length name - String.length scanner) name)) verbs) scanners.

Definition FunctionNeverCallable (name database : string) : bool :=
  existsb (StartsWith name) never_prefixes
  || ci_mem name never_names
  || FunctionNeverOnlyInSystem name && (is_empty database || CIEquals database "system")
  || scanner_verb name.
End never.

(** ** Decisions *)

Inductive FunctionVerdict :=
  | ADMITTED | NEVER | DENIED | NOT_GRANTED | UNCATEGORIZED | AMBIGUOUS | UNKNOWN_QUALIFIED.
#[export] Instance FunctionVerdict_eq_dec : EqDecision FunctionVerdict.
Proof. solve_decision. Defined.

Record FunctionDecision := {
  verdict : FunctionVerdict;
  key : FunctionKey;
  category : string;
  decided_by : string;
}.

(** [FunctionDecision::Why] *)
Definition Why (d : FunctionDecision) (label : string) : string :=
  match verdict d with
  | ADMITTED => EmptyString
  | NEVER => label +:+ " is not allowed"
  | DENIED =>
      label +:+ " is not allowed"
      +:+ (if is_empty (category d) then EmptyString
           else " (category " +:+ dq +:+ category d +:+ dq +:+ " is denied)")
  | NOT_GRANTED =>
      label +:+ " is not allowed: " +:+ ToString (key d)
      +:+ " is in no category granted to this principal"
  | UNCATEGORIZED => label +:+ " is not allowed: it is in no function category"
  | AMBIGUOUS => label +:+ " is ambiguous here: qualify it with its database and schema"
  | UNKNOWN_QUALIFIED => label +:+ " is not allowed: no such function is categorized"
  end.

(** ** The model *)

Record CategoryRow := { row_name : string; comment : string; builtin : bool }.
Record Candidate := { ckey : FunctionKey; ccategories : list string }.
Record RoleRules := {
  categories_allowed : list string;
  categories_denied : list string;
  keys_allowed : gset string;
  keys_denied : gset string;
}.
Definition no_rules : RoleRules :=
  {| categories_allowed := []; categories_denied := []; keys_allowed := ∅; keys_denied := ∅ |}.

Record FunctionCategoryModel := {
  scalars : list (string * list Candidate);
  tables : list (string * list Candidate);
  categories : list (string * CategoryRow);
  rules : list (string * RoleRules);
}.
Definition new_model : FunctionCategoryModel :=
  {| scalars := []; tables := []; categories := []; rules := [] |}.

Definition ByKind (m : FunctionCategoryModel) (k : FunctionKind) : list (string * list Candidate) :=
  match k with TABLE => tables m | SCALAR => scalars m end.
Definition with_kind (k : FunctionKind) (e : list (string * list Candidate))
    (m : FunctionCategoryModel) : FunctionCategoryModel :=
  match k with
  | SCALAR => {| scalars := e; tables := tables m; categories := categories m; rules := rules m |}
  | TABLE => {| scalars := scalars m; tables := e; categories := categories m; rules := rules m |}
  end.
Definition with_rules (r : list (string * RoleRules)) (m : FunctionCategoryModel)
    : FunctionCategoryModel :=
  {| scalars := scalars m; tables := tables m; categories := categories m; rules := r |}.

Section model.
Context `{SU : StringUtil}.

(** [map[k]]: the entry, made when there is none *)
Definition ci_at {V} (dflt : V) (k : string) (m : list (string * V)) : V := default dflt (ci_find k m).

Definition AddCategory (name comment : string) (builtin : bool) (m : FunctionCategoryModel)
    : FunctionCategoryModel :=
  {| scalars := scalars m; tables := tables m;
     categories := ci_set name {| row_name := name; comment := comment; builtin := builtin |} (categories m);
     rules := rules m |}.

Definition HasCategory (m : FunctionCategoryModel) (name : string) : bool :=
  match ci_find name (categories m) with Some _ => true | None => false end.

(** The candidate of a key: same database and schema, compared without case *)
Definition same_place (k : FunctionKey) (c : Candidate) : bool :=
  CIEquals (database (ckey c)) (database k) && CIEquals (schema (ckey c)) (schema k).
Definition FindCandidate (m : FunctionCategoryModel) (k : FunctionKey) : option Candidate :=
  match ci_find (fname k) (ByKind m (kind k)) with
  | Some candidates => List.find (same_place k) candidates
  | None => None
  end.

(** The first candidate of that place changed in place *)
Fixpoint update_candidate (k : FunctionKey) (f : Candidate → Candidate) (l : list Candidate)
    : list Candidate :=
  match l with
  | [] => []
  | c :: l => if same_place k c then f c :: l else c :: update_candidate k f l
  end.

Definition lowered (k : FunctionKey) : FunctionKey :=
  {| database := database k; schema := schema k; fname := Lower (fname k); kind := kind k |}.

(** [ByKind(key.kind)[key.name]] changed *)
Definition on_name (k : FunctionKey) (f : list Candidate → list Candidate) (m : FunctionCategoryModel)
    : FunctionCategoryModel :=
  let by_kind := ByKind m (kind k) in
  with_kind (kind k) (ci_set (fname k) (f (ci_at [] (fname k) by_kind)) by_kind) m.

(** Whether any role's grant names the key *)
Definition NameGranted (m : FunctionCategoryModel) (k : FunctionKey) : bool :=
  existsb (λ rule, bool_decide (Serialize k ∈ keys_allowed rule.2)
                   || bool_decide (Serialize k ∈ keys_denied rule.2)) (rules m).

Definition drop_category (name : string) (c : Candidate) : Candidate :=
  {| ckey := ckey c; ccategories := ci_remove name (ccategories c) |}.

Definition no_categories (c : Candidate) : bool :=
  match ccategories c with [] => true | _ => false end.

(** [RemoveCategory]'s loop over one map *)
Definition strip_category (m : FunctionCategoryModel) (name : string)
    (e : list (string * list Candidate)) : list (string * list Candidate) :=
  List.filter (λ entry : string * list Candidate, match entry.2 with [] => false | _ => true end)
    (map (λ entry, (entry.1,
            List.filter (λ c, negb (no_categories c && negb (NameGranted m (ckey c))))
              (map (drop_category name) entry.2))) e).

Definition forget_category (name : string) (r : RoleRules) : RoleRules :=
  {| categories_allowed := ci_remove name (categories_allowed r);
     categories_denied := ci_remove name (categories_denied r);
     keys_allowed := keys_allowed r; keys_denied := keys_denied r |}.

Definition RemoveCategory (name : string) (m : FunctionCategoryModel) : FunctionCategoryModel * bool :=
  if negb (HasCategory m name) then (m, false)
  else
    ({| scalars := strip_category m name (scalars m); tables := strip_category m name (tables m);
        categories := ci_erase name (categories m);
        rules := map (λ e, (e.1, forget_category name e.2)) (rules m) |}, true).

Definition AddMember (cat : string) (key_p : FunctionKey) (m : FunctionCategoryModel)
    : FunctionCategoryModel * bool :=
  let m := if HasCategory m cat then m else AddCategory cat EmptyString false m in
  let k := lowered key_p in
  match FindCandidate m k with
  | Some existing =>
      if ci_mem cat (ccategories existing) then (m, false)
      else
        (on_name k (update_candidate k (λ c,
           {| ckey := ckey c; ccategories := ccategories c ++ [cat] |})) m, true)
  | None => (on_name k (λ l, l ++ [{| ckey := k; ccategories := [cat] |}]) m, true)
  end.

(** [PruneCandidate]: exact comparison of the keys *)
Definition PruneCandidate (k : FunctionKey) (m : FunctionCategoryModel) : FunctionCategoryModel :=
  let by_kind := ByKind m (kind k) in
  match ci_find (fname k) by_kind with
  | None => m
  | Some candidates =>
      let kept := List.filter (λ c,
        negb (no_categories c && bool_decide (ckey c = k) && negb (NameGranted m (ckey c)))) candidates in
      with_kind (kind k)
        (match kept with [] => ci_erase (fname k) by_kind | _ => ci_set (fname k) kept by_kind end) m
  end.

Definition RemoveMember (cat : string) (key_p : FunctionKey) (m : FunctionCategoryModel)
    : FunctionCategoryModel * bool :=
  let k := lowered key_p in
  match FindCandidate m k with
  | None => (m, false)
  | Some existing =>
      let cats := ci_remove cat (ccategories existing) in
      if (length cats =? length (ccategories existing))%nat then (m, false)
      else
        let m := on_name k (update_candidate k (drop_category cat)) m in
        (match cats with [] => PruneCandidate k m | _ => m end, true)
  end.

Definition AddCategoryGrant (role cat : string) (allowed : bool) (m : FunctionCategoryModel)
    : FunctionCategoryModel :=
  let rule := ci_at no_rules role (rules m) in
  let yes := ci_remove cat (categories_allowed rule) in
  let no := ci_remove cat (categories_denied rule) in
  with_rules (ci_set role
    {| categories_allowed := if allowed then ci_add cat yes else yes;
       categories_denied := if allowed then no else ci_add cat no;
       keys_allowed := keys_allowed rule; keys_denied := keys_denied rule |} (rules m)) m.

Definition AddNameGrant (role : string) (key_p : FunctionKey) (allowed : bool)
    (m : FunctionCategoryModel) : FunctionCategoryModel :=
  let k := lowered key_p in
  let m := match FindCandidate m k with
           | Some _ => m
           | None => on_name k (λ l, l ++ [{| ckey := k; ccategories := [] |}]) m
           end in
  let rule := ci_at no_rules role (rules m) in
  let s := Serialize k in
  let yes := keys_allowed rule ∖ {[s]} in
  let no := keys_denied rule ∖ {[s]} in
  with_rules (ci_set role
    {| categories_allowed := categories_allowed rule; categories_denied := categories_denied rule;
       keys_allowed := if allowed then {[s]} ∪ yes else yes;
       keys_denied := if allowed then no else {[s]} ∪ no |} (rules m)) m.

Definition RemoveCategoryGrant (role cat : string) (m : FunctionCategoryModel)
    : FunctionCategoryModel * bool :=
  match ci_find role (rules m) with
  | None => (m, false)
  | Some rule =>
      (with_rules (ci_set role (forget_category cat rule) (rules m)) m,
       ci_mem cat (categories_allowed rule) || ci_mem cat (categories_denied rule))
  end.

Definition RemoveNameGrant (role : string) (key_p : FunctionKey) (m : FunctionCategoryModel)
    : FunctionCategoryModel * bool :=
  let k := lowered key_p in
  match ci_find role (rules m) with
  | None => (m, false)
  | Some rule =>
      let s := Serialize k in
      let m := with_rules (ci_set role
        {| categories_allowed := categories_allowed rule; categories_denied := categories_denied rule;
           keys_allowed := keys_allowed rule ∖ {[s]}; keys_denied := keys_denied rule ∖ {[s]} |}
        (rules m)) m in
      (PruneCandidate k m,
       bool_decide (s ∈ keys_allowed rule) || bool_decide (s ∈ keys_denied rule))
  end.

(** ** Judging *)

Definition SchemaRank (k : FunctionKey) : nat :=
  if negb (CIEquals (database k) "system") then 3
  else if CIEquals (schema k) "main" then 0
  else if CIEquals (schema k) "pg_catalog" then 1
  else 2.

(** What one role's denies, or its grants, say of a candidate: by name, or by its first category *)
Definition rule_says (keys : RoleRules → gset string) (cats : RoleRules → list string)
    (m : FunctionCategoryModel) (c : Candidate) (role : string) : option (option string) :=
  match ci_find role (rules m) with
  | None => None
  | Some rule =>
      if bool_decide (Serialize (ckey c) ∈ keys rule) then Some None
      else Some <$> List.find (λ cat, ci_mem cat (cats rule)) (ccategories c)
  end.
Definition denies := rule_says keys_denied categories_denied.
Definition allows := rule_says keys_allowed categories_allowed.

(** The first role of the list that says anything *)
Fixpoint first_says (says : string → option (option string)) (roles : list string)
    : option (string * option string) :=
  match roles with
  | [] => None
  | role :: roles =>
      match says role with Some by_category => Some (role, by_category) | None => first_says says roles end
  end.

(** A decision for a candidate; [decided_by] names the role and the category *)
Definition decide_as (v : FunctionVerdict) (k : FunctionKey) (said : string * option string)
    : FunctionDecision :=
  {| verdict := v; key := k; category := default EmptyString said.2;
     decided_by := match said.2 with
                   | None => "name:" +:+ said.1
                   | Some cat => "category:" +:+ cat +:+ "@" +:+ said.1
                   end |}.

Definition Judge (m : FunctionCategoryModel) (roles : list string) (c : Candidate) : FunctionDecision :=
  let everyone := roles ++ [EmptyString] in
  match first_says (denies m c) everyone with
  | Some said => decide_as DENIED (ckey c) said
  | None =>
      match first_says (allows m c) everyone with
      | Some said => decide_as ADMITTED (ckey c) said
      | None => {| verdict := NOT_GRANTED; key := ckey c; category := EmptyString; decided_by := "none" |}
      end
  end.

(** [never_by_key] *)
Definition never_by_key (d : FunctionDecision) : FunctionDecision :=
  if FunctionNeverCallable (fname (key d)) (database (key d)) then
    {| verdict := NEVER; key := key d; category := category d; decided_by := "never" |}
  else d.

(** The candidate a qualified name reaches.  [catalog] is empty for [schema.name]: a system member of
    the schema first, then the first of any catalog *)
Definition qualified_step (catalog schema_p : string) (found : option Candidate) (c : Candidate)
    : option Candidate :=
  if negb (CIEquals (schema (ckey c)) schema_p) then found
  else if negb (is_empty catalog) && negb (CIEquals (database (ckey c)) catalog) then found
  else
    let in_system := CIEquals (database (ckey c)) "system" in
    match found with
    | Some _ =>
        if is_empty catalog && negb in_system then found
        else if is_empty catalog && in_system then Some c else found
    | None => Some c
    end.

Definition find_qualified (catalog schema_p : string) (candidates : list Candidate) : option Candidate :=
  match fold_left (qualified_step catalog schema_p) candidates None with
  | Some found => Some found
  | None =>
      if is_empty catalog then
        List.find (λ c, CIEquals (database (ckey c)) schema_p && CIEquals (schema (ckey c)) "main") candidates
      else None
  end.

(** The best-ranked candidate of a bare name, and whether two of rank 3 tie *)
Definition bare_step (best : option Candidate * nat * bool) (c : Candidate)
    : option Candidate * nat * bool :=
  let '(b, best_rank, tie) := best in
  let rank := SchemaRank (ckey c) in
  if (rank <? best_rank)%nat then (Some c, rank, false)
  else if (rank =? best_rank)%nat && (rank =? 3)%nat then (b, best_rank, true)
  else best.
End model.

(** duckdb's [QualifiedName], as the code asks of one *)
Class QualifiedNames (Q : Type) := {
  path_size : Q → nat;
  Catalog : Q → string;
  Schema : Q → string;
  Name : Q → string;
  (** [QualifiedName(Identifier(name))] *)
  of_name : string → Q;
}.
Class QualifiedNameLaws (Q : Type) `{QualifiedNames Q} : Prop := {
  of_name_size : ∀ n, path_size (of_name n) = 1;
  of_name_name : ∀ n, Name (of_name n) = n;
}.

Section resolve.
Context `{SU : StringUtil} {Q : Type} `{QN : QualifiedNames Q}.

Definition Resolve (m : FunctionCategoryModel) (roles : list string) (written : Q) (kd : FunctionKind)
    : FunctionDecision :=
  let name := Lower (Name written) in
  let out v db sch := {| verdict := v; key := {| database := db; schema := sch; fname := name; kind := kd |};
                         category := EmptyString; decided_by := "none" |} in
  if FunctionNeverCallable name EmptyString && negb (FunctionNeverOnlyInSystem name) then
    {| verdict := NEVER; key := {| database := "system"; schema := "main"; fname := name; kind := kd |};
       category := EmptyString; decided_by := "never" |}
  else
    let candidates := ci_at [] name (ByKind m kd) in
    if (1 <? path_size written)%nat then
      match find_qualified (Catalog written) (Schema written) candidates with
      | None => out UNKNOWN_QUALIFIED (Catalog written) (Schema written)
      | Some found => never_by_key (Judge m roles found)
      end
    else
      match candidates with
      | [] => never_by_key (out UNCATEGORIZED "system" "main")
      | _ =>
          let '(best, _, tie) := fold_left bare_step candidates (None, 4%nat, false) in
          if tie then out AMBIGUOUS "system" "main"
          else match best with
               | Some best => never_by_key (Judge m roles best)
               | None => out UNCATEGORIZED "system" "main"
               end
      end.

(** [AdmittedKeys] *)
Definition admits_listed (m : FunctionCategoryModel) (roles : list string) (kd : FunctionKind)
    (c : Candidate) : bool :=
  let k := ckey c in
  if (FunctionNeverCallable (fname k) EmptyString && negb (FunctionNeverOnlyInSystem (fname k)))
     || FunctionNeverCallable (fname k) (database k) then false
  else if negb (bool_decide (verdict (Judge m roles c) = ADMITTED)) then false
  else if negb (CIEquals (database k) "system") then
    let bare := Resolve m roles (of_name (fname k)) kd in
    bool_decide (verdict bare = ADMITTED) && bool_decide (key bare = k)
  else true.

Definition AdmittedKeys (m : FunctionCategoryModel) (roles : list string) : list FunctionKey :=
  concat (map (λ kd, concat (map (λ entry : string * list Candidate,
    map ckey (List.filter (admits_listed m roles kd) entry.2)) (ByKind m kd))) [SCALAR; TABLE]).
End resolve.

(** ** Listings

    [StringUtil::Split] is a parameter; [std::sort] is an insertion sort by the same comparison. *)

Section listings.
Context `{SU : StringUtil}.
Variable Split : string → string → list string.

Fixpoint insert_by {A} (lt : A → A → bool) (x : A) (l : list A) : list A :=
  match l with
  | [] => [x]
  | y :: l => if lt x y then x :: y :: l else y :: insert_by lt x l
  end.
Fixpoint sort_by {A} (lt : A → A → bool) (l : list A) : list A :=
  match l with [] => [] | x :: l => insert_by lt x (sort_by lt l) end.

Definition CategoriesOf (m : FunctionCategoryModel) (key_p : FunctionKey) : list string :=
  match FindCandidate m (lowered key_p) with Some c => ccategories c | None => [] end.

Definition Categories (m : FunctionCategoryModel) : list CategoryRow :=
  sort_by (λ a b, String.ltb (row_name a) (row_name b)) (map snd (categories m)).

Definition member_before (a b : string * FunctionKey) : bool :=
  if negb (String.eqb a.1 b.1) then String.ltb a.1 b.1
  else String.ltb (Serialize a.2) (Serialize b.2).

(** The pairs [Members] collects *)
Definition member_rows (m : FunctionCategoryModel) : list (string * FunctionKey) :=
  concat (map (λ entry : string * list Candidate,
    concat (map (λ c, map (λ cat, (cat, ckey c)) (ccategories c)) entry.2)) (scalars m ++ tables m)).
Definition Members (m : FunctionCategoryModel) : list (string * FunctionKey) :=
  sort_by member_before (member_rows m).

Definition MemberCount (m : FunctionCategoryModel) (cat : string) : nat :=
  length (List.filter (λ row : string * FunctionKey, CIEquals row.1 cat) (member_rows m)).

Record GrantRow := { role : string; gcategory : string; gkey : FunctionKey; allowed : bool }.
Definition IsCategory (g : GrantRow) : bool := negb (is_empty (gcategory g)).

Definition no_key : FunctionKey :=
  {| database := EmptyString; schema := EmptyString; fname := EmptyString; kind := SCALAR |}.

Definition key_of_parts (serialized : string) : option FunctionKey :=
  match Split serialized (str1 unit_sep) with
  | [db; sch; nm; kd] =>
      Some {| database := db; schema := sch; fname := nm; kind := default SCALAR (ParseFunctionKind kd) |}
  | _ => None
  end.

Definition grant_rows (entry : string * RoleRules) : list GrantRow :=
  let emit_categories cats allowed :=
    map (λ cat, {| role := entry.1; gcategory := cat; gkey := no_key; allowed := allowed |}) cats in
  let emit_keys keys allowed :=
    omap (λ s, (λ k, {| role := entry.1; gcategory := EmptyString; gkey := k; allowed := allowed |})
               <$> key_of_parts s) (elements (keys : gset string)) in
  emit_categories (categories_allowed entry.2) true ++ emit_categories (categories_denied entry.2) false
  ++ emit_keys (keys_allowed entry.2) true ++ emit_keys (keys_denied entry.2) false.

Definition grant_before (a b : GrantRow) : bool :=
  if negb (String.eqb (role a) (role b)) then String.ltb (role a) (role b)
  else if negb (String.eqb (gcategory a) (gcategory b)) then String.ltb (gcategory a) (gcategory b)
  else String.ltb (Serialize (gkey a)) (Serialize (gkey b)).

Definition Grants (m : FunctionCategoryModel) : list GrantRow :=
  sort_by grant_before (concat (map grant_rows (rules m))).

(** [Seed] over the shipped rows: a category's name, comment and whether it is granted to everyone;
    a member's category, database, schema, name and kind *)
Definition Seed (seed_categories : list (string * string * bool))
    (seed_members : list (string * (string * string * string * string))) : FunctionCategoryModel :=
  let m := fold_left (λ m '(nm, cm, auto),
             let m := AddCategory nm cm true m in
             if (auto : bool) then AddCategoryGrant EmptyString nm true m else m)
             seed_categories new_model in
  fold_left (λ m '(cat, (db, sch, nm, kd)),
    (AddMember cat {| database := db; schema := sch; fname := nm;
                      kind := default SCALAR (ParseFunctionKind kd) |} m).1) seed_members m.
End listings.

(** ** What a verdict means *)

Section verdicts.
Context `{SUL : StringUtilLaws}.

(** Some role's rows name the candidate, by key or by one of its categories *)
Definition says_for (keys : RoleRules → gset string) (cats : RoleRules → list string)
    (m : FunctionCategoryModel) (role : string) (c : Candidate) : Prop :=
  ∃ rule, ci_find role (rules m) = Some rule ∧
    (Serialize (ckey c) ∈ keys rule
     ∨ ∃ cat, cat ∈ ccategories c ∧ ci_mem cat (cats rule) = true).
Definition role_denies := says_for keys_denied categories_denied.
Definition role_allows := says_for keys_allowed categories_allowed.

(** The roles of a principal, and the role every principal has *)
Definition everyone (roles : list string) : list string := roles ++ [EmptyString].

Lemma rule_says_spec keys cats m c role :
  (∃ by_cat, rule_says keys cats m c role = Some by_cat) ↔ says_for keys cats m role c.
Proof.
  rw /rule_says /says_for. destruct (ci_find role (rules m)) as [rule|]; [|split; [by intros []|by intros (?&?&_)]].
  case_bool_decide as Hk; [split; [eexists|]; eauto|].
  destruct (List.find _ (ccategories c)) as [cat|] eqn:Hf; simpl.
  - apply find_some in Hf as [Hin Hc]. rw -list_elem_of_In in Hin. split; eauto 10.
  - split; [by intros []|]. intros (r & [= <-] & [?|(cat & Hin & Hc)]); [done|].
    rw list_elem_of_In in Hin. by rw (find_none _ _ Hf cat Hin) in Hc.
Qed.

Lemma first_says_spec says roles :
  (∃ said, first_says says roles = Some said) ↔ ∃ role by_cat, role ∈ roles ∧ says role = Some by_cat.
Proof.
  induction roles as [|r roles IH]; simpl.
  - split; [by intros []|by intros (? & ? & ?%elem_of_nil & _)].
  - destruct (says r) as [b|] eqn:Hr.
    + split; [|by eauto]. intros _. exists r, b. split; [left|done].
    + rw IH. split; intros (x & b & Hin & Hx); exists x, b; (split; [|done]).
      * by right.
      * apply elem_of_cons in Hin as [->|?]; [congruence|done].
Qed.

Lemma says_someone keys cats m c roles :
  (∃ said, first_says (rule_says keys cats m c) (everyone roles) = Some said) ↔
  ∃ role, role ∈ everyone roles ∧ says_for keys cats m role c.
Proof.
  rw first_says_spec. split.
  - intros (r & b & Hr & Hs). exists r. split; [done|]. apply rule_says_spec. eauto.
  - intros (r & Hr & [b Hs]%rule_says_spec). eauto.
Qed.

Lemma Judge_denied m roles c :
  verdict (Judge m roles c) = DENIED ↔ ∃ role, role ∈ everyone roles ∧ role_denies m role c.
Proof.
  rw -says_someone /Judge -/(everyone roles) /denies /allows.
  destruct (first_says (rule_says keys_denied _ _ _) _); simpl; [split; eauto|].
  destruct (first_says _ _); simpl; split; try done; by intros [].
Qed.

Lemma Judge_admitted m roles c :
  verdict (Judge m roles c) = ADMITTED ↔
  (¬ ∃ role, role ∈ everyone roles ∧ role_denies m role c) ∧
  ∃ role, role ∈ everyone roles ∧ role_allows m role c.
Proof.
  rw -!says_someone /Judge -/(everyone roles) /denies /allows.
  destruct (first_says (rule_says keys_denied _ _ _) _) as [d|]; simpl.
  - split; [done|]. intros [Hn _]. exfalso. eauto.
  - destruct (first_says _ _) as [a|]; simpl.
    + split; [|done]. intros _. split; [by intros []|eauto].
    + split; [done|]. by intros [_ []].
Qed.

Lemma Judge_cases m roles c :
  verdict (Judge m roles c) ∈ [ADMITTED; DENIED; NOT_GRANTED] ∧ key (Judge m roles c) = ckey c.
Proof.
  rw /Judge. destruct (first_says (denies m c) _) as [d|]; [|destruct (first_says (allows m c) _)];
    (split; [simpl; set_solver|done]).
Qed.
End verdicts.

Section resolve_laws.
Context `{SUL : StringUtilLaws} {Q : Type} `{QNL : QualifiedNameLaws Q}.

Lemma never_by_key_admitted d :
  verdict (never_by_key d) = ADMITTED ↔
  verdict d = ADMITTED ∧ FunctionNeverCallable (fname (key d)) (database (key d)) = false.
Proof. rw /never_by_key. destruct (FunctionNeverCallable _ _); simpl; split; naive_solver. Qed.

Lemma never_by_key_key d : key (never_by_key d) = key d.
Proof. rw /never_by_key. by destruct (FunctionNeverCallable _ _). Qed.

(** The place a qualified name means: the schema it names and, when it names one, the catalog *)
Definition named_place (catalog schema_p : string) (c : Candidate) : bool :=
  CIEquals (schema (ckey c)) schema_p && (is_empty catalog || CIEquals (database (ckey c)) catalog).

Lemma qualified_fold catalog sch cs found :
  match fold_left (qualified_step catalog sch) cs found with
  | Some c => found = Some c ∨ (c ∈ cs ∧ named_place catalog sch c = true)
  | None => found = None
  end.
Proof.
  revert found. induction cs as [|c cs IH]; intros found; [by destruct found; [left|]|].
  cbn [fold_left]. specialize (IH (qualified_step catalog sch found c)).
  destruct (fold_left _ cs _) as [d|].
  - destruct IH as [Hd|[Hin Hd]]; [|right; split; [by right|done]].
    move: Hd. rw /qualified_step /named_place.
    destruct (CIEquals (schema (ckey c)) sch) eqn:Hs; simpl; [|by left].
    destruct (is_empty catalog) eqn:Hc, (CIEquals (database (ckey c)) catalog) eqn:Hdb, found as [f|];
      simpl; try (by left); try (intros [= <-]; right; split; [left|by rw ?Hs ?Hc ?Hdb]);
      destruct (CIEquals (database (ckey c)) "system"); simpl; try (by left);
      intros [= <-]; right; split; try left; by rw ?Hs ?Hc ?Hdb.
  - move: IH. rw /qualified_step. repeat case_match; try done.
Qed.

Lemma find_qualified_in catalog sch cs c :
  find_qualified catalog sch cs = Some c →
  c ∈ cs ∧ (named_place catalog sch c = true
            ∨ (is_empty catalog = true ∧ CIEquals (database (ckey c)) sch = true
               ∧ CIEquals (schema (ckey c)) "main" = true)).
Proof.
  rw /find_qualified. pose proof (qualified_fold catalog sch cs None) as Hf.
  destruct (fold_left _ cs None) as [d|].
  - intros [= <-]. destruct Hf as [?|[? ?]]; [done|]. auto.
  - destruct (is_empty catalog); [|done]. intros [Hin Hc]%find_some. rw -list_elem_of_In in Hin.
    apply andb_prop in Hc. auto.
Qed.

(** With the catalog named, the first candidate of the place *)
Lemma find_qualified_full catalog sch cs :
  is_empty catalog = false →
  find_qualified catalog sch cs = List.find (named_place catalog sch) cs.
Proof.
  intros Hc. rw /find_qualified Hc.
  assert (Hstep : ∀ found c, qualified_step catalog sch found c =
            match found with
            | Some _ => found
            | None => if named_place catalog sch c then Some c else None
            end).
  { intros found c. rw /qualified_step /named_place Hc.
    destruct found, (CIEquals _ sch), (CIEquals (database (ckey c)) catalog); done. }
  assert (Hkeep : ∀ l c, fold_left (qualified_step catalog sch) l (Some c) = Some c).
  { induction l as [|x l IH]; intros c; [done|]. cbn [fold_left]. rw Hstep. apply IH. }
  replace (fold_left (qualified_step catalog sch) cs None) with (List.find (named_place catalog sch) cs).
  { by destruct (List.find _ cs). }
  induction cs as [|x cs IH]; [done|]. cbn [fold_left List.find]. rw Hstep.
  destruct (named_place catalog sch x); [by rw Hkeep|done].
Qed.

(** The bare name's scan: the best rank so far, and whether rank 3 was met twice *)
Lemma bare_fold cs best rank tie :
  let '(b, _, _) := fold_left bare_step cs (best, rank, tie) in
  b = best ∨ ∃ c, b = Some c ∧ c ∈ cs.
Proof.
  revert best rank tie. induction cs as [|c cs IH]; intros best rank tie; [by left|].
  cbn [fold_left bare_step].
  destruct (SchemaRank (ckey c) <? rank)%nat; [|destruct (_ && _)].
  - specialize (IH (Some c) (SchemaRank (ckey c)) false).
    destruct (fold_left _ cs _) as [[b r] t]. right. destruct IH as [->|(d & -> & Hd)].
    + exists c. split; [done|left].
    + exists d. split; [done|by right].
  - specialize (IH best rank true). destruct (fold_left _ cs _) as [[b r] t].
    destruct IH as [->|(d & -> & Hd)]; [by left|]. right. exists d. split; [done|by right].
  - specialize (IH best rank tie). destruct (fold_left _ cs _) as [[b r] t].
    destruct IH as [->|(d & -> & Hd)]; [by left|]. right. exists d. split; [done|by right].
Qed.

Lemma Resolve_admitted m roles (written : Q) kd :
  verdict (Resolve m roles written kd) = ADMITTED →
  ∃ cs c, ci_find (Lower (Name written)) (ByKind m kd) = Some cs ∧ c ∈ cs ∧
    key (Resolve m roles written kd) = ckey c ∧ verdict (Judge m roles c) = ADMITTED ∧
    FunctionNeverCallable (fname (ckey c)) (database (ckey c)) = false ∧
    FunctionNeverCallable (Lower (Name written)) EmptyString
      && negb (FunctionNeverOnlyInSystem (Lower (Name written))) = false ∧
    ((1 <? path_size written)%nat = true → is_empty (Catalog written) = false →
     CIEquals (database (ckey c)) (Catalog written) = true).
Proof.
  rw /Resolve. destruct (_ && negb (FunctionNeverOnlyInSystem _)); [done|]. rw /ci_at.
  destruct (ci_find (Lower (Name written)) (ByKind m kd)) as [cs|] eqn:Hcs; simpl.
  - destruct (1 <? path_size written)%nat.
    + destruct (find_qualified _ _ cs) as [c|] eqn:Hf; [|done].
      intros [Hv Hn]%never_by_key_admitted. rw never_by_key_key.
      pose proof (proj2 (Judge_cases m roles c)) as Hk. rw Hk in Hn |- *.
      apply find_qualified_in in Hf as [Hin Hp]. exists cs, c. repeat split; try done.
      intros _ Hc. destruct Hp as [Hp|[Hc' _]]; [|congruence].
      rw /named_place Hc in Hp. by apply andb_prop in Hp as [_ ?].
    + destruct cs as [|c0 cs]; [by intros [? ?]%never_by_key_admitted|].
      pose proof (bare_fold (c0 :: cs) None 4 false) as Hb.
      destruct (fold_left bare_step (c0 :: cs) _) as [[b r] t]. destruct t; [done|].
      destruct b as [c|]; [|done]. intros [Hv Hn]%never_by_key_admitted. rw never_by_key_key.
      pose proof (proj2 (Judge_cases m roles c)) as Hk. rw Hk in Hn |- *.
      destruct Hb as [?|(d & [= <-] & Hin)]; [done|]. by exists (c0 :: cs), c.
  - destruct (1 <? path_size written)%nat; [|by intros [? ?]%never_by_key_admitted].
    rw /find_qualified /=. by destruct (is_empty _).
Qed.
End resolve_laws.

(** ** Well-formed models *)

Section wf.
Context `{SUL : StringUtilLaws}.

Definition place (c : Candidate) : string * string :=
  (Lower (database (ckey c)), Lower (schema (ckey c))).

(** A candidate stored under the name and kind it is found by; its categories exist, each once *)
Definition cand_ok (cats : list (string * CategoryRow)) (kd : FunctionKind) (nm : string)
    (c : Candidate) : Prop :=
  fname (ckey c) = nm ∧ kind (ckey c) = kd ∧ NoDup (map Lower (ccategories c))
  ∧ ∀ cat, cat ∈ ccategories c → ci_find cat cats ≠ None.

Definition list_ok cats kd nm (cs : list Candidate) : Prop :=
  Forall (cand_ok cats kd nm) cs ∧ NoDup (map place cs).

Definition entry_ok cats kd (e : string * list Candidate) : Prop :=
  Lower e.1 = e.1 ∧ e.2 ≠ [] ∧ list_ok cats kd e.1 e.2.

Definition map_ok cats kd (l : list (string * list Candidate)) : Prop :=
  Forall (entry_ok cats kd) l ∧ NoDup (map fst l).

Definition model_ok (m : FunctionCategoryModel) : Prop :=
  ∀ kd, map_ok (categories m) kd (ByKind m kd).

Lemma ci_find_exact {V} k (l : list (string * V)) v :
  Forall (λ e, Lower e.1 = e.1) l → Lower k = k → ci_find k l = Some v → (k, v) ∈ l.
Proof.
  intros Hl Hk. induction Hl as [|[k' v'] l Hk' Hl IH]; [done|]. simpl.
  destruct (CIEquals k' k) eqn:He.
  - intros [= ->]. apply CIEquals_true in He. simpl in Hk'.
      replace k' with k by congruence. left.
  - intros Hf. right. auto.
Qed.

Lemma ci_find_at {V} k v (l : list (string * V)) :
  Forall (λ e, Lower e.1 = e.1) l → NoDup (map fst l) → (k, v) ∈ l → ci_find k l = Some v.
Proof.
  intros Hl. induction Hl as [|[k' v'] l Hk' Hl IH]; [by intros _ ?%elem_of_nil|].
  intros [Hnin Hnd]%NoDup_cons [[= <- <-]|Hin]%elem_of_cons; simpl.
  - by rw CIEquals_refl.
  - destruct (CIEquals k' k) eqn:He; [|auto]. exfalso. apply Hnin. simpl in *.
    apply CIEquals_true in He. rw Forall_forall in Hl.
    pose proof (Hl _ Hin) as Hk. simpl in Hk.
    replace k' with k by congruence. by apply (list_elem_of_fmap_2 fst _ (k, v)).
Qed.

Lemma entries_lowered cats kd l : Forall (entry_ok cats kd) l → Forall (λ e, Lower e.1 = e.1) l.
Proof. intros Hl. eapply Forall_impl; [exact Hl|]. by intros e [? _]. Qed.

Lemma ci_set_fst {V} k v (l : list (string * V)) :
  map fst (ci_set k v l) = if ci_find k l then map fst l else map fst l ++ [k].
Proof.
  induction l as [|[k' v'] l IH]; [done|]. simpl. destruct (CIEquals k' k); [done|].
  simpl. rw IH. by destruct (ci_find k l).
Qed.

Lemma ci_set_ok cats kd k v l :
  map_ok cats kd l → Lower k = k → v ≠ [] → list_ok cats kd k v → map_ok cats kd (ci_set k v l).
Proof.
  intros [Hl Hnd] Hk Hne Hv. split.
  - clear Hnd. induction Hl as [|[k' v'] l He Hl IH]; simpl.
    + apply Forall_singleton. by split.
    + destruct (CIEquals k' k) eqn:Hkk; [|by constructor]. constructor; [|done].
      destruct He as (Hk' & _ & _). simpl in *. apply CIEquals_true in Hkk.
      replace k' with k by congruence. by split.
  - rw ci_set_fst. destruct (ci_find k l) eqn:Hf; [done|]. apply NoDup_app. split; [done|].
    split; [|apply NoDup_singleton]. intros x Hx ->%list_elem_of_singleton.
    apply list_elem_of_fmap in Hx as ([k' v'] & Hkk & Hin). simpl in Hkk. subst k'.
    rw (ci_find_at k v') // in Hf. by eapply entries_lowered.
Qed.

Lemma filter_NoDup_map {A B} (g : A → B) f (l : list A) : NoDup (map g l) → NoDup (map g (List.filter f l)).
Proof.
  induction l as [|x l IH]; [done|]. cbn [map]. intros [Hnin Hnd]%NoDup_cons. simpl.
  destruct (f x); [|by apply IH]. cbn [map]. apply NoDup_cons. split; [|by apply IH].
  intros Hin. apply Hnin. apply list_elem_of_fmap in Hin as (y & -> & Hy).
  apply list_elem_of_In, filter_In in Hy as [Hy _]. rw -list_elem_of_In in Hy.
  by apply list_elem_of_fmap_2.
Qed.

Lemma filter_Forall {A} (P : A → Prop) f l : Forall P l → Forall P (List.filter f l).
Proof. induction 1; simpl; [constructor|]. by case_match; [constructor|]. Qed.

Lemma ci_erase_ok cats kd k l : map_ok cats kd l → map_ok cats kd (ci_erase k l).
Proof. intros [? ?]. split; [by apply filter_Forall|by apply filter_NoDup_map]. Qed.

Lemma list_ok_filter cats kd nm f cs : list_ok cats kd nm cs → list_ok cats kd nm (List.filter f cs).
Proof. intros [? ?]. split; [by apply filter_Forall|by apply filter_NoDup_map]. Qed.

Lemma list_at cats kd k l :
  map_ok cats kd l → Lower k = k → list_ok cats kd k (ci_at [] k l).
Proof.
  intros [Hl Hnd] Hk. rw /ci_at. destruct (ci_find k l) as [v|] eqn:Hf; simpl; [|split; constructor].
  apply ci_find_exact in Hf; [|by eapply entries_lowered|done]. rw Forall_forall in Hl.
  by destruct (Hl _ Hf) as (_ & _ & ?).
Qed.

Lemma ByKind_with kd kd' e m :
  ByKind (with_kind kd e m) kd' = if decide (kd = kd') then e else ByKind m kd'.
Proof. by destruct kd, kd'. Qed.

Lemma categories_with kd e m : categories (with_kind kd e m) = categories m.
Proof. by destruct kd. Qed.

(** Changing one kind's map to a well-formed one *)
Lemma with_kind_ok kd e m :
  model_ok m → map_ok (categories m) kd e → model_ok (with_kind kd e m).
Proof.
  intros Hm He kd'. rw categories_with ByKind_with. destruct (decide (kd = kd')) as [<-|]; [done|apply Hm].
Qed.

Lemma on_name_ok k f m :
  model_ok m → Lower (fname k) = fname k →
  (list_ok (categories m) (kind k) (fname k) (ci_at [] (fname k) (ByKind m (kind k))) →
   f (ci_at [] (fname k) (ByKind m (kind k))) ≠ [] ∧
   list_ok (categories m) (kind k) (fname k) (f (ci_at [] (fname k) (ByKind m (kind k))))) →
  model_ok (on_name k f m).
Proof.
  intros Hm Hk Hf. destruct Hf as [Hne Hok]; [by apply list_at|].
  apply with_kind_ok; [done|]. by apply ci_set_ok.
Qed.
End wf.

Section preserved.
Context `{SUL : StringUtilLaws}.

Lemma lowered_name k : Lower (fname (lowered k)) = fname (lowered k).
Proof. apply Lower_idemp. Qed.

Lemma model_ok_rules r m : model_ok m → model_ok (with_rules r m).
Proof. intros Hm kd. by destruct kd; [apply (Hm SCALAR)|apply (Hm TABLE)]. Qed.

Lemma map_ok_mono cats cats' kd l :
  (∀ c, ci_find c cats ≠ None → ci_find c cats' ≠ None) → map_ok cats kd l → map_ok cats' kd l.
Proof.
  intros Hc [Hl Hnd]. split; [|done]. eapply Forall_impl; [exact Hl|].
  intros e (? & ? & Hcs & ?). split; [done|]. split; [done|]. split; [|done].
  eapply Forall_impl; [exact Hcs|]. intros c (? & ? & ? & ?). rw /cand_ok. auto 10.
Qed.

Lemma AddCategory_ok nm cm b m : model_ok m → model_ok (AddCategory nm cm b m).
Proof.
  intros Hm kd. eapply map_ok_mono; [|by destruct kd; [apply (Hm SCALAR)|apply (Hm TABLE)]].
  intros c Hc. simpl. rw ci_find_set. by destruct (CIEquals nm c).
Qed.

Lemma HasCategory_AddCategory nm cm b m : HasCategory (AddCategory nm cm b m) nm = true.
Proof. by rw /HasCategory /= ci_find_set CIEquals_refl. Qed.

Lemma same_place_spec k c : same_place k c = true ↔ place c = (Lower (database k), Lower (schema k)).
Proof.
  rw /same_place /place andb_true_iff !CIEquals_true. split; [by intros [-> ->]|by intros [= -> ->]].
Qed.

Lemma update_candidate_ok cats kd nm k f cs c :
  list_ok cats kd nm cs → List.find (same_place k) cs = Some c →
  (cand_ok cats kd nm c → cand_ok cats kd nm (f c)) → place (f c) = place c →
  list_ok cats kd nm (update_candidate k f cs).
Proof.
  intros [Hcs Hnd] Hfind Hf Hp.
  assert (Hplaces : map place (update_candidate k f cs) = map place cs).
  { clear Hcs Hnd. induction cs as [|x cs IH]; [done|]. simpl in Hfind |- *.
    destruct (same_place k x); [injection Hfind as ->; by rw /= Hp|]. by rw /= IH. }
  split; [|by rw Hplaces]. clear Hnd Hplaces.
  induction Hcs as [|x cs Hx Hcs IH]; [done|]. simpl in Hfind |- *.
  destruct (same_place k x); [injection Hfind as ->|]; constructor; auto.
Qed.

Lemma update_candidate_nonempty k f cs : cs ≠ [] → update_candidate k f cs ≠ [].
Proof. destruct cs as [|c cs]; [done|]. simpl. by destruct (same_place k c). Qed.

Lemma FindCandidate_some m k c :
  FindCandidate m k = Some c →
  ci_at [] (fname k) (ByKind m (kind k)) ≠ [] ∧
  List.find (same_place k) (ci_at [] (fname k) (ByKind m (kind k))) = Some c.
Proof.
  rw /FindCandidate /ci_at. destruct (ci_find _ _) as [cs|]; [|done]. simpl. intros Hf.
  split; [by destruct cs|done].
Qed.

Lemma FindCandidate_none m k :
  FindCandidate m k = None → List.find (same_place k) (ci_at [] (fname k) (ByKind m (kind k))) = None.
Proof. rw /FindCandidate /ci_at. by destruct (ci_find _ _). Qed.

(** A new candidate of the key *)
Lemma push_candidate_ok m k cats :
  model_ok m → FindCandidate m (lowered k) = None → NoDup (map Lower cats) →
  (∀ c, c ∈ cats → ci_find c (categories m) ≠ None) →
  model_ok (on_name (lowered k) (λ l, l ++ [{| ckey := lowered k; ccategories := cats |}]) m).
Proof.
  intros Hm Hnone%FindCandidate_none Hnd Hcats. apply on_name_ok; [done|apply lowered_name|].
  intros [Hcs Hp]. split; [by intros []%app_eq_nil|]. split.
  - apply Forall_app. split; [done|]. apply Forall_singleton. by split.
  - rw map_app. apply NoDup_app. split; [done|]. split; [|apply NoDup_singleton].
    intros x Hx ->%list_elem_of_singleton. apply list_elem_of_fmap in Hx as (c & Hc & Hin).
    rw list_elem_of_In in Hin. pose proof (find_none _ _ Hnone c Hin) as Hs.
    apply not_true_iff_false in Hs. apply Hs, same_place_spec. by rw -Hc.
Qed.

Lemma ci_mem_lower cat cats : ci_mem cat cats = true ↔ Lower cat ∈ map Lower cats.
Proof.
  rw /ci_mem existsb_exists list_elem_of_fmap. split.
  - intros (x & Hx & He%CIEquals_true). exists x. by rw list_elem_of_In.
  - intros (x & He & Hx). exists x. rw -list_elem_of_In. split; [done|]. by apply CIEquals_true.
Qed.

Lemma AddMember_ok cat k m : model_ok m → model_ok (AddMember cat k m).1.
Proof.
  intros Hm. rw /AddMember. set m' := if HasCategory m cat then m else _.
  assert (Hm' : model_ok m') by (rw /m'; destruct (HasCategory m cat); [done|by apply AddCategory_ok]).
  assert (Hcat : ci_find cat (categories m') ≠ None).
  { assert (HasCategory m' cat = true) as Hh.
    { rw /m'. destruct (HasCategory m cat) eqn:Hh; [done|]. apply HasCategory_AddCategory. }
    rw /HasCategory in Hh. by destruct (ci_find cat (categories m')). }
  clearbody m'. destruct (FindCandidate m' (lowered k)) as [c|] eqn:Hf.
  - destruct (ci_mem cat (ccategories c)) eqn:Hmem; [done|]. simpl.
    apply FindCandidate_some in Hf as [Hne Hf]. apply on_name_ok; [done|apply lowered_name|].
    intros Hok. split; [by apply update_candidate_nonempty|].
    eapply update_candidate_ok; [done|done| |done]. intros (? & ? & Hnd & Hk). simpl.
    split; [done|]. split; [done|]. simpl. split.
    + rw map_app. apply NoDup_app. split; [done|]. split; [|apply NoDup_singleton].
      intros x Hx ->%list_elem_of_singleton. apply ci_mem_lower in Hx. congruence.
    + intros x [Hx| ->%list_elem_of_singleton]%elem_of_app; auto.
  - simpl. apply push_candidate_ok; [done|done|apply NoDup_singleton|].
    by intros c ->%list_elem_of_singleton.
Qed.

Lemma drop_category_ok cats cats' kd nm name c :
  (∀ x, ci_find x cats ≠ None → CIEquals name x = false → ci_find x cats' ≠ None) →
  cand_ok cats kd nm c → cand_ok cats' kd nm (drop_category name c).
Proof.
  intros Hc (? & ? & Hnd & Hk). split; [done|]. split; [done|]. simpl. split.
  - by apply filter_NoDup_map.
  - intros x [Hx Hn]%list_elem_of_In%filter_In. rw -list_elem_of_In in Hx.
    apply negb_true_iff in Hn. rw CIEquals_sym in Hn. auto.
Qed.

Lemma PruneCandidate_ok k m : model_ok m → Lower (fname k) = fname k → model_ok (PruneCandidate k m).
Proof.
  intros Hm Hk. rw /PruneCandidate. destruct (ci_find (fname k) _) as [cs|] eqn:Hf; [|done].
  set f := λ c : Candidate, negb _.
  pose proof (list_at (categories m) (kind k) (fname k) _ (Hm (kind k)) Hk) as Hl.
  rw /ci_at Hf /= in Hl. apply with_kind_ok; [done|].
  apply (list_ok_filter _ _ _ f) in Hl. destruct (List.filter f cs) as [|c' cs'].
  - apply ci_erase_ok, Hm.
  - by apply ci_set_ok; [apply Hm|..].
Qed.

Lemma RemoveMember_ok cat k m : model_ok m → model_ok (RemoveMember cat k m).1.
Proof.
  intros Hm. rw /RemoveMember. destruct (FindCandidate m (lowered k)) as [c|] eqn:Hf; [|done].
  destruct (_ =? _)%nat; [done|]. simpl.
  assert (Hup : model_ok (on_name (lowered k) (update_candidate (lowered k) (drop_category cat)) m)).
  { apply FindCandidate_some in Hf as [Hne Hf]. apply on_name_ok; [done|apply lowered_name|].
    intros Hok. split; [by apply update_candidate_nonempty|].
    eapply update_candidate_ok; [done|done| |done]. by apply drop_category_ok. }
  destruct (ci_remove _ _); [|done]. apply PruneCandidate_ok; [done|apply lowered_name].
Qed.

Lemma AddNameGrant_ok role k a m : model_ok m → model_ok (AddNameGrant role k a m).
Proof.
  intros Hm. rw /AddNameGrant. apply model_ok_rules.
  destruct (FindCandidate m (lowered k)) eqn:Hf; [done|].
  apply push_candidate_ok; [done|done|constructor|]. by intros c ?%elem_of_nil.
Qed.

Lemma RemoveNameGrant_ok role k m : model_ok m → model_ok (RemoveNameGrant role k m).1.
Proof.
  intros Hm. rw /RemoveNameGrant. destruct (ci_find role (rules m)); [|done]. simpl.
  apply PruneCandidate_ok; [by apply model_ok_rules|apply lowered_name].
Qed.

Lemma strip_category_ok m name kd l :
  map_ok (categories m) kd l → map_ok (ci_erase name (categories m)) kd (strip_category m name l).
Proof.
  intros [Hl Hnd]. rw /strip_category. split.
  - apply Forall_forall. intros e [He Hne]%list_elem_of_In%filter_In.
    rw -list_elem_of_In in He. apply list_elem_of_fmap in He as ([nm cs] & -> & Hin).
    rw Forall_forall in Hl. destruct (Hl _ Hin) as (Hnm & _ & [Hcs Hp]). simpl in *.
    split; [done|]. split; [by destruct (List.filter _ _)|]. apply list_ok_filter. split.
    + apply Forall_map. eapply Forall_impl; [exact Hcs|]. intros c. apply drop_category_ok.
      intros x Hx Hn. by rw ci_find_erase Hn.
    + by rw map_map.
  - apply filter_NoDup_map. by rw map_map.
Qed.

Lemma RemoveCategory_ok name m : model_ok m → model_ok (RemoveCategory name m).1.
Proof.
  intros Hm. rw /RemoveCategory. destruct (HasCategory m name); [|done]. simpl.
  intros kd. by destruct kd; apply strip_category_ok; [apply (Hm SCALAR)|apply (Hm TABLE)].
Qed.

(** Every way a model is changed *)
Inductive change :=
  | Add_category (name comment : string) (builtin : bool)
  | Remove_category (name : string)
  | Add_member (cat : string) (k : FunctionKey)
  | Remove_member (cat : string) (k : FunctionKey)
  | Add_category_grant (role cat : string) (allowed : bool)
  | Add_name_grant (role : string) (k : FunctionKey) (allowed : bool)
  | Remove_category_grant (role cat : string)
  | Remove_name_grant (role : string) (k : FunctionKey).

Definition apply_change (m : FunctionCategoryModel) (ch : change) : FunctionCategoryModel :=
  match ch with
  | Add_category name comment builtin => AddCategory name comment builtin m
  | Remove_category name => (RemoveCategory name m).1
  | Add_member cat k => (AddMember cat k m).1
  | Remove_member cat k => (RemoveMember cat k m).1
  | Add_category_grant role cat allowed => AddCategoryGrant role cat allowed m
  | Add_name_grant role k allowed => AddNameGrant role k allowed m
  | Remove_category_grant role cat => (RemoveCategoryGrant role cat m).1
  | Remove_name_grant role k => (RemoveNameGrant role k m).1
  end.
Definition built (changes : list change) : FunctionCategoryModel := fold_left apply_change changes new_model.

Lemma apply_change_ok m ch : model_ok m → model_ok (apply_change m ch).
Proof.
  intros Hm. destruct ch; simpl.
  - by apply AddCategory_ok.
  - by apply RemoveCategory_ok.
  - by apply AddMember_ok.
  - by apply RemoveMember_ok.
  - by apply model_ok_rules.
  - by apply AddNameGrant_ok.
  - rw /RemoveCategoryGrant. destruct (ci_find role0 (rules m)); [by apply model_ok_rules|done].
  - by apply RemoveNameGrant_ok.
Qed.

Lemma built_ok changes : model_ok (built changes).
Proof.
  assert (Hnew : model_ok new_model) by (intros []; split; constructor).
  revert Hnew. rw /built. generalize new_model. induction changes as [|ch changes IH]; intros m Hm; [done|].
  simpl. by apply IH, apply_change_ok.
Qed.
End preserved.

(** ** The listing and the gate *)

Section listing_laws.
Context `{SUL : StringUtilLaws} {Q : Type} `{QNL : QualifiedNameLaws Q}.

Lemma AdmittedKeys_in m roles k :
  k ∈ AdmittedKeys (Q:=Q) m roles ↔
  ∃ kd nm cs c, (nm, cs) ∈ ByKind m kd ∧ c ∈ cs ∧ admits_listed (Q:=Q) m roles kd c = true ∧ k = ckey c.
Proof.
  rw /AdmittedKeys list_elem_of_In in_concat. split.
  - intros (l & Hl & Hk). apply in_map_iff in Hl as (kd & <- & _).
    apply in_concat in Hk as (l & Hl & Hk). apply in_map_iff in Hl as ([nm cs] & <- & He).
    apply in_map_iff in Hk as (c & <- & Hc). apply filter_In in Hc as [Hc Ha].
    exists kd, nm, cs, c. by rw !list_elem_of_In.
  - intros (kd & nm & cs & c & He & Hc & Ha & ->).
    eexists. split; [apply in_map_iff; exists kd; split; [done|destruct kd; simpl; auto]|].
    apply in_concat. eexists. split.
    + apply in_map_iff. exists (nm, cs). split; [done|]. by apply list_elem_of_In.
    + apply in_map, filter_In. by rw -list_elem_of_In.
Qed.

Lemma entry_found m kd nm cs :
  model_ok m → (nm, cs) ∈ ByKind m kd → ci_find nm (ByKind m kd) = Some cs ∧ list_ok (categories m) kd nm cs.
Proof.
  intros Hm Hin. destruct (Hm kd) as [Hl Hnd]. split.
  - apply ci_find_at; [by eapply entries_lowered|done|done].
  - rw Forall_forall in Hl. by destruct (Hl _ Hin) as (_ & _ & ?).
Qed.

(** A candidate is the first of its place *)
Lemma find_place cs c :
  NoDup (map place cs) → c ∈ cs →
  ∀ catalog sch, is_empty catalog = false → CIEquals catalog (database (ckey c)) = true →
    CIEquals sch (schema (ckey c)) = true → List.find (named_place catalog sch) cs = Some c.
Proof.
  intros Hnd Hin catalog sch Hne Hc Hs.
  assert (Hp : ∀ x, named_place catalog sch x = true ↔ place x = place c).
  { intros x. rw /named_place Hne /place andb_true_iff !CIEquals_true.
    apply CIEquals_true in Hc, Hs. rw Hc Hs. split; [by intros [-> ->]|by intros [= -> ->]]. }
  induction cs as [|x cs IH]; [by apply elem_of_nil in Hin|]. cbn [map] in Hnd.
  apply NoDup_cons in Hnd as [Hnin Hnd]. simpl.
  destruct (named_place catalog sch x) eqn:Hx.
  - apply Hp in Hx. apply elem_of_cons in Hin as [->|Hin]; [done|]. exfalso. apply Hnin.
    rw Hx. by apply list_elem_of_fmap_2.
  - apply elem_of_cons in Hin as [->|Hin]; [|by apply IH]. apply not_true_iff_false in Hx.
    exfalso. by apply Hx, Hp.
Qed.

Lemma admits_listed_parts m roles kd c :
  admits_listed (Q:=Q) m roles kd c = true ↔
  FunctionNeverCallable (fname (ckey c)) EmptyString && negb (FunctionNeverOnlyInSystem (fname (ckey c))) = false ∧
  FunctionNeverCallable (fname (ckey c)) (database (ckey c)) = false ∧
  verdict (Judge m roles c) = ADMITTED ∧
  (CIEquals (database (ckey c)) "system" = false →
   verdict (Resolve m roles (of_name (Q:=Q) (fname (ckey c))) kd) = ADMITTED ∧
   key (Resolve m roles (of_name (Q:=Q) (fname (ckey c))) kd) = ckey c).
Proof.
  rw /admits_listed. destruct (_ && negb (FunctionNeverOnlyInSystem _)); simpl; [split; [done|by intros [? _]]|].
  destruct (FunctionNeverCallable (fname (ckey c)) (database (ckey c))); [split; [done|by intros (_ & ? & _)]|].
  case_bool_decide as Hv; simpl; [|split; [done|by intros (_ & _ & ? & _)]].
  destruct (CIEquals (database (ckey c)) "system"); simpl; [split; [done|done]|].
  rw andb_true_iff !bool_decide_eq_true. split; [done|]. intros (_ & _ & _ & Hb). by apply Hb.
Qed.

Lemma Resolve_bare m roles (w w' : Q) kd :
  Lower (Name w) = Lower (Name w') → (path_size w ≤ 1)%nat → (path_size w' ≤ 1)%nat →
  Resolve m roles w kd = Resolve m roles w' kd.
Proof.
  intros Hn Hw Hw'. rw /Resolve Hn.
  replace (1 <? path_size w)%nat with false by lia. replace (1 <? path_size w')%nat with false by lia. done.
Qed.

Lemma listed_resolves m roles k (written : Q) :
  model_ok m → k ∈ AdmittedKeys (Q:=Q) m roles → Lower (Name written) = fname k →
  ((1 < path_size written)%nat → is_empty (Catalog written) = false →
     CIEquals (Catalog written) (database k) = true → CIEquals (Schema written) (schema k) = true →
     verdict (Resolve m roles written (kind k)) = ADMITTED ∧ key (Resolve m roles written (kind k)) = k) ∧
  ((path_size written ≤ 1)%nat → CIEquals (database k) "system" = false →
     verdict (Resolve m roles written (kind k)) = ADMITTED ∧ key (Resolve m roles written (kind k)) = k).
Proof.
  intros Hm (kd & nm & cs & c & He & Hc & (Hn1 & Hn2 & Hv & Hb)%admits_listed_parts & ->)%AdmittedKeys_in Hname.
  destruct (entry_found m kd nm cs Hm He) as [Hfind [Hcs Hnd]].
  assert (Hcand : cand_ok (categories m) kd nm c) by (rw Forall_forall in Hcs; auto).
  destruct Hcand as (Hfn & Hkd & _). split.
  - intros Hq Hne Hcat Hsch. rw /Resolve Hname Hn1 Hkd -Hfn in Hfind |- *. rw /ci_at Hfind /=.
    replace (1 <? path_size written)%nat with true by lia.
    rw find_qualified_full // (find_place cs c) //.
    pose proof (proj2 (Judge_cases m roles c)) as Hk. rw never_by_key_admitted never_by_key_key Hk //.
  - intros Hq Hsys. destruct (Hb Hsys) as [Hbv Hbk]. rw Hkd.
    rw (Resolve_bare m roles written (of_name (fname (ckey c)))) //.
    + rw of_name_name Hname. destruct (Hm kd) as [Hl _]. rw Forall_forall in Hl.
      destruct (Hl _ He) as [Hlow _]. simpl in Hlow. by rw Hfn.
    + by rw of_name_size.
Qed.

Lemma resolved_listed m roles (written : Q) kd :
  model_ok m → (1 < path_size written)%nat → CIEquals (Catalog written) "system" = true →
  verdict (Resolve m roles written kd) = ADMITTED →
  key (Resolve m roles written kd) ∈ AdmittedKeys (Q:=Q) m roles.
Proof.
  intros Hm Hq Hsys Hv.
  assert (Hne : is_empty (Catalog written) = false).
  { destruct (Catalog written); [|done]. by rw CIEquals_law bool_decide_eq_true in Hsys. }
  destruct (Resolve_admitted m roles written kd Hv) as (cs & c & Hcs & Hc & -> & Hj & Hn & Hn' & Hdb).
  apply AdmittedKeys_in. exists kd, (Lower (Name written)), cs, c.
  assert (He : (Lower (Name written), cs) ∈ ByKind m kd).
  { destruct (Hm kd) as [Hl _]. apply ci_find_exact; [by eapply entries_lowered|apply Lower_idemp|done]. }
  split; [done|]. split; [done|]. split; [|done].
  destruct (entry_found m kd _ cs Hm He) as [_ [Hok _]]. rw Forall_forall in Hok.
  destruct (Hok c Hc) as (Hfn & _). apply admits_listed_parts. rw Hfn in Hn |- *.
  split; [done|]. split; [done|]. split; [done|]. intros Hd.
  rw (CIEquals_trans _ _ "system" (Hdb _ Hne)) in Hd; [apply Nat.ltb_lt; lia|]. congruence.
Qed.
End listing_laws.

(** ** The properties *)

Section properties.
Context `{SUL : StringUtilLaws} {Q : Type} `{QNL : QualifiedNameLaws Q}.

(** whatever sequence of category, member and grant changes builds a model, it stays well
    formed: a candidate is stored under its own lowered name and its own kind, no entry is empty, no
    two candidates of a name have the same database and schema, and the categories a candidate sits
    in exist, each once. *)
Theorem model_stays_well_formed (changes : list change) : model_ok (built changes).
Proof. apply built_ok. Qed.

(** a deny anywhere wins.  A candidate is denied exactly when some role of the principal, the
    role of everyone included, denies its key or one of its categories; admitted exactly when none
    does and some role allows it; otherwise it is not granted. *)
Theorem deny_wins (m : FunctionCategoryModel) (roles : list string) (c : Candidate) :
  let denied := ∃ role, role ∈ everyone roles ∧ role_denies m role c in
  let granted := ∃ role, role ∈ everyone roles ∧ role_allows m role c in
  (verdict (Judge m roles c) = DENIED ↔ denied) ∧
  (verdict (Judge m roles c) = ADMITTED ↔ ¬ denied ∧ granted) ∧
  (verdict (Judge m roles c) = NOT_GRANTED ↔ ¬ denied ∧ ¬ granted).
Proof.
  intros denied granted. pose proof (Judge_denied m roles c : _ ↔ denied) as Hd.
  pose proof (Judge_admitted m roles c : _ ↔ ¬ denied ∧ granted) as Ha.
  split; [done|]. split; [done|].
  assert (Hv : verdict (Judge m roles c) = ADMITTED ∨ verdict (Judge m roles c) = DENIED
               ∨ verdict (Judge m roles c) = NOT_GRANTED).
  { destruct (Judge_cases m roles c) as [Hc _]. set_solver. }
  destruct Hv as [Hv|[Hv|Hv]]; rw Hv in Hd, Ha |- *; naive_solver.
Qed.

(** C35: nothing is callable by default.  A call is admitted only when the model has a candidate of
    that name which no role denies, some role allows, and the never set does not hold; and a name of
    the never set is refused as such whatever the model's rows say, in any spelling. *)
Theorem admission_needs_a_grant (m : FunctionCategoryModel) (roles : list string) (written : Q)
    (kd : FunctionKind) :
  (verdict (Resolve m roles written kd) = ADMITTED →
   ∃ cs c, ci_find (Lower (Name written)) (ByKind m kd) = Some cs ∧ c ∈ cs ∧
     key (Resolve m roles written kd) = ckey c ∧
     (¬ ∃ role, role ∈ everyone roles ∧ role_denies m role c) ∧
     (∃ role, role ∈ everyone roles ∧ role_allows m role c) ∧
     FunctionNeverCallable (fname (ckey c)) (database (ckey c)) = false) ∧
  (FunctionNeverCallable (Lower (Name written)) EmptyString = true →
   FunctionNeverOnlyInSystem (Lower (Name written)) = false →
   verdict (Resolve m roles written kd) = NEVER).
Proof.
  split.
  - intros (cs & c & Hcs & Hc & Hk & Hj & Hn & _)%Resolve_admitted.
    apply Judge_admitted in Hj as [? ?]. by exists cs, c.
  - intros Hn Ho. by rw /Resolve Hn Ho.
Qed.

(** the listing a principal is shown agrees with the gate.  A listed key is admitted when it is
    called by its full name and, outside the system catalog, by its bare name; and every system
    function a full name reaches is listed. *)
Theorem listing_agrees_with_gate (changes : list change) (roles : list string) (written : Q)
    (k : FunctionKey) (kd : FunctionKind) :
  let m := built changes in
  (k ∈ AdmittedKeys (Q:=Q) m roles → Lower (Name written) = fname k →
   ((1 < path_size written)%nat ∧ is_empty (Catalog written) = false ∧
     CIEquals (Catalog written) (database k) = true ∧ CIEquals (Schema written) (schema k) = true
    ∨ (path_size written ≤ 1)%nat ∧ CIEquals (database k) "system" = false) →
   verdict (Resolve m roles written (kind k)) = ADMITTED ∧ key (Resolve m roles written (kind k)) = k) ∧
  ((1 < path_size written)%nat → CIEquals (Catalog written) "system" = true →
   verdict (Resolve m roles written kd) = ADMITTED →
   key (Resolve m roles written kd) ∈ AdmittedKeys (Q:=Q) m roles).
Proof.
  intros m. split.
  - intros Hk Hn Hcase. destruct (listed_resolves m roles k written (built_ok changes) Hk Hn) as [Hf Hb].
    destruct Hcase as [(? & ? & ? & ?)|[? ?]]; auto.
  - intros. by apply resolved_listed; [apply built_ok|..].
Qed.

(** a deny takes effect at once and no grant to another role lifts it.  After a deny of a
    category, or of a key by name, every principal with the role is denied each candidate it covers;
    a later grant or deny under another role leaves that role's denies standing. *)
Theorem deny_takes_effect (m : FunctionCategoryModel) (roles : list string) (role : string)
    (c : Candidate) :
  role ∈ everyone roles →
  (∀ cat x, x ∈ ccategories c → CIEquals cat x = true →
     verdict (Judge (AddCategoryGrant role cat false m) roles c) = DENIED) ∧
  (∀ k, Serialize (lowered k) = Serialize (ckey c) →
     verdict (Judge (AddNameGrant role k false m) roles c) = DENIED) ∧
  (role_denies m role c → ∀ other k cat allowed, CIEquals other role = false →
     verdict (Judge (AddCategoryGrant other cat allowed m) roles c) = DENIED ∧
     verdict (Judge (AddNameGrant other k allowed m) roles c) = DENIED).
Proof.
  intros Hrole. split; [|split].
  - intros cat x Hx Hcat. apply Judge_denied. exists role. split; [done|]. eexists.
    split; [simpl; by rw ci_find_set CIEquals_refl|]. right. exists x. split; [done|].
    simpl. by rw ci_mem_add Hcat.
  - intros k Hk. apply Judge_denied. exists role. split; [done|]. eexists.
    split; [simpl; by rw ci_find_set CIEquals_refl|]. left. simpl. rw Hk. set_solver.
  - intros (rule & Hrule & Hd) other k cat allowed Ho. rw !Judge_denied.
    split; exists role; (split; [done|]); exists rule; (split; [|done]); simpl; rw ci_find_set Ho //.
    by destruct (FindCandidate m (lowered k)); [|destruct k as [? ? ? []]].
Qed.
End properties.

(** ** The properties on a concrete model *)

#[local] Existing Instance reference_string_util.
#[local] Existing Instance reference_string_util_laws.

(** Names as lists of parts, the last the function's *)
#[local] Instance parts_names : QualifiedNames (list string) := {|
  path_size := length;
  Catalog q := match rev q with _ :: _ :: c :: _ => c | _ => EmptyString end;
  Schema q := match rev q with _ :: s :: _ => s | _ => EmptyString end;
  Name q := List.last q EmptyString;
  of_name n := [n];
|}.
#[local] Instance parts_name_laws : QualifiedNameLaws (list string).
Proof. by split. Qed.

Definition corp_f (db : string) : FunctionKey :=
  {| database := db; schema := "main"; fname := "F"; kind := SCALAR |}.
Definition system_sum : FunctionKey :=
  {| database := "system"; schema := "main"; fname := "sum"; kind := SCALAR |}.
Definition sample_changes : list change :=
  [Add_category "math" "arithmetic" true; Add_member "math" system_sum;
   Add_category_grant EmptyString "math" true; Add_name_grant "analyst" (corp_f "corp") true].

(** a member removed under another spelling of its database stays.  [RemoveMember] finds the
    candidate without regard to case and answers that it removed it, but [PruneCandidate] compares
    the keys exactly: the candidate stays with no category, the bare name is no longer uncategorized,
    and a second function of that name is ambiguous although it is the only member. *)
Theorem removed_member_lingers :
  let changes := [Add_member "c" (corp_f "Corp"); Remove_member "c" (corp_f "corp")] in
  let more := [Add_member "c" (corp_f "lake"); Add_category_grant "r" "c" true] in
  (RemoveMember "c" (corp_f "corp") (built [Add_member "c" (corp_f "Corp")])).2 = true ∧
  verdict (Resolve (built changes) ["r"] ["f"] SCALAR) = NOT_GRANTED ∧
  verdict (Resolve (built more) ["r"] ["f"] SCALAR) = ADMITTED ∧
  verdict (Resolve (built (changes ++ more)) ["r"] ["f"] SCALAR) = AMBIGUOUS.
Proof. repeat split; vm_compute; reflexivity. Qed.

Lemma admission_needs_a_grant_witness :
  verdict (Resolve (built sample_changes) ["Analyst"] ["corp"; "MAIN"; "f"] SCALAR) = ADMITTED ∧
  FunctionNeverCallable "postgres_query" EmptyString = true ∧
  verdict (Resolve (built sample_changes) [] ["Postgres_Query"] TABLE) = NEVER.
Proof.
  split; [vm_compute; reflexivity|]. split; [vm_compute; reflexivity|].
  refine (proj2 (admission_needs_a_grant (built sample_changes) [] ["Postgres_Query"] TABLE) _ _);
    vm_compute; reflexivity.
Defined.

Lemma listing_agrees_with_gate_witness :
  let k := {| database := "corp"; schema := "main"; fname := "f"; kind := SCALAR |} in
  k ∈ AdmittedKeys (Q:=list string) (built sample_changes) ["analyst"] ∧
  verdict (Resolve (built sample_changes) ["analyst"] ["F"] SCALAR) = ADMITTED ∧
  key (Resolve (built sample_changes) ["analyst"] ["F"] SCALAR) = k.
Proof.
  intros k.
  assert (Hk : k ∈ AdmittedKeys (Q:=list string) (built sample_changes) ["analyst"]).
  { replace (AdmittedKeys (Q:=list string) (built sample_changes) ["analyst"]) with
      [system_sum; k]; [right; left|vm_compute; reflexivity]. }
  split; [exact Hk|].
  refine (proj1 (listing_agrees_with_gate sample_changes ["analyst"] ["F"] k SCALAR) Hk _ _);
    [vm_compute; reflexivity|].
  right. split; [vm_compute; lia|vm_compute; reflexivity].
Defined.

Lemma deny_takes_effect_witness :
  let c := {| ckey := system_sum; ccategories := ["math"] |} in
  verdict (Judge (built sample_changes) ["analyst"] c) = ADMITTED ∧
  verdict (Judge (AddCategoryGrant EmptyString "Math" false (built sample_changes)) ["analyst"] c) = DENIED.
Proof.
  intros c. split; [vm_compute; reflexivity|].
  refine (proj1 (deny_takes_effect (built sample_changes) ["analyst"] EmptyString c _) "Math" "math" _ _).
  - right. left.
  - left.
  - vm_compute. reflexivity.
Defined.

Lemma model_stays_well_formed_witness :
  length (scalars (built sample_changes)) = 2 ∧ model_ok (built sample_changes).
Proof. split; [vm_compute; reflexivity|]. exact (model_stays_well_formed sample_changes). Defined.

Lemma deny_wins_witness :
  let c := {| ckey := system_sum; ccategories := ["math"] |} in
  verdict (Judge (built sample_changes) ["analyst"] c) = ADMITTED ∧
  ¬ ∃ role, role ∈ everyone ["analyst"] ∧ role_denies (built sample_changes) role c.
Proof.
  intros c.
  assert (Hv : verdict (Judge (built sample_changes) ["analyst"] c) = ADMITTED)
    by (vm_compute; reflexivity).
  split; [exact Hv|].
  exact (proj1 (proj1 (proj1 (proj2 (deny_wins (built sample_changes) ["analyst"] c))) Hv)).
Defined.
