(* ===== verification/SessionCodec.v ===== *)
(** * The session-state cookie ([src/src/acl_session_state.cpp])

    What a session holds, carried in a cookie: base64url of a JSON object, bounded both ways.  The
    base64url codec is modelled bit by bit; yyjson is a parameter, a function from the text to the
    value it spells. *)
From Stdlib Require Import ZifyBool ZifyN.
From S2P Require Import Prelude.
Open Scope N_scope.

(** ** base64url *)

Definition B64URL : string := "ABCDEFGHIJKLMNOPQRSTUVWXYZabcdefghijklmnopqrstuvwxyz0123456789-_".

(** [B64URL[n]] *)
Definition b64_at (n : N) : ascii := default zero (String.get (N.to_nat n) B64URL).

(** [n >> k & 63] *)
Definition sextet (n k : N) : N := N.land (N.shiftr n k) 63.

Fixpoint Base64UrlEncode (s : string) : string :=
  match s with
  | String a (String b (String c rest)) =>
      let n := N.lor (N.lor (N.shiftl (N_of_ascii a) 16) (N.shiftl (N_of_ascii b) 8)) (N_of_ascii c) in
      String (b64_at (sextet n 18)) (String (b64_at (sextet n 12))
        (String (b64_at (sextet n 6)) (String (b64_at (sextet n 0)) (Base64UrlEncode rest))))
  | String a (String b EmptyString) =>
      let n := N.lor (N.shiftl (N_of_ascii a) 16) (N.shiftl (N_of_ascii b) 8) in
      String (b64_at (sextet n 18)) (String (b64_at (sextet n 12)) (str1 (b64_at (sextet n 6))))
  | String a EmptyString =>
      let n := N.shiftl (N_of_ascii a) 16 in
      String (b64_at (sextet n 18)) (str1 (b64_at (sextet n 12)))
  | EmptyString => EmptyString
  end.

(** [B64Value]; [None] is [-1] *)
Definition B64Value (c : ascii) : option N :=
  let n := N_of_ascii c in
  if (65 <=? n) && (n <=? 90) then Some (n - 65)
  else if (97 <=? n) && (n <=? 122) then Some (n - 97 + 26)
  else if (48 <=? n) && (n <=? 57) then Some (n - 48 + 52)
  else if n =? 45 then Some 62
  else if n =? 95 then Some 63
  else None.

(** [unsigned] is 32 bits *)
Definition u32 (n : N) : N := n mod 4294967296.

(** The loop of [Base64UrlDecode]: the text read and the bits left over *)
Fixpoint decode_loop (s : string) (buffer bits : N) : option (string * N * N) :=
  match s with
  | EmptyString => Some (EmptyString, buffer, bits)
  | String c s =>
      match B64Value c with
      | None => None
      | Some v =>
          let buffer := u32 (N.lor (N.shiftl buffer 6) v) in
          let bits := bits + 6 in
          if 8 <=? bits then
            let bits := bits - 8 in
            match decode_loop s buffer bits with
            | Some (out, buffer', bits') =>
                Some (String (ascii_of_N (N.land (N.shiftr buffer bits) 255)) out, buffer', bits')
            | None => None
            end
          else decode_loop s buffer bits
      end
  end.

Definition Base64UrlDecode (s : string) : option string :=
  if (String.length s mod 4 =? 1)%nat then None
  else
    match decode_loop s 0 0 with
    | Some (out, buffer, bits) =>
        if N.land buffer (N.shiftl 1 bits - 1) =? 0 then Some out else None
    | None => None
    end.

(** ** The JSON text *)




(** [SessionState] *)
Record SessionState := {
  principal : string;
  use_catalog : string;
  use_schema : string;
  settings : list (string * string);
  pinned : list string;
}.
Definition no_state : SessionState :=
  {| principal := EmptyString; use_catalog := EmptyString; use_schema := EmptyString; settings := [];
     pinned := [] |}.



(** ** The bounded codec *)

Definition SESSION_STATE_COOKIE : string := "acl_session_state".
Definition SESSION_STATE_MAX_INPUT : nat := 4096.
Definition PORTABLE_SETTINGS : list string :=
  ["TimeZone"; "Calendar"; "acl_metadata_max_rows"; "acl_correlation_id"; "acl_traceparent";
   "acl_lineage_parent"; "acl_lineage_root_parent"; "acl_lineage_job"].

(** [CaseEquals]: ASCII letters folded, in the C locale *)
Definition CaseEquals (a b : string) : bool :=
  String.eqb (string_map lower_char a) (string_map lower_char b).

(** [PortableSetting] *)
Definition PortableSetting (name : string) : option string :=
  List.find (CaseEquals name) PORTABLE_SETTINGS.



Inductive SessionStateRead := ABSENT | OK | UNREADABLE.

(** A value as yyjson reads it; [JInt] is what [yyjson_get_int] answers *)
Inductive json :=
  | JInt (n : Z)
  | JStr (s : string)
  | JObj (entries : list (string * json))
  | JArr (items : list json)
  | JOther.

(** [Text]: a string whole, without a NUL *)
Definition text_ok (s : string) : option string :=
  if contains_char zero s then None else Some s.
Definition Text (v : json) : option string := match v with JStr s => text_ok s | _ => None end.

Definition IsKnownPin (pin : string) : bool :=
  String.eqb pin "transaction" || String.eqb pin "temp" || String.eqb pin "view_as"
  || String.eqb pin "context".

(** The entries of [use] *)
Fixpoint read_use (entries : list (string * json)) (s : SessionState) : option SessionState :=
  match entries with
  | [] => Some s
  | (k, v) :: entries =>
      match text_ok k, Text v with
      | Some part_name, Some text_val =>
          if String.eqb part_name "catalog" then
            read_use entries {| principal := principal s; use_catalog := text_val;
                                use_schema := use_schema s; settings := settings s; pinned := pinned s |}
          else if String.eqb part_name "schema" then
            read_use entries {| principal := principal s; use_catalog := use_catalog s;
                                use_schema := text_val; settings := settings s; pinned := pinned s |}
          else None
      | _, _ => None
      end
  end.

(** The entries of [set] *)
Fixpoint read_set (entries : list (string * json)) (read : list (string * string))
    : option (list (string * string)) :=
  match entries with
  | [] => Some read
  | (k, v) :: entries =>
      match text_ok k, Text v with
      | Some setting_name, Some setting_val =>
          match PortableSetting setting_name with
          | None => None
          | Some known =>
              if existsb (λ seen, String.eqb seen.1 known) read then None
              else read_set entries (read ++ [(known, setting_val)])
          end
      | _, _ => None
      end
  end.

(** The items of [pinned] *)
Fixpoint read_pins (items : list json) (read : list string) : option (list string) :=
  match items with
  | [] => Some read
  | v :: items =>
      match Text v with
      | Some pin_name => read_pins items (read ++ [if IsKnownPin pin_name then pin_name else "context"%string])
      | None => None
      end
  end.

(** One entry of the object; the two flags are [versioned] and [owned] *)
Definition read_entry (name : string) (val : json) (st : SessionState * bool * bool)
    : option (SessionState * bool * bool) :=
  let '(s, versioned, owned) := st in
  if String.eqb name "v" then
    match val with JInt 1 => Some (s, true, owned) | _ => None end
  else if String.eqb name "p" then
    match Text val with
    | Some p =>
        if is_empty p then None
        else Some ({| principal := p; use_catalog := use_catalog s; use_schema := use_schema s;
                      settings := settings s; pinned := pinned s |}, versioned, true)
    | None => None
    end
  else if String.eqb name "use" then
    match val with
    | JObj entries => s ← read_use entries s; Some (s, versioned, owned)
    | _ => None
    end
  else if String.eqb name "set" then
    match val with
    | JObj entries =>
        l ← read_set entries (settings s);
        Some ({| principal := principal s; use_catalog := use_catalog s; use_schema := use_schema s;
                 settings := l; pinned := pinned s |}, versioned, owned)
    | _ => None
    end
  else if String.eqb name "pinned" then
    match val with
    | JArr items =>
        l ← read_pins items (pinned s);
        Some ({| principal := principal s; use_catalog := use_catalog s; use_schema := use_schema s;
                 settings := settings s; pinned := l |}, versioned, owned)
    | _ => None
    end
  else None.

(** The loop over the object's keys, each once *)
Fixpoint read_object (entries : list (string * json)) (keys : list string)
    (st : SessionState * bool * bool) : option (SessionState * bool * bool) :=
  match entries with
  | [] => Some st
  | (k, v) :: entries =>
      match text_ok k with
      | None => None
      | Some name =>
          if existsb (String.eqb name) keys then None
          else st ← read_entry name v st; read_object entries (keys ++ [name]) st
      end
  end.

Section codec.
(** [yyjson_read]: the value a text spells, or nothing *)
Variable yyjson_read : string → option json.

Definition DecodeSessionState (value : string) : SessionStateRead * SessionState :=
  if is_empty value then (ABSENT, no_state)
  else if (SESSION_STATE_MAX_INPUT <? String.length value)%nat then (UNREADABLE, no_state)
  else
    match Base64UrlDecode value with
    | None => (UNREADABLE, no_state)
    | Some text =>
        match yyjson_read text with
        | Some (JObj entries) =>
            match read_object entries [] (no_state, false, false) with
            | Some (read, true, true) => (OK, read)
            | _ => (UNREADABLE, no_state)
            end
        | _ => (UNREADABLE, no_state)
        end
    end.
End codec.

Definition SessionStateSetCookie (encoded : string) : string :=
  if is_empty encoded then
    SESSION_STATE_COOKIE +:+ "=; Max-Age=0; HttpOnly; Path=/; SameSite=Strict"
  else SESSION_STATE_COOKIE +:+ "=" +:+ encoded +:+ "; HttpOnly; Path=/; SameSite=Strict".

(** [SessionStateLost] *)
Definition lost_name (pin : string) : string :=
  if String.eqb pin "transaction" then "its open transaction"
  else if String.eqb pin "temp" then "its temp tables"
  else if String.eqb pin "view_as" then "its view-as mode"
  else "its session context".
(** [out.find(what) != npos] *)
Definition contains_text (what out : string) : bool :=
  match String.index 0 what out with Some _ => true | None => false end.
Definition add_lost (out pin : string) : string :=
  let what := lost_name pin in
  if contains_text what out then out
  else out +:+ (if is_empty out then EmptyString else ", ") +:+ what.
Definition SessionStateLost (pins : list string) : string :=
  let out := fold_left add_lost pins EmptyString in
  if is_empty out then "its session context" else out.

(** ** The base64url codec *)

Lemma lor_shiftl_add b v k : v < 2 ^ k → N.lor (N.shiftl b k) v = b * 2 ^ k + v.
Proof.
  intros Hv. apply N.bits_inj. intros n. rw N.lor_spec.
  destruct (N.lt_ge_cases n k) as [Hn|Hn].
  - rw N.shiftl_spec_low // orb_false_l -(N.mod_pow2_bits_low (b * 2 ^ k + v) k n) //.
    rw N.add_comm N.Div0.mod_add N.mod_small //.
  - rw N.shiftl_spec_high' //.
    assert (Hvn : N.testbit v n = false).
    { rw -(N.mod_small v (2 ^ k)) // N.mod_pow2_bits_high //. }
    rw Hvn orb_false_r. replace n with ((n - k) + k) at 2 by lia.
    rw -N.div_pow2_bits N.add_comm N.div_add; [apply N.pow_nonzero; lia|]. by rw N.div_small.
Qed.

Lemma sextet_eq n k : sextet n k = (n / 2 ^ k) mod 64.
Proof. rw /sextet N.shiftr_div_pow2. by rw (N.land_ones _ 6). Qed.

Lemma octet_eq n k : N.land (N.shiftr n k) 255 = (n / 2 ^ k) mod 256.
Proof. rw N.shiftr_div_pow2. by rw (N.land_ones _ 8). Qed.

Lemma push_sextet buffer v : v < 64 → u32 (N.lor (N.shiftl buffer 6) v) = (buffer * 64 + v) mod 4294967296.
Proof. intros Hv. by rw (lor_shiftl_add buffer v 6). Qed.

Lemma B64Value_char c v : B64Value c = Some v → v < 64 ∧ b64_at v = c.
Proof. destruct c as [[] [] [] [] [] [] [] []]; vm_compute; intros [= <-]; done. Qed.

Lemma b64_at_value n : n < 64 → B64Value (b64_at n) = Some n.
Proof.
  intros Hn. assert (Hall : forallb (λ i, bool_decide (B64Value (b64_at (N.of_nat i)) = Some (N.of_nat i))) (seq 0 64) = true)
    by by vm_compute.
  rw forallb_forall in Hall. specialize (Hall (N.to_nat n)).
  rw in_seq bool_decide_eq_true N2Nat.id in Hall. apply Hall. lia.
Qed.

Lemma ascii_byte a : N_of_ascii a < 256.
Proof. by destruct a as [[] [] [] [] [] [] [] []]. Qed.

(** Four characters of the alphabet are three bytes, whatever the buffer held *)
Lemma decode_four c1 c2 c3 c4 v1 v2 v3 v4 rest buffer :
  B64Value c1 = Some v1 → B64Value c2 = Some v2 → B64Value c3 = Some v3 → B64Value c4 = Some v4 →
  ∃ buffer',
  decode_loop (String c1 (String c2 (String c3 (String c4 rest)))) buffer 0 =
  match decode_loop rest buffer' 0 with
  | Some (out, b, n) =>
      Some (String (ascii_of_N (v1 * 4 + v2 / 16)) (String (ascii_of_N ((v2 mod 16) * 16 + v3 / 4))
              (String (ascii_of_N ((v3 mod 4) * 64 + v4)) out)), b, n)
  | None => None
  end.
Proof.
  intros H1 H2 H3 H4.
  pose (b1 := (buffer * 64 + v1) mod 4294967296). pose (b2 := (b1 * 64 + v2) mod 4294967296).
  pose (b3 := (b2 * 64 + v3) mod 4294967296). pose (b4 := (b3 * 64 + v4) mod 4294967296).
  exists b4. cbn [decode_loop]. rw H1 H2 H3 H4.
  apply B64Value_char in H1 as [H1 _], H2 as [H2 _], H3 as [H3 _], H4 as [H4 _].
  change (8 <=? 0 + 6) with false. change (8 <=? 0 + 6 + 6) with true.
  change (8 <=? 0 + 6 + 6 - 8 + 6) with true. change (8 <=? 0 + 6 + 6 - 8 + 6 - 8 + 6) with true.
  cbv iota. rw !push_sextet // -/b1 -/b2 -/b3 -/b4 !octet_eq.
  change (0 + 6 + 6 - 8 + 6 - 8 + 6 - 8) with 0. change (0 + 6 + 6 - 8 + 6 - 8) with 2.
  change (0 + 6 + 6 - 8) with 4. change (2 ^ 0) with 1. change (2 ^ 2) with 4. change (2 ^ 4) with 16.
  destruct (decode_loop rest b4 0) as [[[out b] n]|]; [|done].
  replace (b2 / 16 mod 256) with (v1 * 4 + v2 / 16) by lia.
  replace (b3 / 4 mod 256) with ((v2 mod 16) * 16 + v3 / 4) by lia.
  replace (b4 / 1 mod 256) with ((v3 mod 4) * 64 + v4) by lia. done.
Qed.

(** A character as the number [v], in the block's terms *)
Definition byte_of (a : ascii) : N := N_of_ascii a.

Lemma encode_three a b c rest :
  Base64UrlEncode (String a (String b (String c rest))) =
  String (b64_at (byte_of a / 4)) (String (b64_at ((byte_of a mod 4) * 16 + byte_of b / 16))
    (String (b64_at ((byte_of b mod 16) * 4 + byte_of c / 64)) (String (b64_at (byte_of c mod 64))
      (Base64UrlEncode rest)))).
Proof.
  pose proof (ascii_byte a). pose proof (ascii_byte b). pose proof (ascii_byte c). rw /byte_of.
  cbn [Base64UrlEncode].
  assert (Hn : N.lor (N.lor (N.shiftl (N_of_ascii a) 16) (N.shiftl (N_of_ascii b) 8)) (N_of_ascii c)
               = N_of_ascii a * 65536 + N_of_ascii b * 256 + N_of_ascii c).
  { rw -N.lor_assoc (lor_shiftl_add (N_of_ascii b) _ 8) //. rw (lor_shiftl_add _ _ 16); lia. }
  rw Hn !sextet_eq. change (2 ^ 18) with 262144. change (2 ^ 12) with 4096. change (2 ^ 6) with 64.
  change (2 ^ 0) with 1. do 3 (f_equal; [f_equal; lia|]). do 2 f_equal. lia.
Qed.

Lemma encode_two a b :
  Base64UrlEncode (String a (String b EmptyString)) =
  String (b64_at (byte_of a / 4)) (String (b64_at ((byte_of a mod 4) * 16 + byte_of b / 16))
    (str1 (b64_at ((byte_of b mod 16) * 4)))).
Proof.
  pose proof (ascii_byte a). pose proof (ascii_byte b). rw /byte_of. cbn [Base64UrlEncode].
  assert (Hn : N.lor (N.shiftl (N_of_ascii a) 16) (N.shiftl (N_of_ascii b) 8)
               = N_of_ascii a * 65536 + N_of_ascii b * 256).
  { rw (lor_shiftl_add _ _ 16); rw N.shiftl_mul_pow2; lia. }
  rw Hn !sextet_eq. change (2 ^ 18) with 262144. change (2 ^ 12) with 4096. change (2 ^ 6) with 64.
  do 2 (f_equal; [f_equal; lia|]). rw /str1. f_equal. f_equal. lia.
Qed.

Lemma encode_one a :
  Base64UrlEncode (String a EmptyString) =
  String (b64_at (byte_of a / 4)) (str1 (b64_at ((byte_of a mod 4) * 16))).
Proof.
  pose proof (ascii_byte a). rw /byte_of. cbn [Base64UrlEncode]. rw !sextet_eq N.shiftl_mul_pow2.
  change (2 ^ 18) with 262144. change (2 ^ 12) with 4096. change (2 ^ 16) with 65536.
  rw /str1. do 2 f_equal; [lia|]. do 2 f_equal. lia.
Qed.

(** The codec's two recursions: three bytes, or four characters, at a time *)
Lemma string_ind3 (P : string → Prop) :
  P EmptyString → (∀ a, P (str1 a)) → (∀ a b, P (String a (str1 b))) →
  (∀ a b c s, P s → P (String a (String b (String c s)))) → ∀ s, P s.
Proof.
  intros H0 H1 H2 H3. fix IH 1. intros [|a [|b [|c s]]]; [done|apply H1|apply H2|]. apply H3, IH.
Qed.

Lemma string_ind4 (P : string → Prop) :
  P EmptyString → (∀ a, P (str1 a)) → (∀ a b, P (String a (str1 b))) →
  (∀ a b c, P (String a (String b (str1 c)))) →
  (∀ a b c d s, P s → P (String a (String b (String c (String d s))))) → ∀ s, P s.
Proof.
  intros H0 H1 H2 H3 H4. fix IH 1.
  intros [|a [|b [|c [|d s]]]]; [done|apply H1|apply H2|apply H3|]. apply H4, IH.
Qed.

Lemma leftover_zero buffer bits : N.land buffer (N.shiftl 1 bits - 1) = buffer mod 2 ^ bits.
Proof. rw -N.land_ones /N.ones. f_equal. lia. Qed.

Lemma ascii_of_byte a n : n = byte_of a → ascii_of_N n = a.
Proof. intros ->. apply ascii_N_embedding. Qed.

Lemma decode_encode s buffer :
  ∃ buffer' bits, decode_loop (Base64UrlEncode s) buffer 0 = Some (s, buffer', bits)
    ∧ buffer' mod 2 ^ bits = 0 ∧ (String.length (Base64UrlEncode s) mod 4 ≠ 1)%nat.
Proof.
  revert buffer. induction s as [|a|a b|a b c s IH] using string_ind3; intros buffer.
  - eexists _, _. split; [done|]. split; [|done]. change (2 ^ 0) with 1. lia.
  - pose proof (ascii_byte a) as Ha. rw -/(byte_of a) in Ha. rw /str1 encode_one /str1. cbn [decode_loop].
    rw !b64_at_value; [lia..|]. change (8 <=? 0 + 6) with false. change (8 <=? 0 + 6 + 6) with true.
    cbv iota. rw !push_sextet; [lia..|]. rw octet_eq. change (0 + 6 + 6 - 8) with 4. change (2 ^ 4) with 16.
    eexists _, _. split; [rw (ascii_of_byte a) //; lia|]. split; [|done]. change (2 ^ 4) with 16. lia.
  - pose proof (ascii_byte a) as Ha. pose proof (ascii_byte b) as Hb.
    rw -/(byte_of a) in Ha. rw -/(byte_of b) in Hb. rw /str1 encode_two /str1. cbn [decode_loop].
    rw !b64_at_value; [lia..|]. change (8 <=? 0 + 6) with false. change (8 <=? 0 + 6 + 6) with true.
    change (8 <=? 0 + 6 + 6 - 8 + 6) with true.
    cbv iota. rw !push_sextet; [lia..|]. rw !octet_eq. change (0 + 6 + 6 - 8 + 6 - 8) with 2.
    change (0 + 6 + 6 - 8) with 4. change (2 ^ 4) with 16. change (2 ^ 2) with 4.
    eexists _, _. split; [rw (ascii_of_byte a) ?(ascii_of_byte b) //; lia|]. split; [|done].
    change (2 ^ 2) with 4. lia.
  - pose proof (ascii_byte a) as Ha. pose proof (ascii_byte b) as Hb. pose proof (ascii_byte c) as Hc.
    rw -/(byte_of a) in Ha. rw -/(byte_of b) in Hb. rw -/(byte_of c) in Hc.
    rw encode_three.
    destruct (decode_four _ _ _ _ _ _ _ _ (Base64UrlEncode s) buffer
                (b64_at_value (byte_of a / 4) ltac:(lia))
                (b64_at_value (byte_of a mod 4 * 16 + byte_of b / 16) ltac:(lia))
                (b64_at_value (byte_of b mod 16 * 4 + byte_of c / 64) ltac:(lia))
                (b64_at_value (byte_of c mod 64) ltac:(lia))) as (buffer' & ->).
    destruct (IH buffer') as (b2 & n2 & -> & Hz & Hlen). eexists _, _. split; [|split; [exact Hz|]].
    + set x := byte_of a mod 4 * 16 + byte_of b / 16. set y := byte_of b mod 16 * 4 + byte_of c / 64.
      rw (ascii_of_byte a (byte_of a / 4 * 4 + x / 16)); [rw /x; lia|].
      rw (ascii_of_byte b (x mod 16 * 16 + y / 4)); [rw /x /y; lia|].
      rw (ascii_of_byte c (y mod 4 * 64 + byte_of c mod 64)); [rw /y; lia|]. done.
    + cbn [String.length]. set n := String.length _ in Hlen |- *.
      replace (S (S (S (S n)))) with (n + 1 * 4)%nat by lia. by rw Nat.Div0.mod_add.
Qed.

Lemma byte_of_ascii x : x < 256 → byte_of (ascii_of_N x) = x.
Proof. apply N_ascii_embedding. Qed.

Lemma decode_chars c s buffer bits r :
  decode_loop (String c s) buffer bits = Some r → ∃ v, B64Value c = Some v ∧ v < 64 ∧ b64_at v = c.
Proof.
  cbn [decode_loop]. destruct (B64Value c) as [v|] eqn:Hv; [|done]. intros _.
  exists v. split; [done|]. by apply B64Value_char.
Qed.

Lemma encode_decode t buffer out buffer' bits :
  decode_loop t buffer 0 = Some (out, buffer', bits) → (String.length t mod 4 ≠ 1)%nat →
  buffer' mod 2 ^ bits = 0 → Base64UrlEncode out = t.
Proof.
  revert buffer out. induction t as [|c1|c1 c2|c1 c2 c3|c1 c2 c3 c4 t IH] using string_ind4;
    intros buffer out Hd Hlen Hz.
  - by injection Hd as <- <- <-.
  - done.
  - rw /str1 in Hd |- *. destruct (decode_chars _ _ _ _ _ Hd) as (v1 & H1 & Hv1 & <-). cbn [decode_loop] in Hd.
    rw H1 in Hd. change (8 <=? 0 + 6) with false in Hd. cbv iota in Hd.
    destruct (B64Value c2) as [v2|] eqn:H2; [|done]. apply B64Value_char in H2 as [Hv2 <-].
    change (8 <=? 0 + 6 + 6) with true in Hd. cbv iota in Hd. rw !push_sextet // octet_eq in Hd.
    injection Hd as <- <- <-. change (2 ^ (0 + 6 + 6 - 8)) with 16 in Hz |- *.
    rw encode_one byte_of_ascii; [lia|]. rw /str1. do 2 f_equal; [lia|]. do 2 f_equal. lia.
  - rw /str1 in Hd |- *. destruct (decode_chars _ _ _ _ _ Hd) as (v1 & H1 & Hv1 & <-). cbn [decode_loop] in Hd.
    rw H1 in Hd. change (8 <=? 0 + 6) with false in Hd. cbv iota in Hd.
    destruct (B64Value c2) as [v2|] eqn:H2; [|done]. destruct (B64Value c3) as [v3|] eqn:H3; [|done].
    apply B64Value_char in H2 as [Hv2 <-], H3 as [Hv3 <-].
    change (8 <=? 0 + 6 + 6) with true in Hd. change (8 <=? 0 + 6 + 6 - 8 + 6) with true in Hd.
    cbv iota in Hd. rw !push_sextet // !octet_eq in Hd.
    change (2 ^ (0 + 6 + 6 - 8)) with 16 in Hd. change (2 ^ (0 + 6 + 6 - 8 + 6 - 8)) with 4 in Hd.
    injection Hd as <- <- <-. change (2 ^ (0 + 6 + 6 - 8 + 6 - 8)) with 4 in Hz.
    replace (((buffer * 64 + v1) mod 4294967296 * 64 + v2) mod 4294967296 / 16 mod 256)
      with (v1 * 4 + v2 / 16) by lia.
    set b2 := (_ * 64 + v2) mod _ in Hz |- *.
    assert (Hb2 : b2 mod 16 = v2 mod 16) by (rw /b2; lia). clearbody b2.
    replace ((b2 * 64 + v3) mod 4294967296 / 4 mod 256) with (v2 mod 16 * 16 + v3 / 4) by lia.
    assert (v3 mod 4 = 0) by lia. rw encode_two !byte_of_ascii; [lia..|].
    rw /str1. do 2 (f_equal; [f_equal; lia|]). do 2 f_equal. lia.
  - destruct (decode_chars _ _ _ _ _ Hd) as (v1 & H1 & Hv1 & He1).
    destruct (B64Value c2) as [v2|] eqn:H2; [|exfalso; cbn [decode_loop] in Hd; rw H1 H2 in Hd; done].
    destruct (B64Value c3) as [v3|] eqn:H3; [|exfalso; cbn [decode_loop] in Hd; rw H1 H2 H3 in Hd; done].
    destruct (B64Value c4) as [v4|] eqn:H4; [|exfalso; cbn [decode_loop] in Hd; rw H1 H2 H3 H4 in Hd; done].
    destruct (decode_four c1 c2 c3 c4 v1 v2 v3 v4 t buffer H1 H2 H3 H4) as (b & Heq).
    rw Heq in Hd. destruct (decode_loop t b 0) as [[[out' b'] n']|] eqn:Ht; [|done].
    injection Hd as <- <- <-. clear Heq.
    apply B64Value_char in H2 as [Hv2 <-], H3 as [Hv3 <-], H4 as [Hv4 <-]. rw -He1.
    rw encode_three !byte_of_ascii; [lia..|]. rw (IH _ _ Ht) //.
    { intros Hl. apply Hlen. cbn [String.length]. set n := String.length t in Hl |- *.
      replace (S (S (S (S n)))) with (n + 1 * 4)%nat by lia. by rw Nat.Div0.mod_add. }
    do 3 (f_equal; [f_equal; lia|]). do 2 f_equal. lia.
Qed.

(** ** Reading a state back *)

Definition no_nul (s : string) : Prop := contains_char zero s = false.

(** A state as a session builds it: an owner, portable settings each once, known pins *)
Record writable (s : SessionState) : Prop := {
  w_principal : is_empty (principal s) = false ∧ no_nul (principal s);
  w_use : no_nul (use_catalog s) ∧ no_nul (use_schema s);
  w_settings : Forall (λ x, x.1 ∈ PORTABLE_SETTINGS ∧ no_nul x.2) (settings s);
  w_distinct : NoDup (map fst (settings s));
  w_pins : Forall (λ p, IsKnownPin p = true) (pinned s);
}.

(** The object the JSON text of a state spells *)
Definition doc_entries (s : SessionState) : list (string * json) :=
  [("v"%string, JInt 1); ("p"%string, JStr (principal s))]
  ++ (if negb (is_empty (use_catalog s)) || negb (is_empty (use_schema s)) then
        [("use"%string, JObj [("catalog"%string, JStr (use_catalog s)); ("schema"%string, JStr (use_schema s))])]
      else [])
  ++ match settings s with [] => [] | l => [("set"%string, JObj (map (λ x, (x.1, JStr x.2)) l))] end
  ++ match pinned s with [] => [] | l => [("pinned"%string, JArr (map JStr l))] end.
Definition spelled (s : SessionState) : json := JObj (doc_entries s).

Lemma PortableSetting_some nm known :
  PortableSetting nm = Some known → known ∈ PORTABLE_SETTINGS.
Proof. intros [Hin _]%find_some. by apply list_elem_of_In. Qed.


Lemma text_ok_some s t : text_ok s = Some t ↔ t = s ∧ no_nul s.
Proof. rw /text_ok /no_nul. destruct (contains_char zero s); naive_solver. Qed.

Lemma Text_some v t : Text v = Some t ↔ v = JStr t ∧ no_nul t.
Proof. destruct v; simpl; rw ?text_ok_some; naive_solver. Qed.

Lemma existsb_seen (l : list (string * string)) k :
  existsb (λ seen, String.eqb seen.1 k) l = false ↔ k ∉ map fst l.
Proof.
  rw -not_true_iff_false existsb_exists list_elem_of_fmap. split.
  - intros Hn ([k' v] & -> & Hin). apply Hn. exists (k', v). rw -list_elem_of_In. split; [done|].
    apply String.eqb_refl.
  - intros Hn ([k' v] & Hin & He%String.eqb_eq). apply Hn. exists (k', v). rw list_elem_of_In. done.
Qed.

Lemma read_set_sound entries read out :
  Forall (λ x, x.1 ∈ PORTABLE_SETTINGS ∧ no_nul x.2) read → NoDup (map fst read) →
  read_set entries read = Some out →
  Forall (λ x, x.1 ∈ PORTABLE_SETTINGS ∧ no_nul x.2) out ∧ NoDup (map fst out).
Proof.
  revert read. induction entries as [|[k v] entries IH]; intros read Hr Hnd; simpl; [by intros [= <-]|].
  destruct (text_ok k) as [nm|]; [|done]. destruct (Text v) as [val|] eqn:Hv; [|done].
  destruct (PortableSetting nm) as [known|] eqn:Hk; [|done].
  destruct (existsb _ read) eqn:Hseen; [done|]. apply existsb_seen in Hseen. apply IH.
  - apply Forall_app. split; [done|]. apply Forall_singleton. split.
    + by eapply PortableSetting_some.
    + by apply Text_some in Hv as [_ ?].
  - rw map_app. apply NoDup_app. split; [done|]. split; [|apply NoDup_singleton].
    by intros x Hx ->%list_elem_of_singleton.
Qed.



Lemma read_pins_sound items read out :
  Forall (λ p, IsKnownPin p = true) read → read_pins items read = Some out →
  Forall (λ p, IsKnownPin p = true) out.
Proof.
  revert read. induction items as [|v items IH]; intros read Hr; simpl; [by intros [= <-]|].
  destruct (Text v) as [pin|]; [|done]. apply IH. apply Forall_app. split; [done|].
  apply Forall_singleton. by destruct (IsKnownPin pin) eqn:Hp.
Qed.


(** What holds of the state being read: everything but the owner *)
Record half_read (s : SessionState) : Prop := {
  h_principal : no_nul (principal s);
  h_use : no_nul (use_catalog s) ∧ no_nul (use_schema s);
  h_settings : Forall (λ x, x.1 ∈ PORTABLE_SETTINGS ∧ no_nul x.2) (settings s);
  h_distinct : NoDup (map fst (settings s));
  h_pins : Forall (λ p, IsKnownPin p = true) (pinned s);
}.

Lemma read_use_sound entries s s' : half_read s → read_use entries s = Some s' → half_read s' ∧ principal s' = principal s.
Proof.
  revert s. induction entries as [|[k v] entries IH]; intros s Hs; simpl; [by intros [= <-]|].
  destruct (text_ok k) as [nm|]; [|done]. destruct (Text v) as [val|] eqn:Hv; [|done].
  apply Text_some in Hv as [_ Hv]. destruct Hs as [? [? ?] ? ? ?].
  destruct (String.eqb nm "catalog"); [|destruct (String.eqb nm "schema"); [|done]];
    intros Hr; apply IH in Hr as [? ?]; by try split.
Qed.

Definition read_ok (st : SessionState * bool * bool) : Prop :=
  half_read st.1.1 ∧ (st.2 = true → is_empty (principal st.1.1) = false).

Lemma read_entry_sound nm v st st' : read_ok st → read_entry nm v st = Some st' → read_ok st'.
Proof.
  destruct st as [[s ver] own]. intros [Hs Hown]. rw /read_entry. simpl in Hs, Hown.
  destruct (String.eqb nm "v"); [destruct v as [[|[]|]| | | |]; try done; by intros [= <-]|].
  destruct (String.eqb nm "p").
  { destruct (Text v) as [p|] eqn:Hv; [|done]. apply Text_some in Hv as [_ Hv].
    destruct (is_empty p) eqn:Hp; [done|]. intros [= <-]. destruct Hs. split; [by split|done]. }
  destruct (String.eqb nm "use").
  { destruct v; try done. destruct (read_use entries s) as [s'|] eqn:Hu; [|done]. intros [= <-].
    apply read_use_sound in Hu as [? Hpr]; [|done]. split; [done|]. simpl. by rw Hpr. }
  destruct (String.eqb nm "set").
  { destruct v; try done. destruct (read_set entries _) as [l|] eqn:Hu; [|done]. intros [= <-].
    destruct Hs as [? ? ? ? ?]. apply read_set_sound in Hu as [? ?]; [|done..]. by split. }
  destruct (String.eqb nm "pinned"); [|done].
  destruct v; try done. destruct (read_pins items _) as [l|] eqn:Hu; [|done]. intros [= <-].
  destruct Hs as [? ? ? ? ?]. apply read_pins_sound in Hu; [|done]. by split.
Qed.

Lemma read_object_sound entries keys st st' :
  read_ok st → read_object entries keys st = Some st' → read_ok st'.
Proof.
  revert keys st. induction entries as [|[k v] entries IH]; intros keys st Hst; simpl; [by intros [= <-]|].
  destruct (text_ok k) as [nm|]; [|done]. destruct (existsb _ keys); [done|].
  destruct (read_entry nm v st) as [st1|] eqn:He; [|done]. apply IH. by eapply read_entry_sound.
Qed.

Lemma no_state_read : half_read no_state.
Proof. by repeat split; try constructor. Qed.





Lemma Base64UrlDecode_Encode s : Base64UrlDecode (Base64UrlEncode s) = Some s.
Proof.
  rw /Base64UrlDecode. destruct (decode_encode s 0) as (b & n & Hd & Hz & Hl).
  replace (String.length (Base64UrlEncode s) mod 4 =? 1)%nat with false by lia.
  by rw Hd leftover_zero Hz.
Qed.


(** ** The properties *)

(** base64url is one value, one spelling.  What [Base64UrlEncode] writes [Base64UrlDecode] reads
    back, for every byte string; and the decoder accepts nothing else: a text it reads is the encoding
    of what it read, so no two cookies spell one state and the 32-bit buffer never loses a bit. *)
Theorem base64url_is_canonical (s t : string) :
  Base64UrlDecode (Base64UrlEncode s) = Some s ∧
  (Base64UrlDecode t = Some s → Base64UrlEncode s = t).
Proof.
  split; [apply Base64UrlDecode_Encode|]. rw /Base64UrlDecode.
  destruct (String.length t mod 4 =? 1)%nat eqn:Hl; [done|].
  destruct (decode_loop t 0 0) as [[[out b] n]|] eqn:Hd; [|done]. rw leftover_zero.
  destruct (b mod 2 ^ n =? 0) eqn:Hz; [|done]. intros [= <-].
  eapply encode_decode; [exact Hd|lia|lia].
Qed.


(** a cookie is never read partly, whatever it holds and however the JSON reads.  A state that
    comes out has an owner, only settings of the list in the list's spelling and each once, no NUL
    anywhere and only known pins; any other answer leaves the state empty; and no value is read past
    the input bound. *)
Theorem decoded_states_are_checked (yyjson_read : string → option json) (value : string) :
  let d := DecodeSessionState yyjson_read value in
  (d.1 = OK → writable d.2 ∧ (String.length value ≤ SESSION_STATE_MAX_INPUT)%nat) ∧
  (d.1 ≠ OK → d.2 = no_state).
Proof.
  intros d. rw /d /DecodeSessionState.
  destruct (is_empty value); [done|]. destruct (_ <? _)%nat eqn:Hl; [done|].
  destruct (Base64UrlDecode value) as [text|]; [|done].
  destruct (yyjson_read text) as [[| |entries| |]|]; try done.
  destruct (read_object entries [] _) as [[[s ver] own]|] eqn:Hr; [|done].
  destruct ver, own; try done. split; [|done]. intros _. split; [|lia].
  apply read_object_sound in Hr as [[? ? ? ? ?] Hown]; [|by split; [apply no_state_read|]].
  split; try done. split; [by apply Hown|done].
Qed.

(** ** The properties on a concrete state *)

Definition sample_state : SessionState :=
  {| principal := "4f2a"; use_catalog := "lake"; use_schema := EmptyString;
     settings := [("TimeZone"%string, "Europe/Berlin"%string)]; pinned := ["temp"%string] |}.

Lemma base64url_is_canonical_witness :
  Base64UrlDecode "_-8"%string = Some (String "255" (str1 "239")) ∧
  Base64UrlEncode (String "255" (str1 "239")) = "_-8"%string ∧ Base64UrlDecode "_-9"%string = None.
Proof.
  split; [vm_compute; reflexivity|]. split; [|vm_compute; reflexivity].
  refine (proj2 (base64url_is_canonical (String "255" (str1 "239")) "_-8"%string) _).
  vm_compute. reflexivity.
Defined.


Lemma decoded_states_are_checked_witness :
  let read (text : string) := Some (spelled sample_state) in
  writable (DecodeSessionState read "AAAA"%string).2.
Proof.
  intros read. refine (proj1 (proj1 (decoded_states_are_checked read "AAAA"%string) _)).
  vm_compute. reflexivity.
Defined.
