(* ===== verification/Placement.v ===== *)
(** * Placement ([src/src/include/acl_placement.hpp])

    Which sessions a node of a resource group serves, and the header that tells a front which groups
    serve a principal. *)
From S2P Require Import Prelude.

(** ** The decision *)

Record PlacementDecision := { admitted : bool; group : string; refusal : string }.
Definition everyone_admitted : PlacementDecision :=
  {| admitted := true; group := EmptyString; refusal := EmptyString |}.


(** The loop that names the serving groups *)
Fixpoint served_names (served : string) (groups : list string) : string :=
  match groups with
  | [] => served
  | g :: groups =>
      served_names (served +:+ (if is_empty served then dq else ", " +:+ dq) +:+ g +:+ dq) groups
  end.

Definition Place (node_group : string) (node_group_known : bool) (principal_groups : list string)
    : PlacementDecision :=
  if is_empty node_group then everyone_admitted
  else if negb node_group_known then
    {| admitted := false; group := EmptyString;
       refusal := "acl: this node's resource group " +:+ quoted node_group
         +:+ " is not a resource group of the policy - it serves no new session until it is" |}
  else
    match List.find (λ g, String.eqb g node_group) principal_groups with
    | Some g => {| admitted := true; group := g; refusal := EmptyString |}
    | None =>
        {| admitted := false; group := EmptyString;
           refusal :=
             match principal_groups with
             | [] => "acl: this node serves resource group " +:+ quoted node_group
                     +:+ " - no resource group serves your roles (and there is no default group)"
             | _ => "acl: this node serves resource group " +:+ quoted node_group
                    +:+ " - your roles are served by " +:+ served_names EmptyString principal_groups
             end |}
    end.

(** ** The header *)

Definition HEX (n : N) : ascii := default zero (String.get (N.to_nat n) "0123456789ABCDEF").

Definition unreserved (c : ascii) : bool :=
  let n := N_of_ascii c in
  ((65 <=? n) && (n <=? 90) || (97 <=? n) && (n <=? 122) || (48 <=? n) && (n <=? 57)
   || (n =? 45) || (n =? 46) || (n =? 95) || (n =? 126))%N.

Fixpoint percent_encode (s : string) : string :=
  match s with
  | EmptyString => EmptyString
  | String c s =>
      if unreserved c then String c (percent_encode s)
      else
        let n := N_of_ascii c in
        String "%" (String (HEX (N.shiftr n 4)) (String (HEX (N.land n 15)) (percent_encode s)))
  end.

Definition comma : ascii := ",".

(** The loop of [ResourceGroupsHeader] *)
Definition add_group (out group : string) : string :=
  out +:+ (if is_empty out then EmptyString else str1 comma) +:+ percent_encode group.
Definition ResourceGroupsHeader (groups : list string) : string := fold_left add_group groups EmptyString.

(** ** What a front reads

    The header split at its commas and percent-decoded. *)

Fixpoint split_commas (s : string) : list string :=
  match s with
  | EmptyString => [EmptyString]
  | String c s =>
      match split_commas s with
      | [] => []
      | part :: parts => if Ascii.eqb c comma then EmptyString :: part :: parts else String c part :: parts
      end
  end.

Definition from_hex (c : ascii) : option N :=
  let n := N_of_ascii c in
  if ((48 <=? n) && (n <=? 57))%N then Some (n - 48)%N
  else if ((65 <=? n) && (n <=? 70))%N then Some (n - 55)%N
  else None.

Fixpoint percent_decode (s : string) : option string :=
  match s with
  | EmptyString => Some EmptyString
  | String c s' =>
      if Ascii.eqb c "%" then
        match s' with
        | String h (String l s'') =>
            match from_hex h, from_hex l with
            | Some hi, Some lo => r ← percent_decode s''; Some (String (ascii_of_N (hi * 16 + lo)) r)
            | _, _ => None
            end
        | _ => None
        end
      else r ← percent_decode s'; Some (String c r)
  end.

Definition read_groups (header : string) : list (option string) := map percent_decode (split_commas header).

(** ** Laws *)

Lemma encoded_char c : unreserved c = true → Ascii.eqb c "%" = false ∧ Ascii.eqb c comma = false.
Proof. by destruct c as [[] [] [] [] [] [] [] []]. Qed.

Lemma encoded_hex c :
  let n := N_of_ascii c in
  from_hex (HEX (N.shiftr n 4)) = Some (N.shiftr n 4) ∧ from_hex (HEX (N.land n 15)) = Some (N.land n 15)
  ∧ ascii_of_N (N.shiftr n 4 * 16 + N.land n 15) = c
  ∧ Ascii.eqb (HEX (N.shiftr n 4)) comma = false ∧ Ascii.eqb (HEX (N.land n 15)) comma = false.
Proof. by destruct c as [[] [] [] [] [] [] [] []]. Qed.

Lemma percent_decode_encode s : percent_decode (percent_encode s) = Some s.
Proof.
  induction s as [|c s IH]; [done|]. cbn [percent_encode]. destruct (unreserved c) eqn:Hc.
  - cbn [percent_decode]. destruct (encoded_char c Hc) as [-> _]. by rw IH.
  - cbn [percent_decode]. change (Ascii.eqb "%" "%") with true. cbv iota.
    destruct (encoded_hex c) as (-> & -> & Hback & _). by rw IH /= Hback.
Qed.

Lemma encoded_no_comma s : contains_char comma (percent_encode s) = false.
Proof.
  induction s as [|c s IH]; [done|]. cbn [percent_encode]. destruct (unreserved c) eqn:Hc.
  - cbn [contains_char]. rw Ascii.eqb_sym. destruct (encoded_char c Hc) as [_ ->]. done.
  - destruct (encoded_hex c) as (_ & _ & _ & H1 & H2). cbn [contains_char].
    by rw !(Ascii.eqb_sym comma) H1 H2 IH.
Qed.

Lemma split_no_comma s : contains_char comma s = false → split_commas s = [s].
Proof.
  induction s as [|c s IH]; [done|]. simpl. intros [Hc Hs]%orb_false_elim. rw IH //.
  by rw Ascii.eqb_sym Hc.
Qed.

Lemma split_app a s :
  contains_char comma a = false → split_commas (a +:+ String comma s) = a :: split_commas s.
Proof.
  assert (Hne : ∀ x, split_commas x ≠ []).
  { induction x as [|c x IH]; [done|]. simpl. destruct (split_commas x); [done|]. by destruct (Ascii.eqb c comma). }
  induction a as [|c a IH]; simpl.
  - intros _. pose proof (Hne s). by destruct (split_commas s).
  - intros [Hc Ha]%orb_false_elim. by rw IH // Ascii.eqb_sym Hc.
Qed.

Lemma header_from groups out :
  is_empty out = false →
  fold_left add_group groups out = out +:+ join EmptyString (map (λ g, String comma (percent_encode g)) groups).
Proof.
  revert out. induction groups as [|g groups IH]; intros out Hout; [by rw string_app_nil_r|].
  cbn [fold_left]. rw IH; [rw /add_group Hout; by destruct out|].
  rw /add_group Hout str1_app -!string_app_assoc. f_equal. cbn [map].
  destruct (map _ groups) as [|g' gs]; [by rw /= string_app_nil_r|].
  by rw string_app_cons.
Qed.

Lemma split_header g groups :
  split_commas (percent_encode g +:+ join EmptyString (map (λ g, String comma (percent_encode g)) groups)) =
  map percent_encode (g :: groups).
Proof.
  revert g. induction groups as [|g' groups IH]; intros g.
  - rw /= string_app_nil_r. by rw split_no_comma // encoded_no_comma.
  - assert (Hj : join EmptyString (map (λ g, String comma (percent_encode g)) (g' :: groups)) =
              String comma (percent_encode g' +:+ join EmptyString (map (λ g, String comma (percent_encode g)) groups))).
    { cbn [map]. destruct (map _ groups) as [|x l]; [by rw /= string_app_nil_r|]. done. }
    by rw Hj split_app ?encoded_no_comma // IH.
Qed.

(** ** The properties *)

(** a node of a group serves exactly the principals its group serves, and says no more than
    group names.  A node with no group admits everyone under no single group's limits; a node whose
    group the policy does not know admits nobody; any other admits a principal exactly when its group
    is among the principal's, then under that group's limits, and every refusal has a reason. *)
Theorem place_decides (node_group : string) (known : bool) (groups : list string) :
  let d := Place node_group known groups in
  (admitted d = true ↔ is_empty node_group = true ∨ (known = true ∧ node_group ∈ groups)) ∧
  (admitted d = true → group d = (if is_empty node_group then EmptyString else node_group)
                       ∧ refusal d = EmptyString) ∧
  (admitted d = false → group d = EmptyString ∧ is_empty (refusal d) = false).
Proof.
  intros d. rw /d /Place. destruct (is_empty node_group) eqn:Hne; simpl.
  { split; [split; auto|]. by split. }
  destruct known; simpl; [|split; [split; [done|by intros [?|[? _]]]|by split]].
  destruct (List.find _ groups) as [g|] eqn:Hf; simpl.
  - apply find_some in Hf as [Hin Hg%String.eqb_eq]. subst g. rw -list_elem_of_In in Hin.
    split; [split; auto|]. by split.
  - split; [|by destruct groups]. split; [done|]. intros [?|[_ Hin]]; [done|].
    rw list_elem_of_In in Hin. pose proof (find_none _ _ Hf _ Hin) as Hg. by rw String.eqb_refl in Hg.
Qed.

(** a front reads the groups it was sent.  Whatever a group is called (commas, percent signs,
    bytes beyond ASCII), [ResourceGroupsHeader] split at its commas and percent-decoded is the list
    of the groups; only an empty first name would be lost. *)
Theorem header_names_the_groups (g : string) (groups : list string) :
  is_empty g = false → read_groups (ResourceGroupsHeader (g :: groups)) = map Some (g :: groups).
Proof.
  intros Hg. rw /ResourceGroupsHeader. cbn [fold_left].
  assert (Hadd : add_group EmptyString g = percent_encode g) by done. rw Hadd header_from.
  { destruct g as [|c g]; [done|]. cbn [percent_encode]. by destruct (unreserved c). }
  rw /read_groups split_header map_map. apply map_ext. intros x. apply percent_decode_encode.
Qed.

Lemma place_decides_witness :
  admitted (Place "etl" true ["adhoc"; "etl"]) = true ∧
  group (Place "etl" true ["adhoc"; "etl"]) = "etl" ∧ admitted (Place "etl" true ["adhoc"]) = false.
Proof.
  split; [vm_compute; reflexivity|]. split; [|vm_compute; reflexivity].
  refine (proj1 (proj1 (proj2 (place_decides "etl" true ["adhoc"; "etl"])) _)). vm_compute. reflexivity.
Defined.

Lemma header_names_the_groups_witness :
  ResourceGroupsHeader ["a,b"; "50%"; "x~"] = "a%2Cb,50%25,x~" ∧
  read_groups (ResourceGroupsHeader ["a,b"; "50%"; "x~"]) = [Some "a,b"; Some "50%"; Some "x~"].
Proof.
  split; [vm_compute; reflexivity|].
  apply (header_names_the_groups "a,b" ["50%"; "x~"]). reflexivity.
Defined.
