(* ===== verification/Notifier.v ===== *)
(** * Session observers ([src/src/acl_session_hooks.cpp])

    [SessionNotifier] delivers the opens and closes of the store's sessions to the observers, never
    under the store's lock.  Its fields change under its own lock; the deliveries happen outside it,
    so an [Opened] and a [Flush] are several steps and any number of them interleave.  [deliver] is
    one delivery, to every observer in turn. *)
From S2P Require Import Prelude.

(** What is delivered, in order; each to every observer *)
Inductive delivery := Open (session_id : string) | Close (session_id reason : string).
#[export] Instance delivery_eq_dec : EqDecision delivery.
Proof. solve_decision. Defined.

(** The notifier's fields; [closes] is [closes], the deque *)
Record notifier := {
  hooks : bool;
  refused : bool;
  opening : gset string;
  deferred : gmap string string;
  closes : list (string * string);
  failures : nat;
  slow : nat;
}.
Definition new_notifier : notifier :=
  {| hooks := false; refused := false; opening := ∅; deferred := ∅; closes := []; failures := 0; slow := 0 |}.

Definition Attach (hooks_p : bool) (n : notifier) : notifier :=
  {| hooks := hooks_p; refused := refused n; opening := opening n; deferred := deferred n;
     closes := closes n; failures := failures n; slow := slow n |}.
Definition MarkRefused (n : notifier) : notifier :=
  {| hooks := hooks n; refused := true; opening := opening n; deferred := deferred n;
     closes := closes n; failures := failures n; slow := slow n |}.

Definition BeginOpen (session_id : string) (n : notifier) : notifier :=
  if negb (hooks n) then n
  else
    {| hooks := hooks n; refused := refused n; opening := {[session_id]} ∪ opening n;
       deferred := deferred n; closes := closes n; failures := failures n; slow := slow n |}.

(** One delivery: each observer's call may throw or be slow; neither stops the next *)
Definition SLOW_CALL_MS : Z := 100.
Definition deliver (calls : list (bool * Z)) (n : notifier) : notifier :=
  {| hooks := hooks n; refused := refused n; opening := opening n; deferred := deferred n;
     closes := closes n;
     failures := failures n + length (List.filter fst calls);
     slow := slow n + length (List.filter (λ c : bool * Z, (SLOW_CALL_MS <? c.2)%Z) calls) |}.

(** [Opened] under the lock, after the observers were called *)
Definition opened_locked (session_id : string) (n : notifier) : notifier :=
  {| hooks := hooks n; refused := refused n; opening := opening n ∖ {[session_id]};
     deferred := delete session_id (deferred n);
     closes := closes n ++ match deferred n !! session_id with
                           | Some reason => [(session_id, reason)]
                           | None => []
                           end;
     failures := failures n; slow := slow n |}.

Definition QueueClose (session_id reason : string) (n : notifier) : notifier :=
  if negb (hooks n) then n
  else if bool_decide (session_id ∈ opening n) then
    {| hooks := hooks n; refused := refused n; opening := opening n;
       deferred := <[session_id := reason]> (deferred n); closes := closes n;
       failures := failures n; slow := slow n |}
  else
    {| hooks := hooks n; refused := refused n; opening := opening n; deferred := deferred n;
       closes := closes n ++ [(session_id, reason)]; failures := failures n; slow := slow n |}.

(** [Flush] under the lock: the closes due, taken *)
Definition flush_locked (n : notifier) : notifier * list (string * string) :=
  if negb (hooks n) then (n, [])
  else
    ({| hooks := hooks n; refused := refused n; opening := opening n; deferred := deferred n;
        closes := []; failures := failures n; slow := slow n |}, closes n).

Definition ObserverCount (observers : Z) (n : notifier) : Z :=
  if refused n then (-1)%Z else if hooks n then observers else 0%Z.

(** ** The store and the notifier

    The store's side of the contract, under its own lock: a session id is begun once, closed once, and
    only after it was begun; the thread that began it calls [Opened].  [begun] are the ids so far,
    [delivering] those whose [Opened] has yet to take the lock, [closed] the closes asked for;
    [flushing] are the flushes that took their closes and are delivering them. *)
Record system := {
  note : notifier;
  begun : gset string;
  delivering : gset string;
  closed : gmap string string;
  flushing : list (list (string * string));
  log : list delivery;
}.
Definition start : system :=
  {| note := Attach true new_notifier; begun := ∅; delivering := ∅; closed := ∅; flushing := []; log := [] |}.

Inductive sys_step : system → system → Prop :=
  (** the store inserts a session *)
  | sys_begin σ id :
      id ∉ begun σ →
      sys_step σ {| note := BeginOpen id (note σ); begun := {[id]} ∪ begun σ; delivering := {[id]} ∪ delivering σ;
                    closed := closed σ; flushing := flushing σ; log := log σ |}
  (** [Opened] calls the observers, then takes the lock *)
  | sys_open σ id calls :
      id ∈ delivering σ →
      sys_step σ {| note := deliver calls (note σ); begun := begun σ; delivering := delivering σ ∖ {[id]};
                    closed := closed σ; flushing := flushing σ; log := log σ ++ [Open id] |}
  | sys_opened σ id :
      Open id ∈ log σ → id ∈ opening (note σ) →
      sys_step σ {| note := opened_locked id (note σ); begun := begun σ; delivering := delivering σ;
                    closed := closed σ; flushing := flushing σ; log := log σ |}
  (** the store removes a session *)
  | sys_close σ id reason :
      id ∈ begun σ → closed σ !! id = None →
      sys_step σ {| note := QueueClose id reason (note σ); begun := begun σ; delivering := delivering σ;
                    closed := <[id := reason]> (closed σ); flushing := flushing σ; log := log σ |}
  (** a [Flush] takes what is due *)
  | sys_flush σ :
      sys_step σ {| note := (flush_locked (note σ)).1; begun := begun σ; delivering := delivering σ;
                    closed := closed σ; flushing := (flush_locked (note σ)).2 :: flushing σ; log := log σ |}
  (** a [Flush] delivers its next close *)
  | sys_deliver σ before id reason due after calls :
      flushing σ = before ++ ((id, reason) :: due) :: after →
      sys_step σ {| note := deliver calls (note σ); begun := begun σ; delivering := delivering σ;
                    closed := closed σ; flushing := before ++ due :: after;
                    log := log σ ++ [Close id reason] |}.

Inductive reachable : system → Prop :=
  | reach_start : reachable start
  | reach_step σ σ' : reachable σ → sys_step σ σ' → reachable σ'.

(** Where the closes are: delivered, in a flush, queued, or waiting for their open *)
Definition delivered (l : list delivery) : list (string * string) :=
  omap (λ d, match d with Close id reason => Some (id, reason) | Open _ => None end) l.
Definition pending (σ : system) : list (string * string) :=
  delivered (log σ) ++ concat (flushing σ) ++ closes (note σ).

Record notify_ok (σ : system) : Prop := {
  n_hooks : hooks (note σ) = true;
  (* ids whose open is not settled *)
  n_opening : ∀ id, id ∈ opening (note σ) → id ∈ begun σ;
  n_delivering : ∀ id, id ∈ delivering σ → id ∈ opening (note σ);
  n_settled : ∀ id, id ∈ begun σ → id ∉ delivering σ → Open id ∈ log σ;
  (* a deferred close waits for an open *)
  n_deferred : ∀ id reason, deferred (note σ) !! id = Some reason →
                 id ∈ opening (note σ) ∧ closed σ !! id = Some reason;
  (* every other close is somewhere, once, and its open is settled *)
  n_pending : ∀ id reason, (id, reason) ∈ pending σ →
                closed σ !! id = Some reason ∧ id ∉ opening (note σ) ∧ Open id ∈ log σ;
  n_once : NoDup (map fst (pending σ));
  n_all : ∀ id reason, closed σ !! id = Some reason →
            id ∈ begun σ ∧ (deferred (note σ) !! id = Some reason ∨ (id, reason) ∈ pending σ);
  (* opens and closes in the log *)
  n_begun : ∀ id, Open id ∈ log σ → id ∈ begun σ ∧ id ∉ delivering σ;
  n_opens : NoDup (omap (λ d, match d with Open id => Some id | _ => None end) (log σ));
  n_order : ∀ i id reason, log σ !! i = Some (Close id reason) →
              ∃ j, j < i ∧ log σ !! j = Some (Open id);
}.

Lemma delivered_app l k : delivered (l ++ k) = delivered l ++ delivered k.
Proof. apply omap_app. Qed.

Lemma order_snoc l d :
  (∀ i id reason, l !! i = Some (Close id reason) → ∃ j, j < i ∧ l !! j = Some (Open id)) →
  (∀ id reason, d = Close id reason → Open id ∈ l) →
  ∀ i id reason, (l ++ [d]) !! i = Some (Close id reason) → ∃ j, j < i ∧ (l ++ [d]) !! j = Some (Open id).
Proof.
  intros Hl Hd i id reason [Hi|[Hlen Hi]]%lookup_app_Some.
  - destruct (Hl i id reason Hi) as (j & Hj & Hopen). exists j. split; [done|]. by apply lookup_app_l_Some.
  - apply list_lookup_singleton_Some in Hi as [Hi ->].
    destruct (list_elem_of_lookup_1 _ _ (Hd id reason eq_refl)) as [j Hj]. exists j.
    pose proof (lookup_lt_Some _ _ _ Hj). split; [lia|]. by apply lookup_app_l_Some.
Qed.

Lemma pending_flush σ :
  hooks (note σ) = true →
  delivered (log σ) ++ concat ((flush_locked (note σ)).2 :: flushing σ) ++ closes (flush_locked (note σ)).1
  ≡ₚ pending σ.
Proof.
  intros Hh. rw /flush_locked Hh /pending /=. rw app_nil_r. apply Permutation_app_head. apply Permutation_app_comm.
Qed.

Lemma pending_deliver σ before id reason due after :
  flushing σ = before ++ ((id, reason) :: due) :: after →
  delivered (log σ ++ [Close id reason]) ++ concat (before ++ due :: after) ++ closes (note σ) ≡ₚ pending σ.
Proof.
  intros Hf. rw /pending Hf delivered_app !concat_app /= -!app_assoc. apply Permutation_app_head.
  simpl. rw -!app_assoc. apply Permutation_middle.
Qed.

Lemma pending_perm (l k : list (string * string)) P :
  l ≡ₚ k → (∀ x, x ∈ k → P x) → NoDup (map fst k) → (∀ x, x ∈ l → P x) ∧ NoDup (map fst l).
Proof.
  intros Hp Hk Hnd. split; [intros x; rw Hp; auto|]. by rw Hp.
Qed.

Lemma notify_begin σ id : notify_ok σ → id ∉ begun σ →
  notify_ok {| note := BeginOpen id (note σ); begun := {[id]} ∪ begun σ; delivering := {[id]} ∪ delivering σ;
               closed := closed σ; flushing := flushing σ; log := log σ |}.
Proof.
  intros [Hh Ho Hd Hs Hdef Hp Hnd Hall Hb Hop Hord] Hid. rw /BeginOpen Hh /=.
  split; cbn [note begun delivering closed flushing log hooks opening deferred closes]; try done.
  - set_solver.
  - set_solver.
  - intros x Hx Hxd. apply Hs; set_solver.
  - intros x r Hx. destruct (Hdef x r Hx). set_solver.
  - intros x r Hx. destruct (Hp x r Hx) as (Hc & Hno & Hopen). split; [done|]. split; [|done].
    destruct (Hall x r Hc). set_solver.
  - intros x r Hx. destruct (Hall x r Hx). set_solver.
  - intros x Hx. destruct (Hb x Hx). set_solver.
Qed.

Lemma notify_open σ id calls : notify_ok σ → id ∈ delivering σ →
  notify_ok {| note := deliver calls (note σ); begun := begun σ; delivering := delivering σ ∖ {[id]};
               closed := closed σ; flushing := flushing σ; log := log σ ++ [Open id] |}.
Proof.
  intros [Hh Ho Hd Hs Hdef Hp Hnd Hall Hb Hop Hord] Hid.
  assert (Hpend : pending {| note := deliver calls (note σ); begun := begun σ; delivering := delivering σ ∖ {[id]};
             closed := closed σ; flushing := flushing σ; log := log σ ++ [Open id] |} = pending σ).
  { rw /pending /= delivered_app /=. by rw app_nil_r. }
  split; rw ?Hpend; cbn [note begun delivering closed flushing log hooks opening deferred closes deliver]; try done.
  - set_solver.
  - intros x Hx Hxd. rw elem_of_app list_elem_of_singleton. destruct (decide (x = id)) as [->|]; [by right|].
    left. apply Hs; set_solver.
  - intros x r Hx. destruct (Hp x r Hx) as (Hc & Hno & Hopen). split; [done|]. split; [done|].
    apply elem_of_app. by left.
  - intros x [Hx|Hx%list_elem_of_singleton]%elem_of_app; [destruct (Hb x Hx); set_solver|].
    injection Hx as ->. split; [by apply Ho, Hd|set_solver].
  - rw omap_app /=. apply NoDup_app. split; [done|]. split; [|apply NoDup_singleton].
    intros x Hx ->%list_elem_of_singleton. apply list_elem_of_omap in Hx as ([y|y r] & Hy & Hxy); [|done].
    injection Hxy as ->. by destruct (Hb id Hy).
  - by apply order_snoc.
Qed.

Lemma notify_opened σ id : notify_ok σ → Open id ∈ log σ → id ∈ opening (note σ) →
  notify_ok {| note := opened_locked id (note σ); begun := begun σ; delivering := delivering σ;
               closed := closed σ; flushing := flushing σ; log := log σ |}.
Proof.
  intros [Hh Ho Hd Hs Hdef Hp Hnd Hall Hb Hop Hord] Hopen Hid.
  assert (Hfresh : id ∉ map fst (pending σ)).
  { intros ([x r] & Hx & Hin)%list_elem_of_fmap. simpl in Hx. subst x. by destruct (Hp id r Hin) as (_ & ? & _). }
  rw /pending in Hfresh, Hp, Hnd, Hall.
  set more := match deferred (note σ) !! id with Some reason => [(id, reason)] | None => [] end.
  split; rw /pending; cbn [note begun delivering closed flushing log hooks opening deferred closes opened_locked];
    rw -/more; try done.
  - set_solver.
  - intros x Hx. destruct (Hb id Hopen). set_solver.
  - intros x r [Hne Hx]%lookup_delete_Some. destruct (Hdef x r Hx). set_solver.
  - intros x r. rw !app_assoc elem_of_app -!app_assoc. intros [Hx|Hx].
    + destruct (Hp x r Hx) as (? & ? & ?). set_solver.
    + rw /more in Hx. destruct (deferred (note σ) !! id) as [r'|] eqn:Hr; [|by apply elem_of_nil in Hx].
      apply list_elem_of_singleton in Hx. injection Hx as -> ->. destruct (Hdef id r' Hr). set_solver.
  - rw !app_assoc map_app -!app_assoc. apply NoDup_app. split; [done|]. rw /more.
    destruct (deferred (note σ) !! id); simpl; (split; [|try apply NoDup_singleton; try constructor]).
    + by intros x Hx ->%list_elem_of_singleton.
    + by intros x Hx ?%elem_of_nil.
  - intros x r Hx. destruct (Hall x r Hx) as (Hxb & Hwhere). split; [done|].
    rw !app_assoc elem_of_app -!app_assoc.
    destruct Hwhere as [Hw|Hw]; [|by right; left]. rw /more. destruct (decide (x = id)) as [->|Hne].
    + rw Hw. right. right. left.
    + left. by rw lookup_delete_ne.
Qed.

Lemma notify_close σ id reason : notify_ok σ → id ∈ begun σ → closed σ !! id = None →
  notify_ok {| note := QueueClose id reason (note σ); begun := begun σ; delivering := delivering σ;
               closed := <[id := reason]> (closed σ); flushing := flushing σ; log := log σ |}.
Proof.
  intros [Hh Ho Hd Hs Hdef Hp Hnd Hall Hb Hop Hord] Hid Hnone.
  assert (Hfresh : id ∉ map fst (pending σ)).
  { intros ([x r] & Hx & Hin)%list_elem_of_fmap. simpl in Hx. subst x.
    destruct (Hp id r Hin) as (? & _). congruence. }
  rw /pending in Hfresh, Hp, Hnd, Hall. rw /QueueClose Hh. cbn [negb].
  case_bool_decide as Hopen; split; rw /pending;
    cbn [note begun delivering closed flushing log hooks opening deferred closes]; try done.
  - intros x r. rw !lookup_insert_Some. intros [[-> ->]|[Hne Hx]]; [auto|].
    destruct (Hdef x r Hx). auto.
  - intros x r Hx. destruct (Hp x r Hx) as (? & ? & ?). rw lookup_insert_Some. split; [|done]. right.
    split; [|done]. intros <-. congruence.
  - intros x r. rw !lookup_insert_Some. intros [[-> ->]|[Hne Hx]]; [auto|].
    destruct (Hall x r Hx). naive_solver.
  - intros x r Hx. destruct (Hdef x r Hx). rw lookup_insert_Some. split; [done|]. right.
    split; [|done]. intros <-. congruence.
  - intros x r. rw !app_assoc elem_of_app -!app_assoc list_elem_of_singleton lookup_insert_Some.
    intros [Hx|[= -> ->]].
    + destruct (Hp x r Hx) as (? & ? & ?). split; [|done]. right. split; [|done]. intros <-. congruence.
    + split; [by left|]. split; [done|]. apply Hs; [done|]. intros Hx. by apply Hopen, Hd.
  - rw !app_assoc map_app -!app_assoc. apply NoDup_app. split; [done|]. split; [|apply NoDup_singleton].
    by intros x Hx ->%list_elem_of_singleton.
  - intros x r. rw lookup_insert_Some !app_assoc elem_of_app -!app_assoc list_elem_of_singleton.
    intros [[-> ->]|[Hne Hx]]; [auto|]. destruct (Hall x r Hx). naive_solver.
Qed.

Lemma notify_flush σ : notify_ok σ →
  notify_ok {| note := (flush_locked (note σ)).1; begun := begun σ; delivering := delivering σ;
               closed := closed σ; flushing := (flush_locked (note σ)).2 :: flushing σ; log := log σ |}.
Proof.
  intros [Hh Ho Hd Hs Hdef Hp Hnd Hall Hb Hop Hord].
  pose proof (pending_flush σ Hh) as Hperm.
  split; rw /pending; cbn [note begun delivering closed flushing log];
    try done; try (rw /flush_locked Hh; done).
  - intros x r. rw Hperm. rw /flush_locked Hh. apply Hp.
  - by rw Hperm.
  - intros x r Hx. rw Hperm. rw /flush_locked Hh. by apply Hall.
Qed.

Lemma notify_deliver σ before id reason due after calls : notify_ok σ →
  flushing σ = before ++ ((id, reason) :: due) :: after →
  notify_ok {| note := deliver calls (note σ); begun := begun σ; delivering := delivering σ;
               closed := closed σ; flushing := before ++ due :: after; log := log σ ++ [Close id reason] |}.
Proof.
  intros [Hh Ho Hd Hs Hdef Hp Hnd Hall Hb Hop Hord] Hf.
  pose proof (pending_deliver σ before id reason due after Hf) as Hperm.
  assert (Hid : Open id ∈ log σ).
  { apply (Hp id reason). rw -Hperm delivered_app /= !elem_of_app. left. right. left. }
  split; rw /pending; cbn [note begun delivering closed flushing log hooks opening deferred closes deliver]; try done.
  - intros x Hx Hxd. apply elem_of_app. left. by apply Hs.
  - intros x r. rw Hperm. intros Hx. destruct (Hp x r Hx) as (? & ? & ?). rw elem_of_app. auto.
  - by rw Hperm.
  - intros x r Hx. rw Hperm. by apply Hall.
  - intros x [Hx|Hx%list_elem_of_singleton]%elem_of_app; [auto|done].
  - by rw omap_app /= app_nil_r.
  - apply order_snoc; [done|]. intros x r [= <- <-]. done.
Qed.

Lemma notify_start : notify_ok start.
Proof.
  split; simpl; try done; try set_solver; try apply NoDup_nil_2.
Qed.

Lemma reachable_ok σ : reachable σ → notify_ok σ.
Proof.
  induction 1 as [|σ σ' Hr IH Hstep]; [apply notify_start|].
  destruct Hstep; eauto using notify_begin, notify_open, notify_opened, notify_close, notify_flush, notify_deliver.
Qed.

(** Nothing in flight: every open settled, every flush done, nothing queued *)
Definition quiet (σ : system) : Prop :=
  opening (note σ) = ∅ ∧ Forall (λ due, due = []) (flushing σ) ∧ closes (note σ) = [].

Lemma concat_nil (l : list (list (string * string))) : Forall (λ due, due = []) l → concat l = [].
Proof. induction 1 as [|x l -> Hl IH]; done. Qed.

(** an observer hears each session once, and in order.  However opens, closes and flushes
    interleave: every delivered close comes after its session's open, no open and no close is
    delivered twice, only closes the store asked for are delivered, with their reasons; and when
    nothing is in flight every close asked for has been delivered. *)
Theorem observers_hear_in_order (σ : system) :
  reachable σ →
  (∀ i id reason, log σ !! i = Some (Close id reason) →
     closed σ !! id = Some reason ∧ ∃ j, j < i ∧ log σ !! j = Some (Open id)) ∧
  NoDup (map fst (delivered (log σ))) ∧
  NoDup (omap (λ d, match d with Open id => Some id | _ => None end) (log σ)) ∧
  (quiet σ → ∀ id reason, closed σ !! id = Some reason → Close id reason ∈ log σ).
Proof.
  intros [Hh Ho Hd Hs Hdef Hp Hnd Hall Hb Hop Hord]%reachable_ok. split; [|split; [|split; [done|]]].
  - intros i id reason Hi. split; [|by eapply Hord]. apply (Hp id reason). apply elem_of_app. left.
    apply list_elem_of_omap. exists (Close id reason). split; [by eapply list_elem_of_lookup_2|done].
  - rw /pending map_app in Hnd. by apply NoDup_app in Hnd as [? _].
  - intros (Hnone & Hflush & Hcl) id reason Hc. destruct (Hall id reason Hc) as [_ [Hw|Hw]].
    + destruct (Hdef id reason Hw) as [Hin _]. rw Hnone in Hin. set_solver.
    + rw /pending concat_nil // Hcl /= app_nil_r in Hw.
      apply list_elem_of_omap in Hw as ([x|x r] & Hx & Hxe); [done|]. by injection Hxe as -> ->.
Qed.

(** A session closed while its open is being delivered *)
Definition raced : system :=
  {| note := {| hooks := true; refused := false; opening := ∅; deferred := ∅; closes := [];
                failures := 1; slow := 0 |};
     begun := {["s"]}; delivering := ∅; closed := {["s" := "timeout"]}; flushing := [[]];
     log := [Open "s"; Close "s" "timeout"] |}.

Lemma raced_reachable : reachable raced.
Proof.
  eapply reach_step; [eapply reach_step; [eapply reach_step; [eapply reach_step; [eapply reach_step;
    [eapply reach_step; [apply reach_start|]|]|]|]|]|].
  - by apply (sys_begin _ "s").
  - apply (sys_close _ "s" "timeout"); [set_solver|done].
  - apply (sys_open _ "s" [(true, 5%Z)]). set_solver.
  - apply (sys_opened _ "s"); [left|vm_compute; set_solver].
  - apply sys_flush.
  - match goal with |- sys_step ?a _ => pose proof (sys_deliver a [] "s" "timeout" [] [] [] eq_refl) as Hs end.
    exact Hs.
Defined.

Lemma observers_hear_in_order_witness :
  reachable raced ∧ closed raced !! "s" = Some "timeout" ∧
  ∃ j, j < 1 ∧ log raced !! j = Some (Open "s").
Proof.
  split; [exact raced_reachable|].
  refine (proj1 (observers_hear_in_order raced raced_reachable) 1 "s" "timeout" _). reflexivity.
Defined.
