(* ===== verification/PolicyTypes.v ===== *)
(** * What the store's parts share ([src/src/include/acl_policy.hpp])

    Principals, the limits a session's resource groups give it, and the bounds on the texts a client may
    send along with a statement. *)
From S2P Require Import Prelude.

(** Whom a token, a session or a role prefix names; [claims] is case insensitive.  The structure is the
    hooks' contract's: these are the fields the store reads and writes. *)
Record Principal := {
  issuer : string;
  subject : string;
  roles : list string;
  claims : list (string * string);
}.
Definition no_principal : Principal :=
  {| issuer := EmptyString; subject := EmptyString; roles := []; claims := [] |}.

(** A session's limits; an unset one means the node's setting *)
Record ResourceLimits := {
  groups : list string;
  charged : string;
  charged_max : N;
  window_start : option N;
  window_max : option N;
  batch_bytes : option N;
  max_result_rows : option N;
  queue_priority : Z;
  admitted : bool;
  refusal : string;
}.
Definition no_limits : ResourceLimits :=
  {| groups := []; charged := EmptyString; charged_max := 0; window_start := None; window_max := None;
     batch_bytes := None; max_result_rows := None; queue_priority := 0; admitted := true; refusal := EmptyString |}.

(** ** Bounded texts *)

(** [(c & 0xC0) == 0x80]: a byte inside a character *)
Definition continuation (c : ascii) : bool := Nat.eqb (Nat.land (nat_of_ascii c) 192) 128.
Definition at_byte (text : string) (i : nat) : ascii := default "000"%char (String.get i text).

(** The start of the character that byte [cut] is in *)
Fixpoint back_off (text : string) (cut : nat) : nat :=
  match cut with
  | O => O
  | S cut' => if continuation (at_byte text cut) then back_off text cut' else cut
  end.

Definition TruncateUtf8 (text : string) (max_bytes : nat) : string :=
  if String.length text <=? max_bytes then text
  else String.substring 0 (back_off text max_bytes) text.

Fixpoint string_filter (p : ascii → bool) (s : string) : string :=
  match s with
  | EmptyString => EmptyString
  | String c s' => if p c then String c (string_filter p s') else string_filter p s'
  end.

Definition printable (c : ascii) : bool := (32 <=? nat_of_ascii c) && negb (nat_of_ascii c =? 127).
Definition BoundTrace (value : string) : string := TruncateUtf8 (string_filter printable value) 128.
Definition BoundLineage (value : string) : string := TruncateUtf8 value 512.

(** *** UTF-8: characters are a lead byte and its continuation bytes *)

(** How many continuation bytes follow a lead byte; none when it is no lead *)
Definition lead (c : ascii) : option nat :=
  let n := nat_of_ascii c in
  if n <? 128 then Some 0
  else if n <? 192 then None
  else if n <? 224 then Some 1
  else if n <? 240 then Some 2
  else if n <? 248 then Some 3
  else None.

Inductive utf8 : string → Prop :=
  | utf8_nil : utf8 EmptyString
  | utf8_char c more rest :
      lead c = Some (String.length more) → string_forallb continuation more = true → utf8 rest →
      utf8 (String c more +:+ rest).

Lemma lead_not_continuation c n : lead c = Some n → continuation c = false.
Proof. by destruct c as [[] [] [] [] [] [] [] []]. Qed.

Lemma lead_bound c n : lead c = Some n → n ≤ 3.
Proof. rw /lead. repeat case_match; intros [= <-]; lia. Qed.

Lemma at_byte_app_l a b i : i < String.length a → at_byte (a +:+ b) i = at_byte a i.
Proof. intros Hi. rw /at_byte. by rw -(String.append_correct1 a b i Hi). Qed.

Lemma at_byte_app_r a b i : at_byte (a +:+ b) (String.length a + i) = at_byte b i.
Proof. rw /at_byte Nat.add_comm. by rw -String.append_correct2. Qed.

Lemma back_off_le text cut : back_off text cut ≤ cut.
Proof. induction cut as [|cut IH]; simpl; [done|]. case_match; lia. Qed.

(** Inside the first character: back to the start *)
Lemma back_off_inside c more rest cut :
  string_forallb continuation more = true → cut ≤ String.length more →
  back_off (String c more +:+ rest) cut = 0.
Proof.
  intros Hmore. induction cut as [|cut IH]; intros Hcut; [done|]. cbn [back_off].
  rw at_byte_app_l /=; [lia|].
  assert (Hc : continuation (at_byte (String c more) (S cut)) = true).
  { clear IH. revert cut Hcut. induction more as [|d more IHm]; intros cut Hcut; simpl in *; [lia|].
    apply andb_prop in Hmore as [Hd Hm]. destruct cut as [|cut]; [done|]. apply (IHm Hm). lia. }
  rw Hc. apply IH. lia.
Qed.

(** Past the first character *)
Lemma back_off_past a rest i :
  (∀ c, String.get 0 rest = Some c → continuation c = false) → i < String.length rest → a ≠ EmptyString →
  back_off (a +:+ rest) (String.length a + i) = String.length a + back_off rest i.
Proof.
  intros Hrest. induction i as [|i IH]; intros Hi Ha.
  - destruct a as [|c a]; [done|]. rw Nat.add_0_r. cbn [String.length back_off].
    pose proof (at_byte_app_r (String c a) rest 0) as Hat. rw Nat.add_0_r in Hat. cbn [String.length] in Hat.
    rw Hat. destruct rest as [|d rest]; [simpl in Hi; lia|]. rw /at_byte (Hrest d) //=.
  - rw Nat.add_succ_r. cbn [back_off]. rw -Nat.add_succ_r at_byte_app_r.
    case_match; [|done]. apply IH; [lia|done].
Qed.

Lemma utf8_start text : utf8 text → ∀ c, String.get 0 text = Some c → continuation c = false.
Proof. intros [|c more rest Hl _ _] d; simpl; [done|]. intros [= <-]. by eapply lead_not_continuation. Qed.

Lemma substring_app_past a b n : String.substring 0 (String.length a + n) (a +:+ b) = a +:+ String.substring 0 n b.
Proof. induction a as [|c a IH]; [done|]. rw !string_app_cons /=. by rw IH. Qed.

Lemma substring_zero s : String.substring 0 0 s = EmptyString.
Proof. by destruct s. Qed.

Lemma back_off_utf8 text cut :
  utf8 text → cut < String.length text →
  utf8 (String.substring 0 (back_off text cut) text) ∧ cut ≤ back_off text cut + 3.
Proof.
  intros Htext. revert cut. induction Htext as [|c more rest Hl Hm Hrest IH]; intros cut Hcut; [simpl in Hcut; lia|].
  destruct (decide (cut ≤ String.length more)) as [Hin|Hpast].
  - rw back_off_inside // substring_zero. split; [constructor|]. apply lead_bound in Hl. lia.
  - rw string_length_app in Hcut. cbn [String.length] in Hcut.
    replace cut with (String.length (String c more) + (cut - S (String.length more)))
      by (cbn [String.length]; lia).
    rw back_off_past; [by apply utf8_start|lia|done|]. rw substring_app_past.
    destruct (IH (cut - S (String.length more))) as [Hu Hle]; [lia|]. split; [by constructor|lia].
Qed.

Lemma substring_prefix_of n s : ∃ rest, s = String.substring 0 n s +:+ rest.
Proof.
  revert n. induction s as [|c s IH]; intros n; [by exists EmptyString; destruct n|].
  destruct n as [|n]; [by exists (String c s)|]. destruct (IH n) as [rest Hrest]. exists rest.
  simpl. by rw string_app_cons -Hrest.
Qed.

Lemma substring_length n s : n ≤ String.length s → String.length (String.substring 0 n s) = n.
Proof.
  revert n. induction s as [|c s IH]; intros [|n] Hn; simpl in *; try lia; [done..|]. rw IH; lia.
Qed.

(** A cut never splits a character, never exceeds the bound, and loses at most three bytes more than it must *)
Lemma TruncateUtf8_spec text max_bytes :
  utf8 text →
  utf8 (TruncateUtf8 text max_bytes) ∧
  String.length (TruncateUtf8 text max_bytes) ≤ max_bytes ∧
  (∃ rest, text = TruncateUtf8 text max_bytes +:+ rest) ∧
  (max_bytes < String.length text → max_bytes ≤ String.length (TruncateUtf8 text max_bytes) + 3).
Proof.
  intros Htext. rw /TruncateUtf8. destruct (Nat.leb_spec (String.length text) max_bytes) as [Hle|Hlt].
  - split; [done|]. split; [done|]. split; [|lia]. exists EmptyString. by rw string_app_nil_r.
  - destruct (back_off_utf8 text max_bytes Htext Hlt) as [Hu Hle].
    pose proof (back_off_le text max_bytes). rw substring_length; [lia|].
    split; [done|]. split; [done|]. split; [apply substring_prefix_of|done].
Qed.

Lemma string_forallb_filter p s : string_forallb p (string_filter p s) = true.
Proof. induction s as [|c s IH]; [done|]. simpl. by destruct (p c) eqn:Hc; rw /= ?Hc. Qed.

Lemma string_forallb_substring p n s : string_forallb p s = true → string_forallb p (String.substring 0 n s) = true.
Proof.
  revert n. induction s as [|c s IH]; intros n; [by destruct n|]. simpl. intros [Hc Hs]%andb_prop.
  destruct n as [|n]; [done|]. simpl. by rw Hc IH.
Qed.

Lemma TruncateUtf8_length text max_bytes : String.length (TruncateUtf8 text max_bytes) ≤ max_bytes.
Proof.
  rw /TruncateUtf8. destruct (Nat.leb_spec (String.length text) max_bytes) as [|Hlt]; [done|].
  pose proof (back_off_le text max_bytes). rw substring_length; lia.
Qed.

(** what a client sends along is bounded and stays text.  A cut text is a prefix of the one given,
    within the bound and at most three bytes short of it, and well-formed UTF-8 when that was; a trace is
    at most 128 bytes with no control character, a lineage reference at most 512; and bounding again
    changes nothing. *)
Theorem texts_are_bounded (text : string) (max_bytes : nat) :
  String.length (TruncateUtf8 text max_bytes) ≤ max_bytes ∧
  TruncateUtf8 (TruncateUtf8 text max_bytes) max_bytes = TruncateUtf8 text max_bytes ∧
  (∃ rest, text = TruncateUtf8 text max_bytes +:+ rest) ∧
  (utf8 text → utf8 (TruncateUtf8 text max_bytes) ∧
     (max_bytes < String.length text → max_bytes ≤ String.length (TruncateUtf8 text max_bytes) + 3)) ∧
  String.length (BoundTrace text) ≤ 128 ∧ string_forallb printable (BoundTrace text) = true ∧
  String.length (BoundLineage text) ≤ 512.
Proof.
  pose proof (TruncateUtf8_length text max_bytes) as Hlen. split_and!; [done| | | |apply TruncateUtf8_length| |apply TruncateUtf8_length].
  - rw {1}/TruncateUtf8. by apply Nat.leb_le in Hlen as ->.
  - rw /TruncateUtf8. case_match; [by exists EmptyString; rw string_app_nil_r|apply substring_prefix_of].
  - intros Hu. by destruct (TruncateUtf8_spec text max_bytes Hu) as (? & _ & _ & ?).
  - rw /BoundTrace /TruncateUtf8. case_match; [|apply string_forallb_substring]; apply string_forallb_filter.
Qed.

(** An accented word cut inside its last character *)
Definition accented : string := "caf" +:+ str1 "195" +:+ str1 "169".
Lemma texts_are_bounded_witness : TruncateUtf8 accented 4 = "caf" ∧ utf8 (TruncateUtf8 accented 4).
Proof.
  split; [reflexivity|].
  refine (proj1 (proj1 (proj2 (proj2 (proj2 (texts_are_bounded accented 4)))) _)).
  apply (utf8_char "c" EmptyString ("af" +:+ str1 "195" +:+ str1 "169")); [reflexivity|reflexivity|].
  apply (utf8_char "a" EmptyString ("f" +:+ str1 "195" +:+ str1 "169")); [reflexivity|reflexivity|].
  apply (utf8_char "f" EmptyString (str1 "195" +:+ str1 "169")); [reflexivity|reflexivity|].
  apply (utf8_char "195" (str1 "169") EmptyString); [reflexivity|reflexivity|constructor].
Defined.
