(* ===== verification/AdminRights.v ===== *)
(** * Administration rights ([src/src/acl_policy.cpp], [src/src/acl_platform.cpp])

    The administration bundles and the point grants on the [platform] catalog: the memory store's
    writes ([GrantAdmin], [RevokeAdmin], [GrantPlatform], [RevokePlatform]), the rights a principal
    has of them ([AdminRightsOf]) and what the authorizer makes of those rights ([PlatformAccess],
    [MayOperateNode], [ViewAsRefusal]).  With a policy catalog the rows come from it: they are an
    argument ([catalog_rows]). *)
From S2P Require Import Prelude PolicyTypes.

(** ** Scopes and rights *)

Inductive AdminScope := OBSERVE | OPERATE | CLUSTER | POLICY | MANAGE | PASSTHROUGH.
#[export] Instance AdminScope_eq_dec : EqDecision AdminScope.
Proof. solve_decision. Defined.

Definition AdminScopeName (scope : AdminScope) : string :=
  match scope with
  | PASSTHROUGH => "passthrough"
  | MANAGE => "manage"
  | POLICY => "policy"
  | OBSERVE => "observe"
  | OPERATE => "operate"
  | CLUSTER => "cluster"
  end.


(** [std::set<string>]: the elements in byte order, each once *)
Fixpoint set_insert (x : string) (s : list string) : list string :=
  match s with
  | [] => [x]
  | y :: s' =>
      match String.compare x y with
      | Eq => s
      | Lt => x :: s
      | Gt => y :: set_insert x s'
      end
  end.
Definition set_erase (x : string) (s : list string) : list string :=
  List.filter (λ y, negb (String.eqb y x)) s.
Definition set_count (x : string) (s : list string) : bool := existsb (String.eqb x) s.

(** What a principal may administer; [platform] maps [<kind>:<object>] to whether it is allowed *)
Record AdminRights := {
  passthrough : bool;
  unrestricted_manage : bool;
  observe : bool;
  operate : bool;
  cluster : bool;
  unknown_scope : bool;
  catalogs : list string;
  platform : gmap string bool;
}.
Definition no_rights : AdminRights :=
  {| passthrough := false; unrestricted_manage := false; observe := false; operate := false;
     cluster := false; unknown_scope := false; catalogs := []; platform := ∅ |}.

(** The platform registry's entries *)
Inductive PlatformViewClass := V_NODE | V_POLICY | V_CATALOG | V_ROLES | V_CLUSTER.
Inductive PlatformRight := R_CATALOG | R_POLICY | R_HANDS_OUT | R_ESCALATES | R_INFRASTRUCTURE | R_OPERATE | R_OPEN.
Record PlatformView := {
  vname : string;
  view_class : PlatformViewClass;
  (* name and type *)
  vcolumns : list (string * string);
  vcomment : string;
  (* a registered view's own SELECT *)
  vbody : option string;
}.
Record PlatformParam := { prm_name : string; authz : bool; prm_type : string; fallback : string }.
Record PlatformFunction := {
  pname : string;
  target : string;
  params : list PlatformParam;
  arities : list nat;
  catalog_arg : option nat;
  right : PlatformRight;
  table : bool;
  returns : string;
  fcomment : string;
  (* a registered function's rule on one argument, and its refusal of a value *)
  rule_arg : option nat;
  rule : option (string → bool);
  rule_refusal : option (string → string);
}.

#[export] Instance PlatformViewClass_eq_dec : EqDecision PlatformViewClass.
Proof. solve_decision. Defined.
#[export] Instance PlatformRight_eq_dec : EqDecision PlatformRight.
Proof. solve_decision. Defined.

Definition PlatformGrantRow : Type := string * string * string * bool. (* role, kind, object, allowed *)
Definition g_role (g : PlatformGrantRow) : string := g.1.1.1.
Definition g_kind (g : PlatformGrantRow) : string := g.1.1.2.
Definition g_object (g : PlatformGrantRow) : string := g.1.2.
Definition g_allowed (g : PlatformGrantRow) : bool := g.2.

(** The memory store's part *)
Record admin_store := {
  admin_scopes : list (string * list string);
  platform_grants : list PlatformGrantRow;
}.
Definition no_admins : admin_store := {| admin_scopes := []; platform_grants := [] |}.

(** What a policy catalog answers for a principal: the catalogs it manages, the rows of [admins]
    (scope, catalog) and the point grants (key, allowed) *)
Record catalog_rows := {
  managed : list string;
  admin_rows : list (string * string);
  point_rows : list (string * bool);
}.

Section admin.
Context `{SU : StringUtil}.

(** Whether a linked module brought the [cluster] scope *)
Variable cluster_registered : bool.

Definition TryParseAdminScope (scope : string) : option AdminScope :=
  if CIEquals scope "passthrough" then Some PASSTHROUGH
  else if CIEquals scope "manage" then Some MANAGE
  else if CIEquals scope "policy" then Some POLICY
  else if CIEquals scope "observe" then Some OBSERVE
  else if CIEquals scope "operate" then Some OPERATE
  else if CIEquals scope "cluster" && cluster_registered then Some CLUSTER
  else None.

Definition GrantableAdminScopes : list string :=
  map AdminScopeName (List.filter (λ scope, negb (bool_decide (scope = CLUSTER)) || cluster_registered)
                        [OBSERVE; OPERATE; CLUSTER; POLICY; MANAGE; PASSTHROUGH]).

Definition ParseAdminScope (scope : string) : outcome AdminScope :=
  match TryParseAdminScope scope with
  | Some out => Ok out
  | None => Throw ("acl admin: unknown admin scope " +:+ quoted scope +:+ " (expected "
                   +:+ join ", " GrantableAdminScopes +:+ ")")
  end.

(** *** The memory store's writes *)

Definition ThrowNothingToRevoke {A} (role what : string) : outcome A :=
  Throw ("acl admin: " +:+ (if is_empty role then "ALL ROLES" else "role " +:+ quoted role)
         +:+ " holds no " +:+ what +:+ " - nothing to revoke").

Definition scopes_of (role : string) (st : admin_store) : list string :=
  default [] (ci_find role (admin_scopes st)).

Definition GrantAdmin (role : string) (scope : AdminScope) (st : admin_store) : admin_store :=
  {| admin_scopes := ci_set role (set_insert (AdminScopeName scope) (scopes_of role st)) (admin_scopes st);
     platform_grants := platform_grants st |}.

(** Whether holding one bundle carries another *)
Definition implies_scope (holds name : string) : bool :=
  (String.eqb holds "manage" && (String.eqb name "policy" || String.eqb name "observe"))
  || (String.eqb holds "operate" && String.eqb name "observe")
  || (String.eqb holds "cluster" && (String.eqb name "operate" || String.eqb name "observe"))
  || (String.eqb holds "passthrough" && negb (String.eqb name "passthrough")).

Definition RevokeAdmin (role scope : string) (st : admin_store) : outcome admin_store :=
  if is_empty scope then
    let kept := List.filter (λ g, negb (CIEquals (g_role g) role)) (platform_grants st) in
    if negb (bool_decide (is_Some (ci_find role (admin_scopes st))))
       && Nat.eqb (length kept) (length (platform_grants st))
    then ThrowNothingToRevoke role "administration"
    else Ok {| admin_scopes := ci_erase role (admin_scopes st); platform_grants := kept |}
  else
    match ci_find role (admin_scopes st) with
    | None => Throw ("acl admin: role " +:+ quoted role +:+ " does not hold " +:+ scope
                     +:+ " - nothing to revoke")
    | Some holds =>
        parsed ← ParseAdminScope scope;
        let name := AdminScopeName parsed in
        match List.find (λ h, implies_scope h name) holds with
        | Some h => Throw ("acl admin: role " +:+ quoted role +:+ " holds " +:+ h +:+ ", which carries "
                           +:+ name +:+ " - revoke " +:+ h +:+ " (and grant what should stay)")
        | None =>
            if negb (set_count name holds) then
              Throw ("acl admin: role " +:+ quoted role +:+ " does not hold " +:+ name
                     +:+ " - nothing to revoke")
            else
              let left := set_erase name holds in
              Ok {| admin_scopes := match left with
                                    | [] => ci_erase role (admin_scopes st)
                                    | _ => ci_set role left (admin_scopes st)
                                    end;
                    platform_grants := platform_grants st |}
        end
    end.

Definition same_grant (role kind object : string) (g : PlatformGrantRow) : bool :=
  CIEquals (g_role g) role && CIEquals (g_kind g) kind && CIEquals (g_object g) object.

(** The first row of that role, kind and object, else a new one *)
Fixpoint grant_platform (role kind object : string) (allowed : bool) (rows : list PlatformGrantRow)
    : list PlatformGrantRow :=
  match rows with
  | [] => [(role, kind, object, allowed)]
  | g :: rows' =>
      if same_grant role kind object g then (g_role g, g_kind g, g_object g, allowed) :: rows'
      else g :: grant_platform role kind object allowed rows'
  end.
Definition GrantPlatform (role kind object : string) (allowed : bool) (st : admin_store) : admin_store :=
  {| admin_scopes := admin_scopes st;
     platform_grants := grant_platform role kind object allowed (platform_grants st) |}.

Definition RevokePlatform (role kind object : string) (st : admin_store) : outcome admin_store :=
  let kept := List.filter (λ g, negb (same_grant role kind object g)) (platform_grants st) in
  if Nat.eqb (length kept) (length (platform_grants st))
  then ThrowNothingToRevoke role ("grant on " +:+ kind +:+ " " +:+ quoted object)
  else Ok {| admin_scopes := admin_scopes st; platform_grants := kept |}.

(** *** The rights of a principal *)

Definition add_catalog (vcat : string) (r : AdminRights) : AdminRights :=
  {| passthrough := passthrough r; unrestricted_manage := unrestricted_manage r; observe := observe r;
     operate := operate r; cluster := cluster r; unknown_scope := unknown_scope r;
     catalogs := set_insert vcat (catalogs r); platform := platform r |}.
Definition mark_unknown (r : AdminRights) : AdminRights :=
  {| passthrough := passthrough r; unrestricted_manage := unrestricted_manage r; observe := observe r;
     operate := operate r; cluster := cluster r; unknown_scope := true;
     catalogs := catalogs r; platform := platform r |}.

Definition ApplyAdminRow (r : AdminRights) (scope_text vcat : string) : AdminRights :=
  match TryParseAdminScope scope_text with
  | None => mark_unknown r
  | Some OBSERVE =>
      if is_empty vcat then
        {| passthrough := passthrough r; unrestricted_manage := unrestricted_manage r; observe := true;
           operate := operate r; cluster := cluster r; unknown_scope := unknown_scope r;
           catalogs := catalogs r; platform := platform r |}
      else mark_unknown r
  | Some OPERATE =>
      if is_empty vcat then
        {| passthrough := passthrough r; unrestricted_manage := unrestricted_manage r; observe := true;
           operate := true; cluster := cluster r; unknown_scope := unknown_scope r;
           catalogs := catalogs r; platform := platform r |}
      else mark_unknown r
  | Some CLUSTER =>
      if is_empty vcat then
        {| passthrough := passthrough r; unrestricted_manage := unrestricted_manage r; observe := true;
           operate := true; cluster := true; unknown_scope := unknown_scope r;
           catalogs := catalogs r; platform := platform r |}
      else mark_unknown r
  | Some (MANAGE as scope) | Some (POLICY as scope) =>
      if negb (is_empty vcat) then add_catalog vcat r
      else
        {| passthrough := passthrough r; unrestricted_manage := true;
           observe := if bool_decide (scope = MANAGE) then true else observe r;
           operate := operate r; cluster := cluster r; unknown_scope := unknown_scope r;
           catalogs := catalogs r; platform := platform r |}
  | Some PASSTHROUGH =>
      {| passthrough := true; unrestricted_manage := unrestricted_manage r; observe := true;
         operate := true; cluster := cluster_registered; unknown_scope := unknown_scope r;
         catalogs := catalogs r; platform := platform r |}
  end.

(** [AdminRightsOf]'s [point]: a deny anywhere among the roles wins *)
Definition point (r : AdminRights) (key : string) (allowed : bool) : AdminRights :=
  {| passthrough := passthrough r; unrestricted_manage := unrestricted_manage r; observe := observe r;
     operate := operate r; cluster := cluster r; unknown_scope := unknown_scope r;
     catalogs := catalogs r;
     platform := match platform r !! key with
                 | None => <[key := allowed]> (platform r)
                 | Some before => <[key := before && allowed]> (platform r)
                 end |}.

Definition point_key (kind object : string) : string := Lower kind +:+ ":" +:+ Lower object.

(** One role of the memory store: its bundles, then its point grants *)
Definition role_rights (st : admin_store) (r : AdminRights) (role : string) : AdminRights :=
  let r := fold_left (λ r scope, ApplyAdminRow r scope EmptyString) (scopes_of role st) r in
  fold_left (λ r g, if CIEquals (g_role g) role
                    then point r (point_key (g_kind g) (g_object g)) (g_allowed g) else r)
    (platform_grants st) r.

(** [rows]: the policy catalog's answer, when there is a catalog *)
Definition AdminRightsOf (rows : option catalog_rows) (st : admin_store) (principal : Principal) : AdminRights :=
  match rows with
  | Some rows =>
      let r := {| passthrough := false; unrestricted_manage := false; observe := false; operate := false;
                  cluster := false; unknown_scope := false; catalogs := managed rows; platform := ∅ |} in
      let r := fold_left (λ r row, ApplyAdminRow r row.1 row.2) (admin_rows rows) r in
      fold_left (λ r row, point r row.1 row.2) (point_rows rows) r
  | None => fold_left (role_rights st) (roles principal) no_rights
  end.

(** *** What the rights allow *)

Definition Policy (r : AdminRights) : bool := passthrough r || unrestricted_manage r.

(** 1 granted, 0 denied, -1 none *)
Definition PlatformGrant (r : AdminRights) (kind object : string) : Z :=
  match platform r !! point_key kind object with
  | None => -1
  | Some true => 1
  | Some false => 0
  end%Z.

Definition Privileged (r : AdminRights) : bool :=
  passthrough r || unrestricted_manage r || observe r || operate r || cluster r || unknown_scope r
  || negb (bool_decide (catalogs r = [])) || negb (bool_decide (platform r = ∅)).

Definition Bundles (r : AdminRights) : list string :=
  (if observe r then ["observe"] else []) ++ (if operate r then ["operate"] else [])
  ++ (if cluster r then ["cluster"] else []) ++ (if unrestricted_manage r then ["policy"] else [])
  ++ (if passthrough r then ["passthrough"] else []).

(** The registry of platform objects *)
Variable Views : list PlatformView.
Variable Functions : list PlatformFunction.

Definition FindPlatformFunction (name : string) : option PlatformFunction :=
  List.find (λ f, CIEquals (pname f) name) Functions.

Definition MayAdminister (r : AdminRights) : bool :=
  passthrough r || unrestricted_manage r || operate r || cluster r || negb (bool_decide (catalogs r = []))
  || existsb (λ grant : string * bool,
       grant.2 && StartsWith grant.1 "function:"
       && bool_decide (is_Some (FindPlatformFunction
            (String.substring 9 (String.length grant.1 - 9) grant.1))))
       (map_to_list (platform r)).

(** Whether the view is read, and whether only the managed catalogs' rows *)
Definition ReadsView (r : AdminRights) (view : PlatformView) : bool * bool :=
  if passthrough r then (true, false)
  else
    let point := PlatformGrant r "view" (vname view) in
    if (point =? 0)%Z then (false, false)
    else if (point =? 1)%Z then (true, false)
    else
      match view_class view with
      | V_NODE => (observe r, false)
      | V_POLICY => (unrestricted_manage r, false)
      | V_CLUSTER => (cluster r, false)
      | V_CATALOG | V_ROLES =>
          if unrestricted_manage r then (true, false)
          else if negb (bool_decide (catalogs r = [])) then (true, true)
          else (false, false)
      end.

Definition Any (r : AdminRights) : bool :=
  passthrough r || unrestricted_manage r || observe r || negb (bool_decide (catalogs r = []))
  || existsb snd (map_to_list (platform r)).

Definition CallsFunction (r : AdminRights) (f : PlatformFunction) : bool :=
  if bool_decide (right f = R_OPEN) then Any r
  else if passthrough r then true
  else
    let point := PlatformGrant r "function" (pname f) in
    if (point =? 0)%Z then false
    else if String.eqb (target f) "acl_session_view_as" then Policy r
    else
      match right f with
      | R_ESCALATES => false
      | R_INFRASTRUCTURE => cluster r
      | other =>
          if (point =? 1)%Z then true
          else
            match other with
            | R_CATALOG => unrestricted_manage r || negb (bool_decide (catalogs r = []))
            | R_POLICY | R_HANDS_OUT => unrestricted_manage r
            | R_OPERATE => operate r
            | _ => false
            end
      end.

Definition MayOperateNode (r : AdminRights) : bool :=
  existsb (λ view, bool_decide (view_class view = V_NODE) && (ReadsView r view).1) Views
  || existsb (λ f, bool_decide (right f = R_OPERATE) && CallsFunction r f) Functions.

(** Why [SET SESSION VIEW AS] is refused, empty when it is not.  [defined] is [RoleDefined]'s answer
    and [rights_of] what [AdminRightsOf] says of a principal with that role alone. *)
Definition ViewAsRefusal (r : AdminRights) (role : string) (defined : bool) (rights_of : Principal → AdminRights)
    : string :=
  if negb (Policy r) then
    "SET SESSION VIEW AS is the policy bundle's - a point grant does not reach it"
  else if is_empty role then EmptyString
  else if negb (passthrough r) && (PlatformGrant r "function" "view_as" =? 0)%Z then
    "platform.view_as is denied to this principal"
  else if negb defined then "role " +:+ quoted role +:+ " does not exist"
  else if negb (passthrough r)
          && Privileged (rights_of {| issuer := EmptyString; subject := EmptyString; roles := [role]; claims := [] |}) then
    quoted role +:+ " holds administration - viewing it would show more than the policy "
    +:+ "bundle reads (the platform's node and cluster views), so it requires a "
    +:+ "passthrough scope"
  else EmptyString.
End admin.

(** ** What the rows mean

    [rights_mean R P C r]: [r] is what the bundle rows [R] (scope as written, catalog or empty), the
    point grants [P] and the managed catalogs [C] say, in whatever order and however often. *)

Section meaning.
Context `{SUL : StringUtilLaws}.
Variable cluster_registered : bool.

Definition said (R : list (string * string)) (scope : AdminScope) : Prop :=
  ∃ text vcat, (text, vcat) ∈ R ∧ TryParseAdminScope cluster_registered text = Some scope.
Definition said_wide (R : list (string * string)) (scope : AdminScope) : Prop :=
  ∃ text, (text, EmptyString) ∈ R ∧ TryParseAdminScope cluster_registered text = Some scope.
Definition said_of (R : list (string * string)) (scope : AdminScope) (vcat : string) : Prop :=
  ∃ text, (text, vcat) ∈ R ∧ TryParseAdminScope cluster_registered text = Some scope.
(** A row that grants nothing here *)
Definition said_nothing (R : list (string * string)) : Prop :=
  ∃ text vcat, (text, vcat) ∈ R ∧
    match TryParseAdminScope cluster_registered text with
    | None => True
    | Some OBSERVE | Some OPERATE | Some CLUSTER => vcat ≠ EmptyString
    | _ => False
    end.

Record rights_mean (R : list (string * string)) (P : list (string * bool)) (C : list string)
    (r : AdminRights) : Prop := {
  m_passthrough : passthrough r = true ↔ said R PASSTHROUGH;
  m_manage : unrestricted_manage r = true ↔ said_wide R MANAGE ∨ said_wide R POLICY;
  m_observe : observe r = true ↔
    said_wide R OBSERVE ∨ said_wide R OPERATE ∨ said_wide R CLUSTER ∨ said_wide R MANAGE ∨ said R PASSTHROUGH;
  m_operate : operate r = true ↔ said_wide R OPERATE ∨ said_wide R CLUSTER ∨ said R PASSTHROUGH;
  m_cluster : cluster r = true ↔
    cluster_registered = true ∧ (said_wide R CLUSTER ∨ said R PASSTHROUGH);
  m_unknown : unknown_scope r = true ↔ said_nothing R;
  m_catalogs : ∀ x, x ∈ catalogs r ↔
    x ∈ C ∨ x ≠ EmptyString ∧ (said_of R MANAGE x ∨ said_of R POLICY x);
  m_denied : ∀ k, platform r !! k = Some false ↔ (k, false) ∈ P;
  m_allowed : ∀ k, platform r !! k = Some true ↔ (k, true) ∈ P ∧ (k, false) ∉ P;
}.

Lemma set_insert_elem x y s : y ∈ set_insert x s ↔ y = x ∨ y ∈ s.
Proof.
  induction s as [|z s IH]; simpl; [set_solver|].
  destruct (String.compare x z) eqn:Hc.
  - apply String.compare_eq_iff in Hc as ->. set_solver.
  - set_solver.
  - rw !elem_of_cons IH. tauto.
Qed.

Lemma said_snoc R text vcat scope :
  said (R ++ [(text, vcat)]) scope ↔ said R scope ∨ TryParseAdminScope cluster_registered text = Some scope.
Proof. rw /said. setoid_rewrite elem_of_app. setoid_rewrite list_elem_of_singleton. naive_solver. Qed.
Lemma said_of_snoc R text vcat scope x :
  said_of (R ++ [(text, vcat)]) scope x ↔
  said_of R scope x ∨ x = vcat ∧ TryParseAdminScope cluster_registered text = Some scope.
Proof. rw /said_of. setoid_rewrite elem_of_app. setoid_rewrite list_elem_of_singleton. naive_solver. Qed.
Lemma said_wide_snoc R text vcat scope :
  said_wide (R ++ [(text, vcat)]) scope ↔
  said_wide R scope ∨ EmptyString = vcat ∧ TryParseAdminScope cluster_registered text = Some scope.
Proof. apply said_of_snoc. Qed.
Lemma said_nothing_snoc R text vcat :
  said_nothing (R ++ [(text, vcat)]) ↔
  said_nothing R ∨ match TryParseAdminScope cluster_registered text with
                   | None => True
                   | Some OBSERVE | Some OPERATE | Some CLUSTER => vcat ≠ EmptyString
                   | _ => False
                   end.
Proof. rw /said_nothing. setoid_rewrite elem_of_app. setoid_rewrite list_elem_of_singleton. naive_solver. Qed.

Lemma parsed_cluster text : TryParseAdminScope cluster_registered text = Some CLUSTER → cluster_registered = true.
Proof.
  rw /TryParseAdminScope.
  do 5 (destruct (CIEquals text _); [done|]). by destruct (CIEquals text "cluster"), cluster_registered.
Qed.

Lemma rights_mean_start C :
  rights_mean [] [] C {| passthrough := false; unrestricted_manage := false; observe := false; operate := false;
                         cluster := false; unknown_scope := false; catalogs := C; platform := ∅ |}.
Proof.
  split; rw /said /said_wide /said_of /said_nothing /=; try setoid_rewrite lookup_empty; set_solver.
Qed.

Ltac row_cases text vcat :=
  destruct (TryParseAdminScope _ text) as [[]|], vcat as [|a vcat];
  cbn [is_empty negb mark_unknown add_catalog passthrough unrestricted_manage observe operate cluster
       unknown_scope catalogs platform] in *; try done;
  intuition (subst; congruence || eauto).

Lemma rights_mean_row R P C r text vcat :
  rights_mean R P C r →
  rights_mean (R ++ [(text, vcat)]) P C (ApplyAdminRow cluster_registered r text vcat).
Proof.
  intros [Hp Hm Ho Hop Hc Hu Hcat Hd Ha].
  pose proof (parsed_cluster text) as Hreg.
  split; try intros x; rw ?said_snoc ?said_wide_snoc ?said_nothing_snoc ?said_of_snoc /ApplyAdminRow.
  - clear -Hp. row_cases text vcat.
  - clear -Hm. row_cases text vcat.
  - clear -Ho. row_cases text vcat.
  - clear -Hop. row_cases text vcat.
  - clear -Hc Hreg. row_cases text vcat.
  - clear -Hu. row_cases text vcat.
  - specialize (Hcat x). pose proof (set_insert_elem vcat x (catalogs r)) as Hins. clear -Hcat Hins. row_cases text vcat.
  - specialize (Hd x). clear -Hd. row_cases text vcat.
  - specialize (Ha x). clear -Ha. row_cases text vcat.
Qed.

Lemma rights_mean_point R P C r k allowed :
  rights_mean R P C r → rights_mean R (P ++ [(k, allowed)]) C (point r k allowed).
Proof.
  intros [Hp Hm Ho Hop Hc Hu Hcat Hd Ha]. split; try done; intros x; specialize (Hd x); specialize (Ha x); simpl;
    rw !elem_of_app !list_elem_of_singleton.
  all: destruct (decide (x = k)) as [->|Hne];
    [|by destruct (platform r !! k); rw lookup_insert_ne //; naive_solver].
  all: destruct (platform r !! k) as [[]|] eqn:Hk; rw lookup_insert_eq; destruct allowed; naive_solver.
Qed.

(** The rows the memory store has for some roles, and the point grants *)
Definition rows_of (st : admin_store) (roles : list string) : list (string * string) :=
  flat_map (λ role, map (λ scope, (scope, EmptyString)) (scopes_of role st)) roles.
Definition points_of_role (grants : list PlatformGrantRow) (role : string) : list (string * bool) :=
  flat_map (λ g, if CIEquals (g_role g) role then [(point_key (g_kind g) (g_object g), g_allowed g)] else [])
    grants.
Definition points_of (st : admin_store) (roles : list string) : list (string * bool) :=
  flat_map (points_of_role (platform_grants st)) roles.

Lemma rights_mean_rows R P C r rows :
  rights_mean R P C r →
  rights_mean (R ++ rows) P C (fold_left (λ r row, ApplyAdminRow cluster_registered r row.1 row.2) rows r).
Proof.
  revert R r. induction rows as [|[text vcat] rows IH]; intros R r Hr; simpl; [by rw app_nil_r|].
  rw cons_middle app_assoc. by apply IH, rights_mean_row.
Qed.

Lemma rights_mean_points R P C r points :
  rights_mean R P C r → rights_mean R (P ++ points) C (fold_left (λ r row, point r row.1 row.2) points r).
Proof.
  revert P r. induction points as [|[k b] points IH]; intros P r Hr; simpl; [by rw app_nil_r|].
  rw cons_middle app_assoc. by apply IH, rights_mean_point.
Qed.

Lemma fold_scopes (texts : list string) r :
  fold_left (λ r scope, ApplyAdminRow cluster_registered r scope EmptyString) texts r =
  fold_left (λ r row, ApplyAdminRow cluster_registered r row.1 row.2)
    (map (λ scope, (scope, EmptyString)) texts) r.
Proof. revert r. induction texts as [|t texts IH]; intros r; [done|]. apply IH. Qed.

Lemma fold_grants role grants r :
  fold_left (λ r g, if CIEquals (g_role g) role
                    then point r (point_key (g_kind g) (g_object g)) (g_allowed g) else r) grants r =
  fold_left (λ r row, point r row.1 row.2) (points_of_role grants role) r.
Proof.
  revert r. induction grants as [|g grants IH]; intros r; [done|]. simpl.
  by destruct (CIEquals (g_role g) role); rw IH.
Qed.

Lemma rights_mean_roles st R P r roles :
  rights_mean R P [] r →
  rights_mean (R ++ rows_of st roles) (P ++ points_of st roles) []
    (fold_left (role_rights cluster_registered st) roles r).
Proof.
  revert R P r. induction roles as [|role roles IH]; intros R P r Hr; simpl; [by rw !app_nil_r|].
  rw !app_assoc. apply IH. rw /role_rights fold_scopes fold_grants. by apply rights_mean_points, rights_mean_rows.
Qed.

Lemma rights_mean_memory st principal :
  rights_mean (rows_of st (roles principal)) (points_of st (roles principal)) []
    (AdminRightsOf cluster_registered None st principal).
Proof. apply (rights_mean_roles st [] []), rights_mean_start. Qed.

Lemma rights_mean_catalog rows st principal :
  rights_mean (admin_rows rows) (point_rows rows) (managed rows)
    (AdminRightsOf cluster_registered (Some rows) st principal).
Proof. apply (rights_mean_points _ []), (rights_mean_rows []), rights_mean_start. Qed.

Lemma PlatformGrant_denied R P C r kind object :
  rights_mean R P C r → (point_key kind object, false) ∈ P → PlatformGrant r kind object = 0%Z.
Proof. intros Hr Hin%(m_denied _ _ _ _ Hr). by rw /PlatformGrant Hin. Qed.

Lemma elem_of_rows_of st rs text vcat :
  (text, vcat) ∈ rows_of st rs ↔ vcat = EmptyString ∧ ∃ role, role ∈ rs ∧ text ∈ scopes_of role st.
Proof.
  rw /rows_of list_elem_of_In in_flat_map. setoid_rewrite in_map_iff. setoid_rewrite <- list_elem_of_In.
  naive_solver.
Qed.

Lemma elem_of_points_of st rs k b :
  (k, b) ∈ points_of st rs ↔
  ∃ role g, role ∈ rs ∧ g ∈ platform_grants st ∧ CIEquals (g_role g) role = true ∧
            k = point_key (g_kind g) (g_object g) ∧ b = g_allowed g.
Proof.
  rw /points_of /points_of_role list_elem_of_In in_flat_map. setoid_rewrite in_flat_map.
  setoid_rewrite <- list_elem_of_In. split.
  - intros (role & Hrole & g & Hg & Hk). exists role, g.
    destruct (CIEquals (g_role g) role); [|by apply elem_of_nil in Hk].
    apply list_elem_of_singleton in Hk. naive_solver.
  - intros (role & g & Hrole & Hg & Hci & -> & ->). exists role. split; [done|]. exists g. split; [done|].
    rw Hci. by apply list_elem_of_singleton.
Qed.
End meaning.

(** ** Sequences of administration changes *)

Inductive admin_change :=
  | Grant_admin (role : string) (scope : AdminScope)
  | Revoke_admin (role scope : string)
  | Grant_platform (role kind object : string) (allowed : bool)
  | Revoke_platform (role kind object : string).

Section changes.
Context `{SUL : StringUtilLaws}.
Variable cluster_registered : bool.

(** A change that throws leaves the store as it was *)
Definition after (m : outcome admin_store) (st : admin_store) : admin_store :=
  match m with Ok st' => st' | Throw _ => st end.
Definition apply_admin (st : admin_store) (ch : admin_change) : admin_store :=
  match ch with
  | Grant_admin role scope => GrantAdmin role scope st
  | Revoke_admin role scope => after (RevokeAdmin cluster_registered role scope st) st
  | Grant_platform role kind object allowed => GrantPlatform role kind object allowed st
  | Revoke_platform role kind object => after (RevokePlatform role kind object st) st
  end.
Definition administered (changes : list admin_change) : admin_store :=
  fold_left apply_admin changes no_admins.

(** Every stored scope is the name of one *)
Definition scopes_named (st : admin_store) : Prop :=
  ∀ role text, text ∈ scopes_of role st → ∃ scope, text = AdminScopeName scope.

Lemma set_erase_elem x y s : y ∈ set_erase x s ↔ y ≠ x ∧ y ∈ s.
Proof.
  rw /set_erase list_elem_of_In filter_In -list_elem_of_In negb_true_iff String.eqb_neq. tauto.
Qed.

Lemma set_count_spec x s : set_count x s = true ↔ x ∈ s.
Proof.
  rw /set_count existsb_exists list_elem_of_In. split.
  - by intros (y & Hy & ->%String.eqb_eq).
  - intros Hx. exists x. by rw String.eqb_refl.
Qed.

(** What a revoke that succeeds does: it empties the role, or takes one bundle no other carries *)
Inductive revoked (role : string) (st st' : admin_store) : string → Prop :=
  | revoked_all :
      (∀ role', scopes_of role' st' = if CIEquals role role' then [] else scopes_of role' st) →
      platform_grants st' = List.filter (λ g, negb (CIEquals (g_role g) role)) (platform_grants st) →
      revoked role st st' EmptyString
  | revoked_one a scope parsed :
      TryParseAdminScope cluster_registered (String a scope) = Some parsed →
      AdminScopeName parsed ∈ scopes_of role st →
      (∀ h, h ∈ scopes_of role st → implies_scope h (AdminScopeName parsed) = false) →
      (∀ role', scopes_of role' st' = if CIEquals role role' then set_erase (AdminScopeName parsed) (scopes_of role st)
                                      else scopes_of role' st) →
      platform_grants st' = platform_grants st →
      revoked role st st' (String a scope).

Lemma scopes_of_set role role' l st grants :
  scopes_of role' {| admin_scopes := ci_set role l (admin_scopes st); platform_grants := grants |} =
  if CIEquals role role' then l else scopes_of role' st.
Proof. rw /scopes_of /= ci_find_set. by destruct (CIEquals role role'). Qed.

Lemma scopes_of_erase role role' st grants :
  scopes_of role' {| admin_scopes := ci_erase role (admin_scopes st); platform_grants := grants |} =
  if CIEquals role role' then [] else scopes_of role' st.
Proof. rw /scopes_of /= ci_find_erase. by destruct (CIEquals role role'). Qed.

Lemma scopes_of_ci role role' st : CIEquals role role' = true → scopes_of role st = scopes_of role' st.
Proof. intros Hci. by rw /scopes_of (ci_find_ci _ _ _ Hci). Qed.

Lemma RevokeAdmin_ok role scope st st' :
  RevokeAdmin cluster_registered role scope st = Ok st' → revoked role st st' scope.
Proof.
  rw /RevokeAdmin. destruct scope as [|a scope]; simpl.
  - case_match; [done|]. intros [= <-]. constructor; [|done]. intros role'. apply scopes_of_erase.
  - destruct (ci_find role (admin_scopes st)) as [holds|] eqn:Hholds; [|done].
    assert (Hs : scopes_of role st = holds) by by rw /scopes_of Hholds.
    intros (parsed & Hp & Hrest)%outcome_bind_ok. rw /ParseAdminScope in Hp.
    destruct (TryParseAdminScope _ _) eqn:Htry; [|done]. injection Hp as ->.
    destruct (List.find _ holds) eqn:Hfind; [done|].
    destruct (set_count (AdminScopeName parsed) holds) eqn:Hcount; [|done]. simpl in Hrest.
    injection Hrest as <-.
    apply (revoked_one _ _ _ _ _ parsed); [done| | | |done]; rw ?Hs.
    + by apply set_count_spec.
    + intros h Hh. by apply (List.find_none _ _ Hfind), list_elem_of_In.
    + intros role'. destruct (set_erase _ holds) eqn:He; [apply scopes_of_erase|apply scopes_of_set].
Qed.

Lemma apply_admin_named st ch : scopes_named st → scopes_named (apply_admin st ch).
Proof.
  intros Hst role text. destruct ch as [r s|r s|r k o b|r k o]; simpl.
  - rw scopes_of_set. destruct (CIEquals r role); [|by apply Hst].
    intros [->|Hin]%set_insert_elem; [eauto|by apply (Hst r)].
  - destruct (RevokeAdmin _ r s st) as [st'|] eqn:Hr; [|by apply Hst]. simpl.
    apply RevokeAdmin_ok in Hr as [Hs _|a sc parsed _ _ _ Hs _]; rw Hs; destruct (CIEquals r role);
      [set_solver|by apply Hst| |by apply Hst].
    intros [_ Hin]%set_erase_elem. by apply (Hst r).
  - by apply Hst.
  - rw /RevokePlatform. by case_match; apply Hst.
Qed.

Lemma administered_named changes : scopes_named (administered changes).
Proof.
  rw /administered. assert (H0 : scopes_named no_admins) by (intros role text; rw /scopes_of /=; set_solver).
  revert H0. generalize no_admins. induction changes as [|ch changes IH]; intros st Hst; [done|].
  by apply IH, apply_admin_named.
Qed.

Lemma implies_named h s :
  implies_scope (AdminScopeName h) (AdminScopeName s) = false →
  match s with
  | OBSERVE => h ≠ OPERATE ∧ h ≠ CLUSTER ∧ h ≠ MANAGE ∧ h ≠ PASSTHROUGH
  | OPERATE => h ≠ CLUSTER ∧ h ≠ PASSTHROUGH
  | CLUSTER => h ≠ PASSTHROUGH
  | POLICY => h ≠ MANAGE ∧ h ≠ PASSTHROUGH
  | MANAGE => h ≠ PASSTHROUGH
  | PASSTHROUGH => True
  end.
Proof. by destruct h, s. Qed.

Lemma parse_name s s' : TryParseAdminScope cluster_registered (AdminScopeName s) = Some s' → s = s'.
Proof.
  rw /TryParseAdminScope !CIEquals_law.
  by destruct s, cluster_registered; vm_compute; congruence.
Qed.

(** What one bundle of the memory store is held by *)
Lemma said_rows st rs scope :
  scopes_named st →
  (said cluster_registered (rows_of st rs) scope →
   ∃ role, role ∈ rs ∧ AdminScopeName scope ∈ scopes_of role st).
Proof.
  intros Hst (text & vcat & (-> & role & Hrole & Htext)%elem_of_rows_of & Hp). exists role. split; [done|].
  destruct (Hst role text Htext) as [s ->]. by apply parse_name in Hp as ->.
Qed.
Lemma said_wide_rows st rs scope :
  said_wide cluster_registered (rows_of st rs) scope ↔ said cluster_registered (rows_of st rs) scope.
Proof.
  split; [intros (text & ? & ?); by exists text, EmptyString|].
  intros (text & vcat & Hin & Hp). exists text. split; [|done].
  pose proof (proj1 (elem_of_rows_of _ _ _ _) Hin) as [-> _]. done.
Qed.
End changes.

(** ** The properties *)

Section properties.
Context `{SUL : StringUtilLaws}.
Variable cluster_registered : bool.

(** The rights are determined by their rows *)
Lemma rights_mean_unique R R' P P' r r' :
  rights_mean cluster_registered R P [] r → rights_mean cluster_registered R' P' [] r' →
  (∀ row, row ∈ R ↔ row ∈ R') → (∀ row, row ∈ P ↔ row ∈ P') → (∀ row, row ∈ R → row.2 = EmptyString) →
  r = r'.
Proof.
  intros [Hp Hm Ho Hop Hc Hu Hcat Hd Ha] [Hp' Hm' Ho' Hop' Hc' Hu' Hcat' Hd' Ha'] HR HP Hwide.
  assert (Hs : ∀ s, said cluster_registered R s ↔ said cluster_registered R' s)
    by (intros s; rw /said; by setoid_rewrite HR).
  assert (Hw : ∀ s, said_wide cluster_registered R s ↔ said_wide cluster_registered R' s)
    by (intros s; rw /said_wide; by setoid_rewrite HR).
  assert (Hn : said_nothing cluster_registered R ↔ said_nothing cluster_registered R')
    by (rw /said_nothing; by setoid_rewrite HR).
  assert (Hof : ∀ s x, x ≠ EmptyString → ¬ said_of cluster_registered R s x)
    by (intros s x Hx (t & Hin & _); by specialize (Hwide _ Hin)).
  assert (Hof' : ∀ s x, x ≠ EmptyString → ¬ said_of cluster_registered R' s x)
    by (intros s x Hx (t & Hin%HR & _); by specialize (Hwide _ Hin)).
  setoid_rewrite <- Hs in Hp'. setoid_rewrite <- Hw in Hm'. setoid_rewrite <- Hs in Ho'.
  setoid_rewrite <- Hw in Ho'. setoid_rewrite <- Hs in Hop'. setoid_rewrite <- Hw in Hop'.
  setoid_rewrite <- Hs in Hc'. setoid_rewrite <- Hw in Hc'. rewrite <- Hn in Hu'.
  destruct r as [a1 a2 a3 a4 a5 a6 cs pf], r' as [b1 b2 b3 b4 b5 b6 cs' pf']; simpl in *.
  f_equal.
  - apply eq_true_iff_eq. by rw Hp Hp'.
  - apply eq_true_iff_eq. by rw Hm Hm'.
  - apply eq_true_iff_eq. by rw Ho Ho'.
  - apply eq_true_iff_eq. by rw Hop Hop'.
  - apply eq_true_iff_eq. by rw Hc Hc'.
  - apply eq_true_iff_eq. by rw Hu Hu'.
  - assert (cs = []) as ->.
    { apply elem_of_nil_inv. intros x [Hx|[Hx [?|?]]]%Hcat; [by apply elem_of_nil in Hx|by eapply Hof..]. }
    symmetry. apply elem_of_nil_inv.
    intros x [Hx|[Hx [?|?]]]%Hcat'; [by apply elem_of_nil in Hx|by eapply Hof'..].
  - apply map_eq. intros k. apply option_eq. intros [].
    + rw Ha Ha' !HP. done.
    + rw Hd Hd' HP. done.
Qed.

(** C29: administration is what the rows say, nothing else.  Each right of a principal holds exactly
    when a row of one of its roles carries it - a catalog-scoped row carries nothing of the node's, an
    unknown scope only that it is unknown - and a point grant is allowed exactly when some row allows it
    and none denies it.  Neither the order of the roles nor their repetition matters. *)
Theorem rights_are_the_rows (rows : catalog_rows) (st : admin_store) (principal principal' : Principal) :
  rights_mean cluster_registered (admin_rows rows) (point_rows rows) (managed rows)
    (AdminRightsOf cluster_registered (Some rows) st principal) ∧
  rights_mean cluster_registered (rows_of st (roles principal)) (points_of st (roles principal)) []
    (AdminRightsOf cluster_registered None st principal) ∧
  ((∀ role, role ∈ roles principal ↔ role ∈ roles principal') →
   AdminRightsOf cluster_registered None st principal = AdminRightsOf cluster_registered None st principal').
Proof.
  split; [apply rights_mean_catalog|]. split; [apply rights_mean_memory|]. intros Hroles.
  eapply rights_mean_unique; [apply rights_mean_memory..| | |].
  - intros [text vcat]. rw !elem_of_rows_of. by setoid_rewrite Hroles.
  - intros [k b]. rw !elem_of_points_of. by setoid_rewrite Hroles.
  - by intros [text vcat] [-> _]%elem_of_rows_of.
Qed.

(** The right a bundle is named after; [manage] is two other bundles' rights *)
Definition right_of (scope : AdminScope) (r : AdminRights) : bool :=
  match scope with
  | OBSERVE => observe r
  | OPERATE => operate r
  | CLUSTER => cluster r
  | POLICY => unrestricted_manage r
  | PASSTHROUGH => passthrough r
  | MANAGE => false
  end.

Lemma no_rows_no_rights st role :
  scopes_of role st = [] → (∀ g, g ∈ platform_grants st → CIEquals (g_role g) role = false) →
  Privileged (AdminRightsOf cluster_registered None st {| issuer := EmptyString; subject := EmptyString; roles := [role]; claims := [] |})
  = false.
Proof.
  intros Hs Hg. set p := {| issuer := EmptyString; subject := EmptyString; roles := [role]; claims := [] |}.
  assert (Hr : rows_of st (roles p) = []) by by rw /rows_of /= Hs.
  assert (Hp : points_of st (roles p) = []).
  { apply elem_of_nil_inv. intros [k b] (r & g & Hr' & Hin & Hci & _)%elem_of_points_of.
    apply list_elem_of_singleton in Hr' as ->. by rw Hg in Hci. }
  replace (AdminRightsOf cluster_registered None st p) with no_rights; [done|].
  pose proof (rights_mean_memory cluster_registered st p) as Hm. rw Hr Hp in Hm.
  eapply rights_mean_unique; [apply rights_mean_start|exact Hm|done|done|set_solver].
Qed.

Lemma right_of_held st role scope :
  scopes_named st →
  right_of scope (AdminRightsOf cluster_registered None st {| issuer := EmptyString; subject := EmptyString; roles := [role]; claims := [] |})
  = true →
  ∃ h, AdminScopeName h ∈ scopes_of role st ∧
       (h = scope ∨ implies_scope (AdminScopeName h) (AdminScopeName scope) = true).
Proof.
  intros Hnamed. set p := {| issuer := EmptyString; subject := EmptyString; roles := [role]; claims := [] |}.
  destruct (rights_mean_memory cluster_registered st p) as [Hp Hm Ho Hop Hc _ _ _ _].
  assert (Hh : ∀ h, said cluster_registered (rows_of st (roles p)) h →
                (h = scope ∨ implies_scope (AdminScopeName h) (AdminScopeName scope) = true) →
                ∃ h, AdminScopeName h ∈ scopes_of role st ∧
                     (h = scope ∨ implies_scope (AdminScopeName h) (AdminScopeName scope) = true)).
  { intros h (r & ->%list_elem_of_singleton & Hin)%said_rows Hi; [|done]. eauto. }
  setoid_rewrite said_wide_rows in Hm. setoid_rewrite said_wide_rows in Ho.
  setoid_rewrite said_wide_rows in Hop. setoid_rewrite said_wide_rows in Hc.
  destruct scope; simpl.
  - rw Ho. intros [?|[?|[?|[?|?]]]]; eapply Hh; eauto.
  - rw Hop. intros [?|[?|?]]; eapply Hh; eauto.
  - rw Hc. intros [_ [?|?]]; eapply Hh; eauto.
  - rw Hm. intros [?|?]; eapply Hh; eauto.
  - done.
  - rw Hp. intros ?; eapply Hh; eauto.
Qed.

(** Principals without the role see the same rows *)
Lemma others_unaffected st st' role p :
  (∀ other, other ∈ roles p → CIEquals role other = false) →
  (∀ other, CIEquals role other = false → scopes_of other st' = scopes_of other st) →
  (∀ g, CIEquals (g_role g) role = false → g ∈ platform_grants st' ↔ g ∈ platform_grants st) →
  AdminRightsOf cluster_registered None st' p = AdminRightsOf cluster_registered None st p.
Proof.
  intros Hother Hs Hg. eapply rights_mean_unique; [apply rights_mean_memory..| | |].
  - intros [text vcat]. rw !elem_of_rows_of. apply and_iff_compat_l. apply exist_proper. intros o.
    split; (intros [Ho Ht]; split; [done|]; move: Ht; rw Hs //; by apply Hother).
  - intros [k b]. rw !elem_of_points_of. apply exist_proper. intros o. apply exist_proper. intros g.
    assert (Hno : o ∈ roles p → CIEquals (g_role g) o = true → CIEquals (g_role g) role = false).
    { intros Ho Hci. rw (CIEquals_trans _ _ role Hci) CIEquals_sym. by apply Hother. }
    pose proof (Hg g). naive_solver.
  - by intros [text vcat] [-> _]%elem_of_rows_of.
Qed.

(** a revoke that succeeds takes the right away.  Revoking everything leaves the role holding no
    administration; revoking one bundle leaves it without the right of that name, because a bundle that
    carries it would have refused the revoke; and no principal without the role is affected.  Whatever
    sequence of changes built the store. *)
Theorem revoked_right_is_gone (changes : list admin_change) (role scope : string) (st' : admin_store) :
  RevokeAdmin cluster_registered role scope (administered cluster_registered changes) = Ok st' →
  let st := administered cluster_registered changes in
  let r := AdminRightsOf cluster_registered None st' {| issuer := EmptyString; subject := EmptyString; roles := [role]; claims := [] |} in
  (is_empty scope = true → Privileged r = false) ∧
  (is_empty scope = false → ∃ parsed,
     TryParseAdminScope cluster_registered scope = Some parsed ∧
     AdminScopeName parsed ∈ scopes_of role st ∧ AdminScopeName parsed ∉ scopes_of role st' ∧
     right_of parsed r = false) ∧
  (∀ principal, (∀ other, other ∈ roles principal → CIEquals role other = false) →
     AdminRightsOf cluster_registered None st' principal = AdminRightsOf cluster_registered None st principal).
Proof.
  intros Hrev%RevokeAdmin_ok st r.
  pose proof (administered_named cluster_registered changes) as Hnamed. fold st in Hnamed, Hrev.
  destruct Hrev as [Hs Hg|a scope parsed Hp Hin Himp Hs Hg].
  - split; [intros _|split; [done|]].
    + apply no_rows_no_rights; [by rw Hs CIEquals_refl|]. intros g.
      rw Hg list_elem_of_In filter_In. intros [_ Hg']. by apply negb_true_iff.
    + intros p Hother. apply (others_unaffected _ _ role); [done| |].
      * intros o Ho. by rw Hs Ho.
      * intros g Hno. rw Hg list_elem_of_In filter_In -list_elem_of_In Hno. tauto.
  - split; [done|]. split.
    + intros _. exists parsed. split; [done|]. split; [done|]. rw Hs CIEquals_refl.
      split; [by intros [? _]%set_erase_elem|].
      apply not_true_is_false. intros (h & Hh & Hi)%right_of_held.
      * rw Hs CIEquals_refl in Hh. apply set_erase_elem in Hh as [Hne Hh]. apply Himp in Hh.
        destruct Hi as [->|Hi]; [done|congruence].
      * intros r' text. rw Hs. destruct (CIEquals role r'); [|by apply Hnamed].
        intros [_ ?]%set_erase_elem. by eapply Hnamed.
    + intros p Hother. apply (others_unaffected _ _ role); [done| |].
      * intros o Ho. by rw Hs Ho.
      * by rw Hg.
Qed.

(** C30: the authorizer.  For a principal whose roles hold no passthrough bundle, a deny row on a
    platform function or view refuses it whatever the other roles grant; an escalating function is
    refused always; an infrastructure function is called only with the cluster bundle; and a view-as is
    admitted only with the policy bundle, of a role that holds no administration of its own. *)
Theorem denies_bind_and_nothing_escalates (st : admin_store) (p : Principal) (f : PlatformFunction)
    (view : PlatformView) (viewed : string) (defined : bool) :
  let rights_of := AdminRightsOf cluster_registered None st in
  ¬ said cluster_registered (rows_of st (roles p)) PASSTHROUGH →
  right f ≠ R_OPEN → target f ≠ "acl_session_view_as" →
  ((point_key "function" (pname f), false) ∈ points_of st (roles p) → CallsFunction (rights_of p) f = false) ∧
  ((point_key "view" (vname view), false) ∈ points_of st (roles p) → ReadsView (rights_of p) view = (false, false)) ∧
  (right f = R_ESCALATES → CallsFunction (rights_of p) f = false) ∧
  (right f = R_INFRASTRUCTURE → CallsFunction (rights_of p) f = true →
     said cluster_registered (rows_of st (roles p)) CLUSTER) ∧
  (ViewAsRefusal (rights_of p) viewed defined rights_of = EmptyString → is_empty viewed = false →
     (said cluster_registered (rows_of st (roles p)) MANAGE ∨ said cluster_registered (rows_of st (roles p)) POLICY) ∧
     defined = true ∧
     Privileged (rights_of {| issuer := EmptyString; subject := EmptyString; roles := [viewed]; claims := [] |}) = false).
Proof.
  intros rights_of Hno Hopen Htarget. pose proof (rights_mean_memory cluster_registered st p) as Hm.
  fold rights_of in Hm.
  assert (Hp : passthrough (rights_of p) = false).
  { apply not_true_is_false. by rw (m_passthrough _ _ _ _ _ Hm). }
  assert (Hcall : CallsFunction (rights_of p) f = true →
            PlatformGrant (rights_of p) "function" (pname f) ≠ 0%Z ∧ right f ≠ R_ESCALATES ∧
            (right f = R_INFRASTRUCTURE → cluster (rights_of p) = true)).
  { rw /CallsFunction Hp bool_decide_eq_false_2 //. apply String.eqb_neq in Htarget as ->.
    destruct (Z.eqb_spec (PlatformGrant (rights_of p) "function" (pname f)) 0); [done|].
    by destruct (right f). }
  split; [|split; [|split; [|split]]].
  - intros Hd. apply not_true_is_false. intros (Hg & _ & _)%Hcall. by rw (PlatformGrant_denied _ _ _ _ _ _ _ Hm Hd) in Hg.
  - intros Hd. by rw /ReadsView Hp (PlatformGrant_denied _ _ _ _ _ _ _ Hm Hd).
  - intros He. apply not_true_is_false. by intros (_ & Hne & _)%Hcall.
  - intros Hi (_ & _ & Hc)%Hcall. apply (m_cluster _ _ _ _ _ Hm) in Hc as [_ [Hc|Hc]]; [|done..].
    by apply said_wide_rows.
  - rw /ViewAsRefusal /Policy Hp /=. destruct (unrestricted_manage (rights_of p)) eqn:Hu; [|done]. simpl.
    intros Hv He. rw He in Hv. destruct (_ =? 0)%Z; [done|]. destruct defined; [|done]. simpl in Hv.
    destruct (Privileged _) eqn:Hpr; [done|]. split; [|done].
    apply (m_manage _ _ _ _ _ Hm) in Hu. by rw !said_wide_rows in Hu.
Qed.
End properties.

(** ** The properties on a concrete store *)

#[local] Existing Instance reference_string_util.
#[local] Existing Instance reference_string_util_laws.

Definition sample_admin : list admin_change :=
  [Grant_admin "ops" OBSERVE; Grant_admin "ops" POLICY; Grant_admin "Root" PASSTHROUGH;
   Grant_platform "ops" "function" "kill_session" true; Grant_platform "guest" "function" "Kill_Session" false].
Definition as_roles (rs : list string) : Principal := {| issuer := EmptyString; subject := "u"; roles := rs; claims := [] |}.
Definition kill_session : PlatformFunction :=
  {| pname := "kill_session"; target := "acl_session_kill";
     params := [{| prm_name := "session"; authz := true; prm_type := "VARCHAR"; fallback := EmptyString |}];
     arities := [1]; catalog_arg := None; right := R_OPERATE; table := false; returns := "BOOLEAN";
     fcomment := "end a session by its id (spec 050)"; rule_arg := None; rule := None; rule_refusal := None |}.
Definition node_load : PlatformView :=
  {| vname := "node_load"; view_class := V_NODE; vcolumns := []; vcomment := EmptyString; vbody := None |}.

Lemma rights_are_the_rows_witness :
  observe (AdminRightsOf true None (administered true sample_admin) (as_roles ["ops"; "guest"])) = true ∧
  AdminRightsOf true None (administered true sample_admin) (as_roles ["ops"; "guest"]) =
  AdminRightsOf true None (administered true sample_admin) (as_roles ["guest"; "ops"; "guest"]).
Proof.
  split; [vm_compute; reflexivity|].
  refine (proj2 (proj2 (rights_are_the_rows true {| managed := []; admin_rows := []; point_rows := [] |}
    (administered true sample_admin) (as_roles ["ops"; "guest"]) (as_roles ["guest"; "ops"; "guest"]))) _).
  intros role. simpl. set_solver.
Defined.

Definition sample_revoked : admin_store :=
  Eval vm_compute in after (RevokeAdmin true "OPS" "Observe" (administered true sample_admin)) no_admins.
Lemma revoked_right_is_gone_witness :
  observe (AdminRightsOf true None (administered true sample_admin) (as_roles ["OPS"])) = true ∧
  ∃ parsed, TryParseAdminScope true "Observe" = Some parsed ∧
    AdminScopeName parsed ∈ scopes_of "OPS" (administered true sample_admin) ∧
    AdminScopeName parsed ∉ scopes_of "OPS" sample_revoked ∧
    right_of parsed (AdminRightsOf true None sample_revoked
      {| issuer := EmptyString; subject := EmptyString; roles := ["OPS"]; claims := [] |}) = false.
Proof.
  split; [vm_compute; reflexivity|].
  refine (proj1 (proj2 (revoked_right_is_gone true sample_admin "OPS" "Observe" sample_revoked _)) _);
    vm_compute; reflexivity.
Defined.

Lemma denies_bind_and_nothing_escalates_witness :
  CallsFunction (AdminRightsOf true None (administered true sample_admin) (as_roles ["ops"])) kill_session = true ∧
  CallsFunction (AdminRightsOf true None (administered true sample_admin) (as_roles ["ops"; "guest"])) kill_session
  = false.
Proof.
  split; [vm_compute; reflexivity|].
  refine (proj1 (denies_bind_and_nothing_escalates true (administered true sample_admin) (as_roles ["ops"; "guest"])
    kill_session node_load "guest" true _ _ _) _).
  - intros (role & Hrole & Hin)%said_rows; [|apply administered_named].
    apply elem_of_cons in Hrole as [->|Hrole]; [|apply list_elem_of_singleton in Hrole as ->];
      revert Hin; vm_compute; set_solver.
  - discriminate.
  - discriminate.
  - apply elem_of_points_of. exists "guest", ("guest", "function", "Kill_Session", false).
    split; [right; left|]. split; [right; left|]. split; [vm_compute; reflexivity|].
    split; vm_compute; reflexivity.
Defined.
