(* ===== verification/AuditTrail.v ===== *)
(** * The audit ([src/src/acl_audit.cpp], the [Audit*] members of [src/src/acl_policy.cpp])

    Events are composed where something is decided, bounded and rate-limited by [Emit] on the thread that
    decided, queued, and handled by one worker: counted, handed to the sinks, kept in a ring, written to a
    file.  The pipeline's critical sections are operations of their own, so any number of emitting threads
    and the worker interleave. *)
From S2P Require Import Prelude PolicyTypes.

(** ** Events *)

Inductive AuditLevel := OFF | DENIED | DECISIONS | ALL.
#[export] Instance AuditLevel_eq_dec : EqDecision AuditLevel.
Proof. solve_decision. Defined.

(** The contract's event, as far as this code reads and writes it *)
Record AuditEvent := {
  ev_kind : string;
  ev_door : string;
  ev_session : string;
  ev_principal : Principal;
  ev_detail : string;
  ev_statement : string;
  ev_allowed : bool;
  ev_error : bool;
  ev_reason_code : string;
  ev_reason : string;
  ev_duration_us : Z;
  ev_rows : Z;
  ev_objects : list (string * string);
  ev_level : AuditLevel;
  ev_recorded : bool;
  ev_seq : Z;
  ev_ts_us : Z;
  ev_node : string;
  ev_correlation_id : string;
  ev_traceparent : string;
  (* a lineage event's type and whether it is approximate; a profile's sources: name, kind, rows, time *)
  ev_lineage : option (string * bool);
  ev_sources : list (string * string * Z * Z);
}.

(** A counter of the instance's registry, moved *)
Definition count : Type := string * list (string * string) * Z.
Definition counted (name : string) (labels : list (string * string)) : count := (name, labels, 1%Z).

(** ** What a reason may carry *)

(** [AuditReasonText]'s loop: [quote] is the quote the text is inside of *)
Fixpoint unquoted (quote : option ascii) (text : string) : string :=
  match text with
  | EmptyString => EmptyString
  | String c text' =>
      match quote with
      | None =>
          String c (unquoted (if Ascii.eqb c dquote || Ascii.eqb c squote then Some c else None) text')
      | Some q =>
          if Ascii.eqb c q then String c (unquoted None text') else unquoted quote text'
      end
  end.

Definition AuditReasonText (reason_code text : string) : string :=
  if String.eqb reason_code "parse" then
    "acl_rewrite: the statement did not parse (its text is not recorded)"
  else if String.eqb reason_code "principal" then unquoted None text
  else text.

(** [text.find(pattern)]: the text from its first occurrence on *)
Fixpoint find_from (pattern text : string) : option string :=
  if String.prefix pattern text then Some text
  else match text with EmptyString => None | String _ text' => find_from pattern text' end.

(** The text before the first colon *)
Fixpoint before_colon (text : string) : option string :=
  match text with
  | EmptyString => None
  | String c text' =>
      if Ascii.eqb c ":" then Some EmptyString else (λ s, String c s) <$> before_colon text'
  end.

Section events.
Context `{SU : StringUtil}.
(** The underlying values of the contract's levels *)
Variable level_value : AuditLevel → N.
(** A default-constructed event *)
Variable blank : AuditEvent.

Definition Records (instance_level : AuditLevel) (level : AuditLevel) (session_level : option AuditLevel) : bool :=
  let effective := default instance_level session_level in
  negb (bool_decide (effective = OFF)) && (level_value level <=? level_value effective)%N.

(** An event with the fields its composer sets *)
Definition composed (kind door session : string) (principal : Principal) (detail : string) (allowed : bool)
    (reason_code reason : string) (duration_us rows : Z) (objects : list (string * string)) (level : AuditLevel)
    (recorded : bool) : AuditEvent :=
  {| ev_kind := kind; ev_door := door; ev_session := session; ev_principal := principal; ev_detail := detail;
     ev_statement := ev_statement blank; ev_allowed := allowed; ev_error := ev_error blank;
     ev_reason_code := reason_code; ev_reason := reason; ev_duration_us := duration_us; ev_rows := rows;
     ev_objects := objects; ev_level := level; ev_recorded := recorded; ev_seq := ev_seq blank;
     ev_ts_us := ev_ts_us blank; ev_node := ev_node blank; ev_correlation_id := ev_correlation_id blank;
     ev_traceparent := ev_traceparent blank; ev_lineage := ev_lineage blank; ev_sources := ev_sources blank |}.

(** *** The events composed in [acl_policy.cpp] *)

Definition SessionEvent (inst : AuditLevel) (principal : Principal) (door id : string)
    (session_level : option AuditLevel) (detail reason_code reason : string) (duration_us : Z) (decision : bool)
    : AuditEvent :=
  let level := if negb (is_empty reason_code) then DENIED else if decision then DECISIONS else ALL in
  composed "session" door id principal detail (is_empty reason_code) reason_code
    (AuditReasonText reason_code reason) duration_us (ev_rows blank) (ev_objects blank) level
    (Records inst level session_level).

(** What an event says of the session it names ([SessionRefOf]) *)
Record session_ref := {
  ref_id : string;
  ref_door : string;
  ref_level : option AuditLevel;
  ref_principal : Principal;
}.
Definition no_ref : session_ref :=
  {| ref_id := EmptyString; ref_door := EmptyString; ref_level := None; ref_principal := no_principal |}.

(** The reason code and reason of a refused write *)
Definition ingest_reason (error : string) : string * string :=
  match find_from "acl_rewrite:" error with
  | Some ours => ("write_policy", ours)
  | None =>
      match find_from "acl:" error with
      | Some ours => ("write_policy", ours)
      | None =>
          let klass := default "error" (before_colon error) in
          ("source_error", "acl: the source refused the write (" +:+ TruncateUtf8 klass 64 +:+ ")")
      end
  end.

Definition AuditIngest (inst : AuditLevel) (ref : option session_ref) (rows : Z) (error : string)
    (reason_code : option string) : AuditEvent :=
  let ref := default no_ref ref in
  let allowed := is_empty error in
  let level := if allowed then DECISIONS else DENIED in
  let '(code, reason) :=
    if allowed then (ev_reason_code blank, ev_reason blank)
    else let '(code, reason) := ingest_reason error in (default code reason_code, reason) in
  composed "ingest" (ref_door ref) (ref_id ref) (ref_principal ref) (ev_detail blank) allowed code reason
    (ev_duration_us blank) rows (ev_objects blank) level (Records inst level (ref_level ref)).

(** [ref] is the session's when the caller gave a handle that is known *)
Definition AuditDoor (inst : AuditLevel) (door detail : string) (allowed : bool) (reason_code reason : string)
    (ref : option session_ref) (principal : option Principal) (rows : Z) : AuditEvent :=
  let level := if allowed then ALL else DENIED in
  composed "door" door (default (ev_session blank) (ref_id <$> ref))
    (default (default (ev_principal blank) (ref_principal <$> ref)) principal) detail allowed reason_code
    (AuditReasonText reason_code reason) (ev_duration_us blank) rows (ev_objects blank) level
    (Records inst level (ref ≫= ref_level)).

Definition AuditPolicy (inst : AuditLevel) (detail reason : string) : AuditEvent :=
  let allowed := negb (String.eqb detail "source_error") && negb (String.eqb detail "contract_mismatch") in
  let level := if allowed then ALL else DENIED in
  composed "policy" (ev_door blank) (ev_session blank) (ev_principal blank) detail allowed
    (if allowed then ev_reason_code blank
     else if String.eqb detail "source_error" then "source_error" else "policy_error")
    (if allowed then ev_reason blank else reason)
    (ev_duration_us blank) (ev_rows blank) (ev_objects blank) level (Records inst level None).

Definition AuditRecordNotUndone (inst : AuditLevel) (object reason why : string) : AuditEvent * count :=
  (composed "policy" (ev_door blank) (ev_session blank) (ev_principal blank) "record_not_undone" true
     (ev_reason_code blank) ("a client's ROLLBACK did not take back what its DDL recorded: " +:+ why)
     (ev_duration_us blank) (ev_rows blank) (ev_objects blank ++ [(object, "relation")]) DENIED
     (Records inst DENIED None),
   counted "acl.policy.records_not_undone" [("reason", reason)]).

Definition AuditConnection (inst : AuditLevel) (kind name fingerprint : string) : AuditEvent :=
  composed "policy" (ev_door blank) (ev_session blank) (ev_principal blank) "connection_changed" true
    (ev_reason_code blank) (kind +:+ " " +:+ name +:+ " now resolves to connection " +:+ fingerprint)
    (ev_duration_us blank) (ev_rows blank) (ev_objects blank ++ [(name, kind)]) DECISIONS
    (Records inst DECISIONS None).

Definition AuditKeys (inst : AuditLevel) (issuer : string) (ok : bool) (error : string)
    (detail reason_code : option string) : AuditEvent :=
  let level := if ok then ALL else DENIED in
  composed "keys" (ev_door blank) (ev_session blank) (ev_principal blank)
    (default (if ok then "refreshed" else "refresh_failed") detail) ok
    (if ok then ev_reason_code blank else default "source_error" reason_code)
    (if ok then ev_reason blank else error)
    (ev_duration_us blank) (ev_rows blank) (ev_objects blank ++ [(issuer, "keys")]) level (Records inst level None).

(** *** Events recorded once a minute

    [floor] maps a key to when (steady seconds) its event was last recorded; only a recorded one
    stamps it. *)
Definition unit_separator : string := str1 "031"%char.
Definition floor_check (recorded : bool) (key : string) (now : Z) (floor : gmap string Z) : bool * gmap string Z :=
  if recorded then
    let floor := if (4096 <? size floor)%nat then ∅ else floor in
    let last := default 0%Z (floor !! key) in
    if negb (last =? 0)%Z && (now - last <? 60)%Z then (false, <[key := last]> floor)
    else (true, <[key := now]> floor)
  else (true, floor).

Definition UnreadSourceMark (database error_class : string) : string :=
  "acl: source " +:+ (if is_empty database then EmptyString else database +:+ " ") +:+ "could not be read ("
  +:+ error_class +:+ ")".

(** The event, when one is emitted; the counter moves either way *)
Definition AuditSourceUnreadable (inst : AuditLevel) (database error_class : string) (now : Z)
    (floor : gmap string Z) : option AuditEvent * count * gmap string Z :=
  let recorded := Records inst DENIED None in
  let '(emit, floor) := floor_check recorded (Lower database +:+ unit_separator +:+ error_class) now floor in
  (if emit then
     Some (composed "policy" (ev_door blank) (ev_session blank) (ev_principal blank) "source_unreadable" false
             "source_error" (UnreadSourceMark database error_class) (ev_duration_us blank) (ev_rows blank)
             (ev_objects blank ++ [(database, "source")]) DENIED recorded)
   else None,
   counted "acl.listing.sources_unreadable" [("class", error_class)], floor).

(** A pair of roles whose union shows cells neither reads: B's columns on A's rows *)
Record UnionWidening := { role_a : string; role_b : string; columns : list string }.
Definition REPORTED : nat := 16.

Fixpoint sorted_insert (x : string) (s : list string) : list string :=
  match s with
  | [] => [x]
  | y :: s' =>
      match String.compare x y with Eq => s | Lt => x :: s | Gt => y :: sorted_insert x s' end
  end.

Definition widening_text (w : UnionWidening) : string :=
  role_b w +:+ "'s " +:+
  (match columns w with
   | [one] => if String.eqb one "*" then "columns outside the lists read" else "columns " +:+ one
   | several => "columns " +:+ join ", " several
   end) +:+ " on " +:+ role_a w +:+ "'s rows".

Definition AuditRoleUnionWidens (inst : AuditLevel) (object capability : string) (pairs : list UnionWidening)
    (now : Z) (floor : gmap string Z) : option AuditEvent * option count * gmap string Z :=
  match pairs with
  | [] => (None, None, floor)
  | _ =>
      let names := fold_left (λ s w, sorted_insert (role_b w) (sorted_insert (role_a w) s)) pairs [] in
      let role_list := join ", " names in
      let recorded := Records inst DENIED None in
      let '(emit, floor) :=
        floor_check recorded
          (Lower object +:+ unit_separator +:+ capability +:+ unit_separator +:+ role_list) now floor in
      (if emit then
         Some (composed "policy" (ev_door blank) (ev_session blank) (ev_principal blank) "role_union_widens" true
                 (ev_reason_code blank)
                 ("the union of roles " +:+ role_list +:+ " may show cells none of them reads: "
                  +:+ join "; " (map widening_text (take REPORTED pairs))
                  +:+ (if (REPORTED <? length pairs)%nat then "; and more" else EmptyString))
                 (ev_duration_us blank) (ev_rows blank) (ev_objects blank ++ [(object, capability)]) DENIED recorded)
       else None,
       Some (counted "acl.policy.role_union_widens" [("capability", capability)]), floor)
  end.
End events.

(** ** The properties *)

(** Two texts that differ only inside quotes: outside they are the same, and what one quotes with a
    quote character the other quotes with the same one; the last quote may stay open. *)
Inductive quoted_apart : string → string → Prop :=
  | apart_nil : quoted_apart EmptyString EmptyString
  | apart_char c s t :
      c ≠ dquote → c ≠ squote → quoted_apart s t → quoted_apart (String c s) (String c t)
  | apart_quoted q a b s t :
      q = dquote ∨ q = squote → contains_char q a = false → contains_char q b = false → quoted_apart s t →
      quoted_apart (String q a +:+ String q s) (String q b +:+ String q t)
  | apart_open q a b :
      q = dquote ∨ q = squote → contains_char q a = false → contains_char q b = false →
      quoted_apart (String q a) (String q b).

Lemma unquoted_inside q a s :
  contains_char q a = false → unquoted (Some q) (a +:+ String q s) = String q (unquoted None s).
Proof.
  induction a as [|c a IH]; intros Ha.
  - rw string_app_nil_l /= Ascii.eqb_refl. done.
  - simpl in Ha. apply orb_false_elim in Ha as [Hc Ha]. rw string_app_cons /= Ascii.eqb_sym Hc. by apply IH.
Qed.

Lemma unquoted_open q a : contains_char q a = false → unquoted (Some q) a = EmptyString.
Proof.
  induction a as [|c a IH]; intros Ha; [done|]. simpl in *. apply orb_false_elim in Ha as [Hc Ha].
  rw Ascii.eqb_sym Hc. by apply IH.
Qed.

Lemma unquoted_apart s t : quoted_apart s t → unquoted None s = unquoted None t.
Proof.
  assert (Hquote : ∀ q, q = dquote ∨ q = squote → Ascii.eqb q dquote || Ascii.eqb q squote = true)
    by by intros q [-> | ->].
  induction 1 as [|c s t Hd Hs _ IH|q a b s t Hq Ha Hb _ IH|q a b Hq Ha Hb]; simpl.
  - done.
  - apply Ascii.eqb_neq in Hd as ->. apply Ascii.eqb_neq in Hs as ->. by rw IH.
  - rw Hquote //. by rw !unquoted_inside // IH.
  - rw Hquote //. by rw !unquoted_open.
Qed.

Section properties.
Context `{SU : StringUtil}.
Variable level_value : AuditLevel → N.
Variable blank : AuditEvent.

(** what the audit never carries.  A statement that did not parse leaves no trace of its text; a
    refused token's text shows nothing of what it quotes - two refusals that differ only inside quotes
    leave the same reason; and of a physical source's error only the class before its first colon is
    kept, so two errors of one class leave the same event whatever rows they name.  Only our own refusals
    are kept, from our prefix on. *)
Theorem reasons_leak_nothing (inst : AuditLevel) (ref : option session_ref) (rows : Z)
    (code : option string) (s t : string) :
  AuditReasonText "parse" s = AuditReasonText "parse" t ∧
  (quoted_apart s t → AuditReasonText "principal" s = AuditReasonText "principal" t) ∧
  (s ≠ EmptyString → t ≠ EmptyString →
   (∀ prefix, prefix ∈ ["acl_rewrite:"; "acl:"] → find_from prefix s = None ∧ find_from prefix t = None) →
   before_colon s = before_colon t →
   AuditIngest level_value blank inst ref rows s code = AuditIngest level_value blank inst ref rows t code).
Proof.
  split; [done|]. split.
  - intros Hst. rw /AuditReasonText /=. by apply unquoted_apart.
  - intros Hs Ht Hfind Hcolon.
    destruct (Hfind "acl_rewrite:") as [Hs1 Ht1]; [left|]. destruct (Hfind "acl:") as [Hs2 Ht2]; [right; left|].
    destruct s as [|c s]; [done|]. destruct t as [|d t]; [done|].
    rw /AuditIngest /ingest_reason Hs1 Ht1 Hs2 Ht2 Hcolon. done.
Qed.
End properties.

#[local] Existing Instance reference_string_util.
Definition blank_event : AuditEvent := {|
  ev_kind := EmptyString; ev_door := EmptyString; ev_session := EmptyString; ev_principal := no_principal;
  ev_detail := EmptyString; ev_statement := EmptyString; ev_allowed := true; ev_error := false;
  ev_reason_code := EmptyString; ev_reason := EmptyString; ev_duration_us := -1; ev_rows := -1; ev_objects := [];
  ev_level := OFF; ev_recorded := true; ev_seq := 0; ev_ts_us := 0; ev_node := EmptyString;
  ev_correlation_id := EmptyString; ev_traceparent := EmptyString; ev_lineage := None; ev_sources := [] |}.
Definition level_order (l : AuditLevel) : N :=
  match l with OFF => 0 | DENIED => 1 | DECISIONS => 2 | ALL => 3 end.

Lemma reasons_leak_nothing_witness :
  ev_reason (AuditIngest level_order blank_event ALL None 3 "Constraint Error: Duplicate key ssn: 1" None)
  = "acl: the source refused the write (Constraint Error)" ∧
  AuditIngest level_order blank_event ALL None 3 "Constraint Error: Duplicate key ssn: 1" None =
  AuditIngest level_order blank_event ALL None 3 "Constraint Error: Duplicate key ssn: 2" None.
Proof.
  split; [vm_compute; reflexivity|].
  refine (proj2 (proj2 (reasons_leak_nothing level_order blank_event ALL None 3 None
    "Constraint Error: Duplicate key ssn: 1" "Constraint Error: Duplicate key ssn: 2")) _ _ _ _).
  - discriminate.
  - discriminate.
  - intros prefix Hp. apply elem_of_cons in Hp as [->|Hp]; [|apply list_elem_of_singleton in Hp as ->];
      vm_compute; auto.
  - vm_compute. reflexivity.
Defined.

(** A finding: a physical source's error is kept from our prefix on wherever the prefix stands in it,
    so a row that contains the prefix is recorded. *)
Theorem prefix_in_a_row_is_kept :
  ev_reason (AuditIngest level_order blank_event ALL None 0 "Constraint Error: Duplicate key note: acl:1 ssn: 2" None)
  = "acl:1 ssn: 2".
Proof. vm_compute. reflexivity. Qed.
