(* ===== verification/AuditPipeline.v ===== *)
(** * The audit pipeline ([src/src/acl_audit.cpp])

    [Emit] bounds an event, drops a flood's denials, and queues it; one worker takes events off the
    queue and handles them: the counters, the sinks, the ring, the file.  The critical sections of the
    two are the steps of [pipe_step], so any number of emitting threads and the worker interleave. *)
From Stdlib Require Import Sorted.
From S2P Require Import Prelude PolicyTypes AuditTrail.

(** ** State *)

(** Under [queue_lock]; [joinable] is whether the worker was started *)
Record queue_part := {
  queue : list AuditEvent;
  handled : Z;
  enqueued : Z;
  seq : Z;
  stopping : bool;
  abandon : bool;
  joinable : bool;
}.

(** Under [ring_lock] *)
Record ring_part := {
  ring_cap : Z;
  lineage_cap : Z;
  ring : list AuditEvent;
  lineage_ring : list AuditEvent;
}.

(** Under [file_lock]; [written] is what went to the file, [last_open_attempt] steady milliseconds *)
Record file_part := {
  file_path : string;
  file : bool;
  last_open_attempt : option Z;
  written : list AuditEvent;
}.

Record pipeline := {
  queued : queue_part;
  rings : ring_part;
  files : file_part;
  (* source -> (second, count) *)
  denial_buckets : gmap string (Z * Z);
  dropped : Z;
  counters : list count;
  (* what the sinks were told, by the sink's place *)
  told : list (nat * AuditEvent);
  node : string;
}.
Definition new_pipeline (node : string) : pipeline := {|
  queued := {| queue := []; handled := 0; enqueued := 0; seq := 0; stopping := false; abandon := false;
               joinable := false |};
  rings := {| ring_cap := 10000; lineage_cap := 1000; ring := []; lineage_ring := [] |};
  files := {| file_path := EmptyString; file := false; last_open_attempt := None; written := [] |};
  denial_buckets := ∅; dropped := 0; counters := []; told := []; node := node |}.

Definition with_queued (q : queue_part) (p : pipeline) : pipeline :=
  {| queued := q; rings := rings p; files := files p; denial_buckets := denial_buckets p; dropped := dropped p;
     counters := counters p; told := told p; node := node p |}.
Definition with_rings (r : ring_part) (p : pipeline) : pipeline :=
  {| queued := queued p; rings := r; files := files p; denial_buckets := denial_buckets p; dropped := dropped p;
     counters := counters p; told := told p; node := node p |}.
Definition with_files (f : file_part) (p : pipeline) : pipeline :=
  {| queued := queued p; rings := rings p; files := f; denial_buckets := denial_buckets p; dropped := dropped p;
     counters := counters p; told := told p; node := node p |}.
Definition with_buckets (b : gmap string (Z * Z)) (p : pipeline) : pipeline :=
  {| queued := queued p; rings := rings p; files := files p; denial_buckets := b; dropped := dropped p;
     counters := counters p; told := told p; node := node p |}.
Definition tell (t : list (nat * AuditEvent)) (p : pipeline) : pipeline :=
  {| queued := queued p; rings := rings p; files := files p; denial_buckets := denial_buckets p; dropped := dropped p;
     counters := counters p; told := told p ++ t; node := node p |}.
Definition add_counts (cs : list count) (p : pipeline) : pipeline :=
  {| queued := queued p; rings := rings p; files := files p; denial_buckets := denial_buckets p; dropped := dropped p;
     counters := counters p ++ cs; told := told p; node := node p |}.
(** [dropped += n] and the counter of where *)
Definition drop_events (n : Z) (place : string) (p : pipeline) : pipeline :=
  {| queued := queued p; rings := rings p; files := files p; denial_buckets := denial_buckets p;
     dropped := dropped p + n; counters := counters p ++ [("acl.audit.dropped", [("where", place)], n)];
     told := told p; node := node p |}.

(** ** [Emit] *)

(** What [Emit] reads of the instance: its settings, whether the file opens, the steady clock *)
Record emit_env := {
  env_node_id : string;
  env_queue : Z;
  env_buffer : Z;
  env_lineage_buffer : Z;
  env_sink : string;
  env_denials_per_second : Z;
  env_steady_ms : Z;
  env_opens : option bool;  (* the file opens; [None] when the instance is gone *)
  env_thread : bool;        (* the platform gives a thread *)
}.

(** [OpenFileIfNeeded] *)
Definition OpenFileIfNeeded (env : emit_env) (p : pipeline) : pipeline :=
  let f := files p in
  let f := if negb (String.eqb (env_sink env) (file_path f))
           then {| file_path := env_sink env; file := false; last_open_attempt := None; written := written f |}
           else f in
  if is_empty (env_sink env) || file f then with_files f p
  else if match last_open_attempt f with None => false | Some last => (env_steady_ms env - last <? 1000)%Z end
  then with_files f p
  else
    let f := {| file_path := file_path f; file := default false (env_opens env);
                last_open_attempt := Some (env_steady_ms env); written := written f |} in
    if bool_decide (env_opens env = Some false)
    then add_counts [counted "acl.audit.sink_errors" [("sink", "file")]] (with_files f p)
    else with_files f p.

(** The event with the node's name, its texts bounded *)
Definition bounded (env : emit_env) (fallback : string) (e : AuditEvent) : AuditEvent :=
  {| ev_kind := ev_kind e; ev_door := ev_door e; ev_session := ev_session e; ev_principal := ev_principal e;
     ev_detail := ev_detail e; ev_statement := ev_statement e; ev_allowed := ev_allowed e; ev_error := ev_error e;
     ev_reason_code := ev_reason_code e; ev_reason := TruncateUtf8 (ev_reason e) 512;
     ev_duration_us := ev_duration_us e; ev_rows := ev_rows e; ev_objects := ev_objects e; ev_level := ev_level e;
     ev_recorded := ev_recorded e; ev_seq := ev_seq e; ev_ts_us := ev_ts_us e;
     ev_node := if is_empty (env_node_id env) then fallback else env_node_id env;
     ev_correlation_id := BoundTrace (ev_correlation_id e); ev_traceparent := BoundTrace (ev_traceparent e);
     ev_lineage := ev_lineage e; ev_sources := ev_sources e |}.
Definition unrecorded (e : AuditEvent) : AuditEvent :=
  {| ev_kind := ev_kind e; ev_door := ev_door e; ev_session := ev_session e; ev_principal := ev_principal e;
     ev_detail := ev_detail e; ev_statement := ev_statement e; ev_allowed := ev_allowed e; ev_error := ev_error e;
     ev_reason_code := ev_reason_code e; ev_reason := ev_reason e;
     ev_duration_us := ev_duration_us e; ev_rows := ev_rows e; ev_objects := ev_objects e; ev_level := ev_level e;
     ev_recorded := false; ev_seq := ev_seq e; ev_ts_us := ev_ts_us e; ev_node := ev_node e;
     ev_correlation_id := ev_correlation_id e; ev_traceparent := ev_traceparent e;
     ev_lineage := ev_lineage e; ev_sources := ev_sources e |}.
Definition stamped (ts_us seq : Z) (e : AuditEvent) : AuditEvent :=
  {| ev_kind := ev_kind e; ev_door := ev_door e; ev_session := ev_session e; ev_principal := ev_principal e;
     ev_detail := ev_detail e; ev_statement := ev_statement e; ev_allowed := ev_allowed e; ev_error := ev_error e;
     ev_reason_code := ev_reason_code e; ev_reason := ev_reason e;
     ev_duration_us := ev_duration_us e; ev_rows := ev_rows e; ev_objects := ev_objects e; ev_level := ev_level e;
     ev_recorded := ev_recorded e; ev_seq := seq; ev_ts_us := ts_us; ev_node := ev_node e;
     ev_correlation_id := ev_correlation_id e; ev_traceparent := ev_traceparent e;
     ev_lineage := ev_lineage e; ev_sources := ev_sources e |}.

(** Whose denials share a bucket *)
Definition denial_source (e : AuditEvent) : string :=
  if negb (is_empty (ev_session e)) then "session:" +:+ ev_session e
  else if negb (is_empty (subject (ev_principal e))) || negb (bool_decide (roles (ev_principal e) = [])) then
    "principal:" +:+ issuer (ev_principal e) +:+ "|" +:+ subject (ev_principal e) +:+ "|"
    +:+ join "," (roles (ev_principal e))
  else
    "door:" +:+ ev_door e +:+
    (if String.eqb (ev_kind e) "door" && String.prefix "observe_" (ev_detail e) then ":observe"
     else if String.eqb (ev_kind e) "policy" && String.eqb (ev_detail e) "source_unreadable" then ":listing"
     else EmptyString).

Definition BUCKETS : nat := 4096.
Definition AdmitDenial (e : AuditEvent) (per_second second : Z) (buckets : gmap string (Z * Z))
    : bool * gmap string (Z * Z) :=
  if (per_second <=? 0)%Z then (true, buckets)
  else
    let buckets := if (BUCKETS <? size buckets)%nat then ∅ else buckets in
    let source := denial_source e in
    let '(at_second, n) := default (0, 0)%Z (buckets !! source) in
    let n := (if at_second =? second then n else 0)%Z in
    ((n + 1 <=? per_second)%Z, <[source := (second, n + 1)%Z]> buckets).

(** [Emit] up to the queue's lock *)
Definition emit_prepare (env : emit_env) (now_us : Z) (e : AuditEvent) (p : pipeline) : AuditEvent * pipeline :=
  let p := with_rings {| ring_cap := env_buffer env; lineage_cap := env_lineage_buffer env;
                         ring := ring (rings p); lineage_ring := lineage_ring (rings p) |} p in
  let p := OpenFileIfNeeded env p in
  let e := bounded env (node p) e in
  if negb (ev_allowed e) && ev_recorded e then
    let '(fits_rate, buckets) :=
      AdmitDenial e (env_denials_per_second env) (now_us / 1000000) (denial_buckets p) in
    let p := with_buckets buckets p in
    if fits_rate then (e, p) else (unrecorded e, drop_events 1 "rate_limit" p)
  else (e, p).

(** [Emit] under the queue's lock; the sequence number, 0 when the event was not queued *)
Definition emit_enqueue (env : emit_env) (now_us : Z) (e : AuditEvent) (p : pipeline) : Z * pipeline :=
  let q := queued p in
  if stopping q then (0%Z, p)
  else if (0 <? env_queue env)%Z && (env_queue env <=? Z.of_nat (length (queue q)))%Z then
    let p := drop_events 1 "queue" p in
    (0%Z, if String.eqb (ev_kind e) "lineage" then add_counts [counted "acl.lineage.dropped" []] p else p)
  else
    let s := (seq q + 1)%Z in
    let e := stamped now_us s e in
    if joinable q || env_thread env then
      (s, with_queued {| queue := queue q ++ [e]; handled := handled q; enqueued := enqueued q + 1; seq := s;
                         stopping := stopping q; abandon := abandon q; joinable := true |} p)
    else
      (0%Z, drop_events 1 "queue"
        (with_queued {| queue := queue q; handled := handled q; enqueued := enqueued q; seq := s;
                        stopping := stopping q; abandon := abandon q; joinable := joinable q |} p)).

(** ** The worker *)

Inductive taken := Waits | Finished | Took (e : AuditEvent).

(** [Run]'s first critical section; it waits while the queue is empty and nothing stops it *)
Definition run_take (p : pipeline) : taken * pipeline :=
  let q := queued p in
  match queue q with
  | [] => (if stopping q then Finished else Waits, p)
  | e :: rest =>
      if abandon q then
        (Finished, drop_events (Z.of_nat (length (queue q))) "queue"
          (with_queued {| queue := []; handled := handled q; enqueued := enqueued q; seq := seq q;
                          stopping := stopping q; abandon := abandon q; joinable := joinable q |} p))
      else
        (Took e, with_queued {| queue := rest; handled := handled q; enqueued := enqueued q; seq := seq q;
                                stopping := stopping q; abandon := abandon q; joinable := joinable q |} p)
  end.

(** [text.compare(0, n, prefix) == 0] *)
Definition from (n : nat) (s : string) : string := String.substring n (String.length s - n) s.

(** The counters an event moves *)
Definition Count (e : AuditEvent) : list count :=
  let verdict := if ev_allowed e then "allowed" else "denied" in
  let door := ("door", ev_door e) in
  counted "acl.audit.events" [] ::
  if String.eqb (ev_kind e) "statement" || String.eqb (ev_kind e) "admin" || String.eqb (ev_kind e) "ingest" then
    [counted "acl.decisions" [("verdict", verdict); ("kind", ev_kind e); door; ("statement", ev_statement e)]]
    ++ (if ev_allowed e then [] else [counted "acl.denials" [("reason_code", ev_reason_code e); door]])
    ++ (if String.eqb (ev_kind e) "admin"
        then [counted "acl.admin.statements" [("verdict", verdict); ("scope", ev_detail e)]] else [])
    ++ (if String.eqb (ev_kind e) "ingest"
        then [counted "acl.ingest.statements" [door; ("verdict", verdict)]] else [])
  else
    match (if String.eqb (ev_kind e) "lineage" then ev_lineage e else None) with
    | Some (event_type, approximate) =>
        counted "acl.lineage.events" [("event_type", event_type)]
        :: (if approximate then [counted "acl.lineage.approximate" []] else [])
    | None =>
        if String.eqb (ev_kind e) "profile" then
          counted "acl.exec.statements"
            [door; ("statement", ev_statement e); ("result", if ev_error e then "error" else "ok")]
          :: flat_map (λ s : string * string * Z * Z,
               let labels := [("source", s.1.1.1); ("kind", s.1.1.2)] in
               [("acl.exec.rows", labels, s.1.2); ("acl.exec.time_us", labels, s.2)]) (ev_sources e)
        else if String.eqb (ev_kind e) "session" then
          if String.eqb (ev_detail e) "opened" then [counted "acl.sessions.opened" [door]]
          else if String.eqb (ev_detail e) "refused" then
            [counted "acl.sessions.refused" [door; ("reason_code", ev_reason_code e)]]
          else if String.eqb (ev_detail e) "moved" then [counted "acl.sessions.moved" [door]]
          else if String.eqb (ev_detail e) "move_refused" then
            [counted "acl.sessions.move_refused" [door; ("reason_code", ev_reason_code e)]]
          else [counted "acl.sessions.closed" [door; ("how", ev_detail e)]]
        else if String.eqb (ev_kind e) "door" then
          if String.prefix "ticket_" (ev_detail e) then
            [counted "acl.door.tickets" [door; ("outcome", from 7 (ev_detail e))]]
          else if String.prefix "stream_" (ev_detail e) then
            [counted "acl.door.streams" [door; ("outcome", from 7 (ev_detail e))]]
          else if String.prefix "ingest_" (ev_detail e) then
            [counted "acl.door.streams" [door; ("outcome", ev_detail e)]]
          else if String.prefix "observe_" (ev_detail e) then
            [counted "acl.door.observe"
               [door; ("surface", from 8 (ev_detail e));
                ("result", if ev_allowed e then "allowed" else ev_reason_code e)]]
          else if String.eqb (ev_detail e) "discovery" then
            [counted "acl.door.discoveries" [door; ("result", verdict)]]
          else [counted "acl.door.handshakes" [door; ("result", verdict)]]
        else if String.eqb (ev_kind e) "policy" then
          if String.eqb (ev_detail e) "reloaded" then [counted "acl.policy.reloads" []]
          else if String.eqb (ev_detail e) "source_error" then [counted "acl.policy.source_errors" []]
          else if String.eqb (ev_detail e) "written" then [counted "acl.policy.writes" []]
          else []
        else if String.eqb (ev_kind e) "keys" then
          let issuer := match ev_objects e with [] => EmptyString | o :: _ => o.1 end in
          [counted "acl.jwks.refreshes" [("issuer", issuer); ("result", ev_detail e)]]
        else []
    end.

(** An observer of the registry, as one delivery sees it: whether it wants lineage, whether it throws *)
Record sink := { wants_lineage : bool; wants_throws : bool; on_event_throws : bool }.
Definition sink_error : count := counted "acl.audit.sink_errors" [("sink", "extension")].
(** One event to each sink in turn; what a sink throws is counted and stops no other *)
Fixpoint to_sinks (lineage : bool) (i : nat) (sinks : list sink) (e : AuditEvent)
    : list (nat * AuditEvent) * list count :=
  match sinks with
  | [] => ([], [])
  | s :: sinks =>
      let '(told, counts) := to_sinks lineage (S i) sinks e in
      if lineage && wants_throws s then (told, sink_error :: counts)
      else if lineage && negb (wants_lineage s) then (told, counts)
      else ((i, e) :: told, if on_event_throws s then sink_error :: counts else counts)
  end.

(** [push_back], then [pop_front] while above the cap *)
Definition push_bounded (cap : Z) (l : list AuditEvent) (e : AuditEvent) : list AuditEvent :=
  let l := l ++ [e] in
  drop (length l - Z.to_nat cap) l.

(** What one write to the file comes to *)
Inductive file_outcome := Written | Failed.
Definition WriteFile (outcome : file_outcome) (e : AuditEvent) (p : pipeline) : pipeline :=
  let f := files p in
  if is_empty (file_path f) then p
  else if negb (file f) then drop_events 1 "sink" p
  else
    match outcome with
    | Written => with_files {| file_path := file_path f; file := true; last_open_attempt := last_open_attempt f;
                               written := written f ++ [e] |} p
    | Failed => add_counts [counted "acl.audit.sink_errors" [("sink", "file")]]
                  (drop_events 1 "sink"
                    (with_files {| file_path := file_path f; file := false;
                                   last_open_attempt := last_open_attempt f; written := written f |} p))
    end.

Definition Handle (sinks : list sink) (outcome : file_outcome) (e : AuditEvent) (p : pipeline) : pipeline :=
  let p := add_counts (Count e) p in
  if negb (ev_recorded e) then p
  else
    let lineage := String.eqb (ev_kind e) "lineage" in
    let '(told, counts) := to_sinks lineage 0 sinks e in
    let p := add_counts counts (tell told p) in
    let r := rings p in
    if lineage then
      if (0 <? lineage_cap r)%Z then
        with_rings {| ring_cap := ring_cap r; lineage_cap := lineage_cap r; ring := ring r;
                      lineage_ring := push_bounded (lineage_cap r) (lineage_ring r) e |} p
      else p
    else
      let p :=
        if (0 <? ring_cap r)%Z then
          let kept := push_bounded (ring_cap r) (ring r) e in
          Nat.iter (S (length (ring r)) - length kept) (drop_events 1 "ring")
            (with_rings {| ring_cap := ring_cap r; lineage_cap := lineage_cap r; ring := kept;
                           lineage_ring := lineage_ring r |} p)
        else p in
      WriteFile outcome e p.

(** [Run]'s second critical section *)
Definition run_done (p : pipeline) : pipeline :=
  let q := queued p in
  with_queued {| queue := queue q; handled := handled q + 1; enqueued := enqueued q; seq := seq q;
                 stopping := stopping q; abandon := abandon q; joinable := joinable q |} p.

(** [Stop]'s first critical section: stopping, then, its wait over, abandoning what is left *)
Definition stop_begin (p : pipeline) : pipeline :=
  let q := queued p in
  with_queued {| queue := queue q; handled := handled q; enqueued := enqueued q; seq := seq q;
                 stopping := true; abandon := abandon q; joinable := joinable q |} p.
Definition stop_abandon (p : pipeline) : pipeline :=
  let q := queued p in
  with_queued {| queue := queue q; handled := handled q; enqueued := enqueued q; seq := seq q;
                 stopping := stopping q; abandon := true; joinable := joinable q |} p.

(** What a caller of [Flush] waits for *)
Definition flush_drained (target : Z) (p : pipeline) : bool := (target <=? handled (queued p))%Z || stopping (queued p).

(** ** The emitting threads and the worker *)

(** The worker between its critical sections; [Counted] has handled its event and not said so yet *)
Inductive worker := Idle | Busy (e : AuditEvent) | Counted (e : AuditEvent) | Gone.

(** [preparing] are the events between an [Emit]'s preparation and the queue's lock.  The rest is
    history: the events queued so far, those the worker took, those it handled, those given up. *)
Record audit_system := {
  pipe : pipeline;
  preparing : list AuditEvent;
  thread : worker;
  accepted : list AuditEvent;
  finished : list AuditEvent;
  lost : list AuditEvent;
}.
Definition audit_start (node : string) : audit_system :=
  {| pipe := new_pipeline node; preparing := []; thread := Idle; accepted := []; finished := []; lost := [] |}.

(** The event queued by [emit_enqueue], when it was *)
Definition newly_queued (p p' : pipeline) : list AuditEvent := drop (length (queue (queued p))) (queue (queued p')).

Inductive pipe_step : audit_system → audit_system → Prop :=
  | step_prepare σ env now e e' p' :
      emit_prepare env now e (pipe σ) = (e', p') →
      pipe_step σ {| pipe := p'; preparing := preparing σ ++ [e']; thread := thread σ; accepted := accepted σ;
                     finished := finished σ; lost := lost σ |}
  | step_enqueue σ env now before e after s p' :
      preparing σ = before ++ e :: after → emit_enqueue env now e (pipe σ) = (s, p') →
      pipe_step σ {| pipe := p'; preparing := before ++ after; thread := thread σ;
                     accepted := accepted σ ++ newly_queued (pipe σ) p'; finished := finished σ; lost := lost σ |}
  | step_take σ e p' :
      thread σ = Idle → joinable (queued (pipe σ)) = true → run_take (pipe σ) = (Took e, p') →
      pipe_step σ {| pipe := p'; preparing := preparing σ; thread := Busy e; accepted := accepted σ;
                     finished := finished σ; lost := lost σ |}
  | step_finish σ p' :
      thread σ = Idle → joinable (queued (pipe σ)) = true → run_take (pipe σ) = (Finished, p') →
      pipe_step σ {| pipe := p'; preparing := preparing σ; thread := Gone; accepted := accepted σ;
                     finished := finished σ; lost := queue (queued (pipe σ)) |}
  | step_handle σ e sinks outcome :
      thread σ = Busy e →
      pipe_step σ {| pipe := Handle sinks outcome e (pipe σ); preparing := preparing σ; thread := Counted e;
                     accepted := accepted σ; finished := finished σ ++ [e]; lost := lost σ |}
  | step_done σ e :
      thread σ = Counted e →
      pipe_step σ {| pipe := run_done (pipe σ); preparing := preparing σ; thread := Idle; accepted := accepted σ;
                     finished := finished σ; lost := lost σ |}
  | step_stop σ :
      pipe_step σ {| pipe := stop_begin (pipe σ); preparing := preparing σ; thread := thread σ;
                     accepted := accepted σ; finished := finished σ; lost := lost σ |}
  | step_abandon σ :
      stopping (queued (pipe σ)) = true →
      pipe_step σ {| pipe := stop_abandon (pipe σ); preparing := preparing σ; thread := thread σ;
                     accepted := accepted σ; finished := finished σ; lost := lost σ |}.

Definition audit_reachable (σ : audit_system) : Prop := ∃ node, rtc pipe_step (audit_start node) σ.

(** The event the worker took and has not handled, and the one it handled and has not said so *)
Definition in_hand (w : worker) : list AuditEvent := match w with Busy e => [e] | _ => [] end.
Definition unsaid (w : worker) : Z := match w with Counted _ => 1 | _ => 0 end.

Definition recorded_in_ring (e : AuditEvent) : bool := ev_recorded e && negb (String.eqb (ev_kind e) "lineage").
Definition recorded_lineage (e : AuditEvent) : bool := ev_recorded e && String.eqb (ev_kind e) "lineage".
Definition event_counts (p : pipeline) : list count :=
  List.filter (λ c : count, String.eqb c.1.1 "acl.audit.events") (counters p).
Definition told_to (i : nat) (p : pipeline) : list AuditEvent :=
  map snd (List.filter (λ t : nat * AuditEvent, Nat.eqb t.1 i) (told p)).

Record pipe_ok (σ : audit_system) : Prop := {
  ok_order : accepted σ = finished σ ++ in_hand (thread σ) ++ queue (queued (pipe σ)) ++ lost σ;
  ok_lost : lost σ ≠ [] → thread σ = Gone;
  ok_gone : thread σ = Gone → queue (queued (pipe σ)) = [] ∧ stopping (queued (pipe σ)) = true;
  ok_abandon : abandon (queued (pipe σ)) = true → stopping (queued (pipe σ)) = true;
  ok_enqueued : enqueued (queued (pipe σ)) = Z.of_nat (length (accepted σ));
  ok_handled : handled (queued (pipe σ)) = (Z.of_nat (length (finished σ)) - unsaid (thread σ))%Z;
  ok_seq : StronglySorted Z.lt (map ev_seq (accepted σ));
  ok_seq_max : Forall (λ e, (ev_seq e ≤ seq (queued (pipe σ)))%Z) (accepted σ);
  ok_ring : ring (rings (pipe σ)) `sublist_of` List.filter recorded_in_ring (finished σ);
  ok_lineage : lineage_ring (rings (pipe σ)) `sublist_of` List.filter recorded_lineage (finished σ);
  ok_told : ∀ i, told_to i (pipe σ) `sublist_of` List.filter ev_recorded (finished σ);
  ok_counted : length (event_counts (pipe σ)) = length (finished σ);
}.

(** *** What each operation leaves as it was *)

(** The parts the invariant reads outside the queue: rings' lists, tellings, event counts *)
Record same_records (p p' : pipeline) : Prop := {
  same_ring : ring (rings p') = ring (rings p);
  same_lineage : lineage_ring (rings p') = lineage_ring (rings p);
  same_told : told p' = told p;
  same_counts : event_counts p' = event_counts p;
}.

#[export] Instance same_records_preorder : PreOrder same_records.
Proof.
  split; [by split|]. intros a b c [H1 H2 H3 H4] [K1 K2 K3 K4]. split; congruence.
Qed.

Lemma event_counts_app p cs :
  event_counts (add_counts cs p) =
  event_counts p ++ List.filter (λ c : count, String.eqb c.1.1 "acl.audit.events") cs.
Proof. apply List.filter_app. Qed.

Lemma add_counts_same cs p :
  List.filter (λ c : count, String.eqb c.1.1 "acl.audit.events") cs = [] → same_records p (add_counts cs p).
Proof. intros Hcs. split; try done. by rw event_counts_app Hcs app_nil_r. Qed.

Lemma drop_events_same n place p : same_records p (drop_events n place p).
Proof. split; try done. rw /event_counts /= List.filter_app /=. by rw app_nil_r. Qed.
Lemma drop_events_queued n place p : queued (drop_events n place p) = queued p.
Proof. done. Qed.

Lemma OpenFileIfNeeded_same env p :
  same_records p (OpenFileIfNeeded env p) ∧ queued (OpenFileIfNeeded env p) = queued p.
Proof.
  rw /OpenFileIfNeeded. repeat case_match; (split; [|done]); try by split.
  all: by (etransitivity; [|by apply add_counts_same]); split.
Qed.

Lemma emit_prepare_same env now e p e' p' :
  emit_prepare env now e p = (e', p') → same_records p p' ∧ queued p' = queued p.
Proof.
  rw /emit_prepare. set p1 := with_rings _ p. destruct (OpenFileIfNeeded_same env p1) as [Hs Hq].
  assert (H1 : same_records p p1) by by split. set p2 := OpenFileIfNeeded env p1 in Hs, Hq |- *.
  assert (H2 : same_records p p2) by by transitivity p1.
  destruct (negb _ && _); [|by intros [= <- <-]].
  destruct (AdmitDenial _ _ _ _) as [[] b]; intros [= <- <-]; (split; [|done]).
  - destruct H2. by split.
  - transitivity (with_buckets b p2); [destruct H2; by split|apply drop_events_same].
Qed.

Lemma StronglySorted_snoc l x :
  StronglySorted Z.lt l → Forall (λ y, (y < x)%Z) l → StronglySorted Z.lt (l ++ [x]).
Proof.
  induction 1 as [|y l Hs IH Hy]; intros Hx; [by repeat constructor|]. inversion Hx; subst. simpl.
  constructor; [by apply IH|]. apply Forall_app. split; [done|]. by repeat constructor.
Qed.

(** An enqueue adds one event, stamped with the next number, or none *)
Lemma emit_enqueue_spec env now e p s p' :
  emit_enqueue env now e p = (s, p') →
  same_records p p' ∧ stopping (queued p') = stopping (queued p) ∧ handled (queued p') = handled (queued p) ∧
  abandon (queued p') = abandon (queued p) ∧
  ((newly_queued p p' = [stamped now (seq (queued p) + 1) e] ∧
    queue (queued p') = queue (queued p) ++ newly_queued p p' ∧ stopping (queued p) = false ∧
    seq (queued p') = seq (queued p) + 1 ∧ enqueued (queued p') = enqueued (queued p) + 1)
   ∨ (newly_queued p p' = [] ∧ queue (queued p') = queue (queued p) ∧
      seq (queued p) ≤ seq (queued p') ∧ enqueued (queued p') = enqueued (queued p)))%Z.
Proof.
  rw /emit_enqueue. destruct (stopping (queued p)) eqn:Hst.
  { intros [= <- <-]. split; [done|]. split; [done|]. split; [done|]. split; [done|]. right. rw /newly_queued drop_all. split_and!; [done..|lia|done]. }
  destruct (_ && _).
  { destruct (String.eqb (ev_kind e) "lineage"); intros [= <- <-].
    - split; [transitivity (drop_events 1 "queue" p); [apply drop_events_same|by apply add_counts_same]|].
      split; [done|]. split; [done|]. split; [done|]. right. rw /newly_queued /= drop_all. split_and!; [done..|lia|done].
    - split; [apply drop_events_same|]. split; [done|]. split; [done|]. split; [done|]. right. rw /newly_queued /= drop_all.
      split_and!; [done..|lia|done]. }
  destruct (joinable (queued p) || env_thread env); intros [= <- <-].
  - split; [by split|]. split; [done|]. split; [done|]. split; [done|]. left. rw /newly_queued /= drop_app_length. split_and!; done.
  - split; [|split; [done|split; [done|split; [done|]]]].
    + by eapply transitivity; [|apply drop_events_same]; split.
    + right. rw /newly_queued /= drop_all. split_and!; [done..|lia|done].
Qed.

Lemma run_take_spec p :
  match run_take p with
  | (Waits, p') => p' = p
  | (Took e, p') => same_records p p' ∧ queue (queued p) = e :: queue (queued p') ∧ abandon (queued p) = false ∧
      seq (queued p') = seq (queued p) ∧ enqueued (queued p') = enqueued (queued p) ∧
      handled (queued p') = handled (queued p) ∧ stopping (queued p') = stopping (queued p) ∧
      abandon (queued p') = abandon (queued p)
  | (Finished, p') => same_records p p' ∧ queue (queued p') = [] ∧
      (queue (queued p) = [] → stopping (queued p) = true) ∧ (queue (queued p) ≠ [] → abandon (queued p) = true) ∧
      seq (queued p') = seq (queued p) ∧ enqueued (queued p') = enqueued (queued p) ∧
      handled (queued p') = handled (queued p) ∧ stopping (queued p') = stopping (queued p) ∧
      abandon (queued p') = abandon (queued p)
  end.
Proof.
  rw /run_take. destruct (queue (queued p)) as [|e rest] eqn:Hq.
  - by destruct (stopping (queued p)) eqn:Hs.
  - destruct (abandon (queued p)) eqn:Ha; simpl.
    + split; [by eapply transitivity; [|apply drop_events_same]; split|]. split_and!; done.
    + split; [by split|]. split_and!; done.
Qed.

Lemma to_sinks_counts lineage i sinks e :
  List.filter (λ c : count, String.eqb c.1.1 "acl.audit.events") (to_sinks lineage i sinks e).2 = [].
Proof.
  revert i. induction sinks as [|s sinks IH]; intros i; [done|]. simpl.
  specialize (IH (S i)). destruct (to_sinks lineage (S i) sinks e) as [t c].
  destruct (lineage && wants_throws s); [done|]. destruct (lineage && negb (wants_lineage s)); [done|].
  by destruct (on_event_throws s).
Qed.

(** Each sink hears an event once at most *)
Lemma to_sinks_told lineage i sinks e j :
  map snd (List.filter (λ t : nat * AuditEvent, Nat.eqb t.1 j) (to_sinks lineage i sinks e).1) `sublist_of` [e] ∧
  (j < i → List.filter (λ t : nat * AuditEvent, Nat.eqb t.1 j) (to_sinks lineage i sinks e).1 = []).
Proof.
  revert i. induction sinks as [|s sinks IH]; intros i; [split; [apply sublist_nil_l|done]|]. simpl.
  destruct (IH (S i)) as [Hs Hlt]. destruct (to_sinks lineage (S i) sinks e) as [t c]. simpl in Hs, Hlt.
  destruct (lineage && wants_throws s); [split; [done|intros; apply Hlt; lia]|].
  destruct (lineage && negb (wants_lineage s)); [split; [done|intros; apply Hlt; lia]|]. simpl.
  destruct (Nat.eqb_spec i j) as [->|Hne]; simpl.
  - rw Hlt; [lia|]. split; [done|lia].
  - split; [done|]. intros. apply Hlt. lia.
Qed.

Lemma Count_events e :
  length (List.filter (λ c : count, String.eqb c.1.1 "acl.audit.events") (Count e)) = 1.
Proof.
  rw /Count. cbn [List.filter fst snd counted].
  change (String.eqb "acl.audit.events" "acl.audit.events") with true. cbn [length]. f_equal.
  apply length_zero_iff_nil.
  assert (Hprofile : ∀ l : list (string * string * Z * Z),
    List.filter (λ c : count, String.eqb c.1.1 "acl.audit.events")
      (flat_map (λ s : string * string * Z * Z,
         [("acl.exec.rows", [("source", s.1.1.1); ("kind", s.1.1.2)], s.1.2);
          ("acl.exec.time_us", [("source", s.1.1.1); ("kind", s.1.1.2)], s.2)]) l) = []).
  { induction l as [|[[[a b] c] d] l IH]; [done|]. simpl. exact IH. }
  repeat (case_match; try done); simpl; rw ?Hprofile //; by destruct (ev_allowed e).
Qed.

Lemma push_bounded_spec cap l e :
  push_bounded cap l e `sublist_of` l ++ [e] ∧ (0 < cap → last (push_bounded cap l e) = Some e ∧
    Z.of_nat (length (push_bounded cap l e)) ≤ cap)%Z.
Proof.
  rw /push_bounded. split; [apply sublist_drop|]. intros Hcap. rw length_app /=. split.
  - rw drop_app_le; [lia|]. by rw last_snoc.
  - rw length_drop length_app /=. lia.
Qed.

Lemma iter_drop_events n k place p :
  same_records p (Nat.iter n (drop_events k place) p) ∧ queued (Nat.iter n (drop_events k place) p) = queued p ∧
  rings (Nat.iter n (drop_events k place) p) = rings p.
Proof.
  induction n as [|n IH]; [done|]. destruct IH as (Hs & Hq & Hr). rw iter_S. split; [|done].
  etransitivity; [exact Hs|apply drop_events_same].
Qed.

Lemma WriteFile_same outcome e p :
  same_records p (WriteFile outcome e p) ∧ queued (WriteFile outcome e p) = queued p ∧
  rings (WriteFile outcome e p) = rings p.
Proof.
  rw /WriteFile. destruct (is_empty _); [done|]. destruct (negb _); [split; [apply drop_events_same|done]|].
  destruct outcome; (split; [|done]); [by split|].
  eapply transitivity; [|by apply add_counts_same]. eapply transitivity; [|apply drop_events_same]. by split.
Qed.

(** What one [Handle] adds to the records *)
Record handles (e : AuditEvent) (p p' : pipeline) : Prop := {
  h_queued : queued p' = queued p;
  h_caps : ring_cap (rings p') = ring_cap (rings p) ∧ lineage_cap (rings p') = lineage_cap (rings p);
  h_ring : ring (rings p') `sublist_of` ring (rings p) ++ (if recorded_in_ring e then [e] else []);
  h_ring_last : recorded_in_ring e = true → (0 < ring_cap (rings p))%Z →
    last (ring (rings p')) = Some e ∧ (Z.of_nat (length (ring (rings p'))) ≤ ring_cap (rings p))%Z;
  h_lineage : lineage_ring (rings p') `sublist_of` lineage_ring (rings p) ++ (if recorded_lineage e then [e] else []);
  h_told : ∀ i, told_to i p' `sublist_of` told_to i p ++ (if ev_recorded e then [e] else []);
  h_counted : length (event_counts p') = S (length (event_counts p));
}.

Lemma told_to_tell i t p :
  told_to i (tell t p) = told_to i p ++ map snd (List.filter (λ t : nat * AuditEvent, Nat.eqb t.1 i) t).
Proof. by rw /told_to /= List.filter_app map_app. Qed.

Lemma Handle_spec sinks outcome e p : handles e p (Handle sinks outcome e p).
Proof.
  rw /Handle. set p1 := add_counts (Count e) p.
  assert (Hc1 : length (event_counts p1) = S (length (event_counts p))).
  { rw event_counts_app length_app Count_events. lia. }
  destruct (ev_recorded e) eqn:Hrec; simpl.
  2: { split; rw ?/recorded_in_ring ?/recorded_lineage ?Hrec /= ?app_nil_r; try done.
       intros i. by rw app_nil_r. }
  pose proof (to_sinks_counts (String.eqb (ev_kind e) "lineage") 0 sinks e) as Hsc.
  pose proof (λ j, proj1 (to_sinks_told (String.eqb (ev_kind e) "lineage") 0 sinks e j)) as Hst.
  destruct (to_sinks (String.eqb (ev_kind e) "lineage") 0 sinks e) as [t c]. simpl in Hsc, Hst.
  set p2 := add_counts c (tell t p1).
  assert (Hc2 : length (event_counts p2) = S (length (event_counts p))).
  { rw /p2 event_counts_app Hsc app_nil_r. exact Hc1. }
  assert (Ht2 : ∀ i, told_to i p2 `sublist_of` told_to i p ++ [e]).
  { intros i. rw /p2 -[told_to i (add_counts _ _)]/(told_to i (tell t p1)) told_to_tell.
    by apply sublist_app. }
  destruct (String.eqb (ev_kind e) "lineage") eqn:Hk.
  - assert (Hir : recorded_in_ring e = false) by by rw /recorded_in_ring Hrec Hk.
    assert (Hil : recorded_lineage e = true) by by rw /recorded_lineage Hrec Hk.
    destruct (0 <? lineage_cap (rings p))%Z; (split; rw ?Hir ?Hil ?app_nil_r; try done).
    + apply push_bounded_spec.
    + intros i. rw Hrec. apply Ht2.
    + by apply sublist_inserts_r.
    + intros i. rw Hrec. apply Ht2.
  - assert (Hir : recorded_in_ring e = true) by by rw /recorded_in_ring Hrec Hk.
    assert (Hil : recorded_lineage e = false) by by rw /recorded_lineage Hrec Hk.
    destruct (0 <? ring_cap (rings p))%Z eqn:Hcap.
    + match goal with |- context [WriteFile outcome e ?p] => destruct (WriteFile_same outcome e p) as (Hw & Hwq & Hwr) end.
      match goal with |- context [Nat.iter ?n _ ?p] => destruct (iter_drop_events n 1 "ring" p) as (Hi & Hiq & Hir') end.
      destruct Hw as [Hw1 Hw2 Hw3 Hw4], Hi as [Hi1 Hi2 Hi3 Hi4].
      split; rw ?Hir ?Hil ?Hwr ?Hir' ?app_nil_r /=.
      * by rw Hwq Hiq.
      * done.
      * apply push_bounded_spec.
      * intros _ Hpos. by apply push_bounded_spec.
      * done.
      * intros i. rw Hrec. rw /told_to Hw3 Hi3. apply Ht2.
      * rw Hw4 Hi4. exact Hc2.
    + destruct (WriteFile_same outcome e p2) as ([Hw1 Hw2 Hw3 Hw4] & Hwq & Hwr).
      split; rw ?Hir ?Hil ?Hwr ?app_nil_r /=; try done.
      * by apply sublist_inserts_r.
      * intros _ Hpos. apply Z.ltb_ge in Hcap. lia.
      * intros i. rw Hrec. rw /told_to Hw3. apply Ht2.
      * rw Hw4. exact Hc2.
Qed.

(** *** The invariant is preserved *)

Lemma pipe_ok_start node : pipe_ok (audit_start node).
Proof. split; simpl; try done; try constructor. Qed.

(** The records are as before, and so is what happened *)
Lemma records_kept p p' fin :
  same_records p p' →
  (ring (rings p) `sublist_of` List.filter recorded_in_ring fin) →
  (lineage_ring (rings p) `sublist_of` List.filter recorded_lineage fin) →
  (∀ i, told_to i p `sublist_of` List.filter ev_recorded fin) →
  length (event_counts p) = length fin →
  ring (rings p') `sublist_of` List.filter recorded_in_ring fin ∧
  lineage_ring (rings p') `sublist_of` List.filter recorded_lineage fin ∧
  (∀ i, told_to i p' `sublist_of` List.filter ev_recorded fin) ∧
  length (event_counts p') = length fin.
Proof. intros [H1 H2 H3 H4] ? ? Htold ?. rw H1 H2 H4. split_and!; try done. intros i. rw /told_to H3. apply Htold. Qed.

Lemma step_prepare_ok σ env now e e' p' :
  pipe_ok σ → emit_prepare env now e (pipe σ) = (e', p') →
  pipe_ok {| pipe := p'; preparing := preparing σ ++ [e']; thread := thread σ; accepted := accepted σ;
             finished := finished σ; lost := lost σ |}.
Proof.
  intros [Ho Hl Hg Hab He Hh Hs Hm Hr Hli Ht Hc] (Hsame & Hq)%emit_prepare_same.
  destruct (records_kept _ _ _ Hsame Hr Hli Ht Hc) as (? & ? & ? & ?).
  split; cbn [pipe preparing thread accepted finished lost]; rw ?Hq; done.
Qed.

Lemma step_enqueue_ok σ env now before e after s p' :
  pipe_ok σ → emit_enqueue env now e (pipe σ) = (s, p') →
  pipe_ok {| pipe := p'; preparing := before ++ after; thread := thread σ;
             accepted := accepted σ ++ newly_queued (pipe σ) p'; finished := finished σ; lost := lost σ |}.
Proof.
  intros [Ho Hl Hg Hab He Hh Hs Hm Hr Hli Ht Hc] (Hsame & Hst & Hhd & Ha & Hcase)%emit_enqueue_spec.
  destruct (records_kept _ _ _ Hsame Hr Hli Ht Hc) as (? & ? & ? & ?).
  destruct Hcase as [(Hn & Hq & Hns & Hseq & Henq)|(Hn & Hq & Hseq & Henq)].
  - assert (Hgone : thread σ ≠ Gone) by (intros [_ Hstop]%Hg; congruence).
    assert (Hlost : lost σ = []) by (destruct (lost σ) eqn:Hx; [done|]; exfalso; apply Hgone, Hl; discriminate).
    split; cbn [pipe preparing thread accepted finished lost]; rw ?Ha ?Hst; try done.
    + rw Ho Hq Hlost !app_nil_r !app_assoc. done.
    + rw length_app Hn Henq He /=. lia.
    + by rw Hhd Hh.
    + rw map_app Hn. apply StronglySorted_snoc; [done|]. rw Forall_map. eapply Forall_impl; [exact Hm|].
      intros x Hx. simpl in *; lia.
    + rw Forall_app Hn. split; [eapply Forall_impl; [exact Hm|]; intros x Hx; simpl in *; lia|].
      repeat constructor. simpl in *; lia.
  - split; cbn [pipe preparing thread accepted finished lost]; rw ?Hn ?app_nil_r ?Hq ?Hst ?Ha; try done.
    + by rw Henq.
    + by rw Hhd.
    + eapply Forall_impl; [exact Hm|]. intros x Hx. simpl in *; lia.
Qed.

Lemma pipe_step_ok σ σ' : pipe_step σ σ' → pipe_ok σ → pipe_ok σ'.
Proof.
  intros Hstep Hok.
  destruct Hstep as [σ env now e e' p' Hp|σ env now before e after s p' Hb Hp|σ e p' Hw Hj Hp|σ p' Hw Hj Hp
                    |σ e sinks outcome Hw|σ e Hw|σ|σ Hs].
  - by eapply step_prepare_ok.
  - by eapply step_enqueue_ok.
  - pose proof (run_take_spec (pipe σ)) as Hspec. rw Hp in Hspec.
    destruct Hspec as (Hsame & Hq & _ & Hseq & Henq & Hhd & Hst & Ha).
    destruct Hok as [Ho Hl Hg Hab He Hh Hso Hm Hr Hli Ht Hc].
    destruct (records_kept _ _ _ Hsame Hr Hli Ht Hc) as (? & ? & ? & ?).
    split; cbn [pipe preparing thread accepted finished lost]; rw ?Hseq ?Henq ?Hhd ?Ha ?Hst; try done.
    + rw Ho Hw Hq. done.
    + intros Hlost%Hl. congruence.
    + by rw Hh Hw.
  - pose proof (run_take_spec (pipe σ)) as Hspec. rw Hp in Hspec.
    destruct Hspec as (Hsame & Hq & Hempty & Hne & Hseq & Henq & Hhd & Hst & Ha).
    destruct Hok as [Ho Hl Hg Hab He Hh Hso Hm Hr Hli Ht Hc].
    destruct (records_kept _ _ _ Hsame Hr Hli Ht Hc) as (? & ? & ? & ?).
    assert (Hlost : lost σ = []) by (destruct (lost σ) eqn:Hx; [done|]; rw Hl in Hw; discriminate).
    split; cbn [pipe preparing thread accepted finished lost]; rw ?Hseq ?Henq ?Hhd ?Ha ?Hst; try done.
    + rw Ho Hw Hlost Hq !app_nil_r. done.
    + intros _. split; [done|]. destruct (queue (queued (pipe σ))); [by apply Hempty|by apply Hab, Hne].
    + by rw Hh Hw.
  - pose proof (Handle_spec sinks outcome e (pipe σ)) as [Hq _ Hring _ Hlin Htold Hcount].
    destruct Hok as [Ho Hl Hg Hab He Hh Hso Hm Hr Hli Ht Hc].
    split; cbn [pipe preparing thread accepted finished lost]; rw ?Hq; try done.
    + by rw Ho Hw -!app_assoc.
    + intros Hlost%Hl. congruence.
    + rw Hh Hw length_app /=. lia.
    + rw List.filter_app /=. etransitivity; [exact Hring|]. apply sublist_app; [done|]. by destruct (recorded_in_ring e).
    + rw List.filter_app /=. etransitivity; [exact Hlin|]. apply sublist_app; [done|]. by destruct (recorded_lineage e).
    + intros i. rw List.filter_app /=. etransitivity; [apply Htold|]. apply sublist_app; [done|]. by destruct (ev_recorded e).
    + rw Hcount Hc length_app /=. lia.
  - destruct Hok as [Ho Hl Hg Hab He Hh Hso Hm Hr Hli Ht Hc].
    split; cbn [pipe preparing thread accepted finished lost]; try done.
    + by rw Ho Hw.
    + intros Hlost%Hl. congruence.
    + rw /= Hh Hw /=. lia.
  - destruct Hok as [Ho Hl Hg Hab He Hh Hso Hm Hr Hli Ht Hc]. split; try done. intros Hgone%Hg. by destruct Hgone.
  - destruct Hok as [Ho Hl Hg Hab He Hh Hso Hm Hr Hli Ht Hc]. split; try done.
Qed.

Lemma pipe_reachable_ok σ : audit_reachable σ → pipe_ok σ.
Proof.
  intros [nd Hsteps]. assert (Hok : pipe_ok (audit_start nd)) by apply pipe_ok_start.
  induction Hsteps as [|σ1 σ2 σ3 Hstep _ IH]; [done|]. by apply IH, (pipe_step_ok σ1).
Qed.

(** History only grows *)
Lemma pipe_step_grows σ σ' : pipe_step σ σ' →
  accepted σ `prefix_of` accepted σ' ∧ finished σ `prefix_of` finished σ'.
Proof. intros []; cbn [accepted finished]; (split; [|]); by (done || eexists). Qed.
Lemma steps_grow σ σ' : rtc pipe_step σ σ' →
  accepted σ `prefix_of` accepted σ' ∧ finished σ `prefix_of` finished σ'.
Proof.
  induction 1 as [|σ1 σ2 σ3 [Ha Hf]%pipe_step_grows _ [Ha' Hf']]; [done|]. split; by etransitivity.
Qed.

(** *** The worker after [Stop]

    A step of the worker's own is one that moves [thread]. *)
Inductive worker_run : nat → audit_system → audit_system → Prop :=
  | run_refl σ : worker_run 0 σ σ
  | run_own n σ1 σ2 σ3 :
      pipe_step σ1 σ2 → thread σ1 ≠ thread σ2 → worker_run n σ2 σ3 → worker_run (S n) σ1 σ3
  | run_other n σ1 σ2 σ3 :
      pipe_step σ1 σ2 → thread σ1 = thread σ2 → worker_run n σ2 σ3 → worker_run n σ1 σ3.

(** Three steps for each event, and what is left of the one in hand *)
Definition worker_measure (σ : audit_system) : nat :=
  match thread σ with
  | Gone => 0
  | Idle => 3 * length (queue (queued (pipe σ))) + 1
  | Busy _ => 3 * length (queue (queued (pipe σ))) + 3
  | Counted _ => 3 * length (queue (queued (pipe σ))) + 2
  end.

Lemma stopping_measure σ σ' :
  stopping (queued (pipe σ)) = true → pipe_step σ σ' →
  stopping (queued (pipe σ')) = true ∧ joinable (queued (pipe σ')) = joinable (queued (pipe σ)) ∧
  (thread σ = thread σ' → worker_measure σ' ≤ worker_measure σ) ∧
  (thread σ ≠ thread σ' → worker_measure σ' < worker_measure σ).
Proof.
  intros Hst Hstep.
  destruct Hstep as [σ env now e e' p' Hp|σ env now before e after s p' Hb Hp|σ e p' Hw Hj Hp|σ p' Hw Hj Hp
                    |σ e sinks outcome Hw|σ e Hw|σ|σ Hs]; rw /worker_measure; cbn [pipe thread].
  - apply emit_prepare_same in Hp as [_ ->]. split_and!; try done.
  - rw /emit_enqueue Hst in Hp. injection Hp as <- <-. split_and!; try done.
  - rw /run_take in Hp. destruct (queue (queued (pipe σ))) as [|x rest]; [by rw Hst in Hp|].
    destruct (abandon (queued (pipe σ))); [done|]. injection Hp as -> <-. rw Hw /=. split_and!; try done; lia.
  - rw /run_take in Hp. destruct (queue (queued (pipe σ))) as [|x rest] eqn:Hq.
    + rw Hst in Hp. injection Hp as <-. rw Hw. split_and!; try done; lia.
    + destruct (abandon (queued (pipe σ))); [|done]. injection Hp as <-. rw Hw /=. split_and!; try done; lia.
  - destruct (Handle_spec sinks outcome e (pipe σ)) as [-> _ _ _ _ _ _]. rw Hw. split_and!; try done; lia.
  - rw Hw /=. split_and!; try done; lia.
  - split_and!; try done.
  - split_and!; try done.
Qed.

(** ** The properties *)

(** the audit loses nothing it accepted and keeps its order, however the emitting threads and the
    worker interleave.  The events queued are, in order, those handled, the one in hand, those waiting
    and those given up at the stop; their numbers strictly grow.  The ring, the lineage ring and every
    sink hold recorded events in that order, each at most once, and every handled event was counted
    once, recorded or not.  Once [Flush] sees the count it waits for, every event queued before it is
    handled. *)
Theorem audit_keeps_order (σ σ' : audit_system) :
  audit_reachable σ → rtc pipe_step σ σ' →
  accepted σ = finished σ ++ in_hand (thread σ) ++ queue (queued (pipe σ)) ++ lost σ ∧
  StronglySorted Z.lt (map ev_seq (accepted σ)) ∧
  ring (rings (pipe σ)) `sublist_of` List.filter recorded_in_ring (finished σ) ∧
  lineage_ring (rings (pipe σ)) `sublist_of` List.filter recorded_lineage (finished σ) ∧
  (∀ i, told_to i (pipe σ) `sublist_of` List.filter ev_recorded (finished σ)) ∧
  length (event_counts (pipe σ)) = length (finished σ) ∧
  (flush_drained (enqueued (queued (pipe σ))) (pipe σ') = true → stopping (queued (pipe σ')) = false →
   ∀ e, e ∈ accepted σ → e ∈ finished σ').
Proof.
  intros Hreach Hsteps. pose proof (pipe_reachable_ok σ Hreach) as [Ho Hl Hg Hab He Hh Hs Hm Hr Hli Ht Hc].
  split_and!; [exact Ho|exact Hs|exact Hr|exact Hli|exact Ht|exact Hc|].
  intros Hflush Hrun e Hin.
  assert (Hreach' : audit_reachable σ') by (destruct Hreach as [nd ?]; exists nd; by etransitivity).
  pose proof (pipe_reachable_ok σ' Hreach') as [Ho' _ _ _ _ Hh' _ _ _ _ _ _].
  rw /flush_drained Hrun orb_false_r He in Hflush. apply Z.leb_le in Hflush.
  destruct (steps_grow σ σ' Hsteps) as [[k Hk] _].
  assert (Hlen : length (accepted σ) ≤ length (finished σ')).
  { destruct (thread σ'); simpl in Hh'; lia. }
  rw Hk in Ho'. assert (Htake : accepted σ = take (length (accepted σ)) (finished σ')).
  { pose proof (f_equal (take (length (accepted σ))) Ho') as Hl'. rw take_app_length in Hl'. by rw take_app_le in Hl'. }
  rw Htake in Hin. apply elem_of_take in Hin as (i & Hi & _). by eapply list_elem_of_lookup_2.
Qed.

(** the worker ends.  After [Stop] asked it to, it takes at most three steps for each event still
    queued and three more, whatever the other threads do meanwhile; and until it is gone its next step
    is always possible: it never waits. *)
Theorem worker_ends_after_stop (n : nat) (σ σ' : audit_system) :
  stopping (queued (pipe σ)) = true → joinable (queued (pipe σ)) = true → worker_run n σ σ' →
  n ≤ 3 * length (queue (queued (pipe σ))) + 3 ∧
  (thread σ' = Gone ∨ ∃ σ'', pipe_step σ' σ'' ∧ thread σ'' ≠ thread σ').
Proof.
  intros Hst Hj Hrun.
  assert (Hn : n ≤ worker_measure σ ∧ stopping (queued (pipe σ')) = true ∧ joinable (queued (pipe σ')) = true).
  { induction Hrun as [σ|n σ1 σ2 σ3 Hs Hne _ IH|n σ1 σ2 σ3 Hs Heq _ IH]; [split; [lia|done]|..];
      destruct (stopping_measure σ1 σ2 Hst Hs) as (Hst2 & Hj2 & Hle & Hlt); destruct IH as (IHn & ? & ?); try done;
      rw ?Hj2 //; split; try done; [specialize (Hlt Hne)|specialize (Hle Heq)]; lia. }
  destruct Hn as (Hn & Hst' & Hj'). split.
  - rw /worker_measure in Hn. destruct (thread σ); lia.
  - destruct (thread σ') as [|e|e|] eqn:Hw; [| | |by left]; right.
    + pose proof (run_take_spec (pipe σ')) as Hspec. destruct (run_take (pipe σ')) as [[| |e] p'] eqn:Ht.
      * rw /run_take Hst' in Ht. by repeat case_match.
      * eexists. split; [by eapply step_finish|done].
      * eexists. split; [by eapply step_take|done].
    + eexists. split; [by apply (step_handle _ e [] Written)|done].
    + eexists. split; [by eapply step_done|done].
Qed.

(** ** The properties on a concrete run *)

Definition sample_env : emit_env := {|
  env_node_id := EmptyString; env_queue := 10; env_buffer := 2; env_lineage_buffer := 1; env_sink := EmptyString;
  env_denials_per_second := 100; env_steady_ms := 0; env_opens := None; env_thread := true |}.
Definition sample_event : AuditEvent := {|
  ev_kind := "door"; ev_door := "quack"; ev_session := EmptyString; ev_principal := no_principal;
  ev_detail := "ticket_issued"; ev_statement := EmptyString; ev_allowed := true; ev_error := false;
  ev_reason_code := EmptyString; ev_reason := EmptyString; ev_duration_us := -1; ev_rows := -1; ev_objects := [];
  ev_level := ALL; ev_recorded := true; ev_seq := 0; ev_ts_us := 0; ev_node := EmptyString;
  ev_correlation_id := EmptyString; ev_traceparent := EmptyString; ev_lineage := None; ev_sources := [] |}.

Definition prepared : AuditEvent * pipeline := Eval vm_compute in emit_prepare sample_env 5 sample_event (new_pipeline "host:1").
Definition enqueued_at : Z * pipeline := Eval vm_compute in emit_enqueue sample_env 7 prepared.1 prepared.2.
Definition queued_event : AuditEvent := Eval vm_compute in stamped 7 1 prepared.1.
Definition taken_at : taken * pipeline := Eval vm_compute in run_take enqueued_at.2.
Definition sample_queued : audit_system :=
  {| pipe := enqueued_at.2; preparing := []; thread := Idle; accepted := [queued_event]; finished := []; lost := [] |}.
Definition sample_handled : audit_system :=
  {| pipe := run_done (Handle [] Written queued_event taken_at.2); preparing := []; thread := Idle;
     accepted := [queued_event]; finished := [queued_event]; lost := [] |}.

Lemma sample_queued_reached : rtc pipe_step (audit_start "host:1") sample_queued.
Proof.
  eapply rtc_l; [apply (step_prepare _ sample_env 5 sample_event prepared.1 prepared.2); vm_compute; reflexivity|].
  eapply rtc_l; [apply (step_enqueue _ sample_env 7 [] prepared.1 [] 1 enqueued_at.2); vm_compute; reflexivity|].
  apply rtc_refl.
Qed.

Lemma sample_handled_reached : rtc pipe_step sample_queued sample_handled.
Proof.
  eapply rtc_l; [apply (step_take _ queued_event taken_at.2); vm_compute; reflexivity|].
  eapply rtc_l; [apply (step_handle _ queued_event [] Written); vm_compute; reflexivity|].
  eapply rtc_l; [apply (step_done _ queued_event); vm_compute; reflexivity|].
  apply rtc_refl.
Qed.

Lemma audit_keeps_order_witness :
  ev_seq queued_event = 1%Z ∧ accepted sample_queued = [queued_event] ∧ queued_event ∈ finished sample_handled.
Proof.
  split; [reflexivity|]. split; [reflexivity|].
  refine (proj2 (proj2 (proj2 (proj2 (proj2 (proj2
    (audit_keeps_order sample_queued sample_handled
       (ex_intro _ "host:1" sample_queued_reached) sample_handled_reached)))))) _ _ queued_event _).
  - vm_compute. reflexivity.
  - vm_compute. reflexivity.
  - left.
Defined.

Definition sample_stopped : audit_system :=
  {| pipe := stop_begin enqueued_at.2; preparing := []; thread := Idle; accepted := [queued_event]; finished := [];
     lost := [] |}.
Definition sample_busy : audit_system :=
  {| pipe := (run_take (stop_begin enqueued_at.2)).2; preparing := []; thread := Busy queued_event;
     accepted := [queued_event]; finished := []; lost := [] |}.
Lemma sample_runs : worker_run 1 sample_stopped sample_busy.
Proof.
  eapply run_own; [apply (step_take _ queued_event (run_take (stop_begin enqueued_at.2)).2); vm_compute; reflexivity
                  |discriminate|apply run_refl].
Qed.

Lemma worker_ends_after_stop_witness :
  thread sample_busy = Busy queued_event ∧
  (thread sample_busy = Gone ∨ ∃ σ'', pipe_step sample_busy σ'' ∧ thread σ'' ≠ thread sample_busy).
Proof.
  split; [reflexivity|].
  refine (proj2 (worker_ends_after_stop 1 sample_stopped sample_busy _ _ sample_runs)); vm_compute; reflexivity.
Defined.
