(* ===== verification/SessionData.v ===== *)
(** * Sessions: the data ([src/src/include/acl_policy.hpp])

    A session as the store keeps it, the settings its life is judged against, and the texts a session
    puts in front of a statement. *)
From S2P Require Import Prelude PolicyTypes AuditTrail.

(** [audit_level] is the session's own, none when it is the instance's; a negative [profile_override]
    is none *)
Record Session := {
  principal : Principal;
  id : string;
  expires_at : Z;
  last_used : Z;
  door : string;
  opened_at : Z;
  audit_level : option AuditLevel;
  level_from_operator : bool;
  profile_override : Z;
  correlation_id : string;
  traceparent : string;
  lineage_parent : string;
  lineage_root_parent : string;
  lineage_job : string;
  use_catalog : string;
  use_schema : string;
  view_as : string;
  per_call : bool;
  declared_view_as : bool;
  drain_stream : string;
  limits : ResourceLimits;
}.

(** One field assigned *)
Definition set_last_used (v_last_used : Z) (s : Session) : Session :=
  {| principal := principal s; id := id s; expires_at := expires_at s;
     last_used := v_last_used; door := door s; opened_at := opened_at s;
     audit_level := audit_level s; level_from_operator := level_from_operator s; profile_override := profile_override s;
     correlation_id := correlation_id s; traceparent := traceparent s; lineage_parent := lineage_parent s;
     lineage_root_parent := lineage_root_parent s; lineage_job := lineage_job s; use_catalog := use_catalog s;
     use_schema := use_schema s; view_as := view_as s; per_call := per_call s;
     declared_view_as := declared_view_as s; drain_stream := drain_stream s; limits := limits s |}.
Definition set_level (v_audit_level : option AuditLevel) (v_level_from_operator : bool) (s : Session) : Session :=
  {| principal := principal s; id := id s; expires_at := expires_at s;
     last_used := last_used s; door := door s; opened_at := opened_at s;
     audit_level := v_audit_level; level_from_operator := v_level_from_operator; profile_override := profile_override s;
     correlation_id := correlation_id s; traceparent := traceparent s; lineage_parent := lineage_parent s;
     lineage_root_parent := lineage_root_parent s; lineage_job := lineage_job s; use_catalog := use_catalog s;
     use_schema := use_schema s; view_as := view_as s; per_call := per_call s;
     declared_view_as := declared_view_as s; drain_stream := drain_stream s; limits := limits s |}.
Definition set_profile (v_profile_override : Z) (s : Session) : Session :=
  {| principal := principal s; id := id s; expires_at := expires_at s;
     last_used := last_used s; door := door s; opened_at := opened_at s;
     audit_level := audit_level s; level_from_operator := level_from_operator s; profile_override := v_profile_override;
     correlation_id := correlation_id s; traceparent := traceparent s; lineage_parent := lineage_parent s;
     lineage_root_parent := lineage_root_parent s; lineage_job := lineage_job s; use_catalog := use_catalog s;
     use_schema := use_schema s; view_as := view_as s; per_call := per_call s;
     declared_view_as := declared_view_as s; drain_stream := drain_stream s; limits := limits s |}.
Definition set_correlation (v_correlation_id : string) (s : Session) : Session :=
  {| principal := principal s; id := id s; expires_at := expires_at s;
     last_used := last_used s; door := door s; opened_at := opened_at s;
     audit_level := audit_level s; level_from_operator := level_from_operator s; profile_override := profile_override s;
     correlation_id := v_correlation_id; traceparent := traceparent s; lineage_parent := lineage_parent s;
     lineage_root_parent := lineage_root_parent s; lineage_job := lineage_job s; use_catalog := use_catalog s;
     use_schema := use_schema s; view_as := view_as s; per_call := per_call s;
     declared_view_as := declared_view_as s; drain_stream := drain_stream s; limits := limits s |}.
Definition set_traceparent (v_traceparent : string) (s : Session) : Session :=
  {| principal := principal s; id := id s; expires_at := expires_at s;
     last_used := last_used s; door := door s; opened_at := opened_at s;
     audit_level := audit_level s; level_from_operator := level_from_operator s; profile_override := profile_override s;
     correlation_id := correlation_id s; traceparent := v_traceparent; lineage_parent := lineage_parent s;
     lineage_root_parent := lineage_root_parent s; lineage_job := lineage_job s; use_catalog := use_catalog s;
     use_schema := use_schema s; view_as := view_as s; per_call := per_call s;
     declared_view_as := declared_view_as s; drain_stream := drain_stream s; limits := limits s |}.
Definition set_lineage_parent (v_lineage_parent : string) (s : Session) : Session :=
  {| principal := principal s; id := id s; expires_at := expires_at s;
     last_used := last_used s; door := door s; opened_at := opened_at s;
     audit_level := audit_level s; level_from_operator := level_from_operator s; profile_override := profile_override s;
     correlation_id := correlation_id s; traceparent := traceparent s; lineage_parent := v_lineage_parent;
     lineage_root_parent := lineage_root_parent s; lineage_job := lineage_job s; use_catalog := use_catalog s;
     use_schema := use_schema s; view_as := view_as s; per_call := per_call s;
     declared_view_as := declared_view_as s; drain_stream := drain_stream s; limits := limits s |}.
Definition set_lineage_root (v_lineage_root_parent : string) (s : Session) : Session :=
  {| principal := principal s; id := id s; expires_at := expires_at s;
     last_used := last_used s; door := door s; opened_at := opened_at s;
     audit_level := audit_level s; level_from_operator := level_from_operator s; profile_override := profile_override s;
     correlation_id := correlation_id s; traceparent := traceparent s; lineage_parent := lineage_parent s;
     lineage_root_parent := v_lineage_root_parent; lineage_job := lineage_job s; use_catalog := use_catalog s;
     use_schema := use_schema s; view_as := view_as s; per_call := per_call s;
     declared_view_as := declared_view_as s; drain_stream := drain_stream s; limits := limits s |}.
Definition set_lineage_job (v_lineage_job : string) (s : Session) : Session :=
  {| principal := principal s; id := id s; expires_at := expires_at s;
     last_used := last_used s; door := door s; opened_at := opened_at s;
     audit_level := audit_level s; level_from_operator := level_from_operator s; profile_override := profile_override s;
     correlation_id := correlation_id s; traceparent := traceparent s; lineage_parent := lineage_parent s;
     lineage_root_parent := lineage_root_parent s; lineage_job := v_lineage_job; use_catalog := use_catalog s;
     use_schema := use_schema s; view_as := view_as s; per_call := per_call s;
     declared_view_as := declared_view_as s; drain_stream := drain_stream s; limits := limits s |}.
Definition set_use (v_use_catalog : string) (v_use_schema : string) (s : Session) : Session :=
  {| principal := principal s; id := id s; expires_at := expires_at s;
     last_used := last_used s; door := door s; opened_at := opened_at s;
     audit_level := audit_level s; level_from_operator := level_from_operator s; profile_override := profile_override s;
     correlation_id := correlation_id s; traceparent := traceparent s; lineage_parent := lineage_parent s;
     lineage_root_parent := lineage_root_parent s; lineage_job := lineage_job s; use_catalog := v_use_catalog;
     use_schema := v_use_schema; view_as := view_as s; per_call := per_call s;
     declared_view_as := declared_view_as s; drain_stream := drain_stream s; limits := limits s |}.
Definition set_view_as (v_view_as : string) (s : Session) : Session :=
  {| principal := principal s; id := id s; expires_at := expires_at s;
     last_used := last_used s; door := door s; opened_at := opened_at s;
     audit_level := audit_level s; level_from_operator := level_from_operator s; profile_override := profile_override s;
     correlation_id := correlation_id s; traceparent := traceparent s; lineage_parent := lineage_parent s;
     lineage_root_parent := lineage_root_parent s; lineage_job := lineage_job s; use_catalog := use_catalog s;
     use_schema := use_schema s; view_as := v_view_as; per_call := per_call s;
     declared_view_as := declared_view_as s; drain_stream := drain_stream s; limits := limits s |}.
Definition set_per_call (v_per_call : bool) (s : Session) : Session :=
  {| principal := principal s; id := id s; expires_at := expires_at s;
     last_used := last_used s; door := door s; opened_at := opened_at s;
     audit_level := audit_level s; level_from_operator := level_from_operator s; profile_override := profile_override s;
     correlation_id := correlation_id s; traceparent := traceparent s; lineage_parent := lineage_parent s;
     lineage_root_parent := lineage_root_parent s; lineage_job := lineage_job s; use_catalog := use_catalog s;
     use_schema := use_schema s; view_as := view_as s; per_call := v_per_call;
     declared_view_as := declared_view_as s; drain_stream := drain_stream s; limits := limits s |}.
Definition set_declared (v_declared_view_as : bool) (s : Session) : Session :=
  {| principal := principal s; id := id s; expires_at := expires_at s;
     last_used := last_used s; door := door s; opened_at := opened_at s;
     audit_level := audit_level s; level_from_operator := level_from_operator s; profile_override := profile_override s;
     correlation_id := correlation_id s; traceparent := traceparent s; lineage_parent := lineage_parent s;
     lineage_root_parent := lineage_root_parent s; lineage_job := lineage_job s; use_catalog := use_catalog s;
     use_schema := use_schema s; view_as := view_as s; per_call := per_call s;
     declared_view_as := v_declared_view_as; drain_stream := drain_stream s; limits := limits s |}.
Definition set_drain (v_drain_stream : string) (s : Session) : Session :=
  {| principal := principal s; id := id s; expires_at := expires_at s;
     last_used := last_used s; door := door s; opened_at := opened_at s;
     audit_level := audit_level s; level_from_operator := level_from_operator s; profile_override := profile_override s;
     correlation_id := correlation_id s; traceparent := traceparent s; lineage_parent := lineage_parent s;
     lineage_root_parent := lineage_root_parent s; lineage_job := lineage_job s; use_catalog := use_catalog s;
     use_schema := use_schema s; view_as := view_as s; per_call := per_call s;
     declared_view_as := declared_view_as s; drain_stream := v_drain_stream; limits := limits s |}.

(** [SessionOpenBody]'s new session *)
Definition new_session (v_principal : Principal) (v_id : string) (v_expires_at now : Z) (v_door : string)
    (level : option AuditLevel) (v_limits : ResourceLimits) : Session :=
  {| principal := v_principal; id := v_id; expires_at := v_expires_at; last_used := now; door := v_door;
     opened_at := now; audit_level := level; level_from_operator := false; profile_override := -1;
     correlation_id := EmptyString; traceparent := EmptyString; lineage_parent := EmptyString;
     lineage_root_parent := EmptyString; lineage_job := EmptyString; use_catalog := EmptyString;
     use_schema := EmptyString; view_as := EmptyString; per_call := false; declared_view_as := false;
     drain_stream := EmptyString; limits := v_limits |}.

(** ** Judging a session *)

(** What an operation reads before it takes the lock *)
Record settings := {
  now : Z;
  skew : Z;
  idle : Z;
  exp_binds : bool;
}.

(** The token's [exp], when it binds every use; the idle timeout *)
Definition expired (t : settings) (s : Session) : bool :=
  exp_binds t && (0 <? expires_at s)%Z && (iadd (expires_at s) (skew t) <? now t)%Z.
Definition stale (t : settings) (s : Session) : bool :=
  (0 <? idle t)%Z && (iadd (last_used s) (idle t) <? now t)%Z.

(** ** The prefix of a statement *)

Section prefix.
Context `{SU : StringUtil}.

Definition doubled (value : string) : string := Replace value sq (sq +:+ sq).
Definition literal (value : string) : string := sq +:+ doubled value +:+ sq.

Definition trace_marker (keyword value : string) : string :=
  keyword +:+ " " +:+ literal (BoundTrace value) +:+ " ".

Definition TraceMarkers (correlation_id traceparent : string) : string :=
  (if is_empty correlation_id then EmptyString else trace_marker "TRACE" correlation_id)
  +:+ (if is_empty traceparent then EmptyString else trace_marker "PARENT" traceparent).

Definition lineage_marker (keyword value : string) : string :=
  if is_empty value then EmptyString else keyword +:+ " " +:+ literal (BoundLineage value) +:+ " ".

Definition LineageMarkers (parent root_parent job : string) : string :=
  if is_empty parent && is_empty root_parent && is_empty job then EmptyString
  else
    "LINEAGE " +:+ lineage_marker "PARENT" parent +:+ lineage_marker "ROOT" root_parent
    +:+ lineage_marker "JOB" job.

(** [SessionSql]'s text for a live session: what the caller carries wins over what the client SET *)
Definition carried (given own : string) : string := if is_empty given then own else given.
Definition prefixed (handle : string) (s : Session) (sql cid tp lp lr lj : string) : string :=
  "ACL SESSION " +:+ literal handle +:+ " "
  +:+ TraceMarkers (carried cid (correlation_id s)) (carried tp (traceparent s))
  +:+ LineageMarkers (carried lp (lineage_parent s)) (carried lr (lineage_root_parent s))
        (carried lj (lineage_job s))
  +:+ sql.

(** [SetSessionTrace] on the session it found; [None] when the name is no trace setting *)
Definition set_trace (name value : string) (s : Session) : option Session :=
  if CIEquals name "acl_correlation_id" then Some (set_correlation (BoundTrace value) s)
  else if CIEquals name "acl_traceparent" then Some (set_traceparent (BoundTrace value) s)
  else if CIEquals name "acl_lineage_parent" then Some (set_lineage_parent (BoundLineage value) s)
  else if CIEquals name "acl_lineage_root_parent" then Some (set_lineage_root (BoundLineage value) s)
  else if CIEquals name "acl_lineage_job" then Some (set_lineage_job (BoundLineage value) s)
  else None.
End prefix.

(** A session read of its last use: judged the same later, whatever else was set on it *)
Lemma expired_later t t' s :
  expired t s = true → exp_binds t' = exp_binds t → skew t' = skew t → (now t ≤ now t')%Z → expired t' s = true.
Proof. rw /expired !andb_true_iff !Z.ltb_lt. intros [[? ?] ?] -> -> ?. split_and!; try done; lia. Qed.
Lemma stale_later t t' s :
  stale t s = true → idle t' = idle t → (now t ≤ now t')%Z → stale t' s = true.
Proof. rw /stale !andb_true_iff !Z.ltb_lt. intros [? ?] -> ?. split; [done|lia]. Qed.
