(* ===== verification/Sessions.v ===== *)
(** * Sessions: the store's operations ([src/src/acl_policy.cpp])

    The sessions a node serves, the door ids bound to them, and every operation on them: opening one
    under the node's and the group's caps, judging one at each use, ending one on every path, the
    sweep, and what a session carries for its statements.  An operation that may end sessions delivers
    the closes to the observers once the store's lock is released ([delivering]).  The maps are
    unordered: where the code looks a session up by its ops id, it takes the first in an order nobody
    promises, here [map_to_list]'s. *)
From S2P Require Import Prelude PolicyTypes AuditTrail SessionData.
From S2P Require Import Notifier.
From stdpp Require Import pretty.

(** ** State *)

Record store := {
  sessions : gmap string Session;
  (* a door's connection id -> the handle *)
  session_bindings : gmap string string;
  view_as_ended : gmap string Z;
  last_sweep : Z;
  draining : bool;
  notices : notifier;
  (* what the observers heard, the audit was given, the counters were moved by *)
  heard : list delivery;
  emitted : list AuditEvent;
  moved : list count;
  (* the development stub's tokens; case insensitive *)
  tokens : list (string * Principal);
}.
Definition new_store (observed : bool) : store := {|
  sessions := ∅; session_bindings := ∅; view_as_ended := ∅; last_sweep := 0; draining := false;
  notices := Attach observed new_notifier; heard := []; emitted := []; moved := []; tokens := [] |}.

Definition with_sessions (m : gmap string Session) (st : store) : store :=
  {| sessions := m; session_bindings := session_bindings st; view_as_ended := view_as_ended st;
     last_sweep := last_sweep st; draining := draining st; notices := notices st; heard := heard st;
     emitted := emitted st; moved := moved st; tokens := tokens st |}.
Definition with_bindings (m : gmap string string) (st : store) : store :=
  {| sessions := sessions st; session_bindings := m; view_as_ended := view_as_ended st;
     last_sweep := last_sweep st; draining := draining st; notices := notices st; heard := heard st;
     emitted := emitted st; moved := moved st; tokens := tokens st |}.
Definition with_ended (m : gmap string Z) (st : store) : store :=
  {| sessions := sessions st; session_bindings := session_bindings st; view_as_ended := m;
     last_sweep := last_sweep st; draining := draining st; notices := notices st; heard := heard st;
     emitted := emitted st; moved := moved st; tokens := tokens st |}.
Definition with_last_sweep (at_ : Z) (st : store) : store :=
  {| sessions := sessions st; session_bindings := session_bindings st; view_as_ended := view_as_ended st;
     last_sweep := at_; draining := draining st; notices := notices st; heard := heard st;
     emitted := emitted st; moved := moved st; tokens := tokens st |}.
Definition with_notices (n : notifier) (ds : list delivery) (st : store) : store :=
  {| sessions := sessions st; session_bindings := session_bindings st; view_as_ended := view_as_ended st;
     last_sweep := last_sweep st; draining := draining st; notices := n; heard := heard st ++ ds;
     emitted := emitted st; moved := moved st; tokens := tokens st |}.
Definition with_events (es : list AuditEvent) (cs : list count) (st : store) : store :=
  {| sessions := sessions st; session_bindings := session_bindings st; view_as_ended := view_as_ended st;
     last_sweep := last_sweep st; draining := draining st; notices := notices st; heard := heard st;
     emitted := emitted st ++ es; moved := moved st ++ cs; tokens := tokens st |}.
Definition SetDraining (value : bool) (st : store) : bool * store :=
  (draining st,
   {| sessions := sessions st; session_bindings := session_bindings st; view_as_ended := view_as_ended st;
      last_sweep := last_sweep st; draining := value; notices := notices st; heard := heard st;
      emitted := emitted st; moved := moved st; tokens := tokens st |}).

(** What a session is asked about ([SessionRefOf]) *)
Record SessionRef := {
  r_id : string;
  r_door : string;
  r_audit_level : option AuditLevel;
  r_principal : Principal;
  r_correlation_id : string;
  r_traceparent : string;
  r_profile_override : Z;
  r_opened_at : Z;
  r_expires_at : Z;
  r_limits : ResourceLimits;
}.

Record SessionTally := {
  live : nat;
  by_door : list (string * Z);
  by_group : list (string * (nat * N));
}.

Record SessionInfo := {
  i_id : string;
  i_subject : string;
  i_roles : list string;
  i_expires_at : Z;
  i_idle_seconds : Z;
  i_door : string;
  i_level : string;
  i_level_source : string;
  i_profile_level : string;
  i_profile_source : string;
  i_groups : list string;
  i_charged_group : string;
}.

(** [std::map]: the keys in byte order *)
Fixpoint smap_alter {V} (k : string) (f : option V → V) (m : list (string * V)) : list (string * V) :=
  match m with
  | [] => [(k, f None)]
  | (k', v) :: m' =>
      match String.compare k k' with
      | Eq => (k', f (Some v)) :: m'
      | Lt => (k, f None) :: m
      | Gt => (k', v) :: smap_alter k f m'
      end
  end.

(** What verifying a door's token comes to: the parts of the store an open calls that other files hold.
    [Verified] gives the principal and the token's [exp]; a failure keeps the principal as far as it was
    verified, and the code a deny note left. *)
Inductive verification :=
  | Verified (p : Principal) (expires_at : Z)
  | Unverified (so_far : Principal) (note message : string).

Record verifier := {
  LooksLikeJwt : string → option string;
  (* the identity model could not be read *)
  IdentityError : option string;
  VerifyJwtPrincipal : string → string → verification;
  (* a policy catalog's default claims of the principal's roles, when there is a catalog *)
  CatalogLoadRoleClaims : option (Principal → outcome Principal);
  MayOperate : Principal → bool;
  LevelForSession : Principal → string → option AuditLevel;
  ResolveResourceLimits : Principal → outcome ResourceLimits;
}.

(** An open as its door asks for it; [fresh_handle] and [fresh_id] are what it mints *)
Record open_request := {
  token : string;
  at_door : string;
  replacing : string;
  despite_drain : bool;
  one_call : bool;
  fresh_handle : string;
  fresh_id : string;
}.

Inductive opening_result :=
  | Seated (handle session_id : string)
  | RefusedSession
  (* spec 096: why this node does not place the principal, and the groups that do *)
  | WrongGroup (refusal : string) (groups : list string)
  | Failed (so_far : Principal) (message : string).

Definition SWEEP_INTERVAL_SECONDS : Z := 60.
Definition day : Z := 86400.

Section store.
Context `{SU : StringUtil}.
Variable level_value : AuditLevel → N.
Variable blank : AuditEvent.
(** Whether the audit pipeline is attached; the instance's level *)
Variable audited : bool.
Variable instance_level : AuditLevel.
(** How the observers take a delivery: whether each call throws, its milliseconds *)
Variable observer_calls : delivery → list (bool * Z).
(** [acl_max_sessions] *)
Variable max_sessions : Z.
Variable env : verifier.

Definition emit (e : AuditEvent) (st : store) : store := if audited then with_events [e] [] st else st.
Definition session_event (p : Principal) (door id : string) (level : option AuditLevel)
    (detail reason_code reason : string) (duration_us : Z) (decision : bool) : AuditEvent :=
  SessionEvent level_value blank instance_level p door id level detail reason_code reason duration_us decision.
Definition CountJwt (result : string) (st : store) : store :=
  if audited then with_events [] [counted "acl.jwt.verifications" [("result", result)]] st else st.

(** *** The observers, told outside the lock *)

Definition Flush (st : store) : store :=
  let '(n, due) := flush_locked (notices st) in
  fold_left (λ st close, with_notices (deliver (observer_calls (Close close.1 close.2)) (notices st))
                                      [Close close.1 close.2] st)
    due (with_notices n [] st).

(** [session_notices.Opened] *)
Definition Opened (session_id : string) (st : store) : store :=
  if negb (hooks (notices st)) then st
  else
    let st := with_notices (deliver (observer_calls (Open session_id)) (notices st)) [Open session_id] st in
    Flush (with_notices (opened_locked session_id (notices st)) [] st).

(** *** Ending a session *)

(** The caller erases the session afterwards *)
Definition SessionClosed (t : settings) (handle : string) (s : Session) (how : string) (st : store) : store :=
  let st := with_notices (QueueClose (id s) how (notices st)) [] st in
  let st :=
    if is_empty (view_as s) then st
    else with_ended (((λ _, now t) <$> filter (λ b, b.2 = handle) (session_bindings st)) ∪ view_as_ended st) st in
  let lived := if (0 <? opened_at s)%Z then imul (isub (now t) (opened_at s)) 1000000 else (-1)%Z in
  emit (session_event (principal s) (door s) (id s) (audit_level s) how EmptyString EmptyString lived false) st.

Definition end_seat (t : settings) (handle : string) (s : Session) (how : string) (st : store) : store :=
  let st := SessionClosed t handle s how st in with_sessions (delete handle (sessions st)) st.

Definition drop_bindings (handle : string) (st : store) : store :=
  with_bindings (filter (λ b, b.2 ≠ handle) (session_bindings st)) st.

(** *** Judging a session *)

Definition SessionReason (t : settings) (handle : string) (st : store) : string :=
  match sessions st !! handle with
  | None => "unknown"
  | Some s => if expired t s then "expired" else if stale t s then "idle" else "live"
  end.

Definition SessionAlive (t : settings) (handle : string) (st : store) : bool :=
  match sessions st !! handle with
  | None => false
  | Some s => if expired t s then false else if stale t s then false else true
  end.

Definition bump (t : settings) (handle : string) (s : Session) (st : store) : store :=
  with_sessions (<[handle := set_last_used (now t) s]> (sessions st)) st.

Definition SessionTouch (t : settings) (handle : string) (st : store) : bool * store :=
  match sessions st !! handle with
  | None => (false, st)
  | Some s =>
      if expired t s then (false, st) else if stale t s then (false, st) else (true, bump t handle s st)
  end.

(** The principal, or why there is none; a session found dead is ended *)
Definition SessionPrincipal (t : settings) (handle : string) (st : store) : (Principal + string) * store :=
  let '(answer, st) :=
    match sessions st !! handle with
    | None => (inr "unknown", st)
    | Some s =>
        if expired t s then (inr "expired", end_seat t handle s "expired" st)
        else if stale t s then (inr "idle", end_seat t handle s "idle" st)
        else (inl (principal s), bump t handle s st)
    end in
  (answer, Flush st).

(** The prefixed statement, empty when the session is not live; never ends one *)
Definition SessionSql (t : settings) (handle sql cid tp lp lr lj : string) (st : store) : string * store :=
  match sessions st !! handle with
  | None => (EmptyString, st)
  | Some s =>
      if expired t s then (EmptyString, st)
      else if stale t s then (EmptyString, st)
      else (prefixed handle s sql cid tp lp lr lj, bump t handle s st)
  end.

(** *** The sweep *)

(** One pass over the sessions as they were when it began *)
Fixpoint sweep_sessions (t : settings) (entries : list (string * Session)) (removed : nat) (st : store)
    : nat * store :=
  match entries with
  | [] => (removed, st)
  | (handle, s) :: entries =>
      if expired t s || stale t s then
        sweep_sessions t entries (S removed) (end_seat t handle s (if expired t s then "expired" else "idle") st)
      else sweep_sessions t entries removed st
  end.

Definition SweepLocked (t : settings) (st : store) : nat * store :=
  let '(removed, st) := sweep_sessions t (map_to_list (sessions st)) 0 st in
  let st := with_bindings (filter (λ b, is_Some (sessions st !! b.2)) (session_bindings st)) st in
  let st := with_ended (filter (λ e, ¬ (iadd e.2 day < now t)%Z) (view_as_ended st)) st in
  (removed, with_last_sweep (now t) st).

Definition SessionSweep (t : settings) (st : store) : nat * store :=
  let '(removed, st) := SweepLocked t st in (removed, Flush st).

(** *** Opening a session *)

Definition refuse (p : Principal) (door code reason : string) (st : store) : store :=
  emit (session_event p door EmptyString None "refused" code reason (-1) false) st.
Definition drain_refusal (p : Principal) (door : string) (st : store) : store :=
  refuse p door "draining" "acl: node is draining - not accepting new sessions" st.

(** The principal the token stands for, with the claims its roles default to, its [exp]; or how the open
    ends *)
Definition verify_token (rq : open_request) (st : store) : (Principal * Z + opening_result) * store :=
  let with_claims p expires_at st :=
    match CatalogLoadRoleClaims env with
    | None => (inl (p, expires_at), st)
    | Some load => match load p with
                   | Ok p' => (inl (p', expires_at), st)
                   | Throw message => (inr (Failed p message), st)
                   end
    end in
  match LooksLikeJwt env (token rq) with
  | Some issuer =>
      match IdentityError env with
      | Some message => (inr (Failed no_principal message), st)
      | None =>
          match VerifyJwtPrincipal env (token rq) issuer with
          | Unverified so_far note message =>
              let st := CountJwt "failed" st in
              (inr RefusedSession,
               refuse so_far (at_door rq) (if is_empty note then "principal" else note) message st)
          | Verified p expires_at => with_claims p expires_at (CountJwt "ok" st)
          end
      end
  | None =>
      match ci_find (token rq) (tokens st) with
      | None => (inr RefusedSession,
                 refuse no_principal (at_door rq) "principal" "acl_rewrite: token verification failed" st)
      | Some p => with_claims p 0%Z st
      end
  end.

(** The sessions charged to a group, the one being replaced left out *)
Definition charged_live (group : string) (replaced : string) (m : gmap string Session) : nat :=
  size (filter (λ e, charged (limits e.2) = group ∧ e.1 ≠ replaced) m).

(** Under the lock: the sweep, the caps, the insertion *)
Definition seat (t : settings) (rq : open_request) (p : Principal) (expires_at : Z) (level : option AuditLevel)
    (l : ResourceLimits) (draining_now : bool) (st : store) : opening_result * store :=
  let st :=
    if (SWEEP_INTERVAL_SECONDS <=? isub (now t) (last_sweep st))%Z
       || ((0 <? max_sessions)%Z && (max_sessions <=? Z.of_nat (size (sessions st)))%Z)
    then (SweepLocked t st).2 else st in
  let occupied :=
    size (sessions st)
    - (if negb (is_empty (replacing rq)) && bool_decide (is_Some (sessions st !! replacing rq)) then 1 else 0) in
  if (0 <? max_sessions)%Z && (max_sessions <=? Z.of_nat occupied)%Z then
    (RefusedSession,
     refuse p (at_door rq) "at_capacity"
       "acl: at acl_max_sessions - a new session is refused, never an old one ended" st)
  else if negb (is_empty (charged l))
          && (charged_max l <=? N.of_nat (charged_live (charged l) (replacing rq) (sessions st)))%N then
    (RefusedSession,
     refuse p (at_door rq) "at_capacity"
       ("acl: resource group " +:+ quoted (charged l) +:+ " is at its max_sessions ("
        +:+ pretty (charged_max l) +:+ ") - a new session is refused") st)
  else
    let st :=
      emit (session_event p (at_door rq) (fresh_id rq) level "opened" EmptyString
              (if draining_now
               then "seated while draining for one call: the principal holds the node's own rights"
               else EmptyString) (-1) draining_now) st in
    let st := with_notices (BeginOpen (fresh_id rq) (notices st)) [] st in
    (Seated (fresh_handle rq) (fresh_id rq),
     with_sessions (<[fresh_handle rq := new_session p (fresh_id rq) expires_at (now t) (at_door rq) level l]>
                      (sessions st)) st).

Definition SessionOpenBody (t : settings) (rq : open_request) (st : store) : opening_result * store :=
  let draining_now := negb (despite_drain rq) && draining st in
  if draining_now && negb (one_call rq) then
    (RefusedSession, drain_refusal no_principal (at_door rq) st)
  else
    match verify_token rq st with
    | (inr result, st) => (result, st)
    | (inl (p, expires_at), st) =>
        if draining_now && negb (MayOperate env p) then (RefusedSession, drain_refusal p (at_door rq) st)
        else
          let level := if audited then LevelForSession env p (at_door rq) else None in
          match ResolveResourceLimits env p with
          | Throw message => (Failed p message, st)
          | Ok l =>
              if negb (admitted l) then
                (WrongGroup (refusal l) (groups l),
                 refuse p (at_door rq) "wrong_resource_group" (refusal l) st)
              else seat t rq p expires_at level l draining_now st
          end
    end.

(** The handle, empty when refused.  What throws reaches the operator's own call only; a door is refused
    with [source_error]. *)
Definition SessionOpen (t : settings) (rq : open_request) (st : store) : outcome opening_result * store :=
  let '(result, st) := SessionOpenBody t rq st in
  let '(answer, st) :=
    match result with
    | Seated handle session_id => (Ok result, Opened session_id st)
    | Failed so_far message =>
        if String.eqb (at_door rq) "session" then (Throw message, st)
        else (Ok RefusedSession, refuse so_far (at_door rq) "source_error" message st)
    | _ => (Ok result, st)
    end in
  (answer, Flush st).

(** *** Ending sessions, by whoever asks *)

Definition SessionEndBound (t : settings) (external_id how : string) (st : store) : store :=
  Flush
    match session_bindings st !! external_id with
    | None => st
    | Some handle =>
        let st := match sessions st !! handle with
                  | Some s => end_seat t handle s how st
                  | None => st
                  end in
        with_bindings (delete external_id (session_bindings st)) st
    end.

(** The first session with an ops id *)
Definition by_id (ops_id : string) (st : store) : option (string * Session) :=
  List.find (λ e, String.eqb (id e.2) ops_id) (map_to_list (sessions st)).

Definition SessionKill (t : settings) (ops_id : string) (st : store) : bool * store :=
  let '(killed, st) :=
    match by_id ops_id st with
    | Some (handle, s) => (true, drop_bindings handle (end_seat t handle s "killed" st))
    | None => (false, st)
    end in
  (killed, Flush st).

Definition SessionClose (t : settings) (handle : string) (st : store) : store :=
  let st := match sessions st !! handle with
            | Some s => end_seat t handle s "client" st
            | None => st
            end in
  Flush (drop_bindings handle st).

Definition SessionBind (t : settings) (external_id handle : string) (st : store) : store :=
  let st :=
    match session_bindings st !! external_id with
    | Some previous =>
        if String.eqb previous handle then st
        else match sessions st !! previous with
             | Some s => end_seat t previous s "client" st
             | None => st
             end
    | None => st
    end in
  Flush (with_bindings (<[external_id := handle]> (session_bindings st)) st).

Definition SessionCloseAll (t : settings) (st : store) : nat * store :=
  let closed := size (sessions st) in
  let st := fold_left (λ st e, SessionClosed t e.1 e.2 "door_stopped" st) (map_to_list (sessions st)) st in
  (closed, Flush (with_bindings ∅ (with_sessions ∅ st))).

(** *** What a session carries *)

Definition update (handle : string) (s : Session) (st : store) : store :=
  with_sessions (<[handle := s]> (sessions st)) st.
Definition update_by_id (ops_id : string) (f : Session → Session) (st : store) : bool * store :=
  match by_id ops_id st with
  | Some (handle, s) => (true, update handle (f s) st)
  | None => (false, st)
  end.

Definition SessionUse (ops_id vcat schema : string) (st : store) : bool * store :=
  update_by_id ops_id (set_use vcat schema) st.
Definition SessionUseOf (ops_id vcat schema : string) (st : store) : string * string :=
  match by_id ops_id st with Some (_, s) => (use_catalog s, use_schema s) | None => (vcat, schema) end.
Definition SessionViewAs (ops_id role : string) (st : store) : bool * store :=
  update_by_id ops_id (set_view_as role) st.
Definition SessionViewAsOf (ops_id : string) (st : store) : string :=
  match by_id ops_id st with Some (_, s) => view_as s | None => EmptyString end.
Definition SessionDoorOf (ops_id : string) (st : store) : string :=
  match by_id ops_id st with Some (_, s) => door s | None => EmptyString end.
Definition SessionPerCall (ops_id : string) (st : store) : bool :=
  match by_id ops_id st with Some (_, s) => per_call s | None => false end.
Definition SessionDeclaredViewAs (ops_id : string) (st : store) : bool :=
  match by_id ops_id st with Some (_, s) => declared_view_as s | None => false end.
Definition SetSessionProfile (ops_id : string) (level : Z) (st : store) : bool * store :=
  update_by_id ops_id (set_profile level) st.
Definition SetSessionAuditLevel (ops_id : string) (level : option AuditLevel) (st : store) : bool * store :=
  update_by_id ops_id (set_level level true) st.
Definition SetSessionTrace (ops_id name value : string) (st : store) : bool * store :=
  match by_id ops_id st with
  | Some (handle, s) =>
      match set_trace name value s with Some s => (true, update handle s st) | None => (false, st) end
  | None => (false, st)
  end.
Definition NoteSessionDrain (ops_id stream : string) (st : store) : store :=
  if is_empty ops_id then st else (update_by_id ops_id (set_drain stream) st).2.

Definition SessionMarkPerCall (handle : string) (st : store) : store :=
  match sessions st !! handle with Some s => update handle (set_per_call true s) st | None => st end.
Definition SessionMarkDeclaredViewAs (handle : string) (st : store) : store :=
  match sessions st !! handle with Some s => update handle (set_declared true s) st | None => st end.
Definition TakeSessionDrain (handle : string) (st : store) : string * store :=
  match sessions st !! handle with
  | Some s => (drain_stream s, update handle (set_drain EmptyString s) st)
  | None => (EmptyString, st)
  end.
Definition SessionInViewAs (handle : string) (st : store) : bool :=
  match sessions st !! handle with Some s => negb (is_empty (view_as s)) | None => false end.
Definition SessionHandleFor (external_id : string) (st : store) : option string :=
  session_bindings st !! external_id.
Definition SessionViewAsEnded (external_id : string) (st : store) : bool :=
  bool_decide (is_Some (view_as_ended st !! external_id)).
Definition SessionAuditLevel (handle : string) (st : store) : option AuditLevel :=
  sessions st !! handle ≫= audit_level.
Definition MaxResultRowsFor (handle : string) (setting : Z) (st : store) : Z :=
  match sessions st !! handle ≫= (λ s, max_result_rows (limits s)) with
  | Some rows => Z.of_N rows
  | None => setting
  end.

Definition SessionRefOf (handle : string) (st : store) : option SessionRef :=
  (λ s, {| r_id := id s; r_door := door s; r_audit_level := audit_level s; r_principal := principal s;
           r_correlation_id := correlation_id s; r_traceparent := traceparent s;
           r_profile_override := profile_override s; r_opened_at := opened_at s;
           r_expires_at := expires_at s; r_limits := limits s |}) <$> (sessions st !! handle).

(** *** Looking at all of them *)

(** [judge_live] off: no setting is read, nothing is live *)
Definition Tally (t : option settings) (besides : string) (st : store) : SessionTally :=
  let counted := List.filter (λ e : string * Session,
    negb (negb (is_empty besides) && per_call e.2 && String.eqb (id e.2) besides)) (map_to_list (sessions st)) in
  {| live := match t with
             | Some t => length (List.filter (λ e : string * Session, negb (expired t e.2) && negb (stale t e.2)) counted)
             | None => 0
             end;
     by_door := fold_left (λ m e, smap_alter (door e.2) (λ n, default 0 n + 1)%Z m) counted
                  [("flight", 0%Z); ("quack", 0%Z); ("session", 0%Z)];
     by_group := fold_left (λ m e,
                   if is_empty (charged (limits e.2)) then m
                   else smap_alter (charged (limits e.2))
                          (λ n, (S (default 0 (fst <$> n)), charged_max (limits e.2))) m) counted [] |}.
Definition SessionTallyBesides (t : settings) (besides : string) (st : store) : SessionTally := Tally (Some t) besides st.
Definition SessionCountsByDoor (st : store) : list (string * Z) := by_door (Tally None EmptyString st).

(** The listing; [level_name], [profile_name] and [profile_for] are the audit's, [instance_profile] the
    instance's profile level *)
Definition SessionList (t : settings) (level_name : AuditLevel → string) (profile_name : Z → string)
    (profile_for : Principal → string → option Z) (instance_profile : Z) (st : store) : list SessionInfo :=
  map (λ e : string * Session,
    let s := e.2 in
    let profile :=
      if (0 <=? profile_override s)%Z then (profile_name (profile_override s), "override")
      else match (if audited then profile_for (principal s) (door s) else None) with
           | Some level => (profile_name level, "policy")
           | None => (profile_name instance_profile, "instance")
           end in
    {| i_id := id s; i_subject := subject (principal s); i_roles := roles (principal s);
       i_expires_at := expires_at s; i_idle_seconds := isub (now t) (last_used s); i_door := door s;
       i_level := level_name (default instance_level (audit_level s));
       i_level_source := match audit_level s with
                         | None => "instance"
                         | Some _ => if level_from_operator s then "override" else "policy"
                         end;
       i_profile_level := profile.1; i_profile_source := profile.2;
       i_groups := groups (limits s); i_charged_group := charged (limits s) |}) (map_to_list (sessions st)).

(** *** Events about a session a door names *)

(** [SessionPrincipal && SessionRefOf]: whether the handle is known, and what an event says of it *)
Definition known (t : settings) (handle : string) (st : store) : option (Principal * SessionRef) * store :=
  let '(answer, st) := SessionPrincipal t handle st in
  (match answer with
   | inl p => (λ ref, (p, ref)) <$> SessionRefOf handle st
   | inr _ => None
   end, st).

Definition AuditSessionRefused (door reason_code reason : string) (st : store) : store :=
  emit (session_event no_principal door EmptyString None "refused" reason_code reason (-1) false) st.
Definition AuditSessionRefusedOf (t : settings) (door handle reason_code reason : string) (st : store) : store :=
  let '(who, st) := known t handle st in
  emit (session_event (default no_principal (fst <$> who)) door (default EmptyString ((λ w, r_id w.2) <$> who)) None
          "refused" reason_code reason (-1) false) st.
Definition AuditSessionMove (t : settings) (door handle : string) (refused : bool) (reason_code what : string)
    (st : store) : store :=
  let '(who, st) := known t handle st in
  emit (session_event (default no_principal (fst <$> who)) door (default EmptyString ((λ w, r_id w.2) <$> who))
          (who ≫= (λ w, r_audit_level w.2)) (if refused then "move_refused" else "moved")
          (if refused then reason_code else EmptyString) what (-1) false) st.
End store.
