(* ===== verification/SessionLaws.v ===== *)
(** * Sessions: what the operations guarantee

    Every operation of the store is a sequence of moves of a small machine that knows only who is
    seated, what the audit was given and what the observers heard ([move]).  The machine's invariant
    gives the accounting of sessions; run against the notifier ([Notifier.sys_step]) it gives what the
    observers hear.  The rest are laws of single operations: the judges, the caps, the view-as record. *)
From S2P Require Import Prelude PolicyTypes AuditTrail SessionData.
From S2P Require Import Notifier.
From S2P Require Import Sessions.

(** ** Histories *)

Inductive operation :=
  | Op_open (rq : open_request)
  | Op_principal (handle : string)
  | Op_touch (handle : string)
  | Op_sql (handle sql cid tp lp lr lj : string)
  | Op_sweep
  | Op_end_bound (external_id how : string)
  | Op_kill (ops_id : string)
  | Op_close (handle : string)
  | Op_bind (external_id handle : string)
  | Op_close_all
  | Op_use (ops_id vcat schema : string)
  | Op_view_as (ops_id role : string)
  | Op_profile (ops_id : string) (level : Z)
  | Op_level (ops_id : string) (level : option AuditLevel)
  | Op_trace (ops_id name value : string)
  | Op_note_drain (ops_id stream : string)
  | Op_take_drain (handle : string)
  | Op_per_call (handle : string)
  | Op_declared (handle : string)
  | Op_drain (value : bool)
  | Op_refused (door code reason : string)
  | Op_refused_of (door handle code reason : string)
  | Op_move (door handle : string) (refused : bool) (code what : string).

(** What a session's end is called: not one of the other events about a session *)
Definition closing (how : string) : Prop := how ∉ ["opened"; "refused"; "moved"; "move_refused"].

Section histories.
Context `{SU : StringUtil}.
Variable level_value : AuditLevel → N.
Variable blank : AuditEvent.
Variable audited : bool.
Variable instance_level : AuditLevel.
Variable observer_calls : delivery → list (bool * Z).
Variable max_sessions : Z.
Variable env : verifier.

Notation emit_ := (emit audited).
Notation event := (session_event level_value blank instance_level).
Notation closed_ := (SessionClosed level_value blank audited instance_level).
Notation end_seat_ := (end_seat level_value blank audited instance_level).
Notation Flush_ := (Flush observer_calls).

Definition perform (t : settings) (op : operation) (st : store) : store :=
  match op with
  | Op_open rq => (SessionOpen level_value blank audited instance_level observer_calls max_sessions env t rq st).2
  | Op_principal h => (SessionPrincipal level_value blank audited instance_level observer_calls t h st).2
  | Op_touch h => (SessionTouch t h st).2
  | Op_sql h sql cid tp lp lr lj => (SessionSql t h sql cid tp lp lr lj st).2
  | Op_sweep => (SessionSweep level_value blank audited instance_level observer_calls t st).2
  | Op_end_bound ext how => SessionEndBound level_value blank audited instance_level observer_calls t ext how st
  | Op_kill i => (SessionKill level_value blank audited instance_level observer_calls t i st).2
  | Op_close h => SessionClose level_value blank audited instance_level observer_calls t h st
  | Op_bind ext h => SessionBind level_value blank audited instance_level observer_calls t ext h st
  | Op_close_all => (SessionCloseAll level_value blank audited instance_level observer_calls t st).2
  | Op_use i vcat schema => (SessionUse i vcat schema st).2
  | Op_view_as i role => (SessionViewAs i role st).2
  | Op_profile i level => (SetSessionProfile i level st).2
  | Op_level i level => (SetSessionAuditLevel i level st).2
  | Op_trace i name value => (SetSessionTrace i name value st).2
  | Op_note_drain i stream => NoteSessionDrain i stream st
  | Op_take_drain h => (TakeSessionDrain h st).2
  | Op_per_call h => SessionMarkPerCall h st
  | Op_declared h => SessionMarkDeclaredViewAs h st
  | Op_drain value => (SetDraining value st).2
  | Op_refused door code reason => AuditSessionRefused level_value blank audited instance_level door code reason st
  | Op_refused_of door h code reason =>
      AuditSessionRefusedOf level_value blank audited instance_level observer_calls t door h code reason st
  | Op_move door h refused code what =>
      AuditSessionMove level_value blank audited instance_level observer_calls t door h refused code what st
  end.

(** Handles and ids are random: an open mints a handle nobody holds and an id never used *)
Definition fresh (op : operation) (used : gset string) (st : store) : Prop :=
  match op with
  | Op_open rq => sessions st !! fresh_handle rq = None ∧ fresh_id rq ∉ used
  | Op_end_bound _ how => closing how
  | _ => True
  end.
Definition ids_of (op : operation) : gset string :=
  match op with Op_open rq => {[fresh_id rq]} | _ => ∅ end.

(** A store after some operations, and the ids minted for them *)
Inductive history (observed : bool) : gset string → store → Prop :=
  | history_new : history observed ∅ (new_store observed)
  | history_op used st t op :
      history observed used st → fresh op used st →
      history observed (ids_of op ∪ used) (perform t op st).

(** ** The seat machine *)

(** [seats] are the ids by handle; [minted] the ids ever given *)
Record seating := {
  seats : gmap string string;
  minted : gset string;
  note_ : notifier;
  told : list delivery;
  book : list AuditEvent;
}.

Definition is_session_event (e : AuditEvent) (detail : string) : bool :=
  String.eqb (ev_kind e) "session" && String.eqb (ev_detail e) detail.
Definition opens_session (e : AuditEvent) : bool := is_session_event e "opened".
Definition closes_session (e : AuditEvent) : bool :=
  String.eqb (ev_kind e) "session" && negb (bool_decide (ev_detail e ∈ ["opened"; "refused"; "moved"; "move_refused"])).

Definition booked (e : AuditEvent) : list AuditEvent := if audited then [e] else [].

Inductive move : seating → seating → Prop :=
  | move_open σ h i e calls :
      seats σ !! h = None → i ∉ minted σ → ev_kind e = "session" → ev_detail e = "opened" → ev_session e = i →
      move σ {| seats := <[h := i]> (seats σ); minted := {[i]} ∪ minted σ;
                note_ := if hooks (note_ σ) then opened_locked i (deliver calls (BeginOpen i (note_ σ))) else note_ σ;
                told := told σ ++ (if hooks (note_ σ) then [Open i] else []); book := book σ ++ booked e |}
  | move_close σ h i e how :
      seats σ !! h = Some i → ev_kind e = "session" → ev_detail e = how → ev_session e = i → closing how →
      move σ {| seats := delete h (seats σ); minted := minted σ; note_ := QueueClose i how (note_ σ);
                told := told σ; book := book σ ++ booked e |}
  | move_flush σ (calls : string * string → list (bool * Z)) :
      move σ {| seats := seats σ; minted := minted σ;
                note_ := fold_left (λ n c, deliver (calls c) n) (flush_locked (note_ σ)).2 (flush_locked (note_ σ)).1;
                told := told σ ++ map (λ c, Close c.1 c.2) (flush_locked (note_ σ)).2; book := book σ |}
  (* an id minted for an open that was refused *)
  | move_mint σ i :
      move σ {| seats := seats σ; minted := {[i]} ∪ minted σ; note_ := note_ σ; told := told σ; book := book σ |}
  | move_event σ e :
      opens_session e = false → closes_session e = false →
      move σ {| seats := seats σ; minted := minted σ; note_ := note_ σ; told := told σ; book := book σ ++ booked e |}.

Definition seating_of (used : gset string) (st : store) : seating :=
  {| seats := id <$> sessions st; minted := used; note_ := notices st; told := heard st; book := emitted st |}.

Definition moves (used used' : gset string) (st st' : store) : Prop :=
  rtc move (seating_of used st) (seating_of used' st').

(** *** The pieces of an operation *)

Lemma moves_refl used st : moves used used st st.
Proof. apply rtc_refl. Qed.
Lemma moves_trans used used' used'' st st' st'' :
  moves used used' st st' → moves used' used'' st' st'' → moves used used'' st st''.
Proof. rw /moves. intros H1 H2. by etransitivity. Qed.

(** A change the machine does not see *)
Lemma moves_unseen used st st' : seating_of used st = seating_of used st' → moves used used st st'.
Proof. rw /moves. intros ->. apply rtc_refl. Qed.

Lemma moves_emit used e st :
  opens_session e = false → closes_session e = false → moves used used st (emit_ e st).
Proof.
  intros Ho Hc. apply rtc_once. replace (seating_of used (emit_ e st)) with
    {| seats := id <$> sessions st; minted := used; note_ := notices st; told := heard st; book := emitted st ++ booked e |}.
  - by apply (move_event (seating_of used st)).
  - rw /seating_of /emit /booked. by destruct audited; [|rw app_nil_r].
Qed.

Lemma moves_count used cs st : moves used used st (with_events [] cs st).
Proof. apply moves_unseen. rw /seating_of /=. by rw app_nil_r. Qed.

Lemma fold_deliver due n ds st :
  fold_left (λ st close, with_notices (deliver (observer_calls (Close close.1 close.2)) (notices st))
                                      [Close close.1 close.2] st) due (with_notices n ds st) =
  with_notices (fold_left (λ n c, deliver (observer_calls (Close c.1 c.2)) n) due n)
    (ds ++ map (λ c : string * string, Close c.1 c.2) due) st.
Proof.
  revert n ds. induction due as [|c due IH]; intros n ds; simpl; [by rw app_nil_r|].
  assert (Hw : ∀ n' ds', with_notices n' ds' (with_notices n ds st) = with_notices n' (ds ++ ds') st).
  { intros n' ds'. rw /with_notices /=. by rw app_assoc. }
  rw Hw IH. by rw -app_assoc.
Qed.

Lemma Flush_eq st :
  Flush_ st = with_notices
    (fold_left (λ n c, deliver (observer_calls (Close c.1 c.2)) n) (flush_locked (notices st)).2 (flush_locked (notices st)).1)
    (map (λ c : string * string, Close c.1 c.2) (flush_locked (notices st)).2) st.
Proof. rw /Flush. destruct (flush_locked (notices st)) as [n due]. by rw fold_deliver. Qed.

Lemma moves_Flush used st : moves used used st (Flush_ st).
Proof.
  apply rtc_once. rw Flush_eq.
  exact (move_flush (seating_of used st) (λ c, observer_calls (Close c.1 c.2))).
Qed.

(** [st] and [st'] seat the same sessions, bound alike, with the same view-as record *)
Record same_store (st st' : store) : Prop := {
  ss_sessions : sessions st' = sessions st;
  ss_bindings : session_bindings st' = session_bindings st;
  ss_ended : view_as_ended st' = view_as_ended st;
}.
#[local] Instance same_store_preorder : PreOrder same_store.
Proof. split; [by split|]. intros a b c [H1 H2 H3] [K1 K2 K3]. split; congruence. Qed.

Lemma Flush_same st : same_store st (Flush_ st).
Proof. rw Flush_eq. by split. Qed.
Lemma emit_same e st : same_store st (emit_ e st).
Proof. rw /emit. by destruct audited. Qed.

Lemma Opened_same i st : same_store st (Opened observer_calls i st).
Proof. rw /Opened. destruct (negb _); [done|]. etransitivity; [|apply Flush_same]. by split. Qed.

Lemma SessionClosed_fields t h s how st :
  sessions (closed_ t h s how st) = sessions st ∧ session_bindings (closed_ t h s how st) = session_bindings st ∧
  view_as_ended (closed_ t h s how st) =
    (if is_empty (view_as s) then view_as_ended st
     else ((λ _, now t) <$> filter (λ b : string * string, b.2 = h) (session_bindings st)) ∪ view_as_ended st) ∧
  notices (closed_ t h s how st) = QueueClose (id s) how (notices st) ∧ heard (closed_ t h s how st) = heard st ∧
  emitted (closed_ t h s how st) = emitted st ++ booked
    (event (principal s) (door s) (id s) (audit_level s) how EmptyString EmptyString
       (if (0 <? opened_at s)%Z then imul (isub (now t) (opened_at s)) 1000000 else (-1)%Z) false).
Proof.
  rw /SessionClosed /emit /booked. destruct (is_empty (view_as s)), audited; rw /= ?app_nil_r; split_and!; done.
Qed.

Lemma moves_end_seat used t h s how st :
  sessions st !! h = Some s → closing how → moves used used st (end_seat_ t h s how st).
Proof.
  intros Hs Hhow. apply rtc_once. rw /end_seat.
  destruct (SessionClosed_fields t h s how st) as (H1 & H2 & H3 & H4 & H5 & H6).
  rw /seating_of /= H1 H4 H5 H6. rw fmap_delete.
  apply (move_close (seating_of used st) h (id s)); [|done..]. simpl. by rw lookup_fmap Hs.
Qed.

Lemma update_unseen used h s s' st :
  sessions st !! h = Some s → id s' = id s → seating_of used st = seating_of used (update h s' st).
Proof.
  intros Hs Hid. rw /seating_of /update /=. f_equal. rw fmap_insert Hid.
  symmetry. apply insert_id. by rw lookup_fmap Hs.
Qed.

Lemma by_id_some i h s st : by_id i st = Some (h, s) → sessions st !! h = Some s ∧ id s = i.
Proof.
  intros [Hin Heq]%List.find_some. simpl in Heq. apply String.eqb_eq in Heq. split; [|done].
  apply elem_of_map_to_list. by apply list_elem_of_In.
Qed.

Lemma moves_update_by_id used i f st :
  (∀ s, id (f s) = id s) → moves used used st (update_by_id i f st).2.
Proof.
  intros Hf. apply moves_unseen. rw /update_by_id. destruct (by_id i st) as [[h s]|] eqn:Hb; [|done].
  apply by_id_some in Hb as [Hs _]. by apply (update_unseen _ _ s).
Qed.

(** *** Every operation is moves *)

Lemma moves_refuse used p door code reason st :
  moves used used st (refuse level_value blank audited instance_level p door code reason st).
Proof. by apply moves_emit. Qed.

Lemma moves_dead used t h s st :
  sessions st !! h = Some s →
  moves used used st (end_seat_ t h s (if expired t s then "expired" else "idle") st).
Proof. intros Hs. apply moves_end_seat; [done|]. rw /closing. destruct (expired t s); set_solver. Qed.

Lemma moves_bump used t h s st : sessions st !! h = Some s → moves used used st (bump t h s st).
Proof. intros Hs. by apply moves_unseen, (update_unseen _ _ s). Qed.

Lemma end_seat_sessions t h s how st : sessions (end_seat_ t h s how st) = delete h (sessions st).
Proof. rw /end_seat /=. by destruct (SessionClosed_fields t h s how st) as [-> _]. Qed.

Lemma moves_sweep used t entries removed st :
  NoDup entries.*1 → (∀ h s, (h, s) ∈ entries → sessions st !! h = Some s) →
  moves used used st (sweep_sessions level_value blank audited instance_level t entries removed st).2.
Proof.
  revert removed st. induction entries as [|[h s] entries IH]; intros removed st Hnd Hin; [apply moves_refl|].
  apply NoDup_cons in Hnd as [Hh Hnd]. simpl. destruct (expired t s || stale t s).
  - eapply moves_trans; [apply moves_dead; apply Hin; left|]. apply IH; [done|].
    intros h' s' Hin'. rw end_seat_sessions lookup_delete_ne; [|apply Hin; by right].
    intros ->. apply Hh. apply list_elem_of_fmap. by exists (h', s').
  - apply IH; [done|]. intros h' s' Hin'. apply Hin. by right.
Qed.

Lemma moves_SweepLocked used t st :
  moves used used st (SweepLocked level_value blank audited instance_level t st).2.
Proof.
  rw /SweepLocked.
  pose proof (moves_sweep used t (map_to_list (sessions st)) 0 st) as Hm.
  destruct (sweep_sessions _ _ _ _ _ _ _ _) as [removed st']. eapply moves_trans; [apply Hm|by apply moves_unseen].
  - apply NoDup_fst_map_to_list.
  - intros h s. apply elem_of_map_to_list.
Qed.

Lemma moves_verify used rq st r st' :
  verify_token level_value blank audited instance_level env rq st = (r, st') → moves used used st st'.
Proof.
  assert (Hcount : ∀ result st, moves used used st (CountJwt audited result st)).
  { intros result st0. rw /CountJwt. destruct audited; [apply moves_count|apply moves_refl]. }
  rw /verify_token. destruct (LooksLikeJwt env (token rq)).
  - destruct (IdentityError env); [intros [= <- <-]; apply moves_refl|].
    destruct (VerifyJwtPrincipal env (token rq) s) as [p e|p note msg].
    + destruct (CatalogLoadRoleClaims env) as [load|]; [destruct (load p)|]; intros [= <- <-]; apply Hcount.
    + intros [= <- <-]. eapply moves_trans; [apply Hcount|apply moves_refuse].
  - destruct (ci_find (token rq) (tokens st)) as [p|].
    + destruct (CatalogLoadRoleClaims env) as [load|]; [destruct (load p)|]; intros [= <- <-]; apply moves_refl.
    + intros [= <- <-]. apply moves_refuse.
Qed.

(** Seating a session and telling the observers is one move *)
Lemma moves_seat used t rq p exp level l (draining_now : bool) st :
  sessions st !! fresh_handle rq = None → fresh_id rq ∉ used →
  let st1 := emit_ (event p (at_door rq) (fresh_id rq) level "opened" EmptyString
                      (if draining_now
                       then "seated while draining for one call: the principal holds the node's own rights"
                       else EmptyString) (-1) draining_now) st in
  let st2 := with_notices (BeginOpen (fresh_id rq) (notices st1)) [] st1 in
  let st3 := with_sessions
    (<[fresh_handle rq := new_session p (fresh_id rq) exp (now t) (at_door rq) level l]> (sessions st2)) st2 in
  moves used ({[fresh_id rq]} ∪ used) st (Opened observer_calls (fresh_id rq) st3).
Proof.
  intros Hh Hid st1 st2 st3.
  assert (Hs1 : sessions st1 = sessions st) by by rw /st1 /emit; destruct audited.
  assert (Hn1 : notices st1 = notices st) by by rw /st1 /emit; destruct audited.
  assert (Hd1 : heard st1 = heard st) by by rw /st1 /emit; destruct audited.
  assert (He1 : emitted st1 = emitted st ++ booked (event p (at_door rq) (fresh_id rq) level "opened" EmptyString
                      (if draining_now
                       then "seated while draining for one call: the principal holds the node's own rights"
                       else EmptyString) (-1) draining_now)).
  { rw /st1 /emit /booked. by destruct audited; [|rw app_nil_r]. }
  pose proof (move_open (seating_of used st) (fresh_handle rq) (fresh_id rq)
    (event p (at_door rq) (fresh_id rq) level "opened" EmptyString
                      (if draining_now
                       then "seated while draining for one call: the principal holds the node's own rights"
                       else EmptyString) (-1) draining_now) (observer_calls (Open (fresh_id rq)))) as Hmove.
  rw /= lookup_fmap Hh in Hmove. specialize (Hmove eq_refl Hid eq_refl eq_refl eq_refl).
  rw /Opened /st3 /st2 /= Hn1. destruct (hooks (notices st)) eqn:Hhooks.
  - assert (Hb : hooks (BeginOpen (fresh_id rq) (notices st)) = true) by by rw /BeginOpen Hhooks.
    rw Hb /=. eapply moves_trans; [|apply moves_Flush]. apply rtc_once.
    match type of Hmove with move _ ?σ => replace (seating_of ({[fresh_id rq]} ∪ used) _) with σ; [exact Hmove|] end.
    rw /seating_of /= fmap_insert Hs1 He1 Hd1 ?app_nil_r. done.
  - assert (Hb : hooks (BeginOpen (fresh_id rq) (notices st)) = false) by by rw /BeginOpen Hhooks.
    rw Hb /=. apply rtc_once.
    match type of Hmove with move _ ?σ => replace (seating_of ({[fresh_id rq]} ∪ used) _) with σ; [exact Hmove|] end.
    rw /seating_of /= fmap_insert Hs1 He1 Hd1 ?app_nil_r /BeginOpen Hhooks. done.
Qed.

Lemma moves_mint used i st : moves used ({[i]} ∪ used) st st.
Proof. apply rtc_once. apply (move_mint (seating_of used st)). Qed.

Lemma sweep_sessions_keeps t entries removed st h :
  sessions st !! h = None →
  sessions (sweep_sessions level_value blank audited instance_level t entries removed st).2 !! h = None.
Proof.
  revert removed st. induction entries as [|[h' s] entries IH]; intros removed st Hh; [done|]. simpl.
  destruct (expired t s || stale t s); apply IH; [|done]. rw end_seat_sessions. by apply lookup_delete_None; right.
Qed.

Lemma SweepLocked_keeps t st h :
  sessions st !! h = None → sessions (SweepLocked level_value blank audited instance_level t st).2 !! h = None.
Proof.
  intros Hh. rw /SweepLocked. pose proof (sweep_sessions_keeps t (map_to_list (sessions st)) 0 st h Hh) as Hk.
  by destruct (sweep_sessions _ _ _ _ _ _ _ _) as [removed st'].
Qed.

Lemma verify_token_same rq st r st' :
  verify_token level_value blank audited instance_level env rq st = (r, st') → same_store st st'.
Proof.
  assert (Hcount : ∀ result st, same_store st (CountJwt audited result st)) by by intros result st0; rw /CountJwt; destruct audited.
  rw /verify_token. destruct (LooksLikeJwt env (token rq)).
  - destruct (IdentityError env); [by intros [= <- <-]|].
    destruct (VerifyJwtPrincipal env (token rq) s) as [p e|p note msg].
    + destruct (CatalogLoadRoleClaims env) as [load|]; [destruct (load p)|]; intros [= <- <-]; apply Hcount.
    + intros [= <- <-]. etransitivity; [apply Hcount|apply emit_same].
  - destruct (ci_find (token rq) (tokens st)) as [p|].
    + destruct (CatalogLoadRoleClaims env) as [load|]; [destruct (load p)|]; by intros [= <- <-].
    + intros [= <- <-]. apply emit_same.
Qed.

(** What an open comes to: refused, its moves none that seat; or seated *)
Lemma seat_cases used t rq p exp level l draining_now st result st' :
  sessions st !! fresh_handle rq = None →
  seat level_value blank audited instance_level max_sessions t rq p exp level l draining_now st = (result, st') →
  (result = RefusedSession ∧ moves used used st st') ∨
  (result = Seated (fresh_handle rq) (fresh_id rq) ∧
   (fresh_id rq ∉ used → moves used ({[fresh_id rq]} ∪ used) st (Opened observer_calls (fresh_id rq) st'))).
Proof.
  intros Hh. rw /seat.
  set swept := (if _ || _ then _ else st).
  assert (Hswept : moves used used st swept ∧ sessions swept !! fresh_handle rq = None).
  { rw /swept. destruct (_ || _); [split; [apply moves_SweepLocked|by apply SweepLocked_keeps]|split; [apply moves_refl|done]]. }
  destruct Hswept as [Hm Hnone]. clearbody swept.
  destruct ((0 <? max_sessions)%Z && _).
  { intros [= <- <-]. left. split; [done|]. eapply moves_trans; [exact Hm|apply moves_refuse]. }
  destruct (negb (is_empty (charged l)) && _).
  { intros [= <- <-]. left. split; [done|]. eapply moves_trans; [exact Hm|apply moves_refuse]. }
  intros [= <- <-]. right. split; [done|]. intros Hid. eapply moves_trans; [exact Hm|]. by apply moves_seat.
Qed.

Lemma moves_SessionOpen used t rq st :
  sessions st !! fresh_handle rq = None → fresh_id rq ∉ used →
  moves used ({[fresh_id rq]} ∪ used) st
    (SessionOpen level_value blank audited instance_level observer_calls max_sessions env t rq st).2.
Proof.
  intros Hh Hid.
  assert (Hrefused : ∀ st1 st2, moves used used st st1 → moves used used st1 st2 → moves used ({[fresh_id rq]} ∪ used) st (Flush_ st2)).
  { intros st1 st2 H1 H2. eapply moves_trans; [exact H1|]. eapply moves_trans; [exact H2|].
    eapply moves_trans; [apply moves_Flush|apply moves_mint]. }
  assert (Hfail : ∀ st1 p message, moves used used st st1 → moves used ({[fresh_id rq]} ∪ used) st
    (let '(answer, st) := if String.eqb (at_door rq) "session" then (Throw message, st1)
                          else (Ok RefusedSession, refuse level_value blank audited instance_level p (at_door rq) "source_error" message st1) in
     (answer, Flush_ st)).2).
  { intros st1 p message H1. destruct (String.eqb (at_door rq) "session"); eapply Hrefused; try exact H1;
      [apply moves_refl|apply moves_refuse]. }
  rw /SessionOpen /SessionOpenBody.
  set draining_now := negb (despite_drain rq) && draining st. clearbody draining_now.
  destruct (draining_now && negb (one_call rq)).
  { eapply Hrefused; [apply moves_refuse|apply moves_refl]. }
  destruct (verify_token level_value blank audited instance_level env rq st) as [[[p exp]|result] st1] eqn:Hv.
  - pose proof (moves_verify used _ _ _ _ Hv) as Hm1. pose proof (verify_token_same _ _ _ _ Hv) as [Hs1 _ _].
    destruct (draining_now && negb (MayOperate env p)).
    { eapply Hrefused; [exact Hm1|apply moves_refuse]. }
    destruct (ResolveResourceLimits env p) as [l|message]; [|by apply Hfail].
    destruct (negb (admitted l)).
    { eapply Hrefused; [exact Hm1|apply moves_refuse]. }
    destruct (seat level_value blank audited instance_level max_sessions t rq p exp
                (if audited then LevelForSession env p (at_door rq) else None) l draining_now st1) as [result st2] eqn:Hseat.
    apply (seat_cases used) in Hseat as [[-> Hm2]|[-> Hm2]]; [| |by rw Hs1].
    + by eapply Hrefused.
    + eapply moves_trans; [exact Hm1|]. eapply moves_trans; [by apply Hm2|apply moves_Flush].
  - pose proof (moves_verify used _ _ _ _ Hv) as Hm1.
    assert (Hresult : match result with Seated _ _ => False | _ => True end).
    { move: Hv. rw /verify_token. repeat (case_match; simplify_eq/=; try done). }
    destruct result as [| | |so_far message]; [done| | |by apply Hfail];
      (eapply Hrefused; [exact Hm1|apply moves_refl]).
Qed.

Lemma moves_with_bindings used b st : moves used used st (with_bindings b st).
Proof. by apply moves_unseen. Qed.

Lemma moves_SessionPrincipal used t h st :
  moves used used st (SessionPrincipal level_value blank audited instance_level observer_calls t h st).2.
Proof.
  rw /SessionPrincipal. destruct (sessions st !! h) as [s|] eqn:Hs; [|apply moves_Flush].
  pose proof (moves_dead used t h s st Hs) as Hdead.
  destruct (expired t s); [|destruct (stale t s)]; simpl.
  - eapply moves_trans; [exact Hdead|apply moves_Flush].
  - eapply moves_trans; [exact Hdead|apply moves_Flush].
  - eapply moves_trans; [by apply moves_bump|apply moves_Flush].
Qed.

Lemma moves_known used t h st :
  moves used used st (known level_value blank audited instance_level observer_calls t h st).2.
Proof.
  rw /known. pose proof (moves_SessionPrincipal used t h st) as Hm.
  by destruct (SessionPrincipal _ _ _ _ _ t h st).
Qed.

Lemma moves_end_optional used t h how st :
  closing how →
  moves used used st (match sessions st !! h with Some s => end_seat_ t h s how st | None => st end).
Proof. intros Hhow. destruct (sessions st !! h) eqn:Hs; [by apply moves_end_seat|apply moves_refl]. Qed.

(** All of them ended, then the map cleared *)
Lemma moves_close_all used t (entries : list (string * Session)) st :
  NoDup entries.*1 →
  moves used used (with_sessions (list_to_map entries) st)
    (with_sessions ∅ (fold_left (λ st e, closed_ t e.1 e.2 "door_stopped" st) entries st)).
Proof.
  revert st. induction entries as [|[h s] entries IH]; intros st Hnd; [apply moves_refl|].
  apply NoDup_cons in Hnd as [Hh Hnd].
  change (fold_left (λ st e, closed_ t e.1 e.2 "door_stopped" st) ((h, s) :: entries) st) with
    (fold_left (λ st e, closed_ t e.1 e.2 "door_stopped" st) entries (closed_ t h s "door_stopped" st)).
  eapply moves_trans; [|by apply IH]. apply rtc_once.
  destruct (SessionClosed_fields t h s "door_stopped" st) as (H1 & H2 & H3 & H4 & H5 & H6).
  pose proof (move_close (seating_of used (with_sessions (list_to_map ((h, s) :: entries)) st)) h (id s)
    (event (principal s) (door s) (id s) (audit_level s) "door_stopped" EmptyString EmptyString
       (if (0 <? opened_at s)%Z then imul (isub (now t) (opened_at s)) 1000000 else (-1)%Z) false) "door_stopped") as Hmove.
  cbn [list_to_map foldr fst snd uncurry] in Hmove |- *.
  match type of Hmove with _ → _ → _ → _ → _ → move _ ?σ => replace (seating_of used (with_sessions (list_to_map entries) _)) with σ end.
  - apply Hmove; [|done..|rw /closing; set_solver]. rw /= lookup_fmap lookup_insert_eq //.
  - rw /seating_of /= H4 H5 H6 fmap_insert delete_insert_id //. rw lookup_fmap. 
    rw (not_elem_of_list_to_map_1 _ _ Hh) //.
Qed.

Lemma moves_perform used t op st :
  fresh op used st →
  moves used (ids_of op ∪ used) st (perform t op st).
Proof.
  assert (Hempty : ∀ st', moves used used st st' → moves used (∅ ∪ used) st st').
  { intros st' Hm. by replace (∅ ∪ used) with used by set_solver. }
  intros Hfresh. destruct op as [rq|h|h|h sql cid tp lp lr lj| |ext how|i|h|ext h| |i vc sc|i role|i level|i level
    |i name value|i stream|h|h|h|value|dr code reason|dr h code reason|dr h refused code what]; simpl.
  1: { destruct Hfresh. by apply moves_SessionOpen. }
  all: apply Hempty.
  - apply moves_SessionPrincipal.
  - rw /SessionTouch. destruct (sessions st !! h) as [s|] eqn:Hs; [|apply moves_refl].
    destruct (expired t s); [apply moves_refl|]. destruct (stale t s); [apply moves_refl|by apply moves_bump].
  - rw /SessionSql. destruct (sessions st !! h) as [s|] eqn:Hs; [|apply moves_refl].
    destruct (expired t s); [apply moves_refl|]. destruct (stale t s); [apply moves_refl|by apply moves_bump].
  - rw /SessionSweep. pose proof (moves_SweepLocked used t st) as Hm.
    destruct (SweepLocked _ _ _ _ t st). eapply moves_trans; [exact Hm|apply moves_Flush].
  - rw /SessionEndBound. eapply moves_trans; [|apply moves_Flush].
    destruct (session_bindings st !! ext) as [h|]; [|apply moves_refl].
    eapply moves_trans; [by apply (moves_end_optional _ t h how)|apply moves_with_bindings].
  - rw /SessionKill. destruct (by_id i st) as [[h s]|] eqn:Hb; [|apply moves_Flush].
    apply by_id_some in Hb as [Hs _]. eapply moves_trans; [apply (moves_end_seat _ t h s "killed"); [done|rw /closing; set_solver]|].
    eapply moves_trans; [apply moves_with_bindings|apply moves_Flush].
  - rw /SessionClose. eapply moves_trans; [apply (moves_end_optional _ t h "client"); rw /closing; set_solver|].
    eapply moves_trans; [apply moves_with_bindings|apply moves_Flush].
  - rw /SessionBind. eapply moves_trans; [|apply moves_Flush]. eapply moves_trans; [|apply moves_with_bindings].
    destruct (session_bindings st !! ext) as [h'|]; [|apply moves_refl].
    destruct (String.eqb h' h); [apply moves_refl|]. apply (moves_end_optional _ t h' "client"). rw /closing. set_solver.
  - rw /SessionCloseAll. eapply moves_trans; [|apply moves_Flush].
    pose proof (moves_close_all used t (map_to_list (sessions st)) st (NoDup_fst_map_to_list _)) as Hm.
    rw list_to_map_to_list in Hm. eapply moves_trans; [by apply moves_unseen|]. eapply moves_trans; [exact Hm|].
    apply moves_with_bindings.
  - by apply moves_update_by_id.
  - by apply moves_update_by_id.
  - by apply moves_update_by_id.
  - by apply moves_update_by_id.
  - rw /SetSessionTrace. destruct (by_id i st) as [[h s]|] eqn:Hb; [|apply moves_refl].
    apply by_id_some in Hb as [Hs _]. destruct (set_trace name value s) as [s'|] eqn:Ht; [|apply moves_refl].
    apply moves_unseen, (update_unseen _ _ s); [done|]. move: Ht. rw /set_trace. by repeat case_match; intros [= <-].
  - rw /NoteSessionDrain. destruct (is_empty i); [apply moves_refl|by apply moves_update_by_id].
  - rw /TakeSessionDrain. destruct (sessions st !! h) as [s|] eqn:Hs; [|apply moves_refl].
    by apply moves_unseen, (update_unseen _ _ s).
  - rw /SessionMarkPerCall. destruct (sessions st !! h) as [s|] eqn:Hs; [|apply moves_refl].
    by apply moves_unseen, (update_unseen _ _ s).
  - rw /SessionMarkDeclaredViewAs. destruct (sessions st !! h) as [s|] eqn:Hs; [|apply moves_refl].
    by apply moves_unseen, (update_unseen _ _ s).
  - by apply moves_unseen.
  - by apply moves_emit.
  - rw /AuditSessionRefusedOf. pose proof (moves_known used t h st) as Hm.
    destruct (known _ _ _ _ _ t h st). eapply moves_trans; [exact Hm|by apply moves_emit].
  - rw /AuditSessionMove. pose proof (moves_known used t h st) as Hm.
    destruct (known _ _ _ _ _ t h st). eapply moves_trans; [exact Hm|by destruct refused; apply moves_emit].
Qed.

Lemma history_moves observed used st :
  history observed used st → moves ∅ used (new_store observed) st.
Proof.
  induction 1 as [|used st t op _ IH Hfresh]; [apply moves_refl|]. eapply moves_trans; [exact IH|by apply moves_perform].
Qed.

(** ** The accounting of sessions *)

Definition opened_ids (es : list AuditEvent) : list string := map ev_session (List.filter opens_session es).
Definition closed_ids (es : list AuditEvent) : list string := map ev_session (List.filter closes_session es).
Definition seated_ids (st : store) : list string := map (λ e : string * Session, id e.2) (map_to_list (sessions st)).

Record accounted (σ : seating) : Prop := {
  ac_balance : opened_ids (book σ) ≡ₚ closed_ids (book σ) ++ (map_to_list (seats σ)).*2;
  ac_minted : ∀ i, i ∈ opened_ids (book σ) → i ∈ minted σ;
  ac_once : NoDup (opened_ids (book σ));
}.

Lemma opened_ids_app a b : opened_ids (a ++ b) = opened_ids a ++ opened_ids b.
Proof. by rw /opened_ids List.filter_app map_app. Qed.
Lemma closed_ids_app a b : closed_ids (a ++ b) = closed_ids a ++ closed_ids b.
Proof. by rw /closed_ids List.filter_app map_app. Qed.

Lemma booked_event e : audited = true →
  opened_ids (booked e) = (if opens_session e then [ev_session e] else []) ∧
  closed_ids (booked e) = (if closes_session e then [ev_session e] else []).
Proof.
  intros Ha. rw /booked Ha /opened_ids /closed_ids /=. by destruct (opens_session e), (closes_session e).
Qed.

Lemma move_accounted σ σ' : audited = true → move σ σ' → accounted σ → accounted σ'.
Proof.
  intros Ha Hm [Hb Hmi Ho].
  destruct Hm as [σ h i e calls Hh Hi Hk Hd Hid|σ h i e how Hh Hk Hd Hid Hhow|σ calls|σ i|σ e Hoe Hce].
  - destruct (booked_event e Ha) as [Ho1 Hc1].
    assert (Hopen : opens_session e = true) by by rw /opens_session /is_session_event Hk Hd.
    assert (Hclose : closes_session e = false).
    { by rw /closes_session Hk Hd. }
    rw Hopen in Ho1. rw Hclose in Hc1. split; cbn [seats minted book]; rw opened_ids_app ?closed_ids_app Ho1 ?Hc1 ?app_nil_r.
    + rw map_to_list_insert // Hb Hid. etransitivity; [apply Permutation_app_comm|].
      exact (Permutation_middle (closed_ids (book σ)) (map_to_list (seats σ)).*2 i).
    + intros x [Hx%Hmi|Hx%list_elem_of_singleton]%elem_of_app; set_solver.
    + apply NoDup_app. split; [done|]. split; [|apply NoDup_singleton].
      intros x Hx%Hmi ->%list_elem_of_singleton. by rw Hid in Hx.
  - destruct (booked_event e Ha) as [Ho1 Hc1].
    assert (Hopen : opens_session e = false).
    { rw /opens_session /is_session_event Hk Hd /=. apply String.eqb_neq. intros ->. apply Hhow. left. }
    assert (Hclose : closes_session e = true).
    { rw /closes_session Hk Hd /=. apply negb_true_iff, bool_decide_eq_false. exact Hhow. }
    rw Hopen in Ho1. rw Hclose in Hc1. split; cbn [seats minted book]; rw opened_ids_app ?closed_ids_app Ho1 ?Hc1 app_nil_r //.
    rw Hb -app_assoc. apply Permutation_app_head. rw -(map_to_list_delete (seats σ) h i Hh) /= Hid. done.
  - by split.
  - split; try done. intros x Hx%Hmi. simpl. set_solver.
  - destruct (booked_event e Ha) as [Ho1 Hc1]. rw Hoe in Ho1. rw Hce in Hc1.
    split; cbn [seats minted book]; rw opened_ids_app ?closed_ids_app Ho1 ?Hc1 ?app_nil_r //.
Qed.

Lemma moves_accounted used used' st st' :
  audited = true → moves used used' st st' → accounted (seating_of used st) → accounted (seating_of used' st').
Proof.
  intros Ha Hm. rw /moves in Hm. induction Hm as [|σ1 σ2 σ3 Hs _ IH]; [done|]. intros H1. by apply IH, (move_accounted σ1).
Qed.

Lemma seated_ids_seats used st : (map_to_list (seats (seating_of used st))).*2 = seated_ids st.
Proof.
  rw /seated_ids /= map_to_list_fmap. rw -list_fmap_compose. done.
Qed.

(** ** The observers *)

Record observed_by (σ : seating) (n : system) : Prop := {
  ob_reach : reachable n;
  ob_note : note n = note_ σ;
  ob_log : log n = told σ;
  ob_flush : Forall (λ due, due = []) (flushing n);
  ob_opening : opening (note n) = ∅;
  ob_delivering : delivering n = ∅;
  ob_begun : ∀ i, i ∈ begun n → i ∈ minted σ;
  ob_seated : ∀ h i, seats σ !! h = Some i → i ∈ begun n ∧ Notifier.closed n !! i = None;
  ob_distinct : ∀ h h' i, seats σ !! h = Some i → seats σ !! h' = Some i → h = h';
  ob_ended : ∀ i, i ∈ begun n → (∃ h, seats σ !! h = Some i) ∨ is_Some (Notifier.closed n !! i);
}.

(** A flush's closes delivered one by one *)
Lemma deliver_all (calls : string * string → list (bool * Z)) due n before after :
  reachable n → flushing n = before ++ due :: after →
  reachable {| note := fold_left (λ n c, deliver (calls c) n) due (note n); begun := begun n; delivering := delivering n;
               Notifier.closed := Notifier.closed n; flushing := before ++ [] :: after;
               log := log n ++ map (λ c : string * string, Close c.1 c.2) due |}.
Proof.
  revert n. induction due as [|[i how] due IH]; intros n Hr Hf.
  - rw /= app_nil_r -Hf. by destruct n.
  - pose proof (IH {| note := deliver (calls (i, how)) (note n); begun := begun n; delivering := delivering n;
                      Notifier.closed := Notifier.closed n; flushing := before ++ due :: after;
                      log := log n ++ [Close i how] |}) as IH'.
    cbn [note begun delivering Notifier.closed flushing log] in IH'. rw -app_assoc in IH'.
    apply IH'; [|done]. eapply reach_step; [exact Hr|]. by apply sys_deliver.
Qed.

Lemma deliver_fold_opening (calls : string * string → list (bool * Z)) due n :
  opening (fold_left (λ n c, deliver (calls c) n) due n) = opening n ∧
  hooks (fold_left (λ n c, deliver (calls c) n) due n) = hooks n.
Proof. revert n. induction due as [|c due IH]; intros n; [done|]. simpl. by destruct (IH (deliver (calls c) n)) as [-> ->]. Qed.

Lemma move_observed σ σ' n : move σ σ' → observed_by σ n → ∃ n', observed_by σ' n'.
Proof.
  intros Hm [Hr Hn Hl Hf Ho Hd Hb Hs Hdi He]. pose proof (reachable_ok n Hr) as [Hh _ _ _ _ _ _ _ _ _ _].
  destruct Hm as [σ h i e calls Hh' Hi Hk Hde Hid|σ h i e how Hh' Hk Hde Hid Hhow|σ calls|σ i|σ e Hoe Hce].
  - assert (Hnb : i ∉ begun n) by (intros Hx%Hb; done). rw -Hn Hh.
    set n1 := {| note := BeginOpen i (note n); begun := {[i]} ∪ begun n; delivering := {[i]} ∪ delivering n;
                 Notifier.closed := Notifier.closed n; flushing := flushing n; log := log n |}.
    assert (R1 : reachable n1) by (eapply reach_step; [exact Hr|by apply sys_begin]).
    set n2 := {| note := deliver calls (note n1); begun := begun n1; delivering := delivering n1 ∖ {[i]};
                 Notifier.closed := Notifier.closed n1; flushing := flushing n1; log := log n1 ++ [Open i] |}.
    assert (R2 : reachable n2) by (eapply reach_step; [exact R1|apply sys_open; rw /n1 /=; set_solver]).
    set n3 := {| note := opened_locked i (note n2); begun := begun n2; delivering := delivering n2;
                 Notifier.closed := Notifier.closed n2; flushing := flushing n2; log := log n2 |}.
    assert (Hbo : BeginOpen i (note n) = {| hooks := hooks (note n); refused := refused (note n);
        opening := {[i]} ∪ opening (note n); deferred := deferred (note n); closes := closes (note n);
        failures := failures (note n); slow := slow (note n) |}) by by rw /BeginOpen Hh.
    assert (R3 : reachable n3).
    { eapply reach_step; [exact R2|]. apply sys_opened; [rw /n2 /= elem_of_app; right; left|].
      rw /n2 /n1 /= Hbo /=. set_solver. }
    exists n3. split; cbn [seats minted note_ told book]; try done.
    + by rw /n3 /n2 /n1 /= Hl.
    + rw /n3 /n2 /n1 /= Hbo /= Ho. set_solver.
    + rw /n3 /n2 /n1 /= Hd. set_solver.
    + intros x. rw /n3 /n2 /n1 /=. intros [->%elem_of_singleton|Hx%Hb]%elem_of_union; set_solver.
    + intros h' x. rw /n3 /n2 /n1 /=. intros [[<- <-]|[Hne Hx]]%lookup_insert_Some.
      * split; [set_solver|]. destruct (Notifier.closed n !! i) eqn:Hc; [|done].
        destruct (reachable_ok n Hr) as [_ _ _ _ _ _ _ Hall _ _ _]. by destruct (Hall i s Hc).
      * destruct (Hs h' x Hx). split; [set_solver|done].
    + intros h1 h2 x [[<- <-]|[Hne Hx]]%lookup_insert_Some [[<- Heq]|[Hne' Hx']]%lookup_insert_Some; try done.
      * by destruct (Hs h2 i Hx').
      * subst x. by destruct (Hs h1 i Hx).
      * by eapply Hdi.
    + intros x. rw /n3 /n2 /n1 /=. intros [->%elem_of_singleton|Hx]%elem_of_union.
      * left. exists h. by rw lookup_insert_eq.
      * destruct (He x Hx) as [[h' Hx']|Hx']; [|by right]. left. exists h'.
        rw lookup_insert_ne //. intros <-. by rw Hh' in Hx'.
  - destruct (Hs h i Hh') as [Hib Hic].
    exists {| note := QueueClose i how (note n); begun := begun n; delivering := delivering n;
              Notifier.closed := <[i := how]> (Notifier.closed n); flushing := flushing n; log := log n |}.
    split; cbn [seats minted note_ told book note log flushing begun delivering Notifier.closed]; try done.
    + eapply reach_step; [exact Hr|by apply sys_close].
    + by rw Hn.
    + rw /QueueClose. by repeat case_match.
    + intros h' x [Hne Hx]%lookup_delete_Some. destruct (Hs h' x Hx) as [Hxb Hxc]. split; [done|].
      rw lookup_insert_ne //. intros <-. apply Hne. by eapply Hdi.
    + intros h1 h2 x [_ H1]%lookup_delete_Some [_ H2]%lookup_delete_Some. by eapply Hdi.
    + intros x Hx. destruct (decide (x = i)) as [->|Hne]; [right; rw lookup_insert_eq; by eexists|].
      destruct (He x Hx) as [[h' Hx']|Hx']; [|right; by rw lookup_insert_ne].
      left. exists h'. rw lookup_delete_ne //. intros <-. rw Hh' in Hx'. congruence.
  - rw -Hn. pose proof (reach_step n _ Hr (sys_flush n)) as R1.
    apply (deliver_all calls (flush_locked (note n)).2 _ [] (flushing n)) in R1; [|done]. simpl in R1.
    eexists. split; [exact R1|..]; cbn [seats minted note_ told book note log flushing begun delivering Notifier.closed];
      try done.
    + by rw Hl.
    + by constructor.
    + destruct (deliver_fold_opening calls (flush_locked (note n)).2 (flush_locked (note n)).1) as [-> _].
      rw /flush_locked Hh /=. done.
  - exists n. split; try done. intros x Hx%Hb. simpl. set_solver.
  - exists n. by split.
Qed.

Lemma moves_observed used used' st st' n :
  moves used used' st st' → observed_by (seating_of used st) n → ∃ n', observed_by (seating_of used' st') n'.
Proof.
  intros Hm. rw /moves in Hm. revert n. induction Hm as [|σ1 σ2 σ3 Hs _ IH]; [eauto|]. intros n H1.
  destruct (move_observed _ _ _ Hs H1) as [n' H2]. by apply (IH n').
Qed.

Lemma observed_start : observed_by (seating_of ∅ (new_store true)) start.
Proof.
  split; simpl; try done; try constructor; try set_solver.
Qed.

(** *** Nothing is left to deliver after an operation *)

Lemma move_hooks σ σ' : move σ σ' → hooks (note_ σ') = hooks (note_ σ).
Proof.
  intros Hm. destruct Hm as [σ h i e calls| |σ calls| |]; cbn [note_]; try done.
  - destruct (hooks (note_ σ)) eqn:Hh; [|exact Hh]. rw /opened_locked /= /BeginOpen Hh. done.
  - rw /QueueClose. by repeat case_match.
  - destruct (deliver_fold_opening calls (flush_locked (note_ σ)).2 (flush_locked (note_ σ)).1) as [_ ->].
    rw /flush_locked. by case_match.
Qed.

Lemma moves_hooks used used' st st' : moves used used' st st' → hooks (notices st') = hooks (notices st).
Proof.
  intros Hm. rw /moves in Hm. change (hooks (note_ (seating_of used' st')) = hooks (note_ (seating_of used st))).
  induction Hm as [|σ1 σ2 σ3 Hs _ IH]; [done|]. by rw IH (move_hooks _ _ Hs).
Qed.

Lemma fold_deliver_closes (calls : string * string → list (bool * Z)) due n :
  closes (fold_left (λ n c, deliver (calls c) n) due n) = closes n.
Proof. revert n. induction due as [|c due IH]; intros n; [done|]. simpl. by rw IH. Qed.

Lemma Flush_hooks st : hooks (notices (Flush_ st)) = hooks (notices st).
Proof. by apply (moves_hooks ∅ ∅), moves_Flush. Qed.

Lemma Flush_closes st : hooks (notices st) = true → closes (notices (Flush_ st)) = [].
Proof. intros Hh. by rw Flush_eq /= fold_deliver_closes /flush_locked Hh. Qed.

(** An operation leaves the notifier as it was, or as a flush leaves it *)
Definition flushed (st st' : store) : Prop := notices st' = notices st ∨ ∃ x, notices st' = notices (Flush_ x).

Lemma emit_notices e st : notices (emit_ e st) = notices st.
Proof. rw /emit. by destruct audited. Qed.

Lemma known_flushed t h st : flushed st (known level_value blank audited instance_level observer_calls t h st).2.
Proof.
  right. rw /known /SessionPrincipal. destruct (match sessions st !! h with Some _ => _ | None => _ end) as [a st'].
  by exists st'.
Qed.

Lemma perform_flushed t op st : flushed st (perform t op st).
Proof.
  assert (Hupdate : ∀ i f, flushed st (update_by_id i f st).2).
  { intros i f. left. rw /update_by_id. by destruct (by_id i st) as [[h s]|]. }
  destruct op as [rq|h|h|h sql cid tp lp lr lj| |ext how|i|h|ext h| |i vc sc|i role|i level|i level
    |i name value|i stream|h|h|h|value|dr code reason|dr h code reason|dr h refused code what]; simpl;
    try (apply Hupdate).
  - right. rw /SessionOpen. destruct (SessionOpenBody _ _ _ _ _ _ _ _ _) as [result st1].
    match goal with |- context [(let '(a, b) := ?e in (a, Flush_ b)).2] => destruct e as [answer st2] end. by exists st2.
  - right. rw /SessionPrincipal. destruct (match sessions st !! h with Some _ => _ | None => _ end) as [a st'].
    by exists st'.
  - left. rw /SessionTouch. by repeat case_match.
  - left. rw /SessionSql. by repeat case_match.
  - right. rw /SessionSweep. destruct (SweepLocked _ _ _ _ t st) as [a st']. by exists st'.
  - right. rw /SessionEndBound. by eexists.
  - right. rw /SessionKill. destruct (match by_id i st with Some _ => _ | None => _ end) as [a st']. by exists st'.
  - right. rw /SessionClose. by eexists.
  - right. rw /SessionBind. by eexists.
  - right. rw /SessionCloseAll. by eexists.
  - left. rw /SetSessionTrace. destruct (by_id i st) as [[h s]|]; [|done]. by destruct (set_trace name value s).
  - rw /NoteSessionDrain. destruct (is_empty i); [by left|apply Hupdate].
  - left. rw /TakeSessionDrain. by case_match.
  - left. rw /SessionMarkPerCall. by case_match.
  - left. rw /SessionMarkDeclaredViewAs. by case_match.
  - by left.
  - left. rw /AuditSessionRefused emit_notices. done.
  - rw /AuditSessionRefusedOf. pose proof (known_flushed t h st) as Hk.
    destruct (known _ _ _ _ _ t h st) as [who st']. rw /flushed emit_notices. exact Hk.
  - rw /AuditSessionMove. pose proof (known_flushed t h st) as Hk.
    destruct (known _ _ _ _ _ t h st) as [who st']. rw /flushed emit_notices. exact Hk.
Qed.

Lemma history_delivered used st : history true used st → closes (notices st) = [].
Proof.
  induction 1 as [|used st t op Hh IH Hfresh]; [done|].
  assert (Hhooks : hooks (notices (perform t op st)) = true).
  { rw (moves_hooks _ _ _ _ (moves_perform used t op st Hfresh)). by rw (moves_hooks _ _ _ _ (history_moves _ _ _ Hh)). }
  destruct (perform_flushed t op st) as [Heq|[x Heq]]; rw Heq; [done|]. apply Flush_closes.
  rw -Flush_hooks -Heq. exact Hhooks.
Qed.

(** ** How sessions age, and what is remembered of those that end *)

Definition alive (t : settings) (s : Session) : bool := negb (expired t s) && negb (stale t s).

(** Every session of [st'] but the one [minted] was in [st], no older than there unless it was alive *)
Definition ages (t : settings) (minted : string → Prop) (st st' : store) : Prop :=
  ∀ h s', sessions st' !! h = Some s' → minted h ∨
    ∃ s, sessions st !! h = Some s ∧ expires_at s' = expires_at s ∧
         (last_used s' = last_used s ∨ alive t s = true).

(** A recorded end the sweep would keep *)
Definition recorded (t : settings) (st : store) (ext : string) : Prop :=
  ∃ v, view_as_ended st !! ext = Some v ∧ ¬ (iadd v day < now t)%Z.
Definition viewing (st : store) (ext h : string) : Prop :=
  (∃ s, sessions st !! h = Some s ∧ view_as s ≠ EmptyString) ∧ session_bindings st !! ext = Some h.

(** A session that views the catalog as a role goes on, or its door ids are recorded *)
Definition remembers (t : settings) (st st' : store) : Prop :=
  (∀ ext h, viewing st ext h → viewing st' ext h ∨ recorded t st' ext) ∧
  (∀ ext, recorded t st ext → recorded t st' ext).

Lemma ages_refl t m st : ages t m st st.
Proof. intros h s' Hs'. right. exists s'. split_and!; [done..|by left]. Qed.
Lemma ages_trans t m st1 st2 st3 : ages t m st1 st2 → ages t m st2 st3 → ages t m st1 st3.
Proof.
  intros H12 H23 h s3 Hs3. destruct (H23 h s3 Hs3) as [Hm|(s2 & Hs2 & He3 & Hl3)]; [by left|].
  destruct (H12 h s2 Hs2) as [Hm|(s1 & Hs1 & He2 & Hl2)]; [by left|]. right. exists s1. split; [done|].
  split; [congruence|]. destruct Hl2 as [Hl2|Ha]; [|by right]. destruct Hl3 as [Hl3|Ha]; [left; congruence|].
  right. rw -Ha /alive /expired /stale He2 Hl2. done.
Qed.
Lemma ages_delete t m st st' h : sessions st' = delete h (sessions st) → ages t m st st'.
Proof. intros Heq h' s' Hs'. rw Heq in Hs'. apply lookup_delete_Some in Hs' as [_ Hs']. by apply ages_refl. Qed.
Lemma ages_same t m st st' : sessions st' = sessions st → ages t m st st'.
Proof. intros Heq h' s' Hs'. rw Heq in Hs'. by apply ages_refl. Qed.
Lemma ages_update t m st st' h s s' :
  sessions st !! h = Some s → sessions st' = <[h := s']> (sessions st) →
  expires_at s' = expires_at s → last_used s' = last_used s ∨ alive t s = true → ages t m st st'.
Proof.
  intros Hs Heq He Hl h' s1. rw Heq. intros [[<- <-]|[_ Hs1]]%lookup_insert_Some; [|by apply ages_refl].
  right. by exists s.
Qed.

Lemma remembers_refl t st : remembers t st st.
Proof. split; [by left|done]. Qed.
Lemma remembers_trans t st1 st2 st3 : remembers t st1 st2 → remembers t st2 st3 → remembers t st1 st3.
Proof.
  intros [H12 K12] [H23 K23]. split; [|by auto]. intros ext h [Hv|Hr]%H12; [by apply H23|right; by apply K23].
Qed.

(** The three parts the relations read are the same *)
Lemma remembers_same t st st' : same_store st st' → remembers t st st'.
Proof.
  intros [Hs Hb He]. split.
  - intros ext h Hv. left. move: Hv. by rw /viewing Hs Hb.
  - intros ext. by rw /recorded He.
Qed.
Lemma remembers_update t st st' h s s' :
  sessions st !! h = Some s → sessions st' = <[h := s']> (sessions st) → view_as s' = view_as s →
  session_bindings st' = session_bindings st → view_as_ended st' = view_as_ended st → remembers t st st'.
Proof.
  intros Hs Heq Hv Hb He. split; [|intros ext; by rw /recorded He].
  intros ext h' [[s1 [Hs1 Hv1]] Hbind]. left. split; [|by rw Hb]. rw Heq.
  destruct (decide (h = h')) as [<-|Hne]; [|exists s1; by rw lookup_insert_ne].
  exists s'. rw lookup_insert_eq Hv. split; [done|]. by rw Hs in Hs1; injection Hs1 as ->.
Qed.

Definition clock_ok (t : settings) : Prop := (0 ≤ now t < 4611686018427387904)%Z.

Lemma now_recorded t : clock_ok t → ¬ (iadd (now t) day < now t)%Z.
Proof. rw /clock_ok /iadd /day. intros Ht. rw i64_small; lia. Qed.

Lemma SessionClosed_recorded t h s how st :
  clock_ok t →
  (∀ ext, recorded t st ext → recorded t (closed_ t h s how st) ext) ∧
  (∀ ext, view_as s ≠ EmptyString → session_bindings st !! ext = Some h → recorded t (closed_ t h s how st) ext).
Proof.
  intros Ht. destruct (SessionClosed_fields t h s how st) as (_ & _ & H3 & _).
  assert (Hbound : ∀ ext, view_as s ≠ EmptyString → session_bindings st !! ext = Some h →
            recorded t (closed_ t h s how st) ext).
  { intros ext Hv Hb. exists (now t). split; [|by apply now_recorded]. rw H3.
    destruct (is_empty (view_as s)) eqn:Hempty; [by apply is_empty_spec in Hempty|].
    apply lookup_union_Some_l. rw lookup_fmap. rw (proj2 (map_lookup_filter_Some _ _ ext h)) //. }
  split; [|done]. intros ext (v & Hv & Hfresh).
  destruct (decide (view_as s = EmptyString)) as [Hempty|Hne].
  { exists v. rw H3 Hempty. done. }
  destruct (decide (session_bindings st !! ext = Some h)) as [Hb|Hb]; [by apply Hbound|].
  exists v. split; [|done]. rw H3. destruct (is_empty (view_as s)); [done|].
  rw lookup_union_r //. rw lookup_fmap fmap_None map_lookup_filter_None.
  right. intros x Hx Hxh. simpl in Hxh. by subst x.
Qed.

Lemma remembers_end_seat t h s how st :
  clock_ok t → sessions st !! h = Some s → remembers t st (end_seat_ t h s how st).
Proof.
  intros Ht Hs. destruct (SessionClosed_recorded t h s how st Ht) as [Hkeep Hbound]. split; [|exact Hkeep].
  intros ext h' [[s' [Hs' Hv]] Hb]. destruct (decide (h = h')) as [<-|Hne].
  - right. rw Hs in Hs'. injection Hs' as <-. by apply Hbound.
  - destruct (SessionClosed_fields t h s how st) as (H1 & H2 & _). left. split.
    + exists s'. split; [|done]. rw end_seat_sessions. by rw lookup_delete_ne.
    + by rw /end_seat /= H2.
Qed.

(** Bindings may go when their session is not seated *)
Lemma remembers_bindings t st b :
  (∀ ext h, session_bindings st !! ext = Some h → is_Some (sessions st !! h) → b !! ext = Some h) →
  remembers t st (with_bindings b st).
Proof.
  intros Hb. split; [|done]. intros ext h [[s [Hs Hv]] Hbind]. left. split; [by exists s|].
  apply Hb; [done|by exists s].
Qed.

Lemma end_seat_bindings t h s how st : session_bindings (end_seat_ t h s how st) = session_bindings st.
Proof. rw /end_seat /=. by destruct (SessionClosed_fields t h s how st) as (_ & -> & _). Qed.

(** A piece of an operation that ages sessions and remembers *)
Definition evolves (t : settings) (m : string → Prop) (st st' : store) : Prop := ages t m st st' ∧ remembers t st st'.
Lemma evolves_refl t m st : evolves t m st st.
Proof. split; [apply ages_refl|apply remembers_refl]. Qed.
Lemma evolves_trans t m st1 st2 st3 : evolves t m st1 st2 → evolves t m st2 st3 → evolves t m st1 st3.
Proof. intros [A12 R12] [A23 R23]. split; [by eapply ages_trans|by eapply remembers_trans]. Qed.
Lemma evolves_same t m st st' : same_store st st' → evolves t m st st'.
Proof. intros Hs. split; [by apply ages_same, ss_sessions|by apply remembers_same]. Qed.
Lemma evolves_end_seat t m h s how st :
  clock_ok t → sessions st !! h = Some s → evolves t m st (end_seat_ t h s how st).
Proof. intros Ht Hs. split; [by apply (ages_delete _ _ _ _ h), end_seat_sessions|by apply remembers_end_seat]. Qed.
Lemma evolves_update t m st h s s' :
  sessions st !! h = Some s → expires_at s' = expires_at s → last_used s' = last_used s ∨ alive t s = true →
  view_as s' = view_as s → evolves t m st (update h s' st).
Proof.
  intros. split; [by apply (ages_update _ _ _ _ h s s')|by apply (remembers_update _ _ _ h s s')].
Qed.
Lemma evolves_bindings t m st b :
  (∀ ext h, session_bindings st !! ext = Some h → is_Some (sessions st !! h) → b !! ext = Some h) →
  evolves t m st (with_bindings b st).
Proof. intros Hb. split; [by apply ages_same|by apply remembers_bindings]. Qed.

Lemma evolves_by_id t m i f st :
  (∀ s, expires_at (f s) = expires_at s ∧ last_used (f s) = last_used s ∧ view_as (f s) = view_as s) →
  evolves t m st (update_by_id i f st).2.
Proof.
  intros Hf. rw /update_by_id. destruct (by_id i st) as [[h s]|] eqn:Hb; [|apply evolves_refl].
  apply by_id_some in Hb as [Hs _]. destruct (Hf s) as (? & ? & ?). by apply (evolves_update t m st h s); auto.
Qed.

Lemma evolves_sweep_sessions t m entries removed st :
  clock_ok t → NoDup entries.*1 → (∀ h s, (h, s) ∈ entries → sessions st !! h = Some s) →
  evolves t m st (sweep_sessions level_value blank audited instance_level t entries removed st).2.
Proof.
  intros Ht. revert removed st. induction entries as [|[h s] entries IH]; intros removed st Hnd Hin; [apply evolves_refl|].
  apply NoDup_cons in Hnd as [Hh Hnd]. simpl. destruct (expired t s || stale t s).
  - eapply evolves_trans; [apply evolves_end_seat; [done|apply Hin; left]|]. apply IH; [done|].
    intros h' s' Hin'. rw end_seat_sessions lookup_delete_ne; [|apply Hin; by right].
    intros ->. apply Hh. apply list_elem_of_fmap. by exists (h', s').
  - apply IH; [done|]. intros h' s' Hin'. apply Hin. by right.
Qed.

(** The sweep keeps exactly the sessions judged alive *)
Lemma sweep_sessions_alive t entries removed st h :
  NoDup entries.*1 → (∀ h s, (h, s) ∈ entries → sessions st !! h = Some s) →
  sessions (sweep_sessions level_value blank audited instance_level t entries removed st).2 !! h =
  match sessions st !! h with
  | Some s => if negb (alive t s) && bool_decide (h ∈ entries.*1) then None else Some s
  | None => None
  end.
Proof.
  revert removed st. induction entries as [|[h' s'] entries IH]; intros removed st Hnd Hin.
  { simpl. destruct (sessions st !! h); [|done]. by rw andb_false_r. }
  apply NoDup_cons in Hnd as [Hh Hnd].
  assert (Hs' : sessions st !! h' = Some s') by (apply Hin; left).
  assert (Hdead : expired t s' || stale t s' = negb (alive t s')) by by rw /alive negb_andb !negb_involutive.
  simpl. rw Hdead. destruct (negb (alive t s')) eqn:Ha.
  - rw IH //.
    + intros h1 s1 Hin1. rw end_seat_sessions lookup_delete_ne; [|apply Hin; by right].
      intros ->. apply Hh. apply list_elem_of_fmap. by exists (h1, s1).
    + rw end_seat_sessions. destruct (decide (h' = h)) as [->|Hne].
      * rw lookup_delete_eq Hs' Ha bool_decide_eq_true_2 //. left.
      * rw lookup_delete_ne //. destruct (sessions st !! h); [|done].
        rw (bool_decide_ext (h ∈ h' :: entries.*1) (h ∈ entries.*1)) //. set_solver.
  - rw IH //; [intros h1 s1 Hin1; apply Hin; by right|].
    destruct (sessions st !! h) as [s|] eqn:Hs; [|done].
    destruct (decide (h' = h)) as [->|Hne].
    + rw Hs in Hs'. injection Hs' as ->. by rw Ha.
    + rw (bool_decide_ext (h ∈ h' :: entries.*1) (h ∈ entries.*1)) //. set_solver.
Qed.

Lemma SweepLocked_alive t st h :
  sessions (SweepLocked level_value blank audited instance_level t st).2 !! h =
  match sessions st !! h with Some s => if alive t s then Some s else None | None => None end.
Proof.
  rw /SweepLocked. pose proof (sweep_sessions_alive t (map_to_list (sessions st)) 0 st h) as Hs.
  destruct (sweep_sessions _ _ _ _ _ _ _ _) as [removed st']. simpl in *. rw Hs.
  - apply NoDup_fst_map_to_list.
  - intros h1 s1. apply elem_of_map_to_list.
  - destruct (sessions st !! h) as [s|] eqn:Hh; [|done]. rw bool_decide_eq_true_2.
    + apply list_elem_of_fmap. exists (h, s). split; [done|by apply elem_of_map_to_list].
    + by destruct (alive t s).
Qed.

Lemma evolves_SweepLocked t m st :
  clock_ok t → evolves t m st (SweepLocked level_value blank audited instance_level t st).2.
Proof.
  intros Ht. rw /SweepLocked. pose proof (evolves_sweep_sessions t m (map_to_list (sessions st)) 0 st Ht) as Hm.
  destruct (sweep_sessions _ _ _ _ _ _ _ _) as [removed st'].
  eapply evolves_trans; [apply Hm|]; simpl.
  { apply NoDup_fst_map_to_list. }
  { intros h s. apply elem_of_map_to_list. }
  eapply evolves_trans; [apply (evolves_bindings t m st' (filter (λ b : string * string, is_Some (sessions st' !! b.2)) (session_bindings st')))|].
  - intros ext h Hb Hs. by apply map_lookup_filter_Some_2.
  - split; [by apply ages_same|]. split; [by left|].
    intros ext (v & Hv & Hfresh). exists v. split; [|done]. by apply map_lookup_filter_Some_2.
Qed.

Lemma evolves_Flush t m st : evolves t m st (Flush_ st).
Proof. apply evolves_same, Flush_same. Qed.
Lemma evolves_emit t m e st : evolves t m st (emit_ e st).
Proof. apply evolves_same, emit_same. Qed.

Lemma evolves_SessionOpen t rq st :
  clock_ok t → sessions st !! fresh_handle rq = None →
  evolves t (λ h, h = fresh_handle rq) st
    (SessionOpen level_value blank audited instance_level observer_calls max_sessions env t rq st).2.
Proof.
  intros Ht Hh. set m := λ h, h = fresh_handle rq. rw /SessionOpen.
  assert (Hbody : evolves t m st (SessionOpenBody level_value blank audited instance_level max_sessions env t rq st).2).
  { rw /SessionOpenBody. set draining_now := negb (despite_drain rq) && draining st. clearbody draining_now.
    destruct (draining_now && negb (one_call rq)); [apply evolves_emit|].
    destruct (verify_token level_value blank audited instance_level env rq st) as [[[p exp]|result] st1] eqn:Hv;
      pose proof (verify_token_same _ _ _ _ Hv) as Hs1; [|by apply evolves_same].
    eapply evolves_trans; [by apply evolves_same|].
    destruct (draining_now && negb (MayOperate env p)); [apply evolves_emit|].
    destruct (ResolveResourceLimits env p) as [l|message]; [|apply evolves_refl].
    destruct (negb (admitted l)); [apply evolves_emit|]. rw /seat.
    set swept := (if _ || _ then _ else st1).
    assert (Hswept : evolves t m st1 swept) by (rw /swept; destruct (_ || _); [by apply evolves_SweepLocked|apply evolves_refl]).
    assert (Hnone : sessions swept !! fresh_handle rq = None).
    { rw /swept. destruct (_ || _); [apply SweepLocked_keeps|]; by rw (ss_sessions _ _ Hs1). }
    clearbody swept. eapply evolves_trans; [exact Hswept|].
    destruct ((0 <? max_sessions)%Z && _); [apply evolves_emit|].
    destruct (negb (is_empty (charged l)) && _); [apply evolves_emit|].
    match goal with |- context [emit audited ?e swept] => pose proof (emit_same e swept) as [E1 E2 E3];
      set st2 := emit audited e swept in E1, E2, E3 |- * end.
    split; cbn [snd].
    - intros h s' Hs'. rw /= E1 in Hs'. apply lookup_insert_Some in Hs' as [[<- _]|[_ Hs']]; [by left|]. by apply ages_refl.
    - split.
      + intros ext h [[s [Hs Hview]] Hb]. left. split; [|by rw /= E2]. exists s. split; [|done].
        rw /= E1 lookup_insert_ne //. intros <-. by rw Hnone in Hs.
      + intros ext. by rw /recorded /= E3. }
  destruct (SessionOpenBody _ _ _ _ _ _ _ _ _) as [result st1]. simpl in Hbody.
  eapply evolves_trans; [exact Hbody|].
  destruct result as [h i| | |so_far message]; cbn [snd].
  - eapply evolves_trans; [apply evolves_same, Opened_same|apply evolves_Flush].
  - apply evolves_Flush.
  - apply evolves_Flush.
  - destruct (String.eqb (at_door rq) "session"); [apply evolves_Flush|].
    eapply evolves_trans; [apply evolves_emit|apply evolves_Flush].
Qed.

Lemma evolves_SessionPrincipal t m h st :
  clock_ok t → evolves t m st (SessionPrincipal level_value blank audited instance_level observer_calls t h st).2.
Proof.
  intros Ht. rw /SessionPrincipal. destruct (sessions st !! h) as [s|] eqn:Hs; [|apply evolves_Flush].
  destruct (expired t s) eqn:He; [|destruct (stale t s) eqn:Hst]; simpl.
  - eapply evolves_trans; [by apply evolves_end_seat|apply evolves_Flush].
  - eapply evolves_trans; [by apply evolves_end_seat|apply evolves_Flush].
  - eapply evolves_trans; [|apply evolves_Flush]. apply (evolves_update t m st h s); try done.
    right. by rw /alive He Hst.
Qed.

Lemma evolves_known t m h st :
  clock_ok t → evolves t m st (known level_value blank audited instance_level observer_calls t h st).2.
Proof.
  intros Ht. rw /known. pose proof (evolves_SessionPrincipal t m h st Ht) as Hm.
  by destruct (SessionPrincipal _ _ _ _ _ t h st).
Qed.

Lemma evolves_optional t m h how st :
  clock_ok t → evolves t m st (match sessions st !! h with Some s => end_seat_ t h s how st | None => st end).
Proof. intros Ht. destruct (sessions st !! h) eqn:Hs; [by apply evolves_end_seat|apply evolves_refl]. Qed.

Lemma optional_gone t h how st :
  sessions (match sessions st !! h with Some s => end_seat_ t h s how st | None => st end) !! h = None.
Proof. destruct (sessions st !! h) eqn:Hs; [|done]. by rw end_seat_sessions lookup_delete_eq. Qed.

(** Bindings to a session that is not seated *)
Lemma evolves_drop_bindings t m h st :
  sessions st !! h = None → evolves t m st (drop_bindings h st).
Proof.
  intros Hh. apply evolves_bindings. intros ext h' Hb [s Hs]. apply map_lookup_filter_Some_2; [done|].
  simpl. intros ->. by rw Hh in Hs.
Qed.

Lemma closed_all_recorded t (entries : list (string * Session)) st :
  clock_ok t →
  (∀ ext, recorded t st ext → recorded t (fold_left (λ st e, closed_ t e.1 e.2 "door_stopped" st) entries st) ext) ∧
  (∀ ext h s, (h, s) ∈ entries → view_as s ≠ EmptyString → session_bindings st !! ext = Some h →
     recorded t (fold_left (λ st e, closed_ t e.1 e.2 "door_stopped" st) entries st) ext).
Proof.
  intros Ht. revert st. induction entries as [|[h s] entries IH]; intros st; [split; [done|]; intros ????; set_solver|].
  destruct (SessionClosed_recorded t h s "door_stopped" st Ht) as [Hkeep Hbound].
  destruct (SessionClosed_fields t h s "door_stopped" st) as (_ & Hb & _).
  destruct (IH (closed_ t h s "door_stopped" st)) as [IHk IHb]. split.
  - intros ext Hr. by apply IHk, Hkeep.
  - intros ext h' s' [[= <- <-]|Hin]%elem_of_cons Hv Hbind; [by apply IHk, Hbound|].
    apply (IHb ext h' s'); [done..|by rw Hb].
Qed.

Lemma evolves_close_all t m st :
  clock_ok t → evolves t m st (SessionCloseAll level_value blank audited instance_level observer_calls t st).2.
Proof.
  intros Ht. rw /SessionCloseAll. eapply evolves_trans; [|apply evolves_Flush].
  destruct (closed_all_recorded t (map_to_list (sessions st)) st Ht) as [Hkeep Hbound].
  split; [|split; [|exact Hkeep]].
  - intros h s Hs. by rw /= lookup_empty in Hs.
  - intros ext h [[s [Hs Hv]] Hb]. right. apply (Hbound ext h s); [by apply elem_of_map_to_list|done..].
Qed.

Definition is_view_as (op : operation) : bool := match op with Op_view_as _ _ => true | _ => false end.
Definition mints (op : operation) (h : string) : Prop :=
  match op with Op_open rq => h = fresh_handle rq | _ => False end.

Lemma perform_evolves used t op st :
  clock_ok t → fresh op used st → is_view_as op = false → evolves t (mints op) st (perform t op st).
Proof.
  intros Ht Hfresh Hop.
  destruct op as [rq|h|h|h sql cid tp lp lr lj| |ext how|i|h|ext h| |i vc sc|i role|i level|i level
    |i name value|i stream|h|h|h|value|dr code reason|dr h code reason|dr h refused code what]; simpl.
  - destruct Hfresh as [Hh _]. by apply evolves_SessionOpen.
  - by apply evolves_SessionPrincipal.
  - rw /SessionTouch. destruct (sessions st !! h) as [s|] eqn:Hs; [|apply evolves_refl].
    destruct (expired t s) eqn:He; [apply evolves_refl|]. destruct (stale t s) eqn:Hst; [apply evolves_refl|].
    apply (evolves_update t _ st h s); try done. right. by rw /alive He Hst.
  - rw /SessionSql. destruct (sessions st !! h) as [s|] eqn:Hs; [|apply evolves_refl].
    destruct (expired t s) eqn:He; [apply evolves_refl|]. destruct (stale t s) eqn:Hst; [apply evolves_refl|].
    apply (evolves_update t _ st h s); try done. right. by rw /alive He Hst.
  - rw /SessionSweep. pose proof (evolves_SweepLocked t (λ _, False) st Ht) as Hm.
    destruct (SweepLocked _ _ _ _ t st). eapply evolves_trans; [exact Hm|apply evolves_Flush].
  - rw /SessionEndBound. eapply evolves_trans; [|apply evolves_Flush].
    destruct (session_bindings st !! ext) as [h|] eqn:Hb; [|apply evolves_refl].
    eapply evolves_trans; [by apply (evolves_optional t _ h how)|]. apply evolves_bindings.
    intros ext' h' Hb' [s Hs]. rw lookup_delete_ne //. intros <-.
    assert (Hbs : session_bindings (match sessions st !! h with Some s => end_seat_ t h s how st | None => st end)
                  = session_bindings st) by (destruct (sessions st !! h); [apply end_seat_bindings|done]).
    rw Hbs Hb in Hb'. injection Hb' as <-. by rw optional_gone in Hs.
  - rw /SessionKill. destruct (by_id i st) as [[h s]|] eqn:Hb; [|apply evolves_Flush].
    apply by_id_some in Hb as [Hs _]. eapply evolves_trans; [by apply (evolves_end_seat t _ h s "killed")|].
    eapply evolves_trans; [|apply evolves_Flush]. apply evolves_drop_bindings. by rw end_seat_sessions lookup_delete_eq.
  - rw /SessionClose. eapply evolves_trans; [by apply (evolves_optional t _ h "client")|].
    eapply evolves_trans; [|apply evolves_Flush]. apply evolves_drop_bindings, optional_gone.
  - rw /SessionBind. eapply evolves_trans; [|apply evolves_Flush].
    destruct (session_bindings st !! ext) as [h'|] eqn:Hb.
    + destruct (String.eqb_spec h' h) as [->|Hne].
      { apply evolves_bindings. intros ext' h' Hb' _. destruct (decide (ext = ext')) as [<-|Hne].
        - rw lookup_insert_eq. congruence.
        - by rw lookup_insert_ne. }
      eapply evolves_trans; [by apply (evolves_optional t _ h' "client")|]. apply evolves_bindings.
      assert (Hbs : session_bindings (match sessions st !! h' with Some s => end_seat_ t h' s "client" st | None => st end)
                  = session_bindings st) by (destruct (sessions st !! h'); [apply end_seat_bindings|done]).
      intros ext' h1 Hb' [s Hs]. rw lookup_insert_ne //. intros <-. rw Hbs Hb in Hb'. injection Hb' as <-.
      by rw optional_gone in Hs.
    + apply evolves_bindings. intros ext' h' Hb' _. rw lookup_insert_ne //. intros <-. by rw Hb in Hb'.
  - by apply evolves_close_all.
  - by apply evolves_by_id.
  - done.
  - by apply evolves_by_id.
  - by apply evolves_by_id.
  - rw /SetSessionTrace. destruct (by_id i st) as [[h s]|] eqn:Hb; [|apply evolves_refl].
    apply by_id_some in Hb as [Hs _]. destruct (set_trace name value s) as [s'|] eqn:Htr; [|apply evolves_refl].
    apply (evolves_update t _ st h s); try done; move: Htr; rw /set_trace; repeat case_match; intros [= <-]; auto.
  - rw /NoteSessionDrain. destruct (is_empty i); [apply evolves_refl|by apply evolves_by_id].
  - rw /TakeSessionDrain. destruct (sessions st !! h) as [s|] eqn:Hs; [|apply evolves_refl].
    apply (evolves_update t _ st h s); auto.
  - rw /SessionMarkPerCall. destruct (sessions st !! h) as [s|] eqn:Hs; [|apply evolves_refl].
    apply (evolves_update t _ st h s); auto.
  - rw /SessionMarkDeclaredViewAs. destruct (sessions st !! h) as [s|] eqn:Hs; [|apply evolves_refl].
    apply (evolves_update t _ st h s); auto.
  - by apply evolves_same.
  - apply evolves_emit.
  - rw /AuditSessionRefusedOf. pose proof (evolves_known t (λ _, False) h st Ht) as Hm.
    destruct (known _ _ _ _ _ t h st). eapply evolves_trans; [exact Hm|apply evolves_emit].
  - rw /AuditSessionMove. pose proof (evolves_known t (λ _, False) h st Ht) as Hm.
    destruct (known _ _ _ _ _ t h st). eapply evolves_trans; [exact Hm|apply evolves_emit].
Qed.

(** ** The properties *)

(** C4: every session is accounted for.  Whatever operations made the store, the audit's [opened]
    events are, each once, the sessions seated and those of the closing events: no session is opened
    twice, ends twice or disappears without an event. *)
Theorem sessions_are_accounted (observed : bool) (used : gset string) (st : store) :
  audited = true → history observed used st →
  opened_ids (emitted st) ≡ₚ closed_ids (emitted st) ++ seated_ids st ∧
  NoDup (opened_ids (emitted st)).
Proof.
  intros Ha Hh%history_moves.
  destruct (moves_accounted ∅ used (new_store observed) st Ha Hh) as [Hb _ Ho].
  - split; simpl; [|set_solver|constructor]. by rw fmap_empty map_to_list_empty.
  - by rw seated_ids_seats in Hb.
Qed.

(** C26: the store keeps its contract with the observers.  After any operations on a store with
    observers, a seated session's open was heard and its close was not; a session that ended was heard to
    close, once, after its open; no open is heard twice, and nothing is left to deliver. *)
Theorem observers_follow_the_store (used : gset string) (st : store) :
  history true used st →
  (∀ h s, sessions st !! h = Some s → Open (id s) ∈ heard st ∧ ∀ how, Close (id s) how ∉ heard st) ∧
  (∀ i, Open i ∈ heard st → (∀ h s, sessions st !! h = Some s → id s ≠ i) →
     ∃ how, Close i how ∈ heard st) ∧
  (∀ k i how, heard st !! k = Some (Close i how) → ∃ j, j < k ∧ heard st !! j = Some (Open i)) ∧
  NoDup (map fst (delivered (heard st))) ∧
  NoDup (omap (λ d, match d with Open i => Some i | Close _ _ => None end) (heard st)) ∧
  closes (notices st) = [].
Proof.
  intros Hist. pose proof (history_delivered used st Hist) as Hclosed.
  destruct (moves_observed _ _ _ _ _ (history_moves _ _ _ Hist) observed_start) as [n [Hr Hn Hl Hf Ho Hd Hb Hs Hdi He]].
  destruct (reachable_ok n Hr) as [_ _ _ Hset Hdef Hp Hnd Hall Hbeg Hop Hord].
  simpl in Hn, Hl. rw Hl in Hset, Hord, Hop, Hbeg. rw /pending Hl concat_nil // Hn Hclosed !app_nil_r in Hp, Hnd, Hall.
  split; [|split; [|split; [exact Hord|split; [exact Hnd|split; [exact Hop|exact Hclosed]]]]].
  - intros h s Hseat. destruct (Hs h (id s)) as [Hbn Hcn]; [by rw /= lookup_fmap Hseat|].
    split; [apply Hset; [done|by rw Hd]|]. intros how Hc.
    destruct (Hp (id s) how) as (Hc' & _ & _); [|by rw Hcn in Hc'].
    apply list_elem_of_omap. by exists (Close (id s) how).
  - intros i Hopen Hno. destruct (Hbeg i Hopen) as [Hbn _].
    destruct (He i Hbn) as [[h Hseat]|[how Hc]].
    { rw /= lookup_fmap in Hseat. apply fmap_Some in Hseat as (s & Hseat & ->). by destruct (Hno h s). }
    exists how. destruct (Hall i how Hc) as [_ [Hw|Hw]].
    + destruct (Hdef i how) as [Hin _]; [by rw Hn|]. rw Ho in Hin. set_solver.
    + apply list_elem_of_omap in Hw as ([x|x r] & Hx & Hxe); [done|]. by injection Hxe as -> ->.
Qed.

(** The same settings, later *)
Definition later (t t' : settings) : Prop :=
  (now t ≤ now t')%Z ∧ skew t' = skew t ∧ idle t' = idle t ∧ exp_binds t' = exp_binds t.

Lemma SessionAlive_alive t h st :
  SessionAlive t h st = match sessions st !! h with Some s => alive t s | None => false end.
Proof. rw /SessionAlive /alive. destruct (sessions st !! h) as [s|]; [|done]. by destruct (expired t s), (stale t s). Qed.

Lemma perform_ages used t op st :
  clock_ok t → fresh op used st → ages t (mints op) st (perform t op st).
Proof.
  intros Ht Hfresh. destruct (is_view_as op) eqn:Hop; [|by destruct (perform_evolves used t op st Ht Hfresh Hop)].
  destruct op as [| | | | | | | | | | |i role| | | | | | | | | | |]; try done. simpl. rw /SessionViewAs /update_by_id.
  destruct (by_id i st) as [[h s]|] eqn:Hb; [|apply ages_refl]. apply by_id_some in Hb as [Hs _].
  by apply (ages_update _ _ _ _ h s (set_view_as role s)); auto.
Qed.

Lemma alive_later t t' s : alive t s = false → later t t' → alive t' s = false.
Proof.
  rw /alive !andb_false_iff !negb_false_iff. intros [He|Hs] (Hnow & Hsk & Hid & Hex).
  - left. by apply (expired_later t t').
  - right. by apply (stale_later t t').
Qed.

Lemma dead_stays_dead used t t' h op st :
  clock_ok t → fresh op used st → SessionAlive t h st = false → ¬ mints op h → later t t' →
  SessionAlive t' h (perform t op st) = false.
Proof.
  intros Ht Hfresh Hdead Hmint Hlater. rw SessionAlive_alive. rw SessionAlive_alive in Hdead.
  destruct (sessions (perform t op st) !! h) as [s'|] eqn:Hs'; [|done].
  destruct (perform_ages used t op st Ht Hfresh h s' Hs') as [|(s & Hs & He & Hl)]; [done|].
  rw Hs in Hdead. destruct Hl as [Hl|Ha]; [|congruence].
  apply (alive_later t t'); [|done]. rw -Hdead /alive /expired /stale He Hl. done.
Qed.

(** the judges agree, and the dead stay dead.  Every reader of a session judges it alike: alive,
    the reason, the touch, the principal, the prefix and the sweep; a session judged dead is ended with
    that reason by the readers that end sessions, and no operation of the store - a touch no more than
    any other - makes it live again at any later time. *)
Theorem judges_agree (t : settings) (h sql cid tp lp lr lj : string) (st : store) :
  let why := SessionReason t h st in
  let ask := SessionPrincipal level_value blank audited instance_level observer_calls t h st in
  (SessionAlive t h st = true ↔ why = "live") ∧
  (SessionTouch t h st).1 = SessionAlive t h st ∧
  match ask.1 with
  | inl p => why = "live" ∧ principal <$> (sessions st !! h) = Some p ∧
             sessions ask.2 !! h = set_last_used (now t) <$> (sessions st !! h)
  | inr reason => reason = why ∧ why ≠ "live" ∧ sessions ask.2 !! h = None
  end ∧
  ((SessionSql t h sql cid tp lp lr lj st).1 = EmptyString ↔ why ≠ "live") ∧
  (∀ h', sessions (SessionSweep level_value blank audited instance_level observer_calls t st).2 !! h' =
         if SessionAlive t h' st then sessions st !! h' else None) ∧
  (clock_ok t → SessionAlive t h st = false →
   ∀ used op t', fresh op used st → ¬ mints op h → later t t' → SessionAlive t' h (perform t op st) = false).
Proof.
  intros why ask. split; [|split; [|split; [|split; [|split]]]].
  - rw /why /SessionAlive /SessionReason. destruct (sessions st !! h) as [s|]; [|done].
    by destruct (expired t s), (stale t s).
  - rw /SessionTouch /SessionAlive. destruct (sessions st !! h) as [s|]; [|done].
    by destruct (expired t s), (stale t s).
  - rw /ask /SessionPrincipal /why /SessionReason. destruct (sessions st !! h) as [s|] eqn:Hs; simpl.
    2: { split_and!; [done..|]. by rw (ss_sessions _ _ (Flush_same st)). }
    destruct (expired t s) eqn:He; [|destruct (stale t s) eqn:Hst]; simpl; split_and!; try done;
      rw (ss_sessions _ _ (Flush_same _)) ?end_seat_sessions ?lookup_delete_eq //.
    by rw /bump /= lookup_insert_eq.
  - rw /SessionSql /why /SessionReason. destruct (sessions st !! h) as [s|]; [|done].
    by destruct (expired t s), (stale t s).
  - intros h'. rw SessionAlive_alive. rw /SessionSweep. pose proof (SweepLocked_alive t st h') as Hsw.
    destruct (SweepLocked _ _ _ _ t st) as [removed st']. rw /= (ss_sessions _ _ (Flush_same st')) Hsw.
    destruct (sessions st !! h') as [s|]; [|done]. by destruct (alive t s).
  - intros Ht Hdead used op t' Hfresh Hm Hl. by apply (dead_stays_dead used t).
Qed.

(** An open that seats: the token, the drain and the limits were passed, and [seat] seated it *)
Lemma SessionOpen_seated t rq st st' h i :
  SessionOpen level_value blank audited instance_level observer_calls max_sessions env t rq st = (Ok (Seated h i), st') →
  ∃ p exp st0 st1 l, sessions st0 = sessions st ∧
    (draining st = true → despite_drain rq = false → one_call rq = true ∧ MayOperate env p = true) ∧
    ResolveResourceLimits env p = Ok l ∧ admitted l = true ∧
    seat level_value blank audited instance_level max_sessions t rq p exp
      (if audited then LevelForSession env p (at_door rq) else None) l
      (negb (despite_drain rq) && draining st) st0 = (Seated h i, st1) ∧
    sessions st' = sessions st1.
Proof.
  rw /SessionOpen.
  destruct (SessionOpenBody level_value blank audited instance_level max_sessions env t rq st) as [result st1] eqn:Hbody.
  intros Heq.
  assert (Hseat : result = Seated h i ∧ sessions st' = sessions st1).
  { destruct result as [h0 i0| |refusal gs|so_far message].
    - injection Heq as <- <- <-. split; [done|]. by rw (ss_sessions _ _ (Flush_same _)) (ss_sessions _ _ (Opened_same _ _)).
    - done.
    - done.
    - by destruct (String.eqb (at_door rq) "session"). }
  destruct Hseat as [-> Hst']. clear Heq. move: Hbody. rw /SessionOpenBody.
  set draining_now := negb (despite_drain rq) && draining st.
  destruct (draining_now && negb (one_call rq)) eqn:Hd1; [done|].
  destruct (verify_token level_value blank audited instance_level env rq st) as [[[p exp]|result] st0] eqn:Hv.
  2: { intros [= -> ->]. exfalso. move: Hv. rw /verify_token. repeat (case_match; simplify_eq/=; try done). }
  pose proof (verify_token_same _ _ _ _ Hv) as [Hs0 _ _].
  destruct (draining_now && negb (MayOperate env p)) eqn:Hd2; [done|].
  destruct (ResolveResourceLimits env p) as [l|] eqn:Hl; [|done].
  destruct (negb (admitted l)) eqn:Had; [done|]. apply negb_false_iff in Had. intros Hseat.
  exists p, exp, st0, st1, l. split_and!; try done.
  intros Hdr Hde. rw /draining_now Hdr Hde /= in Hd1, Hd2. by apply negb_false_iff in Hd1, Hd2.
Qed.

(** C27: what an open may do.  A session is seated only for a principal this node places, while the
    node does not drain - or, draining, for one call of a principal who may operate it -, within the
    node's cap and its group's, the session it replaces not counted; it is the one the request minted,
    and no session that was alive is ended to make room. *)
Theorem open_seats_within_bounds (t : settings) (rq : open_request) (st st' : store) (h i : string) :
  sessions st !! fresh_handle rq = None → replacing rq ≠ fresh_handle rq →
  SessionOpen level_value blank audited instance_level observer_calls max_sessions env t rq st = (Ok (Seated h i), st') →
  ∃ p s, h = fresh_handle rq ∧ i = fresh_id rq ∧ sessions st' !! h = Some s ∧ id s = i ∧ principal s = p ∧
    ResolveResourceLimits env p = Ok (limits s) ∧ admitted (limits s) = true ∧
    (draining st = true → despite_drain rq = false → one_call rq = true ∧ MayOperate env p = true) ∧
    ((0 < max_sessions)%Z →
       (Z.of_nat (size (delete (replacing rq) (sessions st'))) ≤ max_sessions)%Z) ∧
    (charged (limits s) ≠ EmptyString →
       (N.of_nat (charged_live (charged (limits s)) (replacing rq) (sessions st')) ≤ charged_max (limits s))%N) ∧
    (∀ h' s', sessions st !! h' = Some s' → SessionAlive t h' st = true → sessions st' !! h' = Some s').
Proof.
  intros Hnone Hrep Hopen.
  destruct (SessionOpen_seated t rq st st' h i Hopen) as (p & exp & st0 & st1 & l & Hs0 & Hdrain & Hl & Had & Hseat & Hst').
  move: Hseat. rw /seat.
  set swept := (if _ || _ then _ else st0).
  assert (Hswept : ∀ h', sessions swept !! h' = sessions st !! h' ∨
            sessions swept !! h' = None ∧ SessionAlive t h' st = false).
  { intros h'. rw /swept. destruct (_ || _); [|left; by rw Hs0]. rw SweepLocked_alive SessionAlive_alive Hs0.
    destruct (sessions st !! h') as [s'|]; [|by left]. destruct (alive t s'); [by left|by right]. }
  clearbody swept.
  assert (Hnone' : sessions swept !! fresh_handle rq = None) by (destruct (Hswept (fresh_handle rq)) as [->|[-> _]]; done).
  match goal with |- context [(0 <? max_sessions)%Z && ?c] => destruct ((0 <? max_sessions)%Z && c) eqn:Hcap; [done|] end.
  match goal with |- context [negb (is_empty (charged l)) && ?c] =>
    destruct (negb (is_empty (charged l)) && c) eqn:Hgroup; [done|] end.
  intros [= <- <- Hst1]. subst st1.
  match type of Hst' with context [emit audited ?e swept] => pose proof (emit_same e swept) as [E1 _ _] end.
  rw /= E1 in Hst'.
  set s := new_session p (fresh_id rq) exp (now t) (at_door rq) (if audited then LevelForSession env p (at_door rq) else None) l.
  exists p, s. rw Hst'. split_and!; try done.
  - by rw lookup_insert_eq.
  - intros Hpos. apply andb_false_iff in Hcap as [Hcap|Hcap]; [apply Z.ltb_ge in Hcap; lia|].
    apply Z.leb_gt in Hcap. rw delete_insert_ne // map_size_insert_None; [by rw lookup_delete_ne|].
    destruct (sessions swept !! replacing rq) as [sr|] eqn:Hr.
    + rw map_size_delete Hr /=. rw bool_decide_eq_true_2 // andb_true_r in Hcap.
      destruct (is_empty (replacing rq)); simpl in Hcap; lia.
    + rw delete_id //. rw bool_decide_eq_false_2 ?andb_false_r in Hcap; [by intros [x Hx]|]. lia.
  - intros Hne. apply andb_false_iff in Hgroup as [Hgroup|Hgroup].
    { by apply negb_false_iff, is_empty_spec in Hgroup. }
    apply N.leb_gt in Hgroup. rw /charged_live in Hgroup |- *. rw map_filter_insert_True /=; [done|].
    rw map_size_insert_None; [|simpl; lia]. apply map_lookup_filter_None. by left.
  - intros h' s' Hs' Hal. rw lookup_insert_ne; [intros <-; by rw Hnone in Hs'|].
    destruct (Hswept h') as [->|[_ Hd]]; [done|congruence].
Qed.

(** a view-as that ended is remembered.  When a session that views the catalog as a role is no
    longer seated after an operation, however it ended, every door id bound to it is one the store
    reports as ended; and a recorded end is reported for a day, whatever happens meanwhile. *)
Theorem view_as_end_is_remembered (used : gset string) (t : settings) (op : operation) (st : store)
    (h ext : string) (s : Session) :
  clock_ok t → fresh op used st →
  (sessions st !! h = Some s → view_as s ≠ EmptyString → session_bindings st !! ext = Some h →
   sessions (perform t op st) !! h = None → SessionViewAsEnded ext (perform t op st) = true) ∧
  (∀ at_, view_as_ended st !! ext = Some at_ → (0 ≤ at_)%Z → (now t ≤ at_ + day)%Z → (at_ < 4611686018427387904)%Z →
     SessionViewAsEnded ext (perform t op st) = true).
Proof.
  intros Ht Hfresh.
  assert (Hrec : ∀ st', recorded t st' ext → SessionViewAsEnded ext st' = true).
  { intros st' (v & Hv & _). apply bool_decide_eq_true. by exists v. }
  destruct (is_view_as op) eqn:Hop.
  - destruct op as [| | | | | | | | | | |i role| | | | | | | | | | |]; try done. simpl. rw /SessionViewAs /update_by_id.
    destruct (by_id i st) as [[h' s']|] eqn:Hb.
    + split.
      * intros Hs _ _ Hnone. rw /update /= in Hnone. apply lookup_insert_None in Hnone as [Hnone _]. by rw Hs in Hnone.
      * intros at_ Hat _ _ _. apply bool_decide_eq_true. by exists at_.
    + split; [intros Hs _ _ Hnone; by rw Hs in Hnone|]. intros at_ Hat _ _ _. apply bool_decide_eq_true. by exists at_.
  - destruct (perform_evolves used t op st Ht Hfresh Hop) as [_ [Hv Hk]]. split.
    + intros Hs Hview Hb Hnone. destruct (Hv ext h) as [[[s' [Hs' _]] _]|Hr].
      * split; [by exists s|done].
      * by rw Hnone in Hs'.
      * by apply Hrec.
    + intros at_ Hat Hpos Hday Hmax. apply Hrec, Hk. exists at_. split; [done|].
      rw /iadd /day i64_small; rw /day in Hday; lia.
Qed.
End histories.

(** ** A node that serves one session at a time *)

#[local] Existing Instance reference_string_util.

Definition any_token : verifier := {|
  LooksLikeJwt := λ _, Some "idp"; IdentityError := None;
  VerifyJwtPrincipal := λ _ _, Verified no_principal 2000;
  CatalogLoadRoleClaims := None; MayOperate := λ _, false; LevelForSession := λ _ _, None;
  ResolveResourceLimits := λ _, Ok no_limits |}.
Definition perform_here : settings → operation → store → store :=
  perform level_order blank_event true ALL (λ _, []) 1 any_token.
Definition a_time : settings := {| now := 1000; skew := 60; idle := 600; exp_binds := true |}.
Definition an_open (h i : string) : open_request := {|
  token := "jwt"; at_door := "flight"; replacing := EmptyString; despite_drain := false; one_call := false;
  fresh_handle := h; fresh_id := i |}.

(** One session came and went; another is seated, bound to a door id, viewing the catalog as a role *)
Definition served : store :=
  let st := perform_here a_time (Op_open (an_open "h1" "i1")) (new_store true) in
  let st := perform_here a_time (Op_close "h1") st in
  let st := perform_here a_time (Op_open (an_open "h2" "i2")) st in
  let st := perform_here a_time (Op_bind "conn" "h2") st in
  perform_here a_time (Op_view_as "i2" "analyst") st.
Definition served_ids : gset string := ∅ ∪ (∅ ∪ ({["i2"]} ∪ (∅ ∪ ({["i1"]} ∪ ∅)))).

Lemma served_history : history level_order blank_event true ALL (λ _, []) 1 any_token true served_ids served.
Proof.
  rw /served /served_ids.
  apply (history_op _ _ _ _ _ _ _ _ _ _ a_time (Op_view_as "i2" "analyst")); [|done].
  apply (history_op _ _ _ _ _ _ _ _ _ _ a_time (Op_bind "conn" "h2")); [|done].
  apply (history_op _ _ _ _ _ _ _ _ _ _ a_time (Op_open (an_open "h2" "i2"))).
  2: { split; [by vm_compute|set_solver]. }
  apply (history_op _ _ _ _ _ _ _ _ _ _ a_time (Op_close "h1")); [|done].
  apply (history_op _ _ _ _ _ _ _ _ _ _ a_time (Op_open (an_open "h1" "i1"))); [|split; [by vm_compute|set_solver]].
  apply history_new.
Qed.

Lemma sessions_are_accounted_witness :
  opened_ids (emitted served) = ["i1"; "i2"] ∧ closed_ids (emitted served) = ["i1"] ∧
  opened_ids (emitted served) ≡ₚ closed_ids (emitted served) ++ seated_ids served.
Proof.
  split; [vm_compute; reflexivity|]. split; [vm_compute; reflexivity|].
  destruct (sessions_are_accounted level_order blank_event true ALL (λ _, []) 1 any_token true
              served_ids served eq_refl served_history) as [Hbooks _].
  exact Hbooks.
Defined.

Lemma observers_follow_the_store_witness :
  heard served = [Open "i1"; Close "i1" "client"; Open "i2"] ∧
  NoDup (map fst (delivered (heard served))).
Proof.
  split; [vm_compute; reflexivity|].
  destruct (observers_follow_the_store level_order blank_event true ALL (λ _, []) 1 any_token
              served_ids served served_history) as (_ & _ & _ & Hnd & _).
  exact Hnd.
Defined.

Definition an_hour_later : settings := {| now := 4600; skew := 60; idle := 600; exp_binds := true |}.

Lemma judges_agree_witness :
  SessionReason an_hour_later "h2" served = "expired" ∧
  SessionAlive an_hour_later "h2" (perform_here an_hour_later (Op_touch "h2") served) = false.
Proof.
  split; [vm_compute; reflexivity|].
  destruct (judges_agree level_order blank_event true ALL (λ _, []) 1 any_token an_hour_later "h2" "select 1"
       EmptyString EmptyString EmptyString EmptyString EmptyString served) as (_ & _ & _ & _ & _ & Hdead).
  apply (Hdead) with (used := served_ids).
  - split; vm_compute; congruence.
  - vm_compute. reflexivity.
  - exact I.
  - intros [].
  - split; [vm_compute; congruence|]. split; [reflexivity|]. split; reflexivity.
Defined.

(** The node is full: a second open is refused; once the first session is dead, it is seated *)
Definition another : open_request := an_open "h3" "i3".

Lemma open_seats_within_bounds_witness :
  (SessionOpen level_order blank_event true ALL (λ _, []) 1 any_token a_time another served).1
    = Ok RefusedSession ∧
  let opened := SessionOpen level_order blank_event true ALL (λ _, []) 1 any_token an_hour_later another served in
  opened.1 = Ok (Seated "h3" "i3") ∧
  ∃ p s, "h3" = fresh_handle another ∧ "i3" = fresh_id another ∧ sessions opened.2 !! "h3" = Some s ∧
    id s = "i3" ∧ principal s = p.
Proof.
  split; [vm_compute; reflexivity|]. intros opened.
  assert (Heq : opened = (Ok (Seated "h3" "i3"), opened.2)) by (vm_compute; reflexivity).
  split; [by rw Heq|].
  destruct (open_seats_within_bounds level_order blank_event true ALL (λ _, []) 1 any_token an_hour_later another
              served opened.2 "h3" "i3") as (p & s & H1 & H2 & H3 & H4 & H5 & _).
  - vm_compute. reflexivity.
  - vm_compute. congruence.
  - exact Heq.
  - exists p, s. split_and!; assumption.
Defined.

Lemma view_as_end_is_remembered_witness :
  SessionViewAsEnded "conn" served = false ∧
  SessionViewAsEnded "conn" (perform_here a_time (Op_kill "i2") served) = true.
Proof.
  split; [vm_compute; reflexivity|].
  destruct (sessions served !! "h2") as [s|] eqn:Hs; [|exfalso; vm_compute in Hs; discriminate].
  refine (proj1 (view_as_end_is_remembered level_order blank_event true ALL (λ _, []) 1 any_token served_ids
                   a_time (Op_kill "i2") served "h2" "conn" s _ I) Hs _ _ _).
  - split; vm_compute; congruence.
  - vm_compute in Hs. injection Hs as <-. discriminate.
  - vm_compute. reflexivity.
  - vm_compute. reflexivity.
Defined.
