(* ===== verification/Prefix.v ===== *)
(** * The ACL prefix ([src/src/acl_grammar.cpp], [src/src/acl_parser_override.cpp])

    A statement a door or a gateway composes starts with [ACL <kind> '<value>'], markers and a mode; the
    client's own text follows.  The head is read by rules of duckdb's PEG parser over duckdb's tokens:
    the tokenizer and the base rules under a quoted value are a parameter ([Tokenizer]), the rules are
    the functions here.  [prefix_reads_back] and [client_text_cannot_reach_the_head] tie the reader to
    the composer ([SessionData.prefixed]). *)
From Stdlib Require Import Sorted.
From S2P Require Import Prelude PolicyTypes AuditTrail SessionData.

(** ** Scanning *)

Fixpoint string_drop (n : nat) (s : string) : string :=
  match n, s with
  | O, _ => s
  | S _, EmptyString => EmptyString
  | S n, String _ s => string_drop n s
  end.
Fixpoint string_take (n : nat) (s : string) : string :=
  match n, s with
  | O, _ => EmptyString
  | S _, EmptyString => EmptyString
  | S n, String c s => String c (string_take n s)
  end.

Definition IsWordChar (c : ascii) : bool :=
  let n := nat_of_ascii c in
  ((65 <=? n) && (n <=? 90)) || ((97 <=? n) && (n <=? 122)) || ((48 <=? n) && (n <=? 57)) || (n =? 95).
Fixpoint ReadWord (query : string) : string :=
  match query with
  | EmptyString => EmptyString
  | String c query => if IsWordChar c then String c (ReadWord query) else EmptyString
  end.
(** [SkipWhitespace]: what is left past it *)
Definition SkipWhitespace (query : string) : string := trim_left query.

(** ** Tokens *)

Inductive TokenType := PLAIN | TERMINATOR | END_OF_INPUT.
#[export] Instance TokenType_eq_dec : EqDecision TokenType.
Proof. solve_decision. Defined.
Record Token := { text : string; offset : nat; length_ : nat; type : TokenType }.

(** What duckdb's tokenizer makes of a text: its tokens, or a refusal at a position, when it names one *)
Inductive tokenized := Tokens (ts : list Token) | Unreadable (position : option nat) (message : string).

Class Tokenizer := {
  TokenizeInput : string → tokenized;
  (* [StringLiteral / Identifier] at these tokens: the value, the tokens after it *)
  ReadValue : list Token → option (string * list Token);
}.

Definition shift (n : nat) (t : Token) : Token :=
  {| text := text t; offset := n + offset t; length_ := length_ t; type := type t |}.
(** The token a text starts with *)
Definition first_token (s : string) : Token :=
  {| text := s; offset := 0; length_ := String.length s; type := PLAIN |}.

Definition begins_literal (ts : list Token) : bool :=
  match ts with t :: _ => String.prefix sq (text t) | [] => false end.

Section reading.
Context `{SU : StringUtil}.
Context `{TK : Tokenizer}.

(** A literal in the given quote *)
Definition written (quote : ascii) (value : string) : string :=
  str1 quote +:+ Replace value (str1 quote) (str1 quote +:+ str1 quote) +:+ str1 quote.

(** The binary search of [FirstTokenFrom] between [low] and [high] *)
Fixpoint search_tokens (fuel : nat) (ts : list Token) (at_ low high : nat) : nat :=
  match fuel with
  | O => low
  | S fuel =>
      if low <? high then
        let middle := low + (high - low) / 2 in
        if offset (default (first_token EmptyString) (ts !! middle)) <? at_
        then search_tokens fuel ts at_ (S middle) high
        else search_tokens fuel ts at_ low middle
      else low
  end.
Definition FirstTokenFrom (ts : list Token) (at_ : nat) : nat :=
  search_tokens (S (length ts)) ts at_ 0 (length ts).
Definition TokenIndexAt (ts : list Token) (at_ : nat) : option nat :=
  let low := FirstTokenFrom ts at_ in
  match ts !! low with
  | Some t => if (offset t =? at_) && negb (bool_decide (type t = END_OF_INPUT)) then Some low else None
  | None => None
  end.

Definition WrittenPlainly (query : string) (t : Token) (value : string) : bool :=
  if (String.length query <? offset t + length_ t)
     || negb (String.eqb (string_take (length_ t) (string_drop (offset t) query)) (text t)) then false
  else
    match text t with
    | EmptyString => false
    | String quote _ =>
        (Ascii.eqb quote squote || Ascii.eqb quote dquote) && String.eqb (text t) (written quote value)
    end.

(** ** The rules *)

Inductive MarkerKind := TRACE | PARENT | LINEAGE_PARENT | LINEAGE_ROOT | LINEAGE_JOB.
#[export] Instance MarkerKind_eq_dec : EqDecision MarkerKind.
Proof. solve_decision. Defined.
Inductive Kind := ROLE | TOKEN | SESSION | INGEST | ADMIN.
#[export] Instance Kind_eq_dec : EqDecision Kind.
Proof. solve_decision. Defined.

Definition TryKindOf (word : string) : option Kind :=
  if CIEquals word "role" then Some ROLE
  else if CIEquals word "token" then Some TOKEN
  else if CIEquals word "session" then Some SESSION
  else if CIEquals word "ingest" then Some INGEST
  else if CIEquals word "admin" then Some ADMIN
  else None.
(** The rule's keyword, upper case *)
Definition kind_word (k : Kind) : string :=
  match k with ROLE => "ROLE" | TOKEN => "TOKEN" | SESSION => "SESSION" | INGEST => "INGEST" | ADMIN => "ADMIN" end.

Definition MarkerWords (k : MarkerKind) : string :=
  match k with
  | TRACE => "TRACE" | PARENT => "PARENT" | LINEAGE_PARENT => "LINEAGE PARENT" | LINEAGE_ROOT => "LINEAGE ROOT"
  | LINEAGE_JOB => "LINEAGE JOB"
  end.

(** [ACL <kind>]: the text's first two tokens *)
Definition StartsWithPrefix (ts : list Token) : option Kind :=
  match ts with
  | t0 :: t1 :: _ => if CIEquals (text t0) "acl" then TryKindOf (text t1) else None
  | _ => None
  end.

(** A marker as the rule read it *)
Record read_marker := { mk_kind : MarkerKind; mk_value : string; mk_offset : nat }.

Definition lineage_word (t : Token) : option MarkerKind :=
  if CIEquals (text t) "parent" then Some LINEAGE_PARENT
  else if CIEquals (text t) "root" then Some LINEAGE_ROOT
  else if CIEquals (text t) "job" then Some LINEAGE_JOB
  else None.
Definition trace_word (t : Token) : option MarkerKind :=
  if CIEquals (text t) "trace" then Some TRACE else if CIEquals (text t) "parent" then Some PARENT else None.

(** A word and its quoted value *)
Definition read_valued (word : Token → option MarkerKind) (ts : list Token) : option (read_marker * list Token) :=
  match ts with
  | t :: ts1 =>
      match word t, ts1 with
      | Some k, v :: _ =>
          (λ r, ({| mk_kind := k; mk_value := r.1; mk_offset := offset v |}, r.2)) <$> ReadValue ts1
      | _, _ => None
      end
  | [] => None
  end.

(** [AclLineagePart*] *)
Fixpoint lineage_parts (fuel : nat) (ts : list Token) : list read_marker * list Token :=
  match fuel with
  | O => ([], ts)
  | S fuel =>
      match read_valued lineage_word ts with
      | Some (m, ts) => let '(ms, ts) := lineage_parts fuel ts in (m :: ms, ts)
      | None => ([], ts)
      end
  end.

(** [AclMarker*]: the markers, how many LINEAGE were written, the tokens after them *)
Fixpoint read_markers (fuel : nat) (ts : list Token) : list read_marker * nat * list Token :=
  match fuel with
  | O => ([], 0, ts)
  | S fuel =>
      match
        match ts with
        | t :: ts1 =>
            if CIEquals (text t) "lineage"
            then match lineage_parts (length ts1) ts1 with ([], _) => None | (ps, ts2) => Some (ps, 1, ts2) end
            else (λ r, ([r.1], 0, r.2)) <$> read_valued trace_word ts
        | [] => None
        end
      with
      | Some (ps, n, ts) => let '(ms, n', ts) := read_markers fuel ts in (ps ++ ms, n + n', ts)
      | None => ([], 0, ts)
      end
  end.

(** The statement's end: [AclTail] takes any token before it *)
Definition ends_statement (t : Token) : bool := bool_decide (type t = TERMINATOR) || bool_decide (type t = END_OF_INPUT).

Record PrefixParseData := {
  d_value : option (string * nat);
  d_markers : list read_marker;
  d_lineage_written : nat;
  d_mode_written : bool;
  d_native : bool;
  d_tail_offset : option nat;
  (* the head's tokens *)
  d_head : list Token;
}.

(** [AclPrefixedStatement <- 'ACL' AclPrincipal AclMarker* AclMode? AclTail?] *)
Definition read_head (ts : list Token) : option PrefixParseData :=
  match ts with
  | t0 :: t1 :: ts1 =>
      match (if CIEquals (text t0) "acl" then TryKindOf (text t1) else None) with
      | None => None
      | Some k =>
          match
            match k with
            | ADMIN => Some (None, ts1)
            | _ => match ts1 with
                   | v :: _ => (λ r, (Some (r.1, offset v), r.2)) <$> ReadValue ts1
                   | [] => None
                   end
            end
          with
          | None => None
          | Some (value, ts2) =>
              let '(ms, n, ts3) := read_markers (length ts2) ts2 in
              let '(mode, native, ts4) :=
                match ts3 with
                | t :: ts4 =>
                    if CIEquals (text t) "acl" then
                      match ts4 with
                      | u :: ts5 => if CIEquals (text u) "native" then (true, true, ts5) else (true, false, ts4)
                      | [] => (true, false, ts4)
                      end
                    else (false, false, ts3)
                | [] => (false, false, ts3)
                end in
              Some {| d_value := value; d_markers := ms; d_lineage_written := n; d_mode_written := mode;
                      d_native := native;
                      d_tail_offset := match ts4 with
                                       | t :: _ => if ends_statement t then None else Some (offset t)
                                       | [] => None
                                       end;
                      d_head := take (length ts - length ts4) ts |}
          end
      end
  | _ => None
  end.

(** ** [ReadPrefix] *)

Record GrammarPrefix := {
  kind : Kind;
  value : string;
  markers : list (MarkerKind * string);
  lineage_written : nat;
  mode_written : bool;
  native : bool;
  rest_start : nat;
}.

(** The text's tokens; past a place the tokenizer refuses, those before it *)
Definition tokens_of (query : string) : outcome (list Token) :=
  match TokenizeInput query with
  | Tokens ts => Ok ts
  | Unreadable position message =>
      match position with
      | None => Throw message
      | Some at_ =>
          if (at_ =? 0) || (String.length query <? at_) then Throw message
          else match TokenizeInput (string_take at_ query) with
               | Tokens ts => Ok ts
               | Unreadable _ message => Throw message
               end
      end
  end.

Definition require_plain (query : string) (ts : list Token) (at_ : nat) (value what : string) : outcome unit :=
  match (i ← TokenIndexAt ts at_; ts !! i) with
  | Some t => if WrittenPlainly query t value then Ok ()
              else Throw ("acl_rewrite: ACL " +:+ what +:+ " requires a quoted value, written as one plain literal")
  | None => Throw ("acl_rewrite: ACL " +:+ what +:+ " requires a quoted value, written as one plain literal")
  end.

Definition after_lineage (ms : list read_marker) : bool :=
  match last ms with
  | Some m => negb (bool_decide (mk_kind m = TRACE)) && negb (bool_decide (mk_kind m = PARENT))
  | None => false
  end.

(** A marker's word where the markers stopped: why it is none *)
Definition stopped_at (ts : list Token) (d : PrefixParseData) : outcome unit :=
  match d_tail_offset d with
  | Some at_ =>
      if d_mode_written d then Ok ()
      else
        let first := TokenIndexAt ts at_ in
        let word := match (i ← first; ts !! i) with Some t => Lower (text t) | None => EmptyString end in
        let lineage := after_lineage (d_markers d) in
        let refuse what := Throw ("acl_rewrite: ACL " +:+ what +:+ " requires a quoted value") in
        if String.eqb word "trace" then refuse "TRACE"
        else if String.eqb word "parent" && negb lineage then refuse "PARENT"
        else if String.eqb word "lineage" then
          let next := match (i ← first; ts !! S i) with Some t => Lower (text t) | None => EmptyString end in
          if String.eqb next "parent" then refuse "LINEAGE PARENT"
          else if String.eqb next "root" then refuse "LINEAGE ROOT"
          else if String.eqb next "job" then refuse "LINEAGE JOB"
          else Throw "acl_rewrite: ACL LINEAGE needs PARENT, ROOT or JOB"
        else if lineage && String.eqb word "parent" then refuse "LINEAGE PARENT"
        else if lineage && String.eqb word "root" then refuse "LINEAGE ROOT"
        else if lineage && String.eqb word "job" then refuse "LINEAGE JOB"
        else Ok ()
  | None => Ok ()
  end.

(** Where the head's last token ends *)
Fixpoint head_end (tail : option nat) (head : list Token) (end_ : nat) : nat :=
  match head with
  | [] => end_
  | t :: head =>
      if match tail with Some at_ => at_ <=? offset t | None => false end then end_
      else if ends_statement t then end_
      else head_end tail head (offset t + length_ t)
  end.
(** Past the whitespace that follows *)
Definition past_space (query : string) (at_ : nat) : nat :=
  at_ + (String.length (string_drop at_ query) - String.length (trim_left (string_drop at_ query))).

(** [None]: the text has no prefix of ours.  [connected] is a CONNECT-ed connection or a dialect *)
Definition ReadPrefix (connected : bool) (query : string) : outcome (option GrammarPrefix) :=
  ts ← tokens_of query;
  match StartsWithPrefix ts with
  | None => Ok None
  | Some k =>
      if connected then
        Throw "acl_rewrite: an ACL prefix is refused on a CONNECT-ed connection or under a dialect - DISCONNECT, or RESET current_dialect"
      else
        let value_quoted :=
          match ts !! 2 with
          | Some t => match text t with
                      | String c _ => Ascii.eqb c squote || Ascii.eqb c dquote
                      | EmptyString => false
                      end
          | None => false
          end in
        if negb (bool_decide (k = ADMIN)) && negb value_quoted then
          Throw (if bool_decide (k = INGEST) then "acl_rewrite: ACL INGEST requires a quoted session handle"
                 else "acl_rewrite: ACL " +:+ kind_word k +:+ " requires a quoted value")
        else
          match read_head ts with
          | None => Throw "acl_rewrite: the ACL prefix does not parse"
          | Some d =>
              v ← match d_value d with
                  | Some (v, at_) =>
                      _ ← require_plain query ts at_ v (kind_word k);
                      if is_empty v then Throw ("acl_rewrite: ACL " +:+ kind_word k +:+ " requires a value") else Ok v
                  | None => Ok EmptyString
                  end;
              ms ← omapM (λ m, _ ← require_plain query ts (mk_offset m) (mk_value m) (MarkerWords (mk_kind m));
                               Ok (mk_kind m, mk_value m)) (d_markers d);
              _ ← stopped_at ts d;
              Ok (Some {| kind := k; value := v; markers := ms; lineage_written := d_lineage_written d;
                          mode_written := d_mode_written d; native := d_native d;
                          rest_start := past_space query (head_end (d_tail_offset d) (d_head d) 0) |})
          end
  end.

(** ** Lineage run references ([acl_lineage.cpp]) *)

Definition slash : ascii := "/"%char.
Definition hyphen : ascii := "-"%char.

(** The text around its last slash *)
Fixpoint rsplit (s : string) : option (string * string) :=
  match s with
  | EmptyString => None
  | String c s =>
      match rsplit s with
      | Some (a, b) => Some (String c a, b)
      | None => if Ascii.eqb c slash then Some (EmptyString, s) else None
      end
  end.

Record LineageRunRef := { ns : string; job : string; run_id : string }.
Definition no_run : LineageRunRef := {| ns := EmptyString; job := EmptyString; run_id := EmptyString |}.
Definition ParseLineageRunRef (text : string) : LineageRunRef :=
  match rsplit text with
  | None => no_run
  | Some (before, run) =>
      if is_empty before || is_empty run then no_run
      else match rsplit before with
           | None => no_run
           | Some (n, j) => if is_empty n || is_empty j then no_run else {| ns := n; job := j; run_id := run |}
           end
  end.

Definition xdigit (c : ascii) : bool :=
  let n := nat_of_ascii c in
  ((48 <=? n) && (n <=? 57)) || ((65 <=? n) && (n <=? 70)) || ((97 <=? n) && (n <=? 102)).
(** The characters of a UUID from position [i] on *)
Fixpoint uuid_from (i : nat) (s : string) : bool :=
  match s with
  | EmptyString => true
  | String c s =>
      (if (i =? 8) || (i =? 13) || (i =? 18) || (i =? 23) then Ascii.eqb c hyphen else xdigit c)
      && uuid_from (S i) s
  end.

(** The empty text: none given; [Some] is why it is refused *)
Definition LineageRunRefCheck (text : string) : option string :=
  if is_empty text then None
  else if 512 <? String.length text then
    Some "expected <namespace>/<job>/<runId>, the runId a UUID, at most 512 bytes"
  else
    let r := ParseLineageRunRef text in
    let uuid := (String.length (run_id r) =? 36) && uuid_from 0 (run_id r) in
    if is_empty (ns r) || is_empty (job r) || negb uuid then
      Some "expected <namespace>/<job>/<runId>, the runId a UUID (OPENLINEAGE_PARENT_ID's form)"
    else None.

(** ** [ReadAclPrefix] *)

Inductive Mode := QUERY | MANAGE_ | NATIVE.
#[export] Instance Mode_eq_dec : EqDecision Mode.
Proof. solve_decision. Defined.

Record LineageContext := { parent : string; root_parent : string; job_name : string }.
Definition no_lineage : LineageContext :=
  {| parent := EmptyString; root_parent := EmptyString; job_name := EmptyString |}.

(** [p_kind] is none for a text that is not ours *)
Record AclPrefix := {
  p_kind : option Kind;
  p_mode : Mode;
  p_marked : bool;
  p_value : string;
  p_rest : string;
  p_correlation_id : string;
  p_traceparent : string;
  p_lineage : LineageContext;
}.
Definition no_prefix : AclPrefix :=
  {| p_kind := None; p_mode := QUERY; p_marked := false; p_value := EmptyString; p_rest := EmptyString;
     p_correlation_id := EmptyString; p_traceparent := EmptyString; p_lineage := no_lineage |}.

(** The statement's trace and lineage, with one marker's value *)
Definition place_marker (k : MarkerKind) (v : string) (p : AclPrefix) : AclPrefix :=
  {| p_kind := p_kind p; p_mode := p_mode p; p_marked := p_marked p; p_value := p_value p; p_rest := p_rest p;
     p_correlation_id := match k with TRACE => v | _ => p_correlation_id p end;
     p_traceparent := match k with PARENT => v | _ => p_traceparent p end;
     p_lineage :=
       {| parent := match k with LINEAGE_PARENT => BoundLineage v | _ => parent (p_lineage p) end;
          root_parent := match k with LINEAGE_ROOT => BoundLineage v | _ => root_parent (p_lineage p) end;
          job_name := match k with LINEAGE_JOB => BoundLineage v | _ => job_name (p_lineage p) end |} |}.

(** The loop over the markers; [seen] are the kinds already written *)
Fixpoint place_markers (ms : list (MarkerKind * string)) (seen : list MarkerKind) (p : AclPrefix) : outcome AclPrefix :=
  match ms with
  | [] => Ok p
  | (k, v) :: ms =>
      if bool_decide (k ∈ seen) then
        Throw ("acl_rewrite: ACL " +:+ MarkerWords k +:+ " may be written once"
               +:+ (match k with TRACE | PARENT => " in a prefix" | _ => EmptyString end))
      else
        match (match k with LINEAGE_PARENT | LINEAGE_ROOT => LineageRunRefCheck v | _ => None end) with
        | Some malformed => Throw ("acl_rewrite: ACL " +:+ MarkerWords k +:+ ": " +:+ malformed)
        | None => place_markers ms (k :: seen) (place_marker k v p)
        end
  end.

Definition ReadAclPrefix (connected : bool) (query : string) : outcome AclPrefix :=
  if negb (CIEquals (ReadWord (SkipWhitespace query)) "acl") then Ok no_prefix
  else
    head ← ReadPrefix connected query;
    match head with
    | None => Ok no_prefix
    | Some head =>
        if 1 <? lineage_written head then Throw "acl_rewrite: ACL LINEAGE may be written once in a prefix"
        else
          p ← place_markers (markers head) []
                {| p_kind := Some (kind head); p_mode := QUERY; p_marked := false; p_value := value head;
                   p_rest := EmptyString; p_correlation_id := EmptyString; p_traceparent := EmptyString;
                   p_lineage := no_lineage |};
          if bool_decide (kind head = INGEST) && mode_written head then
            Throw "acl_rewrite: ACL INGEST carries no mode marker - the remainder is the INSERT"
          else
            Ok {| p_kind := p_kind p;
                  p_mode := match kind head with
                            | INGEST => QUERY
                            | ADMIN => if mode_written head && negb (native head) then MANAGE_ else NATIVE
                            | _ => if negb (mode_written head) then QUERY else if native head then NATIVE else MANAGE_
                            end;
                  p_marked := match kind head with INGEST => false | _ => mode_written head end;
                  p_value := p_value p; p_rest := string_drop (rest_start head) query;
                  p_correlation_id := p_correlation_id p; p_traceparent := p_traceparent p;
                  p_lineage := p_lineage p |}
    end.
End reading.

(** ** What the reader relies on of duckdb's tokenizer *)

Definition letter (c : ascii) : bool :=
  let n := nat_of_ascii c in ((65 <=? n) && (n <=? 90)) || ((97 <=? n) && (n <=? 122)).

(** What a text's tokens are when something of [n] characters is put in front of it, read as [t] *)
Definition follows (t : Token) (n : nat) (before after : tokenized) : Prop :=
  match before with
  | Tokens ts => after = Tokens (t :: map (shift n) ts)
  | Unreadable position _ => ∃ message, after = Unreadable (Nat.add n <$> position) message
  end.

(** The tokens of a text up to where the tokenizer refuses it; it does not refuse it at a quote *)
Inductive reads `{Tokenizer} (s : string) : list Token → Prop :=
  | reads_all ts : TokenizeInput s = Tokens ts → reads s ts
  | reads_some p message ts :
      TokenizeInput s = Unreadable (Some p) message → p ≤ String.length s → String.get p s ≠ Some squote →
      TokenizeInput (string_take p s) = Tokens ts → reads s ts.

Class TokenizerLaws `{StringUtil} `{Tokenizer} : Prop := {
  (** tokens come in the text's order *)
  Tokens_sorted : ∀ s ts, TokenizeInput s = Tokens ts → StronglySorted (λ a b, offset a < offset b) ts;
  (** a word ends at a space *)
  Word_law : ∀ w s, w ≠ EmptyString → string_forallb letter w = true →
    follows (first_token w) (String.length w + 1) (TokenizeInput s) (TokenizeInput (w +:+ " " +:+ s));
  (** a literal is one token whatever it holds, unless the literal after it continues it *)
  Literal_law : ∀ v s ts, reads s ts → begins_literal ts = false →
    follows (first_token (written squote v)) (String.length (written squote v) + 1)
      (TokenizeInput s) (TokenizeInput (written squote v +:+ " " +:+ s));
  (** a plain literal's value is what it was written for *)
  Value_law : ∀ t v ts, text t = written squote v → type t = PLAIN → begins_literal ts = false →
    ReadValue (t :: ts) = Some (v, ts);
  (** reading a value takes tokens *)
  Value_suffix : ∀ ts v ts', ReadValue ts = Some (v, ts') → ∃ pre, ts = pre ++ ts' ∧ pre ≠ [];
}.

(** ** The composed head *)

(** A word, or a literal; each with a space after it *)
Inductive piece := W (word : string) | L (value : string).

Section composed.
Context `{SU : StringUtil}.
Definition piece_text (p : piece) : string := match p with W w => w | L v => written squote v end.
Fixpoint pieces_text (ps : list piece) (rest : string) : string :=
  match ps with
  | [] => rest
  | p :: ps => piece_text p +:+ " " +:+ pieces_text ps rest
  end.
Fixpoint pieces_tokens (ps : list piece) (ts : list Token) : list Token :=
  match ps with
  | [] => ts
  | p :: ps => first_token (piece_text p) :: map (shift (String.length (piece_text p) + 1)) (pieces_tokens ps ts)
  end.
Definition pieces_length (ps : list piece) : nat := String.length (pieces_text ps EmptyString).

(** Words are letters, and a literal is not followed by another *)
Fixpoint pieces_ok (ps : list piece) (literal_follows : bool) : Prop :=
  match ps with
  | [] => True
  | W w :: ps => w ≠ EmptyString ∧ string_forallb letter w = true ∧ pieces_ok ps literal_follows
  | L _ :: ps => match ps with L _ :: _ => False | [] => literal_follows = false | _ => True end ∧ pieces_ok ps literal_follows
  end.

(** The session's prefix in pieces *)
Definition marker_word (k : MarkerKind) : string :=
  match k with TRACE => "TRACE" | PARENT | LINEAGE_PARENT => "PARENT" | LINEAGE_ROOT => "ROOT" | LINEAGE_JOB => "JOB" end.
Definition marker_pieces (kvs : list (MarkerKind * string)) : list piece :=
  flat_map (λ kv, [W (marker_word kv.1); L kv.2]) kvs.
Definition trace_values (cid tp : string) : list (MarkerKind * string) :=
  (if is_empty cid then [] else [(TRACE, BoundTrace cid)]) ++ (if is_empty tp then [] else [(PARENT, BoundTrace tp)]).
Definition lineage_values (lp lr lj : string) : list (MarkerKind * string) :=
  (if is_empty lp then [] else [(LINEAGE_PARENT, BoundLineage lp)])
  ++ (if is_empty lr then [] else [(LINEAGE_ROOT, BoundLineage lr)])
  ++ (if is_empty lj then [] else [(LINEAGE_JOB, BoundLineage lj)]).
Definition section_pieces (tvs lvs : list (MarkerKind * string)) : list piece :=
  marker_pieces tvs ++ match lvs with [] => [] | _ => W "LINEAGE" :: marker_pieces lvs end.
Definition prefix_pieces (handle cid tp lp lr lj : string) : list piece :=
  W "ACL" :: W "SESSION" :: L handle :: section_pieces (trace_values cid tp) (lineage_values lp lr lj).

Lemma pieces_text_app ps qs rest : pieces_text (ps ++ qs) rest = pieces_text ps (pieces_text qs rest).
Proof. induction ps as [|p ps IH]; [done|]. by rw /= IH. Qed.

Lemma literal_written v : literal v = written squote v.
Proof. done. Qed.

Lemma prefixed_pieces h s sql cid tp lp lr lj :
  prefixed h s sql cid tp lp lr lj =
  pieces_text (prefix_pieces h (carried cid (correlation_id s)) (carried tp (traceparent s))
                 (carried lp (lineage_parent s)) (carried lr (lineage_root_parent s)) (carried lj (lineage_job s))) sql.
Proof.
  rw /prefixed /prefix_pieces /section_pieces /trace_values /lineage_values.
  set a := carried cid _. set b := carried tp _. set c := carried lp _. set d := carried lr _. set e := carried lj _.
  clearbody a b c d e. rw /TraceMarkers /LineageMarkers /trace_marker /lineage_marker !literal_written.
  destruct (is_empty a), (is_empty b), (is_empty c), (is_empty d), (is_empty e); simpl pieces_text;
    rw ?string_app_nil_l -!string_app_assoc //.
Qed.
End composed.

(** ** Text and positions *)

Lemma string_take_app a n b : string_take (String.length a + n) (a +:+ b) = a +:+ string_take n b.
Proof. induction a as [|c a IH]; [done|]. by rw !string_app_cons /= IH. Qed.
Lemma string_drop_app a n b : string_drop (String.length a + n) (a +:+ b) = string_drop n b.
Proof. induction a as [|c a IH]; [done|]. by rw string_app_cons /= IH. Qed.
Lemma string_get_app a n b : String.get (String.length a + n) (a +:+ b) = String.get n b.
Proof. induction a as [|c a IH]; [done|]. by rw string_app_cons /= IH. Qed.
Lemma string_take_all a b : string_take (String.length a) (a +:+ b) = a.
Proof. rw -(Nat.add_0_r (String.length a)) string_take_app /=. apply string_app_nil_r. Qed.
Lemma string_drop_length n s : String.length (string_drop n s) = String.length s - n.
Proof. revert s. induction n as [|n IH]; intros [|c s]; simpl; auto. Qed.
Lemma string_drop_drop n m s : string_drop n (string_drop m s) = string_drop (m + n) s.
Proof. revert s. induction m as [|m IH]; intros [|c s]; simpl; auto. by destruct n. Qed.
Lemma string_drop_suffix n s : ∃ pre, s = pre +:+ string_drop n s.
Proof.
  revert s. induction n as [|n IH]; intros s; [by exists EmptyString|].
  destruct s as [|c s]; [by exists EmptyString|]. destruct (IH s) as [pre Hpre].
  exists (String c pre). by rw string_app_cons -Hpre.
Qed.
Lemma trim_left_drop s : trim_left s = string_drop (String.length s - String.length (trim_left s)) s.
Proof.
  assert (Hlen : ∀ s, String.length (trim_left s) ≤ String.length s).
  { clear. induction s as [|c s IH]; simpl; [done|]. destruct (space_char c); simpl; lia. }
  induction s as [|c s IH]; [done|]. simpl. destruct (space_char c).
  - specialize (Hlen s). by replace (S (String.length s) - String.length (trim_left s))
      with (S (String.length s - String.length (trim_left s))) by lia.
  - by rw /= Nat.sub_diag.
Qed.

Lemma word_app w rest : w +:+ " " +:+ rest = (w +:+ " ") +:+ rest.
Proof. apply string_app_assoc. Qed.
Lemma word_length w : String.length (w +:+ " ") = String.length w + 1.
Proof. apply string_length_app. Qed.

Lemma begins_literal_shift n ts : begins_literal (map (shift n) ts) = begins_literal ts.
Proof. by destruct ts. Qed.
Lemma letter_not_quote w : w ≠ EmptyString → string_forallb letter w = true → String.prefix sq w = false.
Proof.
  destruct w as [|c w]; [done|]. intros _. cbn [string_forallb]. rw andb_true_iff. intros [Hc _]. move: Hc.
  by destruct c as [[] [] [] [] [] [] [] []].
Qed.
Lemma written_quote `{SU : StringUtil} v : String.prefix sq (written squote v) = true.
Proof. rw /written str1_app. by destruct (Replace v sq (sq +:+ sq) +:+ sq). Qed.

Section tokens.
Context `{SU : StringUtil} {TK : Tokenizer} {TL : TokenizerLaws}.

Lemma reads_follow t n w rest ts :
  String.length w = n → (∀ rest, reads rest ts → follows t n (TokenizeInput rest) (TokenizeInput (w +:+ rest))) →
  reads rest ts → reads (w +:+ rest) (t :: map (shift n) ts).
Proof.
  intros Hn Hlaw Hr. pose proof (Hlaw rest Hr) as Hf. destruct Hr as [ts Hr|p m ts Hr Hp Hq Ht].
  - rw Hr /= in Hf. by apply reads_all.
  - rw Hr /= in Hf. destruct Hf as [m' Hf]. apply (reads_some _ (n + p) m'); [done|..].
    + rw string_length_app. lia.
    + by rw -Hn string_get_app.
    + rw -Hn string_take_app. pose proof (Hlaw (string_take p rest)) as Hf'. rw Ht /= in Hf'.
      rw Hn. apply Hf'. by apply reads_all.
Qed.

Lemma pieces_begin ps ts :
  pieces_ok ps (begins_literal ts) → (match ps with L _ :: _ => False | _ => True end) →
  (ps = [] → begins_literal ts = false) → begins_literal (pieces_tokens ps ts) = false.
Proof.
  destruct ps as [|[w|v] ps]; simpl; [auto|..|done]. intros (Hw & Hl & _) _ _. by apply letter_not_quote.
Qed.

Lemma reads_pieces ps rest ts :
  pieces_ok ps (begins_literal ts) → reads rest ts → reads (pieces_text ps rest) (pieces_tokens ps ts).
Proof.
  intros Hok Hr. induction ps as [|p ps IH]; [done|]. simpl.
  destruct p as [w|v]; simpl in Hok |- *.
  - destruct Hok as (Hw & Hl & Hok). specialize (IH Hok). rw word_app. apply reads_follow; [apply word_length| |done].
    intros rest' _. rw -word_app. by apply Word_law.
  - destruct Hok as (Hnext & Hok). specialize (IH Hok). rw word_app. apply reads_follow; [apply word_length| |done].
    intros rest' Hr'. rw -word_app. apply (Literal_law _ _ _ Hr'). apply pieces_begin; [done|..].
    + by destruct ps as [|[]].
    + by intros ->.
Qed.

Lemma tokens_of_reads query ts :
  reads query ts → (∀ p m, TokenizeInput query = Unreadable (Some p) m → p ≠ 0) → tokens_of query = Ok ts.
Proof.
  intros Hr Hp. rw /tokens_of. destruct Hr as [ts ->|p m ts Hr Hle _ Ht]; [done|]. rw Hr.
  specialize (Hp p m Hr). rw (proj2 (Nat.eqb_neq p 0) Hp) (proj2 (Nat.ltb_ge _ _)) //= Ht. done.
Qed.

Lemma tokens_of_pieces w ps rest ts :
  pieces_ok (W w :: ps) (begins_literal ts) → reads rest ts →
  tokens_of (pieces_text (W w :: ps) rest) = Ok (pieces_tokens (W w :: ps) ts).
Proof.
  intros Hok Hr. apply tokens_of_reads; [by apply reads_pieces|]. intros p m Hu. destruct Hok as (Hw & Hl & Hok).
  pose proof (Word_law w (pieces_text ps rest) Hw Hl) as Hf. change (w +:+ _) with (pieces_text (W w :: ps) rest) in Hf.
  rw Hu /follows in Hf. destruct (TokenizeInput (pieces_text ps rest)) as [|[q|] m'] eqn:Hq; [done|..].
  - destruct Hf as [m'' Hf]. simpl in Hf. injection Hf as -> _. lia.
  - by destruct Hf as [m'' Hf].
Qed.
End tokens.

(** ** Reading the composed head *)

Fixpoint head_tokens `{StringUtil} (ps : list piece) : list Token :=
  match ps with
  | [] => []
  | p :: ps => first_token (piece_text p) :: map (shift (String.length (piece_text p) + 1)) (head_tokens ps)
  end.
Definition is_piece `{StringUtil} (p : piece) (t : Token) : Prop := text t = piece_text p ∧ type t = PLAIN.

Lemma shift_shift n m ts : map (shift n) (map (shift m) ts) = map (shift (n + m)) ts.
Proof. rw map_map. apply map_ext. intros t. rw /shift /= Nat.add_assoc. done. Qed.
Lemma shift_zero ts : map (shift 0) ts = ts.
Proof. rw -{2}(map_id ts). apply map_ext. by intros []. Qed.

Section heads.
Context `{SUL : StringUtilLaws} {TK : Tokenizer} {TL : TokenizerLaws}.

Lemma pieces_length_cons p ps :
  pieces_length (p :: ps) = String.length (piece_text p) + 1 + pieces_length ps.
Proof. rw /pieces_length /= !string_length_app /=. lia. Qed.

Lemma pieces_tokens_head ps ts : pieces_tokens ps ts = head_tokens ps ++ map (shift (pieces_length ps)) ts.
Proof.
  induction ps as [|p ps IH]; [by rw /= shift_zero|]. rw /= IH map_app shift_shift pieces_length_cons. done.
Qed.

Lemma is_piece_shift n ps hs : Forall2 is_piece ps hs → Forall2 is_piece ps (map (shift n) hs).
Proof. induction 1 as [|p t ps hs [H1 H2] _ IH]; constructor; [by split|done]. Qed.
Lemma head_tokens_pieces ps : Forall2 is_piece ps (head_tokens ps).
Proof. induction ps as [|p ps IH]; constructor; [done|by apply is_piece_shift]. Qed.

(** Markers read off the tokens [hs]: each value stands there as a literal *)
Definition read_off (hs : list Token) (kvs : list (MarkerKind * string)) (ms : list read_marker) : Prop :=
  map (λ m, (mk_kind m, mk_value m)) ms = kvs ∧
  Forall (λ m, ∃ t, t ∈ hs ∧ offset t = mk_offset m ∧ text t = written squote (mk_value m) ∧ type t = PLAIN) ms.

Lemma read_off_nil hs : read_off hs [] [].
Proof. by split. Qed.
Lemma read_off_app hs hs' kvs kvs' ms ms' :
  read_off hs kvs ms → read_off hs' kvs' ms' → read_off (hs ++ hs') (kvs ++ kvs') (ms ++ ms').
Proof.
  intros [<- H1] [<- H2]. split; [by rw map_app|]. apply Forall_app. split; (eapply Forall_impl; [eassumption|]).
  - intros m (t & Ht & Hm). exists t. split; [set_solver|done].
  - intros m (t & Ht & Hm). exists t. split; [set_solver|done].
Qed.

Lemma read_off_cons w l k v hs kvs ms :
  is_piece (L v) l → read_off hs kvs ms →
  read_off (w :: l :: hs) ((k, v) :: kvs) ({| mk_kind := k; mk_value := v; mk_offset := offset l |} :: ms).
Proof.
  intros [Hl Hp] Hoff. apply (read_off_app [w; l] hs [(k, v)] kvs [_] ms); [|done].
  split; [done|]. constructor; [|done]. exists l. split_and!; [set_solver|done..].
Qed.

Lemma read_valued_literal (word : Token → option MarkerKind) t v value ts k :
  word t = Some k → is_piece (L value) v → begins_literal ts = false →
  read_valued word (t :: v :: ts) = Some ({| mk_kind := k; mk_value := value; mk_offset := offset v |}, ts).
Proof. intros Hw [Ht Hp] Hts. by rw /= Hw (Value_law _ _ _ Ht Hp Hts). Qed.

Lemma keyword_word w t :
  is_piece (W w) t → ∀ w', CIEquals (text t) w' = bool_decide (string_map lower_char w = string_map lower_char w').
Proof. intros [Ht _] w'. by rw Ht CIEquals_law. Qed.

Definition is_lineage (k : MarkerKind) : bool := match k with TRACE | PARENT => false | _ => true end.

Lemma lineage_word_piece k t : is_lineage k = true → is_piece (W (marker_word k)) t → lineage_word t = Some k.
Proof. intros Hk Hp. rw /lineage_word !(keyword_word _ _ Hp). by destruct k. Qed.
Lemma trace_word_piece k t :
  is_lineage k = false → is_piece (W (marker_word k)) t → CIEquals (text t) "lineage" = false ∧ trace_word t = Some k.
Proof. intros Hk Hp. rw /trace_word !(keyword_word _ _ Hp). by destruct k. Qed.

Lemma marker_pieces_begin k v kvs hs ts :
  Forall2 is_piece (marker_pieces ((k, v) :: kvs)) hs → begins_literal (hs ++ ts) = false.
Proof. intros (t & hs' & [Ht _] & _ & ->)%Forall2_cons_inv_l. rw /= Ht. by destruct k. Qed.
Lemma markers_begin kvs hs ts :
  Forall2 is_piece (marker_pieces kvs) hs → begins_literal ts = false → begins_literal (hs ++ ts) = false.
Proof. destruct kvs as [|[k v] kvs]; [by intros ->%Forall2_nil_inv_l|]. intros Hm _. by eapply marker_pieces_begin. Qed.

Lemma read_parts kvs hs ts f :
  Forall2 is_piece (marker_pieces kvs) hs → forallb (λ kv, is_lineage kv.1) kvs = true → begins_literal ts = false →
  length (hs ++ ts) ≤ f →
  ∃ ms f', length ts ≤ f' ∧ read_off hs kvs ms ∧
    lineage_parts f (hs ++ ts) = (ms ++ (lineage_parts f' ts).1, (lineage_parts f' ts).2).
Proof.
  revert hs f. induction kvs as [|[k v] kvs IH]; intros hs f Hhs Hk Hts Hf.
  - apply Forall2_nil_inv_l in Hhs as ->. exists [], f. split_and!; [done|apply read_off_nil|]. simpl. by destruct (lineage_parts f ts).
  - simpl in Hk. apply andb_true_iff in Hk as [Hk Hks].
    apply Forall2_cons_inv_l in Hhs as (w & hs1 & Hw & Hhs & ->).
    apply Forall2_cons_inv_l in Hhs as (l & hs2 & Hl & Hhs & ->).
    destruct f as [|f]; [simpl in Hf; lia|].
    destruct (IH hs2 f Hhs Hks Hts) as (ms & f' & Hf' & Hoff & Heq); [simpl in Hf; rw /=; lia|].
    exists ({| mk_kind := k; mk_value := v; mk_offset := offset l |} :: ms), f'. split_and!; [done|by apply read_off_cons|].
    cbn [app lineage_parts]. rw (read_valued_literal lineage_word w l v _ k); [by apply lineage_word_piece|done|by eapply markers_begin|].
    by rw Heq.
Qed.

Lemma read_traces kvs hs ts f :
  Forall2 is_piece (marker_pieces kvs) hs → forallb (λ kv, negb (is_lineage kv.1)) kvs = true → begins_literal ts = false →
  length (hs ++ ts) ≤ f →
  ∃ ms f', length ts ≤ f' ∧ read_off hs kvs ms ∧
    read_markers f (hs ++ ts) = (ms ++ (read_markers f' ts).1.1, (read_markers f' ts).1.2, (read_markers f' ts).2).
Proof.
  revert hs f. induction kvs as [|[k v] kvs IH]; intros hs f Hhs Hk Hts Hf.
  - apply Forall2_nil_inv_l in Hhs as ->. exists [], f. split_and!; [done|apply read_off_nil|]. simpl. by destruct (read_markers f ts) as [[]].
  - simpl in Hk. apply andb_true_iff in Hk as [Hk%negb_true_iff Hks].
    apply Forall2_cons_inv_l in Hhs as (w & hs1 & Hw & Hhs & ->).
    apply Forall2_cons_inv_l in Hhs as (l & hs2 & Hl & Hhs & ->).
    destruct f as [|f]; [simpl in Hf; lia|].
    destruct (IH hs2 f Hhs Hks Hts) as (ms & f' & Hf' & Hoff & Heq); [simpl in Hf; rw /=; lia|].
    destruct (trace_word_piece k w Hk Hw) as [Hnl Htw].
    exists ({| mk_kind := k; mk_value := v; mk_offset := offset l |} :: ms), f'. split_and!; [done|by apply read_off_cons|].
    cbn [app read_markers]. rw Hnl (read_valued_literal trace_word w l v _ k); [done|done|by eapply markers_begin|].
    by rw /= Heq.
Qed.

(** *** What follows the composed markers *)

Lemma read_valued_suffix word ts m ts' : read_valued word ts = Some (m, ts') → ∃ pre, ts = pre ++ ts'.
Proof.
  destruct ts as [|t [|v ts]]; [done|by rw /=; destruct (word t)|]. rw /=. destruct (word t) as [k|]; [|done].
  destruct (ReadValue (v :: ts)) as [[x ts1]|] eqn:Hr; [|done]. intros [= _ <-].
  apply Value_suffix in Hr as (pre & Hr & _). exists (t :: pre). by rw Hr.
Qed.
Lemma lineage_parts_suffix f ts : ∃ pre, ts = pre ++ (lineage_parts f ts).2.
Proof.
  revert ts. induction f as [|f IH]; intros ts; [by exists []|]. simpl.
  destruct (read_valued lineage_word ts) as [[m ts1]|] eqn:Hr; [|by exists []].
  apply read_valued_suffix in Hr as [pre ->]. destruct (IH ts1) as [pre' Hp].
  destruct (lineage_parts f ts1) as [ms ts2]. exists (pre ++ pre'). simpl in *. by rw Hp app_assoc.
Qed.
Lemma read_markers_suffix f ts : ∃ pre, ts = pre ++ (read_markers f ts).2.
Proof.
  revert ts. induction f as [|f IH]; intros ts; [by exists []|]. simpl. case_match eqn:Hm; [|by exists []].
  destruct p as [[ps n] ts1].
  assert (Hpre : ∃ pre, ts = pre ++ ts1).
  { destruct ts as [|t ts0]; [done|]. destruct (CIEquals (text t) "lineage").
    - destruct (lineage_parts_suffix (length ts0) ts0) as [pre Hp].
      destruct (lineage_parts (length ts0) ts0) as [[|m ms] ts2]; [done|]. injection Hm as _ _ <-.
      exists (t :: pre). by rw Hp.
    - destruct (read_valued trace_word (t :: ts0)) as [[m ts2]|] eqn:Hr; [|done]. injection Hm as _ _ <-.
      by apply read_valued_suffix in Hr. }
  destruct Hpre as [pre ->]. destruct (IH ts1) as [pre' Hp]. destruct (read_markers f ts1) as [[ms n'] ts2].
  exists (pre ++ pre'). simpl in *. by rw Hp app_assoc.
Qed.

(** The client's text opens with no word of the prefix *)
Definition reserved : list string := ["trace"; "parent"; "lineage"; "root"; "job"; "acl"].
Definition client_free (ts : list Token) : Prop :=
  match ts with t :: _ => Forall (λ w, CIEquals (text t) w = false) reserved | [] => True end.

Lemma client_free_words t ts :
  client_free (t :: ts) →
  lineage_word t = None ∧ trace_word t = None ∧ CIEquals (text t) "lineage" = false ∧ CIEquals (text t) "acl" = false.
Proof.
  rw /client_free /reserved !Forall_cons. intros (H1 & H2 & H3 & H4 & H5 & H6 & _).
  rw /lineage_word /trace_word H1 H2 H4 H5. done.
Qed.
Lemma lineage_parts_free f ts : client_free ts → lineage_parts f ts = ([], ts).
Proof. destruct f as [|f]; [done|]. destruct ts as [|t ts]; [done|]. intros (Hl & _)%client_free_words. by rw /= Hl. Qed.
Lemma read_markers_free f ts : client_free ts → read_markers f ts = ([], 0, ts).
Proof.
  destruct f as [|f]; [done|]. destruct ts as [|t ts]; [done|]. intros (_ & Ht & Hl & _)%client_free_words. by rw /= Hl Ht.
Qed.

Lemma read_off_incl hs hs' kvs ms : hs ⊆ hs' → read_off hs kvs ms → read_off hs' kvs ms.
Proof.
  intros Hin [Hv Hf]. split; [done|]. eapply Forall_impl; [exact Hf|]. intros m (t & Ht & Hm). exists t. split; [by apply Hin|done].
Qed.

Lemma read_section tvs lvs hs ts f :
  Forall2 is_piece (section_pieces tvs lvs) hs → forallb (λ kv, negb (is_lineage kv.1)) tvs = true →
  forallb (λ kv, is_lineage kv.1) lvs = true → begins_literal ts = false → length (hs ++ ts) ≤ f →
  ∃ ms extra n ts', read_markers f (hs ++ ts) = (ms ++ extra, n, ts') ∧ read_off hs (tvs ++ lvs) ms ∧
    (∃ pre, ts = pre ++ ts') ∧
    (client_free ts → extra = [] ∧ ts' = ts ∧ n = match lvs with [] => 0 | _ => 1 end).
Proof.
  intros (h1 & h2 & Hh1 & Hh2 & ->)%Forall2_app_inv_l Ht Hl Hts. rw -app_assoc. intros Hf.
  destruct lvs as [|kv lvs].
  - apply Forall2_nil_inv_l in Hh2 as ->. simpl in Hf |- *.
    destruct (read_traces tvs h1 ts f Hh1 Ht Hts Hf) as (ms & f' & _ & Hoff & ->).
    eexists ms, _, _, _. split; [done|]. split; [by rw !app_nil_r|]. split; [apply read_markers_suffix|].
    intros Hfree. by rw read_markers_free.
  - apply Forall2_cons_inv_l in Hh2 as (w & h3 & Hw & Hh3 & ->).
    assert (Hbegin : begins_literal ((w :: h3) ++ ts) = false) by (destruct Hw as [Hw _]; cbn [app begins_literal]; by rw Hw).
    destruct (read_traces tvs h1 _ f Hh1 Ht Hbegin Hf) as (ms & f' & Hf' & Hoff & ->).
    destruct f' as [|f']; [simpl in Hf'; lia|].
    destruct (read_parts (kv :: lvs) h3 ts (length (h3 ++ ts)) Hh3 Hl Hts) as (ms2 & f2 & _ & Hoff2 & Heq); [done|].
    cbn [app read_markers]. rw (keyword_word _ _ Hw) bool_decide_eq_true_2 // Heq.
    destruct ms2 as [|m ms2]; [by destruct Hoff2|].
    set ps := lineage_parts f2 ts. set rm := read_markers f' ps.2.
    exists (ms ++ m :: ms2), (ps.1 ++ rm.1.1), (1 + rm.1.2), rm.2.
    split; [|split; [|split]].
    + cbn [app]. change (read_markers f' ps.2) with rm. destruct rm as [[ms' n'] ts']. by rw /= -!app_assoc.
    + apply read_off_app; [done|]. eapply read_off_incl; [|exact Hoff2]. set_solver.
    + destruct (lineage_parts_suffix f2 ts) as [pre Hp]. destruct (read_markers_suffix f' ps.2) as [pre' Hp'].
      exists (pre ++ pre'). by rw -app_assoc -Hp'.
    + intros Hfree. subst rm ps. rw lineage_parts_free //= read_markers_free //.
Qed.

(** *** The whole head *)

Lemma section_begin tvs lvs hs ts :
  Forall2 is_piece (section_pieces tvs lvs) hs → begins_literal ts = false → begins_literal (hs ++ ts) = false.
Proof.
  intros (h1 & h2 & Hh1 & Hh2 & ->)%Forall2_app_inv_l Hts. rw -app_assoc. eapply markers_begin; [exact Hh1|].
  destruct lvs as [|kv lvs]; [by apply Forall2_nil_inv_l in Hh2 as ->|].
  apply Forall2_cons_inv_l in Hh2 as (w & h3 & [Hw _] & _ & ->). cbn [app begins_literal]. by rw Hw.
Qed.

Definition head_pieces (h : string) (tvs lvs : list (MarkerKind * string)) : list piece :=
  W "ACL" :: W "SESSION" :: L h :: section_pieces tvs lvs.

(** What the rule reads off a composed head and the client's tokens after it *)
Record composed_head (h : string) (tvs lvs : list (MarkerKind * string)) (hs ts : list Token)
    (d : PrefixParseData) : Prop := {
  ch_value : ∃ v, hs !! 2 = Some v ∧ d_value d = Some (h, offset v) ∧ is_piece (L h) v;
  ch_markers : ∃ ms extra, d_markers d = ms ++ extra ∧ read_off hs (tvs ++ lvs) ms ∧
    (client_free ts → extra = [] ∧ d_mode_written d = false ∧ d_native d = false ∧
       d_lineage_written d = match lvs with [] => 0 | _ => 1 end);
  ch_rest : ∃ more rest, ts = more ++ rest ∧ d_head d = hs ++ more ∧ (client_free ts → more = []) ∧
    d_tail_offset d = match rest with t :: _ => if ends_statement t then None else Some (offset t) | [] => None end;
}.

Lemma take_app_suffix (hs pre ts : list Token) :
  take (length (hs ++ pre ++ ts) - length ts) (hs ++ pre ++ ts) = hs ++ pre.
Proof.
  rw app_assoc take_app_le; [|apply take_ge]; rw !length_app; lia.
Qed.

Lemma read_composed h tvs lvs hs ts :
  Forall2 is_piece (head_pieces h tvs lvs) hs → forallb (λ kv, negb (is_lineage kv.1)) tvs = true →
  forallb (λ kv, is_lineage kv.1) lvs = true → begins_literal ts = false →
  StartsWithPrefix (hs ++ ts) = Some SESSION ∧ ∃ d, read_head (hs ++ ts) = Some d ∧ composed_head h tvs lvs hs ts d.
Proof.
  intros Hhs Ht Hl Hts.
  apply Forall2_cons_inv_l in Hhs as (t0 & hs0 & H0 & Hhs & ->).
  apply Forall2_cons_inv_l in Hhs as (t1 & hs1 & H1 & Hhs & ->).
  apply Forall2_cons_inv_l in Hhs as (v & hs2 & Hv & Hhs & ->).
  assert (Hacl : CIEquals (text t0) "acl" = true) by by rw (keyword_word _ _ H0).
  assert (Hkind : TryKindOf (text t1) = Some SESSION) by by rw /TryKindOf !(keyword_word _ _ H1).
  split; [by rw /= Hacl Hkind|].
  destruct (read_section tvs lvs hs2 ts (length (hs2 ++ ts)) Hhs Ht Hl Hts) as (ms & extra & n & ts3 & Hm & Hoff & [pre Hpre] & Hfree);
    [done|].
  set all := (t0 :: t1 :: v :: hs2) ++ ts.
  assert (Hval : ReadValue (v :: hs2 ++ ts) = Some (h, hs2 ++ ts)).
  { destruct Hv as [Hv1 Hv2]. apply Value_law; [done..|]. by eapply section_begin. }
  set mode := match ts3 with
              | t :: ts4 => if CIEquals (text t) "acl" then
                              match ts4 with
                              | u :: ts5 => if CIEquals (text u) "native" then (true, true, ts5) else (true, false, ts4)
                              | [] => (true, false, ts4)
                              end
                            else (false, false, ts3)
              | [] => (false, false, ts3)
              end.
  assert (Hmode : (∃ pre', ts3 = pre' ++ mode.2) ∧ (client_free ts3 → mode = (false, false, ts3))).
  { subst mode. destruct ts3 as [|t ts4]; [by split; [exists []|]|]. split.
    - destruct (CIEquals (text t) "acl"); [|by exists []]. destruct ts4 as [|u ts5]; [by exists [t]|].
      destruct (CIEquals (text u) "native"); [by exists [t; u]|by exists [t]].
    - intros (_ & _ & _ & Hc)%client_free_words. by rw Hc. }
  destruct Hmode as [[pre' Hpre'] Hmode].
  assert (Hhead : read_head all = Some
    {| d_value := Some (h, offset v); d_markers := ms ++ extra; d_lineage_written := n;
       d_mode_written := mode.1.1; d_native := mode.1.2;
       d_tail_offset := match mode.2 with t :: _ => if ends_statement t then None else Some (offset t) | [] => None end;
       d_head := take (length all - length mode.2) all |}).
  { rw /all /=. rw Hacl Hkind Hval /= Hm. fold mode. by destruct mode as [[m1 m2] m3]. }
  eexists. split; [exact Hhead|]. clear Hhead. clearbody mode.
  assert (Htake : take (length all - length mode.2) all = (t0 :: t1 :: v :: hs2) ++ pre ++ pre').
  { assert (Hall : all = (t0 :: t1 :: v :: hs2) ++ (pre ++ pre') ++ mode.2) by by rw /all -app_assoc -Hpre' -Hpre.
    rw Hall. apply take_app_suffix. }
  split; simpl.
  - exists v. done.
  - exists ms, extra. split; [done|]. split.
    { eapply read_off_incl; [|exact Hoff]. set_solver. }
    intros Hc. destruct (Hfree Hc) as (-> & -> & ->). by rw (Hmode Hc).
  - exists (pre ++ pre'), mode.2. rw -app_assoc -Hpre'. split; [done|]. split.
    { exact Htake. }
    split; [|done]. intros Hc. destruct (Hfree Hc) as (_ & -> & _). rw (Hmode Hc) /= in Hpre'.
    apply (f_equal length) in Hpre, Hpre'. rw !length_app in Hpre, Hpre'.
    apply length_zero_iff_nil. rw length_app. lia.
Qed.
End heads.

(** *** Positions *)

Definition sorted_tokens (ts : list Token) : Prop := StronglySorted (λ a b, offset a < offset b) ts.

Lemma sorted_lookup ts i j a b :
  sorted_tokens ts → ts !! i = Some a → ts !! j = Some b → i < j → offset a < offset b.
Proof.
  intros Hs. revert i j. induction Hs as [|t ts Hs IH Hall]; intros i j Ha Hb Hij; [done|].
  destruct j as [|j]; [lia|]. destruct i as [|i]; simpl in Ha, Hb.
  - injection Ha as <-. rw Forall_forall in Hall. apply Hall. by eapply list_elem_of_lookup_2.
  - apply (IH i j); [done..|lia].
Qed.

(** The binary search finds the first token from a position on *)
Lemma search_tokens_spec fuel ts at_ low high :
  sorted_tokens ts → low ≤ high ≤ length ts → high - low < fuel →
  (∀ i t, ts !! i = Some t → i < low → offset t < at_) → (∀ i t, ts !! i = Some t → high ≤ i → at_ ≤ offset t) →
  let r := search_tokens fuel ts at_ low high in
  (∀ i t, ts !! i = Some t → i < r → offset t < at_) ∧ (∀ i t, ts !! i = Some t → r ≤ i → at_ ≤ offset t).
Proof.
  intros Hs. revert low high. induction fuel as [|fuel IH]; intros low high Hb Hf Hlow Hhigh; [lia|]. simpl.
  destruct (low <? high) eqn:Hlt; [apply Nat.ltb_lt in Hlt|apply Nat.ltb_ge in Hlt].
  2: { split; [done|]. intros i t Hi Hle. apply (Hhigh i); [done|lia]. }
  set mid := low + (high - low) / 2.
  assert (Hmid : low ≤ mid < high).
  { rw /mid. assert ((high - low) / 2 < high - low) by (apply Nat.div_lt; lia). lia. }
  destruct (lookup_lt_is_Some_2 ts mid) as [m Hm]; [lia|]. rw Hm. simpl.
  destruct (offset m <? at_) eqn:Hc; [apply Nat.ltb_lt in Hc|apply Nat.ltb_ge in Hc].
  - apply IH; [lia..| |done]. intros i t Hi Hle. destruct (decide (i = mid)) as [->|]; [congruence|].
    assert (offset t < offset m) by (apply (sorted_lookup ts i mid); [done..|lia]). lia.
  - apply IH; [lia..|done|]. intros i t Hi Hle. destruct (decide (i = mid)) as [->|]; [congruence|].
    assert (offset m < offset t) by (apply (sorted_lookup ts mid i); [done..|lia]). lia.
Qed.

Lemma TokenIndexAt_spec ts i t :
  sorted_tokens ts → ts !! i = Some t → type t ≠ END_OF_INPUT → TokenIndexAt ts (offset t) = Some i.
Proof.
  intros Hs Hi Ht. rw /TokenIndexAt /FirstTokenFrom.
  destruct (search_tokens_spec (S (length ts)) ts (offset t) 0 (length ts)) as [H1 H2]; [done|lia..|lia| |].
  { intros j u Hj Hle. apply lookup_lt_Some in Hj. lia. }
  set r := search_tokens _ _ _ _ _ in H1 H2 |- *.
  assert (r = i) as ->.
  { destruct (Nat.lt_trichotomy r i) as [Hr|[->|Hr]]; [|done|].
    - destruct (lookup_lt_is_Some_2 ts r) as [u Hu]; [apply lookup_lt_Some in Hi; lia|].
      pose proof (sorted_lookup ts r i u t Hs Hu Hi Hr). specialize (H2 r u Hu). lia.
    - specialize (H1 i t Hi Hr). lia. }
  by rw Hi Nat.eqb_refl bool_decide_eq_false_2.
Qed.

Section positions.
Context `{SU : StringUtil}.

Lemma pieces_text_rest ps rest : pieces_text ps rest = pieces_text ps EmptyString +:+ rest.
Proof. induction ps as [|p ps IH]; [done|]. by rw /= IH -!string_app_assoc. Qed.

(** A head's tokens lie in its text, in order, before its end *)
Record lies_in (n : nat) (query : string) (t : Token) : Prop := {
  li_text : string_take (length_ t) (string_drop (offset t) query) = text t;
  li_end : offset t + length_ t < n;
}.

Lemma lies_in_shift w n query t :
  lies_in n query t → lies_in (String.length w + n) (w +:+ query) (shift (String.length w) t).
Proof. intros [H1 H2]. split; simpl; [by rw string_drop_app|lia]. Qed.

Lemma head_tokens_lie ps rest : Forall (lies_in (pieces_length ps) (pieces_text ps rest)) (head_tokens ps).
Proof.
  induction ps as [|p ps IH]; [constructor|]. rw /= word_app. constructor.
  - split; simpl; [|rw pieces_length_cons; lia]. rw -word_app. apply string_take_all.
  - rw -word_length pieces_length_cons -word_length. apply Forall_fmap. eapply Forall_impl; [exact IH|].
    intros t. apply lies_in_shift.
Qed.

Lemma sorted_shift n ts : sorted_tokens ts → sorted_tokens (map (shift n) ts).
Proof.
  induction 1 as [|t ts Hs IH Hall]; constructor; [done|]. apply Forall_fmap.
  eapply Forall_impl; [exact Hall|]. simpl. lia.
Qed.
Lemma head_tokens_sorted ps : sorted_tokens (head_tokens ps).
Proof.
  induction ps as [|p ps IH]; constructor; [by apply sorted_shift|].
  apply Forall_fmap, Forall_forall. simpl. lia.
Qed.
Lemma sorted_app n hs ts :
  sorted_tokens hs → Forall (λ t, offset t < n) hs → sorted_tokens ts → Forall (λ t, n ≤ offset t) ts →
  sorted_tokens (hs ++ ts).
Proof.
  intros Hh Hn Ht Hts. induction Hh as [|t hs Hh IH Hall]; [done|]. inversion Hn as [|? ? Hlt Hrest]; subst.
  constructor; [by apply IH|]. apply Forall_app. split; [done|]. eapply Forall_impl; [exact Hts|]. simpl. lia.
Qed.
Lemma shifted_past n ts : Forall (λ t, n ≤ offset t) (map (shift n) ts).
Proof. apply Forall_fmap, Forall_forall. simpl. lia. Qed.

(** *** Where the rest starts *)

Lemma head_end_bound tail more n e :
  Forall (λ t, n ≤ offset t) more → n ≤ S e → n ≤ S (head_end tail more e).
Proof.
  revert e. induction more as [|t more IH]; intros e; [done|]. intros [Ht Hm]%Forall_cons He. simpl.
  destruct (match tail with Some _ => _ | None => _ end); [done|]. destruct (ends_statement t); [done|].
  apply IH; [done|lia].
Qed.
Lemma head_end_app tail hs more e :
  Forall (λ t, type t = PLAIN ∧ match tail with Some at_ => offset t < at_ | None => True end) hs →
  head_end tail (hs ++ more) e = head_end tail more (match last hs with Some t => offset t + length_ t | None => e end).
Proof.
  revert e. induction hs as [|t hs IH]; intros e; [done|]. intros [[Hp Ht] Hhs]%Forall_cons. simpl.
  assert (match tail with Some at_ => at_ <=? offset t | None => false end = false) as ->.
  { destruct tail; [apply Nat.leb_gt; lia|done]. }
  rw /ends_statement Hp /=. rw IH // last_cons. by destruct (last hs).
Qed.
Lemma head_tokens_last p ps t : last (head_tokens (p :: ps)) = Some t → S (offset t + length_ t) = pieces_length (p :: ps).
Proof.
  revert p t. induction ps as [|q ps IH]; intros p t.
  - simpl. intros [= <-]. rw pieces_length_cons /pieces_length /=. lia.
  - rw pieces_length_cons. change (head_tokens (p :: q :: ps)) with
      (first_token (piece_text p) :: map (shift (String.length (piece_text p) + 1)) (head_tokens (q :: ps))).
    rw last_cons -/(fmap _ _) fmap_last. destruct (last (head_tokens (q :: ps))) as [u|] eqn:Hu.
    + intros [= <-]. simpl. apply IH in Hu. simpl in *. lia.
    + by apply last_None in Hu.
Qed.

Lemma past_space_rest query at_ : string_drop (past_space query at_) query = trim_left (string_drop at_ query).
Proof. symmetry. etransitivity; [apply trim_left_drop|]. by rw string_drop_drop. Qed.
Lemma pieces_end p ps rest : string_drop (pieces_length (p :: ps) - 1) (pieces_text (p :: ps) rest) = String " " rest.
Proof.
  rw pieces_length_cons. revert p. induction ps as [|q ps IH]; intros p.
  - rw /pieces_length /= -(Nat.add_0_r (String.length (piece_text p))). 
    replace (String.length (piece_text p) + 0 + 1 + 0 - 1) with (String.length (piece_text p) + 0) by lia.
    by rw string_drop_app.
  - rw /= word_app. replace (String.length (piece_text p) + 1 + pieces_length (q :: ps) - 1)
      with (String.length (piece_text p +:+ " ") + (pieces_length (q :: ps) - 1)).
    + rw string_drop_app pieces_length_cons. apply IH.
    + rw word_length pieces_length_cons. lia.
Qed.
End positions.

(** *** The markers placed *)

Definition marker_field (k : MarkerKind) (p : AclPrefix) : string :=
  match k with
  | TRACE => p_correlation_id p
  | PARENT => p_traceparent p
  | LINEAGE_PARENT => parent (p_lineage p)
  | LINEAGE_ROOT => root_parent (p_lineage p)
  | LINEAGE_JOB => job_name (p_lineage p)
  end.
Definition placed (k : MarkerKind) (v : string) : string := if is_lineage k then BoundLineage v else v.

Lemma place_marker_field k k' v p :
  marker_field k' (place_marker k v p) = if decide (k = k') then placed k v else marker_field k' p.
Proof. by destruct k, k'. Qed.

(** The refusals of a goal [.. = Ok _] discharged *)
Ltac unrefused :=
  match goal with |- context [match ?m with Some _ => Throw _ | None => _ end] => destruct m; [done|] end.

Lemma place_markers_keep ms seen p p' :
  place_markers ms seen p = Ok p' →
  p_kind p' = p_kind p ∧ p_value p' = p_value p ∧ ∀ k, k ∈ seen → marker_field k p' = marker_field k p.
Proof.
  revert seen p. induction ms as [|[k v] ms IH]; intros seen p; simpl; [by intros [= ->]|].
  destruct (bool_decide (k ∈ seen)) eqn:Hk; [done|]. apply bool_decide_eq_false in Hk. unrefused.
  intros (H1 & H2 & H3)%IH. split_and!; [done..|]. intros k' Hk'. rw H3; [set_solver|].
  rw place_marker_field decide_False //. congruence.
Qed.
Lemma place_markers_value ms seen p p' k v :
  place_markers ms seen p = Ok p' → (k, v) ∈ ms → marker_field k p' = placed k v.
Proof.
  revert seen p. induction ms as [|[k0 v0] ms IH]; intros seen p; simpl; [by intros _ ?%not_elem_of_nil|].
  destruct (bool_decide (k0 ∈ seen)); [done|]. unrefused. intros Hp [[= <- <-]|Hin]%elem_of_cons.
  - apply place_markers_keep in Hp as (_ & _ & Hf). rw (Hf k); [set_solver|]. by rw place_marker_field decide_True.
  - by apply (IH _ _ Hp).
Qed.
Lemma place_markers_other ms seen p p' k :
  place_markers ms seen p = Ok p' → k ∉ ms.*1 → marker_field k p' = marker_field k p.
Proof.
  revert seen p. induction ms as [|[k0 v0] ms IH]; intros seen p; simpl; [by intros [= ->]|].
  destruct (bool_decide (k0 ∈ seen)); [done|]. unrefused. intros Hp Hin. rw (IH _ _ Hp); [set_solver|].
  rw place_marker_field decide_False //. set_solver.
Qed.
Lemma place_markers_ok ms seen p :
  NoDup ms.*1 → (∀ k, k ∈ seen → k ∉ ms.*1) →
  (∀ k v, (k, v) ∈ ms → match k with LINEAGE_PARENT | LINEAGE_ROOT => LineageRunRefCheck v | _ => None end = None) →
  ∃ p', place_markers ms seen p = Ok p'.
Proof.
  revert seen p. induction ms as [|[k v] ms IH]; intros seen p Hnd Hseen Hok; [by exists p|]. simpl.
  apply NoDup_cons in Hnd as [Hk Hnd]. rw bool_decide_eq_false_2; [intros Hk'; apply (Hseen k); set_solver|].
  rw (Hok k v); [set_solver|]. apply IH; [done|set_solver|set_solver].
Qed.

Lemma BoundLineage_idemp v : BoundLineage (BoundLineage v) = BoundLineage v.
Proof.
  rw {1}/BoundLineage /TruncateUtf8. pose proof (TruncateUtf8_length v 512) as Hl. rw -/(BoundLineage v) in Hl.
  by rw (proj2 (Nat.leb_le _ _) Hl).
Qed.

Lemma is_empty_false s : is_empty s = false → s ≠ EmptyString.
Proof. by destruct s. Qed.
Lemma values_kinds cid tp lp lr lj :
  forallb (λ kv, negb (is_lineage kv.1)) (trace_values cid tp) = true ∧
  forallb (λ kv, is_lineage kv.1) (lineage_values lp lr lj) = true ∧
  NoDup (trace_values cid tp ++ lineage_values lp lr lj).*1.
Proof.
  rw /trace_values /lineage_values.
  destruct (is_empty cid), (is_empty tp), (is_empty lp), (is_empty lr), (is_empty lj); split_and!; try done;
    apply (bool_decide_unpack _); by vm_compute.
Qed.

(** ** The properties *)

Section properties.
Context `{SUL : StringUtilLaws} {TK : Tokenizer} {TL : TokenizerLaws}.

Lemma pieces_ok_head h cid tp lp lr lj ts :
  begins_literal ts = false → pieces_ok (prefix_pieces h cid tp lp lr lj) (begins_literal ts).
Proof.
  intros ->. rw /prefix_pieces /section_pieces /trace_values /lineage_values.
  destruct (is_empty cid), (is_empty tp), (is_empty lp), (is_empty lr), (is_empty lj); simpl; split_and!; done.
Qed.

Lemma client_free_shift n ts : client_free ts → client_free (map (shift n) ts).
Proof. by destruct ts. Qed.

(** A composed text as the reader sees it *)
Record composed_text (h cid tp lp lr lj sql : string) (ts : list Token) (query : string) (hs tail : list Token)
    (d : PrefixParseData) : Prop := {
  ct_word : CIEquals (ReadWord (SkipWhitespace query)) "acl" = true;
  ct_tokens : tokens_of query = Ok (hs ++ tail);
  ct_hs : hs = head_tokens (prefix_pieces h cid tp lp lr lj);
  ct_tail : tail = map (shift (pieces_length (prefix_pieces h cid tp lp lr lj))) ts;
  ct_kind : StartsWithPrefix (hs ++ tail) = Some SESSION;
  ct_head : read_head (hs ++ tail) = Some d;
  ct_read : composed_head h (trace_values cid tp) (lineage_values lp lr lj) hs tail d;
}.

Lemma composed_reads h cid tp lp lr lj sql ts :
  reads sql ts → begins_literal ts = false →
  ∃ hs tail d, composed_text h cid tp lp lr lj sql ts (pieces_text (prefix_pieces h cid tp lp lr lj) sql) hs tail d.
Proof.
  intros Hr Hb. set ps := prefix_pieces h cid tp lp lr lj.
  destruct (values_kinds cid tp lp lr lj) as (Ht & Hl & _).
  assert (Hb' : begins_literal (map (shift (pieces_length ps)) ts) = false) by by rw begins_literal_shift.
  destruct (read_composed h _ _ _ _ (head_tokens_pieces ps) Ht Hl Hb') as (Hk & d & Hd & Hc).
  eexists _, _, d. split; [| |reflexivity|reflexivity|exact Hk|exact Hd|exact Hc].
  - by rw /ps /prefix_pieces /SkipWhitespace /= CIEquals_law.
  - rw -pieces_tokens_head. apply tokens_of_pieces; [by apply pieces_ok_head|done].
Qed.

Lemma literal_quoted h (t : Token) : is_piece (L h) t →
  match text t with String c _ => Ascii.eqb c squote || Ascii.eqb c dquote | EmptyString => false end = true.
Proof. intros [-> _]. reflexivity. Qed.


Lemma head_tokens_plain ps : Forall (λ t, type t = PLAIN) (head_tokens ps).
Proof. induction ps as [|p ps IH]; constructor; [done|]. by apply Forall_fmap. Qed.

(** Where a composed head ends: at the client's text or past some of it *)
Lemma head_end_composed h cid tp lp lr lj sql ts query hs tail d :
  composed_text h cid tp lp lr lj sql ts query hs tail d →
  let e := head_end (d_tail_offset d) (d_head d) 0 in
  pieces_length (prefix_pieces h cid tp lp lr lj) ≤ S e ∧
  (client_free ts → S e = pieces_length (prefix_pieces h cid tp lp lr lj)).
Proof.
  intros [_ _ Hhs Htail _ _ [_ _ (more & rest & Hts & Hhead & Hfree & Htl)]].
  set ps := prefix_pieces h cid tp lp lr lj in Hhs, Htail |- *. rw Hhead.
  assert (Hpast : Forall (λ t, pieces_length ps ≤ offset t) (more ++ rest)) by (rw -Hts Htail; apply shifted_past).
  apply Forall_app in Hpast as [Hmore Hrest].
  rw head_end_app.
  - rw Hhs. pose proof (head_tokens_lie ps EmptyString) as Hlie. pose proof (head_tokens_plain ps) as Hplain.
    rw !Forall_forall in Hlie, Hplain |- *. intros t Ht. split; [by apply Hplain|].
    destruct (Hlie t Ht) as [_ Hend]. rw Htl. destruct rest as [|u rest]; [done|]. destruct (ends_statement u); [done|].
    apply Forall_cons in Hrest as [Hu _]. lia.
  - destruct (last hs) as [t|] eqn:Hlast.
    2: { apply last_None in Hlast. by rw Hlast in Hhs. }
    rw Hhs /ps /prefix_pieces in Hlast. apply head_tokens_last in Hlast. fold ps in Hlast.
    change (S (offset t + length_ t) = pieces_length ps) in Hlast. split.
    + apply head_end_bound; [done|lia].
    + intros Hc. rw Hfree; [rw Htail; by apply client_free_shift|]. simpl. lia.
Qed.

Lemma rest_composed h cid tp lp lr lj sql e :
  let ps := prefix_pieces h cid tp lp lr lj in
  pieces_length ps ≤ S e →
  (∃ client, sql = client +:+ trim_left (string_drop e (pieces_text ps sql))) ∧
  (S e = pieces_length ps → trim_left (string_drop e (pieces_text ps sql)) = trim_left sql).
Proof.
  intros ps He. set n := pieces_length ps in He |- *.
  assert (Hdrop : string_drop e (pieces_text ps sql) = string_drop (S e - n) (String " " sql)).
  { rw -(pieces_end (W "ACL") (W "SESSION" :: L h :: section_pieces (trace_values cid tp) (lineage_values lp lr lj)) sql).
    rw string_drop_drop. f_equal. change (pieces_length _) with n.
    assert (0 < n) by (rw /n /ps /prefix_pieces pieces_length_cons; lia). lia. }
  rw Hdrop. split.
  - destruct (S e - n) as [|j].
    + change (trim_left (string_drop 0 (String " " sql))) with (trim_left sql). rw trim_left_drop. apply string_drop_suffix.
    + change (string_drop (S j) (String " " sql)) with (string_drop j sql). rw trim_left_drop string_drop_drop.
      apply string_drop_suffix.
  - intros ->. by rw Nat.sub_diag.
Qed.

Lemma values_members cid tp lp lr lj :
  (cid ≠ EmptyString → (TRACE, BoundTrace cid) ∈ trace_values cid tp ++ lineage_values lp lr lj) ∧
  (tp ≠ EmptyString → (PARENT, BoundTrace tp) ∈ trace_values cid tp ++ lineage_values lp lr lj) ∧
  (lp ≠ EmptyString → (LINEAGE_PARENT, BoundLineage lp) ∈ trace_values cid tp ++ lineage_values lp lr lj) ∧
  (lr ≠ EmptyString → (LINEAGE_ROOT, BoundLineage lr) ∈ trace_values cid tp ++ lineage_values lp lr lj) ∧
  (lj ≠ EmptyString → (LINEAGE_JOB, BoundLineage lj) ∈ trace_values cid tp ++ lineage_values lp lr lj).
Proof.
  rw /trace_values /lineage_values.
  split_and!; intros Hne; rw !elem_of_app; [left; left|left; right|right; left|right; right; left|right; right; right];
    match goal with |- context [is_empty ?x] => destruct x; [done|]; left end.
Qed.


(** *** The head reads as it was composed *)

Lemma reads_sorted s ts : reads s ts → sorted_tokens ts.
Proof. destruct 1 as [ts H1|q m ts _ _ _ H1]; by apply (Tokens_sorted _ _ H1). Qed.

Lemma composed_sorted h cid tp lp lr lj sql ts query hs tail d :
  reads sql ts → composed_text h cid tp lp lr lj sql ts query hs tail d → sorted_tokens (hs ++ tail).
Proof.
  intros Hr [_ _ -> -> _ _ _]. set ps := prefix_pieces _ _ _ _ _ _. apply (sorted_app (pieces_length ps)).
  - apply head_tokens_sorted.
  - eapply Forall_impl; [apply (head_tokens_lie ps EmptyString)|]. intros t [_ Ht]. lia.
  - apply sorted_shift. by eapply reads_sorted.
  - apply shifted_past.
Qed.

Lemma written_head v : ∃ rest, written squote v = String squote rest.
Proof. by eexists. Qed.

Lemma require_plain_composed h cid tp lp lr lj sql ts hs tail d t v what :
  reads sql ts →
  composed_text h cid tp lp lr lj sql ts (pieces_text (prefix_pieces h cid tp lp lr lj) sql) hs tail d →
  t ∈ hs → text t = written squote v → type t = PLAIN →
  require_plain (pieces_text (prefix_pieces h cid tp lp lr lj) sql) (hs ++ tail) (offset t) v what = Ok ().
Proof.
  intros Hr Hct Ht Htext Htype. pose proof (composed_sorted _ _ _ _ _ _ _ _ _ _ _ _ Hr Hct) as Hs.
  destruct Hct as [_ _ Hhs _ _ _ _]. set ps := prefix_pieces h cid tp lp lr lj in Hhs |- *.
  apply list_elem_of_lookup in Ht as [i Hi]. pose proof (lookup_app_l_Some hs tail i t Hi) as Hi'.
  rw /require_plain (TokenIndexAt_spec _ i t Hs Hi') ?Htype //. cbn [mbind option_bind]. rw Hi'.
  pose proof (head_tokens_lie ps sql) as Hlie. rw -Hhs Forall_forall in Hlie.
  destruct (Hlie t) as [Hin Hend]; [by eapply list_elem_of_lookup_2|].
  rw /WrittenPlainly Hin String.eqb_refl (pieces_text_rest ps) string_length_app.
  assert (String.length (pieces_text ps EmptyString) + String.length sql <? offset t + length_ t = false) as ->.
  { apply Nat.ltb_ge. rw /pieces_length in Hend. lia. }
  simpl. rw Htext. destruct (written_head v) as [rest Hrest]. rw {1}Hrest. by rw Ascii.eqb_refl /= String.eqb_refl.
Qed.

Lemma reserved_word t w :
  CIEquals (text t) w = false → string_map lower_char w = w → String.eqb (Lower (text t)) w = false.
Proof. rw CIEquals_law Lower_law bool_decide_eq_false. intros Hne Hw. apply String.eqb_neq. congruence. Qed.

Lemma stopped_at_free h cid tp lp lr lj sql ts hs tail d query :
  reads sql ts → composed_text h cid tp lp lr lj sql ts query hs tail d → client_free ts →
  stopped_at (hs ++ tail) d = Ok ().
Proof.
  intros Hr Hct Hfree. pose proof (composed_sorted _ _ _ _ _ _ _ _ _ _ _ _ Hr Hct) as Hs.
  destruct Hct as [_ _ _ Htail _ _ [_ _ (more & rest & Hts & _ & Hmore & Htl)]].
  assert (Hcf : client_free tail) by (rw Htail; by apply client_free_shift).
  rw (Hmore Hcf) /= in Hts. rw /stopped_at Htl. destruct rest as [|u rest]; [done|].
  destruct (ends_statement u) eqn:Hu; [done|]. destruct (d_mode_written d); [done|].
  assert (Hi : (hs ++ tail) !! length hs = Some u) by by rw lookup_app_r // Nat.sub_diag Hts.
  rw (TokenIndexAt_spec _ (length hs) u Hs Hi).
  { intros Ht. by rw /ends_statement Ht orb_true_r in Hu. }
  simpl. rw Hi /=. rw Hts in Hcf. rw /client_free /reserved !Forall_cons in Hcf.
  destruct Hcf as (H1 & H2 & H3 & H4 & H5 & _).
  by rw !reserved_word // !andb_false_r.
Qed.

Lemma place_values cid tp lp lr lj p p' :
  place_markers (trace_values cid tp ++ lineage_values lp lr lj) [] p = Ok p' →
  (∀ k, marker_field k p = EmptyString) →
  p_correlation_id p' = BoundTrace cid ∧ p_traceparent p' = BoundTrace tp ∧
  p_lineage p' = {| parent := BoundLineage lp; root_parent := BoundLineage lr; job_name := BoundLineage lj |}.
Proof.
  intros Hp Hnone. destruct (values_members cid tp lp lr lj) as (H1 & H2 & H3 & H4 & H5).
  assert (Hin : ∀ k v, (k, v) ∈ trace_values cid tp ++ lineage_values lp lr lj → marker_field k p' = placed k v).
  { intros k v. by apply (place_markers_value _ _ _ _ _ _ Hp). }
  assert (Hout : ∀ k, k ∉ (trace_values cid tp ++ lineage_values lp lr lj).*1 → marker_field k p' = EmptyString).
  { intros k Hk. by rw (place_markers_other _ _ _ _ _ Hp Hk). }
  assert (HL : p_lineage p' = {| parent := marker_field LINEAGE_PARENT p'; root_parent := marker_field LINEAGE_ROOT p';
                                 job_name := marker_field LINEAGE_JOB p' |}) by (simpl; by destruct (p_lineage p')).
  assert (Hf : ∀ k v bound, bound EmptyString = EmptyString → placed k (bound v) = bound v →
            (v ≠ EmptyString → (k, bound v) ∈ trace_values cid tp ++ lineage_values lp lr lj) →
            (v = EmptyString → k ∉ (trace_values cid tp ++ lineage_values lp lr lj).*1) →
            marker_field k p' = bound v).
  { intros k v bound Hb Hpl Hyes Hno. destruct (decide (v = EmptyString)) as [->|Hne].
    - rw Hb. by apply Hout, Hno.
    - rw -Hpl. by apply Hin, Hyes. }
  assert (Habsent : ∀ k v, v = EmptyString →
            v = match k with TRACE => cid | PARENT => tp | LINEAGE_PARENT => lp | LINEAGE_ROOT => lr | LINEAGE_JOB => lj end →
            k ∉ (trace_values cid tp ++ lineage_values lp lr lj).*1).
  { intros k v -> Hk Hmem. rw /trace_values /lineage_values in Hmem.
    destruct k; rw -Hk /= in Hmem; revert Hmem; repeat case_match; simpl; rw ?elem_of_cons ?elem_of_nil; naive_solver. }
  rw HL. split; [|split; [|f_equal]].
  - apply (Hf TRACE cid BoundTrace); [done|done|exact H1|by intros; eapply Habsent].
  - apply (Hf PARENT tp BoundTrace); [done|done|exact H2|by intros; eapply Habsent].
  - apply (Hf LINEAGE_PARENT lp BoundLineage); [done|apply BoundLineage_idemp|exact H3|by intros; eapply Habsent].
  - apply (Hf LINEAGE_ROOT lr BoundLineage); [done|apply BoundLineage_idemp|exact H4|by intros; eapply Habsent].
  - apply (Hf LINEAGE_JOB lj BoundLineage); [done|apply BoundLineage_idemp|exact H5|by intros; eapply Habsent].
Qed.

Lemma ReadPrefix_back h cid tp lp lr lj sql ts :
  h ≠ EmptyString → reads sql ts → begins_literal ts = false → client_free ts →
  ∃ e, ReadPrefix false (pieces_text (prefix_pieces h cid tp lp lr lj) sql) =
    Ok (Some {| kind := SESSION; value := h; markers := trace_values cid tp ++ lineage_values lp lr lj;
                lineage_written := match lineage_values lp lr lj with [] => 0 | _ => 1 end;
                mode_written := false; native := false;
                rest_start := past_space (pieces_text (prefix_pieces h cid tp lp lr lj) sql) e |})
    ∧ S e = pieces_length (prefix_pieces h cid tp lp lr lj).
Proof.
  intros Hh Hr Hb Hfree. destruct (composed_reads h cid tp lp lr lj sql ts Hr Hb) as (hs & tail & d & Hct).
  destruct (head_end_composed _ _ _ _ _ _ _ _ _ _ _ _ Hct) as [_ Hend]. specialize (Hend Hfree).
  exists (head_end (d_tail_offset d) (d_head d) 0). split; [|exact Hend].
  pose proof (stopped_at_free _ _ _ _ _ _ _ _ _ _ _ _ Hr Hct Hfree) as Hstop.
  pose proof (λ t v what, require_plain_composed h cid tp lp lr lj sql ts hs tail d t v what Hr Hct) as Hplain.
  destruct Hct as [_ Htok Hhs Htail Hk Hd [(v & Hv & Hdv & Hp) (ms & extra & Hm & [Hoff Hms] & Hmode) _]].
  destruct Hmode as (-> & Hmw & Hnat & Hlw); [by rw Htail; apply client_free_shift|].
  set query := pieces_text _ sql in Htok, Hplain |- *. clearbody query.
  rw /ReadPrefix Htok /= Hk. assert ((hs ++ tail) !! 2 = Some v) as -> by by apply lookup_app_l_Some.
  rw (literal_quoted h v Hp) /= Hd Hdv /= Hplain; [by eapply list_elem_of_lookup_2|by destruct Hp..|].
  assert (is_empty h = false) as Hh' by by destruct h. rw /= Hh' /=.
  rw (omapM_all _ (λ m, (mk_kind m, mk_value m))).
  { intros m Hin. rw Hm app_nil_r in Hin. rw Forall_forall in Hms. destruct (Hms m Hin) as (t & Ht & <- & Htext & Htype).
    by rw Hplain. }
  rw /= Hstop /= Hmw Hnat Hlw Hm app_nil_r Hoff. done.
Qed.

(** the prefix reads back.  A session's statement, composed with its handle and whatever trace and
    lineage it and its caller carry, is read as that session's query with exactly those texts - quotes in
    them doubled and undone - and the client's text to run, when that text opens with no word of the
    prefix and the lineage parents are run references. *)
Theorem prefix_reads_back (h : string) (s : Session) (sql cid tp lp lr lj : string) (ts : list Token) :
  h ≠ EmptyString → reads sql ts → begins_literal ts = false → client_free ts →
  LineageRunRefCheck (BoundLineage (carried lp (lineage_parent s))) = None →
  LineageRunRefCheck (BoundLineage (carried lr (lineage_root_parent s))) = None →
  ReadAclPrefix false (prefixed h s sql cid tp lp lr lj) =
    Ok {| p_kind := Some SESSION; p_mode := QUERY; p_marked := false; p_value := h; p_rest := trim_left sql;
          p_correlation_id := BoundTrace (carried cid (correlation_id s));
          p_traceparent := BoundTrace (carried tp (traceparent s));
          p_lineage := {| parent := BoundLineage (carried lp (lineage_parent s));
                          root_parent := BoundLineage (carried lr (lineage_root_parent s));
                          job_name := BoundLineage (carried lj (lineage_job s)) |} |}.
Proof.
  intros Hh Hr Hb Hfree Hcp Hcr. rw prefixed_pieces. set vc := carried cid _. set vt := carried tp _.
  set vp := carried lp _ in Hcp |- *. set vr := carried lr _ in Hcr |- *. set vj := carried lj _.
  destruct (ReadPrefix_back h vc vt vp vr vj sql ts Hh Hr Hb Hfree) as (e & Hread & He).
  destruct (composed_reads h vc vt vp vr vj sql ts Hr Hb) as (hs & tail & d & [Hword _ _ _ _ _ _]).
  destruct (rest_composed h vc vt vp vr vj sql e) as [_ Hrest]; [lia|]. specialize (Hrest He).
  rw -past_space_rest in Hrest. rw /ReadAclPrefix Hword Hread /= Hrest.
  assert ((1 <? match lineage_values vp vr vj with [] => 0 | _ => 1 end) = false) as -> by by destruct (lineage_values vp vr vj).
  set p0 := {| p_kind := _; p_mode := QUERY; p_marked := _; p_value := _; p_rest := _; p_correlation_id := _;
               p_traceparent := _; p_lineage := _ |}.
  destruct (place_markers_ok (trace_values vc vt ++ lineage_values vp vr vj) [] p0) as [p1 Hp1].
  - apply values_kinds.
  - set_solver.
  - intros k v [Hin|Hin]%elem_of_app.
    + rw /trace_values in Hin. destruct (is_empty vc), (is_empty vt); set_solver.
    + rw /lineage_values in Hin. destruct (is_empty vp), (is_empty vr), (is_empty vj); set_solver.
  - destruct (place_values _ _ _ _ _ _ _ Hp1) as (H1 & H2 & H3); [by intros []|].
    destruct (place_markers_keep _ _ _ _ Hp1) as (H4 & H5 & _). by rw Hp1 /= H1 H2 H3 H4 H5.
Qed.
End properties.

(** ** A tokenizer that keeps the laws

    Words, quoted literals, single characters; spaces separate them.  Offsets are relative to the text
    lexed and shifted by what stands before it. *)

Section lexer.

Definition shifted (n : nat) (r : tokenized) : tokenized :=
  match r with Tokens ts => Tokens (map (shift n) ts) | Unreadable p m => Unreadable (Nat.add n <$> p) m end.
Definition after (t : Token) (r : tokenized) : tokenized :=
  match shifted (length_ t) r with Tokens ts => Tokens (t :: ts) | Unreadable p m => Unreadable p m end.

(** The characters of a literal past its opening quote, its closing quote included *)
Fixpoint closing_quote (s : string) : option nat :=
  match s with
  | EmptyString => None
  | String c s' =>
      if Ascii.eqb c squote then
        match s' with
        | String d s'' => if Ascii.eqb d squote then (Nat.add 2) <$> closing_quote s'' else Some 1
        | EmptyString => Some 1
        end
      else S <$> closing_quote s'
  end.
Fixpoint literal_value (s : string) : string :=
  match s with
  | EmptyString => EmptyString
  | String c s' =>
      if Ascii.eqb c squote then
        match s' with
        | String d s'' => if Ascii.eqb d squote then String squote (literal_value s'') else EmptyString
        | EmptyString => EmptyString
        end
      else String c (literal_value s')
  end.

Fixpoint lex (fuel : nat) (s : string) : tokenized :=
  match fuel with
  | O => Unreadable None EmptyString
  | S fuel =>
      match s with
      | EmptyString => Tokens [{| text := EmptyString; offset := 0; length_ := 0; type := END_OF_INPUT |}]
      | String c s' =>
          if space_char c then shifted 1 (lex fuel s')
          else if Ascii.eqb c squote then
            match closing_quote s' with
            | None => Unreadable (Some 0) "unterminated quoted string"
            | Some n => let t := string_take (S n) s in after (first_token t) (lex fuel (string_drop n s'))
            end
          else if IsWordChar c then
            let w := ReadWord s in after (first_token w) (lex fuel (string_drop (String.length w) s))
          else after {| text := str1 c; offset := 0; length_ := 1;
                        type := if Ascii.eqb c ";" then TERMINATOR else PLAIN |} (lex fuel s')
      end
  end.
Definition lexed (s : string) : tokenized := lex (S (String.length s)) s.

Definition lexer : Tokenizer := {|
  TokenizeInput := lexed;
  ReadValue ts :=
    match ts with
    | t :: ts =>
        match text t with
        | String c s => if Ascii.eqb c squote then Some (literal_value s, ts)
                        else if letter c then Some (text t, ts) else None
        | EmptyString => None
        end
    | [] => None
    end |}.
#[local] Existing Instance lexer.
#[local] Existing Instance reference_string_util.

Lemma ReadWord_length s : String.length (ReadWord s) ≤ String.length s.
Proof. induction s as [|c s IH]; simpl; [done|]. destruct (IsWordChar c); simpl; lia. Qed.
Lemma lex_enough f g s : String.length s < f → String.length s < g → lex f s = lex g s.
Proof.
  revert g s. induction f as [|f IH]; intros [|g] s Hf Hg; try lia. simpl.
  destruct s as [|c s]; [done|]. simpl in Hf, Hg. destruct (space_char c); [rw (IH g) //; lia|].
  destruct (Ascii.eqb c squote).
  - destruct (closing_quote s) as [n|]; [|done]. rw (IH g) //; rw string_drop_length; lia.
  - destruct (IsWordChar c) eqn:Hc; [|rw (IH g) //; lia]. simpl. rw Hc. rw (IH g) //; rw string_drop_length /=; lia.
Qed.
Lemma lex_fuel f s : String.length s < f → lex f s = lexed s.
Proof. intros Hf. apply lex_enough; lia. Qed.

Lemma lexed_space c s : space_char c = true → lexed (String c s) = shifted 1 (lexed s).
Proof. intros Hc. rw {1}/lexed. cbn [lex]. by rw Hc (lex_fuel (String.length (String c s)) s); [simpl; lia|]. Qed.
Lemma shifted_shifted n m r : shifted n (shifted m r) = shifted (n + m) r.
Proof. destruct r as [ts|[p|] msg]; rw /= ?shift_shift // Nat.add_assoc //. Qed.

Lemma ReadWord_app w s : string_forallb letter w = true → ReadWord (w +:+ String " " s) = w.
Proof.
  induction w as [|c w IH]; [done|]. cbn [string_forallb]. rw andb_true_iff. intros [Hc Hw].
  rw string_app_cons /= (IH Hw). assert (IsWordChar c = true) as ->; [|done].
  move: Hc. by destruct c as [[] [] [] [] [] [] [] []].
Qed.

Lemma word_lexed w s :
  w ≠ EmptyString → string_forallb letter w = true →
  lexed (w +:+ " " +:+ s) = after (first_token w) (shifted 1 (lexed s)).
Proof.
  intros Hw Hl. pose proof (ReadWord_app w s Hl) as Hread. destruct w as [|c w]; [done|].
  cbn [string_forallb] in Hl. apply andb_true_iff in Hl as [Hc Hl].
  rw /lexed. change (String c w +:+ " " +:+ s) with (String c (w +:+ String " " s)) in *.
  cbn [lex]. assert (space_char c = false ∧ Ascii.eqb c squote = false ∧ IsWordChar c = true) as (-> & -> & ->).
  { move: Hc. by destruct c as [[] [] [] [] [] [] [] []]. }
  cbv zeta. rw string_app_cons in Hread. rw Hread. f_equal.
  change (String c (w +:+ String " " s)) with (String c w +:+ String " " s).
  rw -(Nat.add_0_r (String.length (String c w))) string_drop_app. cbn [string_drop].
  rw lex_fuel; [rw string_length_app /=; lia|]. by rw lexed_space.
Qed.

Lemma closing_doubled v s :
  (∀ d s', s = String d s' → d ≠ squote) →
  closing_quote (replace_char squote (str1 squote +:+ str1 squote) v +:+ str1 squote +:+ s) =
  Some (String.length (replace_char squote (str1 squote +:+ str1 squote) v) + 1).
Proof.
  intros Hs. induction v as [|c v IH].
  - destruct s as [|d s]; [done|]. specialize (Hs d s eq_refl). apply Ascii.eqb_neq in Hs.
    change (match (if Ascii.eqb d squote then (Nat.add 2) <$> closing_quote s else Some 1) with r => r end = Some 1).
    by rw Hs.
  - simpl. destruct (Ascii.eqb_spec squote c) as [<-|Hc].
    + set r := replace_char _ _ v in IH |- *.
      change ((Nat.add 2) <$> closing_quote (r +:+ str1 squote +:+ s) = Some (S (S (String.length r)) + 1)). by rw IH.
    + rw string_app_cons. cbn [closing_quote]. destruct (Ascii.eqb_spec c squote) as [->|_]; [done|]. rw IH. done.
Qed.
Lemma literal_doubled v : literal_value (replace_char squote (str1 squote +:+ str1 squote) v +:+ str1 squote) = v.
Proof.
  induction v as [|c v IH]; [done|]. simpl. destruct (Ascii.eqb_spec squote c) as [<-|Hc].
  - set r := replace_char _ _ v in IH |- *. change (String squote (literal_value (r +:+ str1 squote)) = String squote v). by rw IH.
  - rw string_app_cons. cbn [literal_value]. destruct (Ascii.eqb_spec c squote) as [->|_]; [done|]. by rw IH.
Qed.

Definition doubled_quotes (v : string) : string := replace_char squote (str1 squote +:+ str1 squote) v.
Lemma literal_lexed v s :
  lexed (written squote v +:+ " " +:+ s) = after (first_token (written squote v)) (shifted 1 (lexed s)).
Proof.
  change (written squote v) with (String squote (doubled_quotes v +:+ str1 squote)).
  set w := doubled_quotes v +:+ str1 squote. rw string_app_cons /lexed. cbn [lex].
  change (space_char squote) with false. rw Ascii.eqb_refl.
  assert (Hclose : closing_quote (w +:+ " " +:+ s) = Some (String.length w)).
  { rw /w -string_app_assoc /doubled_quotes closing_doubled; [by intros d s' [= <- _]|]. by rw string_length_app. }
  rw Hclose. cbv zeta. cbn [string_take]. rw string_take_all. f_equal.
  rw -(Nat.add_0_r (String.length w)) string_drop_app. cbn [string_drop].
  rw lex_fuel; [cbn [String.length]; rw !string_length_app; cbn [String.length]; lia|]. by apply lexed_space.
Qed.

Lemma after_follows t w s :
  t = first_token w → follows t (String.length w + 1) (lexed s) (after t (shifted 1 (lexed s))).
Proof.
  intros ->. rw /after shifted_shifted /=. destruct (lexed s) as [ts|[p|] m]; simpl; by [|eexists].
Qed.

Lemma lex_sorted f s ts : lex f s = Tokens ts → sorted_tokens ts.
Proof.
  assert (Hafter : ∀ t r ts, 0 < length_ t → offset t = 0 → (∀ ts, r = Tokens ts → sorted_tokens ts) →
            after t r = Tokens ts → sorted_tokens ts).
  { intros t [us|] ts' Hlen Ho Hr; [|done]. intros [= <-]. constructor; [by apply sorted_shift, Hr|].
    apply Forall_fmap, Forall_forall. simpl. lia. }
  revert s ts. induction f as [|f IH]; intros s ts; [done|]. destruct s as [|c s].
  { intros [= <-]. repeat constructor. }
  cbn [lex]. destruct (space_char c).
  { destruct (lex f s) as [us|] eqn:Hus; [|done]. intros [= <-]. by apply sorted_shift, (IH s). }
  destruct (Ascii.eqb c squote).
  { destruct (closing_quote s) as [n|]; [|done]. apply Hafter; simpl; [lia|done|by apply IH]. }
  destruct (IsWordChar c) eqn:Hc; apply Hafter; simpl; try done; [rw Hc /=; lia|by apply IH|lia|by apply IH].
Qed.

Lemma lexer_laws : TokenizerLaws.
Proof.
  split.
  - intros s ts. apply lex_sorted.
  - intros w s Hw Hl. change TokenizeInput with lexed. rw word_lexed //. by apply after_follows.
  - intros v s ts _ _. change TokenizeInput with lexed. rw literal_lexed. by apply after_follows.
  - intros t v ts Ht _ _. simpl. rw Ht.
    change (Some (literal_value (doubled_quotes v +:+ str1 squote), ts) = Some (v, ts)).
    by rw /doubled_quotes literal_doubled.
  - intros [|t ts] v ts'; [done|]. simpl. destruct (text t) as [|c s]; [done|].
    destruct (Ascii.eqb c squote); [|destruct (letter c)]; intros [= _ <-]; by exists [t].
Qed.
End lexer.

(** ** A statement of a session *)

#[local] Existing Instance reference_string_util.
#[local] Existing Instance reference_string_util_laws.
#[local] Existing Instance lexer.
#[local] Existing Instance lexer_laws.

Definition a_session : Session := new_session no_principal "i1" 0 0 "flight" None no_limits.
Definition a_query : string := " select 'x' from t".
Definition a_statement : string :=
  prefixed "abc" a_session a_query "it's" EmptyString EmptyString EmptyString "load 'em".

Definition tokens_in (s : string) : list Token := match lexed s with Tokens ts => ts | Unreadable _ _ => [] end.

Lemma prefix_reads_back_witness :
  a_statement = "ACL SESSION 'abc' TRACE 'it''s' LINEAGE JOB 'load ''em'  select 'x' from t" ∧
  ReadAclPrefix false a_statement =
    Ok {| p_kind := Some SESSION; p_mode := QUERY; p_marked := false; p_value := "abc";
          p_rest := "select 'x' from t"; p_correlation_id := "it's"; p_traceparent := EmptyString;
          p_lineage := {| parent := EmptyString; root_parent := EmptyString; job_name := "load 'em" |} |}.
Proof.
  split; [vm_compute; reflexivity|].
  apply (prefix_reads_back "abc" a_session a_query "it's" EmptyString EmptyString EmptyString "load 'em"
           (tokens_in a_query)).
  - discriminate.
  - apply reads_all. vm_compute. reflexivity.
  - vm_compute. reflexivity.
  - apply (bool_decide_unpack _). vm_compute. reflexivity.
  - vm_compute. reflexivity.
  - vm_compute. reflexivity.
Defined.

