(* ===== verification/Statements.v ===== *)
(** * Parsed statements, as the gate and the authorizer look at them

    duckdb's syntax tree is a submodule's; this is the part of it the administration code inspects: a
    statement's kind, a SELECT's shape, calls with their arguments.  What duckdb makes of a value's text is a
    parameter ([Engine]).  [MgmtCallName] ([acl_parser_override.cpp]), [CompiledCall] and [ConstantArgument]
    ([acl_platform.cpp]) read it. *)
From S2P Require Import Prelude.

(** ** Values and expressions *)

(** A constant: NULL, a boolean, a list of texts, anything else by its text *)
Inductive Value := Null | Boolean (b : bool) | ListOf (items : list (option string)) | Text (s : string).
#[export] Instance Value_eq_dec : EqDecision Value.
Proof. solve_decision. Defined.

Class Engine := {
  (* a list value's text *)
  list_text : list (option string) → string;
}.

Definition value_text `{Engine} (v : Value) : string :=
  match v with
  | Null => "NULL"
  | Boolean b => if b then "true" else "false"
  | ListOf items => list_text items
  | Text s => s
  end.
Definition IsNull (v : Value) : bool := match v with Null => true | _ => false end.

(** A call: the name as written, the arguments with the name each is given by *)
Record FunctionExpression (E : Type) := {
  path : list string;
  arguments : list (option string * E);
  Distinct : bool;
  Filter : bool;
  OrderBy : bool;
  alias : string;
}.
Arguments path {E}.
Arguments arguments {E}.
Arguments Distinct {E}.
Arguments Filter {E}.
Arguments OrderBy {E}.
Arguments alias {E}.
Arguments Build_FunctionExpression {E}.

Inductive Expr :=
  | Constant (v : Value)
  | Parameter_ (name : string)
  | Function_ (f : FunctionExpression Expr)
  (* [plain]: no EXCLUDE, REPLACE or RENAME, not COLUMNS(), no qualifier *)
  | Star (plain : bool)
  | OtherExpr.
Definition FunctionExpr : Type := FunctionExpression Expr.

(** The last part of the name *)
Definition FunctionName (call : FunctionExpr) : string := List.last (path call) EmptyString.

(** ** Statements *)

Record TableFunctionRef := {
  function : option Expr;
  ref_alias : bool;
  column_name_alias : bool;
  subquery : bool;
  ref_sample : bool;
}.
Inductive TableRef := EmptyTableRef | FromFunction (ref : TableFunctionRef) | OtherTableRef.

Record SelectNode := {
  select_list : list Expr;
  from_table : option TableRef;
  where_clause : bool;
  having : bool;
  qualify : bool;
  sample : bool;
  group_expressions : bool;
  grouping_sets : bool;
  modifiers : bool;
  cte_map : bool;
}.
(** [SELECT <items> FROM <table>] and nothing else *)
Definition bare_select (items : list Expr) (table : TableRef) : SelectNode :=
  {| select_list := items; from_table := Some table; where_clause := false; having := false; qualify := false;
     sample := false; group_expressions := false; grouping_sets := false; modifiers := false; cte_map := false |}.

Inductive SQLStatement :=
  (* [None]: a set operation, VALUES or the like *)
  | SelectStatement (node : option SelectNode)
  | CallStatement (function : option Expr)
  | InsertStatement
  (* of a table entry *)
  | CreateStatement (table_entry : bool)
  | OtherStatement.

Record Statement := {
  body : SQLStatement;
  (* its text *)
  query : string;
  named_param_map : list string;
  has_anonymous_parameters : bool;
  stmt_location : nat;
}.
Definition composed (s : SQLStatement) : Statement :=
  {| body := s; query := EmptyString; named_param_map := []; has_anonymous_parameters := false; stmt_location := 0 |}.

(** ** Reading a compiled call *)

Definition call_of (e : option Expr) : option FunctionExpr :=
  match e with Some (Function_ call) => Some call | _ => None end.

(** The admin function a compiled management statement calls, or empty *)
Definition MgmtCallName (stmt : SQLStatement) : string :=
  match stmt with
  | SelectStatement (Some node) =>
      match from_table node with
      | Some (FromFunction ref) => match call_of (function ref) with Some call => FunctionName call | None => EmptyString end
      | _ => match select_list node with
             | [item] => match call_of (Some item) with Some call => FunctionName call | None => EmptyString end
             | _ => EmptyString
             end
      end
  | _ => EmptyString
  end.

Definition no_compiled_call {A} : outcome A := Throw "acl admin: a management statement compiles to one call".
(** [SELECT acl_<fn>(…)] or [SELECT * FROM acl_<fn>(…)] *)
Definition CompiledCall (stmt : SQLStatement) : outcome FunctionExpr :=
  match stmt with
  | SelectStatement (Some node) =>
      match from_table node with
      | Some (FromFunction ref) =>
          (* the cast of what is no function is duckdb's internal error *)
          match call_of (function ref) with Some call => Ok call | None => Throw "Failed to cast expression to type" end
      | _ => match select_list node with
             | [item] => match call_of (Some item) with Some call => Ok call | None => no_compiled_call end
             | _ => no_compiled_call
             end
      end
  | _ => no_compiled_call
  end.

(** A constant argument's text, empty when it is absent or NULL; a parameter there is refused *)
Definition ConstantArgument `{Engine} (call : FunctionExpr) (index : nat) (function : string) : outcome string :=
  match arguments call !! index with
  | None => Ok EmptyString
  | Some (_, Constant v) => Ok (if IsNull v then EmptyString else value_text v)
  | Some _ => Throw ("acl admin: platform." +:+ function +:+ ": the argument that carries authorization must be a "
                     +:+ "constant, not a parameter - it is judged before the call runs")
  end.

(** ** Composing one *)

Definition constant_arguments (args : list Value) : list (option string * Expr) := map (λ v, (None, Constant v)) args.
Definition plain_call (name : string) (args : list (option string * Expr)) (alias : string) : FunctionExpr :=
  {| path := [name]; arguments := args; Distinct := false; Filter := false; OrderBy := false; alias := alias |}.
Definition select_call (call : FunctionExpr) : SQLStatement :=
  SelectStatement (Some (bare_select [Function_ call] EmptyTableRef)).
Definition select_from_call (call : FunctionExpr) : SQLStatement :=
  SelectStatement (Some (bare_select [Star true]
    (FromFunction {| function := Some (Function_ call); ref_alias := false; column_name_alias := false;
                     subquery := false; ref_sample := false |}))).

Lemma CompiledCall_select call : CompiledCall (select_call call) = Ok call.
Proof. done. Qed.
Lemma CompiledCall_from call : CompiledCall (select_from_call call) = Ok call.
Proof. done. Qed.
(** A compiled call's name is what the audit and the view-as check read *)
Lemma MgmtCallName_compiled stmt call : CompiledCall stmt = Ok call → MgmtCallName stmt = FunctionName call.
Proof.
  destruct stmt as [[node|]| | | |]; try done. simpl. destruct (from_table node) as [[|ref|]|].
  all: try (destruct (select_list node) as [|item [|]]; try done; destruct item; try done; by intros [= ->]).
  destruct (function ref) as [[]|]; try done. by intros [= ->].
Qed.
