(* ===== verification/Platform.v ===== *)
(** * The [platform] catalog ([src/src/acl_platform.cpp], [src/src/include/acl_platform.hpp])

    The registry of the administration's views and functions, the names that reach it, what a direct call
    compiles to and the one authorizer every management call passes.  What the rights themselves allow
    ([ReadsView], [CallsFunction]) is in [AdminRights]; the properties are in [PlatformLaws]. *)
From stdpp Require Import pretty.
From S2P Require Import Prelude NamePath FunctionCategories PolicyTypes AdminRights Statements.

(** ** The registry *)

(** The column types, by short name *)
Definition V_ : string := "VARCHAR".
Definition B_ : string := "BOOLEAN".
Definition I_ : string := "BIGINT".
Definition TS_ : string := "TIMESTAMP".
Definition TSZ_ : string := "TIMESTAMPTZ".
Definition LV_ : string := "VARCHAR[]".
Definition CAPS_ : string := "CAPS".
Definition MAPV_ : string := "MAP".
Definition MAPI_ : string := "MAPI".
Definition CONDITIONS_ : string := "CONDITIONS".
Definition ATTRIBUTES_ : string := "ATTRIBUTES".
Definition GROUPS_ : string := "GROUPS".
Definition OBJECTS_ : string := "OBJECTS".

Definition CAPABILITIES : list string :=
  ["select"; "insert"; "update"; "delete"; "merge"; "create"; "drop"; "temp"; "explain"; "secrets"; "lineage"; "manage"].

(** duckdb's types, as far as the views have them *)
Inductive LogicalType :=
  | VARCHAR | BOOLEAN | BIGINT | TIMESTAMP | TIMESTAMP_TZ
  | LIST (child : LogicalType)
  | STRUCT (children : list (string * LogicalType))
  | MAP (key value : LogicalType).

Definition CapsType : LogicalType := STRUCT (map (λ capability, (capability, BOOLEAN)) CAPABILITIES).
Definition ConditionsType : LogicalType := LIST (STRUCT [("path", VARCHAR); ("op", VARCHAR); ("values", LIST VARCHAR)]).
Definition AttributesType : LogicalType :=
  LIST (STRUCT [("name", VARCHAR); ("paths", LIST VARCHAR); ("constant", VARCHAR)]).
Definition GroupsType : LogicalType := MAP VARCHAR (STRUCT [("live", BIGINT); ("max", BIGINT)]).

Definition TypeOf (code : string) : outcome LogicalType :=
  if String.eqb code V_ then Ok VARCHAR
  else if String.eqb code B_ then Ok BOOLEAN
  else if String.eqb code I_ then Ok BIGINT
  else if String.eqb code TS_ then Ok TIMESTAMP
  else if String.eqb code TSZ_ then Ok TIMESTAMP_TZ
  else if String.eqb code OBJECTS_ then Ok (LIST (STRUCT [("name", VARCHAR); ("capability", VARCHAR)]))
  else if String.eqb code LV_ then Ok (LIST VARCHAR)
  else if String.eqb code CAPS_ then Ok CapsType
  else if String.eqb code MAPV_ then Ok (MAP VARCHAR VARCHAR)
  else if String.eqb code MAPI_ then Ok (MAP VARCHAR BIGINT)
  else if String.eqb code CONDITIONS_ then Ok ConditionsType
  else if String.eqb code ATTRIBUTES_ then Ok AttributesType
  else if String.eqb code GROUPS_ then Ok GroupsType
  else Throw ("acl platform: unknown column type " +:+ code).

Definition view (name : string) (cls : PlatformViewClass) (columns : list (string * string)) (comment : string)
    : PlatformView :=
  {| vname := name; view_class := cls; vcolumns := columns; vcomment := comment; vbody := None |}.
(** A parameter that carries authorization; one that does not *)
Definition A_ (name type fallback : string) : PlatformParam :=
  {| prm_name := name; authz := true; prm_type := type; fallback := fallback |}.
Definition P_ (name type fallback : string) : PlatformParam :=
  {| prm_name := name; authz := false; prm_type := type; fallback := fallback |}.
Definition function_ (name target : string) (params : list PlatformParam) (arities : list nat)
    (catalog_arg : option nat) (right : PlatformRight) (table : bool) (returns comment : string) : PlatformFunction :=
  {| pname := name; target := target; params := params; arities := arities; catalog_arg := catalog_arg;
     right := right; table := table; returns := returns; fcomment := comment;
     rule_arg := None; rule := None; rule_refusal := None |}.

(** The policy that a catalog admin reads of its catalogs *)
Definition catalog_views : list PlatformView := [
  view "catalogs" V_CATALOG [("catalog", V_); ("comment", V_)] "the virtual catalogs";
  view "relations" V_CATALOG [("catalog", V_); ("name", V_); ("form", V_); ("phys", V_); ("view_sql", V_); ("rls",
    V_); ("rls_checked", B_); ("origin", V_); ("comment", V_); ("alias_types", V_); ("enum_types", V_);
    ("created_by", V_)] "the virtual tables and views of each catalog";
  view "relation_columns" V_CATALOG [("catalog", V_); ("relation", V_); ("pos", I_); ("name", V_); ("expr", V_);
    ("nullable", B_)] "the declared column lists of the relations";
  view "schemas" V_CATALOG [("catalog", V_); ("path", V_); ("phys_path", V_); ("origin", V_); ("comment", V_);
    ("created_by", V_)] "the virtual schemas (aliases and expansions)";
  view "functions" V_CATALOG [("catalog", V_); ("name", V_); ("kind", V_); ("form", V_); ("target", V_);
    ("template", V_); ("params", LV_); ("comment", V_); ("created_by", V_)] "the virtual table and scalar functions";
  view "function_columns" V_CATALOG [("catalog", V_); ("function", V_); ("kind", V_); ("pos", I_); ("name", V_);
    ("type", V_); ("comment", V_); ("nullable", B_)] "the result columns of the virtual functions";
  view "references" V_CATALOG [("catalog", V_); ("name", V_); ("from_object", V_); ("to_object", V_); ("to_kind",
    V_); ("expression", V_); ("cardinality", V_); ("optional", B_); ("join_method", V_); ("comment", V_);
    ("created_by", V_)] "the declared join paths (spec 022)";
  view "reference_columns" V_CATALOG [("catalog", V_); ("reference", V_); ("pos", I_); ("side", V_); ("column", V_);
    ("param", V_)] "the columns each reference pairs";
  view "keys" V_CATALOG [("catalog", V_); ("object", V_); ("kind", V_); ("pos", I_); ("column", V_)] "the declared keys (spec 048)";
  view "roles" V_ROLES [("role", V_); ("comment", V_)] "the roles";
  view "role_claims" V_POLICY [("role", V_); ("claim", V_); ("value", V_)] "the default claims of each role";
  view "grants" V_CATALOG [("role", V_); ("catalog", V_); ("is_main", B_); ("caps", CAPS_); ("rls", V_);
    ("rls_checked", B_); ("columns", LV_)] "the catalog grants; caps NULL = unstated (every data capability)";
  view "schema_grants" V_CATALOG [("role", V_); ("catalog", V_); ("schema_path", V_); ("caps", CAPS_); ("inherited",
    B_); ("into", V_); ("virtual_only", B_); ("comment", V_)] "the schema grants (spec 015)";
  view "object_grants" V_CATALOG [("role", V_); ("catalog", V_); ("object", V_); ("caps", CAPS_); ("rls", V_);
    ("rls_checked", B_); ("columns", LV_)] "the object grants; caps NULL = inherited from the catalog grant";
  view "grant_columns" V_CATALOG [("role", V_); ("catalog", V_); ("object", V_); ("pos", I_); ("name", V_); ("type",
    V_)] "what each grant's projection produces (spec 026)"
].

(** The rest of the policy *)
Definition policy_views : list PlatformView := [
  view "admins" V_POLICY [("role", V_); ("scope", V_); ("catalog", V_)] "the administration bundles of each role";
  view "platform_grants" V_POLICY [("role", V_); ("object", V_); ("kind", V_); ("allowed", B_)] "the point grants on the platform catalog's objects";
  view "issuers" V_POLICY [("name", V_); ("url", V_); ("secret_service", V_); ("secret", V_)] "the token issuers (a secret by its name, never its content)";
  view "clients" V_POLICY [("name", V_); ("issuer", V_); ("audiences", LV_); ("azp", LV_); ("requires",
    CONDITIONS_); ("roles_from", LV_); ("roles_constant", LV_); ("unmapped", V_); ("attributes", ATTRIBUTES_);
    ("subject", LV_); ("token_type", V_); ("client_id", V_); ("flows", LV_); ("secret_service", V_); ("secret", V_);
    ("implicit", B_)] "the clients of each issuer (spec 095)";
  view "role_mappings" V_POLICY [("scope_kind", V_); ("scope_name", V_); ("source", V_); ("external_value", V_);
    ("role", V_)] "the role mappings (spec 095)";
  view "jwks_cache" V_POLICY [("issuer", V_); ("location", V_); ("allowed", B_); ("fetched_at", TS_);
    ("age_seconds", I_); ("last_tried_at", TS_); ("error", V_); ("keys", I_); ("kids", LV_)] "what the node trusts right now: one row per key location (spec 071)";
  view "function_categories" V_POLICY [("category", V_); ("comment", V_); ("builtin", B_)] "the function categories (spec 072)";
  view "function_category_members" V_POLICY [("category", V_); ("database", V_); ("schema", V_); ("name", V_);
    ("kind", V_)] "the members of each category";
  view "function_grants" V_POLICY [("role", V_); ("category", V_); ("database", V_); ("schema", V_); ("name", V_);
    ("kind", V_); ("allowed", B_)] "the grants and denies of categories and functions";
  view "function_status" V_POLICY [("database", V_); ("schema", V_); ("name", V_); ("kind", V_); ("function_type",
    V_); ("categories", LV_); ("status", V_); ("present", B_)] "every function of the node beside its categories: never / categorized / uncategorized";
  view "resource_groups" V_POLICY [("group", V_); ("window_start", I_); ("window_max", I_); ("batch_bytes", I_);
    ("max_result_rows", I_); ("queue_priority", I_); ("max_sessions", I_); ("comment", V_); ("is_default", B_)] "the resource groups (spec 085)";
  view "role_resource_groups" V_POLICY [("role", V_); ("group", V_)] "which role is in which resource group";
  view "catalog_schema" V_POLICY [("build", I_); ("build_min_reader", I_); ("catalog", I_); ("min_reader", I_);
    ("mode", V_)] "this build's schema version and window, the catalog's, and the mode (spec 094)"
].

(** The node *)
Definition node_views : list PlatformView := [
  view "sessions" V_NODE [("id", V_); ("subject", V_); ("roles", LV_); ("door", V_); ("idle_seconds", I_);
    ("expires_at", TS_); ("audit_level", V_); ("audit_level_source", V_); ("profile_level", V_); ("profile_source",
    V_); ("groups", LV_); ("charged_group", V_)] "the live sessions of this node (never a handle)";
  view "node_load" V_NODE [("draining", B_); ("observe", V_); ("group", V_); ("group_known", B_); ("group_default",
    B_); ("config_target", I_); ("config_applied", I_); ("sessions_live", I_); ("sessions_max", I_);
    ("sessions_by_door", MAPI_); ("sessions_by_group", GROUPS_); ("admit_new_session", B_);
    ("admit_new_quack_client", B_); ("admit_new_stream", B_)] "the node's load report (spec 079), one row";
  view "node_doors" V_NODE [("door", V_); ("uri", V_); ("seats", I_); ("seated", I_); ("seats_left", I_)] "the quack doors serving and their seats (spec 079)";
  view "node_streams" V_NODE [("budget_bytes", I_); ("reserve_bytes", I_); ("reserved_bytes", I_); ("producing",
    I_); ("queued", I_); ("refused", I_)] "the stream budget of the quack doors (spec 080)";
  view "drain" V_NODE [("draining", B_); ("sessions", I_)] "whether the node drains (spec 066)";
  view "lineage_status" V_NODE [("status", V_); ("sending", B_); ("level", V_); ("namespace", V_)] "why lineage is or is not sent (spec 112)";
  view "audit_events" V_NODE [("ts", TSZ_); ("seq", I_); ("kind", V_); ("level", V_); ("door", V_); ("session", V_);
    ("subject", V_); ("issuer", V_); ("roles", LV_); ("statement", V_); ("objects", OBJECTS_); ("verdict", V_);
    ("reason_code", V_); ("reason", V_); ("correlation_id", V_); ("traceparent", V_); ("rows", I_); ("duration_us",
    I_); ("detail", V_)] "the node's recent audit events - its ring (spec 069; the history is the sinks')"
].

Definition BuildViews : list PlatformView := catalog_views ++ policy_views ++ node_views.

Definition catalog_ : PlatformParam := A_ "catalog" V_ EmptyString.
Definition name_ : PlatformParam := A_ "name" V_ EmptyString.
Definition mode_ : PlatformParam := P_ "mode" V_ EmptyString.
Definition comment_ : PlatformParam := P_ "comment" V_ EmptyString.
Definition role_ : PlatformParam := A_ "role" V_ EmptyString.

(** The catalogs and their content *)
Definition catalog_functions : list PlatformFunction := [
  function_ "create_catalog" "acl_create_catalog" [catalog_; comment_; mode_] [1; 2; 3] (Some 0) R_CATALOG false B_
    "create a virtual catalog";
  function_ "alter_catalog" "acl_alter_catalog" [catalog_; comment_] [2] (Some 0) R_CATALOG false B_ "change a catalog's comment";
  function_ "add_relation" "acl_add_relation" [catalog_; name_; (A_ "phys" V_ EmptyString); (P_ "columns" V_
    EmptyString); (P_ "rls" V_ EmptyString); comment_; mode_; (P_ "primary_key" V_ EmptyString)] [5; 6; 7; 8] (Some
    0) R_CATALOG false B_ "a virtual table over a physical one (CREATE VIRTUAL TABLE)";
  function_ "add_view" "acl_add_view" [catalog_; name_; (P_ "sql" V_ EmptyString); (P_ "returns" V_ EmptyString);
    comment_; mode_; (P_ "primary_key" V_ EmptyString)] [3; 4; 5; 6; 7] (Some 0) R_CATALOG false B_ "a virtual view (CREATE VIRTUAL VIEW)";
  function_ "add_schema_alias" "acl_add_schema_alias" [catalog_; (A_ "path" V_ EmptyString); (A_ "phys_path" V_
    EmptyString); comment_; mode_] [3; 4; 5] (Some 0) R_CATALOG false B_ "a physical schema under a virtual path";
  function_ "expand_schema" "acl_expand_schema" [catalog_; (A_ "path" V_ EmptyString); (A_ "phys_path" V_
    EmptyString); comment_; mode_] [3; 4; 5] (Some 0) R_CATALOG false B_ "one virtual record per object of a physical schema (spec 014)";
  function_ "refresh_schema_objects" "acl_refresh_schema_objects" [catalog_; (A_ "path" V_ EmptyString); (P_ "prune"
    B_ EmptyString)] [2; 3] (Some 0) R_CATALOG false I_ "re-read an expansion's source";
  function_ "add_table_function" "acl_add_table_function" [catalog_; name_; (P_ "definition" V_ EmptyString); (P_
    "params" V_ EmptyString); (P_ "returns" V_ EmptyString); comment_; mode_; (P_ "primary_key" V_ EmptyString)] [3;
    5; 6; 7; 8] (Some 0) R_CATALOG false B_ "a virtual table function (a macro)";
  function_ "add_table_function_alias" "acl_add_table_function_alias" [catalog_; name_; (A_ "target" V_
    EmptyString); (P_ "params" V_ EmptyString); (P_ "returns" V_ EmptyString); comment_; mode_] [3; 6; 7] (Some 0)
    R_CATALOG false B_ "a virtual table function over an engine one";
  function_ "add_scalar" "acl_add_scalar" [catalog_; name_; (P_ "definition" V_ EmptyString); (P_ "params" V_
    EmptyString); (P_ "returns" V_ EmptyString); comment_; mode_] [3; 5; 6; 7] (Some 0) R_CATALOG false B_ "a virtual scalar function (a macro)";
  function_ "add_scalar_alias" "acl_add_scalar_alias" [catalog_; name_; (A_ "target" V_ EmptyString); (P_ "params"
    V_ EmptyString); (P_ "returns" V_ EmptyString); comment_; mode_] [3; 6; 7] (Some 0) R_CATALOG false B_ "a virtual scalar function over an engine one";
  function_ "drop_relation" "acl_drop_relation" [catalog_; name_; mode_] [2; 3] (Some 0) R_CATALOG false B_ "drop a virtual table or view"
].

(** Changing that content *)
Definition content_functions : list PlatformFunction := [
  function_ "alter_relation" "acl_alter_relation" [catalog_; name_; (A_ "property" V_ EmptyString); (P_ "value" V_
    EmptyString)] [4] (Some 0) R_CATALOG false B_ "change one property of a relation: phys | columns | rls | view";
  function_ "alter_schema_alias" "acl_alter_schema_alias" [catalog_; (A_ "path" V_ EmptyString); (A_ "phys_path" V_
    EmptyString)] [3] (Some 0) R_CATALOG false B_ "retarget a schema alias";
  function_ "alter_function" "acl_alter_function" [catalog_; name_; (A_ "kind" V_ EmptyString); (A_ "form" V_
    EmptyString); (P_ "definition" V_ EmptyString)] [5] (Some 0) R_CATALOG false B_ "redefine a virtual function";
  function_ "drop_schema_alias" "acl_drop_schema_alias" [catalog_; (A_ "path" V_ EmptyString); mode_; (P_ "cascade"
    B_ EmptyString)] [2; 3; 4] (Some 0) R_CATALOG false B_ "drop a schema alias";
  function_ "drop_function" "acl_drop_function" [catalog_; name_; (A_ "kind" V_ EmptyString); mode_] [3; 4] (Some 0)
    R_CATALOG false B_ "drop a virtual function";
  function_ "comment" "acl_comment" [catalog_; name_; (A_ "kind" V_ "relation"); (A_ "column_name" V_ EmptyString);
    (P_ "comment" V_ EmptyString)] [5] (Some 0) R_CATALOG false B_ "document an object or one of its columns";
  function_ "refresh_schema" "acl_refresh_schema" [catalog_; name_] [1; 2] (Some 0) R_CATALOG false I_ "re-derive the stored schema of query-defined objects";
  function_ "repair_relation" "acl_repair_relation" [catalog_; name_; (A_ "action" V_ EmptyString); (P_ "spec" V_
    EmptyString)] [3; 4] (Some 0) R_CATALOG false I_ "mend a declared column list (spec 039)";
  function_ "set_key" "acl_set_key" [catalog_; name_; (A_ "kind" V_ EmptyString); (P_ "primary_key" V_ EmptyString)]
    [3; 4] (Some 0) R_CATALOG false B_ "the declared primary key of an object (spec 048)";
  function_ "add_reference" "acl_add_reference" [catalog_; name_; (A_ "from_object" V_ EmptyString); (A_ "to_object"
    V_ EmptyString); (P_ "to_kind" V_ EmptyString); (P_ "arguments" V_ EmptyString); (P_ "pairs" V_ EmptyString);
    (P_ "expression" V_ EmptyString); (P_ "cardinality" V_ EmptyString); (P_ "optional" V_ EmptyString); (P_
    "join_method" V_ EmptyString); comment_; mode_] [4; 5; 6; 7; 8; 9; 10; 11; 12; 13] (Some 0) R_CATALOG false B_
    "declare a join path (spec 022)";
  function_ "drop_reference" "acl_drop_reference" [catalog_; name_; mode_] [2; 3] (Some 0) R_CATALOG false B_ "drop a declared join path";
  function_ "rematerialize_schema_caps" "acl_rematerialize_schema_caps" [catalog_; (A_ "path" V_ EmptyString)] [1;
    2] (Some 0) R_CATALOG false B_ "rebuild a subtree's inherited grants (spec 015)"
].

(** Handing out access *)
Definition grant_functions : list PlatformFunction := [
  function_ "grant_catalog" "acl_grant_catalog" [role_; catalog_; (P_ "caps" V_ EmptyString); (P_ "main" B_
    EmptyString); (P_ "rls" V_ EmptyString); (P_ "columns" V_ EmptyString)] [3; 4; 6] (Some 1) R_HANDS_OUT false B_
    "grant a catalog to a role";
  function_ "revoke_catalog" "acl_revoke_catalog" [role_; catalog_] [2] (Some 1) R_HANDS_OUT false B_ "revoke a catalog grant";
  function_ "grant_object" "acl_grant_object" [role_; catalog_; name_; (P_ "caps" V_ EmptyString); (P_ "rls" V_
    EmptyString); (P_ "columns" V_ EmptyString)] [4; 6] (Some 1) R_HANDS_OUT false B_ "grant one object of a catalog, with its own policy (spec 011)";
  function_ "grant_schema" "acl_grant_schema" [role_; catalog_; (A_ "path" V_ EmptyString); (P_ "caps" V_
    EmptyString); comment_; (A_ "into_schema" V_ EmptyString); (P_ "virtual_only" B_ EmptyString)] [4; 5; 7] (Some
    1) R_HANDS_OUT false B_ "grant a schema of a catalog (spec 015)";
  function_ "revoke_schema" "acl_revoke_schema" [role_; catalog_; (A_ "path" V_ EmptyString)] [3] (Some 1)
    R_HANDS_OUT false B_ "revoke a schema grant";
  function_ "alter_grant" "acl_alter_grant" [role_; catalog_; (A_ "property" V_ EmptyString); (P_ "value" V_
    EmptyString)] [4] (Some 1) R_HANDS_OUT false B_ "change a catalog grant: caps | main";
  function_ "drop_catalog" "acl_drop_catalog" [catalog_; (P_ "cascade" B_ EmptyString); mode_] [1; 2; 3] (Some 0)
    R_HANDS_OUT false B_ "drop a catalog (taking it away from everyone who holds it)"
].

(** Roles, issuers, clients and mappings *)
Definition role_functions : list PlatformFunction := [
  function_ "create_role" "acl_define_role" [role_; (P_ "claims" V_ EmptyString); mode_] [2; 3] None R_POLICY false
    B_ "create a role (its default claims as name=value csv)";
  function_ "comment_function_category" "acl_comment_function_category" [(A_ "category" V_ EmptyString); comment_]
    [2] None R_POLICY false B_ "a function category's comment (spec 120)";
  function_ "comment_role" "acl_comment_role" [role_; comment_] [2] None R_POLICY false B_ "a role's comment (spec 120)";
  function_ "revoke_object" "acl_revoke_object" [role_; catalog_; name_] [3] (Some 1) R_HANDS_OUT false B_ "revoke one object's own grant - the catalog's stays (spec 120)";
  function_ "alter_reference" "acl_alter_reference" [catalog_; name_; (A_ "property" V_ EmptyString); (P_ "value" V_
    EmptyString)] [4] (Some 0) R_CATALOG false B_ "a reference's comment, cardinality or optional (spec 120)";
  function_ "alter_role" "acl_alter_role" [role_; (P_ "claims" V_ EmptyString)] [2] None R_POLICY false B_ "change a role's default claims";
  function_ "drop_role" "acl_drop_role" [role_; mode_] [1; 2] None R_POLICY false B_ "drop a role";
  function_ "define_issuer" "acl_define_issuer" [name_; (P_ "spec" V_ EmptyString); (P_ "mode" V_ "replace")] [1; 2;
    3] None R_POLICY false B_ "an issuer (spec 095): {url, secret, service}";
  function_ "alter_issuer" "acl_alter_issuer" [name_; (P_ "spec" V_ EmptyString)] [2] None R_POLICY false B_ "change an issuer";
  function_ "drop_issuer" "acl_drop_issuer" [name_; mode_] [1; 2] None R_POLICY false B_ "drop an issuer";
  function_ "define_client" "acl_define_client" [name_; (A_ "issuer" V_ EmptyString); (P_ "spec" V_ EmptyString);
    (P_ "mode" V_ "replace")] [2; 3; 4] None R_POLICY false B_ "a client of an issuer (spec 095)";
  function_ "alter_client" "acl_alter_client" [name_; (P_ "spec" V_ EmptyString)] [2] None R_POLICY false B_ "change a client";
  function_ "drop_client" "acl_drop_client" [name_; mode_] [1; 2] None R_POLICY false B_ "drop a client";
  function_ "map_role" "acl_map_role" [(A_ "scope_kind" V_ EmptyString); (A_ "scope_name" V_ EmptyString); (A_
    "source" V_ EmptyString); (A_ "external_value" V_ EmptyString); role_] [5] None R_POLICY false B_ "map a claim value to a role, for one client or issuer (spec 095)";
  function_ "drop_role_mapping" "acl_drop_role_mapping" [(A_ "scope_kind" V_ EmptyString); (A_ "scope_name" V_
    EmptyString); (A_ "source" V_ EmptyString); (A_ "external_value" V_ EmptyString); role_] [5] None R_POLICY false
    B_ "drop a role mapping"
].

(** Function categories and grants *)
Definition category_functions : list PlatformFunction := [
  function_ "create_function_category" "acl_create_function_category" [(A_ "category" V_ EmptyString); comment_] [1;
    2] None R_POLICY false B_ "create a function category (spec 072)";
  function_ "drop_function_category" "acl_drop_function_category" [(A_ "category" V_ EmptyString); mode_] [1; 2]
    None R_POLICY false B_ "drop a function category";
  function_ "function_category_add" "acl_function_category_add" [(A_ "category" V_ EmptyString); (A_ "members" LV_
    EmptyString)] [2] None R_POLICY false B_ "add members to a category";
  function_ "function_category_remove" "acl_function_category_remove" [(A_ "category" V_ EmptyString); (A_ "members"
    LV_ EmptyString)] [2] None R_POLICY false B_ "remove members from a category";
  function_ "grant_function_category" "acl_grant_function_category" [role_; (A_ "category" V_ EmptyString); (P_
    "allowed" V_ "true")] [2; 3] None R_POLICY false B_ "grant (or deny) a category to a role ('' = every role)";
  function_ "revoke_function_category" "acl_revoke_function_category" [role_; (A_ "category" V_ EmptyString)] [2]
    None R_POLICY false B_ "revoke a category grant";
  function_ "grant_function" "acl_grant_function" [role_; (A_ "function" V_ EmptyString); (P_ "allowed" V_ "true")]
    [2; 3] None R_POLICY false B_ "grant (or deny) a function by name";
  function_ "revoke_function" "acl_revoke_function" [role_; (A_ "function" V_ EmptyString)] [2] None R_POLICY false
    B_ "revoke a function grant"
].

(** The node, sources and the migration *)
Definition node_functions : list PlatformFunction := [
  function_ "session_profile" "acl_session_profile" [(A_ "session" V_ EmptyString); (P_ "level" V_ EmptyString)] [2]
    None R_OPERATE false B_ "the operator's profile level on a session (spec 074)";
  function_ "view_as" "acl_session_view_as" [(A_ "role" V_ EmptyString)] [1] None R_POLICY false B_ "this session as role r, metadata only (spec 120.3); '' leaves the mode";
  function_ "session_audit_level" "acl_session_audit_level" [(A_ "session" V_ EmptyString); (P_ "level" V_
    EmptyString)] [2] None R_OPERATE false B_ "the operator's audit level on a session (spec 069); '' inherits";
  function_ "kill_session" "acl_session_kill" [(A_ "session" V_ EmptyString)] [1] None R_OPERATE false B_ "end a session by its id (spec 050)";
  function_ "drain" "acl_drain" [] [0] None R_OPERATE false I_ "stop seating new clients (spec 066)";
  function_ "resume" "acl_resume" [] [0] None R_OPERATE false B_ "seat new clients again (spec 066)";
  function_ "grant_source" "acl_grant_source" [role_; (A_ "source" V_ EmptyString)] [2] None R_HANDS_OUT false B_
    "grant a source (<database>[.<schema>]) to a role - it sees it under platform.attached and builds over it (spec 118)";
  function_ "revoke_source" "acl_revoke_source" [role_; (A_ "source" V_ EmptyString)] [2] None R_HANDS_OUT false B_
    "revoke a source grant (spec 118)";
  function_ "migrate_catalog" "acl_migrate_catalog" [(A_ "database" V_ EmptyString); (A_ "schema" V_ EmptyString)]
    [1; 2] None R_ESCALATES false V_ "apply the schema steps to the policy catalog - every node's schema window (spec 094)"
].

(** Resource groups *)
Definition group_functions : list PlatformFunction := [
  function_ "create_resource_group" "acl_create_resource_group" [(A_ "group_name" V_ EmptyString); (P_ "limits" V_
    "{}"); comment_; (P_ "is_default" V_ EmptyString)] [2; 3; 4] None R_POLICY false B_ "create a resource group (spec 085)";
  function_ "alter_resource_group" "acl_alter_resource_group" [(A_ "group_name" V_ EmptyString); (A_ "property" V_
    EmptyString); (P_ "value" V_ EmptyString)] [3] None R_POLICY false B_ "change a resource group: default";
  function_ "drop_resource_group" "acl_drop_resource_group" [(A_ "group_name" V_ EmptyString); mode_] [1; 2] None
    R_POLICY false B_ "drop a resource group";
  function_ "grant_resource_group" "acl_grant_resource_group" [role_; (A_ "group_name" V_ EmptyString)] [2] None
    R_POLICY false B_ "put a role in a resource group";
  function_ "revoke_resource_group" "acl_revoke_resource_group" [role_; (A_ "group_name" V_ EmptyString)] [2] None
    R_POLICY false B_ "take a role out of a resource group"
].

(** Privilege *)
Definition privilege_functions : list PlatformFunction := [
  function_ "grant_admin" "acl_grant_admin" [role_; (A_ "scope" V_ EmptyString)] [2] None R_ESCALATES false B_
    "grant a bundle: observe | policy | passthrough (manage: policy + observe)";
  function_ "revoke_admin" "acl_revoke_admin" [role_; (A_ "scope" V_ EmptyString)] [1; 2] None R_ESCALATES false B_
    "revoke a bundle, or (no scope) every administration of the role";
  function_ "grant_platform" "acl_grant_platform" [role_; (A_ "kind" V_ EmptyString); (A_ "object" V_ EmptyString);
    (P_ "allowed" V_ "true")] [3; 4] None R_ESCALATES false B_ "a point grant (or deny) on one view or function of platform";
  function_ "revoke_platform" "acl_revoke_platform" [role_; (A_ "kind" V_ EmptyString); (A_ "object" V_
    EmptyString)] [3] None R_ESCALATES false B_ "revoke a point grant on platform"
].

(** Reads *)
Definition read_functions : list PlatformFunction := [
  function_ "check_catalog" "acl_check_catalog" [catalog_] [0; 1] (Some 0) R_CATALOG true "TABLE" "probe a catalog's stored facts against the source (spec 039)";
  function_ "effective_rights" "acl_effective_rights" [role_; catalog_; (P_ "object" V_ EmptyString)] [2; 3] (Some
    1) R_CATALOG true "TABLE" "what a role gets of a catalog's objects: caps, the deciding grant, MAIN, RLS, columns (spec 120)";
  function_ "check_grant" "acl_check_grant" [role_; catalog_; (P_ "object" V_ EmptyString); (P_ "rls" V_
    EmptyString); (P_ "columns" V_ EmptyString); (P_ "caps" V_ EmptyString)] [5; 6] (Some 1) R_HANDS_OUT true
    "TABLE" "what writing a grant would say - its predicate, the columns the role would read with their types - written nowhere (spec 122)";
  function_ "exposures" "acl_exposures" [(A_ "source" V_ EmptyString); (P_ "schema" V_ EmptyString); (P_ "object" V_
    EmptyString)] [1; 2; 3] None R_POLICY true "TABLE" "the virtual objects reading a physical source and what each role gets of them (spec 120)";
  function_ "console_info" EmptyString [] [0] None R_OPEN true "TABLE" "the build, the contracts, the schema window, what this node has and what the caller holds"
].

Definition BuildFunctions : list PlatformFunction :=
  catalog_functions ++ content_functions ++ grant_functions ++ role_functions ++ category_functions
  ++ node_functions ++ group_functions ++ privilege_functions ++ read_functions.

(** The process's registry: acl's entries, then what a linked module registers *)
Record registry := { Views : list PlatformView; Functions : list PlatformFunction }.
Definition built_in : registry := {| Views := BuildViews; Functions := BuildFunctions |}.

Definition PLATFORM_CATALOG : string := "platform".

Section platform.
Context `{SU : StringUtil}.

Definition RegisterPlatformView (view : PlatformView) (reg : registry) : registry :=
  if existsb (λ existing, CIEquals (vname existing) (vname view)) (Views reg) then reg
  else {| Views := Views reg ++ [view]; Functions := Functions reg |}.
Definition RegisterPlatformFunction (function : PlatformFunction) (reg : registry) : registry :=
  if existsb (λ existing, CIEquals (pname existing) (pname function)) (Functions reg) then reg
  else {| Views := Views reg; Functions := Functions reg ++ [function] |}.

Variable reg : registry.

Definition FindPlatformView (name : string) : option PlatformView :=
  List.find (λ view, CIEquals (vname view) name) (Views reg).
Definition FindPlatformFunction_ (name : string) : option PlatformFunction :=
  FindPlatformFunction (Functions reg) name.
(** The platform function an [acl_*] call is *)
Definition PlatformFunctionByTarget (target_ : string) : option PlatformFunction :=
  List.find (λ function, negb (is_empty (target function)) && CIEquals (target function) target_) (Functions reg).

(** ** Names *)

Definition IsPlatformCatalog (name : string) : bool :=
  let trimmed := Trim name in
  if is_empty trimmed then false
  else if CIEquals trimmed PLATFORM_CATALOG then true
  else match TryFromKey trimmed with
       | inr [part] => CIEquals (Trim part) PLATFORM_CATALOG
       | _ => false
       end.

(** The leaf of [platform.x] and [platform.main.x] *)
Definition PlatformObjectName (parts : list string) : option string :=
  match parts with
  | [catalog; leaf] => if IsPlatformCatalog catalog then Some leaf else None
  | [catalog; schema; leaf] => if IsPlatformCatalog catalog && CIEquals schema "main" then Some leaf else None
  | _ => None
  end.
Definition IsPlatformFunctionName (parts : list string) : bool :=
  match PlatformObjectName parts with
  | Some leaf => bool_decide (is_Some (FindPlatformFunction_ leaf))
  | None => false
  end.

Definition MakeAdminCall (function : string) (args : list Value) : SQLStatement :=
  select_call (plain_call function (constant_arguments args)
    match PlatformFunctionByTarget function with Some operation => pname operation | None => EmptyString end).
Definition MakeAdminTableCall (function : string) (args : list Value) : SQLStatement :=
  select_from_call (plain_call function (constant_arguments args) EmptyString).

(** ** The authorizer *)

Context `{EN : Engine}.

Definition refused {A} (s : string) : outcome A := Throw ("acl admin: " +:+ s).

(** The catalog the call names, none by the reserved name *)
Definition judged_catalog (f : PlatformFunction) (call : FunctionExpr) : outcome string :=
  match catalog_arg f with
  | None => Ok EmptyString
  | Some index =>
      vcat ← ConstantArgument call index (pname f);
      if IsPlatformCatalog vcat then
        refused (quoted vcat +:+ " is the reserved system catalog of administration - no virtual catalog takes that name")
      else Ok vcat
  end.

(** The function's own rule on an argument, for a bundle holder *)
Definition judged_rule (f : PlatformFunction) (call : FunctionExpr) : outcome unit :=
  match rule f, rule_arg f with
  | Some rule, Some index =>
      value ← ConstantArgument call index (pname f);
      if rule value then Ok ()
      else match rule_refusal f with
           | Some refusal => Throw (refusal value)
           | None => refused (quoted value +:+ " is refused by the bundle's rule")
           end
  | _, _ => Ok ()
  end.

Definition manages (r : AdminRights) (vcat : string) : bool :=
  existsb (λ catalog, KeyEquals catalog vcat || CIEquals catalog vcat) (catalogs r).

Definition AuthorizeAdminCall (statement : SQLStatement) (r : AdminRights) : outcome unit :=
  call ← CompiledCall statement;
  let name := Lower (FunctionName call) in
  match PlatformFunctionByTarget name with
  | None => refused ("cannot authorize the management call " +:+ quoted name)
  | Some f =>
      vcat ← judged_catalog f call;
      if passthrough r then Ok ()
      else
        let point := PlatformGrant r "function" (pname f) in
        if (point =? 0)%Z then refused ("platform." +:+ pname f +:+ " is denied to the principal")
        else
          match right f with
          | R_ESCALATES =>
              if String.eqb name "acl_migrate_catalog" then
                refused "MIGRATE POLICY CATALOG moves the schema window of every node and requires a passthrough scope"
              else if String.eqb name "acl_grant_platform" || String.eqb name "acl_revoke_platform" then
                refused ("grants on the platform catalog require a passthrough scope - a grantor that can grant "
                         +:+ "everything is everything")
              else refused "granting admin scopes requires a passthrough scope"
          | R_INFRASTRUCTURE =>
              if cluster r then judged_rule f call
              else refused ("ACL CLUSTER changes the cluster's infrastructure (extensions, sources, settings) and "
                            +:+ "requires the cluster bundle - manage administers the ACL, not the nodes")
          | R_OPERATE =>
              if operate r || (point =? 1)%Z then Ok ()
              else refused ("platform." +:+ pname f +:+ " is the node's operation and requires the operate bundle - "
                            +:+ "the policy bundle administers the ACL, not the node")
          | R_OPEN => Ok ()
          | right =>
              if (point =? 1)%Z then Ok ()
              else if bool_decide (right = R_HANDS_OUT) then
                if unrestricted_manage r then Ok ()
                else refused ("granting access to a catalog requires an unrestricted manage scope - managing a catalog "
                              +:+ "does not include handing it out")
              else if unrestricted_manage r then Ok ()
              else if bool_decide (right = R_POLICY) || is_empty vcat then
                refused "this statement is not catalog-specific and needs an unrestricted manage scope"
              else if manages r vcat then Ok ()
              else refused ("no manage scope for catalog " +:+ quoted vcat)
          end
  end.

Definition AuthorizeMgmt (statements : list SQLStatement) (r : AdminRights) : outcome unit :=
  _ ← omapM (λ statement, AuthorizeAdminCall statement r) statements; Ok ().

(** *** Roles the static table cannot see *)

Record IdentityMapping := {
  scope_kind : string;
  scope_name : string;
  source : string;
  external_value : string;
  mrole : string;
}.
(** A client of the identity model, as far as a mapping's scope needs it *)
Record MappedClient := { cname : string; cissuer : string }.

(** [yyjson]'s reading of a JSON object: its keys, each with its value when that is a boolean; the outer
    [None] is malformed text, the inner one a value that is no object *)
Variable read_object : string → option (option (list (string * option bool))).

Definition ParseCaps (json : string) : outcome (list string) :=
  let trimmed := Trim json in
  if is_empty trimmed then Ok []
  else
    match read_object trimmed with
    | None => Throw ("acl catalog: malformed caps JSON: " +:+ json)
    | Some None => Throw ("acl catalog: caps must be a JSON object: " +:+ json)
    | Some (Some members) =>
        if existsb (λ m : string * option bool, match m.2 with None => true | _ => false end) members then
          Throw ("acl catalog: caps values must be true/false: " +:+ json)
        else Ok (fold_left (λ caps m, if default false m.2 then ci_add m.1 caps else caps) members [])
    end.
Definition names_manage (caps : string) : outcome bool :=
  if is_empty caps then Ok false else parsed ← ParseCaps caps; Ok (ci_mem "manage" parsed).

(** One statement of the batch: its function, and the role it gives a catalog's manage to *)
Record Target := { t_call : FunctionExpr; t_function : string; t_manage : option string }.

Definition target_of (statement : SQLStatement) : outcome Target :=
  call ← CompiledCall statement;
  let name := Lower (FunctionName call) in
  if String.eqb name "acl_grant_catalog" then
    caps ← ConstantArgument call 2 "grant_catalog";
    manage ← names_manage caps;
    if manage : bool then role ← ConstantArgument call 0 "grant_catalog"; Ok {| t_call := call; t_function := name; t_manage := Some role |}
    else Ok {| t_call := call; t_function := name; t_manage := None |}
  else if String.eqb name "acl_alter_grant" then
    field ← ConstantArgument call 2 "alter_grant";
    value ← ConstantArgument call 3 "alter_grant";
    manage ← (if String.eqb (Lower field) "caps" then names_manage value else Ok false);
    if manage : bool then role ← ConstantArgument call 0 "alter_grant"; Ok {| t_call := call; t_function := name; t_manage := Some role |}
    else Ok {| t_call := call; t_function := name; t_manage := None |}
  else Ok {| t_call := call; t_function := name; t_manage := None |}.
(** The role a mapping of the batch reaches *)
Definition mapped_role (t : Target) : outcome (option string) :=
  if String.eqb (t_function t) "acl_map_role"
  then role ← ConstantArgument (t_call t) 4 "map_role"; Ok (Some role) else Ok None.

(** The identity model's mappings and clients, the store's answers about a role *)
Variable mappings : list IdentityMapping.
Variable clients : list MappedClient.
Variable RolePrivileged : string → bool.
Variable ViewAsRefusal_ : string → string.

Definition scoped (issuer client : string) (m : IdentityMapping) : bool :=
  if CIEquals (scope_kind m) "client" then
    (negb (is_empty client) && CIEquals (scope_name m) client)
    || existsb (λ each, negb (is_empty issuer) && CIEquals (cname each) (scope_name m) && CIEquals (cissuer each) issuer)
         clients
  else negb (is_empty issuer) && CIEquals (scope_name m) issuer.
(** The administering role a mapping behind the issuer or the client reaches, or empty *)
Definition privileged_behind (issuer client : string) : string :=
  match List.find (λ m, scoped issuer client m && RolePrivileged (mrole m)) mappings with
  | Some m => mrole m
  | None => EmptyString
  end.

(** The issuer and the client whose trust the call changes *)
Definition repointed (t : Target) : outcome (string * string) :=
  if String.eqb (t_function t) "acl_alter_issuer" || String.eqb (t_function t) "acl_define_issuer" then
    issuer ← ConstantArgument (t_call t) 0 "alter_issuer"; Ok (issuer, EmptyString)
  else if String.eqb (t_function t) "acl_alter_client" then
    client ← ConstantArgument (t_call t) 0 "alter_client"; Ok (EmptyString, client)
  else if String.eqb (t_function t) "acl_define_client" then
    client ← ConstantArgument (t_call t) 0 "define_client";
    issuer ← ConstantArgument (t_call t) 1 "define_client"; Ok (issuer, client)
  else Ok (EmptyString, EmptyString).

Definition authorize_target (mapped_here managed_here : list string) (t : Target) : outcome unit :=
  _ ← (if String.eqb (t_function t) "acl_session_view_as" then
         role ← ConstantArgument (t_call t) 0 "view_as";
         let why := ViewAsRefusal_ role in if is_empty why then Ok () else refused why
       else Ok ());
  behind ← repointed t;
  let '(issuer, client) := behind in
  let role := privileged_behind issuer client in
  if (negb (is_empty issuer) || negb (is_empty client)) && negb (is_empty role) then
    refused ((if is_empty client then "issuer " +:+ quoted issuer else "client " +:+ quoted client)
             +:+ " carries a mapping to " +:+ quoted role +:+ ", which holds administration - changing whom it trusts "
             +:+ "hands that administration out, so it requires a passthrough scope")
  else
    match t_manage t with
    | Some role =>
        if bool_decide (role ∈ mapped_here) || existsb (λ m, String.eqb (mrole m) role) mappings then
          refused (quoted role +:+ " is reached by a role mapping, so granting it a catalog's manage hands "
                   +:+ "administration to whoever holds the claim - it requires a passthrough scope, as mapping to an "
                   +:+ "administering role does")
        else Ok ()
    | None =>
        mapping ← mapped_role t;
        match mapping with
        | None => Ok ()
        | Some role =>
            if bool_decide (role ∈ managed_here) then
              refused (quoted role +:+ " is given a catalog's manage by this batch, so mapping a claim to it hands "
                       +:+ "that administration out - it requires a passthrough scope")
            else if RolePrivileged role then
              refused (quoted role +:+ " holds administration, so mapping a claim to it hands that administration "
                       +:+ "out - it requires a passthrough scope, as granting the bundle does")
            else Ok ()
        end
    end.

Definition AuthorizeRoleTargets (statements : list SQLStatement) (r : AdminRights) : outcome unit :=
  if passthrough r then Ok ()
  else
    targets ← omapM (λ statement, t ← target_of statement; mapping ← mapped_role t; Ok (t, mapping)) statements;
    let mapped_here := omap snd targets in
    let managed_here := omap (t_manage ∘ fst) targets in
    _ ← omapM (λ t : Target * option string, authorize_target mapped_here managed_here t.1) targets; Ok ().

End platform.

(** *** Stored bodies *)

Inductive BodyShape := SELECT_BODY | EXPRESSION_BODY | COLUMNS_BODY | FUNCTION_NAME_BODY.
#[export] Instance BodyShape_eq_dec : EqDecision BodyShape.
Proof. solve_decision. Defined.
Record BodyArgument := { b_index : nat; b_shape : BodyShape; b_kind : FunctionKind }.

Section bodies.
Context `{SU : StringUtil} `{EN : Engine}.

(** A constant argument's text in lower case, else empty *)
Definition word_argument (call : FunctionExpr) (i : nat) : string :=
  match arguments call !! i with
  | Some (_, Constant v) => if IsNull v then EmptyString else Lower (value_text v)
  | _ => EmptyString
  end.

(** The bodies a compiled call stores *)
Definition BodiesOf (target : string) (call : FunctionExpr) : list BodyArgument :=
  let at_ i shape kind := {| b_index := i; b_shape := shape; b_kind := kind |} in
  let is_ name := String.eqb target name in
  if is_ "acl_add_relation" then [at_ 3 COLUMNS_BODY SCALAR; at_ 4 EXPRESSION_BODY SCALAR]
  else if is_ "acl_add_view" then [at_ 2 SELECT_BODY SCALAR]
  else if is_ "acl_add_table_function" then [at_ 2 SELECT_BODY SCALAR]
  else if is_ "acl_add_table_function_alias" then [at_ 2 FUNCTION_NAME_BODY TABLE]
  else if is_ "acl_add_scalar" then [at_ 2 EXPRESSION_BODY SCALAR]
  else if is_ "acl_add_scalar_alias" then [at_ 2 FUNCTION_NAME_BODY SCALAR]
  else if is_ "acl_alter_relation" then
    let field := word_argument call 2 in
    if String.eqb field "rls" then [at_ 3 EXPRESSION_BODY SCALAR]
    else if String.eqb field "view" then [at_ 3 SELECT_BODY SCALAR]
    else if String.eqb field "columns" then [at_ 3 COLUMNS_BODY SCALAR]
    else []
  else if is_ "acl_alter_function" then
    let kind := if String.eqb (word_argument call 2) "table" then TABLE else SCALAR in
    if String.eqb (word_argument call 3) "alias" then [at_ 4 FUNCTION_NAME_BODY kind]
    else [at_ 4 (if bool_decide (kind = TABLE) then SELECT_BODY else EXPRESSION_BODY) SCALAR]
  else if is_ "acl_alter_grant" then
    let field := word_argument call 2 in
    if String.eqb field "rls" then [at_ 3 EXPRESSION_BODY SCALAR]
    else if String.eqb field "columns" then [at_ 3 COLUMNS_BODY SCALAR]
    else []
  else if is_ "acl_grant_catalog" || is_ "acl_grant_object" then [at_ 4 EXPRESSION_BODY SCALAR; at_ 5 COLUMNS_BODY SCALAR]
  else if is_ "acl_check_grant" then [at_ 3 EXPRESSION_BODY SCALAR; at_ 4 COLUMNS_BODY SCALAR]
  else if is_ "acl_repair_relation" then [at_ 3 COLUMNS_BODY SCALAR]
  else if is_ "acl_add_reference" then [at_ 7 EXPRESSION_BODY SCALAR]
  else [].

Context {Q : Type} `{QN : QualifiedNames Q}.
(** How a walk ends early: in a refusal of its own ([BinderException]), in the parser's *)
Inductive walk_failure := Bound (message : string) | Unparsed (message : string).
(** [WalkBodyCalls]: the calls a body makes, in order, up to where its walk of duckdb's parse of the text fails *)
Variable WalkBodyCalls : string → BodyShape → list (Q * FunctionKind) * option walk_failure.
(** [PolicyStore::ResolveFunction] for the author *)
Variable ResolveFunction : Q → FunctionKind → FunctionDecision.

Definition body_decision (body : BodyArgument) (name : Q) (kind : FunctionKind) : FunctionDecision :=
  let kind_here := if bool_decide (b_shape body = FUNCTION_NAME_BODY) then b_kind body else kind in
  let decision := ResolveFunction name kind_here in
  if bool_decide (verdict decision = UNKNOWN_QUALIFIED) && (2 <=? path_size name)
     && negb (bool_decide (b_shape body = FUNCTION_NAME_BODY))
  then ResolveFunction (of_name (Name name)) kind_here   (* [x.lower()] is [lower(x)] *)
  else decision.

Definition judge_body_call (body : BodyArgument) (call : Q * FunctionKind) : outcome unit :=
  let decision := body_decision body call.1 call.2 in
  if bool_decide (verdict decision = ADMITTED) then Ok ()
  else
    let kind_here := if bool_decide (b_shape body = FUNCTION_NAME_BODY) then b_kind body else call.2 in
    let shown := (if bool_decide (kind_here = TABLE) then "table function " else "function ") +:+ quoted (Name call.1) in
    Throw ("acl admin: the definition calls " +:+ shown +:+ ", which its author may not call - a stored body runs as "
           +:+ "the node, so it holds only what the author's own function gate admits (" +:+ Why decision shown +:+ ")").

Definition authorize_body (call : FunctionExpr) (body : BodyArgument) : outcome unit :=
  match arguments call !! b_index body with
  | None => Ok ()
  | Some (_, Constant v) =>
      if IsNull v then Ok ()
      else
        let '(calls, failure) := WalkBodyCalls (value_text v) (b_shape body) in
        _ ← omapM (judge_body_call body) calls;
        match failure with
        | None => Ok ()
        | Some (Bound message) => Throw message
        | Some (Unparsed message) => Throw ("acl admin: a definition body that does not parse cannot be judged: " +:+ message)
        end
  | Some _ => Throw "acl admin: a definition body is judged before it is stored, so it must be a constant, not a parameter"
  end.

Definition AuthorizeBodies (statements : list SQLStatement) (r : AdminRights) : outcome unit :=
  if passthrough r then Ok ()
  else
    _ ← omapM (λ statement,
          call ← CompiledCall statement;
          omapM (authorize_body call) (BodiesOf (Lower (FunctionName call)) call)) statements; Ok ().

(** *** Sources ([acl_platform_sources.cpp]) *)

Definition SplitSource (key : string) : string * string :=
  match TryFromKey key with
  | inr [alias] => (alias, EmptyString)
  | inr [alias; schema] => (alias, schema)
  | _ => (key, EmptyString)
  end.
(** In byte order: [std::map] *)
Definition GrantedSources (r : AdminRights) : list string :=
  map (λ key, String.substring 7 (String.length key - 7) key)
    (fold_right set_insert [] (omap (λ grant : string * bool,
       if grant.2 && StartsWith grant.1 "source:" then Some grant.1 else None) (map_to_list (platform r)))).
Definition SeesAllSources (r : AdminRights) : bool := passthrough r || unrestricted_manage r || cluster r.

Definition in_source (parts : list string) (schema_path : bool) (source : string) : bool :=
  let granted := SplitSource source in
  match parts with
  | [] => false
  | database :: rest =>
      CIEquals granted.1 database
      && (is_empty granted.2
          || (if schema_path then match rest with schema :: _ => CIEquals schema granted.2 | [] => false end
              else match rest with
                   | schema :: _ :: _ => CIEquals schema granted.2
                   | [_] => CIEquals granted.2 "main"
                   | [] => false
                   end))
  end.
Definition SourceGranted (sources : list string) (parts : list string) (schema_path : bool) : bool :=
  existsb (in_source parts schema_path) sources.

(** [PhysicalObjectReadings]: what duckdb's lookups make of a two-part name; [None] when the source could
    not say *)
Variable PhysicalObjectReadings : list string → option (list (list string)).
Definition ThrowAmbiguousPhysical {A} (name : string) : outcome A :=
  Throw ("acl: the physical name " +:+ quoted name +:+ " names two objects - a database and a schema of the node's "
         +:+ "default database; write it whole, as <database>.<schema>.<object>").

Definition SourceGranted_ (sources parts : list string) (schema_path : bool) : outcome bool :=
  if schema_path || negb (length parts =? 2) then Ok (SourceGranted sources parts schema_path)
  else
    match PhysicalObjectReadings parts with
    | None => Ok false
    | Some [] => Ok (SourceGranted sources parts false)
    | Some [reading] => Ok (SourceGranted sources reading false)
    | Some _ => ThrowAmbiguousPhysical (ToKey parts)
    end.

(** What the node and the catalog say of physical names: whether a policy catalog is used, whether a name is an
    attached database, an expansion's stored origin, a column list's items, the names a bound body writes, the
    entry duckdb binds a name to; [Split] is [StringUtil]'s *)
Variable has_catalog : bool.
Variable attached : string → bool.
Variable expansion_origin : string → string → option string.
Variable ParseColumnList : string → outcome (list (string * string)).
Variable BodyReferences : string → bool → outcome (list (list string)).
Variable ResolvedReference : list string → outcome (list string).
Variable Split : string → string → list string.

Definition outside {A} (what name : string) : outcome A :=
  Throw ("acl admin: " +:+ what +:+ " names " +:+ name +:+ ", outside the sources granted to the principal - a catalog "
         +:+ "admin builds only over its sources: GRANT SOURCE <database>[.<schema>] TO ROLE <role> (policy or "
         +:+ "passthrough), and name the source in full (<database>.<schema>.<object>)").

(** A constant argument's text; [None] when it is absent or NULL *)
Definition text_of (call : FunctionExpr) (index : nat) : outcome (option string) :=
  match arguments call !! index with
  | None => Ok None
  | Some (_, Constant v) => Ok (if IsNull v then None else Some (value_text v))
  | Some _ => Throw ("acl admin: a physical name is judged against the granted sources before it is stored, so it "
                     +:+ "must be a constant, not a parameter")
  end.
Definition parts_of (key : string) : list string :=
  match TryFromKey key with inr parts => parts | inl _ => Split key "." end.

(** The physical names a call stores *)
Record StoredName := { n_index : nat; n_schema_path : bool; n_function : bool }.
Definition names_of (target : string) (call : FunctionExpr) : outcome (list StoredName) :=
  let at_ i schema_path function := {| n_index := i; n_schema_path := schema_path; n_function := function |} in
  let is_ name := String.eqb target name in
  let when i word := text ← text_of call i; Ok (match text with Some text => CIEquals text word | None => false end) in
  if is_ "acl_add_relation" then Ok [at_ 2 false false]
  else if is_ "acl_add_schema_alias" || is_ "acl_expand_schema" || is_ "acl_alter_schema_alias" then Ok [at_ 2 true false]
  else if is_ "acl_add_table_function_alias" || is_ "acl_add_scalar_alias" then Ok [at_ 2 false true]
  else if is_ "acl_alter_relation" then phys ← when 2 "phys"; Ok (if phys : bool then [at_ 3 false false] else [])
  else if is_ "acl_alter_function" then alias ← when 3 "alias"; Ok (if alias : bool then [at_ 4 false true] else [])
  else Ok [].

(** A refresh re-reads the source its expansion was created over *)
Definition authorize_refresh (granted : list string) (target : string) (call : FunctionExpr) : outcome unit :=
  if String.eqb target "acl_refresh_schema_objects" then
    vcat ← text_of call 0;
    path ← (match vcat with Some _ => text_of call 1 | None => Ok None end);
    match vcat, path with
    | Some vcat, Some path =>
        match expansion_origin vcat path with
        | Some source => if SourceGranted granted (parts_of source) true then Ok () else outside "the refresh" (quoted source)
        | None => Ok ()
        end
    | _, _ => Ok ()
    end
  else Ok ().

Definition authorize_name (granted : list string) (call : FunctionExpr) (entry : StoredName) : outcome unit :=
  name ← text_of call (n_index entry);
  match name with
  | None => Ok ()
  | Some name =>
      let parts := parts_of name in
      if n_function entry && ((length parts <? 2) || negb (attached (hd EmptyString parts))) then Ok ()
      else if length parts <? (if n_schema_path entry then 1 else 2) then outside "the definition" (quoted name)
      else
        inside ← SourceGranted_ granted parts (n_schema_path entry);
        if inside : bool then Ok () else outside "the definition" (quoted name)
  end.

(** [std::string::rfind] *)
Fixpoint rfind (pattern s : string) : option nat :=
  match s with
  | EmptyString => if is_empty pattern then Some 0 else None
  | String c s' =>
      match rfind pattern s' with
      | Some i => Some (S i)
      | None => if String.prefix pattern s then Some 0 else None
      end
  end.
Definition plain_char (c : ascii) : bool :=
  let n := nat_of_ascii c in
  ((48 <=? n) && (n <=? 57)) || ((65 <=? n) && (n <=? 90)) || ((97 <=? n) && (n <=? 122))
  || Ascii.eqb c "_" || Ascii.eqb c dquote || Ascii.eqb c dot || space_char c.
(** The expression of a column list's item; a plain name reads no table *)
Definition column_piece (item : string * string) : option string :=
  let piece :=
    if is_empty item.2
    then match rfind " as " (Lower item.1) with Some at_ => String.substring 0 at_ item.1 | None => item.1 end
    else item.2 in
  if string_forallb plain_char piece then None else Some piece.
(** The texts a body is bound by, each with whether it is an expression *)
Definition body_pieces (shape : BodyShape) (text : string) : outcome (list (string * bool)) :=
  match shape with
  | COLUMNS_BODY => items ← ParseColumnList text; Ok (map (λ piece, (piece, true)) (omap (M:=list) column_piece items))
  | _ => Ok [(text, bool_decide (shape = EXPRESSION_BODY))]
  end.

Definition authorize_reference (granted reference : list string) : outcome unit :=
  let shown := quoted (ToKey reference) in
  match ResolvedReference reference with
  | Throw _ => outside "the definition's body" shown
  | Ok entry =>
      if bool_decide (entry = []) || negb (SourceGranted granted entry false)
      then outside "the definition's body" shown else Ok ()
  end.

Definition authorize_body_sources (granted : list string) (call : FunctionExpr) (body : BodyArgument) : outcome unit :=
  if bool_decide (b_shape body = FUNCTION_NAME_BODY) then Ok ()
  else
    text ← text_of call (b_index body);
    match text with
    | None => Ok ()
    | Some text =>
        if is_empty (Replace text " " EmptyString) then Ok ()
        else
          pieces ← body_pieces (b_shape body) text;
          match omapM (λ piece : string * bool, BodyReferences piece.1 piece.2) pieces with
          | Throw message =>
              Throw ("acl admin: a catalog admin's definition must bind, so the sources it reads can be checked: " +:+ message)
          | Ok references => _ ← omapM (authorize_reference granted) (concat references); Ok ()
          end
    end.

Definition authorize_statement_sources (granted : list string) (statement : SQLStatement) : outcome unit :=
  call ← CompiledCall statement;
  let target := Lower (FunctionName call) in
  names ← names_of target call;
  _ ← authorize_refresh granted target call;
  _ ← omapM (authorize_name granted call) names;
  _ ← omapM (authorize_body_sources granted call) (BodiesOf target call); Ok ().

Definition AuthorizeSources (statements : list SQLStatement) (r : AdminRights) : outcome unit :=
  if Policy r || negb has_catalog then Ok ()
  else _ ← omapM (authorize_statement_sources (GrantedSources r)) statements; Ok ().
End bodies.
(** ** A top-level [platform.<op>(…)] call *)

Section compile.
Context `{SU : StringUtil} `{EN : Engine}.
Variable reg : registry.

(** The platform function a call names *)
Definition PlatformCallOf (e : Expr) : option PlatformFunction :=
  match e with
  | Function_ call => leaf ← PlatformObjectName (FromQualified (path call)); FindPlatformFunction_ reg leaf
  | _ => None
  end.

(** An argument written as a constant - a literal, a list literal of them - as its value *)
Fixpoint FoldConstant (e : Expr) : option Value :=
  match e with
  | Constant v => Some v
  | Function_ call =>
      let name := Lower (FunctionName call) in
      if String.eqb name "list_value" || String.eqb name "array_value" then
        items ← (fix fold_items (args : list (option string * Expr)) : option (list (option string)) :=
                   match args with
                   | [] => Some []
                   | (Some _, _) :: _ => None
                   | (None, item) :: args =>
                       v ← FoldConstant item;
                       rest ← fold_items args;
                       Some ((if IsNull v then None else Some (value_text v)) :: rest)
                   end) (arguments call);
        Some (ListOf items)
      else None
  | _ => None
  end.

Definition escape_digit (n : nat) : ascii := ascii_of_nat (if n <? 10 then 48 + n else 87 + n).
Fixpoint json_escape (s : string) : string :=
  match s with
  | EmptyString => EmptyString
  | String c s =>
      let n := nat_of_ascii c in
      (if Ascii.eqb c dquote || Ascii.eqb c "\" then "\" +:+ str1 c
       else if n <? 32 then "\u00" +:+ str1 (escape_digit (n / 16)) +:+ str1 (escape_digit (n mod 16))
       else str1 c) +:+ json_escape s
  end.
Definition JsonQuote (value : string) : string := dq +:+ json_escape value +:+ dq.

(** A capability list as the caps JSON: each once, an empty item none *)
Definition CapsJson (items : list (option string)) : string :=
  let entries := fold_left (λ acc item,
    match item with
    | None => acc
    | Some item =>
        let capability := Trim (Lower item) in
        if is_empty capability || ci_mem capability acc then acc else acc ++ [capability]
    end) items [] in
  "{" +:+ join ", " (map (λ capability, JsonQuote capability +:+ ": true") entries) +:+ "}".

(** What an argument left out stands for *)
Definition gap (param : PlatformParam) : Expr :=
  Constant (if String.eqb (prm_type param) B_ then Boolean false
            else if String.eqb (prm_type param) LV_ then ListOf []
            else Text (fallback param)).

(** The argument as the target signature takes it *)
Definition TypedArgument (function : PlatformFunction) (param : PlatformParam) (e : Expr) : outcome Expr :=
  let about := "acl admin: platform." +:+ pname function +:+ ": " +:+ quoted (prm_name param) in
  match e with
  | Parameter_ _ =>
      if authz param then
        Throw (about +:+ " carries authorization and must be a constant, not a parameter - it is judged before the call runs")
      else Ok e
  | _ =>
      match FoldConstant e with
      | None => Throw (about +:+ " takes a constant" +:+ (if authz param then EmptyString else " or a parameter")
                       +:+ " - a management call reads no data")
      | Some (ListOf items) =>
          if String.eqb (prm_type param) LV_ then Ok (Constant (ListOf items))
          else if String.eqb (prm_name param) "caps" then Ok (Constant (Text (CapsJson items)))
          else Ok (Constant (Text (join ", " (omap (M:=list) id items))))
      | Some Null => Ok (gap param)
      | Some v =>
          if String.eqb (prm_type param) B_ then
            match v with
            | Boolean b => Ok (Constant (Boolean b))
            | _ => let text := Lower (value_text v) in
                   if String.eqb text "true" then Ok (Constant (Boolean true))
                   else if String.eqb text "false" then Ok (Constant (Boolean false))
                   else Throw (about +:+ " is true or false")
            end
          else Ok (Constant (Text (value_text v)))
      end
  end.

(** The parameter an argument name means: the last one of that name *)
Fixpoint find_param (params : list PlatformParam) (written : string) : option nat :=
  match params with
  | [] => None
  | param :: params =>
      match find_param params written with
      | Some i => Some (S i)
      | None => if CIEquals (prm_name param) written then Some 0 else None
      end
  end.

Record placing := { slots : list (option Expr); positional : nat; named_seen : bool }.

Definition place_argument (function : PlatformFunction) (p : placing) (argument : option string * Expr) : outcome placing :=
  let about := "acl admin: platform." +:+ pname function in
  where_ ←
    match argument.1 with
    | Some written =>
        match find_param (params function) written with
        | Some index => Ok (index, {| slots := slots p; positional := positional p; named_seen := true |})
        | None => Throw (about +:+ " takes no argument " +:+ quoted written +:+ " (it takes: "
                         +:+ join ", " (map prm_name (params function)) +:+ ")")
        end
    | None =>
        if named_seen p then Throw (about +:+ ": a positional argument after a named one")
        else if length (params function) <=? positional p then
          Throw (about +:+ " takes at most " +:+ pretty (N.of_nat (length (params function))) +:+ " arguments")
        else Ok (positional p, {| slots := slots p; positional := S (positional p); named_seen := false |})
    end;
  let '(index, p) := where_ in
  match params function !! index with
  | None => Throw "index out of range"
  | Some param =>
      if bool_decide (is_Some (mjoin (slots p !! index))) then
        Throw (about +:+ ": " +:+ quoted (prm_name param) +:+ " is given twice")
      else
        typed ← TypedArgument function param argument.2;
        Ok {| slots := <[index := Some typed]> (slots p); positional := positional p; named_seen := named_seen p |}
  end.

Fixpoint place_arguments (function : PlatformFunction) (p : placing) (args : list (option string * Expr)) : outcome placing :=
  match args with
  | [] => Ok p
  | argument :: args => p ← place_argument function p argument; place_arguments function p args
  end.

(** One past the last filled slot *)
Fixpoint needed (slots : list (option Expr)) : nat :=
  match slots with
  | [] => 0
  | slot :: slots =>
      match needed slots with
      | O => match slot with Some _ => 1 | None => 0 end
      | n => S n
      end
  end.

Definition fill (function : PlatformFunction) (slots : list (option Expr)) (i : nat) : outcome (option string * Expr) :=
  match slots !! i, params function !! i with
  | Some (Some e), _ => Ok (None, e)
  | Some None, Some param => Ok (None, gap param)
  | _, _ => Throw "index out of range"
  end.

Definition PlaceArguments (function : PlatformFunction) (call : FunctionExpr) : outcome (list (option string * Expr)) :=
  p ← place_arguments function
        {| slots := replicate (length (params function)) None; positional := 0; named_seen := false |} (arguments call);
  match List.find (λ candidate, needed (slots p) <=? candidate) (arities function) with
  | None => Throw ("acl admin: platform." +:+ pname function +:+ " takes at most "
                   +:+ pretty (N.of_nat (List.last (arities function) 0)) +:+ " arguments")
  | Some arity => omapM (fill function (slots p)) (seq 0 arity)
  end.

(** Nothing that would make the call per row or conditional *)
Definition bare (node : SelectNode) : bool :=
  negb (where_clause node) && negb (having node) && negb (qualify node) && negb (sample node)
  && negb (group_expressions node) && negb (grouping_sets node) && negb (modifiers node) && negb (cte_map node).

(** [SELECT * FROM platform.<read function>(…)] and nothing else *)
Definition TopLevelRead (node : SelectNode) : option FunctionExpr :=
  match select_list node, from_table node with
  | [Star true], Some (FromFunction ref) =>
      match function ref with
      | Some (Function_ call) =>
          if bool_decide (is_Some (PlatformCallOf (Function_ call))) && negb (ref_alias ref)
             && negb (column_name_alias ref) && negb (subquery ref) && negb (ref_sample ref) && bare node
          then Some call else None
      | _ => None
      end
  | _, _ => None
  end.
(** One item, no FROM *)
Definition TopLevelSelect (node : SelectNode) : option FunctionExpr :=
  match select_list node with
  | [Function_ call] =>
      if bool_decide (is_Some (PlatformCallOf (Function_ call)))
         && match from_table node with None | Some EmptyTableRef => true | _ => false end && bare node
      then Some call else None
  | _ => None
  end.

Definition CompiledStatement (f : PlatformFunction) (call : FunctionExpr) : outcome SQLStatement :=
  if Distinct call || Filter call || OrderBy call then
    Throw ("acl admin: platform." +:+ pname f +:+ " is a management call - no DISTINCT, FILTER or ORDER BY")
  else
    arguments ← PlaceArguments f call;
    if table f then Ok (select_from_call (plain_call (target f) arguments EmptyString))
    else Ok (select_call (plain_call (target f) arguments (if is_empty (alias call) then pname f else alias call))).

(** The call a statement is, and whether it is read from: [CALL] or one of the bare SELECT shapes *)
Definition platform_call (s : SQLStatement) : option (FunctionExpr * bool) :=
  match s with
  | SelectStatement (Some node) =>
      match TopLevelSelect node with
      | Some call => Some (call, false)
      | None => (λ call, (call, true)) <$> TopLevelRead node
      end
  | CallStatement (Some (Function_ call)) =>
      if bool_decide (is_Some (PlatformCallOf (Function_ call))) then Some (call, false) else None
  | _ => None
  end.

(** [None]: the statement is no platform call *)
Definition CompilePlatformCall (s : Statement) : outcome (option Statement) :=
  match platform_call (body s) with
  | None => Ok None
  | Some (call, read_form) =>
      let is_select := match body s with SelectStatement _ => true | _ => false end in
      let compile f :=
        compiled ← CompiledStatement f call;
        Ok (Some {| body := compiled; query := EmptyString; named_param_map := named_param_map s;
                    has_anonymous_parameters := has_anonymous_parameters s; stmt_location := stmt_location s |}) in
      match FindPlatformFunction_ reg (FunctionName call) with
      | None => Ok None
      | Some f =>
          if table f then
            if is_select && negb read_form then
              Throw ("acl admin: platform." +:+ pname f +:+ " is a table function - SELECT * FROM platform."
                     +:+ pname f +:+ "(…)")
            else if bool_decide (right f = R_OPEN) then Ok None
            else compile f
          else if read_form then Ok None
          else compile f
      end
  end.
End compile.
