(* ===== verification/PlatformLaws.v ===== *)
(** * What the [platform] catalog's definitions guarantee

    The authorizer against the rows of the principal's roles, the listings against the authorizer, a compiled
    call against the one written, the batch checks a mapping and a stored body pass. *)
From S2P Require Import Prelude NamePath FunctionCategories PolicyTypes AdminRights Statements Platform.


Section authorizer.
Context `{SUL : StringUtilLaws} `{EN : Engine}.
Variable reg : registry.

(** ** The authorizer *)

Definition granted (r : AdminRights) (f : PlatformFunction) : Prop := PlatformGrant r "function" (pname f) = 1%Z.
Definition denied (r : AdminRights) (f : PlatformFunction) : Prop := PlatformGrant r "function" (pname f) = 0%Z.

(** What a call of [f] over the catalog [vcat] needs, past the denies *)
Definition right_given (r : AdminRights) (f : PlatformFunction) (call : FunctionExpr) (vcat : string) : Prop :=
  match right f with
  | R_ESCALATES => False
  | R_INFRASTRUCTURE => cluster r = true ∧ judged_rule f call = Ok ()
  | R_OPERATE => operate r = true ∨ granted r f
  | R_OPEN => True
  | R_POLICY | R_HANDS_OUT => unrestricted_manage r = true ∨ granted r f
  | R_CATALOG => unrestricted_manage r = true ∨ granted r f ∨ (is_empty vcat = false ∧ manages r vcat = true)
  end.
Definition entitled (r : AdminRights) (f : PlatformFunction) (call : FunctionExpr) (vcat : string) : Prop :=
  passthrough r = true ∨ ¬ denied r f ∧ right_given r f call vcat.

Lemma AuthorizeAdminCall_spec s r :
  AuthorizeAdminCall reg s r = Ok () ↔
  ∃ call f vcat, CompiledCall s = Ok call ∧ PlatformFunctionByTarget reg (Lower (FunctionName call)) = Some f ∧
    judged_catalog f call = Ok vcat ∧ entitled r f call vcat.
Proof.
  rw /AuthorizeAdminCall. destruct (CompiledCall s) as [call|] eqn:Hc; simpl.
  2: { split; [done|]. by intros (? & ? & ? & ? & _). }
  destruct (PlatformFunctionByTarget _ _) as [f|] eqn:Hf.
  2: { split; [done|]. intros (? & ? & ? & [= <-] & Hf' & _). congruence. }
  trans (∃ vcat, judged_catalog f call = Ok vcat ∧ entitled r f call vcat).
  2: { split; [intros (vcat & Hv); by exists call, f, vcat|]. intros (? & ? & vcat & [= <-] & Hf' & Hv).
       rw Hf in Hf'. injection Hf' as <-. by exists vcat. }
  destruct (judged_catalog f call) as [vcat|] eqn:Hv; simpl; [|split; [done|by intros (? & ? & _)]].
  trans (entitled r f call vcat); [|split; [intros; by exists vcat|by intros (? & [= <-] & ?)]].
  rw /entitled /denied. destruct (passthrough r); [split; [by left|done]|].
  destruct (Z.eqb_spec (PlatformGrant r "function" (pname f)) 0) as [Hd|Hd].
  { split; [done|]. by intros [?|[? _]]. }
  trans (right_given r f call vcat); [|split; [intros ?; right; by split|by intros [?|[_ ?]]]].
  rw /right_given /granted.
  destruct (Z.eqb_spec (PlatformGrant r "function" (pname f)) 1), (right f); simpl;
    rw ?orb_true_r ?orb_false_r; repeat case_match; intuition (done || congruence).
Qed.

Lemma AuthorizeMgmt_spec statements r :
  AuthorizeMgmt reg statements r = Ok () ↔ Forall (λ s, AuthorizeAdminCall reg s r = Ok ()) statements.
Proof. apply omapM_unit. Qed.

Variable cluster_registered : bool.

(** The same, said of the rows of the principal's roles *)
Definition rows_give (rows : catalog_rows) (f : PlatformFunction) (call : FunctionExpr) (vcat : string) : Prop :=
  let R := admin_rows rows in
  let by_name := (point_key "function" (pname f), true) ∈ point_rows rows in
  let policy := said_wide cluster_registered R MANAGE ∨ said_wide cluster_registered R POLICY in
  said cluster_registered R PASSTHROUGH ∨
  (point_key "function" (pname f), false) ∉ point_rows rows ∧
  match right f with
  | R_ESCALATES => False
  | R_INFRASTRUCTURE => said_wide cluster_registered R CLUSTER ∧ judged_rule f call = Ok ()
  | R_OPERATE => by_name ∨ said_wide cluster_registered R OPERATE ∨ said_wide cluster_registered R CLUSTER
  | R_OPEN => True
  | R_POLICY | R_HANDS_OUT => by_name ∨ policy
  | R_CATALOG =>
      by_name ∨ policy ∨
      is_empty vcat = false ∧ ∃ catalog, CIEquals catalog vcat = true ∧
        (catalog ∈ managed rows ∨ catalog ≠ EmptyString ∧
           (said_of cluster_registered R MANAGE catalog ∨ said_of cluster_registered R POLICY catalog))
  end.

Lemma granted_rows R P C r f :
  rights_mean cluster_registered R P C r →
  (granted r f ↔ (point_key "function" (pname f), true) ∈ P ∧ (point_key "function" (pname f), false) ∉ P) ∧
  (denied r f ↔ (point_key "function" (pname f), false) ∈ P).
Proof.
  intros Hm. rw -(m_allowed _ _ _ _ _ Hm) -(m_denied _ _ _ _ _ Hm) /granted /denied /PlatformGrant.
  destruct (platform r !! _) as [[]|]; naive_solver.
Qed.

Lemma said_wide_cluster R : said_wide cluster_registered R CLUSTER → cluster_registered = true.
Proof. by intros (text & _ & Ht%parsed_cluster). Qed.

Lemma entitled_rows rows r f call vcat :
  rights_mean cluster_registered (admin_rows rows) (point_rows rows) (managed rows) r →
  (entitled r f call vcat ↔ rows_give rows f call vcat).
Proof.
  intros Hm. destruct (granted_rows _ _ _ _ f Hm) as [Hg Hd]. rw /entitled /rows_give -(m_passthrough _ _ _ _ _ Hm) Hd.
  destruct (passthrough r) eqn:Hp; [split; by left|].
  assert (Hno : ¬ said cluster_registered (admin_rows rows) PASSTHROUGH) by by rw -(m_passthrough _ _ _ _ _ Hm) Hp.
  apply or_iff_compat_l. rw /right_given. pose proof (m_manage _ _ _ _ _ Hm) as Hmanage.
  pose proof (m_operate _ _ _ _ _ Hm) as Hoperate. pose proof (m_cluster _ _ _ _ _ Hm) as Hcluster.
  pose proof (said_wide_cluster (admin_rows rows)) as Hreg. destruct (right f); try tauto.
  assert (Hover : manages r vcat = true ↔ ∃ catalog, CIEquals catalog vcat = true ∧
      (catalog ∈ managed rows ∨ catalog ≠ EmptyString ∧
        (said_of cluster_registered (admin_rows rows) MANAGE catalog ∨
         said_of cluster_registered (admin_rows rows) POLICY catalog))); [|tauto].
  rw /manages existsb_exists. setoid_rewrite <- list_elem_of_In. setoid_rewrite (m_catalogs _ _ _ _ _ Hm).
  setoid_rewrite orb_true_iff. rw /KeyEquals. naive_solver.
Qed.
End authorizer.

(** C31: the authorizer is its table over the rows of the principal's roles.  A batch is let through exactly when
    each of its statements is a call of a registered function, names no catalog by the reserved name, and the rows
    give what its entry asks for: a passthrough row, or no row denying the function by name and the entry's own
    right - the bundle its kind belongs to, a row granting the function by name, or, for one over a catalog, that
    catalog managed. *)
Theorem authorizer_judges_the_rows `{SUL : StringUtilLaws} `{EN : Engine} (reg : registry) (cluster_registered : bool)
    (rows : catalog_rows) (st : admin_store) (p : Principal) (statements : list SQLStatement) :
  AuthorizeMgmt reg statements (AdminRightsOf cluster_registered (Some rows) st p) = Ok () ↔
  Forall (λ s, ∃ call f vcat, CompiledCall s = Ok call ∧
            PlatformFunctionByTarget reg (Lower (FunctionName call)) = Some f ∧
            judged_catalog f call = Ok vcat ∧ rows_give cluster_registered rows f call vcat) statements.
Proof.
  rw AuthorizeMgmt_spec. apply Forall_iff. intros s. rw AuthorizeAdminCall_spec.
  pose proof (rights_mean_catalog cluster_registered rows st p) as Hm.
  split; intros (call & f & vcat & ? & ? & ? & He); exists call, f, vcat; split_and!; try done;
    by apply (entitled_rows _ _ _ _ _ _ Hm).
Qed.

(** ** The built-in registry *)

(** Whatever a linked module registered *)
Definition grown (reg : registry) : Prop :=
  ∃ views functions, Views reg = BuildViews ++ views ∧ Functions reg = BuildFunctions ++ functions.

Section tables.
#[local] Existing Instance reference_string_util.
Definition callable : list PlatformFunction := List.filter (λ f, negb (is_empty (target f))) BuildFunctions.
Lemma callable_by_target : map (λ f, PlatformFunctionByTarget built_in (target f)) callable = map Some callable.
Proof. vm_compute. reflexivity. Qed.

Fixpoint ascending (l : list nat) : bool :=
  match l with [] => true | n :: l => forallb (λ m, n <? m) l && ascending l end.
(** What the table holds of every entry *)
Definition entry_ok (f : PlatformFunction) : bool :=
  bool_decide (rule_arg f = None)
  && negb (bool_decide (right f = R_INFRASTRUCTURE))
  && (negb (bool_decide (right f = R_OPEN)) || is_empty (target f))
  && (bool_decide (right f ≠ R_CATALOG) || bool_decide (is_Some (catalog_arg f)))
  && match catalog_arg f with
     | Some i => match params f !! i with Some param => authz param && String.eqb (prm_type param) V_ | None => false end
     | None => true
     end
  && forallb (λ arity, arity <=? length (params f)) (arities f)
  && bool_decide (Lower (target f) = target f)
  && bool_decide (arities f ≠ []) && ascending (arities f)
  && (negb (is_empty (target f)) || table f && bool_decide (right f = R_OPEN)).
Lemma entries_ok : forallb entry_ok BuildFunctions = true.
Proof. vm_compute. reflexivity. Qed.
#[local] Opaque BuildFunctions.
Lemma callable_target f :
  f ∈ BuildFunctions → is_empty (target f) = false → PlatformFunctionByTarget built_in (target f) = Some f.
Proof.
  intros Hf Ht. pose proof callable_by_target as Hmap. rewrite -> map_ext_in_iff in Hmap. apply Hmap, list_elem_of_In.
  rw /callable elem_of_filter_true. split; [exact Hf|]. by rw Ht.
Qed.
End tables.
#[local] Opaque BuildFunctions BuildViews.

Section registry_laws.
Context `{SUL : StringUtilLaws} `{EN : Engine}.

Lemma find_ext {A} (p q : A → bool) l : (∀ x, p x = q x) → List.find p l = List.find q l.
Proof. intros Hpq. induction l as [|x l IH]; [done|]. by rw /= Hpq IH. Qed.
Lemma find_app_some {A} (p : A → bool) l k x : List.find p l = Some x → List.find p (l ++ k) = Some x.
Proof. induction l as [|y l IH]; [done|]. simpl. by destruct (p y). Qed.

Lemma PlatformFunctionByTarget_Lower reg t : PlatformFunctionByTarget reg (Lower t) = PlatformFunctionByTarget reg t.
Proof. apply find_ext. intros f. by rw (CIEquals_sym _ (Lower t)) CIEquals_Lower_l CIEquals_sym. Qed.

(** The management call of an entry is judged as that entry, whatever was registered since *)
Lemma built_in_by_target reg f :
  grown reg → f ∈ BuildFunctions → is_empty (target f) = false →
  PlatformFunctionByTarget reg (target f) = Some f.
Proof.
  intros (views & functions & _ & Hfuns) Hf Ht. rw /PlatformFunctionByTarget Hfuns. apply find_app_some.
  rewrite <- (callable_target f Hf Ht). apply find_ext. intros g. by rw CIEquals_law.
Qed.

Lemma built_in_named f t :
  f ∈ BuildFunctions → target f = t → is_empty t = false →
  @PlatformFunctionByTarget reference_string_util built_in t = Some f.
Proof. intros Hf <- Ht. by apply callable_target. Qed.

Lemma entry_facts f :
  f ∈ BuildFunctions →
  rule_arg f = None ∧ right f ≠ R_INFRASTRUCTURE ∧ (right f = R_OPEN → is_empty (target f) = true) ∧
  (right f = R_CATALOG → is_Some (catalog_arg f)) ∧
  (∀ i, catalog_arg f = Some i → ∃ param, params f !! i = Some param ∧ authz param = true ∧ prm_type param = V_) ∧
  Forall (λ arity, arity ≤ length (params f)) (arities f) ∧
  Lower (target f) = target f ∧ arities f ≠ [] ∧ ascending (arities f) = true ∧
  (is_empty (target f) = true → table f = true ∧ right f = R_OPEN).
Proof.
  intros Hf. pose proof entries_ok as Hall. rw forallb_forall in Hall. specialize (Hall f (proj1 (list_elem_of_In _ _) Hf)).
  move: Hall. rw /entry_ok !andb_true_iff !bool_decide_eq_true !negb_true_iff !bool_decide_eq_false. cbn [Lower reference_string_util].
  intros (((((((((H1 & H2) & H3) & H4) & H5) & H6) & H7) & H8) & H9) & H10). split_and!; try done.
  - intros Ho. by rw bool_decide_eq_true_2 // in H3.
  - intros Hr. apply orb_true_iff in H4 as [H4|H4]; by apply bool_decide_eq_true in H4.
  - intros i Hi. rw Hi in H5. destruct (params f !! i) as [param|]; [|done].
    apply andb_true_iff in H5 as [? Ht%String.eqb_eq]. eauto.
  - rewrite Forall_forall. intros n Hn%list_elem_of_In. rw forallb_forall in H6. by apply Nat.leb_le, H6.
  - by rw Lower_law.
  - intros He. rw He /= in H10. by apply andb_true_iff in H10 as [? ?%bool_decide_eq_true].
Qed.
End registry_laws.

(** ** What the listings offer *)

Section offered.
Context `{SUL : StringUtilLaws} `{EN : Engine}.
Variable read_object : string → option (option (list (string * option bool))).
Variable mappings : list IdentityMapping.
Variable clients : list MappedClient.
Variable RolePrivileged : string → bool.
Variable RoleDefined : string → bool.
Variable rights_of : Principal → AdminRights.

Definition view_as_refusal (r : AdminRights) (role : string) : string := ViewAsRefusal r role (RoleDefined role) rights_of.
Definition role_targets (statements : list SQLStatement) (r : AdminRights) : outcome unit :=
  AuthorizeRoleTargets read_object mappings clients RolePrivileged (view_as_refusal r) statements r.

(** What a batch past the checks on roles is: each statement has its target, and each target is let through *)
Lemma role_targets_spec statements r :
  role_targets statements r = Ok () ↔
  passthrough r = true ∨ ∃ targets : list (Target * option string),
    Forall2 (λ s x, target_of read_object s = Ok x.1 ∧ mapped_role x.1 = Ok x.2) statements targets ∧
    Forall (λ x, authorize_target mappings clients RolePrivileged (view_as_refusal r)
                   (omap snd targets) (omap (t_manage ∘ fst) targets) x.1 = Ok ()) targets.
Proof.
  rw /role_targets /AuthorizeRoleTargets. destruct (passthrough r); [split; [by left|done]|].
  trans (∃ targets : list (Target * option string),
    Forall2 (λ s x, target_of read_object s = Ok x.1 ∧ mapped_role x.1 = Ok x.2) statements targets ∧
    Forall (λ x, authorize_target mappings clients RolePrivileged (view_as_refusal r)
                   (omap snd targets) (omap (t_manage ∘ fst) targets) x.1 = Ok ()) targets).
  2: { split; [by right|by intros [?|?]]. }
  split.
  - intros (targets & Hts%omapM_ok & Hall%omapM_unit)%outcome_bind_ok. exists targets. split; [|done].
    eapply Forall2_impl; [exact Hts|]. intros s [t m] Ht. apply outcome_bind_ok in Ht as (t' & Ht' & Hm).
    by apply outcome_bind_ok in Hm as (m' & Hm' & [= -> ->]).
  - intros (targets & Hts & Hall). erewrite (omapM_of _ _ targets); simpl; [by apply omapM_unit|].
    eapply Forall2_impl; [exact Hts|]. intros s [t m] [Ht Hm]. simpl in *. by rw Ht /= Hm.
Qed.

Lemma Trim_empty : Trim EmptyString = EmptyString.
Proof. by rw Trim_law. Qed.
Lemma IsPlatformCatalog_empty : IsPlatformCatalog EmptyString = false.
Proof. by rw /IsPlatformCatalog Trim_empty. Qed.

Lemma ConstantArgument_texts name ts alias i fn :
  ConstantArgument (plain_call name (constant_arguments (map Text ts)) alias) i fn = Ok (default EmptyString (ts !! i)).
Proof.
  rw /ConstantArgument /plain_call /constant_arguments /=. rw map_map list_lookup_fmap. by destruct (ts !! i).
Qed.

(** Arguments that name a catalog, an unprivileged role to map, and nothing else *)
Definition mild (f : PlatformFunction) (catalog role : string) : list string :=
  map (λ i, if bool_decide (catalog_arg f = Some i) then catalog
            else if String.eqb (target f) "acl_map_role" && (i =? 4) then role else EmptyString)
    (seq 0 (length (params f))).

Lemma mild_at f catalog role i :
  default EmptyString (mild f catalog role !! i) =
  if bool_decide (catalog_arg f = Some i) && (i <? length (params f)) then catalog
  else if String.eqb (target f) "acl_map_role" && (i =? 4) && (i <? length (params f)) then role else EmptyString.
Proof.
  rw /mild list_lookup_fmap. destruct (Nat.ltb_spec i (length (params f))) as [Hi|Hi].
  - rw lookup_seq_lt //=. by rw !andb_true_r.
  - rw lookup_ge_None_2 /=; [by rw length_seq|]. by rw !andb_false_r.
Qed.

Lemma judged_mild f catalog role alias :
  f ∈ BuildFunctions → IsPlatformCatalog catalog = false →
  ∃ vcat, judged_catalog f (plain_call (target f) (constant_arguments (map Text (mild f catalog role))) alias) = Ok vcat ∧
    (is_Some (catalog_arg f) → vcat = catalog).
Proof.
  intros Hf Hc. rw /judged_catalog. destruct (catalog_arg f) as [i|] eqn:Hi; [|exists EmptyString; split; [done|by intros [? ?]]].
  rw ConstantArgument_texts mild_at Hi bool_decide_eq_true_2 //=.
  destruct (entry_facts f Hf) as (_ & _ & _ & _ & Hp & _). destruct (Hp i Hi) as (param & Hpi & _).
  apply lookup_lt_Some in Hpi. apply Nat.ltb_lt in Hpi as ->. simpl. rw Hc. by exists catalog.
Qed.

(** [f] is the table's entry of that target *)
Ltac entry Hf Ht :=
  let E := fresh in
  match type of Ht with target ?f = ?t =>
    pose proof (built_in_named f t Hf Ht eq_refl) as E; vm_compute in E; injection E as <-
  end.

Lemma mild_arg reg f catalog role i fn :
  ConstantArgument (plain_call (target f) (constant_arguments (map Text (mild f catalog role)))
    match PlatformFunctionByTarget reg (target f) with Some operation => pname operation | None => EmptyString end) i fn =
  Ok (if bool_decide (catalog_arg f = Some i) && (i <? length (params f)) then catalog
      else if String.eqb (target f) "acl_map_role" && (i =? 4) && (i <? length (params f)) then role else EmptyString).
Proof. by rw ConstantArgument_texts mild_at. Qed.

Lemma mild_target reg f catalog role :
  f ∈ BuildFunctions →
  ∃ t, target_of read_object (MakeAdminCall reg (target f) (map Text (mild f catalog role))) = Ok t ∧
    t_call t = plain_call (target f) (constant_arguments (map Text (mild f catalog role)))
      match PlatformFunctionByTarget reg (target f) with Some operation => pname operation | None => EmptyString end ∧
    t_function t = target f ∧ t_manage t = None.
Proof.
  intros Hf. destruct (entry_facts f Hf) as (_ & _ & _ & _ & _ & _ & Hl & _).
  rw /target_of /MakeAdminCall CompiledCall_select /=. change (FunctionName (plain_call ?n _ _)) with n. rw Hl.
  destruct (String.eqb_spec (target f) "acl_grant_catalog") as [Ht|_].
  { rw mild_arg. entry Hf Ht. by eexists. }
  destruct (String.eqb_spec (target f) "acl_alter_grant") as [Ht|_]; [|by eexists].
  rw !mild_arg. entry Hf Ht. simpl. rw Lower_law. by eexists.
Qed.

Lemma mild_targets reg r f catalog role :
  f ∈ BuildFunctions → RolePrivileged role = false →
  (target f = "acl_session_view_as" → Policy r = true) →
  role_targets [MakeAdminCall reg (target f) (map Text (mild f catalog role))] r = Ok ().
Proof.
  intros Hf Hrole Hview. rw /role_targets /AuthorizeRoleTargets. destruct (passthrough r) eqn:Hp; [done|].
  destruct (mild_target reg f catalog role Hf) as (t & Ht & Hcall & Hfun & Hman). simpl omapM. rw Ht /=.
  assert (Hmap : mapped_role t = Ok (if String.eqb (target f) "acl_map_role" then Some role else None)).
  { rw /mapped_role Hfun Hcall. destruct (String.eqb_spec (target f) "acl_map_role") as [Hm|_]; [|done].
    rw mild_arg. by entry Hf Hm. }
  assert (Hrep : repointed t = Ok (EmptyString, EmptyString)).
  { rw /repointed Hfun Hcall !mild_arg.
    destruct (String.eqb_spec (target f) "acl_alter_issuer") as [Hm|_]; [by entry Hf Hm|].
    destruct (String.eqb_spec (target f) "acl_define_issuer") as [Hm|_]; [by entry Hf Hm|].
    destruct (String.eqb_spec (target f) "acl_alter_client") as [Hm|_]; [by entry Hf Hm|].
    destruct (String.eqb_spec (target f) "acl_define_client") as [Hm|_]; [by entry Hf Hm|done]. }
  rw Hmap /= Hman. rw /authorize_target Hrep Hman Hmap Hfun Hcall mild_arg. simpl.
  destruct (String.eqb_spec (target f) "acl_session_view_as") as [Hm|_].
  - specialize (Hview Hm). entry Hf Hm. simpl. rw /view_as_refusal /ViewAsRefusal Hview /=. done.
  - simpl. destruct (String.eqb (target f) "acl_map_role"); [|done]. simpl. by rw Hrole.
Qed.

Lemma entitled_calls r f call vcat :
  right f ≠ R_OPEN → entitled r f call vcat →
  (target f = "acl_session_view_as" → Policy r = true) → CallsFunction r f = true.
Proof.
  intros Ho He Hv. rw /CallsFunction bool_decide_eq_false_2 //. destruct He as [->|[Hd He]]; [done|].
  destruct (passthrough r); [done|]. rw /denied in Hd. destruct (Z.eqb_spec (PlatformGrant r "function" (pname f)) 0); [done|].
  destruct (String.eqb_spec (target f) "acl_session_view_as"); [by apply Hv|].
  rw /right_given /granted in He. destruct (Z.eqb_spec (PlatformGrant r "function" (pname f)) 1), (right f); try done; try tauto.
  all: destruct He as [->|He]; [done|]. all: destruct He as [?|[_ He]]; try done.
  destruct (catalogs r) as [|c cs] eqn:Hcs; [|by rw orb_true_r]. by rw /manages Hcs in He.
Qed.

Lemma calls_entitled r f call vcat :
  f ∈ BuildFunctions → is_empty (target f) = false → CallsFunction r f = true →
  (unrestricted_manage r = false → right f = R_CATALOG → catalogs r ≠ [] → is_empty vcat = false ∧ manages r vcat = true) →
  entitled r f call vcat.
Proof.
  intros Hf Ht Hc Hcat. destruct (entry_facts f Hf) as (_ & Hinf & Hopen & _).
  assert (Hno : right f ≠ R_OPEN) by by (intros Hr%Hopen; rw Hr in Ht).
  move: Hc. rw /CallsFunction bool_decide_eq_false_2 // /entitled /denied /right_given /granted /Policy.
  destruct (passthrough r); [by left|]. simpl.
  destruct (Z.eqb_spec (PlatformGrant r "function" (pname f)) 0); [done|]. intros Hc. right. split; [done|].
  destruct (String.eqb_spec (target f) "acl_session_view_as") as [Hv|_].
  { entry Hf Hv. by left. }
  destruct (Z.eqb_spec (PlatformGrant r "function" (pname f)) 1) as [Hg|Hg], (right f); try done; try tauto.
  destruct (unrestricted_manage r); [by left|]. right. right. apply Hcat; [done|done|].
  intros Hnil. by rw Hnil in Hc.
Qed.

Lemma calls_is_admitted reg r f role :
  grown reg → f ∈ BuildFunctions → is_empty (target f) = false →
  Forall (λ c, is_empty c = false ∧ IsPlatformCatalog c = false) (catalogs r) → RolePrivileged role = false →
  CallsFunction r f = true →
  ∃ args, AuthorizeMgmt reg [MakeAdminCall reg (target f) args] r = Ok () ∧
          role_targets [MakeAdminCall reg (target f) args] r = Ok ().
Proof.
  intros Hreg Hf Ht Hcs Hrole Hcall. destruct (entry_facts f Hf) as (_ & _ & _ & Hcat & _ & _ & Hl & _).
  set catalog := hd EmptyString (catalogs r).
  assert (Hok : IsPlatformCatalog catalog = false).
  { rw /catalog. destruct (catalogs r) as [|c cs]; [apply IsPlatformCatalog_empty|]. by inversion Hcs as [|? ? [_ ?]]. }
  exists (map Text (mild f catalog role)). split.
  - apply AuthorizeMgmt_spec, Forall_singleton, AuthorizeAdminCall_spec.
    destruct (judged_mild f catalog role (match PlatformFunctionByTarget reg (target f) with
      Some operation => pname operation | None => EmptyString end) Hf Hok) as (vcat & Hv & Hvc).
    eexists _, f, vcat. split; [done|]. change (FunctionName (plain_call ?n _ _)) with n.
    rw PlatformFunctionByTarget_Lower built_in_by_target //. split; [done|]. split; [exact Hv|].
    apply calls_entitled; try done. intros _ Hr Hne. rw Hvc; [by apply Hcat|].
    rw /catalog /manages. destruct (catalogs r) as [|c cs]; [done|]. inversion Hcs as [|? ? [? _]]. split; [done|].
    by rw /= CIEquals_refl orb_true_r.
  - apply mild_targets; try done. intros Hv. move: Hcall. rw /CallsFunction Hv. entry Hf Hv. rw /Policy. simpl.
    destruct (passthrough r); [done|]. by destruct (_ =? 0)%Z.
Qed.

(** *** The batch's own effects *)

(** The statement gives the role a catalog's manage: GRANT with the capability, or ALTER GRANT to caps with it *)
Definition gives_manage (s : SQLStatement) (role : string) : Prop :=
  ∃ call caps parsed, CompiledCall s = Ok call ∧ ConstantArgument call 0 EmptyString = Ok role ∧
    (Lower (FunctionName call) = "acl_grant_catalog" ∧ ConstantArgument call 2 EmptyString = Ok caps ∨
     Lower (FunctionName call) = "acl_alter_grant" ∧ ConstantArgument call 3 EmptyString = Ok caps ∧
       ∃ field, ConstantArgument call 2 EmptyString = Ok field ∧ Lower field = "caps") ∧
    caps ≠ EmptyString ∧ ParseCaps read_object caps = Ok parsed ∧ ci_mem "manage" parsed = true.
Definition maps_claim (s : SQLStatement) (role : string) : Prop :=
  ∃ call, CompiledCall s = Ok call ∧ Lower (FunctionName call) = "acl_map_role" ∧
    ConstantArgument call 4 EmptyString = Ok role.
(** Whose trust the statement changes *)
Definition repoints (s : SQLStatement) (issuer client : string) : Prop :=
  ∃ call, CompiledCall s = Ok call ∧
    (Lower (FunctionName call) ∈ ["acl_alter_issuer"; "acl_define_issuer"] ∧
       ConstantArgument call 0 EmptyString = Ok issuer ∧ client = EmptyString ∨
     Lower (FunctionName call) = "acl_alter_client" ∧ issuer = EmptyString ∧ ConstantArgument call 0 EmptyString = Ok client ∨
     Lower (FunctionName call) = "acl_define_client" ∧ ConstantArgument call 0 EmptyString = Ok client ∧
       ConstantArgument call 1 EmptyString = Ok issuer).

Lemma ConstantArgument_ok call i fn fn' v : ConstantArgument call i fn = Ok v → ConstantArgument call i fn' = Ok v.
Proof. rw /ConstantArgument. by repeat case_match. Qed.

Lemma names_manage_ok caps parsed :
  caps ≠ EmptyString → ParseCaps read_object caps = Ok parsed → names_manage read_object caps = Ok (ci_mem "manage" parsed).
Proof. intros Hc Hp. rw /names_manage Hp. by destruct caps. Qed.

Lemma target_of_facts s t :
  target_of read_object s = Ok t →
  CompiledCall s = Ok (t_call t) ∧ t_function t = Lower (FunctionName (t_call t)) ∧
  ∀ role, gives_manage s role → t_manage t = Some role.
Proof.
  rw /target_of. intros (call & Hc & Ht)%outcome_bind_ok.
  assert (Hall : t_call t = call ∧ t_function t = Lower (FunctionName call)).
  { destruct (String.eqb _ "acl_grant_catalog").
    - apply outcome_bind_ok in Ht as (caps & _ & Ht). apply outcome_bind_ok in Ht as ([] & _ & Ht); [|by injection Ht as <-].
      by apply outcome_bind_ok in Ht as (role & _ & [= <-]).
    - destruct (String.eqb _ "acl_alter_grant"); [|by injection Ht as <-].
      apply outcome_bind_ok in Ht as (field & _ & Ht). apply outcome_bind_ok in Ht as (value & _ & Ht).
      apply outcome_bind_ok in Ht as ([] & _ & Ht); [|by injection Ht as <-].
      by apply outcome_bind_ok in Ht as (role & _ & [= <-]). }
  destruct Hall as [Hcall Hfun]. rw Hcall. split_and!; [done|done|].
  intros role (call' & caps & parsed & Hc' & Hrole & Hhow & Hne & Hp & Hm).
  assert (call' = call) as -> by congruence. pose proof (names_manage_ok _ _ Hne Hp) as Hn. rw Hm in Hn.
  destruct Hhow as [[Hname Hcaps]|(Hname & Hcaps & field & Hfield & Hlow)]; rw Hname in Ht; cbn in Ht;
    rw ?(ConstantArgument_ok _ _ _ "grant_catalog" _ Hcaps) ?(ConstantArgument_ok _ _ _ "alter_grant" _ Hcaps)
       ?(ConstantArgument_ok _ _ _ "grant_catalog" _ Hrole) ?(ConstantArgument_ok _ _ _ "alter_grant" _ Hrole) in Ht;
    [|rw (ConstantArgument_ok _ _ _ "alter_grant" _ Hfield) /= Hlow in Ht]; cbn in Ht; rw Hn in Ht; by injection Ht as <-.
Qed.

Lemma mapped_role_facts s t m :
  target_of read_object s = Ok t → mapped_role t = Ok m → ∀ role, maps_claim s role → m = Some role.
Proof.
  intros (Hc & Hfun & _)%target_of_facts Hm role (call & Hc' & Hname & Hrole).
  assert (call = t_call t) as -> by congruence. move: Hm.
  rw /mapped_role Hfun Hname (ConstantArgument_ok _ _ _ "map_role" _ Hrole) /=. by intros [= <-].
Qed.

Lemma repointed_facts s t issuer client :
  target_of read_object s = Ok t → repoints s issuer client → repointed t = Ok (issuer, client).
Proof.
  intros (Hc & Hfun & _)%target_of_facts (call & Hc' & Hhow).
  assert (call = t_call t) as -> by congruence. rw /repointed Hfun.
  destruct Hhow as [(Hname & Ha & ->)|[(Hname & -> & Ha)|(Hname & Ha & Hb)]].
  - rw (ConstantArgument_ok _ _ _ "alter_issuer" _ Ha).
    apply elem_of_cons in Hname as [->|Hname]; [done|]. by apply list_elem_of_singleton in Hname as ->.
  - by rw Hname (ConstantArgument_ok _ _ _ "alter_client" _ Ha).
  - by rw Hname (ConstantArgument_ok _ _ _ "define_client" _ Ha) (ConstantArgument_ok _ _ _ "define_client" _ Hb).
Qed.

Lemma privileged_behind_empty issuer client m :
  Forall (λ m, mrole m ≠ EmptyString) mappings →
  is_empty (privileged_behind mappings clients RolePrivileged issuer client) = true →
  m ∈ mappings → scoped clients issuer client m = true → RolePrivileged (mrole m) = false.
Proof.
  intros Hnamed Hnone Hm Hs. destruct (RolePrivileged (mrole m)) eqn:Hp; [|done]. exfalso. move: Hnone.
  rw /privileged_behind. destruct (List.find _ _) as [m'|] eqn:Hf.
  - apply find_some in Hf as [Hin _]. rewrite Forall_forall in Hnamed.
    specialize (Hnamed m' (proj2 (list_elem_of_In _ _) Hin)). by destruct (mrole m').
  - pose proof (find_none _ _ Hf m (proj1 (list_elem_of_In _ _) Hm)) as Hbad. simpl in Hbad. by rw Hs Hp in Hbad.
Qed.

Lemma authorize_target_ext mapped mapped' managed managed' why t :
  mapped ≡ₚ mapped' → managed ≡ₚ managed' →
  authorize_target mappings clients RolePrivileged why mapped managed t =
  authorize_target mappings clients RolePrivileged why mapped' managed' t.
Proof.
  intros Hmapped Hmanaged. rw /authorize_target.
  assert (He : ∀ l l' : list string, l ≡ₚ l' → ∀ x, bool_decide (x ∈ l) = bool_decide (x ∈ l')).
  { intros l l' Hl x. apply bool_decide_ext. by rw Hl. }
  destruct (t_manage t) as [role|]; [by rw (He _ _ Hmapped)|].
  destruct (mapped_role t) as [[role|]|]; try done. by rw /= (He _ _ Hmanaged).
Qed.

Lemma Forall2_permuted {A B} (P : A → B → Prop) l l' k :
  l ≡ₚ l' → Forall2 P l k → ∃ k', k ≡ₚ k' ∧ Forall2 P l' k'.
Proof.
  intros Hl. revert k. induction Hl as [|x l l' _ IH|x y l|l1 l2 l3 _ IH1 _ IH2]; intros k.
  - intros Hk. by exists k.
  - intros (y & ks & Hx & Hk & ->)%Forall2_cons_inv_l. destruct (IH ks Hk) as (k' & ? & ?).
    exists (y :: k'). split; [by constructor|by constructor].
  - intros (a & ks & Ha & Hk & ->)%Forall2_cons_inv_l. apply Forall2_cons_inv_l in Hk as (b & ks' & Hb & Hk & ->).
    exists (b :: a :: ks'). split; [constructor|by repeat constructor].
  - intros Hk. destruct (IH1 k Hk) as (k1 & ? & Hk1). destruct (IH2 k1 Hk1) as (k2 & ? & ?).
    exists k2. split; [by trans k1|done].
Qed.

Lemma role_targets_permuted statements statements' r :
  statements ≡ₚ statements' → role_targets statements r = Ok () → role_targets statements' r = Ok ().
Proof.
  rw !role_targets_spec. intros Hp [?|(targets & Hts & Hall)]; [by left|]. right.
  destruct (Forall2_permuted _ _ _ _ Hp Hts) as (targets' & Hk & Hts'). exists targets'. split; [done|].
  rewrite <- Hk. eapply Forall_impl; [exact Hall|]. intros x Hx. simpl. rewrite <- Hx. symmetry.
  apply authorize_target_ext; by rewrite Hk.
Qed.

Lemma authorize_target_ok why mapped managed t :
  authorize_target mappings clients RolePrivileged why mapped managed t = Ok () →
  (∀ role, t_function t = "acl_session_view_as" → ConstantArgument (t_call t) 0 EmptyString = Ok role →
     why role = EmptyString) ∧
  (∀ issuer client, repointed t = Ok (issuer, client) → issuer ≠ EmptyString ∨ client ≠ EmptyString →
     is_empty (privileged_behind mappings clients RolePrivileged issuer client) = true) ∧
  (∀ role, t_manage t = Some role → role ∉ mapped ∧ ∀ m, m ∈ mappings → mrole m ≠ role) ∧
  (∀ role, t_manage t = None → mapped_role t = Ok (Some role) → role ∉ managed ∧ RolePrivileged role = false).
Proof.
  rw /authorize_target. intros (u & Hview & Ht)%outcome_bind_ok.
  apply outcome_bind_ok in Ht as ([issuer client] & Hrep & Ht).
  destruct (_ && negb (is_empty (privileged_behind _ _ _ issuer client))) eqn:Hpriv; [done|]. split_and!.
  - intros role Hf Hrole. rw Hf (ConstantArgument_ok _ _ _ "view_as" _ Hrole) /= in Hview. by destruct (why role).
  - intros issuer' client' Hrep' Hne. assert (issuer' = issuer ∧ client' = client) as [-> ->] by (split; congruence).
    apply andb_false_iff in Hpriv as [Hpriv|?%negb_false_iff]; [|done].
    apply orb_false_iff in Hpriv as [Hi%negb_false_iff Hc%negb_false_iff]. by destruct issuer, client, Hne.
  - intros role Hm. rw Hm in Ht. destruct (_ || _) eqn:Hmap in Ht; [done|].
    apply orb_false_iff in Hmap as [Hn%bool_decide_eq_false Hex]. split; [done|]. intros m Hin Heq.
    apply not_true_iff_false in Hex. apply Hex, existsb_exists. exists m. split; [by apply list_elem_of_In|].
    by rw Heq String.eqb_refl.
  - intros role Hnone Hm. rw Hnone Hm /= in Ht. case_bool_decide; [done|]. split; [done|].
    by destruct (RolePrivileged role).
Qed.

Lemma mapped_gives_nothing s t role :
  target_of read_object s = Ok t → mapped_role t = Ok (Some role) → t_manage t = None.
Proof.
  intros Ht Hm. destruct (target_of_facts s t Ht) as (Hc & Hfun & _). move: Hm Ht. rw /mapped_role Hfun /target_of Hc /=.
  destruct (String.eqb_spec (Lower (FunctionName (t_call t))) "acl_map_role") as [->|]; [|done]. simpl. by intros _ [= <-].
Qed.

(** what only a passthrough scope may do to trust, no batch of anyone else does.  In a batch the checks let
    through, whatever the order of its statements, a role a claim is mapped to holds no administration and is given
    none by the batch; a role given a catalog's manage is reached by no mapping, stored or of the batch; an issuer
    or a client whose trust changes carries no mapping to a role that holds administration; a role viewed as is one
    the viewer may view as. *)
Theorem trust_stays_behind_passthrough (statements : list SQLStatement) (r : AdminRights) :
  passthrough r = false → Forall (λ m, mrole m ≠ EmptyString) mappings → role_targets statements r = Ok () →
  (∀ s role, s ∈ statements → maps_claim s role →
     RolePrivileged role = false ∧ ∀ s', s' ∈ statements → ¬ gives_manage s' role) ∧
  (∀ s role, s ∈ statements → gives_manage s role → ∀ m, m ∈ mappings → mrole m ≠ role) ∧
  (∀ s issuer client, s ∈ statements → repoints s issuer client → issuer ≠ EmptyString ∨ client ≠ EmptyString →
     ∀ m, m ∈ mappings → scoped clients issuer client m = true → RolePrivileged (mrole m) = false) ∧
  (∀ s call role, s ∈ statements → CompiledCall s = Ok call → Lower (FunctionName call) = "acl_session_view_as" →
     ConstantArgument call 0 EmptyString = Ok role → view_as_refusal r role = EmptyString) ∧
  (∀ statements', statements ≡ₚ statements' → role_targets statements' r = Ok ()).
Proof.
  intros Hno Hnamed Hok. pose proof Hok as [Hp|(targets & Hts & Hall)]%role_targets_spec; [congruence|].
  assert (Hof : ∀ s, s ∈ statements → ∃ x, x ∈ targets ∧ target_of read_object s = Ok x.1 ∧ mapped_role x.1 = Ok x.2 ∧
    authorize_target mappings clients RolePrivileged (view_as_refusal r)
      (omap snd targets) (omap (t_manage ∘ fst) targets) x.1 = Ok ()).
  { intros s [i Hi]%list_elem_of_lookup. destruct (Forall2_lookup_l _ _ _ _ _ Hts Hi) as (x & Hx & Ht & Hm).
    assert (x ∈ targets) by (apply list_elem_of_lookup; eauto). rewrite Forall_forall in Hall. exists x. auto. }
  assert (Hgives : ∀ s role, s ∈ statements → gives_manage s role →
    ∃ x, x ∈ targets ∧ t_manage x.1 = Some role ∧ target_of read_object s = Ok x.1).
  { intros s role (x & Hx & Ht & _)%Hof Hg. exists x. split; [done|]. split; [|done]. by apply (target_of_facts _ _ Ht). }
  split_and!.
  - intros s role (x & Hx & Ht & Hm & Ha)%Hof Hmap. pose proof (mapped_role_facts _ _ _ Ht Hm _ Hmap) as Hrole. rw Hrole in Hm.
    destruct (authorize_target_ok _ _ _ _ Ha) as (_ & _ & _ & Hlast).
    destruct (Hlast role (mapped_gives_nothing _ _ _ Ht Hm) Hm) as [Hnot Hpriv]. split; [done|].
    intros s' Hs' (y & Hy & Hgive & _)%Hgives; [|done]. apply Hnot, list_elem_of_omap. by exists y.
  - intros s role Hs Hg. destruct (Hof s Hs) as (x & Hx & Ht & _ & Ha).
    by apply (authorize_target_ok _ _ _ _ Ha), (target_of_facts _ _ Ht).
  - intros s issuer client (x & Hx & Ht & _ & Ha)%Hof Hrep Hne m. apply privileged_behind_empty; [done|].
    by apply (authorize_target_ok _ _ _ _ Ha); [apply (repointed_facts s)|].
  - intros s call role (x & Hx & Ht & _ & Ha)%Hof Hc Hv Hrole.
    destruct (target_of_facts _ _ Ht) as (Hc' & Hfun & _). assert (call = t_call x.1) as -> by congruence.
    by apply (authorize_target_ok _ _ _ _ Ha); [rw Hfun|].
  - intros statements' Hperm. by apply (role_targets_permuted statements).
Qed.

(** what the listings offer is what the authorizer admits.  Of the entries of the built-in registry -
    whatever a linked module registered besides -, a principal's listings show exactly those it could call: for
    each there are arguments under which the authorizer and the checks on roles let the call through, and a call
    they let through is of an entry the listings show.  (Its policy names no catalog by the reserved name, and
    some role holds no administration.) *)
Theorem offered_iff_admitted (reg : registry) (r : AdminRights) (f : PlatformFunction) (role : string) :
  grown reg → f ∈ BuildFunctions → is_empty (target f) = false →
  Forall (λ catalog, is_empty catalog = false ∧ IsPlatformCatalog catalog = false) (catalogs r) →
  RolePrivileged role = false →
  (CallsFunction r f = true ↔
   ∃ args, AuthorizeMgmt reg [MakeAdminCall reg (target f) args] r = Ok () ∧
           role_targets [MakeAdminCall reg (target f) args] r = Ok ()).
Proof.
  intros Hreg Hf Ht Hcs Hrole. split; [by apply (calls_is_admitted _ _ _ role)|]. intros (args & Hm & Hroles).
  destruct (entry_facts f Hf) as (_ & _ & Hopen & _ & _ & _ & Hl & _).
  apply AuthorizeMgmt_spec, Forall_singleton, AuthorizeAdminCall_spec in Hm as (call & g & vcat & Hc & Hg & _ & He).
  injection Hc as <-. change (FunctionName (plain_call ?n _ _)) with n in Hg.
  rw PlatformFunctionByTarget_Lower built_in_by_target // in Hg. injection Hg as <-.
  eapply entitled_calls; [by intros Ho%Hopen; rw Ho in Ht|exact He|]. intros Hv.
  apply role_targets_spec in Hroles as [Hp|(targets & Hts & Hall)]; [by rw /Policy Hp|].
  inversion Hts as [|? [t m] ? ts' [Ht' _] Hnil]; subst. inversion Hnil; subst.
  apply Forall_inv in Hall. simpl in Ht', Hall.
  move: Ht' Hall. rw /target_of CompiledCall_select /=. change (FunctionName (plain_call ?n _ _)) with n. rw Hv Lower_law.
  intros [= <-]. rw /authorize_target /=. intros (u & Hwhy & _)%outcome_bind_ok.
  apply outcome_bind_ok in Hwhy as (written & _ & Hwhy). move: Hwhy. rw /view_as_refusal /ViewAsRefusal.
  by destruct (Policy r).
Qed.
End offered.

(** ** A compiled call *)

Section placement.
Context `{SUL : StringUtilLaws} `{EN : Engine}.

Lemma find_param_some params written i :
  find_param params written = Some i →
  (∃ param, params !! i = Some param ∧ CIEquals (prm_name param) written = true) ∧
  ∀ j param, params !! j = Some param → CIEquals (prm_name param) written = true → j ≤ i.
Proof.
  revert i. induction params as [|param params IH]; intros i; simpl; [done|].
  destruct (find_param params written) as [k|] eqn:Hk.
  - intros [= <-]. destruct (IH k eq_refl) as [Hp Hlast]. split; [done|]. intros [|j] p Hj Hw; simpl in Hj; [lia|].
    specialize (Hlast j p Hj Hw). lia.
  - destruct (CIEquals (prm_name param) written) eqn:Hc; [|done]. intros [= <-]. split; [by exists param|].
    intros [|j] p Hj Hw; [done|]. exfalso. simpl in Hj. revert Hk Hj Hw. clear. revert j.
    induction params as [|q params IH]; intros j; simpl; [done|].
    destruct (find_param params written) eqn:Hf; [done|]. destruct (CIEquals (prm_name q) written) eqn:Hq; [done|].
    intros _. destruct j as [|j]; simpl; [congruence|]. by apply IH.
Qed.

Variable f : PlatformFunction.

(** Where the [k]th argument goes: a named one to the last parameter of that name, a positional one - all before it
    are positional - to its own place *)
Definition goes (args : list (option string * Expr)) (k i : nat) : Prop :=
  ∃ arg, args !! k = Some arg ∧
    match arg.1 with
    | Some written => find_param (params f) written = Some i
    | None => i = k ∧ ∀ j a, j < k → args !! j = Some a → a.1 = None
    end.
(** What stands there: the argument, in the type its parameter has *)
Definition stands (arg : option string * Expr) (i : nat) (e : Expr) : Prop :=
  ∃ param, params f !! i = Some param ∧ TypedArgument f param arg.2 = Ok e.

(** The places [at_] of the arguments placed so far *)
Record placed_so_far (args : list (option string * Expr)) (at_ : list nat) (p : placing) : Prop := {
  ps_length : length (slots p) = length (params f);
  ps_places : length at_ = length args;
  ps_nodup : NoDup at_;
  ps_goes : ∀ k i, at_ !! k = Some i → goes args k i;
  ps_slots : ∀ k i arg, at_ !! k = Some i → args !! k = Some arg → ∃ e, slots p !! i = Some (Some e) ∧ stands arg i e;
  ps_empty : ∀ i, i < length (params f) → i ∉ at_ → slots p !! i = Some None;
  ps_positional : named_seen p = false → positional p = length args ∧ ∀ j a, args !! j = Some a → a.1 = None;
}.

Lemma goes_app args rest k i : goes args k i → goes (args ++ rest) k i.
Proof.
  intros (arg & Harg & Hk). exists arg. split; [by apply lookup_app_l_Some|]. destruct arg.1; [done|].
  destruct Hk as [-> Hbefore]. split; [done|]. intros j a Hj Ha. apply (Hbefore j a Hj).
  apply lookup_lt_Some in Harg. rewrite lookup_app_l in Ha; [lia|done].
Qed.

Lemma place_argument_ok p arg p' :
  place_argument f p arg = Ok p' →
  ∃ i e, stands arg i e ∧ ¬ is_Some (mjoin (slots p !! i)) ∧ slots p' = <[i := Some e]> (slots p) ∧
    match arg.1 with
    | Some written => find_param (params f) written = Some i ∧ named_seen p' = true
    | None => named_seen p = false ∧ i = positional p ∧ positional p' = S i ∧ named_seen p' = false
    end.
Proof.
  rw /place_argument. intros ([i q] & Hwhere & Hp)%outcome_bind_ok.
  assert (Hq : slots q = slots p ∧ match arg.1 with
    | Some written => find_param (params f) written = Some i ∧ named_seen q = true
    | None => named_seen p = false ∧ i = positional p ∧ positional q = S i ∧ named_seen q = false end).
  { destruct (arg.1) as [written|]; [destruct (find_param (params f) written); [|done]; by injection Hwhere as <- <-|].
    destruct (named_seen p) eqn:Hn; [done|]. destruct (_ <=? _); [done|]. by injection Hwhere as <- <-. }
  destruct Hq as [Hslots Hq]. destruct (params f !! i) as [param|] eqn:Hparam; [|done].
  case_bool_decide as Hfree; [done|]. apply outcome_bind_ok in Hp as (typed & Htyped & [= <-]).
  rw Hslots in Hfree. exists i, typed. split_and!; [by exists param|done|by rw -Hslots|].
  by destruct (arg.1).
Qed.

Lemma placed_step args at_ p arg p' :
  placed_so_far args at_ p → place_argument f p arg = Ok p' →
  ∃ i, placed_so_far (args ++ [arg]) (at_ ++ [i]) p'.
Proof.
  intros [Hlen Hpl Hnd Hg Hs He Hpos] (i & e & Hst & Hfree & Hsl & Hname)%place_argument_ok. exists i.
  assert (Hi : i < length (params f)) by (destruct Hst as (param & Hp & _); by apply lookup_lt_Some in Hp).
  assert (Hnew : i ∉ at_).
  { intros [k Hk]%list_elem_of_lookup. apply Hfree.
    destruct (lookup_lt_is_Some_2 args k) as [a Ha]; [rw -Hpl; by apply lookup_lt_Some in Hk|].
    destruct (Hs k i a Hk Ha) as (e' & -> & _). by eexists. }
  assert (Hgoes : goes (args ++ [arg]) (length args) i).
  { exists arg. rw lookup_app_r; [lia|]. rw Nat.sub_diag. split; [done|]. destruct (arg.1); [by destruct Hname|].
    destruct Hname as (Hns & -> & _). destruct (Hpos Hns) as [-> Hall]. split; [done|].
    intros j a Hj Ha. rewrite lookup_app_l in Ha; [done|]. by apply (Hall j). }
  split.
  - by rw Hsl length_insert.
  - by rw !length_app Hpl.
  - apply NoDup_app. split_and!; [done|set_solver|apply NoDup_singleton].
  - intros k j [Hk|[Hk Hj]]%lookup_app_Some; [by apply goes_app, Hg|].
    apply list_lookup_singleton_Some in Hj as [Hz <-]. by replace k with (length args) by lia.
  - intros k j a [Hk|[Hk Hj]]%lookup_app_Some Ha; rw Hsl.
    + assert (j ≠ i) by by (intros ->; apply Hnew, list_elem_of_lookup; eauto).
      rw list_lookup_insert_ne //. apply (Hs k); [done|]. rewrite lookup_app_l in Ha; [|done].
      rw -Hpl. by apply lookup_lt_Some in Hk.
    + apply list_lookup_singleton_Some in Hj as [Hz <-]. rewrite lookup_app_r in Ha; [lia|].
      apply list_lookup_singleton_Some in Ha as [_ <-]. exists e. rw list_lookup_insert_eq //. by rw Hlen.
  - intros j Hj Hnot. rw Hsl list_lookup_insert_ne; [set_solver|]. apply He; [done|set_solver].
  - intros Hns. destruct (arg.1) eqn:Ha; [by destruct Hname as [_ ?]; congruence|].
    destruct Hname as (Hbefore & -> & -> & _). destruct (Hpos Hbefore) as [-> Hall].
    split; [rw length_app; simpl; lia|]. intros j a [Hj|[_ Hj]]%lookup_app_Some; [by apply (Hall j)|].
    by apply list_lookup_singleton_Some in Hj as [_ <-].
Qed.

Lemma placed_all args : ∀ before at_ p p',
  placed_so_far before at_ p → place_arguments f p args = Ok p' →
  ∃ more, placed_so_far (before ++ args) (at_ ++ more) p'.
Proof.
  induction args as [|arg args IH]; intros before at_ p p' Hb; simpl.
  - intros [= <-]. exists []. by rw !app_nil_r.
  - intros (q & Hq & Hrest)%outcome_bind_ok. destruct (placed_step _ _ _ _ _ Hb Hq) as (i & Hi).
    destruct (IH _ _ _ _ Hi Hrest) as (more & Hm). exists (i :: more).
    by rw -!app_assoc in Hm.
Qed.

Lemma placed_none :
  placed_so_far [] [] {| slots := replicate (length (params f)) None; positional := 0; named_seen := false |}.
Proof.
  split; simpl; try done; try by rw ?length_replicate.
  - constructor.
  - intros i Hi _. by rw lookup_replicate_2.
Qed.

(** [needed] is one past the last filled slot *)
Lemma needed_spec (l : list (option Expr)) n : needed l ≤ n ↔ ∀ i e, l !! i = Some (Some e) → i < n.
Proof.
  revert n. induction l as [|slot l IH]; intros n; simpl; [split; [done|lia]|].
  destruct (needed l) as [|m] eqn:Hm.
  - destruct slot as [e|].
    + split; [|intros Hl; specialize (Hl 0 e eq_refl); lia]. intros Hn [|i] e'; simpl; [lia|]. intros Hi.
      specialize (proj1 (IH 0) ltac:(lia) i e' Hi). lia.
    + split; [|lia]. intros _ [|i] e'; simpl; [done|]. intros Hi. specialize (proj1 (IH 0) ltac:(lia) i e' Hi). lia.
  - split.
    + intros Hn [|i] e; simpl; [lia|]. intros Hi. specialize (proj1 (IH (n - 1)) ltac:(lia) i e Hi). lia.
    + intros Hl. destruct n as [|n].
      * exfalso. assert (S m ≤ 0); [|lia]. apply IH. intros i e Hi. specialize (Hl (S i) e Hi). lia.
      * assert (S m ≤ n); [|lia]. apply IH. intros i e Hi. specialize (Hl (S i) e Hi). lia.
Qed.

Lemma fill_ok sl i x :
  length sl = length (params f) → fill f sl i = Ok x →
  (∃ e, sl !! i = Some (Some e) ∧ x = (None, e)) ∨
  (∃ param, sl !! i = Some None ∧ params f !! i = Some param ∧ x = (None, gap param)).
Proof.
  intros Hlen. rw /fill. destruct (sl !! i) as [[e|]|] eqn:Hi; [intros [= <-]; left; by exists e| |done].
  destruct (params f !! i) as [param|]; [|done]. intros [= <-]. right. by exists param.
Qed.

Lemma find_ascending l (p : nat → bool) a :
  ascending l = true → List.find p l = Some a → a ∈ l ∧ p a = true ∧ ∀ b, b ∈ l → p b = true → a ≤ b.
Proof.
  induction l as [|x l IH]; simpl; [done|]. intros [Hx Hl]%andb_true_iff. rewrite -> forallb_forall in Hx.
  destruct (p x) eqn:Hp.
  - intros [= <-]. split_and!; [left|done|]. intros b [->|Hb]%elem_of_cons _; [done|].
    specialize (Hx b (proj1 (list_elem_of_In _ _) Hb)). apply Nat.ltb_lt in Hx. lia.
  - intros Ha. destruct (IH Hl Ha) as (Hin & Hpa & Hleast). split_and!; [by right|done|].
    intros b [->|Hb]%elem_of_cons Hpb; [congruence|by apply Hleast].
Qed.

(** What a constant argument is judged by is what runs *)
Lemma authz_constant param e typed :
  TypedArgument f param e = Ok typed → authz param = true → ∃ v, typed = Constant v.
Proof.
  intros Ht Ha. destruct e; simpl in Ht; rw ?Ha in Ht; try done; try (by injection Ht as <-; eexists).
  all: repeat (match type of Ht with context [match ?x with _ => _ end] => destruct x end; try done);
    injection Ht as <-; by eexists.
Qed.

(** The call [out] as the one written with [args]: every argument in its own place, every other place up to the
    least signature that takes them all what an argument left out stands for *)
Definition placed (args out : list (option string * Expr)) : Prop :=
  ∃ at_ : list nat, length at_ = length args ∧ NoDup at_ ∧
    (∀ k i arg, at_ !! k = Some i → args !! k = Some arg →
      goes args k i ∧ ∃ e, stands arg i e ∧ out !! i = Some (None, e)) ∧
    (∀ i, i < length out → i ∉ at_ → ∃ param, params f !! i = Some param ∧ out !! i = Some (None, gap param)) ∧
    length out ∈ arities f ∧ (∀ arity, arity ∈ arities f → Forall (λ i, i < arity) at_ → length out ≤ arity).

Lemma PlaceArguments_placed call out :
  ascending (arities f) = true → Forall (λ arity, arity ≤ length (params f)) (arities f) →
  PlaceArguments f call = Ok out → placed (arguments call) out.
Proof.
  intros Hasc Hmax. rw /PlaceArguments. intros (p & Hp & Hout)%outcome_bind_ok.
  destruct (placed_all _ _ _ _ _ placed_none Hp) as (at_ & [Hlen Hpl Hnd Hg Hs He _]). simpl in *.
  destruct (List.find _ _) as [arity|] eqn:Hfind; [|done]. apply omapM_ok in Hout.
  destruct (find_ascending _ _ _ Hasc Hfind) as (Hin & Hneed & Hleast). apply Nat.leb_le in Hneed.
  pose proof (Forall2_length _ _ _ Hout) as Hl. rw length_seq in Hl.
  assert (Hfill : ∀ i x, out !! i = Some x → fill f (slots p) i = Ok x).
  { intros i x Hx. destruct (Forall2_lookup_r _ _ _ _ _ Hout Hx) as (j & Hj & Hf). apply lookup_seq in Hj as [-> _]. done. }
  exists at_. split_and!; try done.
  - intros k i arg Hk Ha. destruct (Hs k i arg Hk Ha) as (e & Hsl & Hst). split; [by apply Hg|]. exists e. split; [done|].
    assert (Hi : i < arity) by (apply (proj1 (needed_spec (slots p) arity) Hneed i e Hsl)).
    destruct (lookup_lt_is_Some_2 out i) as [x Hx]; [lia|].
    destruct (fill_ok _ _ _ Hlen (Hfill i x Hx)) as [(e' & Hse & ->)|(? & ? & _)]; congruence.
  - intros i Hi Hnot. destruct (lookup_lt_is_Some_2 out i Hi) as [x Hx].
    destruct (fill_ok _ _ _ Hlen (Hfill i x Hx)) as [(e' & Hse & ->)|(param & ? & Hparam & ->)]; [|by exists param].
    assert (Hlt : i < length (params f)) by (rewrite Forall_forall in Hmax; specialize (Hmax arity Hin); lia).
    by rw (He i Hlt Hnot) in Hse.
  - by rw -Hl.
  - intros b Hb Hall. rw -Hl. apply Hleast; [done|]. apply Nat.leb_le, needed_spec. intros i e Hi.
    rewrite Forall_forall in Hall. apply Hall. destruct (decide (i ∈ at_)) as [|Hnot]; [done|].
    assert (Hlt : i < length (params f)) by (rw -Hlen; by apply lookup_lt_Some in Hi).
    by rw (He i Hlt Hnot) in Hi.
Qed.
End placement.

(** a top-level [platform.<op>(…)] runs as the management call it names and no other.  A compiled statement
    is one bare call of the entry's target, which the authorizer judges as that same entry, whatever a linked
    module registered; every argument written stands in the compiled call, once, in its own place and type, and
    every other place holds what an argument left out stands for; the call takes the least signature that holds
    them all; and what the authorizer reads - a catalog, a role, a body - is a constant there, never a
    parameter bound later. *)
Theorem platform_call_means_what_it_says `{SUL : StringUtilLaws} `{EN : Engine} (reg : registry) (f : PlatformFunction)
    (s s' : Statement) (call : FunctionExpr) (read_form : bool) :
  grown reg → f ∈ BuildFunctions →
  platform_call reg (body s) = Some (call, read_form) → FindPlatformFunction_ reg (FunctionName call) = Some f →
  CompilePlatformCall reg s = Ok (Some s') →
  ∃ compiled, CompiledCall (body s') = Ok compiled ∧
    PlatformFunctionByTarget reg (Lower (FunctionName compiled)) = Some f ∧
    placed f (arguments call) (arguments compiled) ∧
    (∀ i param name e, params f !! i = Some param → authz param = true → arguments compiled !! i = Some (name, e) →
       ∃ v, e = Constant v) ∧
    named_param_map s' = named_param_map s ∧ has_anonymous_parameters s' = has_anonymous_parameters s.
Proof.
  intros Hreg Hf Hcall Hfind. rw /CompilePlatformCall Hcall Hfind.
  destruct (entry_facts f Hf) as (_ & _ & _ & _ & _ & Hmax & Hl & _ & Hasc & Hempty). intros Hs.
  assert (Ht : is_empty (target f) = false).
  { destruct (is_empty (target f)); [|done]. destruct (Hempty eq_refl) as [Htab Hopen]. rw Htab Hopen in Hs. simpl in Hs.
    by destruct (_ && _). }
  assert (Hc : ∃ compiled, CompiledStatement f call = Ok compiled ∧ body s' = compiled ∧
    named_param_map s' = named_param_map s ∧ has_anonymous_parameters s' = has_anonymous_parameters s).
  { destruct (table f); [destruct (_ && _); [done|]; destruct (bool_decide _); [done|]|destruct read_form; [done|]].
    all: apply outcome_bind_ok in Hs as (compiled & Hc & [= <-]); by exists compiled. }
  destruct Hc as (compiled & Hc & -> & Hn & Ha). clear Hs. move: Hc. rw /CompiledStatement.
  destruct (_ || _ || _); [done|]. intros (out & Hout & Hc)%outcome_bind_ok.
  assert (Hcc : ∃ alias, CompiledCall compiled = Ok (plain_call (target f) out alias)).
  { destruct (table f); injection Hc as <-; eexists; [apply CompiledCall_from|apply CompiledCall_select]. }
  destruct Hcc as [alias Hcc]. pose proof (PlaceArguments_placed _ _ _ Hasc Hmax Hout) as Hplaced.
  exists (plain_call (target f) out alias). split; [done|]. change (FunctionName (plain_call ?n _ _)) with n.
  split; [by rw PlatformFunctionByTarget_Lower built_in_by_target|]. split; [done|]. split_and!; [|done|done].
  intros i param name e Hparam Hauthz He. cbn in He. destruct Hplaced as (at_ & Hlen & _ & Hgiven & Hrest & _).
  destruct (decide (i ∈ at_)) as [[k Hk]%list_elem_of_lookup|Hnot].
  - destruct (lookup_lt_is_Some_2 (arguments call) k) as [arg Harg]; [rw -Hlen; by apply lookup_lt_Some in Hk|].
    destruct (Hgiven k i arg Hk Harg) as (_ & typed & (param' & Hp' & Htyped) & Hx).
    assert (param' = param) as -> by congruence. rw Hx in He. injection He as <- <-. by apply (authz_constant _ _ _ _ Htyped).
  - destruct (Hrest i (lookup_lt_Some _ _ _ He) Hnot) as (param' & _ & Hx). rw Hx in He. injection He as <- <-. by eexists.
Qed.

(** ** What a catalog admin's definitions may reach *)

Section confined.
Context `{SUL : StringUtilLaws} `{EN : Engine}.
Context {Q : Type} `{QN : QualifiedNames Q}.
Variable WalkBodyCalls : string → BodyShape → list (Q * FunctionKind) * option walk_failure.
Variable ResolveFunction : Q → FunctionKind → FunctionDecision.
Variable PhysicalObjectReadings : list string → option (list (list string)).
Variable attached : string → bool.
Variable expansion_origin : string → string → option string.
Variable ParseColumnList : string → outcome (list (string * string)).
Variable BodyReferences : string → bool → outcome (list (list string)).
Variable ResolvedReference : list string → outcome (list string).
Variable Split : string → string → list string.





Variable cluster_registered : bool.
Variable rows : catalog_rows.
Variable st : admin_store.
Variable p : Principal.
Notation author := (AdminRightsOf cluster_registered (Some rows) st p).










End confined.

(** ** Witnesses *)

#[local] Existing Instance reference_string_util.
#[local] Existing Instance reference_string_util_laws.
#[local] Instance plain_engine : Engine := {| list_text items := join ", " (omap (M:=list) id items) |}.
#[local] Instance parts_names : QualifiedNames (list string) := {|
  path_size := length;
  Catalog q := match rev q with _ :: _ :: c :: _ => c | _ => EmptyString end;
  Schema q := match rev q with _ :: s :: _ => s | _ => EmptyString end;
  Name q := List.last q EmptyString;
  of_name n := [n];
|}.

(** An administrator of the catalog [sales], granted one source *)
Definition sales_rows : catalog_rows :=
  {| managed := ["sales"]; admin_rows := []; point_rows := [("source:lake.raw", true)] |}.
Definition no_rights_store : admin_store := {| admin_scopes := []; platform_grants := [] |}.
Definition somebody : Principal := {| issuer := EmptyString; subject := "ann"; roles := ["seller"]; claims := [] |}.
Definition sales_admin : AdminRights := AdminRightsOf true (Some sales_rows) no_rights_store somebody.
Definition add_orders (vcat phys : string) : SQLStatement :=
  MakeAdminCall built_in "acl_add_relation"
    [Text vcat; Text "orders"; Text phys; Text "id, lower(name)"; Text EmptyString; Text EmptyString].
Definition function_named (name : string) : PlatformFunction :=
  match FindPlatformFunction_ built_in name with
  | Some f => f
  | None => function_ EmptyString EmptyString [] [] None R_OPEN false EmptyString EmptyString
  end.

Lemma authorizer_judges_the_rows_witness :
  Forall (λ s, ∃ call f vcat, CompiledCall s = Ok call ∧
            PlatformFunctionByTarget built_in (Lower (FunctionName call)) = Some f ∧
            judged_catalog f call = Ok vcat ∧ rows_give true sales_rows f call vcat) [add_orders "SALES" "lake.raw.orders"] ∧
  AuthorizeMgmt built_in [add_orders "hr" "lake.raw.orders"] sales_admin ≠ Ok ().
Proof.
  split; [|vm_compute; discriminate].
  refine (proj1 (authorizer_judges_the_rows built_in true sales_rows no_rights_store somebody _) _).
  vm_compute. reflexivity.
Defined.

Lemma grown_built_in : grown built_in.
Proof. exists [], []. by rw /built_in !app_nil_r. Qed.

Lemma offered_iff_admitted_witness :
  CallsFunction sales_admin (function_named "add_relation") = true ∧
  ∃ args, AuthorizeMgmt built_in [MakeAdminCall built_in (target (function_named "add_relation")) args] sales_admin = Ok () ∧
    role_targets (λ _, None) [] [] (λ _, false) (λ _, true) (λ _, sales_admin)
      [MakeAdminCall built_in (target (function_named "add_relation")) args] sales_admin = Ok ().
Proof.
  split; [vm_compute; reflexivity|].
  refine (proj1 (offered_iff_admitted (λ _, None) [] [] (λ _, false) (λ _, true) (λ _, sales_admin)
    built_in sales_admin (function_named "add_relation") "guest" grown_built_in _ _ _ _) _).
  - apply list_elem_of_In, (find_some (λ f, CIEquals (pname f) "add_relation")). vm_compute. reflexivity.
  - vm_compute. reflexivity.
  - vm_compute. repeat constructor.
  - reflexivity.
  - vm_compute. reflexivity.
Defined.

Definition grants_and_maps : list SQLStatement :=
  [MakeAdminCall built_in "acl_grant_catalog" [Text "seller"; Text "sales"; Text "{manage}"];
   MakeAdminCall built_in "acl_map_role" [Text "client"; Text "app"; Text "groups"; Text "sellers"; Text "reader"]].
Definition reads_caps (text : string) : option (option (list (string * option bool))) :=
  if String.eqb text "{manage}" then Some (Some [("manage", Some true)]) else None.
Definition wide_admin : AdminRights :=
  {| passthrough := false; unrestricted_manage := true; observe := false; operate := false; cluster := false;
     unknown_scope := false; catalogs := []; platform := ∅ |}.

Lemma trust_stays_behind_passthrough_witness :
  role_targets reads_caps [] [] (λ role, String.eqb role "boss") (λ _, true) (λ _, wide_admin)
    (rev grants_and_maps) wide_admin = Ok () ∧
  ∀ s, s ∈ grants_and_maps → ¬ gives_manage reads_caps s "reader".
Proof.
  destruct (trust_stays_behind_passthrough reads_caps [] [] (λ role, String.eqb role "boss") (λ _, true)
    (λ _, wide_admin) grants_and_maps wide_admin eq_refl (Forall_nil_2 _)) as (Hmaps & _ & _ & _ & Hany).
  { vm_compute. reflexivity. }
  split; [apply Hany, Permutation_rev|].
  refine (proj2 (Hmaps (MakeAdminCall built_in "acl_map_role"
    [Text "client"; Text "app"; Text "groups"; Text "sellers"; Text "reader"]) "reader" _ _)).
  - right. left.
  - eexists. split; [reflexivity|]. split; vm_compute; reflexivity.
Defined.

Definition named_call : FunctionExpr :=
  {| path := ["platform"; "drop_role"];
     arguments := [(None, Constant (Text "reader")); (Some "MODE", Constant (Text "if_exists"))];
     Distinct := false; Filter := false; OrderBy := false; alias := EmptyString |}.

Definition drop_reader : Statement := composed (CallStatement (Some (Function_ named_call))).
Definition drop_reader_compiled : Statement :=
  match CompilePlatformCall built_in drop_reader with Ok (Some s) => s | _ => drop_reader end.

Lemma platform_call_means_what_it_says_witness :
  ∃ compiled, CompiledCall (body drop_reader_compiled) = Ok compiled ∧
    PlatformFunctionByTarget built_in (Lower (FunctionName compiled)) = Some (function_named "drop_role") ∧
    placed (function_named "drop_role") (arguments named_call) (arguments compiled).
Proof.
  destruct (platform_call_means_what_it_says built_in (function_named "drop_role")
    drop_reader drop_reader_compiled named_call false grown_built_in) as (compiled & Hc & Hf & Hp & _).
  - apply list_elem_of_In, (find_some (λ f, CIEquals (pname f) "drop_role")). vm_compute. reflexivity.
  - vm_compute. reflexivity.
  - vm_compute. reflexivity.
  - vm_compute. reflexivity.
  - exists compiled. split; [exact Hc|]. split; [exact Hf|exact Hp].
Defined.



(** A role a claim already maps to is given a source by a policy holder, which makes it administer; the mapping
    alone would be refused after the grant. *)
Definition grant_source : list SQLStatement := [MakeAdminCall built_in "acl_grant_source" [Text "seller"; Text "lake"]].
Definition map_seller : list SQLStatement :=
  [MakeAdminCall built_in "acl_map_role" [Text "client"; Text "app"; Text "groups"; Text "sellers"; Text "seller"]].
Definition seller_mapping : IdentityMapping :=
  {| scope_kind := "client"; scope_name := "app"; source := "groups"; external_value := "sellers"; mrole := "seller" |}.
Definition granted_source : admin_store :=
  GrantPlatform "seller" "source" "lake" true no_rights_store.
Definition administers (st : admin_store) (role : string) : bool :=
  Privileged (AdminRightsOf true None st {| issuer := EmptyString; subject := EmptyString; roles := [role]; claims := [] |}).

Lemma source_grant_administers_a_mapped_role :
  let checked mappings st statements :=
    role_targets reads_caps mappings [] (administers st) (λ _, true) (λ _, wide_admin) statements wide_admin in
  checked [seller_mapping] no_rights_store grant_source = Ok () ∧
  AuthorizeMgmt built_in grant_source wide_admin = Ok () ∧
  administers no_rights_store "seller" = false ∧ administers granted_source "seller" = true ∧
  checked [] no_rights_store map_seller = Ok () ∧ checked [] granted_source map_seller ≠ Ok ().
Proof. split_and!; vm_compute; first [reflexivity|discriminate]. Qed.
