(* ===== verification/Token.v ===== *)
(** * Tokens ([acl_token.cpp])

    A JWT taken apart, the key it is verified with, the checks of its algorithm, its signature and its times.
    What [yyjson] reads of a document, [mbedtls]' decoding and cryptography are parameters ([JsonReader],
    [Crypto]); the clock is an argument. *)
From stdpp Require Import pretty.
From S2P Require Import Prelude.

(** ** JSON as [yyjson] hands it out *)

(** Object members in the document's order.  An integer is one of 64 bits, signed or unsigned; a real number is
    kept by its [std::to_string] text and by the [int64_t] its value converts to. *)
Inductive Json :=
  | JNull
  | JBool (b : bool)
  | JInt (z : Z)
  | JReal (text : string) (whole : Z)
  | JStr (s : string)
  | JArr (items : list Json)
  | JObj (members : list (string * Json)).

Class JsonReader := {
  (* [yyjson_read] and the document's root *)
  read_json : string → option Json;
  (* [static_cast<int64_t>(yyjson_get_num)] of an integer: through a double *)
  through_double : Z → Z;
}.

(** [yyjson_obj_get]: the first member of that name, of an object *)
Definition obj_get (value : Json) (key : string) : option Json :=
  match value with
  | JObj members => snd <$> List.find (λ m, String.eqb m.1 key) members
  | _ => None
  end.
(** [yyjson_get_sint]: an integer's 64 bits as signed; 0 of what is no integer *)
Definition get_sint (value : Json) : Z := match value with JInt z => i64 z | _ => 0%Z end.
Definition get_num `{JsonReader} (value : Json) : Z :=
  match value with JInt z => i64 (through_double z) | JReal _ whole => i64 whole | _ => 0%Z end.
Definition is_num (value : Json) : bool := match value with JInt _ | JReal _ _ => true | _ => false end.

(** A C string ends at its first NUL *)
Fixpoint c_str (s : string) : string :=
  match s with
  | EmptyString => EmptyString
  | String c s => if Ascii.eqb c "000" then EmptyString else String c (c_str s)
  end.

Definition JsonString (value : option Json) : string :=
  match value with
  | Some (JStr s) => c_str s
  | Some (JInt z) => pretty (i64 z)
  | Some (JReal text _) => text
  | Some (JBool b) => if b then "true" else "false"
  | _ => EmptyString
  end.

(** ** The token's parts *)

Class Crypto := {
  (* [mbedtls_base64_decode] *)
  base64_decode : string → option string;
  RsaKey : Type;
  (* [mbedtls_pk_parse_public_key], the import of a modulus and an exponent *)
  pem_key : string → option RsaKey;
  raw_key : string → string → option RsaKey;
  Sha256_ : string → option string;
  (* [mbedtls_pk_verify] over a hash, [p256_ecdsa_verify] of a signature under a point *)
  pk_verify : RsaKey → string → string → bool;
  p256_verify : string → string → string → bool;
  (* HMAC-SHA256: the key, the text *)
  hmac : string → string → option string;
}.

Section token.
Context `{SU : StringUtil} `{JR : JsonReader} `{CR : Crypto}.

Definition Reject {A} (reason : string) : outcome A := Throw ("acl_rewrite: token rejected: " +:+ reason).

(** Up to a whole group of four *)
Definition pad (s : string) : string :=
  s +:+ match String.length s mod 4 with 1 => "===" | 2 => "==" | 3 => "=" | _ => EmptyString end.
Definition Base64UrlDecode (input : string) : option string :=
  base64_decode (pad (string_map (λ c, if Ascii.eqb c "-" then "+"%char else if Ascii.eqb c "_" then "/"%char else c) input)).

Record ParsedJwt := { signing_input : string; signature : string; header_json : string; payload_json : string }.

(** Around the first [c] *)
Fixpoint cut_at (c : ascii) (s : string) : option (string * string) :=
  match s with
  | EmptyString => None
  | String d s =>
      if Ascii.eqb d c then Some (EmptyString, s)
      else match cut_at c s with Some (before, rest) => Some (String d before, rest) | None => None end
  end.

(** Three parts around two dots *)
Definition SplitJwt (token : string) : option ParsedJwt :=
  head ← cut_at dot token;
  rest ← cut_at dot head.2;
  if contains_char dot rest.2 then None
  else
    header ← Base64UrlDecode head.1;
    payload ← Base64UrlDecode rest.1;
    signature ← Base64UrlDecode rest.2;
    Some {| signing_input := head.1 +:+ "." +:+ rest.1; signature := signature; header_json := header;
            payload_json := payload |}.

(** ** The key *)

Definition keys_of (root : option Json) : option (list Json) :=
  root ← root; keys ← obj_get root "keys"; match keys with JArr items => Some items | _ => None end.

(** A signing key of the type *)
Definition signs (kty : string) (key : Json) : bool :=
  String.eqb (JsonString (obj_get key "kty")) kty
  && let use := JsonString (obj_get key "use") in is_empty use || String.eqb use "sig".

Definition SelectJwk (root : option Json) (kid kty : string) : option Json :=
  keys ← keys_of root;
  let signing := List.filter (signs kty) keys in
  if is_empty kid then match signing with [key] => Some key | _ => None end
  else List.find (λ key, String.eqb (JsonString (obj_get key "kid")) kid) signing.

(** ** The signature *)

Definition Sha256 (input : string) : outcome string :=
  match Sha256_ input with Some hash => Ok hash | None => Reject "hashing failed" end.

Fixpoint differing (a b : string) : bool :=
  match a, b with
  | String x a, String y b => negb (Ascii.eqb x y) || differing a b
  | _, _ => false
  end.
Definition ConstantTimeEquals (a b : string) : bool :=
  (String.length a =? String.length b) && negb (differing a b).

Definition rsa_key (keys_json kid : string) : outcome (option RsaKey) :=
  let trimmed := Trim keys_json in
  if StartsWith trimmed "-----BEGIN" then Ok (pem_key trimmed)
  else
    match SelectJwk (read_json keys_json) kid "RSA" with
    | None => Ok None
    | Some jwk =>
        match Base64UrlDecode (JsonString (obj_get jwk "n")), Base64UrlDecode (JsonString (obj_get jwk "e")) with
        | Some n, Some e => Ok (raw_key n e)
        | _, _ => Reject "malformed RSA JWK"
        end
    end.

Definition VerifyRs256 (jwt : ParsedJwt) (keys_json kid : string) : outcome unit :=
  hash ← Sha256 (signing_input jwt);
  key ← rsa_key keys_json kid;
  match key with
  | None => Reject "no usable RS256 key for this issuer"
  | Some key => if pk_verify key hash (signature jwt) then Ok () else Reject "signature verification failed"
  end.

Definition VerifyEs256 (jwt : ParsedJwt) (keys_json kid : string) : outcome unit :=
  match SelectJwk (read_json keys_json) kid "EC" with
  | None => Reject "no usable ES256 key for this issuer"
  | Some jwk =>
      match Base64UrlDecode (JsonString (obj_get jwk "x")), Base64UrlDecode (JsonString (obj_get jwk "y")) with
      | Some x, Some y =>
          if negb (String.length x =? 32) || negb (String.length y =? 32) then Reject "malformed EC JWK"
          else if negb (String.length (signature jwt) =? 64) then Reject "malformed ES256 signature"
          else
            hash ← Sha256 (signing_input jwt);
            if p256_verify (signature jwt) (x +:+ y) hash then Ok () else Reject "signature verification failed"
      | _, _ => Reject "malformed EC JWK"
      end
  end.

Definition VerifyHs256 (jwt : ParsedJwt) (keys_json kid : string) : outcome unit :=
  match SelectJwk (read_json keys_json) kid "oct" with
  | None => Reject "no usable HS256 key for this issuer"
  | Some jwk =>
      match Base64UrlDecode (JsonString (obj_get jwk "k")) with
      | Some secret =>
          if is_empty secret then Reject "malformed oct JWK"
          else match hmac secret (signing_input jwt) with
               | None => Reject "hmac failed"
               | Some mac => if ConstantTimeEquals mac (signature jwt) then Ok () else Reject "signature verification failed"
               end
      | None => Reject "malformed oct JWK"
      end
  end.

(** ** What the header and the key set say *)

(** The issuer the token names, when it looks like one *)
Definition LooksLikeJwt (token : string) : option string :=
  jwt ← SplitJwt token;
  header ← read_json (header_json jwt);
  payload ← read_json (payload_json jwt);
  if is_empty (JsonString (obj_get header "alg")) then None else Some (JsonString (obj_get payload "iss")).

Definition JwtKid (token : string) : string :=
  match SplitJwt token with
  | Some jwt => match read_json (header_json jwt) with
                | Some header => JsonString (obj_get header "kid")
                | None => EmptyString
                end
  | None => EmptyString
  end.

Definition JwksHasKid (keys_json kid : string) : bool :=
  is_empty kid
  || match keys_of (read_json keys_json) with
     | None => true   (* no JWKS: the verifier says so *)
     | Some keys => existsb (λ key, String.eqb (JsonString (obj_get key "kid")) kid) keys
     end.

(** [std::string::find] of a text *)
Fixpoint contains_text (pattern s : string) : bool :=
  String.prefix pattern s || match s with EmptyString => false | String _ s => contains_text pattern s end.
(** How many keys, and the identifiers of those that have one *)
Definition JwksKeyIds (keys_json : string) : Z * list string :=
  match read_json keys_json with
  | None => (if contains_text "-----BEGIN" keys_json then 1%Z else 0%Z, [])
  | Some root =>
      match keys_of (Some root) with
      | None => (0%Z, [])
      | Some keys =>
          (Z.of_nat (length keys),
           List.filter (λ kid, negb (is_empty kid)) (map (λ key, JsonString (obj_get key "kid")) keys))
      end
  end.

(** ** The verification *)

Record VerifiedJwt := { v_issuer : string; v_payload : string; token_type : string; expires_at : Z }.

Definition check_signature (alg kid keys_json : string) (jwt : ParsedJwt) : outcome unit :=
  if String.eqb alg "RS256" then VerifyRs256 jwt keys_json kid
  else if String.eqb alg "ES256" then VerifyEs256 jwt keys_json kid
  else if String.eqb alg "HS256" then VerifyHs256 jwt keys_json kid
  else Reject ("unsupported algorithm " +:+ quoted alg).

(** The time claims, against the clock with its skew: the expiry *)
Definition check_times (payload : Json) (now skew : Z) (ignore_exp : bool) : outcome Z :=
  match obj_get payload "exp" with
  | Some exp =>
      if negb (is_num exp) then Reject "missing exp claim"
      else if negb ignore_exp && (iadd (get_sint exp) skew <? now)%Z then Reject "token expired"
      else
        match obj_get payload "nbf" with
        | Some nbf => if is_num nbf && (now <? isub (get_num nbf) skew)%Z then Reject "token not yet valid"
                      else Ok (get_sint exp)
        | None => Ok (get_sint exp)
        end
  | None => Reject "missing exp claim"
  end.

Definition VerifyJwtSignature (token keys_json : string) (algs : list string) (skew : Z) (ignore_exp : bool) (now : Z)
    : outcome VerifiedJwt :=
  match SplitJwt token with
  | None => Reject "not a JWT"
  | Some jwt =>
      match read_json (header_json jwt), read_json (payload_json jwt) with
      | Some header, Some payload =>
          let alg := JsonString (obj_get header "alg") in
          let kid := JsonString (obj_get header "kid") in
          if negb (ci_mem alg algs) then Reject ("algorithm " +:+ quoted alg +:+ " is not allowed for this issuer")
          else
            _ ← check_signature alg kid keys_json jwt;
            exp ← check_times payload now skew ignore_exp;
            Ok {| v_issuer := JsonString (obj_get payload "iss"); v_payload := payload_json jwt;
                  token_type := JsonString (obj_get header "typ"); expires_at := exp |}
      | _, _ => Reject "malformed JWT JSON"
      end
  end.
End token.

(** ** What a verified token is *)

Section token_laws.
Context `{SUL : StringUtilLaws} `{JR : JsonReader} `{CR : Crypto}.

(** The key of a set that a token means: of the type, for signing, the first with the token's identifier - or, of a
    token without one, the only one *)
Definition means (keys : list Json) (kid kty : string) (key : Json) : Prop :=
  key ∈ keys ∧ JsonString (obj_get key "kty") = kty ∧ JsonString (obj_get key "use") ∈ [EmptyString; "sig"] ∧
  if is_empty kid then ∀ other, other ∈ keys → signs kty other = true → other = key
  else JsonString (obj_get key "kid") = kid.

Lemma signs_true kty key :
  signs kty key = true ↔ JsonString (obj_get key "kty") = kty ∧ JsonString (obj_get key "use") ∈ [EmptyString; "sig"].
Proof.
  rw /signs andb_true_iff orb_true_iff !String.eqb_eq is_empty_spec !elem_of_cons.
  pose proof (not_elem_of_nil (JsonString (obj_get key "use"))). tauto.
Qed.

Lemma SelectJwk_means root kid kty key :
  SelectJwk root kid kty = Some key → ∃ keys, keys_of root = Some keys ∧ means keys kid kty key.
Proof.
  rw /SelectJwk. intros (keys & Hkeys & Hsel)%bind_Some. exists keys. split; [done|].
  destruct (is_empty kid) eqn:Hkid.
  - destruct (List.filter (signs kty) keys) as [|k [|]] eqn:Hf; try done. injection Hsel as ->.
    assert (Hall : ∀ other, other ∈ keys → signs kty other = true → other = key).
    { intros other Hin Hs. assert (In other [key]) as [->|[]]; [|done]. rewrite <- Hf.
      apply filter_In. by rw -list_elem_of_In. }
    assert (Hin : In key (List.filter (signs kty) keys)) by (rw Hf; by left).
    apply filter_In in Hin as [Hin [? ?]%signs_true]. rw /means Hkid. split_and!; try done. by apply list_elem_of_In.
  - apply find_some in Hsel as [Hin Heq%String.eqb_eq]. apply filter_In in Hin as [Hin [? ?]%signs_true].
    rw /means Hkid. split_and!; try done. by apply list_elem_of_In.
Qed.

(** How each algorithm's signature holds: over the token's first two parts, under a key of its own type *)
Inductive signed_by (keys_json kid : string) (jwt : ParsedJwt) : string → Prop :=
  | By_pem hash key :
      String.prefix "-----BEGIN" (Trim keys_json) = true → pem_key (Trim keys_json) = Some key →
      Sha256_ (signing_input jwt) = Some hash → pk_verify key hash (signature jwt) = true →
      signed_by keys_json kid jwt "RS256"
  | By_rsa keys jwk n e hash key :
      keys_of (read_json keys_json) = Some keys → means keys kid "RSA" jwk →
      Base64UrlDecode (JsonString (obj_get jwk "n")) = Some n → Base64UrlDecode (JsonString (obj_get jwk "e")) = Some e →
      raw_key n e = Some key → Sha256_ (signing_input jwt) = Some hash → pk_verify key hash (signature jwt) = true →
      signed_by keys_json kid jwt "RS256"
  | By_ec keys jwk x y hash :
      keys_of (read_json keys_json) = Some keys → means keys kid "EC" jwk →
      Base64UrlDecode (JsonString (obj_get jwk "x")) = Some x → Base64UrlDecode (JsonString (obj_get jwk "y")) = Some y →
      String.length x = 32 → String.length y = 32 → String.length (signature jwt) = 64 →
      Sha256_ (signing_input jwt) = Some hash → p256_verify (signature jwt) (x +:+ y) hash = true →
      signed_by keys_json kid jwt "ES256"
  | By_secret keys jwk secret :
      keys_of (read_json keys_json) = Some keys → means keys kid "oct" jwk →
      Base64UrlDecode (JsonString (obj_get jwk "k")) = Some secret → secret ≠ EmptyString →
      hmac secret (signing_input jwt) = Some (signature jwt) →
      signed_by keys_json kid jwt "HS256".

(** The accumulated difference is none exactly of equal texts *)
Lemma ConstantTimeEquals_spec a b : ConstantTimeEquals a b = true ↔ a = b.
Proof.
  rw /ConstantTimeEquals andb_true_iff Nat.eqb_eq negb_true_iff. revert b.
  induction a as [|x a IH]; intros [|y b]; simpl; try (by split; [intros [? _]|]); try (by split; intros).
  rw orb_false_iff negb_false_iff Ascii.eqb_eq. specialize (IH b). split.
  - intros (Hl & -> & Hd). f_equal. apply IH. split; [lia|done].
  - intros [= -> ->]. destruct (proj2 IH eq_refl) as [? ?]. split_and!; [lia|done|done].
Qed.

Lemma check_signature_ok alg kid keys_json jwt :
  check_signature alg kid keys_json jwt = Ok () → signed_by keys_json kid jwt alg.
Proof.
  rw /check_signature.
  destruct (String.eqb_spec alg "RS256") as [->|_]; [|destruct (String.eqb_spec alg "ES256") as [->|_];
    [|destruct (String.eqb_spec alg "HS256") as [->|_]; [|done]]].
  - rw /VerifyRs256 /Sha256. destruct (Sha256_ _) as [hash|] eqn:Hh; [|done]. simpl.
    intros (key & Hkey & Hv)%outcome_bind_ok. destruct key as [key|]; [|done].
    destruct (pk_verify key hash _) eqn:Hok; [|done]. move: Hkey. rw /rsa_key StartsWith_law.
    destruct (String.prefix _ _) eqn:Hpem; [intros [= Hpk]; by eapply By_pem|].
    destruct (SelectJwk _ kid "RSA") as [jwk|] eqn:Hs; [|done]. destruct (SelectJwk_means _ _ _ _ Hs) as (keys & ? & ?).
    destruct (Base64UrlDecode (JsonString (obj_get jwk "n"))) as [n|] eqn:Hn; [|done].
    destruct (Base64UrlDecode (JsonString (obj_get jwk "e"))) as [e|] eqn:He; [|done].
    intros [= Hraw]. by eapply By_rsa.
  - rw /VerifyEs256. destruct (SelectJwk _ kid "EC") as [jwk|] eqn:Hs; [|done].
    destruct (SelectJwk_means _ _ _ _ Hs) as (keys & ? & ?).
    destruct (Base64UrlDecode (JsonString (obj_get jwk "x"))) as [x|] eqn:Hx; [|done].
    destruct (Base64UrlDecode (JsonString (obj_get jwk "y"))) as [y|] eqn:Hy; [|done].
    destruct (String.length x =? 32) eqn:Hlx; [|done]. destruct (String.length y =? 32) eqn:Hly; [|done].
    destruct (String.length (signature jwt) =? 64) eqn:Hls; [|done]. rw /Sha256. simpl.
    destruct (Sha256_ _) as [hash|] eqn:Hh; [|done]. simpl. destruct (p256_verify _ _ hash) eqn:Hok; [|done].
    intros _. by eapply By_ec; try apply Nat.eqb_eq.
  - rw /VerifyHs256. destruct (SelectJwk _ kid "oct") as [jwk|] eqn:Hs; [|done].
    destruct (SelectJwk_means _ _ _ _ Hs) as (keys & ? & ?).
    destruct (Base64UrlDecode _) as [secret|] eqn:Hk; [|done]. destruct (is_empty secret) eqn:He; [done|].
    destruct (hmac secret _) as [mac|] eqn:Hm; [|done]. destruct (ConstantTimeEquals _ _) eqn:Heq; [|done].
    apply ConstantTimeEquals_spec in Heq as ->. intros _. eapply By_secret; try done. by intros ->.
Qed.

Lemma cut_at_spec c s before rest :
  cut_at c s = Some (before, rest) → s = before +:+ str1 c +:+ rest ∧ contains_char c before = false.
Proof.
  revert before. induction s as [|d s IH]; intros before; simpl; [done|].
  destruct (Ascii.eqb d c) eqn:Hd.
  - intros [= <- <-]. apply Ascii.eqb_eq in Hd as ->. done.
  - destruct (cut_at c s) as [[b r]|]; [|done]. intros [= <- <-]. destruct (IH b eq_refl) as [-> Hb]. split; [done|].
    simpl. by rw Hb -(Ascii.eqb_sym d c) Hd.
Qed.

(** Three parts without dots, each decoded; the signature covers the first two *)
Lemma SplitJwt_spec token jwt :
  SplitJwt token = Some jwt → ∃ header payload sig_text,
    token = signing_input jwt +:+ "." +:+ sig_text ∧ signing_input jwt = header +:+ "." +:+ payload ∧
    contains_char dot header = false ∧ contains_char dot payload = false ∧ contains_char dot sig_text = false ∧
    Base64UrlDecode header = Some (header_json jwt) ∧ Base64UrlDecode payload = Some (payload_json jwt) ∧
    Base64UrlDecode sig_text = Some (signature jwt).
Proof.
  rw /SplitJwt. intros ([header tail] & Hh & Hs)%bind_Some. apply bind_Some in Hs as ([payload sig_text] & Hp & Hs).
  simpl in *. destruct (contains_char dot sig_text) eqn:Hd; [done|].
  apply bind_Some in Hs as (hj & Hhj & Hs). apply bind_Some in Hs as (pj & Hpj & Hs).
  apply bind_Some in Hs as (sg & Hsg & [= <-]). apply cut_at_spec in Hh as [-> Hh]. apply cut_at_spec in Hp as [-> Hp].
  exists header, payload, sig_text. simpl. split_and!; try done. by rw !string_app_assoc.
Qed.


Lemma check_times_ok payload now skew ignore_exp exp_at :
  (0 ≤ skew < 9223372036854775808)%Z → check_times payload now skew ignore_exp = Ok exp_at →
  ∃ exp, obj_get payload "exp" = Some exp ∧ is_num exp = true ∧ exp_at = get_sint exp ∧
    (ignore_exp = false → now ≤ exp_at + skew)%Z ∧
    (∀ nbf, obj_get payload "nbf" = Some nbf → is_num nbf = true → get_num nbf - skew ≤ now)%Z.
Proof.
  intros Hskew. rw /check_times. destruct (obj_get payload "exp") as [exp|]; [|done].
  destruct (is_num exp) eqn:Hnum; [|done]. simpl. destruct (negb ignore_exp && _) eqn:Hexp; [done|]. intros Hnbf.
  assert (Hr : (-9223372036854775808 ≤ get_sint exp < 9223372036854775808)%Z).
  { rw /get_sint. destruct exp; try lia. apply i64_range. }
  assert (Hle : ignore_exp = false → (now ≤ get_sint exp + skew)%Z).
  { intros ->. simpl in Hexp. apply Z.ltb_ge in Hexp. pose proof (i64_le (get_sint exp + skew) ltac:(lia)) as Hle.
    rw /iadd in Hexp. lia. }
  assert (exp_at = get_sint exp) as ->.
  { destruct (obj_get payload "nbf") as [nbf|]; [destruct (is_num nbf && _); [done|]|]; by injection Hnbf as <-. }
  exists exp. split_and!; try done.
  - intros nbf Hn Hnn. rw Hn Hnn /= in Hnbf. destruct (now <? _)%Z eqn:Hnow; [done|]. apply Z.ltb_ge in Hnow.
    assert (Hr' : (get_num nbf < 9223372036854775808)%Z) by (destruct nbf; simpl; try lia; apply i64_range).
    move: Hnow Hr'. rw /isub. generalize (get_num nbf). intros n Hnow Hr'.
    pose proof (i64_ge (n - skew) ltac:(lia)). lia.
Qed.

(** C18: a verified token is signed by the issuer's key in its own algorithm and is in its time.  The algorithm the
    header names is one of three, allowed for the issuer, and decides the kind of key: a token is never checked as a
    shared-secret one with a public key or the reverse.  The key is the one the token names - or the only signing
    key of that kind -, the signature covers the whole header and payload, whose issuer, type and claims are what
    the result carries; the expiry is kept, has not passed beyond the skew unless it is ignored, and the token is
    already valid - even where the clock's arithmetic wraps around. *)
Theorem verified_token_is_signed (token keys_json : string) (algs : list string) (skew now : Z) (ignore_exp : bool)
    (v : VerifiedJwt) :
  (0 ≤ skew < 9223372036854775808)%Z → VerifyJwtSignature token keys_json algs skew ignore_exp now = Ok v →
  ∃ jwt header payload sig_text alg kid, SplitJwt token = Some jwt ∧ token = signing_input jwt +:+ "." +:+ sig_text ∧
    read_json (header_json jwt) = Some header ∧ read_json (payload_json jwt) = Some payload ∧
    alg = JsonString (obj_get header "alg") ∧ kid = JsonString (obj_get header "kid") ∧
    ci_mem alg algs = true ∧ signed_by keys_json kid jwt alg ∧
    v_payload v = payload_json jwt ∧ v_issuer v = JsonString (obj_get payload "iss") ∧
    token_type v = JsonString (obj_get header "typ") ∧
    ∃ exp, obj_get payload "exp" = Some exp ∧ is_num exp = true ∧ expires_at v = get_sint exp ∧
      (ignore_exp = false → now ≤ expires_at v + skew)%Z ∧
      (∀ nbf, obj_get payload "nbf" = Some nbf → is_num nbf = true → get_num nbf - skew ≤ now)%Z.
Proof.
  intros Hskew. rw /VerifyJwtSignature. destruct (SplitJwt token) as [jwt|] eqn:Hjwt; [|done].
  destruct (SplitJwt_spec _ _ Hjwt) as (h & p & sig_text & Htok & _).
  destruct (read_json (header_json jwt)) as [header|] eqn:Hh; [|done].
  destruct (read_json (payload_json jwt)) as [payload|] eqn:Hp; [|done].
  destruct (ci_mem _ algs) eqn:Halg; [|done]. simpl.
  intros ([] & Hsig%check_signature_ok & Hv)%outcome_bind_ok.
  apply outcome_bind_ok in Hv as (exp_at & (exp & Hexp)%check_times_ok & [= <-]); [|done].
  exists jwt, header, payload, sig_text, (JsonString (obj_get header "alg")), (JsonString (obj_get header "kid")).
  simpl. split_and!; try done. by exists exp.
Qed.
End token_laws.

(** ** A witness: a token under a shared secret *)

Module Sample.
#[local] Existing Instance reference_string_util.
#[local] Existing Instance reference_string_util_laws.
(** Three documents, by the padded text each is decoded from *)
#[export] Instance documents : JsonReader := {|
  read_json text :=
    if String.eqb text "h===" then Some (JObj [("alg", JStr "HS256"); ("kid", JStr "k1"); ("typ", JStr "at+jwt")])
    else if String.eqb text "p===" then
      Some (JObj [("iss", JStr "https://idp"); ("exp", JInt 1000); ("aud", JStr "api"); ("groups", JArr [JStr "sellers"])])
    else if String.eqb text "keys" then
      Some (JObj [("keys", JArr [JObj [("kty", JStr "RSA"); ("kid", JStr "k1")];
                                 JObj [("kty", JStr "oct"); ("kid", JStr "k1"); ("k", JStr "c2VjcmV0")]])])
    else None;
  through_double z := z;
|}.
#[export] Instance toy_crypto : Crypto := {|
  base64_decode text := Some text;
  RsaKey := string;
  pem_key := Some;
  raw_key n e := Some (n +:+ e);
  Sha256_ := Some;
  pk_verify _ _ _ := false;
  p256_verify _ _ _ := false;
  hmac secret text := if String.eqb secret "c2VjcmV0" && String.eqb text "h.p" then Some "s===" else None;
|}.

Lemma verified_token_is_signed_witness :
  VerifyJwtSignature "h.p.s" "keys" ["HS256"] 60 false 1050 =
    Ok {| v_issuer := "https://idp"; v_payload := "p==="; token_type := "at+jwt"; expires_at := 1000 |} ∧
  ∃ jwt header payload sig_text alg kid, SplitJwt "h.p.s" = Some jwt ∧ "h.p.s" = signing_input jwt +:+ "." +:+ sig_text ∧
    read_json (header_json jwt) = Some header ∧ read_json (payload_json jwt) = Some payload ∧
    alg = JsonString (obj_get header "alg") ∧ kid = JsonString (obj_get header "kid") ∧
    ci_mem alg ["HS256"] = true ∧ signed_by "keys" kid jwt alg.
Proof.
  assert (Hv : VerifyJwtSignature "h.p.s" "keys" ["HS256"] 60 false 1050 =
    Ok {| v_issuer := "https://idp"; v_payload := "p==="; token_type := "at+jwt"; expires_at := 1000 |})
    by (vm_compute; reflexivity).
  split; [exact Hv|].
  destruct (verified_token_is_signed "h.p.s" "keys" ["HS256"] 60 1050 false _ ltac:(lia) Hv)
    as (jwt & header & payload & sig_text & alg & kid & H1 & H2 & H3 & H4 & H5 & H6 & H7 & H8 & _).
  exists jwt, header, payload, sig_text, alg, kid. split_and!; assumption.
Defined.
End Sample.
