(* ===== verification/Identity.v ===== *)
(** * The identity model's decisions ([acl_identity.cpp])

    The stored shapes, which client accepts a token, the routing by specificity, the roles and attributes a token
    yields, the checks a write must pass.  No store and no I/O: what only the callers can read (secrets, which
    roles exist, which administer) are arguments. *)
From stdpp Require Import pretty.
From S2P Require Import Prelude Platform Token.

(** ** The model *)

Record IdentityIssuer := { i_name : string; url : string; i_secret_service : string; i_secret : string }.
Inductive Op := EQUALS | ONE_OF | CONTAINS | LIKE.
#[export] Instance Op_eq_dec : EqDecision Op.
Proof. solve_decision. Defined.
Record ClaimCondition := { c_path : string; op : Op; c_values : list string }.
Record AttributeDef := { a_name : string; a_paths : list string; is_constant : bool; a_constant : string }.
Record IdentityClient := {
  name : string;
  issuer : string;
  audiences : list string;
  azp : list string;
  conditions : list ClaimCondition;
  roles_from : list string;
  roles_constant : list string;
  unmapped_as_role : bool;
  attributes : list AttributeDef;
  subject : list string;
  wanted_type : string;
  client_id : string;
  flows : list string;
  secret_service : string;
  secret : string;
  implicit : bool;
}.
Record IdentityModel := { issuers : list IdentityIssuer; clients : list IdentityClient; mappings : list IdentityMapping }.
Definition new_client : IdentityClient :=
  {| name := EmptyString; issuer := EmptyString; audiences := []; azp := []; conditions := []; roles_from := [];
     roles_constant := []; unmapped_as_role := false; attributes := []; subject := []; wanted_type := EmptyString;
     client_id := EmptyString; flows := []; secret_service := EmptyString; secret := EmptyString; implicit := false |}.

Definition Bad {A} (what : string) : outcome A := Throw ("acl admin: " +:+ what).

(** A JSON string literal *)
Fixpoint quote_body (s : string) : string :=
  match s with
  | EmptyString => EmptyString
  | String c s =>
      (if Ascii.eqb c dquote then "\" +:+ dq
       else if Ascii.eqb c "\" then "\\"
       else if Ascii.eqb c "010" then "\n"
       else if Ascii.eqb c "013" then "\r"
       else if Ascii.eqb c "009" then "\t"
       else let n := nat_of_ascii c in
            if n <? 32 then "\u00" +:+ str1 (escape_digit (n / 16)) +:+ str1 (escape_digit (n mod 16)) else str1 c)
      +:+ quote_body s
  end.
Definition Quote (value : string) : string := dq +:+ quote_body value +:+ dq.

(** [Text]: a value's text, whole *)
Definition text (value : Json) : string :=
  match value with JStr s => s | _ => JsonString (Some value) end.

(** A list of strings, empty ones left out; one string is the list of one *)
Definition StringArray (value : option Json) (key : string) : outcome (list string) :=
  match value with
  | None | Some JNull => Ok []
  | Some (JStr s) => Ok [s]
  | Some (JArr items) =>
      texts ← omapM (λ item, match item with
                             | JStr s => Ok s
                             | _ => Bad (quoted key +:+ " must be a list of strings") end) items;
      Ok (List.filter (λ s, negb (is_empty s)) texts)
  | Some _ => Bad (quoted key +:+ " must be a list of strings")
  end.
Definition StringOf (value : option Json) (key : string) : outcome string :=
  match value with
  | None | Some JNull => Ok EmptyString
  | Some (JStr s) => Ok s
  | Some _ => Bad (quoted key +:+ " must be a string")
  end.

Definition OpName (o : Op) : string :=
  match o with EQUALS => "eq" | ONE_OF => "in" | CONTAINS => "contains" | LIKE => "like" end.

Section shapes.
Context `{SU : StringUtil} `{JR : JsonReader}.

Definition ParseOp (name : string) : outcome Op :=
  if CIEquals name "eq" || String.eqb name "=" then Ok EQUALS
  else if CIEquals name "in" then Ok ONE_OF
  else if CIEquals name "contains" then Ok CONTAINS
  else if CIEquals name "like" then Ok LIKE
  else Bad ("a REQUIRE condition's operator is one of =, IN, contains (v IN path) or LIKE - got " +:+ quoted name).

Definition condition_of (item : Json) : outcome ClaimCondition :=
  match item with
  | JObj _ =>
      path ← StringOf (obj_get item "path") "path";
      written ← StringOf (obj_get item "op") "op";
      o ← ParseOp written;
      values ← StringArray (obj_get item "values") "values";
      if is_empty path || bool_decide (values = []) then Bad "a REQUIRE condition names a claim path and at least one value"
      else if negb (bool_decide (o = ONE_OF)) && negb (length values =? 1) then
        Bad "only IN compares a claim against a list - =, contains and LIKE take one value"
      else Ok {| c_path := path; op := o; c_values := values |}
  | _ => Bad ("a REQUIRE condition is {" +:+ quoted "path" +:+ ", " +:+ quoted "op" +:+ ", " +:+ quoted "values" +:+ "}")
  end.
Definition ConditionsOf (value : option Json) : outcome (list ClaimCondition) :=
  match value with
  | None | Some JNull => Ok []
  | Some (JArr items) => omapM condition_of items
  | Some _ => Bad (quoted "require" +:+ " must be a list of conditions")
  end.

Definition attribute_shape : string :=
  "{" +:+ quoted "name" +:+ ", " +:+ quoted "paths" +:+ " | " +:+ quoted "constant" +:+ "}".
Definition attribute_of (item : Json) : outcome AttributeDef :=
  match item with
  | JObj _ =>
      name ← StringOf (obj_get item "name") "name";
      attribute ←
        match obj_get item "constant" with
        | None | Some JNull =>
            paths ← StringArray (obj_get item "paths") "paths";
            Ok {| a_name := name; a_paths := paths; is_constant := false; a_constant := EmptyString |}
        | constant =>
            constant ← StringOf constant "constant";
            Ok {| a_name := name; a_paths := []; is_constant := true; a_constant := constant |}
        end;
      if is_empty name || negb (is_constant attribute) && bool_decide (a_paths attribute = [])
      then Bad "an attribute has a name and either the claim paths it is read from or a CONSTANT"
      else Ok attribute
  | _ => Bad ("an attribute is " +:+ attribute_shape)
  end.
Definition AttributesOf (value : option Json) : outcome (list AttributeDef) :=
  match value with
  | None | Some JNull => Ok []
  | Some (JObj members) =>
      (* a claim map, from JWT paths to names *)
      omapM (λ m : string * Json,
        if is_empty (text m.2) || is_empty m.1 then Bad "a claim map pairs a JWT path with an attribute name"
        else Ok {| a_name := text m.2; a_paths := [m.1]; is_constant := false; a_constant := EmptyString |}) members
  | Some (JArr items) => omapM attribute_of items
  | Some _ => Bad (quoted "attributes" +:+ " must be a list of " +:+ attribute_shape)
  end.

(** [StringUtil::Split] at a character *)
Variable Split : string → ascii → list string.

(** *** Stored shapes *)

Definition ParseStoredList (stored : string) : outcome (list string) :=
  let trimmed := Trim stored in
  match trimmed with
  | EmptyString => Ok []
  | String "[" _ =>
      match read_json trimmed with
      | Some root => StringArray (Some root) "list"
      | None => Throw ("acl: a stored list is not valid JSON: " +:+ trimmed)
      end
  | _ => Ok (List.filter (λ s, negb (is_empty s)) (map Trim (Split trimmed ",")))
  end.
Definition StoredList (values : list string) : string :=
  match values with [] => EmptyString | _ => "[" +:+ join "," (map Quote values) +:+ "]" end.

Definition parse_stored {A} (parse : option Json → outcome (list A)) (what stored : string) : outcome (list A) :=
  let trimmed := Trim stored in
  if is_empty trimmed then Ok []
  else match read_json trimmed with
       | Some root => parse (Some root)
       | None => Throw ("acl: stored " +:+ what +:+ " are not valid JSON: " +:+ trimmed)
       end.
Definition ParseStoredAttributes : string → outcome (list AttributeDef) := parse_stored AttributesOf "attributes".
Definition ParseStoredConditions : string → outcome (list ClaimCondition) := parse_stored ConditionsOf "conditions".

Definition stored_attribute (a : AttributeDef) : string :=
  "{" +:+ quoted "name" +:+ ":" +:+ Quote (a_name a)
  +:+ (if is_constant a then "," +:+ quoted "constant" +:+ ":" +:+ Quote (a_constant a)
       else "," +:+ quoted "paths" +:+ ":" +:+ StoredList (a_paths a)) +:+ "}".
Definition StoredAttributes (l : list AttributeDef) : string :=
  match l with [] => EmptyString | _ => "[" +:+ join "," (map stored_attribute l) +:+ "]" end.
Definition stored_condition (c : ClaimCondition) : string :=
  "{" +:+ quoted "path" +:+ ":" +:+ Quote (c_path c) +:+ "," +:+ quoted "op" +:+ ":" +:+ Quote (OpName (op c))
  +:+ "," +:+ quoted "values" +:+ ":" +:+ StoredList (c_values c) +:+ "}".
Definition StoredConditions (l : list ClaimCondition) : string :=
  match l with [] => EmptyString | _ => "[" +:+ join "," (map stored_condition l) +:+ "]" end.

(** *** The specs the SQL forms compile to *)

Definition IsKnownFlow (flow : string) : bool :=
  String.eqb flow "password" || String.eqb flow "authcode" || String.eqb flow "device"
  || String.eqb flow "client_credentials".
Definition IsDriverFlow (flow : string) : bool := String.eqb flow "authcode" || String.eqb flow "device".

Definition known_flow (flow : string) : outcome string :=
  let flow := Lower flow in
  if IsKnownFlow flow then Ok flow
  else Bad ("unknown flow " +:+ quoted flow +:+ " - FLOWS names password, authcode, device or client_credentials").

Definition with_audiences l c := {| name := name c; issuer := issuer c; audiences := l; azp := azp c;
  conditions := conditions c; roles_from := roles_from c; roles_constant := roles_constant c;
  unmapped_as_role := unmapped_as_role c; attributes := attributes c; subject := subject c; wanted_type := wanted_type c;
  client_id := client_id c; flows := flows c; secret_service := secret_service c; secret := secret c; implicit := implicit c |}.
Definition with_azp l c := {| name := name c; issuer := issuer c; audiences := audiences c; azp := l;
  conditions := conditions c; roles_from := roles_from c; roles_constant := roles_constant c;
  unmapped_as_role := unmapped_as_role c; attributes := attributes c; subject := subject c; wanted_type := wanted_type c;
  client_id := client_id c; flows := flows c; secret_service := secret_service c; secret := secret c; implicit := implicit c |}.
Definition with_conditions l c := {| name := name c; issuer := issuer c; audiences := audiences c; azp := azp c;
  conditions := l; roles_from := roles_from c; roles_constant := roles_constant c;
  unmapped_as_role := unmapped_as_role c; attributes := attributes c; subject := subject c; wanted_type := wanted_type c;
  client_id := client_id c; flows := flows c; secret_service := secret_service c; secret := secret c; implicit := implicit c |}.
Definition with_roles_from l c := {| name := name c; issuer := issuer c; audiences := audiences c; azp := azp c;
  conditions := conditions c; roles_from := l; roles_constant := roles_constant c;
  unmapped_as_role := unmapped_as_role c; attributes := attributes c; subject := subject c; wanted_type := wanted_type c;
  client_id := client_id c; flows := flows c; secret_service := secret_service c; secret := secret c; implicit := implicit c |}.
Definition with_roles_constant l c := {| name := name c; issuer := issuer c; audiences := audiences c; azp := azp c;
  conditions := conditions c; roles_from := roles_from c; roles_constant := l;
  unmapped_as_role := unmapped_as_role c; attributes := attributes c; subject := subject c; wanted_type := wanted_type c;
  client_id := client_id c; flows := flows c; secret_service := secret_service c; secret := secret c; implicit := implicit c |}.
Definition with_unmapped b c := {| name := name c; issuer := issuer c; audiences := audiences c; azp := azp c;
  conditions := conditions c; roles_from := roles_from c; roles_constant := roles_constant c;
  unmapped_as_role := b; attributes := attributes c; subject := subject c; wanted_type := wanted_type c;
  client_id := client_id c; flows := flows c; secret_service := secret_service c; secret := secret c; implicit := implicit c |}.
Definition with_attributes l c := {| name := name c; issuer := issuer c; audiences := audiences c; azp := azp c;
  conditions := conditions c; roles_from := roles_from c; roles_constant := roles_constant c;
  unmapped_as_role := unmapped_as_role c; attributes := l; subject := subject c; wanted_type := wanted_type c;
  client_id := client_id c; flows := flows c; secret_service := secret_service c; secret := secret c; implicit := implicit c |}.
Definition with_subject l c := {| name := name c; issuer := issuer c; audiences := audiences c; azp := azp c;
  conditions := conditions c; roles_from := roles_from c; roles_constant := roles_constant c;
  unmapped_as_role := unmapped_as_role c; attributes := attributes c; subject := l; wanted_type := wanted_type c;
  client_id := client_id c; flows := flows c; secret_service := secret_service c; secret := secret c; implicit := implicit c |}.
Definition with_wanted_type t c := {| name := name c; issuer := issuer c; audiences := audiences c; azp := azp c;
  conditions := conditions c; roles_from := roles_from c; roles_constant := roles_constant c;
  unmapped_as_role := unmapped_as_role c; attributes := attributes c; subject := subject c; wanted_type := t;
  client_id := client_id c; flows := flows c; secret_service := secret_service c; secret := secret c; implicit := implicit c |}.
Definition with_client_id t c := {| name := name c; issuer := issuer c; audiences := audiences c; azp := azp c;
  conditions := conditions c; roles_from := roles_from c; roles_constant := roles_constant c;
  unmapped_as_role := unmapped_as_role c; attributes := attributes c; subject := subject c; wanted_type := wanted_type c;
  client_id := t; flows := flows c; secret_service := secret_service c; secret := secret c; implicit := implicit c |}.
Definition with_flows l c := {| name := name c; issuer := issuer c; audiences := audiences c; azp := azp c;
  conditions := conditions c; roles_from := roles_from c; roles_constant := roles_constant c;
  unmapped_as_role := unmapped_as_role c; attributes := attributes c; subject := subject c; wanted_type := wanted_type c;
  client_id := client_id c; flows := l; secret_service := secret_service c; secret := secret c; implicit := implicit c |}.
Definition with_secret service t c := {| name := name c; issuer := issuer c; audiences := audiences c; azp := azp c;
  conditions := conditions c; roles_from := roles_from c; roles_constant := roles_constant c;
  unmapped_as_role := unmapped_as_role c; attributes := attributes c; subject := subject c; wanted_type := wanted_type c;
  client_id := client_id c; flows := flows c; secret_service := service; secret := t; implicit := implicit c |}.

(** One property of a client's spec; [keys]: those read so far, this one included *)
Definition client_property (c : IdentityClient) (keys : list string) (key : string) (value : Json)
    : outcome IdentityClient :=
  let v := Some value in
  if String.eqb key "audiences" then l ← StringArray v "audiences"; Ok (with_audiences l c)
  else if String.eqb key "azp" then l ← StringArray v "azp"; Ok (with_azp l c)
  else if String.eqb key "require" then l ← ConditionsOf v; Ok (with_conditions l c)
  else if String.eqb key "roles_from" then l ← StringArray v "roles_from"; Ok (with_roles_from l c)
  else if String.eqb key "roles_constant" then
    l ← StringArray v "roles_constant";
    if existsb is_empty l then Bad ("ROLES CONSTANT names a role - " +:+ sq +:+ sq +:+ " is none") else Ok (with_roles_constant l c)
  else if String.eqb key "unmapped" then
    written ← StringOf v "unmapped";
    let unmapped := Lower written in
    if String.eqb unmapped "as_role" || String.eqb unmapped "as role" then Ok (with_unmapped true c)
    else if String.eqb unmapped "ignore" || is_empty unmapped then Ok (with_unmapped false c)
    else Bad ("UNMAPPED is IGNORE or AS ROLE - got " +:+ quoted unmapped)
  else if String.eqb key "attributes" then l ← AttributesOf v; Ok (with_attributes l c)
  else if String.eqb key "claim_map" then
    written ← StringOf v "claim_map";
    if is_empty written then Ok (with_attributes [] c)
    else match read_json written with
         | Some (JObj members) => l ← AttributesOf (Some (JObj members)); Ok (with_attributes l c)
         | _ => Bad ("CLAIM MAP is a JSON object {" +:+ quoted "<jwt path>" +:+ ": " +:+ quoted "<name>" +:+ "}")
         end
  else if String.eqb key "subject" then l ← StringArray v "subject"; Ok (with_subject l c)
  else if String.eqb key "token_type" then t ← StringOf v "token_type"; Ok (with_wanted_type t c)
  else if String.eqb key "client_id" then t ← StringOf v "client_id"; Ok (with_client_id t c)
  else if String.eqb key "flows" then
    l ← StringArray v "flows"; l ← omapM known_flow l; Ok (with_flows l c)
  else if String.eqb key "secret" then
    t ← StringOf v "secret";
    Ok (with_secret (if ci_mem "service" keys then secret_service c else EmptyString) t c)
  else if String.eqb key "service" then t ← StringOf v "service"; Ok (with_secret t (secret c) c)
  else Bad ("unknown client property " +:+ quoted key).

Fixpoint client_properties (c : IdentityClient) (keys : list string) (members : list (string * Json))
    : outcome (IdentityClient * list string) :=
  match members with
  | [] => Ok (c, keys)
  | (written, value) :: members =>
      let key := Lower written in
      if ci_mem key keys then Bad ("a client spec names " +:+ quoted key +:+ " twice")
      else
        let keys := ci_add key keys in
        if (String.eqb key "attributes" && ci_mem "claim_map" keys) || (String.eqb key "claim_map" && ci_mem "attributes" keys)
        then Bad ("a client spec names both " +:+ quoted "attributes" +:+ " and " +:+ quoted "claim_map"
                  +:+ " - both write the attributes; name one")
        else c ← client_property c keys key value; client_properties c keys members
  end.

(** The client, and the properties the spec writes *)
Definition ApplyClientSpec (c : IdentityClient) (spec_json : string) : outcome (IdentityClient * list string) :=
  if is_empty spec_json then Ok (c, [])
  else match read_json spec_json with
       | Some (JObj members) => client_properties c [] members
       | _ => Bad "a client spec is a JSON object"
       end.

(** [yyjson_val_write] *)
Variable write_json : Json → option string.

Definition issuer_property (i : IdentityIssuer) (client_spec : string) (keys : list string) (key : string) (value : Json)
    : outcome (IdentityIssuer * string) :=
  let v := Some value in
  if String.eqb key "url" then
    t ← StringOf v "url";
    Ok ({| i_name := i_name i; url := t; i_secret_service := i_secret_service i; i_secret := i_secret i |}, client_spec)
  else if String.eqb key "secret" then
    t ← StringOf v "secret";
    Ok ({| i_name := i_name i; url := url i;
           i_secret_service := if ci_mem "service" keys then i_secret_service i else EmptyString; i_secret := t |}, client_spec)
  else if String.eqb key "service" then
    t ← StringOf v "service";
    Ok ({| i_name := i_name i; url := url i; i_secret_service := t; i_secret := i_secret i |}, client_spec)
  else if String.eqb key "client" then
    match value with
    | JObj _ => match write_json value with
                | Some written => Ok (i, written)
                | None => Bad ("an issuer" +:+ sq +:+ "s " +:+ quoted "client" +:+ " could not be read")
                end
    | _ => Bad ("an issuer" +:+ sq +:+ "s " +:+ quoted "client" +:+ " is the client spec object")
    end
  else Bad ("unknown issuer property " +:+ quoted key).

Fixpoint issuer_properties (i : IdentityIssuer) (client_spec : string) (keys : list string) (members : list (string * Json))
    : outcome (IdentityIssuer * string) :=
  match members with
  | [] => Ok (i, client_spec)
  | (written, value) :: members =>
      let key := Lower written in
      if ci_mem key keys then Bad ("an issuer spec names " +:+ quoted key +:+ " twice")
      else
        let keys := ci_add key keys in
        p ← issuer_property i client_spec keys key value; issuer_properties p.1 p.2 keys members
  end.

(** The issuer, and the spec of its client *)
Definition ApplyIssuerSpec (i : IdentityIssuer) (spec_json : string) : outcome (IdentityIssuer * string) :=
  if is_empty spec_json then Ok (i, EmptyString)
  else match read_json spec_json with
       | Some (JObj members) => issuer_properties i EmptyString [] members
       | _ => Bad "an issuer spec is a JSON object"
       end.
End shapes.

(** ** A token's claims *)

Section claims.
Context `{SU : StringUtil} `{JR : JsonReader}.
Variable Split : string → ascii → list string.

(** The payload's root; [None]: it is no JSON *)
Definition TokenClaims : Type := option Json.

(** One key first, then a dot path *)
Fixpoint walk (value : Json) (parts : list string) : option Json :=
  match parts with
  | [] => Some value
  | part :: parts => value ← obj_get value part; walk value parts
  end.
Definition ClaimAt (root : TokenClaims) (path : string) : option Json :=
  match root with
  | Some (JObj members) =>
      match obj_get (JObj members) path with
      | Some whole => Some whole
      | None => walk (JObj members) (Split path dot)
      end
  | _ => None
  end.
Definition ValuesAt (value : option Json) : list string :=
  match value with
  | Some (JArr items) => List.filter (λ t, negb (is_empty t)) (map text items)
  | Some value => if is_empty (text value) then [] else [text value]
  | None => []
  end.
Definition present (value : option Json) : bool := match value with None | Some JNull => false | _ => true end.

Definition Valid (root : TokenClaims) : bool := match root with Some (JObj _) => true | _ => false end.
Definition Present (root : TokenClaims) (path : string) : bool := present (ClaimAt root path).
Definition Strings (root : TokenClaims) (path : string) : list string := ValuesAt (ClaimAt root path).
Fixpoint First (root : TokenClaims) (paths : list string) : string :=
  match paths with
  | [] => EmptyString
  | path :: paths =>
      match ClaimAt root path with
      | None | Some JNull => First root paths
      | Some value => text value
      end
  end.
Definition member (root : TokenClaims) (key : string) : option Json := root ← root; obj_get root key.
Definition text_or_empty (value : option Json) : string := match value with Some value => text value | None => EmptyString end.
Definition Audiences (root : TokenClaims) : list string := ValuesAt (member root "aud").
Definition AuthorizedParty (root : TokenClaims) : string :=
  let azp := text_or_empty (member root "azp") in
  if negb (is_empty azp) then azp
  else if String.eqb (text_or_empty (member root "ver")) "1.0" then text_or_empty (member root "appid") else EmptyString.
Definition GroupsOverage (root : TokenClaims) : bool :=
  match member root "_claim_names" with
  | Some (JObj names) => bool_decide (is_Some (obj_get (JObj names) "groups"))
  | _ => false
  end.

(** *** SQL LIKE with one backtrack point *)

(** Where the match stands: in the value, in the pattern, and past the last [%] with the value's position there *)
Record match_state := { at_value : nat; at_pattern : nat; star : option (nat * nat) }.

Section like.
Variable value pattern : list ascii.
(** A turn of the loop: the next state, or that it left *)
Definition like_step (s : match_state) : match_state + bool :=
  if at_value s <? length value then
    let p := pattern !! at_pattern s in
    if bool_decide (p = Some "%"%char) then
      inl {| at_value := at_value s; at_pattern := S (at_pattern s); star := Some (at_pattern s, at_value s) |}
    else if match p with Some c => Ascii.eqb c "_" || bool_decide (value !! at_value s = Some c) | None => false end then
      inl {| at_value := S (at_value s); at_pattern := S (at_pattern s); star := star s |}
    else
      match star s with
      | Some (p, v) => inl {| at_value := S v; at_pattern := S p; star := Some (p, S v) |}
      | None => inr false
      end
  else inr true.
(** The pattern's trailing [%]s *)
Definition only_stars (p : nat) : bool := forallb (Ascii.eqb "%") (drop p pattern).
Fixpoint like_loop (fuel : nat) (s : match_state) : option bool :=
  match fuel with
  | 0 => None
  | S fuel => match like_step s with
              | inl s => like_loop fuel s
              | inr true => Some (only_stars (at_pattern s))
              | inr false => Some false
              end
  end.
(** Turns left at most: the last [%] moves on, or its position in the value does, or the pattern's *)
Definition like_measure (s : match_state) : nat :=
  let V := S (length value) in
  let P := S (length pattern) in
  let '(p, v) := match star s with Some (p, v) => (S p, v) | None => (0, 0) end in
  (P - p) * (S V * P) + (V - v) * P + (length pattern - at_pattern s).
Definition like_start : match_state := {| at_value := 0; at_pattern := 0; star := None |}.
Definition LikeMatches_ : option bool := like_loop (S (like_measure like_start)) like_start.
End like.
Definition LikeMatches (value pattern : string) : bool :=
  default false (LikeMatches_ (String.list_ascii_of_string value) (String.list_ascii_of_string pattern)).

(** *** Which client accepts the token *)

Definition Intersects (a b : list string) : bool := existsb (λ x, existsb (String.eqb x) b) a.
Definition Contains (values : list string) (value : string) : bool := existsb (String.eqb value) values.
Definition only (values : list string) : option string := match values with [value] => Some value | _ => None end.

Definition holds (root : TokenClaims) (c : ClaimCondition) : bool :=
  let values := Strings root (c_path c) in
  let wanted := hd EmptyString (c_values c) in
  match op c with
  | EQUALS => match only values with Some value => String.eqb value wanted | None => false end
  | ONE_OF => match only values with Some value => Contains (c_values c) value | None => false end
  | CONTAINS => Contains values wanted
  | LIKE => match only values with Some value => LikeMatches value wanted | None => false end
  end.

(** A token type without the media type's prefix *)
Definition bare_type (typ : string) : string :=
  let typ := Lower typ in
  if StartsWith typ "application/" then String.substring 12 (String.length typ - 12) typ else typ.

(** [None]: accepted; else why not *)
Definition ClientAccepts (c : IdentityClient) (audiences : list string) (root : TokenClaims) (token_type : string)
    : option string :=
  if bool_decide (audiences = []) || negb (Intersects (Audiences root) audiences) then Some "audience not accepted"
  else if negb (bool_decide (azp c = [])) && negb (Contains (azp c) (AuthorizedParty root))
  then Some "authorized party (azp) not accepted"
  else
    match List.find (λ condition, negb (holds root condition)) (conditions c) with
    | Some condition => Some ("the condition on " +:+ quoted (c_path condition) +:+ " does not hold")
    | None =>
        if negb (is_empty (wanted_type c)) && negb (String.eqb (bare_type token_type) (bare_type (wanted_type c)))
        then Some ("token type " +:+ quoted token_type +:+ " is not " +:+ wanted_type c)
        else None
    end.

Definition ClientSpecificity (c : IdentityClient) : Z :=
  if negb (bool_decide (azp c = [])) || negb (bool_decide (conditions c = [])) then 2%Z
  else if implicit c then 0%Z else 1%Z.

(** The best so far (its index, its specificity) and whether another ties with it *)
Fixpoint pick (specificities : list Z) (i : nat) (best : option (nat * Z)) (ambiguous : bool) : option (nat * Z) * bool :=
  match specificities with
  | [] => (best, ambiguous)
  | s :: rest =>
      match best with
      | None => pick rest (S i) (Some (i, s)) false
      | Some (_, b) => if (b <? s)%Z then pick rest (S i) (Some (i, s)) false
                       else pick rest (S i) best (if (s =? b)%Z then true else ambiguous)
      end
  end.
(** The choice, and whether it failed for a tie *)
Definition PickClient (specificities : list Z) : option nat * bool :=
  let '(best, ambiguous) := pick specificities 0 None false in
  (if ambiguous : bool then None else fst <$> best, ambiguous).

(** *** Roles and attributes *)

Record ClientRoles := { c_roles : list string; dropped_privileged : list string }.
Variable known_role : string → bool.
Variable privileged : string → bool.

Definition add_role (out : ClientRoles) (role : string) (own_mapping : bool) : ClientRoles :=
  if ci_mem role (c_roles out) then out
  else if negb own_mapping && privileged role then
    {| c_roles := c_roles out; dropped_privileged := dropped_privileged out ++ [role] |}
  else {| c_roles := c_roles out ++ [role]; dropped_privileged := dropped_privileged out |}.

Definition own_mapping (c : IdentityClient) (m : IdentityMapping) : bool :=
  String.eqb (scope_kind m) "client" && CIEquals (scope_name m) (name c).
Definition issuer_wide (c : IdentityClient) (m : IdentityMapping) : bool :=
  String.eqb (scope_kind m) "issuer" && CIEquals (scope_name m) (issuer c).
Definition mapped (c : IdentityClient) (raw : string) (m : IdentityMapping) : bool :=
  (own_mapping c m || issuer_wide c m) && String.eqb (external_value m) raw.

(** What one claim value yields *)
Definition add_value (model : IdentityModel) (c : IdentityClient) (out : ClientRoles) (raw : string) : ClientRoles :=
  let matched := List.filter (mapped c raw) (mappings model) in
  let out := fold_left (λ out m, add_role out (mrole m) (own_mapping c m)) matched out in
  if bool_decide (matched = []) && unmapped_as_role c && known_role raw then add_role out raw false else out.

Definition RolesFor (model : IdentityModel) (c : IdentityClient) (root : TokenClaims) : ClientRoles :=
  let candidates := concat (map (Strings root) (roles_from c)) in
  let out := fold_left (add_value model c) candidates {| c_roles := []; dropped_privileged := [] |} in
  fold_left (λ out role, add_role out role false) (roles_constant c) out.

(** A constant cannot be overridden; else the first path present *)
Definition attribute_value (root : TokenClaims) (a : AttributeDef) : option string :=
  if is_constant a then Some (a_constant a)
  else (λ path, First root [path]) <$> List.find (Present root) (a_paths a).
Definition AttributesFor (c : IdentityClient) (root : TokenClaims) : list (string * string) :=
  fold_left (λ out a, match attribute_value root a with Some v => ci_set (a_name a) v out | None => out end)
    (attributes c) [].

Definition SubjectFor (c : IdentityClient) (root : TokenClaims) : string :=
  First root (match subject c with [] => ["sub"] | paths => paths end).
End claims.

(** ** What a write is checked against *)

Section validation.
Context `{SU : StringUtil} `{JR : JsonReader}.
Variable Split : string → ascii → list string.

(** A secret's fields by its service, name and type ([None]: no such secret), which roles administer, and what
    the write changed - by kind and name; unset, every object *)
Variable read_secret : string → string → string → outcome (option (list (string * string))).
Variable privileged : string → bool.
Variable touched : option (string → string → bool).
Definition judged (kind name : string) : bool := match touched with None => true | Some touched => touched kind name end.

(** [IdentityModel::Issuer], [IdentityModel::Client] *)
Definition Issuer (model : IdentityModel) (named : string) : option IdentityIssuer :=
  List.find (λ i, CIEquals (i_name i) named) (issuers model).
Definition Client (model : IdentityModel) (named : string) : option IdentityClient :=
  List.find (λ c, CIEquals (name c) named) (clients model).

(** The secret's field, empty when absent *)
Definition Field (fields : list (string * string)) (key : string) : string := default EmptyString (ci_find key fields).

Definition check (holds : bool) (what : string) : outcome unit := if holds then Ok () else Bad what.
Fixpoint each {A} (f : A → outcome unit) (l : list A) : outcome unit :=
  match l with [] => Ok () | x :: l => _ ← f x; each f l end.

(** *** Issuers: their names, then each resolved URL with the issuer that has it *)

Definition secret_issuer_url (i : IdentityIssuer) : outcome string :=
  found ← read_secret (i_secret_service i) (i_secret i) "oidc_issuer";
  match found with
  | None => Bad ("issuer " +:+ quoted (i_name i) +:+ " names secret " +:+ quoted (i_secret i) +:+ ", and "
                 +:+ i_secret_service i +:+ " has no secret of type oidc_issuer by that name")
  | Some fields =>
      let in_secret := Field fields "url" in
      _ ← check (is_empty in_secret || is_empty (url i))
            ("issuer " +:+ quoted (i_name i) +:+ " has its URL both on the issuer and in its secret - keep it in one place");
      algs ← (match ci_find "algs" fields with Some algs => ParseStoredList Split algs | None => Ok [] end);
      _ ← each (λ alg, check (String.eqb alg "RS256" || String.eqb alg "ES256" || String.eqb alg "HS256")
            ("issuer " +:+ quoted (i_name i) +:+ ": ALGS names RS256, ES256 or HS256 - got " +:+ quoted alg)) algs;
      _ ← check (is_empty (Field fields "keys") || is_empty (Field fields "keys_from"))
            ("issuer " +:+ quoted (i_name i) +:+ ": its secret carries both KEYS and KEYS_FROM - keep one");
      Ok (if is_empty in_secret then url i else in_secret)
  end.

Fixpoint check_issuers (names : list string) (urls : list (string * string)) (l : list IdentityIssuer) : outcome unit :=
  match l with
  | [] => Ok ()
  | i :: l =>
      _ ← check (negb (is_empty (i_name i))) "an issuer needs a name";
      _ ← check (negb (ci_mem (i_name i) names)) ("issuer " +:+ quoted (i_name i) +:+ " is defined twice");
      let names := ci_add (i_name i) names in
      if negb (is_empty (i_secret i)) && negb (judged "issuer" (i_name i)) then check_issuers names urls l
      else
        url ← (if is_empty (i_secret i) then Ok (url i) else secret_issuer_url i);
        _ ← check (negb (is_empty url))
              ("issuer " +:+ quoted (i_name i) +:+ " has no URL - write URL " +:+ sq +:+ "<url>" +:+ sq +:+ " or keep it in its secret");
        match ci_find url urls with
        | Some taken => Bad ("issuers " +:+ quoted taken +:+ " and " +:+ quoted (i_name i) +:+ " have the same URL "
                             +:+ quoted url +:+ " - one IdP is one issuer; tell its applications apart with clients")
        | None => check_issuers names (ci_set url (i_name i) urls) l
        end
  end.

(** *** Clients: the audiences each accepts, by name *)

(** The audiences, the client id and whether it has a secret of its own, the secret's fields taken in *)
Definition client_connection (c : IdentityClient) : outcome (list string * string * bool) :=
  if is_empty (secret c) then Ok (audiences c, client_id c, false)
  else
    found ← read_secret (secret_service c) (secret c) "oidc_client";
    match found with
    | None => Bad ("client " +:+ quoted (name c) +:+ " names secret " +:+ quoted (secret c) +:+ ", and "
                   +:+ secret_service c +:+ " has no secret of type oidc_client by that name")
    | Some fields =>
        let in_secret := Field fields "audiences" in
        _ ← check (is_empty in_secret || bool_decide (audiences c = []))
              ("client " +:+ quoted (name c) +:+ " has its AUDIENCES both on the client and in its secret - keep them in one place");
        accepted ← (if is_empty in_secret then Ok (audiences c) else ParseStoredList Split in_secret);
        let id := Field fields "client_id" in
        _ ← check (is_empty id || is_empty (client_id c))
              ("client " +:+ quoted (name c) +:+ " has its CLIENT ID both on the client and in its secret - keep it in one place");
        Ok (accepted, if is_empty id then client_id c else id, negb (is_empty (Field fields "client_secret")))
    end.

Fixpoint distinct_attributes (about : string) (names : list string) (l : list AttributeDef) : outcome unit :=
  match l with
  | [] => Ok ()
  | a :: l =>
      _ ← check (negb (ci_mem (a_name a) names)) (about +:+ " defines attribute " +:+ quoted (a_name a) +:+ " twice");
      distinct_attributes about (ci_add (a_name a) names) l
  end.

(** What a client says, when the write touches it: the audiences it accepts *)
Definition check_client (c : IdentityClient) : outcome (list string) :=
  let about := "client " +:+ quoted (name c) in
  connection ← client_connection c;
  let '(accepted, id, confidential) := connection in
  _ ← check (negb (bool_decide (accepted = [])))
        (about +:+ " accepts no audience - AUDIENCES is required (on the client or in its secret), so a token "
         +:+ "issued for another API is never accepted here");
  _ ← check (bool_decide (flows c = []) || negb (is_empty id)) (about +:+ " names FLOWS but has no CLIENT ID to run them as");
  _ ← check (negb confidential || negb (is_empty id)) (about +:+ " has a CLIENT_SECRET but no CLIENT ID");
  _ ← each (λ role, check (negb (privileged role))
        (about +:+ ": ROLES CONSTANT names " +:+ quoted role +:+ ", which holds an administration scope - a privileged "
         +:+ "role is reached only through an explicit mapping of the client itself")) (roles_constant c);
  _ ← check (negb (bool_decide (roles_from c = []) && bool_decide (roles_constant c = [])))
        (about +:+ " yields no roles - name ROLES FROM (claim paths) or ROLES CONSTANT");
  _ ← distinct_attributes about [] (attributes c);
  Ok accepted.

Fixpoint check_clients (model : IdentityModel) (names : list string) (accepted : list (string * list string))
    (l : list IdentityClient) : outcome (list (string * list string)) :=
  match l with
  | [] => Ok accepted
  | c :: l =>
      _ ← check (negb (is_empty (name c))) "a client needs a name";
      _ ← check (negb (ci_mem (name c) names)) ("client " +:+ quoted (name c) +:+ " is defined twice");
      let names := ci_add (name c) names in
      _ ← check (bool_decide (is_Some (Issuer model (issuer c))))
            ("client " +:+ quoted (name c) +:+ " names issuer " +:+ quoted (issuer c) +:+ ", which does not exist");
      mine ← (if judged "client" (name c) then check_client c else Ok (audiences c));
      check_clients model names (ci_set (name c) mine accepted) l
  end.

(** *** Overlaps visible at the write *)

Definition overlapping (accepted : list (string * list string)) (a b : IdentityClient) : bool :=
  let of_ c := default [] (ci_find (name c) accepted) in
  CIEquals (issuer a) (issuer b) && (ClientSpecificity a =? ClientSpecificity b)%Z
  && (judged "client" (name a) || judged "client" (name b))
  && Intersects (of_ a) (of_ b)
  && bool_decide (conditions a = []) && bool_decide (conditions b = [])
  && (bool_decide (azp a = []) && bool_decide (azp b = []) || Intersects (azp a) (azp b)).
Fixpoint check_overlaps (accepted : list (string * list string)) (l : list IdentityClient) : outcome unit :=
  match l with
  | [] => Ok ()
  | a :: l =>
      _ ← each (λ b, check (negb (overlapping accepted a b))
            ("clients " +:+ quoted (name a) +:+ " and " +:+ quoted (name b) +:+ " of issuer " +:+ quoted (issuer a)
             +:+ " would accept the same tokens - tell them apart by AUDIENCES, AZP or REQUIRE")) l;
      check_overlaps accepted l
  end.

(** *** Mappings *)

Definition unit_separator : string := str1 "031".
(** What a write calls a mapping *)
Definition mapping_key (m : IdentityMapping) : string :=
  scope_kind m +:+ unit_separator +:+ scope_name m +:+ unit_separator +:+ source m +:+ unit_separator
  +:+ external_value m +:+ unit_separator +:+ mrole m.
Definition check_mapping (model : IdentityModel) (m : IdentityMapping) : outcome unit :=
  _ ← (if String.eqb (scope_kind m) "client" then
         check (bool_decide (is_Some (Client model (scope_name m))))
           ("a mapping names client " +:+ quoted (scope_name m) +:+ ", which does not exist")
       else if String.eqb (scope_kind m) "issuer" then
         _ ← check (bool_decide (is_Some (Issuer model (scope_name m))))
               ("a mapping names issuer " +:+ quoted (scope_name m) +:+ ", which does not exist");
         check (negb (judged "mapping" (mapping_key m) && privileged (mrole m)))
           ("role " +:+ quoted (mrole m) +:+ " holds an administration scope, so it is mapped FROM CLIENT only - never "
            +:+ "for every client of an issuer")
       else Bad "a mapping is scoped to a CLIENT or an ISSUER");
  check (String.eqb (source m) "group" || String.eqb (source m) "claim-value") "a mapping's source is group or claim-value".

Definition ValidateIdentity (model : IdentityModel) : outcome unit :=
  _ ← check_issuers [] [] (issuers model);
  accepted ← check_clients model [] [] (clients model);
  _ ← check_overlaps accepted (clients model);
  each (check_mapping model) (mappings model).
End validation.
