(* ===== verification/IdentityLaws.v ===== *)
(** * What the identity model's decisions guarantee

    The wildcard match against SQL LIKE, the roles a token yields, what a model that passed its checks promises. *)
From S2P Require Import Prelude Platform Token Identity.

(** ** LIKE *)

(** SQL LIKE without an escape: [%] any run, [_] one character, another character itself *)
Inductive Like : list ascii → list ascii → Prop :=
  | Like_nil : Like [] []
  | Like_run p before v : Like p v → Like ("%"%char :: p) (before ++ v)
  | Like_one p c v : Like p v → Like ("_"%char :: p) (c :: v)
  | Like_char p c v : c ≠ "%"%char → Like p v → Like (c :: p) (c :: v).

Section like_laws.
Variable value pattern : list ascii.
Notation like p v := (Like (drop p pattern) (drop v value)).

(** A pattern's character that is no [%] takes one character *)
Definition takes (c d : ascii) : Prop := c = "_"%char ∨ c = d.

Lemma Like_cons c p v : c ≠ "%"%char → Like (c :: p) v ↔ ∃ d v', v = d :: v' ∧ takes c d ∧ Like p v'.
Proof.
  intros Hc. split.
  - inversion 1; subst; [done| |]; eexists _, _; split_and!; [done|by left|done|done|by right|done].
  - intros (d & v' & -> & [->|<-] & H); by constructor.
Qed.

Lemma Like_percent p v : Like ("%"%char :: p) v ↔ ∃ k, k ≤ length v ∧ Like p (drop k v).
Proof.
  split.
  - inversion 1; subst; [|done]. exists (length before). rw length_app drop_app_length. split; [lia|done].
  - intros (k & _ & H). rewrite <- (take_drop k v). by constructor.
Qed.

Lemma drop_lookup {A} (l : list A) i x : l !! i = Some x → drop i l = x :: drop (S i) l.
Proof. intros. by apply drop_S. Qed.

(** Through [n] characters of the pattern that are no [%] *)
Lemma Like_through n p v :
  (∀ j, j < n → ∃ c, pattern !! (p + j) = Some c ∧ c ≠ "%"%char) → like p v → v ≤ length value →
  v + n ≤ length value ∧ like (p + n) (v + n).
Proof.
  induction n as [|n IH]; intros Hplain Hl Hv; [rw !Nat.add_0_r; done|].
  destruct IH as [Hle Hn]; [intros j Hj; apply Hplain; lia|done|done|].
  destruct (Hplain n ltac:(lia)) as (c & Hc & Hne). rw (drop_lookup _ _ _ Hc) in Hn.
  apply Like_cons in Hn as (d & v' & Hd & _ & Hn); [|done].
  assert (Hlt : v + n < length value).
  { destruct (decide (v + n < length value)); [done|]. rw drop_ge in Hd; [lia|done]. }
  destruct (lookup_lt_is_Some_2 _ _ Hlt) as [d' Hd']. rw (drop_lookup _ _ _ Hd') in Hd. injection Hd as <- <-.
  split; [lia|]. by rw !Nat.add_succ_r.
Qed.
Lemma Like_back n p v :
  (∀ j, j < n → ∃ c d, pattern !! (p + j) = Some c ∧ c ≠ "%"%char ∧ value !! (v + j) = Some d ∧ takes c d) →
  like (p + n) (v + n) → like p v.
Proof.
  induction n as [|n IH]; intros Hseg Hl; [by rw !Nat.add_0_r in Hl|].
  apply IH; [intros j Hj; apply Hseg; lia|]. destruct (Hseg n ltac:(lia)) as (c & d & Hc & Hne & Hd & Ht).
  rw (drop_lookup _ _ _ Hc) (drop_lookup _ _ _ Hd). apply Like_cons; [done|].
  exists d, (drop (S (v + n)) value). split_and!; [done|done|]. by rw !Nat.add_succ_r in Hl.
Qed.

(** From a [%] on: past it, anywhere from the value's position on *)
Definition from_run (p v : nat) : Prop := ∃ k, v ≤ k ≤ length value ∧ like p k.
Lemma like_run p v :
  pattern !! p = Some "%"%char → v ≤ length value → like p v ↔ from_run (S p) v.
Proof.
  intros Hp Hv. rw (drop_lookup _ _ _ Hp) Like_percent /from_run. split.
  - intros (k & Hk & H). rw length_drop in Hk. exists (v + k). rw drop_drop in H. split; [lia|done].
  - intros (k & Hk & H). exists (k - v). rw length_drop drop_drop. split; [lia|]. by replace (v + (k - v)) with k by lia.
Qed.

(** The state stands for the whole question, and what stands since the last [%] matched *)
Definition stands_for (s : match_state) : Prop :=
  at_value s ≤ length value ∧ at_pattern s ≤ length pattern ∧
  match star s with
  | None => Like pattern value ↔ like (at_pattern s) (at_value s)
  | Some (p, v) =>
      p < at_pattern s ∧ v ≤ at_value s ∧ at_value s - v = at_pattern s - S p ∧
      (∀ j, j < at_value s - v → ∃ c d, pattern !! (S p + j) = Some c ∧ c ≠ "%"%char ∧ value !! (v + j) = Some d ∧ takes c d) ∧
      (Like pattern value ↔ from_run (S p) v)
  end.

(** What follows the last [%] goes on here, or only later in the value *)
Lemma run_here s p v :
  star s = Some (p, v) → stands_for s →
  (like (at_pattern s) (at_value s) → from_run (S p) v) ∧
  (from_run (S p) v → ∃ k, at_value s ≤ k ≤ length value ∧ like (at_pattern s) k ∧ (k = at_value s ∨ from_run (S p) (S v))).
Proof.
  intros Hstar (Hv & Hp & Hs). rw Hstar in Hs. destruct Hs as (Hlt & Hle & Hlen & Hseg & _).
  set n := at_value s - v in Hlen Hseg. split.
  - intros Hl. exists v. split; [lia|]. apply (Like_back n); [done|].
    by replace (S p + n) with (at_pattern s) by lia; replace (v + n) with (at_value s) by lia.
  - intros (k & Hk & Hl). destruct (Like_through n (S p) k) as [Hkn Hn]; [|done|lia|].
    { intros j Hj. destruct (Hseg j Hj) as (c & d & ? & ? & _). by exists c. }
    exists (k + n). replace (S p + n) with (at_pattern s) in Hn by lia. split_and!; [lia|lia|done|].
    destruct (decide (k = v)) as [->|]; [left; lia|]. right. exists k. split; [lia|done].
Qed.

(** A turn's test of the pattern's character *)
Definition taken (p v : nat) : bool :=
  match pattern !! p with Some c => Ascii.eqb c "_" || bool_decide (value !! v = Some c) | None => false end.
Lemma taken_spec p v :
  v < length value → taken p v = true ↔ ∃ c d, pattern !! p = Some c ∧ value !! v = Some d ∧ takes c d.
Proof.
  intros [d Hd]%lookup_lt_is_Some_2. rw /taken. destruct (pattern !! p) as [c|]; [|split; [done|by intros (? & ? & ? & _)]].
  rw orb_true_iff Ascii.eqb_eq bool_decide_eq_true Hd. split.
  - intros Ht. exists c, d. split_and!; [done|done|]. destruct Ht as [->|[= ->]]; [by left|by right].
  - intros (c' & d' & [= <-] & [= <-] & [-> | ->]); [by left|by right].
Qed.
Lemma like_taken p v :
  pattern !! p ≠ Some "%"%char → v < length value → like p v ↔ taken p v = true ∧ like (S p) (S v).
Proof.
  intros Hne Hv. rw taken_spec //. destruct (lookup_lt_is_Some_2 _ _ Hv) as [d Hd]. rw (drop_lookup _ _ _ Hd).
  destruct (pattern !! p) as [c|] eqn:Hc.
  - rw (drop_lookup _ _ _ Hc) Like_cons; [congruence|]. split.
    + intros (d' & v' & [= <- <-] & Ht & Hl). split; [by exists c, d|done].
    + intros [(c' & d' & [= <-] & Hd' & Ht) Hl]. assert (d' = d) as -> by congruence. by exists d, (drop (S v) value).
  - rw drop_ge; [by apply lookup_ge_None|]. split; [by inversion 1|by intros [(? & ? & ? & _) _]].
Qed.

Lemma step_keeps s s' :
  stands_for s → like_step value pattern s = inl s' → stands_for s' ∧ like_measure value pattern s' < like_measure value pattern s.
Proof.
  intros Hs. pose proof Hs as (Hv & Hp & Hstar). rw /like_step. destruct (Nat.ltb_spec (at_value s) (length value)) as [Hlt|]; [|done].
  case_bool_decide as Hrun.
  - intros [= <-]. pose proof (lookup_lt_Some _ _ _ Hrun) as Hpl. split.
    + split_and!; simpl; [lia|lia|]. split_and!; [lia|lia|lia|intros ? ?; exfalso; lia|].
      destruct (star s) as [[p v]|] eqn:Hst.
      * destruct (run_here s p v Hst Hs) as [Hhere Hlater]. destruct Hstar as (? & ? & ? & ? & ->). split.
        -- intros (k & Hk & Hl & _)%Hlater. apply (like_run (at_pattern s) k Hrun ltac:(lia)) in Hl as (k' & ? & ?). exists k'. split; [lia|done].
        -- intros Hl. by apply Hhere, (like_run _ _ Hrun).
      * rw Hstar. by apply like_run.
    + rw /like_measure. simpl. destruct (star s) as [[p v]|]; [destruct Hstar as (? & ? & _)|]; nia.
  - fold (taken (at_pattern s) (at_value s)). destruct (taken _ _) eqn:Ht.
    + intros [= <-]. pose proof (proj1 (taken_spec _ _ Hlt) Ht) as (c & d & Hc & Hd & Htakes).
      pose proof (lookup_lt_Some _ _ _ Hc) as Hpl. split.
      * split_and!; simpl; [lia|lia|]. destruct (star s) as [[p v]|].
        -- destruct Hstar as (? & ? & Hlen & Hseg & Hiff). split_and!; [lia|lia|lia| |done].
           intros j Hj. destruct (decide (j < at_value s - v)) as [|Hge]; [by apply Hseg|].
           exists c, d. replace (S (p + j)) with (at_pattern s) by lia. replace (v + j) with (at_value s) by lia.
           split_and!; try done. congruence.
        -- rw Hstar like_taken //. rw Ht. tauto.
      * rw /like_measure. simpl. destruct (star s) as [[p v]|]; nia.
    + destruct (star s) as [[p v]|] eqn:Hst; [|done]. intros [= <-].
      destruct (run_here s p v Hst Hs) as [_ Hlater]. destruct Hstar as (? & ? & ? & _ & Hiff). split.
      * split_and!; simpl; [lia|lia|]. split_and!; [lia|lia|lia|intros ? ?; exfalso; lia|]. rw Hiff. split.
        -- intros Hrun'. destruct (Hlater Hrun') as (k & Hk & Hl & [->|?]); [|done].
           apply (like_taken _ _ Hrun Hlt) in Hl as [? _]. congruence.
        -- intros (k & Hk & Hl). exists k. split; [lia|done].
      * rw /like_measure Hst. simpl. nia.
Qed.

Lemma only_stars_spec p : only_stars pattern p = true ↔ Like (drop p pattern) [].
Proof.
  rw /only_stars. induction (drop p pattern) as [|c l IH]; simpl; [split; [constructor|done]|].
  rw andb_true_iff Ascii.eqb_eq IH. split.
  - intros [<- Hl]. apply Like_percent. by exists 0.
  - intros Hl. destruct (decide (c = "%"%char)) as [->|Hne].
    + apply Like_percent in Hl as (k & _ & Hl). by rw drop_nil in Hl.
    + by apply Like_cons in Hl as (d & v' & ? & _).
Qed.

Lemma step_ends s b :
  stands_for s → like_step value pattern s = inr b →
  ((if b then only_stars pattern (at_pattern s) else false) = true ↔ Like pattern value).
Proof.
  intros Hs. pose proof Hs as (Hv & Hp & Hstar). rw /like_step.
  destruct (Nat.ltb_spec (at_value s) (length value)) as [Hlt|Hge].
  - case_bool_decide as Hrun; [done|]. fold (taken (at_pattern s) (at_value s)). destruct (taken _ _) eqn:Ht; [done|].
    destruct (star s) as [[]|]; [done|]. intros [= <-]. rw Hstar like_taken // Ht. intuition done.
  - intros [= <-]. rw only_stars_spec. assert (Hnil : drop (at_value s) value = []) by by apply drop_ge.
    rewrite <- Hnil. destruct (star s) as [[p v]|] eqn:Hst; [|by rw Hstar].
    destruct (run_here s p v Hst Hs) as [Hhere Hlater]. destruct Hstar as (_ & _ & _ & _ & ->). split; [done|].
    intros (k & Hk & Hl & _)%Hlater. by replace (at_value s) with k by lia.
Qed.

Lemma like_loop_ends fuel s :
  stands_for s → like_measure value pattern s < fuel →
  ∃ b, like_loop value pattern fuel s = Some b ∧ (b = true ↔ Like pattern value).
Proof.
  revert s. induction fuel as [|fuel IH]; intros s Hs Hfuel; [lia|]. simpl.
  destruct (like_step value pattern s) as [s'|b] eqn:Hstep.
  - destruct (step_keeps s s' Hs Hstep) as [Hs' Hless]. apply IH; [done|lia].
  - pose proof (step_ends s b Hs Hstep) as Hb. destruct b; eexists; by split.
Qed.
End like_laws.

(** the wildcard match of a REQUIRE condition ends and is SQL LIKE.  Going back only to the last [%] is enough:
    the loop takes a bounded number of turns, never running out of them, and answers whether some choice of what
    each [%] stands for makes the pattern the value. *)
Theorem wildcard_match_is_like (value pattern : string) :
  let v := String.list_ascii_of_string value in
  let p := String.list_ascii_of_string pattern in
  is_Some (LikeMatches_ v p) ∧ (LikeMatches value pattern = true ↔ Like p v).
Proof.
  intros v p. destruct (like_loop_ends v p (S (like_measure v p like_start)) like_start) as (b & Hb & Hiff).
  - split_and!; simpl; [lia|lia|]. by rw !drop_0.
  - lia.
  - rw /LikeMatches. fold v p. rw /LikeMatches_ Hb. split; [by eexists|done].
Qed.

(** ** The roles of a token *)

Section roles.
Context `{SUL : StringUtilLaws} `{JR : JsonReader}.
Variable Split : string → ascii → list string.
Variable known_role : string → bool.
Variable privileged : string → bool.
Variable model : IdentityModel.
Variable c : IdentityClient.
Variable root : TokenClaims.

(** The values of the client's role claims *)
Definition role_values : list string := concat (map (Strings Split root) (roles_from c)).

(** How the client's rules give a role, and whether by a mapping of its own *)
Inductive yields : string → bool → Prop :=
  | By_own m : m ∈ mappings model → own_mapping c m = true → external_value m ∈ role_values → yields (mrole m) true
  | By_issuer m : m ∈ mappings model → issuer_wide c m = true → external_value m ∈ role_values → yields (mrole m) false
  | By_value raw : raw ∈ role_values → (∀ m, m ∈ mappings model → mapped c raw m = false) →
      unmapped_as_role c = true → known_role raw = true → yields raw false
  | By_constant role : role ∈ roles_constant c → yields role false.
(** A role that administers is given by the client's own mapping only *)
Definition given (role : string) (own : bool) : Prop := yields role own ∧ (own = true ∨ privileged role = false).

(** What is tried, in order *)
Definition value_tries (raw : string) : list (string * bool) :=
  let matched := List.filter (mapped c raw) (mappings model) in
  map (λ m, (mrole m, own_mapping c m)) matched
  ++ if bool_decide (matched = []) && unmapped_as_role c && known_role raw then [(raw, false)] else [].
Definition tries : list (string * bool) :=
  concat (map value_tries role_values) ++ map (λ role, (role, false)) (roles_constant c).
Definition try_role (out : ClientRoles) (t : string * bool) : ClientRoles := add_role privileged out t.1 t.2.


Lemma RolesFor_tries :
  RolesFor Split known_role privileged model c root = fold_left try_role tries {| c_roles := []; dropped_privileged := [] |}.
Proof.
  rw /RolesFor /tries fold_left_app fold_left_map. fold role_values. f_equal.
  generalize {| c_roles := []; dropped_privileged := [] |}. induction role_values as [|raw values IH]; intros out; [done|].
  simpl. rw fold_left_app IH. f_equal. rw /add_value /value_tries fold_left_app fold_left_map.
  by destruct (_ && known_role raw).
Qed.

Lemma own_no_issuer m : own_mapping c m = true → issuer_wide c m = true → False.
Proof. rw /own_mapping /issuer_wide. intros [->%String.eqb_eq _]%andb_true_iff [?%String.eqb_eq _]%andb_true_iff. done. Qed.

Lemma elem_of_tries role own : (role, own) ∈ tries ↔ yields role own.
Proof.
  rw /tries elem_of_app list_elem_of_fmap. split.
  - intros [Hin|(r & [= -> ->] & Hr)]; [|by constructor].
    apply list_elem_of_In, in_concat in Hin as (l & (raw & <- & Hraw%list_elem_of_In)%in_map_iff & Ht%list_elem_of_In).
    apply elem_of_app in Ht as [(m & [= -> ->] & [Hm Hmap]%elem_of_filter_true)%list_elem_of_fmap|Ht].
    + rw /mapped in Hmap. apply andb_true_iff in Hmap as [Hscope <-%String.eqb_eq].
      destruct (own_mapping c m) eqn:Hown; [by apply By_own|by apply By_issuer].
    + destruct (_ && known_role raw) eqn:Hk; [|by apply elem_of_nil in Ht]. apply list_elem_of_singleton in Ht as [= -> ->].
      apply andb_true_iff in Hk as [[Hn%bool_decide_eq_true Hu]%andb_true_iff Hk]. apply By_value; [done| |done|done].
      intros m Hm. destruct (mapped c raw m) eqn:Hmap; [|done].
      assert (Hbad : m ∈ List.filter (mapped c raw) (mappings model)) by by apply elem_of_filter_true.
      rw Hn in Hbad. by apply elem_of_nil in Hbad.
  - assert (Hmapping : ∀ m, m ∈ mappings model → own_mapping c m || issuer_wide c m = true → external_value m ∈ role_values →
      (mrole m, own_mapping c m) ∈ concat (map value_tries role_values)).
    { intros m Hm Hscope Hv. apply list_elem_of_In, in_concat. exists (value_tries (external_value m)).
      split; [by apply in_map, list_elem_of_In|]. apply list_elem_of_In, elem_of_app. left.
      apply list_elem_of_fmap. exists m. split; [done|]. apply elem_of_filter_true. rw /mapped Hscope String.eqb_refl. done. }
    destruct 1 as [m Hm Hown Hv|m Hm Hiss Hv|raw Hraw Hno Hu Hk|r Hr].
    + left. rewrite <- Hown. apply Hmapping; [done|by rw Hown|done].
    + left. assert (own_mapping c m = false) as <-.
      { destruct (own_mapping c m) eqn:Hown; [|done]. by destruct (own_no_issuer m). }
      apply Hmapping; [done|by rw Hiss orb_true_r|done].
    + left. apply list_elem_of_In, in_concat. exists (value_tries raw). split; [by apply in_map, list_elem_of_In|].
      apply list_elem_of_In, elem_of_app. right.
      rw (bool_decide_eq_true_2 (List.filter _ _ = [])); [|rw Hu Hk; by apply list_elem_of_singleton].
      destruct (List.filter _ _) as [|m l] eqn:Hf; [done|].
      assert (Hin : m ∈ List.filter (mapped c raw) (mappings model)) by (rw Hf; left).
      apply elem_of_filter_true in Hin as [Hin Hmap]. rw Hno // in Hmap.
    + right. by exists r.
Qed.

(** No role twice, in any case *)
Definition distinct_roles (l : list string) : Prop := ∀ i j a b, l !! i = Some a → l !! j = Some b → CIEquals a b = true → i = j.

Lemma distinct_snoc l role :
  distinct_roles l → ci_mem role l = false → distinct_roles (l ++ [role]).
Proof.
  intros Hl Hnew. assert (Hno : ∀ i a, l !! i = Some a → CIEquals a role = false).
  { intros i a Ha. destruct (CIEquals a role) eqn:Hc; [|done]. rewrite <- Hnew. symmetry.
    apply existsb_exists. exists a. split; [apply list_elem_of_In, list_elem_of_lookup; eauto|done]. }
  intros i j a b [Ha|[Hi Ha]]%lookup_app_Some [Hb|[Hj Hb]]%lookup_app_Some Hc; [by apply (Hl i j a b)| | |].
  - apply list_lookup_singleton_Some in Hb as [_ <-]. by rw (Hno i a Ha) in Hc.
  - apply list_lookup_singleton_Some in Ha as [_ <-]. rw CIEquals_sym in Hc. by rw (Hno j b Hb) in Hc.
  - apply list_lookup_singleton_Some in Ha as [? _]. apply list_lookup_singleton_Some in Hb as [? _]. lia.
Qed.

(** The tries made so far *)
Record tried (done_ : list (string * bool)) (out : ClientRoles) : Prop := {
  t_distinct : distinct_roles (c_roles out);
  t_sound : ∀ role, role ∈ c_roles out → ∃ own, (role, own) ∈ done_ ∧ (own = true ∨ privileged role = false);
  t_complete : ∀ role own, (role, own) ∈ done_ → own = true ∨ privileged role = false → ci_mem role (c_roles out) = true;
  t_dropped : ∀ role, role ∈ dropped_privileged out → privileged role = true ∧ (role, false) ∈ done_;
}.

Lemma ci_mem_app x l k : ci_mem x (l ++ k) = ci_mem x l || ci_mem x k.
Proof. apply existsb_app. Qed.
Lemma ci_mem_self x : ci_mem x [x] = true.
Proof. by rw /ci_mem /= CIEquals_refl. Qed.

Lemma try_keeps done_ out t : tried done_ out → tried (done_ ++ [t]) (try_role out t).
Proof.
  destruct t as [role own]. intros [Hd Hs Hc Hdr]. rw /try_role /add_role /=.
  destruct (ci_mem role (c_roles out)) eqn:Hin; [|destruct (negb own && privileged role) eqn:Hp].
  - split; try done.
    + intros r (o & ? & ?)%Hs. exists o. set_solver.
    + intros r o [?|[= -> ->]%list_elem_of_singleton]%elem_of_app ?; [by apply (Hc r o)|done].
    + intros r [? ?]%Hdr. set_solver.
  - apply andb_true_iff in Hp as [->%negb_true_iff Hp]. split; simpl; try done.
    + intros r (o & ? & ?)%Hs. exists o. set_solver.
    + intros r o [?|[= -> ->]%list_elem_of_singleton]%elem_of_app Hr; [by apply (Hc r o)|]. destruct Hr; congruence.
    + intros r [[? ?]%Hdr| ->%list_elem_of_singleton]%elem_of_app; set_solver.
  - split; simpl.
    + by apply distinct_snoc.
    + intros r [(o & ? & ?)%Hs| ->%list_elem_of_singleton]%elem_of_app; [exists o; set_solver|]. exists own. split; [set_solver|].
      destruct own; [by left|by right].
    + intros r o [?|[= -> ->]%list_elem_of_singleton]%elem_of_app Hr; rw ci_mem_app.
      * by rw (Hc r o).
      * by rw ci_mem_self orb_true_r.
    + intros r [? ?]%Hdr. set_solver.
Qed.

Lemma tries_all l : ∀ done_ out, tried done_ out → tried (done_ ++ l) (fold_left try_role l out).
Proof.
  induction l as [|t l IH]; intros done_ out Hout; simpl; [by rw app_nil_r|].
  rw cons_middle app_assoc. apply IH. by apply try_keeps.
Qed.

Lemma RolesFor_tried : tried tries (RolesFor Split known_role privileged model c root).
Proof.
  rw RolesFor_tries. apply (tries_all tries []). split; simpl; try by intros ? ?%elem_of_nil.
  - intros i j a b Ha. done.
  - by intros role own ?%elem_of_nil.
Qed.
(** What comes out was given *)
Lemma RolesFor_given role : role ∈ c_roles (RolesFor Split known_role privileged model c root) → ∃ own, given role own.
Proof. intros (own & Ht%elem_of_tries & Hown)%(t_sound _ _ RolesFor_tried). by exists own. Qed.

(** C19: a token's roles are those the client's rules give, and administration only by the client's own mapping.
    Every role the verification yields comes from a mapping of the client or of its issuer for a value of the role
    claims, from such a value taken as the role it names - unmapped, allowed and known -, or from the client's
    constants; one that holds administration comes from a mapping of the client itself.  Everything the rules give
    is there, once in any case; what was withheld administers and had no mapping of the client's own. *)
Theorem roles_are_given :
  let out := RolesFor Split known_role privileged model c root in
  (∀ role, role ∈ c_roles out → ∃ own, given role own) ∧
  (∀ role own, given role own → ci_mem role (c_roles out) = true) ∧
  distinct_roles (c_roles out) ∧
  (∀ role, role ∈ c_roles out → privileged role = true →
     ∃ m, m ∈ mappings model ∧ scope_kind m = "client" ∧ CIEquals (scope_name m) (name c) = true ∧
          external_value m ∈ role_values ∧ mrole m = role) ∧
  (∀ role, role ∈ dropped_privileged out → privileged role = true ∧ yields role false).
Proof.
  intros out. pose proof RolesFor_tried as Hall. fold out in Hall.
  destruct Hall as [Hd Hs Hc Hdr]. split_and!; [| |done| |].
  - apply RolesFor_given.
  - intros role own [Hy Hown]. apply (Hc role own); [by apply elem_of_tries|done].
  - intros role Hin Hp. destruct (Hs role Hin) as (own & Ht%elem_of_tries & [->|Hno]); [|congruence].
    inversion Ht as [m Hm Hown Hv| | |]; subst. apply andb_true_iff in Hown as [Hk%String.eqb_eq Hn].
    exists m. split_and!; done.
  - intros role [? Ht]%Hdr. by apply elem_of_tries in Ht.
Qed.
End roles.
