(* ===== verification/IdentityStore.v ===== *)
(** * The identity model on the store ([acl_identity_store.cpp])

    How a write is checked and kept, how an issuer's and a client's connection is resolved - their own fields, their
    secret in the node's secrets service, discovery -, the cache of the documents read for them, and the
    verification of a token down to its roles and attributes.  The secrets service, the reads of documents and the
    clock are arguments. *)
From stdpp Require Import pretty sorting.
From S2P Require Import Prelude PolicyTypes AdminRights Platform Token Identity.

(** ** The documents' cache *)

Record JwksEntry := {
  uri : string;
  e_issuer : string;
  keys_json : string;
  fetched_at : Z;
  tried_at : Z;
  error : string;
}.
Definition no_entry : JwksEntry :=
  {| uri := EmptyString; e_issuer := EmptyString; keys_json := EmptyString; fetched_at := 0; tried_at := 0; error := EmptyString |}.
(** By location, [case_insensitive_map_t] *)
Definition jwks_cache : Type := list (string * JwksEntry).

(** What [AuditKeys] is told *)
Record keys_note := { k_issuer : string; k_ok : bool; k_error : string; k_detail : option string }.

Definition RETRY_FLOOR_SECONDS : Z := 10.

Section documents.
Context `{SU : StringUtil} `{JR : JsonReader}.
Variable Split : string → ascii → list string.

(** [None]: the location is allowed; else why not *)
Definition JwksLocationAllowed (locations uri : string) : option string :=
  if contains_text ".." uri then Some (quoted uri +:+ " contains " +:+ quoted ".." +:+ ", which no location may")
  else if existsb (λ item, let prefix := Trim item in negb (is_empty prefix) && StartsWith uri prefix) (Split locations ",")
  then None
  else Some (quoted uri +:+ " is outside acl_jwks_locations (" +:+ locations +:+ ")").

(** A read's first half, under the lock: the refusal of a location, else the entry to serve and whether to read *)
Definition refuse_location (now : Z) (location issuer why : string) (c : jwks_cache) : jwks_cache * list keys_note :=
  let entry := default no_entry (ci_find location c) in
  let record := negb (String.eqb (error entry) why) || (RETRY_FLOOR_SECONDS <=? isub now (tried_at entry))%Z in
  (ci_set location {| uri := location; e_issuer := issuer; keys_json := EmptyString; fetched_at := 0; tried_at := now; error := why |} c,
   if record then [{| k_issuer := issuer; k_ok := false; k_error := why; k_detail := Some "location_refused" |}] else []).

Definition look (now refresh : Z) (location issuer kid : string) (is_jwks : bool) (c : jwks_cache) : JwksEntry * bool :=
  let found := default no_entry (ci_find location c) in
  let entry := {| uri := location; e_issuer := issuer; keys_json := keys_json found; fetched_at := fetched_at found;
                  tried_at := tried_at found; error := error found |} in
  let expired := is_empty (keys_json entry) || (refresh <=? isub now (fetched_at entry))%Z in
  let rotated := is_jwks && negb expired && negb (JwksHasKid (keys_json entry) kid) in
  (entry, (expired || rotated) && ((if rotated then RETRY_FLOOR_SECONDS else 0) <=? isub now (tried_at entry))%Z).

(** The read's end: the document, or the error *)
Definition taken_in (now : Z) (entry : JwksEntry) (read : string + string) : JwksEntry :=
  match read with
  | inl document => {| uri := uri entry; e_issuer := e_issuer entry; keys_json := document; fetched_at := now; tried_at := now;
                       error := EmptyString |}
  | inr e => {| uri := uri entry; e_issuer := e_issuer entry; keys_json := keys_json entry; fetched_at := fetched_at entry;
                tried_at := now; error := e |}
  end.
Definition finish (now : Z) (location : string) (entry : JwksEntry) (read : string + string) (c : jwks_cache)
    : jwks_cache * JwksEntry * keys_note :=
  let entry := taken_in now entry read in
  let note := {| k_issuer := e_issuer entry; k_ok := is_empty (error entry); k_error := error entry; k_detail := None |} in
  let entry :=
    if negb (is_empty (error entry)) && match ci_find location c with None => true | Some _ => false end then
      {| uri := uri entry; e_issuer := e_issuer entry; keys_json := EmptyString; fetched_at := 0; tried_at := tried_at entry;
         error := error entry |}
    else entry in
  (ci_set location entry c, entry, note).

(** What the caller gets of the entry *)
Definition answer (now max_stale : Z) (location issuer : string) (entry : JwksEntry) : outcome string :=
  if is_empty (keys_json entry) then
    Reject ("issuer " +:+ quoted issuer +:+ " could not read " +:+ quoted location +:+ ": " +:+ error entry)
  else if negb (is_empty (error entry)) && ((max_stale <=? 0)%Z || (max_stale <? isub now (fetched_at entry))%Z) then
    Reject ("issuer " +:+ quoted issuer +:+ " last read " +:+ quoted location +:+ " "
            +:+ pretty (isub now (fetched_at entry)) +:+ " seconds ago and it is still unreadable (" +:+ error entry
            +:+ "); acl_jwks_max_stale is " +:+ pretty max_stale)
  else Ok (keys_json entry).

Definition JwksDropCache (issuer : string) (c : jwks_cache) : jwks_cache * Z :=
  let dropped (e : string * JwksEntry) := is_empty issuer || CIEquals (e_issuer e.2) issuer in
  (List.filter (λ e, negb (dropped e)) c, Z.of_nat (length (List.filter dropped c))).

(** A row of what the node trusts right now *)
Record JwksCacheRow := {
  row_issuer : string;
  row_location : string;
  row_allowed : bool;
  row_fetched_at : Z;
  row_tried_at : Z;
  row_keys : Z;
  row_kids : list string;
  row_error : string;
}.
Definition cache_row (locations : string) (e : JwksEntry) : JwksCacheRow :=
  let keys := if is_empty (keys_json e) then ((-1)%Z, []) else JwksKeyIds (keys_json e) in
  {| row_issuer := e_issuer e; row_location := uri e; row_allowed := negb (bool_decide (is_Some (JwksLocationAllowed locations (uri e))));
     row_fetched_at := fetched_at e; row_tried_at := tried_at e; row_keys := keys.1; row_kids := keys.2; row_error := error e |}.
(** By issuer, then location, byte by byte *)
Definition row_before (a b : JwksCacheRow) : Prop :=
  if negb (String.eqb (row_issuer a) (row_issuer b)) then String.ltb (row_issuer a) (row_issuer b) = true
  else String.ltb (row_location b) (row_location a) = false.
#[export] Instance row_before_dec a b : Decision (row_before a b).
Proof. rw /row_before. destruct (negb _); apply _. Defined.
Definition JwksCacheRows (locations : string) (c : jwks_cache) : list JwksCacheRow :=
  merge_sort row_before (map (λ e, cache_row locations e.2) c).

(** *** Calls in flight

    A read runs outside the lock: a call is its first half, and - when it reads - its second one, whatever happens
    to the cache in between. *)
Record pending := { p_locations : string; p_location : string; p_issuer : string; p_now : Z; p_entry : JwksEntry }.
Inductive event :=
  | Ask (call : nat) (now refresh max_stale : Z) (locations location issuer kid : string) (is_jwks : bool)
  | Got (call : nat) (max_stale : Z) (read : string + string)
  | Dropped (issuer : string).
Record served := { s_locations : string; s_location : string; s_now : Z; s_refresh : option Z; s_max_stale : Z; s_answer : outcome string }.
Record doc_state := {
  cache : jwks_cache;
  in_flight : list (nat * pending);
  notes : list keys_note;
  (* every document read, with its location and the time of the read; every answer *)
  reads : list (string * Z * string);
  answers : list served;
}.
Definition no_documents : doc_state := {| cache := []; in_flight := []; notes := []; reads := []; answers := [] |}.

Definition step (s : doc_state) (ev : event) : doc_state :=
  match ev with
  | Ask call now refresh max_stale locations location issuer kid is_jwks =>
      match JwksLocationAllowed locations location with
      | Some why =>
          let '(c, n) := refuse_location now location issuer why (cache s) in
          {| cache := c; in_flight := in_flight s; notes := notes s ++ n; reads := reads s;
             answers := answers s ++ [{| s_locations := locations; s_location := location; s_now := now; s_refresh := Some refresh; s_max_stale := max_stale;
               s_answer := Reject ("issuer " +:+ quoted issuer +:+ " reads " +:+ quoted location
                                   +:+ ", which this node does not: " +:+ why +:+ " - list its prefix there") |}] |}
      | None =>
          let '(entry, reading) := look now refresh location issuer kid is_jwks (cache s) in
          if reading then
            {| cache := cache s;
               in_flight := (call, {| p_locations := locations; p_location := location; p_issuer := issuer; p_now := now; p_entry := entry |}) :: in_flight s;
               notes := notes s; reads := reads s; answers := answers s |}
          else
            {| cache := cache s; in_flight := in_flight s; notes := notes s; reads := reads s;
               answers := answers s ++ [{| s_locations := locations; s_location := location; s_now := now; s_refresh := Some refresh; s_max_stale := max_stale;
                 s_answer := answer now max_stale location issuer entry |}] |}
      end
  | Got call max_stale read =>
      match List.find (λ e, e.1 =? call) (in_flight s) with
      | None => s
      | Some (_, p) =>
          let '(c, entry, n) := finish (p_now p) (p_location p) (p_entry p) read (cache s) in
          {| cache := c; in_flight := List.filter (λ e, negb (e.1 =? call)) (in_flight s); notes := notes s ++ [n];
             reads := reads s ++ match read with inl document => [(p_location p, p_now p, document)] | inr _ => [] end;
             answers := answers s ++ [{| s_locations := p_locations p; s_location := p_location p; s_now := p_now p; s_refresh := None; s_max_stale := max_stale;
               s_answer := answer (p_now p) max_stale (p_location p) (p_issuer p) entry |}] |}
      end
  | Dropped issuer =>
      {| cache := (JwksDropCache issuer (cache s)).1; in_flight := in_flight s; notes := notes s; reads := reads s;
         answers := answers s |}
  end.
Definition history (events : list event) : doc_state := fold_left step events no_documents.

(** One call alone: [CachedDocument] *)
Definition CachedDocument (read : string → string + string) (now refresh max_stale : Z)
    (locations location issuer kid : string) (is_jwks : bool) (s : doc_state) : doc_state :=
  let s' := step s (Ask 0 now refresh max_stale locations location issuer kid is_jwks) in
  if length (in_flight s) <? length (in_flight s') then step s' (Got 0 max_stale (read location)) else s'.
End documents.

(** ** Writing the model *)

Section store.
Context `{SU : StringUtil} `{JR : JsonReader} `{CR : Crypto}.
Variable Split : string → ascii → list string.
(** The secrets service attached of a name, or the only one; a secret's fields by service, name and type; which
    roles administer and which are known; the default claims of roles *)
Variable SecretService : string → outcome string.
Variable read_secret : string → string → string → outcome (option (list (string * string))).
Variable RolePrivileged : string → bool.
Variable RoleKnown : string → bool.
Variable role_claims : list (string * list (string * string)).

Definition SameIssuer (a b : IdentityIssuer) : bool :=
  String.eqb (url a) (url b) && String.eqb (i_secret a) (i_secret b) && CIEquals (i_secret_service a) (i_secret_service b).
Definition SameClient (a b : IdentityClient) : bool :=
  CIEquals (issuer a) (issuer b) && bool_decide (audiences a = audiences b) && bool_decide (azp a = azp b)
  && String.eqb (StoredConditions (conditions a)) (StoredConditions (conditions b))
  && bool_decide (roles_from a = roles_from b) && bool_decide (roles_constant a = roles_constant b)
  && Bool.eqb (unmapped_as_role a) (unmapped_as_role b)
  && String.eqb (StoredAttributes (attributes a)) (StoredAttributes (attributes b))
  && bool_decide (subject a = subject b) && String.eqb (wanted_type a) (wanted_type b)
  && String.eqb (client_id a) (client_id b) && bool_decide (flows a = flows b) && String.eqb (secret a) (secret b)
  && CIEquals (secret_service a) (secret_service b) && Bool.eqb (implicit a) (implicit b).
Definition same_mapping (old m : IdentityMapping) : bool :=
  String.eqb (scope_kind old) (scope_kind m) && CIEquals (scope_name old) (scope_name m) && String.eqb (source old) (source m)
  && String.eqb (external_value old) (external_value m) && CIEquals (mrole old) (mrole m).

(** What a write touched, as [kind <unit separator> name] *)
Definition touched_key (kind name : string) : string := kind +:+ unit_separator +:+ name.

Definition settle_issuer (before : IdentityModel) (i : IdentityIssuer) : outcome (IdentityIssuer * option string) :=
  if match Issuer before (i_name i) with Some old => SameIssuer old i | None => false end then Ok (i, None)
  else
    settled ← (if is_empty (i_secret i) then Ok i
               else service ← SecretService (i_secret_service i);
                    Ok {| i_name := i_name i; url := url i; i_secret_service := service; i_secret := i_secret i |});
    Ok (settled, Some (touched_key "issuer" (i_name i))).
Definition settle_client (before : IdentityModel) (c : IdentityClient) : outcome (IdentityClient * option string) :=
  if match Client before (name c) with Some old => SameClient old c | None => false end then Ok (c, None)
  else
    settled ← (if is_empty (secret c) then Ok c
               else service ← SecretService (secret_service c); Ok (with_secret service (secret c) c));
    Ok (settled, Some (touched_key "client" (name c))).
Definition touched_mapping (before : IdentityModel) (m : IdentityMapping) : option string :=
  if existsb (λ old, same_mapping old m) (mappings before) then None else Some (touched_key "mapping" (mapping_key m)).

(** Edit, settle where each named secret lives, validate the whole: the model kept *)
Definition EditIdentity (edit : IdentityModel → outcome IdentityModel) (before : IdentityModel) : outcome IdentityModel :=
  model ← edit before;
  is_ ← omapM (settle_issuer before) (issuers model);
  cs ← omapM (settle_client before) (clients model);
  let touched := omap snd is_ ++ omap snd cs ++ omap (M:=list) (touched_mapping before) (mappings model) in
  let model := {| issuers := map fst is_; clients := map fst cs; mappings := mappings model |} in
  _ ← ValidateIdentity Split read_secret RolePrivileged (Some (λ kind name, ci_mem (touched_key kind name) touched)) model;
  Ok model.

(** ** Resolving a connection *)

(** [None]: the issuer's URL cannot be told now *)
Definition IssuerUrl (i : IdentityIssuer) : option string :=
  let nonempty u := if is_empty u then None else Some u in
  if is_empty (i_secret i) then nonempty (url i)
  else
    match read_secret (i_secret_service i) (i_secret i) "oidc_issuer" with
    | Ok (Some fields) =>
        let in_secret := Field fields "url" in
        if negb (is_empty (url i)) && negb (is_empty in_secret) then None
        else nonempty (if is_empty (url i) then in_secret else url i)
    | _ => None
    end.

Record ResolvedIssuer := {
  r_name : string;
  r_url : string;
  pasted_keys : string;
  keys_from : string;
  key_source : string;
  algs : list string;
}.
Definition ResolveIssuer (i : IdentityIssuer) (iss : string) : outcome ResolvedIssuer :=
  if is_empty (i_secret i) then
    Ok {| r_name := i_name i; r_url := iss; pasted_keys := EmptyString; keys_from := EmptyString; key_source := EmptyString;
          algs := [] |}
  else
    found ← read_secret (i_secret_service i) (i_secret i) "oidc_issuer";
    match found with
    | None => Reject ("the secret of issuer " +:+ quoted (i_name i) +:+ " (" +:+ i_secret_service i +:+ "." +:+ i_secret i
                      +:+ ") cannot be read")
    | Some fields =>
        let keys := Field fields "keys" in
        let from := Field fields "keys_from" in
        if negb (is_empty keys) && negb (is_empty from) then
          Reject ("the secret of issuer " +:+ quoted (i_name i) +:+ " carries both KEYS and KEYS_FROM")
        else
          listed ← ParseStoredList Split (Field fields "algs");
          Ok {| r_name := i_name i; r_url := iss; pasted_keys := keys; keys_from := from;
                key_source := if negb (is_empty keys) || negb (is_empty from)
                              then "secret " +:+ i_secret_service i +:+ "." +:+ i_secret i else EmptyString;
                algs := fold_left (λ set alg, ci_add alg set) listed [] |}
    end.

Record ResolvedClient := { rc_audiences : list string; rc_client_id : string; rc_client_secret : string }.
Definition ResolveClient (c : IdentityClient) : outcome ResolvedClient :=
  if is_empty (secret c) then
    Ok {| rc_audiences := audiences c; rc_client_id := client_id c; rc_client_secret := EmptyString |}
  else
    found ← read_secret (secret_service c) (secret c) "oidc_client";
    match found with
    | None => Reject ("the secret of client " +:+ quoted (name c) +:+ " (" +:+ secret_service c +:+ "." +:+ secret c
                      +:+ ") cannot be read")
    | Some fields =>
        listed ← ParseStoredList Split (Field fields "audiences");
        let id := Field fields "client_id" in
        if negb (bool_decide (listed = [])) && negb (bool_decide (audiences c = []))
           || negb (is_empty id) && negb (is_empty (client_id c))
        then Reject ("client " +:+ quoted (name c) +:+ " has a parameter both on itself and in its secret")
        else Ok {| rc_audiences := if bool_decide (listed = []) then audiences c else listed;
                   rc_client_id := if is_empty id then client_id c else id; rc_client_secret := Field fields "client_secret" |}
    end.

(** What the doors advertise of the model: an issuer whose URL cannot be told now is left out, a client whose secret
    cannot be read likewise *)
Record DoorClient := { dc_name : string; dc_client_id : string; dc_client_secret : string; dc_flows : list string }.
Record DoorIssuer := { di_name : string; di_url : string; di_clients : list DoorClient }.
Definition door_client (with_client_secrets : bool) (c : IdentityClient) : option DoorClient :=
  match ResolveClient c with
  | Ok connection =>
      Some {| dc_name := name c; dc_client_id := rc_client_id connection;
              dc_client_secret := if with_client_secrets then rc_client_secret connection else EmptyString; dc_flows := flows c |}
  | Throw _ => None
  end.
Definition door_issuer (with_client_secrets : bool) (model : IdentityModel) (i : IdentityIssuer) : option DoorIssuer :=
  match IssuerUrl i with
  | None => None
  | Some u => Some {| di_name := i_name i; di_url := u;
      di_clients := omap (door_client with_client_secrets)
        (List.filter (λ c, CIEquals (issuer c) (i_name i)) (clients model)) |}
  end.
Definition DoorIssuers (with_client_secrets : bool) (model : IdentityModel) : list DoorIssuer :=
  omap (door_issuer with_client_secrets model) (issuers model).

(** A connection's fingerprint against the last one: the fingerprints kept, and whether it changed *)
Definition NoteConnection (fingerprint : string → string) (kind name connection : string)
    (last : list (string * string)) : list (string * string) * bool :=
  let now := fingerprint connection in
  let was := default EmptyString (ci_find (touched_key kind name) last) in
  (ci_set (touched_key kind name) now last, negb (is_empty was) && negb (String.eqb was now)).

(** *** Discovery and keys *)

Record Discovered := { jwks_uri : string; found_algs : list string }.
Definition ParseDiscovery (document url issuer : string) : outcome Discovered :=
  match read_json document with
  | Some (JObj members) =>
      let text key := match obj_get (JObj members) key with Some (JStr s) => s | _ => EmptyString end in
      let listed := match obj_get (JObj members) "id_token_signing_alg_values_supported" with
                    | Some (JArr items) => omap (λ item, match item with JStr s => Some (c_str s) | _ => None end) items
                    | _ => []
                    end in
      if negb (String.eqb (text "issuer") url) then
        Reject ("the discovery document of issuer " +:+ quoted issuer +:+ " names issuer " +:+ quoted (text "issuer")
                +:+ ", not " +:+ quoted url)
      else if is_empty (text "jwks_uri") then
        Reject ("the discovery document of issuer " +:+ quoted issuer +:+ " names no jwks_uri")
      else Ok {| jwks_uri := text "jwks_uri"; found_algs := listed |}
  | _ => Reject ("the discovery document of issuer " +:+ quoted issuer +:+ " is not a JSON object")
  end.

(** [StringUtil::EndsWith] a slash *)
Definition ends_with_slash (u : string) : bool :=
  String.eqb (String.substring (String.length u - 1) 1 u) "/".
Definition DiscoveryLocation (u : string) : string :=
  u +:+ (if ends_with_slash u then EmptyString else "/") +:+ ".well-known/openid-configuration".

(** A document through the cache: its location, the issuer, the token's key identifier, whether it is a key set *)
Variable document : string → string → string → bool → outcome string.

(** The keys to verify with, and the algorithms they may be used in *)
Definition IssuerKeys (r : ResolvedIssuer) (kid : string) : outcome (string * list string) :=
  if negb (is_empty (pasted_keys r)) then
    Ok (pasted_keys r, if bool_decide (algs r = []) then ["RS256"; "ES256"] else algs r)
  else
    let mine := ci_remove "HS256" (algs r) in
    place ←
      (if is_empty (keys_from r) then
         discovered ← document (DiscoveryLocation (r_url r)) (r_name r) EmptyString false;
         found ← ParseDiscovery discovered (r_url r) (r_name r);
         if bool_decide (mine = []) then
           let known := fold_left (λ set alg, ci_add alg set)
                          (List.filter (λ alg, String.eqb alg "RS256" || String.eqb alg "ES256") (found_algs found)) [] in
           if bool_decide (found_algs found = []) then Ok (jwks_uri found, ["RS256"])
           else if bool_decide (known = []) then
             Reject ("issuer " +:+ quoted (r_name r) +:+ " signs with " +:+ join ", " (found_algs found)
                     +:+ " - this node verifies RS256 and ES256")
           else Ok (jwks_uri found, known)
         else Ok (jwks_uri found, mine)
       else Ok (keys_from r, if bool_decide (mine = []) then ["RS256"; "ES256"] else mine));
    let '(location, mine) := place in
    if bool_decide (mine = []) then
      Reject ("issuer " +:+ quoted (r_name r) +:+ " allows no algorithm this node verifies with keys read from a location")
    else keys ← document location (r_name r) kid true; Ok (keys, mine).

(** ** Verifying a token *)

(** The issuer routed to so far, those whose URL could not be told *)
Fixpoint route (iss : string) (l : list IdentityIssuer) (routed : option IdentityIssuer) (unresolved : list string)
    : outcome (option IdentityIssuer * list string) :=
  match l with
  | [] => Ok (routed, unresolved)
  | i :: l =>
      match IssuerUrl i with
      | None => route iss l routed (unresolved ++ [i_name i])
      | Some u =>
          if String.eqb u iss then
            match routed with
            | Some other => Reject ("issuers " +:+ quoted (i_name other) +:+ " and " +:+ quoted (i_name i) +:+ " both resolve to "
                                    +:+ quoted iss)
            | None => route iss l (Some i) unresolved
            end
          else route iss l routed unresolved
      end
  end.

(** The clients that accept the token, and the reason worth reading *)
Fixpoint candidates_of (l : list IdentityClient) (routed : IdentityIssuer) (root : TokenClaims) (token_type : string)
    (candidates : list IdentityClient) (refusal : string) : outcome (list IdentityClient * string) :=
  match l with
  | [] => Ok (candidates, refusal)
  | c :: l =>
      if negb (CIEquals (issuer c) (i_name routed)) then candidates_of l routed root token_type candidates refusal
      else
        connection ← ResolveClient c;
        match ClientAccepts Split c (rc_audiences connection) root token_type with
        | None => candidates_of l routed root token_type (candidates ++ [c]) refusal
        | Some why =>
            let worth := is_empty refusal
                         || String.eqb refusal "audience not accepted" && negb (String.eqb why refusal) in
            candidates_of l routed root token_type candidates (if worth then why else refusal)
        end
  end.

(** Role-default claims: explicit ones win *)
Definition MergeMemoryRoleDefaults (roles : list string) (claims : list (string * string)) : list (string * string) :=
  fold_left (λ claims role,
    match ci_find role role_claims with
    | None => claims
    | Some defaults =>
        fold_left (λ claims (claim : string * string),
          match ci_find claim.1 claims with Some _ => claims | None => ci_set claim.1 claim.2 claims end) defaults claims
    end) roles claims.

(** The settings and the clock of the verification *)
Record verify_at := { clock_skew : Z; now : Z; ignore_exp : bool }.

(** The token's clients, past its signature: the principal it stands for *)
Definition judge_token (model : IdentityModel) (routed : IdentityIssuer) (r : ResolvedIssuer) (v : VerifiedJwt)
    : outcome Principal :=
  let root := read_json (v_payload v) in
  if negb (Valid root) then Reject "malformed JWT JSON"
  else
    found ← candidates_of (clients model) routed root (token_type v) [] EmptyString;
    let '(candidates, refusal) := found in
    if bool_decide (candidates = []) then
      Reject ("no client of issuer " +:+ quoted (i_name routed) +:+ " accepts this token"
              +:+ (if is_empty refusal then EmptyString else " (" +:+ refusal +:+ ")"))
    else
      match PickClient (map ClientSpecificity candidates) with
      | (Some chosen, _) =>
          match candidates !! chosen with
          | None => Throw "index out of range"
          | Some c =>
              let given := c_roles (RolesFor Split RoleKnown RolePrivileged model c root) in
              if bool_decide (given = []) then
                if GroupsOverage root then
                  Reject ("groups overage - the groups claim was replaced by a Graph link; resolve groups at the gateway "
                          +:+ "and use the ROLE form")
                else Reject "no recognized roles"
              else Ok {| PolicyTypes.issuer := r_url r; PolicyTypes.subject := SubjectFor Split c root; roles := given;
                         claims := MergeMemoryRoleDefaults given (AttributesFor Split c root) |}
          end
      | (None, _) =>
          Reject ("the token fits clients " +:+ join ", " (map name candidates) +:+ " of issuer " +:+ quoted (i_name routed)
                  +:+ " equally - tell them apart by AUDIENCES, AZP or REQUIRE")
      end.

(** The principal, and the token's expiry *)
Definition VerifyJwtPrincipal (model : IdentityModel) (at_ : verify_at) (token iss : string) : outcome (Principal * Z) :=
  routing ← route iss (issuers model) None [];
  match routing with
  | (None, []) => Reject ("unknown issuer " +:+ quoted iss)
  | (None, unresolved) => Reject ("unknown issuer " +:+ quoted iss +:+ " (the URL of " +:+ join ", " unresolved
                                  +:+ " is in a secret that could not be read)")
  | (Some routed, _) =>
      r ← ResolveIssuer routed iss;
      keys ← IssuerKeys r (JwtKid token);
      v ← VerifyJwtSignature token keys.1 keys.2 (clock_skew at_) (ignore_exp at_) (now at_);
      if negb (String.eqb (v_issuer v) (r_url r)) then Reject "issuer mismatch"
      else p ← judge_token model routed r v; Ok (p, expires_at v)
  end.
End store.
