(* ===== verification/IdentityStoreLaws.v ===== *)
(** * What a verified token earns, and what the identity store keeps

    The routing of a token to one issuer and one client, the principal it yields; the settled routing of a model
    that passed its checks; the model along its edits; the freshness of the documents its keys come from. *)
From S2P Require Import Prelude PolicyTypes AdminRights Platform Token Identity IdentityLaws IdentityStore.

(** ** The choice of a client *)

(** What stands after the specificities [pre]: the best so far, and whether another ties with it *)
Definition picked (pre : list Z) (best : option (nat * Z)) (ambiguous : bool) : Prop :=
  match best with
  | None => pre = [] ∧ ambiguous = false
  | Some (j, b) =>
      pre !! j = Some b ∧ (∀ k s, pre !! k = Some s → (s ≤ b)%Z) ∧
      if ambiguous then ∃ k, k ≠ j ∧ pre !! k = Some b else ∀ k s, pre !! k = Some s → k = j ∨ (s < b)%Z
  end.

Lemma snoc_lookup {A} (l : list A) x k y : (l ++ [x]) !! k = Some y ↔ l !! k = Some y ∨ k = length l ∧ y = x.
Proof.
  rw lookup_app_Some. split.
  - intros [?|[? [Hk <-]%list_lookup_singleton_Some]]; [by left|]. right. split; [lia|done].
  - intros [?|[-> ->]]; [by left|]. right. rw Nat.sub_diag. split; [lia|done].
Qed.

Lemma pick_picked l : ∀ pre best ambiguous, picked pre best ambiguous →
  picked (pre ++ l) (pick l (length pre) best ambiguous).1 (pick l (length pre) best ambiguous).2.
Proof.
  induction l as [|s l IH]; intros pre best ambiguous Hp; [by rw app_nil_r|]. cbn [pick].
  rw cons_middle app_assoc. replace (S (length pre)) with (length (pre ++ [s])) by (rw length_app; simpl; lia).
  destruct best as [[j b]|]; [destruct (Z.ltb_spec b s) as [Hlt|Hge]|]; apply IH.
  - destruct Hp as (Hj & Hmax & _). rw /picked. rw snoc_lookup. split_and!; [by right| |].
    + intros k s' [Hk|[_ ->]]%snoc_lookup; [|lia]. specialize (Hmax k s' Hk). lia.
    + intros k s' [Hk|[-> _]]%snoc_lookup; [|by left]. right. specialize (Hmax k s' Hk). lia.
  - destruct Hp as (Hj & Hmax & Hamb). pose proof (lookup_lt_Some _ _ _ Hj) as Hlen. rw /picked snoc_lookup. split_and!; [by left| |].
    + intros k s' [Hk|[_ ->]]%snoc_lookup; [by apply (Hmax k)|done].
    + destruct (Z.eqb_spec s b) as [->|Hne].
      * exists (length pre). rw snoc_lookup. split; [lia|by right].
      * destruct ambiguous.
        -- destruct Hamb as (k & Hk & Hb). exists k. rw snoc_lookup. split; [done|by left].
        -- intros k s' [Hk|[-> ->]]%snoc_lookup; [by apply Hamb|]. right. lia.
  - destruct Hp as [-> _]. rw /picked. simpl. split_and!; [done| |].
    + intros k s' [_ <-]%list_lookup_singleton_Some. lia.
    + intros k s' [-> _]%list_lookup_singleton_Some. by left.
Qed.

(** The most specific, when it is the only one *)
Lemma PickClient_some l k ambiguous :
  PickClient l = (Some k, ambiguous) → ∃ s, l !! k = Some s ∧ ∀ k' s', l !! k' = Some s' → k' = k ∨ (s' < s)%Z.
Proof.
  rw /PickClient. pose proof (pick_picked l [] None false (conj eq_refl eq_refl)) as Hp. simpl in Hp.
  destruct (pick l 0 None false) as [[[j b]|] [|]]; simpl in *; try done. intros [= <- _].
  destruct Hp as (Hj & _ & Honly). by exists b.
Qed.
(** No choice: nobody, or a tie at the top *)
Lemma PickClient_none l ambiguous :
  PickClient l = (None, ambiguous) →
  l = [] ∨ ∃ k k' s, k ≠ k' ∧ l !! k = Some s ∧ l !! k' = Some s ∧ ∀ j s', l !! j = Some s' → (s' ≤ s)%Z.
Proof.
  rw /PickClient. pose proof (pick_picked l [] None false (conj eq_refl eq_refl)) as Hp. simpl in Hp.
  destruct (pick l 0 None false) as [[[j b]|] [|]]; simpl in *; try done; intros _.
  - destruct Hp as (Hj & Hmax & k & Hk & Hb). right. exists k, j, b. split_and!; done.
  - by destruct Hp.
  - destruct Hp as [-> _]. by left.
Qed.

(** ** A verified token *)

Section verified.
Context `{SUL : StringUtilLaws} `{JR : JsonReader} `{CR : Crypto}.
Variable Split : string → ascii → list string.
Variable read_secret : string → string → string → outcome (option (list (string * string))).
Variable RolePrivileged : string → bool.
Variable RoleKnown : string → bool.
Variable role_claims : list (string * list (string * string)).
Variable document : string → string → string → bool → outcome string.
Notation issuer_url := (IssuerUrl read_secret).

(** [iss] is the URL of exactly one place of the list *)
Definition routes_to (iss : string) (l : list IdentityIssuer) (i : IdentityIssuer) : Prop :=
  ∃ k, l !! k = Some i ∧ issuer_url i = Some iss ∧ ∀ k' i', l !! k' = Some i' → issuer_url i' = Some iss → k' = k.

Lemma route_some iss l : ∀ routed unresolved i rest,
  route read_secret iss l routed unresolved = Ok (Some i, rest) →
  match routed with
  | Some other => i = other ∧ ∀ k' i', l !! k' = Some i' → issuer_url i' ≠ Some iss
  | None => routes_to iss l i
  end.
Proof.
  induction l as [|x l IH]; intros routed unresolved i rest; simpl.
  { destruct routed; [intros [= -> _]; split; [done|by intros]|done]. }
  destruct (issuer_url x) as [u|] eqn:Hu; [destruct (String.eqb_spec u iss) as [->|Hne]; [destruct routed; [done|]|]|].
  - intros [-> Hno]%IH. exists 0. split_and!; [done|done|]. intros [|k'] i' Hk Hi; [done|]. simpl in Hk. by destruct (Hno k' i').
  - intros Hr%IH. destruct routed as [other|].
    + destruct Hr as [-> Hno]. split; [done|]. intros [|k'] i' Hk Hi; simpl in Hk; [congruence|by apply (Hno k' i')].
    + destruct Hr as (k & Hk & Hi & Honly). exists (S k). split_and!; [done|done|].
      intros [|k'] i' Hk' Hi'; simpl in Hk'; [congruence|]. f_equal. by apply (Honly k' i').
  - intros Hr%IH. destruct routed as [other|].
    + destruct Hr as [-> Hno]. split; [done|]. intros [|k'] i' Hk Hi; simpl in Hk; [congruence|by apply (Hno k' i')].
    + destruct Hr as (k & Hk & Hi & Honly). exists (S k). split_and!; [done|done|].
      intros [|k'] i' Hk' Hi'; simpl in Hk'; [congruence|]. f_equal. by apply (Honly k' i').
Qed.

(** The client accepts the token, with what its connection resolves to *)
Definition accepts (i : IdentityIssuer) (root : TokenClaims) (token_type : string) (c : IdentityClient) : Prop :=
  CIEquals (issuer c) (i_name i) = true ∧ ∃ connection, ResolveClient Split read_secret c = Ok connection ∧
    ClientAccepts Split c (rc_audiences connection) root token_type = None.

Lemma candidates_of_spec l i root token_type : ∀ before refusal candidates rest,
  candidates_of Split read_secret l i root token_type before refusal = Ok (candidates, rest) →
  ∃ more, candidates = before ++ more ∧ more `sublist_of` l ∧
    (∀ c, c ∈ more ↔ c ∈ l ∧ accepts i root token_type c).
Proof.
  induction l as [|x l IH]; intros before refusal candidates rest; simpl.
  { intros [= <- _]. exists []. rw app_nil_r. split_and!; [done|done|]. set_solver. }
  assert (Hskip : ∀ r, candidates_of Split read_secret l i root token_type before r = Ok (candidates, rest) →
    ¬ accepts i root token_type x → ∃ more, candidates = before ++ more ∧ more `sublist_of` x :: l ∧
      (∀ c, c ∈ more ↔ c ∈ x :: l ∧ accepts i root token_type c)).
  { intros r (more & -> & Hsub & Hin)%IH Hno. exists more. split_and!; [done|by apply sublist_cons|].
    intros c. rw Hin elem_of_cons. split; [intros [? ?]; auto|]. intros [[->|?] ?]; [done|auto]. }
  destruct (CIEquals (issuer x) (i_name i)) eqn:Hci; simpl; [|intros Hr; apply (Hskip _ Hr); intros [? _]; congruence].
  intros (connection & Hc & Hr)%outcome_bind_ok.
  destruct (ClientAccepts Split x (rc_audiences connection) root token_type) as [why|] eqn:Ha.
  - apply (Hskip _ Hr). intros (_ & connection' & Hc' & Ha'). congruence.
  - apply IH in Hr as (more & -> & Hsub & Hin). exists (x :: more). rw -app_assoc. split_and!; [done|by constructor|].
    intros c. rw !elem_of_cons Hin. split; [|by intros [[->|?] ?]; auto].
    intros [->|[? ?]]; [|auto]. split; [by left|]. split; [done|]. by exists connection.
Qed.

(** Keys of a shared secret come from the issuer's own secret *)
Lemma no_shared (l : list string) :
  (∀ a, a ∈ l → CIEquals a "HS256" = false) → ci_mem "HS256" l = false.
Proof.
  intros Hl. apply not_true_iff_false. rw /ci_mem existsb_exists. intros (a & Ha%list_elem_of_In & Hc).
  by rw Hl in Hc.
Qed.
Lemma no_shared_set l : ∀ set, ci_mem "HS256" set = false → (∀ a, a ∈ l → CIEquals a "HS256" = false) →
  ci_mem "HS256" (fold_left (λ set alg, ci_add alg set) l set) = false.
Proof.
  induction l as [|a l IH]; intros set Hset Hl; [done|]. simpl. apply IH; [|intros; apply Hl; by right].
  rw ci_mem_add Hset. rw Hl; [left|done].
Qed.

Lemma IssuerKeys_shared r kid keys algs_ :
  IssuerKeys document r kid = Ok (keys, algs_) → ci_mem "HS256" algs_ = true →
  pasted_keys r = keys ∧ keys ≠ EmptyString ∧ ci_mem "HS256" (algs r) = true.
Proof.
  rw /IssuerKeys. assert (Htwo : ∀ a, a ∈ ["RS256"; "ES256"] → CIEquals a "HS256" = false).
  { intros a Ha. rw CIEquals_law. apply elem_of_cons in Ha as [->|Ha]; [done|]. by apply list_elem_of_singleton in Ha as ->. }
  destruct (is_empty (pasted_keys r)) eqn:Hp; simpl.
  - set mine := ci_remove "HS256" (algs r).
    assert (Hmine : ci_mem "HS256" mine = false).
    { rw /mine. apply not_true_iff_false. rw ci_mem_remove. by rw CIEquals_refl. }
    intros ([location used] & Hplace & Hk)%outcome_bind_ok Hhs. exfalso.
    assert (Hused : ci_mem "HS256" used = false).
    { destruct (is_empty (keys_from r)).
      - apply outcome_bind_ok in Hplace as (discovered & _ & Hplace). apply outcome_bind_ok in Hplace as (found & _ & Hplace).
        destruct (bool_decide (mine = [])); [|by injection Hplace as <- <-].
        destruct (bool_decide (found_algs found = [])); [injection Hplace as <- <-; by apply no_shared; intros; apply Htwo; set_solver|].
        destruct (bool_decide (fold_left _ _ [] = [])); [done|]. injection Hplace as <- <-. apply no_shared_set; [done|].
        intros a [_ Ha]%elem_of_filter_true. apply Htwo. apply orb_true_iff in Ha as [->%String.eqb_eq| ->%String.eqb_eq]; set_solver.
      - injection Hplace as <- <-. destruct (bool_decide (mine = [])); [by apply no_shared|done]. }
    destruct (bool_decide (used = [])); [done|]. apply outcome_bind_ok in Hk as (ks & _ & [= <- <-]). congruence.
  - intros [= <- <-] Hhs. split_and!; [done|by intros He; rw He in Hp|].
    destruct (bool_decide (algs r = [])); [by rw no_shared in Hhs|done].
Qed.

Lemma ResolveIssuer_ok i iss r :
  ResolveIssuer Split read_secret i iss = Ok r → r_url r = iss ∧ r_name r = i_name i ∧
  (pasted_keys r ≠ EmptyString → i_secret i ≠ EmptyString ∧ ∃ fields,
     read_secret (i_secret_service i) (i_secret i) "oidc_issuer" = Ok (Some fields) ∧ Field fields "keys" = pasted_keys r).
Proof.
  rw /ResolveIssuer. destruct (is_empty (i_secret i)) eqn:Hs; [by intros [= <-]|].
  intros ([fields|] & Hf & Hr)%outcome_bind_ok; [|done]. destruct (_ && _); [done|].
  apply outcome_bind_ok in Hr as (listed & _ & [= <-]). simpl. split_and!; [done|done|]. intros _.
  split; [by intros He; rw He in Hs|]. by exists fields.
Qed.

(** The client a token chooses, of those that accept it the only most specific one *)
Definition chosen (model : IdentityModel) (i : IdentityIssuer) (root : TokenClaims) (token_type : string)
    (c : IdentityClient) : Prop :=
  c ∈ clients model ∧ accepts i root token_type c ∧
  ∀ c', c' ∈ clients model → accepts i root token_type c' → c' = c ∨ (ClientSpecificity c' < ClientSpecificity c)%Z.

Lemma judge_token_ok model i r v p :
  judge_token Split read_secret RolePrivileged RoleKnown role_claims model i r v = Ok p →
  let root := read_json (v_payload v) in
  Valid root = true ∧ ∃ c, chosen model i root (token_type v) c ∧
    PolicyTypes.issuer p = r_url r ∧ PolicyTypes.subject p = SubjectFor Split c root ∧ roles p ≠ [] ∧
    roles p = c_roles (RolesFor Split RoleKnown RolePrivileged model c root).
Proof.
  rw /judge_token. destruct (Valid _) eqn:Hv; [|done]. simpl.
  intros ([candidates refusal] & Hc & Hp)%outcome_bind_ok. apply candidates_of_spec in Hc as (more & Hmore & _ & Hin).
  simpl in Hmore. subst more. destruct (bool_decide (candidates = [])); [done|].
  destruct (PickClient _) as [[k|] ambiguous] eqn:Hpick; [|done].
  destruct (PickClient_some _ _ _ Hpick) as (s & Hs & Honly).
  destruct (candidates !! k) as [c|] eqn:Hk; [|done].
  rewrite list_lookup_fmap Hk in Hs. injection Hs as <-.
  destruct (bool_decide (c_roles _ = [])) eqn:Hroles; [by destruct (GroupsOverage _)|].
  apply bool_decide_eq_false in Hroles. injection Hp as <-. split; [done|]. exists c. simpl. split_and!; try done.
  assert (Hcin : c ∈ candidates) by (apply list_elem_of_lookup; eauto). apply Hin in Hcin as [Hcl Ha].
  split_and!; [done|done|]. intros c' Hcl' Ha'.
  destruct (proj1 (list_elem_of_lookup candidates c') (proj2 (Hin c') (conj Hcl' Ha'))) as [k' Hk'].
  destruct (Honly k' (ClientSpecificity c')) as [->|Hlt]; [by rewrite list_lookup_fmap Hk'| |by right].
  left. congruence.
Qed.

(** C17: the principal a token yields was earned all the way.  Exactly one issuer of the model has the token's issuer
    as its URL; the token is signed by a key of that issuer, in an algorithm allowed with it - a shared secret only
    when the keys are pasted in the issuer's own secret, never with a document read from a location; the client is
    one of that issuer which accepts the token and the only most specific of those that do; the principal is the
    issuer's, has a role, and every role of it is one the client's rules give, administration by a mapping of its
    own only. *)
Theorem principal_is_earned (model : IdentityModel) (at_ : verify_at) (token iss : string) (p : Principal) (exp : Z) :
  VerifyJwtPrincipal Split read_secret RolePrivileged RoleKnown role_claims document model at_ token iss = Ok (p, exp) →
  ∃ i r keys algs_ v c, routes_to iss (issuers model) i ∧ ResolveIssuer Split read_secret i iss = Ok r ∧
    IssuerKeys document r (JwtKid token) = Ok (keys, algs_) ∧
    VerifyJwtSignature token keys algs_ (clock_skew at_) (ignore_exp at_) (now at_) = Ok v ∧
    v_issuer v = iss ∧ exp = expires_at v ∧
    (ci_mem "HS256" algs_ = true → i_secret i ≠ EmptyString ∧ ∃ fields,
       read_secret (i_secret_service i) (i_secret i) "oidc_issuer" = Ok (Some fields) ∧ Field fields "keys" = keys) ∧
    let root := read_json (v_payload v) in
    chosen model i root (token_type v) c ∧
    PolicyTypes.issuer p = iss ∧ PolicyTypes.subject p = SubjectFor Split c root ∧ roles p ≠ [] ∧
    ∀ role, role ∈ roles p → ∃ own, given Split RoleKnown RolePrivileged model c root role own.
Proof.
  rw /VerifyJwtPrincipal. intros ([[i|] unresolved] & Hroute & Hp)%outcome_bind_ok; [|by destruct unresolved].
  apply route_some in Hroute. apply outcome_bind_ok in Hp as (r & Hr & Hp).
  apply outcome_bind_ok in Hp as ([keys algs_] & Hkeys & Hp). apply outcome_bind_ok in Hp as (v & Hv & Hp). simpl in *.
  destruct (ResolveIssuer_ok _ _ _ Hr) as (Hurl & _ & Hpasted).
  destruct (String.eqb_spec (v_issuer v) (r_url r)) as [Hiss|]; [|done].
  apply outcome_bind_ok in Hp as (p' & (_ & c & Hc & Hi & Hs & Hne & Hroles)%judge_token_ok & [= -> <-]).
  exists i, r, keys, algs_, v, c. split_and!; try done; [congruence| |congruence|].
  - intros Hhs. destruct (IssuerKeys_shared _ _ _ _ Hkeys Hhs) as (<- & Hne' & _). by apply Hpasted.
  - rw Hroles. apply RolesFor_given.
Qed.
End verified.

(** ** The documents *)

Section documents_laws.
Context `{SUL : StringUtilLaws} `{JR : JsonReader}.
Variable Split : string → ascii → list string.
Notation step := (step Split).
Notation JwksLocationAllowed := (JwksLocationAllowed Split).

Lemma ci_found {V} k (v : V) m : ci_find k m = Some v → ∃ k', (k', v) ∈ m ∧ CIEquals k' k = true.
Proof.
  induction m as [|[k0 v0] m IH]; [done|]. simpl. destruct (CIEquals k0 k) eqn:Hk.
  - intros [= ->]. exists k0. split; [left|done].
  - intros (k' & Hin & ?)%IH. exists k'. split; [by right|done].
Qed.
Lemma ci_set_in {V} k (v : V) m k' v' :
  (k', v') ∈ ci_set k v m → (k', v') ∈ m ∨ v' = v ∧ CIEquals k' k = true.
Proof.
  induction m as [|[k0 v0] m IH]; simpl.
  - intros [= -> ->]%list_elem_of_singleton. right. split; [done|apply CIEquals_refl].
  - destruct (CIEquals k0 k) eqn:Hk; intros [[= -> ->]|Hin]%elem_of_cons.
    + by right.
    + left. by right.
    + left. by left.
    + destruct (IH Hin); [left; by right|by right].
Qed.

(** A document kept for the location was read from it - in some spelling of its case - at the time it says, and
    has not failed since when it carries no error *)
Definition entry_read (R : list (string * Z * string)) (location : string) (e : JwksEntry) : Prop :=
  keys_json e ≠ EmptyString →
  (error e = EmptyString → fetched_at e = tried_at e) ∧
  ∃ l, CIEquals l location = true ∧ (l, fetched_at e, keys_json e) ∈ R.
(** An answer is such a document, fresh, or stale within bounds *)
Definition served_fresh (R : list (string * Z * string)) (a : served) : Prop :=
  ∀ document, s_answer a = Ok document →
  JwksLocationAllowed (s_locations a) (s_location a) = None ∧ document ≠ EmptyString ∧
  ∃ l at_, CIEquals l (s_location a) = true ∧ (l, at_, document) ∈ R ∧
    (match s_refresh a with None => at_ = s_now a | Some refresh => (isub (s_now a) at_ < Z.max 0 refresh)%Z end ∨
     (0 < s_max_stale a ∧ isub (s_now a) at_ ≤ s_max_stale a)%Z).
Record documents_ok (s : doc_state) : Prop := {
  d_cache : ∀ location e, (location, e) ∈ cache s → entry_read (reads s) location e;
  d_flight : ∀ call p, (call, p) ∈ in_flight s →
    entry_read (reads s) (p_location p) (p_entry p) ∧ JwksLocationAllowed (p_locations p) (p_location p) = None;
  d_answers : ∀ a, a ∈ answers s → served_fresh (reads s) a;
}.

Lemma entry_read_more R R' l e : entry_read R l e → entry_read (R ++ R') l e.
Proof. intros Hr Hne. destruct (Hr Hne) as (? & l' & ? & ?). split; [done|]. exists l'. split; [done|set_solver]. Qed.
Lemma served_fresh_more R R' a : served_fresh R a → served_fresh (R ++ R') a.
Proof.
  intros Hr document Ha. destruct (Hr document Ha) as (? & ? & l & at_ & ? & ? & ?). split_and!; [done|done|].
  exists l, at_. split_and!; [done|set_solver|done].
Qed.
Lemma entry_read_ci R l l' e : CIEquals l l' = true → entry_read R l e → entry_read R l' e.
Proof.
  intros Hl Hr Hne. destruct (Hr Hne) as (? & k & Hk & ?). split; [done|]. exists k. split; [|done].
  by rw (CIEquals_trans _ _ _ Hk).
Qed.
Lemma entry_read_gone R l e : keys_json e = EmptyString → entry_read R l e.
Proof. by intros He ?. Qed.

Lemma found_read s location :
  documents_ok s → entry_read (reads s) location (default no_entry (ci_find location (cache s))).
Proof.
  intros Hs. destruct (ci_find location (cache s)) as [e|] eqn:Hf; [|by apply entry_read_gone].
  destruct (ci_found _ _ _ Hf) as (l & Hin & Hl). simpl. eapply entry_read_ci; [exact Hl|]. by apply Hs.
Qed.
Lemma cache_set s location e R l e' :
  documents_ok s → entry_read (reads s ++ R) location e → (l, e') ∈ ci_set location e (cache s) → entry_read (reads s ++ R) l e'.
Proof.
  intros Hs He [Hin|[-> Hl]]%ci_set_in; [by apply entry_read_more, (d_cache s Hs)|].
  rw CIEquals_sym in Hl. by eapply entry_read_ci.
Qed.

Lemma answer_ok now_ max_stale location issuer e document :
  answer now_ max_stale location issuer e = Ok document →
  document = keys_json e ∧ document ≠ EmptyString ∧
  (error e = EmptyString ∨ (0 < max_stale ∧ isub now_ (fetched_at e) ≤ max_stale)%Z).
Proof.
  rw /answer. destruct (is_empty (keys_json e)) eqn:Hk; [done|]. destruct (_ && _) eqn:Hstale; [done|]. intros [= <-].
  split_and!; [done|by intros He; rw He in Hk|]. apply andb_false_iff in Hstale as [Hn|[? ?]%orb_false_iff].
  - left. destruct (error e); [done|]. by simpl in Hn.
  - right. lia.
Qed.

(** What [look] does not read again is not due *)
Lemma look_fresh now_ refresh location issuer kid is_jwks c e :
  look now_ refresh location issuer kid is_jwks c = (e, false) → keys_json e ≠ EmptyString → fetched_at e = tried_at e →
  (isub now_ (fetched_at e) < Z.max 0 refresh)%Z.
Proof.
  rw /look. intros [= <- Hread]. cbn [keys_json fetched_at tried_at]. intros Hne Heq. rewrite -> Heq in *.
  destruct (is_empty (keys_json _)) eqn:Hk; [by destruct (keys_json _)|]. simpl in Hread.
  destruct (refresh <=? _)%Z eqn:Hr; [|lia]. simpl in Hread. rewrite andb_false_r /= in Hread. lia.
Qed.

(** The kept entry that answers, once a read ended *)
Lemma finish_kept t location e read c :
  let '(c', e', _) := finish t location e read c in
  c' = ci_set location e' c ∧ error e' = error (taken_in t e read) ∧ tried_at e' = tried_at (taken_in t e read) ∧
  (e' = taken_in t e read ∨ keys_json e' = EmptyString).
Proof. rw /finish. destruct (_ && _); simpl; split_and!; auto. Qed.

Definition told (ev : event) : Prop := match ev with Got _ _ (inr e) => e ≠ EmptyString | _ => True end.

Lemma step_documents s ev : told ev → documents_ok s → documents_ok (step s ev).
Proof.
  intros Htold Hs. pose proof Hs as [Hc Hf Ha].
  destruct ev as [call t refresh max_stale locations location issuer kid is_jwks|call max_stale read|issuer]; cbn [IdentityStore.step].
  - destruct (JwksLocationAllowed locations location) as [why|] eqn:Hwhy.
    + split; simpl; [|done|].
      * intros l e Hin. apply (cache_set s _ _ [] l e Hs) in Hin; rewrite app_nil_r in Hin |- *; [done|]. by apply entry_read_gone.
      * intros a [?| ->%list_elem_of_singleton]%elem_of_app; [by apply Ha|done].
    + destruct (look t refresh location issuer kid is_jwks (cache s)) as [e reading] eqn:Hlook.
      assert (He : entry_read (reads s) location e).
      { pose proof (found_read s location Hs) as He. rw /look in Hlook. by injection Hlook as <- _. }
      destruct reading; split; simpl; try done.
      * intros c p [[= -> ->]|?]%elem_of_cons; [done|by apply (Hf c)].
      * intros a [?| ->%list_elem_of_singleton]%elem_of_app; [by apply Ha|]. intros document Hok. simpl in *.
        apply answer_ok in Hok as (-> & Hne & Hstale). destruct (He Hne) as (Hfresh & l & ? & ?).
        split_and!; [done|done|]. exists l, (fetched_at e). split_and!; [done|done|].
        destruct Hstale as [He'|]; [left|by right]. by eapply look_fresh; eauto.
  - destruct (List.find _ (in_flight s)) as [[call' p]|] eqn:Hfind; [|done].
    apply find_some in Hfind as [Hin%list_elem_of_In _]. destruct (Hf _ _ Hin) as [He Hallowed].
    pose proof (finish_kept (p_now p) (p_location p) (p_entry p) read (cache s)) as Hk.
    destruct (finish _ _ _ _ _) as [[c' e'] n]. destruct Hk as (-> & Herr & Htried & Hkept).
    set more := match read with inl document => _ | inr _ => _ end.
    assert (He' : entry_read (reads s ++ more) (p_location p) e' ∧
      (∀ document, read = inl document → keys_json e' ≠ EmptyString → fetched_at e' = p_now p)).
    { destruct Hkept as [->|Hgone]; [|split; [by apply entry_read_gone|congruence]]. rw /more. destruct read as [document|why]; simpl.
      - split; [|done]. intros _. split; [done|]. exists (p_location p). split; [apply CIEquals_refl|set_solver].
      - split; [|done]. intros Hne. destruct (He Hne) as (_ & l & ? & ?). split; [intros Hw; by destruct Htold|]. exists l. split; [done|set_solver]. }
    destruct He' as [He' Hnow]. split; simpl.
    + intros l e. by apply cache_set.
    + intros c q [Hq _]%elem_of_filter_true. destruct (Hf c q Hq) as [? ?]. split; [by apply entry_read_more|done].
    + intros a [?| ->%list_elem_of_singleton]%elem_of_app; [by apply served_fresh_more, Ha|]. intros document Hok. simpl in *.
      apply answer_ok in Hok as (-> & Hne & Hstale). destruct (He' Hne) as (Hfresh & l & ? & ?).
      split_and!; [done|done|]. exists l, (fetched_at e'). split_and!; [done|done|].
      destruct Hstale as [Hok|]; [left|by right]. destruct read as [document|why]; [by apply (Hnow document)|].
      rewrite Hok in Herr. done.
  - split; simpl; [|done|done]. intros l e [Hin _]%elem_of_filter_true. by apply Hc.
Qed.

(** every document a token is verified with was read from its own location and is fresh.  Over any history of
    calls - their reads in flight while others look, drop and read -, an answer is a document that was read from that
    location, in some spelling of its letters' case, when the settings allow the location: read by that very call, or
    less than the refresh interval old, or - while it cannot be read again - no older than a positive bound on
    staleness, whose absence ends it at once. *)
Theorem documents_are_fresh (events : list event) (a : served) (document : string) :
  Forall told events → a ∈ answers (history Split events) → s_answer a = Ok document →
  JwksLocationAllowed (s_locations a) (s_location a) = None ∧ document ≠ EmptyString ∧
  ∃ l at_, CIEquals l (s_location a) = true ∧ (l, at_, document) ∈ reads (history Split events) ∧
    (match s_refresh a with None => at_ = s_now a | Some refresh => (isub (s_now a) at_ < Z.max 0 refresh)%Z end ∨
     (0 < s_max_stale a ∧ isub (s_now a) at_ ≤ s_max_stale a)%Z).
Proof.
  intros Htold Ha Hok. revert document Hok. change (served_fresh (reads (history Split events)) a).
  revert a Ha. apply d_answers. rw /history. assert (Hs : documents_ok no_documents) by (split; by intros ? ?%elem_of_nil || intros ? ? ?%elem_of_nil).
  revert Hs. generalize no_documents. induction Htold as [|ev events Hev _ IH]; intros s Hs; [done|]. apply IH. by apply step_documents.
Qed.
End documents_laws.

(** ** The kept model *)

Section model_laws.
Context `{SUL : StringUtilLaws} `{JR : JsonReader}.
Variable Split : string → ascii → list string.
Variable SecretService : string → outcome string.
Variable read_secret : string → string → string → outcome (option (list (string * string))).
Variable RolePrivileged : string → bool.

(** No name twice, in any case *)
Definition distinct_names (l : list string) : Prop := NoDup (map Lower l).

Lemma check_ok b what : check b what = Ok () → b = true.
Proof. by destruct b. Qed.
Lemma each_ok {A} (f : A → outcome unit) l : each f l = Ok () → ∀ x, x ∈ l → f x = Ok ().
Proof.
  induction l as [|y l IH]; intros Hl x Hx; [by apply elem_of_nil in Hx|].
  apply outcome_bind_ok in Hl as ([] & Hy & Hl). apply elem_of_cons in Hx as [->|Hx]; [done|by apply IH].
Qed.

(** The names a check walks: not empty, not seen before, told apart *)
Lemma distinct_step {A} (f : A → string) x l names :
  ci_mem (f x) names = false →
  (∀ y, y ∈ l → f y ≠ EmptyString ∧ ci_mem (f y) (ci_add (f x) names) = false) → distinct_names (map f l) →
  (∀ y, y ∈ l → f y ≠ EmptyString ∧ ci_mem (f y) names = false) ∧ distinct_names (f x :: map f l).
Proof.
  intros Hx Hl Hd. split.
  - intros y [? Hy]%Hl. split; [done|]. rewrite ci_mem_add in Hy. by apply orb_false_iff in Hy as [_ ?].
  - apply NoDup_cons. split; [|done]. intros (n & Hn & (y & -> & Hy)%list_elem_of_fmap)%list_elem_of_fmap.
    destruct (Hl y Hy) as [_ Hm]. rewrite ci_mem_add in Hm. apply orb_false_iff in Hm as [Hm _].
    by rewrite (proj2 (CIEquals_true _ _) Hn) in Hm.
Qed.

Lemma check_issuers_names touched l : ∀ names urls, check_issuers Split read_secret touched names urls l = Ok () →
  (∀ i, i ∈ l → i_name i ≠ EmptyString ∧ ci_mem (i_name i) names = false) ∧ distinct_names (map i_name l).
Proof.
  induction l as [|i l IH]; intros names urls; [intros _; split; [by intros ? ?%elem_of_nil|constructor]|].
  cbn [check_issuers]. intros ([] & Hn%check_ok%negb_true_iff & Hr)%outcome_bind_ok.
  apply outcome_bind_ok in Hr as ([] & Hm%check_ok%negb_true_iff & Hr).
  assert (Hrest : ∃ urls', check_issuers Split read_secret touched (ci_add (i_name i) names) urls' l = Ok ()).
  { destruct (_ && _); [by exists urls|]. apply outcome_bind_ok in Hr as (u & _ & Hr).
    apply outcome_bind_ok in Hr as ([] & _ & Hr). destruct (ci_find u urls); [done|]. by eexists. }
  destruct Hrest as [urls' [Hl Hd]%IH]. destruct (distinct_step i_name i l names Hm Hl Hd) as [Hl' ?].
  split; [|done]. intros y [->|?]%elem_of_cons; [|by apply Hl']. split; [by intros He; rewrite He in Hn|done].
Qed.

Lemma check_clients_names touched model l : ∀ names accepted accepted',
  check_clients Split read_secret RolePrivileged touched model names accepted l = Ok accepted' →
  (∀ c, c ∈ l → name c ≠ EmptyString ∧ ci_mem (name c) names = false) ∧ distinct_names (map name l) ∧
  (∀ c, c ∈ l → is_Some (Issuer model (issuer c)) ∧
     ∃ mine, (if judged touched "client" (name c) then check_client Split read_secret RolePrivileged c else Ok (audiences c)) = Ok mine ∧
       ci_find (name c) accepted' = Some mine) ∧
  (∀ n, ci_mem n names = true → (∀ c, c ∈ l → CIEquals (name c) n = false) → ci_find n accepted' = ci_find n accepted).
Proof.
  induction l as [|c l IH]; intros names accepted accepted'.
  { intros [= <-]. split_and!; [by intros ? ?%elem_of_nil|constructor|by intros ? ?%elem_of_nil|done]. }
  cbn [check_clients]. intros ([] & Hn%check_ok%negb_true_iff & Hr)%outcome_bind_ok.
  apply outcome_bind_ok in Hr as ([] & Hm%check_ok%negb_true_iff & Hr).
  apply outcome_bind_ok in Hr as ([] & Hi%check_ok%bool_decide_eq_true & Hr).
  apply outcome_bind_ok in Hr as (mine & Hmine & (Hl & Hd & Hc & Hkept)%IH).
  destruct (distinct_step name c l names Hm Hl Hd) as [Hl' Hd']. split_and!; [|done| |].
  - intros y [->|?]%elem_of_cons; [|by apply Hl']. split; [by intros He; rewrite He in Hn|done].
  - intros y [->|?]%elem_of_cons; [|by apply Hc]. split; [done|]. exists mine. split; [done|].
    rw Hkept; [| |by rw ci_find_set CIEquals_refl].
    + by rw ci_mem_add CIEquals_refl.
    + intros y Hy. destruct (Hl y Hy) as [_ Hno]. rw ci_mem_add in Hno. apply orb_false_iff in Hno as [Hno _]. by rw CIEquals_sym.
  - intros n Hin Hno. rw Hkept.
    + by rw ci_mem_add Hin orb_true_r.
    + intros y Hy. apply Hno. by right.
    + rw ci_find_set Hno; [left|done].
Qed.

(** Names told apart and every reference to something *)
Record well_formed (model : IdentityModel) : Prop := {
  w_issuers : distinct_names (map i_name (issuers model)) ∧ ∀ i, i ∈ issuers model → i_name i ≠ EmptyString;
  w_clients : distinct_names (map name (clients model)) ∧ ∀ c, c ∈ clients model → name c ≠ EmptyString;
  w_issuer_of : ∀ c, c ∈ clients model → is_Some (Issuer model (issuer c));
  w_mappings : ∀ m, m ∈ mappings model →
    (scope_kind m = "client" ∧ is_Some (Client model (scope_name m)) ∨
     scope_kind m = "issuer" ∧ is_Some (Issuer model (scope_name m))) ∧
    (source m = "group" ∨ source m = "claim-value");
}.

Lemma check_mapping_ok touched model m : check_mapping RolePrivileged touched model m = Ok () →
  (scope_kind m = "client" ∧ is_Some (Client model (scope_name m)) ∨
   scope_kind m = "issuer" ∧ is_Some (Issuer model (scope_name m))) ∧
  (source m = "group" ∨ source m = "claim-value") ∧
  (scope_kind m = "issuer" → RolePrivileged (mrole m) = true → judged touched "mapping" (mapping_key m) = false).
Proof.
  rw /check_mapping. intros ([] & Hscope & Hsrc%check_ok%orb_true_iff)%outcome_bind_ok. split_and!.
  - destruct (String.eqb_spec (scope_kind m) "client"); [left; split; [done|]; by apply check_ok, bool_decide_eq_true in Hscope|].
    destruct (String.eqb_spec (scope_kind m) "issuer"); [|done]. right. split; [done|].
    apply outcome_bind_ok in Hscope as ([] & Hi%check_ok & _). by apply bool_decide_eq_true in Hi.
  - destruct Hsrc as [->%String.eqb_eq| ->%String.eqb_eq]; auto.
  - intros Hk Hp. rw Hk /= in Hscope. apply outcome_bind_ok in Hscope as ([] & _ & Ht%check_ok%negb_true_iff).
    rw Hp andb_true_r in Ht. done.
Qed.

Lemma ValidateIdentity_ok touched model : ValidateIdentity Split read_secret RolePrivileged touched model = Ok () →
  well_formed model ∧
  (∃ accepted, check_overlaps touched accepted (clients model) = Ok () ∧
     ∀ c, c ∈ clients model → ∃ mine, ci_find (name c) accepted = Some mine ∧
       (if judged touched "client" (name c) then check_client Split read_secret RolePrivileged c else Ok (audiences c)) = Ok mine) ∧
  ∀ m, m ∈ mappings model → scope_kind m = "issuer" → RolePrivileged (mrole m) = true →
    judged touched "mapping" (mapping_key m) = false.
Proof.
  rw /ValidateIdentity. intros ([] & (Hi & Hid)%check_issuers_names & Hr)%outcome_bind_ok.
  apply outcome_bind_ok in Hr as (accepted & (Hc & Hcd & Hof & _)%check_clients_names & Hr).
  apply outcome_bind_ok in Hr as ([] & Ho & Hm). pose proof (each_ok _ _ Hm) as Hmapping. split_and!.
  - split.
    + split; [done|]. intros i Hin. by destruct (Hi i Hin).
    + split; [done|]. intros c Hin. by destruct (Hc c Hin).
    + intros c Hin. by destruct (Hof c Hin).
    + intros m Hin. by destruct (check_mapping_ok _ _ _ (Hmapping m Hin)) as (? & ? & _).
  - exists accepted. split; [done|]. intros c Hin. destruct (Hof c Hin) as (_ & mine & ? & ?). by exists mine.
  - intros m Hin. by destruct (check_mapping_ok _ _ _ (Hmapping m Hin)) as (_ & _ & ?).
Qed.

Lemma check_client_ok c mine : check_client Split read_secret RolePrivileged c = Ok mine →
  mine ≠ [] ∧ (∃ rest, client_connection Split read_secret c = Ok (mine, rest.1, rest.2)) ∧
  ∀ role, role ∈ roles_constant c → RolePrivileged role = false.
Proof.
  rw /check_client. intros ([[accepted id] confidential] & Hcon & Hr)%outcome_bind_ok.
  apply outcome_bind_ok in Hr as ([] & Hne%check_ok%negb_true_iff%bool_decide_eq_false & Hr).
  apply outcome_bind_ok in Hr as ([] & _ & Hr). apply outcome_bind_ok in Hr as ([] & _ & Hr).
  apply outcome_bind_ok in Hr as ([] & Hroles & Hr). apply outcome_bind_ok in Hr as ([] & _ & Hr).
  apply outcome_bind_ok in Hr as ([] & _ & [= <-]). split_and!; [done|by exists (id, confidential)|].
  intros role Hin. by apply (each_ok _ _ Hroles), check_ok, negb_true_iff in Hin.
Qed.

(** A settled client is the edited one, its secret's service found; it stands as it stood or is judged *)
Lemma settle_client_ok before c c' t : settle_client SecretService before c = Ok (c', t) →
  name c' = name c ∧ roles_constant c' = roles_constant c ∧
  (t = None ∧ c' = c ∧ (∃ old, Client before (name c) = Some old ∧ SameClient old c = true) ∨
   t = Some (touched_key "client" (name c))).
Proof.
  rw /settle_client. destruct (Client before (name c)) as [old|]; [destruct (SameClient old c) eqn:Hsame|].
  - intros [= <- <-]. split_and!; [done|done|]. left. split_and!; [done|done|]. by exists old.
  - intros (settled & Hs & [= <- <-])%outcome_bind_ok. destruct (is_empty (secret c)); [injection Hs as <-; auto|].
    apply outcome_bind_ok in Hs as (service & _ & [= <-]). auto.
  - intros (settled & Hs & [= <- <-])%outcome_bind_ok. destruct (is_empty (secret c)); [injection Hs as <-; auto|].
    apply outcome_bind_ok in Hs as (service & _ & [= <-]). auto.
Qed.

Lemma ci_mem_in k l : k ∈ l → ci_mem k l = true.
Proof. intros Hk. apply existsb_exists. exists k. split; [by apply list_elem_of_In|apply CIEquals_refl]. Qed.

(** C28: whatever an edit does, the model kept is well formed, and it gives no administration away.  In the kept
    model no two issuers and no two clients share a name in any case, every client names an issuer of it, every
    mapping names a client or an issuer of it; a mapping for a whole issuer that reaches a role which administers,
    and a client's constant that does, stood in the model before - an edit adds neither, however it is written. *)
Theorem kept_model_is_well_formed (edit : IdentityModel → outcome IdentityModel) (before model : IdentityModel) :
  EditIdentity Split SecretService read_secret RolePrivileged edit before = Ok model →
  well_formed model ∧
  (∀ m, m ∈ mappings model → scope_kind m = "issuer" → RolePrivileged (mrole m) = true →
     ∃ old, old ∈ mappings before ∧ same_mapping old m = true) ∧
  (∀ c role, c ∈ clients model → role ∈ roles_constant c → RolePrivileged role = true →
     ∃ old, Client before (name c) = Some old ∧ SameClient old c = true).
Proof.
  rw /EditIdentity. intros (edited & _ & Hr)%outcome_bind_ok. apply outcome_bind_ok in Hr as (is_ & _ & Hr).
  apply outcome_bind_ok in Hr as (cs & Hcs%omapM_ok & Hr).
  apply outcome_bind_ok in Hr as ([] & (Hwf & (accepted & _ & Hclients) & Hmappings)%ValidateIdentity_ok & [= <-]).
  simpl in *. split_and!; [done| |].
  - intros m Hin Hk Hp. specialize (Hmappings m Hin Hk Hp). destruct (touched_mapping before m) as [t|] eqn:Ht.
    + rw ci_mem_in in Hmappings; [|done]. apply elem_of_app. right. apply elem_of_app. right.
      apply list_elem_of_omap. exists m. split; [done|]. rw /touched_mapping in Ht |- *. by destruct (existsb _ _).
    + rw /touched_mapping in Ht. destruct (existsb _ _) eqn:He; [|done].
      apply existsb_exists in He as (old & ?%list_elem_of_In & ?). by exists old.
  - intros c role Hin Hrole Hp. destruct (Hclients c Hin) as (mine & _ & Hmine).
    apply list_elem_of_fmap in Hin as ([c' t] & -> & Hin). simpl in *.
    apply list_elem_of_lookup in Hin as [k Hk]. destruct (Forall2_lookup_r _ _ _ _ _ Hcs Hk) as (c0 & _ & Hs).
    apply settle_client_ok in Hs as (Hn & _ & [(_ & -> & Hold)| ->]); [done|].
    rw ci_mem_in in Hmine.
    + apply elem_of_app. right. apply elem_of_app. left. apply list_elem_of_omap. exists (c', Some (touched_key "client" (name c0))).
      split; [by eapply list_elem_of_lookup_2|]. by rw /= Hn.
    + apply check_client_ok in Hmine as (_ & _ & Hconst). by rw Hconst in Hp.
Qed.

(** *** What a checked model settles about tokens *)

Lemma stored_nothing : ParseStoredList Split EmptyString = Ok [].
Proof. by rw /ParseStoredList Trim_law. Qed.
(** What the check took for the client's audiences is what a token is judged by *)
Lemma connection_agrees c mine id confidential connection :
  client_connection Split read_secret c = Ok (mine, id, confidential) → ResolveClient Split read_secret c = Ok connection →
  mine ≠ [] → rc_audiences connection = mine.
Proof.
  rw /client_connection /ResolveClient. destruct (is_empty (secret c)); [by intros [= <- _ _] [= <-]|].
  destruct (read_secret _ _ _) as [[fields|]|]; [|done|done]. simpl.
  intros ([] & _ & Hr)%outcome_bind_ok. apply outcome_bind_ok in Hr as (accepted & Ha & Hr).
  apply outcome_bind_ok in Hr as ([] & _ & [= <- _ _]). intros (listed & Hl & Hc)%outcome_bind_ok Hne.
  destruct (_ || _); [done|]. injection Hc as <-. simpl.
  destruct (Field fields "audiences") as [|ch rest'] eqn:Hf; simpl in Ha.
  - rw stored_nothing in Hl. injection Hl as <-. by injection Ha as <-.
  - rw Hl in Ha. injection Ha as ->. by rw bool_decide_eq_false_2.
Qed.

Lemma Intersects_true a b : Intersects a b = true ↔ ∃ x, x ∈ a ∧ x ∈ b.
Proof.
  rw /Intersects existsb_exists. split.
  - intros (x & Hx%list_elem_of_In & (y & Hy%list_elem_of_In & ->%String.eqb_eq)%existsb_exists). by exists y.
  - intros (x & Hx & Hy). exists x. split; [by apply list_elem_of_In|]. apply existsb_exists. exists x.
    split; [by apply list_elem_of_In|apply String.eqb_refl].
Qed.

Lemma overlaps_ordered accepted l : check_overlaps None accepted l = Ok () →
  ∀ j k a b, j < k → l !! j = Some a → l !! k = Some b → overlapping None accepted a b = false.
Proof.
  induction l as [|x l IH]; intros Hl j k a b Hjk Ha Hb; [by rw lookup_nil in Ha|].
  apply outcome_bind_ok in Hl as ([] & Hx & Hl). destruct k as [|k]; [lia|]. destruct j as [|j].
  - injection Ha as ->. simpl in Hb. apply list_elem_of_lookup_2 in Hb. by apply (each_ok _ _ Hx b), check_ok, negb_true_iff in Hb.
  - by apply (IH Hl j k); [lia|done|done].
Qed.

Definition conditionless (c : IdentityClient) : Prop := conditions c = [].

(** One token accepted by two clients of an issuer, as specific as each other: they overlap *)
Lemma both_accept_overlap accepted i root token_type audience a b mine_a mine_b :
  ci_find (name a) accepted = Some mine_a → ci_find (name b) accepted = Some mine_b →
  check_client Split read_secret RolePrivileged a = Ok mine_a → check_client Split read_secret RolePrivileged b = Ok mine_b →
  conditionless a → conditionless b → accepts Split read_secret i root token_type a → accepts Split read_secret i root token_type b →
  Audiences root = [audience] → ClientSpecificity a = ClientSpecificity b →
  overlapping None accepted a b = true.
Proof.
  intros Hfa Hfb (Hna & ([id_a s_a] & Hca) & _)%check_client_ok (Hnb & ([id_b s_b] & Hcb) & _)%check_client_ok Ha Hb.
  intros (Hia & con_a & Hra & Haa) (Hib & con_b & Hrb & Hab) Haud Hspec. simpl in Hca, Hcb.
  pose proof (connection_agrees a mine_a _ _ con_a Hca Hra Hna) as Hma.
  pose proof (connection_agrees b mine_b _ _ con_b Hcb Hrb Hnb) as Hmb.
  assert (Hcase : ∀ c con, ClientAccepts Split c (rc_audiences con) root token_type = None → audience ∈ rc_audiences con ∧
    (azp c = [] ∨ AuthorizedParty root ∈ azp c)).
  { intros c con. rw /ClientAccepts. destruct (_ || _) eqn:Ho; [done|]. apply orb_false_iff in Ho as [_ Ho%negb_false_iff].
    apply Intersects_true in Ho as (x & Hx & Hin). rw Haud in Hx. apply list_elem_of_singleton in Hx as ->.
    destruct (negb (bool_decide (azp c = [])) && _) eqn:Hz; [done|]. intros _. split; [done|].
    apply andb_false_iff in Hz as [Hz%negb_false_iff%bool_decide_eq_true|Hz%negb_false_iff]; [by left|right].
    apply existsb_exists in Hz as (y & Hy%list_elem_of_In & ->%String.eqb_eq). done. }
  destruct (Hcase a con_a Haa) as [Hin_a Hza]. destruct (Hcase b con_b Hab) as [Hin_b Hzb].
  rw /overlapping Hfa Hfb /=. repeat (apply andb_true_iff; split).
  - by rw (CIEquals_trans _ _ _ Hia) CIEquals_sym.
  - by apply Z.eqb_eq.
  - done.
  - apply Intersects_true. exists audience. by rw -Hma -Hmb.
  - by apply bool_decide_eq_true.
  - by apply bool_decide_eq_true.
  - rw /ClientSpecificity (bool_decide_eq_true_2 _ Ha) (bool_decide_eq_true_2 _ Hb) /= in Hspec.
    destruct (bool_decide (azp a = [])) eqn:Hea, (bool_decide (azp b = [])) eqn:Heb; simpl in *; try done.
    + by destruct (implicit a).
    + by destruct (implicit b).
    + apply bool_decide_eq_false in Hea, Heb. apply Intersects_true. exists (AuthorizedParty root).
      split; [by destruct Hza|by destruct Hzb].
Qed.

(** a model that passed every check never leaves a token between two clients told apart by nothing but the
    token.  Of two clients of an issuer without conditions that both accept a token for one audience, one is more
    specific - so the token is never refused for a tie between them; it was the check of the model that refused. *)
Theorem checked_model_settles_tokens (model : IdentityModel) (i : IdentityIssuer) (root : TokenClaims)
    (token_type audience : string) (a b : IdentityClient) :
  ValidateIdentity Split read_secret RolePrivileged None model = Ok () →
  a ∈ clients model → b ∈ clients model → conditionless a → conditionless b →
  accepts Split read_secret i root token_type a → accepts Split read_secret i root token_type b →
  Audiences root = [audience] → ClientSpecificity a = ClientSpecificity b → a = b.
Proof.
  intros (_ & (accepted & Ho & Hc) & _)%ValidateIdentity_ok Hina Hinb Ha Hb Haa Hab Haud Hspec.
  destruct (Hc a Hina) as (mine_a & Hfa & Hma), (Hc b Hinb) as (mine_b & Hfb & Hmb). simpl in Hma, Hmb.
  pose proof (both_accept_overlap _ _ _ _ _ _ _ _ _ Hfa Hfb Hma Hmb Ha Hb Haa Hab Haud Hspec) as Hab'.
  pose proof (both_accept_overlap _ _ _ _ _ _ _ _ _ Hfb Hfa Hmb Hma Hb Ha Hab Haa Haud (eq_sym Hspec)) as Hba.
  apply list_elem_of_lookup in Hina as [j Hj], Hinb as [k Hk].
  destruct (Nat.lt_trichotomy j k) as [Hlt|[->|Hlt]].
  - by rw (overlaps_ordered _ _ Ho j k a b Hlt Hj Hk) in Hab'.
  - congruence.
  - by rw (overlaps_ordered _ _ Ho k j b a Hlt Hk Hj) in Hba.
Qed.
End model_laws.

(** ** Witnesses *)

Module Sample.
Import Token.Sample.
#[local] Existing Instance reference_string_util.
#[local] Existing Instance reference_string_util_laws.
(** No separator occurs in what the samples store *)
Definition whole (s : string) (_ : ascii) : list string := [s].
(** One secret: the issuer's, its keys pasted *)
Definition secrets (service named type : string) : outcome (option (list (string * string))) :=
  if String.eqb named "idp_keys" then Ok (Some [("keys", "keys"); ("algs", "HS256")]) else Ok None.
Definition service_of (given : string) : outcome string := Ok "vault".
Definition administers (role : string) : bool := String.eqb role "boss".
Definition known_roles (role : string) : bool := true.
Definition no_document (location issuer kid : string) (is_jwks : bool) : outcome string := Throw "unread".

Definition idp : IdentityIssuer :=
  {| i_name := "idp"; url := "https://idp"; i_secret_service := EmptyString; i_secret := "idp_keys" |}.
Definition app : IdentityClient :=
  {| name := "app"; issuer := "idp"; audiences := ["api"]; azp := []; conditions := []; roles_from := ["groups"];
     roles_constant := []; unmapped_as_role := true; attributes := []; subject := []; wanted_type := EmptyString;
     client_id := EmptyString; flows := []; secret_service := EmptyString; secret := EmptyString; implicit := false |}.
Definition small : IdentityModel := {| issuers := [idp]; clients := [app]; mappings := [] |}.
Definition none : IdentityModel := {| issuers := []; clients := []; mappings := [] |}.
Definition at_1050 : verify_at := {| clock_skew := 60; now := 1050; ignore_exp := false |}.

Definition seller : Principal :=
  {| PolicyTypes.issuer := "https://idp"; PolicyTypes.subject := EmptyString; roles := ["sellers"]; claims := [] |}.

Lemma roles_are_given_witness :
  c_roles (RolesFor whole known_roles administers small app (read_json "p===")) = ["sellers"] ∧
  ∃ own, given whole known_roles administers small app (read_json "p===") "sellers" own.
Proof.
  split; [vm_compute; reflexivity|].
  apply (roles_are_given whole known_roles administers small app (read_json "p===")).
  vm_compute. left.
Defined.

Lemma principal_is_earned_witness :
  VerifyJwtPrincipal whole secrets administers known_roles [] no_document small at_1050 "h.p.s" "https://idp" = Ok (seller, 1000%Z) ∧
  ∃ i, routes_to secrets "https://idp" (issuers small) i.
Proof.
  assert (Hv : VerifyJwtPrincipal whole secrets administers known_roles [] no_document small at_1050 "h.p.s" "https://idp"
    = Ok (seller, 1000%Z)) by (vm_compute; reflexivity).
  split; [exact Hv|].
  destruct (principal_is_earned whole secrets administers known_roles [] no_document small at_1050 _ _ _ _ Hv) as (i & _ & _ & _ & _ & _ & Hi & _).
  exists i. exact Hi.
Defined.

Lemma kept_model_is_well_formed_witness :
  EditIdentity whole service_of secrets administers (λ _, Ok small) none
    = Ok {| issuers := [{| i_name := "idp"; url := "https://idp"; i_secret_service := "vault"; i_secret := "idp_keys" |}];
            clients := [app]; mappings := [] |} ∧
  well_formed {| issuers := [{| i_name := "idp"; url := "https://idp"; i_secret_service := "vault"; i_secret := "idp_keys" |}];
                 clients := [app]; mappings := [] |}.
Proof.
  assert (He : EditIdentity whole service_of secrets administers (λ _, Ok small) none
    = Ok {| issuers := [{| i_name := "idp"; url := "https://idp"; i_secret_service := "vault"; i_secret := "idp_keys" |}];
            clients := [app]; mappings := [] |}) by (vm_compute; reflexivity).
  split; [exact He|].
  apply (kept_model_is_well_formed whole service_of secrets administers (λ _, Ok small) none _ He).
Defined.

(** The same client for one more party: no tie *)
Definition narrow : IdentityClient :=
  {| name := "narrow"; issuer := "idp"; audiences := ["api"]; azp := []; conditions := []; roles_from := ["groups"];
     roles_constant := []; unmapped_as_role := true; attributes := []; subject := []; wanted_type := EmptyString;
     client_id := EmptyString; flows := []; secret_service := EmptyString; secret := EmptyString; implicit := true |}.
Definition two : IdentityModel := {| issuers := [idp]; clients := [app; narrow]; mappings := [] |}.
Lemma checked_model_settles_tokens_witness :
  ValidateIdentity whole secrets administers None two = Ok () ∧
  (∀ b, b ∈ clients two → conditionless b → accepts whole secrets idp (read_json "p===") "at+jwt" b →
     ClientSpecificity b = 1%Z → app = b).
Proof.
  assert (Hv : ValidateIdentity whole secrets administers None two = Ok ()) by (vm_compute; reflexivity).
  split; [exact Hv|]. intros b Hb Hc Ha Hs.
  refine (checked_model_settles_tokens whole secrets administers two idp (read_json "p===") "at+jwt" "api" app b Hv _ Hb _ Hc _ Ha _ _).
  - left.
  - reflexivity.
  - split; [vm_compute; reflexivity|]. eexists. split; [reflexivity|]. vm_compute. reflexivity.
  - vm_compute. reflexivity.
  - rewrite Hs. reflexivity.
Defined.

(** A read, then the same within the interval *)
Definition asked : list event :=
  [Ask 1 100 300 0 "https:" "https://idp/keys" "idp" EmptyString false; Got 1 0 (inl "keys");
   Ask 2 150 300 0 "https:" "https://idp/keys" "idp" EmptyString false].
Lemma documents_are_fresh_witness :
  let a := {| s_locations := "https:"; s_location := "https://idp/keys"; s_now := 150; s_refresh := Some 300%Z;
              s_max_stale := 0; s_answer := Ok "keys" |} in
  a ∈ answers (history whole asked) ∧ JwksLocationAllowed whole "https:" "https://idp/keys" = None ∧
  ∃ l at_, CIEquals l "https://idp/keys" = true ∧ (l, at_, "keys") ∈ reads (history whole asked).
Proof.
  intros a. assert (Ha : a ∈ answers (history whole asked)) by (vm_compute; right; left).
  split; [exact Ha|].
  destruct (documents_are_fresh whole asked a "keys") as (Hl & _ & l & at_ & Hci & Hr & _).
  - repeat constructor.
  - exact Ha.
  - reflexivity.
  - split; [exact Hl|]. exists l, at_. split; [exact Hci|exact Hr].
Defined.

(** *** What the model of the cache shows *)

(** A dropped document comes back: a call whose failed read was in flight over the drop restores it when another
    call wrote the entry meanwhile - whose own read failed too *)
Definition dropped_between : list event :=
  let ask call t := Ask call t 300 3600 "https:" "https://idp/keys" "idp" EmptyString false in
  [ask 1 100%Z; Got 1 3600 (inl "revoked"); ask 2 500%Z; Dropped "idp"; ask 3 501%Z; Got 3 3600 (inr "unreachable");
   Got 2 3600 (inr "unreachable");
   ask 4 502%Z; Got 4 3600 (inr "unreachable")].
Lemma drop_is_undone :
  map s_answer (answers (history whole dropped_between)) !! 3 = Some (Ok "revoked").
Proof. vm_compute. reflexivity. Qed.
(** Alone, that call's failure would have left nothing to answer with *)
Lemma drop_alone_holds :
  let ask call t := Ask call t 300 3600 "https:" "https://idp/keys" "idp" EmptyString false in
  ∃ why, map s_answer (answers (history whole
    [ask 1 100%Z; Got 1 3600 (inl "revoked"); ask 2 500%Z; Dropped "idp"; Got 2 3600 (inr "unreachable")])) !! 1 = Some (Throw why).
Proof. eexists. vm_compute. reflexivity. Qed.

(** Two locations that differ in case only share one document *)
Lemma case_shares_documents :
  let ask call location := Ask call 100 300 0 "https:" location "idp" EmptyString false in
  map s_answer (answers (history whole [ask 1 "https://idp/tenantA"; Got 1 0 (inl "of A"); ask 2 "https://idp/TENANTa"]))
    = [Ok "of A"; Ok "of A"].
Proof. vm_compute. reflexivity. Qed.
End Sample.
