(* ===== verification/Tree.v ===== *)
(** * The syntax tree the rewriter walks

    duckdb's parsed statements are a submodule's; these are the node classes [acl_rewriter.cpp] tells apart, with the
    fields it reads or writes.  A node of any other class is an [Operation] - its class and the children duckdb's own
    iterator visits -, and fields the rewriter neither reads nor writes are left out. *)
From S2P Require Import Prelude.

(** [QualifiedName::Path()]: the qualifiers, an absent one empty, and the name last *)
Definition QualifiedName : Type := list string.
Definition Name (q : QualifiedName) : string := List.last q EmptyString.
Definition qualifiers (q : QualifiedName) : list string := removelast q.
(** Neither a catalog nor a schema *)
Definition unqualified (q : QualifiedName) : bool := forallb is_empty (qualifiers q).

(** A literal; [VOther]: of another type, by its text *)
Inductive Value := VNull | VText (s : string) | VInteger (z : Z) | VBoolean (b : bool) | VOther (type text : string).
#[export] Instance Value_eq_dec : EqDecision Value.
Proof. solve_decision. Defined.

Inductive OnConflictAction := CONFLICT_THROW | CONFLICT_NOTHING | CONFLICT_UPDATE | CONFLICT_REPLACE.
#[export] Instance OnConflictAction_eq_dec : EqDecision OnConflictAction.
Proof. solve_decision. Defined.
Inductive MergeActionType := MERGE_UPDATE | MERGE_DELETE | MERGE_INSERT | MERGE_DO_NOTHING | MERGE_ERROR.
#[export] Instance MergeActionType_eq_dec : EqDecision MergeActionType.
Proof. solve_decision. Defined.
Inductive MergeActionCondition := WHEN_MATCHED | WHEN_NOT_MATCHED_BY_TARGET | WHEN_NOT_MATCHED_BY_SOURCE.
#[export] Instance MergeActionCondition_eq_dec : EqDecision MergeActionCondition.
Proof. solve_decision. Defined.
Inductive ShowType := SHOW_DESCRIBE | SHOW_SUMMARY | SHOW_UNQUALIFIED | SHOW_FROM.
#[export] Instance ShowType_eq_dec : EqDecision ShowType.
Proof. solve_decision. Defined.

(** [SET <columns> = <expressions> WHERE <condition>] *)
Record UpdateSetInfo (E : Type) := { set_columns : list string; set_expressions : list E; set_condition : option E }.
Arguments set_columns {E}.
Arguments set_expressions {E}.
Arguments set_condition {E}.
Arguments Build_UpdateSetInfo {E}.
Record OnConflictInfo (E : Type) := {
  action_type : OnConflictAction;
  conflict_condition : option E;
  conflict_set : option (UpdateSetInfo E);
}.
Arguments action_type {E}.
Arguments conflict_condition {E}.
Arguments conflict_set {E}.
Arguments Build_OnConflictInfo {E}.
(** A branch of MERGE; [by_name]: [INSERT BY NAME] *)
Record MergeIntoAction (E : Type) := {
  merge_type : MergeActionType;
  merge_condition : option E;
  update_info : option (UpdateSetInfo E);
  insert_columns : list string;
  merge_expressions : list E;
  merge_default_values : bool;
  merge_by_name : bool;
}.
Arguments merge_type {E}.
Arguments merge_condition {E}.
Arguments update_info {E}.
Arguments insert_columns {E}.
Arguments merge_expressions {E}.
Arguments merge_default_values {E}.
Arguments merge_by_name {E}.
Arguments Build_MergeIntoAction {E}.
Record PivotColumn (E Q : Type) := {
  pivot_expressions : list E;
  pivot_entries : list (option E);
  pivot_subquery : option Q;
}.
Arguments pivot_expressions {E Q}.
Arguments pivot_entries {E Q}.
Arguments pivot_subquery {E Q}.
Arguments Build_PivotColumn {E Q}.

(** An expression carries its alias first, empty for none *)
Inductive Expr :=
  | ColumnRef (alias : string) (names : list string)
  | Constant (alias : string) (value : Value)
  (* [columns]: COLUMNS(); [inner]: what a COLUMNS() filters by *)
  | Star (alias relation : string) (columns : bool) (inner : option Expr) (excluded renamed : list string)
         (replaced : list (string * Expr))
  (* the arguments by the name each is given by, empty for none *)
  | Function (alias : string) (name : QualifiedName) (arguments : list (string * Expr)) (distinct : bool)
             (filter : option Expr) (order_by : list Expr)
  | Window (alias : string) (name : QualifiedName) (operands : list Expr)
  | Cast (alias : string) (child target : Expr)
  | TypeExpr (alias catalog schema name : string) (parameters : list Expr)
  | Subquery (alias kind : string) (child : option Expr) (body : option Query)
  | Lambda (alias : string) (lhs rhs : Expr)
  | Operation (alias kind : string) (operands : list Expr)
with TableRef :=
  | BaseTable (alias : string) (name : QualifiedName) (column_alias : list string) (at_clause : option Expr)
              (sample : option string)
  | SubqueryRef (alias : string) (column_alias : list string) (body : option Query) (sample : option string)
  | JoinRef (alias : string) (lhs rhs : TableRef) (condition ranking : option Expr) (duplicate_eliminated : list Expr)
  (* [bind_info]: the door's own stream is attached *)
  | TableFunction (alias : string) (column_alias : list string) (function : option Expr) (subquery : option Query)
                  (bind_info : bool)
  | ShowRef (alias : string) (show : ShowType) (name : QualifiedName) (body : option Query)
  | PivotRef (alias : string) (source : TableRef) (aggregates : list Expr) (pivots : list (PivotColumn Expr Query))
  | EmptyFrom
  | ExpressionList (alias : string) (values : list (list Expr))
  | OtherRef (alias : string)
(** A query carries its CTEs, by name, and its modifiers' expressions *)
with Query :=
  | SelectNode (ctes : list (string * option Query)) (modifiers : list Expr) (items : list Expr) (from : option TableRef)
               (where_clause having qualify : option Expr) (groups : list Expr)
  | SetOperation (ctes : list (string * option Query)) (modifiers : list Expr) (children : list Query)
  | CteNode (ctes : list (string * option Query)) (modifiers : list Expr) (query child : option Query)
  | RecursiveCte (ctes : list (string * option Query)) (modifiers : list Expr) (ctename : string) (lhs rhs : option Query)
  | InsertNode (ctes : list (string * option Query)) (modifiers : list Expr) (target : option TableRef)
               (target_name : QualifiedName) (columns : list string) (source : option Query)
               (conflict : option (OnConflictInfo Expr)) (default_values by_name : bool) (returning : list Expr)
  | UpdateNode (ctes : list (string * option Query)) (modifiers : list Expr) (target : option TableRef)
               (from : option TableRef) (set_info : option (UpdateSetInfo Expr)) (returning : list Expr)
  | DeleteNode (ctes : list (string * option Query)) (modifiers : list Expr) (target : option TableRef)
               (using_ : list TableRef) (condition : option Expr) (returning : list Expr)
  | MergeNode (ctes : list (string * option Query)) (modifiers : list Expr) (target : option TableRef)
              (source : option TableRef) (join_condition : option Expr)
              (actions : list (MergeActionCondition * list (MergeIntoAction Expr))) (returning : list Expr)
  | OtherNode (ctes : list (string * option Query)) (modifiers : list Expr).

(** The kinds of [Operation] the rewriter reads or makes *)
Definition CONJUNCTION_AND : string := "CONJUNCTION_AND".
Definition COMPARE_EQUAL : string := "COMPARE_EQUAL".
Definition COMPARE_IN : string := "COMPARE_IN".
Definition SCALAR_SUBQUERY : string := "SCALAR".

(** ** Looking at a node *)

Definition expr_alias (e : Expr) : string :=
  match e with
  | ColumnRef a _ | Constant a _ | Star a _ _ _ _ _ _ | Function a _ _ _ _ _ | Window a _ _ | Cast a _ _
  | TypeExpr a _ _ _ _ | Subquery a _ _ _ | Lambda a _ _ | Operation a _ _ => a
  end.
Definition set_alias (a : string) (e : Expr) : Expr :=
  match e with
  | ColumnRef _ n => ColumnRef a n
  | Constant _ v => Constant a v
  | Star _ r c i x n p => Star a r c i x n p
  | Function _ n l d f o => Function a n l d f o
  | Window _ n l => Window a n l
  | Cast _ c t => Cast a c t
  | TypeExpr _ c s n l => TypeExpr a c s n l
  | Subquery _ k c b => Subquery a k c b
  | Lambda _ l r => Lambda a l r
  | Operation _ k l => Operation a k l
  end.

(** The children duckdb's [ParsedExpressionIterator::EnumerateChildren] visits: a subquery's body and a cast's type
    are not among them *)
Definition over_children {A} (f : Expr → A) (e : Expr) : list A :=
  match e with
  | ColumnRef _ _ | Constant _ _ => []
  | Star _ _ _ inner _ _ replaced => option_list (f <$> inner) ++ map (λ r, f r.2) replaced
  | Function _ _ arguments _ filter order_by =>
      map (λ a, f a.2) arguments ++ option_list (f <$> filter) ++ map f order_by
  | Window _ _ operands | Operation _ _ operands => map f operands
  | Cast _ child _ => [f child]
  | TypeExpr _ _ _ _ parameters => map f parameters
  | Subquery _ _ child _ => option_list (f <$> child)
  | Lambda _ lhs rhs => [f lhs; f rhs]
  end.
Definition children : Expr → list Expr := over_children id.
(** Each child replaced *)
Definition map_children (f : Expr → Expr) (e : Expr) : Expr :=
  match e with
  | ColumnRef _ _ | Constant _ _ => e
  | Star a r c inner x n replaced => Star a r c (f <$> inner) x n (map (λ p, (p.1, f p.2)) replaced)
  | Function a n arguments d filter order_by =>
      Function a n (map (λ p, (p.1, f p.2)) arguments) d (f <$> filter) (map f order_by)
  | Window a n operands => Window a n (map f operands)
  | Cast a child target => Cast a (f child) target
  | TypeExpr a c s n parameters => TypeExpr a c s n (map f parameters)
  | Subquery a k child body => Subquery a k (f <$> child) body
  | Lambda a lhs rhs => Lambda a (f lhs) (f rhs)
  | Operation a k operands => Operation a k (map f operands)
  end.

Definition tref_alias (r : TableRef) : string :=
  match r with
  | BaseTable a _ _ _ _ | SubqueryRef a _ _ _ | JoinRef a _ _ _ _ _ | TableFunction a _ _ _ _ | ShowRef a _ _ _
  | PivotRef a _ _ _ | ExpressionList a _ | OtherRef a => a
  | EmptyFrom => EmptyString
  end.
Definition set_tref_alias (a : string) (r : TableRef) : TableRef :=
  match r with
  | BaseTable _ n c t s => BaseTable a n c t s
  | SubqueryRef _ c b s => SubqueryRef a c b s
  | JoinRef _ l r c k d => JoinRef a l r c k d
  | TableFunction _ c f s b => TableFunction a c f s b
  | ShowRef _ s n b => ShowRef a s n b
  | PivotRef _ s l p => PivotRef a s l p
  | EmptyFrom => EmptyFrom
  | ExpressionList _ v => ExpressionList a v
  | OtherRef _ => OtherRef a
  end.

Definition node_ctes (q : Query) : list (string * option Query) :=
  match q with
  | SelectNode c _ _ _ _ _ _ _ | SetOperation c _ _ | CteNode c _ _ _ | RecursiveCte c _ _ _ _ | InsertNode c _ _ _ _ _ _ _ _ _
  | UpdateNode c _ _ _ _ _ | DeleteNode c _ _ _ _ _ | MergeNode c _ _ _ _ _ _ | OtherNode c _ => c
  end.
Definition node_modifiers (q : Query) : list Expr :=
  match q with
  | SelectNode _ m _ _ _ _ _ _ | SetOperation _ m _ | CteNode _ m _ _ | RecursiveCte _ m _ _ _ | InsertNode _ m _ _ _ _ _ _ _ _
  | UpdateNode _ m _ _ _ _ | DeleteNode _ m _ _ _ _ | MergeNode _ m _ _ _ _ _ | OtherNode _ m => m
  end.
Definition with_heads (c : list (string * option Query)) (m : list Expr) (q : Query) : Query :=
  match q with
  | SelectNode _ _ i f w h y g => SelectNode c m i f w h y g
  | SetOperation _ _ l => SetOperation c m l
  | CteNode _ _ x y => CteNode c m x y
  | RecursiveCte _ _ n l r => RecursiveCte c m n l r
  | InsertNode _ _ t n l s o d b r => InsertNode c m t n l s o d b r
  | UpdateNode _ _ t f s r => UpdateNode c m t f s r
  | DeleteNode _ _ t u x r => DeleteNode c m t u x r
  | MergeNode _ _ t s j a r => MergeNode c m t s j a r
  | OtherNode _ _ => OtherNode c m
  end.

(** A bare [SELECT <items> FROM <ref>], a bare subquery reference *)
Definition select_from (items : list Expr) (from : TableRef) : Query := SelectNode [] [] items (Some from) None None None [].
Definition star_all : Expr := Star EmptyString EmptyString false None [] [] [].
Definition plain_call (name : string) (arguments : list Expr) : Expr :=
  Function EmptyString [name] (map (λ e, (EmptyString, e)) arguments) false None [].

(** ** Walking a node in a monad *)

Section walk.
Context {M : Type → Type} `{MRet M, MBind M}.

Definition for_opt {A B} (f : A → M B) (x : option A) : M (option B) :=
  match x with None => mret None | Some x => y ← f x; mret (Some y) end.
Definition for_snd {K A B} (f : A → M B) (x : K * A) : M (K * B) := y ← f x.2; mret (x.1, y).

(** Each child in the iterator's order, put back *)
Definition each_child (f : Expr → M Expr) (e : Expr) : M Expr :=
  match e with
  | ColumnRef _ _ | Constant _ _ => mret e
  | Star a r c inner x n replaced =>
      inner ← for_opt f inner; replaced ← mapM (for_snd f) replaced; mret (Star a r c inner x n replaced)
  | Function a n arguments d filter order_by =>
      arguments ← mapM (for_snd f) arguments; filter ← for_opt f filter; order_by ← mapM f order_by;
      mret (Function a n arguments d filter order_by)
  | Window a n operands => operands ← mapM f operands; mret (Window a n operands)
  | Cast a child target => child ← f child; mret (Cast a child target)
  | TypeExpr a c s n parameters => parameters ← mapM f parameters; mret (TypeExpr a c s n parameters)
  | Subquery a k child body => child ← for_opt f child; mret (Subquery a k child body)
  | Lambda a lhs rhs => lhs ← f lhs; rhs ← f rhs; mret (Lambda a lhs rhs)
  | Operation a k operands => operands ← mapM f operands; mret (Operation a k operands)
  end.
End walk.

(** ** How deep a tree is: the turns a walk takes *)

Definition deepest (l : list nat) : nat := fold_right Nat.max 0 l.
Definition opt_depth {A} (f : A → nat) (x : option A) : nat := match x with None => 0 | Some x => f x end.
Definition set_depth {E} (f : E → nat) (s : UpdateSetInfo E) : nat :=
  deepest (map f (set_expressions s)) `max` opt_depth f (set_condition s).
Definition conflict_depth {E} (f : E → nat) (c : OnConflictInfo E) : nat :=
  opt_depth f (conflict_condition c) `max` opt_depth (set_depth f) (conflict_set c).
Definition action_depth {E} (f : E → nat) (a : MergeIntoAction E) : nat :=
  opt_depth f (merge_condition a) `max` opt_depth (set_depth f) (update_info a) `max` deepest (map f (merge_expressions a)).
Definition pivot_depth {E Q} (f : E → nat) (g : Q → nat) (p : PivotColumn E Q) : nat :=
  deepest (map f (pivot_expressions p)) `max` deepest (map (opt_depth f) (pivot_entries p)) `max` opt_depth g (pivot_subquery p).

(** A call may become one over the column its qualifiers name, [DESCRIBE <name>] a query of it: room for both *)
Fixpoint depth (e : Expr) : nat :=
  match e with
  | ColumnRef _ _ | Constant _ _ => 1
  | Star _ _ _ inner _ _ replaced => S (opt_depth depth inner `max` deepest (map (λ r, depth r.2) replaced))
  | Function _ _ arguments _ filter order_by =>
      S (S (deepest (map (λ a, depth a.2) arguments) `max` opt_depth depth filter `max` deepest (map depth order_by)))
  | Window _ _ operands | Operation _ _ operands => S (deepest (map depth operands))
  | Cast _ child target => S (depth child `max` depth target)
  | TypeExpr _ _ _ _ parameters => S (deepest (map depth parameters))
  | Subquery _ _ child body => S (opt_depth depth child `max` opt_depth query_depth body)
  | Lambda _ lhs rhs => S (depth lhs `max` depth rhs)
  end
with tref_depth (r : TableRef) : nat :=
  match r with
  | BaseTable _ _ _ at_clause _ => S (opt_depth depth at_clause)
  | SubqueryRef _ _ body _ => S (opt_depth query_depth body)
  | JoinRef _ lhs rhs condition ranking _ =>
      S (tref_depth lhs `max` tref_depth rhs `max` opt_depth depth condition `max` opt_depth depth ranking)
  | TableFunction _ _ function subquery _ => S (S (opt_depth depth function `max` opt_depth query_depth subquery))
  | ShowRef _ _ _ body => S (S (S (S (opt_depth query_depth body))))
  | PivotRef _ source aggregates pivots =>
      S (tref_depth source `max` deepest (map depth aggregates) `max` deepest (map (pivot_depth depth query_depth) pivots))
  | EmptyFrom | OtherRef _ => 1
  | ExpressionList _ values => S (deepest (map (λ row, deepest (map depth row)) values))
  end
with query_depth (q : Query) : nat :=
  match q with
  | SelectNode ctes modifiers items from where_clause having qualify groups =>
      S (deepest (map (λ c, opt_depth query_depth c.2) ctes) `max` deepest (map depth modifiers)
         `max` deepest (map depth items) `max` opt_depth tref_depth from `max` opt_depth depth where_clause
         `max` opt_depth depth having `max` opt_depth depth qualify `max` deepest (map depth groups))
  | SetOperation ctes modifiers children =>
      S (deepest (map (λ c, opt_depth query_depth c.2) ctes) `max` deepest (map depth modifiers)
         `max` deepest (map query_depth children))
  | CteNode ctes modifiers query child =>
      S (deepest (map (λ c, opt_depth query_depth c.2) ctes) `max` deepest (map depth modifiers)
         `max` opt_depth query_depth query `max` opt_depth query_depth child)
  | RecursiveCte ctes modifiers _ lhs rhs =>
      S (deepest (map (λ c, opt_depth query_depth c.2) ctes) `max` deepest (map depth modifiers)
         `max` opt_depth query_depth lhs `max` opt_depth query_depth rhs)
  | InsertNode ctes modifiers target _ _ source conflict _ _ returning =>
      S (deepest (map (λ c, opt_depth query_depth c.2) ctes) `max` deepest (map depth modifiers)
         `max` opt_depth query_depth source `max` opt_depth (conflict_depth depth) conflict
         `max` deepest (map depth returning))
  | UpdateNode ctes modifiers target from set_info returning =>
      S (deepest (map (λ c, opt_depth query_depth c.2) ctes) `max` deepest (map depth modifiers)
         `max` opt_depth tref_depth from `max` opt_depth (set_depth depth) set_info `max` deepest (map depth returning))
  | DeleteNode ctes modifiers target using_ condition returning =>
      S (deepest (map (λ c, opt_depth query_depth c.2) ctes) `max` deepest (map depth modifiers)
         `max` deepest (map tref_depth using_) `max` opt_depth depth condition `max` deepest (map depth returning))
  | MergeNode ctes modifiers target source join_condition actions returning =>
      S (deepest (map (λ c, opt_depth query_depth c.2) ctes) `max` deepest (map depth modifiers)
         `max` opt_depth tref_depth source `max` opt_depth depth join_condition
         `max` deepest (map (λ a, deepest (map (action_depth depth) a.2)) actions) `max` deepest (map depth returning))
  | OtherNode ctes modifiers =>
      S (deepest (map (λ c, opt_depth query_depth c.2) ctes) `max` deepest (map depth modifiers))
  end.

(** ** Statements *)

Inductive OnCreateConflict := ERROR_ON_CONFLICT | IGNORE_ON_CONFLICT | REPLACE_ON_CONFLICT | ALTER_ON_CONFLICT.
#[export] Instance OnCreateConflict_eq_dec : EqDecision OnCreateConflict.
Proof. solve_decision. Defined.
Inductive SecretPersistType := PERSIST_DEFAULT | TEMPORARY | PERSISTENT | TRANSACTION.
#[export] Instance SecretPersistType_eq_dec : EqDecision SecretPersistType.
Proof. solve_decision. Defined.
Inductive SetScope := AUTOMATIC | LOCAL | SESSION | GLOBAL | VARIABLE.
#[export] Instance SetScope_eq_dec : EqDecision SetScope.
Proof. solve_decision. Defined.

(** What every CREATE carries *)
Record CreateInfo := { create_name : QualifiedName; temporary : bool; on_conflict : OnCreateConflict }.
(** [column_type]: the expression of a type not bound yet, absent for a bound one *)
Record ColumnDefinition := { column_type : option Expr; default_value : option Expr; generated : option Expr }.
(** [CHECK (<expression>)]; the others carry none *)
Inductive Constraint := CHECK (expression : Expr) | OtherConstraint.
Record CreateSecretInfo := {
  secret_name : string;
  storage_type : string;
  persist_type : SecretPersistType;
  secret_type : option Expr;
  secret_provider : option Expr;
  secret_scope : option Expr;
  secret_options : list (string * Expr);
}.
Inductive CreateForm :=
  | CreateTable (info : CreateInfo) (columns : list ColumnDefinition) (constraints : list Constraint) (body : option Query)
  | CreateView (info : CreateInfo) (body : option Query)
  | CreateSecret (info : CreateSecretInfo)
  | CreateSchema (info : CreateInfo)
  (* [body]: the SELECT an enum's labels are read by *)
  | CreateType (info : CreateInfo) (body : option Query)
  | CreateOther.
Inductive DropForm := DROP_TABLE | DROP_VIEW | DROP_SECRET | DROP_OTHER.
#[export] Instance DropForm_eq_dec : EqDecision DropForm.
Proof. solve_decision. Defined.
(** [drop_secret]: the storage and the persistence a DROP SECRET names *)
Record DropInfo := {
  drop_form : DropForm;
  drop_name : QualifiedName;
  cascade : bool;
  drop_secret : option (string * SecretPersistType);
}.
Inductive AlterForm := RENAME_TABLE (new_name : string) | RENAME_VIEW (new_name : string) | ALTER_OTHER.
Record AlterInfo := { alter_form : AlterForm; alter_name : QualifiedName }.
(** SET with the value it gives, absent for none; RESET *)
Inductive SetType := SET (value : option Expr) | RESET.

(** A statement carries the text it was parsed from *)
Inductive SQLStatement :=
  | SelectStatement (text : string) (node : Query)
  | InsertStatement (text : string) (node : Query)
  | UpdateStatement (text : string) (node : Query)
  | DeleteStatement (text : string) (node : Query)
  | MergeIntoStatement (text : string) (node : Query)
  | ExplainStatement (text : string) (explained : SQLStatement)
  | CreateStatement (text : string) (form : option CreateForm)
  | DropStatement (text : string) (info : option DropInfo)
  | AlterStatement (text : string) (info : option AlterInfo)
  | PragmaStatement (text name : string) (parameters : list Expr)
  | SetStatement (text name : string) (scope : SetScope) (set_type : SetType)
  | TransactionStatement (text : string)
  | MultiStatement (text : string) (statements : list SQLStatement)
  | CallStatement (text : string) (function : option Expr)
  | OtherStatement (text type : string).

Definition statement_text (s : SQLStatement) : string :=
  match s with
  | SelectStatement t _ | InsertStatement t _ | UpdateStatement t _ | DeleteStatement t _ | MergeIntoStatement t _
  | ExplainStatement t _ | CreateStatement t _ | DropStatement t _ | AlterStatement t _ | PragmaStatement t _ _
  | SetStatement t _ _ _ | TransactionStatement t | MultiStatement t _ | CallStatement t _ | OtherStatement t _ => t
  end.
Definition with_text (t : string) (s : SQLStatement) : SQLStatement :=
  match s with
  | SelectStatement _ x => SelectStatement t x
  | InsertStatement _ x => InsertStatement t x
  | UpdateStatement _ x => UpdateStatement t x
  | DeleteStatement _ x => DeleteStatement t x
  | MergeIntoStatement _ x => MergeIntoStatement t x
  | ExplainStatement _ x => ExplainStatement t x
  | CreateStatement _ x => CreateStatement t x
  | DropStatement _ x => DropStatement t x
  | AlterStatement _ x => AlterStatement t x
  | PragmaStatement _ n x => PragmaStatement t n x
  | SetStatement _ n s x => SetStatement t n s x
  | TransactionStatement _ => TransactionStatement t
  | MultiStatement _ x => MultiStatement t x
  | CallStatement _ x => CallStatement t x
  | OtherStatement _ x => OtherStatement t x
  end.
(** EXPLAIN and the parts of a MULTI nest *)
Fixpoint statement_depth (s : SQLStatement) : nat :=
  match s with
  | ExplainStatement _ s => S (statement_depth s)
  | MultiStatement _ l => S (deepest (map statement_depth l))
  | _ => 1
  end.
