(* ===== verification/RewriteData.v ===== *)
(** * What the statement rewriter works on: reasons, policies, its state and its neighbours

    The names and the small text functions of [acl_rewriter.cpp], the policy of a relation as the store answers it
    ([acl_policy.hpp]), the rewriter's state as a record threaded by a monad whose failures are the exceptions, and the
    interfaces the rewriter asks: the policy store, duckdb's parser. *)
From stdpp Require Import pretty.
From S2P Require Import Prelude NamePath FieldPaths FunctionCategories PolicyTypes SessionCodec AdminRights Platform Tree.

(** ** Reasons *)

Inductive Reason :=
  | NO_ACCESS | CAPABILITY | READ_ONLY | FUNCTION_DENIED | STATEMENT_TYPE | UNCHECKED_PREDICATE | SETTING_DENIED | PARSE
  | PRINCIPAL | MGMT_UNAUTHORIZED | DDL_HOME | DRAINING | AT_CAPACITY | WRONG_RESOURCE_GROUP | TYPE_DENIED
  | SOURCE_ERROR | UNAVAILABLE | WRITE_POLICY | POLICY_ERROR.
#[export] Instance Reason_eq_dec : EqDecision Reason.
Proof. solve_decision. Defined.

Definition ReasonCode (reason : Reason) : string :=
  match reason with
  | NO_ACCESS => "no_access"
  | CAPABILITY => "capability"
  | READ_ONLY => "read_only"
  | FUNCTION_DENIED => "function_denied"
  | STATEMENT_TYPE => "statement_type"
  | UNCHECKED_PREDICATE => "unchecked_predicate"
  | SETTING_DENIED => "setting_denied"
  | PARSE => "parse"
  | PRINCIPAL => "principal"
  | MGMT_UNAUTHORIZED => "mgmt_unauthorized"
  | DDL_HOME => "ddl_home"
  | DRAINING => "draining"
  | AT_CAPACITY => "at_capacity"
  | WRONG_RESOURCE_GROUP => "wrong_resource_group"
  | TYPE_DENIED => "type_denied"
  | SOURCE_ERROR => "source_error"
  | UNAVAILABLE => "unavailable"
  | WRITE_POLICY => "write_policy"
  | POLICY_ERROR => "policy_error"
  end.
(** The thread's buffer, 31 bytes and a NUL *)
Definition noted (reason : Reason) : string := String.substring 0 31 (ReasonCode reason).

(** ** Text *)

Section text.
Context `{SU : StringUtil}.

(** A key in a message *)
Definition Shown (key : string) : string := if contains_char dquote key then key else quoted key.
Definition VirtualKey (name : QualifiedName) : string := ToKey (FromQualified name).
(** The written parts of a name *)
Definition NameParts (name : QualifiedName) : list string := FromQualified name.
Definition BareName (name : QualifiedName) : bool := (length (NameParts name) =? 1)%nat.
Definition TempQualified (name : QualifiedName) : bool :=
  match NameParts name with
  | first :: _ :: _ => CIEquals first "temp"
  | _ => false
  end.
(** The private temp catalog's form of a bare name *)
Definition TempName (name : string) : QualifiedName := ["temp"; "main"; name].

Definition KEYWORDS : list string :=
  ["current_date"; "current_time"; "current_timestamp"; "localtime"; "localtimestamp"; "current_user"; "user";
   "session_user"; "current_role"; "current_catalog"; "current_schema"].
Definition IsValueKeyword (name : string) : bool := ci_mem name KEYWORDS.

Definition SURFACES : list (string * string) :=
  [("information_schema.tables", "tables"); ("information_schema.columns", "columns");
   ("information_schema.schemata", "schemata"); ("duckdb_tables", "duckdb_tables"); ("duckdb_views", "duckdb_views");
   ("duckdb_columns", "duckdb_columns"); ("duckdb_schemas", "duckdb_schemas"); ("duckdb_databases", "databases");
   ("duckdb_functions", "duckdb_functions"); ("duckdb_types", "duckdb_types")].
Definition MetadataSurfaceOf (name : string) : option string := ci_find name SURFACES.
Definition is_surface (name : string) : bool := bool_decide (is_Some (MetadataSurfaceOf name)).

(** [SplitTopLevel]: [quote] is the quote the text is inside of, a doubled one escaped *)
Fixpoint split_top (delimiter : ascii) (quote : option ascii) (depth : nat) (current text : string) : list string :=
  match text with
  | EmptyString => [current]
  | String c rest =>
      let more := current +:+ str1 c in
      match quote with
      | Some q =>
          if Ascii.eqb c q then
            match rest with
            | String c' rest' =>
                if Ascii.eqb c' q then split_top delimiter (Some q) depth (more +:+ str1 c') rest'
                else split_top delimiter None depth more rest
            | EmptyString => [more]
            end
          else split_top delimiter (Some q) depth more rest
      | None =>
          if Ascii.eqb c squote || Ascii.eqb c dquote then split_top delimiter (Some c) depth more rest
          else if Ascii.eqb c "(" then split_top delimiter None (S depth) more rest
          else if Ascii.eqb c ")" && (0 <? depth)%nat then split_top delimiter None (pred depth) more rest
          else if Ascii.eqb c delimiter && (depth =? 0)%nat then
            current :: split_top delimiter None depth EmptyString rest
          else split_top delimiter None depth more rest
      end
  end.
Definition SplitTopLevel (text : string) (delimiter : ascii) : list string :=
  map Trim (split_top delimiter None 0 EmptyString text).

(** The text before and after the first [=] *)
Fixpoint split_assignment (text : string) : option (string * string) :=
  match text with
  | EmptyString => None
  | String c rest =>
      if Ascii.eqb c "=" then Some (EmptyString, rest)
      else match split_assignment rest with
           | Some (name, value) => Some (String c name, value)
           | None => None
           end
  end.
Definition ParseColumnList (csv : string) : list (string * string) :=
  map (λ part, match split_assignment part with
               | None => (part, EmptyString)
               | Some (name, value) => (Trim name, Trim value)
               end)
    (List.filter (λ part, negb (is_empty part)) (SplitTopLevel csv ",")).

Definition KeyFoldSql (expr : string) : string :=
  "translate(" +:+ expr +:+ ", 'ABCDEFGHIJKLMNOPQRSTUVWXYZ', 'abcdefghijklmnopqrstuvwxyz')".
Definition KeyEqSql (a b : string) : string := KeyFoldSql a +:+ " = " +:+ KeyFoldSql b.
(** A single-quoted literal, a double-quoted identifier *)
Definition SqlLiteral (text : string) : string := sq +:+ Replace text sq (sq +:+ sq) +:+ sq.
Definition SqlIdentifier (text : string) : string := dq +:+ Replace text dq (dq +:+ dq) +:+ dq.
(** A name a listing argument gives, as its key; what is no key, as it is *)
Definition ObjectKey (text : string) : string := match TryFromKey text with inr path => ToKey path | inl _ => text end.

Definition AuthorOf (principal : Principal) : string :=
  if is_empty (subject principal) then join "," (roles principal)
  else issuer principal +:+ "|" +:+ subject principal.

Definition ClientSettingAllowed (name : string) : bool := bool_decide (is_Some (PortableSetting name)).
Definition LineageClientSetting (name : string) : bool :=
  CIEquals name "acl_lineage_parent" || CIEquals name "acl_lineage_root_parent" || CIEquals name "acl_lineage_job".

(** What is before and after the last [c] *)
Fixpoint split_last (c : ascii) (text : string) : option (string * string) :=
  match text with
  | EmptyString => None
  | String d rest =>
      match split_last c rest with
      | Some (before, after) => Some (String d before, after)
      | None => if Ascii.eqb c d then Some (EmptyString, rest) else None
      end
  end.

(** The identifiers of [a.b], [<quoted>.c] *)
Fixpoint split_path (quoted : bool) (current text : string) : list string :=
  match text with
  | EmptyString => [current]
  | String c rest =>
      if quoted then
        if Ascii.eqb c dquote then
          match rest with
          | String c' rest' =>
              if Ascii.eqb c' dquote then split_path true (current +:+ dq) rest' else split_path false current rest
          | EmptyString => [current]
          end
        else split_path true (current +:+ str1 c) rest
      else if Ascii.eqb c dquote then split_path true current rest
      else if Ascii.eqb c dot then current :: split_path false EmptyString rest
      else split_path false (current +:+ str1 c) rest
  end.
Definition SplitIdentifierPath (text : string) : list string := split_path false EmptyString text.
End text.

(** [Value::ToString] *)
Definition value_text (v : Value) : string :=
  match v with
  | VNull => "NULL"
  | VText s => s
  | VInteger z => pretty z
  | VBoolean b => if b then "true" else "false"
  | VOther _ text => text
  end.

(** ** Policies *)

(** [TablePolicy]: what a name resolved to under a principal.  A column set is case-insensitive; a pair's first part is
    a column, the second the expression, type or list the policy gives it. *)
Record TablePolicy := {
  subquery_form : bool;
  phys : string;
  canonical : string;
  projection : list string;
  rls : string;
  rls_unchecked : bool;
  query : string;
  is_view : bool;
  wrap_sql : string;
  caps : list string;
  renames : list (string * string);
  writable : bool;
  from_schema_alias : bool;
  returning_refused : string;
  capability_rows_read : bool;
  injections : list (string * string);
  write_columns : list string;
  write_order : list string;
  visible_columns : list string;
  narrowed_reads : list (string * string);
  field_writes : list (string * string);
  casts : list (string * string);
  granted_items : list (string * string);
}.
(** [TablePolicy()] *)
Definition no_policy : TablePolicy := {|
  subquery_form := true; phys := EmptyString; canonical := EmptyString; projection := []; rls := EmptyString;
  rls_unchecked := false; query := EmptyString; is_view := false; wrap_sql := EmptyString; caps := []; renames := [];
  writable := false; from_schema_alias := false; returning_refused := EmptyString; capability_rows_read := true;
  injections := []; write_columns := []; write_order := []; visible_columns := []; narrowed_reads := [];
  field_writes := []; casts := []; granted_items := [] |}.
(** What its RETURNING is refused with; what its own conditions may read *)
Definition refusing (why : string) (p : TablePolicy) : TablePolicy := {|
  subquery_form := subquery_form p; phys := phys p; canonical := canonical p; projection := projection p; rls := rls p;
  rls_unchecked := rls_unchecked p; query := query p; is_view := is_view p; wrap_sql := wrap_sql p; caps := caps p;
  renames := renames p; writable := writable p; from_schema_alias := from_schema_alias p; returning_refused := why;
  capability_rows_read := capability_rows_read p; injections := injections p; write_columns := write_columns p;
  write_order := write_order p; visible_columns := visible_columns p; narrowed_reads := narrowed_reads p;
  field_writes := field_writes p; casts := casts p; granted_items := granted_items p |}.
Definition reading_only (columns : list string) (p : TablePolicy) : TablePolicy := {|
  subquery_form := subquery_form p; phys := phys p; canonical := canonical p; projection := projection p; rls := rls p;
  rls_unchecked := rls_unchecked p; query := query p; is_view := is_view p; wrap_sql := wrap_sql p; caps := caps p;
  renames := renames p; writable := writable p; from_schema_alias := from_schema_alias p;
  returning_refused := returning_refused p; capability_rows_read := capability_rows_read p; injections := [];
  write_columns := write_columns p; write_order := write_order p; visible_columns := columns; narrowed_reads := [];
  field_writes := field_writes p; casts := casts p; granted_items := granted_items p |}.

Definition empty_list {A} (l : list A) : bool := match l with [] => true | _ => false end.

Section policies.
Context `{SU : StringUtil}.
Definition holds_cap (p : TablePolicy) (capability : string) : bool := ci_mem capability (caps p).
(** The value of a column in a list of pairs, the first of its name *)
Definition column_in (name : string) (pairs : list (string * string)) : option (string * string) :=
  List.find (λ pair, CIEquals pair.1 name) pairs.
Definition in_columns (name : string) (pairs : list (string * string)) : bool :=
  existsb (λ pair, CIEquals pair.1 name) pairs.
Definition in_names (name : string) (names : list string) : bool := existsb (λ n, CIEquals n name) names.

(** The name the principal knows a physical column by *)
Definition VirtualColumn (policy : TablePolicy) (physical : string) : string :=
  match List.find (λ rename, CIEquals rename.2 physical) (renames policy) with
  | Some rename => rename.1
  | None => physical
  end.
Definition RenameItems (policy : TablePolicy) : list string :=
  map (λ rename, rename.2 +:+ " AS " +:+ rename.1) (renames policy).
Definition CastItems (casts : list (string * string)) : string :=
  "* REPLACE (" +:+
  join ", " (map (λ cast, "CAST(" +:+ SqlIdentifier cast.1 +:+ " AS " +:+ cast.2 +:+ ") AS " +:+ SqlIdentifier cast.1)
               casts) +:+ ")".
Definition HasWritePolicy (policy : TablePolicy) : bool :=
  negb (empty_list (injections policy)) || negb (empty_list (write_columns policy)) || negb (is_empty (rls policy))
  || negb (empty_list (field_writes policy)).
End policies.

(** [DdlTarget]: where a principal's DDL lands *)
Record DdlTarget := {
  vcat : string;
  vname : string;
  schema_path : string;
  phys_schema : string;
  needs_record : bool;
  virtual_only : bool;
  origin : string;
}.

(** [ListingScope]: what a metadata query asks about, each list folded, empty for not narrowed *)
Record ListingScope := {
  scope_catalogs : list string;
  scope_schemas : list string;
  scope_tables : list string;
  scope_objects : list string;
}.
Definition no_scope : ListingScope :=
  {| scope_catalogs := []; scope_schemas := []; scope_tables := []; scope_objects := [] |}.
Definition scope_empty (s : ListingScope) : bool :=
  empty_list (scope_catalogs s) && empty_list (scope_schemas s) && empty_list (scope_tables s)
  && empty_list (scope_objects s).

(** The principal's side of a batch: who it is, its session and what the door marked its connection with *)
Record client := {
  who : Principal;
  session : string;
  session_connection : bool;
  ingest_stream : string;
  arrow_ingest : bool;
}.
Definition as_role (role : string) (p : Principal) : Principal :=
  {| issuer := issuer p; subject := subject p; roles := [role]; claims := claims p |}.

(** [ResultOrigin] *)
Inductive OriginKind := ORIGIN_NONE | ORIGIN_COLUMN | ORIGIN_STAR.
#[export] Instance OriginKind_eq_dec : EqDecision OriginKind.
Proof. solve_decision. Defined.
Record ResultOrigin := {
  origin_kind : OriginKind;
  origin_catalog : string;
  origin_schema : string;
  origin_table : string;
  origin_column : string;
  origin_name : string;
}.
Definition no_origin : ResultOrigin := {|
  origin_kind := ORIGIN_NONE; origin_catalog := EmptyString; origin_schema := EmptyString; origin_table := EmptyString;
  origin_column := EmptyString; origin_name := EmptyString |}.

(** ** The batch's trail: a statement's entry

    What the rewrite took to run ([rewrite_us]) is a clock's reading and left out. *)
Record Entry := {
  entry_statement : string;
  entry_objects : list (string * string);
  entry_detail : string;
  entry_physical : list string;
  entry_renamed : list (string * string);
  entry_executes : bool;
  entry_text_hash : N;
  entry_use_catalog : string;
  entry_use_schema : string;
  entry_origins : list ResultOrigin;
}.
Definition new_entry (statement : string) : Entry := {|
  entry_statement := statement; entry_objects := []; entry_detail := EmptyString; entry_physical := [];
  entry_renamed := []; entry_executes := true; entry_text_hash := 0; entry_use_catalog := EmptyString;
  entry_use_schema := EmptyString; entry_origins := [] |}.
Definition entry_shape (statement detail : string) (e : Entry) : Entry := {|
  entry_statement := statement; entry_objects := entry_objects e; entry_detail := detail;
  entry_physical := entry_physical e; entry_renamed := entry_renamed e; entry_executes := entry_executes e;
  entry_text_hash := entry_text_hash e; entry_use_catalog := entry_use_catalog e; entry_use_schema := entry_use_schema e;
  entry_origins := entry_origins e |}.
Definition entry_touched (objects : list (string * string)) (physical : list string) (renamed : list (string * string))
    (e : Entry) : Entry := {|
  entry_statement := entry_statement e; entry_objects := objects; entry_detail := entry_detail e;
  entry_physical := physical; entry_renamed := renamed; entry_executes := entry_executes e;
  entry_text_hash := entry_text_hash e; entry_use_catalog := entry_use_catalog e; entry_use_schema := entry_use_schema e;
  entry_origins := entry_origins e |}.
Definition entry_ends (executes : bool) (hash : N) (e : Entry) : Entry := {|
  entry_statement := entry_statement e; entry_objects := entry_objects e; entry_detail := entry_detail e;
  entry_physical := entry_physical e; entry_renamed := entry_renamed e; entry_executes := executes;
  entry_text_hash := hash; entry_use_catalog := entry_use_catalog e; entry_use_schema := entry_use_schema e;
  entry_origins := entry_origins e |}.
Definition entry_use (catalog schema : string) (e : Entry) : Entry := {|
  entry_statement := entry_statement e; entry_objects := entry_objects e; entry_detail := entry_detail e;
  entry_physical := entry_physical e; entry_renamed := entry_renamed e; entry_executes := entry_executes e;
  entry_text_hash := entry_text_hash e; entry_use_catalog := catalog; entry_use_schema := schema;
  entry_origins := entry_origins e |}.
Definition entry_columns (origins : list ResultOrigin) (e : Entry) : Entry := {|
  entry_statement := entry_statement e; entry_objects := entry_objects e; entry_detail := entry_detail e;
  entry_physical := entry_physical e; entry_renamed := entry_renamed e; entry_executes := entry_executes e;
  entry_text_hash := entry_text_hash e; entry_use_catalog := entry_use_catalog e; entry_use_schema := entry_use_schema e;
  entry_origins := origins |}.

(** ** The rewriter's state *)

Record State := {
  cte_scope : list string;
  listing_where : option Expr;
  describing : nat;
  use_catalog : string;
  use_schema : string;
  dml_target_name : string;
  dml_read_policy : TablePolicy;
  keep_claim_markers : bool;
  replacement : option SQLStatement;
  drop_statement : bool;
  follow_ups : list SQLStatement;
  (* the entries of the batch's earlier statements; that of the statement being rewritten, absent when nobody listens *)
  entries : list Entry;
  trail : option Entry;
  last_deny_reason : string;
  (* the door's stream waits on this thread *)
  ingest_factory : bool;
  (* what was written on the session's record: traces (name and value), drained streams *)
  traces : list (string * string);
  drains : list string;
}.
Definition set_scope (v_cte_scope : list string) (s : State) : State := {|
  cte_scope := v_cte_scope; listing_where := listing_where s; describing := describing s; use_catalog :=
  use_catalog s; use_schema := use_schema s; dml_target_name := dml_target_name s; dml_read_policy :=
  dml_read_policy s; keep_claim_markers := keep_claim_markers s; replacement := replacement s; drop_statement :=
  drop_statement s; follow_ups := follow_ups s; entries := entries s; trail := trail s; last_deny_reason := last_deny_reason s;
  ingest_factory := ingest_factory s; traces := traces s; drains := drains s |}.
Definition set_listing_where (v_listing_where : option Expr) (s : State) : State := {|
  cte_scope := cte_scope s; listing_where := v_listing_where; describing := describing s; use_catalog :=
  use_catalog s; use_schema := use_schema s; dml_target_name := dml_target_name s; dml_read_policy :=
  dml_read_policy s; keep_claim_markers := keep_claim_markers s; replacement := replacement s; drop_statement :=
  drop_statement s; follow_ups := follow_ups s; entries := entries s; trail := trail s; last_deny_reason := last_deny_reason s;
  ingest_factory := ingest_factory s; traces := traces s; drains := drains s |}.
Definition set_describing (v_describing : nat) (s : State) : State := {|
  cte_scope := cte_scope s; listing_where := listing_where s; describing := v_describing; use_catalog :=
  use_catalog s; use_schema := use_schema s; dml_target_name := dml_target_name s; dml_read_policy :=
  dml_read_policy s; keep_claim_markers := keep_claim_markers s; replacement := replacement s; drop_statement :=
  drop_statement s; follow_ups := follow_ups s; entries := entries s; trail := trail s; last_deny_reason := last_deny_reason s;
  ingest_factory := ingest_factory s; traces := traces s; drains := drains s |}.
Definition set_session_use (v_use_catalog : string) (v_use_schema : string) (s : State) : State := {|
  cte_scope := cte_scope s; listing_where := listing_where s; describing := describing s; use_catalog :=
  v_use_catalog; use_schema := v_use_schema; dml_target_name := dml_target_name s; dml_read_policy :=
  dml_read_policy s; keep_claim_markers := keep_claim_markers s; replacement := replacement s; drop_statement :=
  drop_statement s; follow_ups := follow_ups s; entries := entries s; trail := trail s; last_deny_reason := last_deny_reason s;
  ingest_factory := ingest_factory s; traces := traces s; drains := drains s |}.
Definition set_target (v_dml_target_name : string) (s : State) : State := {|
  cte_scope := cte_scope s; listing_where := listing_where s; describing := describing s; use_catalog :=
  use_catalog s; use_schema := use_schema s; dml_target_name := v_dml_target_name; dml_read_policy :=
  dml_read_policy s; keep_claim_markers := keep_claim_markers s; replacement := replacement s; drop_statement :=
  drop_statement s; follow_ups := follow_ups s; entries := entries s; trail := trail s; last_deny_reason := last_deny_reason s;
  ingest_factory := ingest_factory s; traces := traces s; drains := drains s |}.
Definition set_read_policy (v_dml_read_policy : TablePolicy) (s : State) : State := {|
  cte_scope := cte_scope s; listing_where := listing_where s; describing := describing s; use_catalog :=
  use_catalog s; use_schema := use_schema s; dml_target_name := dml_target_name s; dml_read_policy :=
  v_dml_read_policy; keep_claim_markers := keep_claim_markers s; replacement := replacement s; drop_statement :=
  drop_statement s; follow_ups := follow_ups s; entries := entries s; trail := trail s; last_deny_reason := last_deny_reason s;
  ingest_factory := ingest_factory s; traces := traces s; drains := drains s |}.
Definition set_keep_markers (v_keep_claim_markers : bool) (s : State) : State := {|
  cte_scope := cte_scope s; listing_where := listing_where s; describing := describing s; use_catalog :=
  use_catalog s; use_schema := use_schema s; dml_target_name := dml_target_name s; dml_read_policy :=
  dml_read_policy s; keep_claim_markers := v_keep_claim_markers; replacement := replacement s; drop_statement :=
  drop_statement s; follow_ups := follow_ups s; entries := entries s; trail := trail s; last_deny_reason := last_deny_reason s;
  ingest_factory := ingest_factory s; traces := traces s; drains := drains s |}.
Definition set_replacement (v_replacement : option SQLStatement) (s : State) : State := {|
  cte_scope := cte_scope s; listing_where := listing_where s; describing := describing s; use_catalog :=
  use_catalog s; use_schema := use_schema s; dml_target_name := dml_target_name s; dml_read_policy :=
  dml_read_policy s; keep_claim_markers := keep_claim_markers s; replacement := v_replacement; drop_statement :=
  drop_statement s; follow_ups := follow_ups s; entries := entries s; trail := trail s; last_deny_reason := last_deny_reason s;
  ingest_factory := ingest_factory s; traces := traces s; drains := drains s |}.
Definition set_drop (v_drop_statement : bool) (s : State) : State := {|
  cte_scope := cte_scope s; listing_where := listing_where s; describing := describing s; use_catalog :=
  use_catalog s; use_schema := use_schema s; dml_target_name := dml_target_name s; dml_read_policy :=
  dml_read_policy s; keep_claim_markers := keep_claim_markers s; replacement := replacement s; drop_statement :=
  v_drop_statement; follow_ups := follow_ups s; entries := entries s; trail := trail s; last_deny_reason := last_deny_reason s;
  ingest_factory := ingest_factory s; traces := traces s; drains := drains s |}.
Definition set_follow_ups (v_follow_ups : list SQLStatement) (s : State) : State := {|
  cte_scope := cte_scope s; listing_where := listing_where s; describing := describing s; use_catalog :=
  use_catalog s; use_schema := use_schema s; dml_target_name := dml_target_name s; dml_read_policy :=
  dml_read_policy s; keep_claim_markers := keep_claim_markers s; replacement := replacement s; drop_statement :=
  drop_statement s; follow_ups := v_follow_ups; entries := entries s; trail := trail s; last_deny_reason := last_deny_reason s;
  ingest_factory := ingest_factory s; traces := traces s; drains := drains s |}.
Definition set_trail (v_entries : list Entry) (v_trail : option Entry) (s : State) : State := {|
  cte_scope := cte_scope s; listing_where := listing_where s; describing := describing s; use_catalog :=
  use_catalog s; use_schema := use_schema s; dml_target_name := dml_target_name s; dml_read_policy :=
  dml_read_policy s; keep_claim_markers := keep_claim_markers s; replacement := replacement s; drop_statement :=
  drop_statement s; follow_ups := follow_ups s; entries := v_entries; trail := v_trail; last_deny_reason := last_deny_reason s;
  ingest_factory := ingest_factory s; traces := traces s; drains := drains s |}.
Definition set_reason (v_last_deny_reason : string) (s : State) : State := {|
  cte_scope := cte_scope s; listing_where := listing_where s; describing := describing s; use_catalog :=
  use_catalog s; use_schema := use_schema s; dml_target_name := dml_target_name s; dml_read_policy :=
  dml_read_policy s; keep_claim_markers := keep_claim_markers s; replacement := replacement s; drop_statement :=
  drop_statement s; follow_ups := follow_ups s; entries := entries s; trail := trail s; last_deny_reason := v_last_deny_reason;
  ingest_factory := ingest_factory s; traces := traces s; drains := drains s |}.
Definition set_factory (v_ingest_factory : bool) (s : State) : State := {|
  cte_scope := cte_scope s; listing_where := listing_where s; describing := describing s; use_catalog :=
  use_catalog s; use_schema := use_schema s; dml_target_name := dml_target_name s; dml_read_policy :=
  dml_read_policy s; keep_claim_markers := keep_claim_markers s; replacement := replacement s; drop_statement :=
  drop_statement s; follow_ups := follow_ups s; entries := entries s; trail := trail s; last_deny_reason := last_deny_reason s;
  ingest_factory := v_ingest_factory; traces := traces s; drains := drains s |}.
Definition set_traces (v_traces : list (string * string)) (s : State) : State := {|
  cte_scope := cte_scope s; listing_where := listing_where s; describing := describing s; use_catalog :=
  use_catalog s; use_schema := use_schema s; dml_target_name := dml_target_name s; dml_read_policy :=
  dml_read_policy s; keep_claim_markers := keep_claim_markers s; replacement := replacement s; drop_statement :=
  drop_statement s; follow_ups := follow_ups s; entries := entries s; trail := trail s; last_deny_reason := last_deny_reason s;
  ingest_factory := ingest_factory s; traces := v_traces; drains := drains s |}.
Definition set_drains (v_drains : list string) (s : State) : State := {|
  cte_scope := cte_scope s; listing_where := listing_where s; describing := describing s; use_catalog :=
  use_catalog s; use_schema := use_schema s; dml_target_name := dml_target_name s; dml_read_policy :=
  dml_read_policy s; keep_claim_markers := keep_claim_markers s; replacement := replacement s; drop_statement :=
  drop_statement s; follow_ups := follow_ups s; entries := entries s; trail := trail s; last_deny_reason := last_deny_reason s;
  ingest_factory := ingest_factory s; traces := traces s; drains := v_drains |}.

(** ** Failures

    An exception ends the statement - [binder] for a [BinderException], the ones some handlers catch -; the state it
    leaves is the state the exception finds.  [Exhausted]: the model's own fuel ran out, which no run does. *)
Inductive failure := Thrown (binder : bool) (message : string) | Exhausted.
#[export] Instance failure_eq_dec : EqDecision failure.
Proof. solve_decision. Defined.

Definition M (A : Type) : Type := State → State * (A + failure).
#[export] Instance M_ret : MRet M := λ A a s, (s, inl a).
#[export] Instance M_bind : MBind M := λ A B f m s,
  match m s with
  | (s', inl a) => f a s'
  | (s', inr e) => (s', inr e)
  end.
Definition throw {A} (binder : bool) (message : string) : M A := λ s, (s, inr (Thrown binder message)).
Definition exhausted {A} : M A := λ s, (s, inr Exhausted).
Definition get : M State := λ s, (s, inl s).
Definition gets {A} (f : State → A) : M A := λ s, (s, inl (f s)).
Definition modify (f : State → State) : M () := λ s, (f s, inl ()).
Definition when (b : bool) (m : M ()) : M () := if b then m else mret ().
(** A [try] with its handler for what it catches *)
Definition catch {A} (catches : bool → bool) (m : M A) (handler : bool → string → M A) : M A := λ s,
  match m s with
  | (s', inr (Thrown binder message)) =>
      if catches binder then handler binder message s' else (s', inr (Thrown binder message))
  | r => r
  end.
Fixpoint iterM {A} (f : A → M ()) (l : list A) : M () :=
  match l with
  | [] => mret ()
  | x :: l => f x;; iterM f l
  end.

Definition NoteDenyReason (reason : Reason) : M () := modify (set_reason (noted reason)).
Definition TakeDenyReason : M string := taken ← gets last_deny_reason; modify (set_reason EmptyString);; mret taken.
Definition Deny {A} (reason : Reason) (what : string) : M A :=
  NoteDenyReason reason;; throw true ("acl_rewrite: " +:+ what).
(** A refusal unless the condition holds *)
Definition require (holds : bool) (reason : Reason) (what : string) : M () := if holds then mret () else Deny reason what.

(** ** Neighbours *)

(** What the policy store answers - a failure with the reason it noted *)
Inductive answer (A : Type) := Answered (a : A) | Failed (reason : option Reason) (binder : bool) (message : string).
Arguments Answered {A}.
Arguments Failed {A}.
Definition ask {A} (a : answer A) : M A :=
  match a with
  | Answered a => mret a
  | Failed None binder message => throw binder message
  | Failed (Some reason) binder message => NoteDenyReason reason;; throw binder message
  end.
(** A stored name that is no name *)
Definition lift {A} (o : outcome A) : M A := match o with Ok a => mret a | Throw message => throw true message end.

(** [PolicyStore], as the rewriter asks it.  What it answers is fixed within a batch: the store reads one snapshot of the
    policy, and the rewriter keeps the principal's catalogs, its main catalog, its administration and its door once read. *)
Class PolicySource := {
  ResolveTable : Principal → string → string → answer (option TablePolicy);
  ResolveTableFunction : Principal → string → answer (option TablePolicy);
  ResolveScalarFunction : Principal → string → answer (option TablePolicy);
  ResolveFunction : Principal → QualifiedName → FunctionKind → answer FunctionDecision;
  ResolveDdlTarget : Principal → string → string → answer (option DdlTarget);
  (* the catalog and the path in it *)
  ResolveHeldSchema : Principal → string → answer (option (string * string));
  PrincipalCatalogs : Principal → answer (list string);
  PrincipalMainCatalog : Principal → answer string;
  PrincipalMainCap : Principal → string → answer bool;
  PrincipalCatalogsWithCap : Principal → string → answer (list string);
  CatalogObjectExists : string → string → string → answer bool;
  CatalogRelationDeclared : string → string → answer bool;
  SpellName : string → string → bool → answer string;
  MetadataListing : Principal → string → ListingScope → answer (option string);
  PrincipalFunctionColumnsSql : Principal → answer string;
  MetadataMaxRows : Z;
  SystemTypeExists : string → answer bool;
  SecretService : string → answer string;
  SecretServiceAttached : answer bool;
  ClusterNode : bool;
  SessionUseOf : string → string * string;
  SessionDoorOf : string → string;
  AdminRightsOf : Principal → answer AdminRights.AdminRights;
  PlatformViewSql : AdminRights.AdminRights → string → answer (option string);
  PlatformReadFunctionSql : Principal → AdminRights.AdminRights → string → list Value → answer (option string);
}.

(** duckdb's parser and its readings of a node *)
Class Parsing := {
  ParseQuery : string → outcome (list SQLStatement);
  ParseExpressionList : string → outcome (list Expr);
  (* [GetName], [ToString] *)
  expression_name : Expr → string;
  expression_text : Expr → string;
  query_text : Query → string;
  name_text : QualifiedName → string;
  (* [StatementTypeToString] of the statement's type *)
  statement_type : SQLStatement → string;
  (* [GetValue<int64_t>] *)
  value_integer : Value → outcome Z;
  (* [EnumerateQueryNodeChildren]: the expressions it visits, in order; the node with others in their place *)
  node_parts : Query → list Expr;
  node_rebuild : Query → list Expr → Query;
  (* [std::hash] *)
  StatementTextHash : string → N;
}.

Definition is_cte_node (q : Query) : bool := match q with CteNode _ _ _ _ => true | _ => false end.
(** What the rewriter's walks rely on of duckdb's iterator: it visits what lies inside the node, leaves the node's CTEs
    to its caller, and what a callback puts in place of a part is what is there *)
Class ParsingLaws `{Parsing} : Prop := {
  node_parts_inside : ∀ q e, e ∈ node_parts q → (depth e < query_depth q)%nat;
  node_parts_apart : ∀ c q, node_parts (with_heads c (node_modifiers q) q) = node_parts q;
  node_parts_rebuilt : ∀ q parts, length parts = length (node_parts q) → node_parts (node_rebuild q parts) = parts;
  node_heads_rebuilt : ∀ q parts,
    node_ctes (node_rebuild q parts) = node_ctes q ∧ is_cte_node (node_rebuild q parts) = is_cte_node q;
}.

(** The connection's private temp catalog, where the door made it known *)
Record TempCatalog := { TempCatalogHas : string → bool; TempCatalogNames : list string }.
(** What a batch is rewritten under: the process's registry, whose batch it is, whether it only reads metadata (a view-as
    session), the executing connection, who listens *)
Class Batch := {
  platform : registry;
  principal : client;
  metadata_only : bool;
  TempScanContext : option TempCatalog;
  (* whether an audit trail is kept, and with it the origin of each result column *)
  listening : bool;
  noting_origins : bool;
}.

(** ** The rewriter's own small operations *)
Section operations.
Context `{SU : StringUtil} `{P : Parsing} `{PS : PolicySource} `{B : Batch}.

Definition parse {A} (o : outcome A) : M A := match o with Ok a => mret a | Throw message => throw false message end.
(** A template's own copy; the store's caches answer what the parser does *)
Definition InstantiateSelect (sql : string) : M Query :=
  statements ← parse (ParseQuery sql);
  match statements with
  | [SelectStatement _ node] => mret node
  | _ => throw true "acl_rewrite: rewrite template is not a single SELECT"
  end.
Definition InstantiateExpr (text : string) : M Expr :=
  expressions ← parse (ParseExpressionList text);
  match expressions with
  | [expression] => mret expression
  | _ => throw true "acl_rewrite: scalar template must be a single expression"
  end.

(** A stored physical name as the binder takes it, as SQL *)
Definition ParsePhysName (phys : string) : M QualifiedName := lift (KeyToQualified id phys).
Definition KeyToSql (key : string) : M string := lift (NamePath.KeyToSql id name_text key).
Definition ReadFrom (policy : TablePolicy) : M string :=
  let where_ := if is_empty (rls policy) then EmptyString else " WHERE " +:+ rls policy in
  source ← KeyToSql (phys policy);
  mret (if empty_list (casts policy) then " FROM " +:+ source +:+ where_
        else " FROM (SELECT " +:+ CastItems (casts policy) +:+ " FROM " +:+ source +:+ where_ +:+ ") AS "
             +:+ SqlIdentifier (SplitLeaf (phys policy)).2.2).

Definition note_on (f : Entry → Entry) : M () :=
  entry ← gets trail;
  match entry with
  | None => mret ()
  | Some entry => before ← gets entries; modify (set_trail before (Some (f entry)))
  end.
Definition Note (name capability : string) : M () :=
  note_on (λ e, if bool_decide ((name, capability) ∈ entry_objects e) then e
                else entry_touched (entry_objects e ++ [(name, capability)]) (entry_physical e) (entry_renamed e) e).
(** A quoted part as its raw name *)
Definition unquote (part : string) : string :=
  match part with
  | String c rest =>
      if Ascii.eqb c dquote then
        match split_last dquote rest with
        | Some (inner, EmptyString) => Replace inner (dq +:+ dq) dq
        | _ => part
        end
      else part
  | EmptyString => part
  end.
Definition physical_names (phys vname : string) (e : Entry) : Entry :=
  let leaf := unquote (SplitLeaf phys).2.2 in
  let virtual := unquote (SplitLeaf vname).2.2 in
  let renamed :=
    if negb (is_empty leaf) && negb (is_empty virtual) && negb (CIEquals leaf virtual)
       && negb (bool_decide ((leaf, virtual) ∈ entry_renamed e))
    then entry_renamed e ++ [(leaf, virtual)] else entry_renamed e in
  let known := if bool_decide (phys ∈ entry_physical e) then entry_physical e else entry_physical e ++ [phys] in
  entry_touched (entry_objects e) known renamed e.
Definition NotePhysical (phys vname : string) : M () := if is_empty phys then mret () else note_on (physical_names phys vname).

Definition MetadataOnly {A} (what : string) : M A :=
  Deny STATEMENT_TYPE ("a view-as session reads metadata only - " +:+ what +:+ " is refused (RESET SESSION VIEW AS leaves it)").
(** Refused in a view-as session, but inside a DESCRIBE *)
Definition read_gate (what : string) : M () :=
  depth ← gets describing; when (metadata_only && (depth =? 0)%nat) (MetadataOnly what).

(** The session's temp names: the capability, the connection *)
Definition TempAllowed : M bool := if metadata_only then mret false else ask (PrincipalMainCap (who principal) "temp").
Definition TempResolves (name : string) : bool :=
  match TempScanContext with Some context => TempCatalogHas context name | None => true end.
Definition PrincipalMain : M string := ask (PrincipalMainCatalog (who principal)).
(** The catalog the session USEd, else the principal's main one *)
Definition UseCatalog : M string :=
  use ← gets use_catalog; if is_empty use then PrincipalMain else mret use.
(** [!use_catalog.empty() || !use_schema.empty()] *)
Definition use_in_force : M bool :=
  s ← get; mret (negb (is_empty (use_catalog s)) || negb (is_empty (use_schema s))).
Definition HoldsCatalog (name : string) : M bool :=
  held ← ask (PrincipalCatalogs (who principal)); mret (existsb (λ h, CIEquals h name) held).
(** The platform catalog is absent on the quack door *)
Definition PlatformHidden : bool :=
  negb (is_empty (session principal)) && String.eqb (SessionDoorOf (session principal)) "quack".
End operations.
