(* ===== verification/RewriteDml.v ===== *)
(** * What the rewriter does to a write: templates, columns, the grant's predicate

    The part of [AclRewriter] that walks no relation: baking a template's markers, mapping a statement's columns onto the
    target's physical ones, what a write's own expressions may read, and the policy applied to an INSERT, an UPDATE's SET
    list, a MERGE's branches and RETURNING. *)
From stdpp Require Import pretty.
From S2P Require Import Prelude NamePath FieldPaths FunctionCategories PolicyTypes Platform Tree RewriteData.

Section dml.
Context `{SU : StringUtil} `{P : Parsing} `{PS : PolicySource} `{B : Batch}.

(** ** Templates *)

Definition constant_of (e : Expr) : option Value := match e with Constant _ v => Some v | _ => None end.
Definition text_constant (e : Expr) : option string := match e with Constant _ (VText s) => Some s | _ => None end.
Definition text_value (s : string) : Expr := Constant EmptyString (VText s).

Definition ClaimValue (arguments : list (string * Expr)) : M Value :=
  match arguments with
  | [(_, Constant _ name)] =>
      mret (match ci_find (value_text name) (claims (who principal)) with
            | None => VNull
            | Some value => VText value
            end)
  | _ => Deny POLICY_ERROR "acl_claim() expects a single constant claim name"
  end.

(** [args]: the call a template is expanded for, absent for a relation's *)
Definition ArgExpression (arguments : list (string * Expr)) (args : option (list Expr)) : M Expr :=
  match args with
  | None => Deny POLICY_ERROR "acl_arg() is only valid inside a table-function template"
  | Some args =>
      match arguments with
      | [(_, Constant _ v)] =>
          position ← parse (value_integer v);
          match (if (1 <=? position)%Z then args !! Z.to_nat (position - 1) else None) with
          | Some e => mret e
          | None => Deny POLICY_ERROR ("acl_arg(" +:+ pretty position +:+ ") has no matching call argument")
          end
      | _ => Deny POLICY_ERROR "acl_arg() expects a single constant position"
      end
  end.

(** A marker keeps its alias *)
Definition marked (alias : string) (e : Expr) : Expr := if is_empty alias then e else set_alias alias e.

Fixpoint BakeMarkers (fuel : nat) (args : option (list Expr)) (e : Expr) : M Expr :=
  match fuel with
  | 0 => exhausted
  | S fuel =>
      match e with
      | Subquery a k child body =>
          body ← for_opt (BakeMarkersInNode fuel args) body;
          each_child (BakeMarkers fuel args) (Subquery a k child body)
      | Function a name arguments _ _ _ =>
          let marker := Lower (Tree.Name name) in
          keep ← gets keep_claim_markers;
          if String.eqb marker "acl_claim" && keep then mret e
          else if String.eqb marker "acl_claim" then
            value ← ClaimValue arguments; mret (marked a (Constant EmptyString value))
          else if String.eqb marker "acl_arg" then
            value ← ArgExpression arguments args; mret (marked a value)
          else each_child (BakeMarkers fuel args) e
      | _ => each_child (BakeMarkers fuel args) e
      end
  end
with BakeMarkersInNode (fuel : nat) (args : option (list Expr)) (q : Query) : M Query :=
  match fuel with
  | 0 => exhausted
  | S fuel =>
      ctes ← mapM (for_snd (for_opt (BakeMarkersInNode fuel args))) (node_ctes q);
      let q := with_heads ctes (node_modifiers q) q in
      match q with
      | CteNode c m query child =>
          query ← for_opt (BakeMarkersInNode fuel args) query;
          child ← for_opt (BakeMarkersInNode fuel args) child;
          m ← mapM (BakeMarkers fuel args) m;
          mret (CteNode c m query child)
      | _ =>
          parts ← mapM (BakeMarkers fuel args) (node_parts q);
          mret (node_rebuild q parts)
      end
  end.
Definition Bake (args : option (list Expr)) (e : Expr) : M Expr := BakeMarkers (depth e) args e.
Definition BakeNode (args : option (list Expr)) (q : Query) : M Query := BakeMarkersInNode (query_depth q) args q.
(** An expression template, baked *)
Definition baked (text : string) : M Expr := e ← InstantiateExpr text; Bake None e.

(** ** Columns *)

(** Every column name an expression reads, whatever it is qualified by *)
Fixpoint CollectColumnNames (e : Expr) : list string :=
  match e with
  | ColumnRef _ names => match last names with Some name => [name] | None => [] end
  | _ => concat (over_children CollectColumnNames e)
  end.

Definition MapWrittenColumn (policy : TablePolicy) (vname written : string) : M string :=
  match column_in written (renames policy) with
  | Some rename => mret rename.2
  | None =>
      when (existsb (λ rename, CIEquals rename.2 written) (renames policy))
        (Deny WRITE_POLICY (Shown vname +:+ " has no column " +:+ quoted written));;
      mret written
  end.

(** The part before the last one, where there is one *)
Definition qualifier_of (names : list string) : option string :=
  match rev names with _ :: q :: _ => Some q | _ => None end.
Definition update_last (name : string) (names : list string) : list string := removelast names ++ [name].

(** Column references of the target's own scope; [target] names it where another relation is in scope *)
Fixpoint MapColumnRefs (policy : TablePolicy) (vname target : string) (e : Expr) : M Expr :=
  match e with
  | ColumnRef a names =>
      match last names with
      | None => mret e
      | Some name =>
          let other := match qualifier_of names with Some q => negb (CIEquals q target) | None => false end in
          if negb (is_empty target) && other then mret e
          else column ← MapWrittenColumn policy vname name; mret (ColumnRef a (update_last column names))
      end
  | _ => each_child (MapColumnRefs policy vname target) e
  end.

(** [RETURNING vname.col] of an INSERT, whose target is bound by name *)
Fixpoint MapTargetQualifier (vname phys_table : string) (e : Expr) : Expr :=
  match e with
  | ColumnRef a names =>
      match rev names with
      | name :: q :: rest =>
          if CIEquals q (SplitLeaf vname).2.2 then ColumnRef a (rev rest ++ [phys_table; name]) else e
      | _ => e
      end
  | _ => map_children (MapTargetQualifier vname phys_table) e
  end.

(** The names a FROM's relations answer to *)
Fixpoint CollectRefNames (ref : TableRef) : list string :=
  let alias := if is_empty (tref_alias ref) then [] else [tref_alias ref] in
  alias ++ match ref with
           | BaseTable _ name _ _ _ => [Tree.Name name]
           | JoinRef _ lhs rhs _ _ _ => CollectRefNames lhs ++ CollectRefNames rhs
           | _ => []
           end.
Definition RefNames (ref : option TableRef) : list string := default [] (CollectRefNames <$> ref).

Fixpoint SubstitutePlaceholder (name : string) (value : Expr) (e : Expr) : Expr :=
  match e with
  | ColumnRef _ names => match names with [n] => if String.eqb n name then value else e | _ => e end
  | _ => map_children (SubstitutePlaceholder name value) e
  end.

(** ** What a write's own expressions read *)

(** [others]: the statement's other relations by name, [inner]: those of the subqueries it is inside *)
Record ReadScope := {
  read_policy : TablePolicy;
  read_vname : string;
  read_alias : string;
  single : bool;
  others : list string;
  inner : list string;
  in_from_subquery : bool;
  lambda_params : list string;
}.
Definition inside_lambda (params : list string) (s : ReadScope) : ReadScope := {|
  read_policy := read_policy s; read_vname := read_vname s; read_alias := read_alias s; single := single s;
  others := others s; inner := inner s; in_from_subquery := in_from_subquery s; lambda_params := lambda_params s ++ params |}.
Definition inside_from (names : list string) (s : ReadScope) : ReadScope := {|
  read_policy := read_policy s; read_vname := read_vname s; read_alias := read_alias s; single := single s;
  others := others s; inner := inner s ++ names; in_from_subquery := true; lambda_params := lambda_params s |}.
Definition inside_node (q : Query) (s : ReadScope) : ReadScope :=
  match q with
  | SelectNode _ _ _ (Some EmptyFrom) _ _ _ _ | SelectNode _ _ _ None _ _ _ _ => s
  | SelectNode _ _ _ (Some from) _ _ _ _ => inside_from (CollectRefNames from) s
  | _ => s
  end.

(** What the principal reads of a column that is not read as stored: its mask, or the tree it is narrowed to; none where
    the tree is gone *)
Definition readable_form (base : list string) (mask narrowed : option (string * string)) : M (option Expr) :=
  match mask, narrowed with
  | Some mask, _ => read ← baked mask.2; mret (Some read)
  | None, Some narrowed =>
      trees ← lift (From (ParseColumnList narrowed.2));
      match find_field narrowed.1 trees with
      | None => mret None
      | Some tree =>
          parsed ← parse (ParseExpressionList (CompileNode tree (quoted "__acl_read") 0%N));
          match parsed with
          | read :: _ => mret (Some (SubstitutePlaceholder "__acl_read" (ColumnRef EmptyString base) read))
          | [] => throw false "Attempted to access index 0 within vector of size 0"
          end
      end
  | None, None => mret None
  end.
Definition field_step (read : Expr) (step : string) : Expr := plain_call "struct_extract" [read; text_value step].

Definition readable_column (scope : ReadScope) (e : Expr) (names : list string) : M Expr :=
  match names with
  | [] => mret e
  | head :: steps =>
      let policy := read_policy scope in
      let vname := read_vname scope in
      let several := negb (empty_list steps) in
      let qualified := several && CIEquals head (read_alias scope) in
      if ci_mem head (lambda_params scope) then mret e
      else if negb qualified && several && (ci_mem head (others scope) || ci_mem head (inner scope)) then mret e
      else if negb qualified && negb several && IsValueKeyword head then mret e
      else
        let at_ := if qualified then 1%nat else 0%nat in
        let column := default EmptyString (names !! at_) in
        let mask := column_in column (injections policy) in
        let narrowed := column_in column (narrowed_reads policy) in
        let visible := ci_mem column (visible_columns policy) in
        let plain := visible && negb (bool_decide (is_Some mask)) && negb (bool_decide (is_Some narrowed)) in
        when (negb qualified && (in_from_subquery scope || negb (single scope)) && negb plain)
          (Deny WRITE_POLICY (quoted head +:+ " in a write to " +:+ quoted vname
            +:+ " must be qualified - by the relation it belongs to, or by " +:+ quoted (read_alias scope)
            +:+ " for a column of " +:+ quoted vname +:+ " the role may read"));;
        when (negb visible)
          (Deny WRITE_POLICY ("column " +:+ quoted (VirtualColumn policy column) +:+ " of " +:+ Shown vname +:+ " is not readable"));;
        if plain then mret e
        else
          read ← readable_form (take (S at_) names) mask narrowed;
          match read with
          | None => mret e
          | Some read => mret (set_alias (expr_alias e) (fold_left field_step (drop (S at_) names) read))
          end
  end.

Fixpoint MapReadable_ (fuel : nat) (scope : ReadScope) (e : Expr) : M Expr :=
  match fuel with
  | 0 => exhausted
  | S fuel =>
      match e with
      | Subquery a k child body =>
          child ← for_opt (MapReadable_ fuel scope) child;
          body ← for_opt (MapReadableNode fuel scope) body;
          mret (Subquery a k child body)
      | Lambda a lhs rhs =>
          rhs ← MapReadable_ fuel (inside_lambda (CollectColumnNames lhs) scope) rhs; mret (Lambda a lhs rhs)
      | ColumnRef _ names => readable_column scope e names
      | _ => each_child (MapReadable_ fuel scope) e
      end
  end
with MapReadableNode (fuel : nat) (scope : ReadScope) (q : Query) : M Query :=
  match fuel with
  | 0 => exhausted
  | S fuel =>
      parts ← mapM (MapReadable_ fuel (inside_node q scope)) (node_parts q); mret (node_rebuild q parts)
  end.
Definition MapReadable (policy : TablePolicy) (vname alias : string) (single : bool) (others : list string) (e : Expr)
    : M Expr :=
  if empty_list (visible_columns policy) then mret e
  else MapReadable_ (depth e)
         {| read_policy := policy; read_vname := vname; read_alias := alias; single := single; others := others;
            inner := []; in_from_subquery := false; lambda_params := [] |} e.

(** ** Values a grant assigns *)

(** An assignment is built from claims and constants: no column of the row *)
Fixpoint RequireValueExpression (column vname : string) (e : Expr) : M () :=
  match e with
  | ColumnRef _ _ =>
      Deny WRITE_POLICY ("column " +:+ quoted column +:+ " of " +:+ Shown vname
        +:+ " is computed from the row, so it cannot be written")
  | _ => iterM id (over_children (RequireValueExpression column vname) e)
  end.
Definition InjectedValue (injection : string * string) (vname : string) : M Expr :=
  value ← baked injection.2; RequireValueExpression injection.1 vname value;; mret value.

(** The grant's tree for a narrowed column *)
Definition FieldWriteTree (policy : TablePolicy) (column : string) : M (option FieldNode) :=
  match column_in column (field_writes policy) with
  | None => mret None
  | Some entry => trees ← lift (From (ParseColumnList entry.2)); mret (find_field entry.1 trees)
  end.
Fixpoint RequireFieldMasksAreValues (column vname : string) (node : FieldNode) : M () :=
  let '(Node _ _ masked mask fields element) := node in
  if masked then mask ← InstantiateExpr mask; RequireValueExpression column vname mask
  else iterM id (map (RequireFieldMasksAreValues column vname) fields);;
       match element with Some element => RequireFieldMasksAreValues column vname element | None => mret () end.
(** What is written into a narrowed column: the statement's value folded into the stored one, absent for an insert *)
Definition FieldWriteValue (tree : FieldNode) (written : Expr) (stored : option Expr) (column vname : string) : M Expr :=
  let text := CompileWrite tree (quoted "__acl_written")
    (match stored with Some _ => quoted "__acl_stored" | None => EmptyString end)
    ("acl_rewrite: the value written to " +:+ quoted column +:+ " of " +:+ quoted vname
     +:+ " carries a field this role cannot write") 0%N in
  parsed ← parse (ParseExpressionList text);
  match parsed with
  | [value] =>
      value ← Bake None value;
      RequireFieldMasksAreValues column vname tree;;
      let value := SubstitutePlaceholder "__acl_written" written value in
      mret (match stored with Some stored => SubstitutePlaceholder "__acl_stored" stored value | None => value end)
  | _ => Deny POLICY_ERROR ("the write policy of " +:+ Shown vname +:+ " did not compile")
  end.

(** The expressions a list of columns is paired with; one beyond the list stays *)
Fixpoint map_paired (f : string → Expr → M Expr) (columns : list string) (expressions : list Expr) : M (list Expr) :=
  match columns, expressions with
  | c :: columns, e :: expressions =>
      e ← f c e; expressions ← map_paired f columns expressions; mret (e :: expressions)
  | _, _ => mret expressions
  end.
Definition over_set (f : string → Expr → M Expr) (set : UpdateSetInfo Expr) : M (UpdateSetInfo Expr) :=
  expressions ← map_paired f (set_columns set) (set_expressions set);
  mret {| set_columns := set_columns set; set_expressions := expressions; set_condition := set_condition set |}.

Definition ApplySetInjections (policy : TablePolicy) (vname : string) : UpdateSetInfo Expr → M (UpdateSetInfo Expr) :=
  over_set (λ column e, match column_in column (injections policy) with
                        | Some injection => InjectedValue injection vname
                        | None => mret e
                        end).
(** [target] qualifies the stored value where another relation is in scope *)
Definition ApplyFieldWrites (policy : TablePolicy) (vname target : string) : UpdateSetInfo Expr → M (UpdateSetInfo Expr) :=
  over_set (λ column e,
    tree ← FieldWriteTree policy column;
    match tree with
    | None => mret e
    | Some tree =>
        let stored := (if is_empty target then [] else [target]) ++ [column] in
        FieldWriteValue tree e (Some (ColumnRef EmptyString stored)) (VirtualColumn policy column) vname
    end).

Definition RequireWritableColumn (policy : TablePolicy) (vname column : string) : M () :=
  require (empty_list (write_columns policy) || ci_mem column (write_columns policy)) WRITE_POLICY
    ("column " +:+ quoted column +:+ " of " +:+ Shown vname +:+ " is not writable").
Definition MapWritableColumn (policy : TablePolicy) (vname written : string) : M string :=
  column ← MapWrittenColumn policy vname written; RequireWritableColumn policy vname column;; mret column.

(** ** The grant's predicate *)

(** duckdb merges the lists of nested ANDs *)
Definition conjunction (a b : Expr) : Expr := Operation EmptyString CONJUNCTION_AND [a; b].
Definition AndInto (condition predicate : option Expr) : option Expr :=
  match predicate, condition with
  | None, _ => condition
  | Some predicate, None => Some predicate
  | Some predicate, Some condition => Some (conjunction condition predicate)
  end.
Definition WritePredicate (policy : TablePolicy) : M (option Expr) :=
  if is_empty (rls policy) then mret None else predicate ← baked (rls policy); mret (Some predicate).
Definition AndPolicyPredicate (condition : option Expr) (policy : TablePolicy) : M (option Expr) :=
  predicate ← WritePredicate policy; mret (AndInto condition predicate).

(** Bare column references qualified by the target; a subquery's body keeps its own scope *)
Fixpoint QualifyWithTarget (alias : string) (e : Expr) : Expr :=
  match e with
  | Subquery a k child body => Subquery a k (QualifyWithTarget alias <$> child) body
  | ColumnRef a [name] => ColumnRef a [alias; name]
  | _ => map_children (QualifyWithTarget alias) e
  end.
Definition TargetAliasOf (target : option TableRef) : string :=
  match target with
  | Some (BaseTable alias name _ _ _) => if is_empty alias then Tree.Name name else alias
  | _ => EmptyString
  end.
Fixpoint ContainsSubquery (e : Expr) : bool :=
  match e with
  | Subquery _ _ _ _ => true
  | _ => existsb id (over_children ContainsSubquery e)
  end.
(** The predicate bound to the target by name *)
Definition TargetPredicate (policy : TablePolicy) (alias vname : string) : M (option Expr) :=
  predicate ← WritePredicate policy;
  match predicate with
  | None => mret None
  | Some predicate =>
      when (rls_unchecked policy && ContainsSubquery predicate)
        (NoteDenyReason UNCHECKED_PREDICATE;;
         throw true ("acl: the predicate of " +:+ quoted vname +:+ " contains a subquery and was never checked against "
           +:+ "the object, so it cannot be used where a second relation is in scope - run "
           +:+ "acl_refresh_schema() with the object reachable, or rewrite the grant"));;
      mret (Some (QualifyWithTarget alias predicate))
  end.

(** [CASE WHEN <predicate> THEN <value> ELSE error('...') END] *)
Definition GuardedValue (value predicate : Expr) (vname : string) : Expr :=
  Operation EmptyString "CASE"
    [predicate; value;
     plain_call "error" [text_value ("acl_rewrite: the row does not satisfy the grant on " +:+ quoted vname
                                     +:+ ", so it cannot be written")]].
Definition guard_first (predicate : Expr) (vname : string) (l : list Expr) : list Expr :=
  match l with [] => [] | e :: l => GuardedValue e predicate vname :: l end.
(** The row a SET list leaves behind: a column it sets takes the new value *)
Fixpoint SubstituteSetValues (row : list (string * Expr)) (e : Expr) : Expr :=
  match e with
  | ColumnRef _ names =>
      match last names with
      | None => e
      | Some name => match List.find (λ c, CIEquals c.1 name) row with Some c => c.2 | None => e end
      end
  | _ => map_children (SubstituteSetValues row) e
  end.

Definition bare_select (items : list Expr) (alias : string) (columns : list string) (source : Query) : Query :=
  select_from items (SubqueryRef alias columns (Some source) None).

Definition ApplyInsertCheck (columns : list string) (default_values : bool) (source : option Query) (policy : TablePolicy)
    (vname : string) : M (option Query) :=
  predicate ← WritePredicate policy;
  match predicate with
  | None => mret source
  | Some predicate =>
      match source with
      | Some body =>
          when (empty_list columns || default_values)
            (Deny WRITE_POLICY ("insert into " +:+ quoted vname +:+ " must name its columns: the grant's predicate decides "
               +:+ "which rows may be written, and an unnamed column has no value to judge"));;
          iterM (λ name, require (in_names name columns) WRITE_POLICY
                   ("insert into " +:+ Shown vname +:+ " must supply " +:+ quoted name
                    +:+ ": the grant's predicate reads it to decide whether the row may be written"))
            (CollectColumnNames predicate);;
          let items := guard_first predicate vname (map (λ c, ColumnRef EmptyString [c]) columns) in
          mret (Some (bare_select items "__acl_check" columns body))
      | None =>
          Deny WRITE_POLICY ("insert into " +:+ quoted vname +:+ " must name its columns: the grant's predicate decides "
            +:+ "which rows may be written, and an unnamed column has no value to judge")
      end
  end.

Definition with_row (columns : list string) (expressions : list Expr) (a : MergeIntoAction Expr) : MergeIntoAction Expr := {|
  merge_type := merge_type a; merge_condition := merge_condition a; update_info := update_info a;
  insert_columns := columns; merge_expressions := expressions; merge_default_values := merge_default_values a;
  merge_by_name := merge_by_name a |}.

Definition ApplyMergeInsertCheck (policy : TablePolicy) (vname : string) (action : MergeIntoAction Expr)
    : M (MergeIntoAction Expr) :=
  predicate ← WritePredicate policy;
  match predicate with
  | None => mret action
  | Some predicate =>
      when (merge_default_values action || empty_list (insert_columns action) || empty_list (merge_expressions action))
        (Deny WRITE_POLICY ("the insert branch of a merge into " +:+ quoted vname
           +:+ " must name its columns: the grant's predicate decides which rows may be written"));;
      iterM (λ name, require (in_names name (insert_columns action)) WRITE_POLICY
               ("the insert branch of a merge into " +:+ Shown vname +:+ " must supply " +:+ quoted name
                +:+ ": the grant's predicate reads it to decide whether the row may be written"))
        (CollectColumnNames predicate);;
      let judged := SubstituteSetValues (combine (insert_columns action) (merge_expressions action)) predicate in
      mret (with_row (insert_columns action) (guard_first judged vname (merge_expressions action)) action)
  end.

Definition ApplyUpdateCheck (policy : TablePolicy) (vname target : string) (set : UpdateSetInfo Expr)
    : M (UpdateSetInfo Expr) :=
  predicate ← WritePredicate policy;
  match predicate with
  | None => mret set
  | Some predicate =>
      let touches := existsb (λ name, in_names name (set_columns set)) (CollectColumnNames predicate) in
      if empty_list (set_columns set) || empty_list (set_expressions set) || negb touches then mret set
      else
        let predicate := if is_empty target then predicate else QualifyWithTarget target predicate in
        let judged := SubstituteSetValues (combine (set_columns set) (set_expressions set)) predicate in
        mret {| set_columns := set_columns set; set_expressions := guard_first judged vname (set_expressions set);
                set_condition := set_condition set |}
  end.

(** ** An INSERT under a column policy *)

(** Whether the source is exactly the drain of the principal's own stream *)
Definition own_stream_argument (arguments : list (string * Expr)) : bool :=
  match arguments with
  | (_, Constant _ (VText id)) :: _ => String.eqb id (ingest_stream principal)
  | _ => false
  end.
Definition drain_function (name : QualifiedName) : bool :=
  CIEquals (Tree.Name name) "acl_quack_scan_data" || CIEquals (Tree.Name name) "scan_data_from_quack_client".
Definition SourceIsOwnDrain (source : option Query) : bool :=
  negb (is_empty (ingest_stream principal)) &&
  match source with
  | Some (SelectNode _ _ [Star _ _ _ _ [] _ []] (Some (TableFunction _ _ (Some (Function _ name arguments _ _ _)) _ _))
            None _ _ _) => drain_function name && own_stream_argument arguments
  | _ => false
  end.

(** The position of the first column of a name *)
Fixpoint position_of (name : string) (i : nat) (columns : list string) : option nat :=
  match columns with
  | [] => None
  | c :: columns => if CIEquals c name then Some i else position_of name (S i) columns
  end.
Definition stream_column (i : nat) : string := "__acl_c" +:+ pretty i.

Fixpoint stream_injections (columns : list string) (vname : string) (injections : list (string * string))
    (replaced : list (string * Expr)) : M (list (string * Expr)) :=
  match injections with
  | [] => mret replaced
  | injection :: injections =>
      match position_of injection.1 0 columns with
      | None =>
          Deny WRITE_POLICY ("insert into " +:+ Shown vname +:+ " cannot assign " +:+ quoted injection.1
            +:+ ", which the streamed shape does not carry")
      | Some i =>
          value ← InjectedValue injection vname;
          stream_injections columns vname injections (ci_set (stream_column i) value replaced)
      end
  end.
Fixpoint stream_fields (policy : TablePolicy) (vname : string) (i : nat) (columns : list string)
    (replaced : list (string * Expr)) : M (list (string * Expr)) :=
  match columns with
  | [] => mret replaced
  | column :: columns =>
      tree ← FieldWriteTree policy column;
      match tree with
      | None => stream_fields policy vname (S i) columns replaced
      | Some tree =>
          value ← FieldWriteValue tree (ColumnRef EmptyString [stream_column i]) None (VirtualColumn policy column) vname;
          stream_fields policy vname (S i) columns (ci_set (stream_column i) value replaced)
      end
  end.
(** The stream's columns are aliased by position, the grant's values put in by position *)
Definition ApplyStreamInjections (policy : TablePolicy) (vname : string) (columns : list string) (source : Query) : M Query :=
  replaced ← stream_injections columns vname (injections policy) [];
  replaced ← stream_fields policy vname 0 columns replaced;
  mret (bare_select [Star EmptyString EmptyString false None [] [] replaced] "__acl_stream"
          (imap (λ i _, stream_column i) columns) source).

(** The columns and items of a row: a column the grant assigns takes its value, whatever was supplied *)
Fixpoint kept_items (policy : TablePolicy) (vname : string) (columns : list string) : M (list (string * Expr)) :=
  match columns with
  | [] => mret []
  | column :: columns =>
      if in_columns column (injections policy) then kept_items policy vname columns
      else
        tree ← FieldWriteTree policy column;
        item ← match tree with
               | Some tree => FieldWriteValue tree (ColumnRef EmptyString [column]) None (VirtualColumn policy column) vname
               | None => mret (ColumnRef EmptyString [column])
               end;
        items ← kept_items policy vname columns; mret ((column, item) :: items)
  end.
Definition assigned_items (policy : TablePolicy) (vname : string) : M (list (string * Expr)) :=
  mapM (λ injection, value ← InjectedValue injection vname; mret (injection.1, value)) (injections policy).

(** The column list and the source an INSERT ends up with *)
Definition ApplyInsertPolicy (columns : list string) (default_values by_name : bool) (source : option Query)
    (conflict : option (OnConflictInfo Expr)) (policy : TablePolicy) (vname : string) : M (list string * option Query) :=
  if empty_list (write_columns policy) then mret (columns, source)
  else
    let columns :=
      if empty_list columns && negb default_values && negb by_name && negb (empty_list (write_order policy))
         && (empty_list (injections policy) || SourceIsOwnDrain source)
      then write_order policy else columns in
    when (empty_list columns || default_values || by_name)
      (Deny WRITE_POLICY ("insert into " +:+ Shown vname +:+ " must name its columns"));;
    when (bool_decide (is_Some conflict))
      (Deny WRITE_POLICY ("insert into " +:+ Shown vname +:+ " cannot use ON CONFLICT under a column policy"));;
    match source with
    | None => Deny WRITE_POLICY ("insert into " +:+ Shown vname +:+ " has no source to apply the grant policy to")
    | Some body =>
        iterM (RequireWritableColumn policy vname) columns;;
        if empty_list (injections policy) && empty_list (field_writes policy) then mret (columns, source)
        else if SourceIsOwnDrain source then
          body ← ApplyStreamInjections policy vname columns body; mret (columns, Some body)
        else
          kept ← kept_items policy vname columns;
          assigned ← assigned_items policy vname;
          mret (map fst (kept ++ assigned),
                Some (bare_select (map snd (kept ++ assigned)) "__acl_insert" columns body))
    end.

(** The INSERT branch of a MERGE *)
Definition ApplyMergeInsertPolicy (policy : TablePolicy) (vname : string) (action : MergeIntoAction Expr)
    : M (MergeIntoAction Expr) :=
  if empty_list (write_columns policy) && empty_list (injections policy) then mret action
  else
    when (merge_default_values action || empty_list (insert_columns action) || merge_by_name action)
      (Deny WRITE_POLICY ("the insert branch of a merge into " +:+ Shown vname +:+ " must name its columns"));;
    columns ← mapM (MapWritableColumn policy vname) (insert_columns action);
    expressions ← map_paired (λ column e,
        tree ← FieldWriteTree policy column;
        match tree with
        | None => mret e
        | Some tree => FieldWriteValue tree e None (VirtualColumn policy column) vname
        end) columns (merge_expressions action);
    if empty_list (injections policy) then mret (with_row columns expressions action)
    else
      let kept := List.filter (λ c, negb (in_columns c.1 (injections policy))) (combine columns expressions) in
      assigned ← assigned_items policy vname;
      mret (with_row (map fst (kept ++ assigned)) (map snd (kept ++ assigned)) action).

(** ** RETURNING *)

Fixpoint RequireReadableExpr (policy : TablePolicy) (vname : string) (e : Expr) : M () :=
  match e with
  | Star _ _ _ _ _ _ _ => Deny WRITE_POLICY ("RETURNING * on " +:+ Shown vname +:+ " is not allowed under a column policy")
  | ColumnRef _ names =>
      match last names with
      | None => mret ()
      | Some name =>
          let masked := in_columns name (injections policy) || in_columns name (field_writes policy) in
          when (masked || negb (ci_mem name (write_columns policy)))
            (Deny WRITE_POLICY ("column " +:+ quoted name +:+ " of " +:+ Shown vname +:+ " is not readable"))
      end
  | _ => iterM id (over_children (RequireReadableExpr policy vname) e)
  end.
Definition RequireReadableReturning (returning : list Expr) (policy : TablePolicy) (vname : string) : M () :=
  when (negb (empty_list returning) && negb (is_empty (returning_refused policy)))
    (Deny CAPABILITY ("RETURNING: " +:+ returning_refused policy));;
  if empty_list (write_columns policy) then mret ()
  else iterM (RequireReadableExpr policy vname) returning.
End dml.
