(* ===== verification/RewriteRefs.v ===== *)
(** * What a name, a call, a listing becomes

    The part of [AclRewriter] below its walk: a name under the session's USE, the function and type gates, the session's
    identity, and the subqueries a relation, a virtual function or a metadata surface is replaced by. *)
From stdpp Require Import pretty.
From S2P Require Import AdminRights.
From S2P Require Import Prelude NamePath FieldPaths FunctionCategories PolicyTypes Platform Token Tree RewriteData RewriteDml.

Section refs.
Context `{SU : StringUtil} `{JR : JsonReader} `{P : Parsing} `{PS : PolicySource} `{B : Batch}.

(** ** Names under a USE *)

Definition Key (name : QualifiedName) : M string :=
  let key := VirtualKey name in
  use ← use_in_force;
  if negb use || is_empty key || is_surface key || TempQualified name then mret key
  else
    catalog ← UseCatalog;
    if is_empty catalog then mret key
    else
      let parts := NameParts name in
      holds ← (match parts with
               | head :: _ :: _ => HoldsCatalog (QuotePart head)
               | _ => mret false
               end);
      if (holds : bool) then
        held ← ask (ResolveHeldSchema (who principal) (fold_left ChildKey (removelast parts) catalog));
        match held with
        | Some (vcat, _) =>
            let head := quoted (hd EmptyString parts) in
            when (CIEquals vcat catalog)
              (Deny NO_ACCESS (Shown key +:+ " is ambiguous - catalog " +:+ head +:+ " or schema " +:+ head
                 +:+ " of the session's catalog " +:+ catalog +:+ "; write the catalog in front to mean the schema"));;
            mret key
        | None => mret key
        end
      else
        schema ← gets use_schema;
        if (length parts =? 1)%nat && negb (is_empty schema) then mret (JoinKeys (JoinKeys catalog schema) key)
        else mret (JoinKeys catalog key).

(** A virtual function by the name written, or first in the session's catalog: its policy and the name it answered to *)
Definition ResolveVirtualFunction (name : QualifiedName) (table_kind : bool) : M (option (TablePolicy * string)) :=
  let written := VirtualKey name in
  let resolve candidate :=
    policy ← ask (if table_kind then ResolveTableFunction (who principal) candidate
                  else ResolveScalarFunction (who principal) candidate);
    mret ((λ p, (p, candidate)) <$> policy) in
  use ← use_in_force;
  first ← (if (use : bool) then
             in_session ← Key name;
             if String.eqb in_session written then mret None else resolve in_session
           else mret None);
  match first with
  | Some found => mret (Some found)
  | None => resolve written
  end.

(** ** Types *)

Definition CONSTRUCTORS : list string := ["struct"; "list"; "map"; "union"; "array"; "tuple"; "row"].
Definition type_denied {A} (name : QualifiedName) : M A :=
  Deny TYPE_DENIED ("type " +:+ quoted (name_text name) +:+ " is not available: only the system catalog's types can be named").
(** Every named leaf is the system catalog's, and written so *)
Fixpoint GateTypeExpression (e : Expr) : M Expr :=
  match e with
  | TypeExpr a catalog schema name parameters =>
      when ((negb (is_empty catalog) && negb (CIEquals catalog "system"))
            || (negb (is_empty schema) && negb (CIEquals schema "main")))
        (type_denied [catalog; schema; name]);;
      if ci_mem name CONSTRUCTORS then
        parameters ← mapM GateTypeExpression parameters; mret (TypeExpr a catalog schema name parameters)
      else
        exists_ ← ask (SystemTypeExists name);
        when (negb exists_) (type_denied [catalog; schema; name]);;
        parameters ← mapM GateTypeExpression parameters; mret (TypeExpr a "system" "main" name parameters)
  | _ => each_child GateTypeExpression e
  end.

Definition no_type {A} (function : string) : M A :=
  Deny TYPE_DENIED ("the structure of " +:+ function +:+ " names something that is not a type").
(** One type written as text *)
Definition GateTypeText (text function : string) : M string :=
  match ParseExpressionList ("CAST(NULL AS " +:+ text +:+ ")") with
  | Ok [Cast _ (Constant _ _) target] => target ← GateTypeExpression target; mret (expression_text target)
  | _ => no_type function
  end.
Fixpoint json_quoted (text : string) : string :=
  match text with
  | EmptyString => EmptyString
  | String c text =>
      (if Ascii.eqb c dquote || Ascii.eqb c "\" then "\" else EmptyString) +:+ str1 c +:+ json_quoted text
  end.
Definition json_quote (text : string) : string := quoted (json_quoted text).
Fixpoint GateJsonStructure (function : string) (value : Json) : M string :=
  match value with
  | JStr text => gated ← GateTypeText text function; mret (json_quote gated)
  | JArr items => items ← mapM (GateJsonStructure function) items; mret ("[" +:+ join ", " items +:+ "]")
  | JObj members =>
      items ← mapM (λ m, gated ← GateJsonStructure function m.2; mret (json_quote m.1 +:+ ": " +:+ gated)) members;
      mret ("{" +:+ join ", " items +:+ "}")
  | _ => no_type function
  end.
Definition TYPED : list string := ["from_json"; "from_json_strict"; "json_transform"; "json_transform_strict"].
Definition GateTypeTextArguments (name : string) (arguments : list (string * Expr)) : M (list (string * Expr)) :=
  match arguments with
  | value :: (label, structure) :: rest =>
      if negb (ci_mem name TYPED) then mret arguments
      else match text_constant structure with
           | None => Deny TYPE_DENIED ("the structure of " +:+ name +:+ " must be a constant string under the ACL")
           | Some text =>
               match read_json text with
               | None => Deny TYPE_DENIED ("the structure of " +:+ name +:+ " is not JSON")
               | Some root =>
                   gated ← GateJsonStructure name root; mret (value :: (label, text_value gated) :: rest)
               end
           end
  | _ => mret arguments
  end.

(** ** The function gate *)

(** The key a call is admitted by; none for a qualified name that is no member, where it may be a method call *)
Definition GateFunction (written : QualifiedName) (kind : FunctionKind) (shown : string) (method_call_probe : bool)
    : M (option QualifiedName) :=
  decision ← ask (ResolveFunction (who principal) written kind);
  if bool_decide (verdict decision = UNKNOWN_QUALIFIED) && method_call_probe && (2 <=? length written)%nat then mret None
  else
    when (negb (bool_decide (verdict decision = ADMITTED))) (Deny FUNCTION_DENIED (Why decision shown));;
    when (negb (CIEquals (database (key decision)) "system")) (read_gate ("the " +:+ shown));;
    mret (Some [database (key decision); schema (key decision); fname (key decision)]).
(** Without the probe a call is admitted or refused *)
Definition AdmitFunction (written : QualifiedName) (kind : FunctionKind) (shown : string) : M QualifiedName :=
  admitted ← GateFunction written kind shown false; mret (default written admitted).

(** ** The session's identity *)

Definition identity_database (name : string) : bool := CIEquals name "current_database" || CIEquals name "current_catalog".
Definition identity_schema (name : string) : bool := CIEquals name "current_schema" || CIEquals name "current_schemas".
Definition builtin_qualifier (piece : string) : bool :=
  is_empty piece || CIEquals piece "main" || CIEquals piece "system" || CIEquals piece "pg_catalog".
Definition IsSessionIdentityCall (written : QualifiedName) (arguments : list (string * Expr)) : bool :=
  let name := Tree.Name written in
  (identity_database name || identity_schema name)
  && (CIEquals name "current_schemas" || empty_list arguments)
  && forallb builtin_qualifier (qualifiers written).
Definition IsSessionIdentityKeyword (names : list string) : bool :=
  match names with
  | [name] => CIEquals name "current_catalog" || CIEquals name "current_schema"
  | _ => false
  end.

Definition listing (surface : string) (scope : ListingScope) (refusal : string) : M string :=
  sql ← ask (MetadataListing (who principal) surface scope);
  match sql with
  | Some sql => mret sql
  | None => Deny UNAVAILABLE refusal
  end.
Definition BuildCurrentDatabaseExpr : M Expr :=
  sql ← listing "show_schemas" no_scope
          "metadata is not available: this policy source cannot enumerate the current catalog";
  body ← InstantiateSelect ("SELECT CASE WHEN count(DISTINCT database_name) = 1 THEN min(database_name) END FROM ("
           +:+ sql +:+ ") WHERE " +:+ quoted "current");
  mret (Subquery EmptyString SCALAR_SUBQUERY None (Some body)).
Definition SubstituteSessionIdentity (e : Expr) (name : string) : M Expr :=
  let alias := expression_name e in
  s ← get;
  let schema := if is_empty (use_schema s) then "main" else Display (use_schema s) in
  answer ←
    (if CIEquals name "current_schema" then mret (text_value schema)
     else if CIEquals name "current_schemas" then mret (plain_call "list_value" [text_value schema])
     else
       holds ← (if is_empty (use_catalog s) then mret false else HoldsCatalog (use_catalog s));
       if (holds : bool) then mret (text_value (Unquote (use_catalog s))) else BuildCurrentDatabaseExpr);
  mret (set_alias alias answer).

(** A virtual scalar function's template over the call's arguments *)
Definition BuildScalarExpr (vname : string) (policy : TablePolicy) (arguments : list Expr) : M Expr :=
  if is_empty (query policy) then Deny POLICY_ERROR ("virtual scalar function " +:+ Shown vname +:+ " has no template")
  else template ← InstantiateExpr (query policy); Bake (Some arguments) template.

(** ** Listings *)

(** The session's temp names as a list literal, empty for none *)
Definition TempNamesList : M string :=
  match TempScanContext with
  | None => mret EmptyString
  | Some context =>
      allowed ← TempAllowed;
      mret (if negb allowed || empty_list (TempCatalogNames context) then EmptyString
            else "[" +:+ join ", " (map SqlLiteral (TempCatalogNames context)) +:+ "]")
  end.
Definition AppendTempListing (surface sql : string) : M string :=
  names ← TempNamesList;
  mret (if is_empty names then sql
        else if String.eqb surface "tables" then
          "SELECT * FROM (" +:+ sql +:+ ") UNION ALL BY NAME (SELECT 'temp' AS table_catalog, 'main' AS table_schema, unnest("
          +:+ names +:+ ") AS table_name, 'LOCAL TEMPORARY' AS table_type)"
        else if String.eqb surface "duckdb_tables" then
          "SELECT * FROM (" +:+ sql +:+ ") UNION ALL BY NAME (SELECT 'temp' AS database_name, 'main' AS schema_name, unnest("
          +:+ names +:+ ") AS table_name, true AS " +:+ quoted "temporary" +:+ ")"
        else if String.eqb surface "show_tables" then
          "SELECT name FROM ((" +:+ sql +:+ ") UNION ALL (SELECT unnest(" +:+ names +:+ ") AS name)) ORDER BY 1"
        else sql).
Definition SubqueryOf (sql : string) : M TableRef :=
  body ← InstantiateSelect sql; mret (SubqueryRef "__acl_show" [] (Some body) None).

(** The surface's own columns a WHERE may narrow it by *)
Inductive Narrows := CATALOGS | SCHEMAS | TABLES | OBJECTS.
Definition narrowing_columns (kind : string) : list (string * Narrows) :=
  let one_of names := existsb (String.eqb kind) names in
  let info := one_of ["tables"; "columns"] in
  let duck := one_of ["duckdb_tables"; "duckdb_columns"; "duckdb_views"] in
  (if one_of ["keys"; "references"] then [("vcat", CATALOGS)]
   else if info then [("table_catalog", CATALOGS)]
   else if String.eqb kind "schemata" then [("catalog_name", CATALOGS)]
   else if duck || one_of ["duckdb_schemas"; "databases"] then [("database_name", CATALOGS)] else [])
  ++ (if info then [("table_schema", SCHEMAS)]
      else if duck || one_of ["schemata"; "duckdb_schemas"] then [("schema_name", SCHEMAS)] else [])
  ++ (if info || one_of ["duckdb_tables"; "duckdb_columns"] then [("table_name", TABLES)]
      else if String.eqb kind "duckdb_views" then [("view_name", TABLES)] else [])
  ++ (if String.eqb kind "keys" then [("object", OBJECTS)]
      else if String.eqb kind "references" then [("from_object", OBJECTS); ("to_object", OBJECTS)] else []).
Definition column_of (kind alias : string) (e : Expr) : option Narrows :=
  match e with
  | ColumnRef _ [column] => ci_find column (narrowing_columns kind)
  | ColumnRef _ [relation; column] =>
      if CIEquals relation alias then ci_find column (narrowing_columns kind) else None
  | _ => None
  end.
Definition constant_text (e : Expr) : option string :=
  match e with
  | Constant _ VNull => None
  | Constant _ v => Some (value_text v)
  | _ => None
  end.
(** The one name a LIKE pattern without a wildcard matches, its escapes taken off *)
Fixpoint exact_pattern (escape : option ascii) (pattern : string) : option string :=
  match pattern with
  | EmptyString => Some EmptyString
  | String c rest =>
      let plain :=
        if Ascii.eqb c "%" || Ascii.eqb c "_" then None else String c <$> exact_pattern escape rest in
      match rest with
      | String c' rest' =>
          if bool_decide (escape = Some c) then String c' <$> exact_pattern escape rest' else plain
      | EmptyString => plain
      end
  end.

Definition narrowed_by (s : ListingScope) (at_ : Narrows) : list string :=
  match at_ with
  | CATALOGS => scope_catalogs s
  | SCHEMAS => scope_schemas s
  | TABLES => scope_tables s
  | OBJECTS => scope_objects s
  end.
Definition narrow (at_ : Narrows) (values : list string) (s : ListingScope) : ListingScope := {|
  scope_catalogs := match at_ with CATALOGS => values | _ => scope_catalogs s end;
  scope_schemas := match at_ with SCHEMAS => values | _ => scope_schemas s end;
  scope_tables := match at_ with TABLES => values | _ => scope_tables s end;
  scope_objects := match at_ with OBJECTS => values | _ => scope_objects s end |}.
(** The first constraint narrows; the WHERE has the rest *)
Definition take_values (at_ : option Narrows) (values : list string) (s : ListingScope) : ListingScope :=
  match at_ with
  | Some at_ => if empty_list (narrowed_by s at_) && negb (empty_list values) then narrow at_ (map Lower values) s else s
  | None => s
  end.

Definition visit_like (kind alias : string) (arguments : list (string * Expr)) (escape : option string) (s : ListingScope)
    : ListingScope :=
  match arguments with
  | (_, column) :: (_, pattern) :: _ =>
      match constant_text pattern, escape with
      | Some pattern, Some escape =>
          match exact_pattern (String.get 0 escape) pattern with
          | Some value => take_values (column_of kind alias column) [value] s
          | None => s
          end
      | _, _ => s
      end
  | _ => s
  end.
Fixpoint visit (kind alias : string) (s : ListingScope) (e : Expr) : ListingScope :=
  match e with
  | Operation _ op operands =>
      if String.eqb op CONJUNCTION_AND then fold_left (visit kind alias) operands s
      else if String.eqb op COMPARE_EQUAL then
        match operands with
        | [lhs; rhs] =>
            match constant_text rhs, constant_text lhs with
            | Some value, _ => take_values (column_of kind alias lhs) [value] s
            | None, Some value => take_values (column_of kind alias rhs) [value] s
            | None, None => s
            end
        | _ => s
        end
      else if String.eqb op COMPARE_IN then
        match operands with
        | column :: items =>
            match mapM constant_text items with
            | Some values => take_values (column_of kind alias column) values s
            | None => s
            end
        | [] => s
        end
      else s
  | Function _ name arguments _ _ _ =>
      let name := Tree.Name name in
      if String.eqb name "~~" && (length arguments =? 2)%nat then
        visit_like kind alias arguments (Some EmptyString) s
      else if String.eqb name "like_escape" && (length arguments =? 3)%nat then
        let escape :=
          match arguments !! 2%nat with
          | Some (_, e) =>
              match constant_text e with
              | Some escape => if (String.length escape =? 1)%nat then Some escape else None
              | None => None
              end
          | None => None
          end in
        visit_like kind alias arguments escape s
      else s
  | _ => s
  end.
Definition ScopeOf (surface alias : string) (column_alias : list string) : M ListingScope :=
  where_ ← gets listing_where;
  mret (match where_, column_alias with
        | Some e, [] => visit surface alias no_scope e
        | _, _ => no_scope
        end).
End refs.

Section subqueries.
Context `{SU : StringUtil} `{P : Parsing} `{PS : PolicySource} `{B : Batch}.

Definition subquery_ref (alias : string) (column_alias : list string) (sql : string) : M TableRef :=
  body ← InstantiateSelect sql; mret (SubqueryRef alias column_alias (Some body) None).

(** ** Metadata surfaces *)

(** At most the bound's rows and one more are produced; above the bound in force the statement is refused *)
Definition bounded_listing (surface : string) (node_bound : Z) (sql : string) : string :=
  let session := "nullif(current_setting('acl_metadata_max_rows')::BIGINT, 0)" in
  let session_bound :=
    if (0 <? node_bound)%Z then
      "least(coalesce(" +:+ session +:+ ", " +:+ pretty node_bound +:+ "), " +:+ pretty node_bound +:+ ")"
    else session in
  "SELECT * EXCLUDE (__acl_rows) FROM (SELECT *, count(*) OVER () AS __acl_rows FROM (SELECT * FROM (" +:+ sql
  +:+ ") __acl_listing" +:+ (if (0 <? node_bound)%Z then " LIMIT " +:+ pretty (iadd node_bound 1) else EmptyString)
  +:+ ")) __acl_bounded WHERE CASE WHEN __acl_rows > " +:+ session_bound +:+ " THEN error('acl: more than ' || "
  +:+ session_bound +:+ " || ' rows of " +:+ surface
  +:+ " - narrow by catalog, schema or name (acl_metadata_max_rows)') ELSE true END".
Definition BuildMetadataSubquery (surface alias : string) (column_alias : list string) : M TableRef :=
  scope ← ScopeOf surface alias column_alias;
  sql ← listing surface scope ("metadata is not available: this policy source cannot enumerate " +:+ surface);
  sql ← AppendTempListing surface sql;
  subquery_ref alias column_alias (bounded_listing surface MetadataMaxRows sql).

(** The object a listing function is asked about, empty for none *)
Definition object_argument (function what : string) (arguments : list (string * Expr)) : M string :=
  match arguments with
  | [] => mret EmptyString
  | [(_, Constant _ v)] => mret (value_text v)
  | [_] => Deny STATEMENT_TYPE (function +:+ " needs a constant object name")
  | _ => Deny STATEMENT_TYPE (function +:+ " takes at most one argument: " +:+ what)
  end.
Definition about_object (object : string) (s : ListingScope) : ListingScope :=
  if negb (is_empty object) && empty_list (scope_objects s) then narrow OBJECTS [Lower (ObjectKey object)] s else s.
Definition BuildReferencesSubquery (arguments : list (string * Expr)) (alias : string) : M TableRef :=
  object ← object_argument "acl_references" "the object to list references for" arguments;
  scope ← ScopeOf "references" alias [];
  sql ← listing "references" (about_object object scope)
          "references are not available: this policy source cannot enumerate them";
  let named := SqlLiteral (ObjectKey object) in
  subquery_ref alias []
    (if is_empty object then sql
     else "SELECT * FROM (" +:+ sql +:+ ") WHERE " +:+ KeyEqSql "from_object" named +:+ " OR " +:+ KeyEqSql "to_object" named).
Definition BuildKeysSubquery (arguments : list (string * Expr)) (alias : string) : M TableRef :=
  object ← object_argument "acl_keys" "the object to list the key of" arguments;
  scope ← ScopeOf "keys" alias [];
  sql ← listing "keys" (about_object object scope) "keys are not available: this policy source cannot enumerate them";
  subquery_ref alias []
    (if is_empty object then sql
     else "SELECT * FROM (" +:+ sql +:+ ") WHERE " +:+ KeyEqSql "object" (SqlLiteral (ObjectKey object))).

Definition lineage_catalog_argument (arguments : list (string * Expr)) : M string :=
  match arguments with
  | [] => mret EmptyString
  | [(_, Constant _ (VText s))] => mret s
  | [(_, Constant _ _)] => Deny STATEMENT_TYPE "acl_lineage_definitions takes one catalog's name"
  | [_] => Deny STATEMENT_TYPE "acl_lineage_definitions needs a constant catalog name"
  | _ => Deny STATEMENT_TYPE "acl_lineage_definitions takes at most one argument: the catalog"
  end.
Definition BuildLineageDefinitionsSubquery (arguments : list (string * Expr)) (alias : string) : M TableRef :=
  asked ← lineage_catalog_argument arguments;
  held ← ask (PrincipalCatalogsWithCap (who principal) "lineage");
  let catalogs :=
    List.filter (λ vcat, is_empty asked || CIEquals vcat asked || CIEquals (Unquote vcat) asked) held in
  when (empty_list catalogs)
    (Deny CAPABILITY
       (if is_empty asked then
          "acl_lineage_definitions needs the lineage capability on a catalog grant: a "
          +:+ "definition's lineage names the physical objects it is made of"
        else "acl_lineage_definitions: the lineage capability on catalog " +:+ quoted asked +:+ " is not granted"));;
  let refusal := "lineage definitions are not available: this policy source cannot enumerate them" in
  tables ← listing "tables" no_scope refusal;
  columns ← listing "columns" no_scope refusal;
  let d field := "d." +:+ quoted field in
  let object := d "catalog" +:+ ", " +:+ d "schema" +:+ ", " +:+ d "object" in
  subquery_ref alias []
    ("SELECT d.* FROM system.main.acl_lineage_definitions([" +:+ join ", " (map SqlLiteral catalogs)
     +:+ "]::VARCHAR[]) d WHERE (" +:+ object +:+ ") IN (SELECT table_catalog, table_schema, table_name FROM ("
     +:+ tables +:+ ")) AND (" +:+ d "field" +:+ " IS NULL OR " +:+ d "field" +:+ " = '' OR (" +:+ object +:+ ", "
     +:+ d "field" +:+ ") IN (SELECT table_catalog, table_schema, table_name, column_name FROM (" +:+ columns +:+ ")))").

(** One comparison for each argument that is not NULL *)
Fixpoint function_filters (columns : list string) (arguments : list (string * Expr)) : M (list string) :=
  match columns, arguments with
  | column :: columns, (_, argument) :: arguments =>
      match argument with
      | Constant _ v =>
          filters ← function_filters columns arguments;
          mret (match v with VNull => filters | _ => KeyEqSql column (SqlLiteral (value_text v)) :: filters end)
      | _ => Deny STATEMENT_TYPE "acl_function_columns needs constant arguments"
      end
  | _, _ => mret []
  end.
Definition BuildFunctionColumnsSubquery (arguments : list (string * Expr)) (alias : string) : M TableRef :=
  when (3 <? length arguments)%nat
    (Deny STATEMENT_TYPE "acl_function_columns takes at most three arguments: catalog, schema, function");;
  sql ← ask (PrincipalFunctionColumnsSql (who principal));
  filters ← function_filters ["database_name"; "schema_name"; "function_name"] arguments;
  subquery_ref alias []
    (if empty_list filters then sql else "SELECT * FROM (" +:+ sql +:+ ") WHERE " +:+ join " AND " filters).

(** ** The platform catalog *)

Definition BuildPlatformView (leaf key alias : string) (column_alias : list string) : M TableRef :=
  let refused {A} : M A := Deny NO_ACCESS ("no access to object " +:+ Shown key) in
  if PlatformHidden then refused
  else
    rights ← ask (AdminRightsOf (who principal));
    sql ← ask (PlatformViewSql rights leaf);
    match sql with
    | None => refused
    | Some sql => Note ("platform.main." +:+ Lower leaf) "select";; subquery_ref alias column_alias sql
    end.
Definition constant_argument (shown : string) (argument : string * Expr) : M Value :=
  match argument with
  | (EmptyString, Constant _ v) => mret v
  | _ => Deny STATEMENT_TYPE (shown +:+ " takes constant arguments")
  end.
Definition management_call {A} (shown : string) : M A :=
  Deny STATEMENT_TYPE (shown +:+ " is a management function - call it at the top level of a statement: SELECT "
    +:+ shown +:+ "(…) or CALL " +:+ shown +:+ "(…)").
(** A refusal inside the call for its SQL is noted as the authorizer's, whichever it was *)
Definition RewritePlatformTableFunction (leaf alias : string) (column_alias : list string)
    (arguments : list (string * Expr)) : M TableRef :=
  let shown := "platform." +:+ leaf in
  let refused {A} : M A := Deny NO_ACCESS ("no access to table function " +:+ quoted shown) in
  match FindPlatformFunction_ platform leaf with
  | None => refused
  | Some function =>
      when (negb (AdminRights.table function)) (management_call shown);;
      when PlatformHidden refused;;
      values ← mapM (constant_argument shown) arguments;
      sql ← catch id
        (rights ← ask (AdminRightsOf (who principal));
         sql ← ask (PlatformReadFunctionSql (who principal) rights leaf values);
         match sql with Some sql => mret sql | None => refused end)
        (λ binder message, NoteDenyReason MGMT_UNAUTHORIZED;; throw binder message);
      Note ("platform.main." +:+ Lower leaf) "select";;
      subquery_ref (if is_empty alias then leaf else alias) column_alias sql
  end.

(** ** Relations and virtual functions *)

Definition rename_items (policy : TablePolicy) : string :=
  if empty_list (renames policy) then "*" else "* RENAME (" +:+ join ", " (RenameItems policy) +:+ ")".
(** A relation read through a subquery: a view's SQL, a table's columns and rows, claims baked *)
Definition BuildTableSubquery (vname : string) (policy : TablePolicy) (alias : string) (column_alias : list string)
    (sample : option string) : M TableRef :=
  sql ← (if negb (is_empty (query policy)) then mret (query policy)
         else
           when (empty_list (projection policy) && is_empty (rls policy))
             (Deny POLICY_ERROR ("object " +:+ Shown vname +:+ " exposes no readable columns"));;
           let items :=
             if empty_list (projection policy) then rename_items policy else join ", " (projection policy) in
           from ← ReadFrom policy; mret ("SELECT " +:+ items +:+ from));
  NotePhysical (phys policy) vname;;
  body ← InstantiateSelect sql;
  body ← BakeNode None body;
  mret (SubqueryRef (if is_empty alias then vname else alias) column_alias (Some body) sample).
(** A renamed (or cast) relation that stays writable *)
Definition BuildRenamedSubquery (vname : string) (policy : TablePolicy) (alias : string) (column_alias : list string)
    (sample : option string) : M TableRef :=
  from ← ReadFrom policy;
  NotePhysical (phys policy) vname;;
  body ← InstantiateSelect ("SELECT " +:+ rename_items policy +:+ from);
  mret (SubqueryRef (if is_empty alias then vname else alias) column_alias (Some body) sample).

Definition BuildFunctionSubquery (vname : string) (policy : TablePolicy) (arguments : list Expr) (alias : string)
    (column_alias : list string) : M TableRef :=
  when (is_empty (query policy))
    (Deny POLICY_ERROR ("virtual table function " +:+ Shown vname +:+ " has no template"));;
  body ← InstantiateSelect (query policy);
  body ← BakeNode (Some arguments) body;
  mret (SubqueryRef (if is_empty alias then vname else alias) column_alias (Some body) None).

(** The call put where the wrapper names it *)
Fixpoint PlaceInner (call ref : TableRef) : option TableRef :=
  match ref with
  | BaseTable _ name _ _ _ => if CIEquals (Tree.Name name) "__acl_inner" then Some call else None
  | SubqueryRef a columns (Some (SelectNode c m items (Some from) w h y g)) sample =>
      from ← PlaceInner call from;
      Some (SubqueryRef a columns (Some (SelectNode c m items (Some from) w h y g)) sample)
  | _ => None
  end.
Definition wrapper_sql (policy : TablePolicy) : string :=
  if is_empty (wrap_sql policy) then
    "SELECT " +:+ (if empty_list (projection policy) then "*" else join ", " (projection policy)) +:+ " FROM "
    +:+ quoted "__acl_inner" +:+ (if is_empty (rls policy) then EmptyString else " WHERE " +:+ rls policy)
  else wrap_sql policy.
(** The grant's policy over what a table function returns *)
Definition WrapWithGrantPolicy (ref : TableRef) (policy : TablePolicy) (alias : string) : M TableRef :=
  if is_empty (rls policy) && empty_list (projection policy) && is_empty (wrap_sql policy) then mret ref
  else
    body ← InstantiateSelect (wrapper_sql policy);
    body ← BakeNode None body;
    let misplaced {A} : M A :=
      Deny POLICY_ERROR ("the grant's projection could not be applied to " +:+ quoted alias) in
    match body with
    | SelectNode c m items from w h y g =>
        match from ≫= PlaceInner (set_tref_alias EmptyString ref) with
        | Some from => mret (SubqueryRef alias [] (Some (SelectNode c m items (Some from) w h y g)) None)
        | None => misplaced
        end
    | _ => throw false "Failed to cast query node to type - query node type mismatch"
    end.

(** ** Result columns keep their names *)

Definition is_star (e : Expr) : bool := match e with Star _ _ _ _ _ _ _ => true | _ => false end.
(** An item duckdb expands into several columns; the star inside a COUNT of a relation is one count *)
Fixpoint ExpandsStar (e : Expr) : bool :=
  let below (count_star : bool) :=
    existsb id (over_children (λ c, negb (count_star && is_star c) && ExpandsStar c) e) in
  match e with
  | Star _ _ _ _ _ _ _ => true
  | Function _ name arguments _ _ _ => below (CIEquals (Tree.Name name) "count" && (length arguments =? 1)%nat)
  | Window _ name _ => below (CIEquals (Tree.Name name) "count")
  | _ => below false
  end.
Definition keep_name (e : Expr) : Expr :=
  if negb (is_empty (expr_alias e)) then e
  else match e with
       | Star _ _ _ _ _ _ _ | ColumnRef _ _ | Constant _ _ => e
       | _ => if ExpandsStar e then e else set_alias (expression_name e) e
       end.
Definition KeepItemNames (items : list Expr) : list Expr := map keep_name items.
End subqueries.

(** ** The target of a write *)
Section targets.
Context `{SU : StringUtil} `{P : Parsing} `{PS : PolicySource} `{B : Batch}.

Definition no_access {A} (key : string) : M A := Deny NO_ACCESS ("no access to object " +:+ Shown key).
Definition written_target (target : option TableRef) (target_name : QualifiedName) : QualifiedName :=
  match target with Some (BaseTable _ name _ _ _) => name | _ => target_name end.
(** The name swapped in place, the virtual one kept as the alias *)
Definition retarget (name : QualifiedName) (target : option TableRef) : option TableRef :=
  match target with
  | Some (BaseTable alias written columns at_ sample) =>
      Some (BaseTable (if is_empty alias then Tree.Name written else alias) name columns at_ sample)
  | _ => target
  end.

(** The session's own temp: the target and its name; none where it is not *)
Definition TryTempDmlTarget (target : option TableRef) (target_name : QualifiedName) (key : string)
    : M (option (option TableRef * QualifiedName)) :=
  allowed ← TempAllowed;
  if negb allowed then mret None
  else
    let written := written_target target target_name in
    if TempQualified written then modify (set_target key);; mret (Some (target, target_name))
    else if negb (BareName written) || is_surface (Tree.Name written) || negb (TempResolves (Tree.Name written)) then mret None
    else
      let temp := TempName (Tree.Name written) in
      modify (set_target key);; mret (Some (retarget temp target, temp)).

(** The columns a role of the verb reads as stored: none where it narrows nothing *)
Definition role_columns (key verb role : string) : M (option (list string)) :=
  own ← ask (ResolveTable (as_role role (who principal)) key verb);
  mret (match own with
        | None => None
        | Some own =>
            if negb (holds_cap own verb) || empty_list (visible_columns own) then None
            else Some (List.filter (λ name, negb (in_columns name (injections own)) && negb (in_columns name (narrowed_reads own)))
                         (visible_columns own))
        end).
Fixpoint united_columns (key verb : string) (roles : list string) (allowed : option (list string)) : M (option (list string)) :=
  match roles with
  | [] => mret allowed
  | role :: roles =>
      mine ← role_columns key verb role;
      united_columns key verb roles
        (match mine, allowed with
         | None, _ => allowed
         | Some mine, None => Some mine
         | Some mine, Some allowed => Some (List.filter (λ name, ci_mem name mine) allowed)
         end)
  end.
(** A name no column has: an empty set would read as every column *)
Definition no_column : string := str1 "001".
(** What the conditions of a write read where a role the verb unites may not read: the policy, and whether any such role
    narrows its columns *)
Definition VerbReadScope (key verb : string) (verb_policy : TablePolicy) : M (TablePolicy * bool) :=
  allowed ← united_columns key verb (roles (who principal)) None;
  mret (match allowed with
        | None => (verb_policy, false)
        | Some allowed => (reading_only (if empty_list allowed then [no_column] else allowed) verb_policy, true)
        end).

(** What RETURNING is refused with, the read policy where every role the verb unites reads *)
Definition read_side (key capability : string) (policy : TablePolicy) : M TablePolicy :=
  modify (set_read_policy policy);;
  if negb (holds_cap policy "select") then mret (refusing ("select on " +:+ Shown key +:+ " is not allowed") policy)
  else
    policy ← catch (λ _, true)
      (read ← ask (ResolveTable (who principal) key "select");
       (match read with
        | Some read => when (capability_rows_read policy) (modify (set_read_policy read))
        | None => mret ()
        end);;
       mret policy)
      (λ _ message, TakeDenyReason;; mret (refusing message policy));
    mret (if is_empty (returning_refused policy) && negb (capability_rows_read policy) then
            refusing ("a role that may " +:+ capability +:+ " " +:+ Shown key
                      +:+ " but not read it would widen what RETURNING returns") policy
          else policy).
Definition ResolveDmlName (target : option TableRef) (target_name : QualifiedName) (capability : string)
    : M (option TableRef * QualifiedName * TablePolicy) :=
  key ← Key (written_target target target_name);
  resolved ← ask (ResolveTable (who principal) key capability);
  match resolved with
  | None =>
      temp ← TryTempDmlTarget target target_name key;
      match temp with
      | Some (target, target_name) => mret (target, target_name, no_policy)
      | None =>
          called ← ask (ResolveTableFunction (who principal) key);
          scalar ← (match called with
                    | Some _ => mret called
                    | None => ask (ResolveScalarFunction (who principal) key)
                    end);
          match scalar with
          | Some _ => Deny STATEMENT_TYPE (Shown key +:+ " is a function, which is called rather than written")
          | None => no_access key
          end
      end
  | Some policy =>
      Note (if is_empty (canonical policy) then key else canonical policy) capability;;
      require (writable policy) READ_ONLY
        (capability +:+ " into read-only relation " +:+ Shown key +:+ " is not allowed");;
      require (holds_cap policy capability) CAPABILITY (capability +:+ " on " +:+ Shown key +:+ " is not allowed");;
      policy ← read_side key capability policy;
      when (negb (capability_rows_read policy))
        (scope ← VerbReadScope key capability policy; modify (set_read_policy scope.1));;
      phys_name ← ParsePhysName (phys policy);
      NotePhysical (phys policy) key;;
      modify (set_target key);;
      mret (retarget phys_name target, phys_name, policy)
  end.
(** A target that is no table name is left to the binder *)
Definition ResolveDmlTarget (target : option TableRef) (capability : string) : M (option TableRef * TablePolicy) :=
  match target with
  | Some (BaseTable _ name _ _ _) =>
      resolved ← ResolveDmlName target name capability; mret (resolved.1.1, resolved.2)
  | _ => mret (target, no_policy)
  end.

Definition updates_existing (conflict : option (OnConflictInfo Expr)) : bool :=
  match conflict with
  | Some c => bool_decide (action_type c = CONFLICT_UPDATE) || bool_decide (action_type c = CONFLICT_REPLACE)
  | None => false
  end.
Definition replaces_existing (conflict : option (OnConflictInfo Expr)) : bool :=
  match conflict with Some c => bool_decide (action_type c = CONFLICT_REPLACE) | None => false end.
Definition column_policy (p : TablePolicy) : bool :=
  negb (empty_list (visible_columns p)) || negb (empty_list (injections p)) || negb (empty_list (field_writes p))
  || negb (empty_list (write_columns p)) || negb (empty_list (narrowed_reads p)).
(** The policy of the update an INSERT's conflict clause is *)
Definition ConflictUpdatePolicy (conflict : option (OnConflictInfo Expr)) (insert : TablePolicy) (key : string) : M TablePolicy :=
  if negb (updates_existing conflict) then mret insert
  else
    resolved ← ask (ResolveTable (who principal) key "update");
    match resolved with
    | None => no_access key
    | Some update =>
        Note (if is_empty (canonical update) then key else canonical update) "update";;
        require (holds_cap update "update") CAPABILITY
          ("update on " +:+ Shown key +:+ " is not allowed - an ON CONFLICT DO UPDATE / INSERT OR REPLACE updates the row "
           +:+ "already there");;
        when (replaces_existing conflict
              && (negb (is_empty (rls update)) || negb (empty_list (injections update))
                  || negb (empty_list (write_columns update)) || negb (empty_list (field_writes update))
                  || negb (empty_list (visible_columns update))))
          (Deny WRITE_POLICY ("INSERT OR REPLACE into " +:+ Shown key +:+ " is not allowed under a row or column policy - "
             +:+ "write ON CONFLICT (…) DO UPDATE SET …, which the policy confines"));;
        restricted ←
          (if column_policy update then mret true
           else if holds_cap update "select" && capability_rows_read update then
             read ← ask (ResolveTable (who principal) key "select");
             mret (match read with Some read => column_policy read | None => false end)
           else scope ← VerbReadScope key "update" update; mret scope.2);
        when (negb (replaces_existing conflict) && restricted)
          (Deny WRITE_POLICY ("insert into " +:+ Shown key +:+ " cannot use ON CONFLICT DO UPDATE under a column policy - write an "
             +:+ "UPDATE, which the policy confines column by column"));;
        mret (if negb (holds_cap update "select") then refusing ("select on " +:+ Shown key +:+ " is not allowed") update
              else if negb (capability_rows_read update) then
                refusing ("a role that may update " +:+ Shown key +:+ " but not read it would widen what RETURNING returns") update
              else update)
    end.
End targets.
