(* ===== verification/Rewriter.v ===== *)
(** * The rewriter's walk

    [RewriteExpr], [RewriteQueryNode] and [RewriteTableRef] of [acl_rewriter.cpp].  A handler takes the walk of the nodes
    below as parameters; the walk ties them over a fuel, which [RewriterLaws] shows a tree's depth to be enough of. *)
From S2P Require Import Prelude NamePath FieldPaths FunctionCategories PolicyTypes Platform Token Tree RewriteData RewriteDml.
From S2P Require Import RewriteRefs.

Section handlers.
Context `{SU : StringUtil} `{JR : JsonReader} `{P : Parsing} `{PS : PolicySource} `{B : Batch}.
Variable RE : Expr → M Expr.
Variable RQ : Query → M Query.
Variable RT : TableRef → M TableRef.

(** ** Expressions *)

Definition RewriteFunctionArgs (arguments : list (string * Expr)) : M (list (string * Expr)) := mapM (for_snd RE) arguments.

(** A call as the gate admits it: its name and its arguments *)
Definition admitted_call (written : QualifiedName) (arguments : list (string * Expr))
    : M (QualifiedName * list (string * Expr)) :=
  let shown := "function " +:+ quoted (Tree.Name written) in
  admitted ← GateFunction written SCALAR shown true;
  match admitted with
  | Some key => mret (key, arguments)
  | None =>
      (* [x.lower()] is [lower] over the column [x] *)
      key ← AdmitFunction [Tree.Name written] SCALAR shown;
      mret (key, (EmptyString, ColumnRef EmptyString (qualifiers written)) :: arguments)
  end.

Definition rewrite_function (e : Expr) (alias : string) (written : QualifiedName) (arguments : list (string * Expr))
    (distinct : bool) (filter : option Expr) (order_by : list Expr) : M Expr :=
  let name := Tree.Name written in
  when (match PlatformObjectName (NameParts written) with
        | Some leaf => negb (bool_decide (is_Some (FindPlatformFunction_ platform leaf)))
        | None => false
        end)
    (Deny NO_ACCESS ("the platform catalog has no function "
       +:+ quoted (default EmptyString (PlatformObjectName (NameParts written)))));;
  when (IsPlatformFunctionName platform (NameParts written)) (management_call ("platform." +:+ name));;
  virtual ← ResolveVirtualFunction written false;
  match virtual with
  | Some (policy, resolved) =>
      read_gate ("a call of " +:+ resolved);;
      Note resolved "select";;
      require (holds_cap policy "select") CAPABILITY
        ("select on scalar function " +:+ quoted resolved +:+ " is not allowed");;
      arguments ← RewriteFunctionArgs arguments;
      if subquery_form policy then
        template ← BuildScalarExpr name policy (map snd arguments); mret (set_alias alias template)
      else
        phys ← ParsePhysName (phys policy); mret (Function alias phys arguments distinct filter order_by)
  | None =>
      if IsSessionIdentityCall written arguments then SubstituteSessionIdentity e name
      else
        call ← admitted_call written arguments;
        arguments ← GateTypeTextArguments (Tree.Name call.1) call.2;
        each_child RE (Function alias call.1 arguments distinct filter order_by)
  end.

Definition rewrite_expr (e : Expr) : M Expr :=
  match e with
  | Cast a child target => target ← GateTypeExpression target; each_child RE (Cast a child target)
  | TypeExpr _ _ _ _ _ => e ← GateTypeExpression e; each_child RE e
  | Subquery a k child body => body ← for_opt RQ body; each_child RE (Subquery a k child body)
  | ColumnRef _ names =>
      if IsSessionIdentityKeyword names then SubstituteSessionIdentity e (hd EmptyString names) else mret e
  | Function a name arguments distinct filter order_by => rewrite_function e a name arguments distinct filter order_by
  | Window a name operands =>
      key ← AdmitFunction name SCALAR ("function " +:+ quoted (Tree.Name name));
      each_child RE (Window a key operands)
  | _ => each_child RE e
  end.

(** ** Relations *)

Definition IsCteName (name : QualifiedName) : M bool :=
  scope ← gets cte_scope; mret (unqualified name && ci_mem (Tree.Name name) scope).
Definition or_name (alias name : string) : string := if is_empty alias then name else alias.

Definition rewrite_base (alias : string) (name : QualifiedName) (column_alias : list string) (at_clause : option Expr)
    (sample : option string) : M TableRef :=
  at_clause ← for_opt RE at_clause;
  cte ← IsCteName name;
  let vname := Tree.Name name in
  if (cte : bool) then mret (BaseTable alias name column_alias at_clause sample)
  else match PlatformObjectName (NameParts name) with
  | Some leaf => BuildPlatformView leaf (VirtualKey name) (or_name alias vname) column_alias
  | None =>
      key ← Key name;
      match MetadataSurfaceOf key with
      | Some surface => Note key "select";; BuildMetadataSubquery surface (or_name alias vname) column_alias
      | None =>
          read_gate ("a read of " +:+ Shown key);;
          resolved ← ask (ResolveTable (who principal) key "select");
          match resolved with
          | None =>
              temp ← TempAllowed;
              if temp && TempQualified name then mret (BaseTable alias name column_alias at_clause sample)
              else if temp && BareName name && TempResolves vname then
                mret (BaseTable (or_name alias vname) (TempName vname) column_alias at_clause sample)
              else no_access key
          | Some policy =>
              Note (if is_empty (canonical policy) then key else canonical policy) "select";;
              require (holds_cap policy "select") CAPABILITY ("select on " +:+ Shown key +:+ " is not allowed");;
              if subquery_form policy then BuildTableSubquery vname policy alias column_alias sample
              else if negb (empty_list (renames policy)) || negb (empty_list (casts policy)) then
                BuildRenamedSubquery vname policy alias column_alias sample
              else
                phys_name ← ParsePhysName (phys policy);
                NotePhysical (phys policy) (ChildKey EmptyString vname);;
                mret (BaseTable (or_name alias vname) phys_name column_alias at_clause sample)
          end
      end
  end.

Definition note_drain : M () :=
  note_on (λ e, entry_shape (entry_statement e) "drain" e);;
  drained ← gets drains; modify (set_drains (drained ++ [ingest_stream principal])).
Definition TakeArrowIngestFactory : M bool := there ← gets ingest_factory; modify (set_factory false);; mret there.

(** A table function past the virtual ones and the metadata ones *)
Definition physical_table_function (alias : string) (column_alias : list string) (function_alias : string)
    (written : QualifiedName) (arguments : list (string * Expr)) (distinct : bool) (filter : option Expr)
    (order_by : list Expr) (subquery : option Query) (bind_info : bool) : M TableRef :=
  let vname := Tree.Name written in
  let calling name arguments subquery bind_info :=
    TableFunction alias column_alias (Some (Function function_alias name arguments distinct filter order_by)) subquery bind_info in
  read_gate ("the table function " +:+ vname);;
  if negb (is_empty (ingest_stream principal)) && drain_function written && own_stream_argument arguments then
    name ← ParsePhysName "acl_quack_scan_data";
    note_drain;;
    mret (calling name arguments subquery bind_info)
  else if arrow_ingest principal && CIEquals vname "arrow_scan" then
    factory ← TakeArrowIngestFactory; mret (calling written arguments subquery (bind_info || factory))
  else
    key ← AdmitFunction written FunctionCategories.TABLE ("table function " +:+ Shown vname);
    arguments ← RewriteFunctionArgs arguments;
    subquery ← for_opt RQ subquery;
    mret (calling key arguments subquery bind_info).

Definition RewriteTableFunction (alias : string) (column_alias : list string) (function : option Expr)
    (subquery : option Query) (bind_info : bool) : M TableRef :=
  match function with
  | Some (Function function_alias written arguments distinct filter order_by) =>
      let leaf := Tree.Name written in
      match PlatformObjectName (NameParts written) with
      | Some platform_leaf => RewritePlatformTableFunction platform_leaf alias column_alias arguments
      | None =>
          virtual ← ResolveVirtualFunction written true;
          match virtual with
          | Some (policy, resolved) =>
              read_gate ("the table function " +:+ resolved);;
              Note resolved "select";;
              require (holds_cap policy "select") CAPABILITY
                ("select on table function " +:+ Shown resolved +:+ " is not allowed");;
              arguments ← RewriteFunctionArgs arguments;
              ref ← (if subquery_form policy then
                       BuildFunctionSubquery leaf policy (map snd arguments) alias column_alias
                     else
                       phys ← ParsePhysName (phys policy);
                       mret (TableFunction alias column_alias
                               (Some (Function function_alias phys arguments distinct filter order_by)) subquery bind_info));
              WrapWithGrantPolicy ref policy (or_name alias leaf)
          | None =>
              match MetadataSurfaceOf leaf with
              | Some surface =>
                  when (negb (empty_list arguments)) (Deny STATEMENT_TYPE (Shown leaf +:+ " takes no arguments"));;
                  BuildMetadataSubquery surface (or_name alias leaf) column_alias
              | None =>
                  if CIEquals leaf "acl_keys" then BuildKeysSubquery arguments (or_name alias leaf)
                  else if CIEquals leaf "acl_function_columns" then BuildFunctionColumnsSubquery arguments (or_name alias leaf)
                  else if CIEquals leaf "acl_lineage_definitions" then
                    BuildLineageDefinitionsSubquery arguments (or_name alias leaf)
                  else if CIEquals leaf "acl_references" then BuildReferencesSubquery arguments (or_name alias leaf)
                  else physical_table_function alias column_alias function_alias written arguments distinct filter order_by
                         subquery bind_info
              end
          end
      end
  | _ => Deny STATEMENT_TYPE "unsupported table function form"
  end.

(** *** SHOW, DESCRIBE, SUMMARIZE *)

(** What DESCRIBE binds is described, never read: the depth comes back whichever way the walk ends *)
Definition within_describe {A} (m : M A) : M A := λ s,
  let '(s', r) := m (set_describing (S (describing s)) s) in (set_describing (pred (describing s')) s', r).

Definition ShowTarget (name : QualifiedName) : string :=
  let shown := Lower (Tree.Name name) in
  match shown with
  | String c rest =>
      if Ascii.eqb c dquote then
        match split_last dquote rest with
        | Some (inner, EmptyString) => inner
        | _ => shown
        end
      else shown
  | EmptyString => shown
  end.
Definition show_surface (asked : string) : string :=
  if String.eqb asked "databases" then "show_databases"
  else if String.eqb asked "schemas" then "show_schemas"
  else if String.eqb asked "__show_tables_expanded" then "show_tables_expanded"
  else "show_tables".
(** The schema a SHOW TABLES lists *)
Definition show_filter (show : ShowType) (name : QualifiedName) : M string :=
  s ← get;
  let use := negb (is_empty (use_catalog s)) || negb (is_empty (use_schema s)) in
  if bool_decide (show = SHOW_FROM) then
    let parts := NameParts name ++ (if is_empty (Tree.Name name) then [] else [Tree.Name name]) in
    match rev parts with
    | [] => Deny STATEMENT_TYPE "SHOW TABLES FROM needs a schema"
    | schema :: qualifiers =>
        let by_schema := " WHERE " +:+ KeyEqSql "table_schema" (SqlLiteral (Display (QuotePart schema))) in
        match qualifiers with
        | catalog :: _ => mret (by_schema +:+ " AND " +:+ KeyEqSql "table_catalog" (SqlLiteral catalog))
        | [] =>
            if use then catalog ← UseCatalog; mret (by_schema +:+ " AND table_catalog = " +:+ SqlLiteral (Unquote catalog))
            else mret by_schema
        end
    end
  else if use then
    catalog ← UseCatalog;
    mret (" WHERE table_catalog = " +:+ SqlLiteral (Unquote catalog) +:+ " AND table_schema = "
          +:+ SqlLiteral (if is_empty (use_schema s) then "main" else Display (use_schema s)))
  else mret " WHERE table_schema = 'main'".
Definition show_listing (show : ShowType) (name : QualifiedName) : M TableRef :=
  let asked := ShowTarget name in
  let from := bool_decide (show = SHOW_FROM) in
  when (String.eqb asked "variables")
    (Deny STATEMENT_TYPE ("SHOW VARIABLES is not available under ACL: session variables are not part of a "
       +:+ "principal's catalog"));;
  use ← use_in_force;
  if existsb (String.eqb asked) ["databases"; "schemas"; "__show_tables_expanded"]
     || (String.eqb asked "tables" && negb from && negb use)
  then
    sql ← listing (show_surface asked) no_scope
            ("metadata is not available: this policy source cannot enumerate " +:+ asked);
    sql ← AppendTempListing (show_surface asked) sql;
    SubqueryOf sql
  else
    sql ← listing "tables" no_scope "metadata is not available: this policy source cannot enumerate tables";
    filter ← show_filter show name;
    let sql := "SELECT table_name AS name FROM (" +:+ sql +:+ ")" +:+ filter +:+ " ORDER BY 1" in
    sql ← (if from then mret sql else AppendTempListing "show_tables" sql);
    SubqueryOf sql.
Definition RewriteShowRef (alias : string) (show : ShowType) (name : QualifiedName) (body : option Query) : M TableRef :=
  when (metadata_only && bool_decide (show = SHOW_SUMMARY)) (MetadataOnly "SUMMARIZE");;
  within_describe
    (match body with
     | Some body => body ← RQ body; mret (ShowRef alias show name (Some body))
     | None =>
         if bool_decide (show = SHOW_DESCRIBE) || bool_decide (show = SHOW_SUMMARY) then
           body ← RQ (select_from [star_all] (BaseTable EmptyString name [] None None));
           mret (ShowRef alias show [] (Some body))
         else show_listing show name
     end).

Definition rewrite_pivot (p : PivotColumn Expr Query) : M (PivotColumn Expr Query) :=
  expressions ← mapM RE (pivot_expressions p);
  entries ← mapM (for_opt RE) (pivot_entries p);
  subquery ← for_opt RQ (pivot_subquery p);
  mret {| pivot_expressions := expressions; pivot_entries := entries; pivot_subquery := subquery |}.

Definition rewrite_ref (r : TableRef) : M TableRef :=
  match r with
  | BaseTable alias name columns at_clause sample => rewrite_base alias name columns at_clause sample
  | SubqueryRef alias columns body sample => body ← for_opt RQ body; mret (SubqueryRef alias columns body sample)
  | JoinRef alias lhs rhs condition ranking duplicate_eliminated =>
      lhs ← RT lhs;
      rhs ← RT rhs;
      condition ← for_opt RE condition;
      ranking ← for_opt RE ranking;
      when (negb (empty_list duplicate_eliminated))
        (Deny STATEMENT_TYPE "table reference form is not permitted under ACL");;
      mret (JoinRef alias lhs rhs condition ranking duplicate_eliminated)
  | TableFunction alias columns function subquery bind_info => RewriteTableFunction alias columns function subquery bind_info
  | ShowRef alias show name body => RewriteShowRef alias show name body
  | PivotRef alias source aggregates pivots =>
      source ← RT source;
      aggregates ← mapM RE aggregates;
      pivots ← mapM rewrite_pivot pivots;
      mret (PivotRef alias source aggregates pivots)
  | EmptyFrom => mret EmptyFrom
  | ExpressionList alias values => values ← mapM (mapM RE) values; mret (ExpressionList alias values)
  | OtherRef _ => Deny STATEMENT_TYPE "table reference form is not permitted under ACL"
  end.

(** ** Writes *)

(** An expression of a write: rewritten, its columns the target's, its reads what the principal reads *)
Definition map_expr (policy : TablePolicy) (vname target : string) (e : Expr) : M Expr :=
  e ← RE e; MapColumnRefs policy vname target e.

Definition ApplyConflictPolicy (insert policy : TablePolicy) (vname : string) (conflict : OnConflictInfo Expr)
    : M (OnConflictInfo Expr) :=
  condition ← for_opt (map_expr insert vname EmptyString) (conflict_condition conflict);
  set ← for_opt (λ set,
    columns ← mapM (MapWritableColumn policy vname) (set_columns set);
    expressions ← mapM (map_expr policy vname EmptyString) (set_expressions set);
    set ← ApplySetInjections policy vname
            {| set_columns := columns; set_expressions := expressions; set_condition := set_condition set |};
    condition ← for_opt (map_expr policy vname EmptyString) (set_condition set);
    condition ← AndPolicyPredicate condition policy;
    ApplyUpdateCheck policy vname EmptyString
      {| set_columns := set_columns set; set_expressions := set_expressions set; set_condition := condition |})
    (conflict_set conflict);
  mret {| action_type := action_type conflict; conflict_condition := condition; conflict_set := set |}.

Definition RewriteInsertNode (ctes : list (string * option Query)) (modifiers : list Expr) (target : option TableRef)
    (target_name : QualifiedName) (columns : list string) (source : option Query)
    (conflict : option (OnConflictInfo Expr)) (default_values by_name : bool) (returning : list Expr) : M Query :=
  '(target, target_name, policy) ← ResolveDmlName target target_name "insert";
  vname ← gets dml_target_name;
  columns ← mapM (MapWrittenColumn policy vname) columns;
  source ← for_opt RQ source;
  '(columns, source) ← ApplyInsertPolicy columns default_values by_name source conflict policy vname;
  source ← ApplyInsertCheck columns default_values source policy vname;
  conflict_update ← ConflictUpdatePolicy conflict policy vname;
  conflict ← for_opt (ApplyConflictPolicy policy conflict_update vname) conflict;
  let policy :=
    if negb (updates_existing conflict) then refusing EmptyString policy
    else if negb (is_empty (returning_refused conflict_update)) then refusing (returning_refused conflict_update) policy
    else policy in
  returning ← mapM (λ item,
    item ← map_expr policy vname EmptyString item;
    mret (MapTargetQualifier vname (Tree.Name target_name) item)) returning;
  RequireReadableReturning returning policy vname;;
  mret (InsertNode ctes modifiers target target_name columns source conflict default_values by_name returning).

(** What a write's conditions are mapped under: the verb's policy, the read policy, the target and the others in scope *)
Record write_scope := {
  w_policy : TablePolicy;
  w_reads : TablePolicy;
  w_vname : string;
  w_alias : string;
  w_single : bool;
  w_others : list string;
}.
(** The target's alias where another relation is in scope *)
Definition w_target (w : write_scope) : string := if w_single w then EmptyString else w_alias w.
Definition read_expr (w : write_scope) (target : string) (e : Expr) : M Expr :=
  e ← map_expr (w_policy w) (w_vname w) target e;
  MapReadable (w_reads w) (w_vname w) (w_alias w) (w_single w) (w_others w) e.
(** The predicate AND-ed into the statement's condition *)
Definition confine (w : write_scope) (condition : option Expr) : M (option Expr) :=
  if w_single w then AndPolicyPredicate condition (w_policy w)
  else predicate ← TargetPredicate (w_policy w) (w_alias w) (w_vname w); mret (AndInto condition predicate).
(** A SET list: its columns writable, its values read as the principal reads, the grant's own assigned and checked *)
Definition write_set (w : write_scope) (target : string) (set : UpdateSetInfo Expr) : M (UpdateSetInfo Expr) :=
  columns ← mapM (MapWritableColumn (w_policy w) (w_vname w)) (set_columns set);
  expressions ← mapM (read_expr w target) (set_expressions set);
  set ← ApplySetInjections (w_policy w) (w_vname w)
          {| set_columns := columns; set_expressions := expressions; set_condition := set_condition set |};
  set ← ApplyFieldWrites (w_policy w) (w_vname w) (w_target w) set;
  ApplyUpdateCheck (w_policy w) (w_vname w) (w_target w) set.
Definition with_condition (condition : option Expr) (set : UpdateSetInfo Expr) : UpdateSetInfo Expr :=
  {| set_columns := set_columns set; set_expressions := set_expressions set; set_condition := condition |}.
Definition returning_of (policy : TablePolicy) (vname target : string) (returning : list Expr) : M (list Expr) :=
  returning ← mapM (map_expr policy vname target) returning;
  RequireReadableReturning returning policy vname;;
  mret returning.

Definition RewriteUpdateNode (ctes : list (string * option Query)) (modifiers : list Expr) (target from : option TableRef)
    (set_info : option (UpdateSetInfo Expr)) (returning : list Expr) : M Query :=
  '(target, policy) ← ResolveDmlTarget target "update";
  vname ← gets dml_target_name;
  reads ← gets dml_read_policy;
  from ← for_opt RT from;
  let w := {| w_policy := policy; w_reads := reads; w_vname := vname; w_alias := TargetAliasOf target;
              w_single := negb (bool_decide (is_Some from)); w_others := RefNames from |} in
  set_info ← for_opt (λ set,
    set ← write_set w EmptyString set;
    condition ← for_opt (read_expr w (w_target w)) (set_condition set);
    condition ← confine w condition;
    mret (with_condition condition set)) set_info;
  returning ← returning_of policy vname EmptyString returning;
  mret (UpdateNode ctes modifiers target from set_info returning).

Definition RewriteDeleteNode (ctes : list (string * option Query)) (modifiers : list Expr) (target : option TableRef)
    (using_ : list TableRef) (condition : option Expr) (returning : list Expr) : M Query :=
  '(target, policy) ← ResolveDmlTarget target "delete";
  vname ← gets dml_target_name;
  reads ← gets dml_read_policy;
  using_ ← mapM RT using_;
  let w := {| w_policy := policy; w_reads := reads; w_vname := vname; w_alias := TargetAliasOf target;
              w_single := empty_list using_; w_others := concat (map CollectRefNames using_) |} in
  condition ← for_opt (read_expr w (w_target w)) condition;
  condition ← confine w condition;
  returning ← returning_of policy vname EmptyString returning;
  mret (DeleteNode ctes modifiers target using_ condition returning).

Definition rewrite_action (w : write_scope) (matched : MergeActionCondition) (a : MergeIntoAction Expr)
    : M (MergeIntoAction Expr) :=
  let vname := w_vname w in
  condition ← for_opt (read_expr w (w_alias w)) (merge_condition a);
  when (bool_decide (merge_type a = MERGE_UPDATE) && HasWritePolicy (w_policy w)
        && match update_info a with Some set => empty_list (set_columns set) | None => true end)
    (Deny WRITE_POLICY ("the update branch of a merge into " +:+ Shown vname +:+ " must name its columns"));;
  condition ← (if bool_decide (matched = WHEN_NOT_MATCHED_BY_SOURCE) then
                 predicate ← TargetPredicate (w_policy w) (w_alias w) vname; mret (AndInto condition predicate)
               else mret condition);
  update ← for_opt (λ set,
    set ← write_set w (w_alias w) set;
    condition ← for_opt (read_expr w (w_alias w)) (set_condition set);
    mret (with_condition condition set)) (update_info a);
  expressions ← mapM (map_expr (w_policy w) vname (w_alias w)) (merge_expressions a);
  let a := {| merge_type := merge_type a; merge_condition := condition; update_info := update;
              insert_columns := insert_columns a; merge_expressions := expressions;
              merge_default_values := merge_default_values a; merge_by_name := merge_by_name a |} in
  if bool_decide (merge_type a = MERGE_INSERT) then
    a ← ApplyMergeInsertPolicy (w_policy w) vname a; ApplyMergeInsertCheck (w_policy w) vname a
  else mret a.
Definition RewriteMergeNode (ctes : list (string * option Query)) (modifiers : list Expr) (target source : option TableRef)
    (join_condition : option Expr) (actions : list (MergeActionCondition * list (MergeIntoAction Expr)))
    (returning : list Expr) : M Query :=
  '(target, policy) ← ResolveDmlTarget target "merge";
  vname ← gets dml_target_name;
  reads ← gets dml_read_policy;
  source ← for_opt RT source;
  let w := {| w_policy := policy; w_reads := reads; w_vname := vname; w_alias := TargetAliasOf target;
              w_single := false; w_others := RefNames source |} in
  join_condition ← for_opt (read_expr w (w_alias w)) join_condition;
  join_condition ← confine w join_condition;
  actions ← mapM (λ set, actions ← mapM (rewrite_action w set.1) set.2; mret (set.1, actions)) actions;
  returning ← returning_of policy vname (w_alias w) returning;
  mret (MergeNode ctes modifiers target source join_condition actions returning).

(** ** Query nodes *)

Definition RewriteSelectNode (ctes : list (string * option Query)) (modifiers : list Expr) (items : list Expr)
    (from : option TableRef) (where_clause having qualify : option Expr) (groups : list Expr) : M Query :=
  let items := KeepItemNames items in
  outer ← gets listing_where;
  modify (set_listing_where where_clause);;
  from ← for_opt RT from;
  modify (set_listing_where outer);;
  items ← mapM RE items;
  where_clause ← for_opt RE where_clause;
  having ← for_opt RE having;
  qualify ← for_opt RE qualify;
  groups ← mapM RE groups;
  mret (SelectNode ctes modifiers items from where_clause having qualify groups).

Definition rewrite_body (q : Query) : M Query :=
  match q with
  | SelectNode c m items from where_clause having qualify groups =>
      RewriteSelectNode c m items from where_clause having qualify groups
  | SetOperation c m children => children ← mapM RQ children; mret (SetOperation c m children)
  | CteNode c m query child => query ← for_opt RQ query; child ← for_opt RQ child; mret (CteNode c m query child)
  | RecursiveCte c m name lhs rhs =>
      scope ← gets cte_scope;
      modify (set_scope (scope ++ [name]));;
      lhs ← for_opt RQ lhs;
      rhs ← for_opt RQ rhs;
      mret (RecursiveCte c m name lhs rhs)
  | InsertNode c m target target_name columns source conflict default_values by_name returning =>
      RewriteInsertNode c m target target_name columns source conflict default_values by_name returning
  | UpdateNode c m target from set_info returning => RewriteUpdateNode c m target from set_info returning
  | DeleteNode c m target using_ condition returning => RewriteDeleteNode c m target using_ condition returning
  | MergeNode c m target source join_condition actions returning =>
      RewriteMergeNode c m target source join_condition actions returning
  | OtherNode _ _ => Deny STATEMENT_TYPE "query node type is not permitted under ACL"
  end.
(** A node's CTEs shadow the catalog in it and below *)
Definition rewrite_query (q : Query) : M Query :=
  saved ← gets cte_scope;
  modify (set_scope (saved ++ map fst (node_ctes q)));;
  ctes ← mapM (for_snd (for_opt RQ)) (node_ctes q);
  modifiers ← mapM RE (node_modifiers q);
  q ← rewrite_body (with_heads ctes modifiers q);
  modify (set_scope saved);;
  mret q.
End handlers.

Section walk.
Context `{SU : StringUtil} `{JR : JsonReader} `{P : Parsing} `{PS : PolicySource} `{B : Batch}.

Fixpoint RewriteExpr (fuel : nat) (e : Expr) : M Expr :=
  match fuel with
  | 0 => exhausted
  | S fuel => rewrite_expr (RewriteExpr fuel) (RewriteQueryNode fuel) e
  end
with RewriteQueryNode (fuel : nat) (q : Query) : M Query :=
  match fuel with
  | 0 => exhausted
  | S fuel => rewrite_query (RewriteExpr fuel) (RewriteQueryNode fuel) (RewriteTableRef fuel) q
  end
with RewriteTableRef (fuel : nat) (r : TableRef) : M TableRef :=
  match fuel with
  | 0 => exhausted
  | S fuel => rewrite_ref (RewriteExpr fuel) (RewriteQueryNode fuel) (RewriteTableRef fuel) r
  end.

(** The whole of a tree *)
Definition rewrite_query_whole (q : Query) : M Query := RewriteQueryNode (query_depth q) q.
Definition rewrite_expr_whole (e : Expr) : M Expr := RewriteExpr (depth e) e.
Definition rewrite_ref_whole (r : TableRef) : M TableRef := RewriteTableRef (tref_depth r) r.
End walk.
