(* ===== verification/RewriteDdl.v ===== *)
(** * Statements through the rewriter

    [RewriteStatement] of [acl_rewriter.cpp] and what it dispatches to: the DDL a granted schema takes, secrets, session
    temps, SET and USE, the PRAGMAs answered as SELECTs, CALL, the parser's PIVOT; then a batch ([RewriteStatements]) and
    the origins of its result columns. *)
From S2P Require Import AdminRights.
From S2P Require Import Prelude NamePath Prefix FieldPaths FunctionCategories PolicyTypes Platform Token Tree RewriteData RewriteDml.
From S2P Require Import RewriteRefs Rewriter.

Section statements.
Context `{SU : StringUtil} `{JR : JsonReader} `{P : Parsing} `{PS : PolicySource} `{B : Batch}.

Definition follow_up (s : SQLStatement) : M () :=
  queued ← gets follow_ups; modify (set_follow_ups (queued ++ [s])).
Definition drop_it : M () := modify (set_drop true).
(** The record a statement writes: a statement of the batch *)
Definition AclRecord (function : string) (arguments : list string) : SQLStatement :=
  PragmaStatement EmptyString function (map text_value arguments).
Definition record (function : string) (arguments : list string) : M () := follow_up (AclRecord function arguments).

(** ** CREATE *)

Definition with_name (name : QualifiedName) (info : CreateInfo) : CreateInfo :=
  {| create_name := name; temporary := temporary info; on_conflict := on_conflict info |}.
Definition with_on_conflict (c : OnCreateConflict) (info : CreateInfo) : CreateInfo :=
  {| create_name := create_name info; temporary := temporary info; on_conflict := c |}.
Definition replaces (info : CreateInfo) : bool := bool_decide (on_conflict info = REPLACE_ON_CONFLICT).
Definition ignores (info : CreateInfo) : bool := bool_decide (on_conflict info = IGNORE_ON_CONFLICT).

(** REPLACE needs the drop capability on the schema that hosts the create *)
Definition RequireReplaceDroppable (info : CreateInfo) (key : string) (target : DdlTarget) : M () :=
  if negb (replaces info) then mret ()
  else
    dropped ← ask (ResolveDdlTarget (who principal) key "drop");
    require (match dropped with
             | Some d => String.eqb (vcat d) (vcat target) && String.eqb (schema_path d) (schema_path target)
             | None => false
             end) DDL_HOME
      ("CREATE OR REPLACE drops " +:+ quoted key
       +:+ " before it creates, so it needs the drop capability on the schema that hosts it");;
    Note key "drop".
(** Whether to proceed: IF NOT EXISTS on a taken name is a no-op *)
Definition AdmitRecordConflict (info : CreateInfo) (vcat key : string) : M bool :=
  taken ← ask (CatalogObjectExists vcat key "relation");
  if negb taken then mret true
  else if ignores info then mret false
  else require (replaces info) DDL_HOME (Shown key +:+ " already exists");; mret true.
(** A name that differs from one the catalog holds only by case is refused before anything is created *)
Definition RequireNoCaseSibling (target : DdlTarget) : M () :=
  catch id (ask (SpellName (vcat target) (vname target) true);; mret ()) (λ _ message, Deny DDL_HOME message).

Definition rewrite_column (c : ColumnDefinition) : M ColumnDefinition :=
  type ← for_opt GateTypeExpression (column_type c);
  default_ ← for_opt rewrite_expr_whole (default_value c);
  generated_ ← for_opt rewrite_expr_whole (generated c);
  mret {| column_type := type; default_value := default_; generated := generated_ |}.
Definition rewrite_constraint (c : Constraint) : M Constraint :=
  match c with
  | CHECK e => e ← rewrite_expr_whole e; mret (CHECK e)
  | OtherConstraint => mret OtherConstraint
  end.
Definition RewriteColumnDefinitions (columns : list ColumnDefinition) (constraints : list Constraint)
    : M (list ColumnDefinition * list Constraint) :=
  columns ← mapM rewrite_column columns;
  constraints ← mapM rewrite_constraint constraints;
  mret (columns, constraints).

Definition RewriteCreateTempTable (info : CreateInfo) (columns : list ColumnDefinition) (constraints : list Constraint)
    (body : option Query) : M CreateForm :=
  allowed ← TempAllowed;
  require allowed CAPABILITY "temporary objects need the temp capability on the MAIN catalog grant";;
  let bare := Tree.Name (create_name info) in
  require (forallb (λ q, String.eqb (Lower q) "temp" || String.eqb (Lower q) "main")
             (removelast (NameParts (create_name info)))) DDL_HOME
    ("a temporary table lives in the session, not in a schema - write CREATE TEMP TABLE " +:+ bare);;
  Note bare "temp";;
  use ← use_in_force;
  in_session ← (if (use : bool) then
                  catalog ← UseCatalog; schema ← gets use_schema; mret (ChildKey (JoinKeys catalog schema) bare)
                else mret EmptyString);
  granted ← ask (ResolveTable (who principal) bare "select");
  shadows ← (match granted with
             | Some _ => mret true
             | None =>
                 if is_empty in_session then mret false
                 else
                   policy ← ask (ResolveTable (who principal) in_session "select");
                   mret (match policy with Some policy => negb (from_schema_alias policy) | None => false end)
             end);
  when shadows
    (Deny DDL_HOME (quoted bare +:+ " is a granted object of the catalog, so a temporary table of that name would be "
       +:+ "unreachable - pick another name"));;
  when (is_surface bare)
    (Deny DDL_HOME (quoted bare +:+ " is a metadata surface, which always wins bare-name resolution - a temporary "
       +:+ "table of that name would be unreachable"));;
  body ← for_opt rewrite_query_whole body;
  '(columns, constraints) ← RewriteColumnDefinitions columns constraints;
  mret (CreateTable info columns constraints body).

Definition create_home (key : string) : M DdlTarget :=
  target ← ask (ResolveDdlTarget (who principal) key "create");
  match target with
  | Some target => mret target
  | None => Deny DDL_HOME ("no schema of the catalog allows creating " +:+ Shown key)
  end.
Definition register_arguments (target : DdlTarget) (phys : string) : list string :=
  [vcat target; vname target; phys; origin target; AuthorOf (who principal)].
Definition RewriteCreateTable (info : CreateInfo) (columns : list ColumnDefinition) (constraints : list Constraint)
    (body : option Query) : M CreateForm :=
  body ← for_opt rewrite_query_whole body;
  '(columns, constraints) ← RewriteColumnDefinitions columns constraints;
  let table info := CreateTable info columns constraints body in
  key ← Key (create_name info);
  target ← create_home key;
  RequireNoCaseSibling target;;
  Note key "create";;
  when (arrow_ingest principal && (virtual_only target || needs_record target))
    (Deny DDL_HOME ("an ingest creates a table only where no catalog record is kept for it (a live "
       +:+ "alias's schema, a session temp): " +:+ Shown key
       +:+ " needs one - CREATE the table with SQL, then ingest into it"));;
  RequireReplaceDroppable info key target;;
  proceed ← AdmitRecordConflict info (vcat target) (vname target);
  if negb proceed then drop_it;; mret (table info)
  else
    let phys := ChildKey (phys_schema target) (Tree.Name (create_name info)) in
    if virtual_only target then
      drop_it;; record "acl_register_existing" (register_arguments target phys);; mret (table info)
    else
      name ← ParsePhysName phys;
      let info := with_name name info in
      if needs_record target then
        record "acl_register_created" (register_arguments target phys);;
        mret (table (if ignores info then with_on_conflict ERROR_ON_CONFLICT info else info))
      else mret (table info).

Definition RewriteCreateView (info : CreateInfo) (body : option Query) : M CreateForm :=
  when (temporary info) (Deny DDL_HOME "temporary objects are not available through the ACL yet");;
  match body with
  | None => Deny STATEMENT_TYPE "a view needs a query"
  | Some body =>
      key ← Key (create_name info);
      target ← create_home key;
      RequireNoCaseSibling target;;
      Note key "create";;
      RequireReplaceDroppable info key target;;
      proceed ← AdmitRecordConflict info (vcat target) (vname target);
      if negb proceed then drop_it;; mret (CreateView info (Some body))
      else
        modify (set_keep_markers true);;
        body ← rewrite_query_whole body;
        modify (set_keep_markers false);;
        drop_it;;
        record "acl_register_view" [vcat target; vname target; query_text body; AuthorOf (who principal)];;
        mret (CreateView info (Some body))
  end.

(** A schema the principal holds exists already; another is the operator's to declare *)
Definition RewriteCreateSchema (info : CreateInfo) : M CreateForm :=
  let key := VirtualKey (create_name info) in
  let parts := NameParts (create_name info) in
  catalog ← gets use_catalog;
  in_session ←
    (if negb (is_empty catalog) && negb (is_empty key) then
       if (length parts =? 1)%nat then mret true
       else held ← HoldsCatalog (QuotePart (hd EmptyString parts)); mret (negb held)
     else mret false);
  let written := if (in_session : bool) then JoinKeys catalog key else key in
  held ← (if is_empty written then mret None else ask (ResolveHeldSchema (who principal) written));
  match held with
  | None =>
      Deny STATEMENT_TYPE ("only tables and views can be created through the ACL - a schema is " +:+ "the operator's to declare")
  | Some (vcat, path) =>
      Note (JoinKeys vcat path) "schema";;
      require (ignores info) DDL_HOME ("schema " +:+ quoted written +:+ " already exists");;
      drop_it;; mret (CreateSchema info)
  end.

(** ** Secrets *)

Definition LocalSecrets (named : string) : M bool :=
  if is_empty named && negb ClusterNode then attached ← ask SecretServiceAttached; mret (negb attached) else mret false.
Definition RequireSecrets (verb : string) : M () :=
  held ← ask (PrincipalMainCap (who principal) "secrets");
  require held CAPABILITY (verb +:+ " a secret needs the secrets capability - granted by name on the "
    +:+ "principal's MAIN catalog grant, never implied").
Definition secret_shape (name : string) (arguments : list (string * Expr)) : bool :=
  existsb (String.eqb name) ["list_value"; "array_value"; "struct_pack"; "row"; "map"]
  || (String.eqb name "-" && (length arguments =? 1)%nat).
(** Literals, and lists, structs and maps of them *)
Fixpoint RequireSecretConstant (e : Expr) : M () :=
  let refused : M () := Deny STATEMENT_TYPE "a secret's parameters are constants - literals, or lists of them" in
  match e with
  | Constant _ _ => mret ()
  | Cast _ child _ => RequireSecretConstant child
  | Function _ name arguments distinct filter order_by =>
      let builtin := forallb (λ q, is_empty q || CIEquals q "system" || CIEquals q "main") (qualifiers name) in
      if builtin && secret_shape (Lower (Tree.Name name)) arguments && negb distinct
         && match filter with None => true | _ => false end && empty_list order_by
      then iterM id (map (λ a, RequireSecretConstant a.2) arguments)
      else refused
  | _ => refused
  end.
Definition temporary_secret (p : SecretPersistType) : bool :=
  bool_decide (p = TEMPORARY) || bool_decide (p = TRANSACTION).
Definition RewriteCreateSecret (info : CreateSecretInfo) : M CreateForm :=
  RequireSecrets "creating";;
  local ← LocalSecrets (storage_type info);
  when (negb local && temporary_secret (persist_type info))
    (Deny STATEMENT_TYPE ("a temporary secret is kept by this node, not by its secrets service - "
       +:+ "CREATE [PERSISTENT] SECRET keeps it in the service"));;
  iterM RequireSecretConstant
    (option_list (secret_type info) ++ option_list (secret_provider info) ++ option_list (secret_scope info)
     ++ map snd (secret_options info));;
  if (local : bool) then Note (secret_name info) "secrets";; mret (CreateSecret info)
  else
    service ← ask (SecretService (storage_type info));
    Note (service +:+ "." +:+ secret_name info) "secrets";;
    mret (CreateSecret {| secret_name := secret_name info; storage_type := service; persist_type := persist_type info;
                          secret_type := secret_type info; secret_provider := secret_provider info;
                          secret_scope := secret_scope info; secret_options := secret_options info |}).
Definition RewriteDropSecret (info : DropInfo) : M DropInfo :=
  RequireSecrets "dropping";;
  let '(named, persist) := default (EmptyString, PERSIST_DEFAULT) (drop_secret info) in
  local ← LocalSecrets named;
  if (local : bool) then Note (Tree.Name (drop_name info)) "secrets";; mret info
  else
    when (temporary_secret persist)
      (Deny STATEMENT_TYPE ("a temporary secret is this node's, not its secrets service's - "
         +:+ "DROP [PERSISTENT] SECRET drops from the service"));;
    service ← ask (SecretService named);
    Note (service +:+ "." +:+ Tree.Name (drop_name info)) "secrets";;
    mret {| drop_form := drop_form info; drop_name := drop_name info; cascade := cascade info;
            drop_secret := Some (service, persist) |}.

Definition RewriteCreateStatement (form : option CreateForm) : M CreateForm :=
  match form with
  | None => Deny STATEMENT_TYPE "unsupported CREATE form"
  | Some (CreateView info body) => RewriteCreateView info body
  | Some (CreateSecret info) => RewriteCreateSecret info
  | Some (CreateSchema info) => RewriteCreateSchema info
  | Some (CreateTable info columns constraints body) =>
      if temporary info then RewriteCreateTempTable info columns constraints body
      else RewriteCreateTable info columns constraints body
  | Some _ => Deny STATEMENT_TYPE "only tables and views can be created through the ACL"
  end.

(** ** DROP *)

Definition with_drop_name (name : QualifiedName) (cascades : bool) (info : DropInfo) : DropInfo :=
  {| drop_form := drop_form info; drop_name := name; cascade := cascades; drop_secret := drop_secret info |}.
(** A session temp's native drop; none where it is not one *)
Definition TryTempDrop (info : DropInfo) : M (option DropInfo) :=
  allowed ← TempAllowed;
  let name := Tree.Name (drop_name info) in
  mret (if negb allowed || negb (bool_decide (drop_form info = DROP_TABLE)) then None
        else if TempQualified (drop_name info) then Some info
        else if negb (BareName (drop_name info)) || is_surface name || negb (TempResolves name) then None
        else Some (with_drop_name (TempName name) (cascade info) info)).
(** A bare name the session's schema has no object for and the session's temp catalog has *)
Definition drop_temp_first (key : string) (info : DropInfo) : M (option DropInfo) :=
  match TempScanContext with
  | None => mret None
  | Some context =>
      if negb (String.eqb key (VirtualKey (drop_name info))) && BareName (drop_name info)
         && TempCatalogHas context (Tree.Name (drop_name info))
      then
        visible ← ask (ResolveTable (who principal) key "select");
        match visible with Some _ => mret None | None => TryTempDrop info end
      else mret None
  end.
Definition drop_granted (key : string) (target : DdlTarget) (info : DropInfo) : M DropInfo :=
  Note key "drop";;
  existing ← ask (ResolveTable (who principal) key "select");
  let dropping := record "acl_drop_relation" [vcat target; vname target; "skip"%string] in
  if match existing with Some p => is_view p | None => false end then drop_it;; dropping;; mret info
  else
    when (virtual_only target)
      (Deny DDL_HOME (Shown key +:+ " is granted VIRTUAL ONLY, so its physical object is not this role's to drop"));;
    name ← ParsePhysName (ChildKey (phys_schema target) (Tree.Name (drop_name info)));
    when (needs_record target) dropping;;
    mret (with_drop_name name false info).
Definition RewriteDropStatement (info : option DropInfo) : M DropInfo :=
  match info with
  | None => Deny STATEMENT_TYPE "unsupported DROP form"
  | Some info =>
      if bool_decide (drop_form info = DROP_SECRET) then RewriteDropSecret info
      else if negb (bool_decide (drop_form info = DROP_TABLE)) && negb (bool_decide (drop_form info = DROP_VIEW)) then
        Deny STATEMENT_TYPE "only tables and views can be dropped through the ACL"
      else
        key ← Key (drop_name info);
        first ← drop_temp_first key info;
        match first with
        | Some info => mret info
        | None =>
            target ← ask (ResolveDdlTarget (who principal) key "drop");
            match target with
            | Some target => drop_granted key target info
            | None =>
                temp ← TryTempDrop info;
                match temp with
                | Some info => mret info
                | None => Deny DDL_HOME ("no schema of the catalog allows dropping " +:+ Shown key)
                end
            end
        end
  end.

(** ** ALTER: RENAME TO inside a granted schema *)

Definition RewriteRename (info : AlterInfo) (new_name : string) (view_form : bool) : M AlterInfo :=
  key ← Key (alter_name info);
  let new_key := ChildKey (SplitLeaf key).2.1 new_name in
  from ← ask (ResolveDdlTarget (who principal) key "drop");
  match from with
  | None => Deny DDL_HOME ("no schema of the catalog allows renaming " +:+ Shown key)
  | Some from =>
      to ← ask (ResolveDdlTarget (who principal) new_key "create");
      match (match to with
             | Some to => if String.eqb (vcat to) (vcat from) && String.eqb (schema_path to) (schema_path from) then Some to else None
             | None => None
             end) with
      | None =>
          Deny DDL_HOME ("RENAME drops " +:+ Shown key +:+ " and creates " +:+ quoted new_key
            +:+ ", so it needs create and drop on the schema that hosts both")
      | Some to =>
          RequireNoCaseSibling to;;
          Note key "drop";;
          Note new_key "create";;
          when (virtual_only from)
            (Deny DDL_HOME (Shown key +:+ " is granted VIRTUAL ONLY, so its physical object is not this role's to rename"));;
          taken ← ask (CatalogObjectExists (vcat to) (vname to) "relation");
          when taken (Deny DDL_HOME (Shown new_key +:+ " already exists"));;
          declared ← ask (CatalogRelationDeclared (vcat from) (vname from));
          when declared
            (Deny DDL_HOME (quoted key +:+ " carries the operator's declarations (a predicate, columns, keys, references "
               +:+ "or grants by name), which are tied to its name - it is not renamed"));;
          when (is_surface (vname to)) (Deny DDL_HOME (Shown new_key +:+ " is a metadata surface's name"));;
          existing ← ask (ResolveTable (who principal) key "select");
          let own := ChildKey (phys_schema from) (Tree.Name (alter_name info)) in
          (match existing with
           | Some p =>
               if negb (is_view p) && negb (is_empty (phys p)) then
                 stored ← lift (FromKey (phys p) "a name");
                 require (KeyEquals (ToKey stored) own) DDL_HOME
                   (Shown key +:+ " is declared over " +:+ phys p +:+ ", not over this schema's own object - it is not renamed")
               else mret ()
           | None => mret ()
           end);;
          if match existing with Some p => is_view p | None => false end then
            require view_form DDL_HOME (Shown key +:+ " is a view - ALTER VIEW renames it");;
            drop_it;; record "acl_rename_relation" [vcat from; vname from; vname to];; mret info
          else
            name ← ParsePhysName own;
            record "acl_rename_relation" [vcat from; vname from; vname to; ChildKey (phys_schema from) new_name];;
            mret {| alter_form := alter_form info; alter_name := name |}
      end
  end.
Definition RewriteAlterStatement (info : option AlterInfo) : M AlterInfo :=
  match info with
  | None => Deny STATEMENT_TYPE "unsupported ALTER form"
  | Some info =>
      match alter_form info with
      | RENAME_TABLE new_name => RewriteRename info new_name false
      | RENAME_VIEW new_name => RewriteRename info new_name true
      | ALTER_OTHER =>
          Deny STATEMENT_TYPE "statement type ALTER is not permitted under ACL - only RENAME TO inside a granted schema"
      end
  end.
End statements.

(** ** SET, USE, PRAGMA, CALL *)
Section dispatch.
Context `{SU : StringUtil} `{JR : JsonReader} `{P : Parsing} `{PS : PolicySource} `{B : Batch}.

Definition constant_value (value : option Expr) : option Value := value ≫= constant_of.

(** [USE <catalog>[.<schema>]], [USE SCHEMA <schema>]: recorded by what follows the batch's statement *)
Definition names_platform (set_type : SetType) : bool :=
  match set_type with
  | SET value =>
      match constant_value value with
      | Some v => IsPlatformCatalog (hd EmptyString (SplitIdentifierPath (value_text v)))
      | None => false
      end
  | RESET => false
  end.
(** The catalog and the schema a USE names, as keys *)
Definition use_names (schema_form : bool) (parts : list string) : M (string * string) :=
  if schema_form then catalog ← UseCatalog; mret (catalog, ToKey parts)
  else mret (QuotePart (hd EmptyString parts), match tl parts with [] => EmptyString | rest => ToKey rest end).
Definition as_held (held : list string) (catalog : string) : string :=
  fold_left (λ c h, if CIEquals h c then h else c) held catalog.
Definition use_schema_of (catalog schema : string) : M string :=
  if CIEquals schema "main" || is_empty schema then mret EmptyString
  else
    let refused {A} : M A :=
      Deny SETTING_DENIED ("USE: " +:+ Shown (JoinKeys catalog schema) +:+ " is no schema the principal holds") in
    held ← ask (ResolveHeldSchema (who principal) (JoinKeys catalog schema));
    match held with
    | Some (vcat, path) => if CIEquals vcat catalog then mret path else refused
    | None => refused
    end.
Definition RewriteUse (name : string) (set_type : SetType) : M () :=
  when metadata_only (MetadataOnly "USE");;
  let schema_form := CIEquals name "acl_use_schema" in
  when (negb schema_form && names_platform set_type)
    (Deny SETTING_DENIED ("USE: platform is the system catalog of administration, not a "
       +:+ "session's default catalog - name its objects as platform.<view>"));;
  require (session_connection principal && negb (is_empty (session principal))) SETTING_DENIED
    ("USE needs a session of the client's own (a door's ACL SESSION): a "
     +:+ "per-statement prefix runs on a connection the gateway shares, where "
     +:+ "the choice would be the next principal's");;
  match set_type with
  | RESET => Deny SETTING_DENIED "RESET of the schema is USE <catalog> under ACL"
  | SET value =>
      match constant_value value with
      | None => Deny SETTING_DENIED "USE takes a name"
      | Some v =>
          let parts := SplitIdentifierPath (value_text v) in
          when (existsb is_empty parts) (Deny SETTING_DENIED "USE: a name has no empty part");;
          '(catalog, schema) ← use_names schema_form parts;
          held ← ask (PrincipalCatalogs (who principal));
          require (negb (is_empty catalog) && existsb (λ h, CIEquals h catalog) held) SETTING_DENIED
            ("USE: " +:+ Shown catalog +:+ " is no catalog of the principal - it holds: " +:+ join ", " held);;
          let catalog := as_held held catalog in
          schema ← use_schema_of catalog schema;
          Note (JoinKeys catalog schema) "use";;
          main ← (if is_empty schema then PrincipalMain else mret EmptyString);
          let catalog := if is_empty schema && CIEquals catalog main then EmptyString else catalog in
          drop_it;;
          record "acl_session_use" [session principal; catalog; schema];;
          modify (set_session_use catalog schema)
      end
  end.

Definition set_verb (set_type : SetType) : string := match set_type with SET _ => "SET " | RESET => "RESET " end.
Definition setting_value (name : string) (set_type : SetType) : M string :=
  match set_type with
  | RESET => mret EmptyString
  | SET value =>
      match constant_value value with
      | None => Deny SETTING_DENIED ("SET " +:+ quoted name +:+ " takes a constant value under ACL")
      | Some VNull => mret EmptyString
      | Some v => mret (value_text v)
      end
  end.
Definition RewriteSetStatement (name : string) (scope : SetScope) (set_type : SetType) : M () :=
  if (CIEquals name "schema" || CIEquals name "acl_use_schema")
     && (bool_decide (scope = AUTOMATIC) || bool_decide (scope = SESSION))
  then RewriteUse name set_type
  else
    require (negb (bool_decide (scope = VARIABLE)) && ClientSettingAllowed name) SETTING_DENIED
      (set_verb set_type +:+ quoted name
       +:+ " is not permitted under ACL: only the client-local rendering settings (TimeZone, Calendar) "
       +:+ "may be set, and only on a session of the client's own");;
    require (negb (bool_decide (scope = GLOBAL))) SETTING_DENIED
      ("SET GLOBAL " +:+ quoted name
       +:+ " is not permitted under ACL: a global setting changes the node for every principal - set it "
       +:+ "for the session");;
    require (session_connection principal) SETTING_DENIED
      ("SET " +:+ quoted name
       +:+ " needs a session of the client's own (a door's ACL SESSION): a per-statement prefix runs on a "
       +:+ "connection the gateway shares, where a setting would leak to the next principal");;
    value ← setting_value name set_type;
    if CIEquals name "acl_correlation_id" || CIEquals name "acl_traceparent" || LineageClientSetting name then
      (if CIEquals name "acl_lineage_parent" || CIEquals name "acl_lineage_root_parent" then
         match LineageRunRefCheck value with
         | Some malformed => Deny SETTING_DENIED (name +:+ ": " +:+ malformed)
         | None => mret ()
         end
       else mret ());;
      written ← gets traces; modify (set_traces (written ++ [(name, value)]))
    else mret ().

(** The table a [PRAGMA table_info] names, requoted part by part *)
Definition PragmaTargetName (parameter : Expr) : M string :=
  let written :=
    match parameter with
    | Constant _ VNull => EmptyString
    | Constant _ v => value_text v
    | ColumnRef _ names => ToKey names
    | _ => EmptyString
    end in
  require (negb (is_empty written)) STATEMENT_TYPE "PRAGMA table_info needs a table name";;
  mret (join "." (map SqlIdentifier (match TryFromKey written with inr path => path | inl _ => [written] end))).
Definition answer_with (node : Query) (text : string) : M () := modify (set_replacement (Some (SelectStatement text node))).
Definition RewritePragmaStatement (name : string) (parameters : list Expr) : M () :=
  let lowered := Lower name in
  sql ← (if String.eqb lowered "table_info" then
           match parameters with
           | [parameter] =>
               table ← PragmaTargetName parameter;
               mret ("SELECT CAST(row_number() OVER () - 1 AS INTEGER) AS cid, column_name AS name,"
                 +:+ " column_type AS type, " +:+ quoted "null" +:+ " = 'NO' AS notnull, " +:+ quoted "default"
                 +:+ " AS dflt_value, coalesce(key = 'PRI', false) AS pk FROM (DESCRIBE (SELECT * FROM " +:+ table +:+ "))")
           | _ => Deny STATEMENT_TYPE "PRAGMA table_info needs exactly one table name"
           end
         else if String.eqb lowered "show_tables" then mret "SELECT * FROM (SHOW TABLES)"
         else Deny STATEMENT_TYPE ("PRAGMA " +:+ quoted lowered +:+ " is not permitted under ACL"));
  node ← InstantiateSelect sql;
  node ← rewrite_query_whole node;
  answer_with node EmptyString.

(** A read function of the platform catalog is a SELECT over it; any other CALL is refused *)
Definition RewriteCallStatement (function : option Expr) : M () :=
  let refused {A} : M A := Deny STATEMENT_TYPE "statement type CALL is not permitted under ACL" in
  match function with
  | Some (Function _ name _ _ _ _ as call) =>
      match PlatformObjectName (NameParts name) ≫= FindPlatformFunction_ platform with
      | Some f =>
          if negb (AdminRights.table f) then refused
          else
            ref ← rewrite_ref_whole (TableFunction EmptyString [] (Some call) None false);
            let node := select_from [star_all] ref in
            answer_with node (query_text node)
      | None => refused
      end
  | _ => refused
  end.

(** ** One statement *)

(** The enum step of the parser's own PIVOT: the query its labels are read by *)
Definition PivotEnumCreate (s : SQLStatement) : option (CreateInfo * Query) :=
  match s with
  | CreateStatement _ (Some (CreateType info (Some body))) =>
      if temporary info && unqualified (create_name info) && StartsWith (Tree.Name (create_name info)) "__pivot_enum_"
      then Some (info, body) else None
  | _ => None
  end.
Definition not_permitted {A} (s : SQLStatement) (where_ : string) : M A :=
  Deny STATEMENT_TYPE ("statement type " +:+ statement_type s +:+ " is not permitted " +:+ where_).
Definition rewrite_enum_step (s : SQLStatement) : M SQLStatement :=
  match PivotEnumCreate s with
  | None => not_permitted s "under ACL"
  | Some (info, body) =>
      body ← rewrite_query_whole body;
      mret (CreateStatement (statement_text s) (Some (CreateType info (Some body))))
  end.
(** A statement of the list but the last one and the last one *)
Fixpoint split_statements (l : list SQLStatement) : option (list SQLStatement * SQLStatement) :=
  match l with
  | [] => None
  | [s] => Some ([], s)
  | s :: l => match split_statements l with Some (before, s') => Some (s :: before, s') | None => None end
  end.

(** What a view-as session may send at all *)
Definition metadata_statement (s : SQLStatement) : bool :=
  match s with
  | SelectStatement _ _ | PragmaStatement _ _ _ | SetStatement _ _ _ _ | TransactionStatement _ | CallStatement _ _ => true
  | _ => false
  end.

Fixpoint RewriteStatement (fuel : nat) (s : SQLStatement) : M SQLStatement :=
  match fuel with
  | 0 => exhausted
  | S fuel =>
      when (metadata_only && negb (metadata_statement s)) (MetadataOnly ("the statement " +:+ statement_type s));;
      match s with
      | SelectStatement t node => node ← rewrite_query_whole node; mret (SelectStatement t node)
      | InsertStatement t node => node ← rewrite_query_whole node; mret (InsertStatement t node)
      | UpdateStatement t node => node ← rewrite_query_whole node; mret (UpdateStatement t node)
      | DeleteStatement t node => node ← rewrite_query_whole node; mret (DeleteStatement t node)
      | MergeIntoStatement t node => node ← rewrite_query_whole node; mret (MergeIntoStatement t node)
      | ExplainStatement t explained =>
          held ← ask (PrincipalMainCap (who principal) "explain");
          require held CAPABILITY ("EXPLAIN needs the explain capability on the MAIN catalog grant: a plan names the "
            +:+ "physical objects a query resolves to");;
          explained ← RewriteStatement fuel explained;
          queued ← gets follow_ups;
          when (negb (empty_list queued))
            (Deny STATEMENT_TYPE ("EXPLAIN of a statement that writes the virtual catalog's record is not "
               +:+ "permitted under ACL - run the statement itself"));;
          answered ← gets replacement;
          match answered with
          | Some explained => modify (set_replacement None);; mret (ExplainStatement t explained)
          | None => mret (ExplainStatement t explained)
          end
      | CreateStatement t form => form ← RewriteCreateStatement form; mret (CreateStatement t (Some form))
      | DropStatement t info => info ← RewriteDropStatement info; mret (DropStatement t (Some info))
      | AlterStatement t info => info ← RewriteAlterStatement info; mret (AlterStatement t (Some info))
      | PragmaStatement _ name parameters => RewritePragmaStatement name parameters;; mret s
      | SetStatement _ name scope set_type => RewriteSetStatement name scope set_type;; mret s
      | TransactionStatement _ => mret s
      | MultiStatement t statements =>
          match split_statements statements with
          | Some ((_ :: _) as steps, last) =>
              steps ← mapM rewrite_enum_step steps;
              rewritten ← RewriteStatement fuel last;
              left ← get;
              when (bool_decide (is_Some (replacement left)) || drop_statement left || negb (empty_list (follow_ups left)))
                (not_permitted last "with an implicit PIVOT");;
              note_on (entry_shape (Lower (statement_type last)) "pivot");;
              mret (MultiStatement t (map (with_text t) (steps ++ [rewritten])))
          | _ => Deny STATEMENT_TYPE "statement type MULTI is not permitted under ACL"
          end
      | CallStatement _ function => RewriteCallStatement function;; mret s
      | OtherStatement _ _ => not_permitted s "under ACL"
      end
  end.
Definition rewrite_statement_whole (s : SQLStatement) : M SQLStatement := RewriteStatement (statement_depth s) s.
End dispatch.

(** ** The origins of a result's columns *)
Section origins.
Context `{SU : StringUtil} `{P : Parsing} `{PS : PolicySource} `{B : Batch}.

Record Relation := { rel_qualifier : string; rel_origin : ResultOrigin }.
Definition virtual_origin (policy : TablePolicy) : ResultOrigin :=
  let '(split, (head, rest)) := SplitHeadKey (canonical policy) in
  let '(whole, (parent, leaf)) := SplitLeaf rest in
  if (split : bool) && whole then
    {| origin_kind := ORIGIN_COLUMN; origin_catalog := Unquote head;
       origin_schema := if is_empty parent then "main" else Display parent; origin_table := leaf;
       origin_column := EmptyString; origin_name := EmptyString |}
  else no_origin.
Definition relation_origin (ctes : list string) (name : QualifiedName) (column_alias : list string) : M ResultOrigin :=
  let cte := unqualified name && in_names (Tree.Name name) ctes in
  if cte || negb (empty_list column_alias) || bool_decide (is_Some (PlatformObjectName (NameParts name))) then mret no_origin
  else
    key ← Key name;
    if is_empty key || is_surface key then mret no_origin
    else
      policy ← ask (ResolveTable (who principal) key "select");
      mret (match policy with Some policy => virtual_origin policy | None => no_origin end).
Fixpoint collect_relations (ctes : list string) (ref : TableRef) : M (list Relation) :=
  match ref with
  | JoinRef _ lhs rhs _ _ _ =>
      lhs ← collect_relations ctes lhs; rhs ← collect_relations ctes rhs; mret (lhs ++ rhs)
  | BaseTable alias name columns _ _ =>
      origin ← relation_origin ctes name columns;
      mret [{| rel_qualifier := or_name alias (Tree.Name name); rel_origin := origin |}]
  | _ => mret [{| rel_qualifier := tref_alias ref; rel_origin := no_origin |}]
  end.
(** The one relation a qualifier names; the only one, for none *)
Definition relation_of (relations : list Relation) (qualifier : string) : option Relation :=
  match (if is_empty qualifier then relations
         else List.filter (λ r, CIEquals (rel_qualifier r) qualifier) relations) with
  | [r] => Some r
  | _ => None
  end.
Definition with_kind (kind : OriginKind) (column name : string) (o : ResultOrigin) : ResultOrigin := {|
  origin_kind := kind; origin_catalog := origin_catalog o; origin_schema := origin_schema o;
  origin_table := origin_table o; origin_column := column; origin_name := name |}.
Definition reference_relation (relations : list Relation) (names : list string) : option Relation :=
  match names with
  | [name] => if IsValueKeyword name then None else relation_of relations EmptyString
  | [qualifier; _] => relation_of relations qualifier
  | _ => None
  end.
(** A column's origin; none where how many columns a star is cannot be read off the text *)
Definition item_origin (relations : list Relation) (e : Expr) : option ResultOrigin :=
  match e with
  | ColumnRef alias names =>
      let last_ := List.last names EmptyString in
      let name := or_name alias last_ in
      Some (match reference_relation relations names with
            | Some r =>
                if bool_decide (origin_kind (rel_origin r) = ORIGIN_NONE) then
                  with_kind ORIGIN_NONE EmptyString name no_origin
                else with_kind (origin_kind (rel_origin r)) last_ name (rel_origin r)
            | None => with_kind ORIGIN_NONE EmptyString name no_origin
            end)
  | Star _ relation columns inner excluded renamed replaced =>
      if columns || bool_decide (is_Some inner) || negb (empty_list excluded) || negb (empty_list replaced)
         || negb (empty_list renamed)
      then None
      else Some (with_kind ORIGIN_STAR EmptyString EmptyString
                   match relation_of relations relation with Some r => rel_origin r | None => no_origin end)
  | _ => Some (with_kind ORIGIN_NONE EmptyString (expr_alias e) no_origin)
  end.
Definition is_column_ref (e : Expr) : bool := match e with ColumnRef _ _ => true | _ => false end.
Definition trusted_origins (items : list Expr) (origins : list ResultOrigin) : list ResultOrigin :=
  let any := existsb (λ o, negb (is_empty (origin_table o))) origins in
  let starred o := bool_decide (origin_kind o = ORIGIN_STAR) in
  let open_star := existsb (λ o, starred o && is_empty (origin_table o)) origins in
  let all_references := forallb (λ p, starred p.1 || is_column_ref p.2) (combine origins items) in
  if any && (negb open_star || all_references) then origins else [].
Definition ResultOrigins (node : Query) : M (list ResultOrigin) :=
  match node with
  | SelectNode ctes _ items from _ _ _ _ =>
      relations ← (match from with
                   | Some from => collect_relations (map fst ctes) from
                   | None => mret []
                   end);
      mret (match mapM (item_origin relations) items with
            | Some origins =>
                if (1 <? length (List.filter is_star items))%nat then [] else trusted_origins items origins
            | None => []
            end)
  | _ => mret []
  end.
End origins.

(** ** A batch *)
Section batch.
Context `{SU : StringUtil} `{JR : JsonReader} `{P : Parsing} `{PS : PolicySource} `{B : Batch}.

(** What the rewriter starts with: the session's USE, which is not the viewed role's *)
Definition initial (reason : string) (factory : bool) : State :=
  let use :=
    if is_empty (session principal) || metadata_only then (EmptyString, EmptyString)
    else SessionUseOf (session principal) in
  {| cte_scope := []; listing_where := None; describing := 0; use_catalog := use.1; use_schema := use.2;
     dml_target_name := EmptyString; dml_read_policy := no_policy; keep_claim_markers := false; replacement := None;
     drop_statement := false; follow_ups := []; entries := []; trail := None; last_deny_reason := reason;
     ingest_factory := factory; traces := []; drains := [] |}.

Definition NoteUseInForce : M () :=
  use ← use_in_force;
  if (use : bool) then
    catalog ← UseCatalog; schema ← gets use_schema; note_on (entry_use catalog schema)
  else mret ().
(** A statement's entry, the one before it closed *)
Definition open_entry (s : SQLStatement) : M () :=
  if listening then
    closed ← gets entries;
    last ← gets trail;
    modify (set_trail (closed ++ option_list last) (Some (new_entry (Lower (statement_type s)))));;
    NoteUseInForce
  else mret ().
(** No origin is the answer where reading them fails - but a source that failed refuses *)
Definition note_origins (s : SQLStatement) : M () :=
  match s with
  | SelectStatement _ node =>
      if listening && noting_origins then
        catch (λ _, true)
          (origins ← ResultOrigins node; note_on (entry_columns origins))
          (λ binder message,
             reason ← TakeDenyReason;
             if String.eqb reason (ReasonCode SOURCE_ERROR) then NoteDenyReason SOURCE_ERROR;; throw binder message
             else mret ())
      else mret ()
  | _ => mret ()
  end.
(** The statements one becomes: itself, its answer or nothing, then what follows it up *)
Definition rewrite_one (s : SQLStatement) : M (list SQLStatement) :=
  modify (set_follow_ups []);;
  modify (set_drop false);;
  modify (set_replacement None);;
  open_entry s;;
  rewritten ← rewrite_statement_whole s;
  note_origins s;;
  left ← get;
  note_on (match replacement left with
           | Some answer => entry_ends true (StatementTextHash (statement_text answer))
           | None => if drop_statement left then entry_ends false 0%N
                     else entry_ends true (StatementTextHash (statement_text rewritten))
           end);;
  mret (match replacement left with
        | Some answer => [answer]
        | None => if drop_statement left then [] else [rewritten]
        end ++ follow_ups left).
Definition RewriteStatements (statements : list SQLStatement) : M (list SQLStatement) :=
  rewritten ← mapM rewrite_one statements;
  match concat rewritten, statements with
  | [], _ :: _ =>
      (* every statement was a no-op: one empty answer *)
      parsed ← parse (ParseQuery ("SELECT true AS " +:+ quoted "Success" +:+ " WHERE false"));
      match parsed with
      | s :: _ => mret [s]
      | [] => throw false "Attempted to access index 0 within vector of size 0"
      end
  | all, _ => mret all
  end.
End batch.

(** ** Templates without a principal *)
Section probe.
Context `{SU : StringUtil} `{P : Parsing}.

(** A marker's NULL, typed where its type is known *)
Definition null_marker (param_types : list string) (marker alias : string) (arguments : list (string * Expr)) : M Expr :=
  type ← (if String.eqb marker "acl_claim" then mret "VARCHAR"
          else match arguments with
               | [(_, Constant _ v)] =>
                   position ← parse (value_integer v);
                   mret (default EmptyString
                           (if (1 <=? position)%Z then param_types !! Z.to_nat (position - 1) else None))
               | _ => mret EmptyString
               end);
  null ← (if is_empty type then mret (Constant EmptyString VNull)
          else
            casted ← parse (ParseExpressionList ("CAST(NULL AS " +:+ type +:+ ")"));
            match casted with
            | e :: _ => mret e
            | [] => throw false "Attempted to access index 0 within vector of size 0"
            end);
  mret (marked alias null).
Fixpoint BakeNullMarkers (fuel : nat) (param_types : list string) (e : Expr) : M Expr :=
  match fuel with
  | 0 => exhausted
  | S fuel =>
      match e with
      | Function a name arguments _ _ _ =>
          let marker := Lower (Tree.Name name) in
          if String.eqb marker "acl_claim" || String.eqb marker "acl_arg" then null_marker param_types marker a arguments
          else each_child (BakeNullMarkers fuel param_types) e
      | Subquery a k child body =>
          body ← for_opt (BakeNullMarkersInNode fuel param_types) body;
          each_child (BakeNullMarkers fuel param_types) (Subquery a k child body)
      | _ => each_child (BakeNullMarkers fuel param_types) e
      end
  end
with BakeNullMarkersInNode (fuel : nat) (param_types : list string) (q : Query) : M Query :=
  match fuel with
  | 0 => exhausted
  | S fuel => parts ← mapM (BakeNullMarkers fuel param_types) (node_parts q); mret (node_rebuild q parts)
  end.
Definition BakeTemplateForProbe (sql : string) (expression : bool) (param_types : list string) : M string :=
  if expression then
    expressions ← parse (ParseExpressionList sql);
    match expressions with
    | [e] => e ← BakeNullMarkers (depth e) param_types e; mret (expression_text e)
    | _ => throw true "acl_rewrite: scalar template must be a single expression"
    end
  else
    statements ← parse (ParseQuery sql);
    match statements with
    | [SelectStatement _ node] =>
        node ← BakeNullMarkersInNode (query_depth node) param_types node; mret (query_text node)
    | _ => throw true "acl_rewrite: rewrite template is not a single SELECT"
    end.

(** The side and the column of every reference of a join expression *)
Fixpoint qualified_refs (e : Expr) : M (list (string * string)) :=
  match e with
  | ColumnRef _ names =>
      match rev names with
      | column :: qualifier :: _ => mret [(qualifier, column)]
      | _ =>
          throw true ("acl: " +:+ quoted (default "?" (last names))
            +:+ " is not qualified - a join expression must name the side of "
            +:+ "every column, so the reference can be checked against what a role sees")
      end
  | _ => refs ← mapM id (over_children qualified_refs e); mret (concat refs)
  end.
Definition QualifiedColumnRefs (expression : string) : M (list (string * string)) :=
  parsed ← parse (ParseExpressionList expression);
  match parsed with
  | [e] => qualified_refs e
  | _ => throw true "acl: a join expression must be a single expression"
  end.
End probe.
