(* ===== verification/RewriterRuns.v ===== *)
(** * Runs of the rewriter: what holds of every result, and that the fuel is enough

    A small program logic for the rewriter's monad: [run_ok] holds of a computation that never runs out of fuel, leaves
    the place it stands at - the CTEs in scope, the depth of DESCRIBE, what becomes of the statement - as it found it, and only returns what the
    postcondition allows. *)
From S2P Require Import Prelude NamePath FieldPaths FunctionCategories PolicyTypes Platform Token Tree RewriteData RewriteDml.
From S2P Require Import RewriteRefs.

(** Where the walk stands *)
Record place := {
  in_scope : list string;
  described : nat;
  (* what becomes of the statement: dropped, answered by another one, followed by more *)
  dropped : bool;
  answered : option SQLStatement;
  queued : list SQLStatement;
  (* whether a template's claims stay markers *)
  keeping : bool;
}.
Definition place_of (s : State) : place := {|
  in_scope := cte_scope s; described := describing s; dropped := drop_statement s; answered := replacement s;
  queued := follow_ups s; keeping := keep_claim_markers s |}.

Definition run_ok {A} (c : place) (m : M A) (Q : A → Prop) : Prop := ∀ s, place_of s = c →
  match m s with
  | (s', inl a) => place_of s' = c ∧ Q a
  | (_, inr e) => e ≠ Exhausted
  end.
(** A value some run ends in *)
Definition yields {A} (m : M A) (a : A) : Prop := ∃ s s', m s = (s', inl a).
Definition calm {A} (m : M A) : Prop := ∀ c, run_ok c m (λ _, True).

Section rules.
Context {A : Type}.
Implicit Types (m : M A) (Q R : A → Prop) (c : place).

Lemma ok_ret c a Q : Q a → run_ok c (mret a) Q.
Proof. intros Ha s Hs. by split. Qed.
Lemma ok_throw c binder message Q : run_ok c (throw binder message) Q.
Proof. by intros s Hs. Qed.
Lemma ok_bind {B} c (m : M B) (f : B → M A) (R : B → Prop) Q :
  run_ok c m R → (∀ b, R b → run_ok c (f b) Q) → run_ok c (m ≫= f) Q.
Proof.
  intros Hm Hf s Hs. specialize (Hm s Hs). rewrite /mbind /M_bind. destruct (m s) as [s' [b|e]]; [|done].
  destruct Hm as [Hs' Hb]. by apply Hf.
Qed.
Lemma ok_mono c m Q R : run_ok c m R → (∀ a, R a → Q a) → run_ok c m Q.
Proof. intros Hm HRQ s Hs. specialize (Hm s Hs). destruct (m s) as [s' [a|e]]; [|done]. naive_solver. Qed.
Lemma ok_and c m Q R : run_ok c m Q → run_ok c m R → run_ok c m (λ a, Q a ∧ R a).
Proof. intros HQ HR s Hs. specialize (HQ s Hs). specialize (HR s Hs). destruct (m s) as [s' [a|e]]; naive_solver. Qed.
Lemma ok_yields c m Q : run_ok c m Q → run_ok c m (λ a, Q a ∧ yields m a).
Proof.
  intros Hm s Hs. specialize (Hm s Hs). destruct (m s) as [s' [a|e]] eqn:E; [|done].
  destruct Hm as [? ?]. split_and!; [done..|]. by exists s, s'.
Qed.
Lemma ok_calm c m Q : calm m → (∀ a, yields m a → Q a) → run_ok c m Q.
Proof. intros Hm HQ. eapply ok_mono; [apply ok_yields, Hm|]. naive_solver. Qed.
Lemma ok_result c m Q a : run_ok c m Q → (∃ s s', place_of s = c ∧ m s = (s', inl a)) → Q a.
Proof. intros Hm (s & s' & Hs & E). specialize (Hm s Hs). rewrite E in Hm. by destruct Hm. Qed.

Lemma ok_ask c (x : answer A) Q : (∀ a, x = Answered a → Q a) → run_ok c (ask x) Q.
Proof. destruct x as [a|[r|] b message]; intros HQ s Hs; [split; auto|done..]. Qed.
Lemma ok_lift c (x : outcome A) Q : (∀ a, x = Ok a → Q a) → run_ok c (lift x) Q.
Proof. destruct x; intros HQ s Hs; [split; auto|done]. Qed.
Lemma ok_parse c (x : outcome A) Q : (∀ a, x = Ok a → Q a) → run_ok c (parse x) Q.
Proof. destruct x; intros HQ s Hs; [split; auto|done]. Qed.
Lemma ok_deny c reason what Q : run_ok c (Deny reason what) Q.
Proof. by intros s Hs. Qed.
Lemma ok_gets c (f : State → A) Q : (∀ s, place_of s = c → Q (f s)) → run_ok c (gets f) Q.
Proof. intros HQ s Hs. split; auto. Qed.
Lemma ok_catch c catches m handler Q :
  run_ok c m Q → (∀ binder message s, match handler binder message s with
                                      | (s', inl a) => place_of s' = place_of s ∧ Q a
                                      | (_, inr e) => e ≠ Exhausted
                                      end) →
  (∀ s, match m s with (s', inr _) => place_of s' = place_of s | _ => True end) →
  run_ok c (catch catches m handler) Q.
Proof.
  intros Hm Hh Hkeep s Hs. specialize (Hm s Hs). specialize (Hkeep s). rewrite /catch.
  destruct (m s) as [s' [a|[b message|]]]; [done| |done].
  destruct (catches b); [|done]. specialize (Hh b message s'). destruct (handler b message s') as [s2 [a|e]]; [|done].
  by rewrite Hkeep Hs in Hh.
Qed.
End rules.

Lemma ok_get c Q : (∀ s, place_of s = c → Q s) → run_ok c get Q.
Proof. intros HQ s Hs. split; auto. Qed.
Lemma ok_modify c (f : State → State) (Q : () → Prop) : (∀ s, place_of (f s) = place_of s) → Q () → run_ok c (modify f) Q.
Proof. intros Hf HQ s Hs. split; [by rewrite Hf|done]. Qed.
Lemma ok_when c b (m : M ()) (Q : () → Prop) :
  (b = true → run_ok c m (λ _, Q ())) → (b = false → Q ()) → run_ok c (when b m) Q.
Proof.
  destruct b; intros Hm HQ; [|by apply ok_ret, HQ]. eapply ok_mono; [by apply Hm|]. by intros [].
Qed.
Lemma ok_refuse c b {reason what} (Q : () → Prop) : (b = false → Q ()) → run_ok c (when b (Deny reason what)) Q.
Proof. intros HQ. apply ok_when; [intros _; apply ok_deny|done]. Qed.
Lemma ok_require c b reason what (Q : () → Prop) : (b = true → Q ()) → run_ok c (require b reason what) Q.
Proof. destruct b; intros HQ; [apply ok_ret; auto|apply ok_deny]. Qed.

Section lists.
Context {A B : Type} (f : A → M B) (c : place).

Lemma ok_mapM2 (Q : A → B → Prop) l :
  (∀ x, x ∈ l → run_ok c (f x) (Q x)) → run_ok c (mapM f l) (Forall2 Q l).
Proof.
  induction l as [|x l IH]; intros Hf; simpl; [by apply ok_ret|].
  eapply ok_bind; [apply Hf; set_solver|]. intros y Hy. eapply ok_bind; [apply IH; set_solver|].
  intros k Hk. apply ok_ret. by constructor.
Qed.
Lemma ok_mapM (Q : B → Prop) l : (∀ x, x ∈ l → run_ok c (f x) Q) → run_ok c (mapM f l) (Forall Q).
Proof.
  intros Hf. eapply ok_mono; [apply (ok_mapM2 (λ _, Q)), Hf|]. clear Hf. induction 1; by constructor.
Qed.
Lemma ok_for_opt (Q : B → Prop) x : (∀ y, x = Some y → run_ok c (f y) Q) → run_ok c (for_opt f x) (λ y, ∀ z, y = Some z → Q z).
Proof.
  destruct x as [y|]; simpl; intros Hf; [|by apply ok_ret]. eapply ok_bind; [by apply Hf|].
  intros z Hz. apply ok_ret. by intros ? [= <-].
Qed.
Lemma ok_for_snd {K} (Q : B → Prop) (x : K * A) : run_ok c (f x.2) Q → run_ok c (for_snd f x) (λ y, y.1 = x.1 ∧ Q y.2).
Proof. intros Hf. eapply ok_bind; [exact Hf|]. intros y Hy. by apply ok_ret. Qed.
End lists.
Lemma ok_iterM {A} (f : A → M ()) c l : (∀ x, x ∈ l → run_ok c (f x) (λ _, True)) → run_ok c (iterM f l) (λ _, True).
Proof.
  induction l as [|x l IH]; intros Hf; simpl; [by apply ok_ret|].
  eapply ok_bind; [apply Hf; set_solver|]. intros _ _. apply IH. set_solver.
Qed.

(** ** Children *)

Lemma deepest_le l n : deepest l ≤ n ↔ Forall (λ x, x ≤ n) l.
Proof.
  induction l as [|x l IH]; simpl; [split; [constructor|lia]|]. rewrite Forall_cons -IH. lia.
Qed.
Lemma deepest_in {A} (f : A → nat) l n x : deepest (map f l) ≤ n → x ∈ l → f x ≤ n.
Proof. rewrite deepest_le Forall_map Forall_forall. intros Hl Hx. by apply Hl. Qed.
Lemma opt_depth_le {A} (f : A → nat) x n : opt_depth f x ≤ n ↔ ∀ y, x = Some y → f y ≤ n.
Proof. destruct x; simpl; naive_solver lia. Qed.
Lemma depth_set_alias a e : depth (set_alias a e) = depth e.
Proof. by destruct e. Qed.
Lemma depth_pos e : 1 ≤ depth e.
Proof. destruct e; simpl; lia. Qed.

Lemma in_option {A} (x : A) o : x ∈ option_list o ↔ o = Some x.
Proof. destruct o; simpl; set_solver. Qed.
Lemma in_map {A B} (f : A → B) l y : y ∈ map f l ↔ ∃ x, y = f x ∧ x ∈ l.
Proof. apply list_elem_of_fmap. Qed.
Lemma map_depth {A} (f : A → nat) l x : x ∈ l → f x ≤ deepest (map f l).
Proof. intros Hx. by eapply deepest_in. Qed.
Lemma some_depth {A} (f : A → nat) o x : o = Some x → f x ≤ opt_depth f o.
Proof. by intros ->. Qed.

Lemma children_depth e x : x ∈ children e → depth x < depth e.
Proof.
  rewrite /children /over_children.
  destruct e as [| |? ? ? inner ? ? replaced|? ? args ? filter order| | | |? ? child ?| |]; simpl;
    rewrite ?elem_of_app ?in_option ?fmap_Some ?in_map ?elem_of_nil ?list_elem_of_singleton ?map_id;
    intros Hx; destruct_or?; destruct_and?; repeat match goal with H : ∃ _, _ |- _ => destruct H end; destruct_and?; subst;
    try done; simpl in *.
  all: try match goal with H : ?y ∈ ?l |- context [deepest (map (λ r, depth r.2) ?l)] =>
    pose proof (map_depth (λ r : string * Expr, depth r.2) _ _ H); simpl in * end.
  all: try match goal with H : ?y ∈ ?l |- context [deepest (map depth ?l)] => pose proof (map_depth depth _ _ H) end.
  all: try lia.
  rewrite !elem_of_cons elem_of_nil in Hx. naive_solver lia.
Qed.

(** A result like the node, each child what the postcondition allows *)
Inductive children_like (Q : Expr → Expr → Prop) : Expr → Expr → Prop :=
  | like_column a n : children_like Q (ColumnRef a n) (ColumnRef a n)
  | like_constant a v : children_like Q (Constant a v) (Constant a v)
  | like_star a r col i i' x n p p' :
      option_Forall2 Q i i' → Forall2 (λ e e', e'.1 = e.1 ∧ Q e.2 e'.2) p p' →
      children_like Q (Star a r col i x n p) (Star a r col i' x n p')
  | like_function a n l l' d f f' o o' :
      Forall2 (λ e e', e'.1 = e.1 ∧ Q e.2 e'.2) l l' → option_Forall2 Q f f' → Forall2 Q o o' →
      children_like Q (Function a n l d f o) (Function a n l' d f' o')
  | like_window a n l l' : Forall2 Q l l' → children_like Q (Window a n l) (Window a n l')
  | like_cast a x x' t : Q x x' → children_like Q (Cast a x t) (Cast a x' t)
  | like_type a k s n l l' : Forall2 Q l l' → children_like Q (TypeExpr a k s n l) (TypeExpr a k s n l')
  | like_subquery a k x x' b : option_Forall2 Q x x' → children_like Q (Subquery a k x b) (Subquery a k x' b)
  | like_lambda a l l' r r' : Q l l' → Q r r' → children_like Q (Lambda a l r) (Lambda a l' r')
  | like_operation a k l l' : Forall2 Q l l' → children_like Q (Operation a k l) (Operation a k l').

Section children.
Context (f : Expr → M Expr) (c : place).

Lemma ok_for_opt2 {A B} (g : A → M B) (Q : A → B → Prop) x :
  (∀ y, x = Some y → run_ok c (g y) (Q y)) → run_ok c (for_opt g x) (option_Forall2 Q x).
Proof.
  destruct x as [y|]; simpl; intros Hg; [|apply ok_ret; constructor].
  eapply ok_bind; [by apply Hg|]. intros z Hz. apply ok_ret. by constructor.
Qed.

Lemma ok_each_child (Q : Expr → Expr → Prop) e :
  (∀ x, x ∈ children e → run_ok c (f x) (Q x)) → run_ok c (each_child f e) (children_like Q e).
Proof.
  intros Hf.
  assert (Hsnd : ∀ l, (∀ x, x ∈ map snd l → x ∈ children e) →
      run_ok c (mapM (for_snd f) l) (Forall2 (λ (x y : string * Expr), y.1 = x.1 ∧ Q x.2 y.2) l)).
  { intros l Hl. apply ok_mapM2. intros x Hx. apply ok_for_snd, Hf, Hl, in_map. eauto. }
  assert (Hopt : ∀ o, (∀ x, o = Some x → x ∈ children e) → run_ok c (for_opt f o) (option_Forall2 Q o)).
  { intros o Ho. apply ok_for_opt2. auto. }
  assert (Hall : ∀ l, (∀ x, x ∈ l → x ∈ children e) → run_ok c (mapM f l) (Forall2 Q l)).
  { intros l Hl. apply ok_mapM2. auto. }
  destruct e; simpl; repeat first
    [ apply ok_ret; by constructor
    | eapply ok_bind; [first [apply Hsnd | apply Hopt | apply Hall | apply Hf]|intros ? ?] ].
  all: rewrite /children /over_children; intros; subst;
    rewrite ?elem_of_app ?in_option ?fmap_Some ?in_map ?map_id; try set_solver; eauto.
Qed.
End children.

Lemma children_ind (Q : Expr → Prop) : (∀ e, (∀ x, x ∈ children e → Q x) → Q e) → ∀ e, Q e.
Proof.
  intros Hstep e. remember (depth e) as n eqn:Hn. assert (Hle : depth e ≤ n) by lia. clear Hn. revert e Hle.
  induction n as [|n IH]; intros e Hle; [pose proof (depth_pos e); lia|].
  apply Hstep. intros x Hx%children_depth. apply IH. lia.
Qed.
Lemma over_children_map {A} (f : Expr → A) e : over_children f e = map f (children e).
Proof.
  rewrite /children. destruct e; simpl; rewrite ?map_app ?map_map ?map_id; try done.
  - by destruct inner.
  - by destruct filter.
  - by destruct child.
Qed.

(** ** Calm computations *)

Lemma calm_ret {A} (a : A) : calm (mret a).
Proof. intros c. by apply ok_ret. Qed.
Lemma calm_bind {A B} (m : M A) (f : A → M B) : calm m → (∀ a, calm (f a)) → calm (m ≫= f).
Proof. intros Hm Hf c. eapply ok_bind; [apply Hm|]. intros a _. apply Hf. Qed.
Lemma calm_throw {A} binder message : calm (throw (A := A) binder message).
Proof. intros c. apply ok_throw. Qed.
Lemma calm_deny {A} reason what : calm (Deny (A := A) reason what).
Proof. intros c. apply ok_deny. Qed.
Lemma calm_ask {A} (x : answer A) : calm (ask x).
Proof. intros c. by apply ok_ask. Qed.
Lemma calm_lift {A} (x : outcome A) : calm (lift x).
Proof. intros c. by apply ok_lift. Qed.
Lemma calm_parse {A} (x : outcome A) : calm (parse x).
Proof. intros c. by apply ok_parse. Qed.
Lemma calm_get : calm get.
Proof. intros c. by apply ok_get. Qed.
Lemma calm_gets {A} (f : State → A) : calm (gets f).
Proof. intros c. by apply ok_gets. Qed.
Lemma calm_modify f : (∀ s, place_of (f s) = place_of s) → calm (modify f).
Proof. intros Hf c. by apply ok_modify. Qed.
Lemma calm_when b m : calm m → calm (when b m).
Proof. intros Hm c. apply ok_when; [|done]. intros _. apply Hm. Qed.
Lemma calm_require b reason what : calm (require b reason what).
Proof. intros c. by apply ok_require. Qed.
Lemma calm_mapM {A B} (f : A → M B) l : (∀ x, x ∈ l → calm (f x)) → calm (mapM f l).
Proof.
  intros Hf c. eapply ok_mono; [apply (ok_mapM _ _ (λ _, True))|done]. intros x Hx. by apply Hf.
Qed.
Lemma calm_for_opt {A B} (f : A → M B) x : (∀ y, x = Some y → calm (f y)) → calm (for_opt f x).
Proof. destruct x as [y|]; simpl; intros Hf; [|apply calm_ret]. apply calm_bind; [by apply Hf|]. intros z. apply calm_ret. Qed.
Lemma calm_iterM {A} (f : A → M ()) l : (∀ x, x ∈ l → calm (f x)) → calm (iterM f l).
Proof. intros Hf c. apply ok_iterM. intros x Hx. by apply Hf. Qed.
Lemma calm_over_children (f : Expr → M ()) e : (∀ x, x ∈ children e → calm (f x)) → calm (iterM id (over_children f e)).
Proof.
  intros Hf. rewrite over_children_map. apply calm_iterM. intros m (x & -> & Hx)%in_map. by apply Hf.
Qed.
Lemma calm_each_child (f : Expr → M Expr) e : (∀ x, x ∈ children e → calm (f x)) → calm (each_child f e).
Proof.
  intros Hf c. eapply ok_mono; [apply (ok_each_child _ _ (λ _ _, True))|done]. intros x Hx. by apply Hf.
Qed.
Lemma calm_catch {A} catches (m : M A) handler :
  calm m → (∀ binder message, calm (handler binder message)) →
  (∀ s, match m s with (s', inr _) => place_of s' = place_of s | _ => True end) → calm (catch catches m handler).
Proof.
  intros Hm Hh Hkeep c. apply ok_catch; [apply Hm| |done]. intros b message s.
  specialize (Hh b message (place_of s) s eq_refl). by destruct (handler b message s) as [s' [a|e]].
Qed.

Create HintDb calm.
#[export] Hint Resolve calm_ret calm_throw calm_deny calm_ask calm_lift calm_parse calm_get calm_gets calm_require : calm.
(** A computation made of calm ones *)
Ltac calm_step :=
  first [ solve [auto with calm nocore]
        | apply calm_bind; [|intros ?]
        | apply calm_when
        | apply calm_modify; done
        | apply calm_mapM; intros ? ?
        | apply calm_iterM; intros ? ?
        | apply calm_for_opt; intros ? ?
        | progress case_match ].
Ltac calm := intros; repeat calm_step.

(** What a run leaves as it found it, failed or not *)
Definition steady {X A} (f : State → X) (m : M A) : Prop := ∀ s, f (m s).1 = f s.
Lemma steady_bind {X A B} (f : State → X) (m : M A) (k : A → M B) :
  steady f m → (∀ a, steady f (k a)) → steady f (m ≫= k).
Proof.
  intros Hm Hk s. specialize (Hm s). rewrite /mbind /M_bind. destruct (m s) as [s' [a|e]]; [|done]. by rewrite Hk.
Qed.
Lemma steady_ask {A} (x : answer A) : steady place_of (ask x).
Proof. by destruct x as [a|[r|] b message]. Qed.
Lemma steady_when {X} (f : State → X) b (m : M ()) : steady f m → steady f (when b m).
Proof. by destruct b. Qed.
Lemma steady_fails {A} (m : M A) s :
  steady place_of m → match m s with (s', inr _) => place_of s' = place_of s | _ => True end.
Proof. intros Hm. specialize (Hm s). by destruct (m s) as [s' [a|e]]. Qed.
Ltac steady :=
  repeat first [ apply steady_bind; [|intros ?] | apply steady_ask | apply steady_when | progress case_match
               | by intros ? ].

(** ** Runs from a state, to a state *)

Definition run_from {A} (c : place) (Pre : State → Prop) (m : M A) (Q : A → State → Prop) : Prop := ∀ s,
  place_of s = c → Pre s → match m s with
                           | (s', inl a) => place_of s' = c ∧ Q a s'
                           | (_, inr e) => e ≠ Exhausted
                           end.
Section from.
Context {A : Type}.
Implicit Types (m : M A) (Pre : State → Prop).
Lemma from_ok c Pre m (Q : A → Prop) : run_ok c m Q → run_from c Pre m (λ a _, Q a).
Proof. intros Hm s Hs _. by apply Hm. Qed.
Lemma ok_from c m (Q : A → Prop) : run_from c (λ _, True) m (λ a _, Q a) → run_ok c m Q.
Proof. intros Hm s Hs. by apply Hm. Qed.
Lemma from_bind {B} c Pre (m : M B) (f : B → M A) R Q :
  run_from c Pre m R → (∀ b, run_from c (R b) (f b) Q) → run_from c Pre (m ≫= f) Q.
Proof.
  intros Hm Hf s Hs HPre. specialize (Hm s Hs HPre). rewrite /mbind /M_bind. destruct (m s) as [s' [b|e]]; [|done].
  destruct Hm as [Hs' Hb]. by apply Hf.
Qed.
Lemma from_ret c Pre a (Q : A → State → Prop) : (∀ s, Pre s → Q a s) → run_from c Pre (mret a) Q.
Proof. intros HQ s Hs HPre. split; auto. Qed.
(** A computation that leaves what the precondition is about *)
Lemma from_steady {X} (f : State → X) c (Pre : X → Prop) m (Q : A → Prop) :
  steady f m → run_ok c m Q → run_from c (λ s, Pre (f s)) m (λ a s, Pre (f s) ∧ Q a).
Proof.
  intros Hf Hm s Hs HPre. specialize (Hm s Hs). specialize (Hf s). destruct (m s) as [s' [a|e]]; [|done].
  simpl in Hf. rewrite Hf. naive_solver.
Qed.
Lemma from_mono c (Pre Pre' : State → Prop) m (Q R : A → State → Prop) :
  run_from c Pre m Q → (∀ s, Pre' s → Pre s) → (∀ a s, Q a s → R a s) → run_from c Pre' m R.
Proof. intros Hm HP HQ s Hs HPre. specialize (Hm s Hs (HP _ HPre)). destruct (m s) as [s' [a|e]]; naive_solver. Qed.
Lemma from_pure c (p : Prop) Pre m Q : (p → run_from c Pre m Q) → run_from c (λ s, Pre s ∧ p) m Q.
Proof. intros Hm s Hs [HPre Hp]. by apply Hm. Qed.
(** What a state holds, read *)
Lemma from_gets {X} (f : State → X) c Pre (k : X → M A) Q :
  (∀ x, run_from c (λ s, Pre s ∧ x = f s) (k x) Q) → run_from c Pre (gets f ≫= k) Q.
Proof. intros Hk s Hs HPre. by apply (Hk (f s) s). Qed.
Lemma from_known c Pre m (Q : A → Prop) : (∀ s, Pre s → run_ok c m Q) → run_from c Pre m (λ a _, Q a).
Proof. intros Hm s Hs HPre. by apply (Hm s HPre). Qed.
Lemma from_catch c Pre catches m handler Q :
  run_from c Pre m Q → (∀ binder message, run_from c Pre (handler binder message) Q) →
  (∀ s, Pre s → match m s with (s', inr _) => place_of s' = place_of s ∧ Pre s' | _ => True end) →
  run_from c Pre (catch catches m handler) Q.
Proof.
  intros Hm Hh Hfail s Hs HPre. specialize (Hm s Hs HPre). specialize (Hfail s HPre). rewrite /catch.
  destruct (m s) as [s' [a|[b message|]]]; [done| |done]. destruct (catches b); [|done].
  destruct Hfail as [Hplace HPre']. apply Hh; [by rewrite Hplace|done].
Qed.
End from.
Lemma from_run {A B} c (m : M B) (k : B → M A) R (Q : A → State → Prop) :
  run_ok c m R → (∀ b, R b → run_from c (λ _, True) (k b) Q) → run_from c (λ _, True) (m ≫= k) Q.
Proof.
  intros Hm Hk. apply (from_bind _ _ _ _ (λ b _, R b)); [by apply from_ok|]. intros b s Hs Hb. by apply (Hk b Hb).
Qed.
Lemma from_step {A B X} (f : State → X) c (Pre : X → Prop) (m : M B) (k : B → M A) R (Q : A → State → Prop) :
  steady f m → run_ok c m R → (∀ b, R b → run_from c (λ s, Pre (f s)) (k b) Q) → run_from c (λ s, Pre (f s)) (m ≫= k) Q.
Proof.
  intros Hf Hm Hk. apply (from_bind _ _ _ _ (λ b s, Pre (f s) ∧ R b)); [by apply from_steady|]. intros b. by apply from_pure, Hk.
Qed.
Lemma from_modify c Pre (f : State → State) (Q : () → State → Prop) :
  (∀ s, place_of (f s) = place_of s) → (∀ s, Pre s → Q () (f s)) → run_from c Pre (modify f) Q.
Proof. intros Hf HQ s Hs HPre. split; [by rewrite Hf|by apply HQ]. Qed.

(** ** Runs that may leave more names in scope, what a run returns wherever it stands *)

Definition shadowed (names : list string) (c : place) : place := {|
  in_scope := in_scope c ++ names; described := described c; dropped := dropped c; answered := answered c;
  queued := queued c; keeping := keeping c |}.
Definition run_to {A} (c : place) (m : M A) (Q : A → place → Prop) : Prop := ∀ s, place_of s = c →
  match m s with
  | (s', inl a) => Q a (place_of s')
  | (_, inr e) => e ≠ Exhausted
  end.
Lemma to_ok {A} c (m : M A) (Q : A → Prop) : run_ok c m Q → run_to c m (λ a c', c' = c ∧ Q a).
Proof. intros Hm s Hs. specialize (Hm s Hs). by destruct (m s) as [s' [a|e]]. Qed.
Lemma ok_to {A} c (m : M A) (Q : A → Prop) : run_to c m (λ a c', c' = c ∧ Q a) → run_ok c m Q.
Proof. intros Hm s Hs. specialize (Hm s Hs). by destruct (m s) as [s' [a|e]]. Qed.
Lemma to_mono {A} c (m : M A) Q R : run_to c m Q → (∀ a c', Q a c' → R a c') → run_to c m R.
Proof. intros Hm HQR s Hs. specialize (Hm s Hs). destruct (m s) as [s' [a|e]]; auto. Qed.
Lemma to_ret {A} c (a : A) (Q : A → place → Prop) : Q a c → run_to c (mret a) Q.
Proof. by intros Ha s <-. Qed.
Lemma to_deny {A} c reason what (Q : A → place → Prop) : run_to c (Deny reason what) Q.
Proof. by intros s Hs. Qed.
Lemma to_bind {A B} c (m : M B) (f : B → M A) R Q :
  run_to c m R → (∀ b c', R b c' → run_to c' (f b) Q) → run_to c (m ≫= f) Q.
Proof.
  intros Hm Hf s Hs. specialize (Hm s Hs). rewrite /mbind /M_bind. destruct (m s) as [s' [b|e]]; [|done].
  by apply (Hf b (place_of s') Hm).
Qed.
(** A step that stays where it is *)
Lemma to_step {A B} c (m : M B) (f : B → M A) R Q :
  run_ok c m R → (∀ b, R b → run_to c (f b) Q) → run_to c (m ≫= f) Q.
Proof. intros Hm Hf. eapply to_bind; [by apply to_ok|]. intros b c' [-> Hb]. by apply Hf. Qed.
Lemma to_gets {A B} (f : State → B) (g : place → B) c (k : B → M A) Q :
  (∀ s, f s = g (place_of s)) → run_to c (k (g c)) Q → run_to c (gets f ≫= k) Q.
Proof. intros Hfg Hk s <-. rewrite /mbind /M_bind /= Hfg. by apply Hk. Qed.
Lemma to_modify {A} (f : State → State) c' c (k : () → M A) Q :
  (∀ s, place_of s = c → place_of (f s) = c') → run_to c' (k ()) Q → run_to c (modify f ≫= k) Q.
Proof. intros Hf Hk s Hs. apply Hk. by apply Hf. Qed.
Lemma to_wider {A} c names (k : () → M A) Q :
  run_to (shadowed names c) (k ()) Q → run_to c (scope ← gets cte_scope; modify (set_scope (scope ++ names)) ≫= k) Q.
Proof.
  intros Hk. apply (to_gets _ in_scope); [done|]. apply (to_modify _ (shadowed names c)); [by intros s <-|done].
Qed.
(** A scope of its own, the one outside put back *)
Definition scoped {A} (names : list string) (m : M A) : M A :=
  saved ← gets cte_scope; modify (set_scope (saved ++ names));; a ← m; modify (set_scope saved);; mret a.
Definition rescoped (l : list string) (c : place) : place := {|
  in_scope := l; described := described c; dropped := dropped c; answered := answered c; queued := queued c;
  keeping := keeping c |}.
Lemma rescoped_own c : rescoped (in_scope c) c = c.
Proof. by destruct c. Qed.
Lemma ok_scoped {A} c names (m : M A) Q :
  run_to (shadowed names c) m (λ a c', rescoped (in_scope c) c' = c ∧ Q a) → run_ok c (scoped names m) Q.
Proof.
  intros Hm. apply ok_to, (to_gets _ in_scope); [done|]. apply (to_modify _ (shadowed names c)); [by intros s <-|].
  eapply to_bind; [exact Hm|]. intros a c' [Hc Ha]. apply (to_modify _ c); [|by apply to_ret].
  intros s Hs. by rewrite -Hc -Hs.
Qed.
Lemma ok_ext {A} c (m m' : M A) Q : (∀ s, m' s = m s) → run_ok c m Q → run_ok c m' Q.
Proof. intros E Hm s Hs. specialize (Hm s Hs). by rewrite E. Qed.

Definition only {A} (m : M A) (Q : A → Prop) : Prop := ∀ s s' a, m s = (s', inl a) → Q a.
Lemma only_ret {A} (a : A) Q : Q a → only (mret a) Q.
Proof. by intros Ha s s' ? [= _ <-]. Qed.
Lemma only_bind {A B} (m : M B) (f : B → M A) Q : (∀ b, only (f b) Q) → only (m ≫= f) Q.
Proof. intros Hf s s' a. rewrite /mbind /M_bind. destruct (m s) as [s1 [b|e]]; [apply Hf|done]. Qed.
Lemma only_deny {A} reason what (Q : A → Prop) : only (Deny reason what) Q.
Proof. by intros s s' a. Qed.
Lemma to_only {A} c (m : M A) Q R : run_to c m Q → only m R → run_to c m (λ a c', Q a c' ∧ R a).
Proof.
  intros Hm HR s Hs. specialize (Hm s Hs). specialize (HR s). destruct (m s) as [s' [a|e]]; [|done].
  split; [done|]. by eapply HR.
Qed.

Fixpoint json_nested_ind (Q : Json → Prop) (null : Q JNull) (bool_ : ∀ b, Q (JBool b)) (int : ∀ z, Q (JInt z))
    (real : ∀ t w, Q (JReal t w)) (str : ∀ s, Q (JStr s)) (arr : ∀ l, Forall Q l → Q (JArr l))
    (obj : ∀ l, Forall (λ m, Q m.2) l → Q (JObj l)) (v : Json) {struct v} : Q v.
Proof.
  destruct v as [|b|z|t w|s|l|l]; [done|apply bool_|apply int|apply real|apply str|apply arr|apply obj].
  - induction l as [|v l IH]; constructor; [by apply (json_nested_ind Q)|exact IH].
  - induction l as [|[k v] l IH]; constructor; [by apply (json_nested_ind Q)|exact IH].
Defined.

Section operations.
Context `{SU : StringUtil} `{JR : JsonReader} `{PL : ParsingLaws} `{PS : PolicySource} `{B : Batch}.

Lemma calm_NoteDenyReason reason : calm (NoteDenyReason reason).
Proof. by apply calm_modify. Qed.
Hint Resolve calm_NoteDenyReason : calm.
Lemma calm_TakeDenyReason : calm TakeDenyReason.
Proof. rewrite /TakeDenyReason. calm. Qed.
Lemma calm_InstantiateSelect sql : calm (InstantiateSelect sql).
Proof. rewrite /InstantiateSelect. calm. Qed.
Lemma calm_InstantiateExpr text : calm (InstantiateExpr text).
Proof. rewrite /InstantiateExpr. calm. Qed.
Lemma calm_ParsePhysName phys : calm (ParsePhysName phys).
Proof. apply calm_lift. Qed.
Hint Resolve calm_TakeDenyReason calm_InstantiateSelect calm_InstantiateExpr calm_ParsePhysName : calm.
Lemma calm_ReadFrom policy : calm (ReadFrom policy).
Proof. rewrite /ReadFrom /RewriteData.KeyToSql. calm. Qed.
Lemma calm_note_on f : calm (note_on f).
Proof. rewrite /note_on. calm. Qed.
Hint Resolve calm_ReadFrom calm_note_on : calm.
Lemma calm_Note name capability : calm (Note name capability).
Proof. apply calm_note_on. Qed.
Lemma calm_NotePhysical phys vname : calm (NotePhysical phys vname).
Proof. rewrite /NotePhysical. calm. Qed.
Lemma calm_read_gate what : calm (read_gate what).
Proof. rewrite /read_gate /MetadataOnly. calm. Qed.
Lemma calm_TempAllowed : calm TempAllowed.
Proof. rewrite /TempAllowed. calm. Qed.
Lemma calm_UseCatalog : calm UseCatalog.
Proof. rewrite /UseCatalog /PrincipalMain. calm. Qed.
Lemma calm_use_in_force : calm use_in_force.
Proof. rewrite /use_in_force. calm. Qed.
Lemma calm_HoldsCatalog name : calm (HoldsCatalog name).
Proof. rewrite /HoldsCatalog. calm. Qed.
Hint Resolve calm_Note calm_NotePhysical calm_read_gate calm_TempAllowed calm_UseCatalog calm_use_in_force
  calm_HoldsCatalog : calm.
Lemma calm_Key name : calm (Key name).
Proof. rewrite /Key. calm. Qed.
Hint Resolve calm_Key : calm.

(** *** Markers *)
Lemma calm_ClaimValue l : calm (ClaimValue l).
Proof. rewrite /ClaimValue. calm. Qed.
Lemma calm_ArgExpression l args : calm (ArgExpression l args).
Proof. rewrite /ArgExpression. calm. Qed.
Hint Resolve calm_ClaimValue calm_ArgExpression : calm.

Lemma node_ctes_depth q c b : c ∈ node_ctes q → c.2 = Some b → query_depth b < query_depth q.
Proof.
  intros Hc Hb. assert (Hle : opt_depth query_depth c.2 ≤ deepest (map (λ c, opt_depth query_depth c.2) (node_ctes q))).
  { by apply (map_depth (λ c : string * option Query, opt_depth query_depth c.2)). }
  rewrite Hb /= in Hle. destruct q; simpl in *; lia.
Qed.
Lemma node_modifiers_depth q e : e ∈ node_modifiers q → depth e < query_depth q.
Proof. intros He%(map_depth depth). destruct q; simpl in *; lia. Qed.

Lemma calm_Bake_both n :
  (∀ args e, depth e ≤ n → calm (BakeMarkers n args e)) ∧ (∀ args q, query_depth q ≤ n → calm (BakeMarkersInNode n args q)).
Proof.
  induction n as [|n [IHe IHq]].
  { split; [intros args e; pose proof (depth_pos e); lia|]. intros args q. destruct q; simpl; lia. }
  split.
  - intros args e He.
    assert (Hchildren : ∀ e', (∀ x, x ∈ children e' → depth x ≤ n) → calm (each_child (BakeMarkers n args) e')).
    { intros e' He'. apply calm_each_child. intros x Hx. by apply IHe, He'. }
    assert (Hown : calm (each_child (BakeMarkers n args) e)).
    { apply Hchildren. intros x Hx%children_depth. lia. }
    destruct e; cbn [BakeMarkers]; try done.
    + calm.
    + apply calm_bind; [apply calm_for_opt; intros q ->; apply IHq; simpl in He; lia|]. intros body'.
      apply Hchildren. intros x Hx. specialize (children_depth (Subquery alias kind child body) x).
      change (children (Subquery alias kind child body)) with (children (Subquery alias kind child body')). lia.
  - intros args q Hq. cbn [BakeMarkersInNode]. apply calm_bind.
    { apply calm_mapM. intros c Hc. apply calm_bind; [|intros; apply calm_ret]. apply calm_for_opt. intros b Hb.
      apply IHq. pose proof (node_ctes_depth _ _ _ Hc Hb). lia. }
    intros ctes.
    assert (Hparts : calm (parts ← mapM (BakeMarkers n args) (node_parts (with_heads ctes (node_modifiers q) q));
                           mret (node_rebuild (with_heads ctes (node_modifiers q) q) parts))).
    { apply calm_bind; [|intros; apply calm_ret]. rewrite node_parts_apart. apply calm_mapM.
      intros e He%node_parts_inside. apply IHe. lia. }
    destruct q; cbn [with_heads node_modifiers] in Hparts |- *; try exact Hparts.
    repeat (apply calm_bind; [|intros ?]); [| | |apply calm_ret].
    + apply calm_for_opt. intros b ->. apply IHq. simpl in Hq. lia.
    + apply calm_for_opt. intros b ->. apply IHq. simpl in Hq. lia.
    + apply calm_mapM. intros e He%(map_depth depth). apply IHe. simpl in Hq. lia.
Qed.
Lemma calm_Bake args e : calm (Bake args e).
Proof. by apply calm_Bake_both. Qed.
Lemma calm_BakeNode args q : calm (BakeNode args q).
Proof. by apply calm_Bake_both. Qed.
Hint Resolve calm_Bake calm_BakeNode : calm.
Lemma calm_baked text : calm (baked text).
Proof. rewrite /baked. calm. Qed.
Hint Resolve calm_baked : calm.

(** *** Columns and values *)
Lemma calm_MapWrittenColumn policy vname written : calm (MapWrittenColumn policy vname written).
Proof. rewrite /MapWrittenColumn. calm. Qed.
Hint Resolve calm_MapWrittenColumn : calm.
Lemma calm_MapColumnRefs policy vname target e : calm (MapColumnRefs policy vname target e).
Proof.
  induction e as [e IH] using children_ind.
  assert (Hown : calm (each_child (MapColumnRefs policy vname target) e)) by by apply calm_each_child.
  destruct e; cbn [MapColumnRefs]; try exact Hown. calm.
Qed.
Lemma calm_RequireValueExpression column vname e : calm (RequireValueExpression column vname e).
Proof.
  induction e as [e IH] using children_ind.
  assert (Hown : calm (iterM id (over_children (RequireValueExpression column vname) e))) by by apply calm_over_children.
  destruct e; cbn [RequireValueExpression]; try exact Hown. calm.
Qed.
Hint Resolve calm_MapColumnRefs calm_RequireValueExpression : calm.
Lemma calm_InjectedValue injection vname : calm (InjectedValue injection vname).
Proof. rewrite /InjectedValue. calm. Qed.
Lemma calm_FieldWriteTree policy column : calm (FieldWriteTree policy column).
Proof. rewrite /FieldWriteTree. calm. Qed.
Lemma calm_RequireFieldMasksAreValues column vname node : calm (RequireFieldMasksAreValues column vname node).
Proof.
  induction node as [x w m mask fields element IHf IHe] using node_ind'. cbn [RequireFieldMasksAreValues].
  destruct m; [calm|]. apply calm_bind.
  - apply calm_iterM. intros c (f & -> & Hf)%in_map. rewrite Forall_forall in IHf. by apply IHf.
  - intros _. destruct element; [by apply IHe|apply calm_ret].
Qed.
Hint Resolve calm_InjectedValue calm_FieldWriteTree calm_RequireFieldMasksAreValues : calm.
Lemma calm_FieldWriteValue tree written stored column vname : calm (FieldWriteValue tree written stored column vname).
Proof. rewrite /FieldWriteValue. calm. Qed.
Hint Resolve calm_FieldWriteValue : calm.
Lemma calm_map_paired f columns expressions :
  (∀ c e, calm (f c e)) → calm (map_paired f columns expressions).
Proof.
  intros Hf. revert expressions. induction columns as [|c columns IH]; intros [|e expressions]; simpl; try apply calm_ret.
  apply calm_bind; [apply Hf|]. intros e'. apply calm_bind; [apply IH|]. intros es. apply calm_ret.
Qed.
Lemma calm_over_set f set : (∀ c e, calm (f c e)) → calm (over_set f set).
Proof. intros Hf. rewrite /over_set. apply calm_bind; [by apply calm_map_paired|]. intros es. apply calm_ret. Qed.
Lemma calm_ApplySetInjections policy vname set : calm (ApplySetInjections policy vname set).
Proof. apply calm_over_set. calm. Qed.
Lemma calm_ApplyFieldWrites policy vname target set : calm (ApplyFieldWrites policy vname target set).
Proof. apply calm_over_set. calm. Qed.
Lemma calm_MapWritableColumn policy vname written : calm (MapWritableColumn policy vname written).
Proof. rewrite /MapWritableColumn /RequireWritableColumn. calm. Qed.
Lemma calm_RequireWritableColumn policy vname written : calm (RequireWritableColumn policy vname written).
Proof. rewrite /RequireWritableColumn. calm. Qed.
Lemma calm_WritePredicate policy : calm (WritePredicate policy).
Proof. rewrite /WritePredicate. calm. Qed.
Hint Resolve calm_ApplySetInjections calm_ApplyFieldWrites calm_MapWritableColumn calm_RequireWritableColumn
  calm_WritePredicate : calm.
Lemma calm_TargetPredicate policy alias vname : calm (TargetPredicate policy alias vname).
Proof. rewrite /TargetPredicate. calm. Qed.
Lemma calm_AndPolicyPredicate condition policy : calm (AndPolicyPredicate condition policy).
Proof. rewrite /AndPolicyPredicate. calm. Qed.
Lemma calm_ApplyInsertCheck columns default_values source policy vname :
  calm (ApplyInsertCheck columns default_values source policy vname).
Proof. rewrite /ApplyInsertCheck. calm. Qed.
Lemma calm_ApplyMergeInsertCheck policy vname action : calm (ApplyMergeInsertCheck policy vname action).
Proof. rewrite /ApplyMergeInsertCheck. calm. Qed.
Lemma calm_ApplyUpdateCheck policy vname target set : calm (ApplyUpdateCheck policy vname target set).
Proof. rewrite /ApplyUpdateCheck. calm. Qed.
Hint Resolve calm_TargetPredicate calm_AndPolicyPredicate calm_ApplyInsertCheck calm_ApplyMergeInsertCheck
  calm_ApplyUpdateCheck : calm.

(** *** What a write's expressions read *)
Lemma calm_readable_form base mask narrowed : calm (readable_form base mask narrowed).
Proof. rewrite /readable_form. calm. Qed.
Hint Resolve calm_readable_form : calm.
Lemma calm_readable_column scope e names : calm (readable_column scope e names).
Proof. rewrite /readable_column. calm. Qed.
Hint Resolve calm_readable_column : calm.
Lemma calm_MapReadable_both n :
  (∀ scope e, depth e ≤ n → calm (MapReadable_ n scope e)) ∧ (∀ scope q, query_depth q ≤ n → calm (MapReadableNode n scope q)).
Proof.
  induction n as [|n [IHe IHq]].
  { split; [intros scope e; pose proof (depth_pos e); lia|]. intros scope q. destruct q; simpl; lia. }
  split.
  - intros scope e He.
    assert (Hown : calm (each_child (MapReadable_ n scope) e)).
    { apply calm_each_child. intros x Hx%children_depth. apply IHe. lia. }
    destruct e; cbn [MapReadable_]; try exact Hown; [apply calm_readable_column| |].
    + apply calm_bind; [apply calm_for_opt; intros x ->; apply IHe; simpl in He; lia|]. intros child'.
      apply calm_bind; [apply calm_for_opt; intros x ->; apply IHq; simpl in He; lia|]. intros body'. apply calm_ret.
    + apply calm_bind; [apply IHe; simpl in He; lia|]. intros e. apply calm_ret.
  - intros scope q Hq. cbn [MapReadableNode]. apply calm_bind; [|intros; apply calm_ret].
    apply calm_mapM. intros e He%node_parts_inside. apply IHe. lia.
Qed.
Lemma calm_MapReadable policy vname alias single others e : calm (MapReadable policy vname alias single others e).
Proof. rewrite /MapReadable. case_match; [apply calm_ret|]. by apply calm_MapReadable_both. Qed.
Hint Resolve calm_MapReadable : calm.

(** *** Insert policies *)
Lemma calm_stream_injections columns vname l replaced : calm (stream_injections columns vname l replaced).
Proof. revert replaced. induction l as [|i l IH]; intros replaced; simpl; calm; apply IH. Qed.
Lemma calm_stream_fields policy vname i columns replaced : calm (stream_fields policy vname i columns replaced).
Proof. revert i replaced. induction columns as [|c l IH]; intros i replaced; simpl; calm; apply IH. Qed.
Hint Resolve calm_stream_injections calm_stream_fields : calm.
Lemma calm_ApplyStreamInjections policy vname columns source : calm (ApplyStreamInjections policy vname columns source).
Proof. rewrite /ApplyStreamInjections. calm. Qed.
Lemma calm_kept_items policy vname columns : calm (kept_items policy vname columns).
Proof. induction columns as [|c l IH]; simpl; calm; apply IH. Qed.
Lemma calm_assigned_items policy vname : calm (assigned_items policy vname).
Proof. rewrite /assigned_items. calm. Qed.
Hint Resolve calm_ApplyStreamInjections calm_kept_items calm_assigned_items : calm.
Lemma calm_ApplyInsertPolicy columns default_values by_name source conflict policy vname :
  calm (ApplyInsertPolicy columns default_values by_name source conflict policy vname).
Proof. rewrite /ApplyInsertPolicy. calm. Qed.
Lemma calm_ApplyMergeInsertPolicy policy vname action : calm (ApplyMergeInsertPolicy policy vname action).
Proof.
  rewrite /ApplyMergeInsertPolicy. case_match; [apply calm_ret|]. apply calm_bind; [calm|]. intros _.
  apply calm_bind; [calm|]. intros columns. apply calm_bind; [apply calm_map_paired; calm|]. calm.
Qed.
Lemma calm_RequireReadableExpr policy vname e : calm (RequireReadableExpr policy vname e).
Proof.
  induction e as [e IH] using children_ind.
  assert (Hown : calm (iterM id (over_children (RequireReadableExpr policy vname) e))) by by apply calm_over_children.
  destruct e; cbn [RequireReadableExpr]; try exact Hown; calm.
Qed.
Hint Resolve calm_ApplyInsertPolicy calm_ApplyMergeInsertPolicy calm_RequireReadableExpr : calm.
Lemma calm_RequireReadableReturning returning policy vname : calm (RequireReadableReturning returning policy vname).
Proof. rewrite /RequireReadableReturning. calm. Qed.
Hint Resolve calm_RequireReadableReturning : calm.
(** *** Names, types and calls *)
Lemma calm_ResolveVirtualFunction name table_kind : calm (ResolveVirtualFunction name table_kind).
Proof. rewrite /ResolveVirtualFunction. calm. Qed.
Lemma calm_type_denied {A} name : calm (type_denied (A := A) name).
Proof. apply calm_deny. Qed.
Hint Resolve calm_ResolveVirtualFunction calm_type_denied : calm.
Lemma calm_GateTypeExpression e : calm (GateTypeExpression e).
Proof.
  induction e as [e IH] using children_ind.
  assert (Hown : calm (each_child GateTypeExpression e)) by by apply calm_each_child.
  destruct e; cbn [GateTypeExpression]; try exact Hown.
  assert (Hparameters : calm (mapM GateTypeExpression parameters)).
  { apply calm_mapM. intros x Hx. apply IH. by rewrite /children /over_children map_id. }
  calm; apply Hparameters.
Qed.
Hint Resolve calm_GateTypeExpression : calm.
Lemma calm_GateTypeText text function : calm (GateTypeText text function).
Proof. rewrite /GateTypeText /no_type. calm. Qed.
Hint Resolve calm_GateTypeText : calm.
Lemma calm_GateJsonStructure function value : calm (GateJsonStructure function value).
Proof.
  induction value as [| | | | |items IH|members IH] using json_nested_ind; cbn [GateJsonStructure]; rewrite /no_type; try solve [calm].
  - apply calm_bind; [|intros; apply calm_ret]. apply calm_mapM. rewrite Forall_forall in IH. auto.
  - apply calm_bind; [|intros; apply calm_ret]. apply calm_mapM. rewrite Forall_forall in IH. intros m Hm.
    apply calm_bind; [by apply IH|]. intros; apply calm_ret.
Qed.
Hint Resolve calm_GateJsonStructure : calm.
Lemma calm_GateTypeTextArguments name arguments : calm (GateTypeTextArguments name arguments).
Proof. rewrite /GateTypeTextArguments. calm. Qed.
Lemma calm_GateFunction written kind shown probe : calm (GateFunction written kind shown probe).
Proof. rewrite /GateFunction. calm. Qed.
Hint Resolve calm_GateTypeTextArguments calm_GateFunction : calm.
Lemma calm_AdmitFunction written kind shown : calm (AdmitFunction written kind shown).
Proof. rewrite /AdmitFunction. calm. Qed.
Lemma calm_listing surface scope refusal : calm (listing surface scope refusal).
Proof. rewrite /listing. calm. Qed.
Hint Resolve calm_AdmitFunction calm_listing : calm.
Lemma calm_BuildCurrentDatabaseExpr : calm BuildCurrentDatabaseExpr.
Proof. rewrite /BuildCurrentDatabaseExpr. calm. Qed.
Hint Resolve calm_BuildCurrentDatabaseExpr : calm.
Lemma calm_SubstituteSessionIdentity e name : calm (SubstituteSessionIdentity e name).
Proof. rewrite /SubstituteSessionIdentity. calm. Qed.
Lemma calm_BuildScalarExpr vname policy arguments : calm (BuildScalarExpr vname policy arguments).
Proof. rewrite /BuildScalarExpr. calm. Qed.
Hint Resolve calm_SubstituteSessionIdentity calm_BuildScalarExpr : calm.

(** *** Listings and relations *)
Lemma calm_AppendTempListing surface sql : calm (AppendTempListing surface sql).
Proof. rewrite /AppendTempListing /TempNamesList. calm. Qed.
Lemma calm_SubqueryOf sql : calm (SubqueryOf sql).
Proof. rewrite /SubqueryOf. calm. Qed.
Lemma calm_ScopeOf surface alias column_alias : calm (ScopeOf surface alias column_alias).
Proof. rewrite /ScopeOf. calm. Qed.
Lemma calm_subquery_ref alias column_alias sql : calm (subquery_ref alias column_alias sql).
Proof. rewrite /subquery_ref. calm. Qed.
Lemma calm_object_argument function what arguments : calm (object_argument function what arguments).
Proof. rewrite /object_argument. calm. Qed.
Hint Resolve calm_AppendTempListing calm_SubqueryOf calm_ScopeOf calm_subquery_ref calm_object_argument : calm.
Lemma calm_BuildMetadataSubquery surface alias column_alias : calm (BuildMetadataSubquery surface alias column_alias).
Proof. rewrite /BuildMetadataSubquery. calm. Qed.
Lemma calm_BuildReferencesSubquery arguments alias : calm (BuildReferencesSubquery arguments alias).
Proof. rewrite /BuildReferencesSubquery. calm. Qed.
Lemma calm_BuildKeysSubquery arguments alias : calm (BuildKeysSubquery arguments alias).
Proof. rewrite /BuildKeysSubquery. calm. Qed.
Lemma calm_BuildLineageDefinitionsSubquery arguments alias : calm (BuildLineageDefinitionsSubquery arguments alias).
Proof. rewrite /BuildLineageDefinitionsSubquery /lineage_catalog_argument. calm. Qed.
Lemma calm_function_filters columns arguments : calm (function_filters columns arguments).
Proof. revert arguments. induction columns as [|c columns IH]; intros arguments; simpl; calm; apply IH. Qed.
Hint Resolve calm_function_filters : calm.
Lemma calm_BuildFunctionColumnsSubquery arguments alias : calm (BuildFunctionColumnsSubquery arguments alias).
Proof. rewrite /BuildFunctionColumnsSubquery. calm. Qed.
Lemma calm_BuildPlatformView leaf key alias column_alias : calm (BuildPlatformView leaf key alias column_alias).
Proof. rewrite /BuildPlatformView. calm. Qed.
Lemma calm_constant_argument shown argument : calm (constant_argument shown argument).
Proof. rewrite /constant_argument. calm. Qed.
Lemma calm_management_call {A} shown : calm (management_call (A := A) shown).
Proof. apply calm_deny. Qed.
Hint Resolve calm_BuildMetadataSubquery calm_BuildReferencesSubquery calm_BuildKeysSubquery
  calm_BuildLineageDefinitionsSubquery calm_BuildFunctionColumnsSubquery calm_BuildPlatformView calm_constant_argument
  calm_management_call : calm.
Lemma calm_RewritePlatformTableFunction leaf alias column_alias arguments :
  calm (RewritePlatformTableFunction leaf alias column_alias arguments).
Proof.
  rewrite /RewritePlatformTableFunction. case_match; [|calm]. do 3 (apply calm_bind; [calm|intros ?]).
  apply calm_bind; [|calm]. apply calm_catch; [calm..|]. intros ?; apply steady_fails; steady.
Qed.
Lemma calm_BuildTableSubquery vname policy alias column_alias sample :
  calm (BuildTableSubquery vname policy alias column_alias sample).
Proof. rewrite /BuildTableSubquery. calm. Qed.
Lemma calm_BuildRenamedSubquery vname policy alias column_alias sample :
  calm (BuildRenamedSubquery vname policy alias column_alias sample).
Proof. rewrite /BuildRenamedSubquery. calm. Qed.
Lemma calm_BuildFunctionSubquery vname policy arguments alias column_alias :
  calm (BuildFunctionSubquery vname policy arguments alias column_alias).
Proof. rewrite /BuildFunctionSubquery. calm. Qed.
Lemma calm_WrapWithGrantPolicy ref policy alias : calm (WrapWithGrantPolicy ref policy alias).
Proof. rewrite /WrapWithGrantPolicy. calm. Qed.
Hint Resolve calm_RewritePlatformTableFunction calm_BuildTableSubquery calm_BuildRenamedSubquery
  calm_BuildFunctionSubquery calm_WrapWithGrantPolicy : calm.

(** *** The target of a write *)
Lemma calm_no_access {A} key : calm (no_access (A := A) key).
Proof. apply calm_deny. Qed.
Lemma calm_TryTempDmlTarget target target_name key : calm (TryTempDmlTarget target target_name key).
Proof. rewrite /TryTempDmlTarget. calm. Qed.
Lemma calm_united_columns key verb roles allowed : calm (united_columns key verb roles allowed).
Proof. revert allowed. induction roles as [|r roles IH]; intros allowed; simpl; rewrite /role_columns; calm; apply IH. Qed.
Hint Resolve calm_no_access calm_TryTempDmlTarget calm_united_columns : calm.
Lemma calm_VerbReadScope key verb policy : calm (VerbReadScope key verb policy).
Proof. rewrite /VerbReadScope. calm. Qed.
Hint Resolve calm_VerbReadScope : calm.
Lemma calm_read_side key capability policy : calm (read_side key capability policy).
Proof.
  rewrite /read_side. apply calm_bind; [by apply calm_modify|]. intros _. case_match; [calm|].
  apply calm_bind; [|calm]. apply calm_catch; [calm..|]. intros ?; apply steady_fails; steady.
Qed.
Hint Resolve calm_read_side : calm.
Lemma calm_ResolveDmlName target target_name capability : calm (ResolveDmlName target target_name capability).
Proof. rewrite /ResolveDmlName. calm. Qed.
Hint Resolve calm_ResolveDmlName : calm.
Lemma calm_ResolveDmlTarget target capability : calm (ResolveDmlTarget target capability).
Proof. rewrite /ResolveDmlTarget. calm. Qed.
Lemma calm_ConflictUpdatePolicy conflict insert key : calm (ConflictUpdatePolicy conflict insert key).
Proof. rewrite /ConflictUpdatePolicy. calm. Qed.
End operations.
#[export] Hint Resolve calm_NoteDenyReason calm_TakeDenyReason calm_InstantiateSelect calm_InstantiateExpr
  calm_ParsePhysName calm_ReadFrom calm_note_on calm_Note calm_NotePhysical calm_read_gate calm_TempAllowed
  calm_UseCatalog calm_use_in_force calm_HoldsCatalog calm_Key calm_ClaimValue calm_ArgExpression calm_Bake
  calm_BakeNode calm_baked calm_MapWrittenColumn calm_MapColumnRefs calm_RequireValueExpression calm_InjectedValue
  calm_FieldWriteTree calm_RequireFieldMasksAreValues calm_FieldWriteValue calm_ApplySetInjections
  calm_ApplyFieldWrites calm_MapWritableColumn calm_RequireWritableColumn calm_WritePredicate calm_TargetPredicate
  calm_AndPolicyPredicate calm_ApplyInsertCheck calm_ApplyMergeInsertCheck calm_ApplyUpdateCheck calm_readable_form
  calm_readable_column calm_MapReadable calm_stream_injections calm_stream_fields calm_ApplyStreamInjections
  calm_kept_items calm_assigned_items calm_ApplyInsertPolicy calm_ApplyMergeInsertPolicy calm_RequireReadableExpr
  calm_RequireReadableReturning calm_ResolveVirtualFunction calm_type_denied calm_GateTypeExpression calm_GateTypeText
  calm_GateJsonStructure calm_GateTypeTextArguments calm_GateFunction calm_AdmitFunction calm_listing
  calm_BuildCurrentDatabaseExpr calm_SubstituteSessionIdentity calm_BuildScalarExpr calm_AppendTempListing
  calm_SubqueryOf calm_ScopeOf calm_subquery_ref calm_object_argument calm_BuildMetadataSubquery
  calm_BuildReferencesSubquery calm_BuildKeysSubquery calm_BuildLineageDefinitionsSubquery calm_function_filters
  calm_BuildFunctionColumnsSubquery calm_BuildPlatformView calm_constant_argument calm_management_call
  calm_RewritePlatformTableFunction calm_BuildTableSubquery calm_BuildRenamedSubquery calm_BuildFunctionSubquery
  calm_WrapWithGrantPolicy calm_no_access calm_TryTempDmlTarget calm_united_columns calm_VerbReadScope calm_read_side
  calm_ResolveDmlName calm_ResolveDmlTarget calm_ConflictUpdatePolicy : calm.
