(* ===== verification/RewriterSpec.v ===== *)
(** * What a rewritten statement may hold

    The output the rewriter promises, as a grammar over the statement's tree: a relation is a CTE in scope, the session's
    own temp, the physical table of a grant or what the grant's SQL makes of it; a call is one the function gate admitted,
    named by its catalog key, or a virtual one a grant holds; a type is the system catalog's; a write lands in a target its
    verb is granted on, in the columns its policy lets be written and under the policy's predicate.  A view-as session reads
    only what DESCRIBE binds. *)
From S2P Require Import Prelude NamePath FieldPaths FunctionCategories PolicyTypes Platform Token Tree RewriteData RewriteDml.
From S2P Require Import RewriteRefs Rewriter RewriterRuns.

Definition on_some {A} (Q : A → Prop) (o : option A) : Prop := ∀ x, o = Some x → Q x.

Section grants.
Context `{SU : StringUtil} `{JR : JsonReader} `{P : Parsing} `{PS : PolicySource} `{B : Batch}.

(** A place data may be read at: outside a view-as session, or inside a DESCRIBE *)
Definition reads (c : place) : Prop := metadata_only = false ∨ described c ≠ 0%nat.
Definition deeper (c : place) : place := {|
  in_scope := in_scope c; described := S (described c); dropped := dropped c; answered := answered c; queued := queued c;
  keeping := keeping c |}.

Definition granted (verb key : string) (p : TablePolicy) : Prop :=
  ResolveTable (who principal) key verb = Answered (Some p) ∧ holds_cap p verb = true.
Definition callable (table_kind : bool) (p : TablePolicy) : Prop :=
  (∃ name, (if table_kind then ResolveTableFunction (who principal) name else ResolveScalarFunction (who principal) name)
             = Answered (Some p)) ∧ holds_cap p "select" = true.
Definition temp_held : Prop := metadata_only = false ∧ PrincipalMainCap (who principal) "temp" = Answered true.
Inductive temp_name : QualifiedName → Prop :=
  | temp_written name : TempQualified name = true → temp_name name
  | temp_bare name : TempResolves name = true → temp_name (TempName name).
(** The key the function gate admitted a name by; outside the system catalog it reads *)
Definition admitted (c : place) (kind : FunctionKind) (name : QualifiedName) : Prop :=
  ∃ written d, ResolveFunction (who principal) written kind = Answered d ∧ verdict d = ADMITTED
    ∧ name = [database (key d); schema (key d); fname (key d)]
    ∧ (CIEquals (database (key d)) "system" = false → reads c).

Definition system_part (part name : string) : Prop := is_empty part = true ∨ CIEquals part name = true.
(** A type's own name: one of the system catalog, or one of duckdb's constructors *)
Definition type_named (catalog schema name : string) : Prop :=
  (catalog = "system" ∧ schema = "main" ∧ SystemTypeExists name = Answered true)
  ∨ (ci_mem name CONSTRUCTORS = true ∧ system_part catalog "system" ∧ system_part schema "main").
Definition is_type (e : Expr) : bool := match e with TypeExpr _ _ _ _ _ => true | _ => false end.
Inductive system_type : Expr → Prop :=
  | system_named a catalog schema name parameters :
      type_named catalog schema name → (∀ x, x ∈ parameters → system_type x) →
      system_type (TypeExpr a catalog schema name parameters)
  | system_other e : is_type e = false → (∀ x, x ∈ children e → system_type x) → system_type e.

(** A node the walk only passes through *)
Definition plain (e : Expr) : bool :=
  match e with
  | ColumnRef _ names => negb (IsSessionIdentityKeyword names)
  | Constant _ _ | Star _ _ _ _ _ _ _ | Lambda _ _ _ | Operation _ _ _ => true
  | _ => false
  end.
(** The functions that list metadata *)
Inductive lists (r : TableRef) : Prop :=
  | lists_keys arguments alias : yields (BuildKeysSubquery arguments alias) r → lists r
  | lists_references arguments alias : yields (BuildReferencesSubquery arguments alias) r → lists r
  | lists_function_columns arguments alias : yields (BuildFunctionColumnsSubquery arguments alias) r → lists r
  | lists_lineage arguments alias : yields (BuildLineageDefinitionsSubquery arguments alias) r → lists r
  | lists_surface surface alias column_alias : yields (BuildMetadataSubquery surface alias column_alias) r → lists r
  | lists_show show name : yields (show_listing show name) r → lists r
  | lists_view leaf key alias column_alias : yields (BuildPlatformView leaf key alias column_alias) r → lists r
  | lists_platform leaf alias column_alias arguments :
      yields (RewritePlatformTableFunction leaf alias column_alias arguments) r → lists r.

(** ** Writes *)

(** The target of a verb, the policy its columns answer to, its name, and the policy its conditions read under; a
    session's own temp has no policy, and neither has a target that is no table name *)
Inductive reads_under (key : string) (p : TablePolicy) : TablePolicy → Prop :=
  | under_own : reads_under key p p
  | under_select read : ResolveTable (who principal) key "select" = Answered (Some read) → reads_under key p read
  | under_columns columns why : reads_under key p (reading_only columns (refusing why p))
  | under_verb why : reads_under key p (refusing why p).
Inductive writes_to (verb : string) : option TableRef → QualifiedName → TablePolicy → string → TablePolicy → Prop :=
  | writes_granted key p p' t name r :
      granted verb key p → writable p = true → KeyToQualified id (phys p) = Ok name →
      (p' = p ∨ ∃ why, p' = refusing why p) → reads_under key p r →
      writes_to verb (retarget name t) name p' key r
  | writes_temp t name key r :
      temp_held → temp_name (written_target t name) → writes_to verb t name no_policy key r
  | writes_temp_bare t leaf key r :
      temp_held → TempResolves leaf = true → writes_to verb (retarget (TempName leaf) t) (TempName leaf) no_policy key r.
Definition is_base (t : option TableRef) : bool := match t with Some (BaseTable _ _ _ _ _) => true | _ => false end.
Inductive targets (verb : string) : option TableRef → TablePolicy → string → TablePolicy → Prop :=
  | targets_table t name p v r : writes_to verb t name p v r → targets verb t p v r
  | targets_other t v r : is_base t = false → targets verb t no_policy v r.

Definition may_write (p : TablePolicy) (column : string) : Prop :=
  write_columns p = [] ∨ ci_mem column (write_columns p) = true.
(** The predicate of a policy, as a write carries it *)
Definition predicate_of (p : TablePolicy) (e : option Expr) : Prop :=
  yields (WritePredicate p) e ∨ ∃ alias vname, yields (TargetPredicate p alias vname) e.

Section written.
Variable F : Expr → Prop.
Variable p r : TablePolicy.
(** An expression of a write: a rewritten one with the target's columns in it, read as [r] reads them, or the policy's *)
Inductive written : Expr → Prop :=
  | written_own e : F e → written e
  | written_columns vname target e e' : written e → yields (MapColumnRefs p vname target e) e' → written e'
  | written_readable vname alias single others e e' :
      written e → yields (MapReadable r vname alias single others e) e' → written e'
  | written_target vname target e : written e → written (MapTargetQualifier vname target e)
  | written_injected injection vname e : injection ∈ injections p → yields (InjectedValue injection vname) e → written e
  | written_fields column tree e stored shown vname e' :
      yields (FieldWriteTree p column) (Some tree) → written e → yields (FieldWriteValue tree e stored shown vname) e' →
      written e'
  | written_checked row e predicate vname :
      written e → predicate_of p (Some predicate) → Forall (λ c, written c.2) row →
      written (GuardedValue e (SubstituteSetValues row predicate) vname)
  | written_checked_target alias row e predicate vname :
      written e → predicate_of p (Some predicate) → Forall (λ c, written c.2) row →
      written (GuardedValue e (SubstituteSetValues row (QualifyWithTarget alias predicate)) vname).

(** A condition under the policy's predicate *)
Definition confined (condition : option Expr) : Prop :=
  ∃ own predicate, on_some written own ∧ predicate_of p predicate ∧ condition = AndInto own predicate.
Definition sets (set : UpdateSetInfo Expr) : Prop :=
  Forall (may_write p) (set_columns set) ∧ Forall written (set_expressions set).
Definition branch (matched : MergeActionCondition) (a : MergeIntoAction Expr) : Prop :=
  (matched = WHEN_NOT_MATCHED_BY_SOURCE → confined (merge_condition a))
  ∧ (matched ≠ WHEN_NOT_MATCHED_BY_SOURCE → on_some written (merge_condition a))
  ∧ on_some (λ set, sets set ∧ on_some written (set_condition set)) (update_info a)
  ∧ (merge_type a ≠ MERGE_INSERT → Forall written (merge_expressions a))
  ∧ (merge_type a = MERGE_INSERT → ∃ before governed vname,
       Forall written (merge_expressions before) ∧ yields (ApplyMergeInsertPolicy p vname before) governed
       ∧ yields (ApplyMergeInsertCheck p vname governed) a).
End written.

Definition conflict_under (F : Expr → Prop) (insert update : TablePolicy) (c : OnConflictInfo Expr) : Prop :=
  on_some (written F insert insert) (conflict_condition c)
  ∧ on_some (λ set, sets F update update set ∧ confined F update update (set_condition set)) (conflict_set c).
(** What an INSERT's rows come from *)
Definition inserts (Q : Query → Prop) (p : TablePolicy) (columns : list string) (source : option Query) : Prop :=
  ∃ columns0 dv by_name conflict vname source0 source1,
    on_some Q source0 ∧ yields (ApplyInsertPolicy columns0 dv by_name source0 conflict p vname) (columns, source1)
    ∧ yields (ApplyInsertCheck columns dv source1 p vname) source.

(** ** The grammar *)

Inductive fineE (c : place) : Expr → Prop :=
  | fine_plain e : plain e = true → (∀ x, x ∈ children e → fineE c x) → fineE c e
  | fine_type alias catalog schema name parameters :
      type_named catalog schema name → Forall (fineE c) parameters → fineE c (TypeExpr alias catalog schema name parameters)
  | fine_cast alias child target : system_type target → fineE c child → fineE c (Cast alias child target)
  | fine_subquery alias kind child body :
      on_some (fineE c) child → on_some (fineQ c) body → fineE c (Subquery alias kind child body)
  | fine_call alias name arguments distinct filter order_by :
      admitted c SCALAR name → Forall (λ a, fineE c a.2) arguments → on_some (fineE c) filter → Forall (fineE c) order_by →
      fineE c (Function alias name arguments distinct filter order_by)
  | fine_window alias name operands :
      admitted c SCALAR name → Forall (fineE c) operands → fineE c (Window alias name operands)
  | fine_template alias vname p arguments e :
      reads c → callable false p → Forall (fineE c) arguments → yields (BuildScalarExpr vname p arguments) e →
      fineE c (set_alias alias e)
  (* FILTER and ORDER BY stay as they were written *)
  | fine_virtual_call alias name p arguments distinct filter order_by :
      reads c → callable false p → subquery_form p = false → KeyToQualified id (phys p) = Ok name →
      Forall (λ a, fineE c a.2) arguments → fineE c (Function alias name arguments distinct filter order_by)
  | fine_identity e name e' : yields (SubstituteSessionIdentity e name) e' → fineE c e'
with fineT (c : place) : TableRef → Prop :=
  | fine_cte alias name columns at_ sample :
      unqualified name = true → ci_mem (Tree.Name name) (in_scope c) = true → on_some (fineE c) at_ →
      fineT c (BaseTable alias name columns at_ sample)
  | fine_temp alias name columns at_ sample :
      reads c → temp_held → temp_name name → on_some (fineE c) at_ → fineT c (BaseTable alias name columns at_ sample)
  | fine_table alias name columns at_ sample key p :
      reads c → granted "select" key p → subquery_form p = false → renames p = [] → casts p = [] →
      KeyToQualified id (phys p) = Ok name → on_some (fineE c) at_ → fineT c (BaseTable alias name columns at_ sample)
  | fine_relation key p vname alias columns sample r :
      reads c → granted "select" key p → yields (BuildTableSubquery vname p alias columns sample) r → fineT c r
  | fine_renamed key p vname alias columns sample r :
      reads c → granted "select" key p → subquery_form p = false →
      yields (BuildRenamedSubquery vname p alias columns sample) r → fineT c r
  | fine_listing r : lists r → fineT c r
  | fine_subquery_ref alias columns body sample : on_some (fineQ c) body → fineT c (SubqueryRef alias columns body sample)
  | fine_join alias lhs rhs condition ranking :
      fineT c lhs → fineT c rhs → on_some (fineE c) condition → on_some (fineE c) ranking →
      fineT c (JoinRef alias lhs rhs condition ranking [])
  | fine_table_function alias columns function_alias name arguments distinct filter order_by subquery bind_info :
      reads c → admitted c FunctionCategories.TABLE name → Forall (λ a, fineE c a.2) arguments → on_some (fineQ c) subquery →
      fineT c (TableFunction alias columns (Some (Function function_alias name arguments distinct filter order_by)) subquery
                 bind_info)
  | fine_virtual_function vname p arguments alias columns r shown r' :
      reads c → callable true p → Forall (fineE c) arguments → yields (BuildFunctionSubquery vname p arguments alias columns) r →
      yields (WrapWithGrantPolicy r p shown) r' → fineT c r'
  (* the call's subquery stays as it was written *)
  | fine_physical_function alias columns function_alias name p arguments distinct filter order_by subquery bind_info shown r :
      reads c → callable true p → subquery_form p = false → KeyToQualified id (phys p) = Ok name →
      Forall (λ a, fineE c a.2) arguments →
      yields (WrapWithGrantPolicy (TableFunction alias columns
                (Some (Function function_alias name arguments distinct filter order_by)) subquery bind_info) p shown) r →
      fineT c r
  (* the connection's own stream, drained under the door's own function, and the stream a door hands over *)
  | fine_drain alias columns function_alias name arguments distinct filter order_by subquery bind_info :
      reads c → ingest_stream principal ≠ EmptyString → KeyToQualified id "acl_quack_scan_data" = Ok name →
      own_stream_argument arguments = true →
      fineT c (TableFunction alias columns (Some (Function function_alias name arguments distinct filter order_by)) subquery
                 bind_info)
  | fine_arrow alias columns function_alias name arguments distinct filter order_by subquery bind_info :
      reads c → arrow_ingest principal = true → CIEquals (Tree.Name name) "arrow_scan" = true →
      fineT c (TableFunction alias columns (Some (Function function_alias name arguments distinct filter order_by)) subquery
                 bind_info)
  | fine_show alias show name body :
      (metadata_only = true → show ≠ SHOW_SUMMARY) → fineQ (deeper c) body → fineT c (ShowRef alias show name (Some body))
  | fine_pivot alias source aggregates pivots :
      fineT c source → Forall (fineE c) aggregates →
      Forall (λ p, Forall (fineE c) (pivot_expressions p) ∧ Forall (on_some (fineE c)) (pivot_entries p)
                   ∧ on_some (fineQ c) (pivot_subquery p)) pivots →
      fineT c (PivotRef alias source aggregates pivots)
  | fine_no_from : fineT c EmptyFrom
  | fine_values alias values : Forall (Forall (fineE c)) values → fineT c (ExpressionList alias values)
(* in the scope of its own CTEs *)
with fineQ (c : place) : Query → Prop :=
  | fine_query q :
      Forall (λ cte, on_some (fineQ (shadowed (map fst (node_ctes q)) c)) cte.2) (node_ctes q) →
      Forall (fineE (shadowed (map fst (node_ctes q)) c)) (node_modifiers q) →
      fineB (shadowed (map fst (node_ctes q)) c) q → fineQ c q
with fineB (c : place) : Query → Prop :=
  | fine_select ctes modifiers items from where_clause having qualify groups :
      Forall (fineE c) items → on_some (fineT c) from → on_some (fineE c) where_clause → on_some (fineE c) having →
      on_some (fineE c) qualify → Forall (fineE c) groups →
      fineB c (SelectNode ctes modifiers items from where_clause having qualify groups)
  | fine_set_operation ctes modifiers l : Forall (fineQ c) l → fineB c (SetOperation ctes modifiers l)
  | fine_cte_node ctes modifiers query child :
      on_some (fineQ c) query → on_some (fineQ c) child → fineB c (CteNode ctes modifiers query child)
  | fine_recursive ctes modifiers name lhs rhs :
      on_some (fineQ (shadowed [name] c)) lhs → on_some (fineQ (shadowed [name] c)) rhs →
      fineB c (RecursiveCte ctes modifiers name lhs rhs)
  | fine_insert ctes modifiers target name columns source conflict dv by_name returning p v r p' update :
      writes_to "insert" target name p v r → inserts (fineQ c) p columns source →
      on_some (conflict_under (fineE c) p update) conflict → (p' = p ∨ ∃ why, p' = refusing why p) →
      Forall (written (fineE c) p' p') returning →
      fineB c (InsertNode ctes modifiers target name columns source conflict dv by_name returning)
  | fine_update ctes modifiers target from set_info returning p v r :
      targets "update" target p v r → on_some (fineT c) from →
      on_some (λ set, sets (fineE c) p r set ∧ confined (fineE c) p r (set_condition set)) set_info →
      Forall (written (fineE c) p r) returning →
      fineB c (UpdateNode ctes modifiers target from set_info returning)
  | fine_delete ctes modifiers target using_ condition returning p v r :
      targets "delete" target p v r → Forall (fineT c) using_ → confined (fineE c) p r condition →
      Forall (written (fineE c) p r) returning →
      fineB c (DeleteNode ctes modifiers target using_ condition returning)
  | fine_merge ctes modifiers target source join_condition actions returning p v r :
      targets "merge" target p v r → on_some (fineT c) source → confined (fineE c) p r join_condition →
      Forall (λ set, Forall (branch (fineE c) p r set.1) set.2) actions → Forall (written (fineE c) p r) returning →
      fineB c (MergeNode ctes modifiers target source join_condition actions returning).
End grants.
