(* ===== verification/RewriterLaws.v ===== *)
(** * The rewriter keeps its promise

    Every result of [RewriteExpr], [RewriteTableRef] and [RewriteQueryNode] is in the grammar of [RewriterSpec], and a
    tree's depth is fuel enough: one induction over the fuel, a lemma per handler.  The claims are in [RewriterClaims]. *)
From S2P Require Import Prelude NamePath FieldPaths FunctionCategories PolicyTypes Platform Token Tree RewriteData RewriteDml.
From S2P Require Import RewriteRefs Rewriter RewriterRuns RewriterSpec.

(** ** Rules in the shape a proof applies them *)

Lemma ok_run {A} c (m : M A) : calm m → run_ok c m (yields m).
Proof. intros Hm. eapply ok_mono; [apply ok_yields, Hm|]. by intros a []. Qed.
Lemma ok_refused c b reason what : run_ok c (when b (Deny reason what)) (λ _, b = false).
Proof. by apply ok_refuse. Qed.
Lemma ok_required c b reason what : run_ok c (require b reason what) (λ _, b = true).
Proof. by apply ok_require. Qed.
Lemma ok_answered {A} c (x : answer A) : run_ok c (ask x) (λ a, x = Answered a).
Proof. by apply ok_ask. Qed.
Lemma ok_lifted {A} c (x : outcome A) : run_ok c (lift x) (λ a, x = Ok a).
Proof. by apply ok_lift. Qed.
Lemma ok_parsed {A} c (x : outcome A) : run_ok c (parse x) (λ a, x = Ok a).
Proof. by apply ok_parse. Qed.
Lemma ok_got {A} c (f : State → A) : run_ok c (gets f) (λ _, True).
Proof. by apply ok_gets. Qed.
Lemma ok_set c f : (∀ s, place_of (f s) = place_of s) → run_ok c (modify f) (λ _, True).
Proof. intros Hf. by apply ok_modify. Qed.
Lemma ok_each_some {A B} (f : A → M B) c (Q : B → Prop) x :
  (∀ y, x = Some y → run_ok c (f y) Q) → run_ok c (for_opt f x) (on_some Q).
Proof. intros Hf. eapply ok_mono; [by apply ok_for_opt|]. done. Qed.

Create HintDb runs.
#[export] Hint Resolve ok_refused ok_required ok_answered ok_lifted ok_parsed : runs.
#[export] Hint Extern 50 (run_ok _ _ _) => (apply ok_run; solve [calm]) : runs.
(** One bind, what holds of its result introduced *)
Ltac run :=
  eapply ok_bind; [solve [eauto 3 with runs nocore] | cbv beta].
Ltac runs := repeat (run; intros ? ?).

(** A child of the result comes of a child of the node *)
Definition covers {A} (Q : A → A → Prop) (l l' : list A) : Prop := ∀ y, y ∈ l' → ∃ x, x ∈ l ∧ Q x y.
Section covers.
Context {A : Type} (Q : A → A → Prop).
Lemma covers_app l1 l1' l2 l2' : covers Q l1 l1' → covers Q l2 l2' → covers Q (l1 ++ l2) (l1' ++ l2').
Proof. intros H1 H2 y [Hy|Hy]%elem_of_app; [destruct (H1 _ Hy) as (x & ? & ?)|destruct (H2 _ Hy) as (x & ? & ?)]; set_solver. Qed.
Lemma covers_all l l' : Forall2 Q l l' → covers Q l l'.
Proof.
  intros Hl y [i Hi]%list_elem_of_lookup. destruct (Forall2_lookup_r _ _ _ _ _ Hl Hi) as (x & Hx & ?).
  exists x. split; [by eapply list_elem_of_lookup_2|done].
Qed.
Lemma covers_option o o' : option_Forall2 Q o o' → covers Q (option_list o) (option_list o').
Proof. intros [x y Hx|]; [|by intros ? ?%elem_of_nil]. apply covers_all. by repeat constructor. Qed.
Lemma covers_pairs {K} (l l' : list (K * A)) : Forall2 (λ x y, y.1 = x.1 ∧ Q x.2 y.2) l l' → covers Q (map snd l) (map snd l').
Proof. intros Hl. apply covers_all, Forall2_fmap. eapply Forall2_impl; [exact Hl|]. by intros x y []. Qed.
End covers.
Lemma children_like_in (Q : Expr → Expr → Prop) e e' : children_like Q e e' → covers Q (children e) (children e').
Proof.
  rewrite /children.
  destruct 1; cbn [over_children]; rewrite ?map_id ?option_fmap_id; unfold id; repeat apply covers_app;
    first [by apply covers_all | by apply covers_option | by apply covers_pairs | apply covers_all; by repeat constructor].
Qed.

Lemma children_like_mono (Q R : Expr → Expr → Prop) e e' : (∀ x y, Q x y → R x y) → children_like Q e e' → children_like R e e'.
Proof.
  intros HQR. assert (∀ (x y : string * Expr), y.1 = x.1 ∧ Q x.2 y.2 → y.1 = x.1 ∧ R x.2 y.2) by naive_solver.
  destruct 1; constructor; eauto using Forall2_impl.
  all: match goal with Hx : option_Forall2 _ _ _ |- _ => destruct Hx; constructor; auto end.
Qed.

Section gates.
Context `{SU : StringUtil} `{JR : JsonReader} `{PL : ParsingLaws} `{PS : PolicySource} `{B : Batch}.

Lemma ok_read_gate c what : run_ok c (read_gate what) (λ _, reads c).
Proof.
  rewrite /read_gate. eapply ok_bind; [apply (ok_gets _ _ (λ d, d = described c)); by intros s <-|]. intros d ->.
  apply ok_refuse. rewrite /reads. destruct metadata_only; [|by auto]. destruct (Nat.eqb_spec (described c) 0); by auto.
Qed.
Lemma ok_TempAllowed c : run_ok c TempAllowed (λ b, b = true → temp_held).
Proof. rewrite /TempAllowed. case_match eqn:E; [by apply ok_ret|]. apply ok_ask. intros a Ha ->. by split. Qed.
Lemma ok_ParsePhysName c phys : run_ok c (ParsePhysName phys) (λ n, KeyToQualified id phys = Ok n).
Proof. apply ok_lifted. Qed.

(** *** Types *)

Lemma system_part_of part name : negb (is_empty part) && negb (CIEquals part name) = false → system_part part name.
Proof. rewrite /system_part. destruct (is_empty part), (CIEquals part name); simpl; intros; try done; auto. Qed.
Definition same_depth (x y : Expr) : Prop := depth y = depth x.
Lemma deepest_same {A} (f : A → nat) l l' : Forall2 (λ x y, f y = f x) l l' → deepest (map f l') = deepest (map f l).
Proof. induction 1; simpl; congruence. Qed.
Lemma children_like_depth e e' : children_like same_depth e e' → depth e' = depth e.
Proof.
  assert (Ho : ∀ o o', option_Forall2 same_depth o o' → opt_depth depth o' = opt_depth depth o) by by destruct 1.
  assert (Hp : ∀ (l l' : list (string * Expr)), Forall2 (λ x y, y.1 = x.1 ∧ same_depth x.2 y.2) l l' →
      deepest (map (λ r, depth r.2) l') = deepest (map (λ r, depth r.2) l)).
  { intros l l' Hl. apply deepest_same. eapply Forall2_impl; [exact Hl|]. by intros ? ? []. }
  assert (Hl : ∀ l l', Forall2 same_depth l l' → deepest (map depth l') = deepest (map depth l)) by apply deepest_same.
  destruct 1; simpl; try done.
  - by rewrite (Ho i i') // (Hp p p').
  - by rewrite (Hp l l') // (Ho f f') // (Hl o o').
  - by rewrite (Hl l l').
  - congruence.
  - by rewrite (Hl l l').
  - by rewrite (Ho x x').
  - congruence.
  - by rewrite (Hl l l').
Qed.

Lemma ok_type_parameters c parameters :
  (∀ x, x ∈ parameters → run_ok c (GateTypeExpression x) (λ y, system_type y ∧ same_depth x y)) →
  run_ok c (mapM GateTypeExpression parameters) (λ ps, (∀ x, x ∈ ps → system_type x) ∧ Forall2 same_depth parameters ps).
Proof.
  intros IH. eapply ok_mono; [apply (ok_mapM2 _ _ (λ x y, system_type y ∧ same_depth x y)), IH|]. intros ps Hps. split.
  - intros y Hy. destruct (covers_all _ _ _ Hps _ Hy) as (x & _ & ? & _). done.
  - eapply Forall2_impl; [exact Hps|]. by intros x y [].
Qed.
Lemma ok_GateTypeExpression c e : run_ok c (GateTypeExpression e) (λ e', system_type e' ∧ same_depth e e' ∧ is_type e' = is_type e).
Proof.
  induction e as [e IH] using children_ind.
  assert (Hother : is_type e = false →
    run_ok c (each_child GateTypeExpression e) (λ e', system_type e' ∧ same_depth e e' ∧ is_type e' = is_type e)).
  { intros He. eapply ok_mono; [apply (ok_each_child _ _ (λ x y, system_type y ∧ same_depth x y ∧ is_type y = is_type x)), IH|].
    intros e' Hlike. assert (is_type e' = is_type e) as Ht by by destruct Hlike.
    split_and!; [|apply children_like_depth|done].
    - apply system_other; [by rewrite Ht|]. intros x Hx.
      destruct (children_like_in _ _ _ Hlike _ Hx) as (? & _ & ? & _). done.
    - eapply children_like_mono; [|exact Hlike]. by intros x y (_ & ? & _). }
  destruct e; cbn [GateTypeExpression]; try by apply Hother.
  assert (Hparameters : run_ok c (mapM GateTypeExpression parameters)
    (λ ps, (∀ x, x ∈ ps → system_type x) ∧ Forall2 same_depth parameters ps)).
  { apply ok_type_parameters. intros x Hx. eapply ok_mono; [apply IH|naive_solver]. by rewrite /children /= map_id. }
  run. intros [] [Hc%system_part_of Hs%system_part_of]%orb_false_iff. destruct (ci_mem name CONSTRUCTORS) eqn:Hname.
  - eapply ok_bind; [exact Hparameters|]. intros ps [Hps Hd]. apply ok_ret.
    split_and!; [apply system_named; [by right|done]| |done]. by rewrite /same_depth /= (deepest_same depth _ _ Hd).
  - run. intros b Hb. run. intros [] ->%negb_false_iff.
    eapply ok_bind; [exact Hparameters|]. intros ps [Hps Hd]. apply ok_ret.
    split_and!; [apply system_named; [by left|done]| |done]. by rewrite /same_depth /= (deepest_same depth _ _ Hd).
Qed.

(** *** Calls *)

Lemma ok_ResolveVirtualFunction c name table_kind :
  run_ok c (ResolveVirtualFunction name table_kind) (on_some (λ found,
    ∃ n, (if table_kind then ResolveTableFunction (who principal) n else ResolveScalarFunction (who principal) n)
         = Answered (Some found.1))).
Proof.
  assert (Hresolve : ∀ candidate, run_ok c
    (policy ← ask (if table_kind then ResolveTableFunction (who principal) candidate
                   else ResolveScalarFunction (who principal) candidate);
     mret ((λ p, (p, candidate)) <$> policy)) (on_some (λ found,
    ∃ n, (if table_kind then ResolveTableFunction (who principal) n else ResolveScalarFunction (who principal) n)
         = Answered (Some found.1)))).
  { intros candidate. run. intros policy Hp. apply ok_ret. intros found Hf. destruct policy as [p|]; [|done].
    simplify_eq/=. eexists. by destruct table_kind. }
  rewrite /ResolveVirtualFunction. run. intros use _. eapply ok_bind.
  { instantiate (1 := on_some (λ found,
      ∃ n, (if table_kind then ResolveTableFunction (who principal) n else ResolveScalarFunction (who principal) n)
           = Answered (Some found.1))).
    destruct use; [|by apply ok_ret]. run. intros k _. destruct (String.eqb _ _); [by apply ok_ret|]. apply Hresolve. }
  intros [found|] Hfound; [by apply ok_ret|]. apply Hresolve.
Qed.

Lemma ok_GateFunction c written kind shown probe :
  run_ok c (GateFunction written kind shown probe) (λ o, on_some (admitted c kind) o ∧ (probe = false → o ≠ None)).
Proof.
  rewrite /GateFunction. run. intros d Hd. case_match eqn:Hprobe.
  { apply ok_ret. split; [done|]. intros ->. by rewrite andb_false_r in Hprobe. }
  run. intros [] Hv%negb_false_iff%bool_decide_eq_true.
  eapply ok_bind; [apply (ok_when _ _ _ (λ _, CIEquals (database (key d)) "system" = false → reads c))|].
  - intros _. eapply ok_mono; [apply ok_read_gate|]. by auto.
  - intros E E'. by rewrite E' in E.
  - intros [] Hreads. apply ok_ret. split; [|done]. intros n [= <-]. by exists written, d.
Qed.
Lemma ok_AdmitFunction c written kind shown : run_ok c (AdmitFunction written kind shown) (admitted c kind).
Proof.
  rewrite /AdmitFunction. eapply ok_bind; [apply ok_GateFunction|]. intros [n|] [Hn Hnone]; apply ok_ret.
  - by apply Hn.
  - by destruct (Hnone eq_refl).
Qed.
Lemma ok_GateTypeTextArguments c name arguments :
  run_ok c (GateTypeTextArguments name arguments) (λ l, Forall2 (λ x y, depth y.2 = depth x.2) arguments l).
Proof.
  assert (Hsame : ∀ l : list (string * Expr), Forall2 (λ x y, depth y.2 = depth x.2) l l).
  { induction l; by constructor. }
  rewrite /GateTypeTextArguments. destruct arguments as [|value [|[label structure] rest]]; [by apply ok_ret..|].
  case_match; [by apply ok_ret|]. destruct (text_constant structure) eqn:Ht; [|apply ok_deny].
  case_match; [|apply ok_deny]. run. intros gated _. apply ok_ret. constructor; [done|]. constructor; [|done].
  by destruct structure.
Qed.
End gates.

(** ** The target of a write *)
Section targets.
Context `{SU : StringUtil} `{JR : JsonReader} `{PL : ParsingLaws} `{PS : PolicySource} `{B : Batch}.

(** The policy, or the policy refusing its RETURNING *)
Definition of_policy (p p' : TablePolicy) : Prop := p' = p ∨ ∃ why, p' = refusing why p.
Lemma of_policy_refusing p p' why : of_policy p p' → of_policy p (refusing why p').
Proof. intros [-> |[w ->]]; right; by exists why. Qed.
Lemma refusing_own p : refusing (returning_refused p) p = p.
Proof. by destruct p. Qed.

Lemma from_read_side c key capability p :
  run_from c (λ _, True) (read_side key capability p) (λ p' s, reads_under key p (dml_read_policy s) ∧ of_policy p p').
Proof.
  rewrite /read_side. eapply from_bind.
  { apply (from_modify _ _ _ (λ _ s, dml_read_policy s = p)); done. }
  intros []. case_match.
  { apply from_ret. intros s ->. split; [constructor|by right; eexists]. }
  eapply from_bind; [apply (from_catch _ _ _ _ _ (λ p' s, reads_under key p (dml_read_policy s) ∧ of_policy p p'))|].
  - eapply from_bind; [apply (from_steady dml_read_policy _ (λ q, q = p)); [|apply ok_answered]|].
    { by destruct (ResolveTable _ _ _) as [a|[r|] b message]. }
    intros read. apply from_pure. intros Hread. destruct read as [read|].
    + eapply (from_bind _ _ _ _ (λ _ s, reads_under key p (dml_read_policy s))); [|intros []; apply from_ret; by split; [|left]].
      rewrite /when. case_match; [apply from_modify; [done|]; intros s _; by apply under_select|].
      apply from_ret. intros s ->. constructor.
    + eapply from_bind; [apply (from_ret _ _ _ (λ _ s, dml_read_policy s = p)); done|].
      intros []. apply from_ret. intros s ->. split; [constructor|by left].
  - intros binder message. eapply from_bind; [apply (from_steady dml_read_policy _ (λ q, q = p)); [by intros ?|apply ok_run; calm]|].
    intros taken. apply from_ret. intros s [-> _]. split; [constructor|by right; eexists].
  - intros s Hs. destruct (ResolveTable _ _ _) as [[a|]|[r|] b message]; try done.
    rewrite /mbind /M_bind /=. by destruct (capability_rows_read p).
  - intros p'. apply from_ret. intros s [Hs Hp']. split; [done|]. case_match; [by apply of_policy_refusing|done].
Qed.
Lemma ok_TryTempDmlTarget c verb target target_name key :
  run_ok c (TryTempDmlTarget target target_name key) (on_some (λ found, ∀ v r, writes_to verb found.1 found.2 no_policy v r)).
Proof.
  rewrite /TryTempDmlTarget. eapply ok_bind; [apply ok_TempAllowed|]. intros allowed Ha.
  case_match eqn:E1; [by apply ok_ret|]. apply negb_false_iff in E1 as ->. case_match eqn:E2.
  - eapply ok_bind; [by apply ok_set|]. intros [] _. apply ok_ret. intros ? [= <-] v r. apply writes_temp; [by apply Ha|].
    by constructor.
  - case_match eqn:E3; [by apply ok_ret|]. eapply ok_bind; [by apply ok_set|]. intros [] _. apply ok_ret.
    intros ? [= <-] v r. apply writes_temp_bare; [by apply Ha|]. apply orb_false_iff in E3 as [_ E3]. by apply negb_false_iff.
Qed.
Lemma ok_VerbReadScope c key verb p p' : of_policy p p' → run_ok c (VerbReadScope key verb p') (λ scope, reads_under key p scope.1).
Proof.
  intros Hp. rewrite /VerbReadScope. run. intros [columns|] _; apply ok_ret.
  - destruct Hp as [-> |[why ->]]; [|apply under_columns]. rewrite -{2}(refusing_own p). apply under_columns.
  - destruct Hp as [-> |[why ->]]; [apply under_own|apply under_verb].
Qed.
Lemma steady_NotePhysical {X} (f : State → X) phys vname :
  (∀ entries trail s, f (set_trail entries trail s) = f s) → steady f (NotePhysical phys vname).
Proof.
  intros Hf. rewrite /NotePhysical. case_match; [by intros ?|]. rewrite /note_on.
  apply steady_bind; [by intros ?|]. intros [e|]; [|by intros ?]. apply steady_bind; [by intros ?|]. intros before s. apply Hf.
Qed.
Lemma from_ResolveDmlName c verb target target_name :
  run_from c (λ _, True) (ResolveDmlName target target_name verb)
    (λ found s, writes_to verb found.1.1 found.1.2 found.2 (dml_target_name s) (dml_read_policy s)).
Proof.
  rewrite /ResolveDmlName. eapply from_run; [apply ok_run; calm|]. intros key _.
  eapply from_run; [apply ok_answered|]. intros [p|] Hp.
  - eapply from_run; [apply ok_run; calm|]. intros _ _. eapply from_run; [apply ok_required|]. intros [] Hw.
    eapply from_run; [apply ok_required|]. intros [] Hcap.
    eapply from_bind; [apply (from_read_side _ key)|]. intros p'.
    apply from_pure. intros Hp'. eapply (from_bind _ _ _ _ (λ _ s, reads_under key p (dml_read_policy s))).
    { destruct (capability_rows_read p'); [by apply from_ret|].
      apply (from_mono _ (λ _, True) _ _ (λ _ s, reads_under key p (dml_read_policy s))); [|done..]. eapply from_run; [by apply ok_VerbReadScope|].
      intros scope Hscope. by apply from_modify. }
    intros [].
    eapply (from_step dml_read_policy); [|apply ok_ParsePhysName|]. { intros s. rewrite /ParsePhysName /lift. by case_match. }
    intros name Hname. eapply (from_step dml_read_policy); [by apply steady_NotePhysical|apply ok_run; calm|]. intros [] _.
    eapply (from_bind _ _ _ _ (λ _ s, reads_under key p (dml_read_policy s) ∧ dml_target_name s = key)).
    { by apply from_modify. }
    intros []. apply from_ret. intros s [Hr ->]. eapply (writes_granted _ _ p); [by split|done| |done..].
    by destruct Hp' as [-> |[why ->]].
  - eapply from_run; [apply (ok_TryTempDmlTarget _ verb)|]. intros [[t name]|] Hfound.
    { apply from_ret. intros s _. by apply (Hfound (t, name)). }
    eapply from_run; [apply ok_run; calm|]. intros called _. eapply from_run; [apply ok_run; calm|]. intros [|] _; by intros ?.
Qed.
Lemma from_ResolveDmlTarget c verb target :
  run_from c (λ _, True) (ResolveDmlTarget target verb) (λ found s, targets verb found.1 found.2 (dml_target_name s) (dml_read_policy s)).
Proof.
  assert (Hother : is_base target = false → run_from c (λ _, True) (mret (target, no_policy))
    (λ found s, targets verb found.1 found.2 (dml_target_name s) (dml_read_policy s))).
  { intros Ht. apply from_ret. intros s _. by apply targets_other. }
  rewrite /ResolveDmlTarget. destruct target as [[]|]; try by apply Hother.
  eapply from_bind; [apply from_ResolveDmlName|]. intros [[t m] p]. apply from_ret. intros s Hs. by eapply targets_table.
Qed.
End targets.

(** *** What a policy does to a SET list *)
Section sets.
Context `{SU : StringUtil} `{JR : JsonReader} `{PL : ParsingLaws} `{PS : PolicySource} `{B : Batch}.
Variable F : Expr → Prop.
Variable p r : TablePolicy.
Notation W := (written F p r).

Lemma ok_over_set c f set :
  Forall W (set_expressions set) → (∀ column e, W e → run_ok c (f column e) W) →
  run_ok c (over_set f set) (λ set', set_columns set' = set_columns set ∧ Forall W (set_expressions set')
                                     ∧ set_condition set' = set_condition set).
Proof.
  intros Hset Hf. rewrite /over_set. eapply (ok_bind _ _ _ (Forall W)); [|intros l Hl; by apply ok_ret].
  revert Hset. generalize (set_expressions set). induction (set_columns set) as [|column columns IH]; intros [|e l] Hl;
    try by apply ok_ret. apply Forall_cons in Hl as [He Hl]. cbn [map_paired].
  eapply ok_bind; [by apply Hf|]. intros e' He'. eapply ok_bind; [by apply IH|]. intros l' Hl'. apply ok_ret. by constructor.
Qed.
Lemma ok_ApplySetInjections c vname set :
  Forall W (set_expressions set) → run_ok c (ApplySetInjections p vname set)
    (λ set', set_columns set' = set_columns set ∧ Forall W (set_expressions set') ∧ set_condition set' = set_condition set).
Proof.
  intros Hset. apply ok_over_set; [done|]. intros column e He. case_match eqn:Hi; [|by apply ok_ret].
  eapply ok_mono; [apply ok_run; calm|]. intros e' He'. eapply written_injected; [|exact He'].
  by apply List.find_some in Hi as [Hi%list_elem_of_In _].
Qed.
Lemma ok_ApplyFieldWrites c vname target set :
  Forall W (set_expressions set) → run_ok c (ApplyFieldWrites p vname target set)
    (λ set', set_columns set' = set_columns set ∧ Forall W (set_expressions set') ∧ set_condition set' = set_condition set).
Proof.
  intros Hset. apply ok_over_set; [done|]. intros column e He. run. intros [tree|] Htree; [|by apply ok_ret].
  eapply ok_mono; [apply ok_run; calm|]. intros e' He'. by eapply written_fields.
Qed.
Lemma Forall_combine (columns : list string) l : Forall W l → Forall (λ c, W c.2) (combine columns l).
Proof. intros Hl. revert columns. induction Hl; intros [|column columns]; constructor; eauto. Qed.
Lemma ok_ApplyUpdateCheck c vname target set :
  Forall W (set_expressions set) → run_ok c (ApplyUpdateCheck p vname target set)
    (λ set', set_columns set' = set_columns set ∧ Forall W (set_expressions set') ∧ set_condition set' = set_condition set).
Proof.
  intros Hset. rewrite /ApplyUpdateCheck. run. intros [predicate|] Hp; [|by apply ok_ret].
  case_match; [by apply ok_ret|]. apply ok_ret. split_and!; [done| |done].
  assert (Hrow := Forall_combine (set_columns set) _ Hset). cbn [set_expressions] in *.
  destruct (set_expressions set) as [|e l] eqn:E; [done|]. apply Forall_cons in Hset as [He Hl]. constructor; [|done].
  case_match; [by eapply written_checked; [| |]; try done; left|by eapply written_checked_target; try done; left].
Qed.
Lemma ok_predicate c : run_ok c (WritePredicate p) (predicate_of p).
Proof. eapply ok_mono; [apply ok_run; calm|]. intros e He. by left. Qed.
Lemma ok_AndPolicyPredicate c condition :
  on_some W condition → run_ok c (AndPolicyPredicate condition p) (confined F p r).
Proof.
  intros Hc. eapply ok_bind; [apply ok_predicate|]. intros predicate Hp. apply ok_ret. by exists condition, predicate.
Qed.
Lemma ok_TargetPredicate c alias vname condition : on_some W condition →
  run_ok c (predicate ← TargetPredicate p alias vname; mret (AndInto condition predicate)) (confined F p r).
Proof.
  intros Hc. run. intros predicate Hp. apply ok_ret. exists condition, predicate. split_and!; [done| |done]. right. eauto.
Qed.

(** The row's columns and values aside, an INSERT branch is what it was *)
Definition same_branch (a b : MergeIntoAction Expr) : Prop :=
  merge_type b = merge_type a ∧ merge_condition b = merge_condition a ∧ update_info b = update_info a.
Lemma ok_ApplyMergeInsertPolicy c vname a : run_ok c (ApplyMergeInsertPolicy p vname a) (same_branch a).
Proof.
  rewrite /ApplyMergeInsertPolicy. case_match; [by apply ok_ret|]. run. intros _ _. run. intros columns _.
  eapply ok_bind; [apply ok_run, calm_map_paired; calm|]. intros l _. case_match; [by apply ok_ret|].
  cbv zeta. run. intros assigned _. by apply ok_ret.
Qed.
Lemma ok_ApplyMergeInsertCheck c vname a : run_ok c (ApplyMergeInsertCheck p vname a) (same_branch a).
Proof.
  rewrite /ApplyMergeInsertCheck. run. intros [predicate|] _; [|by apply ok_ret]. run. intros _ _. run. intros _ _.
  by apply ok_ret.
Qed.
End sets.

Section walk.
Context `{SU : StringUtil} `{JR : JsonReader} `{PL : ParsingLaws} `{PS : PolicySource} `{B : Batch}.
(** The walk of the nodes below *)
Variable RE : Expr → M Expr.
Variable RQ : Query → M Query.
Variable RT : TableRef → M TableRef.
Variable n : nat.
Hypothesis HRE : ∀ c e, depth e ≤ n → run_ok c (RE e) (fineE c).
Hypothesis HRQ : ∀ c q, query_depth q ≤ n → run_ok c (RQ q) (fineQ c).
Hypothesis HRT : ∀ c r, tref_depth r ≤ n → run_ok c (RT r) (fineT c).

Lemma ok_RE_opt c o : opt_depth depth o ≤ n → run_ok c (for_opt RE o) (on_some (fineE c)).
Proof. intros Ho. apply ok_each_some. intros y ->. by apply HRE. Qed.
Lemma ok_RQ_opt c o : opt_depth query_depth o ≤ n → run_ok c (for_opt RQ o) (on_some (fineQ c)).
Proof. intros Ho. apply ok_each_some. intros y ->. by apply HRQ. Qed.
Lemma ok_RT_opt c o : opt_depth tref_depth o ≤ n → run_ok c (for_opt RT o) (on_some (fineT c)).
Proof. intros Ho. apply ok_each_some. intros y ->. by apply HRT. Qed.
Lemma ok_RE_list c l : deepest (map depth l) ≤ n → run_ok c (mapM RE l) (Forall (fineE c)).
Proof. intros Hl. apply ok_mapM. intros x Hx. apply HRE. by eapply deepest_in. Qed.
Lemma ok_RQ_list c l : deepest (map query_depth l) ≤ n → run_ok c (mapM RQ l) (Forall (fineQ c)).
Proof. intros Hl. apply ok_mapM. intros x Hx. apply HRQ. by eapply deepest_in. Qed.
Lemma ok_RT_list c l : deepest (map tref_depth l) ≤ n → run_ok c (mapM RT l) (Forall (fineT c)).
Proof. intros Hl. apply ok_mapM. intros x Hx. apply HRT. by eapply deepest_in. Qed.
Lemma ok_arguments c l :
  deepest (map (λ a, depth a.2) l) ≤ n → run_ok c (RewriteFunctionArgs RE l) (Forall (λ a, fineE c a.2)).
Proof.
  intros Hl. eapply ok_mono; [apply (ok_mapM _ _ (λ a, fineE c a.2))|done]. intros x Hx.
  eapply ok_mono; [apply ok_for_snd, HRE|naive_solver]. by eapply (deepest_in (λ a : string * Expr, depth a.2)).
Qed.
Lemma ok_child c e :
  (∀ x, x ∈ children e → depth x ≤ n) → run_ok c (each_child RE e) (children_like (λ _, fineE c) e).
Proof. intros He. apply ok_each_child. intros x Hx. by apply HRE, He. Qed.
Lemma fine_children c e e' : children_like (λ _, fineE c) e e' → ∀ x, x ∈ children e' → fineE c x.
Proof. intros Hlike x Hx. by destruct (children_like_in _ _ _ Hlike _ Hx) as (_ & _ & ?). Qed.
Lemma fine_all c l l' : Forall2 (λ _ : Expr, fineE c) l l' → Forall (fineE c) l'.
Proof. induction 1; by constructor. Qed.
Lemma fine_pairs c (l l' : list (string * Expr)) :
  Forall2 (λ e e', e'.1 = e.1 ∧ fineE c e'.2) l l' → Forall (λ a, fineE c a.2) l'.
Proof. induction 1; constructor; naive_solver. Qed.
Lemma fine_some c (o o' : option Expr) : option_Forall2 (λ _, fineE c) o o' → on_some (fineE c) o'.
Proof. intros [x y Hy|] z Hz; naive_solver. Qed.

(** *** Expressions *)

Lemma ok_admitted_call c written arguments :
  run_ok c (admitted_call written arguments) (λ call,
    admitted c SCALAR call.1 ∧ (call.2 = arguments ∨ call.2 = (EmptyString, ColumnRef EmptyString (qualifiers written)) :: arguments)).
Proof.
  rewrite /admitted_call. eapply ok_bind; [apply ok_GateFunction|]. intros [key|] [Hkey _].
  - apply ok_ret. split; [by apply Hkey|by left].
  - eapply ok_bind; [apply ok_AdmitFunction|]. intros key' Hkey'. apply ok_ret. split; [done|by right].
Qed.
Lemma ok_rewrite_function c e alias written arguments distinct filter order_by :
  depth (Function alias written arguments distinct filter order_by) ≤ S n →
  run_ok c (rewrite_function RE e alias written arguments distinct filter order_by) (fineE c).
Proof.
  cbn [depth]. intros Hd. rewrite /rewrite_function. do 2 (run; intros _ _).
  eapply ok_bind; [apply ok_ResolveVirtualFunction|]. intros [[p resolved]|] Hfound.
  - eapply ok_bind; [apply ok_read_gate|]. intros [] Hreads. run. intros _ _. run. intros [] Hcap.
    assert (Hcall : callable false p) by (split; [by destruct (Hfound _ eq_refl) as [name Hname]; exists name|done]).
    eapply ok_bind; [apply ok_arguments; lia|]. intros args Hargs. destruct (subquery_form p) eqn:Hform.
    + run. intros template Ht. apply ok_ret. eapply fine_template; [done..| |exact Ht]. by apply Forall_fmap.
    + eapply ok_bind; [apply ok_ParsePhysName|]. intros name Hname. apply ok_ret. by eapply fine_virtual_call.
  - case_match.
    { eapply ok_mono; [apply ok_run; calm|]. intros e' He'. by eapply fine_identity. }
    eapply ok_bind; [apply ok_admitted_call|]. intros [key args] [Hkey Hargs]. cbn [fst snd] in *.
    eapply ok_bind; [apply ok_GateTypeTextArguments|]. intros args' Hsame.
    eapply ok_mono; [apply ok_child|].
    + intros x. rewrite /children /over_children !elem_of_app in_option fmap_Some !in_map.
      assert (Hdeep : ∀ a, a ∈ args' → depth a.2 ≤ n).
      { intros a Ha. destruct (covers_all _ _ _ Hsame _ Ha) as (a0 & Ha0 & ->).
        destruct Hargs as [-> | ->]; [|apply elem_of_cons in Ha0 as [-> |Ha0]; [simpl; lia|]];
          pose proof (map_depth (λ a : string * Expr, depth a.2) _ _ Ha0); simpl in *; lia. }
      intros [(a & -> & Ha)|[(f & -> & ->)|(a & -> & Ha)]]; [by apply Hdeep|simpl in *; lia|].
      pose proof (map_depth depth _ _ Ha). simpl in *. lia.
    + intros e' Hlike. inversion Hlike; subst. apply fine_call; [done|by eapply fine_pairs|by eapply fine_some|by eapply fine_all].
Qed.

Lemma ok_passed c e : plain e = true → (∀ x, x ∈ children e → depth x ≤ n) → run_ok c (each_child RE e) (fineE c).
Proof.
  intros Hp Hd. eapply ok_mono; [by apply ok_child|]. intros e' Hlike. apply fine_plain; [|by eapply fine_children].
  by destruct Hlike.
Qed.
Lemma ok_rewrite_expr c e : depth e ≤ S n → run_ok c (rewrite_expr RE RQ e) (fineE c).
Proof.
  intros Hd. assert (Hdeep : ∀ x, x ∈ children e → depth x ≤ n) by (intros x Hx%children_depth; lia).
  destruct e; cbn [rewrite_expr].
  - destruct (IsSessionIdentityKeyword names) eqn:Hk.
    + eapply ok_mono; [apply ok_run; calm|]. intros e' He'. by eapply fine_identity.
    + apply ok_ret, fine_plain; [by rewrite /= Hk|]. by intros x ?%elem_of_nil.
  - apply ok_passed; done.
  - apply ok_passed; done.
  - by apply ok_rewrite_function.
  - eapply ok_bind; [apply ok_AdmitFunction|]. intros key Hkey. eapply ok_mono; [apply ok_child|].
    + intros x. apply Hdeep.
    + intros e' Hlike. inversion Hlike; subst. apply fine_window; [done|by eapply fine_all].
  - eapply ok_bind; [apply ok_GateTypeExpression|]. intros target' (Ht & _ & _). eapply ok_mono; [apply ok_child|].
    + intros x. apply Hdeep.
    + intros e' Hlike. inversion Hlike; subst. by apply fine_cast.
  - eapply ok_bind; [apply ok_GateTypeExpression|]. intros e (Ht & Hsame & His). eapply ok_mono; [apply ok_child|].
    + intros x Hx%children_depth. unfold same_depth in Hsame. lia.
    + intros e' Hlike. destruct Ht as [a c0 s0 n0 l0 Hnamed _|? Hnot]; [|by rewrite His in Hnot].
      inversion Hlike; subst. apply fine_type; [done|by eapply fine_all].
  - eapply ok_bind; [apply ok_RQ_opt; simpl in Hd; lia|]. intros body' Hbody. eapply ok_mono; [apply ok_child|].
    + intros x. apply Hdeep.
    + intros e' Hlike. inversion Hlike; subst. apply fine_subquery; [by eapply fine_some|done].
  - apply ok_passed; done.
  - apply ok_passed; done.
Qed.

(** *** Relations *)

Lemma ok_IsCteName c name :
  run_ok c (IsCteName name) (λ b, b = true → unqualified name = true ∧ ci_mem (Tree.Name name) (in_scope c) = true).
Proof.
  rewrite /IsCteName. eapply ok_bind; [apply (ok_gets _ _ (λ l, l = in_scope c)); by intros s <-|]. intros l ->.
  apply ok_ret. by intros [??]%andb_true_iff.
Qed.
Lemma ok_rewrite_base c alias name column_alias at_clause sample :
  opt_depth depth at_clause ≤ n → run_ok c (rewrite_base RE alias name column_alias at_clause sample) (fineT c).
Proof.
  intros Hd. rewrite /rewrite_base. eapply ok_bind; [by apply ok_RE_opt|]. intros at_ Hat.
  eapply ok_bind; [apply ok_IsCteName|]. intros [] Hcte.
  { apply ok_ret. destruct Hcte; [done|]. by apply fine_cte. }
  case_match.
  { eapply ok_mono; [apply ok_run; calm|]. intros r Hr. by eapply fine_listing, lists_view. }
  run. intros k _. case_match.
  { run. intros _ _. eapply ok_mono; [apply ok_run; calm|]. intros r Hr. by eapply fine_listing, lists_surface. }
  eapply ok_bind; [apply ok_read_gate|]. intros [] Hreads. run. intros [p|] Hp.
  - run. intros _ _. run. intros [] Hcap. destruct (subquery_form p) eqn:Hform.
    { eapply ok_mono; [apply ok_run; calm|]. intros r Hr. by eapply fine_relation. }
    case_match eqn:Hrenames.
    { eapply ok_mono; [apply ok_run; calm|]. intros r Hr. by eapply fine_renamed. }
    apply orb_false_iff in Hrenames as [Hr Hc]. eapply ok_bind; [apply ok_ParsePhysName|]. intros name' Hname.
    run. intros _ _. apply ok_ret. eapply fine_table; try done.
    + by destruct (renames p).
    + by destruct (casts p).
  - eapply ok_bind; [apply ok_TempAllowed|]. intros b Hb. case_match eqn:E1.
    { apply andb_true_iff in E1 as [-> ?]. apply ok_ret, fine_temp; [done|by apply Hb|by constructor|done]. }
    case_match eqn:E2; [|eapply ok_mono; [apply ok_deny|done]].
    apply andb_true_iff in E2 as [[-> _]%andb_true_iff ?]. apply ok_ret, fine_temp; [done|by apply Hb|by constructor|done].
  Unshelve. all: exact (λ _, True).
Qed.

Lemma ok_physical_table_function c alias column_alias function_alias written arguments distinct filter order_by subquery bind_info :
  deepest (map (λ a, depth a.2) arguments) ≤ n → opt_depth query_depth subquery ≤ n →
  run_ok c (physical_table_function RE RQ alias column_alias function_alias written arguments distinct filter order_by
              subquery bind_info) (fineT c).
Proof.
  intros Ha Hs. rewrite /physical_table_function. eapply ok_bind; [apply ok_read_gate|]. intros [] Hreads.
  case_match eqn:Hdrain.
  { apply andb_true_iff in Hdrain as [[Hstream%negb_true_iff _]%andb_true_iff Hown].
    eapply ok_bind; [apply ok_ParsePhysName|]. intros name Hname. eapply ok_bind; [apply ok_run; rewrite /note_drain; calm|].
    intros _ _. apply ok_ret, fine_drain; try done. by intros E; rewrite E in Hstream. }
  case_match eqn:Harrow.
  { apply andb_true_iff in Harrow as [??]. eapply ok_bind; [apply ok_run; rewrite /TakeArrowIngestFactory; calm|].
    intros b _. by apply ok_ret, fine_arrow. }
  eapply ok_bind; [apply ok_AdmitFunction|]. intros key Hkey. eapply ok_bind; [by apply ok_arguments|]. intros args Hargs.
  eapply ok_bind; [by apply ok_RQ_opt|]. intros sub Hsub. by apply ok_ret, fine_table_function.
Qed.
Lemma ok_listing c (m : M TableRef) : calm m → (∀ r, yields m r → lists r) → run_ok c m (fineT c).
Proof. intros Hm Hl. eapply ok_mono; [by apply ok_run|]. intros r Hr. by apply fine_listing, Hl. Qed.
Lemma ok_RewriteTableFunction c alias column_alias function subquery bind_info :
  tref_depth (TableFunction alias column_alias function subquery bind_info) ≤ S n →
  run_ok c (RewriteTableFunction RE RQ alias column_alias function subquery bind_info) (fineT c).
Proof.
  cbn [tref_depth]. intros Hd. rewrite /RewriteTableFunction.
  destruct function as [[| | |function_alias written arguments distinct filter order_by| | | | | |]|]; try apply ok_deny.
  cbn [opt_depth depth] in Hd. destruct (PlatformObjectName _).
  { apply ok_listing; [calm|]. intros r Hr. by eapply lists_platform. }
  eapply ok_bind; [apply ok_ResolveVirtualFunction|]. intros [[p resolved]|] Hfound.
  - eapply ok_bind; [apply ok_read_gate|]. intros [] Hreads. run. intros _ _. run. intros [] Hcap.
    assert (Hcall : callable true p) by (split; [by destruct (Hfound _ eq_refl) as [name Hname]; exists name|done]).
    eapply ok_bind; [apply ok_arguments; lia|]. intros args Hargs. destruct (subquery_form p) eqn:Hform.
    + run. intros r Hr. eapply ok_mono; [apply ok_run; calm|]. intros r' Hr'.
      eapply fine_virtual_function; [done..| |exact Hr|exact Hr']. by apply Forall_fmap.
    + apply (ok_bind _ _ _ (λ r, ∃ name, KeyToQualified id (phys p) = Ok name ∧ r = TableFunction alias column_alias
               (Some (Function function_alias name args distinct filter order_by)) subquery bind_info)).
      { eapply ok_bind; [apply ok_ParsePhysName|]. intros name Hname. apply ok_ret. by exists name. }
      intros r (name & Hname & ->). eapply ok_mono; [apply ok_run; calm|]. intros r' Hr'. by eapply fine_physical_function.
  - case_match.
    { run. intros _ _. apply ok_listing; [calm|]. intros r Hr. by eapply lists_surface. }
    case_match; [apply ok_listing; [calm|]; intros r Hr; by eapply lists_keys|].
    case_match; [apply ok_listing; [calm|]; intros r Hr; by eapply lists_function_columns|].
    case_match; [apply ok_listing; [calm|]; intros r Hr; by eapply lists_lineage|].
    case_match; [apply ok_listing; [calm|]; intros r Hr; by eapply lists_references|].
    apply ok_physical_table_function; lia.
Qed.

Lemma ok_within_describe {A} c (m : M A) (Q : A → Prop) : run_ok (deeper c) m Q → run_ok c (within_describe m) Q.
Proof.
  intros Hm s <-. specialize (Hm (set_describing (S (describing s)) s) eq_refl). rewrite /within_describe.
  destruct (m _) as [s' [a|e]]; [|done]. destruct Hm as [Hp Ha]. split; [|done].
  injection Hp as Hscope Hdepth Hd Ha' Hq Hk. by rewrite /place_of /= Hscope Hdepth Hd Ha' Hq Hk.
Qed.
Lemma calm_show_listing show name : calm (show_listing show name).
Proof. rewrite /show_listing /show_filter. calm. Qed.
Lemma ok_RewriteShowRef c alias show name body :
  tref_depth (ShowRef alias show name body) ≤ S n → run_ok c (RewriteShowRef RQ alias show name body) (fineT c).
Proof.
  cbn [tref_depth]. intros Hd. rewrite /RewriteShowRef.
  eapply (ok_bind _ _ _ (λ _, metadata_only = true → show ≠ SHOW_SUMMARY)).
  { apply ok_refuse. intros E Hm. rewrite Hm /= in E. by apply bool_decide_eq_false in E. }
  intros [] Hshow. apply ok_within_describe. destruct body as [body|].
  { eapply ok_bind; [apply HRQ; simpl in Hd; lia|]. intros body' Hbody. by apply ok_ret, fine_show. }
  case_match.
  - eapply ok_bind; [apply HRQ; simpl in Hd |- *; lia|]. intros body' Hbody. by apply ok_ret, fine_show.
  - eapply ok_mono; [apply ok_run, calm_show_listing|]. intros r Hr. by eapply fine_listing, lists_show.
Qed.

Lemma ok_rewrite_pivot c p :
  pivot_depth depth query_depth p ≤ n → run_ok c (rewrite_pivot RE RQ p) (λ p, Forall (fineE c) (pivot_expressions p)
    ∧ Forall (on_some (fineE c)) (pivot_entries p) ∧ on_some (fineQ c) (pivot_subquery p)).
Proof.
  rewrite /pivot_depth. intros Hd. rewrite /rewrite_pivot. eapply ok_bind; [apply ok_RE_list; lia|]. intros e He.
  eapply ok_bind; [apply (ok_mapM _ _ (on_some (fineE c)))|].
  { intros o Ho. apply ok_RE_opt. pose proof (map_depth (opt_depth depth) _ _ Ho). lia. }
  intros entries Hentries. eapply ok_bind; [apply ok_RQ_opt; lia|]. intros q Hq. by apply ok_ret.
Qed.
Lemma ok_rewrite_ref c r : tref_depth r ≤ S n → run_ok c (rewrite_ref RE RQ RT r) (fineT c).
Proof.
  intros Hd. destruct r; cbn [rewrite_ref].
  - apply ok_rewrite_base. simpl in Hd. lia.
  - eapply ok_bind; [apply ok_RQ_opt; simpl in Hd; lia|]. intros b Hb. by apply ok_ret, fine_subquery_ref.
  - simpl in Hd. eapply ok_bind; [apply HRT; lia|]. intros l Hl. eapply ok_bind; [apply HRT; lia|]. intros r Hr.
    eapply ok_bind; [apply ok_RE_opt; lia|]. intros x Hx. eapply ok_bind; [apply ok_RE_opt; lia|]. intros y Hy.
    run. intros [] Hdup. destruct duplicate_eliminated; [|done]. by apply ok_ret, fine_join.
  - by apply ok_RewriteTableFunction.
  - by apply ok_RewriteShowRef.
  - simpl in Hd. eapply ok_bind; [apply HRT; lia|]. intros l Hl. eapply ok_bind; [apply ok_RE_list; lia|]. intros a Ha.
    eapply ok_bind; [apply ok_mapM; intros x Hx; apply ok_rewrite_pivot|].
    { pose proof (map_depth (pivot_depth depth query_depth) _ _ Hx). lia. }
    intros ps Hps. by apply ok_ret, fine_pivot.
  - apply ok_ret, fine_no_from.
  - simpl in Hd. eapply ok_bind; [apply (ok_mapM _ _ (Forall (fineE c)))|].
    { intros row Hrow. apply ok_RE_list. pose proof (map_depth (λ row, deepest (map depth row)) _ _ Hrow). simpl in *. lia. }
    intros rows Hrows. by apply ok_ret, fine_values.
  - apply ok_deny.
Qed.

(** *** A write's expressions *)

Lemma ok_map_expr c p r vname target e : depth e ≤ n → run_ok c (map_expr RE p vname target e) (written (fineE c) p r).
Proof.
  intros Hd. eapply ok_bind; [by apply HRE|]. intros e1 He1. eapply ok_mono; [apply ok_run; calm|]. intros e2 He2.
  eapply written_columns; [by apply written_own|exact He2].
Qed.
Lemma ok_map_expr_list c p r vname target l :
  deepest (map depth l) ≤ n → run_ok c (mapM (map_expr RE p vname target) l) (Forall (written (fineE c) p r)).
Proof. intros Hl. apply ok_mapM. intros x Hx. apply ok_map_expr. by eapply deepest_in. Qed.
Lemma ok_map_expr_opt c p r vname target o :
  opt_depth depth o ≤ n → run_ok c (for_opt (map_expr RE p vname target) o) (on_some (written (fineE c) p r)).
Proof. intros Ho. apply ok_each_some. intros y ->. by apply ok_map_expr. Qed.
Lemma ok_read_expr c w target e : depth e ≤ n → run_ok c (read_expr RE w target e) (written (fineE c) (w_policy w) (w_reads w)).
Proof.
  intros Hd. eapply ok_bind; [by apply ok_map_expr|]. intros e1 He1. eapply ok_mono; [apply ok_run; calm|]. intros e2 He2.
  by eapply written_readable.
Qed.
Lemma ok_read_expr_list c w target l :
  deepest (map depth l) ≤ n → run_ok c (mapM (read_expr RE w target) l) (Forall (written (fineE c) (w_policy w) (w_reads w))).
Proof. intros Hl. apply ok_mapM. intros x Hx. apply ok_read_expr. by eapply deepest_in. Qed.
Lemma ok_read_expr_opt c w target o :
  opt_depth depth o ≤ n → run_ok c (for_opt (read_expr RE w target) o) (on_some (written (fineE c) (w_policy w) (w_reads w))).
Proof. intros Ho. apply ok_each_some. intros y ->. by apply ok_read_expr. Qed.

Lemma ok_MapWritableColumn c p vname written : run_ok c (MapWritableColumn p vname written) (may_write p).
Proof.
  rewrite /MapWritableColumn. run. intros column _. run. intros [] Hw. apply ok_ret. rewrite /may_write.
  destruct (write_columns p); [by left|by right].
Qed.
Lemma ok_writable_columns c p vname l : run_ok c (mapM (MapWritableColumn p vname) l) (Forall (may_write p)).
Proof. apply ok_mapM. intros x _. apply ok_MapWritableColumn. Qed.

(** *** Writes *)

Lemma ok_confine c w condition :
  on_some (written (fineE c) (w_policy w) (w_reads w)) condition →
  run_ok c (confine w condition) (confined (fineE c) (w_policy w) (w_reads w)).
Proof. intros Hc. rewrite /confine. case_match; [by apply ok_AndPolicyPredicate|by apply ok_TargetPredicate]. Qed.
Lemma ok_write_set c w target set :
  deepest (map depth (set_expressions set)) ≤ n →
  run_ok c (write_set RE w target set) (λ set', sets (fineE c) (w_policy w) (w_reads w) set' ∧ set_condition set' = set_condition set).
Proof.
  intros Hd. eapply ok_bind; [apply ok_writable_columns|]. intros columns Hcolumns.
  eapply ok_bind; [by apply ok_read_expr_list|]. intros l Hl.
  eapply ok_bind; [by apply (ok_ApplySetInjections (fineE c) _ (w_reads w))|]. intros s1 (Hc1 & He1 & Hw1).
  eapply ok_bind; [by apply ok_ApplyFieldWrites|]. intros s2 (Hc2 & He2 & Hw2).
  eapply ok_mono; [by apply ok_ApplyUpdateCheck|]. intros s3 (Hc3 & He3 & Hw3). rewrite Hw3 Hw2 Hw1. split; [|done].
  split; [by rewrite Hc3 Hc2 Hc1|done].
Qed.
Lemma ok_RequireReadableReturning c returning p vname : run_ok c (RequireReadableReturning returning p vname) (λ _, True).
Proof. eapply ok_mono; [apply ok_run; calm|done]. Qed.
Lemma ok_returning_of c p r vname target returning :
  deepest (map depth returning) ≤ n → run_ok c (returning_of RE p vname target returning) (Forall (written (fineE c) p r)).
Proof.
  intros Hd. eapply ok_bind; [by apply ok_map_expr_list|]. intros l Hl.
  eapply ok_bind; [apply ok_RequireReadableReturning|]. intros _ _. by apply ok_ret.
Qed.

Lemma ok_ApplyConflictPolicy c insert p vname conflict :
  conflict_depth depth conflict ≤ n →
  run_ok c (ApplyConflictPolicy RE insert p vname conflict) (conflict_under (fineE c) insert p).
Proof.
  rewrite /conflict_depth. intros Hd. eapply ok_bind; [apply (ok_map_expr_opt _ _ insert); lia|]. intros condition Hcondition.
  eapply ok_bind; [apply (ok_each_some _ _ (λ set, sets (fineE c) p p set ∧ confined (fineE c) p p (set_condition set)))|].
  - intros set Hset. assert (set_depth depth set ≤ n) as Hs by (rewrite Hset /= in Hd; lia). rewrite /set_depth in Hs.
    eapply ok_bind; [apply ok_writable_columns|]. intros columns Hcolumns.
    eapply ok_bind; [apply (ok_map_expr_list _ _ p); lia|]. intros l Hl.
    eapply ok_bind; [by apply (ok_ApplySetInjections (fineE c) p p)|]. intros s1 (Hc1 & He1 & Hw1).
    eapply ok_bind; [apply (ok_map_expr_opt _ _ p); rewrite Hw1; cbn [set_condition]; lia|]. intros own Hown.
    eapply ok_bind; [by apply ok_AndPolicyPredicate|]. intros confined_ Hconfined.
    eapply ok_mono; [by apply (ok_ApplyUpdateCheck (fineE c) p p)|]. intros s2 (Hc2 & He2 & Hw2). rewrite Hw2. split; [|done].
    split; [by rewrite Hc2 /= Hc1|done].
  - intros set Hset. by apply ok_ret.
Qed.

Lemma ok_RewriteUpdateNode c ctes modifiers target from set_info returning :
  query_depth (UpdateNode [] [] target from set_info returning) ≤ S n →
  run_ok c (RewriteUpdateNode RE RT ctes modifiers target from set_info returning) (fineB c).
Proof.
  simpl. intros Hd. rewrite /RewriteUpdateNode. apply ok_from. eapply from_bind; [apply from_ResolveDmlTarget|]. intros [t p].
  apply from_gets. intros vname. apply from_gets. intros reads. apply from_known. intros s [[Ht Hv] Hr].
  rewrite -Hv -Hr in Ht. cbn [fst snd] in Ht. clear Hv Hr.
  eapply ok_bind; [apply ok_RT_opt; lia|]. intros from' Hfrom. cbv zeta.
  eapply ok_bind; [apply (ok_each_some _ _ (λ set, sets (fineE c) p reads set ∧ confined (fineE c) p reads (set_condition set)))|].
  - intros set Hset. assert (set_depth depth set ≤ n) as Hs by (rewrite Hset /= in Hd; lia). rewrite /set_depth in Hs.
    eapply ok_bind; [apply ok_write_set; lia|]. cbn [w_policy w_reads]. intros s1 [Hs1 Hw1].
    eapply ok_bind; [apply ok_read_expr_opt; rewrite Hw1; lia|]. intros own Hown.
    eapply ok_bind; [by apply ok_confine|]. intros x Hx. by apply ok_ret.
  - intros set Hset. eapply ok_bind; [apply (ok_returning_of _ _ reads); lia|]. intros l Hl. apply ok_ret.
    by eapply fine_update.
Qed.
Lemma ok_RewriteDeleteNode c ctes modifiers target using_ condition returning :
  query_depth (DeleteNode [] [] target using_ condition returning) ≤ S n →
  run_ok c (RewriteDeleteNode RE RT ctes modifiers target using_ condition returning) (fineB c).
Proof.
  simpl. intros Hd. rewrite /RewriteDeleteNode. apply ok_from. eapply from_bind; [apply from_ResolveDmlTarget|]. intros [t p].
  apply from_gets. intros vname. apply from_gets. intros reads. apply from_known. intros s [[Ht Hv] Hr].
  rewrite -Hv -Hr in Ht. cbn [fst snd] in Ht. clear Hv Hr.
  eapply ok_bind; [apply ok_RT_list; lia|]. intros using' Husing. cbv zeta.
  eapply ok_bind; [apply ok_read_expr_opt; lia|]. intros own Hown. eapply ok_bind; [by apply ok_confine|]. intros x Hx.
  eapply ok_bind; [apply (ok_returning_of _ _ reads); lia|]. intros l Hl. apply ok_ret. by eapply fine_delete.
Qed.

Lemma ok_rewrite_action c w matched a :
  action_depth depth a ≤ n →
  run_ok c (rewrite_action RE w matched a) (branch (fineE c) (w_policy w) (w_reads w) matched).
Proof.
  rewrite /action_depth. intros Hd. rewrite /rewrite_action.
  eapply ok_bind; [apply ok_read_expr_opt; lia|]. intros own Hown. run. intros _ _.
  apply (ok_bind _ _ _ (λ x, (matched = WHEN_NOT_MATCHED_BY_SOURCE → confined (fineE c) (w_policy w) (w_reads w) x)
    ∧ (matched ≠ WHEN_NOT_MATCHED_BY_SOURCE → on_some (written (fineE c) (w_policy w) (w_reads w)) x))).
  { case_bool_decide; [|by apply ok_ret]. eapply ok_mono; [by apply ok_TargetPredicate|]. done. }
  intros condition [Hby Hnot].
  eapply ok_bind; [apply (ok_each_some _ _ (λ set, sets (fineE c) (w_policy w) (w_reads w) set
    ∧ on_some (written (fineE c) (w_policy w) (w_reads w)) (set_condition set)))|].
  { intros set Hset. assert (set_depth depth set ≤ n) as Hs by (rewrite Hset /= in Hd; lia). rewrite /set_depth in Hs.
    eapply ok_bind; [apply ok_write_set; lia|]. intros s1 [Hs1 Hw1].
    eapply ok_bind; [apply ok_read_expr_opt; rewrite Hw1; lia|]. intros x Hx. by apply ok_ret. }
  intros update Hupdate. eapply ok_bind; [apply (ok_map_expr_list _ _ (w_reads w)); lia|]. intros l Hl. cbv zeta.
  case_bool_decide as Hinsert; [|by apply ok_ret].
  eapply ok_bind; [apply ok_and; [apply (ok_ApplyMergeInsertPolicy (w_policy w))|apply ok_run; calm]|].
  intros a1 [(Ht1 & Hc1 & Hu1) Hy1].
  eapply ok_mono; [apply ok_and; [apply (ok_ApplyMergeInsertCheck (w_policy w))|apply ok_run; calm]|].
  intros a2 [(Ht2 & Hc2 & Hu2) Hy2]. rewrite /branch Ht2 Hc2 Hu2 Ht1 Hc1 Hu1. split_and!; try done.
  intros _. eexists _, a1, (w_vname w). split_and!; [|exact Hy1|exact Hy2]. exact Hl.
Qed.
Lemma ok_RewriteMergeNode c ctes modifiers target source join_condition actions returning :
  query_depth (MergeNode [] [] target source join_condition actions returning) ≤ S n →
  run_ok c (RewriteMergeNode RE RT ctes modifiers target source join_condition actions returning) (fineB c).
Proof.
  simpl. intros Hd. rewrite /RewriteMergeNode. apply ok_from. eapply from_bind; [apply from_ResolveDmlTarget|]. intros [t p].
  apply from_gets. intros vname. apply from_gets. intros reads. apply from_known. intros s [[Ht Hv] Hr].
  rewrite -Hv -Hr in Ht. cbn [fst snd] in Ht. clear Hv Hr.
  eapply ok_bind; [apply ok_RT_opt; lia|]. intros source' Hsource. cbv zeta.
  eapply ok_bind; [apply ok_read_expr_opt; lia|]. intros own Hown. eapply ok_bind; [by apply ok_confine|]. intros x Hx.
  eapply ok_bind; [apply (ok_mapM _ _ (λ set, Forall (branch (fineE c) p reads set.1) set.2))|].
  { intros set Hset. pose proof (map_depth (λ a, deepest (map (action_depth depth) a.2)) _ _ Hset) as Hin. simpl in Hin.
    eapply ok_bind; [apply ok_mapM; intros a Ha; apply ok_rewrite_action; pose proof (map_depth (action_depth depth) _ _ Ha); lia|].
    intros l Hl. by apply ok_ret. }
  intros l Hl. eapply ok_bind; [apply (ok_returning_of _ _ reads); lia|]. intros l' Hl'. apply ok_ret. by eapply fine_merge.
Qed.

Lemma ok_RewriteInsertNode c ctes modifiers target target_name columns source conflict dv by_name returning :
  query_depth (InsertNode [] [] target target_name columns source conflict dv by_name returning) ≤ S n →
  run_ok c (RewriteInsertNode RE RQ ctes modifiers target target_name columns source conflict dv by_name returning) (fineB c).
Proof.
  simpl. intros Hd. rewrite /RewriteInsertNode. apply ok_from. eapply from_bind; [apply from_ResolveDmlName|]. intros [[t m] p].
  apply from_gets. intros vname. apply from_known. intros s [Ht Hv]. rewrite -Hv in Ht. cbn [fst snd] in Ht. clear Hv.
  run. intros columns' _. eapply ok_bind; [apply ok_RQ_opt; lia|]. intros source' Hsource.
  run. intros [columns1 source1] Hpolicy. run. intros source2 Hcheck. run. intros update _.
  eapply ok_bind; [apply (ok_each_some _ _ (conflict_under (fineE c) p update))|].
  { intros x Hx. apply ok_ApplyConflictPolicy. rewrite Hx /= in Hd. lia. }
  intros conflict' Hconflict. cbv zeta. set (p' := if negb (updates_existing conflict') then _ else _).
  assert (Hp' : of_policy p p') by (rewrite /p'; repeat case_match; [by right; eexists|by right; eexists|by left]).
  eapply ok_bind; [apply (ok_mapM _ _ (written (fineE c) p' p'))|].
  { intros x Hx. eapply ok_bind; [apply (ok_map_expr _ _ p')|].
    - pose proof (map_depth depth _ _ Hx). lia.
    - intros e He. by apply ok_ret, written_target. }
  intros l Hl. eapply ok_bind; [apply ok_RequireReadableReturning|]. intros _ _. apply ok_ret.
  eapply fine_insert; [done| |done|done|done]. eexists _, _, _, _, _, _, _. split_and!; [|exact Hpolicy|exact Hcheck]. done.
Qed.

(** *** Query nodes *)

Lemma ok_RewriteSelectNode c ctes modifiers items from where_clause having qualify groups :
  query_depth (SelectNode [] [] items from where_clause having qualify groups) ≤ S n →
  run_ok c (RewriteSelectNode RE RT ctes modifiers items from where_clause having qualify groups) (fineB c).
Proof.
  simpl. intros Hd. rewrite /RewriteSelectNode. cbv zeta. eapply ok_bind; [apply ok_got|]. intros outer _.
  eapply ok_bind; [by apply ok_set|]. intros _ _. eapply ok_bind; [apply ok_RT_opt; lia|]. intros from' Hfrom.
  eapply ok_bind; [by apply ok_set|]. intros _ _. eapply ok_bind; [apply ok_mapM|].
  { intros x (y & -> & Hy)%in_map. apply HRE. pose proof (map_depth depth _ _ Hy).
    assert (depth (keep_name y) = depth y) as -> by (rewrite /keep_name; repeat case_match; rewrite ?depth_set_alias; done). lia. }
  intros l Hl. do 3 (eapply ok_bind; [apply ok_RE_opt; lia|]; intros ? ?).
  eapply ok_bind; [apply ok_RE_list; lia|]. intros g Hg. by apply ok_ret, fine_select.
Qed.
(** A recursive CTE's own name stays in scope: the node's caller takes it out *)
Definition beyond (c c' : place) : Prop := rescoped (in_scope c) c' = c.
Lemma to_beyond c (m : M Query) Q : run_ok c m Q → run_to c m (λ q c', beyond c c' ∧ Q q).
Proof. intros Hm. eapply to_mono; [by apply to_ok|]. intros q c' [-> Hq]. split; [apply rescoped_own|done]. Qed.
Lemma to_rewrite_body c q :
  query_depth (with_heads [] [] q) ≤ S n → run_to c (rewrite_body RE RQ RT q) (λ q' c', beyond c c' ∧ fineB c q').
Proof.
  intros Hd. destruct q; cbn [rewrite_body].
  - by apply to_beyond, ok_RewriteSelectNode.
  - apply to_beyond. eapply ok_bind; [apply ok_RQ_list; simpl in Hd; lia|]. intros l Hl. by apply ok_ret, fine_set_operation.
  - apply to_beyond. eapply ok_bind; [apply ok_RQ_opt; simpl in Hd; lia|]. intros x Hx.
    eapply ok_bind; [apply ok_RQ_opt; simpl in Hd; lia|]. intros y Hy. by apply ok_ret, fine_cte_node.
  - apply to_wider. eapply to_step; [apply ok_RQ_opt; simpl in Hd; lia|]. intros x Hx.
    eapply to_step; [apply ok_RQ_opt; simpl in Hd; lia|]. intros y Hy. apply to_ret. split; [by destruct c|].
    by apply fine_recursive.
  - by apply to_beyond, ok_RewriteInsertNode.
  - by apply to_beyond, ok_RewriteUpdateNode.
  - by apply to_beyond, ok_RewriteDeleteNode.
  - by apply to_beyond, ok_RewriteMergeNode.
  - apply to_deny.
Qed.
Lemma rewrite_body_heads q :
  only (rewrite_body RE RQ RT q) (λ q', node_ctes q' = node_ctes q ∧ node_modifiers q' = node_modifiers q).
Proof.
  destruct q; cbn [rewrite_body]; rewrite /RewriteSelectNode /RewriteInsertNode /RewriteUpdateNode /RewriteDeleteNode
    /RewriteMergeNode; cbv zeta; try apply only_deny;
    repeat first [apply only_ret; done | apply only_bind; intros ? | match goal with x : _ * _ |- _ => destruct x end].
Qed.

Lemma headless ctes modifiers q : with_heads [] [] (with_heads ctes modifiers q) = with_heads [] [] q.
Proof. by destruct q. Qed.
Lemma headless_depth q : query_depth (with_heads [] [] q) ≤ query_depth q.
Proof. destruct q; simpl; lia. Qed.
Lemma heads_of ctes modifiers q :
  node_ctes (with_heads ctes modifiers q) = ctes ∧ node_modifiers (with_heads ctes modifiers q) = modifiers.
Proof. by destruct q. Qed.
Definition rewrite_inside (q : Query) : M Query :=
  ctes ← mapM (for_snd (for_opt RQ)) (node_ctes q); modifiers ← mapM RE (node_modifiers q);
  rewrite_body RE RQ RT (with_heads ctes modifiers q).
Lemma to_rewrite_inside c q : query_depth q ≤ S n →
  run_to c (rewrite_inside q) (λ q' c', beyond c c' ∧ map fst (node_ctes q') = map fst (node_ctes q)
    ∧ Forall (λ cte, on_some (fineQ c) cte.2) (node_ctes q') ∧ Forall (fineE c) (node_modifiers q') ∧ fineB c q').
Proof.
  intros Hd. eapply to_step; [apply (ok_mapM2 _ _ (λ x y, y.1 = x.1 ∧ on_some (fineQ c) y.2))|].
  { intros x Hx. apply ok_for_snd, ok_each_some. intros b Hb. apply HRQ.
    pose proof (node_ctes_depth _ _ _ Hx Hb). lia. }
  intros ctes Hctes. eapply to_step; [apply ok_RE_list|].
  { apply deepest_le, Forall_map, Forall_forall. intros e He. pose proof (node_modifiers_depth _ _ He). lia. }
  intros modifiers Hmodifiers.
  assert (Hnames : map fst ctes = map fst (node_ctes q)).
  { clear -Hctes. induction Hctes as [|x y l l' [Hxy _] _ IH]; [done|]. simpl. by rewrite Hxy IH. }
  assert (Hall : Forall (λ cte, on_some (fineQ c) cte.2) ctes).
  { clear -Hctes. induction Hctes as [|x y l l' [_ Hy] _ IH]; by constructor. }
  assert (Hbody := to_rewrite_body c (with_heads ctes modifiers q)).
  rewrite headless in Hbody. pose proof (headless_depth q).
  eapply to_mono; [apply (to_only _ _ _ _ (Hbody ltac:(lia)) (rewrite_body_heads _))|].
  destruct (heads_of ctes modifiers q) as [-> ->]. intros q' c' [[Hc' Hq'] [-> ->]]. by split_and!.
Qed.
Lemma ok_rewrite_query c q : query_depth q ≤ S n → run_ok c (rewrite_query RE RQ RT q) (fineQ c).
Proof.
  intros Hd. eapply (ok_ext _ (scoped (map fst (node_ctes q)) (rewrite_inside q))).
  { intros s. rewrite /rewrite_query /scoped /rewrite_inside /mbind /M_bind /=.
    repeat case_match; simplify_eq/=; done. }
  eapply ok_scoped, to_mono; [by apply to_rewrite_inside|].
  intros q' c' (Hc' & Hnames & Hctes & Hmodifiers & Hbody). rewrite -Hnames in Hctes Hmodifiers Hbody Hc'.
  split; [|by apply fine_query]. destruct c, c'. by injection Hc' as -> -> -> -> ->.
Qed.
End walk.

(** ** The walk *)
Section whole.
Context `{SU : StringUtil} `{JR : JsonReader} `{PL : ParsingLaws} `{PS : PolicySource} `{B : Batch}.

Lemma tref_depth_pos r : 1 ≤ tref_depth r.
Proof. destruct r; simpl; lia. Qed.
Lemma query_depth_pos q : 1 ≤ query_depth q.
Proof. destruct q; simpl; lia. Qed.
(** Whatever a walk with fuel for the tree's depth returns is fine, and it returns or is refused *)
Lemma walk_ok fuel :
  (∀ c e, depth e ≤ fuel → run_ok c (RewriteExpr fuel e) (fineE c))
  ∧ (∀ c q, query_depth q ≤ fuel → run_ok c (RewriteQueryNode fuel q) (fineQ c))
  ∧ (∀ c r, tref_depth r ≤ fuel → run_ok c (RewriteTableRef fuel r) (fineT c)).
Proof.
  induction fuel as [|fuel (IHe & IHq & IHr)].
  { split_and!; intros c x Hx; [pose proof (depth_pos x)|pose proof (query_depth_pos x)|pose proof (tref_depth_pos x)]; lia. }
  split_and!; intros c x Hx; cbn [RewriteExpr RewriteQueryNode RewriteTableRef].
  - by eapply ok_rewrite_expr.
  - by eapply ok_rewrite_query.
  - by eapply ok_rewrite_ref.
Qed.
End whole.
