(* ===== verification/BatchSpec.v ===== *)
(** * What a batch may send to the engine

    The statements [RewriteStatements] hands on, as a grammar: queries and writes of [RewriterSpec]'s grammar, DDL that
    lands in a schema its capability is granted on or in the session's own temp catalog, the settings a client may make,
    and the records of the virtual catalog that follow a statement. *)
From S2P Require Import Prelude NamePath FieldPaths FunctionCategories PolicyTypes Platform Token Tree RewriteData RewriteDml.
From S2P Require Import RewriteRefs Rewriter RewriteDdl RewriterRuns RewriterSpec.

(** Where every statement's rewrite begins *)
Definition start : place :=
  {| in_scope := []; described := 0; dropped := false; answered := None; queued := []; keeping := false |}.

Section batch.
Context `{SU : StringUtil} `{JR : JsonReader} `{P : Parsing} `{PS : PolicySource} `{B : Batch}.

Definition RECORDS : list string :=
  ["acl_register_created"; "acl_register_existing"; "acl_register_view"; "acl_drop_relation"; "acl_rename_relation";
   "acl_session_use"].
Inductive is_record : SQLStatement → Prop :=
  | record_of function arguments : function ∈ RECORDS → is_record (AclRecord function arguments).

(** The schema a capability's DDL on a name lands in, and the name there *)
Definition lands_in (capability key : string) (target : DdlTarget) : Prop :=
  ResolveDdlTarget (who principal) key capability = Answered (Some target).
Definition physical_in (target : DdlTarget) (name : QualifiedName) : Prop :=
  virtual_only target = false ∧ ∃ leaf, KeyToQualified id (ChildKey (phys_schema target) leaf) = Ok name.
Definition same_schema (a b : DdlTarget) : Prop := vcat a = vcat b ∧ schema_path a = schema_path b.

Definition fine_column (c : ColumnDefinition) : Prop :=
  on_some system_type (column_type c) ∧ on_some (fineE start) (default_value c) ∧ on_some (fineE start) (generated c).
Definition fine_constraint (c : Constraint) : Prop := match c with CHECK e => fineE start e | OtherConstraint => True end.

Inductive fine_create : CreateForm → Prop :=
  | create_temp info columns constraints body :
      temporary info = true → temp_held → Forall fine_column columns → Forall fine_constraint constraints →
      on_some (fineQ start) body → fine_create (CreateTable info columns constraints body)
  | create_table info columns constraints body key target :
      lands_in "create" key target → physical_in target (create_name info) →
      (replaces info = true → ∃ d, lands_in "drop" key d ∧ same_schema d target) →
      Forall fine_column columns → Forall fine_constraint constraints → on_some (fineQ start) body →
      fine_create (CreateTable info columns constraints body)
  | create_secret info :
      PrincipalMainCap (who principal) "secrets" = Answered true → fine_create (CreateSecret info).
Inductive fine_drop (info : DropInfo) : Prop :=
  | drop_temp : drop_form info = DROP_TABLE → temp_held → temp_name (drop_name info) → fine_drop info
  | drop_relation key target :
      drop_form info ∈ [DROP_TABLE; DROP_VIEW] → lands_in "drop" key target → physical_in target (drop_name info) →
      cascade info = false → fine_drop info
  | drop_secret_of :
      drop_form info = DROP_SECRET → PrincipalMainCap (who principal) "secrets" = Answered true → fine_drop info.
Inductive fine_alter (info : AlterInfo) : Prop :=
  | alter_rename key new_key from to :
      alter_form info ≠ ALTER_OTHER → lands_in "drop" key from → lands_in "create" new_key to → same_schema to from →
      physical_in from (alter_name info) → fine_alter info.
Definition enum_step (info : CreateInfo) : Prop :=
  temporary info = true ∧ unqualified (create_name info) = true
  ∧ StartsWith (Tree.Name (create_name info)) "__pivot_enum_" = true.

Inductive emitted : SQLStatement → Prop :=
  | emitted_select t q : fineQ start q → emitted (SelectStatement t q)
  | emitted_insert t q : metadata_only = false → fineQ start q → emitted (InsertStatement t q)
  | emitted_update t q : metadata_only = false → fineQ start q → emitted (UpdateStatement t q)
  | emitted_delete t q : metadata_only = false → fineQ start q → emitted (DeleteStatement t q)
  | emitted_merge t q : metadata_only = false → fineQ start q → emitted (MergeIntoStatement t q)
  | emitted_explain t s :
      metadata_only = false → PrincipalMainCap (who principal) "explain" = Answered true → emitted s →
      emitted (ExplainStatement t s)
  | emitted_create t form : metadata_only = false → fine_create form → emitted (CreateStatement t (Some form))
  | emitted_enum t info body :
      metadata_only = false → enum_step info → fineQ start body →
      emitted (CreateStatement t (Some (CreateType info (Some body))))
  | emitted_drop t info : metadata_only = false → fine_drop info → emitted (DropStatement t (Some info))
  | emitted_alter t info : metadata_only = false → fine_alter info → emitted (AlterStatement t (Some info))
  | emitted_set t name scope set_type :
      ClientSettingAllowed name = true → scope ≠ VARIABLE → scope ≠ GLOBAL → session_connection principal = true →
      (∀ value, set_type = SET value → is_Some (constant_value value)) → emitted (SetStatement t name scope set_type)
  | emitted_transaction t : emitted (TransactionStatement t)
  | emitted_multi t l : metadata_only = false → Forall emitted l → emitted (MultiStatement t l).

(** The one answer of a batch whose statements were all no-ops *)
Definition no_op (s : SQLStatement) : Prop :=
  ∃ rest, ParseQuery ("SELECT true AS " +:+ quoted "Success" +:+ " WHERE false") = Ok (s :: rest).
Definition sent (s : SQLStatement) : Prop := emitted s ∨ is_record s ∨ no_op s.
End batch.
