(* ===== verification/BatchLaws.v ===== *)
(** * What a batch sends

    [RewriteStatement] settles each statement as [BatchSpec] has it - sent on, answered by another, or dropped, with the
    records that follow -, and so does the batch.  The claims about the rewriter are at the end of [RewriterClaims]. *)
From S2P Require Import Prelude NamePath FieldPaths FunctionCategories PolicyTypes Platform Token Tree RewriteData RewriteDml.
From S2P Require Import RewriteRefs Rewriter RewriteDdl RewriterRuns RewriterSpec RewriterLaws BatchSpec.

Section batch.
Context `{SU : StringUtil} `{JR : JsonReader} `{PL : ParsingLaws} `{PS : PolicySource} `{B : Batch}.

(** ** Places *)

Definition dropping (c : place) : place := {|
  in_scope := in_scope c; described := described c; dropped := true; answered := answered c; queued := queued c;
  keeping := keeping c |}.
Definition queueing (s : SQLStatement) (c : place) : place := {|
  in_scope := in_scope c; described := described c; dropped := dropped c; answered := answered c;
  queued := queued c ++ [s]; keeping := keeping c |}.
Definition answering (s : option SQLStatement) (c : place) : place := {|
  in_scope := in_scope c; described := described c; dropped := dropped c; answered := s; queued := queued c;
  keeping := keeping c |}.
Definition holding (keep : bool) (c : place) : place := {|
  in_scope := in_scope c; described := described c; dropped := dropped c; answered := answered c; queued := queued c;
  keeping := keep |}.
Lemma to_drop_it c : run_to c drop_it (λ _ c', c' = dropping c).
Proof. by intros s <-. Qed.
Lemma to_record c function arguments : run_to c (record function arguments) (λ _ c', c' = queueing (AclRecord function arguments) c).
Proof. by intros s <-. Qed.
Lemma to_answer_with c node text : run_to c (answer_with node text) (λ _ c', c' = answering (Some (SelectStatement text node)) c).
Proof. by intros s <-. Qed.
Lemma to_when c b (m : M ()) Q : run_to c m Q → run_to c (when b m) (λ x c', (b = true ∧ Q x c') ∨ (b = false ∧ c' = c)).
Proof.
  destruct b; intros Hm; [|by apply to_ret; right]. eapply to_mono; [exact Hm|]. intros x c' Hx. by left.
Qed.

Lemma to_get {A} c (k : State → M A) Q : (∀ s, place_of s = c → run_to c (k s) Q) → run_to c (get ≫= k) Q.
Proof. intros Hk s Hs. by apply (Hk s Hs). Qed.

(** A statement settled: what it became, and what is queued behind it *)
Definition settled (s : SQLStatement) (c : place) : Prop :=
  in_scope c = [] ∧ described c = 0 ∧ keeping c = false ∧ Forall is_record (queued c)
  ∧ on_some emitted (answered c) ∧ (dropped c = false → answered c = None → emitted s).
Lemma settled_start s : emitted s → settled s start.
Proof. intros Hs. by split_and!. Qed.
Lemma is_record_in function arguments : function ∈ RECORDS → is_record (AclRecord function arguments).
Proof. by constructor. Qed.
Hint Resolve is_record_in : core.

(** ** The walk from the start *)
Lemma ok_query q : run_ok start (rewrite_query_whole q) (fineQ start).
Proof. by apply walk_ok. Qed.
Lemma ok_expr e : run_ok start (rewrite_expr_whole e) (fineE start).
Proof. by apply walk_ok. Qed.
Lemma ok_ref r : run_ok start (rewrite_ref_whole r) (fineT start).
Proof. by apply walk_ok. Qed.
Lemma ok_body body : run_ok start (for_opt rewrite_query_whole body) (on_some (fineQ start)).
Proof. apply ok_each_some. intros q _. apply ok_query. Qed.

(** ** CREATE *)
Lemma ok_RewriteColumnDefinitions columns constraints :
  run_ok start (RewriteColumnDefinitions columns constraints) (λ r, Forall fine_column r.1 ∧ Forall fine_constraint r.2).
Proof.
  rewrite /RewriteColumnDefinitions. eapply ok_bind; [apply (ok_mapM _ _ fine_column)|].
  { intros col _. rewrite /rewrite_column. eapply ok_bind; [apply (ok_each_some _ _ system_type)|].
    { intros e _. eapply ok_mono; [apply ok_GateTypeExpression|]. by intros e' []. }
    intros t Ht. eapply ok_bind; [apply ok_each_some; intros; apply ok_expr|]. intros d Hd.
    eapply ok_bind; [apply ok_each_some; intros; apply ok_expr|]. intros g Hg. by apply ok_ret. }
  intros l Hl. eapply ok_bind; [apply (ok_mapM _ _ fine_constraint)|].
  { intros [e|] _; [|by apply ok_ret]. eapply ok_bind; [apply ok_expr|]. intros e' He. by apply ok_ret. }
  intros l' Hl'. by apply ok_ret.
Qed.
Lemma ok_RewriteCreateTempTable info columns constraints body :
  temporary info = true → run_ok start (RewriteCreateTempTable info columns constraints body) fine_create.
Proof.
  intros Htemp. rewrite /RewriteCreateTempTable. eapply ok_bind; [apply ok_TempAllowed|]. intros allowed Ha.
  run. intros [] ->. run. intros _ _. run. intros _ _. run. intros use _. run. intros in_session _. run. intros p _.
  run. intros shadows _. run. intros _ _. run. intros _ _. eapply ok_bind; [apply ok_body|]. intros body' Hbody.
  eapply ok_bind; [apply ok_RewriteColumnDefinitions|]. intros [columns' constraints'] [Hc Hk]. apply ok_ret.
  by apply create_temp; [|apply Ha|..].
Qed.

Lemma ok_create_home c key : run_ok c (create_home key) (lands_in "create" key).
Proof. rewrite /create_home. run. intros [target|] Ht; [by apply ok_ret|apply ok_deny]. Qed.
Lemma calm_RequireNoCaseSibling target : calm (RequireNoCaseSibling target).
Proof.
  rewrite /RequireNoCaseSibling. apply calm_catch; [calm|calm|]. intros s. apply steady_fails. apply steady_bind; [|by intros ?].
  apply steady_ask.
Qed.
Lemma ok_RequireReplaceDroppable c info key target :
  run_ok c (RequireReplaceDroppable info key target)
    (λ _, replaces info = true → ∃ d, lands_in "drop" key d ∧ same_schema d target).
Proof.
  rewrite /RequireReplaceDroppable. case_match eqn:E; [apply ok_ret; intros E'; by rewrite E' in E|].
  run. intros d Hd. run. intros [] Hsame. eapply ok_mono; [apply ok_run; calm|]. intros _ _ _.
  destruct d as [d|]; [|done]. exists d. split; [done|].
  by apply andb_true_iff in Hsame as [?%String.eqb_eq ?%String.eqb_eq].
Qed.
Lemma calm_AdmitRecordConflict info vcat key : calm (AdmitRecordConflict info vcat key).
Proof. rewrite /AdmitRecordConflict. calm. Qed.
Hint Resolve calm_RequireNoCaseSibling calm_AdmitRecordConflict : calm.

(** The statement dropped, whatever it was; its records queued *)
Lemma to_dropped {A} c (a : A) (Q : A → place → Prop) : Q a (dropping c) → run_to c (drop_it;; mret a) Q.
Proof. intros HQ. eapply to_bind; [apply to_drop_it|]. intros [] c' ->. by apply to_ret. Qed.
Lemma to_recorded {A} c function arguments (k : M A) Q :
  run_to (queueing (AclRecord function arguments) c) k Q → run_to c (record function arguments;; k) Q.
Proof. intros Hk. eapply to_bind; [apply to_record|]. by intros [] c' ->. Qed.
Lemma to_dropped_recorded {A} c function arguments (a : A) (Q : A → place → Prop) :
  Q a (queueing (AclRecord function arguments) (dropping c)) → run_to c (drop_it;; record function arguments;; mret a) Q.
Proof. intros HQ. eapply to_bind; [apply to_drop_it|]. intros [] c' ->. by apply to_recorded, to_ret. Qed.
Ltac in_records := apply bool_decide_unpack; by vm_compute.
Ltac settle := split_and!; [done|done|done|repeat constructor; in_records|done|done].

Lemma to_RewriteCreateTable t info columns constraints body :
  metadata_only = false →
  run_to start (RewriteCreateTable info columns constraints body) (λ form c', settled (CreateStatement t (Some form)) c').
Proof.
  intros Hmeta. rewrite /RewriteCreateTable. eapply to_step; [apply ok_body|]. intros body' Hbody.
  eapply to_step; [apply ok_RewriteColumnDefinitions|]. intros [columns' constraints'] [Hc Hk]. cbv zeta.
  eapply to_step; [apply ok_run; calm|]. intros key _. eapply to_step; [apply ok_create_home|]. intros target Htarget.
  eapply to_step; [apply ok_run; calm|]. intros _ _. eapply to_step; [apply ok_run; calm|]. intros _ _.
  eapply to_step; [apply ok_refused|]. intros _ _. eapply to_step; [apply ok_RequireReplaceDroppable|]. intros [] Hreplace.
  eapply to_step; [apply ok_run; calm|]. intros [] _; cbn [negb]; [|by apply to_dropped; settle].
  destruct (virtual_only target) eqn:Hvirtual; [by apply to_dropped_recorded; settle|].
  eapply to_step; [apply ok_ParsePhysName|]. intros name Hname.
  assert (Hfine : ∀ info', create_name info' = name → (replaces info' = true → replaces info = true) →
      emitted (CreateStatement t (Some (CreateTable info' columns' constraints' body')))).
  { intros info' Hi Hr. apply emitted_create; [done|]. eapply create_table; [done| | |done..].
    - split; [done|]. exists (Tree.Name (create_name info)). by rewrite Hi.
    - naive_solver. }
  destruct (needs_record target).
  - apply to_recorded, to_ret. split_and!; try done; [repeat constructor; in_records|]. intros _ _.
    apply Hfine; by case_match.
  - apply to_ret, settled_start. by apply Hfine.
Qed.

Lemma to_RewriteCreateView t info body :
  run_to start (RewriteCreateView info body) (λ form c', settled (CreateStatement t (Some form)) c').
Proof.
  rewrite /RewriteCreateView. eapply to_step; [apply ok_refused|]. intros _ _. destruct body as [body|]; [|apply to_deny].
  eapply to_step; [apply ok_run; calm|]. intros key _. eapply to_step; [apply ok_create_home|]. intros target _.
  eapply to_step; [apply ok_run; calm|]. intros _ _. eapply to_step; [apply ok_run; calm|]. intros _ _.
  eapply to_step; [apply ok_RequireReplaceDroppable|]. intros [] _. eapply to_step; [apply ok_run; calm|].
  intros [] _; cbn [negb]; [|by apply to_dropped; settle].
  apply (to_modify _ (holding true start)); [by intros s [=]; rewrite /holding /start /place_of /=; congruence|].
  eapply to_step; [by apply walk_ok|]. intros body' _.
  apply (to_modify _ start); [by intros s [=]; rewrite /start /place_of /=; congruence|].
  by apply to_dropped_recorded; settle.
Qed.
Lemma to_RewriteCreateSchema t info :
  run_to start (RewriteCreateSchema info) (λ form c', settled (CreateStatement t (Some form)) c').
Proof.
  rewrite /RewriteCreateSchema. cbv zeta. eapply to_step; [apply ok_got|]. intros catalog _.
  eapply to_step; [apply ok_run; calm|]. intros in_session _. eapply to_step; [apply ok_run; calm|].
  intros [[vcat path]|] _; [|apply to_deny]. eapply to_step; [apply ok_run; calm|]. intros _ _.
  eapply to_step; [apply ok_required|]. intros _ _. by apply to_dropped; settle.
Qed.
Lemma ok_RequireSecrets c verb : run_ok c (RequireSecrets verb) (λ _, PrincipalMainCap (who principal) "secrets" = Answered true).
Proof. rewrite /RequireSecrets. run. intros held Hheld. eapply ok_mono; [apply ok_required|]. intros [] ->. exact Hheld. Qed.
Lemma calm_LocalSecrets named : calm (LocalSecrets named).
Proof. rewrite /LocalSecrets. calm. Qed.
Lemma calm_RequireSecretConstant e : calm (RequireSecretConstant e).
Proof.
  induction e as [e IH] using children_ind. destruct e; cbn [RequireSecretConstant]; try solve [calm].
  - case_match; [|calm]. apply calm_iterM. intros m (a & -> & Ha)%in_map. apply IH.
    rewrite /children /over_children !elem_of_app in_map. left. by exists a.
  - apply IH. by apply list_elem_of_singleton.
Qed.
Hint Resolve calm_LocalSecrets calm_RequireSecretConstant : calm.
Lemma ok_RewriteCreateSecret info : run_ok start (RewriteCreateSecret info) fine_create.
Proof.
  rewrite /RewriteCreateSecret. eapply ok_bind; [apply ok_RequireSecrets|]. intros [] Hheld. run. intros local _.
  run. intros _ _. eapply ok_bind; [apply ok_run; calm|]. intros _ _. destruct local.
  - run. intros _ _. by apply ok_ret, create_secret.
  - run. intros service _. run. intros _ _. by apply ok_ret, create_secret.
Qed.
Lemma ok_settled (A : Type) (wrap : A → SQLStatement) m Q :
  run_ok start m Q → (∀ a, Q a → emitted (wrap a)) → run_to start m (λ a c', settled (wrap a) c').
Proof. intros Hm HQ. eapply to_mono; [by apply to_ok|]. intros a c' [-> Ha]. by apply settled_start, HQ. Qed.
Lemma to_RewriteCreateStatement t form :
  metadata_only = false →
  run_to start (RewriteCreateStatement form) (λ form c', settled (CreateStatement t (Some form)) c').
Proof.
  intros Hmeta. assert (Hfine : ∀ m, run_ok start m fine_create →
      run_to start m (λ form c', settled (CreateStatement t (Some form)) c')).
  { intros m Hm. eapply (ok_settled _ (λ form, CreateStatement t (Some form))); [exact Hm|]. intros f Hf. by apply emitted_create. }
  destruct form as [[info columns constraints body|info body|info|info|info body|]|]; cbn [RewriteCreateStatement];
    try apply to_deny.
  - destruct (temporary info) eqn:Htemp; [by apply Hfine, ok_RewriteCreateTempTable|by apply to_RewriteCreateTable].
  - by apply to_RewriteCreateView.
  - by apply Hfine, ok_RewriteCreateSecret.
  - by apply to_RewriteCreateSchema.
Qed.

(** ** DROP, ALTER *)
Lemma ok_TryTempDrop c info : run_ok c (TryTempDrop info) (on_some fine_drop).
Proof.
  rewrite /TryTempDrop. eapply ok_bind; [apply ok_TempAllowed|]. intros allowed Ha. cbv zeta. apply ok_ret. intros i.
  destruct (negb allowed || _) eqn:E1; [done|]. apply orb_false_iff in E1 as [->%negb_false_iff Hform%negb_false_iff%bool_decide_eq_true].
  destruct (TempQualified (drop_name info)) eqn:E2; [intros [= <-]; apply drop_temp; [done|by apply Ha|by constructor]|].
  destruct (negb (BareName (drop_name info)) || _ || _) eqn:E3; [done|]. intros [= <-]. apply drop_temp; [done|by apply Ha|].
  apply temp_bare. by apply orb_false_iff in E3 as [_ ?%negb_false_iff].
Qed.
Lemma ok_RewriteDropSecret info :
  drop_form info = DROP_SECRET → run_ok start (RewriteDropSecret info) fine_drop.
Proof.
  intros Hform. rewrite /RewriteDropSecret. eapply ok_bind; [apply ok_RequireSecrets|]. intros [] Hheld.
  destruct (default _ _) as [named persist]. run. intros [] _.
  - run. intros _ _. by apply ok_ret, drop_secret_of.
  - run. intros _ _. run. intros service _. run. intros _ _. by apply ok_ret, drop_secret_of.
Qed.
Lemma to_drop_granted t key target info :
  metadata_only = false → drop_form info ∈ [DROP_TABLE; DROP_VIEW] → lands_in "drop" key target →
  run_to start (drop_granted key target info) (λ info' c', settled (DropStatement t (Some info')) c').
Proof.
  intros Hmeta Hform Htarget. rewrite /drop_granted. eapply to_step; [apply ok_run; calm|]. intros _ _.
  eapply to_step; [apply ok_answered|]. intros existing _. cbv zeta.
  destruct (match existing with Some p => is_view p | None => false end); [by apply to_dropped_recorded; settle|].
  eapply to_step; [apply ok_refused|]. intros [] Hvirtual. eapply to_step; [apply ok_ParsePhysName|]. intros name Hname.
  assert (Hfine : emitted (DropStatement t (Some (with_drop_name name false info)))).
  { apply emitted_drop; [done|]. eapply drop_relation; [done|done|split; [done|by exists (Tree.Name (drop_name info))]|done]. }
  eapply to_bind; [apply to_when, to_record|]. intros _ c' [[_ ->]|[_ ->]]; apply to_ret; [|by apply settled_start].
  split_and!; try done. repeat constructor; in_records.
Qed.
Lemma to_RewriteDropStatement t info :
  metadata_only = false →
  run_to start (RewriteDropStatement info) (λ info' c', settled (DropStatement t (Some info')) c').
Proof.
  intros Hmeta. destruct info as [info|]; [|apply to_deny]. cbn [RewriteDropStatement].
  case_bool_decide as Hsecret.
  { eapply (ok_settled _ (λ i, DropStatement t (Some i))); [by apply ok_RewriteDropSecret|]. intros i Hi. by apply emitted_drop. }
  case_match eqn:Hother; [apply to_deny|].
  assert (Hform : drop_form info ∈ [DROP_TABLE; DROP_VIEW]).
  { destruct (drop_form info); try done; set_solver. }
  assert (Htemp : ∀ i, fine_drop i → run_to start (mret i) (λ info' c', settled (DropStatement t (Some info')) c')).
  { intros i Hi. apply to_ret, settled_start. by apply emitted_drop. }
  eapply to_step; [apply ok_run; calm|]. intros key _.
  eapply (to_step _ _ _ (on_some fine_drop)).
  { rewrite /drop_temp_first. destruct TempScanContext; [|by apply ok_ret]. case_match; [|by apply ok_ret]. run.
    intros [?|] _; [by apply ok_ret|apply ok_TryTempDrop]. }
  intros [first|] Hfirst; [by apply Htemp, Hfirst|]. eapply to_step; [apply ok_answered|]. intros [target|] Htarget.
  - by apply (to_drop_granted _ key).
  - eapply to_step; [apply ok_TryTempDrop|]. intros [i|] Hi; [by apply Htemp, Hi|apply to_deny].
Qed.

Lemma to_RewriteRename t info new_name view_form :
  metadata_only = false → alter_form info ≠ ALTER_OTHER →
  run_to start (RewriteRename info new_name view_form) (λ info' c', settled (AlterStatement t (Some info')) c').
Proof.
  intros Hmeta Hform. rewrite /RewriteRename. eapply to_step; [apply ok_run; calm|]. intros key _. cbv zeta.
  eapply to_step; [apply ok_answered|]. intros [from|] Hfrom; [|apply to_deny].
  eapply to_step; [apply ok_answered|]. intros to0 Hto.
  destruct to0 as [to|]; [|apply to_deny]. destruct (_ && _) eqn:Hsame; [|apply to_deny].
  do 3 (eapply to_step; [apply ok_run; calm|]; intros _ _). eapply to_step; [apply ok_refused|]. intros [] Hvirtual.
  eapply to_step; [apply ok_run; calm|]. intros taken _. eapply to_step; [apply ok_run; calm|]. intros _ _.
  eapply to_step; [apply ok_run; calm|]. intros declared _. eapply to_step; [apply ok_run; calm|]. intros _ _.
  eapply to_step; [apply ok_run; calm|]. intros _ _. eapply to_step; [apply ok_run; calm|]. intros existing _.
  eapply to_step; [apply ok_run; calm|]. intros _ _.
  destruct (match existing with Some p => is_view p | None => false end).
  { eapply to_step; [apply ok_run; calm|]. intros _ _. by apply to_dropped_recorded; settle. }
  eapply to_step; [apply ok_ParsePhysName|]. intros name Hname. apply to_recorded, to_ret.
  split_and!; try done; [repeat constructor; in_records|]. intros _ _. apply emitted_alter; [done|].
  apply andb_true_iff in Hsame as [?%String.eqb_eq ?%String.eqb_eq].
  eapply alter_rename; [done|exact Hfrom|exact Hto|done|]. split; [done|by exists (Tree.Name (alter_name info))].
Qed.
Lemma to_RewriteAlterStatement t info :
  metadata_only = false →
  run_to start (RewriteAlterStatement info) (λ info' c', settled (AlterStatement t (Some info')) c').
Proof.
  intros Hmeta. destruct info as [info|]; [|apply to_deny]. cbn [RewriteAlterStatement].
  destruct (alter_form info) eqn:Hform; [by apply to_RewriteRename; [|rewrite Hform]..|apply to_deny].
Qed.

(** ** SET, USE, PRAGMA, CALL *)
Lemma to_RewriteUse s name set_type :
  run_to start (RewriteUse name set_type) (λ _ c', settled s c').
Proof.
  rewrite /RewriteUse. eapply to_step; [apply ok_run; rewrite /MetadataOnly; calm|]. intros _ _. cbv zeta.
  eapply to_step; [apply ok_refused|]. intros _ _. eapply to_step; [apply ok_required|]. intros _ _.
  destruct set_type as [value|]; [|apply to_deny]. destruct (constant_value value) as [v|]; [|apply to_deny]. cbv zeta.
  eapply to_step; [apply ok_refused|]. intros _ _. eapply to_step; [apply ok_run; rewrite /use_names; calm|]. intros [catalog schema] _.
  eapply to_step; [apply ok_run; calm|]. intros held _. eapply to_step; [apply ok_required|]. intros _ _.
  eapply to_step; [apply ok_run; rewrite /use_schema_of; calm|]. intros schema' _.
  eapply to_step; [apply ok_run; calm|]. intros _ _. eapply to_step; [apply ok_run; rewrite /PrincipalMain; calm|]. intros main _.
  eapply to_bind; [apply to_drop_it|]. intros _ c' ->. apply to_recorded.
  eapply to_mono; [apply to_ok, ok_set; done|]. intros _ c' [-> _]. settle.
Qed.
Lemma to_RewriteSetStatement t name scope set_type :
  run_to start (RewriteSetStatement name scope set_type) (λ _ c', settled (SetStatement t name scope set_type) c').
Proof.
  rewrite /RewriteSetStatement. case_match; [apply to_RewriteUse|].
  eapply to_step; [apply ok_required|]. intros [] [Hscope%negb_true_iff%bool_decide_eq_false Hname]%andb_true_iff.
  eapply to_step; [apply ok_required|]. intros [] Hglobal%negb_true_iff%bool_decide_eq_false.
  eapply to_step; [apply ok_required|]. intros [] Hsession.
  eapply (to_step _ _ _ (λ _, ∀ value, set_type = SET value → is_Some (constant_value value))).
  { rewrite /setting_value. destruct set_type as [value|]; [|by apply ok_ret].
    destruct (constant_value value) as [v|] eqn:Hv; [|apply ok_deny].
    destruct v; apply ok_ret; intros ? [= <-]; by rewrite Hv. }
  intros value Hvalue. eapply to_mono; [apply to_ok, ok_run; calm|].
  intros _ c' [-> _]. apply settled_start. by apply emitted_set.
Qed.
Lemma to_answered q t s : fineQ start q → run_to start (answer_with q t) (λ _ c', settled s c').
Proof.
  intros Hq. eapply to_mono; [apply to_answer_with|]. intros _ c' ->. split_and!; try done.
  intros a [= <-]. by apply emitted_select.
Qed.
Lemma to_RewritePragmaStatement s name parameters :
  run_to start (RewritePragmaStatement name parameters) (λ _ c', settled s c').
Proof.
  rewrite /RewritePragmaStatement. cbv zeta. eapply to_step; [apply ok_run; rewrite /PragmaTargetName; calm|]. intros sql _.
  eapply to_step; [apply ok_run; calm|]. intros node _. eapply to_step; [apply ok_query|]. intros node' Hnode.
  by apply to_answered.
Qed.
Lemma fine_select_star r : fineT start r → fineQ start (select_from [star_all] r).
Proof.
  intros Hr. apply fine_query; [by constructor|by constructor|]. change (shadowed _ start) with start.
  apply fine_select; try done; [|by intros ? [= <-]].
  apply Forall_singleton, fine_plain; [done|]. by intros x ?%elem_of_nil.
Qed.
Lemma to_RewriteCallStatement s function : run_to start (RewriteCallStatement function) (λ _ c', settled s c').
Proof.
  rewrite /RewriteCallStatement. destruct function as [[]|]; try apply to_deny. case_match; [|apply to_deny].
  case_match; [apply to_deny|]. eapply to_step; [apply ok_ref|]. intros r Hr. cbv zeta. by apply to_answered, fine_select_star.
Qed.

(** ** One statement *)
Lemma emitted_with_text t s : emitted s → emitted (with_text t s).
Proof. destruct 1; by econstructor. Qed.
Lemma ok_rewrite_enum_step s : metadata_only = false → run_ok start (rewrite_enum_step s) emitted.
Proof.
  intros Hmeta. rewrite /rewrite_enum_step. destruct (PivotEnumCreate s) as [[info body]|] eqn:E; [|apply ok_deny].
  eapply ok_bind; [apply ok_query|]. intros body' Hbody. apply ok_ret, emitted_enum; [done| |done].
  rewrite /PivotEnumCreate in E. destruct s; try done. destruct form as [[]|]; try done.
  destruct body0; try done. destruct (_ && _) eqn:Hif; [|done]. simplify_eq.
  by apply andb_true_iff in Hif as [[]%andb_true_iff ?].
Qed.
Lemma split_statements_in l before last : split_statements l = Some (before, last) → last ∈ l.
Proof.
  revert before. induction l as [|s l IH]; intros before; [done|]. simpl. destruct l as [|s' l]; [set_solver|].
  destruct (split_statements (s' :: l)) as [[b x]|]; [|done]. intros [= _ <-]. right. by eapply IH.
Qed.
(** What EXPLAIN does with the statement below, settled *)
Lemma to_explained t s c :
  metadata_only = false → PrincipalMainCap (who principal) "explain" = Answered true → settled s c →
  run_to c
    (queued ← gets follow_ups;
     when (negb (empty_list queued))
       (Deny STATEMENT_TYPE ("EXPLAIN of a statement that writes the virtual catalog's record is not "
          +:+ "permitted under ACL - run the statement itself"));;
     answered ← gets replacement;
     match answered with
     | Some explained => modify (set_replacement None);; mret (ExplainStatement t explained)
     | None => mret (ExplainStatement t s)
     end) settled.
Proof.
  intros Hmeta Hheld (Hscope & Hdepth & Hkeep & Hqueued & Hanswer & Hs). apply (to_gets _ queued); [done|].
  eapply to_step; [apply ok_refused|]. intros [] _. apply (to_gets _ answered); [done|].
  destruct (answered c) as [answer|] eqn:Ha.
  - apply (to_modify _ (answering None c)); [by intros st <-|]. apply to_ret. split_and!; try done.
    intros _ _. apply emitted_explain; [done|done|]. by apply Hanswer.
  - apply to_ret. split_and!; try done; [by rewrite Ha|]. intros Hdrop _. apply emitted_explain; [done|done|]. by apply Hs.
Qed.
(** The parser's own PIVOT: its enum steps, then the statement *)
Lemma to_multi t l (recur : SQLStatement → M SQLStatement) :
  metadata_only = false → (∀ s, s ∈ l → run_to start (recur s) settled) →
  run_to start
    (match split_statements l with
     | Some ((_ :: _) as steps, last) =>
         steps ← mapM rewrite_enum_step steps;
         rewritten ← recur last;
         left ← get;
         when (bool_decide (is_Some (replacement left)) || drop_statement left || negb (empty_list (follow_ups left)))
           (not_permitted last "with an implicit PIVOT");;
         note_on (entry_shape (Lower (statement_type last)) "pivot");;
         mret (MultiStatement t (map (with_text t) (steps ++ [rewritten])))
     | _ => Deny STATEMENT_TYPE "statement type MULTI is not permitted under ACL"
     end) settled.
Proof.
  intros Hmeta Hrec. destruct (split_statements l) as [[[|step steps] last]|] eqn:Hsplit; try apply to_deny.
  eapply to_step; [apply (ok_mapM _ _ emitted); intros; by apply ok_rewrite_enum_step|]. intros steps' Hsteps.
  eapply to_bind; [by eapply Hrec, split_statements_in|]. intros s' c' (Hscope & Hdepth & Hkeep & Hqueued & Hanswer & Hs').
  apply to_get. intros st Hst. rewrite /not_permitted. eapply to_step; [apply ok_refused|].
  intros [] [[Hanswered%bool_decide_eq_false Hdropped]%orb_false_iff Hempty%negb_false_iff]%orb_false_iff.
  eapply to_step; [apply ok_run; calm|]. intros _ _. apply to_ret. rewrite -Hst.
  assert (Hnone : replacement st = None) by (destruct (replacement st); [by destruct Hanswered|done]).
  rewrite -Hst in Hscope Hdepth Hkeep Hqueued Hs'. split_and!; try done; [by rewrite /= Hnone|].
  intros _ _. apply emitted_multi; [done|]. rewrite Forall_map. apply Forall_app. split; [|apply Forall_singleton].
  - eapply Forall_impl; [exact Hsteps|]. intros x. apply emitted_with_text.
  - apply emitted_with_text. by apply Hs'.
Qed.
Lemma to_RewriteStatement fuel s : statement_depth s ≤ fuel → run_to start (RewriteStatement fuel s) settled.
Proof.
  revert s. induction fuel as [|fuel IH]; intros s Hd; [destruct s; simpl in Hd; lia|]. cbn [RewriteStatement].
  eapply (to_step _ _ _ (λ _, metadata_only = true → metadata_statement s = true)).
  { eapply ok_mono; [apply ok_refused|]. intros [] E Hm. rewrite Hm in E. by apply negb_false_iff in E. }
  intros [] Hmeta.
  assert (Hquery : ∀ (wrap : Query → SQLStatement) q, (∀ q', fineQ start q' → emitted (wrap q')) →
      run_to start (q ← rewrite_query_whole q; mret (wrap q)) settled).
  { intros wrap q Hwrap. eapply to_step; [apply ok_query|]. intros q' Hq. apply to_ret, settled_start. by apply Hwrap. }
  assert (Hnot : metadata_statement s = false → metadata_only = false).
  { destruct metadata_only; [|done]. intros E. by rewrite Hmeta in E. }
  assert (Hlast : ∀ (A : Type) (wrap : A → SQLStatement) m, run_to start m (λ a c', settled (wrap a) c') →
      run_to start (a ← m; mret (wrap a)) settled).
  { intros A wrap m Hm. eapply to_bind; [exact Hm|]. intros a c' Ha. by apply to_ret. }
  destruct s as [t q|t q|t q|t q|t q|t s|t form|t info|t info|t name parameters|t name scope set_type|t|t l|t function|t type].
  - apply (Hquery (SelectStatement t)). intros q'. apply emitted_select.
  - apply (Hquery (InsertStatement t)). intros q'. by apply emitted_insert, Hnot.
  - apply (Hquery (UpdateStatement t)). intros q'. by apply emitted_update, Hnot.
  - apply (Hquery (DeleteStatement t)). intros q'. by apply emitted_delete, Hnot.
  - apply (Hquery (MergeIntoStatement t)). intros q'. by apply emitted_merge, Hnot.
  - eapply to_step; [apply ok_answered|]. intros held Hheld. eapply to_step; [apply ok_required|]. intros [] ->.
    eapply to_bind; [apply IH; simpl in Hd; lia|]. intros s' c' Hs'. by apply to_explained; [apply Hnot|..].
  - apply (Hlast _ (λ form, CreateStatement t (Some form))), to_RewriteCreateStatement. by apply Hnot.
  - apply (Hlast _ (λ info, DropStatement t (Some info))), to_RewriteDropStatement. by apply Hnot.
  - apply (Hlast _ (λ info, AlterStatement t (Some info))), to_RewriteAlterStatement. by apply Hnot.
  - eapply to_bind; [apply to_RewritePragmaStatement|]. intros [] c' Hc. by apply to_ret.
  - eapply to_bind; [apply to_RewriteSetStatement|]. intros [] c' Hc. apply to_ret, Hc.
  - apply to_ret, settled_start, emitted_transaction.
  - apply to_multi; [by apply Hnot|]. intros last Hlast'. apply IH.
    pose proof (map_depth statement_depth _ _ Hlast'). simpl in Hd. lia.
  - eapply to_bind; [apply to_RewriteCallStatement|]. intros [] c' Hc. by apply to_ret.
  - apply to_deny.
Qed.

(** ** The batch *)

(** The place a statement is taken up at: what the one before it left is put away first *)
Definition between (c : place) : Prop := in_scope c = [] ∧ described c = 0 ∧ keeping c = false.
Lemma calm_key_origin ctes name column_alias : calm (relation_origin ctes name column_alias).
Proof. rewrite /relation_origin. calm. Qed.
Hint Resolve calm_key_origin : calm.
Lemma calm_collect_relations ctes ref : calm (collect_relations ctes ref).
Proof. revert ref. fix IH 1. intros []; cbn [collect_relations]; calm. Qed.
Hint Resolve calm_collect_relations : calm.
Lemma calm_ResultOrigins q : calm (ResultOrigins q).
Proof. rewrite /ResultOrigins. calm. Qed.
Hint Resolve calm_ResultOrigins : calm.

Lemma steady_relation_origin ctes name column_alias : steady place_of (relation_origin ctes name column_alias).
Proof. rewrite /relation_origin /Key /use_in_force /UseCatalog /PrincipalMain /HoldsCatalog. steady. Qed.
Lemma steady_collect_relations ctes ref : steady place_of (collect_relations ctes ref).
Proof.
  revert ref. fix IH 1. intros []; cbn [collect_relations]; try by intros ?.
  - apply steady_bind; [apply steady_relation_origin|]. by intros origin s.
  - apply steady_bind; [apply IH|]. intros lhs'. apply steady_bind; [apply IH|]. by intros rhs' s.
Qed.
Lemma calm_note_origins s : calm (note_origins s).
Proof.
  rewrite /note_origins. destruct s; try apply calm_ret. case_match; [|apply calm_ret]. apply calm_catch; [calm|calm|].
  intros st. apply steady_fails, steady_bind.
  - rewrite /ResultOrigins. case_match; try by intros ?. apply steady_bind; [|by intros ? ?].
    case_match; [apply steady_collect_relations|by intros ?].
  - intros origins. rewrite /note_on. apply steady_bind; [by intros ?|]. intros [e|]; [|by intros ?].
    apply steady_bind; [by intros ?|]. by intros before st'.
Qed.
Lemma calm_open_entry s : calm (open_entry s).
Proof. rewrite /open_entry /NoteUseInForce. calm. Qed.
Hint Resolve calm_note_origins calm_open_entry : calm.

Definition passes (s : SQLStatement) : Prop := emitted s ∨ is_record s.
(** What goes on of a statement settled at a place *)
Definition outputs (s : SQLStatement) (c : place) : list SQLStatement :=
  match answered c with Some answer => [answer] | None => if dropped c then [] else [s] end ++ queued c.
Lemma settled_passes s c : settled s c → Forall passes (outputs s c).
Proof.
  intros (_ & _ & _ & Hqueued & Hanswer & Hs). apply Forall_app. split.
  - destruct (answered c) as [a|] eqn:Ha; [apply Forall_singleton; left; by apply Hanswer|].
    destruct (dropped c) eqn:Hd; [constructor|]. apply Forall_singleton. left. by apply Hs.
  - eapply Forall_impl; [exact Hqueued|]. intros x Hx. by right.
Qed.
Lemma to_rewrite_one c s (Q : SQLStatement → place → Prop) :
  run_to start (rewrite_statement_whole s) Q → between c →
  run_to c (rewrite_one s) (λ l c', ∃ r, Q r c' ∧ l = outputs r c').
Proof.
  intros Hs (Hscope & Hdepth & Hkeep). rewrite /rewrite_one. apply (to_modify _ {| in_scope := []; described := 0; dropped := dropped c;
    answered := answered c; queued := []; keeping := false |}); [intros st <-; by rewrite -Hscope -Hdepth -Hkeep|].
  apply (to_modify _ {| in_scope := []; described := 0; dropped := false; answered := answered c; queued := [];
    keeping := false |});
    [intros st [=]; rewrite /place_of /=; congruence|].
  apply (to_modify _ start); [intros st [=]; rewrite /start /place_of /=; congruence|].
  eapply to_step; [apply ok_run; calm|]. intros _ _. eapply to_bind; [exact Hs|]. intros rewritten c' Hr.
  eapply to_step; [apply ok_run; calm|]. intros _ _. apply to_get. intros st Hst.
  eapply to_step; [apply ok_run; calm|]. intros _ _. apply to_ret. exists rewritten. rewrite -Hst in Hr |- *. by split.
Qed.
Lemma to_mapM {A C} (f : A → M C) (I : place → Prop) (Q : C → Prop) l c :
  (∀ x c, I c → run_to c (f x) (λ b c', I c' ∧ Q b)) → I c → run_to c (mapM f l) (λ bs c', I c' ∧ Forall Q bs).
Proof.
  intros Hf. revert c. induction l as [|x l IH]; intros c Hc; [by apply to_ret|]. cbn [mapM].
  eapply to_bind; [by apply Hf|]. intros b c' [Hc' Hb]. eapply to_bind; [by apply IH|]. intros bs c2 [Hc2 Hbs].
  apply to_ret. split; [done|by constructor].
Qed.
Lemma to_RewriteStatements c l : between c → run_to c (RewriteStatements l) (λ l' c', between c' ∧ Forall sent l').
Proof.
  intros Hc. rewrite /RewriteStatements. eapply to_bind; [apply (to_mapM _ between (Forall passes)); [intros s c0 Hc0|exact Hc]|].
  { eapply to_mono; [apply to_rewrite_one; [by apply to_RewriteStatement|done]|]. intros l0 c' (r & Hr & ->).
    split; [by destruct Hr as (? & ? & ? & _)|by apply settled_passes]. }
  intros ls c' [Hc' Hls]. assert (Hall : Forall sent (concat ls)).
  { apply Forall_concat. eapply Forall_impl; [exact Hls|]. intros l0 Hl0. eapply Forall_impl; [exact Hl0|].
    intros s [?|?]; [by left|by right; left]. }
  destruct (concat ls) as [|s ls'] eqn:E; [|by apply to_ret]. destruct l; [by apply to_ret|].
  eapply to_step; [apply ok_parsed|]. intros [|s' rest] Hparsed; [by intros st Hst|]. apply to_ret. split; [done|].
  apply Forall_singleton. right. right. by exists rest.
Qed.

(** *** CREATE TABLE and its record *)
Definition created_at (info : CreateInfo) (target : DdlTarget) : string :=
  ChildKey (phys_schema target) (Tree.Name (create_name info)).
Definition registers (function : string) (info : CreateInfo) (target : DdlTarget) : SQLStatement :=
  AclRecord function (register_arguments target (created_at info target)).
(** What becomes of it: nothing, where the name is taken and it says IF NOT EXISTS; the record of a table that is there
    already; the table, and its record right behind it where the schema keeps one *)
Inductive creates (t : string) (info : CreateInfo) : list SQLStatement → Prop :=
  | creates_nothing : ignores info = true → creates t info []
  | creates_record key target :
      lands_in "create" key target → virtual_only target = true → creates t info [registers "acl_register_existing" info target]
  | creates_table key target info' columns constraints body :
      lands_in "create" key target → virtual_only target = false →
      KeyToQualified id (created_at info target) = Ok (create_name info') →
      creates t info (CreateStatement t (Some (CreateTable info' columns constraints body))
        :: if needs_record target then [registers "acl_register_created" info target] else []).
Lemma ok_AdmitRecordConflict c info vcat key : run_ok c (AdmitRecordConflict info vcat key) (λ b, b = false → ignores info = true).
Proof.
  rewrite /AdmitRecordConflict. run. intros taken _. destruct taken; simpl; [|by apply ok_ret].
  destruct (ignores info); [by apply ok_ret|]. run. intros _ _. by apply ok_ret.
Qed.
Lemma to_created t info columns constraints body :
  run_to start (RewriteCreateTable info columns constraints body)
    (λ form c', creates t info (outputs (CreateStatement t (Some form)) c')).
Proof.
  rewrite /RewriteCreateTable. eapply to_step; [apply ok_body|]. intros body' _.
  eapply to_step; [apply ok_RewriteColumnDefinitions|]. intros [columns' constraints'] _. cbv zeta.
  eapply to_step; [apply ok_run; calm|]. intros key _. eapply to_step; [apply ok_create_home|]. intros target Htarget.
  do 2 (eapply to_step; [apply ok_run; calm|]; intros _ _). eapply to_step; [apply ok_refused|]. intros _ _.
  eapply to_step; [apply ok_RequireReplaceDroppable|]. intros [] _.
  eapply to_step; [apply ok_AdmitRecordConflict|]. intros [] Hproceed; cbn [negb].
  2: { apply to_dropped. by apply creates_nothing, Hproceed. }
  destruct (virtual_only target) eqn:Hvirtual; [apply to_dropped_recorded; by eapply creates_record|].
  eapply to_step; [apply ok_ParsePhysName|]. intros name Hname.
  destruct (needs_record target) eqn:Hrecord; [apply to_recorded|]; apply to_ret; rewrite /outputs /=.
  - pose proof (creates_table t info key target) as Hc. rewrite Hrecord in Hc. apply Hc; [done..|]. by case_match.
  - pose proof (creates_table t info key target) as Hc. rewrite Hrecord in Hc. by apply Hc.
Qed.
Lemma to_create_statement t info columns constraints body :
  temporary info = false →
  run_to start (rewrite_statement_whole (CreateStatement t (Some (CreateTable info columns constraints body))))
    (λ s c', creates t info (outputs s c')).
Proof.
  intros Htemp. rewrite /rewrite_statement_whole. cbn [statement_depth RewriteStatement].
  eapply to_step; [apply ok_run; rewrite /MetadataOnly; calm|]. intros _ _. cbn [RewriteCreateStatement]. rewrite Htemp.
  eapply to_bind; [apply (to_created t)|]. intros form c' Hform. by apply to_ret.
Qed.
End batch.
