(* ===== verification/RewriterSample.v ===== *)
(** * A small world to rewrite in

    A principal of one catalog, its grants and a parser of a few texts: what the rewriter's witnesses and findings are
    evaluated over. *)
From S2P Require Import AdminRights.
From S2P Require Import Prelude NamePath FieldPaths FunctionCategories PolicyTypes Platform Token Tree RewriteData RewriteDml.
From S2P Require Import RewriteRefs Rewriter RewriteDdl.

#[export] Existing Instance reference_string_util.

Definition column (name : string) : Expr := ColumnRef EmptyString [name].
Definition text (s : string) : Expr := Constant EmptyString (VText s).
Definition equal (a b : Expr) : Expr := Operation EmptyString COMPARE_EQUAL [a; b].
Definition table (name : QualifiedName) : TableRef := BaseTable EmptyString name [] None None.

(** [region = acl_claim('region')] *)
Definition region_predicate : Expr := equal (column "region") (plain_call "acl_claim" [text "region"]).
(** [EXISTS (SELECT 1 FROM homes WHERE home = region)] *)
Definition homes_predicate : Expr :=
  Subquery EmptyString "EXISTS" None
    (Some (SelectNode [] [] [Constant EmptyString (VInteger 1)] (Some (table [""; ""; "homes"]))
             (Some (equal (column "home") (column "region"))) None None [])).

Definition query_parts (q : Query) : list Expr :=
  match q with
  | SelectNode _ _ items _ where_ having qualify groups =>
      items ++ option_list where_ ++ option_list having ++ option_list qualify ++ groups
  | _ => []
  end.
(** The next part, for a clause that is there *)
Definition next (o : option Expr) (l : list Expr) : option Expr * list Expr :=
  match o, l with Some _, e :: l => (Some e, l) | _, _ => (None, l) end.
Definition query_rebuild (q : Query) (parts : list Expr) : Query :=
  match q with
  | SelectNode c m items from where_ having qualify groups =>
      let w := next where_ (drop (length items) parts) in
      let h := next having w.2 in
      let y := next qualify h.2 in
      SelectNode c m (take (length items) parts) from w.1 h.1 y.1 y.2
  | _ => q
  end.
Lemma next_parts o l n :
  length l = length (option_list o) + n → option_list (next o l).1 ++ (next o l).2 = l ∧ length (next o l).2 = n.
Proof. destruct o, l; simpl; intros [=]; done. Qed.
#[export] Instance sample_parsing : Parsing := {|
  ParseQuery sql :=
    if String.eqb sql ("SELECT true AS " +:+ quoted "Success" +:+ " WHERE false") then
      Ok [SelectStatement EmptyString (SelectNode [] [] [Constant "Success" (VBoolean true)] None
            (Some (Constant EmptyString (VBoolean false))) None None [])]
    else if String.eqb sql "SELECT own rows" then
      Ok [SelectStatement EmptyString (SelectNode [] [] [star_all] (Some (table ["memory"; "main"; "orders_t"]))
            (Some region_predicate) None None [])]
    else if String.eqb sql "LISTING" then Ok [SelectStatement EmptyString (select_from [star_all] (table ["listing"]))]
    else Throw "syntax error";
  ParseExpressionList sql :=
    if String.eqb sql "region = acl_claim('region')" then Ok [region_predicate]
    else if String.eqb sql "EXISTS homes" then Ok [homes_predicate]
    else if String.eqb sql "acl_claim('region')" then Ok [plain_call "acl_claim" [text "region"]]
    else Throw "syntax error";
  expression_name e := match e with Function _ name _ _ _ _ => Tree.Name name | _ => "expr" end;
  expression_text _ := "expression";
  query_text _ := "query";
  name_text := join ".";
  statement_type s := match s with SelectStatement _ _ => "SELECT" | _ => "OTHER" end;
  value_integer v := match v with VInteger z => Ok z | _ => Throw "no integer" end;
  node_parts := query_parts;
  node_rebuild := query_rebuild;
  StatementTextHash text := N.of_nat (String.length text);
|}.
#[export] Instance sample_parsing_laws : ParsingLaws.
Proof.
  split; [|by intros c []| |].
  2: { intros [] parts; simpl; try by destruct parts. rewrite !length_app. intros Hlen.
    destruct (next_parts where_clause (drop (length items) parts) (length (option_list having) +
      (length (option_list qualify) + length groups))) as [Hw Hw']; [rewrite length_drop; lia|].
    destruct (next_parts having (next where_clause (drop (length items) parts)).2 _ Hw') as [Hh Hh'].
    destruct (next_parts qualify _ _ Hh') as [Hy _]. by rewrite Hy Hh Hw take_drop. }
  2: { by intros []. }
  intros [] e; simpl; try by intros ?%elem_of_nil. rewrite !elem_of_app.
  assert (Hl : ∀ l, e ∈ l → depth e ≤ deepest (map depth l)).
  { induction l as [|x l IH]; simpl; [by intros ?%elem_of_nil|]. intros [-> |He]%elem_of_cons; [lia|]. specialize (IH He). lia. }
  assert (Ho : ∀ o, e ∈ option_list o → depth e ≤ opt_depth depth o).
  { intros [x|]; simpl; [|by intros ?%elem_of_nil]. by intros ->%list_elem_of_singleton. }
  intros [He%Hl|[He%Ho|[He%Ho|[He%Ho|He%Hl]]]]; lia.
Qed.

(** [orders] of the catalog [sales]: read and written under a predicate, [region] assigned from the claim *)
Definition orders_policy : TablePolicy := {|
  subquery_form := false; phys := "memory.main.orders_t"; canonical := "sales.main.orders"; projection := [];
  rls := "region = acl_claim('region')"; rls_unchecked := false; query := EmptyString; is_view := false;
  wrap_sql := EmptyString; caps := ["select"; "insert"; "update"; "delete"]; renames := []; writable := true;
  from_schema_alias := false; returning_refused := EmptyString; capability_rows_read := true;
  injections := [("region", "acl_claim('region')")]; write_columns := ["id"; "amount"; "region"];
  write_order := ["id"; "amount"; "region"]; visible_columns := []; narrowed_reads := []; field_writes := []; casts := [];
  granted_items := [] |}.
(** [orders] as it is read: through the SQL the grant makes of its predicate *)
Definition orders_read : TablePolicy := {|
  subquery_form := true; phys := "memory.main.orders_t"; canonical := "sales.main.orders"; projection := [];
  rls := EmptyString; rls_unchecked := false; query := "SELECT own rows"; is_view := false; wrap_sql := EmptyString;
  caps := ["select"]; renames := []; writable := false; from_schema_alias := false; returning_refused := EmptyString;
  capability_rows_read := true; injections := []; write_columns := []; write_order := []; visible_columns := [];
  narrowed_reads := []; field_writes := []; casts := []; granted_items := [] |}.
(** One under a predicate that reads [region] inside a subquery, with no columns assigned *)
Definition homes_policy : TablePolicy := {|
  subquery_form := false; phys := "memory.main.homes_t"; canonical := "sales.main.homed"; projection := [];
  rls := "EXISTS homes"; rls_unchecked := false; query := EmptyString; is_view := false;
  wrap_sql := EmptyString; caps := ["select"; "update"]; renames := []; writable := true;
  from_schema_alias := false; returning_refused := EmptyString; capability_rows_read := true;
  injections := []; write_columns := []; write_order := []; visible_columns := ["id"; "region"]; narrowed_reads := [];
  field_writes := []; casts := []; granted_items := [] |}.
(** A virtual scalar function over a physical one *)
Definition alias_function : TablePolicy := {|
  subquery_form := false; phys := "memory.main.total"; canonical := EmptyString; projection := []; rls := EmptyString;
  rls_unchecked := false; query := EmptyString; is_view := false; wrap_sql := EmptyString; caps := ["select"];
  renames := []; writable := false; from_schema_alias := false; returning_refused := EmptyString;
  capability_rows_read := true; injections := []; write_columns := []; write_order := []; visible_columns := [];
  narrowed_reads := []; field_writes := []; casts := []; granted_items := [] |}.
(** Where [sales.main] keeps its tables *)
Definition sales_home (name : string) : DdlTarget := {|
  vcat := "sales"; vname := name; schema_path := "main"; phys_schema := "memory.main"; needs_record := true;
  virtual_only := false; origin := "grant" |}.

Definition system_function (name : string) : FunctionDecision := {|
  verdict := ADMITTED; key := {| database := "system"; schema := "main"; fname := name; kind := SCALAR |};
  category := "plain"; decided_by := "grant" |}.
#[export] Instance sample_source : PolicySource := {|
  ResolveTable _ key capability :=
    Answered (if String.eqb key "orders" then Some (if String.eqb capability "select" then orders_read else orders_policy)
              else if String.eqb key "homed" then Some homes_policy else None);
  ResolveTableFunction _ _ := Answered None;
  ResolveScalarFunction _ key := Answered (if String.eqb key "total" then Some alias_function else None);
  ResolveFunction _ name _ := Answered (system_function (Tree.Name name));
  ResolveDdlTarget _ key _ := Answered (if String.eqb key "orders" then None else Some (sales_home key));
  ResolveHeldSchema _ _ := Answered None;
  PrincipalCatalogs _ := Answered ["sales"];
  PrincipalMainCatalog _ := Answered "sales";
  PrincipalMainCap _ capability := Answered (String.eqb capability "temp");
  PrincipalCatalogsWithCap _ _ := Answered [];
  CatalogObjectExists _ _ _ := Answered false;
  CatalogRelationDeclared _ _ := Answered false;
  SpellName _ name _ := Answered name;
  MetadataListing _ _ _ := Answered (Some "LISTING");
  PrincipalFunctionColumnsSql _ := Answered "LISTING";
  MetadataMaxRows := 0;
  SystemTypeExists name := Answered (String.eqb name "integer");
  SecretService _ := Answered "vault";
  SecretServiceAttached := Answered false;
  ClusterNode := false;
  SessionUseOf _ := (EmptyString, EmptyString);
  SessionDoorOf _ := "flight";
  AdminRightsOf _ := Answered AdminRights.no_rights;
  PlatformViewSql _ _ := Answered None;
  PlatformReadFunctionSql _ _ _ _ := Answered None;
|}.
#[export] Instance no_json : JsonReader := {| read_json _ := None; through_double z := z |}.

Definition seller : client := {|
  who := {| issuer := "https://idp"; subject := "ann"; roles := ["seller"]; claims := [("region", "eu")] |};
  session := "s1"; session_connection := true; ingest_stream := EmptyString; arrow_ingest := false |}.
Definition a_batch (metadata : bool) : Batch := {|
  platform := {| Views := []; Functions := [] |}; principal := seller; metadata_only := metadata;
  TempScanContext := Some {| TempCatalogHas := String.eqb "scratch"; TempCatalogNames := ["scratch"] |};
  listening := true; noting_origins := true |}.
(** Where a statement's rewrite begins *)
Definition a_state : State := {|
  cte_scope := []; listing_where := None; describing := 0; use_catalog := EmptyString; use_schema := EmptyString;
  dml_target_name := EmptyString; dml_read_policy := no_policy; keep_claim_markers := false; replacement := None;
  drop_statement := false; follow_ups := []; entries := []; trail := None; last_deny_reason := EmptyString;
  ingest_factory := false; traces := []; drains := [] |}.
