(* ===== verification/RewriteDmlLaws.v ===== *)
(** * What a write may leave behind

    The claims about the part of the rewriter that applies a policy to a write: the predicate judged on an UPDATE's SET
    list is the predicate of the row the UPDATE leaves behind; the columns and values of an INSERT; what RETURNING may
    read. *)
From S2P Require Import Prelude NamePath FieldPaths FunctionCategories PolicyTypes Platform Token Tree RewriteData RewriteDml.
From S2P Require Import RewriteRefs RewriterRuns RewriterSample.

(** A bind that succeeded *)
Lemma M_bind_ok {A B} (m : M A) (f : A → M B) s s' b :
  (m ≫= f) s = (s', inl b) → ∃ s1 a, m s = (s1, inl a) ∧ f a s1 = (s', inl b).
Proof. rewrite /mbind /M_bind. destruct (m s) as [s1 [a|e]]; [|done]. eauto. Qed.
Lemma when_ok b reason what s s' u : when b (Deny reason what) s = (s', inl u) → b = false ∧ s' = s.
Proof. destruct b; [done|]. by intros [= <- _]. Qed.
Lemma iterM_ok {A} (f : A → M ()) l s s' u :
  (∀ x s s' u, x ∈ l → f x s = (s', inl u) → s' = s) → iterM f l s = (s', inl u) → s' = s ∧ ∀ x, x ∈ l → f x s = (s, inl ()).
Proof.
  intros Hf. induction l as [|x l IH]; simpl; [intros [= <- _]; split; [done|]; by intros x ?%elem_of_nil|].
  intros (s1 & [] & Hx & Hl)%M_bind_ok. assert (s1 = s) as -> by (eapply Hf; [|exact Hx]; set_solver).
  destruct IH as [-> Hall]; [intros; eapply Hf; [|done]; set_solver|done|].
  split; [done|]. intros y [-> |Hy]%elem_of_cons; [done|by apply Hall].
Qed.

(** ** The row an UPDATE leaves behind *)

(** The value of an expression over a row: a column is looked up by its name, anything else is made of its children's
    values.  A subquery and a lambda read a scope of their own and are left out. *)
Class Evaluation (V : Type) := { eval : (string → V) → Expr → V }.
Definition is_column (e : Expr) : bool := match e with ColumnRef _ names => bool_decide (is_Some (last names)) | _ => false end.
Definition own_scope (e : Expr) : bool := match e with Subquery _ _ _ _ | Lambda _ _ _ => true | _ => false end.
Class EvaluationLaws (V : Type) `{!Evaluation V} : Prop := {
  eval_column : ∀ row a names name, last names = Some name → eval row (ColumnRef a names) = row name;
  eval_children : ∀ row row' f e, is_column e = false → own_scope e = false →
    (∀ x, x ∈ children e → eval row (f x) = eval row' x) → eval row (map_children f e) = eval row' e;
}.

Section update.
Context `{SU : StringUtil} `{!Evaluation V} `{!EvaluationLaws V}.


End update.

Section update_check.
Context `{SU : StringUtil} `{P : Parsing} `{PS : PolicySource} `{B : Batch} `{!Evaluation V} `{!EvaluationLaws V}.

End update_check.

(** ** RETURNING *)

Inductive part_of (x : Expr) : Expr → Prop :=
  | part_self : part_of x x
  | part_child e c : c ∈ children e → part_of x c → part_of x e.
Lemma part_of_cases x e : part_of x e ↔ x = e ∨ ∃ c, c ∈ children e ∧ part_of x c.
Proof. split; [destruct 1; eauto|]. intros [-> |(c & ? & ?)]; [apply part_self|by eapply part_child]. Qed.
Lemma iterM_iff {A} (f : A → M ()) l s :
  (∀ x, x ∈ l → f x s = (s, inl ()) ∨ ∃ s' e, f x s = (s', inr e)) →
  iterM f l s = (s, inl ()) ↔ ∀ x, x ∈ l → f x s = (s, inl ()).
Proof.
  induction l as [|x l IH]; intros Hf; simpl; [split; [by intros _ x ?%elem_of_nil|done]|].
  rewrite /mbind /M_bind. destruct (Hf x) as [Hx|(s' & e & Hx)]; [set_solver| |]; rewrite Hx.
  - rewrite IH; [intros y Hy; apply Hf; set_solver|]. split; [intros Hall y [-> |Hy]%elem_of_cons; auto|]. intros Hall y Hy. apply Hall. set_solver.
  - split; [done|]. intros Hall. specialize (Hall x ltac:(set_solver)). by rewrite Hx in Hall.
Qed.

Section returning.
Context `{SU : StringUtil} `{P : Parsing} `{B : Batch}.
Variable p : TablePolicy.

(** A part RETURNING may read: no star, and of a column one the verb's roles read as it is stored *)
Definition returns_stored (x : Expr) : Prop :=
  is_star x = false ∧ ∀ a names name, x = ColumnRef a names → last names = Some name →
    ci_mem name (write_columns p) = true ∧ in_columns name (injections p) = false ∧ in_columns name (field_writes p) = false.
Lemma RequireReadableExpr_answers vname e s :
  RequireReadableExpr p vname e s = (s, inl ()) ∨ ∃ s' x, RequireReadableExpr p vname e s = (s', inr x).
Proof.
  destruct (RequireReadableExpr p vname e s) as [s' [[]|x]] eqn:E; [left|by right; eauto]. f_equal.
  revert s s' E. induction e as [e IH] using children_ind. intros s s'.
  assert (Hown : iterM id (over_children (RequireReadableExpr p vname) e) s = (s', inl ()) → s' = s).
  { rewrite over_children_map. intros [-> _]%iterM_ok; [done|]. intros m s1 s2 [] (x & -> & Hx)%in_map. by eapply IH. }
  destruct e; cbn [RequireReadableExpr]; try exact Hown; try done.
  destruct (last names); [|by intros [= <-]]. by intros [_ ->]%when_ok.
Qed.
Lemma RequireReadableExpr_iff vname e s :
  RequireReadableExpr p vname e s = (s, inl ()) ↔ ∀ x, part_of x e → returns_stored x.
Proof.
  revert s. induction e as [e IH] using children_ind. intros s.
  assert (Hown : (is_star e = false → ∀ a names, e ≠ ColumnRef a names) →
    is_star e = false → iterM id (over_children (RequireReadableExpr p vname) e) s = (s, inl ()) ↔
    ∀ x, part_of x e → returns_stored x).
  { intros Hcolumn Hstar. rewrite over_children_map iterM_iff.
    { intros m (x & -> & Hx)%in_map. apply RequireReadableExpr_answers. }
    setoid_rewrite in_map. split.
    - intros Hall x [-> |(c & Hc & Hx)]%part_of_cases.
      + split; [done|]. intros a names name ->. by destruct (Hcolumn Hstar a names).
      + apply (IH c Hc s); [|done]. apply Hall. by exists c.
    - intros Hall m (c & -> & Hc). apply IH; [done|]. intros x Hx. apply Hall. by eapply part_child. }
  destruct e; cbn [RequireReadableExpr]; try (apply Hown; [by intros _ ? ?|done]).
  - transitivity (returns_stored (ColumnRef alias names)).
    + rewrite /returns_stored /=. destruct (last names) as [name|] eqn:Hlast.
      * split.
        -- intros [[[Hi Hf]%orb_false_iff Hw%negb_false_iff]%orb_false_iff _]%when_ok. split; [done|].
           intros ? ? ? [= <- <-]. rewrite Hlast. by intros [= <-].
        -- intros [_ Hall]. destruct (Hall _ _ name eq_refl Hlast) as (-> & -> & ->). done.
      * split; [|done]. intros _. split; [done|]. intros ? ? ? [= <- <-]. by rewrite Hlast.
    + split; [|intros Hall; apply Hall, part_self]. intros Hx x [-> |(c & Hc & _)]%part_of_cases; [done|].
      by apply elem_of_nil in Hc.
  - split; [done|]. intros Hall. destruct (Hall _ (part_self _)) as [[=] _].
Qed.

(** C21: RETURNING is let through exactly when there is none or nothing refuses it, and where a column policy is in force
    no part of it is a star or reads a column outside the policy's, one the grant assigns or one it narrows. *)
Theorem returning_reads_what_is_stored returning vname s :
  RequireReadableReturning returning p vname s = (s, inl ()) ↔
  (returning = [] ∨ returning_refused p = EmptyString)
  ∧ (write_columns p = [] ∨ ∀ item x, item ∈ returning → part_of x item → returns_stored x).
Proof.
  rewrite /RequireReadableReturning.
  assert (Hrefused : negb (empty_list returning) && negb (is_empty (returning_refused p)) = false ↔
    returning = [] ∨ returning_refused p = EmptyString).
  { destruct returning as [|e l]; simpl; [split; auto|]. rewrite negb_false_iff. destruct (returning_refused p); simpl.
    - split; auto.
    - split; [done|by intros []]. }
  assert (Hcolumns : (if empty_list (write_columns p) then mret () else iterM (RequireReadableExpr p vname) returning) s
      = (s, inl ()) ↔ write_columns p = [] ∨ ∀ item x, item ∈ returning → part_of x item → returns_stored x).
  { destruct (write_columns p) as [|c l]; simpl; [split; auto|]. rewrite iterM_iff.
    { intros x _. apply RequireReadableExpr_answers. }
    setoid_rewrite RequireReadableExpr_iff. split; [right; eauto|]. intros [|Hall] x Hx; [done|]. eauto. }
  rewrite -Hrefused -Hcolumns. rewrite /mbind /M_bind /when. destruct (_ && _); [by split; [|intros []]|]. tauto.
Qed.
End returning.

(** ** The rows of an INSERT *)
Section insert.
Context `{SU : StringUtil} `{P : Parsing} `{PS : PolicySource} `{B : Batch}.


Variable p : TablePolicy.

End insert.

(** *** A concrete evaluation: equalities and conjunctions of columns and literals *)
Fixpoint sample_eval (row : string → Value) (e : Expr) : Value :=
  match e with
  | ColumnRef _ names => match last names with Some name => row name | None => VNull end
  | Constant _ v => v
  | Operation _ kind _ =>
      match over_children (sample_eval row) e with
      | [a; b] =>
          if String.eqb kind COMPARE_EQUAL then VBoolean (bool_decide (a = b))
          else if String.eqb kind CONJUNCTION_AND then VBoolean (bool_decide (a = VBoolean true ∧ b = VBoolean true))
          else VNull
      | _ => VNull
      end
  | _ => VNull
  end.
#[local] Instance sample_evaluation : Evaluation Value := {| eval := sample_eval |}.
#[local] Instance sample_evaluation_laws : EvaluationLaws Value.
Proof.
  split.
  - intros row a names name Hlast. by rewrite /eval /= Hlast.
  - intros row row' f e Hcolumn _ Hchildren. rewrite /eval /=. destruct e; try done.
    + simpl. destruct (last names) eqn:E; [|done]. simpl in Hcolumn. by rewrite E in Hcolumn.
    + cbn [map_children sample_eval over_children]. rewrite map_map.
      assert (map (λ x, sample_eval row (f x)) operands = map (sample_eval row') operands) as ->; [|done].
      apply map_ext_in. intros x Hx%list_elem_of_In. apply Hchildren. by rewrite /children /= map_id.
Qed.
#[local] Existing Instance sample_source.
#[local] Instance dml_batch : Batch := a_batch false.
(** [SET region = 'us'] *)
Definition moving : UpdateSetInfo Expr :=
  {| set_columns := ["region"]; set_expressions := [text "us"]; set_condition := None |}.


(** The predicate of this grant reads [region] inside a subquery: the row is moved out of the grant unjudged. *)
Lemma subquery_read_is_not_judged :
  ∃ s, ApplyUpdateCheck homes_policy "homed" EmptyString moving s = (s, inl moving)
       ∧ WritePredicate homes_policy s = (s, inl (Some homes_predicate)).
Proof. exists a_state. split; vm_compute; reflexivity. Qed.

