(* ===== verification/RewriteRefsLaws.v ===== *)
(** * A metadata query is narrowed only by what its WHERE requires

    The scope [ScopeOf] reads off a WHERE: every row the WHERE keeps is a row of the narrowed listing. *)
From S2P Require Import Prelude NamePath FieldPaths FunctionCategories PolicyTypes Platform Token Tree RewriteData RewriteDml.
From S2P Require Import RewriteRefs RewriterRuns RewriterSample.

(** ** LIKE *)

(** SQL's LIKE with an escape character *)
Inductive like (escape : option ascii) : string → string → Prop :=
  | like_end : like escape EmptyString EmptyString
  | like_escaped c d p s : escape = Some c → like escape p s → like escape (String c (String d p)) (String d s)
  | like_many p s t : escape ≠ Some "%"%char → like escape p s → like escape (String "%" p) (t +:+ s)
  | like_one d p s : escape ≠ Some "_"%char → like escape p s → like escape (String "_" p) (String d s)
  | like_same c p s :
      escape ≠ Some c → c ≠ "%"%char → c ≠ "_"%char → like escape p s → like escape (String c p) (String c s).
Lemma exact_pattern_escaped escape c d p :
  escape = Some c → exact_pattern escape (String c (String d p)) = String d <$> exact_pattern escape p.
Proof. intros ->. cbn [exact_pattern]. by rewrite bool_decide_eq_true_2. Qed.
Lemma exact_pattern_plain escape c p :
  escape ≠ Some c → exact_pattern escape (String c p) =
    if Ascii.eqb c "%" || Ascii.eqb c "_" then None else String c <$> exact_pattern escape p.
Proof. intros Hc. cbn [exact_pattern]. destruct p; [done|]. by rewrite bool_decide_eq_false_2. Qed.
(** A pattern without a wildcard matches the one text *)
Lemma exact_pattern_is_like escape p s v : like escape p s → exact_pattern escape p = Some v → s = v.
Proof.
  intros Hlike. revert v. induction Hlike as [|c d p s Hc _ IH|p s t Hc _ _|d p s Hc _ _|c p s Hc H1 H2 _ IH]; intros v.
  - by intros [= <-].
  - rewrite exact_pattern_escaped //. destruct (exact_pattern escape p) as [w|]; [|done]. intros [= <-]. by rewrite (IH w).
  - by rewrite exact_pattern_plain.
  - by rewrite exact_pattern_plain.
  - rewrite exact_pattern_plain //. destruct (Ascii.eqb_spec c "%"), (Ascii.eqb_spec c "_"); try done. simpl.
    destruct (exact_pattern escape p) as [w|]; [|done]. intros [= <-]. by rewrite (IH w).
Qed.

(** ** A row of a listing under a WHERE *)

(** What a row makes true, and the text an expression has over it - none for a NULL; [cell]: its columns, by folded name *)
Class Row := {
  truth : Expr → Prop;
  term : Expr → option string;
  cell : string → option string;
}.
Class RowLaws `{SU : StringUtil} `{Row} (alias : string) : Prop := {
  truth_and : ∀ a l e, truth (Operation a CONJUNCTION_AND l) → e ∈ l → truth e;
  truth_equal : ∀ a x y, truth (Operation a COMPARE_EQUAL [x; y]) → ∃ v, term x = Some v ∧ term y = Some v;
  truth_in : ∀ a x items, truth (Operation a COMPARE_IN (x :: items)) → ∃ v y, y ∈ items ∧ term x = Some v ∧ term y = Some v;
  truth_like : ∀ a name k x k' y d f o, truth (Function a name [(k, x); (k', y)] d f o) → Tree.Name name = "~~" →
    ∃ v p, term x = Some v ∧ term y = Some p ∧ like None p v;
  truth_like_escape : ∀ a name k x k' y k'' z d f o,
    truth (Function a name [(k, x); (k', y); (k'', z)] d f o) → Tree.Name name = "like_escape" →
    ∃ v p, term x = Some v ∧ term y = Some p ∧ (∀ c, term z = Some (str1 c) → like (Some c) p v);
  term_constant : ∀ e v, constant_text e = Some v → term e = Some v;
  term_column : ∀ a column, term (ColumnRef a [column]) = cell (Lower column);
  term_qualified : ∀ a relation column,
    CIEquals relation alias = true → term (ColumnRef a [relation; column]) = cell (Lower column);
}.

Section narrowing.
Context `{SUL : StringUtilLaws} `{R : Row} (surface alias : string) `{RL : !RowLaws alias}.

(** The row is one the narrowed listing has: in each dimension that is narrowed, a column of it holds a value asked for *)
Definition in_listing (s : ListingScope) : Prop := ∀ at_, narrowed_by s at_ ≠ [] →
  ∃ column v, (column, at_) ∈ narrowing_columns surface ∧ cell (Lower column) = Some v ∧ Lower v ∈ narrowed_by s at_.

Lemma ci_find_in {A} (column : string) (l : list (string * A)) x :
  ci_find column l = Some x → ∃ c, (c, x) ∈ l ∧ Lower c = Lower column.
Proof.
  induction l as [|[c y] l IH]; simpl; [done|]. destruct (CIEquals c column) eqn:E.
  - intros [= <-]. exists c. split; [by left|by apply CIEquals_true].
  - intros (c' & ? & ?)%IH. exists c'. split; [by right|done].
Qed.
Lemma column_of_cell e at_ v : column_of surface alias e = Some at_ → term e = Some v →
  ∃ column, (column, at_) ∈ narrowing_columns surface ∧ cell (Lower column) = Some v.
Proof.
  destruct e as [a names| | | | | | | | |]; try done. destruct names as [|c [|c' [|]]]; try done; simpl.
  - rewrite term_column. intros (c0 & Hin & Hc)%ci_find_in Hv. exists c0. by rewrite Hc.
  - destruct (CIEquals c alias) eqn:Hr; [|done]. rewrite term_qualified //. intros (c0 & Hin & Hc)%ci_find_in Hv.
    exists c0. by rewrite Hc.
Qed.
Lemma narrowed_by_narrow at_ at' values s :
  narrowed_by (narrow at_ values s) at' = match at_, at' with
                                          | CATALOGS, CATALOGS | SCHEMAS, SCHEMAS | TABLES, TABLES | OBJECTS, OBJECTS => values
                                          | _, _ => narrowed_by s at'
                                          end.
Proof. by destruct at_, at'. Qed.
Lemma in_listing_take e v values s :
  in_listing s → term e = Some v → v ∈ values → in_listing (take_values (column_of surface alias e) values s).
Proof.
  intros Hs Hv Hin. rewrite /take_values. destruct (column_of surface alias e) as [at_|] eqn:Hcolumn; [|done].
  destruct (_ && _); [|done]. destruct (column_of_cell e at_ v Hcolumn Hv) as (column & Hc & Hcell). intros at'.
  rewrite narrowed_by_narrow. assert (Lower v ∈ map Lower values) by (apply in_map; eauto).
  destruct at_, at'; try apply Hs; intros _; by exists column, v.
Qed.
Lemma constant_texts items values e v :
  mapM constant_text items = Some values → e ∈ items → term e = Some v → v ∈ values.
Proof.
  intros Hall%mapM_Some He Hv. apply list_elem_of_lookup in He as [i Hi].
  destruct (Forall2_lookup_l _ _ _ _ _ Hall Hi) as (w & Hw & Hc). apply term_constant in Hc. simplify_eq.
  by eapply list_elem_of_lookup_2.
Qed.

Lemma in_listing_visit e s : truth e → in_listing s → in_listing (visit surface alias s e).
Proof.
  revert s. induction e as [e IH] using children_ind. intros s Htrue Hs.
  destruct e as [| | |a name arguments distinct filter order_by| | | | | |a kind operands]; cbn [visit]; try done.
  - cbv zeta. destruct (String.eqb_spec (Tree.Name name) "~~") as [Hname|_]; cbn [andb].
    + destruct (Nat.eqb_spec (length arguments) 2) as [Hlen|_].
      * destruct arguments as [|[k x] [|[k' y] [|]]]; try done. cbn [visit_like].
        destruct (constant_text y) as [p|] eqn:Hp; [|done]. destruct (exact_pattern _ p) as [w|] eqn:Hexact; [|done].
        destruct (truth_like _ _ _ _ _ _ _ _ _ Htrue Hname) as (v & p' & Hx & Hy & Hlike).
        apply term_constant in Hp. simplify_eq. apply (in_listing_take x v); [done|done|].
        rewrite (exact_pattern_is_like _ _ _ _ Hlike Hexact). set_solver.
      * rewrite Hname. done.
    + destruct (String.eqb_spec (Tree.Name name) "like_escape") as [Hname|_]; cbn [andb]; [|done].
      destruct (Nat.eqb_spec (length arguments) 3) as [Hlen|_]; [|done].
      destruct arguments as [|[k x] [|[k' y] [|[k'' z] [|]]]]; try done. cbn [visit_like lookup list_lookup].
      destruct (constant_text y) as [p|] eqn:Hp; [|done]. destruct (constant_text z) as [escape|] eqn:Hz; [|done].
      destruct (Nat.eqb_spec (String.length escape) 1) as [Hone|_]; [|done].
      destruct escape as [|c [|? ?]]; try done. cbn [String.get]. destruct (exact_pattern _ p) as [w|] eqn:Hexact; [|done].
      destruct (truth_like_escape _ _ _ _ _ _ _ _ _ _ _ Htrue Hname) as (v & p' & Hx & Hy & Hlike).
      apply term_constant in Hp, Hz. simplify_eq. apply (in_listing_take x v); [done|done|].
      specialize (Hlike c Hz). rewrite (exact_pattern_is_like _ _ _ _ Hlike Hexact). set_solver.
  - destruct (String.eqb_spec kind CONJUNCTION_AND) as [->|_].
    { assert (Hall : ∀ x, x ∈ operands → truth x) by (intros x; by apply (truth_and a)).
      assert (IH' : ∀ x, x ∈ operands → ∀ s, truth x → in_listing s → in_listing (visit surface alias s x)).
      { intros x Hx. apply IH. by rewrite /children /= map_id. }
      clear IH Htrue. revert s Hs. induction operands as [|x l IHl]; intros s Hs; [done|]. simpl.
      apply IHl; [|intros y Hy; apply IH'; set_solver|]; [intros; apply Hall; set_solver|].
      apply IH'; [set_solver|apply Hall; set_solver|done]. }
    destruct (String.eqb_spec kind COMPARE_EQUAL) as [->|_].
    { destruct operands as [|x [|y [|]]]; try done. destruct (truth_equal _ _ _ Htrue) as (v & Hx & Hy).
      destruct (constant_text y) as [w|] eqn:Hw.
      - apply term_constant in Hw. simplify_eq. eapply in_listing_take; [done|done|set_solver].
      - destruct (constant_text x) as [w|] eqn:Hw'; [|done]. apply term_constant in Hw'. simplify_eq.
        eapply in_listing_take; [done|done|set_solver]. }
    destruct (String.eqb_spec kind COMPARE_IN) as [->|_]; [|done].
    destruct operands as [|x items]; [done|]. destruct (mapM constant_text items) as [values|] eqn:Hvalues; [|done].
    destruct (truth_in _ _ _ Htrue) as (v & y & Hy & Hx & Hv). eapply in_listing_take; [done|done|by eapply constant_texts].
Qed.

Context `{JR : JsonReader} `{P : Parsing} `{PS : PolicySource} `{B : Batch}.
(** C11: the listing of a metadata surface is narrowed only by what the WHERE around it requires: a row the WHERE keeps -
    its conjunctions, equalities, IN lists and LIKE patterns read as SQL reads them - is a row of the narrowed listing. *)
Theorem narrowing_loses_no_row column_alias s s' scope :
  ScopeOf surface alias column_alias s = (s', inl scope) → (∀ w, listing_where s = Some w → truth w) → in_listing scope.
Proof.
  assert (Hnone : in_listing no_scope) by (intros []; by []).
  intros [= _ <-] Hwhere. destruct (listing_where s) as [w|], column_alias; try done. by apply in_listing_visit; [apply Hwhere|].
Qed.
End narrowing.

(** *** A row of [information_schema.tables] *)
Definition sample_term (e : Expr) : option string :=
  match e with
  | ColumnRef _ [c] | ColumnRef _ [_; c] => ci_find c [("table_catalog", "Sales"); ("table_name", "orders")]
  | _ => constant_text e
  end.
Definition same_text (x y : Expr) : bool := bool_decide (is_Some (sample_term x)) && bool_decide (sample_term x = sample_term y).
Fixpoint sample_holds (e : Expr) : bool :=
  match e with
  | Operation _ kind operands =>
      if String.eqb kind CONJUNCTION_AND then forallb sample_holds operands
      else if String.eqb kind COMPARE_EQUAL then match operands with [x; y] => same_text x y | _ => false end
      else if String.eqb kind COMPARE_IN then match operands with x :: items => existsb (same_text x) items | _ => false end
      else false
  | _ => false
  end.
#[local] Instance sample_row : Row := {|
  truth e := sample_holds e = true; term := sample_term;
  cell c := ci_find c [("table_catalog", "Sales"); ("table_name", "orders")] |}.
#[local] Existing Instance reference_string_util_laws.
Lemma same_text_terms x y : same_text x y = true → ∃ v, sample_term x = Some v ∧ sample_term y = Some v.
Proof. intros [[v Hv]%bool_decide_eq_true Heq%bool_decide_eq_true]%andb_true_iff. exists v. by rewrite -Heq. Qed.
#[local] Instance sample_row_laws : RowLaws "tables".
Proof.
  split; try done.
  - intros a l e Hl He. eapply forallb_forall; [exact Hl|]. by apply list_elem_of_In.
  - intros a x y. apply same_text_terms.
  - intros a x items [y [Hy Hxy]]%existsb_exists. apply same_text_terms in Hxy as (v & ? & ?).
    exists v, y. split; [by apply list_elem_of_In|done].
  - intros e v. by destruct e.
  - intros a column. apply ci_find_ci. apply CIEquals_true. by rewrite Lower_idemp.
  - intros a relation column _. apply ci_find_ci. apply CIEquals_true. by rewrite Lower_idemp.
Qed.
#[local] Instance refs_batch : Batch := a_batch false.
(** [WHERE table_catalog = 'Sales' AND tables.table_name IN ('orders', 'staged')] *)
Definition listing_condition : Expr :=
  Operation EmptyString CONJUNCTION_AND
    [equal (column "table_catalog") (text "Sales");
     Operation EmptyString COMPARE_IN [ColumnRef EmptyString ["tables"; "table_name"]; text "orders"; text "staged"]].
Definition listing_state : State := set_listing_where (Some listing_condition) a_state.
Lemma narrowing_loses_no_row_witness : ∃ scope,
  ScopeOf "tables" "tables" [] listing_state = (listing_state, inl scope)
  ∧ scope_tables scope = ["orders"; "staged"] ∧ scope_catalogs scope = ["sales"] ∧ in_listing "tables" scope.
Proof.
  eexists. split; [vm_compute; reflexivity|]. split; [reflexivity|]. split; [reflexivity|].
  apply (narrowing_loses_no_row "tables" "tables" [] listing_state listing_state); [vm_compute; reflexivity|].
  intros w [= <-]. vm_compute. reflexivity.
Defined.
