(* ===== verification/RewriterClaims.v ===== *)
(** * What the rewriter is for

    The claims about [acl_rewriter.cpp], each with a run of the small world of [RewriterSample]: what a batch sends is
    within the principal's grants; every rewrite ends; what a write may put where. *)
From S2P Require Import Prelude NamePath FieldPaths FunctionCategories PolicyTypes Platform Token Tree RewriteData RewriteDml.
From S2P Require Import RewriteRefs Rewriter RewriteDdl RewriterRuns RewriterSpec RewriterLaws BatchSpec BatchLaws RewriterSample.

(** ** The batch *)
Section batch.
Context `{SU : StringUtil} `{JR : JsonReader} `{PL : ParsingLaws} `{PS : PolicySource} `{B : Batch}.

(** C8: the rewrite of a batch, of a query, of an expression and of a relation always ends, with statements or a refusal:
    the fuel its model is run with - the depth of the tree - is never used up. *)
Theorem rewrites_end reason factory statements q e r s :
  (RewriteStatements statements (initial reason factory)).2 ≠ inr Exhausted
  ∧ (rewrite_query_whole q s).2 ≠ inr Exhausted ∧ (rewrite_expr_whole e s).2 ≠ inr Exhausted
  ∧ (rewrite_ref_whole r s).2 ≠ inr Exhausted.
Proof.
  destruct (walk_ok (query_depth q)) as (_ & Hq & _). destruct (walk_ok (depth e)) as (He & _ & _).
  destruct (walk_ok (tref_depth r)) as (_ & _ & Hr).
  assert (Hends : ∀ (A : Type) (m : M A) Q, run_ok (place_of s) m Q → (m s).2 ≠ inr Exhausted).
  { intros A m Q Hm. specialize (Hm s eq_refl). destruct (m s) as [s1 [a|x]]; [done|]. by intros [= ->]. }
  split_and!; [|by eapply Hends, Hq|by eapply Hends, He|by eapply Hends, Hr].
  assert (Hrun := to_RewriteStatements (place_of (initial reason factory)) statements).
  specialize (Hrun ltac:(by split) _ eq_refl). destruct (RewriteStatements _ _) as [s1 [l|x]]; [done|]. by intros [= ->].
Qed.
(** a CREATE TABLE in a schema that keeps a record of its tables goes on as the table under its physical name with
    its registration right behind it, or as the registration of the table that is there already; it goes on as nothing
    only where it says IF NOT EXISTS of a name that is taken. *)
Theorem created_tables_are_recorded t info columns constraints body s s' l :
  temporary info = false → cte_scope s = [] → describing s = 0 → keep_claim_markers s = false →
  rewrite_one (CreateStatement t (Some (CreateTable info columns constraints body))) s = (s', inl l) → creates t info l.
Proof.
  intros Htemp Hscope Hdepth Hkeep E.
  assert (Hrun := to_rewrite_one (place_of s) _ _ (to_create_statement t info columns constraints body Htemp)).
  specialize (Hrun ltac:(by split) s eq_refl). rewrite E in Hrun. by destruct Hrun as (r & ? & ->).
Qed.

(** A read function of the platform catalog the principal has no access to: the refusal's own reason, noted first, is
    replaced by the authorizer's. *)
Lemma platform_refusal_is_noted_as_unauthorized leaf alias column_alias s f rights :
  FindPlatformFunction_ platform leaf = Some f → AdminRights.table f = true → PlatformHidden = false →
  AdminRightsOf (who principal) = Answered rights → PlatformReadFunctionSql (who principal) rights leaf [] = Answered None →
  (RewritePlatformTableFunction leaf alias column_alias [] s)
  = (set_reason (noted MGMT_UNAUTHORIZED) (set_reason (noted NO_ACCESS) s),
     inr (Thrown true ("acl_rewrite: no access to table function " +:+ quoted ("platform." +:+ leaf)))).
Proof. intros Hf Ht Hh Hr Hsql. by rewrite /RewritePlatformTableFunction Hf Ht Hh /= /catch /mbind /M_bind /ask Hr /= Hsql. Qed.
End batch.

(** [SELECT lower(id)::integer FROM orders], [UPDATE orders SET amount = 1 WHERE id = 2], [CREATE TABLE kept AS SELECT …] *)
Definition shop_batch : list SQLStatement :=
  [SelectStatement "q"
     (select_from [Cast EmptyString (plain_call "lower" [column "id"]) (TypeExpr EmptyString EmptyString EmptyString "integer" [])]
        (table [""; ""; "orders"]));
   UpdateStatement "u"
     (UpdateNode [] [] (Some (table [""; ""; "orders"])) None
        (Some {| set_columns := ["amount"]; set_expressions := [Constant EmptyString (VInteger 1)];
                 set_condition := Some (equal (column "id") (Constant EmptyString (VInteger 2))) |}) []);
   CreateStatement "c"
     (Some (CreateTable {| create_name := [""; ""; "kept"]; temporary := false; on_conflict := ERROR_ON_CONFLICT |} [] []
              (Some (select_from [star_all] (table [""; ""; "orders"])))))].
#[local] Instance the_batch : Batch := a_batch false.

Lemma rewrites_end_witness : (RewriteStatements shop_batch (initial EmptyString false)).2 ≠ inr Exhausted.
Proof. apply (rewrites_end EmptyString false shop_batch (select_from [star_all] EmptyFrom) star_all EmptyFrom (initial EmptyString false)). Defined.
Definition keeping : CreateInfo := {| create_name := [""; ""; "kept"]; temporary := false; on_conflict := ERROR_ON_CONFLICT |}.
Lemma created_tables_are_recorded_witness : ∃ s' l,
  rewrite_one (CreateStatement "c" (Some (CreateTable keeping [] [] None))) (initial EmptyString false) = (s', inl l)
  ∧ length l = 2%nat ∧ creates "c" keeping l.
Proof.
  eexists _, _. split; [vm_compute; reflexivity|]. split; [reflexivity|].
  eapply (created_tables_are_recorded "c" keeping [] [] None (initial EmptyString false)); [reflexivity..|].
  vm_compute. reflexivity.
Defined.

(** ** What the model showed *)

(** [total(id) FILTER (WHERE EXISTS (SELECT * FROM secrets))]: the FILTER of a virtual function that stands for a physical
    one is handed on as it was written, where alone it is refused. *)
Definition secrets_filter : Expr :=
  Subquery EmptyString "EXISTS" None (Some (select_from [star_all] (table [""; ""; "secrets"]))).
Lemma virtual_call_filter_is_not_rewritten :
  (rewrite_expr_whole (Function EmptyString [""; ""; "total"] [(EmptyString, column "id")] false (Some secrets_filter) [])
     (initial EmptyString false)).2
  = inl (Function EmptyString ["memory"; "main"; "total"] [(EmptyString, column "id")] false (Some secrets_filter) [])
  ∧ (rewrite_expr_whole secrets_filter (initial EmptyString false)).2
    = inr (Thrown true ("acl_rewrite: no access to object " +:+ quoted "secrets")).
Proof. split; vm_compute; reflexivity. Qed.

(** [UPDATE temp.main.scratch SET x = y], alone and behind an UPDATE of a granted object: the temp table's columns are read
    under the read policy of the object before it. *)
Definition update_of (target : QualifiedName) (column_ : string) (value : Expr) : SQLStatement :=
  UpdateStatement "u" (UpdateNode [] [] (Some (table target)) None
    (Some {| set_columns := [column_]; set_expressions := [value]; set_condition := None |}) []).
Definition update_scratch : SQLStatement := update_of ["temp"; "main"; "scratch"] "x" (column "y").
Lemma temp_write_reads_under_the_policy_before :
  (RewriteStatements [update_scratch] (initial EmptyString false)).2 = inl [update_scratch]
  ∧ ∃ message, (RewriteStatements [update_of [""; ""; "homed"] "id" (Constant EmptyString (VInteger 1)); update_scratch]
                  (initial EmptyString false)).2 = inr (Thrown true message).
Proof. split; [vm_compute; reflexivity|]. eexists. vm_compute. reflexivity. Qed.
