(* ===== verification/Grants.v ===== *)
(** * Grants: what a role's rows say of an object, united over roles and applied to it

    [acl_policy_catalog.hpp] and the pure part of [acl_policy_catalog.cpp]: a grant chain's policy ([GrantPolicy]), the
    union of the roles that hold a capability ([GrantUnion]), the capabilities a row holds, the pairs of roles whose union
    shows cells neither reads ([RoleUnionWidens]), and the policy an object is read and written under
    ([ApplyGrantPolicy], [ApplyFunctionGrantPolicy]).  A column list is a list of items - a name or path, and its mask,
    empty for none. *)
From S2P Require Import Prelude AuditTrail NamePath FieldPaths Tree Token RewriteData.

(** ** One role's policy *)

(** [GrantPolicy] *)
Record GrantPolicy := {
  restricts : bool;
  policy_unchecked : bool;
  policy_columns : list (string * string);
  predicates : list string;
}.
Definition no_grant_policy : GrantPolicy :=
  {| restricts := false; policy_unchecked := false; policy_columns := []; predicates := [] |}.

(** [GrantUnion] *)
Record GrantUnion := {
  any : bool;
  unrestricted_rls : bool;
  unrestricted_columns : bool;
  union_unchecked : bool;
  union_predicates : list string;
  union_columns : list (string * string);
}.
Definition no_grants : GrantUnion := {|
  any := false; unrestricted_rls := false; unrestricted_columns := false; union_unchecked := false;
  union_predicates := []; union_columns := [] |}.

(** [Predicate] of either: one as it is written, several each in its parentheses *)
Definition joined (between : string) (texts : list string) : string :=
  match texts with
  | [] => EmptyString
  | [text] => text
  | _ => join between (map (λ text, "(" +:+ text +:+ ")") texts)
  end.
(** [GrantPolicy::Predicate] *)
Definition PolicyPredicate (p : GrantPolicy) : string := joined " AND " (predicates p).
(** [GrantUnion::Predicate] *)
Definition UnionPredicate (u : GrantUnion) : string :=
  if unrestricted_rls u then EmptyString else joined " OR " (union_predicates u).
(** [GrantUnion::Unchecked], [GrantUnion::Restricts] *)
Definition Unchecked (u : GrantUnion) : bool :=
  union_unchecked u && negb (unrestricted_rls u) && negb (empty_list (union_predicates u)).
Definition Restricts (u : GrantUnion) : bool := any u && negb (unrestricted_columns u).

Section grants.
Context `{SU : StringUtil}.

(** The narrower level's list over the wider one's: a column both name, under the narrower mask if it has one *)
Definition narrowed_column (level : list (string * string)) (column : string * string) : option (string * string) :=
  match List.find (λ narrower, CIEquals column.1 narrower.1) level with
  | Some narrower => Some (column.1, if is_empty narrower.2 then column.2 else narrower.2)
  | None => None
  end.
Definition NarrowColumns (columns level : list (string * string)) : outcome (list (string * string)) :=
  if HasFieldPaths columns || HasFieldPaths level then IntersectColumnItems columns level
  else Ok (omap (narrowed_column level) columns).

(** [GrantPolicy::Narrow] *)
Definition Narrow (rls column_csv : string) (rls_checked : bool) (p : GrantPolicy) : outcome GrantPolicy :=
  let read := if is_empty rls then predicates p else predicates p ++ [rls] in
  let unchecked := policy_unchecked p || negb (is_empty rls) && negb rls_checked in
  let level := ParseColumnList column_csv in
  if empty_list level then
    Ok {| restricts := restricts p; policy_unchecked := unchecked; policy_columns := policy_columns p;
          predicates := read |}
  else
    columns ← (if restricts p then NarrowColumns (policy_columns p) level else Ok level);
    Ok {| restricts := true; policy_unchecked := unchecked; policy_columns := columns; predicates := read |}.

(** A column of a further role among those united: shown as it is by either, it is so by both *)
Definition masks_differ (column mask_a mask_b : string) : string :=
  "acl: the principal's roles mask column " +:+ dq +:+ column +:+ dq +:+ " differently (" +:+ dq +:+ mask_a +:+ dq
  +:+ " vs " +:+ dq +:+ mask_b +:+ dq +:+ ") - grant the same expression, or drop one of the grants".
Fixpoint merge_column (column : string * string) (columns : list (string * string))
    : outcome (list (string * string)) :=
  match columns with
  | [] => Ok [column]
  | existing :: rest =>
      if CIEquals existing.1 column.1 then
        if is_empty column.2 || is_empty existing.2 then Ok ((existing.1, EmptyString) :: rest)
        else if String.eqb existing.2 column.2 then Ok (existing :: rest)
        else Throw (masks_differ column.1 existing.2 column.2)
      else rest ← merge_column column rest; Ok (existing :: rest)
  end.
Fixpoint merge_columns (more columns : list (string * string)) : outcome (list (string * string)) :=
  match more with
  | [] => Ok columns
  | column :: more => columns ← merge_column column columns; merge_columns more columns
  end.
Definition UniteColumns (columns more : list (string * string)) : outcome (list (string * string)) :=
  if HasFieldPaths columns || HasFieldPaths more then UniteColumnItems columns more else merge_columns more columns.

(** [GrantUnion::Add] *)
Definition Add (p : GrantPolicy) (u : GrantUnion) : outcome GrantUnion :=
  let predicate := PolicyPredicate p in
  let open := is_empty predicate in
  columns ← (if restricts p then UniteColumns (union_columns u) (policy_columns p) else Ok (union_columns u));
  Ok {| any := true; unrestricted_rls := unrestricted_rls u || open;
        unrestricted_columns := unrestricted_columns u || negb (restricts p);
        union_unchecked := union_unchecked u || negb open && policy_unchecked p;
        union_predicates := if open then union_predicates u else union_predicates u ++ [predicate];
        union_columns := columns |}.
Fixpoint AddAll (policies : list GrantPolicy) (u : GrantUnion) : outcome GrantUnion :=
  match policies with
  | [] => Ok u
  | p :: policies => u ← Add p u; AddAll policies u
  end.

(** ** Capabilities *)
Context `{JsonReader}.

(** What [ParseCaps] refuses of a document it could read *)
Definition caps_word (name : string) : bool :=
  negb (is_empty name) && negb (match name with String c _ => isdigit c | EmptyString => false end)
  && string_forallb (λ c, isalnum c || Ascii.eqb c "_") name.
Fixpoint parse_caps (strict : bool) (members : list (string * Json)) (named caps : list string)
    : string + list string :=
  match members with
  | [] => inr caps
  | (key, JBool holds) :: members =>
      if strict && negb (caps_word key) then inl "a capability's name is a word (letters, digits, _)"
      else if strict && ci_mem key named then inl ("caps name " +:+ dq +:+ key +:+ dq +:+ " twice")
      else parse_caps strict members (ci_add key named) (if holds then ci_add (c_str key) caps else caps)
  | _ :: _ => inl "caps values must be true/false"
  end.
(** [ParseCaps] *)
Definition ParseCaps (json : string) (strict : bool) : outcome (list string) :=
  let trimmed := Trim json in
  if is_empty trimmed then Ok []
  else if strict && contains_char "\" trimmed then
    Throw ("acl catalog: caps JSON holds no escape - a capability's name is a word: " +:+ json)
  else
    match read_json trimmed with
    | None => Throw ("acl catalog: malformed caps JSON: " +:+ json)
    | Some root =>
        match match root with
              | JObj members => parse_caps strict members [] []
              | _ => inl "caps must be a JSON object"
              end with
        | inl error => Throw ("acl catalog: " +:+ error +:+ ": " +:+ json)
        | inr caps => Ok caps
        end
    end.
Definition all_caps : list string := ["select"; "insert"; "update"; "delete"; "merge"].
(** [EffectiveCaps] *)
Definition EffectiveCaps (stored : Value) : outcome (list string) :=
  let text := match stored with VNull => EmptyString | _ => value_text stored end in
  if is_empty (Trim text) then Ok all_caps else ParseCaps text false.
End grants.

(** ** What a union shows that no role reads *)

(** A pair is an [UnionWidening] of the audit: on the rows of [role_a], the items [role_b] adds *)
Section widens.
Context `{SU : StringUtil}.

(** What a role's list shows, as [RoleUnionWidens] keeps it *)
Record Seen := {
  seen_all : bool;
  seen_items : list (string * bool);
  seen_plain : list string;
  seen_masked : list string;
  above_masked : list string;
}.
Definition path_mark (c : ascii) : bool := Ascii.eqb c dot || Ascii.eqb c "[".
Fixpoint prefixes_after (before name : string) : list string :=
  match name with
  | EmptyString => []
  | String c rest =>
      (if negb (is_empty before) && path_mark c then [before] else []) ++ prefixes_after (before +:+ str1 c) rest
  end.
Definition prefixes (name : string) : list string := prefixes_after EmptyString name.
Fixpoint head_name (name : string) : string :=
  match name with
  | EmptyString => EmptyString
  | String c rest => if path_mark c then EmptyString else String c (head_name rest)
  end.
Definition SeenBy (p : GrantPolicy) : Seen :=
  let items := map (λ item, (Trim item.1, negb (is_empty item.2))) (policy_columns p) in
  let masked_names := map fst (List.filter snd items) in
  {| seen_all := negb (restricts p); seen_items := items;
     seen_plain := map fst (List.filter (λ item, negb item.2) items);
     seen_masked := masked_names; above_masked := concat (map prefixes masked_names) |}.
(** An item is what [c] reads too: listed by it, or under what it lists, with nothing masked at, above or under it - or
    masked by both *)
Definition covers_item (c : Seen) (name : string) (masked_item : bool) : bool :=
  seen_all c
  || negb (existsb (λ prefix, ci_mem prefix (seen_masked c)) (prefixes name))
     && (if ci_mem name (seen_masked c) then masked_item
         else (existsb (λ prefix, ci_mem prefix (seen_plain c)) (prefixes name) || ci_mem name (seen_plain c))
              && negb (ci_mem name (above_masked c))).

(** The roles of [RoleUnionWidens]: name, filter, what it shows *)
Definition reader_of (role : string * GrantPolicy) : string * (string * Seen) :=
  (role.1, (PolicyPredicate role.2, SeenBy role.2)).
Definition filter_of (r : string * (string * Seen)) : string := r.2.1.
Definition seen_of (r : string * (string * Seen)) : Seen := r.2.2.

Section readers.
Context (readers : list (string * (string * Seen))) (known : list string).

Definition head_known (name : string) : bool := empty_list known || ci_mem (head_name name) known.
(** Read by a role without a filter, or by one of the filter [filter] *)
Definition covered (filter : string) (name : string) (masked_item : bool) : bool :=
  existsb (λ c, (is_empty (filter_of c) || String.eqb (filter_of c) filter) && covers_item (seen_of c) name masked_item)
    readers.
(** What [b] adds on the rows of [filter] *)
Definition extra_of (filter : string) (b : Seen) : list string :=
  if seen_all b then
    List.filter (λ name, negb (covered filter name false)) known ++ (if empty_list known then ["*"] else [])
  else map fst (List.filter (λ item, head_known item.1 && negb (covered filter item.1 item.2)) (seen_items b)).
Definition widens_on (a : string * (string * Seen)) : list UnionWidening :=
  if existsb (λ c, String.eqb (filter_of c) (filter_of a) && seen_all (seen_of c)) readers then []
  else
    omap (λ b, if is_empty (filter_of b) || String.eqb (filter_of b) (filter_of a) then None
               else match extra_of (filter_of a) (seen_of b) with
                    | [] => None
                    | extra => Some {| role_a := a.1; role_b := b.1; columns := extra |}
                    end) readers.
(** The first role of each filter *)
Fixpoint filter_classes (classes : list string) (l : list (string * (string * Seen)))
    : list (string * (string * Seen)) :=
  match l with
  | [] => []
  | a :: l =>
      if bool_decide (filter_of a ∈ classes) then filter_classes classes l
      else a :: filter_classes (classes ++ [filter_of a]) l
  end.
(** Every pair, the loop's [return] at [max_pairs] aside *)
Definition union_pairs : list UnionWidening :=
  if existsb (λ c, is_empty (filter_of c) && seen_all (seen_of c)) readers then []
  else concat (map widens_on (filter_classes [] readers)).
End readers.

(** [RoleUnionWidens]: it returns once it holds one pair more than [max_pairs] *)
Definition RoleUnionWidens (roles : list (string * GrantPolicy)) (known : list string) (max_pairs : nat)
    : list UnionWidening :=
  firstn (S max_pairs) (union_pairs (map reader_of roles) known).
End widens.

(** ** A column a grant lists *)

(** [ListedColumn]: shown as it is, masked whole, or narrowed to some of its fields *)
Record ListedColumn := { listed_name : string; listed_mask : string; listed_tree : option FieldNode }.
Definition Writable (column : ListedColumn) : bool :=
  match listed_tree column with Some tree => negb (HasElementStep tree) | None => true end.

Section listed.
Context `{SU : StringUtil}.

Definition root_named (root : string) (n : FieldNode) : FieldNode :=
  let '(Node _ w m k fs e) := n in Node root w m k fs e.
Definition TreeItems (tree : FieldNode) (root : string) : string :=
  let copy := root_named root tree in ItemsCsv (SerializeNode copy (RootName copy)).
(** [ListedColumn::Read] *)
Definition Read (column : ListedColumn) (source : string) : string :=
  match listed_tree column with
  | Some tree => CompileNode tree ("(" +:+ source +:+ ")") 0
  | None => if is_empty (listed_mask column) then source else listed_mask column
  end.
Definition listed_column (column : FieldNode) : ListedColumn := {|
  listed_name := name column;
  listed_mask := if masked column then mask column else EmptyString;
  listed_tree := if masked column || Plain column then None else Some column |}.
Definition ListColumns (items : list (string * string)) : outcome (list ListedColumn) :=
  columns ← From items; Ok (map listed_column columns).
(** [<read> AS <name>], the name alone where that is what is read *)
Definition read_as (column : ListedColumn) (source : string) : string :=
  let read := Read column source in
  if String.eqb read (SqlIdentifier (listed_name column)) then read
  else read +:+ " AS " +:+ SqlIdentifier (listed_name column).
Definition ViewItems (items : list (string * string)) : outcome (list string) :=
  columns ← ListColumns items;
  Ok (map (λ column, read_as column (SqlIdentifier (listed_name column))) columns).
End listed.

(** ** An object under the united grants *)

Section apply.
Context `{SU : StringUtil} `{P : Parsing}.

(** [TablePolicy::ReadFrom] *)
Definition read_from (p : TablePolicy) : outcome string :=
  let where_ := if is_empty (rls p) then EmptyString else " WHERE " +:+ rls p in
  source ← NamePath.KeyToSql id name_text (phys p);
  Ok (if empty_list (casts p) then " FROM " +:+ source +:+ where_
      else " FROM (SELECT " +:+ CastItems (casts p) +:+ " FROM " +:+ source +:+ where_ +:+ ") AS "
           +:+ SqlIdentifier (SplitLeaf (phys p)).2.2).

(** What the application writes of a policy: how it reads, and what its columns give *)
Definition set_reading (v_subquery_form : bool) (v_projection : list string) (v_rls v_query : string)
    (v_casts : list (string * string)) (p : TablePolicy) : TablePolicy := {|
  subquery_form := v_subquery_form; phys := phys p; canonical := canonical p; projection := v_projection; rls := v_rls;
  rls_unchecked := rls_unchecked p; query := v_query; is_view := is_view p; wrap_sql := wrap_sql p; caps := caps p;
  renames := renames p; writable := writable p; from_schema_alias := from_schema_alias p;
  returning_refused := returning_refused p; capability_rows_read := capability_rows_read p; injections := injections p;
  write_columns := write_columns p; write_order := write_order p; visible_columns := visible_columns p;
  narrowed_reads := narrowed_reads p; field_writes := field_writes p; casts := v_casts;
  granted_items := granted_items p |}.
Definition set_unchecked (v_rls_unchecked : bool) (p : TablePolicy) : TablePolicy := {|
  subquery_form := subquery_form p; phys := phys p; canonical := canonical p; projection := projection p; rls := rls p;
  rls_unchecked := v_rls_unchecked; query := query p; is_view := is_view p; wrap_sql := wrap_sql p; caps := caps p;
  renames := renames p; writable := writable p; from_schema_alias := from_schema_alias p;
  returning_refused := returning_refused p; capability_rows_read := capability_rows_read p; injections := injections p;
  write_columns := write_columns p; write_order := write_order p; visible_columns := visible_columns p;
  narrowed_reads := narrowed_reads p; field_writes := field_writes p; casts := casts p;
  granted_items := granted_items p |}.
(** The columns' part of a policy, as [ApplyGrantPolicy] empties and fills it *)
Record column_policy := {
  col_injections : list (string * string);
  col_write : list string;
  col_order : list string;
  col_visible : list string;
  col_narrowed : list (string * string);
  col_field_writes : list (string * string);
}.
Definition set_columns (c : column_policy) (p : TablePolicy) : TablePolicy := {|
  subquery_form := subquery_form p; phys := phys p; canonical := canonical p; projection := projection p; rls := rls p;
  rls_unchecked := rls_unchecked p; query := query p; is_view := is_view p; wrap_sql := wrap_sql p; caps := caps p;
  renames := renames p; writable := writable p; from_schema_alias := from_schema_alias p;
  returning_refused := returning_refused p; capability_rows_read := capability_rows_read p;
  injections := col_injections c; write_columns := col_write c; write_order := col_order c;
  visible_columns := col_visible c; narrowed_reads := col_narrowed c; field_writes := col_field_writes c;
  casts := casts p; granted_items := granted_items p |}.

(** One listed column, stored as [source] and known as [known]: what it may be read for, and - where the relation is
    writable and the column too - what a write of it does *)
Definition give_column (writable : bool) (column : ListedColumn) (source : string) (c : column_policy) : column_policy :=
  let narrowed := match listed_tree column with
                  | Some tree => [(source, TreeItems tree source)]
                  | None => []
                  end in
  let written := writable && Writable column in {|
    col_injections := col_injections c ++ (if written && negb (is_empty (listed_mask column))
                                           then [(source, listed_mask column)] else []);
    col_write := if written then ci_add source (col_write c) else col_write c;
    col_order := col_order c ++ (if written then [listed_name column] else []);
    col_visible := ci_add source (col_visible c);
    col_narrowed := col_narrowed c ++ narrowed;
    col_field_writes := col_field_writes c ++ (if written then narrowed else []) |}.
Definition give_columns (writable : bool) (columns : list (ListedColumn * string)) (c : column_policy) : column_policy :=
  fold_left (λ c column, give_column writable column.1 column.2 c) columns c.
(** What is left of them once they are emptied; injections and field writes are appended to *)
Definition emptied (p : TablePolicy) : column_policy := {|
  col_injections := injections p; col_write := []; col_order := []; col_visible := []; col_narrowed := [];
  col_field_writes := field_writes p |}.

(** The object's own projection *)
Definition own_projection (object_columns : list (string * string)) : list string :=
  map (λ column, if is_empty column.2 then SqlIdentifier column.1 else column.2 +:+ " AS " +:+ SqlIdentifier column.1)
    object_columns.

(** The listed column a defined one takes, out of those left *)
Fixpoint take_listed (name : string) (listed : list ListedColumn) : option (ListedColumn * list ListedColumn) :=
  match listed with
  | [] => None
  | column :: rest =>
      if CIEquals name (listed_name column) then Some (column, rest)
      else match take_listed name rest with
           | Some (taken, rest) => Some (taken, column :: rest)
           | None => None
           end
  end.
(** The listed columns the object defines, in its order *)
Fixpoint ordered_columns (object_columns : list (string * string)) (listed : list ListedColumn) : list ListedColumn :=
  match object_columns with
  | [] => []
  | defined :: object_columns =>
      match take_listed defined.1 listed with
      | Some (column, listed) => column :: ordered_columns object_columns listed
      | None => ordered_columns object_columns listed
      end
  end.
Definition defines (object_columns : list (string * string)) (column : ListedColumn) : bool :=
  existsb (λ defined, CIEquals defined.1 (listed_name column)) object_columns.
Definition shows_part (column : ListedColumn) : bool :=
  negb (is_empty (listed_mask column)) || bool_decide (is_Some (listed_tree column)).

(** The relation's own columns are not declared: the engine says which there are as it binds *)
Definition undeclared_query (listed : list ListedColumn) (from : string) : string :=
  let replaces := map (λ column, Read column (SqlIdentifier (listed_name column)) +:+ " AS "
                                 +:+ SqlIdentifier (listed_name column)) (List.filter shows_part listed) in
  "SELECT COLUMNS(lambda __acl_col: " +:+ KeyFoldSql "__acl_col" +:+ " IN ("
  +:+ join ", " (map (λ column, SqlLiteral (Lower (listed_name column))) listed)
  +:+ ")) FROM (SELECT *" +:+ (if empty_list replaces then EmptyString else " REPLACE (" +:+ join ", " replaces +:+ ")")
  +:+ from +:+ ")".

(** What a listed column is stored as: the object's own name or expression, a rename's physical name - and whether that
    is a name *)
Fixpoint renamed_source (vname : string) (column : string) (renamed : list (string * string)) (source : string * bool)
    : outcome (string * bool) :=
  match renamed with
  | [] => Ok source
  | rename :: renamed =>
      if CIEquals rename.1 column then Ok (rename.2, false)
      else if CIEquals rename.2 column then
        Throw ("acl: grant on " +:+ dq +:+ vname +:+ dq +:+ " lists column " +:+ dq +:+ column +:+ dq
               +:+ ", which the object renamed away")
      else renamed_source vname column renamed source
  end.
Definition defined_source (object_columns : list (string * string)) (column : string) : string * bool :=
  match List.find (λ defined, CIEquals defined.1 column) object_columns with
  | Some defined => if is_empty defined.2 then (defined.1, true) else (defined.2, false)
  | None => (column, true)
  end.
Definition source_of (vname : string) (object_columns renamed : list (string * string)) (column : ListedColumn)
    : outcome (string * bool) :=
  renamed_source vname (listed_name column) renamed (defined_source object_columns (listed_name column)).

(** The granted columns of a relation that declares its own *)
Definition declared_grant (vname : string) (object_columns : list (string * string)) (listed : list ListedColumn)
    (p : TablePolicy) : outcome TablePolicy :=
  sources ← omapM (λ column, source ← source_of vname object_columns (renames p) column; Ok (column, source)) listed;
  let items := map (λ c : ListedColumn * (string * bool), read_as c.1 (if c.2.2 then SqlIdentifier c.2.1 else c.2.1)) sources in
  let given := give_columns (writable p) (map (λ c : ListedColumn * (string * bool), (c.1, c.2.1)) sources) (emptied p) in
  Ok (set_columns given (set_reading true (projection p ++ items) (rls p) (query p) (casts p) p)).
Definition undeclared_grant (listed : list ListedColumn) (p : TablePolicy) : outcome TablePolicy :=
  from ← read_from p;
  let given := give_columns (writable p) (map (λ column, (column, listed_name column)) listed) (emptied p) in
  Ok (set_columns given (set_reading true (projection p) (rls p) (undeclared_query listed from) (casts p) p)).

Definition narrow_to_list (vname : string) (grants : GrantUnion) (object_columns : list (string * string))
    (p : TablePolicy) : outcome TablePolicy :=
  listed ← ListColumns (union_columns grants);
  match object_columns with
  | [] => undeclared_grant listed p
  | _ =>
      match List.find (λ column, negb (defines object_columns column) && shows_part column) listed with
      | Some column =>
          Throw ("acl: the grant on " +:+ dq +:+ vname +:+ dq +:+ " masks column " +:+ dq +:+ listed_name column +:+ dq
                 +:+ ", which the object does not have - a mask that cannot be applied would leave it unprotected")
      | None => declared_grant vname object_columns (ordered_columns object_columns listed) p
      end
  end.

(** [ApplyGrantPolicy] *)
Definition ApplyGrantPolicy (vname : string) (grants : GrantUnion) (object_columns : list (string * string))
    (out : TablePolicy) : outcome TablePolicy :=
  let predicate := UnionPredicate grants in
  let p := set_unchecked (rls_unchecked out || Unchecked grants) out in
  let where_ := if is_empty predicate then EmptyString else " WHERE " +:+ predicate in
  if negb (is_empty (query p)) && negb (empty_list (casts p)) then
    let filtered := "SELECT " +:+ CastItems (casts p) +:+ " FROM (" +:+ query p +:+ ") AS __acl_typed" +:+ where_ in
    items ← ViewItems (union_columns grants);
    Ok (set_reading (subquery_form p) (projection p) (rls p)
          (if Restricts grants
           then "SELECT " +:+ join ", " items +:+ " FROM (" +:+ filtered +:+ ") AS __acl_granted" else filtered) [] p)
  else if is_empty predicate && negb (Restricts grants) then
    Ok (set_reading (subquery_form p) (projection p ++ own_projection object_columns) (rls p) (query p) (casts p) p)
  else if negb (is_empty (query p)) then
    items ← ViewItems (union_columns grants);
    Ok (set_reading (subquery_form p) (projection p) (rls p)
          ("SELECT " +:+ (if Restricts grants then join ", " items else "*") +:+ " FROM (" +:+ query p
           +:+ ") AS __acl_granted" +:+ where_) (casts p) p)
  else
    let filter := if is_empty predicate then rls p
                  else if is_empty (rls p) then predicate
                  else "(" +:+ rls p +:+ ") AND (" +:+ predicate +:+ ")" in
    let filtered := set_reading (subquery_form p) (projection p) filter (query p) (casts p) p in
    if Restricts grants then narrow_to_list vname grants object_columns filtered
    else
      Ok (set_reading (subquery_form p || negb (is_empty filter)) (projection p ++ own_projection object_columns) filter
            (query p) (casts p) p).

(** [ApplyFunctionGrantPolicy] *)
Definition function_query (columns : list (string * string)) (filter : string) : string :=
  let replaces := map (λ column, column.2 +:+ " AS " +:+ SqlIdentifier column.1)
                    (List.filter (λ column, negb (is_empty column.2)) columns) in
  "SELECT COLUMNS(lambda __acl_col: " +:+ KeyFoldSql "__acl_col" +:+ " IN ("
  +:+ join ", " (map (λ column, SqlLiteral (Lower column.1)) columns) +:+ ")) FROM (SELECT *"
  +:+ (if empty_list replaces then EmptyString else " REPLACE (" +:+ join ", " replaces +:+ ")")
  +:+ " FROM " +:+ dq +:+ "__acl_inner" +:+ dq
  +:+ (if is_empty filter then EmptyString else " WHERE " +:+ filter) +:+ ")".
Definition set_function (v_rls v_wrap : string) (v_items : list (string * string)) (p : TablePolicy) : TablePolicy := {|
  subquery_form := subquery_form p; phys := phys p; canonical := canonical p; projection := projection p; rls := v_rls;
  rls_unchecked := rls_unchecked p; query := query p; is_view := is_view p; wrap_sql := v_wrap; caps := caps p;
  renames := renames p; writable := writable p; from_schema_alias := from_schema_alias p;
  returning_refused := returning_refused p; capability_rows_read := capability_rows_read p; injections := injections p;
  write_columns := write_columns p; write_order := write_order p; visible_columns := visible_columns p;
  narrowed_reads := narrowed_reads p; field_writes := field_writes p; casts := casts p; granted_items := v_items |}.
Definition ApplyFunctionGrantPolicy (vname : string) (table_kind : bool) (grants : GrantUnion) (out : TablePolicy)
    : outcome TablePolicy :=
  let predicate := UnionPredicate grants in
  let p := set_unchecked (Unchecked grants) out in
  if is_empty predicate && negb (Restricts grants) then Ok p
  else if negb table_kind then
    Throw ("acl: the grant on scalar function " +:+ dq +:+ vname +:+ dq
           +:+ " carries a policy, but a scalar function has no rows or columns to narrow")
  else
    let columns := union_columns grants in
    Ok (if Restricts grants then set_function predicate (function_query columns predicate) columns p
        else set_function predicate (wrap_sql p) (granted_items p) p).
End apply.
