(* ===== verification/PolicyLookup.v ===== *)
(** * What the catalog's rows make of a name

    The lookups of [acl_policy_catalog.cpp] and what [acl_policy.cpp] puts around them: a relation, a live schema alias, a
    function, a DDL target, a held schema - each from the rows its query selects.  The queries are the engine's: a row is a
    record, and which rows a principal's name selects is the interface [PolicyRows]. *)
From S2P Require Import Prelude AuditTrail NamePath FieldPaths PolicyTypes Tree Token RewriteData Grants.

(** ** Answers, composed *)

#[export] Instance answer_ret : MRet answer := λ A a, Answered a.
#[export] Instance answer_bind : MBind answer := λ A B f m,
  match m with Answered a => f a | Failed reason binder message => Failed reason binder message end.
(** A [BinderException] *)
Definition thrown {A} (o : outcome A) : answer A :=
  match o with Ok a => Answered a | Throw message => Failed None true message end.
(** A refusal whose reason is noted *)
Definition refused {A} (reason : Reason) (message : string) : answer A := Failed (Some reason) true message.

Lemma answer_bind_answered {A B} (m : answer A) (f : A → answer B) b :
  (m ≫= f) = Answered b ↔ ∃ a, m = Answered a ∧ f a = Answered b.
Proof. destruct m as [a|? ? ?]; simpl; split; [by eauto|by intros (? & [= ->] & ?)|done|by intros (? & ? & ?)]. Qed.
Lemma thrown_answered {A} (o : outcome A) a : thrown o = Answered a ↔ o = Ok a.
Proof. destruct o; simpl; split; congruence. Qed.

(** ** Rows *)

(** The grant chain's part of a row: [GrantPolicyExprs] *)
Record chain := { crls : Value; ccols : Value; cchk : Value; orls : Value; ocols : Value; ochk : Value }.
(** A column the object declares; a column of a type fact with what it is exposed as *)
Record type_fact := { tcol : Value; tbase : Value; tvarchar : Value; tboth : Value }.

Record relation_row := {
  r_form : Value; r_phys : Value; r_view_sql : Value; r_rls : Value; r_caps : Value; r_chain : chain; r_prio : Z;
  r_cols : option (list (Value * Value)); r_rchk : Value; r_alias_types : Value; r_enum_types : Value;
  r_facts : option (list type_fact); r_cvcat : Value; r_cvname : Value; r_grole : Value }.
Record alias_row := {
  a_vcat : Value; a_alias_path : Value; a_phys_path : Value; a_caps : Value; a_chain : chain; a_prio : Z;
  a_grole : Value }.
Record function_row := {
  f_vcat : Value; f_form : Value; f_target : Value; f_template : Value; f_caps : Value; f_chain : chain; f_prio : Z;
  f_vname : Value; f_grole : Value }.
Record ddl_row := {
  d_vcat : Value; d_path : Value; d_phys_path : Value; d_origin : Value; d_caps : Value; d_into : Value;
  d_virtual_only : Value; d_qualified : bool; d_unqualified : bool }.
Record schema_row := { s_vcat : Value; s_path : Value; s_qualified : bool; s_caps : Value }.

(** The rows the catalog's queries select for a principal, and the node's settings.  A relation's and an alias's are
    ordered by the reading that wins, an alias's by its length too, a DDL target's by the home's length. *)
Class PolicyRows := {
  (* the name, its first part and the rest where it has one, the name under which the MAIN catalog holds it *)
  relation_rows : Principal → string → string * string → string → answer (list relation_row);
  alias_rows : Principal → string → string * string → answer (list alias_row);
  function_rows : Principal → string → string * string → bool → answer (list function_row);
  main_grant_caps : Principal → answer (list Value);
  grant_caps : Principal → answer (list (Value * Value));
  ddl_rows : Principal → string → string * string → answer (list ddl_row);
  schema_rows : Principal → string → string * string → answer (list schema_row);
  (* the catalog is a driver of functions *)
  function_mode : bool;
  NodeStripsAliases : bool;
  NodeEnumsToVarchar : bool;
  (* [on_union_widens] listens *)
  on_union_widens : bool;
}.
(** What [OneExpression] reads of a tree that the rewriter's does not carry *)
Class PolicyParser `{Parsing} := {
  (* grouping sets or a sample *)
  sets_or_sample : Query → bool;
  (* [named_param_map] *)
  has_parameter : SQLStatement → bool;
  (* [Equals] *)
  expr_equals : Expr → Expr → bool;
}.

(** [Value::ToString], and the empty text of NULL *)
Definition text_of (v : Value) : string := match v with VNull => EmptyString | _ => value_text v end.
Definition flag (v : Value) : bool := match v with VBoolean b => b | _ => false end.
Definition is_null (v : Value) : bool := match v with VNull => true | _ => false end.

(** ** One expression *)
Section expressions.
Context `{SU : StringUtil} `{PP : PolicyParser}.

(** [ParseOneSelect]: the statement, and its one SELECT's list, FROM and WHERE *)
Definition ParseOneSelect (sql : string) : option (SQLStatement * (list Expr * option TableRef * option Expr)) :=
  match ParseQuery sql with
  | Ok [SelectStatement p node as statement] =>
      match node with
      | SelectNode [] [] items from where_ None None [] =>
          if sets_or_sample node then None else Some (statement, (items, from, where_))
      | _ => None
      end
  | _ => None
  end.
Definition no_source (from : option TableRef) : bool :=
  match from with None | Some EmptyFrom => true | _ => false end.
Definition is_constant (e : Expr) : bool := match e with Constant _ _ => true | _ => false end.
(** What stands around the text is still what was written around it *)
Definition stays_placed (alone : Expr) (placed : option (SQLStatement * (list Expr * option TableRef * option Expr)))
    : bool :=
  match placed with
  | Some (_, ([a; b], Some (BaseTable _ table _ _ _), Some where_)) =>
      is_constant where_ && String.eqb (List.last table EmptyString) "__acl_t" && String.eqb (expr_alias a) "__acl_a"
      && String.eqb (expr_alias b) "__acl_b" && is_constant b && expr_equals (set_alias EmptyString a) alone
  | _ => false
  end.
(** [OneExpression]: nothing, or its problem *)
Definition OneExpression (text : string) : option string :=
  match ParseOneSelect ("SELECT " +:+ text) with
  | Some (statement, ([alone], from, None)) =>
      if negb (no_source from) then Some "not one expression (a clause, a second statement or text that does not parse)"
      else if negb (is_empty (expr_alias alone)) then Some "an alias"
      else if negb (stays_placed alone
                      (ParseOneSelect ("SELECT " +:+ text +:+ " AS __acl_a, 1 AS __acl_b FROM __acl_t WHERE true")))
      then Some "text that does not stay one expression where it is placed (a comment left open, a parenthesis)"
      else if has_parameter statement
      then Some "a parameter ($1, ?) - a policy carries values, never asks for them"
      else None
  | _ => Some "not one expression (a clause, a second statement or text that does not parse)"
  end.
Definition one_expression (text : string) : bool := match OneExpression text with None => true | Some _ => false end.
(** [StoredExpressionsOk], its kept verdicts aside: a verdict depends on the text alone *)
Definition StoredExpressionsOk (texts : list string) : bool :=
  forallb (λ text, is_empty text || one_expression text) texts.
(** [RequireOneExpression], [RequireColumnName]: the rule where a text is written *)
Definition RequireOneExpression (what text : string) : outcome unit :=
  match OneExpression text with
  | Some problem =>
      if is_empty text then Ok ()
      else Throw ("acl admin: " +:+ what +:+ " holds " +:+ dq +:+ text +:+ dq +:+ ", which is " +:+ problem
                  +:+ " - write a single expression (spec 148)")
  | None => Ok ()
  end.
Definition RequireColumnName (what name : string) : outcome unit :=
  ok ← (if one_expression name then
          parsed ← ParseExpressionList name;
          Ok (match parsed with [ColumnRef _ _] => true | _ => false end)
        else Ok false);
  if (ok : bool) then Ok ()
  else Throw ("acl admin: " +:+ what +:+ " names " +:+ dq +:+ name +:+ dq +:+ ", which is not a column name (spec 148)").

(** [RequireStoredExpressions] *)
Definition policy_texts (own_rls : string) (own_columns : list (string * string)) (united : list (string * GrantPolicy))
    : list string :=
  own_rls :: map snd own_columns
  ++ concat (map (λ role, predicates role.2 ++ map snd (policy_columns role.2)) united).
Definition RequireStoredExpressions (object own_rls : string) (own_columns : list (string * string))
    (united : list (string * GrantPolicy)) : answer unit :=
  if StoredExpressionsOk (policy_texts own_rls own_columns united) then Answered ()
  else refused POLICY_ERROR
         ("acl: the policy of " +:+ dq +:+ object +:+ dq +:+ " holds a stored expression that is not one expression (spec "
          +:+ "148) - acl_check_catalog names it").
End expressions.

(** ** What the rows of a name come to *)

(** A lookup's answer: the policy, and the pairs of roles told of ([NoteUnionWidens]): the object, the capability, them *)
Record Resolution := { found_policy : TablePolicy; told : option (string * string * list UnionWidening) }.

(** The rows of the winning reading, united: every row's capabilities; of those that hold the one exercised the grants,
    each role's own, whether all of them read *)
Record United := {
  united_caps : list string;
  united_grants : GrantUnion;
  united_roles : list (string * GrantPolicy);
  united_read : bool;
}.
Definition nothing_united : United :=
  {| united_caps := []; united_grants := no_grants; united_roles := []; united_read := true |}.

Section lookups.
Context `{SU : StringUtil} `{JR : JsonReader} `{PP : PolicyParser} `{PR : PolicyRows}.

(** [RowPolicy]: the catalog level, narrowed by the object level *)
Definition RowPolicy (c : chain) : outcome GrantPolicy :=
  p ← Narrow (text_of (crls c)) (text_of (ccols c)) (flag (cchk c)) no_grant_policy;
  Narrow (text_of (orls c)) (text_of (ocols c)) (flag (ochk c)) p.

(** A row: its capabilities, its grant chain, its role *)
Definition unite_row (capability : string) (row : Value * chain * Value) (u : United) : outcome United :=
  held ← EffectiveCaps row.1.1;
  let all := fold_left (λ caps cap, ci_add cap caps) held (united_caps u) in
  if ci_mem capability held then
    policy ← RowPolicy row.1.2;
    grants ← Add policy (united_grants u);
    Ok {| united_caps := all; united_grants := grants;
          united_roles := united_roles u ++ [(value_text row.2, policy)];
          united_read := united_read u && ci_mem "select" held |}
  else
    Ok {| united_caps := all; united_grants := united_grants u; united_roles := united_roles u;
          united_read := united_read u |}.
Fixpoint unite_rows (capability : string) (rows : list (Value * chain * Value)) (u : United) : outcome United :=
  match rows with
  | [] => Ok u
  | row :: rows => u ← unite_row capability row u; unite_rows capability rows u
  end.

(** The rows before the first of another reading *)
Fixpoint winning {R} (prio : R → Z) (first : Z) (rows : list R) : list R :=
  match rows with
  | [] => []
  | row :: rows => if (prio row =? first)%Z then row :: winning prio first rows else []
  end.

(** [NoteUnionWidens]: the pairs by name, told of when they remain with the filters as the parser prints them *)
Fixpoint insert_role (role : string * GrantPolicy) (l : list (string * GrantPolicy)) : list (string * GrantPolicy) :=
  match l with
  | [] => [role]
  | r :: l' => if String.ltb role.1 r.1 then role :: l else r :: insert_role role l'
  end.
Definition by_name (l : list (string * GrantPolicy)) : list (string * GrantPolicy) :=
  fold_left (λ sorted role, insert_role role sorted) l [].
Definition printed (predicate : string) : string :=
  match ParseExpressionList predicate with Ok [parsed] => expression_text parsed | _ => predicate end.
Definition normalized (role : string * GrantPolicy) : string * GrantPolicy :=
  let predicate := PolicyPredicate role.2 in
  if is_empty predicate then role
  else (role.1, {| restricts := restricts role.2; policy_unchecked := policy_unchecked role.2;
                   policy_columns := policy_columns role.2; predicates := [printed predicate] |}).
Definition NoteUnionWidens (object capability : string) (united : list (string * GrantPolicy)) (known : list string)
    : option (string * string * list UnionWidening) :=
  if negb on_union_widens || (length united <? 2)%nat then None
  else
    let roles := by_name united in
    if empty_list (RoleUnionWidens roles known REPORTED) then None
    else
      let pairs := RoleUnionWidens (map normalized roles) known REPORTED in
      if empty_list pairs then None else Some (object, capability, pairs).

(** [ApplyTypeFacts]: the columns exposed as another type *)
Definition TypeFacts (row : relation_row) : list (string * string) :=
  match r_facts row with
  | None => []
  | Some facts =>
      let strip_alias := if is_null (r_alias_types row) then NodeStripsAliases
                         else String.eqb (value_text (r_alias_types row)) "base" in
      let enums_to_varchar := if is_null (r_enum_types row) then NodeEnumsToVarchar
                              else String.eqb (value_text (r_enum_types row)) "varchar" in
      let field := if strip_alias && enums_to_varchar then tboth else if strip_alias then tbase else tvarchar in
      if negb strip_alias && negb enums_to_varchar then []
      else omap (λ fact, if is_null (field fact) then None else Some (value_text (tcol fact), value_text (field fact)))
             facts
  end.

(** ** [LookupRelation] *)
Definition SplitName (vname : string) : string * string := (SplitHeadKey vname).2.
(** An object of the default schema is stored bare: [main.orders] is [orders] *)
Definition unqualified_name (vname : string) : string :=
  let '(head, rest) := SplitName vname in if CIEquals head "main" && negb (is_empty rest) then rest else vname.

Definition ambiguous_object (vname : string) : string :=
  "acl: ambiguous name " +:+ dq +:+ vname +:+ dq
  +:+ " - it matches more than one object of the policy (names compare case-insensitively)".
Definition object_of (row : relation_row) : string :=
  value_text (r_cvcat row) +:+ str1 "031" +:+ value_text (r_cvname row).
Definition row_form (row : relation_row) : string := value_text (r_form row).
(** The object's own columns: a view has none of its own *)
Definition own_columns (row : relation_row) : list (string * string) :=
  match r_cols row with
  | Some cols => if String.eqb (row_form row) "view" then []
                 else map (λ col, (value_text col.1, text_of col.2)) cols
  | None => []
  end.
(** The policy the object itself gives, its grants not yet applied *)
Definition own_policy (row : relation_row) (u : United) : TablePolicy :=
  let alias := String.eqb (row_form row) "alias" in
  let columns := own_columns row in
  let own_rls := text_of (r_rls row) in
  let written := if alias then fold_left (λ names column, ci_add (if is_empty column.2 then column.1 else column.2) names)
                                 columns [] else [] in {|
    subquery_form := negb alias || negb (empty_list columns);
    phys := text_of (r_phys row);
    canonical := if is_null (r_cvcat row) || is_null (r_cvname row) then EmptyString
                 else value_text (r_cvcat row) +:+ "." +:+ value_text (r_cvname row);
    projection := []; rls := own_rls;
    rls_unchecked := negb (is_empty own_rls) && negb (flag (r_rchk row));
    query := text_of (r_view_sql row); is_view := String.eqb (row_form row) "view"; wrap_sql := EmptyString;
    caps := united_caps u;
    renames := if alias then List.filter (λ column, negb (is_empty column.2)) columns else [];
    writable := alias; from_schema_alias := false; returning_refused := EmptyString;
    capability_rows_read := united_read u; injections := []; write_columns := written; write_order := [];
    visible_columns := written; narrowed_reads := []; field_writes := []; casts := TypeFacts row; granted_items := [] |}.
Definition relation_grants (capability : string) (rows : list relation_row) : outcome United :=
  unite_rows capability (map (λ row, (r_caps row, r_chain row, r_grole row)) rows) nothing_united.

Definition LookupRelation (who : Principal) (vname capability : string) : answer (option Resolution) :=
  rows ← relation_rows who vname (SplitName vname) (unqualified_name vname);
  match rows with
  | [] => mret None
  | first :: _ =>
      let won := winning r_prio (r_prio first) rows in
      if existsb (λ row, negb (String.eqb (object_of row) (object_of first))) won
      then refused NO_ACCESS (ambiguous_object vname)
      else
        u ← thrown (relation_grants capability won);
        let own := own_policy first u in
        let columns := own_columns first in
        RequireStoredExpressions vname (rls own) columns (united_roles u) ≫= λ _,
        policy ← thrown (ApplyGrantPolicy vname (united_grants u) columns own);
        mret (Some {| found_policy := policy;
                      told := NoteUnionWidens (if is_empty (canonical policy) then vname else canonical policy)
                                capability (united_roles u) (map fst columns) |})
  end.

(** ** [LookupSchemaAlias] *)
Definition ambiguous_alias (vname shown other : string) : string :=
  "acl: ambiguous name " +:+ dq +:+ vname +:+ dq +:+ " - it matches schema " +:+ shown +:+ " and schema " +:+ other
  +:+ " of the policy".
Definition alias_of (row : alias_row) : string * string := (value_text (a_vcat row), value_text (a_alias_path row)).
Definition alias_name (alias : string * string) : string := JoinKeys alias.1 alias.2.
(** The rows that match as well as the first: of its reading, with an alias as long *)
Fixpoint as_well (prio : Z) (size : nat) (rows : list alias_row) : list alias_row :=
  match rows with
  | [] => []
  | row :: rows =>
      if (a_prio row =? prio)%Z && (KeySize (value_text (a_alias_path row)) =? size)%nat
      then row :: as_well prio size rows else []
  end.
Definition alias_policy (vcat alias_path phys_path tail : string) (u : United) : TablePolicy := {|
  subquery_form := false; phys := JoinKeys phys_path tail; canonical := JoinKeys vcat (JoinKeys alias_path tail);
  projection := []; rls := EmptyString; rls_unchecked := false; query := EmptyString; is_view := false;
  wrap_sql := EmptyString; caps := united_caps u; renames := []; writable := true; from_schema_alias := false;
  returning_refused := EmptyString; capability_rows_read := united_read u; injections := []; write_columns := [];
  write_order := []; visible_columns := []; narrowed_reads := []; field_writes := []; casts := []; granted_items := [] |}.
Definition LookupSchemaAlias (who : Principal) (vname capability : string) : answer (option Resolution) :=
  rows ← alias_rows who vname (SplitName vname);
  match rows with
  | [] => mret None
  | first :: others =>
      let '(vcat, alias_path) := alias_of first in
      let path := if (a_prio first =? 1)%Z then (SplitName vname).2 else vname in
      match List.find (λ row, negb (bool_decide (alias_of row = alias_of first)))
              (as_well (a_prio first) (KeySize alias_path) others) with
      | Some other =>
          refused NO_ACCESS (ambiguous_alias vname (alias_name (alias_of first)) (alias_name (alias_of other)))
      | None =>
          written ← thrown (FromKey path "a name");
          let alias_parts := KeySize alias_path in
          if (alias_parts =? 0)%nat || (length written <=? alias_parts)%nat then mret None
          else
            let tail := ToKey (drop alias_parts written) in
            let same := List.filter (λ row, (a_prio row =? a_prio first)%Z && bool_decide (alias_of row = alias_of first))
                          rows in
            u ← thrown (unite_rows capability (map (λ row, (a_caps row, a_chain row, a_grole row)) same) nothing_united);
            RequireStoredExpressions vname EmptyString [] (united_roles u) ≫= λ _,
            policy ← thrown (ApplyGrantPolicy vname (united_grants u) []
                               (alias_policy vcat alias_path (value_text (a_phys_path first)) tail u));
            mret (Some {| found_policy := policy;
                          told := NoteUnionWidens (JoinKeys vcat alias_path) capability (united_roles u) [] |})
      end
  end.

(** [ResolveTable] behind its cache: a stored object, else one under a live schema alias *)
Definition through_alias (p : TablePolicy) : TablePolicy := {|
  subquery_form := subquery_form p; phys := phys p; canonical := canonical p; projection := projection p; rls := rls p;
  rls_unchecked := rls_unchecked p; query := query p; is_view := is_view p; wrap_sql := wrap_sql p; caps := caps p;
  renames := renames p; writable := writable p; from_schema_alias := true; returning_refused := returning_refused p;
  capability_rows_read := capability_rows_read p; injections := injections p; write_columns := write_columns p;
  write_order := write_order p; visible_columns := visible_columns p; narrowed_reads := narrowed_reads p;
  field_writes := field_writes p; casts := casts p; granted_items := granted_items p |}.
Definition LookupTable (who : Principal) (vname capability : string) : answer (option Resolution) :=
  relation ← LookupRelation who vname capability;
  match relation with
  | Some found => mret (Some found)
  | None =>
      alias ← LookupSchemaAlias who vname capability;
      mret ((λ found, {| found_policy := through_alias (found_policy found); told := told found |}) <$> alias)
  end.

(** ** Functions *)
Definition kind_name (table_kind : bool) : string := if table_kind then "table" else "scalar".
Definition function_of (row : function_row) : string * string := (value_text (f_vcat row), value_text (f_vname row)).
Definition function_base (row : function_row) (u : United) : TablePolicy := {|
  subquery_form := negb (String.eqb (value_text (f_form row)) "alias"); phys := text_of (f_target row);
  canonical := EmptyString; projection := []; rls := EmptyString; rls_unchecked := false;
  query := text_of (f_template row); is_view := false; wrap_sql := EmptyString; caps := united_caps u; renames := [];
  writable := false; from_schema_alias := false; returning_refused := EmptyString; capability_rows_read := true;
  injections := []; write_columns := []; write_order := []; visible_columns := []; narrowed_reads := [];
  field_writes := []; casts := []; granted_items := [] |}.
(** [FunctionPolicyFrom]: a call is a read, whose policy the rows that may call it unite *)
Definition FunctionPolicyFrom (first : function_row) (rows : list function_row) (vname : string) (table_kind : bool)
    : answer Resolution :=
  let vcat := value_text (f_vcat first) in
  let same := List.filter (λ row, String.eqb (value_text (f_vcat row)) vcat) rows in
  u ← thrown (unite_rows "select" (map (λ row, (f_caps row, f_chain row, f_grole row)) same) nothing_united);
  RequireStoredExpressions vname EmptyString [] (united_roles u) ≫= λ _,
  policy ← thrown (ApplyFunctionGrantPolicy vname table_kind (united_grants u) (function_base first u));
  mret {| found_policy := policy;
          told := NoteUnionWidens (JoinKeys vcat (value_text (f_vname first))) "select" (united_roles u) [] |}.
(** [ResolveFunction] behind its cache *)
Definition LookupFunction (who : Principal) (vname : string) (table_kind : bool) : answer (option Resolution) :=
  rows ← function_rows who vname (SplitName vname) table_kind;
  match rows with
  | [] => mret None
  | first :: _ =>
      let won := winning f_prio (f_prio first) rows in
      if existsb (λ row, negb (bool_decide (function_of row = function_of first))) won
      then refused NO_ACCESS
             ("acl: ambiguous name " +:+ dq +:+ vname +:+ dq +:+ " - it matches more than one " +:+ kind_name table_kind
              +:+ " function of the policy (names compare case-insensitively)")
      else found ← FunctionPolicyFrom first won vname table_kind; mret (Some found)
  end.

(** ** What the MAIN catalog and the catalogs give *)
Definition holding (capability : string) (stored : Value) : answer bool :=
  held ← thrown (EffectiveCaps stored); mret (ci_mem capability held).
(** [PrincipalMainCap] *)
Fixpoint some_holds (capability : string) (stored : list Value) : answer bool :=
  match stored with
  | [] => mret false
  | caps :: stored => holds ← holding capability caps; if (holds : bool) then mret true else some_holds capability stored
  end.
Definition MainCap (who : Principal) (capability : string) : answer bool :=
  if empty_list (roles who) then mret false
  else stored ← main_grant_caps who; some_holds capability stored.
(** [PrincipalCatalogsWithCap]: each once, whatever its spelling *)
Fixpoint catalogs_holding (capability : string) (rows : list (Value * Value)) (seen : list string)
    : answer (list string) :=
  match rows with
  | [] => mret []
  | (vcat, caps) :: rows =>
      holds ← holding capability caps;
      if holds && negb (ci_mem (value_text vcat) seen) then
        more ← catalogs_holding capability rows (ci_add (value_text vcat) seen); mret (value_text vcat :: more)
      else catalogs_holding capability rows seen
  end.
Definition CatalogsWithCap (who : Principal) (capability : string) : answer (list string) :=
  if empty_list (roles who) then mret []
  else rows ← grant_caps who; catalogs_holding capability rows [].

(** ** [DdlTarget], [HeldSchema] *)
Definition ambiguous_home (vname head home : string) : string :=
  "acl: " +:+ dq +:+ vname +:+ dq +:+ " is ambiguous - catalog " +:+ dq +:+ head +:+ dq +:+ " or schema " +:+ home
  +:+ " of the MAIN catalog; prefix the MAIN catalog's name to mean the schema (the catalog reading needs the operator "
  +:+ "to rename one of them)".
(** The home a row makes of the object's name *)
Definition home_of (object_name : string) (row : ddl_row) : DdlTarget :=
  let path := value_text (d_path row) in
  let origin := text_of (d_origin row) in {|
    vcat := value_text (d_vcat row); schema_path := path; vname := ChildKey path (SplitLeaf object_name).2.2;
    phys_schema := if negb (is_null (d_into row)) then value_text (d_into row)
                   else if is_null (d_phys_path row) then origin else value_text (d_phys_path row);
    needs_record := is_null (d_phys_path row); virtual_only := flag (d_virtual_only row); origin := origin |}.
Definition nowhere (home : DdlTarget) : bool := is_empty (phys_schema home) && negb (virtual_only home).
Fixpoint first_home (capability object_name : string) (rows : list ddl_row) : answer (option DdlTarget) :=
  match rows with
  | [] => mret None
  | row :: rows =>
      holds ← holding capability (d_caps row);
      let home := home_of object_name row in
      if holds && negb (nowhere home) then mret (Some home) else first_home capability object_name rows
  end.
Definition LookupDdlTarget (who : Principal) (name capability : string) : answer (option DdlTarget) :=
  if empty_list (roles who) || function_mode then mret None
  else
    let '(head, rest) := SplitName name in
    rows ← ddl_rows who name (SplitName name);
    let any_qualified := existsb d_qualified rows in
    let main_homes := List.filter d_unqualified rows in
    if any_qualified && negb (empty_list main_homes) then
      let home := match List.last (map Some main_homes) None with
                  | Some row => value_text (d_vcat row) +:+ "." +:+ value_text (d_path row)
                  | None => EmptyString
                  end in
      Failed None true (ambiguous_home name head home)
    else
      let chosen := List.filter (if any_qualified then d_qualified else d_unqualified) rows in
      home ← first_home capability (if any_qualified then rest else name) chosen;
      match home, chosen with
      | Some home, _ => mret (Some home)
      | None, row :: _ =>
          Failed None true ("acl: " +:+ capability +:+ " on schema " +:+ dq +:+ value_text (d_path row) +:+ dq
                            +:+ " is not allowed")
      | None, [] => mret None
      end.

(** The rows that hold something: `CAPS '{}'` holds nothing *)
Fixpoint holding_rows (rows : list schema_row) : answer (list schema_row) :=
  match rows with
  | [] => mret []
  | row :: rows =>
      held ← thrown (EffectiveCaps (s_caps row));
      more ← holding_rows rows;
      mret (if empty_list held then more else row :: more)
  end.
Definition LookupHeldSchema (who : Principal) (written : string) : answer (option (string * string)) :=
  if empty_list (roles who) || function_mode then mret None
  else
    rows ← schema_rows who written (SplitName written);
    held ← holding_rows rows;
    if existsb s_qualified held && existsb (λ row, negb (s_qualified row)) held then
      Failed None true
        ("acl: " +:+ dq +:+ written +:+ dq +:+ " is ambiguous - a schema of catalog " +:+ dq +:+ (SplitName written).1
         +:+ dq +:+ " or a schema named so; write the name the other way to choose")
    else mret ((λ row, (value_text (s_vcat row), value_text (s_path row))) <$> List.hd_error held).

(** ** The store's own turns: a name of the default schema, the memory store *)

(** [PolicyStore::ResolveTable] / [ResolveFunctionNamed]: `<vcat>.main.<x>` is the object at the catalog's root when no
    object is stored under that very name *)
Definition with_main_fallback {A} (resolve : string → answer (option A)) (name : string) : answer (option A) :=
  found ← resolve name;
  match found, MainFallback name with
  | Some found, _ => mret (Some found)
  | None, Some root => resolve root
  | None, None => mret None
  end.
(** [PolicyStore::ResolveTableOwnPolicy]: the policy a read goes under, else that of the first verb the principal holds *)
Fixpoint first_held (verbs : list string) (p : TablePolicy) : option string :=
  match verbs with
  | [] => None
  | verb :: verbs => if holds_cap p verb then Some verb else first_held verbs p
  end.
Definition OwnPolicy (resolve : string → string → answer (option TablePolicy)) (name : string)
    : answer (option TablePolicy) :=
  found ← resolve name "select";
  match found with
  | None => mret None
  | Some p =>
      if holds_cap p "select" then mret (Some p)
      else match first_held ["insert"; "update"; "delete"; "merge"] p with
           | Some verb => resolve name verb
           | None => mret (Some p)
           end
  end.
(** [PolicyStore::Resolve]: the first of the principal's roles that holds the name *)
Fixpoint MemoryResolve (space : list (string * list (string * TablePolicy))) (held : list string) (name : string)
    : option TablePolicy :=
  match held with
  | [] => None
  | role :: held =>
      match ci_find role space ≫= ci_find name with
      | Some p => Some p
      | None => MemoryResolve space held name
      end
  end.
End lookups.
