(* ===== verification/GrantLaws.v ===== *)
(** * What a united grant lets through

    The rows: a predicate united over roles admits a row exactly when one of the roles that hold the capability does, on
    every level of its chain ([relation_rows_are_some_roles]).  What a filter's text admits of a row is the interface
    [Filters], whose law is what AND, OR and parentheses mean of texts that are one expression. *)
From S2P Require Import Prelude NamePath FieldPaths PolicyTypes Tree Token RewriteData Grants PolicyLookup.

(** ** Filters *)

(** What a predicate's text admits of a row.  SQL: a conjunction of texts each in its parentheses holds where all of them
    do, a disjunction where one does - of texts that stay one expression where they are put. *)
Class Filters (Row : Type) := { admits : string → Row → bool }.

(** A stored text, and what the union makes of stored texts *)
Inductive filter_text `{SU : StringUtil} `{PP : PolicyParser} : string → Prop :=
  | stored_text text : one_expression text = true → filter_text text
  | all_of texts : texts ≠ [] → Forall filter_text texts → filter_text (joined " AND " texts)
  | one_of texts : texts ≠ [] → Forall filter_text texts → filter_text (joined " OR " texts).

Class FiltersLaws (Row : Type) `{SU : StringUtil} `{PP : PolicyParser} `{!Filters Row} : Prop := {
  admits_all : ∀ texts (r : Row), texts ≠ [] → Forall filter_text texts →
    admits (joined " AND " texts) r = forallb (λ text, admits text r) texts;
  admits_one : ∀ texts (r : Row), texts ≠ [] → Forall filter_text texts →
    admits (joined " OR " texts) r = existsb (λ text, admits text r) texts;
}.

Lemma existsb_false_elem {A} (f : A → bool) l x : existsb f l = false → x ∈ l → f x = false.
Proof.
  intros He Hx. destruct (f x) eqn:Hf; [|done]. rewrite -He. symmetry. apply existsb_exists. exists x.
  by rewrite -list_elem_of_In.
Qed.

Lemma existsb_eq_in {A} (f g : A → bool) l : (∀ x, x ∈ l → f x = g x) → existsb f l = existsb g l.
Proof.
  intros Hfg. induction l as [|x l IH]; [done|]. simpl. f_equal; [apply Hfg; set_solver|apply IH; set_solver].
Qed.

Lemma existsb_filter {A} (f g : A → bool) l : existsb f (List.filter g l) = existsb (λ x, g x && f x) l.
Proof. induction l as [|x l IH]; [done|]. simpl. rewrite -IH. by destruct (g x). Qed.

Lemma elem_of_concat_map {A B} (f : A → list B) l y : y ∈ concat (map f l) ↔ ∃ x, x ∈ l ∧ y ∈ f x.
Proof.
  rewrite list_elem_of_In in_concat. setoid_rewrite in_map_iff. setoid_rewrite list_elem_of_In. naive_solver.
Qed.

Section rows.
Context `{SU : StringUtil} `{JR : JsonReader} `{PP : PolicyParser} `{PR : PolicyRows}.

Lemma joined_empty between texts : Forall (λ t, is_empty t = false) texts → is_empty (joined between texts) = empty_list texts.
Proof. by destruct 1 as [|? ? ? [|]]. Qed.

(** What [AddAll] keeps of the rows, whatever the columns come to *)
Lemma Add_rows p u u' :
  Add p u = Ok u' →
  any u' = true
  ∧ unrestricted_rls u' = unrestricted_rls u || is_empty (PolicyPredicate p)
  ∧ union_predicates u' = union_predicates u ++ List.filter (λ t, negb (is_empty t)) [PolicyPredicate p]
  ∧ unrestricted_columns u' = unrestricted_columns u || negb (restricts p).
Proof.
  rw /Add. intros (columns & _ & [= <-])%outcome_bind_ok. simpl. repeat split.
  destruct (is_empty _); [by rw app_nil_r|done].
Qed.
Lemma AddAll_rows ps u u' :
  AddAll ps u = Ok u' →
  any u' = any u || negb (empty_list ps)
  ∧ unrestricted_rls u' = unrestricted_rls u || existsb (λ p, is_empty (PolicyPredicate p)) ps
  ∧ union_predicates u' = union_predicates u ++ List.filter (λ t, negb (is_empty t)) (map PolicyPredicate ps)
  ∧ unrestricted_columns u' = unrestricted_columns u || existsb (λ p, negb (restricts p)) ps.
Proof.
  elim: ps u => [|p ps IH] u /=.
  - intros [= <-]. by rw !orb_false_r app_nil_r.
  - intros (u1 & (Ha & Hr & Hp & Hc)%Add_rows & (-> & -> & -> & ->)%IH)%outcome_bind_ok.
    rw Ha Hr Hp Hc /= !orb_true_r !orb_assoc -app_assoc. by destruct (is_empty _).
Qed.

(** A grant chain's levels *)
Lemma Narrow_predicates r c k p p' :
  Narrow r c k p = Ok p' → predicates p' = predicates p ++ List.filter (λ t, negb (is_empty t)) [r].
Proof.
  rw /Narrow. destruct (empty_list _); [intros [= <-]|intros (? & _ & [= <-])%outcome_bind_ok]; simpl;
    by destruct (is_empty r); rewrite ?app_nil_r.
Qed.
Definition chain_texts (c : chain) : list string :=
  List.filter (λ t, negb (is_empty t)) [text_of (crls c); text_of (orls c)].
Lemma RowPolicy_predicates c p : RowPolicy c = Ok p → predicates p = chain_texts c.
Proof.
  rw /RowPolicy /chain_texts. intros (p1 & H1%Narrow_predicates & H2%Narrow_predicates)%outcome_bind_ok.
  rw H2 H1 /=. by destruct (is_empty (text_of (crls c))), (is_empty (text_of (orls c))).
Qed.

(** ** The rows of a lookup, united *)
Definition row_held (row : Value * chain * Value) : list string :=
  match EffectiveCaps row.1.1 with Ok held => held | Throw _ => [] end.
Definition row_holds (capability : string) (row : Value * chain * Value) : bool := ci_mem capability (row_held row).
Definition row_policy (row : Value * chain * Value) : GrantPolicy :=
  match RowPolicy row.1.2 with Ok p => p | Throw _ => no_grant_policy end.

(** Every row gave its capabilities; those that hold the one exercised were united in their order *)
Definition united_as (capability : string) (rows : list (Value * chain * Value)) (u u' : United) : Prop :=
  let exercised := List.filter (row_holds capability) rows in
  Forall (λ row, EffectiveCaps row.1.1 = Ok (row_held row)) rows
  ∧ Forall (λ row, RowPolicy row.1.2 = Ok (row_policy row)) exercised
  ∧ united_roles u' = united_roles u ++ map (λ row, (value_text row.2, row_policy row)) exercised
  ∧ AddAll (map row_policy exercised) (united_grants u) = Ok (united_grants u')
  ∧ united_caps u' = fold_left (λ caps cap, ci_add cap caps) (concat (map row_held rows)) (united_caps u)
  ∧ united_read u' = united_read u && forallb (row_holds "select") exercised.
Lemma unite_rows_as capability rows u u' : unite_rows capability rows u = Ok u' → united_as capability rows u u'.
Proof.
  elim: rows u => [|row rows IH] u /=.
  - intros [= <-]. rw /united_as /= !app_nil_r andb_true_r. by repeat split.
  - intros (u1 & Hrow & (Hc & Hp & Hr & Ha & Hcaps & Hread)%IH)%outcome_bind_ok.
    move: Hrow. rw /unite_row. intros (held & Hheld & Hrow)%outcome_bind_ok.
    assert (Hh : row_held row = held); [by rewrite /row_held Hheld|].
    assert (Hm : ∀ cap, row_holds cap row = ci_mem cap held); [by intros cap; rewrite /row_holds Hh|].
    rewrite /united_as /= Hm Hh fold_left_app. destruct (ci_mem capability held).
    + apply outcome_bind_ok in Hrow as (p & HP & (g & Hg & [= <-])%outcome_bind_ok).
      assert (Hpp : row_policy row = p); [by rewrite /row_policy HP|].
      simpl in *. rewrite Hpp Hg Hm andb_assoc /=. split_and!; try done.
      * constructor; [by rewrite Hh|done].
      * constructor; [by rewrite Hpp|done].
      * by rewrite Hr -app_assoc.
    + injection Hrow as <-. simpl in *. split_and!; try done. constructor; [by rewrite Hh|done].
Qed.

(** ** The filter of an object *)
Lemma renamed_columns_rls vname cs listed p p' :
  declared_grant vname cs listed p = Ok p' → rls p' = rls p ∧ query p' = query p.
Proof. rw /declared_grant. by intros (? & _ & [= <-])%outcome_bind_ok. Qed.
Lemma undeclared_grant_rls listed p p' : undeclared_grant listed p = Ok p' → rls p' = rls p.
Proof. rw /undeclared_grant. by intros (? & _ & [= <-])%outcome_bind_ok. Qed.
Lemma narrow_to_list_rls vname g cs p p' : narrow_to_list vname g cs p = Ok p' → rls p' = rls p.
Proof.
  rw /narrow_to_list. intros (listed & _ & Hn)%outcome_bind_ok. destruct cs; [by apply undeclared_grant_rls in Hn|].
  destruct (List.find _ _); [done|]. by apply renamed_columns_rls in Hn as [].
Qed.
Lemma and_of a b : "(" +:+ a +:+ ") AND (" +:+ b +:+ ")" = joined " AND " [a; b].
Proof. by rewrite /joined /= -!string_app_assoc. Qed.
Lemma ApplyGrantPolicy_rls vname g cs p p' :
  ApplyGrantPolicy vname g cs p = Ok p' → is_empty (query p) = true →
  rls p' = if is_empty (UnionPredicate g) then rls p
           else if is_empty (rls p) then UnionPredicate g else "(" +:+ rls p +:+ ") AND (" +:+ UnionPredicate g +:+ ")".
Proof.
  rw /ApplyGrantPolicy => HA Hq. move: HA. rw /= Hq /=.
  destruct (is_empty (UnionPredicate g)), (Restricts g); simpl; first [by intros [= <-] | by move=> /narrow_to_list_rls ->].
Qed.

Context {Row : Type} `{!Filters Row} `{FL : !FiltersLaws Row}.
Implicit Types r : Row.

(** What a filter reads: no filter, every row *)
Definition read_under (filter : string) (r : Row) : bool := is_empty filter || admits filter r.
(** A chain reads what both its levels do *)
Definition chain_reads (c : chain) (r : Row) : bool := read_under (text_of (crls c)) r && read_under (text_of (orls c)) r.

Lemma read_under_all texts r :
  Forall (λ t, is_empty t = false) texts → Forall filter_text texts →
  read_under (joined " AND " texts) r = forallb (λ t, admits t r) texts.
Proof.
  intros Hne Ht. rewrite /read_under joined_empty //. destruct texts as [|t ts]; [done|]. by rw admits_all.
Qed.
Lemma filter_nonempty texts : Forall (λ t, is_empty t = false) (List.filter (λ t, negb (is_empty t)) texts).
Proof. apply Forall_forall. intros t [_ Ht]%elem_of_filter_true. by destruct (is_empty t). Qed.
Lemma chain_filter c p r :
  RowPolicy c = Ok p → Forall filter_text (predicates p) → read_under (PolicyPredicate p) r = chain_reads c r.
Proof.
  intros Hp%RowPolicy_predicates. rw /PolicyPredicate Hp. intros Ht.
  rewrite read_under_all //; [by apply filter_nonempty|]. rewrite /chain_texts /chain_reads /read_under /=.
  by destruct (is_empty (text_of (crls c))), (is_empty (text_of (orls c))); rewrite /= ?andb_true_r.
Qed.

(** The union reads what one of its roles does *)
Lemma union_filter ps u r :
  AddAll ps no_grants = Ok u → Forall (λ p, Forall filter_text (predicates p)) ps →
  Forall (λ p, Forall (λ t, is_empty t = false) (predicates p)) ps →
  read_under (UnionPredicate u) r = empty_list ps || existsb (λ p, read_under (PolicyPredicate p) r) ps
  ∧ (is_empty (UnionPredicate u) = false → filter_text (UnionPredicate u)).
Proof.
  intros (_ & Hr & Hp & _)%AddAll_rows Ht Hne. rewrite /UnionPredicate Hr /=.
  destruct (existsb _ ps) eqn:He.
  { split; [|done]. symmetry. apply orb_true_iff. right. move: He.
    rewrite !existsb_exists. intros (p & Hin & Hem). exists p. split; [done|]. by rewrite /read_under Hem. }
  assert (Hf : List.filter (λ t, negb (is_empty t)) (map PolicyPredicate ps) = map PolicyPredicate ps).
  { clear -He. induction ps as [|p ps IH]; [done|]. simpl in *. apply orb_false_iff in He as [-> He]. simpl. by rewrite IH. }
  assert (Hall : Forall filter_text (map PolicyPredicate ps)).
  { apply Forall_map. apply Forall_forall. intros p Hin. rewrite /PolicyPredicate. apply all_of.
    - intros Hnil. move: (existsb_false_elem _ _ p He Hin). by rewrite /PolicyPredicate Hnil.
    - rewrite Forall_forall in Ht. by apply Ht. }
  rewrite Hp Hf /=. destruct ps as [|p ps]; [done|]. split; [|intros _; by apply one_of].
  rewrite {1}/read_under joined_empty.
  { apply Forall_map, Forall_forall. intros q Hq. by apply (existsb_false_elem _ _ q He). }
  rewrite admits_one // existsb_map. apply existsb_eq_in. intros q Hq.
  by rewrite /read_under (existsb_false_elem _ _ q He Hq).
Qed.

(** What a lookup admits of a stored text *)
Lemma stored_texts object own cs united :
  RequireStoredExpressions object own cs united = Answered () →
  Forall (λ t, is_empty t = false → filter_text t) (own :: concat (map (λ role, predicates role.2) united)).
Proof.
  rw /RequireStoredExpressions. destruct (StoredExpressionsOk _) eqn:Hok; [intros _|done].
  move: Hok. rewrite /StoredExpressionsOk forallb_forall => Hok.
  assert (Ht : ∀ t, t ∈ policy_texts own cs united → is_empty t = false → filter_text t).
  { intros t Hin Ht. apply stored_text. rewrite list_elem_of_In in Hin. move: (Hok t Hin). by rewrite Ht. }
  apply Forall_cons. split; [apply Ht; rewrite /policy_texts; set_solver|].
  apply Forall_forall. intros t (role & Hrole & Hin)%elem_of_concat_map. apply Ht.
  rewrite /policy_texts. apply list_elem_of_further, elem_of_app. right. apply elem_of_concat_map. exists role.
  by rewrite elem_of_app; auto.
Qed.
Lemma united_filter capability rows u own object cs r :
  unite_rows capability rows nothing_united = Ok u →
  RequireStoredExpressions object own cs (united_roles u) = Answered () →
  read_under (UnionPredicate (united_grants u)) r
  = empty_list (List.filter (row_holds capability) rows)
    || existsb (λ row, row_holds capability row && chain_reads row.1.2 r) rows
  ∧ (is_empty (UnionPredicate (united_grants u)) = false → filter_text (UnionPredicate (united_grants u))).
Proof.
  intros (_ & Hp & Hr & Ha & _)%unite_rows_as (_ & Ht)%stored_texts%Forall_cons. simpl in *.
  set (exercised := List.filter (row_holds capability) rows) in *.
  assert (Hne : Forall (λ p, Forall (λ t, is_empty t = false) (predicates p)) (map row_policy exercised)).
  { apply Forall_map. eapply Forall_impl; [exact Hp|]. simpl. intros row ->%RowPolicy_predicates. apply filter_nonempty. }
  assert (Hft : Forall (λ p, Forall filter_text (predicates p)) (map row_policy exercised)).
  { apply Forall_forall. intros p Hin. apply Forall_forall. intros t Hint.
    rewrite Forall_forall in Ht. apply Ht.
    - apply list_elem_of_fmap in Hin as (row & -> & Hin). rewrite Hr. apply elem_of_concat_map.
      exists (value_text row.2, row_policy row). split; [|done]. apply list_elem_of_fmap. by exists row.
    - rewrite Forall_forall in Hne. move: (Hne p Hin). rewrite Forall_forall. auto. }
  destruct (union_filter _ _ r Ha Hft Hne) as [Hread Hte]. split; [|done].
  rewrite Hread existsb_map. f_equal; [by destruct exercised|].
  transitivity (existsb (λ row, chain_reads row.1.2 r) exercised); [|by rewrite /exercised existsb_filter].
  apply existsb_eq_in. intros row Hin. apply chain_filter.
  - rewrite Forall_forall in Hp. by apply Hp.
  - rewrite Forall_forall in Hft. apply Hft, list_elem_of_fmap. by exists row.
Qed.
Lemma read_under_both a b r : filter_text a → filter_text b → is_empty a = false → is_empty b = false →
  read_under ("(" +:+ a +:+ ") AND (" +:+ b +:+ ")") r = read_under a r && read_under b r.
Proof.
  intros Ha Hb Hna Hnb. rewrite and_of /read_under joined_empty; [by repeat constructor|].
  rewrite Hna Hnb admits_all; [done|by rewrite Forall_cons Forall_singleton|]. by rewrite /= andb_true_r.
Qed.
(** An object's filter, its own and the union *)
Lemma applied_filter vname g cs p p' r :
  ApplyGrantPolicy vname g cs p = Ok p' → is_empty (query p) = true →
  (is_empty (rls p) = false → filter_text (rls p)) →
  (is_empty (UnionPredicate g) = false → filter_text (UnionPredicate g)) →
  read_under (rls p') r = read_under (rls p) r && read_under (UnionPredicate g) r.
Proof.
  intros HA Hq Hown Hunion. rewrite (ApplyGrantPolicy_rls _ _ _ _ _ HA Hq).
  destruct (is_empty (UnionPredicate g)) eqn:Hu; [by rewrite {3}/read_under Hu andb_true_r|].
  destruct (is_empty (rls p)) eqn:Hr; [by rewrite {2}/read_under Hr|]. by apply read_under_both; auto.
Qed.

(** What the application leaves of the object *)
Lemma declared_grant_keeps vname cs listed p p' : declared_grant vname cs listed p = Ok p' → caps p' = caps p.
Proof. rw /declared_grant. by intros (? & _ & [= <-])%outcome_bind_ok. Qed.
Lemma ApplyGrantPolicy_caps vname g cs p p' : ApplyGrantPolicy vname g cs p = Ok p' → caps p' = caps p.
Proof.
  rw /ApplyGrantPolicy /=. destruct (negb (is_empty (query p)) && _).
  { by intros (? & _ & [= <-])%outcome_bind_ok. }
  destruct (is_empty (UnionPredicate g) && _); [by intros [= <-]|].
  destruct (negb (is_empty (query p))); [by intros (? & _ & [= <-])%outcome_bind_ok|].
  destruct (Restricts g); [|by intros [= <-]].
  rw /narrow_to_list. intros (listed & _ & Hn)%outcome_bind_ok. destruct cs.
  - move: Hn. rw /undeclared_grant. by intros (? & _ & [= <-])%outcome_bind_ok.
  - destruct (List.find _ _); [done|]. by move: Hn => /declared_grant_keeps ->.
Qed.
Lemma united_caps_held `{!StringUtilLaws} capability rows u :
  unite_rows capability rows nothing_united = Ok u →
  ∀ cap, ci_mem cap (united_caps u) = existsb (row_holds cap) rows.
Proof.
  intros (_ & _ & _ & _ & Hc & _)%unite_rows_as cap. rewrite Hc /=.
  assert (Hf : ∀ more caps, ci_mem cap (fold_left (λ caps cap, ci_add cap caps) more caps) = ci_mem cap caps || ci_mem cap more).
  { intros more. induction more as [|c more IH]; intros caps; simpl; [by rewrite orb_false_r|].
    rewrite IH ci_mem_add /=. by destruct (CIEquals c cap), (ci_mem cap caps). }
  rewrite Hf /=. clear. induction rows as [|row rows IH]; [done|]. simpl. rewrite {1}/ci_mem existsb_app. by f_equal.
Qed.
(** ** The properties *)

Definition row_parts (row : relation_row) : Value * chain * Value := (r_caps row, r_chain row, r_grole row).
(** A row of the winning reading that holds the capability and whose chain reads [r] *)
Definition row_reads (capability : string) (r : Row) (row : relation_row) : bool :=
  row_holds capability (row_parts row) && chain_reads (r_chain row) r.

Lemma lookup_parts who vname capability first more found :
  relation_rows who vname (SplitName vname) (unqualified_name vname) = Answered (first :: more) →
  LookupRelation who vname capability = Answered (Some found) →
  let won := winning r_prio (r_prio first) (first :: more) in
  (∀ row, row ∈ won → object_of row = object_of first)
  ∧ ∃ u, unite_rows capability (map row_parts won) nothing_united = Ok u
       ∧ RequireStoredExpressions vname (text_of (r_rls first)) (own_columns first) (united_roles u) = Answered ()
       ∧ ApplyGrantPolicy vname (united_grants u) (own_columns first) (own_policy first u) = Ok (found_policy found).
Proof.
  intros Hrows. rw /LookupRelation. intros (rows & HR & HL)%answer_bind_answered. rewrite Hrows in HR.
  injection HR as <-. destruct (existsb _ _) eqn:He; [done|].
  apply answer_bind_answered in HL as (u & Hu%thrown_answered & HL).
  apply answer_bind_answered in HL as ([] & Hs & HL).
  apply answer_bind_answered in HL as (policy & Hp%thrown_answered & [= <-]).
  split; [|by exists u]. intros row Hin. apply (existsb_false_elem _ _ _ He) in Hin.
  destruct (String.eqb_spec (object_of row) (object_of first)); done.
Qed.

(** C3: the rows a principal reads or writes of a table are those some one of its roles gives it: under the policy the
    lookup composes, a row passes exactly when it passes the object's own filter and, on some row of the winning reading
    whose role holds the capability exercised, both levels of that role's grant chain - for any roles, levels and filter
    texts.  The texts themselves are held to stay one expression by the lookup itself, which refuses them otherwise. *)
Theorem relation_rows_are_some_roles `{!StringUtilLaws} who vname capability first more found r :
  relation_rows who vname (SplitName vname) (unqualified_name vname) = Answered (first :: more) →
  LookupRelation who vname capability = Answered (Some found) →
  is_empty (text_of (r_view_sql first)) = true →
  holds_cap (found_policy found) capability = true →
  read_under (rls (found_policy found)) r
  = read_under (text_of (r_rls first)) r
    && existsb (row_reads capability r) (winning r_prio (r_prio first) (first :: more)).
Proof.
  intros Hrows HL Hq Hcap. destruct (lookup_parts _ _ _ _ _ _ Hrows HL) as (_ & u & Hu & Hs & Hp).
  destruct (united_filter _ _ _ _ _ _ r Hu Hs) as [Hread Htext]. apply stored_texts, Forall_cons in Hs as Hown.
  rewrite (applied_filter _ _ _ _ _ r Hp) //; [by apply Hown|]. f_equal. rewrite Hread existsb_map.
  rewrite /holds_cap (ApplyGrantPolicy_caps _ _ _ _ _ Hp) (united_caps_held _ _ _ Hu) in Hcap.
  destruct (List.filter _ _) eqn:Hf; [|done]. apply existsb_exists in Hcap as (row & Hin & Hh).
  assert (row ∈ []) as Hno%not_elem_of_nil; [|done]. rewrite -Hf elem_of_filter_true list_elem_of_In. by split.
Qed.
End rows.
