(* ===== verification/GrantColumns.v ===== *)
(** * The columns a united grant shows, for lists of whole columns

    A list without field paths: each item a column, in the clear or masked.  Roles unite ([some_role_shows]); an object
    that declares its columns shows the listed ones in its own order, writes only those, and its masked ones are assigned
    ([granted_columns]); a list that names none of them leaves a policy that reads as no column policy at all
    ([nothing_listed_is_no_policy]). *)
From S2P Require Import Prelude NamePath FieldPaths PolicyTypes Tree Token RewriteData RewriteDml RewriteRefs Grants PolicyLookup GrantLaws.

Section flat.
Context `{SUL : StringUtilLaws}.

(** A list of whole columns: each once, its name as it is stored *)
Definition names_of (items : list (string * string)) : list string := map (λ it, Lower it.1) items.
Definition flat_list (items : list (string * string)) : Prop :=
  HasFieldPaths items = false ∧ NoDup (names_of items) ∧ Forall (λ it, Trim it.1 = it.1) items.

Definition flat_node (it : string * string) : FieldNode :=
  Node it.1 (is_empty it.2) (negb (is_empty it.2)) it.2 [] None.
Definition flat_listed (it : string * string) : ListedColumn :=
  {| listed_name := it.1; listed_mask := it.2; listed_tree := None |}.

Lemma update_field_new nm f l : find_field nm l = None → update_field nm f l = (c ← f (new_node nm); Ok (l ++ [c])).
Proof.
  induction l as [|c l IH]; [done|]. simpl. destruct (CIEquals (name c) nm); [done|]. intros Hf. rewrite IH //.
  by destruct (f (new_node nm)).
Qed.
Lemma find_flat nm items : find_field nm (map flat_node items) = flat_node <$> column_in nm items.
Proof. induction items as [|it items IH]; [done|]. rewrite /column_in /=. by destruct (CIEquals it.1 nm). Qed.
Lemma column_unlisted nm items : Lower nm ∉ names_of items → column_in nm items = None.
Proof.
  rewrite /column_in. induction items as [|it items IH]; [done|]. simpl. rewrite not_elem_of_cons. intros [Hn Hl].
  destruct (CIEquals it.1 nm) eqn:Hc; [|by apply IH]. apply CIEquals_true in Hc. by rewrite Hc in Hn.
Qed.
Lemma column_in_some nm items it : column_in nm items = Some it → it ∈ items ∧ CIEquals it.1 nm = true.
Proof. rewrite /column_in. intros [Hin Hc]%find_some. by rewrite list_elem_of_In. Qed.
Lemma column_in_elem items it : NoDup (names_of items) → it ∈ items → column_in it.1 items = Some it.
Proof.
  rewrite /column_in. induction items as [|i items IH]; [by intros _ ?%not_elem_of_nil|]. simpl.
  intros [Hn Hnd]%NoDup_cons [->|Hin]%elem_of_cons; [by rewrite CIEquals_refl|].
  destruct (CIEquals i.1 it.1) eqn:Hc; [|by apply IH]. apply CIEquals_true in Hc.
  destruct Hn. rewrite Hc. apply list_elem_of_fmap. by exists it.
Qed.
Lemma column_in_ci a b items : CIEquals a b = true → column_in a items = column_in b items.
Proof.
  intros Hab. rewrite /column_in. induction items as [|it items IH]; [done|]. simpl.
  by rewrite IH (CIEquals_sym it.1 a) (CIEquals_sym it.1 b) (CIEquals_trans _ _ _ Hab).
Qed.

Lemma filter_names (f : string * string → bool) items : NoDup (names_of items) → NoDup (names_of (List.filter f items)).
Proof.
  rewrite /names_of. induction items as [|it items IH]; [done|]. simpl. intros [Hn Hnd]%NoDup_cons.
  destruct (f it); [|by apply IH]. simpl. apply NoDup_cons. split; [|by apply IH].
  intros (i & Hi & [Hin _]%elem_of_filter_true)%list_elem_of_fmap. destruct Hn. apply list_elem_of_fmap. by exists i.
Qed.
Lemma omap_ext_in {A B} (f g : A → option B) (l : list A) : (∀ x, x ∈ l → f x = g x) → omap f l = omap g l.
Proof.
  intros Hfg. induction l as [|x l IH]; [done|]. csimpl. rewrite (Hfg x); [set_solver|].
  rewrite IH; [|done]. intros y Hy. apply Hfg. set_solver.
Qed.

(** [ColumnTrees::From] of such a list: one node an item *)
Lemma insert_flat items more :
  HasFieldPaths more = false → NoDup (names_of (items ++ more)) → Forall (λ it, Trim it.1 = it.1) more →
  insert_items more (map flat_node items) = Ok (map flat_node (items ++ more)).
Proof.
  revert items. induction more as [|[nm m] more IH]; intros items; [by rewrite app_nil_r|].
  intros [Hm Hmore]%orb_false_iff Hnd [Ht Htr]%Forall_cons. simpl in *.
  assert (Hi : insert_item (nm, m) (map flat_node items) = Ok (map flat_node (items ++ [(nm, m)]))).
  { rewrite /insert_item /item_path /= Ht -?orb_assoc. rewrite /item_path Ht in Hm. rewrite orb_assoc Hm /=.
    rewrite update_field_new; last first.
    - rewrite /InsertPath /= map_app /flat_node /=. destruct (is_empty m) eqn:Hem; [by apply is_empty_spec in Hem as ->|done].
    - rewrite find_flat column_unlisted //. rewrite /names_of map_app /= in Hnd.
      apply NoDup_app in Hnd as (_ & Hd & _). intros Hin. apply (Hd _ Hin). by left. }
  rewrite Hi /=. replace (items ++ (nm, m) :: more) with ((items ++ [(nm, m)]) ++ more); [|by rewrite -app_assoc].
  apply IH; [done| |done]. by rewrite -app_assoc.
Qed.
Lemma ListColumns_flat items : flat_list items → ListColumns items = Ok (map flat_listed items).
Proof.
  intros (Hf & Hnd & Ht). rewrite /ListColumns /From (insert_flat [] items) //= map_map map_map. f_equal.
  apply map_ext. intros [nm m]. rewrite /listed_column /flat_node /flat_listed /Simplify /=.
  destruct (is_empty m) eqn:Hm; [by apply is_empty_spec in Hm as ->|done].
Qed.

(** ** In the object's order *)
Lemma take_flat nm items :
  NoDup (names_of items) →
  take_listed nm (map flat_listed items)
  = (λ it, (flat_listed it, map flat_listed (List.filter (λ i, negb (CIEquals nm i.1)) items))) <$> column_in nm items.
Proof.
  rewrite /column_in. induction items as [|it items IH]; [done|]. simpl. intros [Hn Hnd]%NoDup_cons.
  rewrite (CIEquals_sym it.1 nm). destruct (CIEquals nm it.1) eqn:Hc; simpl.
  - do 3 f_equal. rewrite filter_all; [|done]. apply Forall_forall. intros i Hi.
    destruct (CIEquals nm i.1) eqn:Hi1; [|done]. destruct Hn. apply list_elem_of_fmap. exists i. split; [|done].
    apply CIEquals_true in Hc, Hi1. congruence.
  - rewrite IH //. by destruct (List.find _ items).
Qed.
Lemma column_in_others nm other items :
  CIEquals other nm = false →
  column_in nm (List.filter (λ i, negb (CIEquals other i.1)) items) = column_in nm items.
Proof.
  intros Ho. rewrite /column_in. induction items as [|it items IH]; [done|]. simpl.
  destruct (CIEquals other it.1) eqn:Hc; simpl; rewrite IH; [|done].
  destruct (CIEquals it.1 nm) eqn:Hn; [|done]. by rewrite (CIEquals_trans _ _ nm Hc) Hn in Ho.
Qed.
Lemma ordered_flat cs items :
  NoDup (names_of items) → NoDup (names_of cs) →
  ordered_columns cs (map flat_listed items) = omap (λ d, flat_listed <$> column_in d.1 items) cs.
Proof.
  revert items. induction cs as [|d cs IH]; intros items Hi; [done|]. simpl. intros [Hd Hcs]%NoDup_cons.
  rewrite take_flat //. destruct (column_in d.1 items) as [it|] eqn:Hit; simpl; [|by apply IH].
  f_equal. rewrite IH //; [by apply filter_names|]. apply omap_ext_in. intros d' Hd'. rewrite column_in_others //.
  destruct (CIEquals d.1 d'.1) eqn:Hc; [|done]. apply CIEquals_true in Hc. destruct Hd. rewrite Hc.
  apply list_elem_of_fmap. by exists d'.
Qed.

(** ** What is stored under a listed column *)

(** A declared column: its expression or name, and whether that is a name *)
Definition stored_as (d : string * string) : string * bool := if is_empty d.2 then (d.1, true) else (d.2, false).
(** The renames of an alias are among the object's columns *)
Definition renames_of (cs renamed : list (string * string)) : Prop :=
  Forall (λ rename, rename ∈ cs ∧ is_empty rename.2 = false) renamed.

Lemma same_column cs d d' : NoDup (names_of cs) → d ∈ cs → d' ∈ cs → CIEquals d.1 d'.1 = true → d = d'.
Proof.
  intros Hcs Hd Hd' Hc. apply (column_in_elem cs) in Hd; [|done]. apply (column_in_elem cs) in Hd'; [|done].
  rewrite (column_in_ci _ _ cs Hc) Hd' in Hd. congruence.
Qed.
Lemma renamed_source_stored vname cs renamed d nm s :
  NoDup (names_of cs) → renames_of cs renamed → d ∈ cs → CIEquals d.1 nm = true →
  renamed_source vname nm renamed (stored_as d) = Ok s → s = stored_as d.
Proof.
  intros Hcs Hr Hd Hnm. induction Hr as [|rename renamed [Hin Hne] _ IH]; simpl; [by intros [= <-]|].
  destruct (CIEquals rename.1 nm) eqn:H1; [|by destruct (CIEquals rename.2 nm)].
  intros [= <-]. assert (rename = d) as ->; [|by rewrite /stored_as Hne].
  apply (same_column cs rename d Hcs Hin Hd). by rewrite (CIEquals_trans _ _ d.1 H1) CIEquals_sym.
Qed.
Lemma source_of_stored vname cs renamed d it s :
  NoDup (names_of cs) → renames_of cs renamed → d ∈ cs → CIEquals it.1 d.1 = true →
  source_of vname cs renamed (flat_listed it) = Ok s → s = stored_as d.
Proof.
  intros Hcs Hr Hd Hit. rewrite /source_of /defined_source /=.
  rewrite -/(column_in it.1 cs) (column_in_ci _ _ cs Hit) (column_in_elem cs d Hcs Hd).
  apply (renamed_source_stored _ cs); try done. by rewrite CIEquals_sym.
Qed.

(** ** The columns a list gives *)

(** A declared column and the item that lists it *)
Definition shown_columns (cs items : list (string * string)) : list ((string * string) * (string * string)) :=
  omap (λ d, (λ it, (d, it)) <$> column_in d.1 items) cs.
Definition given_source (s : (string * string) * (string * string)) : string := (stored_as s.1).1.
Definition shown_item (s : (string * string) * (string * string)) : string :=
  read_as (flat_listed s.2) (if (stored_as s.1).2 then SqlIdentifier (given_source s) else given_source s).

Lemma shown_columns_listed cs items s :
  s ∈ shown_columns cs items → s.1 ∈ cs ∧ s.2 ∈ items ∧ CIEquals s.2.1 s.1.1 = true.
Proof.
  rewrite /shown_columns. intros (d & Hd & Hs)%list_elem_of_omap. destruct (column_in d.1 items) as [it|] eqn:Hit; [|done].
  injection Hs as <-. apply column_in_some in Hit as []. done.
Qed.
Lemma sources_flat vname cs renamed shown sources :
  NoDup (names_of cs) → renames_of cs renamed →
  Forall (λ s, s.1 ∈ cs ∧ CIEquals s.2.1 s.1.1 = true) shown →
  omapM (λ column, source ← source_of vname cs renamed column; Ok (column, source)) (map (λ s, flat_listed s.2) shown)
  = Ok sources →
  sources = map (λ s : (string * string) * (string * string), (flat_listed s.2, stored_as s.1)) shown.
Proof.
  intros Hcs Hr Hs. revert sources. induction Hs as [|s shown [Hd Hit] _ IH]; intros sources; simpl; [by intros [= <-]|].
  intros (c & (src & Hsrc & [= <-])%outcome_bind_ok & (more & Hmore & [= <-])%outcome_bind_ok)%outcome_bind_ok.
  by rewrite (IH _ Hmore) (source_of_stored _ _ _ _ _ _ Hcs Hr Hd Hit Hsrc).
Qed.

(** What the columns' part comes to *)
Lemma give_flat writable shown c :
  let given := give_columns writable (map (λ s, (flat_listed s.2, given_source s)) shown) c in
  (∀ x, ci_mem x (col_visible given) = ci_mem x (col_visible c) || existsb (λ s, CIEquals (given_source s) x) shown)
  ∧ (∀ x, ci_mem x (col_write given)
          = ci_mem x (col_write c) || writable && existsb (λ s, CIEquals (given_source s) x) shown)
  ∧ col_order given = col_order c ++ (if writable then map (λ s, s.2.1) shown else [])
  ∧ col_injections given
    = col_injections c
      ++ (if writable then map (λ s, (given_source s, s.2.2)) (List.filter (λ s, negb (is_empty s.2.2)) shown) else [])
  ∧ col_narrowed given = col_narrowed c ∧ col_field_writes given = col_field_writes c.
Proof.
  revert c. induction shown as [|s shown IH]; intros c; simpl.
  - destruct writable; rewrite /= ?app_nil_r; repeat split; intros x; by rewrite ?orb_false_r.
  - specialize (IH (give_column writable (flat_listed s.2) (given_source s) c)) as (Hv & Hw & Ho & Hi & Hn & Hf).
    rewrite /give_columns /= in Hv Hw Ho Hi Hn Hf |- *. rewrite Ho Hi Hn Hf /= !app_nil_r.
    split_and!; try done.
    + intros x. by rewrite Hv ci_mem_add -orb_assoc orb_assoc (orb_comm (CIEquals _ _)) orb_assoc.
    + intros x. rewrite Hw. destruct writable; simpl; [|done]. rewrite /Writable /= ci_mem_add.
      by rewrite orb_assoc (orb_comm (CIEquals _ _)).
    + destruct writable; rewrite /Writable /= -?app_assoc //.
    + destruct writable; rewrite /Writable /= -?app_assoc //. by destruct (is_empty s.2.2).
    + destruct (writable && _); by rewrite app_nil_r.
Qed.

(** ** An object that declares its columns, under a list *)
Context `{P : Parsing}.

Lemma omap_fmap_snd cs items :
  omap (λ d, flat_listed <$> column_in d.1 items) cs = map (λ s, flat_listed s.2) (shown_columns cs items).
Proof.
  rewrite /shown_columns. induction cs as [|d cs IH]; [done|]. csimpl.
  destruct (column_in d.1 items); csimpl; by rewrite IH.
Qed.
Lemma ApplyGrantPolicy_listed vname g cs p p' :
  Restricts g = true → is_empty (query p) = true → ApplyGrantPolicy vname g cs p = Ok p' →
  ∃ q, narrow_to_list vname g cs q = Ok p' ∧ projection q = projection p ∧ renames q = renames p
       ∧ writable q = writable p ∧ emptied q = emptied p ∧ query q = query p ∧ phys q = phys p ∧ casts q = casts p.
Proof.
  intros HR Hq. rewrite /ApplyGrantPolicy /= HR Hq /= andb_false_r. intros HA. eexists. split; [exact HA|done].
Qed.

(** C7: an object that declares its columns shows, under a list of whole columns, exactly those it declares that the list
    names - in the object's order, each as its mask or as what is stored - and nothing the list adds.  What a statement may
    read of the target is the columns stored under those; where the object is written, what may be written is the same
    set, an insert that names no columns names them all, and each masked column is assigned its mask. *)
Theorem granted_columns vname g cs p p' :
  Restricts g = true → is_empty (query p) = true → flat_list (union_columns g) → cs ≠ [] → NoDup (names_of cs) →
  renames_of cs (renames p) → ApplyGrantPolicy vname g cs p = Ok p' →
  let shown := shown_columns cs (union_columns g) in
  projection p' = projection p ++ map shown_item shown
  ∧ (∀ x, ci_mem x (visible_columns p') = existsb (λ s, CIEquals (given_source s) x) shown)
  ∧ (∀ x, ci_mem x (write_columns p') = writable p && existsb (λ s, CIEquals (given_source s) x) shown)
  ∧ write_order p' = (if writable p then map (λ s, s.2.1) shown else [])
  ∧ injections p' = injections p ++ (if writable p then map (λ s, (given_source s, s.2.2))
                                                          (List.filter (λ s, negb (is_empty s.2.2)) shown) else []).
Proof.
  intros HR Hq Hflat Hne Hcs Hren HA shown.
  destruct (ApplyGrantPolicy_listed _ _ _ _ _ HR Hq HA) as (q & Hn & Hpr & Hrn & Hw & He & _).
  move: Hn. rewrite /narrow_to_list (ListColumns_flat _ Hflat) /=. destruct cs as [|c0 cs0]; [done|].
  destruct (List.find _ _); [done|]. set (cs := c0 :: cs0) in *. rewrite ordered_flat //; [by destruct Hflat as (_ & ? & _)|].
  rewrite omap_fmap_snd -/shown /declared_grant Hrn.
  intros (sources & Hsrc & [= <-])%outcome_bind_ok. apply sources_flat in Hsrc; [|done..|]; last first.
  { apply Forall_forall. intros s Hs. by apply shown_columns_listed in Hs as (? & _ & ?). }
  subst sources. rewrite !map_map /= Hpr Hw He.
  destruct (give_flat (writable p) shown (emptied p)) as (Hgv & Hgw & Hgo & Hgi & _).
  split; [|split_and!]; [done|exact Hgv|exact Hgw|exact Hgo|exact Hgi].
Qed.

(** ** A list that names no column of the object *)
Lemma nothing_ordered cs items : (∀ d, d ∈ cs → column_in d.1 items = None) → ordered_columns cs (map flat_listed items) = [].
Proof.
  intros Hn. induction cs as [|d cs IH]; [done|]. simpl.
  assert (Ht : take_listed d.1 (map flat_listed items) = None).
  { assert (Hd : column_in d.1 items = None); [apply Hn; set_solver|]. move: Hd. rewrite /column_in.
    clear -SUL. induction items as [|it items IH]; [done|]. simpl. rewrite (CIEquals_sym it.1).
    destruct (CIEquals d.1 it.1); [done|]. by intros ->%IH. }
  rewrite Ht. apply IH. intros d' Hd'. apply Hn. set_solver.
Qed.
Lemma plain_is_dropped cs items :
  Forall (λ it, it.2 = EmptyString) items →
  List.find (λ column, negb (defines cs column) && shows_part column) (map flat_listed items) = None.
Proof. induction 1 as [|it items Hit _ IH]; [done|]. by rewrite /= {1}/shows_part /= Hit /= andb_false_r. Qed.
Lemma nothing_listed vname g cs p :
  flat_list (union_columns g) → Forall (λ it, it.2 = EmptyString) (union_columns g) → cs ≠ [] →
  (∀ d, d ∈ cs → column_in d.1 (union_columns g) = None) →
  narrow_to_list vname g cs p
  = Ok (set_columns (emptied p) (set_reading true (projection p) (rls p) (query p) (casts p) p)).
Proof.
  intros Hflat Hplain Hne Hn. rewrite /narrow_to_list (ListColumns_flat _ Hflat) /=. destruct cs as [|d cs]; [done|].
  rewrite plain_is_dropped // nothing_ordered // /declared_grant /=. by rewrite app_nil_r.
Qed.
Lemma ReadFrom_reads policy from s : read_from policy = Ok from → ReadFrom policy s = (s, inl from).
Proof.
  rewrite /read_from /ReadFrom /KeyToSql. intros (source & Hs & [= <-])%outcome_bind_ok. by rewrite /mbind /M_bind Hs /=.
Qed.

Lemma star_subquery `{PS : PolicySource} `{B : Batch} vname policy from alias columns sample s :
  is_empty (query policy) = true → projection policy = [] → renames policy = [] → is_empty (rls policy) = false →
  read_from policy = Ok from →
  BuildTableSubquery vname policy alias columns sample s
  = (NotePhysical (phys policy) vname;;
     body ← InstantiateSelect ("SELECT *" +:+ from);
     body ← BakeNode None body;
     mret (SubqueryRef (if is_empty alias then vname else alias) columns (Some body) sample)) s.
Proof.
  intros Hq Hp Hr Hrls Hfrom. rewrite /BuildTableSubquery Hq Hp /rename_items Hr Hrls.
  cbn [negb empty_list andb when].
  assert (Hsql : (mret () ≫= λ _ : (), ReadFrom policy ≫= λ from, mret ("SELECT " +:+ "*" +:+ from)) s
                 = (s, inl ("SELECT *" +:+ from))).
  { by rewrite /mbind /M_bind /= (ReadFrom_reads _ _ s Hfrom). }
  by rewrite {1}/mbind {1}/M_bind Hsql.
Qed.

(** C25: a list that comes to nothing on an object that declares its columns is no column policy at all.  The policy the
    application leaves has no columns to read and none to write, which is what a policy without any list has: where the
    object or the grant filters its rows the relation becomes `SELECT *` over what it is stored in, every physical column
    the object never declared included, and any column of it may be written. *)
Theorem nothing_listed_is_no_policy `{PS : PolicySource} `{B : Batch} vname g cs p :
  Restricts g = true → is_empty (query p) = true → flat_list (union_columns g) →
  Forall (λ it, it.2 = EmptyString) (union_columns g) → cs ≠ [] →
  (∀ d, d ∈ cs → column_in d.1 (union_columns g) = None) →
  ∃ p', ApplyGrantPolicy vname g cs p = Ok p'
    ∧ projection p' = projection p ∧ visible_columns p' = [] ∧ write_columns p' = []
    ∧ (∀ column s, RequireWritableColumn p' vname column s = (s, inl ()))
    ∧ (∀ from alias columns sample s,
         projection p = [] → renames p = [] → is_empty (rls p') = false → read_from p' = Ok from →
         BuildTableSubquery vname p' alias columns sample s
         = (NotePhysical (phys p') vname;;
            body ← InstantiateSelect ("SELECT *" +:+ from);
            body ← BakeNode None body;
            mret (SubqueryRef (if is_empty alias then vname else alias) columns (Some body) sample)) s).
Proof.
  intros HR Hq Hflat Hplain Hne Hn. rewrite /ApplyGrantPolicy /= HR Hq /= andb_false_r nothing_listed //.
  eexists. split; [done|]. split_and!; [done..|].
  intros from alias columns sample s Hpr Hren Hrls Hfrom.
  by apply star_subquery.
Qed.

(** ** Roles, united *)

(** A list shows a column in the clear; masks it so *)
Definition plain_in (items : list (string * string)) (col : string) : bool :=
  existsb (λ it, CIEquals it.1 col && is_empty it.2) items.
Definition masked_in (items : list (string * string)) (col m : string) : Prop :=
  ∃ it, it ∈ items ∧ CIEquals it.1 col = true ∧ it.2 = m ∧ is_empty m = false.
Definition role_shows (p : GrantPolicy) (col : string) : bool := negb (restricts p) || plain_in (policy_columns p) col.
Definition union_shows (u : GrantUnion) (col : string) : bool := negb (Restricts u) || plain_in (union_columns u) col.

Lemma plain_in_ci items a b : CIEquals a b = true → plain_in items a = plain_in items b.
Proof.
  intros Hab. rewrite /plain_in. apply existsb_eq_in. intros it _.
  by rewrite (CIEquals_sym it.1 a) (CIEquals_sym it.1 b) (CIEquals_trans _ _ _ Hab).
Qed.
(** What merging one column does *)
Definition merges (c : string * string) (columns merged : list (string * string)) : Prop :=
  (HasFieldPaths columns = false → HasFieldPaths [c] = false → HasFieldPaths merged = false)
  ∧ (∀ col, plain_in merged col = plain_in columns col || plain_in [c] col)
  ∧ (∀ col m, masked_in merged col m → masked_in columns col m ∨ masked_in [c] col m)
  ∧ (∀ col m, masked_in columns col m ∨ masked_in [c] col m → plain_in merged col = false → masked_in merged col m).
Lemma masked_cons c items col m : masked_in (c :: items) col m ↔ masked_in [c] col m ∨ masked_in items col m.
Proof. rewrite /masked_in. set_solver. Qed.
Lemma HasFieldPaths_cons c items : HasFieldPaths (c :: items) = HasFieldPaths [c] || HasFieldPaths items.
Proof. by rewrite /HasFieldPaths /= orb_false_r. Qed.
Lemma plain_cons c items col : plain_in (c :: items) col = plain_in [c] col || plain_in items col.
Proof. by rewrite /plain_in /= orb_false_r. Qed.
Lemma masked_one c col m : masked_in [c] col m ↔ CIEquals c.1 col = true ∧ c.2 = m ∧ is_empty m = false.
Proof. rewrite /masked_in. split; [by intros (it & ->%list_elem_of_singleton & ?)|]. intros ?. exists c. set_solver. Qed.

Lemma merge_column_merges c columns merged : merge_column c columns = Ok merged → merges c columns merged.
Proof.
  revert merged. induction columns as [|e columns IH]; intros merged; simpl.
  { intros [= <-]. split_and!; [done|done|by right|]. by intros col m [(it & ?%not_elem_of_nil & _)|]. }
  destruct (CIEquals e.1 c.1) eqn:Hc; last first.
  { intros (rest & (Hf & Hp & Hm & Hm')%IH & [= <-])%outcome_bind_ok. split_and!.
    - rewrite (HasFieldPaths_cons e columns) (HasFieldPaths_cons e rest). intros [-> Hcs]%orb_false_iff Hc1.
      by rewrite Hf.
    - intros col. by rewrite (plain_cons e rest) (plain_cons e columns) Hp orb_assoc.
    - intros col m. rewrite (masked_cons e rest) (masked_cons e columns). intros [He|[Hr|Hr]%Hm]; auto.
    - intros col m. rewrite (masked_cons e rest) (masked_cons e columns) (plain_cons e rest).
      intros Hor [He Hr]%orb_false_iff. destruct Hor as [[Hor|Hor]|Hor]; auto. }
  destruct (is_empty c.2 || is_empty e.2) eqn:Hplain.
  - intros [= <-]. split_and!.
    + intros Hcs _. exact Hcs.
    + intros col. rewrite /plain_in /= !orb_false_r (CIEquals_trans _ _ col Hc).
      destruct (CIEquals c.1 col), (existsb _ columns), (is_empty c.2), (is_empty e.2); done.
    + intros col m. rewrite (masked_cons _ columns) masked_one /=. intros [(_ & <- & ?)|?]; [done|].
      left. rewrite (masked_cons e columns). by right.
    + intros col m. rewrite (masked_cons e columns) (masked_cons (e.1, EmptyString) columns) !masked_one (plain_cons _ columns) /=.
      intros Hor [Hn _]%orb_false_iff. rewrite /plain_in /= orb_false_r andb_true_r in Hn.
      destruct Hor as [[(He & _)|Hor]|(Hcc & _)]; [by rewrite He in Hn|by right|].
      by rewrite (CIEquals_trans _ _ col Hc) Hcc in Hn.
  - apply orb_false_iff in Hplain as [Hc2 He2]. destruct (String.eqb_spec e.2 c.2) as [Hm|]; [|done]. intros [= <-].
    split_and!.
    + done.
    + intros col. by rewrite /plain_in /= orb_false_r Hc2 andb_false_r orb_false_r.
    + by auto.
    + intros col m [?|Hcm]; [done|]. intros _. apply masked_one in Hcm as (Hcc & <- & Hmm).
      rewrite (masked_cons e columns) masked_one. left. by rewrite Hm (CIEquals_trans _ _ col Hc).
Qed.

(** Several columns; a further role's list; all of them *)
Definition unites (more columns merged : list (string * string)) : Prop :=
  (HasFieldPaths columns = false → HasFieldPaths more = false → HasFieldPaths merged = false)
  ∧ (∀ col, plain_in merged col = plain_in columns col || plain_in more col)
  ∧ (∀ col m, masked_in merged col m → masked_in columns col m ∨ masked_in more col m)
  ∧ (∀ col m, masked_in columns col m ∨ masked_in more col m → plain_in merged col = false → masked_in merged col m).
Lemma merge_columns_unites more columns merged : merge_columns more columns = Ok merged → unites more columns merged.
Proof.
  revert columns. induction more as [|c more IH]; intros columns; simpl.
  { intros [= <-]. split_and!; [done| |by left|].
    - intros col. by rewrite orb_false_r.
    - by intros col m [|(it & ?%not_elem_of_nil & _)]. }
  intros (one & (Hf & Hp & Hm & Hm')%merge_column_merges & (Hf2 & Hp2 & Hm2 & Hm2')%IH)%outcome_bind_ok. split_and!.
  - rewrite (HasFieldPaths_cons c more). intros Hcs [Hc Hmore]%orb_false_iff. auto.
  - intros col. by rewrite (plain_cons c more) Hp2 Hp orb_assoc.
  - intros col m. rewrite (masked_cons c more). intros [[?|?]%Hm|?]%Hm2; auto.
  - intros col m. rewrite (masked_cons c more). intros Hor Hpl. apply Hm2'; [|done].
    rewrite Hp2 in Hpl. apply orb_false_iff in Hpl as [Hpl _]. destruct Hor as [?|[?|?]]; auto.
Qed.
(** What [AddAll] makes of lists of whole columns *)
Definition listed_by (ps : list GrantPolicy) (Q : GrantPolicy → Prop) : Prop := ∃ p, p ∈ ps ∧ restricts p = true ∧ Q p.
Definition plain_lists (ps : list GrantPolicy) : Prop := Forall (λ p, HasFieldPaths (policy_columns p) = false) ps.
Lemma AddAll_columns ps u u' :
  AddAll ps u = Ok u' → HasFieldPaths (union_columns u) = false → plain_lists ps →
  HasFieldPaths (union_columns u') = false
  ∧ (∀ col, plain_in (union_columns u') col
            = plain_in (union_columns u) col || existsb (λ p, restricts p && plain_in (policy_columns p) col) ps)
  ∧ (∀ col m, masked_in (union_columns u') col m →
              masked_in (union_columns u) col m ∨ listed_by ps (λ p, masked_in (policy_columns p) col m))
  ∧ (∀ col m, masked_in (union_columns u) col m ∨ listed_by ps (λ p, masked_in (policy_columns p) col m) →
              plain_in (union_columns u') col = false → masked_in (union_columns u') col m).
Proof.
  revert u. induction ps as [|p ps IH]; intros u; simpl.
  { intros [= <-] Hu _. split_and!; [done| |by left|].
    - intros col. by rewrite orb_false_r.
    - by intros col m [|(p & ?%not_elem_of_nil & _)]. }
  intros (u1 & Hadd & Hall)%outcome_bind_ok Hu [Hp Hps]%Forall_cons.
  assert (HU : ∃ more, (more = if restricts p then policy_columns p else []) ∧ unites more (union_columns u) (union_columns u1)).
  { eexists. split; [done|]. move: Hadd. rewrite /Add. intros (columns & Hc & [= <-])%outcome_bind_ok. simpl.
    destruct (restricts p); [|injection Hc as <-; by apply (merge_columns_unites [])].
    move: Hc. rewrite /UniteColumns Hu Hp /=. apply merge_columns_unites. }
  destruct HU as (more & Hmore & Hf & Hpl & Hm & Hm').
  assert (Hl : ∀ col m, masked_in more col m ↔ restricts p = true ∧ masked_in (policy_columns p) col m).
  { intros col m. rewrite Hmore. destruct (restricts p); [naive_solver|]. split; [|by intros []].
    by intros (it & ?%not_elem_of_nil & _). }
  assert (Hpc : ∀ col, plain_in more col = restricts p && plain_in (policy_columns p) col).
  { intros col. rewrite Hmore. by destruct (restricts p). }
  apply IH in Hall as (Hf2 & Hp2 & Hm2 & Hm2'); [| |done]; last first.
  { apply Hf; [done|]. rewrite Hmore. by destruct (restricts p). }
  assert (Hby : ∀ (Q : GrantPolicy → Prop), listed_by (p :: ps) Q ↔ (restricts p = true ∧ Q p) ∨ listed_by ps Q).
  { intros Q. rewrite /listed_by. setoid_rewrite elem_of_cons. naive_solver. }
  split_and!; [done| | |].
  - intros col. by rewrite Hp2 Hpl Hpc orb_assoc.
  - intros col m Hin. rewrite Hby -Hl. apply Hm2 in Hin as [[?|?]%Hm|?]; auto.
  - intros col m. rewrite Hby -Hl. intros Hor Hpn. apply Hm2'; [|done]. rewrite Hp2 in Hpn.
    apply orb_false_iff in Hpn as [Hpn _]. destruct Hor as [?|[?|?]]; auto.
Qed.

(** C22: roles that list whole columns unite column by column.  The union of any number of roles shows a column in the
    clear exactly when one of them does, a role without a list showing them all; a column it masks is masked so by a role
    that lists it; and where no role shows it, every role that masks it masks it the same, which is the mask the union
    keeps - two masks of a column none shows are refused. *)
Theorem some_role_shows ps u :
  AddAll ps no_grants = Ok u → ps ≠ [] → plain_lists ps →
  (∀ col, union_shows u col = existsb (λ p, role_shows p col) ps)
  ∧ (∀ col m, masked_in (union_columns u) col m → listed_by ps (λ p, masked_in (policy_columns p) col m))
  ∧ (∀ col m, union_shows u col = false → listed_by ps (λ p, masked_in (policy_columns p) col m) →
              masked_in (union_columns u) col m).
Proof.
  intros HA Hne Hps. destruct (AddAll_rows _ _ _ HA) as (Hany & _ & _ & Hun).
  destruct (AddAll_columns _ _ _ HA eq_refl Hps) as (_ & Hp & Hm & Hm'). simpl in *.
  assert (HR : Restricts u = negb (existsb (λ p, negb (restricts p)) ps)).
  { rewrite /Restricts Hany Hun. by destruct ps. }
  assert (Hshow : ∀ col, union_shows u col = existsb (λ p, role_shows p col) ps).
  { intros col. rewrite /union_shows HR negb_involutive Hp. clear. induction ps as [|p ps IH]; [done|]. simpl.
    rewrite -IH {1}/role_shows. by destruct (restricts p), (plain_in _ col), (existsb _ ps), (existsb _ ps). }
  split_and!; [done| |].
  - intros col m [(it & ?%not_elem_of_nil & _)|?]%Hm; done.
  - intros col m Hno Hby. apply Hm'; [by right|]. move: Hno. rewrite /union_shows. by intros [_ ?]%orb_false_iff.
Qed.
End flat.
