(* ===== verification/UnionWidens.v ===== *)
(** * What the report of a union's widening says

    Rows are OR-ed over roles and column lists united apart from them, so a principal may read a cell none of its roles
    reads.  [RoleUnionWidens] names the pairs of roles that do it; for lists of whole columns it names one exactly when
    some rows, whatever the filters say of them, hold such a cell ([report_is_exact]). *)
From S2P Require Import Prelude NamePath FieldPaths PolicyTypes Tree Token RewriteData RewriteDml RewriteRefs Grants PolicyLookup GrantLaws GrantColumns.

Section widens.
Context `{SUL : StringUtilLaws}.

(** A name that is no path *)
Definition whole_name (name : string) : Prop := string_forallb (λ c, negb (path_mark c)) name = true.

Lemma prefixes_whole name before : whole_name name → prefixes_after before name = [].
Proof.
  revert before. induction name as [|c name IH]; intros before; [done|]. simpl. intros [Hc Hn]%andb_true_iff.
  rewrite negb_true_iff in Hc. by rewrite Hc andb_false_r IH.
Qed.
Lemma head_name_whole name : whole_name name → head_name name = name.
Proof.
  induction name as [|c name IH]; [done|]. rewrite /whole_name /=. intros [Hc Hn]%andb_true_iff.
  rewrite negb_true_iff in Hc. by rewrite Hc IH.
Qed.
Lemma whole_unmarked name : contains_char dot name = false → contains_char "[" name = false → whole_name name.
Proof.
  rewrite /whole_name. induction name as [|c name IH]; [done|]. simpl. intros [H1 H2]%orb_false_iff [H3 H4]%orb_false_iff.
  rewrite IH // andb_true_r /path_mark. rewrite (Ascii.eqb_sym c) H1 (Ascii.eqb_sym c) H3. done.
Qed.
Lemma flat_whole items it : HasFieldPaths items = false → it ∈ items → Trim it.1 = it.1 → whole_name it.1.
Proof.
  intros Hf Hin Ht. apply (existsb_false_elem _ _ _ Hf) in Hin. rewrite Ht in Hin.
  apply orb_false_iff in Hin as [[Hd Hb]%orb_false_iff _]. by apply whole_unmarked.
Qed.

Lemma whole_item items it : flat_list items → it ∈ items → whole_name it.1.
Proof. intros (Hf & _ & Ht) Hin. apply (flat_whole items); [done..|]. rewrite Forall_forall in Ht. by apply Ht. Qed.

(** How much of a column a role reads: nothing, its mask, the column *)
Definition masks (p : GrantPolicy) (col : string) : bool :=
  existsb (λ it, CIEquals it.1 col && negb (is_empty it.2)) (policy_columns p).
Definition cell_of (p : GrantPolicy) (col : string) : nat := if role_shows p col then 2 else if masks p col then 1 else 0.

Lemma masks_ci p a b : CIEquals a b = true → masks p a = masks p b.
Proof.
  intros Hab. apply existsb_eq_in. intros it _.
  by rewrite (CIEquals_sym it.1 a) (CIEquals_sym it.1 b) (CIEquals_trans _ _ _ Hab).
Qed.
Lemma cell_of_ci p a b : CIEquals a b = true → cell_of p a = cell_of p b.
Proof. intros Hab. by rewrite /cell_of /role_shows (plain_in_ci _ _ _ Hab) (masks_ci _ _ _ Hab). Qed.
(** An item and what it gives *)
Lemma item_cell p it :
  restricts p = true → flat_list (policy_columns p) → it ∈ policy_columns p →
  cell_of p it.1 = if is_empty it.2 then 2 else 1.
Proof.
  intros Hr (_ & Hnd & _) Hin. rewrite /cell_of /role_shows Hr /=.
  assert (Hone : ∀ f : string * string → bool,
            existsb (λ i, CIEquals i.1 it.1 && f i) (policy_columns p) = f it).
  { intros f. destruct (f it) eqn:Hf.
    - apply existsb_exists. exists it. by rewrite -list_elem_of_In CIEquals_refl Hf.
    - apply existsb_false. intros i Hi. destruct (CIEquals i.1 it.1) eqn:Hc; [|done].
      by rewrite (same_column _ _ _ Hnd Hi Hin Hc) Hf. }
  rewrite /plain_in /masks (Hone (λ i, is_empty i.2)) (Hone (λ i, negb (is_empty i.2))). by destruct (is_empty it.2).
Qed.

(** [covers_item]: a role reads at least that much of the column *)
Lemma trimmed_items p :
  flat_list (policy_columns p) →
  seen_items (SeenBy p) = map (λ it, (it.1, negb (is_empty it.2))) (policy_columns p).
Proof.
  intros (_ & _ & Ht). rewrite /SeenBy /=. apply map_ext_in. intros it Hin. rewrite -list_elem_of_In in Hin.
  rewrite Forall_forall in Ht. by rewrite (Ht it Hin).
Qed.
Lemma seen_names p col :
  flat_list (policy_columns p) →
  ci_mem col (seen_plain (SeenBy p)) = plain_in (policy_columns p) col
  ∧ ci_mem col (seen_masked (SeenBy p)) = masks p col ∧ above_masked (SeenBy p) = [].
Proof.
  intros Hflat. pose proof (trimmed_items p Hflat) as Ht. destruct Hflat as (Hf & _ & Htr).
  rewrite /SeenBy /= in Ht |- *. rewrite Ht. split_and!.
  - rewrite /ci_mem existsb_map existsb_filter existsb_map /plain_in. apply existsb_eq_in. intros it _. simpl.
    by rewrite negb_involutive andb_comm.
  - rewrite /ci_mem existsb_map existsb_filter existsb_map /masks. apply existsb_eq_in. intros it _. simpl.
    by rewrite andb_comm.
  - apply concat_nil_Forall, Forall_forall. intros l (nm & -> & Hin)%list_elem_of_fmap.
    apply list_elem_of_fmap in Hin as (i & -> & [Hin _]%elem_of_filter_true).
    apply list_elem_of_fmap in Hin as (it & -> & Hin). apply prefixes_whole. rewrite Forall_forall in Htr.
    by apply (flat_whole _ _ Hf Hin), Htr.
Qed.
Lemma masked_not_plain p col : flat_list (policy_columns p) → masks p col = true → plain_in (policy_columns p) col = false.
Proof.
  intros (_ & Hnd & _) (it & Hin & [Hc Hm]%andb_true_iff)%existsb_exists. apply existsb_false. intros i Hi.
  destruct (CIEquals i.1 col) eqn:Hic; [|done]. rewrite -list_elem_of_In in Hin.
  rewrite (same_column _ i it Hnd Hi Hin) /=; [by rewrite (CIEquals_trans _ _ it.1 Hic) CIEquals_sym|].
  by destruct (is_empty it.2).
Qed.
Lemma covers_cell p col masked_item :
  flat_list (policy_columns p) → whole_name col →
  covers_item (SeenBy p) col masked_item = ((if masked_item then 1 else 2) <=? cell_of p col)%nat.
Proof.
  intros Hflat Hw. destruct (seen_names p col Hflat) as (Hpl & Hm & Ha).
  rewrite /covers_item Hpl Hm Ha /prefixes prefixes_whole //= andb_true_r /cell_of /role_shows.
  destruct (restricts p); simpl; [|by destruct masked_item].
  destruct (masks p col) eqn:Hmm; [rewrite masked_not_plain //|]; simpl;
    by destruct masked_item, (plain_in (policy_columns p) col).
Qed.

(** ** The report *)
Context (roles : list (string * GrantPolicy)) (known : list string).
Hypothesis whole_lists : Forall (λ role, flat_list (policy_columns role.2)) roles.
Hypothesis known_names : Forall whole_name known.
Hypothesis some_known : known ≠ [].

(** The rows a role reads, where [v] says what each filter admits *)
Definition reads (v : string → bool) (role : string * GrantPolicy) : bool :=
  is_empty (PolicyPredicate role.2) || v (PolicyPredicate role.2).
(** Whatever the filters admit, a column of a row that someone reads is shown no further than some role that reads the
    row shows it *)
Definition no_new_cell : Prop :=
  ∀ v col, ci_mem col known = true → (∃ a, a ∈ roles ∧ reads v a = true) →
  ∀ b, b ∈ roles → ∃ c, c ∈ roles ∧ reads v c = true ∧ (cell_of b.2 col ≤ cell_of c.2 col)%nat.

Lemma flat_role c : c ∈ roles → flat_list (policy_columns c.2).
Proof. pose proof whole_lists as Hw. rewrite Forall_forall in Hw. apply Hw. Qed.
Lemma covered_cell filter col masked_item :
  whole_name col →
  covered (map reader_of roles) filter col masked_item = true
  ↔ ∃ c, c ∈ roles ∧ reads (String.eqb filter) c = true ∧ ((if masked_item then 1 else 2) ≤ cell_of c.2 col)%nat.
Proof.
  intros Hw. rewrite /covered existsb_map existsb_exists. setoid_rewrite <- list_elem_of_In.
  split; intros (c & Hin & Hc); exists c; (split; [done|]).
  - apply andb_true_iff in Hc as [Hr Hc]. rewrite /= covers_cell // in Hc; [by apply flat_role|].
    rewrite /reads String.eqb_sym. split; [done|]. by apply Nat.leb_le.
  - destruct Hc as [Hr Hc]. rewrite /= covers_cell //; [by apply flat_role|].
    rewrite /reads String.eqb_sym in Hr. rewrite Hr /=. by apply Nat.leb_le.
Qed.
Lemma known_whole col : ci_mem col known = true → ∃ nm, nm ∈ known ∧ CIEquals nm col = true.
Proof. rewrite /ci_mem existsb_exists. setoid_rewrite <- list_elem_of_In. done. Qed.

Lemma filter_nil_iff {A} (f : A → bool) l : List.filter f l = [] ↔ ∀ x, x ∈ l → f x = false.
Proof.
  split.
  - intros Hf x Hx. destruct (f x) eqn:Hfx; [|done]. assert (x ∈ []) as []%not_elem_of_nil. rewrite -Hf.
    by apply elem_of_filter_true.
  - intros Hf. induction l as [|x l IH]; [done|]. simpl. rewrite (Hf x); [set_solver|]. apply IH. set_solver.
Qed.
(** [b]'s cell is not above one of its readers', for each column: a column [b] does not list, an item, any column *)
Lemma item_within filter (b : string * GrantPolicy) it :
  flat_list (policy_columns b.2) → restricts b.2 = true → it ∈ policy_columns b.2 →
  covered (map reader_of roles) filter it.1 (negb (is_empty it.2)) = true
  ↔ ∃ c, c ∈ roles ∧ reads (String.eqb filter) c = true ∧ (cell_of b.2 it.1 ≤ cell_of c.2 it.1)%nat.
Proof.
  intros Hflat Hr Hit. rewrite covered_cell; [by apply (whole_item (policy_columns b.2))|]. rewrite item_cell //.
  by destruct (is_empty it.2).
Qed.
Lemma no_item_no_cell p col : restricts p = true → (∀ it, it ∈ policy_columns p → CIEquals it.1 col = false) → cell_of p col = 0.
Proof.
  intros Hr Hno. rewrite /cell_of /role_shows Hr /plain_in /masks.
  by rewrite !existsb_false //; intros it Hit; rewrite Hno.
Qed.
Lemma head_known_item it : whole_name it → head_known known it = ci_mem it known.
Proof. intros Hw. rewrite /head_known head_name_whole //. pose proof some_known as Hk. by destruct known. Qed.

Lemma known_whole_name nm : nm ∈ known → whole_name nm.
Proof. pose proof known_names as Hk. rewrite Forall_forall in Hk. apply Hk. Qed.

(** What [b] adds on the rows of a filter is nothing *)
Lemma extra_nothing filter (b : string * GrantPolicy) :
  b ∈ roles → (∃ a, a ∈ roles ∧ reads (String.eqb filter) a = true) →
  extra_of (map reader_of roles) known filter (SeenBy b.2) = []
  ↔ ∀ col, ci_mem col known = true →
    ∃ c, c ∈ roles ∧ reads (String.eqb filter) c = true ∧ (cell_of b.2 col ≤ cell_of c.2 col)%nat.
Proof.
  intros Hb (a & Ha & Hra). pose proof (flat_role b Hb) as Hflat. rewrite /extra_of.
  rewrite (_ : seen_all (SeenBy b.2) = negb (restricts b.2)) //. destruct (restricts b.2) eqn:Hr; cbn [negb].
  - rewrite trimmed_items //. split.
    + intros He%map_eq_nil col Hcol. rewrite filter_nil_iff in He.
      destruct (List.find (λ it, CIEquals it.1 col) (policy_columns b.2)) as [it|] eqn:Hf.
      * apply find_some in Hf as [Hin Hc]. rewrite -list_elem_of_In in Hin.
        assert (Hcov : covered (map reader_of roles) filter it.1 (negb (is_empty it.2)) = true).
        { assert (Hit : (it.1, negb (is_empty it.2)) ∈ map (λ it, (it.1, negb (is_empty it.2))) (policy_columns b.2)).
          { apply list_elem_of_fmap. by exists it. }
          apply He in Hit. rewrite /= head_known_item in Hit; [by apply (whole_item (policy_columns b.2))|].
          rewrite (ci_mem_ci _ _ _ Hc) Hcol in Hit. by apply negb_false_iff in Hit. }
        apply (item_within _ b) in Hcov; [|done..]. rewrite (cell_of_ci b.2 _ _ Hc) in Hcov.
        destruct Hcov as (c & ? & ? & Hle). exists c. by rewrite -(cell_of_ci c.2 _ _ Hc).
      * exists a. split_and!; [done..|]. rewrite no_item_no_cell //; [|lia]. intros it Hit.
        apply (find_none _ _ Hf). by rewrite -list_elem_of_In.
    + intros Hall. refine (f_equal (map fst) (proj2 (filter_nil_iff _ _) _ : _ = [])). intros x (it & -> & Hit)%list_elem_of_fmap. simpl.
      rewrite head_known_item; [by apply (whole_item (policy_columns b.2))|].
      destruct (ci_mem it.1 known) eqn:Hk; [|done]. apply negb_false_iff. apply (item_within _ b); [done..|]. by apply Hall.
  - rewrite (_ : (if empty_list known then ["*"] else []) = []); [by pose proof some_known; destruct known|].
    rewrite app_nil_r filter_nil_iff.
    assert (H2 : ∀ col, cell_of b.2 col = 2); [by intros col; rewrite /cell_of /role_shows Hr|]. split.
    + intros Hno col (nm & Hnm & Hc)%known_whole. rewrite H2.
      pose proof (Hno nm Hnm) as Hcov. apply negb_false_iff in Hcov. apply covered_cell in Hcov; [|by apply known_whole_name].
      destruct Hcov as (c & ? & ? & Hle). exists c. by rewrite -(cell_of_ci c.2 _ _ Hc).
    + intros Hall nm Hnm. apply negb_false_iff, covered_cell; [by apply known_whole_name|].
      rewrite -(H2 nm). apply Hall. rewrite /ci_mem existsb_exists. exists nm. by rewrite -list_elem_of_In CIEquals_refl.
Qed.

(** Each filter has its first role *)
Lemma filter_classes_all classes l a :
  a ∈ l → filter_of a ∉ classes → ∃ a', a' ∈ filter_classes classes l ∧ filter_of a' = filter_of a.
Proof.
  revert classes. induction l as [|x l IH]; intros classes; [by intros ?%not_elem_of_nil|]. simpl.
  intros [->|Hin]%elem_of_cons Hno; destruct (bool_decide (filter_of x ∈ classes)) eqn:Hx.
  - by apply bool_decide_eq_true in Hx.
  - exists x. split; [by left|done].
  - by apply IH.
  - destruct (decide (filter_of a = filter_of x)) as [Heq|Hne]; [exists x; split; [by left|done]|].
    destruct (IH (classes ++ [filter_of x]) Hin) as (a' & ? & ?); [set_solver|]. exists a'. split; [by right|done].
Qed.
Lemma filter_classes_in classes l a : a ∈ filter_classes classes l → a ∈ l.
Proof.
  revert classes. induction l as [|x l IH]; intros classes; [done|]. simpl.
  destruct (bool_decide _); [intros ?%IH; by right|]. intros [->|?%IH]%elem_of_cons; [by left|by right].
Qed.
Lemma concat_nil_iff {A} (l : list (list A)) : concat l = [] ↔ ∀ x, x ∈ l → x = [].
Proof. rewrite concat_nil_Forall Forall_forall. done. Qed.

Lemma omap_nil_iff {A B} (f : A → option B) (l : list A) : omap f l = [] ↔ ∀ x, x ∈ l → f x = None.
Proof.
  induction l as [|x l IH]; [split; [by intros _ x ?%not_elem_of_nil|done]|]. csimpl. split.
  - destruct (f x) eqn:Hf; [done|]. rewrite IH. intros Hl y [->|Hy]%elem_of_cons; auto.
  - intros Hl. rewrite (Hl x); [by left|]. apply IH. intros y Hy. apply Hl. by right.
Qed.

(** Some role without a list is a reader *)
Lemma whole_reader v b : (∃ c, c ∈ roles ∧ reads v c = true ∧ restricts c.2 = false) →
  ∀ col, ∃ c, c ∈ roles ∧ reads v c = true ∧ (cell_of b col ≤ cell_of c.2 col)%nat.
Proof.
  intros (c & Hin & Hr & Hall) col. exists c. split_and!; [done..|].
  rewrite {2}/cell_of /role_shows Hall /=. rewrite /cell_of. destruct (role_shows b col), (masks b col); lia.
Qed.
Lemma all_reader (f : string * (string * Seen) → bool) :
  existsb (λ c, f c && seen_all (seen_of c)) (map reader_of roles) = true ↔
  ∃ c, c ∈ roles ∧ f (reader_of c) = true ∧ restricts c.2 = false.
Proof.
  rewrite existsb_map existsb_exists. setoid_rewrite <- list_elem_of_In. setoid_rewrite andb_true_iff.
  split; intros (c & ? & ? & Hr); exists c; split_and!; try done; simpl in *; by destruct (restricts c.2).
Qed.
(** The rows of one filter *)
Lemma widens_none a :
  a ∈ roles →
  widens_on (map reader_of roles) known (reader_of a) = [] ↔
  (∀ b, b ∈ roles → ∀ col, ci_mem col known = true →
   ∃ c, c ∈ roles ∧ reads (String.eqb (PolicyPredicate a.2)) c = true ∧ (cell_of b.2 col ≤ cell_of c.2 col)%nat).
Proof.
  intros Ha. set (filter := PolicyPredicate a.2).
  assert (Hra : reads (String.eqb filter) a = true).
  { rewrite /reads /filter String.eqb_refl. apply orb_true_r. }
  rewrite /widens_on. destruct (existsb _ _) eqn:He.
  { apply all_reader in He as (c & Hc & Hf & Hr). split; [|done]. intros _ b _ col _.
    apply (whole_reader (String.eqb filter)). exists c. split_and!; [done| |done].
    rewrite /reads String.eqb_sym. apply orb_true_iff. by right. }
  rewrite omap_nil_iff. split.
  - intros Hn b Hb col Hcol. specialize (Hn (reader_of b)). simpl in Hn.
    destruct (is_empty (PolicyPredicate b.2) || String.eqb (PolicyPredicate b.2) (PolicyPredicate a.2)) eqn:Hbr.
    + exists b. split_and!; [done| |done]. by rewrite /reads String.eqb_sym.
    + assert (Hx : extra_of (map reader_of roles) known filter (SeenBy b.2) = []).
      { rewrite /filter. destruct (extra_of _ _ _ _); [done|].
        assert (reader_of b ∈ map reader_of roles) as Hbb; [apply list_elem_of_fmap; by exists b|]. apply Hn in Hbb.
        move: Hbb. by rewrite /filter_of /= Hbr. }
      apply (extra_nothing filter b Hb) with (col := col) in Hx; eauto.
  - intros Hall x (b & -> & Hb)%list_elem_of_fmap. simpl. destruct (_ || _); [done|].
    rewrite (proj2 (extra_nothing filter b Hb _)) //; eauto.
Qed.
Lemma pairs_none : union_pairs (map reader_of roles) known = [] ↔ no_new_cell.
Proof.
  rewrite /union_pairs. destruct (existsb _ _) eqn:He.
  { apply all_reader in He as (c & Hc & Hf & Hr). split; [|done]. intros _ v col _ _ b _.
    apply whole_reader. exists c. split_and!; [done| |done]. by rewrite /reads Hf. }
  rewrite concat_nil_iff. split.
  - intros Hn v col Hcol (a & Ha & Hra) b Hb.
    destruct (filter_classes_all [] (map reader_of roles) (reader_of a)) as (x & Hx & Hfx);
      [by apply list_elem_of_fmap; exists a|by apply not_elem_of_nil|].
    pose proof Hx as Hin. apply filter_classes_in, list_elem_of_fmap in Hin as (a' & -> & Ha').
    assert (Hw : widens_on (map reader_of roles) known (reader_of a') = []).
    { apply Hn, list_elem_of_fmap. by exists (reader_of a'). }
    destruct (proj1 (widens_none a' Ha') Hw b Hb col Hcol) as (c & Hc & Hr & Hle). exists c. split_and!; [done| |done].
    rewrite /filter_of /= in Hfx. move: Hr. rewrite /reads. destruct (is_empty (PolicyPredicate c.2)) eqn:Hem; [done|]. simpl.
    intros Heq%String.eqb_eq. move: Hra. by rewrite /reads -Hfx Heq Hem.
  - intros Hnew l (x & -> & Hx)%list_elem_of_fmap. apply filter_classes_in, list_elem_of_fmap in Hx as (a & -> & Ha).
    apply widens_none; [done|]. intros b Hb col Hcol. apply Hnew; [done| |done]. exists a. split; [done|].
    rewrite /reads String.eqb_refl. apply orb_true_r.
Qed.
End widens.

Section report.
Context `{SUL : StringUtilLaws}.
(** C9: the report of a union's widening misses nothing and invents nothing, for lists of whole columns over an object
    whose columns are known: it is empty exactly when, whatever rows the roles' filters admit, every column of a row that
    some role reads is shown - in the clear, masked - no further than one of the roles reading that row shows it.  The
    bound on the pairs it names never empties it. *)
Theorem report_is_exact roles known max_pairs :
  Forall (λ role, flat_list (policy_columns role.2)) roles → Forall whole_name known → known ≠ [] →
  RoleUnionWidens roles known max_pairs = [] ↔ no_new_cell roles known.
Proof.
  intros Hl Hk Hne. rewrite -pairs_none // /RoleUnionWidens. by destruct (union_pairs _ _).
Qed.
End report.
