(* ===== verification/LookupLaws.v ===== *)
(** * What the other lookups answer

    A name under a live schema alias ([alias_reaches_under_it]), and the home of a DDL statement
    ([ddl_home_is_a_holders]). *)
From S2P Require Import Prelude NamePath FieldPaths PolicyTypes Tree Token RewriteData Grants PolicyLookup GrantLaws.

Section lookups.
Context `{SUL : StringUtilLaws} `{JR : JsonReader} `{PP : PolicyParser} `{PR : PolicyRows}.

(** ** Schema aliases *)
Lemma declared_keeps_phys vname cs listed p p' :
  declared_grant vname cs listed p = Ok p' → phys p' = phys p ∧ canonical p' = canonical p ∧ writable p' = writable p.
Proof. rw /declared_grant. by intros (? & _ & [= <-])%outcome_bind_ok. Qed.
Lemma ApplyGrantPolicy_keeps vname g cs p p' :
  ApplyGrantPolicy vname g cs p = Ok p' → phys p' = phys p ∧ canonical p' = canonical p ∧ writable p' = writable p.
Proof.
  rw /ApplyGrantPolicy /=. destruct (negb (is_empty (query p)) && _).
  { by intros (? & _ & [= <-])%outcome_bind_ok. }
  destruct (is_empty (UnionPredicate g) && _); [by intros [= <-]|].
  destruct (negb (is_empty (query p))); [by intros (? & _ & [= <-])%outcome_bind_ok|].
  destruct (Restricts g); [|by intros [= <-]].
  rw /narrow_to_list. intros (listed & _ & Hn)%outcome_bind_ok. destruct cs.
  - move: Hn. rw /undeclared_grant. by intros (? & _ & [= <-])%outcome_bind_ok.
  - destruct (List.find _ _); [done|]. by apply declared_keeps_phys in Hn.
Qed.

(** The rows of the alias that won *)
Definition alias_group (first : alias_row) (rows : list alias_row) : list alias_row :=
  List.filter (λ row, (a_prio row =? a_prio first)%Z && bool_decide (alias_of row = alias_of first)) rows.
Definition alias_parts (row : alias_row) : Value * chain * Value := (a_caps row, a_chain row, a_grole row).
Definition alias_path_of (first : alias_row) (vname : string) : string :=
  if (a_prio first =? 1)%Z then (SplitName vname).2 else vname.

Lemma alias_found who vname capability first more found :
  alias_rows who vname (SplitName vname) = Answered (first :: more) →
  LookupSchemaAlias who vname capability = Answered (Some found) →
  ∃ written u,
    FromKey (alias_path_of first vname) "a name" = Ok written
    ∧ 0 < KeySize (value_text (a_alias_path first)) < length written
    ∧ unite_rows capability (map alias_parts (alias_group first (first :: more))) nothing_united = Ok u
    ∧ RequireStoredExpressions vname EmptyString [] (united_roles u) = Answered ()
    ∧ ApplyGrantPolicy vname (united_grants u) []
        (alias_policy (value_text (a_vcat first)) (value_text (a_alias_path first)) (value_text (a_phys_path first))
           (ToKey (drop (KeySize (value_text (a_alias_path first))) written)) u)
      = Ok (found_policy found).
Proof.
  intros Hrows. rw /LookupSchemaAlias. intros (rows & HR & HL)%answer_bind_answered. rewrite Hrows in HR.
  injection HR as <-. rewrite /alias_of in HL. destruct (List.find _ _); [done|].
  apply answer_bind_answered in HL as (written & Hw%thrown_answered & HL).
  destruct (_ || _) eqn:Hsize; [done|]. apply orb_false_iff in Hsize as [Hs1%Nat.eqb_neq Hs2%Nat.leb_gt].
  apply answer_bind_answered in HL as (u & Hu%thrown_answered & HL).
  apply answer_bind_answered in HL as ([] & Hs & HL).
  apply answer_bind_answered in HL as (policy & Hp%thrown_answered & [= <-]).
  exists written, u. split_and!; try done; lia.
Qed.

Context {Row : Type} `{!Filters Row} `{FL : !FiltersLaws Row}.

(** a name under a live schema alias is the physical object under the alias's schema at the same tail - at least one
    part past the alias's own, counted in parts and not in characters - and its rows are those some role gives it: a
    role of the winning alias that holds the capability, through both levels of its chain. *)
Theorem alias_reaches_under_it who vname capability first more found (r : Row) :
  alias_rows who vname (SplitName vname) = Answered (first :: more) →
  LookupSchemaAlias who vname capability = Answered (Some found) →
  holds_cap (found_policy found) capability = true →
  (∃ written, FromKey (alias_path_of first vname) "a name" = Ok written
     ∧ let size := KeySize (value_text (a_alias_path first)) in
       0 < size < length written
       ∧ phys (found_policy found) = JoinKeys (value_text (a_phys_path first)) (ToKey (drop size written)))
  ∧ read_under (rls (found_policy found)) r
    = existsb (λ row, row_holds capability (alias_parts row) && chain_reads (a_chain row) r)
        (alias_group first (first :: more)).
Proof.
  intros Hrows HL Hcap. destruct (alias_found _ _ _ _ _ _ Hrows HL) as (written & u & Hw & Hsize & Hu & Hs & Hp).
  split.
  { exists written. split_and!; [done..|]. by apply ApplyGrantPolicy_keeps in Hp as (-> & _). }
  destruct (united_filter _ _ _ _ _ _ r Hu Hs) as [Hread Htext].
  rewrite (applied_filter _ _ _ _ _ r Hp) // Hread existsb_map.
  rewrite /holds_cap (ApplyGrantPolicy_caps _ _ _ _ _ Hp) (united_caps_held _ _ _ Hu) in Hcap.
  destruct (List.filter (row_holds capability) _) eqn:Hf; [|done]. apply existsb_exists in Hcap as (row & Hin & Hh).
  assert (row ∈ []) as Hno%not_elem_of_nil; [|done]. rewrite -Hf elem_of_filter_true list_elem_of_In. by split.
Qed.

(** ** DDL *)
Lemma holding_answered capability stored b :
  holding capability stored = Answered b → ∃ held, EffectiveCaps stored = Ok held ∧ b = ci_mem capability held.
Proof. rw /holding. intros (held & Hc%thrown_answered & [= <-])%answer_bind_answered. by exists held. Qed.
Lemma first_home_found capability object_name rows home :
  first_home capability object_name rows = Answered (Some home) →
  ∃ before row after, rows = before ++ row :: after
    ∧ home = home_of object_name row ∧ holding capability (d_caps row) = Answered true ∧ nowhere home = false
    ∧ Forall (λ row, holding capability (d_caps row) = Answered false ∨ nowhere (home_of object_name row) = true) before.
Proof.
  induction rows as [|row rows IH]; [done|]. simpl. intros (holds & Hh & Hhome)%answer_bind_answered.
  destruct (holds && negb (nowhere (home_of object_name row))) eqn:Hb.
  - apply andb_true_iff in Hb as [-> Hn%negb_true_iff]. injection Hhome as <-. by exists [], row, rows.
  - destruct (IH Hhome) as (before & r & after & -> & Hr). exists (row :: before), r, after.
    destruct Hr as (? & ? & ? & ?). split_and!; try done. constructor; [|done].
    destruct holds; [right|by left]. by apply negb_false_iff in Hb.
Qed.

(** C23: where a DDL statement lands is a home the principal may use, and the one its name means: the schema read one
    way only - as a catalog's, or as the MAIN catalog's, a name both fit being refused - the longest home of that reading
    whose grant row holds the capability and which has somewhere to create, the leaf kept as written under the home as
    the policy spells it. *)
Theorem ddl_home_is_a_holders who name capability home rows :
  ddl_rows who name (SplitName name) = Answered rows →
  LookupDdlTarget who name capability = Answered (Some home) →
  ∃ reading object_name before row after,
    ((reading = d_qualified ∧ object_name = (SplitName name).2 ∧ Forall (λ row, d_unqualified row = false) rows)
     ∨ (reading = d_unqualified ∧ object_name = name ∧ Forall (λ row, d_qualified row = false) rows))
    ∧ List.filter reading rows = before ++ row :: after
    ∧ home = home_of object_name row
    ∧ (∃ held, EffectiveCaps (d_caps row) = Ok held ∧ ci_mem capability held = true)
    ∧ nowhere home = false
    ∧ Forall (λ row, (∃ held, EffectiveCaps (d_caps row) = Ok held ∧ ci_mem capability held = false)
                     ∨ nowhere (home_of object_name row) = true) before.
Proof.
  intros Hrows. rw /LookupDdlTarget. destruct (_ || _); [done|]. destruct (SplitName name) as [head rest] eqn:Hname.
  intros (rows' & HR & HL)%answer_bind_answered. rewrite Hrows in HR. injection HR as <-.
  destruct (existsb d_qualified rows && _) eqn:Hboth; [done|].
  apply answer_bind_answered in HL as (found & Hf & HL). destruct found as [found|]; last first.
  { move: HL. by destruct (List.filter (if existsb d_qualified rows then d_qualified else d_unqualified) rows). }
  injection HL as ->. apply first_home_found in Hf as (before & row & after & Hsplit & -> & Hh & Hn & Hb).
  eexists _, _, before, row, after. split_and!; [|exact Hsplit|done| |done|].
  - destruct (existsb d_qualified rows) eqn:Hq; [left|right]; (split_and!; [done..|]).
    + simpl in Hboth. apply negb_false_iff in Hboth. apply Forall_forall. intros row' Hin.
      destruct (d_unqualified row') eqn:Hu; [|done].
      assert (row' ∈ List.filter d_unqualified rows) as Hin'; [by apply elem_of_filter_true|].
      destruct (List.filter d_unqualified rows); [by apply not_elem_of_nil in Hin'|done].
    + apply Forall_forall. intros row' Hin. by apply (existsb_false_elem _ _ _ Hq).
  - apply holding_answered in Hh as (held & ? & ?). by exists held.
  - eapply Forall_impl; [exact Hb|]. simpl. intros row' [(held & ? & ?)%holding_answered|]; [left|by right]. by exists held.
Qed.
End lookups.
