(* ===== verification/PolicyCache.v ===== *)
(** * The policy a node keeps: versions, freshness checks, caches

    The caches of [CatalogBackend] in [acl_policy_catalog.cpp]: the policy version a node adopted, the check a statement
    pays for once an interval ([EnsureFresh]), and the answers kept under that version, by a key that names the question
    ([RoleSig]).  The caches of [acl_policy.cpp] and [acl_policy.hpp] beside them: function verdicts under a model, parsed
    templates, the texts a node said it ran.  A critical section is a function; what the source answers is an argument. *)
From stdpp Require Import pretty.
From S2P Require Import Prelude NamePath FieldPaths FunctionCategories PolicyTypes Tree RewriteData.

(** ** The key of a question *)

(** [RoleSig]: the roles sorted, each behind its length *)
Definition sorted_roles (roles : list string) : list string := sort_by String.ltb roles.
Definition role_part (role : string) : string := to_string (N.of_nat (String.length role)) +:+ ":" +:+ role +:+ ";".
Definition RoleSig (roles : list string) : string := join EmptyString (map role_part (sorted_roles roles)).
Definition key_separator : string := str1 "031".
Section keys.
Context `{SU : StringUtil}.
(** What [ResolveTable] and [ResolveFunction] keep an answer under *)
Definition table_key (roles : list string) (strips enums : bool) (name capability : string) : string :=
  RoleSig roles +:+ key_separator +:+ Lower name +:+ key_separator +:+ (if strips then "b" else "k") +:+ (if enums then "v" else "k")
  +:+ key_separator +:+ capability.
Definition function_key (roles : list string) (table_kind : bool) (name : string) : string :=
  RoleSig roles +:+ key_separator +:+ (if table_kind then "table" else "scalar") +:+ key_separator +:+ Lower name.
End keys.

(** ** The backend *)

(** What [CatalogBackend] holds under its lock.  The caches it does not name - claims, rights, known roles, the identity
    and function models, the callable functions - are emptied where these are. *)
Record Backend := {
  version : Z;
  last_check : Z;
  checked_once : bool;
  compat_read_only : bool;
  local_writes : N;
  objects : gmap string (option TablePolicy);
  functions : gmap string (option TablePolicy);
}.
Definition new_backend : Backend := {|
  version := -1; last_check := 0; checked_once := false; compat_read_only := false; local_writes := 0; objects := ∅;
  functions := ∅ |}.
Definition CACHE_CAPACITY : nat := 4096.

(** What a source answers a check: the policy version, and - but for a driver of functions - the build its schema is of
    and the first that may read it, each [-1] when it has none *)
Record Stamp := { policy_version : Z; stamped : Z; min_reader : Z }.

(** [JudgeSchema]: whether a node of build [build] serves the catalog read-only, or why it does not *)
Definition JudgeSchema (build : Z) (db_name schema : string) (stamped min_reader : Z) (on : string) : outcome bool :=
  let catalog := "acl catalog: " +:+ dq +:+ db_name +:+ dq +:+ "." +:+ dq +:+ schema +:+ dq in
  if (stamped <? 0)%Z then Throw (catalog +:+ " has no schema_version (" +:+ on +:+ ")")
  else
    let min_reader := if (min_reader <? 0)%Z then stamped else min_reader in
    if (stamped =? build)%Z then Ok false
    else if (stamped <? build)%Z then
      Throw (catalog +:+ " is schema version " +:+ pretty stamped +:+ " and this build reads " +:+ pretty build
             +:+ " - migrate it first: SELECT acl_migrate_catalog('" +:+ db_name +:+ "', '" +:+ schema
             +:+ "') on a node of this build (" +:+ on +:+ ")")
    else if (min_reader <=? build)%Z then Ok true
    else Throw (catalog +:+ " is schema version " +:+ pretty stamped +:+ ", readable from build " +:+ pretty min_reader
                +:+ " on, and this build is " +:+ pretty build +:+ " - upgrade the node (" +:+ on +:+ ")").

Section backend.
Context (build : Z) (db_name schema : string) (function_mode : bool).

(** [EnsureFresh], as far as its first critical section: whether this statement asks the source *)
Definition begin_check (interval now : Z) (b : Backend) : Backend * bool :=
  if checked_once b && (now - last_check b <? interval)%Z then (b, false)
  else ({| version := version b; last_check := now; checked_once := true; compat_read_only := compat_read_only b;
           local_writes := local_writes b; objects := objects b; functions := functions b |}, true).
Definition read_only (value : bool) (b : Backend) : Backend := {|
  version := version b; last_check := last_check b; checked_once := checked_once b; compat_read_only := value;
  local_writes := local_writes b; objects := objects b; functions := functions b |}.
(** What the source said, judged: the version to adopt *)
Definition judge (answer : outcome Stamp) (b : Backend) : Backend * outcome Z :=
  match answer with
  | Throw message => (b, Throw message)
  | Ok stamp =>
      if function_mode then (b, Ok (policy_version stamp))
      else match JudgeSchema build db_name schema (stamped stamp) (min_reader stamp) "at a freshness check" with
           | Throw message => (b, Throw message)
           | Ok compat => (read_only compat b, Ok (policy_version stamp))
           end
  end.
(** Its second critical section *)
Definition adopt (current : Z) (b : Backend) : Backend :=
  if (current =? version b)%Z then b
  else {| version := current; last_check := last_check b; checked_once := checked_once b;
          compat_read_only := compat_read_only b; local_writes := local_writes b; objects := ∅; functions := ∅ |}.
(** [EnsureFresh] by one thread *)
Definition EnsureFresh (interval now : Z) (answer : outcome Stamp) (b : Backend) : Backend * outcome unit :=
  let '(b, asks) := begin_check interval now b in
  if asks then
    let '(b, current) := judge answer b in
    match current with
    | Ok current => (adopt current b, Ok ())
    | Throw message => (b, Throw message)
    end
  else (b, Ok ()).

(** [ResolveTable]'s lookup in the cache, with the version it was read at; and what is kept of an answer: nothing once
    the version moved, in a cache emptied first when it outgrew its capacity *)
Definition find_object (key : string) (b : Backend) : option (option TablePolicy) * Z := (objects b !! key, version b).
Definition ClearIfOversized {A} (map : gmap string A) : gmap string A :=
  if (CACHE_CAPACITY <? size map)%nat then ∅ else map.
Definition keep_object (key : string) (read_at : Z) (found : option TablePolicy) (b : Backend) : Backend :=
  if (version b =? read_at)%Z then
    {| version := version b; last_check := last_check b; checked_once := checked_once b;
       compat_read_only := compat_read_only b; local_writes := local_writes b;
       objects := <[key := found]> (ClearIfOversized (objects b)); functions := functions b |}
  else b.
(** [ResolveFunction]'s *)
Definition find_function (key : string) (b : Backend) : option (option TablePolicy) * Z := (functions b !! key, version b).
Definition keep_function (key : string) (read_at : Z) (found : option TablePolicy) (b : Backend) : Backend :=
  if (version b =? read_at)%Z then
    {| version := version b; last_check := last_check b; checked_once := checked_once b;
       compat_read_only := compat_read_only b; local_writes := local_writes b; objects := objects b;
       functions := <[key := found]> (ClearIfOversized (functions b)) |}
  else b.
(** A write through this node committed: the next statement checks *)
Definition wrote (b : Backend) : Backend := {|
  version := version b; last_check := last_check b; checked_once := false; compat_read_only := compat_read_only b;
  local_writes := uadd (local_writes b) 1; objects := objects b; functions := functions b |}.

(** [ResolveTable], [ResolveFunction] by one thread: [lookup] is what the rows say, a refusal is not kept *)
Definition Resolved (find : Backend → option (option TablePolicy) * Z) (keep : Z → option TablePolicy → Backend → Backend)
    (interval now : Z) (answer : outcome Stamp) (lookup : outcome (option TablePolicy)) (b : Backend)
    : Backend * outcome (option TablePolicy) :=
  let '(b, fresh) := EnsureFresh interval now answer b in
  match fresh with
  | Throw message => (b, Throw message)
  | Ok _ =>
      let '(kept, read_at) := find b in
      match kept with
      | Some found => (b, Ok found)
      | None =>
          match lookup with
          | Throw message => (b, Throw message)
          | Ok found => (keep read_at found b, Ok found)
          end
      end
  end.
Definition ResolveObject (interval now : Z) (answer : outcome Stamp) (key : string)
    (lookup : outcome (option TablePolicy)) (b : Backend) : Backend * outcome (option TablePolicy) :=
  Resolved (find_object key) (keep_object key) interval now answer lookup b.
Definition ResolveVirtual (interval now : Z) (answer : outcome Stamp) (key : string)
    (lookup : outcome (option TablePolicy)) (b : Backend) : Backend * outcome (option TablePolicy) :=
  Resolved (find_function key) (keep_function key) interval now answer lookup b.
End backend.

(** ** Function verdicts *)

(** [PolicyStore::ResolveFunction]'s cache: the verdicts of one model, by roles, name and kind *)
Section verdicts.
Context {Model Decision : Type} (same_model : Model → Model → bool).
Record FunctionDecisionCache := { decided_by : option Model; decisions : gmap string Decision }.
Definition DECISIONS_CAPACITY : nat := 4096.
Definition verdict_key (roles : list string) (name kind : string) : string :=
  join (str1 "030") (sorted_roles roles) +:+ key_separator +:+ name +:+ key_separator +:+ kind.
Definition is_model (model : Model) (c : FunctionDecisionCache) : bool :=
  match decided_by c with Some m => same_model m model | None => false end.
Definition find_verdict (model : Model) (key : string) (c : FunctionDecisionCache) : option Decision :=
  if is_model model c then decisions c !! key else None.
Definition keep_verdict (model : Model) (key : string) (decision : Decision) (c : FunctionDecisionCache)
    : FunctionDecisionCache :=
  let kept := if is_model model c then decisions c else ∅ in
  let kept := if (DECISIONS_CAPACITY <=? size kept)%nat then ∅ else kept in
  {| decided_by := if is_model model c then decided_by c else Some model; decisions := <[key := decision]> kept |}.
Definition Decided (resolve : Model → list string → string → string → Decision) (model : Model) (roles : list string)
    (name kind : string) (c : FunctionDecisionCache) : FunctionDecisionCache * Decision :=
  let key := verdict_key roles name kind in
  match find_verdict model key c with
  | Some decision => (c, decision)
  | None => let decision := resolve model roles name kind in (keep_verdict model key decision c, decision)
  end.
End verdicts.

(** ** Parsed templates *)

(** [TemplateCache]: prototypes by their text, the least recently used first *)
Section templates.
Context {T : Type}.
Record TemplateCache := { entries : gmap string T; recency : list string }.
Definition CAPACITY : nat := 256.
Definition forget (key : string) (recency : list string) : list string :=
  List.filter (λ k, negb (String.eqb k key)) recency.
Definition GetCopy (key : string) (parse : outcome T) (c : TemplateCache) : TemplateCache * outcome T :=
  match entries c !! key with
  | Some prototype => ({| entries := entries c; recency := forget key (recency c) ++ [key] |}, Ok prototype)
  | None =>
      match parse with
      | Throw message => (c, Throw message)
      | Ok prototype =>
          let '(kept, recent) :=
            match recency c with
            | victim :: rest =>
                if (CAPACITY <=? size (entries c))%nat then (delete victim (entries c), rest) else (entries c, recency c)
            | [] => (entries c, [])
            end in
          ({| entries := <[key := prototype]> kept; recency := recent ++ [key] |}, Ok prototype)
      end
  end.
End templates.

(** [PrincipalTextRegistry]: what was said of a statement's text, by its hash *)
Section texts.
Context {T : Type}.
Record PrincipalTextRegistry := { texts : gmap N T; order : list N }.
Definition TEXTS_CAPACITY : nat := 65536.
Definition unordered (hash : N) (order : list N) : list N := List.filter (λ h, negb (N.eqb h hash)) order.
(** [while (order.size() > CAPACITY)] *)
Fixpoint forget_oldest (excess : nat) (r : PrincipalTextRegistry) : PrincipalTextRegistry :=
  match excess, order r with
  | S excess, oldest :: rest => forget_oldest excess {| texts := delete oldest (texts r); order := rest |}
  | _, _ => r
  end.
Definition NoteText (hash : N) (text : T) (r : PrincipalTextRegistry) : PrincipalTextRegistry :=
  let r := if decide (is_Some (texts r !! hash))
           then {| texts := delete hash (texts r); order := unordered hash (order r) |} else r in
  let noted := {| texts := <[hash := text]> (texts r); order := order r ++ [hash] |} in
  forget_oldest (length (order noted) - TEXTS_CAPACITY) noted.
Definition FindText (hash : N) (r : PrincipalTextRegistry) : PrincipalTextRegistry * option T :=
  match texts r !! hash with
  | None => (r, None)
  | Some text => ({| texts := texts r; order := unordered hash (order r) ++ [hash] |}, Some text)
  end.
End texts.
