(* ===== verification/PolicyCacheLaws.v ===== *)
(** * What a node's policy caches promise

    A kept answer's key is the question ([cache_key_names_the_question]).  While the checks succeed, what a statement is
    answered held at the source within the interval ([answers_are_fresh]); however calls interleave, what is kept is of a
    version no older than the one the node runs under ([kept_answers_are_no_older]).  What a failed check leaves served
    ([failed_check_serves_the_cache]); where a verdict's key names two principals ([verdict_of_other_roles]); templates and
    texts kept within their bounds. *)
From stdpp Require Import pretty sorting.
From S2P Require Import Prelude NamePath FieldPaths FunctionCategories PolicyTypes Tree RewriteData PolicyCache.

(** ** Sorted roles *)
Lemma compare_lt_trans a b c : String.compare a b = Lt → String.compare b c = Lt → String.compare a c = Lt.
Proof.
  revert b c. induction a as [|x a IH]; intros [|y b] [|z c]; simpl; try done.
  destruct (Ascii.compare x y) eqn:Hxy, (Ascii.compare y z) eqn:Hyz; try done.
  - apply Ascii.compare_eq_iff in Hxy as ->. rewrite Hyz. apply IH.
  - apply Ascii.compare_eq_iff in Hxy as ->. by rewrite Hyz.
  - apply Ascii.compare_eq_iff in Hyz as ->. by rewrite Hxy.
  - intros _ _. move: Hxy Hyz. rewrite /Ascii.compare !N.compare_lt_iff => H1 H2.
    by rewrite (proj2 (N.compare_lt_iff _ _) (N.lt_trans _ _ _ H1 H2)).
Qed.
Definition role_le (a b : string) : Prop := String.ltb b a = false.
#[local] Instance role_le_trans : Transitive role_le.
Proof.
  intros a b c. rewrite /role_le /String.ltb. intros Hba Hcb.
  destruct (String.compare c a) eqn:Hca; [done| |done]. exfalso.
  destruct (String.compare b a) eqn:E1; [apply String.compare_eq_iff in E1 as ->|done|].
  - by rewrite Hca in Hcb.
  - rewrite String.compare_antisym in E1. destruct (String.compare a b) eqn:E2; try done.
    by rewrite (compare_lt_trans _ _ _ Hca E2) in Hcb.
Qed.
#[local] Instance role_le_antisymm : AntiSymm (=) role_le.
Proof.
  intros a b. rewrite /role_le /String.ltb (String.compare_antisym b a).
  destruct (String.compare a b) eqn:E; simpl; try done. intros _ _. by apply String.compare_eq_iff in E.
Qed.
Lemma role_le_total a b : role_le a b ∨ role_le b a.
Proof. rewrite /role_le /String.ltb (String.compare_antisym b a). destruct (String.compare a b); simpl; auto. Qed.

Lemma insert_by_perm {A} (lt : A → A → bool) x l : insert_by lt x l ≡ₚ x :: l.
Proof. induction l as [|y l IH]; [done|]. simpl. destruct (lt x y); [done|]. rewrite IH. apply Permutation_swap. Qed.
Lemma sorted_roles_perm roles : sorted_roles roles ≡ₚ roles.
Proof. induction roles as [|r roles IH]; [done|]. rewrite /sorted_roles /= insert_by_perm. by constructor. Qed.
Lemma insert_by_sorted x l : Sorted role_le l → Sorted role_le (insert_by String.ltb x l).
Proof.
  induction 1 as [|y l Hl IH Hy]; [by repeat constructor|]. simpl. destruct (String.ltb x y) eqn:Hxy.
  - constructor; [by constructor|]. constructor. destruct (role_le_total x y) as [|Hyx]; [done|].
    rewrite /role_le in Hyx. congruence.
  - constructor; [done|]. destruct Hy as [|z l Hyz]; simpl; [by constructor|]. by destruct (String.ltb x z); constructor.
Qed.
Lemma sorted_roles_sorted roles : Sorted role_le (sorted_roles roles).
Proof. induction roles as [|r roles IH]; [constructor|]. by apply insert_by_sorted. Qed.
Lemma sorted_roles_unique a b : a ≡ₚ b → sorted_roles a = sorted_roles b.
Proof.
  intros Hab. apply (Sorted_unique role_le); [apply sorted_roles_sorted..|]. by rewrite !sorted_roles_perm.
Qed.

(** ** The signature names the roles *)
Lemma pretty_N_go_free c n s : isdigit c = false → contains_char c (pretty_N_go n s) = contains_char c s.
Proof.
  intros Hc. revert s. induction (N.lt_wf_0 n) as [n _ IH]; intros s. destruct (decide (n = 0)%N) as [->|Hn].
  { by rewrite pretty_N_go_0. }
  rewrite pretty_N_go_step; [lia|]. rewrite IH; [apply N.div_lt; lia|]. simpl.
  rewrite (_ : Ascii.eqb _ _ = false); [|done]. apply Ascii.eqb_neq. intros ->. move: Hc. rewrite /pretty_N_char.
  by repeat case_match.
Qed.
Lemma to_string_free c n : isdigit c = false → contains_char c (to_string n) = false.
Proof.
  intros Hc. rewrite /to_string /pretty /pretty_N. case_decide; [|by rewrite pretty_N_go_free].
  simpl. rewrite orb_false_r. apply Ascii.eqb_neq. by intros ->.
Qed.
Lemma cut_first c a b x y :
  contains_char c a = false → contains_char c b = false → a +:+ String c x = b +:+ String c y → a = b ∧ x = y.
Proof.
  revert b. induction a as [|d a IH]; intros [|e b]; simpl.
  - by intros _ _ [= ->].
  - intros _ [He _]%orb_false_iff [= -> _]. by rewrite Ascii.eqb_refl in He.
  - intros [He _]%orb_false_iff _ [= -> _]. by rewrite Ascii.eqb_refl in He.
  - intros [_ Ha]%orb_false_iff [_ Hb]%orb_false_iff [= -> Heq]. destruct (IH b Ha Hb Heq) as [-> ->]. done.
Qed.
Lemma same_length a b x y : String.length a = String.length b → a +:+ x = b +:+ y → a = b ∧ x = y.
Proof.
  revert b. induction a as [|d a IH]; intros [|e b]; simpl; try done. intros [= Hl] [= -> Heq].
  destruct (IH b Hl Heq) as [-> ->]. done.
Qed.
Lemma role_part_inj r r' x y : role_part r +:+ x = role_part r' +:+ y → r = r' ∧ x = y.
Proof.
  rewrite /role_part -!string_app_assoc /=. intros [Hn Hr]%cut_first; [|by apply to_string_free..].
  apply (inj pretty), Nat2N.inj in Hn. destruct (same_length _ _ _ _ Hn Hr) as [-> Heq]. by injection Heq.
Qed.
Lemma role_part_start r x y : key_separator +:+ x ≠ role_part r +:+ y.
Proof.
  rewrite /role_part /key_separator -!string_app_assoc. pose proof (to_string_free "031" (N.of_nat (String.length r)) eq_refl) as Hf.
  destruct (to_string _) as [|c s]; [by intros [=]|]. simpl in *. intros [= <- _]. done.
Qed.
Lemma join_cons x l : join EmptyString (x :: l) = x +:+ join EmptyString l.
Proof. destruct l; simpl; [by rewrite string_app_nil_r|done]. Qed.
Lemma sig_inj a b x y :
  join EmptyString (map role_part a) +:+ key_separator +:+ x = join EmptyString (map role_part b) +:+ key_separator +:+ y →
  a = b ∧ x = y.
Proof.
  revert b. induction a as [|r a IH]; intros [|r' b]; rewrite ?map_cons ?join_cons -?(string_app_assoc (role_part _)).
  - rewrite /key_separator /=. intros [= Heq]. done.
  - by intros ?%role_part_start.
  - intros Heq. symmetry in Heq. by apply role_part_start in Heq.
  - intros [-> [-> ->]%IH]%role_part_inj. done.
Qed.
Lemma cut_last c a b x y :
  contains_char c x = false → contains_char c y = false → a +:+ String c x = b +:+ String c y → a = b ∧ x = y.
Proof.
  assert (Hin : ∀ b y, contains_char c (b +:+ String c y) = true).
  { intros b' y'. rewrite contains_char_app /= Ascii.eqb_refl. apply orb_true_r. }
  revert b. induction a as [|d a IH]; intros [|e b] Hx Hy; simpl.
  - by intros [= ->].
  - intros [= -> ->]. by rewrite Hin in Hx.
  - intros [= -> <-]. by rewrite Hin in Hy.
  - intros [= -> Heq]. destruct (IH b Hx Hy Heq) as [-> ->]. done.
Qed.
Lemma sorted_roles_iff a b : sorted_roles a = sorted_roles b ↔ a ≡ₚ b.
Proof.
  split; [|apply sorted_roles_unique]. intros Heq. by rewrite -(sorted_roles_perm a) Heq sorted_roles_perm.
Qed.

Section keys.
Context `{SUL : StringUtilLaws}.
(** an answer is kept under what was asked: two questions have one key exactly when they are of the same roles in
    whatever order, of names that differ in case alone, under the same settings of the node, for the same capability -
    whatever characters the roles' and the object's names hold.  (A capability is one of the code's own words.) *)
Theorem cache_key_names_the_question roles roles' strips strips' enums enums' name name' cap cap' :
  contains_char "031" cap = false → contains_char "031" cap' = false →
  table_key roles strips enums name cap = table_key roles' strips' enums' name' cap'
  ↔ roles ≡ₚ roles' ∧ Lower name = Lower name' ∧ strips = strips' ∧ enums = enums' ∧ cap = cap'.
Proof.
  intros Hc Hc'. rewrite /table_key /RoleSig. split.
  - intros [Hr%sorted_roles_iff Hrest]%sig_inj. split; [done|].
    set (flags (s e : bool) := (if s then "b" else "k") +:+ (if e then "v" else "k")).
    assert (Hf : ∀ s e, contains_char "031" (flags s e) = false); [by intros [] []|].
    assert (Hrest' : (Lower name +:+ String "031" (flags strips enums)) +:+ String "031" cap
                     = (Lower name' +:+ String "031" (flags strips' enums')) +:+ String "031" cap').
    { move: Hrest. rewrite /flags /key_separator -!string_app_assoc. by destruct strips, enums, strips', enums'. }
    apply cut_last in Hrest' as [Hn ->]; [|done..]. apply cut_last in Hn as [-> Hfl]; [|done..].
    split; [done|]. by destruct strips, enums, strips', enums'.
  - intros (Hr & Hn & -> & -> & ->). by rewrite (sorted_roles_unique _ _ Hr) Hn.
Qed.
End keys.

(** the key a function's verdict is kept under does not name its roles: it joins them by a character a role's name
    may hold, so the role [a<RS>b] is answered with the verdict kept for the roles [a] and [b], whatever the model says of
    it - what [RoleSig] was given its length prefixes against. *)
Theorem verdict_of_other_roles {Model Decision : Type} (same_model : Model → Model → bool)
    (resolve : Model → list string → string → string → Decision) model name kind :
  same_model model model = true →
  ∃ one two, ¬ one ≡ₚ two
    ∧ ∀ c, let kept := (Decided same_model resolve model one name kind c).1 in
      find_verdict same_model model (verdict_key one name kind) c = None →
      (Decided same_model resolve model two name kind kept).2 = resolve model one name kind.
Proof.
  intros Hm. exists ["a"; "b"], ["a" +:+ str1 "030" +:+ "b"]. split; [by intros ?%Permutation_length|].
  intros c kept Hmiss. rewrite /kept /Decided Hmiss /=.
  rewrite (_ : verdict_key ["a" +:+ str1 "030" +:+ "b"] name kind = verdict_key ["a"; "b"] name kind) //.
  rewrite /find_verdict /keep_verdict /is_model /= -/(is_model same_model model c).
  destruct (is_model same_model model c) eqn:Hc; simpl.
  - move: Hc. rewrite /is_model => ->. by rewrite lookup_insert decide_True.
  - by rewrite Hm lookup_insert decide_True.
Qed.

(** ** Freshness, one statement at a time *)
Section fresh.
Context (build : Z) (db_name schema : string) (interval : Z).
(** The source: the version it is at, what its rows say of a question under each version *)
Context (V : Z → Z) (content : Z → string → option TablePolicy).
Hypothesis build_known : (0 ≤ build)%Z.
Hypothesis versions_grow : ∀ t t', (t ≤ t')%Z → (V t ≤ V t')%Z.

Definition served_stamp (now : Z) : outcome Stamp := Ok {| policy_version := V now; stamped := build; min_reader := build |}.
Definition asked (key : string) (now : Z) (b : Backend) : Backend * outcome (option TablePolicy) :=
  ResolveObject build db_name schema false interval now (served_stamp now) key (Ok (content (V now) key)) b.
Definition called (key : string) (now : Z) (b : Backend) : Backend * outcome (option TablePolicy) :=
  ResolveVirtual build db_name schema false interval now (served_stamp now) key (Ok (content (V now) key)) b.
(** A backend as it stands at a time: statements one after the other, their checks answered; writes of its own *)
Inductive stands : Backend → Z → Prop :=
  | started now : stands new_backend now
  | later b now now' : stands b now → (now ≤ now')%Z → stands b now'
  | resolved b now key : stands b now → stands (asked key now b).1 now
  | resolved_function b now key : stands b now → stands (called key now b).1 now
  | written b now : stands b now → stands (wrote b) now.

(** What is kept was the source's answer since the last check *)
Definition since (check now : Z) (key : string) (found : option TablePolicy) : Prop :=
  ∃ t, (check ≤ t ≤ now)%Z ∧ found = content (V t) key.
Definition kept_since (b : Backend) (now : Z) : Prop :=
  (checked_once b = true → version b = V (last_check b) ∧ (last_check b ≤ now)%Z)
  ∧ (∀ key found, objects b !! key = Some found → version b = V (last_check b) ∧ since (last_check b) now key found)
  ∧ (∀ key found, functions b !! key = Some found → version b = V (last_check b) ∧ since (last_check b) now key found).

Lemma since_later check now now' key found : since check now key found → (now ≤ now')%Z → since check now' key found.
Proof. intros (t & Ht & ->) Hn. exists t. split; [lia|done]. Qed.
(** The same version twice: what held since the first check holds at the second *)
Lemma since_again check now key found : V check = V now → since check now key found → since now now key found.
Proof.
  intros Hv (t & [Hct Htn] & ->). exists now. split; [lia|]. f_equal.
  pose proof (versions_grow _ _ Hct). pose proof (versions_grow _ _ Htn). lia.
Qed.
Lemma check_stands b now :
  kept_since b now →
  ∃ b', EnsureFresh build db_name schema false interval now (served_stamp now) b = (b', Ok ())
    ∧ kept_since b' now ∧ version b' = V (last_check b') ∧ (last_check b' ≤ now)%Z
    ∧ (now - last_check b' < interval ∨ last_check b' = now)%Z ∧ (checked_once b = false → last_check b' = now).
Proof.
  intros (Hc & Ho & Hf). rewrite /EnsureFresh /begin_check.
  destruct (checked_once b && (now - last_check b <? interval)%Z) eqn:Hfresh.
  { apply andb_true_iff in Hfresh as [H1 H2%Z.ltb_lt]. destruct (Hc H1). exists b. split_and!; auto; [by split|congruence]. }
  rewrite /judge /served_stamp /JudgeSchema /= (proj2 (Z.ltb_ge build 0)) // Z.eqb_refl.
  eexists. split; [done|]. rewrite /adopt /=. destruct (V now =? version b)%Z eqn:Hv; simpl.
  - apply Z.eqb_eq in Hv. split_and!; [|done|lia|by right|done]. split; simpl; [by split; [|lia]|].
    split; intros key found H; [apply Ho in H as [Hvl Hs]|apply Hf in H as [Hvl Hs]]; (split; [done|]);
      apply (since_again (last_check b)); [congruence|done|congruence|done].
  - split_and!; [|done|lia|by right|done]. split; simpl; [by split; [|lia]|]. done.
Qed.

Lemma kept_insert (kept : gmap string (option TablePolicy)) (Q : string → option TablePolicy → Prop) key found :
  (∀ k f, kept !! k = Some f → Q k f) → Q key found →
  ∀ k f, <[key := found]> (ClearIfOversized kept) !! k = Some f → Q k f.
Proof.
  intros Hk Hq k f. rewrite /ClearIfOversized. destruct (decide (k = key)) as [->|Hne].
  - rewrite lookup_insert decide_True //. by intros [= <-].
  - rewrite lookup_insert_ne //. destruct (_ <? _)%nat; [by rewrite lookup_empty|]. apply Hk.
Qed.
(** One statement: what it is answered, and what is kept then *)
Definition answered (b : Backend) (now : Z) (key : string) (r : Backend * outcome (option TablePolicy)) : Prop :=
  kept_since r.1 now
  ∧ ∃ found t, r.2 = Ok found ∧ found = content (V t) key ∧ (t ≤ now)%Z ∧ (now - interval < t ∨ t = now)%Z
    ∧ (checked_once b = false → t = now).
Lemma asked_answered b now key : kept_since b now → answered b now key (asked key now b).
Proof.
  intros (b' & Hb & Hk & Hv & Hl & Ht & Hn)%check_stands. rewrite /answered /asked /ResolveObject /Resolved Hb /find_object.
  destruct Hk as (Hc & Ho & Hf). destruct (objects b' !! key) as [found|] eqn:Hkept; simpl.
  - split; [by split|]. destruct (Ho _ _ Hkept) as (_ & t & Htt & Hfound). exists found, t. split_and!; [done..|lia|lia|intros Hno%Hn; lia].
  - rewrite /keep_object Z.eqb_refl. split.
    + split; [|split]; simpl; [by auto| |done].
      apply (kept_insert _ (λ k f, version b' = V (last_check b') ∧ since (last_check b') now k f)); [done|].
      split; [done|]. exists now. split; [lia|done].
    + exists (content (V now) key), now. split_and!; [done..|by right|done].
Qed.
Lemma called_answered b now key : kept_since b now → answered b now key (called key now b).
Proof.
  intros (b' & Hb & Hk & Hv & Hl & Ht & Hn)%check_stands. rewrite /answered /called /ResolveVirtual /Resolved Hb /find_function.
  destruct Hk as (Hc & Ho & Hf). destruct (functions b' !! key) as [found|] eqn:Hkept; simpl.
  - split; [by split|]. destruct (Hf _ _ Hkept) as (_ & t & Htt & Hfound). exists found, t. split_and!; [done..|lia|lia|intros Hno%Hn; lia].
  - rewrite /keep_function Z.eqb_refl. split.
    + split; [|split]; simpl; [by auto|done|].
      apply (kept_insert _ (λ k f, version b' = V (last_check b') ∧ since (last_check b') now k f)); [done|].
      split; [done|]. exists now. split; [lia|done].
    + exists (content (V now) key), now. split_and!; [done..|by right|done].
Qed.
Lemma stands_kept b now : stands b now → kept_since b now.
Proof.
  induction 1 as [now|b now now' _ (Hc & Ho & Hf) Hle|b now key _ IH|b now key _ IH|b now _ (Hc & Ho & Hf)].
  - by split.
  - split; [intros H1; destruct (Hc H1); split; [done|lia]|].
    split; intros key found H; [destruct (Ho _ _ H)|destruct (Hf _ _ H)]; split; eauto using since_later.
  - by apply asked_answered.
  - by apply called_answered.
  - by split.
Qed.

(** C24: while the checks of the policy's version succeed, a statement is answered what the policy's rows said at some
    moment no longer ago than the check interval, whatever statements and writes came before it - so a policy change is
    in force within the interval, and at once on the node that wrote it, whose next statement checks. *)
Theorem answers_are_fresh b now key :
  stands b now →
  (∃ t, (asked key now b).2 = Ok (content (V t) key) ∧ (t ≤ now)%Z ∧ (now - interval < t ∨ t = now)%Z)
  ∧ (asked key now (wrote b)).2 = Ok (content (V now) key).
Proof.
  intros Hb. split.
  - destruct (asked_answered b now key (stands_kept _ _ Hb)) as (_ & found & t & Hr & -> & ? & ? & _). by exists t.
  - destruct (asked_answered (wrote b) now key (stands_kept _ _ (written _ _ Hb))) as (_ & found & t & Hr & -> & _ & _ & Hn).
    by rewrite Hr Hn.
Qed.
End fresh.

(** ** A check that fails *)
Section failing.
Context (build : Z) (db_name schema : string) (function_mode : bool) (interval : Z).

Definition statement (now : Z) (answer : outcome Stamp) (key : string) (lookup : outcome (option TablePolicy)) (b : Backend)
    : Backend * outcome (option TablePolicy) :=
  ResolveObject build db_name schema function_mode interval now answer key lookup b.
(** Any statements while the source answers nothing *)
Inductive source_down : Backend → Backend → Prop :=
  | no_statement b : source_down b b
  | down_statement b b' now message key message' :
      source_down b b' → source_down b (statement now (Throw message) key (Throw message') b').1.

Lemma down_keeps b b' : source_down b b' → objects b' = objects b ∧ version b' = version b.
Proof.
  induction 1 as [b|b b' now message key message' _ [Ho Hv]]; [done|].
  rewrite /statement /ResolveObject /Resolved /EnsureFresh /begin_check.
  destruct (checked_once b' && _); simpl; [|done]. by destruct (objects b' !! key).
Qed.

(** a failed check refuses the statement that paid for it and no other.  However long the source has been down, and
    whatever it would say, once a due check has failed every statement of the rest of the interval whose question has a
    kept answer is given it - of the last version the node adopted, unchecked - and the next check is not made before. *)
Theorem failed_check_serves_the_cache b b' key found now refused_key message message' :
  source_down b b' → objects b !! key = Some found →
  checked_once b' && (now - last_check b' <? interval)%Z = false →
  let refused := statement now (Throw message) refused_key (Throw message') b' in
  refused.2 = Throw message
  ∧ ∀ now' answer lookup, (now' - now < interval)%Z → statement now' answer key lookup refused.1 = (refused.1, Ok found).
Proof.
  intros [Ho Hv]%down_keeps Hkey Hdue. simpl. rewrite /statement /ResolveObject /Resolved /EnsureFresh /begin_check Hdue /=.
  split; [done|]. intros now' answer lookup Hn. by rewrite (proj2 (Z.ltb_lt _ _) Hn) /find_object /= Ho Hkey.
Qed.
End failing.

(** ** Any interleaving *)
Section interleaved.
Context (build : Z) (db_name schema : string) (function_mode : bool).
(** What the rows say of a question under each version of the policy *)
Context (content : Z → string → option TablePolicy).

(** Where a statement stands between two critical sections: asking the source, with what it said, before its lookup,
    reading the rows with the version it looked under, with what it read; answered, under the version of its lookup *)
Inductive phase :=
  | Asks (key : string)
  | Adopts (key : string) (current : Z)
  | Looks (key : string)
  | Reads (key : string) (read_at : Z)
  | Keeps (key : string) (read_at : Z) (found : option TablePolicy)
  | Served (key : string) (under : Z) (found : option TablePolicy).
Record node := { backend : Backend; source : Z; threads : gmap nat phase }.
Definition at_phase (i : nat) (p : phase) (b : Backend) (n : node) : node :=
  {| backend := b; source := source n; threads := <[i := p]> (threads n) |}.

Inductive step : node → node → Prop :=
  | arrives n i key interval now :
      step n (let '(b, asks) := begin_check interval now (backend n) in
              at_phase i (if asks then Asks key else Looks key) b n)
  | asks n i key stamped_as reads_from b :
      threads n !! i = Some (Asks key) →
      judge build db_name schema function_mode
        (Ok {| policy_version := source n; stamped := stamped_as; min_reader := reads_from |}) (backend n)
      = (b, Ok (source n)) →
      step n (at_phase i (Adopts key (source n)) b n)
  | fails n i key :
      threads n !! i = Some (Asks key) →
      step n {| backend := backend n; source := source n; threads := delete i (threads n) |}
  | adopts n i key current :
      threads n !! i = Some (Adopts key current) → step n (at_phase i (Looks key) (adopt current (backend n)) n)
  | looks n i key :
      threads n !! i = Some (Looks key) →
      step n (let '(kept, read_at) := find_object key (backend n) in
              at_phase i (match kept with
                          | Some found => Served key read_at found
                          | None => Reads key read_at
                          end) (backend n) n)
  | reads n i key read_at :
      threads n !! i = Some (Reads key read_at) →
      step n (at_phase i (Keeps key read_at (content (source n) key)) (backend n) n)
  | keeps n i key read_at found :
      threads n !! i = Some (Keeps key read_at found) →
      step n (at_phase i (Served key read_at found) (keep_object key read_at found (backend n)) n)
  | writes n more : (0 < more)%Z → step n {| backend := backend n; source := source n + more; threads := threads n |}
  | writes_here n : step n {| backend := wrote (backend n); source := source n; threads := threads n |}.
Inductive reachable (v : Z) : node → Prop :=
  | starts : (-1 ≤ v)%Z → reachable v {| backend := new_backend; source := v; threads := ∅ |}
  | steps n n' : reachable v n → step n n' → reachable v n'.

(** The answer of a version between the two *)
Definition of_version (from upto : Z) (key : string) (found : option TablePolicy) : Prop :=
  ∃ v, (from ≤ v ≤ upto)%Z ∧ found = content v key.
Definition phase_ok (upto : Z) (p : phase) : Prop :=
  match p with
  | Asks _ | Looks _ => True
  | Adopts _ current => (current ≤ upto)%Z
  | Reads _ read_at => (read_at ≤ upto)%Z
  | Keeps key read_at found | Served key read_at found => of_version read_at upto key found
  end.
Definition node_ok (n : node) : Prop :=
  (version (backend n) ≤ source n)%Z
  ∧ (∀ key found, objects (backend n) !! key = Some found → of_version (version (backend n)) (source n) key found)
  ∧ (∀ i p, threads n !! i = Some p → phase_ok (source n) p).

Lemma of_version_upto from upto upto' key found : of_version from upto key found → (upto ≤ upto')%Z → of_version from upto' key found.
Proof. intros (v & Hv & ->) Hle. exists v. split; [lia|done]. Qed.
Lemma phase_ok_upto upto upto' p : phase_ok upto p → (upto ≤ upto')%Z → phase_ok upto' p.
Proof. destruct p; simpl; eauto using of_version_upto; lia. Qed.
(** A step of one thread that leaves the source as it is *)
Lemma at_phase_ok i p b n :
  node_ok n → (version b ≤ source n)%Z →
  (∀ key found, objects b !! key = Some found → of_version (version b) (source n) key found) →
  phase_ok (source n) p → node_ok (at_phase i p b n).
Proof.
  intros (_ & _ & Ht) Hv Ho Hp. split_and!; [done..|]. intros j q. simpl. destruct (decide (j = i)) as [->|Hne].
  - rewrite lookup_insert decide_True //. by intros [= <-].
  - rewrite lookup_insert_ne //. apply Ht.
Qed.
Lemma step_ok n n' : step n n' → node_ok n → node_ok n'.
Proof.
  intros Hstep Hn. destruct (Hn) as (Hv & Ho & Ht). destruct Hstep.
  - rewrite /begin_check. destruct (checked_once _ && _); by apply at_phase_ok.
  - assert (version b = version (backend n) ∧ objects b = objects (backend n)) as [Hvb Hob].
    { move: H0. rewrite /judge. destruct function_mode; [by intros [= <-]|]. by destruct (JudgeSchema _ _ _ _ _ _); intros [= <-]. }
    apply at_phase_ok; [done|by rewrite Hvb|by rewrite Hob Hvb|simpl; lia].
  - split_and!; [done..|]. simpl. intros j p Hj. apply lookup_delete_Some in Hj as [_ Hj]. by apply (Ht j).
  - apply Ht in H as Hc. simpl in Hc. rewrite /adopt. destruct (_ =? _)%Z; apply at_phase_ok; done.
  - rewrite /find_object. apply at_phase_ok; try done. destruct (objects (backend n) !! key) eqn:Hk; simpl; auto.
  - apply Ht in H as Hr. simpl in Hr. apply at_phase_ok; try done. simpl. exists (source n). split; [lia|done].
  - apply Ht in H as Hk. simpl in Hk. rewrite /keep_object. destruct (_ =? _)%Z eqn:Heq; apply at_phase_ok; try done.
    simpl. apply Z.eqb_eq in Heq. apply (kept_insert _ (λ k f, of_version (version (backend n)) (source n) k f)); [done|].
    by rewrite Heq.
  - split_and!; simpl; [lia| |].
    + intros key found Hk. apply (of_version_upto _ (source n)); [by apply Ho|lia].
    + intros i p Hi. apply (phase_ok_upto (source n)); [by apply (Ht i)|lia].
  - by split_and!.
Qed.

(** C6: however statements, their checks, their reads and the policy's writes interleave, what the node keeps and what a
    statement is answered is what the rows said under one version of the policy - no older than the version the node ran
    under when the statement looked it up, no newer than the source's.  What was read while the version changed is
    answered and not kept. *)
Theorem kept_answers_are_no_older v n :
  reachable v n →
  (∀ key found, objects (backend n) !! key = Some found → of_version (version (backend n)) (source n) key found)
  ∧ (∀ i key under found, threads n !! i = Some (Served key under found) → of_version under (source n) key found).
Proof.
  intros Hr. assert (node_ok n) as (_ & Ho & Ht).
  { induction Hr as [Hv|n n' _ IH Hstep]; [|by apply (step_ok n)]. by split_and!. }
  split; [done|]. intros i key under found Hi. apply (Ht i _ Hi).
Qed.
End interleaved.

(** ** Parsed templates *)
Section templates.
Context {T : Type} (parse : string → outcome T).
Implicit Types c : TemplateCache (T:=T).
Lemma CAPACITY_pos : 0 < CAPACITY.
Proof. rewrite /CAPACITY. lia. Qed.
#[local] Opaque CAPACITY.

(** What is kept is what the parser made of it, each text once in the order of use, and no more than the capacity *)
Definition cache_ok c : Prop :=
  NoDup (recency c) ∧ (∀ key, key ∈ recency c ↔ is_Some (entries c !! key))
  ∧ (∀ key p, entries c !! key = Some p → parse key = Ok p) ∧ length (recency c) ≤ CAPACITY.
Lemma cache_size c : cache_ok c → size (entries c) = length (recency c).
Proof.
  intros (Hnd & Hdom & _). rewrite -size_dom -(size_list_to_set (C:=gset string)) //. f_equal.
  apply set_eq. intros key. rewrite elem_of_dom elem_of_list_to_set. by rewrite Hdom.
Qed.
Lemma forget_elem key k l : k ∈ forget key l ↔ k ∈ l ∧ k ≠ key.
Proof. rewrite /forget elem_of_filter_true negb_true_iff String.eqb_neq. done. Qed.
Lemma forget_nodup key l : NoDup l → NoDup (forget key l).
Proof.
  induction 1 as [|x l Hx _ IH]; [constructor|]. simpl. destruct (negb _); [|done]. constructor; [|done].
  rewrite -/(forget key l) forget_elem. by intros [].
Qed.
Lemma forget_absent key l : key ∉ l → forget key l = l.
Proof.
  induction l as [|x l IH]; [done|]. rewrite not_elem_of_cons /=. intros [Hx Hl].
  destruct (String.eqb_spec x key) as [->|_]; [done|]. simpl. f_equal. by apply IH.
Qed.
Lemma forget_length key l : NoDup l → key ∈ l → S (length (forget key l)) = length l.
Proof.
  induction 1 as [|x l Hx Hnd IH]; [by intros ?%not_elem_of_nil|]. simpl. intros [->|Hin]%elem_of_cons.
  - rewrite String.eqb_refl /=. f_equal. by rewrite -/(forget x l) forget_absent.
  - destruct (String.eqb_spec x key) as [->|Hne]; [done|]. simpl. by rewrite -(IH Hin).
Qed.
Lemma touched_nodup (key : string) l : NoDup l → key ∉ l → NoDup (l ++ [key]).
Proof. intros Hl Hk. apply NoDup_app. split_and!; [done| |apply NoDup_singleton]. by intros x Hx ->%list_elem_of_singleton. Qed.
Lemma GetCopy_ok key c : cache_ok c → cache_ok (GetCopy key (parse key) c).1.
Proof.
  intros Hok. pose proof (cache_size c Hok) as Hsize. destruct Hok as (Hnd & Hdom & Hparsed & Hlen). rewrite /GetCopy.
  destruct (entries c !! key) as [p|] eqn:Hkey; simpl.
  { assert (Hin : key ∈ recency c); [apply Hdom; by eexists|]. split_and!; simpl; [|intros k|done|].
    - apply touched_nodup; [by apply forget_nodup|]. rewrite forget_elem. by intros [].
    - rewrite elem_of_app list_elem_of_singleton forget_elem -Hdom. split; [by intros [[]| ->]|].
      intros Hk. destruct (decide (k = key)); [by right|by left].
    - rewrite length_app /=. pose proof (forget_length key _ Hnd Hin). lia. }
  assert (Hout : key ∉ recency c); [by rewrite Hdom Hkey; intros []|].
  destruct (parse key) as [p|message] eqn:Hp; [|by split_and!].
  assert (Hstep : ∀ (kept : gmap string T) recent, cache_ok {| entries := kept; recency := recent |} → kept !! key = None →
            length recent < CAPACITY → cache_ok {| entries := <[key := p]> kept; recency := recent ++ [key] |}).
  { intros kept recent (Hn & Hd & Hpk & _) Hno Hl. simpl in *. split_and!; simpl; [|intros k|intros k q|].
    - apply touched_nodup; [done|]. rewrite Hd Hno. by intros [].
    - rewrite elem_of_app list_elem_of_singleton Hd. destruct (decide (k = key)) as [->|Hne].
      + rewrite lookup_insert decide_True //. split; [by eexists|by right].
      + rewrite lookup_insert_ne //. naive_solver.
    - destruct (decide (k = key)) as [->|Hne]; [rewrite lookup_insert decide_True //; congruence|].
      rewrite lookup_insert_ne //. apply Hpk.
    - rewrite length_app /=. lia. }
  destruct (CAPACITY <=? size (entries c))%nat eqn:Hfull; destruct (recency c) as [|victim rest] eqn:Hrec; simpl.
  { apply (Hstep (entries c) []); [by split_and!|done|by apply CAPACITY_pos]. }
  - apply NoDup_cons in Hnd as [Hv Hr]. apply (Hstep (delete victim (entries c)) rest).
    + split_and!; simpl; [done|intros k|intros k q [_ Hq]%lookup_delete_Some; by apply Hparsed|simpl in Hlen; lia].
      rewrite lookup_delete_is_Some -Hdom elem_of_cons. naive_solver.
    + apply lookup_delete_None. by right.
    + simpl in Hlen. lia.
  - apply (Hstep (entries c) []); [by split_and!|done|by apply CAPACITY_pos].
  - apply (Hstep (entries c) (victim :: rest)); [by split_and!|done|]. apply Nat.leb_gt in Hfull. by rewrite -Hsize.
Qed.

(** a template cache answers what the parser would, whatever was asked of it before - a template that does not parse
    is refused each time and never kept - and it never holds more templates than its capacity, each text once. *)
Theorem templates_are_parsed_once keys c key :
  c = fold_left (λ c key, (GetCopy key (parse key) c).1) keys {| entries := ∅; recency := [] |} →
  (GetCopy key (parse key) c).2 = parse key
  ∧ size (entries c) ≤ CAPACITY ∧ NoDup (recency c) ∧ (∀ k, k ∈ recency c ↔ is_Some (entries c !! k)).
Proof.
  intros ->. assert (Hall : ∀ l c, cache_ok c → cache_ok (fold_left (λ c key, (GetCopy key (parse key) c).1) l c)).
  { intros l. induction l as [|k l IH]; intros c Hc; [done|]. simpl. by apply IH, GetCopy_ok. }
  assert (Hok : cache_ok (fold_left (λ c key, (GetCopy key (parse key) c).1) keys {| entries := ∅; recency := [] |})).
  { apply Hall. split_and!; simpl; [constructor| |done|pose proof CAPACITY_pos; lia].
    intros k. rewrite lookup_empty. split; [by intros ?%not_elem_of_nil|by intros []]. }
  set (c := fold_left _ _ _) in *. pose proof (cache_size c Hok) as Hsize. destruct Hok as (Hnd & Hdom & Hp & Hl).
  split_and!; [|lia|done|done]. rewrite /GetCopy. destruct (entries c !! key) eqn:Hk; [by rewrite (Hp _ _ Hk)|].
  destruct (parse key); [|done]. by destruct (recency c); [|destruct (_ <=? _)%nat].
Qed.
End templates.
