(* ===== verification/GrantSample.v ===== *)
(** * Grants and caches on concrete catalogs

    A catalog whose rows are written out, two roles on one table, a list that names nothing: where the properties of the
    grants, the lookups and the caches are evaluated. *)
From S2P Require Import Prelude AuditTrail NamePath FieldPaths PolicyTypes Tree Token RewriteData RewriteDml RewriteRefs RewriterSample Grants PolicyLookup GrantLaws GrantColumns UnionWidens LookupLaws PolicyCache PolicyCacheLaws.

#[local] Existing Instance reference_string_util.
#[local] Existing Instance reference_string_util_laws.

(** ** A parser of two stored texts *)
Definition filter_sql : string := "region = 'eu'".
Definition mask_sql : string := "'***'".
Definition whole_query (items : list Expr) (from : option TableRef) (where_ : option Expr) : outcome (list SQLStatement) :=
  Ok [SelectStatement EmptyString (SelectNode [] [] items from where_ None None [])].
Definition one_text (sql text : string) : option (outcome (list SQLStatement)) :=
  let stored := Constant EmptyString (VText text) in
  if String.eqb sql ("SELECT " +:+ text) then Some (whole_query [stored] None None)
  else if String.eqb sql ("SELECT " +:+ text +:+ " AS __acl_a, 1 AS __acl_b FROM __acl_t WHERE true") then
    Some (whole_query [set_alias "__acl_a" stored; Constant "__acl_b" (VInteger 1)]
            (Some (BaseTable EmptyString ["__acl_t"] [] None None)) (Some (Constant EmptyString (VBoolean true))))
  else None.
#[local] Instance grant_parsing : Parsing := {|
  ParseQuery sql :=
    match one_text sql filter_sql, one_text sql mask_sql with
    | Some parsed, _ | None, Some parsed => parsed
    | None, None => Throw "syntax error"
    end;
  ParseExpressionList sql := Throw "syntax error";
  expression_name _ := EmptyString; expression_text _ := EmptyString; query_text _ := EmptyString; name_text := join ".";
  statement_type _ := "SELECT"; value_integer _ := Throw "no integer"; node_parts _ := []; node_rebuild q _ := q;
  StatementTextHash _ := 0%N |}.
#[local] Instance grant_parser : PolicyParser :=
  {| sets_or_sample _ := false; has_parameter _ := false; expr_equals _ _ := true |}.
#[local] Instance grant_json : JsonReader :=
  {| read_json s := if String.eqb s "{}" then Some (JObj []) else None; through_double := id |}.
(** A row of the table is in the region or not, and that is all the stored filter says *)
#[local] Instance region_rows : Filters bool := {| admits _ inside := inside |}.
#[local] Instance region_rows_laws : FiltersLaws bool.
Proof.
  split; intros texts r Hne _; (destruct texts as [|t texts]; [done|]); simpl; clear; induction texts; simpl in *;
    by destruct r.
Qed.

(** ** A table two roles hold, an alias, a home *)
Definition no_chain : chain := {| crls := VNull; ccols := VNull; cchk := VNull; orls := VNull; ocols := VNull; ochk := VNull |}.
Definition region_chain : chain :=
  {| crls := VText filter_sql; ccols := VNull; cchk := VBoolean true; orls := VNull; ocols := VText "id, amount";
     ochk := VNull |}.
Definition orders_row (caps : Value) (c : chain) (role : string) : relation_row := {|
  r_form := VText "table"; r_phys := VText "memory.main.orders_t"; r_view_sql := VNull; r_rls := VNull; r_caps := caps;
  r_chain := c; r_prio := 1; r_cols := Some [(VText "id", VNull); (VText "amount", VNull); (VText "secret", VNull)];
  r_rchk := VNull; r_alias_types := VNull; r_enum_types := VNull; r_facts := None; r_cvcat := VText "sales";
  r_cvname := VText "orders"; r_grole := VText role |}.
(** The auditor's row holds nothing: it lifts no other role's filter *)
Definition orders_rows : list relation_row :=
  [orders_row VNull region_chain "analyst"; orders_row (VText "{}") no_chain "auditor"].
Definition raw_row : alias_row := {|
  a_vcat := VText "sales"; a_alias_path := VText "raw"; a_phys_path := VText "lake.bronze"; a_caps := VNull;
  a_chain := region_chain; a_prio := 1; a_grole := VText "analyst" |}.
Definition home_row : ddl_row := {|
  d_vcat := VText "sales"; d_path := VText "work"; d_phys_path := VText "lake.work"; d_origin := VNull; d_caps := VNull;
  d_into := VNull; d_virtual_only := VNull; d_qualified := true; d_unqualified := false |}.
#[local] Instance grant_rows : PolicyRows := {|
  relation_rows _ name _ _ := if String.eqb name "sales.orders" then Answered orders_rows else Answered [];
  alias_rows _ name _ := if String.eqb name "sales.raw.events" then Answered [raw_row] else Answered [];
  function_rows _ _ _ _ := Answered []; main_grant_caps _ := Answered []; grant_caps _ := Answered [];
  ddl_rows _ _ _ := Answered [home_row]; schema_rows _ _ _ := Answered []; function_mode := false;
  NodeStripsAliases := false; NodeEnumsToVarchar := false; on_union_widens := false |}.
Definition analyst : Principal := {| issuer := EmptyString; subject := "ann"; roles := ["analyst"; "auditor"]; claims := [] |}.

Definition orders_found : Resolution :=
  Eval vm_compute in
    match LookupRelation analyst "sales.orders" "select" with Answered (Some found) => found | _ => {| found_policy := no_policy; told := None |} end.
Lemma relation_rows_are_some_roles_witness :
  rls (found_policy orders_found) = filter_sql
  ∧ projection (found_policy orders_found) = [SqlIdentifier "id"; SqlIdentifier "amount"]
  ∧ read_under (rls (found_policy orders_found)) false
    = read_under EmptyString false && existsb (row_reads "select" false) orders_rows.
Proof.
  split; [vm_compute; reflexivity|]. split; [vm_compute; reflexivity|].
  refine (relation_rows_are_some_roles analyst "sales.orders" "select" _ _ orders_found false eq_refl _ eq_refl _);
    vm_compute; reflexivity.
Defined.

Definition events_found : Resolution :=
  Eval vm_compute in
    match LookupSchemaAlias analyst "sales.raw.events" "select" with Answered (Some found) => found | _ => {| found_policy := no_policy; told := None |} end.
Lemma alias_reaches_under_it_witness :
  phys (found_policy events_found) = "lake.bronze.events"
  ∧ read_under (rls (found_policy events_found)) true
    = existsb (λ row, row_holds "select" (alias_parts row) && chain_reads (a_chain row) true)
        (alias_group raw_row [raw_row]).
Proof.
  split; [vm_compute; reflexivity|].
  refine (proj2 (alias_reaches_under_it analyst "sales.raw.events" "select" raw_row [] events_found true eq_refl _ _));
    vm_compute; reflexivity.
Defined.

Definition work_home : DdlTarget := home_of "work.t" home_row.
Lemma ddl_home_is_a_holders_witness :
  LookupDdlTarget analyst "sales.work.t" "insert" = Answered (Some work_home) ∧ phys_schema work_home = "lake.work"
  ∧ nowhere work_home = false.
Proof.
  split; [vm_compute; reflexivity|]. split; [reflexivity|].
  assert (HL : LookupDdlTarget analyst "sales.work.t" "insert" = Answered (Some work_home)); [vm_compute; reflexivity|].
  assert (HR : ddl_rows analyst "sales.work.t" (SplitName "sales.work.t") = Answered [home_row]); [reflexivity|].
  destruct (ddl_home_is_a_holders analyst "sales.work.t" "insert" work_home [home_row] HR HL)
    as (? & ? & ? & ? & ? & ? & ? & ? & ? & Hn & ?).
  exact Hn.
Defined.

(** ** Lists *)
Definition listing (items : list (string * string)) (filter : string) : GrantPolicy := {|
  restricts := true; policy_unchecked := false; policy_columns := items;
  predicates := if is_empty filter then [] else [filter] |}.
Definition analyst_list : GrantPolicy := listing [("id", EmptyString); ("secret", mask_sql)] filter_sql.
Definition auditor_list : GrantPolicy := listing [("ID", EmptyString); ("amount", EmptyString)] "region = 'us'".
Definition both_lists : GrantUnion :=
  Eval vm_compute in match AddAll [analyst_list; auditor_list] no_grants with Ok u => u | Throw _ => no_grants end.
Lemma some_role_shows_witness :
  union_shows both_lists "amount" = existsb (λ p, role_shows p "amount") [analyst_list; auditor_list]
  ∧ union_shows both_lists "secret" = false ∧ masked_in (union_columns both_lists) "secret" mask_sql.
Proof.
  destruct (some_role_shows [analyst_list; auditor_list] both_lists) as (Hs & _ & Hm).
  - vm_compute. reflexivity.
  - discriminate.
  - repeat constructor.
  - split; [apply Hs|]. split; [vm_compute; reflexivity|]. apply Hm; [vm_compute; reflexivity|].
    exists analyst_list. split; [left|]. split; [reflexivity|]. exists ("secret", mask_sql).
    split; [right; left|]. repeat split; vm_compute; reflexivity.
Defined.

Definition own_orders : list (string * string) := [("amount", EmptyString); ("id", "order_id"); ("hidden", EmptyString)].
Definition orders_alias : TablePolicy := {|
  subquery_form := true; phys := "memory.main.orders_t"; canonical := "sales.orders"; projection := []; rls := EmptyString;
  rls_unchecked := false; query := EmptyString; is_view := false; wrap_sql := EmptyString; caps := all_caps;
  renames := [("id", "order_id")]; writable := true; from_schema_alias := false; returning_refused := EmptyString;
  capability_rows_read := true; injections := []; write_columns := []; write_order := []; visible_columns := [];
  narrowed_reads := []; field_writes := []; casts := []; granted_items := [] |}.
Definition whole_grant (items : list (string * string)) : GrantUnion := {|
  any := true; unrestricted_rls := false; unrestricted_columns := false; union_unchecked := false;
  union_predicates := [filter_sql]; union_columns := items |}.
Definition narrowed_orders : TablePolicy :=
  Eval vm_compute in
    match ApplyGrantPolicy "sales.orders" (whole_grant [("ID", EmptyString); ("amount", "0")]) own_orders orders_alias with
    | Ok p => p | Throw _ => no_policy end.
Ltac flat_items := split; [reflexivity|split; [vm_compute; repeat constructor; set_solver|repeat constructor]].
Lemma granted_columns_witness :
  projection narrowed_orders = ["0 AS " +:+ SqlIdentifier "amount"; "order_id AS " +:+ SqlIdentifier "ID"]
  ∧ ci_mem "ORDER_ID" (write_columns narrowed_orders) = true ∧ injections narrowed_orders = [("amount", "0")].
Proof.
  destruct (granted_columns "sales.orders" (whole_grant [("ID", EmptyString); ("amount", "0")]) own_orders orders_alias narrowed_orders)
    as (Hp & _ & Hw & _ & Hi).
  - reflexivity.
  - reflexivity.
  - flat_items.
  - discriminate.
  - vm_compute. repeat constructor; set_solver.
  - repeat constructor; set_solver.
  - vm_compute. reflexivity.
  - split; [rewrite Hp; vm_compute; reflexivity|]. split; [rewrite Hw; vm_compute; reflexivity|].
    rewrite Hi. vm_compute. reflexivity.
Defined.
Lemma nothing_listed_is_no_policy_witness :
  ∃ p', ApplyGrantPolicy "sales.orders" (whole_grant [("gone", EmptyString)]) own_orders orders_alias = Ok p'
    ∧ projection p' = [] ∧ write_columns p' = [] ∧ rls p' = filter_sql.
Proof.
  destruct (nothing_listed_is_no_policy (PS := sample_source) (B := a_batch false) "sales.orders"
              (whole_grant [("gone", EmptyString)]) own_orders orders_alias) as (p' & HA & Hp & _ & Hw & _).
  - reflexivity.
  - reflexivity.
  - flat_items.
  - repeat constructor.
  - discriminate.
  - intros d Hd. repeat (apply elem_of_cons in Hd as [->|Hd]; [vm_compute; reflexivity|]). by apply not_elem_of_nil in Hd.
  - exists p'. split; [exact HA|]. split; [exact Hp|]. split; [exact Hw|]. move: HA. vm_compute. by intros [= <-].
Defined.

(** The two lists above unite into a cell neither role reads: [amount] on the analyst's rows *)
Lemma report_is_exact_witness :
  let roles := [("analyst", analyst_list); ("auditor", auditor_list)] in
  let known := ["id"; "amount"; "secret"] in
  RoleUnionWidens roles known 16
  = [{| role_a := "analyst"; role_b := "auditor"; columns := ["amount"] |};
     {| role_a := "auditor"; role_b := "analyst"; columns := ["secret"] |}]
  ∧ ¬ no_new_cell roles known.
Proof.
  split; [vm_compute; reflexivity|]. intros Hnew.
  apply (report_is_exact [("analyst", analyst_list); ("auditor", auditor_list)] ["id"; "amount"; "secret"] 16) in Hnew.
  - vm_compute in Hnew. discriminate.
  - constructor; [flat_items|]. constructor; [flat_items|constructor].
  - repeat constructor.
  - discriminate.
Defined.

(** ** Caches *)
Lemma cache_key_names_the_question_witness :
  table_key ["b"; "a,b"] false true "Sales.Orders" "select" = table_key ["a,b"; "b"] false true "sales.orders" "select"
  ∧ table_key ["a,b"] false true "x" "select" ≠ table_key ["a"; "b"] false true "x" "select".
Proof.
  split.
  - apply (cache_key_names_the_question ["b"; "a,b"] ["a,b"; "b"] false false true true "Sales.Orders" "sales.orders"
             "select" "select"); [reflexivity..|]. split; [apply Permutation_swap|]. repeat split; vm_compute; reflexivity.
  - intros Heq. apply (cache_key_names_the_question ["a,b"] ["a"; "b"] false false true true "x" "x" "select" "select") in Heq
      as [Hp _]; [|reflexivity..]. apply Permutation_length in Hp. discriminate.
Defined.

Lemma verdict_of_other_roles_witness :
  ∃ one two : list string, ¬ one ≡ₚ two
    ∧ let kept := (Decided Nat.eqb (λ _ roles _ _, length roles) 7 one "f" "scalar" {| decided_by := None; decisions := ∅ |}).1 in
      (Decided Nat.eqb (λ _ roles _ _, length roles) 7 two "f" "scalar" kept).2 = length one.
Proof.
  destruct (verdict_of_other_roles Nat.eqb (λ _ roles _ _, length roles) 7 "f" "scalar" eq_refl) as (one & two & Hp & Hc).
  exists one, two. split; [exact Hp|]. apply Hc. reflexivity.
Defined.

(** The policy changes at [10]: a grant until then, none after *)
Definition sample_version (now : Z) : Z := (if (now <? 10) then 1 else 2)%Z.
Definition sample_content (version : Z) (key : string) : option TablePolicy :=
  if (version =? 1)%Z then Some orders_alias else None.
Lemma sample_versions_grow t t' : (t ≤ t')%Z → (sample_version t ≤ sample_version t')%Z.
Proof. rewrite /sample_version. destruct (Z.ltb_spec t 10), (Z.ltb_spec t' 10); lia. Qed.
Definition at_nine : Backend := (asked 16 "policy" "main" 1000 sample_version sample_content "q" 9 new_backend).1.
Lemma answers_are_fresh_witness :
  (asked 16 "policy" "main" 1000 sample_version sample_content "q" 20 at_nine).2 = Ok (Some orders_alias)
  ∧ (asked 16 "policy" "main" 1000 sample_version sample_content "q" 20 (wrote at_nine)).2 = Ok None.
Proof.
  assert (Hs : stands 16 "policy" "main" 1000 sample_version sample_content at_nine 20).
  { apply (later _ _ _ _ _ _ _ 9); [|lia]. apply resolved. apply started. }
  split; [vm_compute; reflexivity|].
  exact (proj2 (answers_are_fresh 16 "policy" "main" 1000 sample_version sample_content ltac:(lia) sample_versions_grow
                  at_nine 20 "q" Hs)).
Defined.
Lemma failed_check_serves_the_cache_witness :
  let refused := statement 16 "policy" "main" false 1000 5000 (Throw "down") "other" (Throw "down") at_nine in
  refused.2 = Throw "down"
  ∧ statement 16 "policy" "main" false 1000 5999 (Throw "down") "q" (Throw "down") refused.1 = (refused.1, Ok (Some orders_alias)).
Proof.
  destruct (failed_check_serves_the_cache 16 "policy" "main" false 1000 at_nine at_nine "q" (Some orders_alias) 5000 "other"
              "down" "down") as [H1 H2].
  - constructor.
  - vm_compute. reflexivity.
  - vm_compute. reflexivity.
  - split; [exact H1|]. apply H2. lia.
Defined.
(** A statement reads under version 1; the policy is written before it keeps what it read *)
Lemma kept_answers_are_no_older_witness :
  ∃ n, reachable 16 "policy" "main" false sample_content 1 n
    ∧ threads n !! 0 = Some (Served "q" 1 (Some orders_alias)) ∧ source n = 2%Z
    ∧ of_version sample_content 1 (source n) "q" (Some orders_alias).
Proof.
  assert (Hr : ∃ n, reachable 16 "policy" "main" false sample_content 1 n
                    ∧ threads n !! 0 = Some (Served "q" 1 (Some orders_alias)) ∧ source n = 2%Z).
  { pose proof (starts 16 "policy" "main" false sample_content 1 ltac:(lia)) as Hr.
    eapply steps in Hr; [|apply (arrives _ _ _ _ _ _ 0 "q" 1000 5)].
    eapply steps in Hr; [|eapply (asks _ _ _ _ _ _ 0 _ 16 16); vm_compute; reflexivity].
    eapply steps in Hr; [|eapply (adopts _ _ _ _ _ _ 0); vm_compute; reflexivity].
    eapply steps in Hr; [|eapply (looks _ _ _ _ _ _ 0); vm_compute; reflexivity].
    eapply steps in Hr; [|eapply (reads _ _ _ _ _ _ 0); vm_compute; reflexivity].
    eapply steps in Hr; [|eapply (writes _ _ _ _ _ _ 1); lia].
    eapply steps in Hr; [|eapply (keeps _ _ _ _ _ _ 0); vm_compute; reflexivity].
    eexists. split; [exact Hr|]. split; vm_compute; reflexivity. }
  destruct Hr as (n & Hr & Hs & Hv). exists n. split; [exact Hr|]. split; [exact Hs|]. split; [exact Hv|].
  exact (proj2 (kept_answers_are_no_older 16 "policy" "main" false sample_content 1 n Hr) 0 "q" 1%Z _ Hs).
Defined.
Lemma templates_are_parsed_once_witness :
  let parse (s : string) : outcome string := if String.eqb s "bad" then Throw "syntax error" else Ok s in
  let c := fold_left (λ c key, (GetCopy key (parse key) c).1) ["a"; "bad"; "b"; "a"] {| entries := ∅; recency := [] |} in
  (GetCopy "b" (parse "b") c).2 = Ok "b" ∧ recency c = ["b"; "a"].
Proof.
  split; [|vm_compute; reflexivity].
  exact (proj1 (templates_are_parsed_once (λ s : string, if String.eqb s "bad" then Throw "syntax error" else Ok s)
                  ["a"; "bad"; "b"; "a"] _ "b" eq_refl)).
Defined.
