(* ===== verification/Heads.v ===== *)
(** * Whose statement is it: a text's heads on duckdb's tokens

    What decides, before anything is parsed, whether a statement is the management grammar's or duckdb's
    ([acl_mgmt_grammar.cpp]'s [ReadStatementHeads], [acl_admin_sql.cpp]'s [IsMgmtHead] and what is asked of a batch through
    it), a text's `ATTACH … LINEAGE` segments ([acl_attach_lineage.hpp]), a `USE SCHEMA` as the SET it becomes, and the
    call a generated streamed insert is known by ([acl_parser_override.cpp]).  duckdb's tokenizer, run so that it refuses
    nothing, is the interface [Splitter]. *)
From stdpp Require Import pretty.
From S2P Require Import Prelude FieldPaths Prefix.

(** ** Tokens *)

Inductive MatcherType := KEYWORD | IDENTIFIER | NUMBER_LITERAL | STRING_LITERAL | STATEMENT_END | INPUT_END | OTHER_TOKEN.
#[export] Instance MatcherType_eq_dec : EqDecision MatcherType.
Proof. solve_decision. Defined.
Record MatcherToken :=
  { tk_text : string; tk_offset : nat; tk_length : nat; tk_type : MatcherType; tk_unterminated : bool }.

(** duckdb's tokenizer behind [SplitTokenizerBehavior]: the tokens (comments are none), and what the text ends inside - a
    comment, a string or a quoted name -, empty for nothing *)
Class Splitter := { SplitTokens : string → list MatcherToken * string }.

Inductive HeadKind := WORD | QUOTED_NAME | NUMBER | STRING_ | OTHER_KIND.
#[export] Instance HeadKind_eq_dec : EqDecision HeadKind.
Proof. solve_decision. Defined.
Record HeadToken := {
  h_kind : HeadKind;
  h_word : string;
  h_text : string;
  h_offset : nat;
  h_index : nat;
  h_unterminated : bool;
}.
Definition IsWord (keyword : string) (t : HeadToken) : bool :=
  bool_decide (h_kind t = WORD) && String.eqb (h_word t) keyword.

Definition first_char (s : string) : option ascii := match s with String c _ => Some c | EmptyString => None end.
Definition starts_with (cs : list ascii) (s : string) : bool :=
  match first_char s with Some c => existsb (Ascii.eqb c) cs | None => false end.
Definition backtick : ascii := "`"%char.

Section heads.
Context `{SU : StringUtil} `{SP : Splitter}.

(** A token as a head shows it *)
Definition read_token (t : MatcherToken) (index : nat) : HeadToken :=
  let kind :=
    if starts_with [dquote; backtick] (tk_text t) then QUOTED_NAME
    else if bool_decide (tk_type t = NUMBER_LITERAL) && match first_char (tk_text t) with Some c => isdigit c | None => false end
    then NUMBER
    else if bool_decide (tk_type t = STRING_LITERAL) && starts_with [squote] (tk_text t) then STRING_
    else if (bool_decide (tk_type t = KEYWORD) || bool_decide (tk_type t = IDENTIFIER)) && negb (is_empty (tk_text t)) then WORD
    else OTHER_KIND in
  {| h_kind := kind; h_word := if bool_decide (kind = WORD) then Lower (tk_text t) else EmptyString; h_text := tk_text t;
     h_offset := tk_offset t; h_index := index; h_unterminated := tk_unterminated t |}.

(** The statement being read: its head, how many tokens it has had, its last ones past the head *)
Record open_head := { head_so_far : list HeadToken; seen_tokens : nat; last_tokens : list HeadToken }.
Definition no_head : open_head := {| head_so_far := []; seen_tokens := 0; last_tokens := [] |}.
Definition closed_head (h : open_head) : list HeadToken := head_so_far h ++ last_tokens h.
Definition add_token (count tail : nat) (t : MatcherToken) (h : open_head) : open_head :=
  let read := read_token t (seen_tokens h) in
  if seen_tokens h <? count then
    {| head_so_far := head_so_far h ++ [read]; seen_tokens := S (seen_tokens h); last_tokens := last_tokens h |}
  else if 0 <? tail then
    let kept := if length (last_tokens h) =? tail then drop 1 (last_tokens h) else last_tokens h in
    {| head_so_far := head_so_far h; seen_tokens := S (seen_tokens h); last_tokens := kept ++ [read] |}
  else {| head_so_far := head_so_far h; seen_tokens := S (seen_tokens h); last_tokens := last_tokens h |}.
Fixpoint statement_heads (count tail : nat) (ts : list MatcherToken) (open : option open_head) : list (list HeadToken) :=
  match ts with
  | [] => option_list (closed_head <$> open)
  | t :: ts =>
      if bool_decide (tk_type t = STATEMENT_END) then option_list (closed_head <$> open) ++ statement_heads count tail ts None
      else if bool_decide (tk_type t = INPUT_END) then statement_heads count tail ts open
      else statement_heads count tail ts (Some (add_token count tail t (default no_head open)))
  end.
(** [ReadStatementHeads]: the heads, and whether the text ends inside a comment or a token *)
Definition ReadStatementHeads (text : string) (count tail : nat) : list (list HeadToken) * bool :=
  let '(tokens, open) := SplitTokens text in
  (statement_heads count tail tokens None, negb (is_empty open) || existsb tk_unterminated tokens).
Definition Heads (text : string) (count : nat) : list (list HeadToken) := (ReadStatementHeads text count 0).1.

(** ** Management statements *)

(** The keywords of linked modules' statements ([MgmtRulesRegistry]) *)
Context (module_keywords : list string).
Definition MgmtRulesKeyword (word : string) : bool := existsb (λ keyword, CIEquals keyword word) module_keywords.

Definition word_at (head : list HeadToken) (index : nat) : string :=
  match head !! index with Some t => if bool_decide (h_kind t = WORD) then h_word t else EmptyString | None => EmptyString end.
Definition named_at (head : list HeadToken) (index : nat) : bool :=
  match head !! index with
  | Some t => bool_decide (h_kind t = WORD) || bool_decide (h_kind t = QUOTED_NAME) || bool_decide (h_kind t = NUMBER)
  | None => false
  end.
Definition string_at (head : list HeadToken) (index : nat) : bool :=
  match head !! index with Some t => bool_decide (h_kind t = STRING_) | None => false end.
Definition among (word : string) (words : list string) : bool := existsb (String.eqb word) words.
(** The verbs duckdb has too: ours by the marker or the noun *)
Definition shared_verb (head : list HeadToken) (first : string) : bool :=
  let word := word_at head in
  let named := named_at head in
  let second := word 1 in
  if String.eqb first "set" then
    String.eqb second "session"
    && (string_at head 2 || String.eqb (word 2) "view" && String.eqb (word 3) "as")
  else if String.eqb first "reset" then
    String.eqb second "session" && String.eqb (word 2) "view" && String.eqb (word 3) "as"
  else if String.eqb first "analyze" then String.eqb second "virtual" && named 2
  else if String.eqb first "comment" then String.eqb (word (if String.eqb second "on" then 2 else 1)) "virtual"
  else if negb (among first ["create"; "drop"; "alter"]) then false
  else
    let at_ := if String.eqb first "create" && String.eqb second "or" then (if String.eqb (word 2) "replace" then 3 else 2)
               else 1 in
    let noun := word at_ in
    let function_category :=
      String.eqb noun "function" && String.eqb (word (at_ + 1)) "category" && named (at_ + 2)
      && negb (String.eqb first "drop" && among (word (at_ + 2)) ["cascade"; "restrict"]) in
    function_category
    || among noun (if String.eqb first "create" then ["virtual"; "role"; "issuer"; "client"; "resource"]
                   else if String.eqb first "alter" then ["virtual"; "role"; "issuer"; "client"; "grant"; "resource"]
                   else ["relation"; "virtual"; "role"; "issuer"; "client"; "map"; "reference"; "resource"]).
(** [IsMgmtHead] *)
Definition IsMgmtHead (head : list HeadToken) : bool :=
  let first := word_at head 0 in
  let second := word_at head 1 in
  if is_empty first then false
  else if among first ["add"; "grant"; "revoke"; "map"] then true
  else if MgmtRulesKeyword first then true
  else if String.eqb first "deny" then among second ["function"; "view"]
  else if among first ["check"; "repair"] then String.eqb second "virtual"
  else if among first ["profile"; "kill"] then String.eqb second "session"
  else if among first ["drain"; "resume"] then String.eqb second "node"
  else if String.eqb first "migrate" then String.eqb second "policy"
  else shared_verb head first.

(** What is asked of a batch's heads *)
Definition StartsWithMgmt (heads : list (list HeadToken)) : bool :=
  match heads with head :: _ => IsMgmtHead head | [] => false end.
Definition BatchHasMgmtStatement (heads : list (list HeadToken)) : bool := existsb IsMgmtHead heads.
Definition BatchIsAllMgmt (heads : list (list HeadToken)) : bool :=
  forallb IsMgmtHead heads && negb (match heads with [] => true | _ => false end).
Definition first_is (keyword : string) (head : list HeadToken) : bool :=
  match head with t :: _ => IsWord keyword t | [] => false end.
Definition RefuseRepeatedPrefix (heads : list (list HeadToken)) : outcome unit :=
  match list_find (λ head, first_is "acl" head = true) heads with
  | Some (i, _) =>
      Throw ("acl admin: one ACL prefix per batch - the statements after the prefix are written without one of their own "
             +:+ "(statement " +:+ pretty (N.of_nat (i + 1)) +:+ " starts with ACL)")
  | None => Ok ()
  end.
Definition IsSecretsStart (heads : list (list HeadToken)) : bool :=
  match heads with
  | (first :: second :: _) :: _ => (IsWord "grant" first || IsWord "revoke" first) && IsWord "secret" second
  | _ => false
  end.

(** ** A client's own text behind a door's prefix *)
Definition value_at (head : list HeadToken) (index : nat) : bool :=
  match head !! index with
  | Some t => bool_decide (h_kind t = STRING_) || bool_decide (h_kind t = QUOTED_NAME)
  | None => false
  end.
Definition is_at (keyword : string) (head : list HeadToken) (index : nat) : bool :=
  match head !! index with Some t => IsWord keyword t | None => false end.
Definition lineage_part_at (head : list HeadToken) (index : nat) : bool :=
  (is_at "parent" head index || is_at "root" head index || is_at "job" head index) && value_at head (index + 1).
(** The markers a client may write itself, greedily; [fuel] the head's tokens *)
Fixpoint past_parts (fuel : nat) (head : list HeadToken) (at_ : nat) : nat :=
  match fuel with
  | O => at_
  | S fuel => if lineage_part_at head at_ then past_parts fuel head (at_ + 2) else at_
  end.
Fixpoint past_markers (fuel : nat) (head : list HeadToken) (at_ : nat) : nat :=
  match fuel with
  | O => at_
  | S fuel =>
      if is_at "lineage" head at_ && lineage_part_at head (at_ + 1) then
        past_markers fuel head (past_parts (length head) head (at_ + 1))
      else if (is_at "trace" head at_ || is_at "parent" head at_) && value_at head (at_ + 1) then
        past_markers fuel head (at_ + 2)
      else at_
  end.
Definition rest_from (normalized : string) (head : list HeadToken) (index : nat) : string :=
  match head !! index with Some t => string_drop (h_offset t) normalized | None => EmptyString end.
(** Whether a text is management, and the text past its markers *)
Definition reading_of (normalized : string) : bool * string :=
  match Heads normalized 32 with
  | [] => (false, normalized)
  | first :: more =>
      let at_ := past_markers (length first) first 0 in
      if is_at "acl" first at_ then
        let native := is_at "native" first (at_ + 1) in
        (negb native, rest_from normalized first (at_ + (if native then 2 else 1)))
      else if at_ <? length first then (IsMgmtHead (drop at_ first), rest_from normalized first at_)
      else
        match more with
        | next :: _ => (IsMgmtHead next, rest_from normalized next 0)
        | [] => (false, EmptyString)
        end
  end.
(** [ClientTextIsMgmt]; what duckdb cannot normalize is refused later *)
Definition ClientTextIsMgmt (NormalizeSQLString : string → outcome string) (query : string) : bool * string :=
  match NormalizeSQLString query with Ok normalized => reading_of normalized | Throw _ => (false, query) end.

(** ** `ATTACH … LINEAGE '<identity>'` *)
Record AttachLineageSegment := {
  seg_text : string;
  seg_identity : string;
  seg_original : string;
  seg_offset : nat;
  seg_marked : bool;
}.
(** A lower-case name in a text, in any case *)
Fixpoint starts_ci (name text : string) : bool :=
  match name, text with
  | EmptyString, _ => true
  | String a name, String b text => Ascii.eqb (lower_char b) a && starts_ci name text
  | _, EmptyString => false
  end.
Fixpoint find_ci (name text : string) : option string :=
  if starts_ci name text then Some text else match text with String _ text => find_ci name text | EmptyString => None end.
Definition MayCarryAttachLineage (text : string) : bool :=
  bool_decide (is_Some (find_ci "attach" text)) && bool_decide (is_Some (find_ci "lineage" text)).
Definition last_of (head : list HeadToken) : option HeadToken := List.last (map Some head) None.
Definition attach_marked (head : list HeadToken) : bool :=
  match last_of head, head !! (length head - 2) with
  | Some last, Some word =>
      first_is "attach" head && (3 <=? h_index last) && IsWord "lineage" word && bool_decide (h_kind last = STRING_)
      && negb (h_unterminated last) && (2 <=? String.length (h_text last))
  | _, _ => false
  end.
Definition text_between (text : string) (from upto : nat) : string := string_take (upto - from) (string_drop from text).
Definition segment_of (text : string) (head : list HeadToken) : AttachLineageSegment :=
  match head, last_of head, head !! (length head - 2) with
  | front :: _, Some last, word =>
      let start := h_offset front in
      let whole := text_between text start (h_offset last + String.length (h_text last)) in
      match word with
      | Some word =>
          if attach_marked head then
            {| seg_text := text_between text start (h_offset word);
               seg_identity := Trim (Replace (string_take (String.length (h_text last) - 2) (string_drop 1 (h_text last)))
                                       (sq +:+ sq) sq);
               seg_original := whole; seg_offset := start; seg_marked := true |}
          else {| seg_text := whole; seg_identity := EmptyString; seg_original := EmptyString; seg_offset := start;
                  seg_marked := false |}
      | None => {| seg_text := whole; seg_identity := EmptyString; seg_original := EmptyString; seg_offset := start;
                   seg_marked := false |}
      end
  | _, _, _ => {| seg_text := EmptyString; seg_identity := EmptyString; seg_original := EmptyString; seg_offset := 0;
                  seg_marked := false |}
  end.
(** [None]: no statement carries the marker *)
Definition SplitAttachLineage (text : string) : option (list AttachLineageSegment) :=
  let '(heads, open) := ReadStatementHeads text 1 2 in
  let cut_open := match List.last (map Some heads) None ≫= last_of with
                  | Some last => open && negb (h_unterminated last)
                  | None => true
                  end in
  if cut_open || negb (existsb attach_marked heads) then None else Some (map (segment_of text) heads).
(** The identity one ATTACH statement's text declares, empty for none *)
Definition AttachLineageIdentity (text : string) : string :=
  if negb (MayCarryAttachLineage text) then EmptyString
  else match SplitAttachLineage text with Some [segment] => seg_identity segment | _ => EmptyString end.

(** ** `USE SCHEMA <path>` *)

(** A number token duckdb's tokenizer read dots into, split at them *)
Definition number_char (c : ascii) : bool :=
  isdigit c || existsb (Ascii.eqb c) [dot; "_"%char; "e"%char; "E"%char].
Definition dotted_number (t : HeadToken) : bool :=
  negb (is_empty (h_text t)) && contains_char dot (h_text t) && string_forallb number_char (h_text t).
Definition piece_token (kind : HeadKind) (text : string) (offset : nat) : HeadToken :=
  {| h_kind := kind; h_word := EmptyString; h_text := text; h_offset := offset; h_index := 0; h_unterminated := false |}.
Fixpoint split_dots (text current : string) (start offset : nat) : list HeadToken :=
  let piece := if is_empty current then [] else [piece_token NUMBER current start] in
  match text with
  | EmptyString => piece
  | String c text =>
      if Ascii.eqb c dot then piece ++ piece_token OTHER_KIND (str1 dot) offset :: split_dots text EmptyString (S offset) (S offset)
      else split_dots text (current +:+ str1 c) start (S offset)
  end.
Definition use_tokens (head : list HeadToken) : list HeadToken :=
  concat (map (λ t, if dotted_number t then split_dots (h_text t) EmptyString (h_offset t) (h_offset t) else [t]) head).
Definition plain_token (t : HeadToken) : bool :=
  bool_decide (h_kind t = WORD)
  || bool_decide (h_kind t = NUMBER) && string_forallb (λ c, isalnum c || Ascii.eqb c "_") (h_text t).
Definition is_dot (t : HeadToken) : bool := String.eqb (h_text t) (str1 dot).
(** The tokens a digit-led word is read as: written together *)
Fixpoint glued (previous : HeadToken) (ts : list HeadToken) : string * list HeadToken :=
  match ts with
  | t :: rest =>
      if plain_token t && (h_offset t =? h_offset previous + String.length (h_text previous)) then
        let '(more, rest) := glued t rest in (h_text t +:+ more, rest)
      else (EmptyString, ts)
  | [] => (EmptyString, [])
  end.
(** The path's parts joined by dots, and how many; [None]: no path. [fuel]: its tokens *)
Fixpoint use_path (fuel : nat) (ts : list HeadToken) (name : string) (parts : nat) : option (string * nat) :=
  match fuel, ts with
  | S fuel, first :: rest =>
      part ← (if bool_decide (h_kind first = QUOTED_NAME) && starts_with [dquote] (h_text first) then Some (h_text first, rest)
              else if plain_token first then let '(more, rest) := glued first rest in Some (h_text first +:+ more, rest)
              else None);
      let name := (if is_empty name then EmptyString else name +:+ str1 dot) +:+ part.1 in
      match part.2 with
      | next :: rest =>
          if is_dot next then match rest with [] => None | _ => use_path fuel rest name (S parts) end else None
      | [] => Some (name, S parts)
      end
  | _, _ => None
  end.
Definition as_setting (setting name : string) : string :=
  "SET " +:+ setting +:+ " = " +:+ sq +:+ Replace name sq (sq +:+ sq) +:+ sq.
(** [UseSchemaAsSet] *)
Definition UseSchemaAsSet (text : string) : string :=
  let '(heads, open) := ReadStatementHeads text 256 0 in
  match heads with
  | [head] =>
      let tokens := use_tokens head in
      if open || (256 <=? length head) || negb (first_is "use" tokens) then text
      else
        let schema_form := is_at "schema" tokens 1 && negb (match tokens !! 2 with Some t => is_dot t | None => false end) in
        let path := drop (if schema_form then 2 else 1) tokens in
        match use_path (length path) path EmptyString 0 with
        | Some (name, parts) =>
            if is_empty name then text
            else if schema_form then as_setting "acl_use_schema" name
            else if 3 <=? parts then as_setting "schema" name else text
        | None => text
        end
  | _ => text
  end.
End heads.

(** ** The streamed insert a server generates *)
Section streams.
Context `{SU : StringUtil}.

Definition STREAM_SCAN : string := "acl_quack_scan_data".
Definition STREAM_SCAN_LEGACY : string := "scan_data_from_quack_client".
(** Past a closing quote and white space *)
Definition past_name (text : string) : string :=
  trim_left (match text with String c rest => if Ascii.eqb c dquote then rest else text | EmptyString => text end).
Definition calls_here (name text : string) : bool :=
  starts_ci name text && starts_with ["("%char] (past_name (string_drop (String.length name) text)).
(** [CallsFunctionNamed]: the name, then its open parenthesis, anywhere *)
Fixpoint CallsFunctionNamed (name query : string) : bool :=
  calls_here name query || match query with String _ query => CallsFunctionNamed name query | EmptyString => false end.
Definition DrainsQuackClientStream (query : string) : bool :=
  CallsFunctionNamed STREAM_SCAN query || CallsFunctionNamed STREAM_SCAN_LEGACY query.

(** [ReadQuoted]: the value, what follows it *)
Fixpoint read_quoted (quote : ascii) (text : string) : outcome (string * string) :=
  match text with
  | EmptyString => Throw "acl_rewrite: unterminated quoted value"
  | String c rest =>
      if Ascii.eqb c quote then
        match rest with
        | String d rest' =>
            if Ascii.eqb d quote then read ← read_quoted quote rest'; Ok (String quote read.1, read.2) else Ok (EmptyString, rest)
        | EmptyString => Ok (EmptyString, EmptyString)
        end
      else read ← read_quoted quote rest; Ok (String c read.1, read.2)
  end.
(** [ExtractStreamIdFor]: the first argument of the one call there is, empty where it cannot be told *)
Fixpoint stream_id (fuel : nat) (name query found : string) : outcome string :=
  match fuel with
  | O => Ok found
  | S fuel =>
      match find_ci name query with
      | None => Ok found
      | Some at_ =>
          if negb (calls_here name at_) then stream_id fuel name (string_drop 1 at_) found
          else
            match trim_left (string_drop 1 (past_name (string_drop (String.length name) at_))) with
            | String c literal =>
                if negb (Ascii.eqb c squote) then Ok EmptyString
                else
                  read ← read_quoted squote literal;
                  let rest := trim_left read.2 in
                  if negb (starts_with [")"; ","]%char rest) then Ok EmptyString
                  else if negb (is_empty found) then Ok EmptyString
                  else stream_id fuel name rest read.1
            | EmptyString => Ok EmptyString
            end
      end
  end.
Definition ExtractStreamIdFor (name query : string) : outcome string := stream_id (S (String.length query)) name query EmptyString.
Definition ExtractStreamId (query : string) : outcome string :=
  id ← ExtractStreamIdFor STREAM_SCAN query;
  if is_empty id then ExtractStreamIdFor STREAM_SCAN_LEGACY query else Ok id.
End streams.
