(* ===== verification/HeadsLaws.v ===== *)
(** * What a head decides

    Six tokens are enough to say whose a statement is ([management_is_decided_by_its_head]); a streamed insert is known by
    the call wherever it is written ([drains_are_calls]), and a stream named is a stream called
    ([a_stream_is_one_that_is_drained]). *)
From S2P Require Import Prelude FieldPaths Prefix Heads.

(** ** Heads *)
Section heads.
Context `{SU : StringUtil} `{SP : Splitter} (module_keywords : list string).

#[local] Arguments Nat.min : simpl never.

(** A head read with more tokens only goes on *)
Definition longer (m : nat) (short long : open_head) : Prop :=
  seen_tokens short = seen_tokens long ∧ head_so_far short = take m (head_so_far long)
  ∧ last_tokens short = [] ∧ last_tokens long = []
  ∧ length (head_so_far short) = seen_tokens long `min` m.
Lemma add_token_longer m n t short long :
  m ≤ n → longer m short long → length (head_so_far long) = seen_tokens long `min` n →
  longer m (add_token m 0 t short) (add_token n 0 t long)
  ∧ length (head_so_far (add_token n 0 t long)) = seen_tokens (add_token n 0 t long) `min` n.
Proof.
  destruct short as [hs ss ls], long as [hl sl ll]. rewrite /longer /add_token /=.
  intros Hmn (-> & -> & -> & -> & Hlen) Hn. rewrite length_take in Hlen.
  destruct (Nat.ltb_spec sl m) as [?|?], (Nat.ltb_spec sl n) as [?|?]; simpl;
    try lia; rewrite ?length_app /= ?length_take; split_and!; try done; try lia.
  - rewrite !take_ge ?length_app //=; lia.
  - rewrite take_app_le //; lia.
Qed.
Lemma statement_heads_take m n ts short long :
  m ≤ n →
  match short, long with
  | Some short, Some long => longer m short long ∧ length (head_so_far long) = seen_tokens long `min` n
  | None, None => True
  | _, _ => False
  end →
  statement_heads m 0 ts short = map (take m) (statement_heads n 0 ts long).
Proof.
  intros Hmn. revert short long. induction ts as [|t ts IH]; intros short long Hsl; simpl.
  - destruct short, long; try done. simpl. destruct Hsl as [(_ & Hh & Hl & Hl' & _) _].
    by rewrite /closed_head Hl Hl' !app_nil_r Hh.
  - case_bool_decide; [|case_bool_decide; [by apply IH|]].
    + rewrite map_app -(IH None None) //. f_equal. destruct short, long; try done. simpl.
      destruct Hsl as [(_ & Hh & Hl & Hl' & _) _]. by rewrite /closed_head Hl Hl' !app_nil_r Hh.
    + apply IH. destruct short, long; try done; simpl.
      * destruct Hsl. by apply add_token_longer.
      * apply add_token_longer; [done| |done]. by rewrite /longer /= take_nil.
Qed.
Lemma Heads_take text m n : m ≤ n → Heads text m = map (take m) (Heads text n).
Proof.
  intros Hmn. rewrite /Heads /ReadStatementHeads. destruct (SplitTokens text) as [tokens open]. simpl.
  by apply (statement_heads_take m n tokens None None).
Qed.

Lemma word_at_take l n i : i < n → word_at (take n l) i = word_at l i.
Proof. intros Hi. by rewrite /word_at lookup_take_lt. Qed.
Lemma named_at_take l n i : i < n → named_at (take n l) i = named_at l i.
Proof. intros Hi. by rewrite /named_at lookup_take_lt. Qed.
Lemma string_at_take l n i : i < n → string_at (take n l) i = string_at l i.
Proof. intros Hi. by rewrite /string_at lookup_take_lt. Qed.
Lemma IsMgmtHead_take l n : 6 ≤ n → IsMgmtHead module_keywords (take n l) = IsMgmtHead module_keywords l.
Proof.
  intros Hn. rewrite /IsMgmtHead /shared_verb.
  rewrite !word_at_take ?named_at_take ?string_at_take; repeat case_match; first [done|lia].
Qed.

(** C34: six tokens of each statement are enough: however many more of a text's tokens are read, which of its
    statements are management stays what the override decided on the first six ([Prefixed] reads six,
    [ClientTextIsMgmt] thirty-two) *)
Theorem management_is_decided_by_its_head (text : string) (n : nat) :
  6 ≤ n → map (IsMgmtHead module_keywords) (Heads text n) = map (IsMgmtHead module_keywords) (Heads text 6).
Proof.
  intros Hn. rewrite (Heads_take text 6 n Hn) map_map. apply map_ext. intros head. by rewrite IsMgmtHead_take.
Qed.
End heads.

(** ** Streams *)
Section streams.
Context `{SU : StringUtil}.

Lemma starts_ci_true name text :
  starts_ci name text = true ↔ ∃ written rest, text = written +:+ rest ∧ string_map lower_char written = name.
Proof.
  revert text. induction name as [|a name IH]; intros text; simpl.
  - split; [by exists EmptyString, text|done].
  - destruct text as [|b text]; [split; [done|by intros ([] & rest & ? & ?)]|].
    rewrite andb_true_iff IH Ascii.eqb_eq. split.
    + intros (<- & written & rest & -> & <-). by exists (String b written), rest.
    + intros ([|c written] & rest & Ht & Hn); [done|]. injection Ht as -> ->. injection Hn as <- <-. eauto.
Qed.
Lemma trim_left_true text c rest :
  space_char c = false →
  (trim_left text = String c rest ↔ ∃ spaces, text = spaces +:+ String c rest ∧ string_forallb space_char spaces = true).
Proof.
  intros Hc. induction text as [|d text IH]; simpl.
  - split; [done|by intros ([] & ? & ?)].
  - destruct (space_char d) eqn:Hd; [rewrite IH|]; split.
    + intros (spaces & -> & Hs). exists (String d spaces). by rewrite /= Hd Hs.
    + intros ([|e spaces] & Ht & Hs); [injection Ht as -> ->; congruence|].
      injection Ht as -> ->. simpl in Hs. apply andb_true_iff in Hs as [_ Hs]. by exists spaces.
    + intros [= -> ->]. by exists EmptyString.
    + intros ([|e spaces] & Ht & Hs); [by injection Ht as -> ->|].
      injection Ht as -> ->. simpl in Hs. by rewrite Hd in Hs.
Qed.

(** A call as it may be written: the name in any case, a closing quote or none, white space, its parenthesis *)
Definition written_call (name text : string) : Prop :=
  ∃ written quote spaces rest,
    text = written +:+ quote +:+ spaces +:+ String "(" rest
    ∧ string_map lower_char written = name ∧ (quote = EmptyString ∨ quote = dq)
    ∧ string_forallb space_char spaces = true.
Lemma starts_with_one c text : starts_with [c] text = true ↔ ∃ rest, text = String c rest.
Proof.
  destruct text as [|d text]; [split; [done|by intros []]|]. rewrite /starts_with /= orb_false_r Ascii.eqb_eq.
  split; [intros ->; eauto|by intros (? & [= -> _])].
Qed.
Lemma past_name_true text rest :
  past_name text = String "(" rest ↔
  ∃ quote spaces, text = quote +:+ spaces +:+ String "(" rest ∧ (quote = EmptyString ∨ quote = dq)
                  ∧ string_forallb space_char spaces = true.
Proof.
  rewrite /past_name. destruct text as [|c text].
  { split; [done|]. by intros (? & [] & ? & [-> | ->] & ?). }
  destruct (Ascii.eqb_spec c dquote) as [->|Hc]; rewrite trim_left_true //; split.
  - intros (spaces & -> & Hs). exists dq, spaces. by eauto.
  - intros (quote & spaces & Ht & [-> | ->] & Hs); [|exists spaces; by injection Ht].
    destruct spaces as [|d spaces]; [done|]. injection Ht as <- _. by simpl in Hs.
  - intros (spaces & -> & Hs). exists EmptyString, spaces. by eauto.
  - intros (quote & spaces & Ht & [-> | ->] & Hs); [by exists spaces|]. by injection Ht as ->.
Qed.
Lemma calls_here_true name text : calls_here name text = true ↔ written_call name text.
Proof.
  rewrite /calls_here andb_true_iff starts_ci_true starts_with_one. split.
  - intros [(written & after & -> & <-) (rest & Hr)]. rewrite string_map_length -(Nat.add_0_r (String.length written)) in Hr.
    rewrite string_drop_app /= in Hr. apply past_name_true in Hr as (quote & spaces & -> & Hq & Hs).
    by exists written, quote, spaces, rest.
  - intros (written & quote & spaces & rest & -> & <- & Hq & Hs). split; [eauto|].
    exists rest. rewrite string_map_length -(Nat.add_0_r (String.length written)) string_drop_app /=.
    apply past_name_true. eauto.
Qed.
Lemma CallsFunctionNamed_true name query :
  CallsFunctionNamed name query = true ↔ ∃ before after, query = before +:+ after ∧ written_call name after.
Proof.
  induction query as [|c query IH]; cbn [CallsFunctionNamed]; rewrite orb_true_iff calls_here_true ?IH; split.
  - intros [Hw|?]; [|done]. by exists EmptyString, EmptyString.
  - intros ([] & after & Ht & Hw); [|done]. left. by rewrite Ht.
  - intros [Hw|(before & after & -> & Hw)]; [by eexists EmptyString, _|by exists (String c before), after].
  - intros ([|d before] & after & Ht & Hw); [left; by rewrite Ht|]. injection Ht as -> ->. right. eauto.
Qed.

(** an unprefixed statement is taken for a streamed insert whenever it calls the drain - wherever the name stands,
    in whatever case, quoted or not, with any white space before its parenthesis - and for nothing else *)
Theorem drains_are_calls (query : string) :
  DrainsQuackClientStream query = true ↔
  ∃ name before after, (name = STREAM_SCAN ∨ name = STREAM_SCAN_LEGACY) ∧ query = before +:+ after ∧ written_call name after.
Proof.
  rewrite /DrainsQuackClientStream orb_true_iff !CallsFunctionNamed_true. split.
  - intros [(before & after & ? & ?)|(before & after & ? & ?)]; eauto 8.
  - intros (name & before & after & [-> | ->] & ? & ?); eauto 8.
Qed.

Lemma calls_somewhere name before after :
  calls_here name after = true → CallsFunctionNamed name (before +:+ after) = true.
Proof. intros Hc%calls_here_true. apply CallsFunctionNamed_true. eauto. Qed.
Lemma find_ci_suffix name text at_ : find_ci name text = Some at_ → ∃ before, text = before +:+ at_.
Proof.
  induction text as [|c text IH]; cbn [find_ci]; case_match; intros Hf; try done; try (injection Hf as <-; by exists EmptyString).
  apply IH in Hf as (before & ->). by exists (String c before).
Qed.
Lemma stream_id_called fuel name query found id whole before :
  stream_id fuel name query found = Ok id → whole = before +:+ query →
  id = found ∨ id = EmptyString ∨ CallsFunctionNamed name whole = true.
Proof.
  revert query found before. induction fuel as [|fuel IH]; intros query found before; cbn [stream_id]; [intros [= ->]; auto|].
  destruct (find_ci name query) as [at_|] eqn:Hf; [|intros [= ->]; auto].
  apply find_ci_suffix in Hf as (skipped & ->). intros Hid ->.
  destruct (calls_here name at_) eqn:Hc; [right; right; rewrite string_app_assoc; by apply calls_somewhere|].
  simpl in Hid. destruct (string_drop_suffix 1 at_) as (one & Hat).
  eapply (IH _ _ (before +:+ skipped +:+ one)); [exact Hid|]. by rewrite -!string_app_assoc -Hat.
Qed.
Lemma a_stream_is_one_that_is_drained query id :
  ExtractStreamId query = Ok id → id ≠ EmptyString → DrainsQuackClientStream query = true.
Proof.
  intros (first & H1 & H2)%outcome_bind_ok Hid. rewrite /DrainsQuackClientStream orb_true_iff.
  destruct first as [|c first].
  - eapply (stream_id_called _ _ query _ _ query EmptyString) in H2; [|done]. naive_solver.
  - injection H2 as <-. eapply (stream_id_called _ _ query _ _ query EmptyString) in H1; [|done]. naive_solver.
Qed.
End streams.
