(* ===== verification/MgmtBatch.v ===== *)
(** * A management batch, compiled

    What [acl_admin_sql.cpp] makes of the statements the management grammar read: the lists a rule hands over as text
    (claims, columns, claim maps, an issuer's conditions and attributes; [acl_admin_scanner.hpp]), the batch around them,
    the words a statement no rule reads is refused in, the secrets service's calls.  The grammar itself is the interface
    [MgmtGrammar]. *)
From stdpp Require Import pretty.
From S2P Require Import Prelude NamePath FieldPaths Statements Platform Prefix Heads Tree RewriteData.

Definition at_position (whole rest : string) : string :=
  pretty (N.of_nat (String.length whole - String.length rest)).

Section readers.
Context `{SU : StringUtil}.

(** ** The scanner ([AdminScanner])

    A text's rest; [whole] is the text a position in a message counts in. *)
Definition scan_word (what whole rest : string) : outcome (string * string) :=
  let rest := SkipWhitespace rest in
  let word := ReadWord rest in
  if is_empty word then Throw ("acl admin: expected " +:+ what +:+ " at position " +:+ at_position whole rest)
  else Ok (word, string_drop (String.length word) rest).
Definition scan_expect (keyword whole rest : string) : outcome string :=
  read ← scan_word keyword whole rest;
  if CIEquals read.1 keyword then Ok read.2
  else Throw ("acl admin: expected " +:+ keyword +:+ ", got " +:+ quoted read.1).
(** The text past the keyword; [None] leaves it *)
Definition scan_accept (keyword rest : string) : option string :=
  let rest := SkipWhitespace rest in
  let word := ReadWord rest in
  if CIEquals word keyword then Some (string_drop (String.length word) rest) else None.
Definition at_paren (rest : string) : bool := starts_with ["("%char] (SkipWhitespace rest).
Definition at_quote (rest : string) : bool := starts_with [squote; dquote] (SkipWhitespace rest).
Definition scan_quoted (what whole rest : string) : outcome (string * string) :=
  match SkipWhitespace rest with
  | String c inside =>
      if Ascii.eqb c squote || Ascii.eqb c dquote then read_quoted c inside
      else Throw ("acl admin: expected a quoted " +:+ what +:+ " at position " +:+ at_position whole (SkipWhitespace rest))
  | EmptyString =>
      Throw ("acl admin: expected a quoted " +:+ what +:+ " at position " +:+ at_position whole (SkipWhitespace rest))
  end.
(** Past the closing parenthesis of [depth] open ones: what stands before it, and after; [fuel] the text's length *)
Fixpoint paren_body (fuel depth : nat) (rest : string) : outcome (option (string * string)) :=
  match fuel, rest with
  | S fuel, String c after =>
      if Ascii.eqb c squote || Ascii.eqb c dquote then
        read ← read_quoted c after;
        let token := string_take (String.length rest - String.length read.2) rest in
        more ← paren_body fuel depth read.2;
        Ok (option_map (λ m : string * string, (token +:+ m.1, m.2)) more)
      else
        let depth := if Ascii.eqb c "(" then S depth else if Ascii.eqb c ")" then pred depth else depth in
        if depth =? 0 then Ok (Some (EmptyString, after))
        else more ← paren_body fuel depth after; Ok (option_map (λ m : string * string, (String c m.1, m.2)) more)
  | _, _ => Ok None
  end.
(** [Parens]: empty where no parenthesis opens *)
Definition scan_parens (whole rest : string) : outcome (string * string) :=
  let rest := SkipWhitespace rest in
  match rest with
  | String c inside =>
      if Ascii.eqb c "(" then
        body ← paren_body (S (String.length inside)) 1 inside;
        match body with
        | Some (body, after) => Ok (Trim body, after)
        | None => Throw ("acl admin: unbalanced parentheses at position " +:+ at_position whole inside)
        end
      else Ok (EmptyString, rest)
  | EmptyString => Ok (EmptyString, rest)
  end.
(** What follows the first word: [fuel] the text's length *)
Fixpoint more_words (fuel : nat) (what whole rest : string) : outcome (string * string) :=
  match fuel, rest with
  | S fuel, String c after =>
      if Ascii.eqb c dot then
        word ← scan_word what whole after;
        more ← more_words fuel what whole word.2;
        Ok (str1 dot +:+ word.1 +:+ more.1, more.2)
      else Ok (EmptyString, rest)
  | _, _ => Ok (EmptyString, rest)
  end.
Definition scan_dotted (what whole rest : string) : outcome (string * string) :=
  word ← scan_word what whole rest;
  more ← more_words (S (String.length word.2)) what whole word.2;
  Ok (word.1 +:+ more.1, more.2).
Definition scan_done (rest : string) : bool := is_empty (SkipWhitespace rest).

(** ** The lists a rule hands over *)

Definition last_char (s : string) : option ascii := String.get (String.length s - 1) s.
(** [Unquoted] *)
Definition Unquoted (value : string) : string :=
  let value := Trim value in
  match value with
  | String c _ =>
      if (2 <=? String.length value) && (Ascii.eqb c squote || Ascii.eqb c dquote) && bool_decide (last_char value = Some c)
      then Replace (string_take (String.length value - 2) (string_drop 1 value)) (str1 c +:+ str1 c) (str1 c)
      else value
  | EmptyString => value
  end.
Definition items_of (text : string) : list string := List.filter (λ item, negb (is_empty item)) (SplitTopLevel text ",").

(** A claims list, [(name = 'value', …)], as the csv it is stored as *)
Definition claim_entry (item : string) : outcome string :=
  match split_assignment item with
  | None => Throw ("acl admin: a claim is written as name = 'value', got " +:+ quoted item)
  | Some (name, value) => Ok (Trim name +:+ "=" +:+ sq +:+ Replace (Unquoted value) sq (sq +:+ sq) +:+ sq)
  end.
Definition ClaimsListToCsv (text : string) : outcome string := entries ← omapM claim_entry (items_of text); Ok (join "," entries).
(** [ParseClaims]: how the stored form is read *)
Definition claim_value (text : string) : string :=
  let value := Trim text in
  if (2 <=? String.length value) && starts_with [squote] value && bool_decide (last_char value = Some squote)
  then Replace (string_take (String.length value - 2) (string_drop 1 value)) (sq +:+ sq) sq
  else value.
Definition ParseClaims (csv : string) : list (string * string) :=
  fold_left (λ claims item, match split_assignment item with
    | Some (name, value) => ci_set (Trim name) (claim_value value) claims
    | None => claims
    end) (items_of csv) [].

(** A claim map, [(path => claim, …)], as a JSON object: each item split at the first [=>] outside quotes *)
Fixpoint split_arrow (quote : option ascii) (text : string) : option (string * string) :=
  match text with
  | EmptyString => None
  | String c rest =>
      let kept (quote : option ascii) := (λ sides : string * string, (String c sides.1, sides.2)) <$> split_arrow quote rest in
      match rest with
      | EmptyString => None
      | String d after =>
          match quote with
          | Some q => kept (if Ascii.eqb c q then None else Some q)
          | None =>
              if Ascii.eqb c squote || Ascii.eqb c dquote then kept (Some c)
              else if Ascii.eqb c "=" && Ascii.eqb d ">" then Some (EmptyString, after)
              else kept None
          end
      end
  end.
Definition map_entry (item : string) : outcome string :=
  match split_arrow None item with
  | None => Throw ("acl admin: a claim mapping is written as <jwt path> => <claim>, got " +:+ quoted item)
  | Some (path, claim) => Ok (JsonQuote (Unquoted path) +:+ ": " +:+ JsonQuote (Unquoted claim))
  end.
Definition ClaimMapToJson (text : string) : outcome string :=
  entries ← omapM map_entry (items_of text); Ok ("{" +:+ join ", " entries +:+ "}").

(** A column list: a quoted name is the name it quotes *)
Fixpoint split_column (quote : option ascii) (depth : nat) (text : string) : option (string * string) :=
  match text with
  | EmptyString => None
  | String c rest =>
      let kept (quote : option ascii) (depth : nat) :=
        (λ sides : string * string, (String c sides.1, sides.2)) <$> split_column quote depth rest in
      match quote with
      | Some q => kept (if Ascii.eqb c q then None else Some q) depth
      | None =>
          if Ascii.eqb c squote || Ascii.eqb c dquote then kept (Some c) depth
          else if Ascii.eqb c "(" then kept None (S depth)
          else if Ascii.eqb c ")" && (0 <? depth) then kept None (pred depth)
          else if Ascii.eqb c "=" && (depth =? 0) then Some (EmptyString, rest)
          else kept None depth
      end
  end.
(** Up to the quote that closes a name, a doubled one part of it; [None]: it never closes *)
Fixpoint name_closed (text : string) : option (string * string) :=
  match text with
  | EmptyString => None
  | String c rest =>
      if Ascii.eqb c dquote then
        match rest with
        | String d rest' =>
            if Ascii.eqb d dquote then (λ parts : string * string, (String c (String d parts.1), parts.2)) <$> name_closed rest'
            else Some (EmptyString, rest)
        | EmptyString => Some (EmptyString, EmptyString)
        end
      else (λ parts : string * string, (String c parts.1, parts.2)) <$> name_closed rest
  end.
Definition bare_name (name : string) : outcome string :=
  match name with
  | String c inside =>
      if Ascii.eqb c dquote then
        match name_closed inside with
        | None => Ok name
        | Some (written, suffix) =>
            let bare := Replace written (dq +:+ dq) dq in
            if contains_char "," bare || contains_char "=" bare then
              Throw ("acl admin: a column name containing ',' or '=' cannot be carried by a COLUMNS list - the stored form "
                     +:+ "splits on them (got " +:+ quoted bare +:+ ")")
            else Ok (bare +:+ suffix)
        end
      else Ok name
  | EmptyString => Ok name
  end.
Definition column_entry (item : string) : outcome string :=
  let item := Trim item in
  match split_column None 0 item with
  | Some (name, expression) => name ← bare_name (Trim name); Ok (name +:+ " = " +:+ Trim expression)
  | None => bare_name (Trim item)
  end.
Definition UnquoteColumnsList (raw : string) : outcome string :=
  items ← omapM column_entry (items_of raw); Ok (join ", " items).

(** ** An issuer's and a client's lists, as JSON *)
Definition JsonList (values : list string) : string := "[" +:+ join "," (map JsonQuote values) +:+ "]".
Definition ListItemsJson (inside : string) : string :=
  JsonList (List.filter (λ value, negb (is_empty value)) (map (λ item, Trim (Unquoted item)) (SplitTopLevel inside ","))).
Definition ClaimPath (whole rest : string) : outcome (string * string) :=
  if at_quote rest then scan_quoted "claim path" whole rest else scan_dotted "a claim path" whole rest.
Fixpoint read_value (rest : string) : string * string :=
  match rest with
  | String c after =>
      if IsWordChar c || Ascii.eqb c dot || Ascii.eqb c "-" then let '(v, after) := read_value after in (String c v, after)
      else (EmptyString, rest)
  | EmptyString => (EmptyString, EmptyString)
  end.
Definition RequireValue (whole rest : string) : outcome (string * string) :=
  if at_quote rest then scan_quoted "value" whole rest
  else
    let rest := SkipWhitespace rest in
    let '(value, after) := read_value rest in
    if is_empty value then Throw ("acl admin: expected a value at position " +:+ at_position whole rest)
    else
      let folded := Lower value in
      Ok (if String.eqb folded "true" || String.eqb folded "false" then folded else value, after).
Definition json_member (name value : string) : string := dq +:+ name +:+ dq +:+ ":" +:+ value.
Definition condition (path op : string) (values : list string) : string :=
  "{" +:+ json_member "path" (JsonQuote path) +:+ "," +:+ json_member "op" (JsonQuote op) +:+ "," +:+ json_member "values" (JsonList values)
  +:+ "}".
Definition not_a_condition {A} (item : string) : outcome A :=
  Throw ("acl admin: a REQUIRE condition is path = value, path IN ('a', …), 'v' IN path or path LIKE 'p%' - got "
         +:+ quoted item).
(** One condition: its JSON, and what is left *)
Definition require_condition (item : string) : outcome (string * string) :=
  if starts_with [squote] (SkipWhitespace item) then
    value ← scan_quoted "value" item item;
    rest ← scan_expect "in" item value.2;
    path ← ClaimPath item rest;
    Ok (condition path.1 "contains" [value.1], path.2)
  else
    path ← ClaimPath item item;
    match SkipWhitespace path.2 with
    | String "=" after => value ← RequireValue item after; Ok (condition path.1 "eq" [value.1], value.2)
    | rest =>
        match scan_accept "in" rest with
        | Some rest =>
            inside ← scan_parens item rest;
            Ok (condition path.1 "in" (map Unquoted (items_of inside.1)), inside.2)
        | None =>
            match scan_accept "like" rest with
            | Some rest => pattern ← scan_quoted "pattern" item rest; Ok (condition path.1 "like" [pattern.1], pattern.2)
            | None => not_a_condition item
            end
        end
    end.
Definition whole_item {A} (what : string) (item : string) (read : outcome (A * string)) : outcome A :=
  found ← read;
  if scan_done found.2 then Ok found.1 else Throw ("acl admin: unexpected text in the " +:+ what +:+ " " +:+ quoted item).
Definition RequireJson (text : string) : outcome string :=
  conditions ← omapM (λ item, whole_item "REQUIRE condition" item (require_condition item)) (items_of text);
  Ok ("[" +:+ join "," conditions +:+ "]").
Definition attribute (item : string) : outcome (string * string) :=
  name ← scan_word "an attribute name" item item;
  match SkipWhitespace name.2 with
  | String "=" rest =>
      match scan_accept "constant" rest with
      | Some rest =>
          value ← scan_quoted "value" item rest;
          Ok ("{" +:+ json_member "name" (JsonQuote name.1) +:+ "," +:+ json_member "constant" (JsonQuote value.1) +:+ "}", value.2)
      | None =>
          paths ← (if at_paren rest then inside ← scan_parens item rest; Ok (map Unquoted (items_of inside.1), inside.2)
                   else path ← ClaimPath item rest; Ok ([path.1], path.2));
          Ok ("{" +:+ json_member "name" (JsonQuote name.1) +:+ "," +:+ json_member "paths" (JsonList paths.1) +:+ "}", paths.2)
      end
  | _ => Throw ("acl admin: an attribute is written name = 'path' | ('path', …) | CONSTANT 'v' - got " +:+ quoted item)
  end.
Definition AttributesJson (text : string) : outcome string :=
  attributes ← omapM (λ item, whole_item "attribute" item (attribute item)) (items_of text);
  Ok ("[" +:+ join "," attributes +:+ "]").
End readers.

(** ** The batch *)

(** A linked module's statements: the keyword, how they are written, and how those headed by a verb are *)
Record MgmtModule := { m_keyword : string; m_usage : string; m_forms : list (list string * string) }.
Inductive TextKind := CLAIMS | COLUMNS | TEXT | ITEMS | REQUIRE | ATTRIBUTES | CLAIM_MAP.
Record TextArg := { t_arg : nat; t_text : string; t_kind : TextKind; t_splice : string }.
Record MgmtParsed := {
  unread : bool;
  m_text : string;
  m_hint : string;
  m_function : string;
  m_args : list Statements.Value;
  current_session : bool;
  table_call : bool;
  m_secrets : bool;
  texts : list TextArg;
}.
(** What reading a text may come to: its statements, a refusal of the grammar's ([ParserException]), any other exception *)
Inductive reading := Read (statements : list MgmtParsed) | Refused (message : string) | Thrown (message : string).
Class MgmtGrammar := {
  (* [AclGrammarCache::ReadManagement], the rules over duckdb's matcher *)
  ReadManagement : string → reading;
  (* [StringUtil]'s *)
  Upper : string → string;
  (* duckdb's vector, asked for an index past its size *)
  OutOfRange : nat → nat → string;
}.
(** What a statement no rule reads is refused with: a form's own words, or that it is none *)
Inductive refusal := MovedForm (usage : string) | Plain (message : string).

Section batch.
Context `{SU : StringUtil} `{EN : Engine} `{SP : Splitter} `{MG : MgmtGrammar} (reg : registry) (modules : list MgmtModule).

Definition module_usage (word verb : string) : option string :=
  (λ m, fold_left (λ usage form, if existsb (String.eqb (Lower verb)) form.1 then form.2 else usage) (m_forms m) (m_usage m))
    <$> List.find (λ m, CIEquals (m_keyword m) word) modules.
Definition keywords : list string := map m_keyword modules.

(** *** The words of a form *)
Definition is_function (word : nat → string) (at_ : nat) : bool :=
  String.eqb (word at_) "scalar" || String.eqb (word at_) "table" && String.eqb (word (at_ + 1)) "function".
Fixpoint usage_of (rows : list (bool * string)) (otherwise : string) : string :=
  match rows with
  | [] => otherwise
  | (holds, usage) :: rows => if holds then usage else usage_of rows otherwise
  end.
Definition RefuseObjectForm (word : nat → string) (at_ : nat) (add : bool) : string :=
  let says := String.eqb (word at_) in
  let function := is_function word at_ in
  if add then
    usage_of
      [(says "view", "write ADD VIEW <catalog>.<name> [(<columns>)] AS <sql>");
       (says "schema", "write ADD SCHEMA <physical schema> AS <catalog>.<alias>");
       (function, "write ADD SCALAR | TABLE FUNCTION <catalog>.<name>[(<parameters>)] [RETURNS <type> | "
                  +:+ "RETURNS TABLE (<columns>)] MACRO <body> | ALIAS [OF] <function>");
       (says "table", "write ADD TABLE <physical table> AS <catalog>.<name> [COLUMNS (...)] [RLS (...)]")]
      "write ADD VIEW | SCHEMA | SCALAR | TABLE FUNCTION | TABLE ..."
  else
    usage_of
      [(says "catalog", "write CREATE [OR REPLACE] VIRTUAL CATALOG [IF NOT EXISTS] <catalog> [COMMENT '<text>']");
       (says "reference", "write CREATE [OR REPLACE] VIRTUAL REFERENCE [IF NOT EXISTS] <catalog>.<name> FROM <object> TO "
                        +:+ "<object> ON (<pairs>) | ON EXPRESSION '<sql>' - or TO FUNCTION <function>[(<param> => "
                        +:+ "<column>, ...)] [ON ...] - [CARDINALITY <kind>] [OPTIONAL] [JOIN <method>] [COMMENT '<text>']");
       (says "schema", "write CREATE [OR REPLACE] VIRTUAL SCHEMA [IF NOT EXISTS] <catalog>.<path> AS | FROM <physical "
                     +:+ "schema> [COMMENT '<text>']");
       (says "view", "write CREATE [OR REPLACE] VIRTUAL VIEW [IF NOT EXISTS] <catalog>.<name> [(<columns>)] "
                   +:+ "[PRIMARY KEY (<columns>)] [COMMENT '<text>'] AS <sql>");
       (function, "write CREATE [OR REPLACE] VIRTUAL SCALAR | TABLE FUNCTION [IF NOT EXISTS] "
                  +:+ "<catalog>.<name>[(<parameters>)] [RETURNS <type> | RETURNS TABLE (<columns>)] [PRIMARY KEY "
                  +:+ "(<columns>)] [COMMENT '<text>'] AS <body> | ALIAS OF <function> [COMMENT '<text>']");
       (says "table", "write CREATE [OR REPLACE] VIRTUAL TABLE [IF NOT EXISTS] <catalog>.<name> AS <physical table> "
                    +:+ "[COLUMNS (...)] [RLS (...)] [PRIMARY KEY (...)] [COMMENT '<text>']")]
      ("write CREATE [OR REPLACE] VIRTUAL CATALOG | REFERENCE | SCHEMA | VIEW | SCALAR | TABLE FUNCTION | "
       +:+ "TABLE ...").
Definition RefuseObjectChange (word : nat → string) (at_ : nat) (verb : string) : string :=
  let says := String.eqb (word at_) in
  let function := is_function word at_ in
  if String.eqb verb "alter" then
    usage_of
      [(says "reference", "write ALTER VIRTUAL REFERENCE <catalog>.<name> SET COMMENT '<text>' | SET CARDINALITY "
                        +:+ "<kind> | SET OPTIONAL true | false");
       (says "catalog", "write ALTER VIRTUAL CATALOG <catalog> SET COMMENT '<text>'");
       (says "view", "write ALTER VIRTUAL VIEW <catalog>.<name> SET AS <sql> | SET TYPES (...) | SET PRIMARY "
                   +:+ "KEY (...) | DROP PRIMARY KEY");
       (says "schema", "write ALTER VIRTUAL SCHEMA <catalog>.<path> REFRESH [PRUNE] | SET PHYS <physical schema>");
       (function, "write ALTER VIRTUAL SCALAR | TABLE FUNCTION <catalog>.<name> SET MACRO <body> | SET ALIAS "
                  +:+ "[OF] <function> - a table function also SET PRIMARY KEY (...) | DROP PRIMARY KEY");
       (says "table", "write ALTER VIRTUAL TABLE <catalog>.<name> SET PHYS <physical table> | SET COLUMNS (...) | "
                    +:+ "SET RLS (...) | SET TYPES (...) | SET PRIMARY KEY (...) | DROP PRIMARY KEY")]
      "write ALTER VIRTUAL CATALOG | SCHEMA | TABLE | VIEW | SCALAR | TABLE FUNCTION | REFERENCE ..."
  else if String.eqb verb "drop" then
    usage_of
      [(says "catalog", "write DROP VIRTUAL CATALOG [IF EXISTS] <catalog> [CASCADE]");
       (says "schema", "write DROP VIRTUAL SCHEMA [IF EXISTS] <catalog>.<path> [CASCADE]")]
      ("write DROP VIRTUAL TABLE | VIEW | SCALAR | TABLE FUNCTION | REFERENCE [IF EXISTS] " +:+ "<catalog>.<name>")
  else
    usage_of
      [(String.eqb verb "comment",
          "write COMMENT ON VIRTUAL TABLE | VIEW | SCHEMA | SCALAR | TABLE FUNCTION <catalog>.<name> "
          +:+ "[COLUMN <column>] IS '<text>', or COMMENT ON VIRTUAL REFERENCE <catalog>.<name> IS '<text>'");
       (String.eqb verb "check", "write CHECK VIRTUAL CATALOG <catalog>");
       (String.eqb verb "repair", "write REPAIR VIRTUAL TABLE <catalog>.<name> REMAP (<column> = <expression>, ...) | DROP "
                                  +:+ "MISSING COLUMNS [AND MASKS]")]
      ("write ANALYZE VIRTUAL CATALOG <catalog>, or ANALYZE VIRTUAL [TABLE | VIEW | SCALAR | TABLE "
       +:+ "FUNCTION] <catalog>.<name>").
Definition RefuseGrantForm (word : nat → string) (at_ : nat) (verb : string) : string :=
  let says := String.eqb (word at_) in
  if String.eqb verb "grant" then
    usage_of
      [(says "catalog", "write GRANT CATALOG <catalog> TO ROLE <role> [WITH (<capability>, ...) | CAPS "
                      +:+ "'<json>'] [RLS (<predicate>)] [COLUMNS (<list>)] [MAIN]");
       (says "schema", "write GRANT SCHEMA <catalog>.<path> TO ROLE <role> [WITH (<capability>, ...) | CAPS "
                     +:+ "'<json>'] [INTO <physical schema> | VIRTUAL ONLY] [COMMENT '<text>']");
       (says "table" || says "view" || says "object",
          "write GRANT TABLE | VIEW | OBJECT <catalog>.<name> TO ROLE <role> [WITH (<capability>, "
          +:+ "...) | CAPS '<json>'] [RLS (<predicate>)] [COLUMNS (<list>)]")]
      ("write GRANT CATALOG | SCHEMA | TABLE | VIEW | OBJECT | ADMIN | FUNCTION | SOURCE | RESOURCE "
       +:+ "GROUP ... TO ROLE <role>")
  else
    usage_of
      [(says "catalog", "write REVOKE CATALOG <catalog> FROM ROLE <role>");
       (says "schema", "write REVOKE SCHEMA <catalog>.<path> FROM ROLE <role>");
       (says "table" || says "view" || says "object", "write REVOKE TABLE | VIEW | OBJECT <catalog>.<name> FROM ROLE <role>")]
      ("write REVOKE CATALOG | SCHEMA | TABLE | VIEW | OBJECT | ADMIN | FUNCTION | SOURCE | "
       +:+ "RESOURCE GROUP ... FROM ROLE <role>").
Definition RefuseSecretsForm (grant : bool) : string :=
  if grant then "write GRANT SECRET <name> TO ROLE <role> | GROUP <group> [FROM | IN <service>] (a role or a "
                +:+ "group, never one user; the service one name - a dotted one quoted: IN " +:+ quoted "a.b" +:+ ")"
  else "write REVOKE SECRET <name> FROM ROLE <role> | GROUP <group> [FROM | IN <service>] (the "
       +:+ "service one name - a dotted one quoted: IN " +:+ quoted "a.b" +:+ ")".
Definition RefuseNotManagement (verb noun : string) : string :=
  if is_empty noun then "acl admin: unknown management statement " +:+ quoted verb
  else "acl admin: " +:+ Upper verb +:+ " " +:+ Upper noun +:+ " is no management statement".

Definition refuse_create (word : nat → string) : refusal :=
  let at_ := if String.eqb (word 1) "or" then (if String.eqb (word 2) "replace" then 3 else 2) else 1 in
  let noun := word at_ in
  let says := String.eqb noun in
  if says "virtual" then MovedForm (RefuseObjectForm word (at_ + 1) false)
  else if says "role" then MovedForm "write CREATE [OR REPLACE] ROLE [IF NOT EXISTS] <role> [CLAIMS (name = 'value', ...)]"
  else if says "resource" then
    MovedForm ("write CREATE [OR REPLACE] RESOURCE GROUP <group> [WITH] [(<limit> <value>, ...)] [DEFAULT] "
               +:+ "[COMMENT '<text>']")
  else if says "function" then
    if negb (String.eqb (word (at_ + 1)) "category") then Plain (RefuseNotManagement "create" noun)
    else MovedForm "write CREATE [OR REPLACE] FUNCTION CATEGORY <category> [COMMENT '<text>']"
  else if says "client" then
    MovedForm ("write CREATE [OR REPLACE] CLIENT [IF NOT EXISTS] <client> ISSUER <issuer> [FROM SECRET "
               +:+ "<secret> [IN <service>]] [<client clause> ...]")
  else if negb (says "issuer") then Plain (RefuseNotManagement "create" noun)
  else MovedForm ("write CREATE [OR REPLACE] ISSUER [IF NOT EXISTS] <issuer> | '<url>' [URL '<url>'] [FROM "
                  +:+ "SECRET <secret> [IN <service>]] [CLIENT FROM SECRET <secret> [IN <service>]] [<client clause> "
                  +:+ "...]").
Definition refuse_grant (word : nat → string) : refusal :=
  let says := String.eqb (word 1) in
  MovedForm (usage_of
    [(says "secret", RefuseSecretsForm true);
     (says "source", "write GRANT SOURCE <database>[.<schema>] TO ROLE <role>");
     (says "resource", "write GRANT RESOURCE GROUP <group> TO ROLE <role>");
     (says "admin", "write GRANT ADMIN <scope> TO ROLE <role>");
     (says "function", "write GRANT FUNCTION [CATEGORY] <name> [TABLE | SCALAR] TO ROLE <role> | ALL ROLES")]
    (RefuseGrantForm word 1 "grant")).
Definition refuse_revoke (word : nat → string) : refusal :=
  let says := String.eqb (word 1) in
  MovedForm (usage_of
    [(says "secret", RefuseSecretsForm false);
     (says "source", "write REVOKE SOURCE <database>[.<schema>] FROM ROLE <role>");
     (says "admin", "write REVOKE ADMIN [<scope>] FROM ROLE <role>");
     (says "resource", "write REVOKE RESOURCE GROUP <group> FROM ROLE <role>");
     (says "function", "write REVOKE FUNCTION [CATEGORY] <name> [TABLE | SCALAR] FROM ROLE <role> | ALL ROLES")]
    (RefuseGrantForm word 1 "revoke")).
Definition refuse_alter (word : nat → string) : refusal :=
  let noun := word 1 in
  let says := String.eqb noun in
  if says "function" && negb (String.eqb (word 2) "category") then Plain (RefuseNotManagement "alter" noun)
  else if existsb says ["function"; "resource"; "role"; "issuer"; "client"; "grant"] then
    MovedForm (usage_of
      [(says "function", "write ALTER FUNCTION CATEGORY <category> ADD | DROP (<function> [TABLE | SCALAR], ...) | SET COMMENT "
                       +:+ "'<text>'");
       (says "resource", "write ALTER RESOURCE GROUP <group> SET (<limit> <value>, ...) | SET COMMENT '<text>' | SET "
                       +:+ "DEFAULT | DROP DEFAULT");
       (says "role", "write ALTER ROLE <role> SET COMMENT '<text>' | SET CLAIMS (name = 'value', ...)");
       (says "issuer", "write ALTER ISSUER <issuer> SET URL '<url>' | [CLIENT] FROM SECRET <secret> [IN <service>] | "
                     +:+ "<client clause> ... | DROP [CLIENT] FROM SECRET");
       (says "client", "write ALTER CLIENT <client> SET FROM SECRET <secret> [IN <service>] | <client clause> "
                     +:+ "... | DROP FROM SECRET")]
      ("write ALTER GRANT CATALOG <catalog> TO ROLE <role> SET CAPS '<json>' | SET RLS "
       +:+ "'<predicate>' | SET COLUMNS '<list>' | SET MAIN true | false"))
  else if negb (says "virtual") then Plain (RefuseNotManagement "alter" noun)
  else MovedForm (RefuseObjectChange word 2 "alter").
Definition refuse_drop (word : nat → string) : refusal :=
  let noun := word 1 in
  let says := String.eqb noun in
  if says "function" && negb (String.eqb (word 2) "category") then Plain (RefuseNotManagement "drop" noun)
  else if existsb says ["relation"; "resource"; "function"; "reference"; "role"; "issuer"; "client"] then
    MovedForm (usage_of
      [(says "relation", "write DROP RELATION [IF EXISTS] <catalog>.<name>");
       (says "resource", "write DROP RESOURCE GROUP [IF EXISTS] <group>");
       (says "function", "write DROP FUNCTION CATEGORY [IF EXISTS] <category>");
       (says "reference", "write DROP [VIRTUAL] REFERENCE [IF EXISTS] <catalog>.<name>");
       (says "role", "write DROP ROLE [IF EXISTS] <role>")]
      "write DROP ISSUER | CLIENT [IF EXISTS] <name>")
  else if says "map" then MovedForm "write DROP MAP GROUP | CLAIM '<value>' FROM CLIENT | ISSUER <name> TO ROLE <role>"
  else if negb (says "virtual") then Plain (RefuseNotManagement "drop" noun)
  else MovedForm (RefuseObjectChange word 2 "drop").
(** [RefuseUnreadStatement] *)
Definition RefuseUnreadStatement (text : string) : refusal :=
  let word := word_at (match Heads text 6 with tokens :: _ => tokens | [] => [] end) in
  let keyword := word 0 in
  let says := CIEquals keyword in
  match module_usage keyword (word 1) with
  | Some usage => MovedForm usage
  | None =>
      if says "profile" then MovedForm "write PROFILE SESSION CURRENT | '<id>' ON | ALL | SAMPLED | OFF"
      else if says "kill" then MovedForm "write KILL SESSION '<id>'"
      else if says "set" then
        MovedForm ("write SET SESSION '<id>' AUDIT LEVEL OFF | DENIED | DECISIONS | ALL | DEFAULT, or SET SESSION "
                   +:+ "VIEW AS ROLE <role>")
      else if says "reset" then MovedForm "write RESET SESSION VIEW AS"
      else if says "drain" || says "resume" then MovedForm "write DRAIN NODE / RESUME NODE"
      else if says "migrate" then
        MovedForm ("write MIGRATE POLICY CATALOG <database>[.<schema>] - a name that is an SQL keyword in double "
                   +:+ "quotes")
      else if says "deny" then
        MovedForm ("write DENY FUNCTION [CATEGORY] <name> [TABLE | SCALAR] TO ROLE <role> | ALL ROLES, or DENY "
                   +:+ "VIEW platform.<view> TO ROLE <role>")
      else if says "create" then refuse_create word
      else if says "add" then MovedForm (RefuseObjectForm word 1 true)
      else if says "grant" then refuse_grant word
      else if says "revoke" then refuse_revoke word
      else if says "map" then MovedForm "write MAP GROUP | CLAIM '<value>' FROM CLIENT | ISSUER <name> TO ROLE <role>"
      else if says "alter" then refuse_alter word
      else if says "comment" || says "check" || says "repair" || says "analyze" then
        let at_ := if String.eqb (word 1) "on" then 2 else 1 in
        let at_ := if String.eqb (word at_) "virtual" then S at_ else at_ in
        MovedForm (RefuseObjectChange word at_ (Lower keyword))
      else if says "drop" then refuse_drop word
      else Plain ("acl admin: unknown management statement " +:+ quoted keyword)
  end.

(** *** Statement by statement *)

(** [SplitMgmtStatements]: the texts of a batch's statements as the tokenizer ends them *)
Definition token_end (t : MatcherToken) : nat := tk_offset t + tk_length t.
Fixpoint split_statements (text : string) (ts : list MatcherToken) (start : option nat) (upto : nat) : list string :=
  let flushed := match start with Some start => [text_between text start upto] | None => [] end in
  match ts with
  | [] => flushed
  | t :: ts =>
      if bool_decide (tk_type t = STATEMENT_END) then flushed ++ split_statements text ts None 0
      else if bool_decide (tk_type t = INPUT_END) then split_statements text ts start upto
      else split_statements text ts (Some (match start with Some start => start `min` tk_offset t | None => tk_offset t end))
             (upto `max` token_end t)
  end.
Definition SplitManagement (text : string) : outcome (list string) :=
  let '(tokens, open) := SplitTokens text in
  let open := if is_empty open && existsb tk_unterminated tokens then "unterminated quoted string" else open in
  if negb (is_empty open) then
    Throw ("acl admin: " +:+ open +:+ " - the batch ends inside it, and what that hides is never run without it")
  else Ok (split_statements text tokens None 0).

(** A statement, and what the tokenizer refused it with *)
Definition piece : Type := MgmtParsed * option string.
Definition refused_piece (text message : string) : piece :=
  ({| unread := true; m_text := text; m_hint := EmptyString; m_function := EmptyString; m_args := [];
      current_session := false; table_call := false; m_secrets := false; texts := [] |}, Some message).
Definition read_piece (text : string) : outcome (list piece) :=
  match ReadManagement text with
  | Read statements => Ok (map (λ p, (p, None)) statements)
  | Refused message => Ok [refused_piece text message]
  | Thrown message => Throw message
  end.
Definition read_pieces (text : string) : outcome (list piece) :=
  match ReadManagement text with
  | Read statements => Ok (map (λ p, (p, None)) statements)
  | Thrown message => Throw message
  | Refused message =>
      pieces ← SplitManagement text;
      pieces ← omapM read_piece pieces;
      let pieces := concat pieces in
      if existsb (λ p : piece, bool_decide (is_Some p.2)) pieces then Ok pieces else Throw message
  end.

Definition marker : ascii := "001".
Definition read_text (kind : TextKind) (text : string) : outcome string :=
  match kind with
  | CLAIMS => ClaimsListToCsv text
  | COLUMNS => UnquoteColumnsList text
  | TEXT => Ok text
  | ITEMS => Ok (ListItemsJson text)
  | REQUIRE => RequireJson text
  | ATTRIBUTES => AttributesJson text
  | CLAIM_MAP => json ← ClaimMapToJson text; Ok (JsonQuote json)
  end.
(** [vector::operator[]] checks its bounds *)
Definition no_argument {A} (args : list Statements.Value) (index : nat) : outcome A := Throw (OutOfRange index (length args)).
Definition place_text (args : list Statements.Value) (t : TextArg) : outcome (list Statements.Value) :=
  read ← read_text (t_kind t) (t_text t);
  match args !! t_arg t with
  | None => no_argument args (t_arg t)
  | Some arg => Ok (<[t_arg t := Text (if is_empty (t_splice t) then read else Replace (Statements.value_text arg) (t_splice t) read)]> args)
  end.
Fixpoint place_texts (ts : list TextArg) (args : list Statements.Value) : outcome (list Statements.Value) :=
  match ts with
  | [] => Ok args
  | t :: ts => args ← place_text args t; place_texts ts args
  end.
Definition marker_gone (args : list Statements.Value) (t : TextArg) : outcome () :=
  if is_empty (t_splice t) then Ok ()
  else match args !! t_arg t with
       | None => no_argument args (t_arg t)
       | Some arg => if contains_char marker (Statements.value_text arg) then Throw "acl admin: a list's marker is left in a spec" else Ok ()
       end.
Definition session_args (current : string) (args : list Statements.Value) : outcome (list Statements.Value) :=
  if is_empty current then
    Throw ("acl admin: PROFILE SESSION CURRENT needs a session - the statement runs under no " +:+ "ACL SESSION prefix")
  else match args with _ :: args => Ok (Text current :: args) | [] => no_argument args 0 end.
(** The arguments a rule's statement is called with *)
Definition read_args (current : string) (entry : MgmtParsed) : outcome (list Statements.Value) :=
  args ← place_texts (texts entry) (m_args entry);
  _ ← omapM (marker_gone args) (texts entry);
  if current_session entry then session_args current args else Ok args.
Definition refuse_piece {A} (p : piece) : outcome A :=
  match RefuseUnreadStatement (m_text p.1) with
  | Plain message => Throw message
  | MovedForm usage =>
      match p.2 with
      | Some message => Throw message
      | None => Throw ("acl admin: " +:+ usage +:+ m_hint p.1)
      end
  end.
Definition compile_piece (current : string) (p : piece) : outcome Statements.SQLStatement :=
  let entry := p.1 in
  if m_secrets entry || unread entry && IsSecretsStart (Heads (m_text entry) 2) then
    Throw ("acl admin: GRANT / REVOKE SECRET goes in a batch of its own - its right is the "
           +:+ "secrets capability, not an administration scope")
  else if unread entry then refuse_piece p
  else
    args ← read_args current entry;
    Ok (if table_call entry then MakeAdminTableCall (m_function entry) args else MakeAdminCall reg (m_function entry) args).
Definition empty_batch {A} : outcome A := Throw "acl admin: empty management batch".
(** [ParseMgmtBatch] *)
Definition ParseMgmtBatch (text current : string) : outcome (list Statements.SQLStatement) :=
  let heads := Heads text 6 in
  _ ← RefuseRepeatedPrefix heads;
  if negb (BatchIsAllMgmt keywords heads) && BatchHasMgmtStatement keywords heads then
    Throw ("acl admin: a batch mixing management statements and queries is refused - send each "
           +:+ "kind in a batch of its own")
  else
    pieces ← read_pieces text;
    statements ← omapM (compile_piece current) pieces;
    match statements with [] => empty_batch | _ => Ok statements end.

(** ** The secrets service's batch *)
Record SecretsStatement := { s_grant : bool; s_name : string; s_principal : string; s_named : string }.
Definition secrets_statement (entry : MgmtParsed) : outcome SecretsStatement :=
  if unread entry && IsSecretsStart (Heads (m_text entry) 2) then
    Throw ("acl admin: " +:+ RefuseSecretsForm (match Heads (m_text entry) 1 with tokens :: _ => first_is "grant" tokens | [] => false end))
  else if negb (m_secrets entry) then
    Throw "acl admin: a GRANT / REVOKE SECRET batch holds GRANT / REVOKE SECRET statements only"
  else
    match m_args entry with
    | name :: principal :: named :: _ =>
        Ok {| s_grant := String.eqb (m_function entry) "grant_secret"; s_name := Statements.value_text name;
              s_principal := Statements.value_text principal; s_named := Statements.value_text named |}
    | short => no_argument short (length short)
    end.
(** [CompileSecretsStatement], once its service is known *)
Definition secrets_call (service : string) (s : SecretsStatement) : Statements.SQLStatement :=
  let call := if s_grant s then "grant_secret" else "revoke_secret" in
  select_from_call {| path := [service; "main"; call];
                      arguments := constant_arguments ([Text (s_name s); Text (s_principal s)]
                                                       ++ if s_grant s then [ListOf [Some "use"]] else []);
                      Distinct := false; Filter := false; OrderBy := false; alias := EmptyString |}.
Fixpoint compile_secrets (service : string → answer string) (l : list SecretsStatement) : answer (list Statements.SQLStatement) :=
  match l with
  | [] => Answered []
  | s :: l =>
      match service (s_named s) with
      | Failed reason binder message => Failed reason binder message
      | Answered found =>
          match compile_secrets service l with
          | Answered calls => Answered (secrets_call found s :: calls)
          | Failed reason binder message => Failed reason binder message
          end
      end
  end.
Definition read_secrets (text : string) : outcome (list SecretsStatement) :=
  match ReadManagement text with
  | Read statements => omapM secrets_statement statements
  | Refused message | Thrown message => Throw message
  end.
(** [ParseSecretsBatch] *)
Definition ParseSecretsBatch (service : string → answer string) (text : string) : answer (list Statements.SQLStatement) :=
  match read_secrets text with
  | Throw message => Failed None true message
  | Ok l =>
      match compile_secrets service l with
      | Answered [] => Failed None true "acl admin: empty management batch"
      | answered => answered
      end
  end.
End batch.
