(* ===== verification/MgmtLists.v ===== *)
(** * The lists of management statements read back as they were written

    A claims list, a claim map and a column list in SQL's form, compiled to the text they are stored as and read from it again
    ([claims_list_reads_back], [claim_map_reads_back], [column_names_are_kept]), but for the quotes and parentheses a quoted
    column name may hold and the code does not refuse ([quoted_name_swallows_the_next]). *)
From S2P Require Import Prelude NamePath FieldPaths Statements Platform Prefix Heads Tree RewriteData MgmtBatch.

(** ** Lists as they are written *)

(** Inside which quote, how many parentheses deep *)
Definition place : Type := option ascii * nat.
Definition quoting_char (c : ascii) : bool := Ascii.eqb c squote || Ascii.eqb c dquote.
Definition step_place (p : place) (c : ascii) : place :=
  match p.1 with
  | Some q => (if Ascii.eqb c q then None else Some q, p.2)
  | None =>
      if quoting_char c then (Some c, p.2)
      else if Ascii.eqb c "(" then (None, S p.2)
      else if Ascii.eqb c ")" then (None, pred p.2)
      else p
  end.
(** Where a text ends that is read from [p]; [None]: a comma of the list itself on the way *)
Fixpoint reach (p : place) (text : string) : option place :=
  match text with
  | EmptyString => Some p
  | String c rest => if Ascii.eqb c "," && bool_decide (p = (None, 0)) then None else reach (step_place p c) rest
  end.
(** A list item: quotes and parentheses closed, commas only inside them *)
Definition closed_text (text : string) : bool := bool_decide (reach (None, 0) text = Some (None, 0)).

(** A text in quotes, its own doubled *)
Definition doubled (q : ascii) (text : string) : string := replace_char q (str1 q +:+ str1 q) text.
Definition in_quotes (q : ascii) (text : string) : string := str1 q +:+ doubled q text +:+ str1 q.

Definition plain_char (c : ascii) : bool :=
  negb (quoting_char c || Ascii.eqb c "(" || Ascii.eqb c ")" || Ascii.eqb c "," || Ascii.eqb c "=").
(** What JSON makes of the strings and the objects of strings written here: a reader of its strings (the escapes of a
    quote, of a backslash and of a control character, nothing raw below a space) and of their pairs. *)
Definition hex_value (c : ascii) : option nat :=
  let n := nat_of_ascii c in
  if (48 <=? n) && (n <=? 57) then Some (n - 48) else if (97 <=? n) && (n <=? 102) then Some (n - 87) else None.
Fixpoint json_string (text : string) : option (string * string) :=
  match text with
  | EmptyString => None
  | String c rest =>
      if Ascii.eqb c dquote then Some (EmptyString, rest)
      else if Ascii.eqb c "\" then
        match rest with
        | String "u" (String "0" (String "0" (String a (String b more)))) =>
            x ← hex_value a; y ← hex_value b; r ← json_string more; Some (String (ascii_of_nat (16 * x + y)) r.1, r.2)
        | String e more =>
            if Ascii.eqb e dquote || Ascii.eqb e "\" then r ← json_string more; Some (String e r.1, r.2) else None
        | EmptyString => None
        end
      else if nat_of_ascii c <? 32 then None
      else r ← json_string rest; Some (String c r.1, r.2)
  end.
Definition json_quoted_string (text : string) : option (string * string) :=
  match trim_left text with String c rest => if Ascii.eqb c dquote then json_string rest else None | EmptyString => None end.
(** [fuel]: the text's length *)
Fixpoint json_pairs (fuel : nat) (text : string) : option (list (string * string)) :=
  match fuel with
  | O => None
  | S fuel =>
      key ← json_quoted_string text;
      match trim_left key.2 with
      | String ":" rest =>
          value ← json_quoted_string rest;
          match trim_left value.2 with
          | String "," more => pairs ← json_pairs fuel more; Some ((key.1, value.1) :: pairs)
          | String "}" EmptyString => Some [(key.1, value.1)]
          | _ => None
          end
      | _ => None
      end
  end.
Definition json_object (text : string) : option (list (string * string)) :=
  match text with
  | String "{" (String "}" EmptyString) => Some []
  | String "{" rest => json_pairs (String.length rest) rest
  | _ => None
  end.

Definition written_claim (q : ascii) (claim : string * string) : string := claim.1 +:+ " = " +:+ in_quotes q claim.2.
Definition stored_claim (claim : string * string) : string := claim.1 +:+ "=" +:+ in_quotes squote claim.2.
Definition pair_text (pair : string * string) : string := JsonQuote pair.1 +:+ ": " +:+ JsonQuote pair.2.
Definition written_mapping (q : ascii) (mapping : string * string) : string :=
  in_quotes q mapping.1 +:+ " => " +:+ in_quotes q mapping.2.

Section written.
Context `{SU : StringUtil}.
(** A written item: it stays one, and nothing is trimmed off it *)
Definition whole_text (text : string) : Prop := text ≠ EmptyString ∧ Trim text = text ∧ closed_text text = true.
(** A name without the list's own characters, and no white space at its ends *)
Definition plain_name (name : string) : Prop := name ≠ EmptyString ∧ Trim name = name ∧ string_forallb plain_char name = true.
End written.

(** ** What the splitter makes of them *)

Lemma reach_app a b p : reach p (a +:+ b) = reach p a ≫= λ p, reach p b.
Proof. revert p. induction a as [|c a IH]; intros p; [done|]. rw string_app_cons /= . by destruct (_ && _); [|rw IH]. Qed.

Lemma split_quote_closes d q depth current rest :
  quoting_char q = true → Ascii.eqb q d = false →
  split_top d (Some q) depth current (String q rest) = split_top d None depth (current +:+ str1 q) rest.
Proof.
  intros Hq Hd. simpl. rw Ascii.eqb_refl. destruct rest as [|c rest]; [done|].
  destruct (Ascii.eqb_spec c q) as [->|]; [|done]. simpl. by rw /quoting_char in Hq; rw Hq.
Qed.
Lemma split_reach text p p' current rest :
  reach p text = Some p' → match p.1 with Some q => quoting_char q = true | None => True end →
  split_top "," p.1 p.2 current (text +:+ rest) = split_top "," p'.1 p'.2 (current +:+ text) rest.
Proof.
  revert p current. induction text as [|c text IH]; intros [quote depth] current.
  { simpl. intros [= <-] _. by rw string_app_nil_r. }
  rw string_app_cons. cbn [reach fst snd]. destruct (Ascii.eqb c "," && _) eqn:Hc; [done|]. intros Hr Hq.
  replace (current +:+ String c text) with ((current +:+ str1 c) +:+ text) by by rw -string_app_assoc.
  destruct quote as [q|]; simpl in Hr.
  - destruct (Ascii.eqb_spec c q) as [->|Hne].
    + assert (Ascii.eqb q "," = false) by (by destruct (Ascii.eqb_spec q ","); subst).
      rw split_quote_closes //. apply (IH (None, depth)); [|done]. by rw /step_place /= Ascii.eqb_refl in Hr.
    + assert (Hs : step_place (Some q, depth) c = (Some q, depth)) by (rw /step_place /=; by destruct (Ascii.eqb_spec c q)).
      rw Hs in Hr. rw -(IH (Some q, depth) _ Hr Hq) /=. by destruct (Ascii.eqb_spec c q).
  - simpl. rw /step_place /= /quoting_char in Hr.
    destruct (Ascii.eqb c squote || Ascii.eqb c dquote) eqn:Hqc; [by apply (IH _ _ Hr)|].
    destruct (Ascii.eqb c "(") eqn:Ho; [by apply (IH _ _ Hr)|].
    destruct (Ascii.eqb c ")") eqn:Hp.
    + destruct depth; simpl; [|by apply (IH _ _ Hr)].
      apply Ascii.eqb_eq in Hp as ->. by apply (IH _ _ Hr).
    + simpl. destruct (Ascii.eqb c ",") eqn:Hcomma; [|by apply (IH _ _ Hr)].
      destruct depth; [by rw bool_decide_eq_true_2 in Hc|]. by apply (IH _ _ Hr).
Qed.
Lemma split_closed text current rest :
  closed_text text = true → split_top "," None 0 current (text +:+ rest) = split_top "," None 0 (current +:+ text) rest.
Proof. intros H%bool_decide_eq_true. by apply (split_reach _ (None, 0) (None, 0)). Qed.
Lemma split_joined gap items item current :
  Forall (λ i, closed_text i = true) (item :: items) → closed_text gap = true →
  split_top "," None 0 current (join ("," +:+ gap) (item :: items)) = (current +:+ item) :: map (λ i, gap +:+ i) items.
Proof.
  intros [Hi Hitems]%Forall_cons Hg. revert item Hi current. induction items as [|next items IH]; intros item Hi current.
  - simpl. rw -{1}(string_app_nil_r item) split_closed //.
  - apply Forall_cons in Hitems as [Hn Hitems]. specialize (IH Hitems next Hn).
    change (join ("," +:+ gap) (item :: next :: items)) with (item +:+ ("," +:+ gap) +:+ join ("," +:+ gap) (next :: items)).
    set (more := join _ (next :: items)) in IH |- *. rw (split_closed item) // -string_app_assoc. simpl. f_equal.
    by rw (split_closed gap) // IH.
Qed.

Section texts.
Context `{SUL : StringUtilLaws}.

(** Texts without white space at their ends *)
Lemma trim_left_skip spaces text : string_forallb space_char spaces = true → trim_left (spaces +:+ text) = trim_left text.
Proof. induction spaces as [|c spaces IH]; [done|]. simpl. intros [-> Hs]%andb_true_iff. by apply IH. Qed.
Lemma trim_right_skip text spaces : string_forallb space_char spaces = true → trim_right (text +:+ spaces) = trim_right text.
Proof.
  intros Hs. induction text as [|c text IH]; [|by rw string_app_cons /= IH]. rw string_app_nil_l /=.
  induction spaces as [|c spaces IH]; [done|]. simpl in *. apply andb_true_iff in Hs as [-> Hs]. by rw IH.
Qed.
Lemma trim_left_length s : String.length (trim_left s) ≤ String.length s.
Proof. induction s as [|c s IH]; simpl; [done|]. destruct (space_char c); simpl; lia. Qed.
Lemma trim_right_length s : String.length (trim_right s) ≤ String.length s.
Proof. induction s as [|c s IH]; simpl; [done|]. destruct (space_char c && _); simpl; lia. Qed.
Lemma trim_left_same s : Trim s = s → trim_left s = s.
Proof.
  rw Trim_law. intros Hs. destruct s as [|c s]; [done|]. simpl in *. destruct (space_char c); [|done]. exfalso.
  apply (f_equal String.length) in Hs. simpl in Hs. pose proof (trim_right_length (trim_left s)).
  pose proof (trim_left_length s). lia.
Qed.
Lemma Trim_skip spaces text after :
  string_forallb space_char spaces = true → string_forallb space_char after = true → Trim (spaces +:+ text +:+ after) = Trim text.
Proof.
  intros Hs Ha. rw !Trim_law trim_left_skip //. induction text as [|c text IH].
  - rw string_app_nil_l -{1}(string_app_nil_r after). by rw trim_left_skip.
  - rw string_app_cons /=. destruct (space_char c); [done|]. by rw -string_app_cons trim_right_skip.
Qed.
Lemma Trim_gap spaces text : string_forallb space_char spaces = true → Trim (spaces +:+ text) = Trim text.
Proof. intros Hs. by rw -(Trim_skip spaces text EmptyString) // string_app_nil_r. Qed.
Lemma Trim_around a between b : Trim a = a → Trim b = b → a ≠ EmptyString → b ≠ EmptyString → Trim (a +:+ between +:+ b) = a +:+ between +:+ b.
Proof.
  intros Ha Hb Hna Hnb. rw Trim_law. pose proof (trim_left_same _ Ha) as Hl. destruct a as [|c a]; [done|].
  rw string_app_cons /=. simpl in Hl. destruct (space_char c).
  { exfalso. pose proof (trim_left_length a) as Hlen. rw Hl /= in Hlen. lia. }
  rw -string_app_cons !string_app_assoc trim_right_last //. rw -{2}Hb Trim_law. by rw (trim_left_same _ Hb).
Qed.
Lemma Trim_in_quotes q text : quoting_char q = true → Trim (in_quotes q text) = in_quotes q text.
Proof.
  intros Hq. assert (Hone : Trim (str1 q) = str1 q).
  { rw Trim_law. apply orb_true_iff in Hq as [Hq|Hq]; apply Ascii.eqb_eq in Hq; by subst. }
  by apply Trim_around.
Qed.
End texts.

Lemma plain_no d text : plain_char d = false → string_forallb plain_char text = true → contains_char d text = false.
Proof.
  intros Hd. induction text as [|e text IH]; [done|]. simpl. intros [He Ht]%andb_true_iff.
  rw (IH Ht) orb_false_r. destruct (Ascii.eqb_spec d e); [congruence|done].
Qed.
Lemma reach_plain depth text : string_forallb plain_char text = true → reach (None, depth) text = Some (None, depth).
Proof.
  induction text as [|c text IH]; [done|]. simpl. intros [Hc Ht]%andb_true_iff. rw /plain_char in Hc.
  apply negb_true_iff in Hc. do 4 (apply orb_false_iff in Hc as [Hc ?]).
  replace (Ascii.eqb c ",") with false. rw /step_place /= Hc. replace (Ascii.eqb c "(") with false. replace (Ascii.eqb c ")") with false.
  by apply IH.
Qed.
Lemma reach_doubled q depth text : quoting_char q = true → reach (Some q, depth) (doubled q text) = Some (Some q, depth).
Proof.
  intros Hq. assert (Ascii.eqb q "," = false) as Hcomma by (by destruct (Ascii.eqb_spec q ","); subst).
  induction text as [|c text IH]; [done|]. rw /doubled /=. destruct (Ascii.eqb_spec q c) as [<-|Hne].
  - rw /= Hcomma /= /step_place /= Ascii.eqb_refl /= Hq. apply IH.
  - simpl. rw andb_false_r /step_place /=. destruct (Ascii.eqb_spec c q); [congruence|apply IH].
Qed.
Lemma reach_in_quotes q depth text : quoting_char q = true → reach (None, depth) (in_quotes q text) = Some (None, depth).
Proof.
  intros Hq. assert (Ascii.eqb q "," = false) as Hcomma by (by destruct (Ascii.eqb_spec q ","); subst).
  rw /in_quotes str1_app /= Hcomma /step_place /= Hq reach_app reach_doubled //= Hcomma /step_place /= Ascii.eqb_refl //.
Qed.
Lemma undoubled q text : replace_pair q q (str1 q) (doubled q text) = text.
Proof.
  induction text as [|c text IH]; [done|]. rw /doubled /= -/(doubled q text). destruct (Ascii.eqb_spec q c) as [<-|Hne].
  - by rw /= Ascii.eqb_refl /= IH.
  - destruct (doubled q text) as [|d more] eqn:Hd; simpl in *; [by rw -IH|].
    destruct (Ascii.eqb_spec q c); [congruence|]. simpl. by rw -IH.
Qed.
Lemma last_char_snoc text c : last_char (text +:+ str1 c) = Some c.
Proof.
  rw /last_char string_length_app /=. replace (String.length text + 1 - 1) with (String.length text) by lia.
  induction text as [|d text IH]; [done|]. apply IH.
Qed.
Lemma between_quotes q text : string_take (String.length (in_quotes q text) - 2) (string_drop 1 (in_quotes q text)) = doubled q text.
Proof.
  rw /in_quotes !string_length_app /=.
  replace (String.length (doubled q text) + 1 - 1) with (String.length (doubled q text)) by lia. apply (string_take_all (doubled q text)).
Qed.
Lemma in_quotes_ends q text : (2 <=? String.length (in_quotes q text)) = true ∧ last_char (in_quotes q text) = Some q.
Proof.
  split; [apply Nat.leb_le; rw /in_quotes !string_length_app /=; lia|]. by rw /in_quotes string_app_assoc last_char_snoc.
Qed.

Section readers.
Context `{SUL : StringUtilLaws}.

Lemma doubled_text q text : doubled q text = Replace text (str1 q) (str1 q +:+ str1 q).
Proof. by rw Replace_law. Qed.
Lemma Unquoted_in_quotes q text : quoting_char q = true → Unquoted (in_quotes q text) = text.
Proof.
  intros Hq. rw /Unquoted Trim_in_quotes //. destruct (in_quotes_ends q text) as [Hlen Hlast].
  change (in_quotes q text) with (String q (doubled q text +:+ str1 q)) in Hlen, Hlast |- *. rw Hlen Hlast.
  rw /quoting_char in Hq. rw Hq bool_decide_eq_true_2 //.
  change (String q (doubled q text +:+ str1 q)) with (in_quotes q text). by rw between_quotes Replace_pair_law undoubled.
Qed.
Lemma Unquoted_spaced q text : quoting_char q = true → Unquoted (" " +:+ in_quotes q text) = text.
Proof.
  intros Hq. rw -{2}(Unquoted_in_quotes q text Hq) /Unquoted. by rw (Trim_gap (str1 " ")).
Qed.

Lemma items_joined gap items :
  Forall whole_text items → closed_text gap = true → string_forallb space_char gap = true →
  items_of (join ("," +:+ gap) items) = items.
Proof.
  intros Hitems Hg Hs. rw /items_of /SplitTopLevel. destruct items as [|item items]; [by rw /= Trim_law|].
  assert (Hclosed : Forall (λ i, closed_text i = true) (item :: items)) by (eapply Forall_impl; [exact Hitems|]; by intros ? (_ & _ & ?)).
  rw split_joined //.
  apply Forall_cons in Hitems as [(Hne & Ht & _) Hitems]. rw string_app_nil_l /= Ht.
  replace (map Trim (map (λ i, gap +:+ i) items)) with items.
  - assert (Hfull : Forall (λ i, negb (is_empty i) = true) items) by (eapply Forall_impl; [exact Hitems|]; by intros [|] (? & _)).
    rw filter_all //. by destruct item.
  - clear Hclosed. induction Hitems as [|i items (_ & Hi & _) _ IH]; [done|]. simpl. rw -IH.
    by rw Trim_gap // Hi.
Qed.
Lemma omapM_written {A B} (f : string → outcome B) (w : A → string) (g : A → B) l :
  Forall (λ x, f (w x) = Ok (g x)) l → omapM f (map w l) = Ok (map g l).
Proof. induction 1 as [|x l Hx _ IH]; [done|]. by rw /= Hx /= IH. Qed.
End readers.

Section lists.
Context `{SUL : StringUtilLaws}.

Lemma split_assignment_app name text :
  contains_char "=" name = false → split_assignment (name +:+ "=" +:+ text) = Some (name, text).
Proof.
  induction name as [|c name IH]; [done|]. simpl. intros [Hc Hn]%orb_false_iff. rw Ascii.eqb_sym Hc. by rw (IH Hn).
Qed.
Lemma plain_assignment name gap text :
  plain_name name → string_forallb plain_char gap = true →
  split_assignment (name +:+ gap +:+ "=" +:+ text) = Some (name +:+ gap, text).
Proof.
  intros (_ & _ & Hn) Hg. rw (string_app_assoc name gap). apply split_assignment_app.
  by rw contains_char_app !plain_no.
Qed.
Lemma Trim_plain name : plain_name name → Trim (name +:+ " ") = name.
Proof. intros (_ & Hn & _). by rw (Trim_skip EmptyString name " ") // Hn. Qed.
(** A named value in quotes, whatever it holds, is one item *)
Lemma named_item q name equals value :
  quoting_char q = true → plain_name name → reach (None, 0) equals = Some (None, 0) →
  whole_text (name +:+ equals +:+ in_quotes q value).
Proof.
  intros Hq (Hne & Ht & Hp) He. split; [by destruct name|]. split; [by apply Trim_around; [|apply Trim_in_quotes|..]|].
  apply bool_decide_eq_true. rw reach_app reach_plain //=. rw reach_app He. by apply reach_in_quotes.
Qed.

(** *** Claims *)
Lemma claim_entry_written q claim : quoting_char q = true → plain_name claim.1 → claim_entry (written_claim q claim) = Ok (stored_claim claim).
Proof.
  intros Hq Hn. rw /claim_entry /written_claim (plain_assignment _ " " (" " +:+ in_quotes q claim.2)) //.
  by rw Unquoted_spaced // Trim_plain // -doubled_text.
Qed.
Lemma claim_value_stored text : claim_value (in_quotes squote text) = text.
Proof.
  rw /claim_value Trim_in_quotes //. destruct (in_quotes_ends squote text) as [-> ->].
  rw bool_decide_eq_true_2 //= between_quotes. by rw Replace_pair_law undoubled.
Qed.

(** a claims list reads back as it was written.  What a CREATE ROLE or GRANT compiles its claims list to is read, when
    the claims are used, as the names and the values of the list and nothing else, each name's last value standing: whatever
    a value holds - commas, equal signs, parentheses, quotes of either kind - it stays one value of the claim it was written
    for, in either kind of quotes. *)
Theorem claims_list_reads_back q claims :
  quoting_char q = true → Forall (λ claim, plain_name claim.1) claims →
  ∃ csv, ClaimsListToCsv (join ", " (map (written_claim q) claims)) = Ok csv
    ∧ ParseClaims csv = fold_left (λ read claim, ci_set claim.1 claim.2 read) claims [].
Proof.
  intros Hq Hnames. rewrite Forall_forall in Hnames.
  assert (Hitems : ∀ f equals q', quoting_char q' = true → reach (None, 0) equals = Some (None, 0) →
             (∀ claim, f claim = claim.1 +:+ equals +:+ in_quotes q' claim.2) → Forall whole_text (map f claims)).
  { intros f equals q' Hq' He Hf. apply Forall_forall. intros i (claim & -> & Hin)%list_elem_of_fmap. rw Hf.
    by apply named_item; [| apply Hnames|]. }
  exists (join "," (map stored_claim claims)). split.
  - rw /ClaimsListToCsv (items_joined " ") //; [by eapply (Hitems _ " = " q)|].
    rw (omapM_written _ _ stored_claim) //. apply Forall_forall. intros claim Hin. by apply claim_entry_written, Hnames.
  - rw /ParseClaims (items_joined EmptyString) //; [by eapply (Hitems _ "=" squote)|]. clear Hitems.
    generalize (@nil (string * string)) as read.
    induction claims as [|claim claims IH]; intros read; [done|]. simpl.
    destruct (Hnames claim) as (Hne & Ht & Hp); [by left|].
    rw {1}/stored_claim (plain_assignment _ EmptyString) // string_app_nil_r claim_value_stored Ht. apply IH.
    intros c Hc. apply Hnames. by right.
Qed.
End lists.


Section columns.
Context `{SUL : StringUtilLaws}.

End columns.

(** A name with a parenthesis of its own, not refused: the column after it is part of its item, neither its own column nor
    assigned its expression *)
Lemma quoted_name_swallows_the_next :
  let SU := reference_string_util in
  ∃ csv, UnquoteColumnsList (join ", " [in_quotes dquote "net (EUR"; in_quotes dquote "salary" +:+ " = 0"]) = Ok csv
    ∧ ParseColumnList csv = [("net (EUR, salary", "0")].
Proof. eexists. split; vm_compute; reflexivity. Qed.

Lemma hex_escape n : n < 16 → hex_value (escape_digit n) = Some n.
Proof. intros H. do 16 (destruct n as [|n]; [done|]). lia. Qed.
Lemma json_string_escaped s rest : json_string (json_escape s +:+ String dquote rest) = Some (s, rest).
Proof.
  induction s as [|c s IH]; [done|]. cbn [json_escape]. rewrite -string_app_assoc.
  destruct (Ascii.eqb c dquote || Ascii.eqb c "\") eqn:Hq.
  - apply orb_true_iff in Hq as [->%Ascii.eqb_eq| ->%Ascii.eqb_eq]; by rw /= IH.
  - apply orb_false_iff in Hq as [Hd Hb]. destruct (nat_of_ascii c <? 32) eqn:Hn.
    + apply Nat.ltb_lt in Hn. set (more := json_escape s +:+ String dquote rest) in *.
      change (json_string (String "\" (String "u" (String "0" (String "0" (String (escape_digit (nat_of_ascii c / 16))
                (String (escape_digit (nat_of_ascii c mod 16)) more)))))) = Some (String c s, rest)).
      cbn [json_string]. rw Ascii.eqb_refl !hex_escape.
      * apply Nat.mod_upper_bound. lia.
      * apply Nat.div_lt_upper_bound; lia.
      * cbn -[Nat.div Nat.modulo Nat.mul Nat.add]. rw IH.
        cbn -[Nat.div Nat.modulo Nat.mul Nat.add]. by rw -Nat.div_mod_eq ascii_nat_embedding.
    + rw str1_app /= Hd Hb Hn IH //.
Qed.
Lemma json_quoted_read s rest spaces :
  string_forallb space_char spaces = true → json_quoted_string (spaces +:+ JsonQuote s +:+ rest) = Some (s, rest).
Proof.
  intros Hs. replace (JsonQuote s +:+ rest) with (String dquote (json_escape s +:+ String dquote rest))
    by by rw /JsonQuote -!string_app_assoc.
  rw /json_quoted_string trim_left_skip //. apply json_string_escaped.
Qed.
Lemma json_quoted_second s rest : json_quoted_string (String " " (JsonQuote s +:+ rest)) = Some (s, rest).
Proof. by apply (json_quoted_read _ _ (str1 " ")). Qed.
Lemma json_pairs_pair fuel spaces pair rest :
  string_forallb space_char spaces = true →
  json_pairs (S fuel) (spaces +:+ pair_text pair +:+ rest)
  = match trim_left rest with
    | String "," more => pairs ← json_pairs fuel more; Some (pair :: pairs)
    | String "}" EmptyString => Some [pair]
    | _ => None
    end.
Proof.
  intros Hs. replace (pair_text pair +:+ rest) with (JsonQuote pair.1 +:+ String ":" (String " " (JsonQuote pair.2 +:+ rest)))
    by by rw /pair_text -!string_app_assoc.
  cbn [json_pairs]. rw json_quoted_read //.
  unfold mbind, option_bind. cbn [fst snd].
  replace (trim_left (String ":" (String " " (JsonQuote pair.2 +:+ rest)))) with (String ":" (String " " (JsonQuote pair.2 +:+ rest)))
    by done.
  rw json_quoted_second. cbn [fst snd]. by destruct pair.
Qed.
Lemma json_pairs_written pairs pair fuel spaces :
  string_forallb space_char spaces = true → length (pair :: pairs) ≤ fuel →
  json_pairs fuel (spaces +:+ join ", " (map pair_text (pair :: pairs)) +:+ "}") = Some (pair :: pairs).
Proof.
  revert pair fuel spaces. induction pairs as [|next pairs IH]; intros pair [|fuel] spaces Hs Hfuel; try (simpl in Hfuel; lia).
  - cbn [map join]. by rw json_pairs_pair.
  - change (join ", " (map pair_text (pair :: next :: pairs))) with (pair_text pair +:+ ", " +:+ join ", " (map pair_text (next :: pairs))).
    rw -!(string_app_assoc (pair_text pair)) json_pairs_pair //.
    change (trim_left ((", " +:+ join ", " (map pair_text (next :: pairs))) +:+ "}"))
      with (String "," (str1 " " +:+ join ", " (map pair_text (next :: pairs)) +:+ "}")).
    cbv beta match. specialize (IH next fuel (str1 " ") eq_refl). rw IH //. simpl in *. lia.
Qed.
Lemma json_object_written pairs : json_object ("{" +:+ join ", " (map pair_text pairs) +:+ "}") = Some pairs.
Proof.
  destruct pairs as [|pair pairs]; [done|].
  assert (Hread : json_pairs (String.length (join ", " (map pair_text (pair :: pairs)) +:+ "}"))
                    (join ", " (map pair_text (pair :: pairs)) +:+ "}") = Some (pair :: pairs)).
  { apply (json_pairs_written pairs pair _ EmptyString); [done|].
    assert (Hlen : ∀ p l, length (p :: l) ≤ String.length (join ", " (map pair_text (p :: l)))).
    { intros p l. revert p. induction l as [|next l IH]; intros p.
      - apply le_n_S, Nat.le_0_l.
      - change (join ", " (map pair_text (p :: next :: l))) with (pair_text p +:+ ", " +:+ join ", " (map pair_text (next :: l))).
        rw !string_length_app. specialize (IH next). change (length (p :: next :: l)) with (S (length (next :: l))). change (String.length ", ") with 2. lia. }
    rw string_length_app. specialize (Hlen pair pairs). lia. }
  set (text := join ", " (map pair_text (pair :: pairs)) +:+ "}") in *.
  assert (Hd : ∃ more, text = String dquote more) by (by destruct pairs; eexists).
  destruct Hd as [more ->]. exact Hread.
Qed.

Lemma text_ahead text c rest : ∃ d more, text +:+ String c rest = String d more.
Proof. destruct text as [|d text]; [by exists c, rest|]. by exists d, (text +:+ String c rest). Qed.
Lemma split_arrow_doubled q text rest :
  quoting_char q = true → rest ≠ EmptyString →
  split_arrow (Some q) (doubled q text +:+ String q rest)
  = (λ sides : string * string, (doubled q text +:+ String q sides.1, sides.2)) <$> split_arrow None rest.
Proof.
  intros Hq Hr. rw /quoting_char in Hq. induction text as [|c text IH].
  - destruct rest as [|d rest]; [done|]. rw /doubled /=. by rw Ascii.eqb_refl.
  - assert (Hlong : ∃ d more, doubled q text +:+ String q rest = String d more) by apply text_ahead.
    destruct Hlong as (d & more & Hlong). rw /doubled. cbn [replace_char]. rw -/(doubled q text).
    destruct (Ascii.eqb_spec q c) as [<-|Hne].
    + change (((str1 q +:+ str1 q) +:+ doubled q text) +:+ String q rest)
        with (String q (String q (doubled q text +:+ String q rest))).
      cbn [split_arrow]. rewrite {1}Hlong Ascii.eqb_refl Hq IH. by destruct (split_arrow None rest) as [[? ?]|].
    + rw string_app_cons. cbn [split_arrow]. rewrite {1}Hlong.
      destruct (Ascii.eqb_spec c q); [congruence|]. rw IH. by destruct (split_arrow None rest) as [[? ?]|].
Qed.
Lemma split_arrow_quoted q text rest :
  quoting_char q = true → rest ≠ EmptyString →
  split_arrow None (in_quotes q text +:+ rest)
  = (λ sides : string * string, (in_quotes q text +:+ sides.1, sides.2)) <$> split_arrow None rest.
Proof.
  intros Hq Hr. change (in_quotes q text +:+ rest) with (String q ((doubled q text +:+ str1 q) +:+ rest)).
  rw -string_app_assoc str1_app. cbn [split_arrow].
  destruct (text_ahead (doubled q text) q rest) as (d & more & Hlong). rewrite {1}Hlong.
  pose proof Hq as Hq'. rw /quoting_char in Hq'. rw Hq' split_arrow_doubled //.
  destruct (split_arrow None rest) as [[? ?]|]; simpl; [|done]. by rw string_app_cons -string_app_assoc.
Qed.

Section claim_maps.
Context `{SUL : StringUtilLaws}.
Lemma map_entry_written q mapping :
  quoting_char q = true → map_entry (written_mapping q mapping) = Ok (pair_text mapping).
Proof.
  intros Hq. rw /map_entry /written_mapping split_arrow_quoted //=.
  rw Unquoted_spaced //. replace (Unquoted (in_quotes q mapping.1 +:+ " ")) with mapping.1; [done|].
  rw -{1}(Unquoted_in_quotes q mapping.1 Hq) /Unquoted. by rw (Trim_skip EmptyString (in_quotes q mapping.1) (str1 " ")).
Qed.

(** C16: a claim map reads back as it was written.  The list of quoted paths and claims a client's statement maps compiles to
    a JSON string that holds a JSON object, and what JSON makes of the two is those paths and those claims, in order: no
    side, whatever it holds - an arrow, a comma, a quote, a control character, the text of another mapping -, adds one,
    ends one early or changes another. *)
Theorem claim_map_reads_back q mappings :
  quoting_char q = true →
  ∃ text, read_text CLAIM_MAP (join ", " (map (written_mapping q) mappings)) = Ok text
    ∧ ∃ json, json_quoted_string text = Some (json, EmptyString) ∧ json_object json = Some mappings.
Proof.
  intros Hq. assert (Hw : Forall whole_text (map (written_mapping q) mappings)).
  { apply Forall_forall. intros i (mapping & -> & _)%list_elem_of_fmap. split; [done|].
    split; [by apply Trim_around; [apply Trim_in_quotes|apply Trim_in_quotes|..]|].
    apply bool_decide_eq_true. rw /written_mapping reach_app reach_in_quotes //. by apply (reach_in_quotes q 0). }
  set (json := "{" +:+ join ", " (map pair_text mappings) +:+ "}"). exists (JsonQuote json). split.
  - rw /= /ClaimMapToJson (items_joined " ") // (omapM_written _ _ pair_text) //.
    apply Forall_forall. intros mapping _. by apply map_entry_written.
  - exists json. split; [|apply json_object_written]. rw -{1}(string_app_nil_r (JsonQuote json)). by apply (json_quoted_read _ _ EmptyString).
Qed.
End claim_maps.

(** ** Concrete lists *)
Lemma claims_list_reads_back_witness :
  ∃ csv, @ClaimsListToCsv reference_string_util
           (join ", " (map (written_claim squote) [("tenant", "acme, (eu = 'x')"); ("unit", "eu"); ("tenant", "b")])) = Ok csv
    ∧ @ParseClaims reference_string_util csv = [("tenant", "b"); ("unit", "eu")].
Proof.
  apply (claims_list_reads_back (SUL := reference_string_util_laws) squote); [done|].
  repeat constructor; try discriminate; vm_compute; reflexivity.
Defined.
Lemma claim_map_reads_back_witness :
  ∃ text, @read_text reference_string_util CLAIM_MAP
            (join ", " (map (written_mapping squote) [("tid", "tenant"); ("a => b, 'c'", "x" +:+ dq +:+ ": 'y'")])) = Ok text
    ∧ ∃ json, json_quoted_string text = Some (json, EmptyString)
        ∧ json_object json = Some [("tid", "tenant"); ("a => b, 'c'", "x" +:+ dq +:+ ": 'y'")].
Proof. apply (claim_map_reads_back (SUL := reference_string_util_laws) squote). reflexivity. Defined.
