(* ===== verification/MgmtLaws.v ===== *)
(** * What a management batch compiles to

    A batch runs whole or not at all, each call its rule's ([management_batch_runs_whole]); what the lists a rule hands over
    read back as is [MgmtLists]. *)
From S2P Require Import Prelude NamePath FieldPaths Statements Platform Prefix Heads Tree RewriteData MgmtBatch.

(** ** The batch *)
Section batch.
Context `{SU : StringUtil} `{EN : Engine} `{SP : Splitter} `{MG : MgmtGrammar} (reg : registry) (modules : list MgmtModule).

(** What a statement its rule read compiles to: the rule's function, over its arguments with every list's reading placed,
    no list's marker left, the session in front where the statement is about it *)
Definition compiles (current : string) (p : MgmtParsed) (call : Statements.SQLStatement) : Prop :=
  unread p = false ∧ m_secrets p = false
  ∧ ∃ placed args,
      place_texts (MgmtBatch.texts p) (m_args p) = Ok placed
      ∧ Forall (λ t, t_splice t = EmptyString
                     ∨ ∃ arg, placed !! t_arg t = Some arg ∧ contains_char marker (Statements.value_text arg) = false) (MgmtBatch.texts p)
      ∧ (if current_session p then current ≠ EmptyString ∧ args = Text current :: tail placed else args = placed)
      ∧ call = if table_call p then MakeAdminTableCall (m_function p) args else MakeAdminCall reg (m_function p) args.

Lemma read_args_ok current p args :
  read_args current p = Ok args →
  ∃ placed, place_texts (MgmtBatch.texts p) (m_args p) = Ok placed
    ∧ Forall (λ t, t_splice t = EmptyString
                   ∨ ∃ arg, placed !! t_arg t = Some arg ∧ contains_char marker (Statements.value_text arg) = false) (MgmtBatch.texts p)
    ∧ (if current_session p then current ≠ EmptyString ∧ args = Text current :: tail placed else args = placed).
Proof.
  intros (placed & Hp & H)%outcome_bind_ok. apply outcome_bind_ok in H as (us & Hmarks & H). exists placed. split; [done|]. split.
  - apply omapM_ok in Hmarks. apply Forall_forall. intros t Ht. apply list_elem_of_lookup in Ht as [i Hi].
    destruct (Forall2_lookup_l _ _ _ _ _ Hmarks Hi) as (u & _ & Hu). rewrite /marker_gone in Hu.
    destruct (is_empty (t_splice t)) eqn:He; [left; by apply is_empty_spec|right].
    destruct (placed !! t_arg t) as [arg|]; [|done]. exists arg. split; [done|]. by destruct (contains_char _ _).
  - destruct (current_session p); [|by injection H]. rewrite /session_args in H.
    destruct current; [done|]. destruct placed; [done|]. by injection H as <-.
Qed.
Lemma compile_piece_ok current p call : compile_piece reg modules current p = Ok call → compiles current p.1 call.
Proof.
  rewrite /compile_piece. destruct (m_secrets p.1) eqn:Hs; [done|]. destruct (unread p.1) eqn:Hu; simpl.
  { destruct (IsSecretsStart _); [done|]. rewrite /refuse_piece. destruct (RefuseUnreadStatement _ _); [by destruct p.2|done]. }
  intros (args & Hargs & [= <-])%outcome_bind_ok. split; [done|]. split; [done|].
  apply read_args_ok in Hargs as (placed & ? & ? & ?). by exists placed, args.
Qed.
(** A piece the tokenizer refused is no rule's *)
Lemma refused_is_unread text pieces p m : read_piece text = Ok pieces → p ∈ pieces → p.2 = Some m → unread p.1 = true.
Proof.
  rewrite /read_piece. destruct (ReadManagement text) as [l|message|message]; intros [= <-].
  - by intros (x & -> & _)%list_elem_of_fmap.
  - by intros ->%list_elem_of_singleton.
Qed.
Lemma pieces_run_whole text current pieces calls :
  read_pieces text = Ok pieces → omapM (compile_piece reg modules current) pieces = Ok calls →
  ∃ l, ReadManagement text = Read l ∧ pieces = map (λ p, (p, None)) l.
Proof.
  rewrite /read_pieces. destruct (ReadManagement text) as [l|message|message]; [intros [= <-]; by exists l| |done].
  intros (texts & _ & H)%outcome_bind_ok Hcalls. apply outcome_bind_ok in H as (read & Hread & H).
  destruct (existsb _ _) eqn:He; [|done]. injection H as <-.
  apply existsb_exists in He as (p & Hp%list_elem_of_In & Hsome). apply bool_decide_eq_true in Hsome as [m Hm].
  destruct (omapM_each _ _ _ _ Hcalls Hp) as (call & (Hu & _)%compile_piece_ok).
  apply list_elem_of_In, in_concat in Hp as (part & Hpart%list_elem_of_In & Hp%list_elem_of_In).
  apply omapM_ok in Hread. apply list_elem_of_lookup in Hpart as [i Hi].
  destruct (Forall2_lookup_r _ _ _ _ _ Hread Hi) as (t & _ & Ht).
  pose proof (refused_is_unread _ _ _ _ Ht Hp Hm). congruence.
Qed.

(** C14: a management batch runs whole or not at all: where it compiles, the grammar read the whole text - a text the
    tokenizer refuses, in any of its statements or between them, never runs in part -, every statement of it is management,
    and the calls are its statements', one each and in order: the rule's function over its arguments, every list read, no
    marker of one left, the session's own id where the statement is about the session it runs under *)
Theorem management_batch_runs_whole (text current : string) (calls : list Statements.SQLStatement) :
  ParseMgmtBatch reg modules text current = Ok calls →
  calls ≠ [] ∧ (BatchHasMgmtStatement (keywords modules) (Heads text 6) = true → BatchIsAllMgmt (keywords modules) (Heads text 6) = true)
  ∧ ∃ l, ReadManagement text = Read l ∧ Forall2 (compiles current) l calls.
Proof.
  rewrite /ParseMgmtBatch. intros (u & _ & H)%outcome_bind_ok.
  destruct (negb _ && _) eqn:Hmix; [done|]. apply outcome_bind_ok in H as (pieces & Hpieces & H).
  apply outcome_bind_ok in H as (calls' & Hcalls & H).
  assert (Hne : calls' = calls ∧ calls ≠ []) by (destruct calls'; [done|]; by injection H as <-).
  destruct Hne as [-> Hne]. split; [done|]. split.
  { intros Hhas. rewrite Hhas andb_true_r in Hmix. by apply negb_false_iff in Hmix. }
  destruct (pieces_run_whole _ _ _ _ Hpieces Hcalls) as (l & Hl & ->). exists l. split; [done|].
  apply omapM_ok in Hcalls. apply Forall2_fmap_l in Hcalls. eapply Forall2_impl; [exact Hcalls|].
  intros p call Hc. by apply compile_piece_ok in Hc.
Qed.
End batch.
