(* ===== verification/Override.v ===== *)
(** * The parser override: one batch, decided

    [acl_parser_override.cpp]: the principal a prefix stands for, the audit's view of the batch, the batch itself - query,
    management, native, secrets, ingest -, a streamed insert nobody prefixed, and the override duckdb calls.  Composes the
    prefix ([Prefix]), the heads ([Heads]), the sessions ([Sessions]), the rights and the authorizer ([AdminRights],
    [Platform]) and the rewriter ([RewriteDdl]); the management grammar's rules, duckdb's parser and the policy store's other
    answers are the class [Gateway].  An error's position in the text and the lineage of a statement are left out. *)
From S2P Require Import MgmtBatch.
From S2P Require Import Prelude NamePath FieldPaths FunctionCategories PolicyTypes AdminRights AuditTrail SessionData Notifier Sessions Prefix Heads.
From S2P Require Import Statements Platform Token Tree RewriteData RewriteDdl PolicyCache.

(** ** Statements *)

(** A statement of duckdb's, as each part reads it: the platform calls, the rewriter, an ATTACH's alias *)
Record Parsed := {
  by_platform : Statements.Statement;
  by_rewriter : Tree.SQLStatement;
  attach_alias : option string;
}.
(** What the override hands to duckdb: what the rewriter made, a compiled call, a statement as it was parsed *)
Inductive sent_statement :=
  | Rewritten (s : Tree.SQLStatement)
  | Compiled (s : Statements.SQLStatement)
  | AsWritten (s : Parsed).

(** What a principal's statement's error may say ([PrincipalText]) *)
Record PrincipalText := {
  pt_renamed : list (string * string);
  object_parts : list string;
  target_leaves : list string;
}.

(** ** The audit's view of one batch ([StatementAudit]) *)
Record ledger := {
  a_kind : string;
  a_door : string;
  a_session : string;
  a_principal : Principal;
  a_detail : string;
  a_correlation : string;
  a_traceparent : string;
  a_level : option AuditLevel;
  a_profile : Z;
  a_opened : Z;
  a_expires : Z;
  a_trail : list Entry;
  a_phase : Reason;
  a_refused : string;
}.
Definition new_ledger : ledger := {|
  a_kind := "statement"; a_door := "gateway"; a_session := EmptyString; a_principal := no_principal;
  a_detail := EmptyString; a_correlation := EmptyString; a_traceparent := EmptyString; a_level := None; a_profile := -1;
  a_opened := 0; a_expires := 0; a_trail := []; a_phase := PARSE; a_refused := EmptyString |}.
Definition set_trace_of (correlation traceparent : string) (l : ledger) : ledger := {|
  a_kind := a_kind l; a_door := a_door l; a_session := a_session l; a_principal := a_principal l; a_detail := a_detail l;
  a_correlation := correlation; a_traceparent := traceparent; a_level := a_level l; a_profile := a_profile l;
  a_opened := a_opened l; a_expires := a_expires l; a_trail := a_trail l; a_phase := a_phase l; a_refused := a_refused l |}.
Definition set_kind (kind refused : string) (l : ledger) : ledger := {|
  a_kind := kind; a_door := a_door l; a_session := a_session l; a_principal := a_principal l; a_detail := a_detail l;
  a_correlation := a_correlation l; a_traceparent := a_traceparent l; a_level := a_level l; a_profile := a_profile l;
  a_opened := a_opened l; a_expires := a_expires l; a_trail := a_trail l; a_phase := a_phase l; a_refused := refused |}.
Definition set_door (door : string) (l : ledger) : ledger := {|
  a_kind := a_kind l; a_door := door; a_session := a_session l; a_principal := a_principal l; a_detail := a_detail l;
  a_correlation := a_correlation l; a_traceparent := a_traceparent l; a_level := a_level l; a_profile := a_profile l;
  a_opened := a_opened l; a_expires := a_expires l; a_trail := a_trail l; a_phase := a_phase l; a_refused := a_refused l |}.
Definition set_who (p : Principal) (l : ledger) : ledger := {|
  a_kind := a_kind l; a_door := a_door l; a_session := a_session l; a_principal := p; a_detail := a_detail l;
  a_correlation := a_correlation l; a_traceparent := a_traceparent l; a_level := a_level l; a_profile := a_profile l;
  a_opened := a_opened l; a_expires := a_expires l; a_trail := a_trail l; a_phase := a_phase l; a_refused := a_refused l |}.
Definition set_detail (detail : string) (l : ledger) : ledger := {|
  a_kind := a_kind l; a_door := a_door l; a_session := a_session l; a_principal := a_principal l; a_detail := detail;
  a_correlation := a_correlation l; a_traceparent := a_traceparent l; a_level := a_level l; a_profile := a_profile l;
  a_opened := a_opened l; a_expires := a_expires l; a_trail := a_trail l; a_phase := a_phase l; a_refused := a_refused l |}.
Definition set_phase (phase : Reason) (l : ledger) : ledger := {|
  a_kind := a_kind l; a_door := a_door l; a_session := a_session l; a_principal := a_principal l; a_detail := a_detail l;
  a_correlation := a_correlation l; a_traceparent := a_traceparent l; a_level := a_level l; a_profile := a_profile l;
  a_opened := a_opened l; a_expires := a_expires l; a_trail := a_trail l; a_phase := phase; a_refused := a_refused l |}.
Definition set_entries (trail : list Entry) (l : ledger) : ledger := {|
  a_kind := a_kind l; a_door := a_door l; a_session := a_session l; a_principal := a_principal l; a_detail := a_detail l;
  a_correlation := a_correlation l; a_traceparent := a_traceparent l; a_level := a_level l; a_profile := a_profile l;
  a_opened := a_opened l; a_expires := a_expires l; a_trail := trail; a_phase := a_phase l; a_refused := a_refused l |}.
(** [OnSession]: the door, the ops id and the session's own level name the events *)
Definition on_session (ref : SessionRef) (l : ledger) : ledger := {|
  a_kind := a_kind l; a_door := r_door ref; a_session := r_id ref; a_principal := r_principal ref; a_detail := a_detail l;
  a_correlation := a_correlation l; a_traceparent := a_traceparent l; a_level := r_audit_level ref;
  a_profile := r_profile_override ref; a_opened := r_opened_at ref; a_expires := r_expires_at ref; a_trail := a_trail l;
  a_phase := a_phase l; a_refused := a_refused l |}.

(** ** The thread a batch is decided on *)

(** A profile's note of a decision: the event it is matched by, as the statement's entry and the batch's ledger make it;
    [None] the boundary a statement nobody prefixed leaves *)
Definition profile_note : Type := option (Entry * ledger).
Record gate := {
  g_store : store;
  (* what a refusal noted on this thread *)
  g_note : string;
  g_ledger : ledger;
  (* what the audit was handed *)
  g_told : list AuditEvent;
  g_profile : list profile_note;
  g_texts : PrincipalTextRegistry (T:=PrincipalText);
}.
Definition with_store (s : store) (g : gate) : gate := {|
  g_store := s; g_note := g_note g; g_ledger := g_ledger g; g_told := g_told g; g_profile := g_profile g;
  g_texts := g_texts g |}.
Definition with_note (n : string) (g : gate) : gate := {|
  g_store := g_store g; g_note := n; g_ledger := g_ledger g; g_told := g_told g; g_profile := g_profile g;
  g_texts := g_texts g |}.
Definition with_ledger (l : ledger) (g : gate) : gate := {|
  g_store := g_store g; g_note := g_note g; g_ledger := l; g_told := g_told g; g_profile := g_profile g;
  g_texts := g_texts g |}.
Definition with_told (es : list AuditEvent) (g : gate) : gate := {|
  g_store := g_store g; g_note := g_note g; g_ledger := g_ledger g; g_told := es; g_profile := g_profile g;
  g_texts := g_texts g |}.
Definition with_profile (ns : list profile_note) (g : gate) : gate := {|
  g_store := g_store g; g_note := g_note g; g_ledger := g_ledger g; g_told := g_told g; g_profile := ns;
  g_texts := g_texts g |}.
Definition with_texts (ts : PrincipalTextRegistry (T:=PrincipalText)) (g : gate) : gate := {|
  g_store := g_store g; g_note := g_note g; g_ledger := g_ledger g; g_told := g_told g; g_profile := g_profile g;
  g_texts := ts |}.

(** An exception ends the batch, with the state it finds *)
Definition G (A : Type) : Type := gate → gate * (A + string).
#[export] Instance G_ret : MRet G := λ A a g, (g, inl a).
#[export] Instance G_bind : MBind G := λ A B f m g,
  match m g with
  | (g, inl a) => f a g
  | (g, inr e) => (g, inr e)
  end.
Definition graise {A} (message : string) : G A := λ g, (g, inr message).
Definition ggets {A} (f : gate → A) : G A := λ g, (g, inl (f g)).
Definition gmodify (f : gate → gate) : G () := λ g, (f g, inl ()).
Definition gwhen (b : bool) (m : G ()) : G () := if b then m else mret ().
Definition gtry {A} (m : G A) : G (A + string) := λ g, let '(g, r) := m g in (g, inl r).
Definition glift {A} (o : outcome A) : G A := match o with Ok a => mret a | Throw message => graise message end.
Definition in_store {A} (f : store → A * store) : G A := λ g, let '(a, s) := f (g_store g) in (with_store s g, inl a).
Definition in_ledger (f : ledger → ledger) : G () := gmodify (λ g, with_ledger (f (g_ledger g)) g).
Definition gnote (reason : Reason) : G () := gmodify (with_note (noted reason)).
Definition gdeny {A} (reason : Reason) (message : string) : G A := gnote reason;; graise message.
Definition gask {A} (a : answer A) : G A :=
  match a with
  | Answered a => mret a
  | RewriteData.Failed None _ message => graise message
  | RewriteData.Failed (Some reason) _ message => gdeny reason message
  end.
Fixpoint giter {A} (f : A → G ()) (l : list A) : G () :=
  match l with
  | [] => mret ()
  | x :: l => f x;; giter f l
  end.

(** ** Neighbours *)
Class Gateway := {
  (* the node: its platform registry, clock and session settings, audit, linked modules' statements, open doors, setting
     [acl_allow_anonymous_admin]; a batch is decided at one reading of the clock *)
  gw_registry : registry;
  gw_settings : settings;
  gw_audited : bool;
  gw_level : AuditLevel;
  gw_levels : AuditLevel → N;
  gw_blank : AuditEvent;
  gw_observers : delivery → list (bool * Z);
  gw_modules : list MgmtModule;
  gw_door_open : bool;
  gw_anonymous_admin : bool;
  (* the policy store: what verifies a token, the roles' default claims, its answers with the sessions as they are *)
  gw_verifier : verifier;
  gw_role_claims : list (string * list (string * string));
  gw_source : store → PolicySource;
  gw_temp : option TempCatalog;
  gw_factory : bool;
  (* duckdb: a grammar of the connection's own choosing, for the prefix and for a marked ATTACH; its parser - with the
     other extensions' overrides or without -; a composed statement's text *)
  gw_connected : bool;
  gw_foreign : bool;
  gw_parse : bool → string → outcome (list Parsed);
  gw_text : Statements.SQLStatement → string;
  (* the management statements as the grammar reads them *)
  gw_grammar :: MgmtGrammar;
  (* the authorizer's *)
  gw_read_object : string → option (option (list (string * option bool)));
  gw_mappings : list IdentityMapping;
  gw_clients : list MappedClient;
  gw_privileged : string → bool;
  gw_role_defined : string → bool;
  gw_rights_of : Principal → AdminRights.AdminRights;
  gw_name : Type;
  gw_names :: QualifiedNames gw_name;
  gw_walk : string → BodyShape → list (gw_name * FunctionKind) * option walk_failure;
  gw_resolve : Principal → gw_name → FunctionKind → FunctionDecision;
  gw_readings : list string → option (list (list string));
  gw_catalog : bool;
  gw_attached : string → bool;
  gw_origin : string → string → option string;
  gw_columns : string → outcome (list (string * string));
  gw_references : string → bool → outcome (list (list string));
  gw_reference : list string → outcome (list string);
  gw_split : string → string → list string;
}.

Section override.
Context `{SU : StringUtil} `{EN : Engine} `{JR : JsonReader} `{P : Parsing} `{TK : Tokenizer} `{SP : Splitter} `{GW : Gateway}.

(** ** The principal a prefix stands for *)

(** [PolicyStore::VerifyPrincipal] *)
Definition VerifyPrincipal (is_token : bool) (value : string) : G (option Principal) :=
  found ← (if is_token then
             match Sessions.LooksLikeJwt gw_verifier value with
             | Some issuer =>
                 match (match Sessions.IdentityError gw_verifier with
                        | Some message => Unverified no_principal EmptyString message
                        | None => Sessions.VerifyJwtPrincipal gw_verifier value issuer
                        end) with
                 | Verified who _ => gmodify (λ g, with_store (CountJwt gw_audited "ok" (g_store g)) g);; mret (Some who)
                 | Unverified _ note message =>
                     gmodify (λ g, with_store (CountJwt gw_audited "failed" (g_store g)) g);;
                     gwhen (negb (is_empty note)) (gmodify (with_note note));;
                     graise message
                 end
             | None => ggets (λ g, ci_find value (tokens (g_store g)))
             end
           else
             mret (Some {| issuer := EmptyString; subject := EmptyString; roles := [value];
                           claims := default [] (ci_find value gw_role_claims) |}));
  match found, Sessions.CatalogLoadRoleClaims gw_verifier with
  | Some who, Some load => who ← glift (load who); mret (Some who)
  | found, _ => mret found
  end.

Definition session_kind (k : option Kind) : bool := bool_decide (k = Some Prefix.SESSION) || bool_decide (k = Some Prefix.INGEST).
Definition gate_principal (handle : string) : G (Principal + string) :=
  in_store (Sessions.SessionPrincipal gw_levels gw_blank gw_audited gw_level gw_observers gw_settings handle).
Definition ref_of (handle : string) : G (option SessionRef) := ggets (λ g, SessionRefOf handle (g_store g)).
Definition plain_client (who : Principal) : client :=
  {| RewriteData.who := who; session := EmptyString; session_connection := false; ingest_stream := EmptyString;
     arrow_ingest := false |}.
(** [ResolvePrincipal] *)
Definition ResolvePrincipal (prefix : AclPrefix) : G client :=
  if session_kind (p_kind prefix) then
    found ← gate_principal (p_value prefix);
    match found with
    | inr reason => gdeny PRINCIPAL ("acl_rewrite: session " +:+ reason)
    | inl who =>
        ref ← ref_of (p_value prefix);
        mret {| RewriteData.who := who; session := match ref with Some ref => r_id ref | None => EmptyString end;
                session_connection := bool_decide (p_kind prefix = Some Prefix.SESSION); ingest_stream := EmptyString;
                arrow_ingest := false |}
    end
  else
    let is_token := bool_decide (p_kind prefix = Some Prefix.TOKEN) in
    found ← VerifyPrincipal is_token (p_value prefix);
    match found with
    | None => gdeny PRINCIPAL ("acl_rewrite: " +:+ (if is_token then "token" else "role") +:+ " verification failed")
    | Some who => mret (plain_client who)
    end.

(** ** What the audit is told *)

(** The parts of a statement's objects its error may say back; a name a CREATE, a DROP or a temp offers, by its leaf *)
Definition text_of_object (object : string * string) (t : PrincipalText) : PrincipalText :=
  match TryFromKey object.1 with
  | inr [] | inl _ => t
  | inr parts =>
      if existsb (String.eqb object.2) ["create"; "drop"; "temp"] then
        {| pt_renamed := pt_renamed t; object_parts := object_parts t;
           target_leaves := target_leaves t ++ [Lower (List.last parts EmptyString)] |}
      else {| pt_renamed := pt_renamed t; object_parts := object_parts t ++ map Lower parts;
              target_leaves := target_leaves t |}
  end.
Definition text_of_entry (e : Entry) : PrincipalText :=
  fold_left (λ t object, text_of_object object t) (entry_objects e)
    {| pt_renamed := entry_renamed e; object_parts := []; target_leaves := [] |}.
Definition event_of (l : ledger) (e : Entry) (allowed : bool) (code reason : string) : AuditEvent :=
  let level := if allowed then DECISIONS else DENIED in {|
    ev_kind := a_kind l; ev_door := a_door l; ev_session := a_session l; ev_principal := a_principal l;
    ev_detail := if is_empty (entry_detail e) then a_detail l else entry_detail e; ev_statement := entry_statement e;
    ev_allowed := allowed; ev_error := ev_error gw_blank; ev_reason_code := code; ev_reason := reason;
    ev_duration_us := ev_duration_us gw_blank; ev_rows := ev_rows gw_blank; ev_objects := entry_objects e;
    ev_level := level; ev_recorded := Records gw_levels gw_level level (a_level l); ev_seq := ev_seq gw_blank;
    ev_ts_us := ev_ts_us gw_blank; ev_node := ev_node gw_blank; ev_correlation_id := a_correlation l;
    ev_traceparent := a_traceparent l; ev_lineage := ev_lineage gw_blank; ev_sources := ev_sources gw_blank |}.
(** [PushProfileNote]: what ends with the hash 0, as a boundary does, goes first *)
Definition note_hash (n : profile_note) : N := match n with Some (e, _) => entry_text_hash e | None => 0%N end.
Fixpoint without_boundary (ns : list profile_note) : list profile_note :=
  match ns with
  | [] => []
  | n :: ns =>
      match without_boundary ns with
      | [] => if N.eqb (note_hash n) 0 then [] else [n]
      | rest => n :: rest
      end
  end.
Definition Decided (allowed : bool) (code reason : string) (e : Entry) : G () :=
  l ← ggets g_ledger;
  gwhen (allowed && entry_executes e && negb (String.eqb (entry_statement e) "native")
         && negb (String.eqb (a_detail l) "anonymous"))
    (gmodify (λ g, with_texts (NoteText (entry_text_hash e) (text_of_entry e) (g_texts g)) g));;
  gwhen gw_audited
    (gmodify (λ g, with_told (g_told g ++ [event_of l e allowed code reason]) g);;
     gwhen (allowed && entry_executes e)
       (gmodify (λ g, with_profile (without_boundary (g_profile g) ++ [Some (e, l)]) g))).
Definition Allowed : G () :=
  l ← ggets g_ledger; giter (Decided true EmptyString EmptyString) (a_trail l).
(** The entry a refusal is told under: what the batch stopped at, a management batch by every call of it *)
Definition refused_entry (l : ledger) : Entry :=
  match List.last (map Some (a_trail l)) None with
  | None => new_entry (a_refused l)
  | Some last =>
      if String.eqb (a_kind l) "admin" then
        entry_touched (concat (map entry_objects (a_trail l))) (entry_physical last) (entry_renamed last) last
      else last
  end.
Definition Denied (message : string) : G () :=
  noted ← ggets g_note;
  gmodify (with_note EmptyString);;
  l ← ggets g_ledger;
  let code := if is_empty noted then ReasonCode (a_phase l) else noted in
  Decided false code (AuditReasonText code message) (refused_entry l).
(** A [StatementAudit] begins: nothing noted before names this batch's refusal, nor its execution *)
Definition begin_audit : G () :=
  gmodify (with_note EmptyString);; gmodify (with_profile []);; in_ledger (λ _, new_ledger).
Definition OnSession (handle : string) : G () :=
  ref ← ref_of handle;
  match ref with Some ref => in_ledger (on_session ref) | None => mret () end.
(** [audit.Allowed] or [audit.Denied], whichever the decision comes to *)
Definition audited_by {A} (m : G A) : G A :=
  r ← gtry m;
  match r with
  | inl a => Allowed;; mret a
  | inr message => Denied message;; graise message
  end.

(** ** Management *)

Definition cast_failed {A} : outcome A := Throw "Failed to cast expression to type".
Definition item_argument (args : list (option string * Statements.Expr)) (index : nat) : outcome string :=
  match args !! index with
  | None => Ok EmptyString
  | Some (_, Statements.Constant v) => Ok (Statements.value_text v)
  | Some _ => cast_failed
  end.
(** [ClusterAuditObject]: the item's kind and name, never its specification *)
Definition ClusterAuditObject (stmt : Statements.SQLStatement) (call : string) : outcome (string * string) :=
  match stmt with
  | Statements.SelectStatement (Some node) =>
      match Statements.select_list node with
      | Function_ f :: _ =>
          let '(kind, index) :=
            if String.eqb call "acl_cluster_extension" then ("extension", 2)
            else if String.eqb call "acl_cluster_attach" || String.eqb call "acl_cluster_detach" then ("source", 1)
            else ("setting", 2) in
          name ← item_argument (arguments f) index; Ok (kind +:+ ":" +:+ name, "cluster")
      | _ => cast_failed
      end
  | _ => cast_failed
  end.
Definition add_entry (e : Entry) : G () := in_ledger (λ l, set_entries (a_trail l ++ [e]) l).
Definition with_last (f : Entry → Entry) (l : ledger) : ledger :=
  match List.last (map Some (a_trail l)) None with
  | Some last => set_entries (removelast (a_trail l) ++ [f last]) l
  | None => l
  end.
Definition text_hash (s : Statements.SQLStatement) : N := StatementTextHash (gw_text s).
Definition note_call (statement : string) (object : Statements.SQLStatement → outcome (string * string))
    (s : Statements.SQLStatement) : G () :=
  add_entry (new_entry statement);;
  touched ← glift (object s);
  in_ledger (with_last (λ e, entry_ends true (text_hash s) (entry_touched [touched] [] [] e))).
(** [NoteManagement]: one entry per call, found again by the call's own text *)
Definition NoteManagement : list Statements.SQLStatement → G () :=
  giter (note_call "manage" (λ s,
    let call := MgmtCallName s in
    if StartsWith call "acl_cluster_" then ClusterAuditObject s call else Ok (call, "manage"))).

(** [RightsDetail]: the strongest of what an administrator holds *)
Definition RightsDetail (r : AdminRights.AdminRights) : string :=
  if passthrough r then "passthrough"
  else if operate r && negb (Policy r) && bool_decide (catalogs r = []) then (if cluster r then "cluster" else "operate")
  else if MayAdminister (Functions gw_registry) r then "manage"
  else if observe r then "observe" else "none".
(** The authorizer's four turns *)
Definition view_as_refusal (r : AdminRights.AdminRights) (role : string) : string :=
  ViewAsRefusal r role (gw_role_defined role) gw_rights_of.
Definition authorized (calls : list Statements.SQLStatement) (r : AdminRights.AdminRights) (who : Principal) : outcome () :=
  _ ← AuthorizeMgmt gw_registry calls r;
  _ ← AuthorizeRoleTargets gw_read_object gw_mappings gw_clients gw_privileged (view_as_refusal r) calls r;
  _ ← AuthorizeBodies gw_walk (gw_resolve who) calls r;
  AuthorizeSources gw_readings gw_catalog gw_attached gw_origin gw_columns gw_references gw_reference gw_split calls r.
Definition everything : AdminRights.AdminRights := {|
  passthrough := true; unrestricted_manage := true; observe := true; operate := true; cluster := true;
  unknown_scope := false; catalogs := []; AdminRights.platform := ∅ |}.
Definition rights_of (who : Principal) : G AdminRights.AdminRights :=
  st ← ggets g_store; gask (@AdminRightsOf (gw_source st) who).
(** An administrator that is known: whose batch it is, what it holds - or no administrator *)
Definition administrator (c : client) : G AdminRights.AdminRights :=
  rights ← rights_of (who c);
  in_ledger (set_detail (RightsDetail rights));;
  if MayAdminister (Functions gw_registry) rights then mret rights
  else gdeny MGMT_UNAUTHORIZED "acl admin: the principal has no ACL administration scope".

(** ** View-as *)
Definition RefuseInViewAs {A} : G A :=
  gdeny STATEMENT_TYPE "acl: a view-as session reads metadata only - RESET SESSION VIEW AS leaves it".
(** [ViewAsOf]: the role the session is viewed as, and why the mode can no longer be kept *)
Definition ViewAsOf (prefix : AclPrefix) : G (string * string) :=
  if negb (session_kind (p_kind prefix)) then mret (EmptyString, EmptyString)
  else
    ref ← ref_of (p_value prefix);
    match ref with
    | None => mret (EmptyString, EmptyString)
    | Some ref =>
        role ← ggets (λ g, SessionViewAsOf (r_id ref) (g_store g));
        if is_empty role then mret (EmptyString, EmptyString)
        else
          viewer ← gate_principal (p_value prefix);
          match viewer with
          | inr _ => mret (EmptyString, EmptyString)
          | inl viewer => rights ← rights_of viewer; mret (role, view_as_refusal rights role)
          end
    end.
Definition OnlyViewAsCalls (calls : list Statements.SQLStatement) : bool :=
  forallb (λ s, String.eqb (MgmtCallName s) "acl_session_view_as") calls
  && negb (match calls with [] => true | _ => false end).

(** ** The batch's ways through *)

(** Management, compiled and authorized as a whole *)
Definition authorize_calls (calls : list Statements.SQLStatement) (c : client) (rights : AdminRights.AdminRights)
    : G (list sent_statement) :=
  NoteManagement calls;;
  in_ledger (set_phase MGMT_UNAUTHORIZED);;
  glift (authorized calls rights (who c));;
  mret (map Compiled calls).
Definition managed (prefix : AclPrefix) (viewing : string) (c : client) (rights : AdminRights.AdminRights)
    : G (list sent_statement) :=
  in_ledger (set_phase PARSE);;
  current ← ggets (λ g, a_session (g_ledger g));
  calls ← glift (ParseMgmtBatch gw_registry gw_modules (p_rest prefix) current);
  gwhen (negb (is_empty viewing) && negb (OnlyViewAsCalls calls)) RefuseInViewAs;;
  authorize_calls calls c rights.
(** GRANT / REVOKE SECRET: the secrets service's own calls *)
Definition secrets_batch (prefix : AclPrefix) : G (list sent_statement) :=
  in_ledger (set_phase PARSE);;
  st ← ggets g_store;
  calls ← gask (ParseSecretsBatch (@SecretService (gw_source st)) (p_rest prefix));
  giter (note_call "secrets" (λ s, Ok (MgmtCallName s, "secrets"))) calls;;
  mret (map Compiled calls).

(** A marked ATTACH and the call that names its source *)
Fixpoint find_text (pattern text : string) : option nat :=
  if String.prefix pattern text then Some 0
  else match text with EmptyString => None | String _ text => S <$> find_text pattern text end.
(** [LineageIdentityClean] *)
Definition scheme_char (c : ascii) : bool := isalnum c || existsb (Ascii.eqb c) ["+"; "-"; "."]%char.
Definition identity_char (c : ascii) : bool :=
  negb (existsb (Ascii.eqb c) ["@"; "?"; "#"; "\"; "%"]%char) && (32 <? nat_of_ascii c) && negb (nat_of_ascii c =? 127).
Definition LineageIdentityClean (identity : string) : bool :=
  match find_text "://" identity with
  | None => false
  | Some scheme =>
      negb (scheme =? 0) && (scheme + 3 <? String.length identity)
      && string_forallb scheme_char (string_take scheme identity) && string_forallb identity_char identity
      && negb (starts_with ["/"%char] (string_drop (scheme + 3) identity))
  end.
Definition LineageIdentityRefusal (identity : string) : string :=
  match find_text "://" identity with
  | None => "the identity is a source's address, <scheme>://<host:port>[/<database>] (OpenLineage's naming)"
  | Some _ =>
      if LineageIdentityClean identity then EmptyString
      else "the identity is a source's name, <scheme>://<host[:port]>[/<path>] - never a credential: no "
           +:+ "user:password@, ?, #, %, \, spaces or control characters"
  end.
Definition with_query (text : string) (s : Parsed) : Parsed := {|
  by_platform := {| Statements.body := Statements.body (by_platform s); Statements.query := text;
                    Statements.named_param_map := Statements.named_param_map (by_platform s);
                    Statements.has_anonymous_parameters := Statements.has_anonymous_parameters (by_platform s);
                    Statements.stmt_location := Statements.stmt_location (by_platform s) |};
  by_rewriter := with_text text (by_rewriter s); attach_alias := attach_alias s |}.
Definition attach_segment (foreign : bool) (segment : AttachLineageSegment) : outcome (list sent_statement) :=
  statements ← gw_parse foreign (seg_text segment);
  if negb (seg_marked segment) then Ok (map AsWritten statements)
  else
    match statements with
    | [statement] =>
        match attach_alias statement with
        | None => Throw "LINEAGE '<identity>' ends an ATTACH statement"
        | Some alias =>
            if is_empty alias then Throw "ATTACH … LINEAGE names the source it describes: write AS <alias>"
            else if is_empty (seg_identity segment) then
              Throw "ATTACH … LINEAGE: the identity is empty - leave LINEAGE out instead"
            else if negb (is_empty (LineageIdentityRefusal (seg_identity segment))) then
              Throw ("ATTACH … LINEAGE: " +:+ LineageIdentityRefusal (seg_identity segment))
            else Ok [AsWritten (with_query (seg_original segment) statement);
                     Compiled (MakeAdminCall gw_registry "acl_lineage_source" [Text alias; Text (seg_identity segment)])]
        end
    | _ => Throw "LINEAGE '<identity>' ends an ATTACH statement"
    end.
(** [ParseAttachLineage]: [None] leaves the text to the native parser *)
Definition ParseAttachLineage (foreign : bool) (text : string) : outcome (option (list sent_statement)) :=
  if negb (MayCarryAttachLineage text) || gw_foreign then Ok None
  else
    match SplitAttachLineage text with
    | None => Ok None
    | Some segments => statements ← omapM (attach_segment foreign) segments; Ok (Some (concat statements))
    end.
Definition sent_hash (s : sent_statement) : N :=
  match s with
  | Rewritten s => StatementTextHash (statement_text s)
  | Compiled s => text_hash s
  | AsWritten s => StatementTextHash (Statements.query (by_platform s))
  end.
(** Native SQL, outside the virtual catalog: one entry per statement *)
Definition native_hash (statements : list sent_statement) : G () :=
  match statements with
  | [] => mret ()
  | first :: more =>
      in_ledger (with_last (λ e, entry_ends (entry_executes e) (sent_hash first) e));;
      giter (λ s, add_entry (entry_ends true (sent_hash s) (new_entry "native"))) more
  end.
Definition native (prefix : AclPrefix) (rights : AdminRights.AdminRights) : G (list sent_statement) :=
  add_entry (new_entry "native");;
  gwhen (negb (passthrough rights))
    (gdeny MGMT_UNAUTHORIZED "acl admin: native SQL outside the virtual catalog requires a passthrough scope");;
  in_ledger (set_phase PARSE);;
  attached ← glift (ParseAttachLineage true (p_rest prefix));
  statements ← match attached with
               | Some statements => mret statements
               | None => statements ← glift (gw_parse true (p_rest prefix)); mret (map AsWritten statements)
               end;
  native_hash statements;;
  mret statements.

(** The rewriter, under a principal, with the store's answers as they are now *)
Definition batch_of (c : client) (viewing origins : bool) : Batch := {|
  RewriteData.platform := gw_registry; principal := c; metadata_only := viewing; TempScanContext := gw_temp;
  listening := true; noting_origins := origins |}.
Definition rewritten_under (c : client) (viewing origins : bool) (statements : list Tree.SQLStatement)
    : G (list sent_statement) := λ g,
  let source := gw_source (g_store g) in
  let batch := batch_of c viewing origins in
  let '(s, r) := RewriteStatements (PS:=source) (B:=batch) statements (initial (PS:=source) (B:=batch) (g_note g) gw_factory) in
  let g := with_note (last_deny_reason s)
             (with_ledger (set_entries (RewriteData.entries s ++ option_list (RewriteData.trail s)) (g_ledger g)) g) in
  (g, match r with
      | inl statements => inl (map Rewritten statements)
      | inr (Thrown _ message) => inr message
      | inr Exhausted => inr EmptyString
      end).

(** A batch of platform calls, compiled: each statement's call, or none *)
Definition compiled_call (s : Parsed) : outcome (option Statements.SQLStatement) :=
  match CompilePlatformCall gw_registry (by_platform s) with
  | Ok compiled => Ok (option_map Statements.body compiled)
  | Throw message => Throw message
  end.
Definition compile_calls (statements : list Parsed) : outcome (list (option Statements.SQLStatement)) :=
  omapM compiled_call statements.
Definition mixed {A} : G A :=
  gdeny STATEMENT_TYPE ("acl admin: a batch mixing management statements and queries is refused - send each kind in a batch "
                        +:+ "of its own").
(** A call written wrongly: a management refusal of a principal that is known, if it is *)
Definition wrong_call {A} (prefix : AclPrefix) (message : string) : G A :=
  in_ledger (set_kind "admin" "manage");;
  found ← gtry (ResolvePrincipal prefix);
  match found with inl c => in_ledger (set_who (who c)) | inr _ => mret () end;;
  gdeny MGMT_UNAUTHORIZED message.
(** [None]: the batch calls nothing of the platform's *)
Definition platform_batch (prefix : AclPrefix) (viewing : string) (statements : list Parsed)
    : G (option (list sent_statement)) :=
  match compile_calls statements with
  | Throw message => wrong_call prefix message
  | Ok compiled =>
      let calls := omap (λ call : option Statements.SQLStatement, call) compiled in
      match calls with
      | [] => mret None
      | _ =>
          if negb (length calls =? length statements) then mixed
          else
            gwhen (negb (is_empty viewing) && negb (OnlyViewAsCalls calls))
              (in_ledger (set_kind "admin" "manage");; RefuseInViewAs);;
            in_ledger (set_kind "admin" "manage");;
            in_ledger (set_phase PRINCIPAL);;
            c ← ResolvePrincipal prefix;
            in_ledger (set_who (who c));;
            door ← ggets (λ g, Sessions.SessionDoorOf (session c) (g_store g));
            gwhen (negb (is_empty (session c)) && String.eqb door "quack")
              (gdeny NO_ACCESS ("acl_rewrite: the platform catalog is not served on the quack door - write the management "
                                +:+ "statement itself (GRANT ..., CREATE ROLE ...)"));;
            rights ← administrator c;
            sent ← authorize_calls calls c rights;
            mret (Some sent)
      end
  end.

(** The one INSERT or CREATE TABLE a door composes for its ingest *)
Definition ingest_form (statements : list Parsed) : bool :=
  match statements with
  | [s] => match by_rewriter s with
           | Tree.InsertStatement _ _ | Tree.CreateStatement _ (Some (CreateTable _ _ _ _)) => true
           | _ => false
           end
  | _ => false
  end.
Definition for_ingest (stream : string) (arrow : bool) (c : client) : client := {|
  RewriteData.who := who c; session := session c; session_connection := session_connection c; ingest_stream := stream;
  arrow_ingest := arrow |}.
(** The viewed role, on the session's connection *)
Definition viewed_as (viewing : string) (c : client) : G client :=
  viewed ← VerifyPrincipal false viewing;
  match viewed with
  | None => RefuseInViewAs
  | Some role =>
      in_ledger (set_detail "view_as");;
      mret {| RewriteData.who := role; session := session c; session_connection := session_connection c;
              ingest_stream := EmptyString; arrow_ingest := false |}
  end.
Definition query_batch (prefix : AclPrefix) (viewing lost : string) (statements : list Parsed) : G (list sent_statement) :=
  in_ledger (set_phase PRINCIPAL);;
  c ← ResolvePrincipal prefix;
  in_ledger (set_who (who c));;
  gwhen (negb (is_empty lost))
    (gdeny MGMT_UNAUTHORIZED ("acl: the view-as mode can no longer be kept (" +:+ lost +:+ ") - connect again"));;
  c ← (if is_empty viewing then mret c else viewed_as viewing c);
  c ← (if bool_decide (p_kind prefix = Some Prefix.SESSION) && DrainsQuackClientStream (p_rest prefix) then
         stream ← glift (ExtractStreamId (p_rest prefix)); mret (for_ingest stream (arrow_ingest c) c)
       else mret c);
  c ← (if bool_decide (p_kind prefix = Some Prefix.INGEST) then
         in_ledger (set_detail "ingest");;
         gwhen (negb (ingest_form statements))
           (gdeny STATEMENT_TYPE "acl_rewrite: the ingest prefix carries exactly one INSERT or CREATE TABLE statement");;
         mret (for_ingest (ingest_stream c) true c)
       else mret c);
  in_ledger (set_phase POLICY_ERROR);;
  door ← ggets (λ g, a_door (g_ledger g));
  rewritten_under c (negb (is_empty viewing)) (String.eqb door "flight") (map by_rewriter statements).
Definition queried (prefix : AclPrefix) (heads : list (list HeadToken)) (viewing lost : string) : G (list sent_statement) :=
  in_ledger (set_phase PARSE);;
  let one_use := match heads with [head] => first_is "use" head | _ => false end in
  statements ← glift (gw_parse false (if one_use then UseSchemaAsSet (p_rest prefix) else p_rest prefix));
  calls ← (if bool_decide (p_kind prefix = Some Prefix.ROLE) || bool_decide (p_kind prefix = Some Prefix.TOKEN)
              || bool_decide (p_kind prefix = Some Prefix.SESSION)
           then platform_batch prefix viewing statements else mret None);
  match calls with
  | Some sent => mret sent
  | None => query_batch prefix viewing lost statements
  end.

(** ** [Prefixed]: one prefixed batch *)
Definition principal_prefix (prefix : AclPrefix) : bool :=
  bool_decide (p_kind prefix = Some Prefix.ROLE) || bool_decide (p_kind prefix = Some Prefix.TOKEN)
  || bool_decide (p_kind prefix = Some Prefix.SESSION).
Definition anonymous (prefix : AclPrefix) : bool := bool_decide (p_kind prefix = Some Prefix.ADMIN).
(** What the batch is: an unmarked management statement after an administrator's or a principal's head is one *)
Definition mode_of (prefix : AclPrefix) (heads : list (list HeadToken)) : Mode :=
  if (anonymous prefix || principal_prefix prefix) && negb (p_marked prefix) && StartsWithMgmt (keywords gw_modules) heads
  then MANAGE_ else p_mode prefix.
(** Who leaves the virtual catalog, and with what rights *)
Definition admitted_to (prefix : AclPrefix) (mode : Mode) (secrets : bool) : G (client * AdminRights.AdminRights) :=
  if anonymous prefix then
    in_ledger (set_door "admin");;
    in_ledger (set_detail "anonymous");;
    if gw_anonymous_admin then mret (plain_client no_principal, everything)
    else gdeny MGMT_UNAUTHORIZED
           ("acl admin: a bare ACL ADMIN is disabled - authenticate the principal (ACL TOKEN '<jwt>' ACL ...) or SET GLOBAL "
            +:+ "acl_allow_anonymous_admin=true")
  else if secrets then
    in_ledger (set_phase PRINCIPAL);;
    c ← ResolvePrincipal prefix;
    in_ledger (set_who (who c));;
    in_ledger (set_detail "secrets");;
    st ← ggets g_store;
    holds ← gask (@PrincipalMainCap (gw_source st) (who c) "secrets");
    if (holds : bool) then mret (c, everything)
    else gdeny CAPABILITY ("acl: managing secrets needs the secrets capability - granted by name on the principal's MAIN "
                           +:+ "catalog grant, never implied")
  else if bool_decide (mode = Prefix.QUERY) then mret (plain_client no_principal, everything)
  else
    in_ledger (set_phase PRINCIPAL);;
    c ← ResolvePrincipal prefix;
    in_ledger (set_who (who c));;
    rights ← administrator c;
    mret (c, rights).
(** Once the role its session is viewed as is known *)
Definition viewed_batch (prefix : AclPrefix) (heads : list (list HeadToken)) (mode : Mode) (viewing lost : string)
    : G (list sent_statement) :=
  let secrets := bool_decide (mode = MANAGE_) && IsSecretsStart heads in
  gwhen (negb (is_empty viewing)
         && (secrets || bool_decide (mode = Prefix.NATIVE) || bool_decide (p_kind prefix = Some Prefix.INGEST)))
    RefuseInViewAs;;
  admission ← admitted_to prefix mode secrets;
  if secrets then secrets_batch prefix
  else
    match mode with
    | MANAGE_ => managed prefix viewing admission.1 admission.2
    | Prefix.NATIVE => native prefix admission.2
    | Prefix.QUERY => queried prefix heads viewing lost
    end.
Definition Prefixed (prefix : AclPrefix) : G (list sent_statement) :=
  let heads := Heads (p_rest prefix) 6 in
  let mode := mode_of prefix heads in
  let querying := bool_decide (mode = Prefix.QUERY) in
  gwhen (bool_decide (mode = MANAGE_) || principal_prefix prefix && querying) (glift (RefuseRepeatedPrefix heads));;
  gwhen (negb querying)
    (in_ledger (set_kind "admin" (if bool_decide (mode = MANAGE_) then "manage" else "native")));;
  gwhen (principal_prefix prefix && querying && BatchHasMgmtStatement (keywords gw_modules) heads) mixed;;
  view ← ViewAsOf prefix;
  viewed_batch prefix heads mode view.1 view.2.

(** ** A streamed insert nobody prefixed ([DrainStreamUnderPrincipal]) *)
Definition REFUSED : string := "acl: a streamed insert carries no principal, so it would be written outside the policy".
Definition refused_stream {A} (why : string) : G A := graise (REFUSED +:+ " (" +:+ why +:+ ")").
Definition DrainStreamUnderPrincipal (query : string) : G (list sent_statement) :=
  in_ledger (set_phase PRINCIPAL);;
  stream ← glift (ExtractStreamId query);
  gwhen (is_empty stream) (refused_stream "its stream is not one this door opened");;
  match find_text ":" stream with
  | None | Some 0 => refused_stream "its stream names no connection"
  | Some colon =>
      bound ← ggets (λ g, SessionHandleFor (string_take colon stream) (g_store g));
      match bound with
      | None => refused_stream "its connection has no session"
      | Some handle =>
          OnSession handle;;
          found ← gate_principal handle;
          match found with
          | inr reason => refused_stream ("its session is " +:+ (if is_empty reason then "not usable" else reason))
          | inl who =>
              id ← ggets (λ g, a_session (g_ledger g));
              viewing ← ggets (λ g, SessionViewAsOf id (g_store g));
              gwhen (negb (is_empty viewing)) RefuseInViewAs;;
              in_ledger (set_who who);;
              in_ledger (set_phase PARSE);;
              statements ← glift (gw_parse false query);
              in_ledger (set_phase POLICY_ERROR);;
              rewritten_under {| RewriteData.who := who; session := id; session_connection := false;
                                 ingest_stream := stream; arrow_ingest := false |} false false (map by_rewriter statements)
          end
      end
  end.

(** ** [AclParserOverride] *)

(** What duckdb is told: go on with the next parser, or these statements *)
Inductive override_result := Declined | Statements_ (statements : list sent_statement).
Definition answered (m : G (list sent_statement)) : G override_result := statements ← m; mret (Statements_ statements).
(** [in_parse]: the text is this override's own inner parse *)
Definition AclParserOverride (in_parse : bool) (text : string) : G override_result :=
  if in_parse then mret Declined
  else
    match ReadAclPrefix gw_connected text with
    | Throw message => begin_audit;; Denied message;; graise message
    | Ok prefix =>
        match p_kind prefix with
        | None =>
            if gw_door_open && DrainsQuackClientStream text then
              begin_audit;;
              in_ledger (set_detail "drain");;
              audited_by (answered (DrainStreamUnderPrincipal text))
            else
              gmodify (with_profile [None]);;
              attached ← glift (ParseAttachLineage true text);
              mret (match attached with Some statements => Statements_ statements | None => Declined end)
        | Some _ =>
            begin_audit;;
            in_ledger (set_trace_of (p_correlation_id prefix) (p_traceparent prefix));;
            gwhen (session_kind (p_kind prefix)) (OnSession (p_value prefix));;
            audited_by (answered (Prefixed prefix))
        end
    end.
End override.
