(* ===== verification/OverrideSpec.v ===== *)
(** * Who may send what

    The specification the parser override is held to: the principal a prefix names as the node's sessions, tokens and roles
    stand when the batch arrives, who may leave the virtual catalog, and the ways a batch's statements may have come to
    ([mediated]); with it, a small logic of runs over the override's monad, for what its checks leave of the sessions. *)
From S2P Require Import MgmtBatch.
From S2P Require Import Prelude NamePath FieldPaths FunctionCategories PolicyTypes AdminRights AuditTrail SessionData Notifier Sessions Prefix Heads.
From S2P Require Import Statements Platform Token Tree RewriteData RewriteDdl PolicyCache RewriterRuns RewriterSpec BatchSpec Override.

Section specification.
Context `{SU : StringUtil} `{EN : Engine} `{JR : JsonReader} `{P : Parsing} `{TK : Tokenizer} `{SP : Splitter} `{GW : Gateway}.

(** ** The sessions while a batch is decided *)

(** A session that may still be used *)
Definition live_session (s : Session) : Prop := expired gw_settings s = false ∧ stale gw_settings s = false.
(** What checks leave of a session: itself, or - it was live - used now *)
Definition checked (before after : Session) : Prop :=
  after = before ∨ live_session before ∧ after = set_last_used (now gw_settings) before.
(** What checks leave of a store: no session that was not there, no binding changed, no token *)
Definition later (before after : store) : Prop :=
  tokens after = tokens before ∧ session_bindings after = session_bindings before
  ∧ ∀ handle s, sessions after !! handle = Some s → ∃ s0, sessions before !! handle = Some s0 ∧ checked s0 s.

(** ** Whom a prefix names *)

(** A policy catalog's default claims of its roles, when there is a catalog *)
Definition claimed (who with_claims : Principal) : Prop :=
  match Sessions.CatalogLoadRoleClaims gw_verifier with
  | Some load => load who = Ok with_claims
  | None => with_claims = who
  end.
(** A token verified by the issuer it names, the development stub's, a role by itself *)
Inductive vouched (st : store) : bool → string → Principal → Prop :=
  | vouched_by_issuer value issuer who expires_at :
      Sessions.LooksLikeJwt gw_verifier value = Some issuer → Sessions.IdentityError gw_verifier = None →
      Sessions.VerifyJwtPrincipal gw_verifier value issuer = Verified who expires_at → vouched st true value who
  | vouched_by_stub value who :
      Sessions.LooksLikeJwt gw_verifier value = None → ci_find value (tokens st) = Some who → vouched st true value who
  | vouched_role value :
      vouched st false value {| issuer := EmptyString; subject := EmptyString; roles := [value];
                                claims := default [] (ci_find value gw_role_claims) |}.
Definition verified (st : store) (is_token : bool) (value : string) (who : Principal) : Prop :=
  ∃ found, vouched st is_token value found ∧ claimed found who.
(** The principal, and the session it has a connection through *)
Inductive names (st : store) (prefix : AclPrefix) : client → Prop :=
  | names_session s :
      session_kind (p_kind prefix) = true → sessions st !! p_value prefix = Some s → live_session s →
      names st prefix {| RewriteData.who := SessionData.principal s; session := SessionData.id s;
                         session_connection := bool_decide (p_kind prefix = Some Prefix.SESSION);
                         ingest_stream := EmptyString; arrow_ingest := false |}
  | names_principal who :
      session_kind (p_kind prefix) = false → verified st (bool_decide (p_kind prefix = Some Prefix.TOKEN)) (p_value prefix) who →
      names st prefix (plain_client who).
(** The role a prefix's session is viewed as, empty for none *)
Definition view_of (st : store) (prefix : AclPrefix) : string :=
  if session_kind (p_kind prefix) then
    match sessions st !! p_value prefix with Some s => SessionViewAsOf (SessionData.id s) st | None => EmptyString end
  else EmptyString.

(** ** Who may leave the virtual catalog *)
Definition administers (st : store) (who : Principal) (rights : AdminRights.AdminRights) : Prop :=
  ∃ st', later st st' ∧ @AdminRightsOf (gw_source st') who = Answered rights
         ∧ MayAdminister (Functions gw_registry) rights = true.
Inductive admitted (st : store) (prefix : AclPrefix) : Principal → AdminRights.AdminRights → Prop :=
  | admitted_anonymously :
      p_kind prefix = Some Prefix.ADMIN → gw_anonymous_admin = true → admitted st prefix no_principal everything
  | admitted_administrator c rights :
      names st prefix c → administers st (who c) rights → admitted st prefix (who c) rights.
(** The secrets service, on its own capability or the anonymous switch *)
Inductive keeps_secrets (st : store) (prefix : AclPrefix) : Prop :=
  | keeps_anonymously : p_kind prefix = Some Prefix.ADMIN → gw_anonymous_admin = true → keeps_secrets st prefix
  | keeps_by_capability c st' :
      names st prefix c → later st st' → @PrincipalMainCap (gw_source st') (who c) "secrets" = Answered true →
      keeps_secrets st prefix.

(** ** What a batch may come to *)

(** A client as the rewriter hears of it: a stream it may drain only where the text calls the drain, an Arrow ingest only
    behind the ingest head and only as one INSERT or CREATE TABLE *)
Inductive carries (prefix : AclPrefix) (statements : list Parsed) (c : client) : client → Prop :=
  | carries_nothing : p_kind prefix ≠ Some Prefix.INGEST → carries prefix statements c c
  | carries_stream stream :
      p_kind prefix = Some Prefix.SESSION → DrainsQuackClientStream (p_rest prefix) = true →
      ExtractStreamId (p_rest prefix) = Ok stream → carries prefix statements c (for_ingest stream (arrow_ingest c) c)
  | carries_ingest :
      p_kind prefix = Some Prefix.INGEST → ingest_form statements = true →
      carries prefix statements c (for_ingest (ingest_stream c) true c).
(** Every statement one the rewriter may send under the client, with the store's answers at the time *)
Definition rewritten_for (st : store) (c : client) (viewing : bool) (l : list Tree.SQLStatement) : Prop :=
  ∃ st' origins, later st st' ∧ Forall (@sent SU P (gw_source st') (batch_of c viewing origins)) l.
(** The calls a management text or a batch of platform calls stands for; native statements *)
Definition called (text : string) (calls : list Statements.SQLStatement) : Prop :=
  (∃ current, ParseMgmtBatch gw_registry gw_modules text current = Ok calls)
  ∨ ∃ written statements, gw_parse false written = Ok statements ∧ (written = text ∨ written = UseSchemaAsSet text)
                          ∧ compile_calls statements = Ok (map Some calls).
Definition written_natively (text : string) (statements : list sent_statement) : Prop :=
  ParseAttachLineage true text = Ok (Some statements)
  ∨ ∃ parsed, gw_parse true text = Ok parsed ∧ statements = map AsWritten parsed.
Inductive mediated (st : store) (prefix : AclPrefix) (viewing : string) : list sent_statement → Prop :=
  (* a query, under the principal the prefix names *)
  | mediated_query statements c c' l :
      viewing = EmptyString → names st prefix c → carries prefix statements c c' →
      rewritten_for st c' false l → mediated st prefix viewing (map Rewritten l)
  (* the metadata the session's viewed role would see *)
  | mediated_view statements c role c' l :
      viewing ≠ EmptyString → names st prefix c → verified st false viewing role →
      carries prefix statements {| RewriteData.who := role; session := session c; session_connection := session_connection c;
                                   ingest_stream := EmptyString; arrow_ingest := false |} c' →
      rewritten_for st c' true l → mediated st prefix viewing (map Rewritten l)
  (* calls of the text an administrator may make, in a view-as session only those that leave it *)
  | mediated_calls who rights calls :
      called (p_rest prefix) calls → admitted st prefix who rights → authorized calls rights who = Ok () →
      (viewing = EmptyString ∨ OnlyViewAsCalls calls = true) → mediated st prefix viewing (map Compiled calls)
  (* the secrets service's calls *)
  | mediated_secrets st' calls :
      viewing = EmptyString → keeps_secrets st prefix → later st st' →
      ParseSecretsBatch (@SecretService (gw_source st')) (p_rest prefix) = Answered calls →
      mediated st prefix viewing (map Compiled calls)
  (* native SQL, as it was written *)
  | mediated_native who rights statements :
      written_natively (p_rest prefix) statements → viewing = EmptyString → admitted st prefix who rights → passthrough rights = true →
      mediated st prefix viewing statements.

(** A streamed insert: under the live session its connection is bound to *)
Inductive drained (st : store) (text : string) : list sent_statement → Prop :=
  | drained_under colon stream handle s l :
      ExtractStreamId text = Ok stream → stream ≠ EmptyString → find_text ":" stream = Some (S colon) →
      session_bindings st !! string_take (S colon) stream = Some handle →
      sessions st !! handle = Some s → live_session s →
      (∃ st', later st st' ∧ SessionViewAsOf (SessionData.id s) st' = EmptyString) →
      rewritten_for st {| RewriteData.who := SessionData.principal s; session := SessionData.id s; session_connection := false;
                          ingest_stream := stream; arrow_ingest := false |} false l →
      drained st text (map Rewritten l).

(** ** What the audit hears *)

(** The texts the override decides; the trace their decision is told under *)
Definition decides (text : string) : bool :=
  match ReadAclPrefix gw_connected text with
  | Throw _ => true
  | Ok prefix => bool_decide (p_kind prefix ≠ None) || gw_door_open && DrainsQuackClientStream text
  end.
Definition trace_given (text : string) : string * string :=
  match ReadAclPrefix gw_connected text with
  | Ok prefix => if bool_decide (p_kind prefix = None) then (EmptyString, EmptyString)
                 else (p_correlation_id prefix, p_traceparent prefix)
  | Throw _ => (EmptyString, EmptyString)
  end.
Definition told_under (text : string) (e : AuditEvent) : Prop := (ev_correlation_id e, ev_traceparent e) = trace_given text.
(** An entry of the batch, allowed; a refusal with its code and what its message may say *)
Definition tells_entry (entry : Entry) (e : AuditEvent) : Prop :=
  ev_allowed e = true ∧ ev_reason_code e = EmptyString ∧ ev_statement e = entry_statement entry
  ∧ ev_objects e = entry_objects entry.
Definition tells_refusal (message : string) (e : AuditEvent) : Prop :=
  ev_allowed e = false ∧ ev_reason_code e ≠ EmptyString ∧ ev_reason e = AuditReasonText (ev_reason_code e) message.
End specification.
