(* ===== verification/OverrideLaws.v ===== *)
(** * The override mediates, and tells

    Whatever the override answers for a prefixed text came through one of the ways of [OverrideSpec.mediated]
    ([prefixed_batches_are_mediated]); a streamed insert nobody prefixed goes under its session or not at all
    ([drains_go_under_their_session]); each decision is told to the audit ([every_decision_is_told]). *)
From S2P Require Import MgmtBatch.
From S2P Require Import Prelude NamePath FieldPaths FunctionCategories PolicyTypes AdminRights AuditTrail SessionData Notifier Sessions SessionLaws.
From S2P Require Import Prefix Heads HeadsLaws Statements Platform Token Tree RewriteData RewriteDdl PolicyCache RewriterRuns RewriterSpec BatchSpec BatchLaws.
From S2P Require Import Override OverrideSpec.

Section laws.
Context `{SU : StringUtil} `{EN : Engine} `{JR : JsonReader} `{PL : ParsingLaws} `{TK : Tokenizer} `{SP : Splitter} `{GW : Gateway}.

(** ** The sessions while a batch is decided *)
Lemma later_same st st' :
  sessions st' = sessions st → session_bindings st' = session_bindings st → tokens st' = tokens st → later st st'.
Proof. intros Hs Hb Ht. split_and!; [done..|]. intros handle s. rewrite Hs. exists s. split; [done|by left]. Qed.
Lemma later_refl st : later st st.
Proof. by apply later_same. Qed.
Lemma checked_trans a b c : checked a b → checked b c → checked a c.
Proof. intros [->|[Ha ->]] [->|[Hb ->]]; by [left|right|right]. Qed.
Lemma later_trans a b c : later a b → later b c → later a c.
Proof.
  intros (Ht & Hb & Hs) (Ht' & Hb' & Hs'). split_and!; [congruence..|]. intros handle s (s1 & H1 & Hc1)%Hs'.
  destruct (Hs _ _ H1) as (s0 & H0 & Hc0). exists s0. split; [done|]. by eapply checked_trans.
Qed.
Lemma checked_live s0 s :
  checked s0 s → live_session s →
  live_session s0 ∧ SessionData.principal s = SessionData.principal s0 ∧ SessionData.id s = SessionData.id s0.
Proof. by intros [->|[Hl ->]]. Qed.
Lemma later_flush observed st st' : later st st' → later st (Flush observed st').
Proof. intros (Ht & Hb & Hs). rewrite Flush_eq. by split_and!. Qed.
Lemma later_count st result : later st (CountJwt gw_audited result st).
Proof. rewrite /CountJwt. case_match; by apply later_same. Qed.
Lemma later_end st handle s how :
  later st (end_seat gw_levels gw_blank gw_audited gw_level gw_settings handle s how st).
Proof.
  assert (Hc : let st' := SessionClosed gw_levels gw_blank gw_audited gw_level gw_settings handle s how st in
    sessions st' = sessions st ∧ session_bindings st' = session_bindings st ∧ tokens st' = tokens st).
  { rewrite /SessionClosed /emit. by repeat case_match. }
  destruct Hc as (Hs & Hb & Ht). split_and!; [done..|]. rewrite /end_seat /= Hs.
  intros h s' [_ Hs']%lookup_delete_Some. exists s'. split; [exact Hs'|by left].
Qed.
Notation checking handle st :=
  (SessionPrincipal gw_levels gw_blank gw_audited gw_level gw_observers gw_settings handle st).
Lemma later_checking handle st : later st (checking handle st).2.
Proof.
  rewrite /SessionPrincipal. destruct (sessions st !! handle) as [s|] eqn:Hs; [|apply later_flush, later_refl].
  destruct (expired gw_settings s) eqn:He; [apply later_flush, later_end|].
  destruct (stale gw_settings s) eqn:Hst; [apply later_flush, later_end|].
  apply later_flush. split_and!; [done..|]. intros h s' Hs'. simpl in Hs'. destruct (decide (handle = h)) as [->|Hne].
  - rewrite lookup_insert decide_True // in Hs'. injection Hs' as <-. exists s. split; [done|by right].
  - rewrite lookup_insert_ne // in Hs'. exists s'. split; [done|by left].
Qed.
(** A check's answer: a live session, or none left there *)
Lemma checking_found handle st who :
  (checking handle st).1 = inl who →
  ∃ s, sessions st !! handle = Some s ∧ live_session s ∧ who = SessionData.principal s
       ∧ sessions (checking handle st).2 !! handle = Some (set_last_used (now gw_settings) s).
Proof.
  rewrite /SessionPrincipal. destruct (sessions st !! handle) as [s|] eqn:Hs; [|done].
  destruct (expired gw_settings s) eqn:He; [done|]. destruct (stale gw_settings s) eqn:Hst; [done|]. intros [= <-].
  exists s. split_and!; [done..|]. rewrite Flush_eq /=. by rewrite lookup_insert decide_True.
Qed.
Lemma checking_gone handle st reason : (checking handle st).1 = inr reason → sessions (checking handle st).2 !! handle = None.
Proof.
  rewrite /SessionPrincipal. destruct (sessions st !! handle) as [s|] eqn:Hs; [|by rewrite Flush_eq].
  destruct (expired gw_settings s) eqn:He; [|destruct (stale gw_settings s) eqn:Hst; [|done]];
    intros _; rewrite Flush_eq /end_seat /SessionClosed /=; apply lookup_delete_eq.
Qed.

(** What holds later held before *)
Lemma later_live st st' handle s :
  later st st' → sessions st' !! handle = Some s → live_session s →
  ∃ s0, sessions st !! handle = Some s0 ∧ live_session s0
        ∧ SessionData.principal s = SessionData.principal s0 ∧ SessionData.id s = SessionData.id s0.
Proof. intros (_ & _ & Hs) (s0 & H0 & Hc)%Hs Hl. exists s0. destruct (checked_live _ _ Hc Hl) as (?&?&?). by split_and!. Qed.
Lemma later_verified st st' is_token value who : later st st' → verified st' is_token value who → verified st is_token value who.
Proof.
  intros (Ht & _) (found & Hv & Hc). exists found. split; [|done]. destruct Hv as [| v w H1 H2 |].
  - by econstructor.
  - apply vouched_by_stub; [done|]. by rewrite -Ht.
  - constructor.
Qed.
Lemma later_names st st' prefix c : later st st' → names st' prefix c → names st prefix c.
Proof.
  intros Hl [s Hk Hs Hlive|who Hk Hv]; [|by apply names_principal, (later_verified _ _ _ _ _ Hl)].
  destruct (later_live _ _ _ _ Hl Hs Hlive) as (s0 & H0 & Hl0 & -> & ->). by apply names_session.
Qed.
Lemma later_administers st st' who rights : later st st' → administers st' who rights → administers st who rights.
Proof. intros Hl (st2 & Hl' & Hr). exists st2. split; [by eapply later_trans|done]. Qed.
Lemma later_admitted st st' prefix who rights : later st st' → admitted st' prefix who rights → admitted st prefix who rights.
Proof.
  intros Hl [? ?|c r Hn Ha]; [by apply admitted_anonymously|].
  eapply admitted_administrator; [by eapply later_names|by eapply later_administers].
Qed.
Lemma later_secrets st st' prefix : later st st' → keeps_secrets st' prefix → keeps_secrets st prefix.
Proof.
  intros Hl [? ?|c st2 Hn Hl' Hc]; [by apply keeps_anonymously|].
  eapply keeps_by_capability; [by eapply later_names|by eapply later_trans|done].
Qed.
Lemma later_rewritten st st' c viewing l : later st st' → rewritten_for st' c viewing l → rewritten_for st c viewing l.
Proof. intros Hl (st2 & origins & Hl' & Hs). exists st2, origins. split; [by eapply later_trans|done]. Qed.

(** ** Runs of the override's monad

    From any state whose sessions checks have left of [base], a run leaves such a state, and its answer, if it has one,
    satisfies [Q]. *)
Definition runs (base : store) {A} (m : G A) (Q : A → Prop) : Prop :=
  ∀ g, later base (g_store g) →
  later base (g_store (m g).1) ∧ match (m g).2 with inl a => Q a | inr _ => True end.

Section logic.
Context (base : store).
Notation runs := (runs base).
Lemma runs_mono {A} (m : G A) (Q R : A → Prop) : runs m Q → (∀ a, Q a → R a) → runs m R.
Proof. intros Hm HQ g Hg. destruct (Hm g Hg) as [Hl Ha]. split; [done|]. destruct (m g).2; auto. Qed.
Lemma runs_ret {A} (a : A) (Q : A → Prop) : Q a → runs (mret a) Q.
Proof. by intros HQ g Hg. Qed.
Lemma runs_bind {A B} (m : G A) (f : A → G B) (Q : A → Prop) R :
  runs m Q → (∀ a, Q a → runs (f a) R) → runs (m ≫= f) R.
Proof.
  intros Hm Hf g Hg. destruct (Hm g Hg) as [Hl Ha]. rewrite /mbind /G_bind.
  destruct (m g) as [g' [a|e]]; [by apply Hf|done].
Qed.
Lemma runs_raise {A} message (Q : A → Prop) : runs (graise message) Q.
Proof. by intros g Hg. Qed.
Lemma runs_gets {A} (f : gate → A) (Q : A → Prop) : (∀ g, later base (g_store g) → Q (f g)) → runs (ggets f) Q.
Proof. intros HQ g Hg. split; [done|]. by apply HQ. Qed.
Lemma runs_modify f (Q : () → Prop) : (∀ g, g_store (f g) = g_store g) → Q () → runs (gmodify f) Q.
Proof. intros Hf HQ g Hg. split; [|done]. by rewrite /= Hf. Qed.
Lemma runs_in_ledger f (Q : () → Prop) : Q () → runs (in_ledger f) Q.
Proof. by apply runs_modify. Qed.
Lemma runs_gnote reason (Q : () → Prop) : Q () → runs (gnote reason) Q.
Proof. by apply runs_modify. Qed.
Lemma runs_deny {A} reason message (Q : A → Prop) : runs (gdeny reason message) Q.
Proof. eapply (runs_bind _ _ (λ _, True)); [by apply runs_gnote|]. intros _ _. apply runs_raise. Qed.
Lemma runs_when b m (Q : () → Prop) :
  (b = true → runs m Q) → (b = false → Q ()) → runs (gwhen b m) Q.
Proof. destruct b; simpl; [auto|]. intros _ HQ. by apply runs_ret, HQ. Qed.
Lemma runs_when_refuse b (m : G ()) : (∀ Q, runs m Q) → runs (gwhen b m) (λ _, b = false).
Proof. intros Hm. apply runs_when; [intros _; apply Hm|done]. Qed.
Lemma runs_lift {A} (o : outcome A) (Q : A → Prop) : (∀ a, o = Ok a → Q a) → runs (glift o) Q.
Proof. destruct o as [a|message]; intros HQ; [by apply runs_ret, HQ|apply runs_raise]. Qed.
Lemma runs_lifted {A} (o : outcome A) : runs (glift o) (λ a, o = Ok a).
Proof. by apply runs_lift. Qed.
Lemma runs_ask {A} (o : answer A) (Q : A → Prop) : (∀ a, o = Answered a → Q a) → runs (gask o) Q.
Proof.
  destruct o as [a|[reason|] binder message]; intros HQ; [by apply runs_ret, HQ|apply runs_deny|apply runs_raise].
Qed.
Lemma runs_asked {A} (o : answer A) : runs (gask o) (λ a, o = Answered a).
Proof. by apply runs_ask. Qed.
Lemma runs_try {A} (m : G A) (Q : A → Prop) :
  runs m Q → runs (gtry m) (λ r, match r with inl a => Q a | inr _ => True end).
Proof.
  intros Hm g Hg. destruct (Hm g Hg) as [Hl Ha]. rewrite /gtry. by destruct (m g).
Qed.
Lemma runs_iter {A} (f : A → G ()) l : (∀ x, runs (f x) (λ _, True)) → runs (giter f l) (λ _, True).
Proof.
  intros Hf. induction l as [|x l IH]; [by apply runs_ret|]. eapply runs_bind; [apply Hf|]. by intros [] _.
Qed.
(** A step whose answer nothing depends on *)
Lemma runs_then {A B} (m : G A) (k : G B) R : runs m (λ _, True) → runs k R → runs (m;; k) R.
Proof. intros Hm Hk. eapply runs_bind; [exact Hm|]. by intros. Qed.
End logic.

Lemma runs_gate_principal base handle :
  runs base (gate_principal handle) (λ r, match r with
    | inl who => ∃ s, sessions base !! handle = Some s ∧ live_session s ∧ who = SessionData.principal s
    | inr _ => True
    end).
Proof.
  intros g Hg. rewrite /gate_principal /in_store.
  pose proof (later_checking handle (g_store g)) as Hl. pose proof (checking_found handle (g_store g)) as Hf.
  destruct (SessionPrincipal _ _ _ _ _ _ handle (g_store g)) as [[who|reason] st]; (split; [by eapply later_trans|]); [|done].
  destruct (Hf who eq_refl) as (s & Hs & Hlive & -> & _). destruct (later_live _ _ _ _ Hg Hs Hlive) as (s0 & ? & ? & -> & _).
  by exists s0.
Qed.
Lemma runs_ref base handle :
  runs base (ref_of handle) (λ r, match r with
    | Some ref => ∃ s, sessions base !! handle = Some s ∧ r_id ref = SessionData.id s
    | None => True
    end).
Proof.
  apply runs_gets. intros g (_ & _ & Hs). rewrite /SessionRefOf. destruct (sessions (g_store g) !! handle) as [s|] eqn:E; [|done].
  destruct (Hs _ _ E) as (s0 & H0 & [->|[_ ->]]); by exists s0.
Qed.

Lemma later_mediated st st' prefix viewing l : later st st' → mediated st' prefix viewing l → mediated st prefix viewing l.
Proof.
  intros Hl [s c c' l0 ? Hn Hc Hr|s c role c' l0 ? Hn Hv Hc Hr|who rights calls ? Ha ? ?|st1 calls ? Hk ? ?|who rights s ? ? Ha ?].
  - eapply mediated_query; [done|by eapply later_names|done|by eapply later_rewritten].
  - eapply mediated_view; [done|by eapply later_names|by eapply later_verified|done|by eapply later_rewritten].
  - eapply mediated_calls; [done|by eapply later_admitted|done..].
  - eapply mediated_secrets; [done|by eapply later_secrets|by eapply later_trans|done].
  - eapply mediated_native; [done..|by eapply later_admitted|done].
Qed.
(** Nobody is named through a session that is gone *)
Lemma gone_is_refused st prefix viewing l :
  session_kind (p_kind prefix) = true → sessions st !! p_value prefix = None → ¬ mediated st prefix viewing l.
Proof.
  intros Hk Hs. assert (Hno : ∀ c, ¬ names st prefix c) by (intros c [? _ ? _|? ? _]; congruence).
  assert (Hadmin : p_kind prefix ≠ Some Prefix.ADMIN) by (intros Hp; by rewrite Hp in Hk).
  intros [|? ? ? ? ? ? Hn|? ? ? ? Ha|? ? ? Ha|? ? ? ? ? Ha]; try by eapply Hno.
  - inversion Ha; by [|eapply Hno].
  - inversion Ha; by [|eapply Hno].
  - inversion Ha; by [|eapply Hno].
Qed.

(** ** The override's parts *)
Lemma runs_count base result (Q : () → Prop) :
  Q () → runs base (gmodify (λ g, with_store (CountJwt gw_audited result (g_store g)) g)) Q.
Proof. intros HQ g Hg. split; [|done]. eapply later_trans; [exact Hg|apply later_count]. Qed.
Lemma runs_vouched base is_token value (Q : option Principal → Prop) :
  (∀ who, vouched base is_token value who → Q (Some who)) → Q None →
  runs base
    (if is_token then
       match Sessions.LooksLikeJwt gw_verifier value with
       | Some issuer =>
           match (match Sessions.IdentityError gw_verifier with
                  | Some message => Unverified no_principal EmptyString message
                  | None => Sessions.VerifyJwtPrincipal gw_verifier value issuer
                  end) with
           | Verified who _ => gmodify (λ g, with_store (CountJwt gw_audited "ok" (g_store g)) g);; mret (Some who)
           | Unverified _ note message =>
               gmodify (λ g, with_store (CountJwt gw_audited "failed" (g_store g)) g);;
               gwhen (negb (is_empty note)) (gmodify (with_note note));; graise message
           end
       | None => ggets (λ g, ci_find value (tokens (g_store g)))
       end
     else
       mret (Some {| issuer := EmptyString; subject := EmptyString; roles := [value];
                     claims := default [] (ci_find value gw_role_claims) |})) Q.
Proof.
  intros HQ Hnone. destruct is_token; [|apply runs_ret, HQ; constructor].
  destruct (Sessions.LooksLikeJwt gw_verifier value) as [issuer|] eqn:Hjwt.
  - assert (Hfailed : ∀ note message, runs base (gmodify (λ g, with_store (CountJwt gw_audited "failed" (g_store g)) g);;
      gwhen (negb (is_empty note)) (gmodify (with_note note));; graise message) Q).
    { intros note message. apply runs_then; [by apply runs_count|]. apply runs_then; [|apply runs_raise].
      apply runs_when; [intros _; by apply runs_modify|done]. }
    destruct (Sessions.IdentityError gw_verifier) eqn:Herr; [apply Hfailed|].
    destruct (Sessions.VerifyJwtPrincipal gw_verifier value issuer) as [who expires|] eqn:Hv; [|apply Hfailed].
    apply runs_then; [by apply runs_count|]. eapply runs_ret, HQ, vouched_by_issuer; done.
  - apply runs_gets. intros g (Ht & _). destruct (ci_find _ _) eqn:Hc; [|done]. apply HQ, vouched_by_stub; [done|by rewrite -Ht].
Qed.
Lemma runs_VerifyPrincipal base is_token value :
  runs base (VerifyPrincipal is_token value) (λ r, match r with Some who => verified base is_token value who | None => True end).
Proof.
  eapply (runs_bind _ _ _ (λ r, match r with Some who => vouched base is_token value who | None => True end));
    [by apply runs_vouched|].
  intros [found|] Hf; [|destruct (Sessions.CatalogLoadRoleClaims gw_verifier); by apply runs_ret].
  rewrite /verified /claimed. destruct (Sessions.CatalogLoadRoleClaims gw_verifier) as [load|].
  - eapply runs_bind; [apply runs_lifted|]. intros who Hw. apply runs_ret. by exists found.
  - apply runs_ret. by exists found.
Qed.
Lemma runs_session base handle {B} (F : string → G B) (K : Principal → option SessionRef → G B) (R : B → Prop) :
  (∀ reason, runs base (F reason) R) →
  (∀ s ref, sessions base !! handle = Some s → live_session s → r_id ref = SessionData.id s →
     runs base (K (SessionData.principal s) (Some ref)) R) →
  runs base (found ← gate_principal handle;
             match found with inr reason => F reason | inl who => ref ← ref_of handle; K who ref end) R.
Proof.
  intros HF HK g Hg. rewrite /gate_principal /in_store /mbind /G_bind.
  pose proof (later_checking handle (g_store g)) as Hl. pose proof (checking_found handle (g_store g)) as Hf.
  destruct (SessionPrincipal _ _ _ _ _ _ handle (g_store g)) as [[who|reason] st]; [|by apply HF, (later_trans _ _ _ Hg)].
  destruct (Hf who eq_refl) as (s & Hs & Hlive & -> & Hafter). rewrite /ref_of /ggets /= /SessionRefOf Hafter /=.
  destruct (later_live _ _ _ _ Hg Hs Hlive) as (s0 & ? & ? & -> & ?).
  eapply (HK s0); [done..|]. by apply (later_trans _ _ _ Hg).
Qed.
Lemma runs_ResolvePrincipal base prefix : runs base (ResolvePrincipal prefix) (names base prefix).
Proof.
  rewrite /ResolvePrincipal. destruct (session_kind (p_kind prefix)) eqn:Hk.
  - apply runs_session; [intros reason; apply runs_deny|]. intros s ref Hs Hlive Hid. apply runs_ret. rewrite Hid.
    by apply names_session.
  - eapply runs_bind; [apply runs_VerifyPrincipal|]. intros [who|] Hv; [|apply runs_deny]. apply runs_ret.
    by apply names_principal.
Qed.
Lemma runs_rights_of base who :
  runs base (rights_of who) (λ rights, ∃ st, later base st ∧ @AdminRightsOf (gw_source st) who = Answered rights).
Proof.
  eapply (runs_bind _ _ _ (λ st, later base st)); [apply runs_gets; by intros|]. intros st Hst.
  apply runs_ask. by exists st.
Qed.
Lemma runs_administrator base c : runs base (administrator c) (administers base (who c)).
Proof.
  eapply runs_bind; [apply runs_rights_of|]. intros rights (st & Hl & Hr).
  apply runs_then; [by apply runs_in_ledger|]. destruct (MayAdminister _ rights) eqn:Hm; [|apply runs_deny].
  apply runs_ret. by exists st.
Qed.
Lemma runs_note_call base statement object s : runs base (note_call statement object s) (λ _, True).
Proof.
  apply runs_then; [by apply runs_in_ledger|]. eapply (runs_bind _ _ _ (λ _, True)); [by apply runs_lift|].
  intros touched _. by apply runs_in_ledger.
Qed.
Lemma runs_authorize_calls base calls c rights :
  runs base (authorize_calls calls c rights) (λ l, l = map Compiled calls ∧ authorized calls rights (who c) = Ok ()).
Proof.
  apply runs_then; [apply runs_iter; intros s; apply runs_note_call|]. apply runs_then; [by apply runs_in_ledger|].
  eapply runs_bind; [apply runs_lifted|]. intros [] Ha. by apply runs_ret.
Qed.
Lemma runs_refuse_view base {A} (Q : A → Prop) : runs base RefuseInViewAs Q.
Proof. apply runs_deny. Qed.

(** *** Who leaves the virtual catalog *)
Lemma runs_admitted_to base prefix mode secrets :
  runs base (admitted_to prefix mode secrets) (λ r,
    if secrets then keeps_secrets base prefix
    else mode ≠ Prefix.QUERY → admitted base prefix (who r.1) r.2).
Proof.
  rewrite /admitted_to /anonymous. case_bool_decide as Hanon.
  - do 2 (apply runs_then; [by apply runs_in_ledger|]). destruct gw_anonymous_admin eqn:Hon; [|apply runs_deny].
    apply runs_ret. destruct secrets; [by apply keeps_anonymously|]. intros _. by apply admitted_anonymously.
  - destruct secrets; [|case_bool_decide as Hmode].
    + apply runs_then; [by apply runs_in_ledger|]. eapply runs_bind; [apply runs_ResolvePrincipal|]. intros c Hc.
      do 2 (apply runs_then; [by apply runs_in_ledger|]).
      eapply (runs_bind _ _ _ (λ st, later base st)); [apply runs_gets; by intros|]. intros st Hst.
      eapply runs_bind; [apply runs_asked|]. intros [] Hholds; [|apply runs_deny]. apply runs_ret.
      by eapply keeps_by_capability.
    + by apply runs_ret.
    + apply runs_then; [by apply runs_in_ledger|]. eapply runs_bind; [apply runs_ResolvePrincipal|]. intros c Hc.
      apply runs_then; [by apply runs_in_ledger|]. eapply runs_bind; [apply runs_administrator|]. intros rights Hr.
      apply runs_ret. intros _. by eapply admitted_administrator.
Qed.

(** *** The batch's ways through *)
Lemma view_allows viewing calls :
  negb (is_empty viewing) && negb (OnlyViewAsCalls calls) = false → viewing = EmptyString ∨ OnlyViewAsCalls calls = true.
Proof. rewrite andb_false_iff !negb_false_iff is_empty_spec. done. Qed.
Lemma runs_managed base prefix viewing c rights :
  admitted base prefix (who c) rights → runs base (managed prefix viewing c rights) (mediated base prefix viewing).
Proof.
  intros Ha. apply runs_then; [by apply runs_in_ledger|].
  eapply (runs_bind _ _ _ (λ _, True)); [by apply runs_gets|]. intros current _.
  eapply runs_bind; [apply runs_lifted|]. intros calls Hcalls.
  eapply runs_bind; [apply runs_when_refuse; intros Q; apply runs_refuse_view|]. intros [] Hview%view_allows.
  eapply runs_mono; [apply runs_authorize_calls|]. intros l [-> Hok].
  eapply mediated_calls; [left; by exists current|done..].
Qed.
Lemma runs_secrets base prefix :
  keeps_secrets base prefix → runs base (secrets_batch prefix) (mediated base prefix EmptyString).
Proof.
  intros Hk. apply runs_then; [by apply runs_in_ledger|].
  eapply (runs_bind _ _ _ (λ st, later base st)); [apply runs_gets; by intros|]. intros st Hst.
  eapply runs_bind; [apply runs_asked|]. intros calls Hcalls.
  apply runs_then; [apply runs_iter; intros s; apply runs_note_call|]. apply runs_ret. by eapply mediated_secrets.
Qed.
Lemma runs_native base prefix who rights :
  admitted base prefix who rights → runs base (native prefix rights) (mediated base prefix EmptyString).
Proof.
  intros Ha. apply runs_then; [by apply runs_in_ledger|].
  eapply runs_bind; [apply runs_when_refuse; intros Q; apply runs_deny|]. intros [] Hpass%negb_false_iff.
  apply runs_then; [by apply runs_in_ledger|].
  eapply runs_bind; [apply runs_lifted|]. intros attached Hattached.
  eapply (runs_bind _ _ _ (written_natively (p_rest prefix))).
  { destruct attached as [l|]; [apply runs_ret; by left|].
    eapply runs_bind; [apply runs_lifted|]. intros parsed Hparsed. apply runs_ret. right. by exists parsed. }
  intros l Hl. apply runs_then; [|apply runs_ret; by eapply mediated_native].
  destruct l as [|first more]; [by apply runs_ret|].
  apply runs_then; [by apply runs_in_ledger|]. apply runs_iter. intros s. by apply runs_in_ledger.
Qed.
Lemma runs_rewritten base c viewing origins statements :
  runs base (rewritten_under c viewing origins statements) (λ l, ∃ l', l = map Rewritten l' ∧ rewritten_for base c viewing l').
Proof.
  intros g Hg. rewrite /rewritten_under.
  set (source := gw_source (g_store g)). set (batch := batch_of c viewing origins).
  assert (Hrun := to_RewriteStatements (PS:=source) (B:=batch)
    (place_of (initial (PS:=source) (B:=batch) (g_note g) gw_factory)) statements).
  specialize (Hrun ltac:(by split) _ eq_refl).
  destruct (RewriteStatements statements _) as [s [l|e]]; simpl; [|by destruct e].
  split; [done|]. exists l. split; [done|]. destruct Hrun as [_ Hsent]. by exists (g_store g), origins.
Qed.

Lemma all_calls {A} (compiled : list (option A)) :
  length (omap (λ call, call) compiled) = length compiled → compiled = map Some (omap (λ call, call) compiled).
Proof.
  assert (Hle : ∀ l : list (option A), length (omap (λ call, call) l) ≤ length l).
  { intros l. rewrite /omap. induction l as [|[call|] l IH]; simpl; lia. }
  rewrite /omap in Hle |- *. induction compiled as [|[call|] compiled IH]; simpl; [done|..].
  - intros [= Hlen]. by rewrite -IH.
  - specialize (Hle compiled). lia.
Qed.
Lemma runs_wrong_call base {A} prefix message (Q : A → Prop) : runs base (wrong_call prefix message) Q.
Proof.
  apply runs_then; [by apply runs_in_ledger|].
  eapply runs_bind; [apply runs_try, runs_ResolvePrincipal|]. intros found _.
  apply runs_then; [|apply runs_deny]. destruct found; [by apply runs_in_ledger|by apply runs_ret].
Qed.
Lemma runs_platform_batch base prefix viewing statements :
  (∃ written, gw_parse false written = Ok statements ∧ (written = p_rest prefix ∨ written = UseSchemaAsSet (p_rest prefix))) →
  runs base (platform_batch prefix viewing statements)
    (λ r, match r with Some l => mediated base prefix viewing l | None => True end).
Proof.
  intros (written & Hparsed & Hwritten). rewrite /platform_batch.
  destruct (compile_calls statements) as [compiled|message] eqn:Hcompiled; [|apply runs_wrong_call].
  destruct (omap (λ call, call) compiled) as [|call calls] eqn:Hcalls; [by apply runs_ret|].
  destruct (Nat.eqb_spec (length (call :: calls)) (length statements)) as [Hlen|]; simpl negb; cbn iota; [|apply runs_deny].
  assert (Hall : compiled = map Some (call :: calls)).
  { rewrite -Hcalls. apply all_calls. rewrite Hcalls Hlen. by apply omapM_ok, Forall2_length in Hcompiled. }
  eapply runs_bind.
  { apply runs_when_refuse. intros Q. apply runs_then; [by apply runs_in_ledger|apply runs_refuse_view]. }
  intros [] Hview%view_allows. do 2 (apply runs_then; [by apply runs_in_ledger|]).
  eapply runs_bind; [apply runs_ResolvePrincipal|]. intros c Hc. apply runs_then; [by apply runs_in_ledger|].
  eapply (runs_bind _ _ _ (λ _, True)); [by apply runs_gets|]. intros door _.
  apply runs_then; [apply runs_when; [intros _; apply runs_deny|done]|].
  eapply runs_bind; [apply runs_administrator|]. intros rights Hr.
  eapply runs_bind; [apply runs_authorize_calls|]. intros l [-> Hok]. apply runs_ret.
  eapply mediated_calls; [|by eapply admitted_administrator|done|done]. right. exists written, statements.
  split_and!; [done..|]. by rewrite Hcompiled Hall.
Qed.
Lemma runs_viewed_as base viewing c :
  runs base (viewed_as viewing c) (λ c', ∃ role, verified base false viewing role
    ∧ c' = {| RewriteData.who := role; session := session c; session_connection := session_connection c;
              ingest_stream := EmptyString; arrow_ingest := false |}).
Proof.
  eapply runs_bind; [apply runs_VerifyPrincipal|]. intros [role|] Hv; [|apply runs_refuse_view].
  apply runs_then; [by apply runs_in_ledger|]. apply runs_ret. by exists role.
Qed.
(** What a client carries *)
Lemma runs_assoc base {A B C} (m : G A) (f : A → G B) (k : B → G C) Q :
  runs base (b ← (a ← m; f a); k b) Q → runs base (a ← m; b ← f a; k b) Q.
Proof.
  intros Hm g Hg. specialize (Hm g Hg). rewrite /mbind /G_bind in Hm |- *. by destruct (m g) as [g' [a|e]].
Qed.
Lemma runs_carried base prefix statements c :
  runs base
    (c ← (if bool_decide (p_kind prefix = Some Prefix.SESSION) && DrainsQuackClientStream (p_rest prefix) then
            stream ← glift (ExtractStreamId (p_rest prefix)); mret (for_ingest stream (arrow_ingest c) c)
          else mret c);
     if bool_decide (p_kind prefix = Some Prefix.INGEST) then
       in_ledger (set_detail "ingest");;
       gwhen (negb (ingest_form statements))
         (gdeny STATEMENT_TYPE "acl_rewrite: the ingest prefix carries exactly one INSERT or CREATE TABLE statement");;
       mret (for_ingest (ingest_stream c) true c)
     else mret c) (carries prefix statements c).
Proof.
  destruct (bool_decide_reflect (p_kind prefix = Some Prefix.SESSION)) as [Hs|Hs]; simpl.
  - eapply (runs_bind _ _ _ (carries prefix statements c)).
    + destruct (DrainsQuackClientStream (p_rest prefix)) eqn:Hd; [|apply runs_ret, carries_nothing; by rewrite Hs].
      eapply runs_bind; [apply runs_lifted|]. intros stream Hstream. by apply runs_ret, carries_stream.
    + intros c' Hc. rewrite bool_decide_eq_false_2; [by rewrite Hs|]. by apply runs_ret.
  - eapply (runs_bind _ _ _ (λ c', c' = c)); [by apply runs_ret|]. intros c' ->. case_bool_decide as Hi.
    + apply runs_then; [by apply runs_in_ledger|].
      eapply runs_bind; [apply runs_when_refuse; intros Q; apply runs_deny|]. intros [] Hform%negb_false_iff.
      by apply runs_ret, carries_ingest.
    + by apply runs_ret, carries_nothing.
Qed.
Lemma runs_query_batch base prefix viewing lost statements :
  runs base (query_batch prefix viewing lost statements) (mediated base prefix viewing).
Proof.
  apply runs_then; [by apply runs_in_ledger|]. eapply runs_bind; [apply runs_ResolvePrincipal|]. intros c Hc.
  apply runs_then; [by apply runs_in_ledger|]. apply runs_then; [apply runs_when; [intros _; apply runs_deny|done]|].
  eapply (runs_bind _ _ _ (λ c', if is_empty viewing then c' = c else ∃ role, verified base false viewing role
    ∧ c' = {| RewriteData.who := role; session := session c; session_connection := session_connection c;
              ingest_stream := EmptyString; arrow_ingest := false |})).
  { destruct (is_empty viewing); [by apply runs_ret|apply runs_viewed_as]. }
  intros c1 Hc1. apply runs_assoc. eapply runs_bind; [apply runs_carried|]. intros c2 Hc2.
  apply runs_then; [by apply runs_in_ledger|]. eapply (runs_bind _ _ _ (λ _, True)); [by apply runs_gets|]. intros door _.
  eapply runs_mono; [apply runs_rewritten|]. intros l (l' & -> & Hl).
  destruct (is_empty viewing) eqn:Hview.
  - apply is_empty_spec in Hview as ->. subst c1. by eapply mediated_query.
  - destruct Hc1 as (role & Hv & ->). eapply mediated_view; [by intros ->|done..].
Qed.
Lemma runs_queried base prefix heads viewing lost :
  runs base (queried prefix heads viewing lost) (mediated base prefix viewing).
Proof.
  apply runs_then; [by apply runs_in_ledger|]. cbv zeta.
  eapply runs_bind; [apply runs_lifted|]. intros statements Hparsed.
  eapply (runs_bind _ _ _ (λ r, match r with Some l => mediated base prefix viewing l | None => True end)).
  { destruct (_ || _); [|by apply runs_ret]. apply runs_platform_batch. eexists. split; [exact Hparsed|].
    destruct heads as [|head []]; auto. destruct (first_is _ _); auto. }
  intros [l|] Hl; [by apply runs_ret|apply runs_query_batch].
Qed.

(** *** The batch *)
Lemma view_decided prefix g g' viewing lost :
  ViewAsOf prefix g = (g', inl (viewing, lost)) →
  later (g_store g) (g_store g')
  ∧ (viewing = view_of (g_store g) prefix
     ∨ session_kind (p_kind prefix) = true ∧ sessions (g_store g') !! p_value prefix = None).
Proof.
  rewrite /ViewAsOf /view_of. destruct (session_kind (p_kind prefix)); simpl; [|intros [= <- <- _]; split; [apply later_refl|by left]].
  rewrite /ref_of /ggets /mbind /G_bind /SessionRefOf.
  destruct (sessions (g_store g) !! p_value prefix) as [s|] eqn:Hs; simpl; [|intros [= <- <- _]; split; [apply later_refl|by left]].
  destruct (is_empty (SessionViewAsOf (SessionData.id s) (g_store g))) eqn:Hrole.
  { apply is_empty_spec in Hrole. intros [= <- <- _]. split; [apply later_refl|by left]. }
  rewrite /gate_principal /in_store.
  pose proof (later_checking (p_value prefix) (g_store g)) as Hl. pose proof (checking_gone (p_value prefix) (g_store g)) as Hgone.
  destruct (SessionPrincipal _ _ _ _ _ _ _ (g_store g)) as [[viewer|reason] st].
  - pose proof (runs_rights_of (g_store g) viewer (with_store st g) Hl) as [Hl' _]. revert Hl'.
    destruct (rights_of viewer (with_store st g)) as [g1 [rights|e]]; [|done]. intros Hl' [= <- <- _]. split; [done|by left].
  - intros [= <- <- _]. split; [done|right]. split; [done|]. by eapply Hgone.
Qed.
Lemma runs_viewed_batch base prefix heads mode viewing lost :
  runs base (viewed_batch prefix heads mode viewing lost) (mediated base prefix viewing).
Proof.
  rewrite /viewed_batch. set (secrets := bool_decide (mode = MANAGE_) && IsSecretsStart heads).
  eapply runs_bind; [apply runs_when_refuse; intros Q; apply runs_refuse_view|]. intros [] Hview.
  eapply runs_bind; [apply runs_admitted_to|]. intros [c rights] Ha. simpl in Ha |- *.
  assert (Hplain : secrets = true ∨ mode = Prefix.NATIVE → viewing = EmptyString).
  { intros Hs. apply is_empty_spec. destruct (is_empty viewing); [done|]. by destruct Hs as [-> | ->]. }
  destruct secrets; [rewrite Hplain; [by left|]; by apply runs_secrets|].
  destruct mode; [apply runs_queried|by apply runs_managed, Ha|].
  rewrite Hplain; [by right|]. by eapply runs_native, Ha.
Qed.

(** What touches no session *)
Definition silent {A} (m : G A) : Prop := ∀ g, g_store (m g).1 = g_store g.
Lemma silent_then {A B} (m : G A) (k : G B) g g' b :
  silent m → (m;; k) g = (g', inl b) → ∃ g1, g_store g1 = g_store g ∧ k g1 = (g', inl b).
Proof.
  intros Hm. specialize (Hm g). rewrite /mbind /G_bind. destruct (m g) as [g1 [a|e]]; [|done]. by exists g1.
Qed.
Lemma silent_bind {A B} (m : G A) (f : A → G B) : silent m → (∀ a, silent (f a)) → silent (m ≫= f).
Proof.
  intros Hm Hf g. rewrite /mbind /G_bind. specialize (Hm g). destruct (m g) as [g1 [a|e]]; [by rewrite Hf|done].
Qed.
Lemma silent_when b m : silent m → silent (gwhen b m).
Proof. by destruct b. Qed.
Lemma silent_lift {A} (o : outcome A) : silent (glift o).
Proof. by destruct o. Qed.
Lemma silent_OnSession handle : silent (OnSession handle).
Proof. intros g. rewrite /OnSession /ref_of /ggets /mbind /G_bind /=. by destruct (SessionRefOf _ _). Qed.
Lemma silent_iter {A} (f : A → G ()) l : (∀ x, silent (f x)) → silent (giter f l).
Proof. intros Hf. induction l as [|x l IH]; [done|]. by apply silent_bind. Qed.
Lemma silent_Decided allowed code reason e : silent (Decided allowed code reason e).
Proof.
  apply silent_bind; [done|]. intros l. apply silent_bind; [by apply silent_when|]. intros _. apply silent_when, silent_bind; [done|].
  intros _. by apply silent_when.
Qed.
Lemma silent_Allowed : silent Allowed.
Proof. apply silent_bind; [done|]. intros l. apply silent_iter. intros e. apply silent_Decided. Qed.
Lemma audited_answer {A} (m : G A) g g' a :
  audited_by m g = (g', inl a) → ∃ g1, m g = (g1, inl a) ∧ g_store g' = g_store g1.
Proof.
  rewrite /audited_by /gtry /mbind /G_bind. destruct (m g) as [g1 [a1|message]].
  - pose proof (silent_Allowed g1) as Hs. destruct (Allowed g1) as [g2 [[]|e]]; [|done]. intros [= <- ->]. by exists g1.
  - by destruct (Denied message g1) as [g2 [[]|e]].
Qed.
Lemma answered_answer m g g' r :
  answered m g = (g', inl r) → ∃ l, r = Statements_ l ∧ m g = (g', inl l).
Proof. rewrite /answered /mbind /G_bind. destruct (m g) as [g1 [l|e]]; [|done]. intros [= <- <-]. by exists l. Qed.

Lemma prefixed_mediated prefix g g' l :
  Prefixed prefix g = (g', inl l) → mediated (g_store g) prefix (view_of (g_store g) prefix) l.
Proof.
  intros (g1 & <- & E)%silent_then; [|by apply silent_when, silent_lift].
  apply silent_then in E as (g2 & <- & E); [|by apply silent_when].
  apply silent_then in E as (g3 & <- & E); [|by apply silent_when].
  rewrite /mbind /G_bind in E. destruct (ViewAsOf prefix g3) as [g4 [[viewing lost]|e]] eqn:Hview; [|done].
  destruct (view_decided _ _ _ _ _ Hview) as [Hl Hv].
  pose proof (runs_viewed_batch (g_store g4) prefix (Heads (p_rest prefix) 6) (mode_of prefix (Heads (p_rest prefix) 6))
    viewing lost g4 (later_refl _)) as [_ Hm]. rewrite E /= in Hm.
  destruct Hv as [-> |[Hk Hgone]]; [by eapply later_mediated|by destruct (gone_is_refused _ _ _ _ Hk Hgone Hm)].
Qed.

(** C2: complete mediation: whatever the override makes of a text with an ACL prefix, it is statements that came through
    one of the ways of [mediated] - the rewriter's, under the client the prefix names (or, in a view-as session, the viewed
    role, metadata only); calls the authorizer passed for an administrator, in a view-as session only those that leave it;
    the secrets service's, on its own capability; native SQL, with passthrough - whatever happened to the sessions while
    the batch was decided; the text never goes on to the native parser *)
Theorem prefixed_batches_are_mediated (text : string) (prefix : AclPrefix) (g g' : gate) (r : override_result) :
  ReadAclPrefix gw_connected text = Ok prefix → p_kind prefix ≠ None →
  AclParserOverride false text g = (g', inl r) →
  ∃ l, r = Statements_ l ∧ mediated (g_store g) prefix (view_of (g_store g) prefix) l.
Proof.
  intros Hprefix Hkind. rewrite /AclParserOverride Hprefix. destruct (p_kind prefix) as [kind|] eqn:Hk; [|done].
  intros (g1 & <- & E)%silent_then; [|by intros ?].
  apply silent_then in E as (g2 & <- & E); [|by intros ?].
  apply silent_then in E as (g3 & <- & E); [|apply silent_when, silent_OnSession].
  apply audited_answer in E as (g4 & E & _). apply answered_answer in E as (l & -> & E). exists l. split; [done|].
  by eapply prefixed_mediated.
Qed.

Lemma gbind_answer {A B} (m : G A) (f : A → G B) g g' b :
  (m ≫= f) g = (g', inl b) → ∃ g1 a, m g = (g1, inl a) ∧ f a g1 = (g', inl b).
Proof. rewrite /mbind /G_bind. destruct (m g) as [g1 [a|e]]; [|done]. by exists g1, a. Qed.
Lemma when_answer b (m : G ()) g g' u : (∀ g, ∃ g1 e, m g = (g1, inr e)) → gwhen b m g = (g', inl u) → b = false ∧ g' = g.
Proof. intros Hm. destruct b; simpl; [|by intros [= ->]]. by destruct (Hm g) as (g1 & e & ->). Qed.
Lemma drain_under text g g' l : DrainStreamUnderPrincipal text g = (g', inl l) → drained (g_store g) text l.
Proof.
  intros (g1 & <- & (g2 & stream & E1 & E)%gbind_answer)%silent_then; [|by intros ?].
  destruct (ExtractStreamId text) as [stream'|] eqn:Hstream; [|done]. injection E1 as <- ->.
  apply gbind_answer in E as (g2 & [] & E1 & E). apply when_answer in E1 as [Hstream0 ->]; [|by intros ?; eexists _, _].
  destruct (find_text ":" stream) as [[|colon]|] eqn:Hcolon; [done| |done].
  apply gbind_answer in E as (g2 & bound & [= <- <-] & E).
  destruct (SessionHandleFor _ _) as [handle|] eqn:Hbound; [|done].
  apply gbind_answer in E as (g2 & [] & Hopen & E). apply gbind_answer in E as (g3 & found & Hfound & E).
  destruct found as [who|reason]; [|done].
  assert (Hwho : ∃ s, sessions (g_store g1) !! handle = Some s ∧ live_session s ∧ who = SessionData.principal s
    ∧ a_session (g_ledger g3) = SessionData.id s ∧ later (g_store g1) (g_store g3)).
  { pose proof (silent_OnSession handle g1) as Hs2. rewrite Hopen /= in Hs2. rewrite /gate_principal /in_store Hs2 in Hfound.
    pose proof (later_checking handle (g_store g1)) as Hl. pose proof (checking_found handle (g_store g1)) as Hf.
    destruct (SessionPrincipal _ _ _ _ _ _ _ (g_store g1)) as [a st]. injection Hfound as <- ->.
    destruct (Hf who eq_refl) as (s & Hs & Hlive & -> & _). exists s. split_and!; [done..| |done].
    rewrite /OnSession /ref_of /ggets /mbind /G_bind /SessionRefOf Hs /= in Hopen. by injection Hopen as <-. }
  destruct Hwho as (s & Hs & Hlive & -> & Hid & Hl).
  apply gbind_answer in E as (g4 & i & [= <- <-] & E). apply gbind_answer in E as (g4 & viewing & [= <- <-] & E).
  apply gbind_answer in E as (g4 & [] & E1 & E). apply when_answer in E1 as [Hview ->]; [|by intros ?; eexists _, _].
  apply silent_then in E as (g4 & Hg4 & E); [|by intros ?]. apply silent_then in E as (g5 & Hg5 & E); [|by intros ?].
  apply gbind_answer in E as (g6 & statements & E1 & E). destruct (gw_parse false text) as [parsed|]; [|done].
  injection E1 as <- ->. apply silent_then in E as (g7 & Hg7 & E); [|by intros ?].
  assert (Hl7 : later (g_store g1) (g_store g7)) by by rewrite Hg7 Hg5 Hg4.
  match type of E with rewritten_under ?c _ _ _ _ = _ =>
    pose proof (runs_rewritten (g_store g1) c false false (map by_rewriter statements) g7 Hl7) as [_ Hr] end.
  rewrite E /= Hid in Hr. destruct Hr as (l' & -> & Hr).
  eapply drained_under; [exact Hstream|by intros ->|exact Hcolon|exact Hbound|exact Hs|exact Hlive| |exact Hr].
  exists (g_store g3). split; [done|]. apply negb_false_iff, is_empty_spec in Hview. by rewrite -Hid.
Qed.
(** C12: a streamed insert a door's server generates - a text with no ACL prefix that calls the drain while a door is open -
    is never left to the native parser: it is refused, or rewritten under the principal of the live session its
    connection is bound to, which is viewed as nobody *)
Theorem drains_go_under_their_session (text : string) (prefix : AclPrefix) (g g' : gate) (r : override_result) :
  ReadAclPrefix gw_connected text = Ok prefix → p_kind prefix = None →
  gw_door_open = true → DrainsQuackClientStream text = true →
  AclParserOverride false text g = (g', inl r) → ∃ l, r = Statements_ l ∧ drained (g_store g) text l.
Proof.
  intros Hprefix Hkind Hopen Hdrains. rewrite /AclParserOverride Hprefix Hkind Hopen Hdrains. cbn [andb].
  intros (g1 & <- & E)%silent_then; [|by intros ?].
  apply silent_then in E as (g2 & <- & E); [|by intros ?].
  apply audited_answer in E as (g4 & E & _). apply answered_answer in E as (l & -> & E). exists l. split; [done|].
  by eapply drain_under.
Qed.

(** ** What the audit is told *)

(** What neither tells the audit nor changes the trace a decision is told under *)
Definition trace (g : gate) : list AuditEvent * string * string :=
  (g_told g, a_correlation (g_ledger g), a_traceparent (g_ledger g)).
Definition quiet {A} (m : G A) : Prop := ∀ g, trace (m g).1 = trace g.
Lemma quiet_bind {A B} (m : G A) (f : A → G B) : quiet m → (∀ a, quiet (f a)) → quiet (m ≫= f).
Proof.
  intros Hm Hf g. rewrite /mbind /G_bind. specialize (Hm g). destruct (m g) as [g1 [a|e]]; [|done].
  rewrite Hf. exact Hm.
Qed.
Lemma quiet_when b m : quiet m → quiet (gwhen b m).
Proof. by destruct b. Qed.
Lemma quiet_lift {A} (o : outcome A) : quiet (glift o).
Proof. by destruct o. Qed.
Lemma quiet_ask {A} (o : answer A) : quiet (gask o).
Proof. by destruct o as [|[]]. Qed.
Lemma quiet_iter {A} (f : A → G ()) l : (∀ x, quiet (f x)) → quiet (giter f l).
Proof. intros Hf. induction l as [|x l IH]; [done|]. by apply quiet_bind. Qed.
Lemma quiet_try {A} (m : G A) : quiet m → quiet (gtry m).
Proof. intros Hm g. specialize (Hm g). rewrite /gtry. by destruct (m g). Qed.
Lemma quiet_in_store {A} (f : store → A * store) : quiet (in_store f).
Proof. intros g. rewrite /in_store. by destruct (f (g_store g)). Qed.
Lemma quiet_last f : quiet (in_ledger (with_last f)).
Proof. intros g. rewrite /trace /in_ledger /gmodify /with_last /=. by destruct (List.last _ _). Qed.
Lemma quiet_rewritten c viewing origins statements : quiet (rewritten_under c viewing origins statements).
Proof. intros g. rewrite /rewritten_under. by destruct (RewriteStatements _ _). Qed.
Create HintDb quiet.
Hint Resolve quiet_lift quiet_ask quiet_in_store quiet_last quiet_rewritten : quiet.
Ltac quiet :=
  repeat first
    [ solve [auto with quiet nocore]
    | apply quiet_when | apply quiet_try | apply quiet_iter; intros ?
    | apply quiet_bind; [|intros ?]
    | match goal with |- quiet (match ?x with _ => _ end) => destruct x end
    | by intros ? ].
Lemma quiet_gate_principal handle : quiet (gate_principal handle).
Proof. rewrite /gate_principal. quiet. Qed.
Lemma quiet_OnSession handle : quiet (OnSession handle).
Proof. rewrite /OnSession /ref_of. quiet. Qed.
Lemma quiet_VerifyPrincipal is_token value : quiet (VerifyPrincipal is_token value).
Proof. rewrite /VerifyPrincipal. quiet. Qed.
Lemma quiet_deny {A} reason message : quiet (A:=A) (gdeny reason message).
Proof. rewrite /gdeny. quiet. Qed.
Lemma quiet_rights_of who : quiet (rights_of who).
Proof. rewrite /rights_of. quiet. Qed.
Hint Resolve quiet_gate_principal quiet_OnSession quiet_VerifyPrincipal quiet_deny quiet_rights_of : quiet.
Lemma quiet_ResolvePrincipal prefix : quiet (ResolvePrincipal prefix).
Proof. rewrite /ResolvePrincipal /ref_of. quiet. Qed.
Lemma quiet_refuse_view {A} : quiet (A:=A) RefuseInViewAs.
Proof. apply quiet_deny. Qed.
Lemma quiet_administrator c : quiet (administrator c).
Proof. rewrite /administrator. quiet. Qed.
Lemma quiet_note_call statement object s : quiet (note_call statement object s).
Proof. rewrite /note_call /add_entry. quiet. Qed.
Hint Resolve quiet_ResolvePrincipal quiet_refuse_view quiet_administrator quiet_note_call : quiet.
Lemma quiet_authorize_calls calls c rights : quiet (authorize_calls calls c rights).
Proof. rewrite /authorize_calls /NoteManagement. quiet. Qed.
Lemma quiet_wrong_call {A} prefix message : quiet (A:=A) (wrong_call prefix message).
Proof. rewrite /wrong_call. quiet. Qed.
Hint Resolve quiet_authorize_calls quiet_wrong_call : quiet.
Lemma quiet_platform_batch prefix viewing statements : quiet (platform_batch prefix viewing statements).
Proof. rewrite /platform_batch /mixed. quiet. Qed.
Lemma quiet_query_batch prefix viewing lost statements : quiet (query_batch prefix viewing lost statements).
Proof. rewrite /query_batch /viewed_as. quiet. Qed.
Hint Resolve quiet_platform_batch quiet_query_batch : quiet.
Lemma quiet_viewed_batch prefix heads mode viewing lost : quiet (viewed_batch prefix heads mode viewing lost).
Proof.
  rewrite /viewed_batch /admitted_to /secrets_batch /managed /native /native_hash /queried /add_entry. quiet.
Qed.
Hint Resolve quiet_viewed_batch : quiet.
Lemma quiet_Prefixed prefix : quiet (Prefixed prefix).
Proof. rewrite /Prefixed /mixed /ViewAsOf /ref_of. quiet. Qed.
Lemma quiet_Drain text : quiet (DrainStreamUnderPrincipal text).
Proof. rewrite /DrainStreamUnderPrincipal /refused_stream. quiet. Qed.

Section told.
Context (Haudited : gw_audited = true).
Lemma Decided_tells allowed code reason e g :
  ∃ g', Decided allowed code reason e g = (g', inl ())
        ∧ g_told g' = g_told g ++ [event_of (g_ledger g) e allowed code reason] ∧ g_ledger g' = g_ledger g ∧ g_note g' = g_note g.
Proof.
  rewrite /Decided Haudited /mbind /G_bind /ggets /=.
  destruct (allowed && entry_executes e && _ && _); simpl; destruct (allowed && entry_executes e); simpl; by eexists.
Qed.
Lemma each_tells es g :
  ∃ g', giter (Decided true EmptyString EmptyString) es g = (g', inl ())
        ∧ g_told g' = g_told g ++ map (λ e, event_of (g_ledger g) e true EmptyString EmptyString) es
        ∧ g_ledger g' = g_ledger g.
Proof.
  revert g. induction es as [|e es IH]; intros g; [exists g; by rewrite /= app_nil_r|].
  destruct (Decided_tells true EmptyString EmptyString e g) as (g1 & E1 & Ht1 & Hl1 & _).
  destruct (IH g1) as (g2 & E2 & Ht2 & Hl2). exists g2. cbn [giter]. rewrite {1}/mbind /G_bind E1 E2 Ht2 Hl2 Hl1 Ht1.
  by rewrite /= -app_assoc.
Qed.
Lemma Denied_tells message g :
  ∃ g' e, Denied message g = (g', inl ()) ∧ g_told g' = g_told g ++ [e] ∧ tells_refusal message e ∧ g_note g' = EmptyString
          ∧ (ev_correlation_id e, ev_traceparent e) = (a_correlation (g_ledger g), a_traceparent (g_ledger g)).
Proof.
  rewrite /Denied {1 2 3}/mbind /G_bind /ggets /gmodify.
  set (code := if is_empty (g_note g) then _ else _).
  destruct (Decided_tells false code (AuditReasonText code message) (refused_entry (g_ledger g)) (with_note EmptyString g))
    as (g1 & E1 & Ht1 & _ & Hn1).
  eexists g1, _. split; [exact E1|]. split; [exact Ht1|]. split; [|by split].
  rewrite /tells_refusal. split_and!; [done| |done]. rewrite /= /code. destruct (is_empty (g_note g)) eqn:Hn; [by destruct (a_phase _)|]. by intros He; rewrite He in Hn.
Qed.
Lemma audited_tells {A} (m : G A) text g g' r :
  quiet m → (a_correlation (g_ledger g), a_traceparent (g_ledger g)) = trace_given text →
  audited_by m g = (g', r) →
  ∃ es, g_told g' = g_told g ++ es ∧ Forall (told_under text) es ∧
    match r with
    | inl _ => Forall2 tells_entry (a_trail (g_ledger g')) es
    | inr message => ∃ e, es = [e] ∧ tells_refusal message e ∧ g_note g' = EmptyString
    end.
Proof.
  intros Hm Htrace. specialize (Hm g). rewrite /audited_by /gtry /mbind /G_bind. destruct (m g) as [g1 [a|message]].
  - injection Hm as Ht Hc Hp. destruct (each_tells (a_trail (g_ledger g1)) g1) as (g2 & E & Ht2 & Hl2).
    rewrite /Allowed /mbind /G_bind /ggets E. intros [= <- <-]. eexists. rewrite Ht2 Ht. split; [done|].
    rewrite Hl2 Forall_map. split; [apply Forall_forall; intros e _; by rewrite /told_under /= Hc Hp|].
    apply Forall2_fmap_r, Forall_Forall2_diag, Forall_forall. by intros e _.
  - injection Hm as Ht Hc Hp. destruct (Denied_tells message g1) as (g2 & e & E & Ht2 & He & Hn & Htr). rewrite E.
    intros [= <- <-]. exists [e]. rewrite Ht2 Ht. split; [done|]. split; [|by exists e].
    apply Forall_singleton. by rewrite /told_under Htr Hc Hp.
Qed.
End told.

Definition begun (g : gate) : gate := with_ledger new_ledger (with_profile [] (with_note EmptyString g)).
Lemma begin_then {A} (k : G A) g : (begin_audit;; k) g = k (begun g).
Proof. done. Qed.
Lemma ledger_then {A} f (k : G A) g : (in_ledger f;; k) g = k (with_ledger (f (g_ledger g)) g).
Proof. done. Qed.
Lemma session_then {A} b handle (k : G A) g : ∃ g1, (gwhen b (OnSession handle);; k) g = k g1 ∧ trace g1 = trace g.
Proof.
  pose proof (quiet_when b _ (quiet_OnSession handle) g) as Hq. revert Hq.
  destruct (gwhen b (OnSession handle) g) as [g1 [[]|e]] eqn:E; intros Hq; [exists g1; by rewrite {1}/mbind /G_bind E|].
  exfalso. revert E. destruct b; [|done]. rewrite /= /OnSession /ref_of /ggets /mbind /G_bind.
  by destruct (SessionRefOf _ _).
Qed.
(** C13: with the audit on, a text the override decides is told exactly once: a refusal - whatever raised it - by one event,
    with a code and what the message may say, and no note of it is left for the next batch; an answer by an allowed event
    for each entry the batch left in its trail - each call of an administrator's, each statement of a native batch, what
    the rewriter entered -, every event under the trace the text's prefix carries *)
Theorem every_decision_is_told (text : string) (g g' : gate) (r : override_result + string) :
  gw_audited = true → decides text = true → AclParserOverride false text g = (g', r) →
  ∃ es, g_told g' = g_told g ++ es ∧ Forall (told_under text) es ∧
    match r with
    | inl _ => Forall2 tells_entry (a_trail (g_ledger g')) es
    | inr message => ∃ e, es = [e] ∧ tells_refusal message e ∧ g_note g' = EmptyString
    end.
Proof.
  intros Haudited. pose proof (audited_tells Haudited (A:=override_result)) as Htells.
  rewrite /AclParserOverride /decides. destruct (ReadAclPrefix gw_connected text) as [prefix|message] eqn:Hprefix.
  - destruct (p_kind prefix) as [kind|] eqn:Hkind; intros Hdecides.
    + rewrite begin_then ledger_then. edestruct @session_then as (g1 & -> & Htrace). injection Htrace as Ht Hc Hp.
      intros E. rewrite -Ht. eapply (Htells _ text); [|by rewrite Hc Hp /trace_given Hprefix Hkind|exact E].
      apply quiet_bind; [apply quiet_Prefixed|by intros l ?].
    + cbn in Hdecides. rewrite Hdecides begin_then ledger_then. intros E.
      apply (Htells _ text) in E; [exact E| |by rewrite /trace_given Hprefix Hkind].
      apply quiet_bind; [apply quiet_Drain|by intros l ?].
  - intros _. rewrite begin_then. destruct (Denied_tells Haudited message (begun g)) as (g1 & e & E & Ht & He & Hn & Htr).
    rewrite {1}/mbind /G_bind E. intros [= <- <-]. exists [e]. split; [exact Ht|]. split; [|by exists e].
    apply Forall_singleton. by rewrite /told_under Htr /trace_given Hprefix.
Qed.
End laws.
