(* ===== verification/OverrideSample.v ===== *)
(** * A gateway to decide at

    One session of a seller's over the sample catalog, a few texts and what duckdb makes of them: what the override's
    witnesses are evaluated over. *)
From S2P Require Import MgmtBatch.
From S2P Require Import Prelude NamePath FieldPaths FunctionCategories PolicyTypes AdminRights AuditTrail SessionData Notifier Sessions.
From S2P Require Import Prefix Heads HeadsLaws Statements Platform Token Tree RewriteData RewriteDml RewriteRefs Rewriter RewriteDdl RewriterSample PolicyCache.
From S2P Require Import MgmtLaws Override OverrideSpec OverrideLaws.

#[local] Existing Instance reference_string_util_laws.
#[local] Existing Instance lexer.
#[local] Instance plain_engine : Engine := {| list_text items := join ", " (omap (M:=list) (λ i, i) items) |}.
#[local] Instance parts_names : QualifiedNames (list string) := {|
  path_size := length;
  Catalog q := match rev q with _ :: _ :: c :: _ => c | _ => EmptyString end;
  Schema q := match rev q with _ :: s :: _ => s | _ => EmptyString end;
  FunctionCategories.Name q := List.last q EmptyString;
  of_name n := [n];
|}.
(** The lexer's tokens, as a matcher's *)
Definition matcher_token (t : Prefix.Token) : MatcherToken := {|
  tk_text := Prefix.text t; tk_offset := Prefix.offset t; tk_length := Prefix.length_ t;
  tk_type := if String.eqb (Prefix.text t) ";" then STATEMENT_END
             else if is_empty (Prefix.text t) then INPUT_END
             else if starts_with [squote] (Prefix.text t) then STRING_LITERAL
             else match first_char (Prefix.text t) with
                  | Some c => if isdigit c then NUMBER_LITERAL else if letter c then KEYWORD else OTHER_TOKEN
                  | None => OTHER_TOKEN
                  end;
  tk_unterminated := false |}.
#[local] Instance sample_splitter : Splitter := {|
  SplitTokens s := match TokenizeInput s with
                   | Prefix.Tokens ts => (map matcher_token ts, EmptyString)
                   | Prefix.Unreadable _ _ => ([], "unterminated string literal")
                   end |}.

Lemma management_is_decided_by_its_head_witness :
  6 ≤ 32 ∧ map (IsMgmtHead []) (Heads "select 1; grant select on orders to seller" 32) = [false; true]
  ∧ map (IsMgmtHead []) (Heads "select 1; grant select on orders to seller" 32)
    = map (IsMgmtHead []) (Heads "select 1; grant select on orders to seller" 6).
Proof.
  split; [lia|]. split; [vm_compute; reflexivity|].
  apply (management_is_decided_by_its_head [] "select 1; grant select on orders to seller" 32). lia.
Defined.

(** ** The gateway *)
Definition read_text : string := "select id from orders".
Definition drain_text : string := "SELECT * FROM acl_quack_scan_data('c1:7')".
Definition as_parsed (s : Tree.SQLStatement) : Parsed := {|
  by_platform := Statements.composed (Statements.SelectStatement None); by_rewriter := s; attach_alias := None |}.
Definition the_read : Parsed := as_parsed (Tree.SelectStatement "q" (select_from [column "id"] (table [""; ""; "orders"]))).
Definition the_drain : Parsed := as_parsed (Tree.SelectStatement "d"
  (select_from [star_all] (TableFunction EmptyString [] (Some (plain_call "acl_quack_scan_data" [text "c1:7"])) None false))).
Definition sample_verifier : verifier := {|
  Sessions.LooksLikeJwt _ := None; Sessions.IdentityError := None; Sessions.VerifyJwtPrincipal _ _ := Unverified no_principal "" "";
  Sessions.CatalogLoadRoleClaims := None; MayOperate _ := false; LevelForSession _ _ := None;
  ResolveResourceLimits _ := Ok no_limits |}.
Definition granted : MgmtParsed := {|
  unread := false; m_text := EmptyString; m_hint := EmptyString; m_function := "acl_grant_role"; m_args := [Text "seller"; Text "ann"];
  current_session := false; table_call := false; m_secrets := false; MgmtBatch.texts := [] |}.
Definition sample_grammar : MgmtGrammar := {| ReadManagement _ := Read [granted]; Upper s := s; OutOfRange _ _ := "index" |}.
#[local] Instance sample_gateway : Gateway := {|
  gw_registry := built_in; gw_settings := {| now := 1000; skew := 60; idle := 600; exp_binds := true |};
  gw_audited := true; gw_level := ALL; gw_levels := λ _, 0%N; gw_blank := blank_event; gw_observers := λ _, [];
  gw_modules := []; gw_door_open := true; gw_anonymous_admin := false; gw_verifier := sample_verifier;
  gw_role_claims := []; gw_source := λ _, sample_source; gw_temp := None; gw_factory := true; gw_connected := false;
  gw_foreign := false;
  gw_parse := λ _ s, if String.eqb s read_text then Ok [the_read] else if String.eqb s drain_text then Ok [the_drain] else Throw "syntax error";
  gw_text := λ _, "call"; gw_grammar := sample_grammar;
  gw_read_object := λ _, None; gw_mappings := []; gw_clients := []; gw_privileged := λ _, false;
  gw_role_defined := λ _, true; gw_rights_of := λ _, no_rights; gw_name := list string; gw_walk := λ _ _, ([], None);
  gw_resolve := λ _ n _, system_function (List.last n EmptyString); gw_readings := λ _, None; gw_catalog := true;
  gw_attached := λ _, false; gw_origin := λ _ _, None; gw_columns := λ _, Ok []; gw_references := λ _ _, Ok [];
  gw_reference := λ _, Ok []; gw_split := λ s _, [s] |}.
Definition ann : Session := new_session (RewriteData.who seller) "s1" 0 900 "quack" None no_limits.
Definition served : store :=
  with_bindings {["c1" := "abc"]} (with_sessions {["abc" := ann]} (new_store false)).
Definition at_start : gate := {|
  g_store := served; g_note := "stale"; g_ledger := new_ledger; g_told := []; g_profile := []; g_texts := {| texts := ∅; order := [] |} |}.
Definition of_ann (sql : string) : string := "ACL SESSION 'abc' TRACE 't1' " +:+ sql.
Definition prefix_of_ann (sql : string) : AclPrefix := {|
  p_kind := Some Prefix.SESSION; p_mode := Prefix.QUERY; p_marked := false; p_value := "abc"; p_rest := sql;
  p_correlation_id := "t1"; p_traceparent := EmptyString;
  p_lineage := {| parent := EmptyString; root_parent := EmptyString; job_name := EmptyString |} |}.

Lemma prefixed_batches_are_mediated_witness : ∃ r l,
  (AclParserOverride false (of_ann read_text) at_start).2 = inl r ∧ r = Statements_ l
  ∧ mediated served (prefix_of_ann read_text) EmptyString l.
Proof.
  assert (E : ∃ r, (AclParserOverride false (of_ann read_text) at_start).2 = inl r) by (eexists; vm_compute; reflexivity).
  destruct E as [r E]. assert (E' := surjective_pairing (AclParserOverride false (of_ann read_text) at_start)).
  rewrite E in E'.
  assert (Hp : ReadAclPrefix gw_connected (of_ann read_text) = Ok (prefix_of_ann read_text)) by (vm_compute; reflexivity).
  destruct (prefixed_batches_are_mediated (of_ann read_text) (prefix_of_ann read_text) at_start _ r Hp ltac:(discriminate) E')
    as (l & Hl & Hm).
  exists r, l. split; [exact E|]. split; [exact Hl|].
  assert (Hv : view_of (g_store at_start) (prefix_of_ann read_text) = EmptyString) by (vm_compute; reflexivity).
  rewrite Hv in Hm. exact Hm.
Defined.
Lemma drains_go_under_their_session_witness : ∃ r l,
  (AclParserOverride false drain_text at_start).2 = inl r ∧ r = Statements_ l ∧ drained served drain_text l.
Proof.
  assert (E : ∃ r, (AclParserOverride false drain_text at_start).2 = inl r) by (eexists; vm_compute; reflexivity).
  destruct E as [r E]. assert (E' := surjective_pairing (AclParserOverride false drain_text at_start)). rewrite E in E'.
  assert (Hp : ∃ prefix, ReadAclPrefix gw_connected drain_text = Ok prefix ∧ p_kind prefix = None)
    by (eexists; split; vm_compute; reflexivity).
  destruct Hp as (prefix & Hp & Hk).
  assert (Hd : DrainsQuackClientStream drain_text = true) by (vm_compute; reflexivity).
  destruct (drains_go_under_their_session drain_text prefix at_start _ r Hp Hk eq_refl Hd E') as (l & Hl & Hdr).
  exists r, l. split; [exact E|]. split; [exact Hl|exact Hdr].
Defined.
(** A query is told as a select; a GRANT of a principal that administers nothing is refused, and told once *)
Definition grant_text : string := "grant role seller to ann".
Lemma sample_audited : gw_audited = true.
Proof. reflexivity. Qed.
Lemma every_decision_is_told_witness :
  (∃ es, g_told (AclParserOverride false (of_ann read_text) at_start).1 = es
     ∧ map ev_statement es = ["select"] ∧ Forall (told_under (of_ann read_text)) es)
  ∧ ∃ e message, AclParserOverride false (of_ann grant_text) at_start
      = ((AclParserOverride false (of_ann grant_text) at_start).1, inr message)
    ∧ g_told (AclParserOverride false (of_ann grant_text) at_start).1 = [e]
    ∧ ev_reason_code e = "mgmt_unauthorized" ∧ ev_correlation_id e = "t1" ∧ tells_refusal message e.
Proof.
  split.
  - assert (Hd : decides (of_ann read_text) = true) by (vm_compute; reflexivity).
    destruct (every_decision_is_told (of_ann read_text) at_start _ _ sample_audited Hd
                (surjective_pairing (AclParserOverride false (of_ann read_text) at_start))) as (es & Ht & Hu & _).
    exists es. split; [exact Ht|]. split; [|exact Hu]. change (g_told at_start ++ es) with es in Ht. rewrite -Ht.
    vm_compute. reflexivity.
  - assert (E : ∃ message, (AclParserOverride false (of_ann grant_text) at_start).2 = inr message)
      by (eexists; vm_compute; reflexivity).
    destruct E as [message E].
    assert (E' := surjective_pairing (AclParserOverride false (of_ann grant_text) at_start)). rewrite E in E'.
    assert (Hd : decides (of_ann grant_text) = true) by (vm_compute; reflexivity).
    destruct (every_decision_is_told (of_ann grant_text) at_start _ _ sample_audited Hd E')
      as (es & Ht & _ & e & -> & He & _).
    exists e, message. split; [exact E'|]. split; [exact Ht|].
    assert (Hcodes : map (λ e, (ev_reason_code e, ev_correlation_id e))
      (g_told (AclParserOverride false (of_ann grant_text) at_start).1) = [("mgmt_unauthorized", "t1")])
      by (vm_compute; reflexivity).
    rewrite Ht in Hcodes. injection Hcodes as Hc Hi. split; [exact Hc|]. split; [exact Hi|exact He].
Defined.

(** ** The batch the sample's grammar reads *)
Lemma management_batch_runs_whole_witness :
  let calls := [MakeAdminCall built_in "acl_grant_role" [Text "seller"; Text "ann"]] in
  ParseMgmtBatch built_in [] grant_text EmptyString = Ok calls
  ∧ calls ≠ [] ∧ (BatchHasMgmtStatement (keywords []) (Heads grant_text 6) = true → BatchIsAllMgmt (keywords []) (Heads grant_text 6) = true)
  ∧ ∃ l, ReadManagement grant_text = Read l ∧ Forall2 (compiles built_in EmptyString) l calls.
Proof.
  intros calls. assert (E : ParseMgmtBatch built_in [] grant_text EmptyString = Ok calls) by (vm_compute; reflexivity).
  split; [exact E|]. exact (management_batch_runs_whole built_in [] grant_text EmptyString calls E).
Defined.
